(* ===== verification/_CoqProject ===== *)
-Q . S2P
Runtime.v
Prelude.v
Warshall.v
Grammar.v
Closure.v
Lr0.v
Digraph.v
Lalr.v
Transpose.v
Gotos.v
Lookaheads.v
Mkpar.v
Packing.v
Vectors.v
Mlvalues.v
Md5.v
Str.v
Intext.v
Ints.v
Memory.v
Minorgc.v
Scanning.v
Promotion.v
Addrmap.v
Majorgc.v
Marking.v
Finalise.v
FinaliseSpec.v
Finalisers.v
Hash.v
Interp.v
Postable.v
Extern.v
Intern.v
Marshal.v
Roundtrip.v
Marshaling.v
Compare.v
CompareSpec.v
Lexing.v
Skiplist.v
Parsing.v
Output.v
Generated.v
Ocamlyacc.v
Reader.v
ReaderSpec.v
Regexp.v
Prng.v
