(* ===== verification/Runtime.v ===== *)
(** * The C code of the OCaml runtime and of ocamlyacc: a verification

    The repository is the OCaml compiler with the Flambda backend.  Its C code is the
    runtime system ([ocaml/runtime]), an older copy of it ([ocaml/runtime4]), the parser
    generator ([ocaml/yacc]) and the stubs of a few libraries ([ocaml/otherlibs]).  This
    development models the algorithms of the runtime that are sequential and do not
    depend on the operating system, on a 64-bit little-endian platform, and proves what
    they promise to the OCaml program above them.

    ** Vocabulary

    [Prelude.v].  A routine is a function to [result]: it returns, raises an OCaml
    exception, has undefined behaviour ([Undef]: a read or a write outside an object, a
    shift by too much), or exhausts the fuel of a loop ([NoFuel]).  A theorem that says
    [... = Ok ...] thus says that the C code ends, without undefined behaviour.  Machine
    words are integers in [Z]; their wrap-around is written ([u32], [s64], ...).  Arrays
    are lists read with [rd] and written with [wr], which check the bounds.  State is
    passed explicitly.  Every loop whose end is not structural takes its fuel, given by
    the definitions of the entry points themselves: a bound on the bytes left, on the
    cells of a list, on the slots of a table.  Where the length of a run depends on the
    data, the theorem gives the fuel: the visits of a graph, the turns of a comparison,
    the steps of an automaton.

    ** Parts

    - Values and memory.  [Mlvalues.v] (caml/mlvalues.h): tagged integers, headers,
      closure information.  [Memory.v]: the heap as a finite map from addresses to words,
      the field macros, allocation at a fresh address.  [Str.v] (str.c, string allocation
      of alloc.c): strings as blocks with their padding; loads, stores, copies,
      comparison.  [Ints.v] (ints.c): integers read from strings and printed, boxed
      integers, byte swaps.
    - Digests and generators.  [Md5.v] (md5.c), against RFC 1321; [Prng.v] (prng.c);
      [Hash.v] (hash.c), which walks the heap.
    - Structural operations.  [Compare.v] (compare.c) is the traversal with its stack;
      [CompareSpec.v] the order of trees that it computes.
    - Marshaling.  [Intext.v]: the byte streams of both sides.  [Postable.v]: the table of
      the positions of the objects written, with the interface [PositionTable] (a class)
      through which the writer uses it.  [Extern.v] (extern.c) writes, [Intern.v]
      (intern.c) reads.  [Marshal.v]: the encodings of the items; [Roundtrip.v]: the two
      loops in lockstep; [Marshaling.v]: the entry points and the round trip.
    - The bytecode interpreter.  [Interp.v] (interp.c, instruct.h, and the stacks of
      fiber.h): the registers, a step for every instruction, exceptions, methods, effects
      with their fibers.
    - Automata.  [Lexing.v] (lexing.c, and the refill of stdlib/lexing.ml): the two lexer
      engines.  [Parsing.v] (parsing.c, and the driver of stdlib/parsing.ml): the pushdown
      automaton of ocamlyacc parsers.  [Regexp.v] (otherlibs/str/strstubs.c): the
      backtracking automaton of the library Str, searching, replacement texts.
    - The parser generator (ocaml/yacc).  [Warshall.v] (warshall.c): the closures of bit
      matrices.  [Grammar.v] (end of reader.c, start of lr0.c): the packed arrays of a
      grammar, with the predicate [lays_out] that relates them to the productions, and
      the nullable symbols.  [Closure.v] (closure.c): the closures of sets of items.
      [Lr0.v] (lr0.c): the states, their transitions and their reductions.  [Digraph.v],
      [Lalr.v] (lalr.c): the numbering of the gotos, the relations between them, the
      traversal that unites rows along a relation, and the lookaheads; [Transpose.v],
      [Gotos.v] and [Lookaheads.v] hold the proofs about them.  [Mkpar.v] (mkpar.c): the
      actions of each state, the removal of the conflicts, the default reductions.
      [Packing.v] and [Output.v] (output.c): the vectors of the actions and of the gotos,
      their packing in one array, the literals of the tables; [Vectors.v] holds the proofs
      about the vectors.  [Generated.v] proves what the engine of [Parsing.v] does on these
      tables, and [Ocamlyacc.v] (main.c) composes the passes.  [Reader.v] (symtab.c, end of
      reader.c): the table of the symbols, the rules of the entry points, the numbers and the
      values of the symbols; [ReaderSpec.v] proves that they give what the passes take.
    - The garbage collector, for a program of one domain.  [Minorgc.v] (minor_gc.c, the
      scanning of stacks and local roots of fiber.c): the promotion of the young blocks,
      over an allocator of the major heap that is an interface ([SharedHeapSpec]);
      [Promotion.v] holds its proof.  [Majorgc.v] (major_gc.c, roots.c): the marking, with
      its mark stack, the compressed stack, the prefetch buffer and the budgets;
      [Marking.v] holds its proof.  [Scanning.v] proves once what the scanning of stacks and
      roots does with any action, for the two collectors.  [Finalise.v] (finalise.c): the
      finalisation functions, their updates at the end of the two collections and their
      calls; [FinaliseSpec.v] proves each operation and [Finalisers.v] their sequences.
    - Data structures.  [Skiplist.v] (skiplist.c); [Addrmap.v] (addrmap.c), the hash table
      under the compressed stack.

    The names of the definitions are those of the C functions; the body of a large
    function is cut into definitions named after what they do ([lex_char],
    [compare_blocks], [engine_reduce]), composed as the C code composes them.  A struct is
    a record with the fields of the code.

    ** What the theorems show

    - Refinement of an abstract specification: the position table is a finite map, unless
      the allocator refuses a growth, which raises [Out_of_memory]
      ([position_table_refines_map]); a skip list is a dictionary, for any sequence of
      operations and any levels drawn ([skiplist_refines_dictionary]); an address map is a
      finite map through its growths ([addrmap_refines_map]); the parser engine
      is the LR automaton on a list ([parse_engine_refines_lr]); string comparison is the
      lexicographic order ([caml_string_compare_correct]).
    - Safety of the collections: a minor collection copies the graph of the young blocks,
      updates every root and every promoted field, and leaves no pointer to the minor heap
      ([minor_collection_correct]); a marking cycle marks the blocks that are reachable from
      the roots and no other, whatever the stack, the budgets and the compressions were, and
      whatever the allocator refuses, when the large blocks have room in the mark stack
      ([marking_correct]); the finalisers of a domain are lists, through the sequences of
      registrations, collections and calls that avoid the case of
      [minor_update_loses_finalisers], and none is lost or called twice
      ([finalisers_conserved]).
    - Round trips: a graph of values, shared and cyclic, marshaled and read back is an
      isomorphic fresh copy ([marshal_round_trip]); boxed integers and printed integers are
      read back.
    - Equivalence with a reference: polymorphic comparison and the order of trees
      ([polymorphic_comparison], [caml_compare_total_order]); digests and RFC 1321, however
      the input is cut ([md5_incremental]); reading integers and the positional value with
      its overflow test ([integers_of_strings]); the two lexer engines
      ([new_lex_engine_same]).
    - Liveness: a generated lexer ends with the token that its automaton defines on the
      whole input, however the reads cut it ([token_longest_match]).
    - Composition of the two sides of a parser, the generator and the engine: the generator
      ends, with a fatal error for one of the causes of [fails], or with tables that, read
      from their literals as the engine reads them, are the actions and the gotos of the
      LALR(1) parser ([main_correct]); for a grammar without the token [error], when
      [yyparse] ends with an exception, the exception is the answer of an entry point, for a
      sentence of the grammar and with the attributes that the actions compute on its
      derivation, or it comes from the lexer, from the action of another rule or from the
      function called on errors, as [explained] says ([generated_parser_sound]).
    - Regular expressions: the automaton with its undo stack finds the match of the plain
      backtracking search ([re_match_backtracking]); searches find the first match
      ([re_search_first]); templates expand ([re_replacement_text_correct]).
    - Functional behaviour and invariants of the interpreter: tagged arithmetic on every
      operand, exceptions and the chain of handlers, method lookup with its cache, the
      fibers of effects.
    - The parser generator: the closure of a set of items ([closure_correct]); the states
      are the canonical collection of sets of LR(0) items ([lr0_correct]); the traversal
      of a relation with cycles ([digraph_correct]); the lookaheads are those of the
      relations reads, includes and lookback, defined inductively on the transitions
      ([lalr_correct]); the actions left in each state are those that the precedences
      choose ([make_parser_correct]); the packed table holds each vector and nothing else at
      its places ([pack_table_correct]); the nullable symbols ([set_nullable_correct]);
      the numbers and the values of the symbols, and the rules packed
      ([finish_reading_correct]).  The bounds that
      the code does not test are hypotheses, gathered with the packed grammar in
      [reader_output] ([well_packed] is the part that the reader ensures): a number of
      variables that is not a multiple of 32, arrays and shorts that are long enough
      ([fits]), tokens whose values do not hide an action of a state ([rows_apart]).  Each
      failure has its condition: too many states, gotos or elements, a table without room
      ([table_full]), a number that is not a short.
    - Invariance and termination of hashing on isomorphic heaps ([caml_hash_isomorphic]);
      the closures of relations ([reflexive_transitive_closure_correct]).
    - Bounds and errors: loads and stores in byte sequences ([bytes_access]), allocation
      and its failures ([string_allocation]), division and the width of boxed integers.

    Each part with hypotheses has a witness, a concrete run where they hold.

    ** What is outside the models

    - Code outside the repository, and OCaml code that the C code calls back, is a
      parameter: C primitives, the operations of custom blocks, the table of code
      fragments, lexers' inputs, semantic actions, [vsnprintf].  Where a theorem relies on
      them the hypothesis is stated.
    - Domains, signals and their races: the models are of a program of one domain, where
      every compare-and-exchange succeeds; pending actions appear as an outcome (the
      exception they raise) where a loop polls for them.  Outside the collector, the models
      allocate fresh memory and no collection moves a block.
    - Of the collector: sweeping, the pools of the shared heap, compaction, the marking of
      ephemerons, memprof, the phases of a cycle and their pacing.  The theorem on marking
      takes from the shared heap that the blocks of the mark stack are in the heap of the
      domain: without it the stack can overflow, as
      [mark_stack_push_range_overflow] shows; the same may happen when its growth is refused
      ([mark_stack_push_range_no_memory]).
    - Channels, the operating-system interface, loading of code, debugging and tracing:
      system calls and instrumentation.
    - Memory that runs out: where the code handles the refusal of an allocation in the parts
      above, the definitions take an oracle ([malloc_ok]) and model it (the position table,
      address maps, the mark stack, finalisers); the stack of the comparison is taken to have its memory up to its limit, and ocamlyacc, which ends with
      [no_space], to have all it asks for; the other allocations succeed.
    - Floating-point arithmetic: doubles are their 64 bits.
    - Of the modelled files: local allocations of strings, marshaling to channels and with
      compression, conversions between integers and floats, the instructions of the
      debugger.
    - Of the parser generator: the text of the grammars, which the theorem on [finish_reading]
      takes as read ([reads_grammar]); the listing of the automaton.
    - Primitives on arrays, objects and bigarrays (array.c, obj.c, bigarray.c), and the size
      of reachable words (extern.c). *)
