(* ===== verification/Prelude.v ===== *)
(** * Prelude: the vocabulary the components share

    - [result]: what a C routine of the runtime does: return a value, raise an
      OCaml exception, have undefined behaviour (a read or a write outside an
      object), or run out of the fuel that bounds a loop of the model;
    - fixed-width machine integers as [Z], with their wrap-around written out
      ([u8], [u16], [u32], [u64], [s16], [s32], [s64], [s63]);
    - C arrays as lists with [Z] indices ([rd], [wr]);
    - the bit-level and list lemmas and tactics used by every component. *)

From Stdlib Require Export ZArith Lia Bool Btauto.
From stdpp Require Export base tactics option list numbers strings.
#[global] Open Scope Z_scope.

(** ** Outcomes of a C routine *)

Inductive exn :=
  | Failure (msg : string)            (* caml_failwith *)
  | Invalid_argument (msg : string)   (* caml_invalid_argument *)
  | Zero_divide                       (* caml_raise_zero_divide *)
  | Bound_error                       (* caml_array_bound_error *)
  | Out_of_memory                     (* caml_raise_out_of_memory *)
  | End_of_file                       (* caml_raise_end_of_file *)
  | Fatal_error (msg : string).       (* caml_fatal_error: the program ends *)

Definition caml_fatal_out_of_memory : exn := Fatal_error "Out of memory".

#[export] Instance exn_eq_dec : EqDecision exn.
Proof. solve_decision. Defined.

Inductive result (A : Type) :=
  | Ok (a : A)
  | Raise (e : exn)
  | Undef                  (* undefined behaviour of the C program *)
  | NoFuel.                (* the model's loop bound was exhausted *)
Arguments Ok {A} _.
Arguments Raise {A} _.
Arguments Undef {A}.
Arguments NoFuel {A}.

#[export] Instance result_eq_dec `{EqDecision A} : EqDecision (result A).
Proof. solve_decision. Defined.

Definition rbind {A B} (m : result A) (k : A -> result B) : result B :=
  match m with
  | Ok a => k a
  | Raise e => Raise e
  | Undef => Undef
  | NoFuel => NoFuel
  end.

Definition rmap {A B} (f : A -> B) (m : result A) : result B :=
  rbind m (fun a => Ok (f a)).

Declare Scope c_scope.
Delimit Scope c_scope with c.
Notation "'let*' x ':=' m 'in' k" := (rbind m (fun x => k))
  (at level 10, x pattern, m at level 200, k at level 200) : c_scope.
Notation "'check' b 'else' e ';' k" := (if (b : bool) then k else e)
  (at level 10, b at level 100, e at level 100, k at level 200) : c_scope.
#[global] Open Scope c_scope.

Lemma rbind_Ok {A B} (m : result A) (k : A -> result B) b :
  rbind m k = Ok b <-> exists a, m = Ok a /\ k a = Ok b.
Proof.
  split; [|intros (a & -> & ?); done].
  destruct m; simpl; try discriminate. eauto.
Qed.

Definition is_ok {A} (m : result A) : bool :=
  match m with Ok _ => true | _ => false end.

Definition of_option {A} (o : option A) : result A :=
  match o with Some a => Ok a | None => Undef end.

(** ** Arithmetic automation *)

(** [lia] after replacing every division and remainder by its defining
    equations. *)
Ltac zlia := Z.to_euclidean_division_equations; lia.

(** Case analysis on the first conditional of the goal. *)
Ltac case_if E :=
  match goal with |- context [if ?b then _ else _] => destruct b eqn:E end.

(** ** Machine integers *)

Definition u8 (x : Z) : Z := x mod 2 ^ 8.
Definition u16 (x : Z) : Z := x mod 2 ^ 16.
Definition u32 (x : Z) : Z := x mod 2 ^ 32.
Definition u64 (x : Z) : Z := x mod 2 ^ 64.
Definition s16 (x : Z) : Z := (x + 2 ^ 15) mod 2 ^ 16 - 2 ^ 15.
Definition s32 (x : Z) : Z := (x + 2 ^ 31) mod 2 ^ 32 - 2 ^ 31.
Definition s64 (x : Z) : Z := (x + 2 ^ 63) mod 2 ^ 64 - 2 ^ 63.
(** the integers of the OCaml language on a 64-bit platform *)
Definition s63 (x : Z) : Z := (x + 2 ^ 62) mod 2 ^ 63 - 2 ^ 62.

Definition is_u8 (x : Z) : Prop := 0 <= x < 2 ^ 8.
Definition is_u32 (x : Z) : Prop := 0 <= x < 2 ^ 32.
Definition is_u64 (x : Z) : Prop := 0 <= x < 2 ^ 64.
Definition is_s32 (x : Z) : Prop := - 2 ^ 31 <= x < 2 ^ 31.
Definition is_s64 (x : Z) : Prop := - 2 ^ 63 <= x < 2 ^ 63.
Definition is_s63 (x : Z) : Prop := - 2 ^ 62 <= x < 2 ^ 62.

Ltac wunfold :=
  unfold u8, u16, u32, u64, s16, s32, s64, s63,
    is_u8, is_u32, is_u64, is_s32, is_s64, is_s63 in *.

(** Linear goals about wrapped integers: name the quotient of each reduction. *)
Ltac solve_word := wunfold; zlia.

Create HintDb word.
Create Rewrite HintDb word.

Lemma u8_range x : is_u8 (u8 x). Proof. solve_word. Qed.
Lemma u32_range x : is_u32 (u32 x). Proof. solve_word. Qed.
Lemma u64_range x : is_u64 (u64 x). Proof. solve_word. Qed.
Lemma s32_range x : is_s32 (s32 x). Proof. solve_word. Qed.
Lemma s64_range x : is_s64 (s64 x). Proof. solve_word. Qed.
Lemma s63_range x : is_s63 (s63 x). Proof. solve_word. Qed.
Lemma u8_id x : is_u8 x -> u8 x = x. Proof. solve_word. Qed.
Lemma u32_id x : is_u32 x -> u32 x = x. Proof. solve_word. Qed.
Lemma u64_id x : is_u64 x -> u64 x = x. Proof. solve_word. Qed.
Lemma s32_id x : is_s32 x -> s32 x = x. Proof. solve_word. Qed.
Lemma s64_id x : is_s64 x -> s64 x = x. Proof. solve_word. Qed.
Lemma s63_id x : is_s63 x -> s63 x = x. Proof. solve_word. Qed.
Lemma s32_u32 x : s32 (u32 x) = s32 x. Proof. solve_word. Qed.
Lemma u32_s32 x : u32 (s32 x) = u32 x. Proof. solve_word. Qed.
Lemma s64_u64 x : s64 (u64 x) = s64 x. Proof. solve_word. Qed.
Lemma u64_s64 x : u64 (s64 x) = u64 x. Proof. solve_word. Qed.
Lemma u32_u32 x : u32 (u32 x) = u32 x. Proof. solve_word. Qed.
Lemma u64_u64 x : u64 (u64 x) = u64 x. Proof. solve_word. Qed.
Lemma s32_s32 x : s32 (s32 x) = s32 x. Proof. solve_word. Qed.
Lemma s64_s64 x : s64 (s64 x) = s64 x. Proof. solve_word. Qed.

#[export] Hint Resolve u8_range u32_range u64_range s32_range s64_range s63_range : word.
#[export] Hint Rewrite s32_u32 u32_s32 s64_u64 u64_s64 u32_u32 u64_u64 s32_s32 s64_s64 : word.

(** ** Bits *)

(** Equality of integers by extensionality on their bits: [zbits] reduces it to
    boolean identities about bits and inequalities about positions. *)

Lemma testbit_mod_pow2' a n i :
  0 <= n -> Z.testbit (a mod 2 ^ n) i = (i <? n) && Z.testbit a i.
Proof. apply Z.testbit_mod_pow2. Qed.

Lemma testbit_shiftl' a n i :
  Z.testbit (Z.shiftl a n) i = (0 <=? i) && Z.testbit a (i - n).
Proof.
  destruct (Z.leb_spec 0 i); simpl.
  - by apply Z.shiftl_spec.
  - by apply Z.testbit_neg_r.
Qed.

Lemma testbit_shiftr' a n i :
  Z.testbit (Z.shiftr a n) i = (0 <=? i) && Z.testbit a (i + n).
Proof.
  destruct (Z.leb_spec 0 i); simpl.
  - by apply Z.shiftr_spec.
  - by apply Z.testbit_neg_r.
Qed.

Lemma testbit_neg a i : i < 0 -> Z.testbit a i = false.
Proof. apply Z.testbit_neg_r. Qed.

Lemma testbit_high a w i : 0 <= a < 2 ^ w -> w <= i -> Z.testbit a i = false.
Proof.
  intros Ha Hi. destruct (decide (w < 0)).
  - rewrite Z.pow_neg_r in Ha by lia. lia.
  - rewrite <- (Z.mod_small a (2 ^ w)) by done. apply Z.mod_pow2_bits_high. lia.
Qed.

Lemma bits_range a w :
  0 <= w -> 0 <= a -> (forall i, w <= i -> Z.testbit a i = false) -> 0 <= a < 2 ^ w.
Proof. intros Hw Ha Hb. apply Z.bounded_iff_bits_nonneg'; [done..|]. exact Hb. Qed.

Lemma testbit_lnot' a i :
  Z.testbit (Z.lnot a) i = (0 <=? i) && negb (Z.testbit a i).
Proof.
  destruct (Z.leb_spec 0 i); simpl.
  - by apply Z.lnot_spec.
  - by apply Z.testbit_neg_r.
Qed.

Create Rewrite HintDb zbits.
#[export] Hint Rewrite
  Z.lor_spec Z.lxor_spec Z.land_spec testbit_lnot'
  testbit_shiftl' testbit_shiftr' Z.testbit_0_l : zbits.
#[export] Hint Rewrite testbit_mod_pow2' using lia : zbits.
#[export] Hint Rewrite Z.testbit_ones using lia : zbits.

Ltac zbits_step :=
  match goal with
  | |- context [?a <=? ?b] => destruct (Z.leb_spec a b)
  | |- context [?a <? ?b] => destruct (Z.ltb_spec a b)
  | |- context [Z.testbit ?a ?i] => rewrite (testbit_neg a i) by lia
  end.

(** Case analysis on the integer comparisons of the goal. *)
Ltac zcases := repeat (zbits_step; simpl; try lia); try done.

Ltac zbits_norm_index :=
  repeat match goal with
  | |- context [Z.testbit ?a ?i] =>
      match goal with
      | |- context [Z.testbit a ?j] =>
          tryif constr_eq i j then fail else replace j with i by lia
      end
  end.

Ltac zbits_core :=
  autorewrite with zbits; simpl;
  repeat (zbits_step; simpl; try lia); try (exfalso; lia);
  zbits_norm_index; try btauto.

Ltac zbits := apply Z.bits_inj'; intros ?i ?Hi; zbits_core.

(** ** C arrays *)

Definition zlen {A} (l : list A) : Z := Z.of_nat (length l).

(** [l[i]] of a C array: undefined outside the bounds. *)
Definition rd {A} (l : list A) (i : Z) : result A :=
  if i <? 0 then Undef else of_option (l !! Z.to_nat i).

(** [l[i] = x]: undefined outside the bounds. *)
Definition wr {A} (l : list A) (i : Z) (x : A) : result (list A) :=
  if (0 <=? i) && (i <? zlen l) then Ok (<[Z.to_nat i := x]> l) else Undef.

(** Total forms for indices known to be in range. *)
Definition zget (l : list Z) (i : Z) : Z := nth (Z.to_nat i) l 0.

Lemma zlen_nonneg {A} (l : list A) : 0 <= zlen l.
Proof. unfold zlen. lia. Qed.
#[export] Hint Resolve zlen_nonneg : word.

Lemma zlen_nil {A} : zlen (@nil A) = 0.
Proof. done. Qed.

Lemma zlen_app {A} (l k : list A) : zlen (l ++ k) = zlen l + zlen k.
Proof. unfold zlen. rewrite length_app. lia. Qed.

Lemma zlen_cons {A} (x : A) l : zlen (x :: l) = 1 + zlen l.
Proof. unfold zlen. simpl. lia. Qed.

Lemma zlen_insert {A} (l : list A) i x : zlen (<[i := x]> l) = zlen l.
Proof. unfold zlen. by rewrite length_insert. Qed.

#[export] Hint Rewrite @zlen_app @zlen_cons @zlen_insert : word.

Lemma rd_Ok {A} (l : list A) i x :
  rd l i = Ok x <-> 0 <= i /\ l !! Z.to_nat i = Some x.
Proof.
  unfold rd, of_option. destruct (Z.ltb_spec i 0).
  - split; [done|]. lia.
  - destruct (l !! Z.to_nat i) eqn:E.
    + split; [intros [= ->]; done|]. intros [_ [= ->]]. done.
    + split; [done|]. intros [_ ?]. done.
Qed.

Lemma rd_in_range {A} (l : list A) i :
  0 <= i < zlen l -> exists x, rd l i = Ok x.
Proof.
  intros Hi. unfold zlen in Hi.
  destruct (lookup_lt_is_Some_2 l (Z.to_nat i)) as [x Hx]; [lia|].
  exists x. apply rd_Ok. split; [lia|done].
Qed.

Lemma rd_range {A} (l : list A) i x : rd l i = Ok x -> 0 <= i < zlen l.
Proof.
  intros [Hi Hx]%rd_Ok. apply lookup_lt_Some in Hx. unfold zlen. lia.
Qed.

Lemma rd_zget (l : list Z) i : 0 <= i < zlen l -> rd l i = Ok (zget l i).
Proof.
  intros Hi. apply rd_Ok. split; [lia|]. unfold zget, zlen in *.
  destruct (lookup_lt_is_Some_2 l (Z.to_nat i)) as [x Hx]; [lia|].
  rewrite Hx. f_equal. symmetry. by apply nth_lookup_Some.
Qed.

Lemma wr_Ok {A} (l : list A) i x l' :
  wr l i x = Ok l' <-> 0 <= i < zlen l /\ l' = <[Z.to_nat i := x]> l.
Proof.
  unfold wr. destruct (Z.leb_spec 0 i), (Z.ltb_spec i (zlen l)); simpl;
    split; try (intros [= <-]); try lia; try (intros [? ->]); try lia; done.
Qed.

Lemma wr_in_range {A} (l : list A) i x :
  0 <= i < zlen l -> wr l i x = Ok (<[Z.to_nat i := x]> l).
Proof. intros. apply wr_Ok. done. Qed.

Lemma zget_insert (l : list Z) i j x :
  0 <= i < zlen l -> 0 <= j ->
  zget (<[Z.to_nat i := x]> l) j = if i =? j then x else zget l j.
Proof.
  intros Hi Hj. unfold zget, zlen in *. rewrite !nth_lookup.
  destruct (Z.eqb_spec i j) as [->|].
  - rewrite list_lookup_insert_eq by lia. done.
  - rewrite list_lookup_insert_ne by lia. done.
Qed.

Lemma zlen_replicate {A} n (x : A) : zlen (replicate n x) = Z.of_nat n.
Proof. unfold zlen. by rewrite length_replicate. Qed.

Lemma zlen_map {A B} (f : A -> B) l : zlen (map f l) = zlen l.
Proof. unfold zlen. by rewrite length_map. Qed.

Lemma rd_cons {A} (x : A) l i : 0 < i -> rd (x :: l) i = rd l (i - 1).
Proof.
  intros H. unfold rd. destruct (Z.ltb_spec i 0), (Z.ltb_spec (i - 1) 0); try lia.
  by replace (Z.to_nat i) with (S (Z.to_nat (i - 1))) by lia.
Qed.

Lemma rd_app_r {A} (l1 l2 : list A) i : zlen l1 <= i -> rd (l1 ++ l2) i = rd l2 (i - zlen l1).
Proof.
  intros H. unfold rd, zlen in *. destruct (Z.ltb_spec i 0), (Z.ltb_spec (i - Z.of_nat (length l1)) 0); try lia.
  rewrite lookup_app_r by lia. do 2 f_equal. lia.
Qed.

Lemma rd_app_l {A} (l1 l2 : list A) i : i < zlen l1 -> rd (l1 ++ l2) i = rd l1 i.
Proof.
  intros H. unfold rd, zlen in *. destruct (Z.ltb_spec i 0); [done|]. by rewrite lookup_app_l by lia.
Qed.

Lemma zlen_snoc {A} (c : list A) x : zlen (c ++ [x]) = zlen c + 1.
Proof. by rewrite zlen_app. Qed.

Lemma nodup_length (l : list Z) a b : NoDup l -> Forall (fun x => a <= x < b) l -> zlen l <= Z.max 0 (b - a).
Proof.
  intros Hn Hl. assert (H : l ⊆+ seqZ a (b - a)).
  { apply NoDup_submseteq; [done|]. intros x Hx. rewrite Forall_forall in Hl. apply elem_of_seqZ. pose proof (Hl x Hx). cbn in *. lia. }
  apply submseteq_length in H. rewrite length_seqZ in H. unfold zlen. lia.
Qed.

Lemma rd_mid {A} (a c : list A) x : rd (a ++ x :: c) (zlen a) = Ok x.
Proof. by rewrite rd_app_r, Z.sub_diag by lia. Qed.

Lemma rd_insert_ne {A} (l : list A) i j x : 0 <= i -> 0 <= j -> i <> j -> rd (<[Z.to_nat i := x]> l) j = rd l j.
Proof. intros Hi Hj Ne. unfold rd. destruct (Z.ltb_spec j 0); [done|]. by rewrite list_lookup_insert_ne by lia. Qed.

Lemma rd_insert_eq {A} (l : list A) i x : 0 <= i < zlen l -> rd (<[Z.to_nat i := x]> l) i = Ok x.
Proof. intros Hi. apply rd_Ok. split; [lia|]. apply list_lookup_insert_eq. unfold zlen in Hi. lia. Qed.

Lemma rd_map {A B} (f : A -> B) (l : list A) i x : rd (map f l) i = Ok x <-> exists y, rd l i = Ok y /\ x = f y.
Proof.
  rewrite rd_Ok, list_lookup_fmap_Some. split.
  - intros (H & y & Q1 & Q2). exists y. rewrite rd_Ok. done.
  - intros (y & [H E]%rd_Ok & Q). split; [done|]. by exists y.
Qed.

Lemma rd_grown {A} (a b : list A) n x : rd a n = Ok x -> rd (a ++ b) n = Ok x.
Proof. intros E. apply rd_range in E as R. by rewrite rd_app_l by lia. Qed.

(** ** Bytes *)

Definition is_bytes (l : list Z) : Prop := Forall is_u8 l.

(** ** Loops *)

(** [for (i = 0; i < n; i++) body]: the body run on [n] successive indices. *)
Fixpoint for_loop {A} (n : nat) (i : Z) (body : Z -> A -> result A) (a : A) : result A :=
  match n with
  | O => Ok a
  | S n' => let* a' := body i a in for_loop n' (i + 1) body a'
  end.

Lemma for_loop_inv {A} (P : Z -> A -> Prop) n : forall i body (a : A),
  P i a ->
  (forall j a, i <= j < i + Z.of_nat n -> P j a ->
     exists a', body j a = Ok a' /\ P (j + 1) a') ->
  exists a', for_loop n i body a = Ok a' /\ P (i + Z.of_nat n) a'.
Proof.
  induction n as [|n IH]; intros i body a Ha Hb.
  - exists a. replace (i + Z.of_nat 0) with i by lia. done.
  - destruct (Hb i a) as (a1 & E1 & H1); [lia|done|].
    simpl. rewrite E1. simpl.
    destruct (IH (i + 1) body a1) as (a2 & E2 & H2); [done|..].
    { intros j a' Hj. apply Hb. lia. }
    exists a2. split; [done|]. by replace (i + Z.of_nat (S n)) with (i + 1 + Z.of_nat n) by lia.
Qed.

(** ** Routines that may fail with a given exception *)

(** [r] is the exception [E], or a value that satisfies [Q] *)
Definition ok_or (E : exn) {A} (r : result A) (Q : A -> Prop) : Prop :=
  match r with
  | Ok a => Q a
  | Raise e => e = E
  | _ => False
  end.

Lemma ok_or_bind E {A B} (r : result A) (k : A -> result B) P Q :
  ok_or E r P -> (forall a, P a -> ok_or E (k a) Q) -> ok_or E (rbind r k) Q.
Proof. destruct r; simpl; try done. intros H K. by apply K. Qed.

Lemma ok_or_mono E {A} (r : result A) (P Q : A -> Prop) :
  ok_or E r P -> (forall a, P a -> Q a) -> ok_or E r Q.
Proof. destruct r; simpl; eauto. Qed.

Lemma ok_or_Ok E {A} (r : result A) (Q : A -> Prop) :
  (exists a, r = Ok a /\ Q a) -> ok_or E r Q.
Proof. by intros (a & -> & H). Qed.

Lemma for_loop_ok_or E {A} (P : Z -> A -> Prop) n : forall i body (a : A),
  P i a ->
  (forall j a, i <= j < i + Z.of_nat n -> P j a -> ok_or E (body j a) (P (j + 1))) ->
  ok_or E (for_loop n i body a) (P (i + Z.of_nat n)).
Proof.
  induction n as [|n IH]; intros i body a Ha Hb.
  - simpl. by rewrite Z.add_0_r.
  - eapply ok_or_bind; [apply (Hb i a); [lia|done]|]. intros a1 H1.
    replace (i + Z.of_nat (S n)) with (i + 1 + Z.of_nat n) by lia.
    apply IH; [done|]. intros j a2 Hj. apply Hb. lia.
Qed.

(** [while (cond) body], with a bound on the number of iterations. *)
Fixpoint while_loop {S} (fuel : nat) (cond : S -> bool) (body : S -> result S)
    (s : S) : result S :=
  match fuel with
  | O => NoFuel
  | S fuel' =>
      if cond s then let* s' := body s in while_loop fuel' cond body s' else Ok s
  end.

(** Total correctness: an invariant that the body preserves while a
    nonnegative measure decreases; fuel above the measure is enough. *)
Lemma while_loop_inv {S} (I : S -> Prop) (m : S -> Z) cond body :
  (forall s, I s -> 0 <= m s) ->
  (forall s, I s -> cond s = true ->
     exists s', body s = Ok s' /\ I s' /\ m s' < m s) ->
  forall fuel s, I s -> m s < Z.of_nat fuel ->
  exists s', while_loop fuel cond body s = Ok s' /\ I s' /\ cond s' = false.
Proof.
  intros Hpos Hstep fuel. induction fuel as [|fuel IH]; intros s Hs Hm.
  - specialize (Hpos s Hs). lia.
  - simpl. destruct (cond s) eqn:E; [|eauto].
    destruct (Hstep s Hs E) as (s' & -> & Hs' & Hlt). simpl.
    apply IH; [done|lia].
Qed.

(** The result does not depend on the fuel once there is enough of it. *)
Lemma while_loop_fuel {S} fuel1 fuel2 cond body (s s' : S) :
  while_loop fuel1 cond body s = Ok s' -> (fuel1 <= fuel2)%nat ->
  while_loop fuel2 cond body s = Ok s'.
Proof.
  revert fuel2 s. induction fuel1 as [|f1 IH]; intros f2 s H Hle; [done|].
  destruct f2 as [|f2]; [lia|]. simpl in *.
  destruct (cond s); [|done].
  apply rbind_Ok in H as (s1 & -> & H). simpl. apply IH; [done|lia].
Qed.

(** One bit tested with a mask. *)
Lemma land_pow2_nonzero x b :
  0 <= b -> negb (Z.land x (2 ^ b) =? 0) = Z.testbit x b.
Proof.
  intros Hb. destruct (Z.testbit x b) eqn:E.
  - apply negb_true_iff, Z.eqb_neq. intros H0.
    assert (Z.testbit (Z.land x (2 ^ b)) b = true) as H.
    { rewrite Z.land_spec, E, Z.pow2_bits_true by done. done. }
    rewrite H0, Z.testbit_0_l in H. done.
  - apply negb_false_iff, Z.eqb_eq. apply Z.bits_inj'. intros i Hi.
    rewrite Z.land_spec, Z.testbit_0_l, Z.pow2_bits_eqb by done.
    destruct (Z.eqb_spec b i) as [->|]; [by rewrite E|apply andb_false_r].
Qed.

(** ** Little-endian words and memory copies *)

(** the integer stored by the bytes [bs], least significant first *)
Fixpoint le_word (bs : list Z) : Z :=
  match bs with
  | [] => 0
  | b :: bs => b + 256 * le_word bs
  end.

(** the [n] low bytes of [w], least significant first *)
Fixpoint le_bytes (n : nat) (w : Z) : list Z :=
  match n with
  | O => []
  | S n => w mod 256 :: le_bytes n (w / 256)
  end.

Lemma le_bytes_length n w : length (le_bytes n w) = n.
Proof. revert w. induction n; simpl; auto. Qed.

Lemma le_bytes_is_bytes n w : is_bytes (le_bytes n w).
Proof.
  unfold is_bytes. revert w. induction n; simpl; constructor; auto.
  unfold is_u8. zlia.
Qed.

Lemma pow_256_succ n : 256 ^ Z.of_nat (S n) = 256 * 256 ^ Z.of_nat n.
Proof. rewrite Nat2Z.inj_succ, Z.pow_succ_r by lia. done. Qed.

Lemma le_word_bytes n w : le_word (le_bytes n w) = w mod 256 ^ Z.of_nat n.
Proof.
  revert w. induction n as [|n IH]; intros w.
  - simpl. by rewrite Z.mod_1_r.
  - simpl le_word. rewrite IH, pow_256_succ.
    assert (0 < 256 ^ Z.of_nat n) by (apply Z.pow_pos_nonneg; lia).
    rewrite Z.rem_mul_r by lia. lia.
Qed.

Lemma le_bytes_word bs : is_bytes bs -> le_bytes (length bs) (le_word bs) = bs.
Proof.
  unfold is_bytes. induction 1 as [|b bs Hb _ IH]; simpl; [done|].
  unfold is_u8 in Hb. f_equal; [zlia|].
  replace ((b + 256 * le_word bs) / 256) with (le_word bs) by zlia. done.
Qed.

Lemma le_word_range bs : is_bytes bs -> 0 <= le_word bs < 256 ^ zlen bs.
Proof.
  unfold is_bytes, zlen. induction 1 as [|b bs Hb _ IH]; [simpl; lia|].
  simpl length. rewrite pow_256_succ. simpl. unfold is_u8 in Hb. lia.
Qed.

Lemma le_word_app a b : le_word (a ++ b) = le_word a + 256 ^ zlen a * le_word b.
Proof.
  unfold zlen. induction a as [|x a IH]; simpl length.
  - simpl. lia.
  - simpl. rewrite IH. rewrite pow_256_succ. lia.
Qed.

(** [memcpy(dst + off, src, length src)]; undefined when it overruns [dst] *)
Definition memcpy {A} (dst : list A) (off : Z) (src : list A) : result (list A) :=
  if (0 <=? off) && (off + zlen src <=? zlen dst)
  then Ok (take (Z.to_nat off) dst ++ src ++ drop (Z.to_nat off + length src) dst)
  else Undef.

Lemma memcpy_Ok {A} (dst : list A) off src :
  0 <= off -> off + zlen src <= zlen dst ->
  memcpy dst off src = Ok (take (Z.to_nat off) dst ++ src ++ drop (Z.to_nat off + length src) dst).
Proof.
  intros H1 H2. unfold memcpy.
  by rewrite (proj2 (Z.leb_le _ _) H1), (proj2 (Z.leb_le _ _) H2).
Qed.

(** [memset(dst + off, c, n)] *)
Definition memset (dst : list Z) (off c n : Z) : result (list Z) :=
  if n <? 0 then Undef else memcpy dst off (replicate (Z.to_nat n) c).

Lemma le_bytes_app n m w :
  le_bytes (n + m) w = le_bytes n w ++ le_bytes m (w / 256 ^ Z.of_nat n).
Proof.
  revert w. induction n as [|n IH]; intros w; simpl le_bytes.
  - simpl. by rewrite Z.div_1_r.
  - rewrite IH, pow_256_succ. simpl. rewrite Z.div_div by lia. done.
Qed.

Lemma le_bytes_mod n w : le_bytes n (w mod 256 ^ Z.of_nat n) = le_bytes n w.
Proof.
  rewrite <- le_word_bytes. rewrite <- (le_bytes_length n w) at 1.
  apply le_bytes_word, le_bytes_is_bytes.
Qed.

Lemma memcpy_0 {A} (dst src : list A) :
  (length src <= length dst)%nat -> memcpy dst 0 src = Ok (src ++ drop (length src) dst).
Proof. intros. by rewrite memcpy_Ok by (unfold zlen; lia). Qed.

(** overwriting the middle segment of a buffer *)
Lemma memcpy_mid {A} (a b b' c : list A) :
  length b' = length b -> memcpy (a ++ b ++ c) (zlen a) b' = Ok (a ++ b' ++ c).
Proof.
  intros H. rewrite memcpy_Ok by (unfold zlen; rewrite ?length_app; lia).
  unfold zlen. rewrite Nat2Z.id, take_app_length.
  rewrite H, drop_app_add, drop_app_length. done.
Qed.

Lemma wr_mid {A} (a c : list A) x y : wr (a ++ x :: c) (zlen a) y = Ok (a ++ y :: c).
Proof.
  rewrite wr_in_range by (rewrite zlen_app, zlen_cons; unfold zlen; lia).
  unfold zlen. rewrite Nat2Z.id, <- (Nat.add_0_r (length a)). by rewrite insert_app_r.
Qed.

Lemma memset_mid (a b c : list Z) x :
  memset (a ++ b ++ c) (zlen a) x (zlen b) = Ok (a ++ replicate (length b) x ++ c).
Proof.
  unfold memset. destruct (Z.ltb_spec (zlen b) 0); [unfold zlen in *; lia|].
  unfold zlen at 2. rewrite Nat2Z.id. apply memcpy_mid. by rewrite length_replicate.
Qed.

Lemma memset_end (a b : list Z) x :
  memset (a ++ b) (zlen a) x (zlen b) = Ok (a ++ replicate (length b) x).
Proof. pose proof (memset_mid a b [] x) as H. by rewrite !app_nil_r in H. Qed.

Lemma memset_front (b c : list Z) x n :
  n = zlen b -> memset (b ++ c) 0 x n = Ok (replicate (length b) x ++ c).
Proof. intros ->. exact (memset_mid [] b c x). Qed.

Lemma memset_part (a b : list Z) x n k :
  k = zlen a -> 0 <= n <= zlen b ->
  memset (a ++ b) k x n = Ok (a ++ replicate (Z.to_nat n) x ++ drop (Z.to_nat n) b).
Proof.
  intros -> Hn. unfold zlen in Hn. set (m := Z.to_nat n).
  assert (Hm : length (take m b) = m) by (rewrite length_take; lia).
  pose proof (memset_mid a (take m b) (drop m b) x) as H.
  unfold zlen in H at 2. rewrite take_drop, Hm in H.
  by replace (Z.of_nat m) with n in H by lia.
Qed.
