(* ===== verification/Warshall.v ===== *)
(** * Warshall: bit matrices of the parser generator ([ocaml/yacc/warshall.c])

    [transitive_closure] and [reflexive_transitive_closure] work in place on a
    square boolean matrix stored as [n] rows of [WORDSIZE(n)] unsigned words.
    The pointers of the C code ([cword], [ccol], [rowi], [rowj], [rp]) are
    indices into the matrix. *)

From S2P Require Import Prelude.
From stdpp Require Import relations.
#[local] Open Scope Z_scope.

Definition BITS_PER_INT : Z := 32.
Definition WORDSIZE (n : Z) : Z := (n + (BITS_PER_INT - 1)) / BITS_PER_INT.

(** [BIT(r, n)] and [SETBIT(r, n)] on the row that starts at index [r] *)
Definition BIT (R : list Z) (r n : Z) : result Z :=
  let* w := rd R (r + n / BITS_PER_INT) in
  Ok (Z.land (Z.shiftr w (n mod BITS_PER_INT)) 1).

Definition SETBIT (R : list Z) (r n : Z) : result (list Z) :=
  let* w := rd R (r + n / BITS_PER_INT) in
  wr R (r + n / BITS_PER_INT) (Z.lor w (u32 (Z.shiftl 1 (n mod BITS_PER_INT)))).

(** while (rowj < rend) *rowj++ |= *rp++; *)
Definition or_row (R : list Z) (rowj rp rend : Z) : result (list Z * Z) :=
  let* (R, rowj, _) :=
    while_loop (S (Z.to_nat (rend - rowj)))
      (fun '(_, rowj, _) => rowj <? rend)
      (fun '(R, rowj, rp) =>
         let* x := rd R rowj in
         let* y := rd R rp in
         let* R := wr R rowj (Z.lor x y) in
         Ok (R, rowj + 1, rp + 1))
      (R, rowj, rp) in
  Ok (R, rowj).

(** the loop over [rowj] and [ccol] for one [rowi] *)
Definition closure_rows (R : list Z) (rowsize relend cword mask rowi : Z) : result (list Z) :=
  let* (R, _, _) :=
    while_loop (S (Z.to_nat relend))
      (fun '(_, _, rowj) => rowj <? relend)
      (fun '(R, ccol, rowj) =>
         let* c := rd R ccol in
         let* (R, rowj) :=
           if negb (Z.land c mask =? 0)
           then or_row R rowj rowi (rowj + rowsize)
           else Ok (R, rowj + rowsize) in
         Ok (R, ccol + rowsize, rowj))
      (R, cword, 0) in
  Ok R.

(** mask <<= 1; if (mask == 0) { mask = 1; word++; } *)
Definition next_bit (mask word : Z) : Z * Z :=
  let mask := u32 (Z.shiftl mask 1) in
  if mask =? 0 then (1, word + 1) else (mask, word).

Definition transitive_closure (R : list Z) (n : Z) : result (list Z) :=
  let rowsize := WORDSIZE n in
  let relend := n * rowsize in
  let* (R, _, _, _) :=
    while_loop (S (Z.to_nat relend))
      (fun '(_, _, _, rowi) => rowi <? relend)
      (fun '(R, cword, mask, rowi) =>
         let* R := closure_rows R rowsize relend cword mask rowi in
         let '(mask, cword) := next_bit mask cword in
         Ok (R, cword, mask, rowi + rowsize))
      (R, 0, 1, 0) in
  Ok R.

Definition reflexive_transitive_closure (R : list Z) (n : Z) : result (list Z) :=
  let* R := transitive_closure R n in
  let rowsize := WORDSIZE n in
  let relend := n * rowsize in
  let* (R, _, _) :=
    while_loop (S (Z.to_nat relend))
      (fun '(_, _, rp) => rp <? relend)
      (fun '(R, mask, rp) =>
         let* w := rd R rp in
         let* R := wr R rp (Z.lor w mask) in
         let '(mask, rp) := next_bit mask rp in
         Ok (R, mask, rp + rowsize))
      (R, 1, 0) in
  Ok R.

(** ** The matrix as a relation *)

(** entry [(i, j)] of a matrix whose rows have [rs] words *)
Definition entry (R : list Z) (rs i j : Z) : bool :=
  Z.testbit (zget R (i * rs + j / 32)) (j mod 32).

Definition rel (R : list Z) (n : Z) (i j : Z) : Prop :=
  0 <= i < n /\ 0 <= j < n /\ entry R (WORDSIZE n) i j = true.

Example tc_example :
  (* 0 -> 1 -> 2 -> 0, 3 isolated *)
  transitive_closure [2; 4; 1; 0] 4 = Ok [7; 7; 7; 0].
Proof. reflexivity. Qed.

Example rtc_example :
  reflexive_transitive_closure [2; 4; 0; 0] 4 = Ok [7; 6; 4; 8].
Proof. reflexivity. Qed.

(** ** Index arithmetic *)

Lemma WORDSIZE_pos n : 0 < n -> 0 < WORDSIZE n.
Proof. unfold WORDSIZE, BITS_PER_INT. zlia. Qed.

Lemma WORDSIZE_nonneg n : 0 <= n -> 0 <= WORDSIZE n.
Proof. unfold WORDSIZE, BITS_PER_INT. zlia. Qed.

Lemma WORDSIZE_word n k : 0 <= k < n -> 0 <= k / 32 < WORDSIZE n.
Proof. unfold WORDSIZE, BITS_PER_INT. zlia. Qed.

Lemma cell_range n rs i q : 0 <= i < n -> 0 <= q < rs -> 0 <= i * rs + q < n * rs.
Proof. nia. Qed.

Lemma cell_row rs i j q :
  0 <= q < rs -> (j * rs <= i * rs + q < j * rs + rs <-> i = j).
Proof. intros Hq. split; [|intros ->; lia]. intros H. nia. Qed.

Lemma cell_row_before rs i j q :
  0 <= q < rs -> (i * rs + q < j * rs <-> i < j).
Proof. intros Hq. split; nia. Qed.

Lemma next_bit_spec k w :
  0 <= k ->
  next_bit (2 ^ (k mod 32)) w = (2 ^ ((k + 1) mod 32), w + ((k + 1) / 32 - k / 32)).
Proof.
  intros Hk. unfold next_bit.
  assert (Hb : 0 <= k mod 32 < 32) by zlia.
  rewrite Z.shiftl_mul_pow2, Z.mul_comm, <- Z.pow_add_r by lia.
  unfold u32. destruct (decide (k mod 32 = 31)) as [E|E].
  - rewrite E. simpl (Z.eqb _ 0).
    replace ((k + 1) mod 32) with 0 by zlia.
    f_equal. zlia.
  - rewrite Z.mod_small by (split; [|apply Z.pow_lt_mono_r]; lia).
    destruct (Z.eqb_spec (2 ^ (1 + k mod 32)) 0) as [E0|_].
    + pose proof (Z.pow_pos_nonneg 2 (1 + k mod 32)). lia.
    + f_equal; [f_equal|]; zlia.
Qed.

Lemma rows_disjoint rs i j :
  0 <= rs -> i * rs = j * rs \/ i * rs + rs <= j * rs \/ j * rs + rs <= i * rs.
Proof. intros. destruct (Z.lt_trichotomy i j) as [|[->|]]; nia. Qed.

(** ** The row operation *)

Lemma or_row_spec R rowj rowi rs :
  0 <= rs -> 0 <= rowj -> rowj + rs <= zlen R -> 0 <= rowi -> rowi + rs <= zlen R ->
  (rowi = rowj \/ rowi + rs <= rowj \/ rowj + rs <= rowi) ->
  exists R', or_row R rowj rowi (rowj + rs) = Ok (R', rowj + rs) /\ zlen R' = zlen R /\
    forall p, 0 <= p ->
      zget R' p = if (rowj <=? p) && (p <? rowj + rs)
                  then Z.lor (zget R p) (zget R (p - rowj + rowi)) else zget R p.
Proof.
  intros Hrs Hj Hj' Hi Hi' Hdis. unfold or_row.
  edestruct (while_loop_inv
    (fun '(R', rj, rp) => exists t, 0 <= t <= rs /\ rj = rowj + t /\ rp = rowi + t /\
       zlen R' = zlen R /\
       forall p, 0 <= p ->
         zget R' p = if (rowj <=? p) && (p <? rowj + t)
                     then Z.lor (zget R p) (zget R (p - rowj + rowi)) else zget R p)
    (fun '(_, rj, _) => rowj + rs - rj)) as ([[R' rj] rp] & -> & Hinv & Hend);
    [..|simpl in *].
  - intros [[R' rj] rp] (t & Ht & -> & _). lia.
  - intros [[R' rj] rp] (t & Ht & -> & -> & Hlen & Hget) Hc%Z.ltb_lt.
    rewrite (rd_zget R' (rowj + t)), (rd_zget R' (rowi + t)) by lia. simpl.
    rewrite wr_in_range by lia. simpl. eexists. split; [done|]. split; [|lia].
    exists (t + 1). rewrite zlen_insert. split_and?; try lia.
    intros p Hp. rewrite zget_insert, !Hget by lia.
    destruct (Z.eqb_spec (rowj + t) p) as [<-|Hne].
    + replace (rowj + t - rowj + rowi) with (rowi + t) by lia.
      zcases.
    + zcases.
  - exists 0. split_and?; try lia. intros p Hp.
    zcases.
  - lia.
  - destruct Hinv as (t & Ht & -> & -> & Hlen & Hget).
    apply Z.ltb_ge in Hend. replace t with rs in * by lia.
    exists R'. done.
Qed.

Lemma closure_rows_spec R n k :
  0 <= k < n -> zlen R = n * WORDSIZE n ->
  let rs := WORDSIZE n in
  exists R', closure_rows R rs (n * rs) (k / 32) (2 ^ (k mod 32)) (k * rs) = Ok R' /\
    zlen R' = zlen R /\
    forall i q, 0 <= i < n -> 0 <= q < rs ->
      zget R' (i * rs + q) =
        if entry R rs i k then Z.lor (zget R (i * rs + q)) (zget R (k * rs + q))
        else zget R (i * rs + q).
Proof.
  intros Hk Hlen rs. assert (Hrs : 0 < rs) by (apply WORDSIZE_pos; lia).
  assert (Hkw : 0 <= k / 32 < rs) by (apply WORDSIZE_word; lia).
  unfold closure_rows. fold rs in Hlen.
  set (upd R' i := forall q, 0 <= q < rs ->
    zget R' (i * rs + q) =
      if entry R rs i k then Z.lor (zget R (i * rs + q)) (zget R (k * rs + q))
      else zget R (i * rs + q)).
  set (same R' i := forall q, 0 <= q < rs -> zget R' (i * rs + q) = zget R (i * rs + q)).
  edestruct (while_loop_inv
    (fun '(R', ccol, rowj) => exists j, 0 <= j <= n /\ ccol = j * rs + k / 32 /\
       rowj = j * rs /\ zlen R' = zlen R /\
       forall i, 0 <= i < n -> (i < j -> upd R' i) /\ (j <= i -> same R' i))
    (fun '(_, _, rowj) => n * rs - rowj)) as ([[R' cc] rj] & -> & Hinv & Hend).
  - intros [[R' cc] rj] (j & Hj & -> & -> & _). nia.
  - intros [[R' cc] rj] (j & Hj & -> & -> & HlenR & Hrows) Hc%Z.ltb_lt.
    assert (j < n) as Hjn by nia.
    assert (Hrowk : same R' k).
    { destruct (Hrows k Hk) as [Hu Hs]. destruct (Z.lt_ge_cases k j); [|auto].
      intros q Hq. rewrite Hu, Z.lor_diag by done. by destruct (entry R rs k k). }
    assert (Hrowj : same R' j).
    { apply Hrows; lia. }
    pose proof (cell_range n rs j (k / 32) ltac:(lia) Hkw).
    rewrite rd_zget by lia. simpl. rewrite (Hrowj _ Hkw), land_pow2_nonzero by zlia.
    change (Z.testbit _ _) with (entry R rs j k).
    assert (Hnext : forall R2, zlen R2 = zlen R -> upd R2 j ->
      (forall i q, 0 <= i < n -> 0 <= q < rs -> i <> j ->
         zget R2 (i * rs + q) = zget R' (i * rs + q)) ->
      exists j', 0 <= j' <= n /\ j * rs + k / 32 + rs = j' * rs + k / 32 /\
        j * rs + rs = j' * rs /\ zlen R2 = zlen R /\
        forall i, 0 <= i < n -> (i < j' -> upd R2 i) /\ (j' <= i -> same R2 i)).
    { intros R2 Hl Hu Hs. exists (j + 1). split_and?; try lia.
      intros i Hi. destruct (Hrows i Hi) as [Hu' Hs'].
      destruct (decide (i = j)) as [->|Hne]; [split; [done|lia]|].
      split; intros Hij q Hq; rewrite Hs by done; [apply Hu'|apply Hs']; lia. }
    destruct (entry R rs j k) eqn:Ejk.
    + edestruct (or_row_spec R' (j * rs) (k * rs) rs) as (R2 & -> & Hl2 & Hget2);
        [nia|nia|nia|nia|nia|apply rows_disjoint; lia|].
      simpl. eexists. split; [done|]. split; [|lia]. apply Hnext; [lia|..].
      * intros q Hq. rewrite Ejk, Hget2 by nia.
        replace (j * rs + q - j * rs + k * rs) with (k * rs + q) by lia.
        rewrite Hrowj, Hrowk by done.
        zcases.
      * intros i q Hi Hq Hne. rewrite Hget2 by nia.
        pose proof (cell_row rs i j q Hq).
        repeat (zbits_step; simpl; try tauto).
    + simpl. eexists. split; [done|]. split; [|lia]. apply Hnext; [done|..|done].
      intros q Hq. rewrite Ejk. auto.
  - exists 0. split_and?; try lia. intros i Hi. split; [lia|done].
  - nia.
  - destruct Hinv as (j & Hj & -> & -> & HlenR & Hrows). apply Z.ltb_ge in Hend.
    assert (j = n) as -> by nia. simpl. exists R'. split; [done|]. split; [done|].
    intros i q Hi Hq. apply Hrows; [done|lia|done].
Qed.

Lemma closure_rows_entry R n k R' :
  0 <= k < n ->
  (forall i q, 0 <= i < n -> 0 <= q < WORDSIZE n ->
      zget R' (i * WORDSIZE n + q) =
        if entry R (WORDSIZE n) i k
        then Z.lor (zget R (i * WORDSIZE n + q)) (zget R (k * WORDSIZE n + q))
        else zget R (i * WORDSIZE n + q)) ->
  forall i j, rel R' n i j <-> rel R n i j \/ (rel R n i k /\ rel R n k j).
Proof.
  intros Hk Hget i j. unfold rel.
  destruct (decide (0 <= i < n)) as [Hi|], (decide (0 <= j < n)) as [Hj|]; [|intuition..].
  assert (entry R' (WORDSIZE n) i j =
          entry R (WORDSIZE n) i j || (entry R (WORDSIZE n) i k && entry R (WORDSIZE n) k j)) as ->.
  { unfold entry at 1. rewrite Hget by (done || by apply WORDSIZE_word).
    destruct (entry R _ i k); simpl; [apply Z.lor_spec|by rewrite orb_false_r]. }
  rewrite orb_true_iff, andb_true_iff. intuition.
Qed.

(** ** Correctness *)

(** The rows [0 .. k) have been used as intermediate nodes. *)
Record closed_upto (R0 R : list Z) (n k : Z) : Prop := {
  cu_contains : forall i j, rel R0 n i j -> rel R n i j;
  cu_sound : forall i j, rel R n i j -> tc (rel R0 n) i j;
  cu_closed : forall m i j, 0 <= m < k -> rel R n i m -> rel R n m j -> rel R n i j
}.

Lemma closed_upto_step R0 R R' n k :
  closed_upto R0 R n k ->
  (forall i j, rel R' n i j <-> rel R n i j \/ (rel R n i k /\ rel R n k j)) ->
  closed_upto R0 R' n (k + 1).
Proof.
  intros [Hc Hs Ht] Hstep. split.
  - intros i j H. apply Hstep. auto.
  - intros i j [H|[H1 H2]]%Hstep; [auto|].
    eapply tc_transitive; eauto.
  - intros m i j Hm H1%Hstep H2%Hstep. apply Hstep.
    destruct (decide (m = k)) as [->|]; [intuition|].
    assert (0 <= m < k) as Hmk by lia. pose proof (Ht m).
    destruct H1 as [H1|[H1a H1b]], H2 as [H2|[H2a H2b]]; eauto 8.
Qed.

Lemma closed_upto_tc R0 R n : closed_upto R0 R n n ->
  forall i j, rel R n i j <-> tc (rel R0 n) i j.
Proof.
  intros [Hc Hs Ht] i j. split; [auto|].
  induction 1 as [i j H|i j l H _ IH]; [auto|].
  apply (Ht j); auto. destruct H as (_ & ? & _). lia.
Qed.

Lemma transitive_closure_spec R n :
  0 <= n -> zlen R = n * WORDSIZE n ->
  exists R', transitive_closure R n = Ok R' /\ zlen R' = zlen R /\
    forall i j, rel R' n i j <-> tc (rel R n) i j.
Proof.
  intros Hn Hlen. unfold transitive_closure.
  set (rs := WORDSIZE n) in *. assert (Hrs : 0 < n -> 0 < rs) by apply WORDSIZE_pos.
  assert (Hrs0 : 0 <= rs) by (apply WORDSIZE_nonneg; lia).
  edestruct (while_loop_inv
    (fun '(R', cword, mask, rowi) => exists k, 0 <= k <= n /\ cword = k / 32 /\
       mask = 2 ^ (k mod 32) /\ rowi = k * rs /\ zlen R' = zlen R /\ closed_upto R R' n k)
    (fun '(_, _, _, rowi) => n * rs - rowi)) as ([[[R' cw] mk] ri] & -> & Hinv & Hend).
  - intros [[[R' cw] mk] ri] (k & Hk & _ & _ & -> & _). nia.
  - intros [[[R' cw] mk] ri] (k & Hk & -> & -> & -> & HlenR & HR) Hc%Z.ltb_lt.
    assert (k < n) as Hkn by nia.
    destruct (closure_rows_spec R' n k) as (R2 & E & Hl2 & Hg2); [lia..|].
    fold rs in E. rewrite E. simpl. rewrite next_bit_spec by lia.
    eexists. split; [done|]. split; [|nia].
    exists (k + 1). split_and?; try nia.
    eapply closed_upto_step; [done|]. apply closure_rows_entry; [lia|exact Hg2].
  - exists 0. split_and?; try done; try lia.
    split; [done|intros ???; by apply tc_once|lia].
  - nia.
  - destruct Hinv as (k & Hk & _ & _ & -> & HlenR & HR). apply Z.ltb_ge in Hend.
    simpl. exists R'. split; [done|]. split; [done|]. apply closed_upto_tc.
    destruct (decide (n = 0)) as [->|]; [by replace k with 0 in HR by lia|].
    by replace k with n in HR by nia.
Qed.

Lemma diagonal_spec R n :
  0 <= n -> zlen R = n * WORDSIZE n ->
  let rs := WORDSIZE n in
  exists R' mask rp,
    while_loop (S (Z.to_nat (n * rs)))
      (fun '(_, _, rp) => rp <? n * rs)
      (fun '(R, mask, rp) =>
         let* w := rd R rp in
         let* R := wr R rp (Z.lor w mask) in
         let '(mask, rp) := next_bit mask rp in
         Ok (R, mask, rp + rs))
      (R, 1, 0) = Ok (R', mask, rp) /\ zlen R' = zlen R /\
    forall i j, rel R' n i j <-> rel R n i j \/ (0 <= i < n /\ i = j).
Proof.
  intros Hn Hlen rs. assert (Hrs : 0 < n -> 0 < rs) by apply WORDSIZE_pos.
  assert (Hrs0 : 0 <= rs) by (apply WORDSIZE_nonneg; lia). fold rs in Hlen.
  match goal with |- context [while_loop ?fl ?c ?b ?st] =>
  destruct (while_loop_inv
    (fun '(R', mask, rp) => exists k, 0 <= k <= n /\ mask = 2 ^ (k mod 32) /\
       rp = k * rs + k / 32 /\ zlen R' = zlen R /\
       forall i j, 0 <= i < n -> 0 <= j < n ->
         entry R' rs i j = entry R rs i j || ((i =? j) && (i <? k)))
    (fun '(_, _, rp) => Z.max 0 (n * rs - rp)) c b) with (fuel := fl) (s := st)
    as ([[R' mk] rp] & E & Hinv & Hend) end.
  - intros [[R' mk] rp] _. lia.
  - intros [[R' mk] rp] (k & Hk & -> & -> & HlenR & Hent) Hc%Z.ltb_lt.
    assert (Hk32 : 0 <= k / 32) by zlia.
    assert (k < n) as Hkn by nia.
    pose proof (WORDSIZE_word n k ltac:(lia)) as Hkw. fold rs in Hkw.
    pose proof (cell_range n rs k (k / 32) ltac:(lia) Hkw) as Hcell.
    rewrite rd_zget by lia. simpl. rewrite wr_in_range by lia. simpl.
    rewrite next_bit_spec by lia. eexists. split; [done|]. split;
      [|assert (k / 32 <= (k + 1) / 32) by zlia; lia].
    exists (k + 1). rewrite zlen_insert. split_and?; try lia.
    intros i j Hi Hj. unfold entry at 1.
    pose proof (WORDSIZE_word n j Hj) as Hjw. fold rs in Hjw.
    pose proof (cell_range n rs i (j / 32) Hi Hjw).
    rewrite zget_insert by lia.
    destruct (Z.eqb_spec (k * rs + k / 32) (i * rs + j / 32)) as [Eq|Ne].
    + assert (k = i) as <- by nia.
      rewrite Z.lor_spec, Eq, Z.pow2_bits_eqb by zlia.
      fold (entry R' rs k j). rewrite Hent by lia.
      destruct (Z.eqb_spec (k mod 32) (j mod 32)), (Z.eqb_spec k j); try (exfalso; zlia);
        zcases; btauto.
    + fold (entry R' rs i j). rewrite Hent by lia. f_equal.
      destruct (Z.eqb_spec i j) as [->|]; simpl; [|done].
      assert (j <> k) by congruence. zcases.
  - exists 0. split_and?; try done; try lia. intros i j Hi Hj.
    replace (i <? 0) with false by lia. by rewrite andb_false_r, orb_false_r.
  - nia.
  - destruct Hinv as (k & Hk & _ & -> & HlenR & Hent).
    exists R', mk, (k * rs + k / 32). split; [done|]. split; [done|].
    apply Z.ltb_ge in Hend. intros i j. unfold rel. fold rs.
    destruct (decide (0 <= i < n)), (decide (0 <= j < n)); [|intuition lia..].
    assert (k = n) as ->.
    { destruct (decide (k < n)); [|lia].
      pose proof (WORDSIZE_word n k ltac:(lia)) as Hkw. fold rs in Hkw. nia. }
    rewrite Hent, orb_true_iff, andb_true_iff, Z.eqb_eq, Z.ltb_lt by done. intuition lia.
Qed.

Lemma reflexive_transitive_closure_spec R n :
  0 <= n -> zlen R = n * WORDSIZE n ->
  exists R', reflexive_transitive_closure R n = Ok R' /\ zlen R' = zlen R /\
    forall i j, rel R' n i j <-> 0 <= i < n /\ 0 <= j < n /\ rtc (rel R n) i j.
Proof.
  intros Hn Hlen. unfold reflexive_transitive_closure.
  destruct (transitive_closure_spec R n Hn Hlen) as (R1 & -> & Hl1 & Htc). cbn [rbind].
  destruct (diagonal_spec R1 n Hn ltac:(lia)) as (R2 & mk & rp & E & Hl2 & Hdiag).
  cbv zeta in *. rewrite E. cbn [rbind].
  exists R2. split; [done|]. split; [lia|]. intros i j.
  rewrite Hdiag, Htc, rtc_tc. split.
  - intros [H|[Hi <-]]; [|auto].
    assert (rel R1 n i j) as (? & ? & _) by (by apply Htc). auto.
  - intuition.
Qed.

(** C31: On the matrix of any relation over [n] elements, stored as [n] rows of
    [WORDSIZE(n)] words, [reflexive_transitive_closure] terminates without
    leaving the matrix and computes exactly the reflexive-transitive closure. *)
Theorem reflexive_transitive_closure_correct R n :
  0 <= n -> zlen R = n * WORDSIZE n ->
  exists R', reflexive_transitive_closure R n = Ok R' /\ zlen R' = zlen R /\
    forall i j, rel R' n i j <-> 0 <= i < n /\ 0 <= j < n /\ rtc (rel R n) i j.
Proof. apply reflexive_transitive_closure_spec. Qed.

Lemma reflexive_transitive_closure_correct_witness :
  0 <= 4 /\ zlen [2; 4; 0; 0] = 4 * WORDSIZE 4 /\
  exists R', reflexive_transitive_closure [2; 4; 0; 0] 4 = Ok R' /\ zlen R' = zlen [2; 4; 0; 0] /\
    forall i j, rel R' 4 i j <-> 0 <= i < 4 /\ 0 <= j < 4 /\ rtc (rel [2; 4; 0; 0] 4) i j.
Proof.
  split; [lia|]. split; [reflexivity|].
  apply (reflexive_transitive_closure_correct [2; 4; 0; 0] 4); [lia|reflexivity].
Defined.
