(* ===== verification/Grammar.v ===== *)
(** * The grammar of the parser generator ([ocaml/yacc], end of reader.c, start of lr0.c)

    The reader packs the rules in arrays of shorts: [ritem] holds the right-hand sides one
    after the other, each followed by its rule number, negated; [rrhs] and [rlhs] give the
    start and the left-hand side of each rule.  From them come [derives], the rules of each
    variable, and [nullable], the variables that derive the empty string.

    [lays_out] relates the arrays to the list of the productions: the models of closure.c
    and lr0.c are proved against it. *)

From S2P Require Import Prelude.
From Stdlib Require Import Sorting.Sorted.
From stdpp Require Import relations.
#[local] Open Scope Z_scope.

Definition MAXSHORT : Z := 32767.
Definition UNDEFINED : Z := -1.
Definition TOKEN : Z := 0.

(** ** Packing *)

(** what packing reads of a symbol: [term] when its class is TERM *)
Record bucket := Bucket { index : Z; prec : Z; term : bool; assoc : Z }.

#[export] Instance bucket_eq_dec : EqDecision bucket.
Proof. solve_decision. Defined.

Record tables := Tables {
  ritem : list Z;
  rlhs : list Z;
  rrhs : list Z;
  rprec : list Z;
  rassoc : list Z }.

(** while (pitem[j]) ...: the precedence is the one of the last terminal *)
Fixpoint pack_rhs (fuel : nat) (pitem : list (option bucket)) (ri : list Z) (j p a : Z) {struct fuel}
    : result (list Z * Z * Z * Z) :=
  match fuel with
  | O => NoFuel
  | S fuel =>
      let* o := rd pitem j in
      match o with
      | None => Ok (ri, j, p, a)
      | Some b =>
          let* ri := wr ri j (index b) in
          if term b then pack_rhs fuel pitem ri (j + 1) (prec b) (assoc b)
          else pack_rhs fuel pitem ri (j + 1) p a
      end
  end.

(** the body of the loop on the rules; NULL in [plhs] is not followed *)
Definition pack_rule (pitem : list (option bucket)) (plhs : list (option bucket)) (i : Z)
    (st : tables * Z) : result (tables * Z) :=
  let (t, j) := st in
  let* o := rd plhs i in
  let* b := of_option o in
  let* lhs := wr (rlhs t) i (index b) in
  let* rhs := wr (rrhs t) i (s16 j) in
  let* (ri, j, p, a) := pack_rhs (S (length pitem)) pitem (ritem t) j 0 TOKEN in
  let* ri := wr ri j (s16 (- i)) in
  let j := j + 1 in
  let* rp := rd (rprec t) i in
  if rp =? UNDEFINED then
    let* ps := wr (rprec t) i p in
    let* as_ := wr (rassoc t) i a in
    Ok (Tables ri lhs rhs ps as_, j)
  else Ok (Tables ri lhs rhs (rprec t) (rassoc t), j).

(** the arrays are new, [fresh] is what they hold; [rprec] and [rassoc] are reallocated *)
Definition pack_grammar (fresh : Z) (goal : bucket) (start_symbol nitems nrules : Z)
    (pitem plhs : list (option bucket)) (precs assocs : list Z) : result tables :=
  let* ri := wr (replicate (Z.to_nat nitems) fresh) 0 (-1) in
  let* ri := wr ri 1 (index goal) in
  let* ri := wr ri 2 0 in
  let* ri := wr ri 3 (-2) in
  let* lhs := wr (replicate (Z.to_nat nrules) fresh) 0 0 in
  let* lhs := wr lhs 1 0 in
  let* lhs := wr lhs 2 start_symbol in
  let* rhs := wr (replicate (Z.to_nat (nrules + 1)) fresh) 0 0 in
  let* rhs := wr rhs 1 0 in
  let* rhs := wr rhs 2 1 in
  let t := Tables ri lhs rhs (take (Z.to_nat nrules) precs) (take (Z.to_nat nrules) assocs) in
  let* (t, j) := for_loop (Z.to_nat (nrules - 3)) 3 (pack_rule pitem plhs) (t, 4) in
  let* rhs := wr (rrhs t) nrules (s16 j) in
  Ok (Tables (ritem t) (rlhs t) rhs (rprec t) (rassoc t)).

(** ** Derives and nullable *)

(** the global variables: [start_symbol = ntokens] *)
Record grammar := Grammar {
  tab : tables;
  start_symbol : Z;
  nsyms : Z;
  nrules : Z;
  nitems : Z }.

Definition ntokens (g : grammar) : Z := start_symbol g.
Definition nvars (g : grammar) : Z := nsyms g - ntokens g.
Definition ISVAR (g : grammar) (s : Z) : bool := start_symbol g <=? s.
Definition ISTOKEN (g : grammar) (s : Z) : bool := s <? start_symbol g.

(** the elements from the index [p] on, as long as [ok] *)
Fixpoint read_while (fuel : nat) (ok : Z -> bool) (a : list Z) (p : Z) {struct fuel} : result (list Z) :=
  match fuel with
  | O => NoFuel
  | S fuel =>
      let* x := rd a p in
      if ok x then let* xs := read_while fuel ok a (p + 1) in Ok (x :: xs) else Ok []
  end.

(** [derives]: the index in [rules] of the first rule of each symbol, 0 for a token *)
Record derivations := Derivations { derives : list Z; rules : list Z }.

Definition derives_row (g : grammar) (lhs : Z) (st : derivations * Z) : result (derivations * Z) :=
  let (d, k) := st in
  let* ds := wr (derives d) lhs k in
  let* (rs, k) :=
    for_loop (Z.to_nat (nrules g)) 0
      (fun i '(rs, k) =>
         let* l := rd (rlhs (tab g)) i in
         if l =? lhs then let* rs := wr rs k (s16 i) in Ok (rs, k + 1) else Ok (rs, k))
      (rules d, k) in
  let* rs := wr rs k (-1) in
  Ok (Derivations ds rs, k + 1).

Definition set_derives (g : grammar) : result derivations :=
  let d := Derivations (replicate (Z.to_nat (nsyms g)) 0) (replicate (Z.to_nat (nvars g + nrules g)) 0) in
  let* (d, _) := for_loop (Z.to_nat (nsyms g - start_symbol g)) (start_symbol g) (derives_row g) (d, 0) in
  Ok d.

(** for (sp = derives[i]; *sp >= 0; sp++) *)
Definition rules_of (d : derivations) (i : Z) : result (list Z) :=
  let* p := rd (derives d) i in
  read_while (S (length (rules d))) (fun r => 0 <=? r) (rules d) p.

(** while ((j = ritem[i]) >= 0): the end of the rule, and if its symbols are nullable *)
Fixpoint scan_rhs (fuel : nat) (ri : list Z) (nullable : list bool) (i : Z) (empty : bool) {struct fuel}
    : result (Z * Z * bool) :=
  match fuel with
  | O => NoFuel
  | S fuel =>
      let* j := rd ri i in
      if 0 <=? j then
        let* b := rd nullable j in
        scan_rhs fuel ri nullable (i + 1) (if b then empty else false)
      else Ok (i, j, empty)
  end.

(** the for loop on the items, from [i] *)
Fixpoint nullable_pass (fuel : nat) (g : grammar) (i : Z) (nullable : list bool) (done : bool) {struct fuel}
    : result (list bool * bool) :=
  match fuel with
  | O => NoFuel
  | S fuel =>
      if i <? nitems g then
        let* (i, j, empty) := scan_rhs (S (Z.to_nat (nitems g))) (ritem (tab g)) nullable i true in
        if empty then
          let* j := rd (rlhs (tab g)) (- j) in
          let* b := rd nullable j in
          if b then nullable_pass fuel g (i + 1) nullable done
          else let* nullable := wr nullable j true in nullable_pass fuel g (i + 1) nullable false
        else nullable_pass fuel g (i + 1) nullable done
      else Ok (nullable, done)
  end.

(** while (!done): each pass but the last one finds a nullable symbol *)
Fixpoint nullable_loop (fuel : nat) (g : grammar) (nullable : list bool) {struct fuel} : result (list bool) :=
  match fuel with
  | O => NoFuel
  | S fuel =>
      let* (nullable, done) := nullable_pass (S (Z.to_nat (nitems g))) g 1 nullable true in
      if done then Ok nullable else nullable_loop fuel g nullable
  end.

Definition set_nullable (g : grammar) : result (list bool) :=
  nullable_loop (S (Z.to_nat (nsyms g))) g (replicate (Z.to_nat (nsyms g)) false).

(** ** The layout of the productions *)

(** a left-hand side and a right-hand side; the productions are numbered from 2 *)
Abbreviation production := (prod Z (list Z)).

Fixpoint items_from (r : Z) (ps : list production) : list Z :=
  match ps with
  | [] => []
  | p :: ps => p.2 ++ - r :: items_from (r + 1) ps
  end.

Fixpoint starts_from (j : Z) (ps : list production) : list Z :=
  match ps with
  | [] => [j]
  | p :: ps => j :: starts_from (j + zlen p.2 + 1) ps
  end.

Record lays_out (g : grammar) (ps : list production) : Prop := {
  lo_ritem : ritem (tab g) = -1 :: items_from 2 ps;
  lo_rlhs : rlhs (tab g) = 0 :: 0 :: map fst ps;
  lo_rrhs : rrhs (tab g) = 0 :: 0 :: starts_from 1 ps;
  lo_nrules : nrules g = zlen ps + 2;
  lo_nitems : nitems g = zlen (ritem (tab g));
  lo_short : nitems g <= MAXSHORT;
  lo_start : 0 < start_symbol g < nsyms g;
  lo_symbols : Forall (fun p : production =>
    start_symbol g <= p.1 < nsyms g /\ Forall (fun X => 0 <= X < nsyms g) p.2) ps }.

(** the production numbered [r] *)
Definition rule (ps : list production) (r : Z) (p : production) : Prop :=
  2 <= r /\ ps !! Z.to_nat (r - 2) = Some p.

(** the number of items before the production [k] *)
Fixpoint offset (ps : list production) (k : nat) {struct k} : Z :=
  match k with
  | O => 0
  | S k => match ps with [] => 0 | p :: ps => zlen p.2 + 1 + offset ps k end
  end.

(** the first item of the production [r] *)
Definition first_item (ps : list production) (r : Z) : Z := 1 + offset ps (Z.to_nat (r - 2)).

Lemma offset_nonneg ps k : 0 <= offset ps k.
Proof. revert k. induction ps as [|p ps IH]; intros [|k]; cbn; try lia. pose proof (IH k). pose proof (zlen_nonneg p.2). lia. Qed.

Lemma offset_next ps : forall k p, ps !! k = Some p -> offset ps (S k) = offset ps k + zlen p.2 + 1.
Proof.
  induction ps as [|q ps IH]; intros [|k] p E; cbn in *; try done.
  - injection E as ->. lia.
  - rewrite (IH k p E). lia.
Qed.

Lemma offset_lt ps k k' p : ps !! k = Some p -> (k < k')%nat -> (k' <= length ps)%nat ->
  offset ps k + zlen p.2 < offset ps k'.
Proof.
  intros E Hlt Hle. induction k' as [|k' IH]; [lia|].
  destruct (lookup_lt_is_Some_2 ps k' ltac:(lia)) as [q Eq]. rewrite (offset_next _ _ _ Eq).
  destruct (decide (k = k')) as [->|]; [rewrite E in Eq; injection Eq as ->; lia|].
  pose proof (IH ltac:(lia) ltac:(lia)). pose proof (zlen_nonneg q.2). lia.
Qed.

Lemma starts_from_lookup ps : forall j k, (k <= length ps)%nat -> starts_from j ps !! k = Some (j + offset ps k).
Proof.
  induction ps as [|p ps IH]; intros j [|k] H; cbn in *; try lia; try (f_equal; lia).
  rewrite IH by lia. f_equal. lia.
Qed.

Lemma items_from_symbol ps : forall r k p t, ps !! k = Some p -> 0 <= t < zlen p.2 ->
  rd (items_from r ps) (offset ps k + t) = rd p.2 t.
Proof.
  induction ps as [|q ps IH]; intros r [|k] p t E Ht; cbn [items_from offset] in *; try done; cbn in E.
  - injection E as ->. by rewrite Z.add_0_l, rd_app_l by lia.
  - pose proof (offset_nonneg ps k). rewrite rd_app_r, rd_cons by lia.
    rewrite <- (IH (r + 1) k p t E Ht). f_equal. lia.
Qed.

Lemma items_from_end ps : forall r k p, ps !! k = Some p ->
  rd (items_from r ps) (offset ps k + zlen p.2) = Ok (- (r + Z.of_nat k)).
Proof.
  induction ps as [|q ps IH]; intros r [|k] p E; cbn [items_from offset] in *; try done; cbn in E.
  - injection E as ->. rewrite rd_app_r by lia. replace (0 + zlen p.2 - zlen p.2) with 0 by lia.
    rewrite Z.add_0_r. done.
  - pose proof (offset_nonneg ps k). pose proof (zlen_nonneg p.2). rewrite rd_app_r, rd_cons by lia.
    replace (zlen q.2 + 1 + offset ps k + zlen p.2 - zlen q.2 - 1) with (offset ps k + zlen p.2) by lia.
    rewrite (IH (r + 1) k p E). do 2 f_equal. lia.
Qed.

Lemma items_from_zlen ps : forall r, zlen (items_from r ps) = offset ps (length ps).
Proof.
  induction ps as [|p ps IH]; intros r; cbn [items_from offset length]; [done|].
  rewrite zlen_app, zlen_cons, IH. lia.
Qed.

(** every item belongs to a production *)
Lemma offset_split ps : forall i, 0 <= i < offset ps (length ps) ->
  exists k p t, ps !! k = Some p /\ 0 <= t <= zlen p.2 /\ i = offset ps k + t.
Proof.
  induction ps as [|p ps IH]; intros i Hi; cbn [offset length] in Hi; [lia|].
  destruct (Z.le_gt_cases i (zlen p.2)).
  - exists 0%nat, p, i. cbn. split_and!; [done|lia..].
  - destruct (IH (i - zlen p.2 - 1)) as (k & q & t & E & Ht & Ei); [lia|].
    exists (S k), q, t. cbn. split_and!; [done|lia..].
Qed.

Section Layout.
Context (g : grammar) (ps : list production) (L : lays_out g ps).

Lemma rule_lookup r p : rule ps r p -> (Z.to_nat (r - 2) < length ps)%nat.
Proof. intros [_ E]. by apply lookup_lt_Some in E. Qed.

Lemma rule_lhs r p : rule ps r p -> rd (rlhs (tab g)) r = Ok p.1.
Proof.
  intros [Hr E]. rewrite (lo_rlhs _ _ L), !rd_cons by lia. apply rd_Ok. split; [lia|].
  replace (Z.to_nat (r - 1 - 1)) with (Z.to_nat (r - 2)) by lia. by rewrite list_lookup_fmap, E.
Qed.

Lemma rule_start r p : rule ps r p -> rd (rrhs (tab g)) r = Ok (first_item ps r).
Proof.
  intros H. pose proof (rule_lookup _ _ H). destruct H as [Hr E]. rewrite (lo_rrhs _ _ L), !rd_cons by lia.
  apply rd_Ok. split; [lia|]. rewrite starts_from_lookup by lia. unfold first_item. do 3 f_equal. lia.
Qed.

Lemma rule_symbol r p t : rule ps r p -> 0 <= t < zlen p.2 -> rd (ritem (tab g)) (first_item ps r + t) = rd p.2 t.
Proof.
  intros [Hr E] Ht. pose proof (offset_nonneg ps (Z.to_nat (r - 2))). unfold first_item.
  rewrite (lo_ritem _ _ L), rd_cons by lia. rewrite <- (items_from_symbol ps 2 _ p t E Ht). f_equal. lia.
Qed.

Lemma rule_end r p : rule ps r p -> rd (ritem (tab g)) (first_item ps r + zlen p.2) = Ok (- r).
Proof.
  intros [Hr E]. pose proof (offset_nonneg ps (Z.to_nat (r - 2))). pose proof (zlen_nonneg p.2). unfold first_item.
  rewrite (lo_ritem _ _ L), rd_cons by lia.
  replace (1 + offset ps (Z.to_nat (r - 2)) + zlen p.2 - 1) with (offset ps (Z.to_nat (r - 2)) + zlen p.2) by lia.
  rewrite (items_from_end ps 2 _ p E). do 2 f_equal. lia.
Qed.

Lemma nitems_offset : nitems g = 1 + offset ps (length ps).
Proof. rewrite (lo_nitems _ _ L), (lo_ritem _ _ L), zlen_cons, items_from_zlen. lia. Qed.

Lemma rule_bounds r p : rule ps r p ->
  2 <= r < nrules g /\ 1 <= first_item ps r /\ first_item ps r + zlen p.2 < nitems g.
Proof.
  intros H. pose proof (rule_lookup _ _ H). destruct H as [Hr E]. rewrite (lo_nrules _ _ L), nitems_offset.
  pose proof (offset_nonneg ps (Z.to_nat (r - 2))). unfold first_item, zlen in *.
  pose proof (offset_lt ps _ (length ps) p E). unfold zlen in *. lia.
Qed.

Lemma rule_range r : 2 <= r < nrules g -> exists p, rule ps r p.
Proof.
  rewrite (lo_nrules _ _ L). unfold zlen. intros Hr.
  destruct (lookup_lt_is_Some_2 ps (Z.to_nat (r - 2))) as [p E]; [lia|]. exists p. split; [lia|done].
Qed.

Lemma first_item_lt r r' p p' : rule ps r p -> rule ps r' p' -> r < r' -> first_item ps r + zlen p.2 < first_item ps r'.
Proof.
  intros [Hr E] H' Hlt. pose proof (rule_lookup _ _ H'). destruct H' as [Hr' E'].
  pose proof (offset_lt ps _ (Z.to_nat (r' - 2)) p E). unfold first_item. lia.
Qed.

Lemma item_rule i : 1 <= i < nitems g -> exists r p t, rule ps r p /\ 0 <= t <= zlen p.2 /\ i = first_item ps r + t.
Proof.
  rewrite nitems_offset. intros Hi. destruct (offset_split ps (i - 1)) as (k & p & t & E & Ht & Ei); [lia|].
  exists (Z.of_nat k + 2), p, t. unfold rule, first_item. replace (Z.to_nat (Z.of_nat k + 2 - 2)) with k by lia.
  split_and!; [lia|done|lia..].
Qed.

Lemma rule_symbols r p : rule ps r p -> start_symbol g <= p.1 < nsyms g /\ Forall (fun X => 0 <= X < nsyms g) p.2.
Proof. intros [_ E]. exact (Forall_lookup_1 _ _ _ _ (lo_symbols _ _ L) E). Qed.

Lemma rule_symbol_range r p t X : rule ps r p -> rd p.2 t = Ok X -> 0 <= X < nsyms g.
Proof. intros [_ H]%rule_symbols [_ E]%rd_Ok. exact (Forall_lookup_1 _ _ _ _ H E). Qed.

Lemma nrules_short r : r < nrules g -> 0 <= r -> s16 r = r.
Proof.
  intros H1 H2. rewrite (lo_nrules _ _ L) in H1. pose proof (lo_short _ _ L) as S1. rewrite nitems_offset in S1.
  assert (Hn : forall l : list production, zlen l <= offset l (length l)).
  { induction l as [|q l IH]; [done|]. cbn [offset length]. rewrite zlen_cons. pose proof (zlen_nonneg q.2). lia. }
  pose proof (Hn ps). unfold MAXSHORT in S1. unfold s16. rewrite Z.mod_small; lia.
Qed.

End Layout.

(** ** The rules of a variable *)

(** the indices from [r] on, of the elements [A] of [l] *)
Fixpoint lhs_rules (l : list Z) (r A : Z) : list Z :=
  match l with
  | [] => []
  | x :: l => if x =? A then r :: lhs_rules l (r + 1) A else lhs_rules l (r + 1) A
  end.

Lemma elem_of_lhs_rules l A : forall r x, x ∈ lhs_rules l r A <-> r <= x /\ rd l (x - r) = Ok A.
Proof.
  induction l as [|a l IH]; intros r x; cbn [lhs_rules].
  - rewrite elem_of_nil. split; [done|]. intros [_ E%rd_range]. unfold zlen in E. simpl in E. lia.
  - assert (Hx : r < x -> rd (a :: l) (x - r) = rd l (x - (r + 1))).
    { intros. rewrite rd_cons by lia. f_equal. lia. }
    assert (H0 : rd (a :: l) (r - r) = Ok a) by (by rewrite Z.sub_diag).
    destruct (Z.eqb_spec a A) as [->|Ne]; rewrite ?elem_of_cons, IH; split.
    + intros [->|[? E]]; [split; [lia|done]|]. rewrite Hx by lia. split; [lia|done].
    + intros [Hr E]. destruct (decide (x = r)) as [->|]; [by left|right]. rewrite Hx in E by lia. split; [lia|done].
    + intros [? E]. rewrite Hx by lia. split; [lia|done].
    + intros [Hr E]. destruct (decide (x = r)) as [->|]; [rewrite H0 in E; congruence|].
      rewrite Hx in E by lia. split; [lia|done].
Qed.

Lemma lhs_rules_sorted l A : forall r, StronglySorted Z.lt (lhs_rules l r A).
Proof.
  induction l as [|a l IH]; intros r; cbn [lhs_rules]; [constructor|]. case_if E; [|done].
  constructor; [done|]. apply Forall_forall. intros x [Hx _]%elem_of_lhs_rules. lia.
Qed.

Lemma lhs_rules_cons a l r A :
  lhs_rules (a :: l) r A = if a =? A then r :: lhs_rules l (r + 1) A else lhs_rules l (r + 1) A.
Proof. done. Qed.

(** the lists of [rules], each with its end mark *)
Definition rule_lists (l : list Z) (A : Z) (n : nat) : list Z :=
  concat (map (fun i => lhs_rules l 0 (A + Z.of_nat i) ++ [-1]) (seq 0 n)).

Lemma rule_lists_S l A n : rule_lists l A (S n) = rule_lists l A n ++ lhs_rules l 0 (A + Z.of_nat n) ++ [-1].
Proof. unfold rule_lists. rewrite seq_S, map_app, concat_app. cbn. by rewrite app_nil_r. Qed.

(** the rules of different variables are different *)
Lemma rule_lists_length l A n : (length (rule_lists l A n) <= n + length l)%nat.
Proof.
  assert (H : forall l r, (length (concat (map (fun i => lhs_rules l r (A + Z.of_nat i)) (seq 0 n))) <= length l)%nat).
  { clear l. induction l as [|a l IH]; intros r.
    - induction (seq 0 n) as [|i s IHs]; [done|exact IHs].
    - specialize (IH (r + 1)). cbn [length].
      assert (K : forall s, NoDup s ->
        (length (concat (map (fun i => lhs_rules (a :: l) r (A + Z.of_nat i)) s)) <=
         (if decide (Z.to_nat (a - A) ∈ s) then 1 else 0) +
         length (concat (map (fun i => lhs_rules l (r + 1) (A + Z.of_nat i)) s)))%nat).
      { induction s as [|i s IHs]; [by cbn; destruct (decide _); lia|]. intros [Hi Hs]%NoDup_cons. specialize (IHs Hs).
        cbn [map concat]. rewrite !length_app, lhs_rules_cons. destruct (Z.eqb_spec a (A + Z.of_nat i)) as [->|Ne].
        + replace (Z.to_nat (A + Z.of_nat i - A)) with i in * by lia.
          rewrite decide_True by (by left). rewrite decide_False in IHs by done. cbn [length]. lia.
        + destruct (decide (Z.to_nat (a - A) ∈ s)).
          * rewrite decide_True by (by right). lia.
          * destruct (decide (Z.to_nat (a - A) ∈ i :: s)); lia. }
      pose proof (K (seq 0 n) (NoDup_seq 0 n)). destruct (decide _); lia. }
  specialize (H l 0). unfold rule_lists. revert H. generalize (length l) as m. intros m. revert m.
  assert (K : forall s, length (concat (map (fun i => lhs_rules l 0 (A + Z.of_nat i) ++ [-1]) s)) =
    (length s + length (concat (map (fun i => lhs_rules l 0 (A + Z.of_nat i)) s)))%nat).
  { induction s as [|i s IHs]; [done|]. cbn [map concat length]. rewrite !length_app, IHs. cbn. lia. }
  intros m. rewrite K, length_seq. lia.
Qed.

(** an array filled from the left; [z] is what the rest holds *)
Definition pad (z : Z) (c : list Z) (n : nat) : list Z := c ++ replicate (n - length c) z.

Lemma pad_wr z c n x : (length c < n)%nat -> wr (pad z c n) (zlen c) x = Ok (pad z (c ++ [x]) n).
Proof.
  intros H. unfold pad. rewrite length_app. cbn [length].
  replace (n - length c)%nat with (S (n - (length c + 1))) by lia. cbn [replicate].
  rewrite wr_mid, <- app_assoc. done.
Qed.

Section Derives.
Context (g : grammar) (ps : list production) (L : lays_out g ps).

Lemma derives_inner A n l : forall pre c, rlhs (tab g) = pre ++ l ->
  zlen pre + zlen l = nrules g -> (length c + length (lhs_rules l (zlen pre) A) <= n)%nat ->
  for_loop (length l) (zlen pre)
    (fun i '(rs, k) =>
       let* x := rd (rlhs (tab g)) i in
       if x =? A then let* rs := wr rs k (s16 i) in Ok (rs, k + 1) else Ok (rs, k)) (pad 0 c n, zlen c) =
  Ok (pad 0 (c ++ lhs_rules l (zlen pre) A) n, zlen (c ++ lhs_rules l (zlen pre) A)).
Proof.
  induction l as [|a l IH]; intros pre c E Hl Hn.
  { cbn. by rewrite app_nil_r. }
  rewrite zlen_cons in Hl. pose proof (zlen_nonneg l). pose proof (zlen_nonneg pre).
  assert (Er : rd (rlhs (tab g)) (zlen pre) = Ok a) by (rewrite E, rd_app_r, Z.sub_diag by lia; done).
  cbn [length for_loop]. rewrite Er. cbn [rbind]. rewrite lhs_rules_cons in *.
  specialize (IH (pre ++ [a])). rewrite zlen_snoc in IH.
  destruct (a =? A).
  - cbn [length] in Hn. rewrite (nrules_short g ps L) by lia. rewrite pad_wr by lia. cbn [rbind].
    rewrite <- (zlen_snoc c (zlen pre)), IH; [by rewrite <- app_assoc|by rewrite <- app_assoc|lia|].
    rewrite length_app. cbn [length]. lia.
  - cbn [rbind]. by apply IH; [rewrite <- app_assoc|lia|].
Qed.

Lemma zlen_rlhs : zlen (rlhs (tab g)) = nrules g.
Proof. rewrite (lo_rlhs _ _ L), (lo_nrules _ _ L), !zlen_cons. unfold zlen. rewrite length_map. lia. Qed.

Lemma derives_row_ok A ds c n : 0 <= A < zlen ds -> (length c + length (lhs_rules (rlhs (tab g)) 0 A) + 1 <= n)%nat ->
  derives_row g A (Derivations ds (pad 0 c n), zlen c) =
  Ok (Derivations (<[Z.to_nat A := zlen c]> ds) (pad 0 (c ++ lhs_rules (rlhs (tab g)) 0 A ++ [-1]) n),
      zlen (c ++ lhs_rules (rlhs (tab g)) 0 A ++ [-1])).
Proof.
  intros HA Hn. unfold derives_row. cbn [derives rules]. rewrite wr_in_range by done. cbn [rbind].
  pose proof (derives_inner A n (rlhs (tab g)) [] c eq_refl) as E. change (zlen []) with 0 in E.
  rewrite zlen_rlhs in E. replace (Z.to_nat (nrules g)) with (length (rlhs (tab g))) by (rewrite <- zlen_rlhs; unfold zlen; lia).
  rewrite E by lia. cbn [rbind]. rewrite pad_wr by (rewrite length_app; lia). cbn [rbind].
  by rewrite app_assoc, <- (zlen_snoc _ (-1)).
Qed.

(** [derives] after the rows of [m] variables *)
Record rows_done (m : nat) (d : derivations) : Prop := {
  rd_rules : rules d = pad 0 (rule_lists (rlhs (tab g)) (start_symbol g) m) (Z.to_nat (nvars g + nrules g));
  rd_zlen : zlen (derives d) = nsyms g;
  rd_derives : forall i, (i < m)%nat ->
    rd (derives d) (start_symbol g + Z.of_nat i) = Ok (zlen (rule_lists (rlhs (tab g)) (start_symbol g) i)) }.

Lemma rule_lists_room m : (m <= Z.to_nat (nvars g))%nat ->
  (length (rule_lists (rlhs (tab g)) (start_symbol g) m) <= Z.to_nat (nvars g + nrules g))%nat.
Proof.
  intros Hm. pose proof (rule_lists_length (rlhs (tab g)) (start_symbol g) m). pose proof zlen_rlhs. pose proof (lo_start _ _ L).
  unfold nvars, ntokens, zlen in *. lia.
Qed.

Lemma rows_step m d : (m < Z.to_nat (nvars g))%nat -> rows_done m d ->
  exists d', derives_row g (start_symbol g + Z.of_nat m) (d, zlen (rule_lists (rlhs (tab g)) (start_symbol g) m)) =
    Ok (d', zlen (rule_lists (rlhs (tab g)) (start_symbol g) (S m))) /\ rows_done (S m) d'.
Proof.
  intros Hm [Hr Hz Hd]. destruct d as [ds rs]. cbn [derives rules] in *. subst rs.
  pose proof (rule_lists_room (S m) ltac:(lia)) as Room. pose proof (lo_start _ _ L).
  rewrite rule_lists_S in Room. rewrite !length_app in Room. cbn [length] in Room.
  rewrite derives_row_ok, rule_lists_S by (unfold nvars, ntokens in *; lia).
  eexists. split; [done|]. constructor; cbn [derives rules].
  - by rewrite rule_lists_S.
  - by rewrite zlen_insert.
  - intros i Hi. rewrite <- Hz in *. destruct (decide (i = m)) as [->|Ne].
    + apply rd_Ok. split; [lia|]. apply list_lookup_insert_eq. unfold nvars, ntokens, zlen in *. lia.
    + apply rd_Ok. split; [lia|]. rewrite list_lookup_insert_ne by lia. apply rd_Ok, Hd. lia.
Qed.

Lemma set_derives_done : exists d, set_derives g = Ok d /\ rows_done (Z.to_nat (nvars g)) d.
Proof.
  pose proof (lo_start _ _ L). unfold set_derives. fold (ntokens g). fold (nvars g).
  destruct (for_loop_inv
    (fun i '(d, k) => exists m, i = start_symbol g + Z.of_nat m /\ rows_done m d /\
       k = zlen (rule_lists (rlhs (tab g)) (start_symbol g) m))
    (Z.to_nat (nvars g)) (start_symbol g) (derives_row g)
    (Derivations (replicate (Z.to_nat (nsyms g)) 0) (replicate (Z.to_nat (nvars g + nrules g)) 0), 0))
    as ([d k] & E & m & Em & Hd & _).
  - exists 0%nat. split_and!; [lia| |done]. constructor; cbn [derives rules]; [|unfold zlen; rewrite length_replicate; lia|lia].
    unfold pad. cbn. by rewrite Nat.sub_0_r.
  - intros j [d k] Hj (m & Em & Hd & ->). destruct (rows_step m d) as (d' & E & Hd'); [lia|done|].
    subst j. rewrite E. eexists. split; [done|]. exists (S m). split_and!; [lia|done|done].
  - unfold ntokens. rewrite E. cbn [rbind]. exists d. split; [done|]. by replace (Z.to_nat (nvars g)) with m by lia.
Qed.

Lemma read_while_segment ok a y : forall xs p fuel,
  0 <= p -> (forall t, 0 <= t < zlen xs -> rd a (p + t) = rd xs t) -> Forall (fun x => ok x = true) xs ->
  rd a (p + zlen xs) = Ok y -> ok y = false -> (length xs < fuel)%nat -> read_while fuel ok a p = Ok xs.
Proof.
  induction xs as [|x xs IH]; intros p [|fuel] Hp Hx Hok Ey Hy Hf; try (simpl in Hf; lia).
  - change (zlen []) with 0 in Ey. rewrite Z.add_0_r in Ey. cbn [read_while]. rewrite Ey. cbn [rbind]. by rewrite Hy.
  - rewrite zlen_cons in *. pose proof (zlen_nonneg xs). apply Forall_cons in Hok as [Ex Hok].
    pose proof (Hx 0 ltac:(lia)) as E0. rewrite Z.add_0_r in E0. cbn [read_while]. rewrite E0. cbn [rbind].
    change (rd (x :: xs) 0) with (Ok x). cbn [rbind]. rewrite Ex, (IH (p + 1)); [done|lia| |done| |done|simpl in Hf; lia].
    + intros t Ht. rewrite <- Z.add_assoc, Hx, rd_cons by lia. f_equal. lia.
    + by rewrite <- Z.add_assoc.
Qed.

Lemma rule_lists_split l A n : forall i, (i < n)%nat ->
  exists rest, rule_lists l A n = rule_lists l A i ++ (lhs_rules l 0 (A + Z.of_nat i) ++ [-1]) ++ rest.
Proof.
  induction n as [|n IH]; intros i Hi; [lia|]. rewrite rule_lists_S. destruct (decide (i = n)) as [->|].
  - exists []. by rewrite app_nil_r.
  - destruct (IH i) as (rest & E); [lia|]. rewrite E. eexists. by rewrite <- !app_assoc.
Qed.

(** the rules of a variable, in increasing order *)
Definition rules_for (A : Z) : list Z := lhs_rules (rlhs (tab g)) 0 A.

Lemma elem_of_rules_for A r : start_symbol g <= A -> r ∈ rules_for A <-> exists p, rule ps r p /\ p.1 = A.
Proof.
  intros HA. pose proof (lo_start _ _ L). unfold rules_for. rewrite elem_of_lhs_rules, Z.sub_0_r. split.
  - intros [Hr E]. assert (2 <= r < nrules g) as Hr2.
    { pose proof (rd_range _ _ _ E) as Hb. rewrite zlen_rlhs in Hb. rewrite (lo_rlhs _ _ L) in E.
      destruct (decide (r = 0)) as [->|]; [cbn in E; injection E; lia|].
      destruct (decide (r = 1)) as [->|]; [cbn in E; injection E; lia|]. lia. }
    destruct (rule_range g ps L r Hr2) as [p Hp]. exists p. split; [done|].
    rewrite (rule_lhs g ps L _ _ Hp) in E. by injection E.
  - intros (p & Hp & <-). pose proof (rule_bounds g ps L _ _ Hp). split; [lia|]. by apply (rule_lhs g ps L).
Qed.

Lemma rules_for_sorted A : StronglySorted Z.lt (rules_for A).
Proof. apply lhs_rules_sorted. Qed.

Lemma rules_for_positive A : start_symbol g <= A -> Forall (fun r => 2 <= r < nrules g) (rules_for A).
Proof.
  intros HA. apply Forall_forall. intros r (p & Hp & _)%elem_of_rules_for; [|done].
  by apply (rule_bounds g ps L) in Hp as [? _].
Qed.

(** the rules read at the index of a variable, as long as they satisfy [ok] *)
Lemma read_rules d A ok : rows_done (Z.to_nat (nvars g)) d -> start_symbol g <= A < nsyms g ->
  (forall r, 2 <= r -> ok r = true) -> ok (-1) = false ->
  exists p, rd (derives d) A = Ok p /\ read_while (S (length (rules d))) ok (rules d) p = Ok (rules_for A).
Proof.
  intros [Hr Hz Hd] HA Hok Hend. set (i := Z.to_nat (A - start_symbol g)).
  assert (Hi : (i < Z.to_nat (nvars g))%nat) by (unfold nvars, ntokens, i; lia).
  assert (EA : start_symbol g + Z.of_nat i = A) by lia.
  pose proof (Hd i Hi) as E. rewrite EA in E. eexists. split; [exact E|].
  destruct (rule_lists_split (rlhs (tab g)) (start_symbol g) _ i Hi) as (rest & Er). rewrite EA in Er.
  set (pre := rule_lists (rlhs (tab g)) (start_symbol g) i) in *. fold (rules_for A) in Er.
  assert (Ea : exists rest', rules d = pre ++ rules_for A ++ -1 :: rest').
  { eexists. rewrite Hr. unfold pad. rewrite Er, <- !app_assoc. done. }
  destruct Ea as (rest' & Ea). rewrite Ea. pose proof (zlen_nonneg pre). pose proof (zlen_nonneg (rules_for A)).
  apply (read_while_segment _ _ (-1)); [lia| | | |done|].
  - intros t Ht. rewrite rd_app_r, rd_app_l by lia. f_equal. lia.
  - eapply Forall_impl; [apply rules_for_positive; lia|]. intros r [Hr2 _]. by apply Hok.
  - rewrite !rd_app_r by lia. replace (zlen pre + zlen (rules_for A) - zlen pre - zlen (rules_for A)) with 0 by lia. done.
  - rewrite !length_app. lia.
Qed.

Lemma rules_of_ok d A : rows_done (Z.to_nat (nvars g)) d -> start_symbol g <= A < nsyms g ->
  rules_of d A = Ok (rules_for A).
Proof.
  intros Hd HA. destruct (read_rules d A (fun r => 0 <=? r) Hd HA) as (p & Ep & Er); [|done|].
  - intros r Hr. by apply Z.leb_le; lia.
  - unfold rules_of. rewrite Ep. exact Er.
Qed.

End Derives.

(** ** Nullable symbols *)

(** a variable of a sentence replaced with a right-hand side *)
Inductive derive_step (ps : list production) : list Z -> list Z -> Prop :=
  | derive_rule u v p : p ∈ ps -> derive_step ps (u ++ p.1 :: v) (u ++ p.2 ++ v).

(** [A] derives the empty string *)
Definition derives_empty (ps : list production) (A : Z) : Prop := rtc (derive_step ps) [A] [].

Lemma derive_step_frame ps u v s t : derive_step ps s t -> derive_step ps (u ++ s ++ v) (u ++ t ++ v).
Proof.
  intros [u' v' p Hp]. rewrite <- !app_assoc. cbn [app]. rewrite !(app_assoc u u'). by constructor.
Qed.

Lemma derive_empty_app ps s t : rtc (derive_step ps) s [] -> rtc (derive_step ps) t [] -> rtc (derive_step ps) (s ++ t) [].
Proof.
  intros Hs Ht. transitivity t; [|done].
  assert (H : forall s s', rtc (derive_step ps) s s' -> rtc (derive_step ps) (s ++ t) (s' ++ t)).
  { induction 1 as [|s1 s2 s3 H1 _ IH]; [done|]. eapply rtc_l; [|exact IH]. exact (derive_step_frame ps [] t _ _ H1). }
  exact (H _ _ Hs).
Qed.

Lemma derive_empty_list ps s : Forall (derives_empty ps) s -> rtc (derive_step ps) s [].
Proof. induction 1 as [|A s HA _ IH]; [done|]. exact (derive_empty_app ps [A] s HA IH). Qed.

Definition marked (nu : list bool) (X : Z) : Prop := nu !! Z.to_nat X = Some true.

#[local] Instance marked_dec nu X : Decision (marked nu X) := decide (nu !! Z.to_nat X = Some true).

Lemma rd_marked (nu : list bool) X : 0 <= X < zlen nu -> rd nu X = Ok (bool_decide (marked nu X)).
Proof.
  intros H. destruct (rd_in_range _ _ H) as [b E]. rewrite E. apply rd_Ok in E as [_ E]. f_equal. unfold marked.
  case_bool_decide as Q; rewrite E in Q; destruct b; congruence.
Qed.

(** the rules with number [r] or more hold in [nu] *)
Definition closed_from (ps : list production) (r : Z) (nu : list bool) : Prop :=
  forall r' p, r <= r' -> rule ps r' p -> Forall (marked nu) p.2 -> marked nu p.1.

Fixpoint marks (nu : list bool) : nat :=
  match nu with [] => 0 | b :: nu => (if b then 1 else 0) + marks nu end%nat.

Lemma marks_le nu : (marks nu <= length nu)%nat.
Proof. induction nu as [|[] nu IH]; cbn; lia. Qed.

Lemma marks_insert nu : forall i, nu !! i = Some false -> marks (<[i := true]> nu) = S (marks nu).
Proof.
  induction nu as [|b nu IH]; intros [|i] E; try done; cbn in *.
  - by injection E as ->.
  - rewrite IH by done. lia.
Qed.

Lemma marked_insert nu A X : 0 <= A < zlen nu -> 0 <= X ->
  marked (<[Z.to_nat A := true]> nu) X <-> X = A \/ marked nu X.
Proof.
  intros HA HX. unfold marked, zlen in *. destruct (decide (X = A)) as [->|Ne].
  - rewrite list_lookup_insert_eq by lia. tauto.
  - rewrite list_lookup_insert_ne by lia. tauto.
Qed.

Section Nullable.
Context (g : grammar) (ps : list production) (L : lays_out g ps).

Lemma scan_rhs_ok nu r p : zlen nu = nsyms g -> rule ps r p -> forall n t fuel e,
  n = Z.to_nat (zlen p.2 - t) -> 0 <= t <= zlen p.2 -> (n < fuel)%nat ->
  scan_rhs fuel (ritem (tab g)) nu (first_item ps r + t) e =
  Ok (first_item ps r + zlen p.2, - r, e && bool_decide (Forall (marked nu) (drop (Z.to_nat t) p.2))).
Proof.
  intros Hnu Hr. pose proof (rule_bounds g ps L _ _ Hr) as Hb.
  induction n as [|n IH]; intros t [|fuel] e En Ht Hf; try lia; cbn [scan_rhs].
  - replace t with (zlen p.2) by lia. rewrite (rule_end g ps L _ _ Hr). cbn [rbind].
    destruct (Z.leb_spec 0 (- r)); [lia|]. rewrite drop_ge by (unfold zlen; lia).
    rewrite bool_decide_eq_true_2 by constructor. by rewrite andb_true_r.
  - rewrite (rule_symbol g ps L _ _ t Hr) by lia. destruct (rd_in_range p.2 t) as [X EX]; [lia|].
    rewrite EX. cbn [rbind]. pose proof (rule_symbol_range g ps L _ _ _ _ Hr EX) as HX.
    destruct (Z.leb_spec 0 X); [|lia]. rewrite rd_marked by lia. cbn [rbind].
    rewrite <- Z.add_assoc, IH by lia. do 2 f_equal. apply rd_Ok in EX as [_ EX].
    rewrite (drop_S p.2 X (Z.to_nat t) EX). replace (Z.to_nat (t + 1)) with (S (Z.to_nat t)) by lia.
    destruct (bool_decide_reflect (marked nu X)) as [M|M]; destruct e; cbn [andb]; try done.
    + apply bool_decide_ext. rewrite Forall_cons. tauto.
    + symmetry. apply bool_decide_eq_false_2. rewrite Forall_cons. tauto.
Qed.

Lemma first_item_next r p : rule ps r p -> first_item ps (r + 1) = first_item ps r + zlen p.2 + 1.
Proof.
  intros [Hr E]. unfold first_item. replace (Z.to_nat (r + 1 - 2)) with (S (Z.to_nat (r - 2))) by lia.
  rewrite (offset_next _ _ _ E). lia.
Qed.

Lemma first_item_end : first_item ps (nrules g) = nitems g.
Proof. unfold first_item. rewrite (lo_nrules _ _ L), (nitems_offset g ps L). unfold zlen. do 2 f_equal. lia. Qed.

(** the marked symbols derive the empty string *)
Definition sound (nu : list bool) : Prop := zlen nu = nsyms g /\ forall X, marked nu X -> 0 <= X -> derives_empty ps X.

Lemma sound_rule nu r p : sound nu -> rule ps r p -> Forall (marked nu) p.2 -> sound (<[Z.to_nat p.1 := true]> nu).
Proof.
  intros [Hz Hs] Hr Hp. destruct (rule_symbols g ps L _ _ Hr) as [H1 H2]. pose proof (lo_start _ _ L).
  split; [by rewrite zlen_insert|]. intros X HX HX0.
  destruct (proj1 (marked_insert nu p.1 X ltac:(lia) HX0) HX) as [->|HX']; [|by apply Hs].
  unfold derives_empty. eapply rtc_l.
  - apply (derive_rule ps [] [] p). destruct Hr as [_ E]. by apply list_elem_of_lookup_2 in E.
  - cbn [app]. rewrite app_nil_r. apply derive_empty_list. rewrite Forall_forall in *. intros Y HY.
    apply Hs; [by apply Hp|]. apply H2 in HY. lia.
Qed.

Definition pass_result (r : Z) (nu : list bool) (done : bool) (nu' : list bool) (done' : bool) : Prop :=
  sound nu' /\ (if done' then done = true /\ nu' = nu /\ closed_from ps r nu
                else done = false \/ (marks nu < marks nu')%nat) /\ (marks nu <= marks nu')%nat.

Lemma nullable_pass_ok n : forall r nu done fuel, n = Z.to_nat (nrules g - r) -> 2 <= r <= nrules g -> sound nu ->
  (Z.to_nat (nitems g - first_item ps r) < fuel)%nat ->
  exists nu' done', nullable_pass fuel g (first_item ps r) nu done = Ok (nu', done') /\
    pass_result r nu done nu' done'.
Proof.
  induction n as [|n IH]; intros r nu done [|fuel] En Hr Hs Hf; try lia; cbn [nullable_pass].
  - replace r with (nrules g) by lia. rewrite first_item_end. destruct (Z.ltb_spec (nitems g) (nitems g)); [lia|].
    exists nu, done. split; [done|]. split; [done|]. split; [|done]. destruct done; [|by left].
    split_and!; [done..|]. intros r' p Hle Hp. pose proof (rule_bounds g ps L _ _ Hp). lia.
  - destruct (rule_range g ps L r) as [p Hp]; [lia|]. pose proof (rule_bounds g ps L _ _ Hp) as Hb.
    pose proof (zlen_nonneg p.2). destruct (Z.ltb_spec (first_item ps r) (nitems g)); [|lia].
    pose proof (scan_rhs_ok nu r p (proj1 Hs) Hp _ 0 (S (Z.to_nat (nitems g))) true eq_refl) as E.
    rewrite Z.add_0_r in E. rewrite E by lia. cbn [rbind andb]. change (Z.to_nat 0) with 0%nat. rewrite drop_0.
    rewrite Z.opp_involutive, (rule_lhs g ps L _ _ Hp). cbn [rbind]. rewrite <- (first_item_next _ _ Hp).
    destruct (rule_symbols g ps L _ _ Hp) as [HA _]. pose proof (lo_start _ _ L). pose proof (proj1 Hs) as Hz.
    pose proof (first_item_next _ _ Hp) as Hn. rewrite rd_marked by lia. cbn [rbind].
    destruct (bool_decide_reflect (Forall (marked nu) p.2)) as [F|F];
      [destruct (bool_decide_reflect (marked nu p.1)) as [M|M]|].
    all: try (rewrite wr_in_range by lia; cbn [rbind]).
    + destruct (IH (r + 1) nu done fuel) as (nu' & done' & E' & Hs' & Hd & Hm); [lia..|done|lia|].
      exists nu', done'. split; [done|]. split; [done|]. split; [|done]. destruct done'; [|done].
      destruct Hd as (? & ? & Hc). split_and!; [done..|]. intros r' p' Hle Hp' HF.
      destruct (decide (r' = r)) as [->|]; [|apply (Hc r' p'); [lia|done..]].
      destruct Hp as [_ Q1], Hp' as [_ Q2]. rewrite Q1 in Q2. by injection Q2 as <-.
    + destruct (IH (r + 1) (<[Z.to_nat p.1 := true]> nu) false fuel) as (nu' & done' & E' & Hs' & Hd & Hm);
        [lia..|by eapply sound_rule|lia|].
      assert (marks (<[Z.to_nat p.1 := true]> nu) = S (marks nu)) as Em.
      { apply marks_insert. destruct (rd_in_range nu p.1) as [b Eb]; [lia|]. apply rd_Ok in Eb as [_ Eb].
        rewrite Eb. f_equal. destruct b; [|done]. by destruct M. }
      exists nu', done'. split; [done|]. split; [done|]. rewrite Em in Hm.
      destruct done'; [by destruct Hd|]. split; [right; lia|lia].
    + destruct (IH (r + 1) nu done fuel) as (nu' & done' & E' & Hs' & Hd & Hm); [lia..|done|lia|].
      exists nu', done'. split; [done|]. split; [done|]. split; [|done]. destruct done'; [|done].
      destruct Hd as (? & ? & Hc). split_and!; [done..|]. intros r' p' Hle Hp' HF.
      destruct (decide (r' = r)) as [->|]; [|apply (Hc r' p'); [lia|done..]].
      destruct Hp as [_ Q1], Hp' as [_ Q2]. rewrite Q1 in Q2. injection Q2 as <-. done.
Qed.

Lemma nullable_loop_ok fuel : forall nu, sound nu -> (length nu - marks nu < fuel)%nat ->
  exists nu', nullable_loop fuel g nu = Ok nu' /\ sound nu' /\ closed_from ps 2 nu'.
Proof.
  induction fuel as [|fuel IH]; intros nu Hs Hf; [lia|]. cbn [nullable_loop].
  assert (2 <= nrules g) by (rewrite (lo_nrules _ _ L); pose proof (zlen_nonneg ps); lia).
  pose proof (nullable_pass_ok _ 2 nu true (S (Z.to_nat (nitems g))) eq_refl) as P.
  change (first_item ps 2) with 1 in P. destruct P as (nu' & done' & E & Hs' & Hd & Hm); [lia|done|lia|].
  rewrite E. cbn [rbind]. destruct done'.
  - destruct Hd as (_ & -> & Hc). exists nu. done.
  - destruct Hd as [|Hd]; [done|]. apply IH; [done|].
    pose proof (marks_le nu'). destruct Hs as [Hz _], Hs' as [Hz' _]. unfold zlen in *. lia.
Qed.

Lemma set_nullable_marks :
  exists nu, set_nullable g = Ok nu /\ zlen nu = nsyms g /\
    forall X, 0 <= X < nsyms g -> rd nu X = Ok true <-> derives_empty ps X.
Proof.
  pose proof (lo_start _ _ L).
  destruct (nullable_loop_ok (S (Z.to_nat (nsyms g))) (replicate (Z.to_nat (nsyms g)) false))
    as (nu & E & [Hz Hs] & Hc).
  - split; [unfold zlen; rewrite length_replicate; lia|]. intros X M. unfold marked in M.
    apply lookup_replicate in M as [? _]. done.
  - rewrite length_replicate. lia.
  - exists nu. split; [exact E|]. split; [done|]. intros X HX. rewrite rd_marked by lia.
    assert (M : forall s t, rtc (derive_step ps) s t -> t = [] -> Forall (marked nu) s).
    { induction 1 as [|s1 s2 s3 [u v p Hp] _ IH]; [by intros ->|]. intros Ht. specialize (IH Ht).
      apply Forall_app in IH as [Hu [HA Hv]%Forall_app]. apply Forall_app. split; [done|]. constructor; [|done].
      apply list_elem_of_lookup in Hp as [k Ek]. apply (Hc (Z.of_nat k + 2) p); [lia| |done].
      split; [lia|]. by replace (Z.to_nat (Z.of_nat k + 2 - 2)) with k by lia. }
    destruct (bool_decide_reflect (marked nu X)) as [Q|Q]; split; try done.
    + intros _. apply Hs; [done|lia].
    + intros D. by apply M in D as [D _]%Forall_cons.
Qed.

(** C30: The fixpoint over the packed items ends, and marks exactly the symbols from which
    the empty string is derived. *)
Theorem set_nullable_correct :
  exists nu, set_nullable g = Ok nu /\ zlen nu = nsyms g /\
    forall X, 0 <= X < nsyms g -> rd nu X = Ok true <-> derives_empty ps X.
Proof. apply set_nullable_marks. Qed.

End Nullable.

(** ** The packed grammar *)

(** the precedence of a rule: the one of its last terminal *)
Definition rule_precedence (rhs : list bucket) : Z * Z :=
  fold_left (fun pa b => if term b then (prec b, assoc b) else pa) rhs (0, TOKEN).

(** the precedence given with %prec, or else the default one *)
Definition precedence (precs assocs : list Z) (m : nat) (r : bucket * list bucket) : Z * Z :=
  if zget precs (Z.of_nat m + 3) =? UNDEFINED then rule_precedence r.2
  else (zget precs (Z.of_nat m + 3), zget assocs (Z.of_nat m + 3)).

(** the rules read: a left-hand side and a right-hand side *)
Definition read_rules_items (rs : list (bucket * list bucket)) : list (option bucket) :=
  replicate 4 None ++ concat (map (fun r => map Some r.2 ++ [None]) rs).

Definition read_rules_lhs (rs : list (bucket * list bucket)) : list (option bucket) :=
  replicate 3 None ++ map (fun r => Some r.1) rs.

Definition productions_of (goal : bucket) (start_symbol : Z) (rs : list (bucket * list bucket)) : list production :=
  (start_symbol, [index goal; 0]) :: map (fun r => (index r.1, map index r.2)) rs.

Lemma pack_rhs_ok z n rhs : forall pre post c p a fuel, zlen c = zlen pre ->
  (length c + length rhs <= n)%nat -> (length rhs < fuel)%nat ->
  pack_rhs fuel (pre ++ map Some rhs ++ None :: post) (pad z c n) (zlen pre) p a =
  Ok (pad z (c ++ map index rhs) n, zlen (c ++ map index rhs),
      (fold_left (fun pa b => if term b then (prec b, assoc b) else pa) rhs (p, a)).1,
      (fold_left (fun pa b => if term b then (prec b, assoc b) else pa) rhs (p, a)).2).
Proof.
  induction rhs as [|b rhs IH]; intros pre post c p a [|fuel] Hc Hn Hf; cbn [length] in *; try lia.
  - cbn [pack_rhs map app fold_left]. rewrite rd_app_r, Z.sub_diag by lia. cbn. by rewrite app_nil_r, Hc.
  - cbn [pack_rhs map app fold_left]. rewrite rd_app_r, Z.sub_diag by lia.
    change (rd (Some b :: map Some rhs ++ None :: post) 0) with (Ok (Some b)). cbn [rbind].
    rewrite <- Hc, pad_wr by lia. cbn [rbind].
    specialize (IH (pre ++ [Some b]) post (c ++ [index b])). rewrite <- !app_assoc in IH.
    assert (Ez : zlen (pre ++ [Some b]) = zlen c + 1) by (rewrite zlen_snoc; lia). rewrite Ez in IH.
    destruct (term b); rewrite IH; rewrite ?zlen_snoc, ?length_app; cbn [length]; try lia; done.
Qed.

Lemma items_from_app r ps p : items_from r (ps ++ [p]) = items_from r ps ++ p.2 ++ [- (r + zlen ps)].
Proof.
  revert r. induction ps as [|q ps IH]; intros r; cbn [items_from app].
  - change (zlen []) with 0. by rewrite Z.add_0_r.
  - rewrite IH, <- app_assoc, zlen_cons. cbn [app]. do 5 f_equal. lia.
Qed.

Lemma starts_from_app j ps p :
  starts_from j (ps ++ [p]) = starts_from j ps ++ [j + offset (ps ++ [p]) (length (ps ++ [p]))].
Proof.
  revert j. induction ps as [|q ps IH]; intros j; cbn [starts_from app length offset].
  - cbn. do 2 f_equal. lia.
  - rewrite IH. do 3 f_equal. cbn [offset]. lia.
Qed.

Section Pack.
Context (z : Z) (goal : bucket) (start nitems nrules : Z) (rs : list (bucket * list bucket)) (precs assocs : list Z).
Context (Hitems : nitems = zlen (read_rules_items rs)) (Hrules : nrules = zlen (read_rules_lhs rs)).
Context (Hshort : nitems <= MAXSHORT).
Context (Hprecs : nrules <= zlen precs) (Hassocs : nrules <= zlen assocs).

(** the tables after the rules [done] *)
Record packed_to (done : list (bucket * list bucket)) (t : tables) (j : Z) : Prop := {
  pk_items : ritem t = pad z (-1 :: items_from 2 (productions_of goal start done)) (Z.to_nat nitems);
  pk_j : j = 1 + offset (productions_of goal start done) (length (productions_of goal start done));
  pk_lhs : rlhs t = pad z (0 :: 0 :: map fst (productions_of goal start done)) (Z.to_nat nrules);
  pk_rhs : exists w, rrhs t = pad z w (Z.to_nat (nrules + 1)) /\
    w ++ [j] = 0 :: 0 :: starts_from 1 (productions_of goal start done);
  pk_zlen : zlen (rprec t) = nrules /\ zlen (rassoc t) = nrules;
  pk_done : forall m r, done !! m = Some r ->
    (zget (rprec t) (Z.of_nat m + 3), zget (rassoc t) (Z.of_nat m + 3)) = precedence precs assocs m r;
  pk_rest : forall i, zlen done + 3 <= i < nrules ->
    zget (rprec t) i = zget precs i /\ zget (rassoc t) i = zget assocs i }.

Lemma productions_snoc done r :
  productions_of goal start (done ++ [r]) = productions_of goal start done ++ [(index r.1, map index r.2)].
Proof. unfold productions_of. by rewrite map_app. Qed.

Lemma pitem_length l : zlen (concat (map (fun r : bucket * list bucket => map Some r.2 ++ [None]) l)) =
  offset (map (fun r => (index r.1, map index r.2)) l) (length l).
Proof.
  induction l as [|r l IH]; [done|]. cbn [map concat offset length]. rewrite !zlen_app, IH. cbn [snd].
  unfold zlen. rewrite !length_map. cbn. lia.
Qed.

Lemma read_items_length done : zlen (read_rules_items done) =
  1 + offset (productions_of goal start done) (length (productions_of goal start done)).
Proof.
  unfold read_rules_items, productions_of. rewrite zlen_app, pitem_length. cbn [length offset].
  rewrite length_map. unfold zlen. cbn. lia.
Qed.

Lemma read_items_split done r rest : read_rules_items (done ++ r :: rest) =
  read_rules_items done ++ map Some r.2 ++ None :: concat (map (fun r => map Some r.2 ++ [None]) rest).
Proof.
  unfold read_rules_items. rewrite map_app, concat_app. cbn [map concat]. by rewrite <- !app_assoc.
Qed.

Lemma read_lhs_at done r rest : rd (read_rules_lhs (done ++ r :: rest)) (zlen done + 3) = Ok (Some r.1).
Proof.
  pose proof (zlen_nonneg done). unfold read_rules_lhs. rewrite rd_app_r, zlen_replicate by (rewrite zlen_replicate; lia).
  rewrite map_app. cbn [map]. rewrite rd_app_r, zlen_map by (rewrite zlen_map; lia).
  by replace (zlen done + 3 - Z.of_nat 3 - zlen done) with 0 by lia.
Qed.

Lemma s16_short x : - MAXSHORT <= x <= MAXSHORT -> s16 x = x.
Proof. unfold MAXSHORT, s16. intros. rewrite Z.mod_small; lia. Qed.

Lemma precedence_snoc done r ps as_ :
  (forall m r, done !! m = Some r ->
    (zget ps (Z.of_nat m + 3), zget as_ (Z.of_nat m + 3)) = precedence precs assocs m r) ->
  (zget ps (zlen done + 3), zget as_ (zlen done + 3)) = precedence precs assocs (length done) r ->
  forall m r', (done ++ [r]) !! m = Some r' ->
    (zget ps (Z.of_nat m + 3), zget as_ (Z.of_nat m + 3)) = precedence precs assocs m r'.
Proof.
  intros Hd Hp m r' E. apply lookup_app_Some in E as [E|[Hm E]]; [by apply Hd|].
  destruct (m - length done)%nat eqn:Q; [|done]. injection E as <-. by replace m with (length done) by lia.
Qed.

Lemma starts_length j ps : length (starts_from j ps) = S (length ps).
Proof. revert j. induction ps as [|p ps IH]; intros j; [done|]. cbn [starts_from length]. by rewrite IH. Qed.

Lemma productions_zlen done : zlen (productions_of goal start done) = zlen done + 1.
Proof. unfold productions_of. rewrite zlen_cons, zlen_map. lia. Qed.

Lemma items_zlen (l : list (bucket * list bucket)) : zlen l <= zlen (concat (map (fun r => map Some r.2 ++ [None]) l)).
Proof.
  induction l as [|r l IH]; [done|]. cbn [map concat]. rewrite !zlen_app, !zlen_cons, zlen_map.
  pose proof (zlen_nonneg r.2). pose proof (zlen_nonneg (@nil (option bucket))). lia.
Qed.

(** the sizes, at a rule to pack *)
Lemma pack_sizes done r rest : rs = done ++ r :: rest ->
  nrules = zlen done + zlen rest + 4 /\ zlen (read_rules_items done) + zlen r.2 + 1 <= nitems /\ nrules <= nitems.
Proof.
  intros E. rewrite Hrules, Hitems, E, read_items_split. unfold read_rules_lhs, read_rules_items.
  rewrite !zlen_app, !zlen_replicate, !zlen_map, zlen_app, !zlen_cons.
  pose proof (items_zlen rest). pose proof (items_zlen done). pose proof (zlen_nonneg r.2). pose proof (zlen_nonneg rest). lia.
Qed.

(** the tables after one more rule *)
Lemma packed_next done r t j w ps as_ : packed_to done t j ->
  w ++ [j] = 0 :: 0 :: starts_from 1 (productions_of goal start done) ->
  zlen ps = nrules -> zlen as_ = nrules ->
  (forall m r', (done ++ [r]) !! m = Some r' ->
    (zget ps (Z.of_nat m + 3), zget as_ (Z.of_nat m + 3)) = precedence precs assocs m r') ->
  (forall i, zlen done + 4 <= i < nrules -> zget ps i = zget precs i /\ zget as_ i = zget assocs i) ->
  packed_to (done ++ [r])
    (Tables (pad z (((-1 :: items_from 2 (productions_of goal start done)) ++ map index r.2) ++ [- (zlen done + 3)]) (Z.to_nat nitems))
       (pad z ((0 :: 0 :: map fst (productions_of goal start done)) ++ [index r.1]) (Z.to_nat nrules))
       (pad z (w ++ [j]) (Z.to_nat (nrules + 1))) ps as_)
    (zlen ((-1 :: items_from 2 (productions_of goal start done)) ++ map index r.2) + 1).
Proof.
  intros [_ Hj _ _ _ _ _] Ew Hp Ha Hd Hr. pose proof (productions_zlen done) as Hlen.
  set (P := productions_of goal start done) in *.
  assert (Ej : zlen ((-1 :: items_from 2 P) ++ map index r.2) + 1 =
    1 + offset (P ++ [(index r.1, map index r.2)]) (length (P ++ [(index r.1, map index r.2)]))).
  { rewrite <- (items_from_zlen _ 2), items_from_app, !zlen_app, !zlen_cons. cbn [snd].
    change (zlen (@nil Z)) with 0. lia. }
  constructor; cbn [ritem rlhs rrhs rprec rassoc]; rewrite ?productions_snoc; fold P.
  - rewrite items_from_app, Hlen. cbn [app snd]. rewrite <- app_assoc. by replace (2 + (zlen done + 1)) with (zlen done + 3) by lia.
  - exact Ej.
  - by rewrite map_app.
  - exists (w ++ [j]). split; [done|]. rewrite Ew, starts_from_app, Ej. done.
  - done.
  - done.
  - intros i Hi. apply Hr. rewrite zlen_snoc in Hi. lia.
Qed.

Lemma pack_rule_ok done r rest t j : rs = done ++ r :: rest -> packed_to done t j ->
  exists t' j', pack_rule (read_rules_items rs) (read_rules_lhs rs) (zlen done + 3) (t, j) = Ok (t', j') /\
    packed_to (done ++ [r]) t' j'.
Proof.
  intros Ers Pk. pose proof Pk as [Hi Hj Hl (w & Hw & Ew) [Hz1 Hz2] Hd Hrest].
  pose proof (zlen_nonneg done). pose proof (zlen_nonneg rest). pose proof (zlen_nonneg r.2).
  destruct (pack_sizes _ _ _ Ers) as (Nr & Ni & Nri). pose proof (productions_zlen done) as Hlen.
  pose proof (read_items_length done) as Ej. rewrite <- Hj in Ej. pose proof (zlen_nonneg (read_rules_items done)).
  set (P := productions_of goal start done) in *.
  assert (El : zlen (0 :: 0 :: map fst P) = zlen done + 3) by (rewrite !zlen_cons, zlen_map; lia).
  assert (Lw : zlen w = zlen done + 3).
  { apply (f_equal length) in Ew. rewrite length_app in Ew. cbn [length] in Ew. rewrite starts_length in Ew.
    unfold zlen in *. lia. }
  assert (Li : zlen (-1 :: items_from 2 P) = j) by (rewrite zlen_cons, items_from_zlen; lia).
  unfold pack_rule. rewrite Ers, read_lhs_at. cbn [rbind of_option].
  rewrite Hl, <- El, pad_wr by (unfold zlen in *; lia). cbn [rbind].
  rewrite El, <- Lw, Hw, pad_wr by (unfold zlen in *; lia). cbn [rbind]. rewrite (s16_short j) by lia.
  set (c := -1 :: items_from 2 P) in *. assert (Lc : length c = Z.to_nat j) by (unfold zlen in Li; lia).
  rewrite read_items_split, Hi.
  match goal with |- context [pack_rhs ?fl (_ ++ _ ++ _ :: ?post) _ _ _ _] =>
    pose proof (pack_rhs_ok z (Z.to_nat nitems) r.2 (read_rules_items done) post c 0 TOKEN fl) as E end.
  rewrite Ej in E. rewrite E; [|done|unfold zlen in *; lia|rewrite !length_app, length_map; lia].
  cbn [rbind]. rewrite Lw, s16_short by lia.
  rewrite pad_wr by (rewrite length_app, length_map; unfold zlen in *; lia). cbn [rbind].
  assert (Hp : rd (rprec t) (zlen done + 3) = Ok (zget precs (zlen done + 3))).
  { rewrite rd_zget by lia. f_equal. apply Hrest. lia. }
  rewrite Hp. cbn [rbind].
  destruct (zget precs (zlen done + 3) =? UNDEFINED) eqn:U.
  - rewrite !wr_in_range by lia. cbn [rbind]. eexists _, _. split; [done|].
    assert (G : forall l x i, zlen l = nrules -> 0 <= i ->
      zget (<[Z.to_nat (zlen done + 3) := x]> l) i = if zlen done + 3 =? i then x else zget l i).
    { intros l x i Hl' Hi'. apply zget_insert; lia. }
    eapply (packed_next _ _ _ _ _ _ _ Pk); try done; rewrite ?zlen_insert; try done.
    + apply precedence_snoc.
      * intros m r' E'. apply lookup_lt_Some in E' as Hm. rewrite !G by lia.
        destruct (Z.eqb_spec (zlen done + 3) (Z.of_nat m + 3)); [unfold zlen in *; lia|by apply Hd].
      * rewrite !G, Z.eqb_refl by lia. unfold precedence. fold (zlen done). rewrite U. symmetry. apply surjective_pairing.
    + intros i Hi'. rewrite !G by lia. destruct (Z.eqb_spec (zlen done + 3) i); [lia|]. apply Hrest. lia.
  - eexists _, _. split; [done|]. eapply (packed_next _ _ _ _ _ _ _ Pk); try done.
    + apply precedence_snoc; [done|]. unfold precedence. fold (zlen done). rewrite U.
      destruct (Hrest (zlen done + 3)) as [-> ->]; [lia|done].
    + intros i Hi'. apply Hrest. lia.
Qed.

Lemma pad_full c n : length c = n -> pad z c n = c.
Proof. intros <-. unfold pad. by rewrite Nat.sub_diag, app_nil_r. Qed.

Lemma pack_all n : forall done rest t j, n = length rest -> rs = done ++ rest -> packed_to done t j ->
  exists t' j', for_loop n (zlen done + 3) (pack_rule (read_rules_items rs) (read_rules_lhs rs)) (t, j) = Ok (t', j') /\
    packed_to rs t' j'.
Proof.
  induction n as [|n IH]; intros done [|r rest] t j Hn E Pk; cbn [length] in Hn; try lia.
  - rewrite app_nil_r in E. subst done. by exists t, j.
  - destruct (pack_rule_ok _ _ _ _ _ E Pk) as (t1 & j1 & E1 & Pk1). cbn [for_loop]. rewrite E1. cbn [rbind].
    destruct (IH (done ++ [r]) rest t1 j1) as (t' & j' & E' & Pk'); [by injection Hn|by rewrite <- app_assoc|done|].
    exists t', j'. split; [|done]. rewrite zlen_snoc in E'. by replace (zlen done + 3 + 1) with (zlen done + 1 + 3) by lia.
Qed.

Lemma sizes_total : nrules = zlen rs + 3 /\ nitems = zlen (read_rules_items rs) /\ 4 <= nitems /\ 3 <= nrules.
Proof.
  rewrite Hitems, Hrules. unfold read_rules_lhs, read_rules_items. rewrite !zlen_app, !zlen_replicate, zlen_map.
  pose proof (zlen_nonneg rs). pose proof (zlen_nonneg (concat (map (fun r => map Some r.2 ++ [None]) rs))). lia.
Qed.

(** Packing lays the rules out: each right-hand side followed by its rule number,
    negated, the first rule being the one of the start symbol; the left-hand sides, the
    first items and the precedences, the default one being the precedence of the last
    terminal of the rule. *)
Theorem pack_grammar_correct nsyms :
  0 < start < nsyms ->
  Forall (fun p : production => start <= p.1 < nsyms /\ Forall (fun X => 0 <= X < nsyms) p.2) (productions_of goal start rs) ->
  exists t, pack_grammar z goal start nitems nrules (read_rules_items rs) (read_rules_lhs rs) precs assocs = Ok t /\
    lays_out (Grammar t start nsyms nrules nitems) (productions_of goal start rs) /\
    (zlen (rprec t) = nrules /\ zlen (rassoc t) = nrules) /\
    forall m r, rs !! m = Some r ->
      (zget (rprec t) (Z.of_nat m + 3), zget (rassoc t) (Z.of_nat m + 3)) = precedence precs assocs m r.
Proof.
  intros Hstart Hsym. destruct sizes_total as (Nr & Ni & H4 & H3). pose proof (zlen_nonneg rs).
  assert (R : forall n, replicate n z = pad z [] n) by (intros; unfold pad; by rewrite Nat.sub_0_r).
  assert (W : forall c n x i, zlen c = i -> i < Z.of_nat n -> wr (pad z c n) i x = Ok (pad z (c ++ [x]) n)).
  { intros c n x i <- Hi. apply pad_wr. unfold zlen in Hi. lia. }
  unfold pack_grammar. rewrite !R. repeat (rewrite W by (done || lia); cbn [rbind app]).
  destruct (pack_all (length rs) [] rs
    (Tables (pad z [-1; index goal; 0; -2] (Z.to_nat nitems)) (pad z [0; 0; start] (Z.to_nat nrules))
      (pad z [0; 0; 1] (Z.to_nat (nrules + 1))) (take (Z.to_nat nrules) precs) (take (Z.to_nat nrules) assocs)) 4)
    as (t & j & E & [Ti Tj Tl (w & Tw & Ew) [Z1 Z2] Td _]); [done|done| |].
  { constructor; cbn [ritem rlhs rrhs rprec rassoc]; try done.
    - by exists [0; 0; 1].
    - unfold zlen in *. rewrite !length_take. lia.
    - intros i Hi. change (zlen []) with 0 in Hi. unfold zget. rewrite !nth_lookup, !lookup_take_lt by lia. done. }
  change (zlen [] + 3) with 3 in E. replace (Z.to_nat (nrules - 3)) with (length rs) by (unfold zlen in *; lia).
  rewrite E. cbn [rbind]. rewrite <- read_items_length, <- Ni in Tj. subst j.
  assert (Lw : zlen w = nrules).
  { apply (f_equal length) in Ew. rewrite length_app in Ew. cbn [length] in Ew. rewrite starts_length in Ew.
    pose proof (productions_zlen rs). unfold zlen in *. lia. }
  rewrite s16_short, Tw, W by (done || lia). cbn [rbind]. eexists. split; [done|]. split; [|split; [by split|exact Td]].
  assert (Fi : length (-1 :: items_from 2 (productions_of goal start rs)) = Z.to_nat nitems).
  { rewrite Ni, read_items_length. pose proof (items_from_zlen (productions_of goal start rs) 2) as Q.
    unfold zlen in Q. cbn [length]. lia. }
  constructor; cbn [tab Grammar.nrules Grammar.nitems start_symbol Grammar.nsyms ritem rlhs rrhs]; try done.
  - by rewrite Ti, pad_full.
  - rewrite Tl, pad_full; [done|]. pose proof (productions_zlen rs). cbn [length]. rewrite length_map. unfold zlen in *. lia.
  - rewrite Ew. apply pad_full. rewrite <- Ew, length_app. cbn. unfold zlen in *. lia.
  - rewrite productions_zlen. lia.
  - rewrite Ti, pad_full by done. unfold zlen. rewrite Fi. lia.
Qed.

End Pack.

(** the elements of the arrays after the rules are not read *)
Lemma pack_rhs_grown x pitem fuel : forall fuel' ri j p a r, (fuel <= fuel')%nat -> pack_rhs fuel pitem ri j p a = Ok r -> pack_rhs fuel' (pitem ++ x) ri j p a = Ok r.
Proof.
  induction fuel as [|fuel IH]; intros [|fuel'] ri j p a r Hf E; try done; [lia|]. cbn [pack_rhs] in *. apply rbind_Ok in E as (o & Eo & E). rewrite (rd_grown _ _ _ _ Eo). cbn [rbind].
  destruct o as [b|]; [|done]. apply rbind_Ok in E as (ri' & -> & E). cbn [rbind]. destruct (term b); by apply IH; [lia|].
Qed.

Lemma pack_rule_grown x y pitem plhs i st st' : pack_rule pitem plhs i st = Ok st' -> pack_rule (pitem ++ x) (plhs ++ y) i st = Ok st'.
Proof.
  destruct st as [t j]. unfold pack_rule. intros (o & Eo & E)%rbind_Ok. rewrite (rd_grown _ _ _ _ Eo). cbn [rbind].
  apply rbind_Ok in E as (b & -> & E). cbn [rbind]. apply rbind_Ok in E as (lhs & -> & E). cbn [rbind]. apply rbind_Ok in E as (rhs & -> & E). cbn [rbind].
  apply rbind_Ok in E as (r & Er & E). rewrite (pack_rhs_grown x pitem (S (length pitem)) (S (length (pitem ++ x))) _ _ _ _ _ ltac:(rewrite length_app; lia) Er). exact E.
Qed.

Lemma for_loop_same {A} (f g : Z -> A -> result A) : (forall i a b, f i a = Ok b -> g i a = Ok b) -> forall n i a b, for_loop n i f a = Ok b -> for_loop n i g a = Ok b.
Proof. intros H. induction n as [|n IH]; intros i a b E; [done|]. cbn [for_loop] in *. apply rbind_Ok in E as (a' & Ef & E). rewrite (H _ _ _ Ef). cbn [rbind]. by apply IH. Qed.

Lemma pack_grammar_grown z goal start nitems nrules pitem plhs precs assocs x y t : pack_grammar z goal start nitems nrules pitem plhs precs assocs = Ok t ->
  pack_grammar z goal start nitems nrules (pitem ++ x) (plhs ++ y) precs assocs = Ok t.
Proof.
  unfold pack_grammar. intros E. repeat (apply rbind_Ok in E as (? & -> & E); cbn [rbind]; try match type of E with (let* _ := for_loop _ _ _ _ in _) = _ => fail 1 end).
  cbv zeta in E |- *. apply rbind_Ok in E as (st & El & E). rewrite (for_loop_same _ _ (pack_rule_grown x y pitem plhs) _ _ _ _ El). exact E.
Qed.


(** ** An example *)

Definition demo_a : bucket := Bucket 2 1 true 2.
Definition demo_goal : bucket := Bucket 4 0 false 0.
Definition demo_s : bucket := Bucket 5 0 false 0.

(** goal: s;  s: | a s *)
Definition demo_rules : list (bucket * list bucket) := [(demo_s, []); (demo_s, [demo_a; demo_s]); (demo_goal, [demo_s])].

Definition demo_productions : list production := productions_of demo_goal 3 demo_rules.

Definition demo_tables : tables :=
  Tables [-1; 4; 0; -2; -3; 2; 5; -4; 5; -5] [0; 0; 3; 5; 5; 4] [0; 0; 1; 4; 5; 8; 10] [0; 0; 0; 0; 1; 0] [0; 0; 0; 0; 2; 0].

Definition demo_grammar : grammar := Grammar demo_tables 3 6 6 10.

Example demo_packed : pack_grammar 7 demo_goal 3 10 6 (read_rules_items demo_rules) (read_rules_lhs demo_rules)
    [0; 0; 0; -1; -1; -1; 0] [0; 0; 0; 0; 0; 0; 0] = Ok demo_tables.
Proof. reflexivity. Qed.

Lemma demo_symbols : Forall (fun p : production => 3 <= p.1 < 6 /\ Forall (fun X => 0 <= X < 6) p.2) demo_productions.
Proof. repeat constructor; cbn; lia. Qed.

Lemma demo_lays_out : lays_out demo_grammar demo_productions.
Proof. constructor; try done. exact demo_symbols. Qed.

Lemma pack_grammar_witness :
  exists t, pack_grammar 7 demo_goal 3 10 6 (read_rules_items demo_rules) (read_rules_lhs demo_rules)
      [0; 0; 0; -1; -1; -1; 0] [0; 0; 0; 0; 0; 0; 0] = Ok t /\
    lays_out (Grammar t 3 6 6 10) demo_productions /\
    (zlen (rprec t) = 6 /\ zlen (rassoc t) = 6) /\
    forall m r, demo_rules !! m = Some r ->
      (zget (rprec t) (Z.of_nat m + 3), zget (rassoc t) (Z.of_nat m + 3)) =
      precedence [0; 0; 0; -1; -1; -1; 0] [0; 0; 0; 0; 0; 0; 0] m r.
Proof.
  exact (pack_grammar_correct 7 demo_goal 3 10 6 demo_rules [0; 0; 0; -1; -1; -1; 0] [0; 0; 0; 0; 0; 0; 0]
    eq_refl eq_refl ltac:(done) ltac:(done) ltac:(done) 6 ltac:(lia) demo_symbols).
Defined.

Lemma set_nullable_witness :
  exists nu, set_nullable demo_grammar = Ok nu /\ zlen nu = 6 /\
    forall X, 0 <= X < 6 -> rd nu X = Ok true <-> derives_empty demo_productions X.
Proof. exact (set_nullable_correct demo_grammar demo_productions demo_lays_out). Defined.

(** $accept is not nullable: its rule ends with $end *)
Example demo_nullable : set_nullable demo_grammar = Ok [false; false; false; false; true; true].
Proof. reflexivity. Qed.
