(* ===== verification/Closure.v ===== *)
(** * Closures of item sets ([ocaml/yacc/closure.c])

    An item is an index in [ritem]: the symbol after the dot.  [set_EFF] computes the
    relation between a variable and the variables that start one of its sentences, with
    the closure of [Warshall.v]; [set_first_derives], for each variable, the set of the
    rules that its sentences can start with; [closure] adds to a sorted set of items, the
    nucleus, the first items of those rules, by merging.

    [first_derives] is the array from its first row, the one of [start_symbol]. *)

From S2P Require Import Prelude.
From S2P Require Import Warshall.
From S2P Require Import Grammar.
From Stdlib Require Import Sorting.Sorted.
From stdpp Require Import relations.
#[local] Open Scope Z_scope.

(** for (rule = *sp; rule > 0; rule = *++sp): the row of a variable *)
Fixpoint EFF_rules (g : grammar) (row : Z) (rs : list Z) (EFF : list Z) : result (list Z) :=
  match rs with
  | [] => Ok EFF
  | rule :: rs =>
      let* p := rd (rrhs (tab g)) rule in
      let* symbol := rd (ritem (tab g)) p in
      let* EFF := if ISVAR g symbol then SETBIT EFF row (symbol - start_symbol g) else Ok EFF in
      EFF_rules g row rs EFF
  end.

Definition set_EFF (g : grammar) (d : derivations) : result (list Z) :=
  let rowsize := WORDSIZE (nvars g) in
  let* (EFF, _) :=
    for_loop (Z.to_nat (nsyms g - start_symbol g)) (start_symbol g)
      (fun i '(EFF, row) =>
         let* sp := rd (derives d) i in
         let* rs := read_while (S (length (rules d))) (fun rule => 0 <? rule) (rules d) sp in
         let* EFF := EFF_rules g row rs EFF in
         Ok (EFF, row + rowsize))
      (replicate (Z.to_nat (nvars g * rowsize)) 0, 0) in
  reflexive_transitive_closure EFF (nvars g).

(** while ((rule = *rp++) >= 0) SETBIT(rrow, rule) *)
Fixpoint SETBITs (rrow : Z) (rs : list Z) (R : list Z) : result (list Z) :=
  match rs with
  | [] => Ok R
  | rule :: rs => let* R := SETBIT R rrow rule in SETBITs rrow rs R
  end.

(** the body of the loop on the variables [j]: after the last bit of a word, the next word
    is read *)
Definition first_derives_bit (EFF : list Z) (d : derivations) (rrow j : Z) (st : list Z * Z * Z * Z)
    : result (list Z * Z * Z * Z) :=
  let '(fd, vrow, cword, mask) := st in
  let* fd := if negb (Z.land cword mask =? 0) then let* rs := rules_of d j in SETBITs rrow rs fd else Ok fd in
  let mask := u32 (Z.shiftl mask 1) in
  if mask =? 0 then let* cword := rd EFF vrow in Ok (fd, vrow + 1, cword, 1)
  else Ok (fd, vrow, cword, mask).

(** the row of the variable [i] *)
Definition first_derives_row (g : grammar) (EFF : list Z) (d : derivations) (i : Z) (st : list Z * Z)
    : result (list Z * Z) :=
  let (fd, rrow) := st in
  let vrow := (i - ntokens g) * WORDSIZE (nvars g) in
  let* cword := rd EFF vrow in
  let* (fd, _, _, _) :=
    for_loop (Z.to_nat (nsyms g - start_symbol g)) (start_symbol g) (first_derives_bit EFF d rrow)
      (fd, vrow + 1, cword, 1) in
  Ok (fd, rrow + WORDSIZE (nrules g)).

Definition set_first_derives (g : grammar) (d : derivations) : result (list Z) :=
  let* EFF := set_EFF g d in
  let* (fd, _) :=
    for_loop (Z.to_nat (nsyms g - start_symbol g)) (start_symbol g) (first_derives_row g EFF d)
      (replicate (Z.to_nat (nvars g * WORDSIZE (nrules g))) 0, 0) in
  Ok fd.

(** while (rsp < rend) *rsp++ |= *dsp++ *)
Definition or_rules (fd : list Z) (dsp : Z) (ruleset : list Z) : result (list Z) :=
  let* (ruleset, _, _) :=
    while_loop (S (length ruleset))
      (fun '(_, rsp, _) => rsp <? zlen ruleset)
      (fun '(rs, rsp, dsp) =>
         let* x := rd rs rsp in
         let* y := rd fd dsp in
         let* rs := wr rs rsp (Z.lor x y) in
         Ok (rs, rsp + 1, dsp + 1))
      (ruleset, 0, dsp) in
  Ok ruleset.

(** the rules of the variables of the nucleus *)
Fixpoint nucleus_rules (g : grammar) (fd : list Z) (nucleus ruleset : list Z) : result (list Z) :=
  match nucleus with
  | [] => Ok ruleset
  | item :: nucleus =>
      let* symbol := rd (ritem (tab g)) item in
      let* ruleset :=
        if ISVAR g symbol then or_rules fd ((symbol - ntokens g) * WORDSIZE (nrules g)) ruleset else Ok ruleset in
      nucleus_rules g fd nucleus ruleset
  end.

(** *itemsetend++ = item: [itemset] has room for the items of the grammar *)
Definition put_item (g : grammar) (itemset : list Z) (item : Z) : result (list Z) :=
  if zlen itemset <? nitems g then Ok (itemset ++ [item]) else Undef.

(** while (csp < csend && *csp < itemno) *itemsetend++ = *csp++ *)
Fixpoint put_before (g : grammar) (ok : Z -> bool) (csp itemset : list Z) : result (list Z * list Z) :=
  match csp with
  | [] => Ok ([], itemset)
  | item :: csp' =>
      if ok item then let* itemset := put_item g itemset item in put_before g ok csp' itemset
      else Ok (csp, itemset)
  end.

(** while (csp < csend && *csp == itemno) ++csp *)
Fixpoint drop_equal (itemno : Z) (csp : list Z) : list Z :=
  match csp with
  | [] => []
  | item :: csp' => if item =? itemno then drop_equal itemno csp' else csp
  end.

(** a rule in the set; [csp] is the rest of the nucleus *)
Definition merge_rule (g : grammar) (ruleno : Z) (csp itemset : list Z) : result (list Z * list Z) :=
  let* itemno := rd (rrhs (tab g)) ruleno in
  let* (csp, itemset) := put_before g (fun item => item <? itemno) csp itemset in
  let* itemset := put_item g itemset itemno in
  Ok (drop_equal itemno csp, itemset).

(** the bits of a word: while (mask) ... mask <<= 1, 32 times at most *)
Fixpoint merge_word (fuel : nat) (g : grammar) (word mask ruleno : Z) (csp itemset : list Z) {struct fuel}
    : result (Z * list Z * list Z) :=
  match fuel with
  | O => NoFuel
  | S fuel =>
      if mask =? 0 then Ok (ruleno, csp, itemset) else
      let* (csp, itemset) :=
        if negb (Z.land word mask =? 0) then merge_rule g ruleno csp itemset else Ok (csp, itemset) in
      merge_word fuel g word (u32 (Z.shiftl mask 1)) (ruleno + 1) csp itemset
  end.

(** the words of the set of rules *)
Fixpoint merge_words (g : grammar) (ws : list Z) (ruleno : Z) (csp itemset : list Z) : result (list Z * list Z) :=
  match ws with
  | [] => Ok (csp, itemset)
  | word :: ws =>
      if word =? 0 then merge_words g ws (ruleno + BITS_PER_INT) csp itemset else
      let* (ruleno, csp, itemset) := merge_word 33 g word 1 ruleno csp itemset in
      merge_words g ws ruleno csp itemset
  end.

(** the items of the closure, from [itemset] to [itemsetend] *)
Definition closure (g : grammar) (fd : list Z) (nucleus : list Z) : result (list Z) :=
  let* ruleset := nucleus_rules g fd nucleus (replicate (Z.to_nat (WORDSIZE (nrules g))) 0) in
  let* (csp, itemset) := merge_words g ruleset 0 nucleus [] in
  let* (_, itemset) := put_before g (fun _ => true) csp itemset in
  Ok itemset.

Example demo_closure :
  (let* d := set_derives demo_grammar in
   let* fd := set_first_derives demo_grammar d in
   let* c0 := closure demo_grammar fd [1] in
   let* c1 := closure demo_grammar fd [6] in
   Ok (fd, c0, c1)) = Ok ([60; 56; 24], [1; 4; 5; 8], [4; 5; 6]).
Proof. reflexivity. Qed.

(** ** Bits set in rows *)

Lemma u32_bit j : 0 <= j -> u32 (Z.shiftl 1 (j mod 32)) = 2 ^ (j mod 32).
Proof.
  intros Hj. rewrite Z.shiftl_mul_pow2, Z.mul_1_l by zlia. apply u32_id. unfold is_u32.
  split; [apply Z.pow_nonneg; lia|apply Z.pow_lt_mono_r; zlia].
Qed.

Lemma SETBIT_ok R rs nr i j : 0 <= i < nr -> 0 <= j < 32 * rs -> zlen R = nr * rs ->
  exists R', SETBIT R (i * rs) j = Ok R' /\ zlen R' = zlen R /\
    forall i' j', 0 <= i' -> 0 <= j' < 32 * rs ->
      entry R' rs i' j' = entry R rs i' j' || ((i' =? i) && (j' =? j)).
Proof.
  intros Hi Hj Hz. assert (Hw : 0 <= j / 32 < rs) by zlia. pose proof (cell_range nr rs i (j / 32) Hi Hw).
  unfold SETBIT, BITS_PER_INT. rewrite rd_zget by lia. cbn [rbind]. rewrite wr_in_range by lia.
  eexists. split; [done|]. split; [apply zlen_insert|]. intros i' j' Hi' Hj'. unfold entry.
  assert (Hw' : 0 <= j' / 32 < rs) by zlia. rewrite zget_insert by nia.
  destruct (Z.eqb_spec (i * rs + j / 32) (i' * rs + j' / 32)) as [E|E].
  - assert (i' = i) as -> by nia. assert (Ew : j / 32 = j' / 32) by lia. rewrite Z.eqb_refl, u32_bit, Z.lor_spec, Ew by lia.
    f_equal. rewrite Z.pow2_bits_eqb by zlia.
    destruct (Z.eqb_spec (j mod 32) (j' mod 32)), (Z.eqb_spec j' j); try done; exfalso; zlia.
  - destruct (Z.eqb_spec i' i), (Z.eqb_spec j' j); subst; try lia; by rewrite orb_false_r.
Qed.

(** a matrix with the bits of [P] added in the row [i] *)
Definition added (R R' : list Z) (rs i : Z) (P : Z -> Prop) : Prop :=
  zlen R' = zlen R /\ forall i' j', 0 <= i' -> 0 <= j' < 32 * rs ->
    entry R' rs i' j' = true <-> entry R rs i' j' = true \/ (i' = i /\ P j').

Lemma SETBIT_added R rs nr i j : 0 <= i < nr -> 0 <= j < 32 * rs -> zlen R = nr * rs ->
  exists R', SETBIT R (i * rs) j = Ok R' /\ added R R' rs i (eq j).
Proof.
  intros Hi Hj Hz. destruct (SETBIT_ok R rs nr i j Hi Hj Hz) as (R' & E & Hz' & H). exists R'. split; [done|].
  split; [done|]. intros i' j' Hi' Hj'. rewrite H by done. rewrite orb_true_iff, andb_true_iff, !Z.eqb_eq, (Z.eq_sym_iff j' j). tauto.
Qed.

Lemma added_trans R R1 R2 rs i (P Q : Z -> Prop) : added R R1 rs i P -> added R1 R2 rs i Q ->
  added R R2 rs i (fun j => P j \/ Q j).
Proof.
  intros [H1 E1] [H2 E2]. split; [lia|]. intros i' j' Hi Hj. rewrite E2, E1 by done. tauto.
Qed.

Lemma added_ext R R' rs i (P Q : Z -> Prop) : (forall j, 0 <= j < 32 * rs -> P j <-> Q j) -> added R R' rs i P -> added R R' rs i Q.
Proof. intros H [Hz E]. split; [done|]. intros i' j' Hi Hj. rewrite E, H by done. done. Qed.

Lemma added_none R rs i (P : Z -> Prop) : (forall j, 0 <= j < 32 * rs -> ~ P j) -> added R R rs i P.
Proof. intros H. split; [done|]. intros i' j' Hi Hj. pose proof (H j' Hj). tauto. Qed.

Lemma SETBITs_added rs nr i l : 0 <= i < nr -> forall R, Forall (fun j => 0 <= j < 32 * rs) l -> zlen R = nr * rs ->
  exists R', SETBITs (i * rs) l R = Ok R' /\ added R R' rs i (fun j => j ∈ l).
Proof.
  intros Hi. induction l as [|j l IH]; intros R Hl Hz; cbn [SETBITs].
  - exists R. split; [done|]. apply added_none. intros j _. apply not_elem_of_nil.
  - apply Forall_cons in Hl as [Hj Hl]. destruct (SETBIT_added R rs nr i j Hi Hj Hz) as (R1 & -> & A1). cbn [rbind].
    destruct (IH R1 Hl) as (R2 & -> & A2); [destruct A1; lia|]. exists R2. split; [done|].
    eapply added_ext; [|exact (added_trans _ _ _ _ _ _ _ A1 A2)]. intros j' _. rewrite elem_of_cons. intuition.
Qed.

Section Closure.
Context (g : grammar) (ps : list production) (L : lays_out g ps).

(** ** First variables *)

(** [B] starts the right-hand side of a rule of [A] *)
Definition left_corner (A B : Z) : Prop :=
  start_symbol g <= B /\ exists r p, rule ps r p /\ p.1 = A /\ rd p.2 0 = Ok B.

Lemma first_symbol r p : rule ps r p ->
  exists symbol, rd (ritem (tab g)) (first_item ps r) = Ok symbol /\ symbol < nsyms g /\
    forall X, start_symbol g <= X -> symbol = X <-> rd p.2 0 = Ok X.
Proof.
  intros Hr. pose proof (lo_start _ _ L). pose proof (rule_bounds g ps L _ _ Hr). destruct p as [A [|B w]]; cbn [snd] in *.
  - exists (- r). pose proof (rule_end g ps L _ _ Hr) as E. cbn [snd] in E. change (zlen []) with 0 in E.
    rewrite Z.add_0_r in E. split; [done|]. split; [lia|]. intros X HX. split; [lia|done].
  - exists B. pose proof (rule_symbol g ps L _ _ 0 Hr) as E. cbn [snd] in E. rewrite Z.add_0_r, zlen_cons in E.
    pose proof (zlen_nonneg w). specialize (E ltac:(lia)). split; [exact E|].
    pose proof (rule_symbol_range g ps L _ _ 0 B Hr eq_refl). split; [lia|]. intros X _. cbn. split; [by intros ->|by intros [= ->]].
Qed.

Lemma nvars_pos : 0 < nvars g.
Proof. pose proof (lo_start _ _ L). unfold nvars, ntokens. lia. Qed.

Lemma var_bit A : start_symbol g <= A < nsyms g -> 0 <= A - start_symbol g < nvars g.
Proof. unfold nvars, ntokens. lia. Qed.

Lemma EFF_rules_ok i : 0 <= i < nvars g -> forall l R, Forall (fun r => exists p, rule ps r p) l ->
  zlen R = nvars g * WORDSIZE (nvars g) ->
  exists R', EFF_rules g (i * WORDSIZE (nvars g)) l R = Ok R' /\
    added R R' (WORDSIZE (nvars g)) i (fun j => exists r p, r ∈ l /\ rule ps r p /\ rd p.2 0 = Ok (start_symbol g + j)).
Proof.
  intros Hi. induction l as [|r l IH]; intros R Hl Hz; cbn [EFF_rules].
  - exists R. split; [done|]. apply added_none. intros j _ (r & p & H & _). by apply elem_of_nil in H.
  - apply Forall_cons in Hl as [[p Hp] Hl]. rewrite (rule_start g ps L _ _ Hp). cbn [rbind].
    destruct (first_symbol r p Hp) as (symbol & -> & Hs & Hx). cbn [rbind].
    assert (exists R1, (if ISVAR g symbol then SETBIT R (i * WORDSIZE (nvars g)) (symbol - start_symbol g) else Ok R) = Ok R1 /\
      added R R1 (WORDSIZE (nvars g)) i (fun j => rd p.2 0 = Ok (start_symbol g + j))) as (R1 & -> & A1).
    { unfold ISVAR. destruct (Z.leb_spec (start_symbol g) symbol).
      - destruct (SETBIT_added R (WORDSIZE (nvars g)) (nvars g) i (symbol - start_symbol g) Hi) as (R1 & E & A1); [|done|].
        + pose proof (var_bit symbol). unfold WORDSIZE, BITS_PER_INT. zlia.
        + exists R1. split; [done|]. eapply added_ext; [|exact A1]. intros j Hj. rewrite <- (Hx (start_symbol g + j)) by lia. lia.
      - exists R. split; [done|]. apply added_none. intros j Hj E. apply Hx in E; lia. }
    cbn [rbind]. destruct (IH R1 Hl) as (R2 & -> & A2); [destruct A1; lia|]. exists R2. split; [done|].
    eapply added_ext; [|exact (added_trans _ _ _ _ _ _ _ A1 A2)]. intros j _. split.
    + intros [E|(r' & p' & H & ?)]; [exists r, p|exists r', p']; rewrite elem_of_cons; tauto.
    + intros (r' & p' & [->|H]%elem_of_cons & Hr' & E); [left|right; by exists r', p'].
      destruct Hp as [_ Q1], Hr' as [_ Q2]. rewrite Q1 in Q2. by injection Q2 as <-.
Qed.

Lemma zero_entry n rs i j : entry (replicate n 0) rs i j = false.
Proof.
  unfold entry, zget. rewrite nth_lookup. destruct (replicate n 0 !! _) eqn:E; [|apply Z.testbit_0_l].
  apply lookup_replicate in E as [-> _]. apply Z.testbit_0_l.
Qed.

Lemma left_corner_range A B : left_corner A B -> start_symbol g <= A < nsyms g /\ start_symbol g <= B < nsyms g.
Proof.
  intros [HB (r & p & Hr & <- & E)]. split; [by apply (rule_symbols g ps L) in Hr as [? _]|].
  pose proof (rule_symbol_range g ps L _ _ _ _ Hr E). lia.
Qed.

Lemma left_corners_range A B : rtc left_corner A B -> start_symbol g <= A < nsyms g -> start_symbol g <= B < nsyms g.
Proof. induction 1 as [|A B C HAB _ IH]; [done|]. intros _. apply IH. by apply (left_corner_range _ _ HAB). Qed.

Lemma left_corners_rel EFF :
  (forall i j, rel EFF (nvars g) i j <-> left_corner (start_symbol g + i) (start_symbol g + j)) ->
  forall i j, 0 <= i < nvars g -> 0 <= j < nvars g ->
    rtc (rel EFF (nvars g)) i j <-> rtc left_corner (start_symbol g + i) (start_symbol g + j).
Proof.
  intros H i j Hi Hj. split.
  - intros R. eapply (rtc_congruence (Z.add (start_symbol g))); [|exact R].
    intros x y Hxy. by apply H.
  - assert (K : forall A B, rtc left_corner A B -> rtc (rel EFF (nvars g)) (A - start_symbol g) (B - start_symbol g)).
    { induction 1 as [|A B C HAB _ IH]; [done|]. eapply rtc_l; [|exact IH]. apply H.
      by replace (start_symbol g + (A - start_symbol g)) with A by lia;
         replace (start_symbol g + (B - start_symbol g)) with B by lia. }
    intros R%K. by replace i with (start_symbol g + i - start_symbol g) by lia;
      replace j with (start_symbol g + j - start_symbol g) by lia.
Qed.

Section FirstSets.
Context (d : derivations) (Hd : rows_done g (Z.to_nat (nvars g)) d).

Lemma set_EFF_ok : exists EFF, set_EFF g d = Ok EFF /\ zlen EFF = nvars g * WORDSIZE (nvars g) /\
  forall i j, 0 <= i < nvars g -> 0 <= j < nvars g ->
    entry EFF (WORDSIZE (nvars g)) i j = true <-> rtc left_corner (start_symbol g + i) (start_symbol g + j).
Proof.
  pose proof nvars_pos as Hn. pose proof (WORDSIZE_pos (nvars g) Hn) as Hw. unfold set_EFF.
  set (rs := WORDSIZE (nvars g)) in *.
  match goal with |- context [for_loop ?fl ?lo ?bd ?st] => destruct (for_loop_inv
    (fun i '(EFF, row) => row = (i - start_symbol g) * rs /\ zlen EFF = nvars g * rs /\
       forall i' j', 0 <= i' -> 0 <= j' < 32 * rs ->
         entry EFF rs i' j' = true <-> i' < i - start_symbol g /\ left_corner (start_symbol g + i') (start_symbol g + j'))
    fl lo bd st) as ([EFF row] & E & Hrow & Hz & He) end.
  - split; [lia|]. split; [rewrite zlen_replicate; nia|]. intros i' j' Hi' _. rewrite zero_entry. split; [done|lia].
  - intros i [EFF row] Hi (-> & Hz & He). assert (Hv : start_symbol g <= i < nsyms g) by (pose proof (lo_start _ _ L); lia).
    destruct (read_rules g ps L d i (fun rule => 0 <? rule) Hd Hv) as (sp & -> & Er); [intros r Hr; apply Z.ltb_lt; lia|done|].
    cbn [rbind]. rewrite Er. cbn [rbind].
    destruct (EFF_rules_ok (i - start_symbol g) (var_bit i Hv) (rules_for g i) EFF) as (R & E & HR & HR'); [|done|].
    { apply Forall_forall. intros r (p & Hp & _)%(elem_of_rules_for g ps L); [by exists p|lia]. }
    fold rs in E, HR, HR'. rewrite E. cbn [rbind]. eexists. split; [done|]. split; [lia|]. split; [lia|].
    intros i' j' Hi' Hj'. rewrite HR', He by done. split.
    + intros [[H1 H2]|[-> (r & p & Hr & Hp & E0)]]; [split; [lia|done]|]. split; [lia|]. split; [lia|].
      apply (elem_of_rules_for g ps L) in Hr as (p' & Hp' & Ei); [|lia]. exists r, p. split_and!; [done| |done].
      destruct Hp as [_ Q1], Hp' as [_ Q2]. rewrite Q1 in Q2. injection Q2 as ->. lia.
    + intros [H1 H2]. destruct (decide (i' = i - start_symbol g)) as [->|]; [right|left; split; [lia|done]].
      split; [done|]. destruct H2 as [_ (r & p & Hr & Ep & E0)]. exists r, p. split_and!; [|done..].
      apply (elem_of_rules_for g ps L); [lia|]. exists p. split; [done|lia].
  - rewrite E. cbn [rbind]. destruct (reflexive_transitive_closure_spec EFF (nvars g)) as (EFF' & E' & Hz' & Hrel); [lia|done|].
    exists EFF'. split; [exact E'|]. split; [by rewrite Hz'|].
    replace (start_symbol g + Z.of_nat _ - start_symbol g) with (nvars g) in He by (unfold nvars, ntokens in *; lia).
    assert (Hlc : forall i j, rel EFF (nvars g) i j <-> left_corner (start_symbol g + i) (start_symbol g + j)).
    { intros i j. unfold rel. fold rs. split.
      - intros (Hi & Hj & H). apply He in H as [_ H]; [done|lia|]. unfold rs, WORDSIZE, BITS_PER_INT. zlia.
      - intros H. pose proof (left_corner_range _ _ H). unfold nvars, ntokens in *. split; [lia|]. split; [lia|].
        apply He; [lia| |split; [lia|done]]. unfold rs, WORDSIZE, BITS_PER_INT, nvars, ntokens. zlia. }
    intros i j Hi Hj. rewrite <- (left_corners_rel EFF Hlc i j Hi Hj).
    assert (rel EFF' (nvars g) i j <-> entry EFF' rs i j = true) as <- by (unfold rel; fold rs; tauto).
    rewrite Hrel. tauto.
Qed.

(** ** First rules *)

Context (Hodd : nvars g mod 32 <> 0).

Lemma EFF_word k : 0 <= k <= nvars g -> 0 <= k / 32 < WORDSIZE (nvars g).
Proof. unfold WORDSIZE, BITS_PER_INT. zlia. Qed.

Lemma rules_bits A : start_symbol g <= A -> Forall (fun r => 0 <= r < 32 * WORDSIZE (nrules g)) (rules_for g A).
Proof.
  intros HA. eapply Forall_impl; [by apply (rules_for_positive g ps L)|]. intros r Hr. cbn in Hr.
  unfold WORDSIZE, BITS_PER_INT. zlia.
Qed.

Section Row.
Context (EFF : list Z) (HEFF : zlen EFF = nvars g * WORDSIZE (nvars g)) (i : Z) (Hi : 0 <= i < nvars g) (fd0 : list Z).

Definition row_at (k : Z) (st : list Z * Z * Z * Z) : Prop :=
  let '(fd, vrow, cword, mask) := st in
  vrow = i * WORDSIZE (nvars g) + k / 32 + 1 /\
  cword = zget EFF (i * WORDSIZE (nvars g) + k / 32) /\ mask = 2 ^ (k mod 32) /\
  added fd0 fd (WORDSIZE (nrules g)) i
    (fun r => exists k', 0 <= k' < k /\ entry EFF (WORDSIZE (nvars g)) i k' = true /\ r ∈ rules_for g (start_symbol g + k')).

Lemma first_derives_bit_ok k st : 0 <= k < nvars g -> zlen fd0 = nvars g * WORDSIZE (nrules g) -> row_at k st ->
  exists st', first_derives_bit EFF d (i * WORDSIZE (nrules g)) (start_symbol g + k) st = Ok st' /\ row_at (k + 1) st'.
Proof.
  intros Hk Hz0. destruct st as [[[fd vrow] cword] mask]. intros (-> & -> & -> & A).
  unfold first_derives_bit. rewrite land_pow2_nonzero by zlia.
  change (Z.testbit _ (k mod 32)) with (entry EFF (WORDSIZE (nvars g)) i k).
  assert (exists fd', (if entry EFF (WORDSIZE (nvars g)) i k then let* rs := rules_of d (start_symbol g + k) in
      SETBITs (i * WORDSIZE (nrules g)) rs fd else Ok fd) = Ok fd' /\
    added fd fd' (WORDSIZE (nrules g)) i
      (fun r => entry EFF (WORDSIZE (nvars g)) i k = true /\ r ∈ rules_for g (start_symbol g + k))) as (fd' & -> & A').
  { destruct (entry EFF _ i k).
    - rewrite (rules_of_ok g ps L d _ Hd) by (unfold nvars, ntokens in *; lia). cbn [rbind].
      destruct (SETBITs_added (WORDSIZE (nrules g)) (nvars g) i (rules_for g (start_symbol g + k)) Hi fd) as (fd' & E & A');
        [apply rules_bits; lia|destruct A; lia|]. exists fd'. split; [exact E|].
      eapply added_ext; [|exact A']. intros; cbn; tauto.
    - exists fd. split; [done|]. apply added_none. by intros j _ [? _]. }
  cbn [rbind]. pose proof (next_bit_spec k 0 ltac:(lia)) as Nb. unfold next_bit in Nb.
  pose proof (EFF_word (k + 1) ltac:(lia)) as Hw.
  pose proof (cell_range (nvars g) (WORDSIZE (nvars g)) i ((k + 1) / 32) Hi Hw).
  assert (Hadd : added fd0 fd' (WORDSIZE (nrules g)) i
    (fun r => exists k', 0 <= k' < k + 1 /\ entry EFF (WORDSIZE (nvars g)) i k' = true /\ r ∈ rules_for g (start_symbol g + k'))).
  { eapply added_ext; [|exact (added_trans _ _ _ _ _ _ _ A A')]. intros r _. split.
    - intros [(k' & Hk' & ?)|?]; [exists k'; split; [lia|done]|exists k; split; [lia|done]].
    - intros (k' & Hk' & ?). destruct (decide (k' = k)) as [->|]; [by right|left; exists k'; split; [lia|done]]. }
  destruct (u32 (Z.shiftl (2 ^ (k mod 32)) 1) =? 0); injection Nb as Em Ew.
  - rewrite rd_zget by lia. cbn [rbind]. eexists. split; [done|]. unfold row_at.
    replace (i * WORDSIZE (nvars g) + k / 32 + 1) with (i * WORDSIZE (nvars g) + (k + 1) / 32) by lia.
    split_and!; [lia|done|exact Em|done].
  - eexists. split; [done|]. unfold row_at. replace ((k + 1) / 32) with (k / 32) by lia. split_and!; [done|done|exact Em|done].
Qed.

End Row.

(** the rules that the sentences of [A] can start with *)
Definition first_rule (A r : Z) : Prop := exists B, rtc left_corner A B /\ r ∈ rules_for g B.

Lemma set_first_derives_ok : exists fd, set_first_derives g d = Ok fd /\ zlen fd = nvars g * WORDSIZE (nrules g) /\
  forall i r, 0 <= i < nvars g -> 0 <= r < 32 * WORDSIZE (nrules g) ->
    entry fd (WORDSIZE (nrules g)) i r = true <-> first_rule (start_symbol g + i) r.
Proof.
  pose proof nvars_pos as Hn. pose proof (lo_start _ _ L) as Hs.
  destruct set_EFF_ok as (EFF & E1 & HE & Hent). unfold set_first_derives. rewrite E1. cbn [rbind].
  assert (Hr0 : 0 <= WORDSIZE (nrules g)).
  { apply WORDSIZE_nonneg. rewrite (lo_nrules _ _ L). pose proof (zlen_nonneg ps). lia. }
  match goal with |- context [for_loop ?fl ?lo ?bd ?st] => destruct (for_loop_inv
    (fun i '(fd, rrow) => rrow = (i - start_symbol g) * WORDSIZE (nrules g) /\ zlen fd = nvars g * WORDSIZE (nrules g) /\
       forall i' r, 0 <= i' < nvars g -> 0 <= r < 32 * WORDSIZE (nrules g) ->
         entry fd (WORDSIZE (nrules g)) i' r = true <-> i' < i - start_symbol g /\ first_rule (start_symbol g + i') r)
    fl lo bd st) as ([fd row] & E & Hrow & Hz & He) end.
  - split; [lia|]. split; [rewrite zlen_replicate; nia|]. intros i' r Hi' _. rewrite zero_entry. split; [done|lia].
  - intros i [fd rrow] Hi (-> & Hz & He). unfold first_derives_row, ntokens.
    assert (Hv : 0 <= i - start_symbol g < nvars g) by (apply var_bit; lia).
    pose proof (EFF_word 0 ltac:(lia)) as Hw. change (0 / 32) with 0 in Hw.
    pose proof (cell_range (nvars g) (WORDSIZE (nvars g)) (i - start_symbol g) 0 Hv Hw) as Hc. rewrite Z.add_0_r in Hc.
    rewrite rd_zget by lia. cbn [rbind].
    match goal with |- context [for_loop ?fl ?lo ?bd ?st] => destruct (for_loop_inv
      (fun j => row_at EFF (i - start_symbol g) fd (j - start_symbol g)) fl lo bd st) as ([[[fd' vrow] cword] mask] & E & R) end.
    + unfold row_at. rewrite Z.sub_diag. change (0 / 32) with 0. change (2 ^ (0 mod 32)) with 1. rewrite Z.add_0_r.
      split_and!; [done..|]. apply added_none. intros j _ (k' & ? & _). lia.
    + intros j st Hj R. destruct (first_derives_bit_ok EFF HE (i - start_symbol g) Hv fd (j - start_symbol g) st) as (st' & E & R');
        [unfold nvars, ntokens in *; lia|done|done|]. replace (start_symbol g + (j - start_symbol g)) with j in E by lia.
      exists st'. split; [exact E|]. by replace (j + 1 - start_symbol g) with (j - start_symbol g + 1) by lia.
    + rewrite E. cbn [rbind]. eexists. split; [done|]. destruct R as (_ & _ & _ & [Hz' A]). split; [lia|]. split; [lia|].
      intros i' r Hi' Hr. rewrite A, He by lia. clear E A.
      replace (start_symbol g + Z.of_nat _ - start_symbol g) with (nvars g) by (unfold nvars, ntokens in *; lia).
      split.
      * intros [[H1 H2]|[-> (k & Hk & Ek & Er)]]; [split; [lia|done]|]. split; [lia|].
        apply Hent in Ek; [|lia..]. by exists (start_symbol g + k).
      * intros [H1 H2]. destruct (decide (i' = i - start_symbol g)) as [->|]; [right|left; split; [lia|done]].
        split; [done|]. destruct H2 as (B & HB & Er). assert (HBr : start_symbol g <= B < nsyms g) by (apply (left_corners_range _ _ HB); unfold nvars, ntokens in *; lia).
        exists (B - start_symbol g). replace (start_symbol g + (B - start_symbol g)) with B by lia.
        split; [by apply var_bit|]. split; [|done]. apply Hent; [lia|by apply var_bit|].
        by replace (start_symbol g + (B - start_symbol g)) with B by lia.
  - rewrite E. cbn [rbind]. exists fd. split; [done|]. split; [done|]. intros i r Hi Hr. rewrite He by done.
    replace (start_symbol g + Z.of_nat _ - start_symbol g) with (nvars g) by (unfold nvars, ntokens in *; lia).
    split; [by intros [_ ?]|]. intros ?. split; [lia|done].
Qed.

End FirstSets.

(** ** The set of rules of a nucleus *)

Definition rule_bit (ruleset : list Z) (r : Z) : bool := Z.testbit (zget ruleset (r / 32)) (r mod 32).

Lemma or_rules_ok fd dsp ruleset : 0 <= dsp -> dsp + zlen ruleset <= zlen fd ->
  exists rs', or_rules fd dsp ruleset = Ok rs' /\ zlen rs' = zlen ruleset /\
    forall q, 0 <= q < zlen ruleset -> zget rs' q = Z.lor (zget ruleset q) (zget fd (dsp + q)).
Proof.
  intros Hp Hl. unfold or_rules.
  match goal with |- context [while_loop ?fl ?cd ?bd ?st] => destruct (while_loop_inv
    (fun '(rs', rsp, p) => 0 <= rsp <= zlen ruleset /\ p = dsp + rsp /\ zlen rs' = zlen ruleset /\
       forall q, 0 <= q -> zget rs' q = if q <? rsp then Z.lor (zget ruleset q) (zget fd (dsp + q)) else zget ruleset q)
    (fun '(_, rsp, _) => zlen ruleset - rsp) cd bd) with (fuel := fl) (s := st) as ([[rs' rsp] p] & E & Hinv & Hend) end.
  - intros [[rs' rsp] p]. lia.
  - intros [[rs' rsp] p] (Hr & -> & Hz & Hq) Hc%Z.ltb_lt. rewrite (rd_zget rs'), (rd_zget fd) by lia. cbn [rbind].
    rewrite wr_in_range by lia. cbn [rbind]. eexists. split; [done|]. split; [|lia].
    rewrite zlen_insert. split_and!; try lia. intros q H0. rewrite zget_insert, !Hq by lia.
    destruct (Z.eqb_spec rsp q) as [->|]; zcases.
  - split_and!; [lia|apply zlen_nonneg|lia|done|]. intros q Hq. zcases.
  - unfold zlen. lia.
  - destruct Hinv as (Hr & -> & Hz & Hq). apply Z.ltb_ge in Hend. rewrite E. cbn [rbind]. exists rs'.
    split; [done|]. split; [done|]. intros q Hq'. rewrite Hq by lia. zcases.
Qed.

Lemma item_symbol k : 1 <= k < nitems g -> exists X, rd (ritem (tab g)) k = Ok X /\ X < nsyms g.
Proof.
  intros Hk. pose proof (lo_start _ _ L). destruct (item_rule g ps L k Hk) as (r & p & t & Hp & Ht & ->).
  destruct (decide (t = zlen p.2)) as [->|Hne].
  - exists (- r). split; [by apply (rule_end g ps L)|]. pose proof (rule_bounds g ps L _ _ Hp). lia.
  - rewrite (rule_symbol g ps L _ _ _ Hp) by lia. destruct (rd_in_range p.2 t) as [X E]; [lia|]. exists X.
    split; [done|]. pose proof (rule_symbol_range g ps L _ _ _ _ Hp E). lia.
Qed.

Context (fd : list Z) (Hfd : zlen fd = nvars g * WORDSIZE (nrules g)).
Context (Hrules : forall i r, 0 <= i < nvars g -> 0 <= r < 32 * WORDSIZE (nrules g) ->
  entry fd (WORDSIZE (nrules g)) i r = true <-> first_rule (start_symbol g + i) r).

(** the rules that the symbol after the dot of an item can start with *)
Definition item_rules (K : list Z) (r : Z) : Prop :=
  exists k A, k ∈ K /\ rd (ritem (tab g)) k = Ok A /\ start_symbol g <= A /\ first_rule A r.

Lemma nucleus_rules_ok K : Forall (fun k => 1 <= k < nitems g) K -> forall ruleset, zlen ruleset = WORDSIZE (nrules g) ->
  exists rs', nucleus_rules g fd K ruleset = Ok rs' /\ zlen rs' = WORDSIZE (nrules g) /\
    forall r, 0 <= r < 32 * WORDSIZE (nrules g) -> rule_bit rs' r = true <-> rule_bit ruleset r = true \/ item_rules K r.
Proof.
  induction K as [|k K IH]; intros HK ruleset Hz; cbn [nucleus_rules].
  - exists ruleset. split; [done|]. split; [done|]. intros r _. split; [by left|]. intros [?|(k & A & H & _)]; [done|].
    by apply elem_of_nil in H.
  - apply Forall_cons in HK as [Hk HK]. destruct (item_symbol k Hk) as (A & EA & HA). rewrite EA. cbn [rbind].
    assert (exists rs1, (if ISVAR g A then or_rules fd ((A - ntokens g) * WORDSIZE (nrules g)) ruleset else Ok ruleset) = Ok rs1 /\
      zlen rs1 = WORDSIZE (nrules g) /\ forall r, 0 <= r < 32 * WORDSIZE (nrules g) ->
        rule_bit rs1 r = true <-> rule_bit ruleset r = true \/ (start_symbol g <= A /\ first_rule A r)) as (rs1 & -> & Hz1 & H1).
    { unfold ISVAR. destruct (Z.leb_spec (start_symbol g) A) as [Hv|Hv].
      - pose proof (zlen_nonneg ruleset). pose proof (var_bit A ltac:(lia)) as Hi. unfold ntokens in *.
        destruct (or_rules_ok fd ((A - start_symbol g) * WORDSIZE (nrules g)) ruleset) as (rs1 & E & Hz1 & Hq); [nia..|].
        exists rs1. split; [exact E|]. split; [lia|]. intros r Hr. unfold rule_bit.
        rewrite Hq, Z.lor_spec, orb_true_iff by zlia. change (Z.testbit (zget fd _) _) with (entry fd (WORDSIZE (nrules g)) (A - start_symbol g) r).
        rewrite Hrules by done. replace (start_symbol g + (A - start_symbol g)) with A by lia. tauto.
      - exists ruleset. split; [done|]. split; [done|]. intros r _. split; [by left|]. intros [?|[? _]]; [done|lia]. }
    cbn [rbind]. destruct (IH HK rs1 Hz1) as (rs2 & E & Hz2 & H2). exists rs2. split; [exact E|]. split; [done|].
    intros r Hr. rewrite H2, H1 by done. split.
    + intros [[?|[? ?]]|(k' & A' & ? & ?)]; [by left|right; exists k, A|right; exists k', A']; rewrite elem_of_cons; tauto.
    + intros [?|(k' & A' & [->|H]%elem_of_cons & EA' & ?)]; [by left; left| |right; by exists k', A'].
      rewrite EA in EA'. injection EA' as <-. by left; right.
Qed.

End Closure.

(** ** The merge *)

(** the numbers of the bits of [w] from the bit [b] on, [n] bits; [r] is the number of the bit [b] *)
Fixpoint word_rules (n : nat) (w b r : Z) : list Z :=
  match n with
  | O => []
  | S n => if Z.testbit w b then r :: word_rules n w (b + 1) (r + 1) else word_rules n w (b + 1) (r + 1)
  end.

Fixpoint set_rules (ws : list Z) (r : Z) : list Z :=
  match ws with [] => [] | w :: ws => word_rules 32 w 0 r ++ set_rules ws (r + 32) end.

Fixpoint merge_rules (g : grammar) (rs : list Z) (csp itemset : list Z) : result (list Z * list Z) :=
  match rs with
  | [] => Ok (csp, itemset)
  | r :: rs => let* (csp, itemset) := merge_rule g r csp itemset in merge_rules g rs csp itemset
  end.

Lemma elem_of_word_rules n w : forall b r x, x ∈ word_rules n w b r <-> r <= x < r + Z.of_nat n /\ Z.testbit w (b + (x - r)) = true.
Proof.
  induction n as [|n IH]; intros b r x; cbn [word_rules].
  - rewrite elem_of_nil. split; [done|lia].
  - assert (Hx : Z.testbit w (b + 1 + (x - (r + 1))) = Z.testbit w (b + (x - r))) by (f_equal; lia).
    destruct (Z.testbit w b) eqn:E; rewrite ?elem_of_cons, IH, Hx.
    + split; [intros [->|[? ?]]; [split; [lia|by rewrite Z.sub_diag, Z.add_0_r]|split; [lia|done]]|].
      intros [? ?]. destruct (decide (x = r)); [by left|right; split; [lia|done]].
    + split; intros [? T]; (split; [|done]); [lia|]. destruct (decide (x = r)) as [->|]; [|lia].
      rewrite Z.sub_diag, Z.add_0_r in T. congruence.
Qed.

Lemma word_rules_sorted n w : forall b r, StronglySorted Z.lt (word_rules n w b r).
Proof.
  induction n as [|n IH]; intros b r; cbn [word_rules]; [constructor|]. case_if E; [|done]. constructor; [done|].
  apply Forall_forall. intros x [? _]%elem_of_word_rules. lia.
Qed.

Lemma elem_of_set_rules ws : forall r x, x ∈ set_rules ws r <-> r <= x < r + 32 * zlen ws /\ rule_bit ws (x - r) = true.
Proof.
  induction ws as [|w ws IH]; intros r x; cbn [set_rules].
  - change (zlen []) with 0. rewrite elem_of_nil. split; [done|lia].
  - rewrite elem_of_app, elem_of_word_rules, IH, zlen_cons. pose proof (zlen_nonneg ws). unfold rule_bit. cbn [Z.add]. split.
    + intros [[Hx T]|[Hx T]]; (split; [lia|]).
      * rewrite Z.div_small, Z.mod_small by lia. done.
      * unfold zget in *. replace ((x - r) / 32) with ((x - (r + 32)) / 32 + 1) by zlia.
        replace ((x - r) mod 32) with ((x - (r + 32)) mod 32) by zlia.
        replace (Z.to_nat ((x - (r + 32)) / 32 + 1)) with (S (Z.to_nat ((x - (r + 32)) / 32))) by zlia. done.
    + intros [Hx T]. destruct (decide (x < r + 32)); [left|right]; (split; [lia|]).
      * rewrite Z.div_small, Z.mod_small in T by lia. done.
      * unfold zget in *. replace ((x - r) / 32) with ((x - (r + 32)) / 32 + 1) in T by zlia.
        replace ((x - r) mod 32) with ((x - (r + 32)) mod 32) in T by zlia.
        replace (Z.to_nat ((x - (r + 32)) / 32 + 1)) with (S (Z.to_nat ((x - (r + 32)) / 32))) in T by zlia. done.
Qed.

Lemma sorted_app (a b : list Z) : StronglySorted Z.lt a -> StronglySorted Z.lt b ->
  (forall x y, x ∈ a -> y ∈ b -> x < y) -> StronglySorted Z.lt (a ++ b).
Proof.
  intros Ha Hb H. induction Ha as [|x a Ha IH Hx]; [done|]. cbn. constructor.
  - apply IH. intros u v Hu. apply H. by right.
  - apply Forall_app. split; [done|]. apply Forall_forall. intros y Hy. apply H; [by left|done].
Qed.

Lemma set_rules_sorted ws : forall r, StronglySorted Z.lt (set_rules ws r).
Proof.
  induction ws as [|w ws IH]; intros r; cbn [set_rules]; [constructor|]. apply sorted_app; [apply word_rules_sorted|done|].
  intros x y [? _]%elem_of_word_rules [? _]%elem_of_set_rules. lia.
Qed.

Lemma word_rules_0 n : forall b r, word_rules n 0 b r = [].
Proof. induction n as [|n IH]; intros b r; [done|]. cbn [word_rules]. by rewrite Z.testbit_0_l. Qed.

(** the mask of the bit [b], 0 after the last one *)
Definition mask_of (b : Z) : Z := if b =? 32 then 0 else 2 ^ b.

Lemma mask_next b : 0 <= b < 32 -> u32 (Z.shiftl (2 ^ b) 1) = mask_of (b + 1).
Proof.
  intros Hb. rewrite Z.shiftl_mul_pow2, <- Z.pow_add_r by lia. unfold mask_of.
  destruct (Z.eqb_spec (b + 1) 32) as [E|Ne]; [by rewrite E|].
  apply u32_id. unfold is_u32. split; [apply Z.pow_nonneg; lia|apply Z.pow_lt_mono_r; lia].
Qed.

Lemma merge_word_rules g w : forall n b r csp its fuel, 0 <= b <= 32 -> b + Z.of_nat n = 32 -> (n < fuel)%nat ->
  merge_word fuel g w (mask_of b) r csp its =
  let* (csp, its) := merge_rules g (word_rules n w b r) csp its in Ok (r + Z.of_nat n, csp, its).
Proof.
  induction n as [|n IH]; intros b r csp its [|fuel] Hb Hn Hf; try lia; cbn [merge_word word_rules].
  - replace b with 32 by lia. cbn. by rewrite Z.add_0_r.
  - unfold mask_of. destruct (Z.eqb_spec b 32); [lia|]. pose proof (Z.pow_pos_nonneg 2 b).
    destruct (Z.eqb_spec (2 ^ b) 0); [lia|]. rewrite land_pow2_nonzero, mask_next by lia.
    replace (r + Z.of_nat (S n)) with (r + 1 + Z.of_nat n) by lia.
    destruct (Z.testbit w b); cbn [rbind merge_rules].
    + destruct (merge_rule g r csp its) as [[csp' its']| | |]; cbn [rbind]; try done. apply IH; lia.
    + apply IH; lia.
Qed.

Lemma merge_rules_app g a b : forall csp its, merge_rules g (a ++ b) csp its =
  let* (csp, its) := merge_rules g a csp its in merge_rules g b csp its.
Proof.
  induction a as [|r a IH]; intros csp its; [done|]. cbn [merge_rules app].
  destruct (merge_rule g r csp its) as [[csp' its']| | |]; cbn [rbind]; done.
Qed.

Lemma merge_words_rules g ws : forall r csp its, merge_words g ws r csp its = merge_rules g (set_rules ws r) csp its.
Proof.
  induction ws as [|w ws IH]; intros r csp its; [done|]. cbn [merge_words set_rules].
  destruct (Z.eqb_spec w 0) as [->|Ne]; [by rewrite word_rules_0, IH|].
  rewrite merge_rules_app. change 1 with (mask_of 0). rewrite (merge_word_rules g w 32 0) by lia.
  destruct (merge_rules g (word_rules 32 w 0 r) csp its) as [[csp' its']| | |]; cbn [rbind]; try done.
Qed.

(** strictly increasing items, within the grammar, are not too many *)
Lemma sorted_length (l : list Z) : forall a b, StronglySorted Z.lt l -> Forall (fun x => a <= x < b) l -> zlen l <= Z.max 0 (b - a).
Proof.
  induction l as [|x l IH]; intros a b Hs Hl; [unfold zlen; simpl; lia|]. apply StronglySorted_inv in Hs as [Hs Hx].
  apply Forall_cons in Hl as [Hxb Hl]. rewrite zlen_cons.
  assert (zlen l <= Z.max 0 (b - (x + 1))); [|lia]. apply IH; [done|].
  rewrite Forall_forall in *. intros y Hy. pose proof (Hx y Hy). pose proof (Hl y Hy). cbn in *. lia.
Qed.

Lemma put_item_ok g its item : StronglySorted Z.lt its -> Forall (fun x => 1 <= x < nitems g) its -> 1 < nitems g ->
  put_item g its item = Ok (its ++ [item]).
Proof.
  intros Hs Hi Hn. unfold put_item. pose proof (sorted_length its 1 (nitems g) Hs Hi).
  destruct (Z.ltb_spec (zlen its) (nitems g)); [done|lia].
Qed.

Section Merge.
Context (g : grammar).

(** the items put, then those left of the nucleus *)
Definition merging (P : Z -> Prop) (csp its : list Z) : Prop :=
  StronglySorted Z.lt (its ++ csp) /\ Forall (fun x => 1 <= x < nitems g) (its ++ csp) /\
  forall x, x ∈ its ++ csp <-> P x.

Lemma sorted_app_inv (a b : list Z) : StronglySorted Z.lt (a ++ b) ->
  StronglySorted Z.lt a /\ StronglySorted Z.lt b /\ forall x y, x ∈ a -> y ∈ b -> x < y.
Proof.
  induction a as [|z a IH]; intros H; [by split_and!; [constructor| |intros x y ?%elem_of_nil]|].
  apply StronglySorted_inv in H as [H Hz]. apply IH in H as (Ha & Hb & Hab). apply Forall_app in Hz as [Hza Hzb].
  split_and!; [by constructor|done|]. intros x y [->|Hx]%elem_of_cons Hy; [|by apply Hab].
  rewrite Forall_forall in Hzb. by apply Hzb.
Qed.

Lemma put_before_ok ok csp : forall its, StronglySorted Z.lt (its ++ csp) -> Forall (fun x => 1 <= x < nitems g) (its ++ csp) ->
  exists pre rest, csp = pre ++ rest /\ Forall (fun x => ok x = true) pre /\
    match rest with [] => True | x :: _ => ok x = false end /\ put_before g ok csp its = Ok (rest, its ++ pre).
Proof.
  induction csp as [|c csp IH]; intros its Hs Hi; cbn [put_before].
  - exists [], []. rewrite (app_nil_r its). split_and!; [done|constructor|done|done].
  - destruct (ok c) eqn:E; [|exists [], (c :: csp); rewrite (app_nil_r its); by split_and!; [|constructor| |]].
    apply sorted_app_inv in Hs as Hs'. destruct Hs' as (Hs1 & _ & _). apply Forall_app in Hi as Hi'.
    destruct Hi' as [Hi1 [Hc _]%Forall_cons]. rewrite put_item_ok by (done || lia). cbn [rbind].
    destruct (IH (its ++ [c])) as (pre & rest & -> & Hp & Hr & E'); [by rewrite <- app_assoc..|].
    exists (c :: pre), rest. split_and!; [done|by constructor|done|]. by rewrite E', <- app_assoc.
Qed.

Lemma drop_equal_ok x csp : StronglySorted Z.lt csp -> Forall (fun y => x <= y) csp ->
  Forall (fun y => x < y) (drop_equal x csp) /\ StronglySorted Z.lt (drop_equal x csp) /\
  forall y, y ∈ csp -> y = x \/ y ∈ drop_equal x csp.
Proof.
  intros Hs Hx. destruct csp as [|c csp]; [by split_and!; [constructor..|right]|]. cbn [drop_equal].
  apply StronglySorted_inv in Hs as Hs'. destruct Hs' as [Hs1 Hc]. apply Forall_cons in Hx as [Hxc Hx].
  destruct (Z.eqb_spec c x) as [->|Ne].
  - assert (drop_equal x csp = csp) as ->.
    { destruct csp as [|c' csp]; [done|]. cbn. apply Forall_cons in Hc as [? _]. destruct (Z.eqb_spec c' x); [lia|done]. }
    split_and!; [done..|]. intros y [->|Hy]%elem_of_cons; [by left|by right].
  - split_and!; [|done|by right]. constructor; [lia|]. eapply Forall_impl; [exact Hc|]. intros; cbn in *; lia.
Qed.

(** a first item put before the nucleus items that are larger *)
Lemma merge_item P r x csp its : rd (rrhs (tab g)) r = Ok x -> 1 <= x < nitems g ->
  Forall (fun y => y < x) its -> merging P csp its ->
  exists csp' its', merge_rule g r csp its = Ok (csp', its') /\ merging (fun y => P y \/ y = x) csp' its' /\
    Forall (fun y => y <= x) its'.
Proof.
  intros Er Hx Hlt (Hs & Hi & HP). unfold merge_rule. rewrite Er. cbn [rbind].
  destruct (put_before_ok (fun item => item <? x) csp its Hs Hi) as (pre & rest & -> & Hpre & Hrest & ->). cbn [rbind].
  rewrite app_assoc in Hs, Hi. apply sorted_app_inv in Hs as (Hs1 & Hs2 & Hs12). apply Forall_app in Hi as [Hi1 Hi2].
  rewrite put_item_ok by (done || lia). cbn [rbind].
  assert (Hlt' : forall y, y ∈ its ++ pre -> y < x).
  { intros y [Hy|Hy]%elem_of_app; rewrite Forall_forall in *; [by apply Hlt|]. by apply Z.ltb_lt, Hpre. }
  assert (Hge : Forall (fun y => x <= y) rest).
  { destruct rest as [|c rest]; [constructor|]. apply Z.ltb_ge in Hrest. apply StronglySorted_inv in Hs2 as [_ Hc].
    constructor; [done|]. eapply Forall_impl; [exact Hc|]. intros; cbn in *; lia. }
  destruct (drop_equal_ok x rest Hs2 Hge) as (Hd1 & Hd2 & Hd3).
  assert (Hsub : forall y, y ∈ drop_equal x rest -> y ∈ rest).
  { clear. induction rest as [|c rest IH]; intros y; cbn [drop_equal]; [done|]. case_if E; [right; by apply IH|done]. }
  eexists _, _. split; [done|]. split; [split; [|split]|].
  - apply sorted_app; [apply sorted_app; [done|repeat constructor|]|done|].
    + intros u v Hu ->%list_elem_of_singleton. by apply Hlt'.
    + intros u v [Hu|Hu]%elem_of_app Hv; [by apply Hs12; [|apply Hsub]|].
      apply list_elem_of_singleton in Hu. subst u. rewrite Forall_forall in Hd1. by apply Hd1.
  - apply Forall_app. split; [apply Forall_app; split; [done|by constructor]|].
    rewrite Forall_forall in *. intros y Hy. by apply Hi2, Hsub.
  - intros y. rewrite <- HP, !elem_of_app, list_elem_of_singleton. split; [|].
    + intros [[[?|?]|?]|?]; try tauto. left; right; right. by apply Hsub.
    + intros [[?|[?|Hy]]|?]; try tauto. apply Hd3 in Hy. tauto.
  - apply Forall_app. split; [|by constructor]. apply Forall_forall. intros y Hy. apply Hlt' in Hy. lia.
Qed.

End Merge.

(** ** The closure *)

(** the items added to a nucleus *)
Inductive in_closure (g : grammar) (ps : list production) (K : list Z) : Z -> Prop :=
  | in_nucleus i : i ∈ K -> in_closure g ps K i
  | in_predicted i r p : in_closure g ps K i -> rule ps r p -> rd (ritem (tab g)) i = Ok p.1 ->
      in_closure g ps K (first_item ps r).

Lemma merging_ext g (P Q : Z -> Prop) csp its : (forall x, P x <-> Q x) -> merging g P csp its -> merging g Q csp its.
Proof. intros H (H1 & H2 & H3). split_and!; [done..|]. intros x. by rewrite H3, H. Qed.

Section Closed.
Context (g : grammar) (ps : list production) (L : lays_out g ps).

Lemma merge_rules_ok rs : StronglySorted Z.lt rs -> Forall (fun r => exists p, rule ps r p) rs -> forall P csp its,
  merging g P csp its -> (forall r, r ∈ rs -> Forall (fun y => y < first_item ps r) its) ->
  exists csp' its', merge_rules g rs csp its = Ok (csp', its') /\
    merging g (fun y => P y \/ exists r, r ∈ rs /\ y = first_item ps r) csp' its'.
Proof.
  intros Hs. induction Hs as [|r rs Hs IH Hr]; intros Hrs P csp its M Hlt; cbn [merge_rules].
  - exists csp, its. split; [done|]. eapply merging_ext; [|exact M]. intros x. split; [by left|].
    intros [?|(r & H & _)]; [done|by apply elem_of_nil in H].
  - apply Forall_cons in Hrs as [[p Hp] Hrs]. pose proof (rule_bounds g ps L _ _ Hp) as Hb. pose proof (zlen_nonneg p.2).
    destruct (merge_item g P r (first_item ps r) csp its) as (csp1 & its1 & E1 & M1 & Hle);
      [by apply (rule_start g ps L _ p)|lia|apply Hlt; by left|done|]. rewrite E1. cbn [rbind].
    destruct (IH Hrs _ csp1 its1 M1) as (csp' & its' & E & M').
    { intros r' Hr'. rewrite Forall_forall in *. destruct (Hrs r' Hr') as [p' Hp'].
      pose proof (first_item_lt ps r r' p p' Hp Hp' (Hr r' Hr')). intros y Hy. specialize (Hle y Hy). lia. }
    exists csp', its'. split; [exact E|]. eapply merging_ext; [|exact M']. intros x. split.
    + intros [[?|Ex]|(r' & ? & ?)]; [by left|right; exists r|right; exists r']; rewrite elem_of_cons; tauto.
    + intros [?|(r' & [->|?]%elem_of_cons & ?)]; [tauto|tauto|right; by exists r'].
Qed.

Lemma first_rule_rule A r : start_symbol g <= A < nsyms g -> first_rule g ps A r -> exists p, rule ps r p.
Proof.
  intros HA (B & HB & Er). apply (elem_of_rules_for g ps L) in Er as (p & Hp & _); [by exists p|].
  apply (left_corners_range g ps L _ _ HB HA).
Qed.

Lemma in_closure_corner K k A B r : rtc (left_corner g ps) A B -> in_closure g ps K k ->
  rd (ritem (tab g)) k = Ok A -> start_symbol g <= A -> r ∈ rules_for g B -> in_closure g ps K (first_item ps r).
Proof.
  intros HB Hk Ek HA. revert r. revert B HB. apply (rtc_ind_r (fun B => forall r, r ∈ rules_for g B -> in_closure g ps K (first_item ps r)));
    [intros r Hr|intros B C HB [HC (r' & p' & Hp' & EB & E0)] IH r Hr].
  - apply (elem_of_rules_for g ps L) in Hr as (p & Hp & <-); [|done]. by eapply in_predicted.
  - apply (elem_of_rules_for g ps L) in Hr as (p & Hp & <-); [|done].
    assert (HB' : start_symbol g <= B) by (rewrite <- EB; by apply (rule_symbols g ps L) in Hp' as [[? _] _]).
    eapply in_predicted; [apply (IH r')|done|].
    + apply (elem_of_rules_for g ps L); [done|]. by exists p'.
    + destruct (first_symbol g ps L r' p' Hp') as (s & Es & _ & Hs). rewrite Es. f_equal. by apply Hs.
Qed.

(** the closure adds the first items of the rules *)
Lemma in_closure_rules K : Forall (fun k => 1 <= k < nitems g) K -> forall i,
  in_closure g ps K i <-> i ∈ K \/ exists r, item_rules g ps K r /\ i = first_item ps r.
Proof.
  intros HK i. split.
  - induction 1 as [i Hi|i r p Hi [Hk|(r' & (k & A & Hk & Ek & HA & B & HB & Hr') & ->)] Hr E]; [by left| |].
    + right. exists r. split; [|done]. destruct (rule_symbols g ps L _ _ Hr) as [Hp _].
      exists i, p.1. split_and!; [done|done|lia|]. exists p.1. split; [done|].
      apply (elem_of_rules_for g ps L); [lia|by exists p].
    + right. exists r. split; [|done]. destruct (rule_symbols g ps L _ _ Hr) as [Hp _].
      exists k, A. split_and!; [done..|]. exists p.1. split; [|apply (elem_of_rules_for g ps L); [lia|by exists p]].
      eapply rtc_r; [exact HB|]. split; [lia|]. rewrite Forall_forall in HK.
      destruct (item_symbol g ps L k (HK k Hk)) as (A' & EA & HA'). rewrite Ek in EA. injection EA as <-.
      assert (HBr : start_symbol g <= B < nsyms g) by (apply (left_corners_range g ps L _ _ HB); lia).
      apply (elem_of_rules_for g ps L) in Hr' as (p' & Hp' & <-); [|lia]. exists r', p'. split_and!; [done..|].
      destruct (first_symbol g ps L r' p' Hp') as (s & Es & _ & Hs). rewrite E in Es. injection Es as <-. by apply Hs; [lia|].
  - intros [Hi|(r & (k & A & Hk & Ek & HA & B & HB & Hr) & ->)]; [by apply in_nucleus|].
    eapply in_closure_corner; [exact HB|by apply in_nucleus|done..].
Qed.

(** the sets computed from the grammar *)
Record first_sets (fd : list Z) : Prop := {
  fs_zlen : zlen fd = nvars g * WORDSIZE (nrules g);
  fs_entry : forall i r, 0 <= i < nvars g -> 0 <= r < 32 * WORDSIZE (nrules g) ->
    entry fd (WORDSIZE (nrules g)) i r = true <-> first_rule g ps (start_symbol g + i) r }.

Lemma closure_ok fd K : first_sets fd -> StronglySorted Z.lt K -> Forall (fun k => 1 <= k < nitems g) K ->
  exists items, closure g fd K = Ok items /\ StronglySorted Z.lt items /\
    Forall (fun i => 1 <= i < nitems g) items /\ forall i, i ∈ items <-> in_closure g ps K i.
Proof.
  intros [Hz He] Hs HK. unfold closure.
  assert (Hr0 : 0 <= WORDSIZE (nrules g)).
  { apply WORDSIZE_nonneg. rewrite (lo_nrules _ _ L). pose proof (zlen_nonneg ps). lia. }
  destruct (nucleus_rules_ok g ps L fd Hz He K HK (replicate (Z.to_nat (WORDSIZE (nrules g))) 0)) as (rs & -> & Hzr & Hbit);
    [rewrite zlen_replicate; lia|]. cbn [rbind]. rewrite merge_words_rules.
  assert (Hin : forall r, r ∈ set_rules rs 0 <-> item_rules g ps K r).
  { intros r. rewrite elem_of_set_rules, Hzr, Z.sub_0_r.
    assert (Hb : item_rules g ps K r -> 0 <= r < 32 * WORDSIZE (nrules g)).
    { intros (k & A & Hk & Ek & HA & Hr). rewrite Forall_forall in HK.
      destruct (item_symbol g ps L k (HK k Hk)) as (A' & EA & HA'). rewrite Ek in EA. injection EA as <-.
      destruct (first_rule_rule A r) as [p Hp]; [lia|done|]. pose proof (rule_bounds g ps L _ _ Hp).
      unfold WORDSIZE, BITS_PER_INT. zlia. }
    split.
    - intros [Hr Hb']. apply Hbit in Hb' as [H0|?]; [|done|lia]. unfold rule_bit in H0.
      rewrite <- (Z.add_0_l (r / 32)), <- (Z.mul_0_l 1) in H0. change (entry (replicate (Z.to_nat (WORDSIZE (nrules g))) 0) 1 0 r = true) in H0.
      by rewrite zero_entry in H0.
    - intros H. split; [by apply Hb|]. apply Hbit; [by apply Hb|by right]. }
  destruct (merge_rules_ok (set_rules rs 0) (set_rules_sorted _ _)) with (P := fun x => x ∈ K) (csp := K) (its := @nil Z)
    as (csp & its & -> & M1 & M2 & M3).
  - apply Forall_forall. intros r (k & A & Hk & Ek & HA & Hr)%Hin. rewrite Forall_forall in HK.
    destruct (item_symbol g ps L k (HK k Hk)) as (A' & EA & HA'). rewrite Ek in EA. injection EA as <-.
    by apply (first_rule_rule A); [lia|].
  - by split_and!.
  - intros; constructor.
  - cbn [rbind]. destruct (put_before_ok g (fun _ => true) csp its M1 M2) as (pre & rest & -> & _ & Hrest & ->).
    destruct rest; [|done]. rewrite app_nil_r in *. cbn [rbind]. eexists. split; [done|]. split; [done|]. split; [done|].
    intros i. rewrite M3, (in_closure_rules K HK). split.
    + intros [?|(r & Hr & ?)]; [by left|right; exists r; by rewrite <- Hin].
    + intros [?|(r & Hr & ?)]; [by left|right; exists r; by rewrite Hin].
Qed.

Lemma first_sets_ok : nvars g mod 32 <> 0 ->
  exists d fd, set_derives g = Ok d /\ rows_done g (Z.to_nat (nvars g)) d /\ set_first_derives g d = Ok fd /\ first_sets fd.
Proof.
  intros Hn. destruct (set_derives_done g ps L) as (d & Ed & Hd).
  destruct (set_first_derives_ok g ps L d Hd Hn) as (fd & Ef & Hz & He). exists d, fd. by split_and!.
Qed.

(** C29: The closure of a nucleus, a sorted set of items, ends within its buffers and is
    the sorted set of its LR closure: with each item before a variable, the first items of
    the rules of the variable.  The bit matrices of the first variables and of the first
    rules are filled before, for any grammar whose number of variables is not a multiple
    of 32. *)
Theorem closure_correct :
  nvars g mod 32 <> 0 ->
  exists d fd, set_derives g = Ok d /\ set_first_derives g d = Ok fd /\
    forall K, StronglySorted Z.lt K -> Forall (fun k => 1 <= k < nitems g) K ->
      exists items, closure g fd K = Ok items /\ StronglySorted Z.lt items /\
        forall i, i ∈ items <-> in_closure g ps K i.
Proof.
  intros Hn. destruct (first_sets_ok Hn) as (d & fd & Ed & _ & Ef & Hf). exists d, fd. split; [done|]. split; [done|].
  intros K Hs HK. destruct (closure_ok fd K Hf Hs HK) as (items & E & H1 & _ & H2). by exists items.
Qed.

End Closed.

Lemma closure_witness :
  exists d fd, set_derives demo_grammar = Ok d /\ set_first_derives demo_grammar d = Ok fd /\
    forall K, StronglySorted Z.lt K -> Forall (fun k => 1 <= k < 10) K ->
      exists items, closure demo_grammar fd K = Ok items /\ StronglySorted Z.lt items /\
        forall i, i ∈ items <-> in_closure demo_grammar demo_productions K i.
Proof. exact (closure_correct demo_grammar demo_productions demo_lays_out ltac:(discriminate)). Defined.

(** ** Grammars with 32 variables *)

(** the packed grammar of some productions *)
Definition grammar_of (start nsyms : Z) (ps : list production) : grammar :=
  Grammar (Tables (-1 :: items_from 2 ps) (0 :: 0 :: map fst ps) (0 :: 0 :: starts_from 1 ps) [] [])
    start nsyms (zlen ps + 2) (zlen (-1 :: items_from 2 ps)).

(** empty rules for the variables 3 to 33 *)
Definition empty_variables : grammar :=
  grammar_of 2 34 ((2, [3; 0]) :: map (fun i => (Z.of_nat i, [])) (seq 3 31)).

(** after the last bit of the last row, a word is read after the end of the matrix *)
Example first_derives_overrun :
  nvars empty_variables = 32 /\
  (let* d := set_derives empty_variables in set_first_derives empty_variables d) = Undef.
Proof. split; vm_compute; reflexivity. Qed.
