(* ===== verification/Lr0.v ===== *)
(** * The LR(0) automaton ([ocaml/yacc/lr0.c])

    The states are found breadth first: the closure of the kernel of a state is sorted by
    the symbol after the dot in [kernel_items], an array with a segment per symbol; the
    kernel of each successor is looked up among the states with the same first item, and
    is a new state when it is not found.

    A state is designated by its number, its position in the list of the states: the
    pointers [next] are this order.  The lists of the shifts and of the reductions are in
    the order of their states. *)

From S2P Require Import Prelude.
From S2P Require Import Grammar.
From S2P Require Import Closure.
From Stdlib Require Import Sorting.Sorted.
From stdpp Require Import relations sorting.
#[local] Open Scope Z_scope.

Record core := Core { link : option Z; accessing_symbol : Z; items : list Z }.
Record shifts := Shifts { shifts_number : Z; shift : list Z }.
Record reductions := Reductions { reductions_number : Z; reduced : list Z }.

(** the segments of [kernel_items], and the symbols to shift *)
Record itemsets := Itemsets {
  kernel_base : list Z;
  kernel_end : list (option Z);
  kernel_items : list Z;
  shift_symbol : list Z }.

(** the states, and the first state of each chain *)
Record machine := Machine { states : list core; state_set : list (option Z) }.

Definition nstates (m : machine) : Z := zlen (states m).

(** ** Allocation *)

Fixpoint count_symbols (its : list Z) (counts : list Z) (count : Z) : result (list Z * Z) :=
  match its with
  | [] => Ok (counts, count)
  | symbol :: its =>
      if 0 <=? symbol then
        let* c := rd counts symbol in
        let* counts := wr counts symbol (s16 (c + 1)) in
        count_symbols its counts (count + 1)
      else count_symbols its counts count
  end.

(** the base of each symbol, the sum of the counts before it *)
Fixpoint bases (counts : list Z) (count : Z) : list Z :=
  match counts with [] => [] | c :: counts => count :: bases counts (count + c) end.

Definition allocate_itemsets (g : grammar) : result itemsets :=
  let* (symbol_count, count) := count_symbols (ritem (tab g)) (replicate (Z.to_nat (nsyms g)) 0) 0 in
  Ok (Itemsets (bases symbol_count 0) (replicate (Z.to_nat (nsyms g)) None) (replicate (Z.to_nat count) 0) symbol_count).

(** ** The successors of a state *)

Fixpoint new_itemsets_loop (g : grammar) (itemset : list Z) (k : itemsets) (shiftcount : Z) : result (itemsets * Z) :=
  match itemset with
  | [] => Ok (k, shiftcount)
  | i :: itemset =>
      let* symbol := rd (ritem (tab g)) i in
      if 0 <? symbol then
        let* e := rd (kernel_end k) symbol in
        let* (ksp, ss, shiftcount) :=
          match e with
          | Some ksp => Ok (ksp, shift_symbol k, shiftcount)
          | None =>
              let* ss := wr (shift_symbol k) shiftcount symbol in
              let* ksp := rd (kernel_base k) symbol in
              Ok (ksp, ss, shiftcount + 1)
          end in
        let* its := wr (kernel_items k) ksp (s16 (i + 1)) in
        let* es := wr (kernel_end k) symbol (Some (ksp + 1)) in
        new_itemsets_loop g itemset (Itemsets (kernel_base k) es its ss) shiftcount
      else new_itemsets_loop g itemset k shiftcount
  end.

Definition new_itemsets (g : grammar) (itemset : list Z) (k : itemsets) : result (itemsets * Z) :=
  new_itemsets_loop g itemset
    (Itemsets (kernel_base k) (replicate (Z.to_nat (nsyms g)) None) (kernel_items k) (shift_symbol k)) 0.

(** the items from [kernel_base] to [kernel_end], [n] of them *)
Fixpoint read_items (n : nat) (its : list Z) (p : Z) : result (list Z) :=
  match n with
  | O => Ok []
  | S n => let* i := rd its p in let* l := read_items n its (p + 1) in Ok (i :: l)
  end.

Definition kernel (k : itemsets) (symbol : Z) : result (list Z) :=
  let* isp1 := rd (kernel_base k) symbol in
  let* e := rd (kernel_end k) symbol in
  let* iend := of_option e in
  read_items (Z.to_nat (iend - isp1)) (kernel_items k) isp1.

(** while (j > 0 && shift_symbol[j - 1] > symbol) ... *)
Fixpoint sift (j : nat) (symbol : Z) (ss : list Z) : result (list Z) :=
  match j with
  | O => wr ss 0 symbol
  | S j =>
      let* x := rd ss (Z.of_nat j) in
      if symbol <? x then let* ss := wr ss (Z.of_nat j + 1) x in sift j symbol ss
      else wr ss (Z.of_nat j + 1) symbol
  end.

Definition sort_symbols (nshifts : Z) (ss : list Z) : result (list Z) :=
  for_loop (Z.to_nat (nshifts - 1)) 1
    (fun i ss => let* symbol := rd ss i in sift (Z.to_nat i) symbol ss) ss.

Definition fatal {A} (msg : string) : result A := Raise (Failure msg).

(** the new state, the last one *)
Definition new_state (m : machine) (symbol : Z) (its : list Z) : result (machine * Z) :=
  if MAXSHORT <=? nstates m then fatal "too many states"
  else Ok (Machine (states m ++ [Core None symbol its]) (state_set m), nstates m).

Fixpoint same_items (isp1 isp2 : list Z) : bool :=
  match isp1, isp2 with
  | i :: isp1, j :: isp2 => if i =? j then same_items isp1 isp2 else false
  | _, _ => true
  end.

(** the search in the chain, from the state [sp] *)
Fixpoint find_state (fuel : nat) (m : machine) (symbol : Z) (its : list Z) (sp : Z) {struct fuel} : result (machine * Z) :=
  match fuel with
  | O => NoFuel
  | S fuel =>
      let* c := rd (states m) sp in
      if (zlen (items c) =? zlen its) && same_items its (items c) then Ok (m, sp) else
      match link c with
      | Some next => find_state fuel m symbol its next
      | None =>
          let* (m, n) := new_state m symbol its in
          let* ss := wr (states m) sp (Core (Some n) (accessing_symbol c) (items c)) in
          Ok (Machine ss (state_set m), n)
      end
  end.

Definition get_state (g : grammar) (m : machine) (k : itemsets) (symbol : Z) : result (machine * Z) :=
  let* its := kernel k symbol in
  let* key := rd its 0 in
  if negb ((0 <=? key) && (key <? nitems g)) then Undef else
  let* sp := rd (state_set m) key in
  match sp with
  | Some sp => find_state (S (length (states m))) m symbol its sp
  | None =>
      let* (m, n) := new_state m symbol its in
      let* ss := wr (state_set m) key (Some n) in
      Ok (Machine (states m) ss, n)
  end.

(** the successors, in the order of the symbols; [shiftset] has room for [nsyms] *)
Fixpoint get_states (g : grammar) (m : machine) (k : itemsets) (symbols : list Z) (shiftset : list Z)
    : result (machine * list Z) :=
  match symbols with
  | [] => Ok (m, shiftset)
  | symbol :: symbols =>
      let* (m, n) := get_state g m k symbol in
      if zlen shiftset <? nsyms g then get_states g m k symbols (shiftset ++ [s16 n]) else Undef
  end.

Definition append_states (g : grammar) (m : machine) (k : itemsets) (nshifts : Z)
    : result (machine * itemsets * list Z) :=
  let* ss := sort_symbols nshifts (shift_symbol k) in
  let* symbols := read_items (Z.to_nat nshifts) ss 0 in
  let* (m, shiftset) := get_states g m k symbols [] in
  Ok (m, Itemsets (kernel_base k) (kernel_end k) (kernel_items k) ss, shiftset).

(** the rules of the complete items; [redset] has room for [nrules + 1] *)
Fixpoint complete_rules (g : grammar) (itemset redset : list Z) : result (list Z) :=
  match itemset with
  | [] => Ok redset
  | isp :: itemset =>
      let* item := rd (ritem (tab g)) isp in
      if item <? 0 then
        if zlen redset <? nrules g + 1 then complete_rules g itemset (redset ++ [- item]) else Undef
      else complete_rules g itemset redset
  end.

Definition save_reductions (g : grammar) (this_state : Z) (itemset : list Z) (rs : list reductions)
    : result (list reductions) :=
  let* redset := complete_rules g itemset [] in
  Ok (if zlen redset =? 0 then rs else rs ++ [Reductions this_state redset]).

Definition save_shifts (this_state : Z) (shiftset : list Z) (ss : list shifts) : list shifts :=
  ss ++ [Shifts this_state shiftset].

(** ** The states *)

Fixpoint start_items (g : grammar) (start_derives : list Z) : result (list Z) :=
  match start_derives with
  | [] => Ok []
  | r :: rs => let* i := rd (rrhs (tab g)) r in let* l := start_items g rs in Ok (i :: l)
  end.

Definition initialize_states (g : grammar) (d : derivations) : result machine :=
  let* start_derives := rules_of d (start_symbol g) in
  let* its := start_items g start_derives in
  Ok (Machine [Core None 0 its] (replicate (Z.to_nat (nitems g)) None)).

(** while (this_state): the states, the shifts and the reductions *)
Fixpoint generate_loop (fuel : nat) (g : grammar) (fd : list Z) (m : machine) (k : itemsets)
    (this_state : Z) (ss : list shifts) (rs : list reductions) {struct fuel}
    : result (list core * list shifts * list reductions) :=
  match fuel with
  | O => NoFuel
  | S fuel =>
      if nstates m <=? this_state then Ok (states m, ss, rs) else
      let* c := rd (states m) this_state in
      let* itemset := closure g fd (items c) in
      let* rs := save_reductions g this_state itemset rs in
      let* (k, nshifts) := new_itemsets g itemset k in
      let* (m, k, shiftset) := append_states g m k nshifts in
      let ss := if 0 <? nshifts then save_shifts this_state shiftset ss else ss in
      generate_loop fuel g fd m k (this_state + 1) ss rs
  end.

(** there are at most [MAXSHORT] states *)
Definition generate_states (g : grammar) (d : derivations) : result (list core * list shifts * list reductions) :=
  let* k := allocate_itemsets g in
  let* fd := set_first_derives g d in
  let* m := initialize_states g d in
  generate_loop (S (Z.to_nat MAXSHORT)) g fd m k 0 [] [].

Definition lr0 (g : grammar) : result (list bool * (list core * list shifts * list reductions)) :=
  let* d := set_derives g in
  let* nullable := set_nullable g in
  let* r := generate_states g d in
  Ok (nullable, r).




(** ** The segments of the symbols *)

Fixpoint occ (l : list Z) (X : Z) : Z :=
  match l with [] => 0 | y :: l => (if y =? X then 1 else 0) + occ l X end.

Fixpoint sumZ (l : list Z) : Z := match l with [] => 0 | x :: l => x + sumZ l end.

Lemma occ_nonneg l X : 0 <= occ l X.
Proof. induction l as [|y l IH]; cbn; [lia|]. case_if E; lia. Qed.

Lemma occ_le l X : occ l X <= zlen l.
Proof. induction l as [|y l IH]; [done|]. rewrite zlen_cons. cbn [occ]. case_if E; lia. Qed.

Lemma occ_app a b X : occ (a ++ b) X = occ a X + occ b X.
Proof. induction a as [|y a IH]; cbn [occ app]; lia. Qed.

Lemma occ_positions l X r : zlen (lhs_rules l r X) = occ l X.
Proof.
  revert r. induction l as [|y l IH]; intros r; [done|]. rewrite lhs_rules_cons. cbn [occ].
  destruct (y =? X); rewrite ?zlen_cons, IH; lia.
Qed.

Lemma sumZ_app a b : sumZ (a ++ b) = sumZ a + sumZ b.
Proof. induction a as [|x a IH]; cbn; lia. Qed.

Lemma sumZ_insert l : forall i x y, l !! i = Some x -> sumZ (<[i := y]> l) = sumZ l - x + y.
Proof.
  induction l as [|z l IH]; intros [|i] x y E; try done.
  - injection E as ->. cbn. lia.
  - change (<[S i := y]> (z :: l)) with (z :: <[i := y]> l). cbn [sumZ]. rewrite (IH i x y E). lia.
Qed.

Lemma sumZ_nonneg l : Forall (fun x => 0 <= x) l -> 0 <= sumZ l.
Proof. induction 1; cbn; lia. Qed.

(** the sum of the first elements *)
Definition psum (cs : list Z) (a : Z) : Z := sumZ (take (Z.to_nat a) cs).

Lemma psum_next cs a : 0 <= a < zlen cs -> psum cs (a + 1) = psum cs a + zget cs a.
Proof.
  intros Ha. unfold psum. replace (Z.to_nat (a + 1)) with (S (Z.to_nat a)) by lia.
  rewrite (take_S_r _ _ (zget cs a)); [rewrite sumZ_app; cbn; lia|]. by apply rd_Ok, rd_zget.
Qed.

Lemma psum_mono cs a b : Forall (fun x => 0 <= x) cs -> 0 <= a <= b -> psum cs a <= psum cs b.
Proof.
  intros Hc H. unfold psum. replace (Z.to_nat b) with (Z.to_nat a + (Z.to_nat b - Z.to_nat a))%nat by lia.
  rewrite <- take_take_drop, sumZ_app.
  assert (Forall (fun x => 0 <= x) (take (Z.to_nat b - Z.to_nat a) (drop (Z.to_nat a) cs))) as F by (by apply Forall_take, Forall_drop).
  apply sumZ_nonneg in F. lia.
Qed.

Lemma psum_segments cs a b : Forall (fun x => 0 <= x) cs -> 0 <= a < zlen cs -> 0 <= b < zlen cs -> a <> b ->
  psum cs a + zget cs a <= psum cs b \/ psum cs b + zget cs b <= psum cs a.
Proof.
  intros Hc Ha Hb Ne. rewrite <- !psum_next by done. destruct (Z.lt_ge_cases a b); [left|right]; (apply psum_mono; [done|lia]).
Qed.

Lemma psum_all cs : psum cs (zlen cs) = sumZ cs.
Proof. unfold psum, zlen. by rewrite Nat2Z.id, firstn_all. Qed.

Lemma psum_total cs a : Forall (fun x => 0 <= x) cs -> 0 <= a < zlen cs -> 0 <= psum cs a /\ psum cs a + zget cs a <= sumZ cs.
Proof.
  intros Hc Ha. split; [pose proof (psum_mono cs 0 a Hc ltac:(lia)) as Q; exact Q|]. rewrite <- psum_next by done.
  rewrite <- psum_all. apply psum_mono; [done|lia].
Qed.

Lemma bases_lookup l : forall c i, (i < length l)%nat -> bases l c !! i = Some (c + sumZ (take i l)).
Proof.
  induction l as [|x l IH]; intros c [|i] Hi; cbn in *; try lia; [f_equal; lia|]. rewrite IH by lia. f_equal. lia.
Qed.

Lemma bases_length l c : length (bases l c) = length l.
Proof. revert c. induction l as [|x l IH]; intros c; [done|]. cbn. by rewrite IH. Qed.

Lemma count_symbols_ok n its : Forall (fun X => X < n) its -> forall counts count, zlen counts = n ->
  (forall X, 0 <= X < n -> 0 <= zget counts X /\ zget counts X + occ its X <= MAXSHORT) ->
  exists counts' count', count_symbols its counts count = Ok (counts', count') /\ zlen counts' = n /\
    (forall X, 0 <= X < n -> zget counts' X = zget counts X + occ its X) /\ count' - sumZ counts' = count - sumZ counts.
Proof.
  induction 1 as [|x its Hx Hits IH]; intros counts count Hz Hc; cbn [count_symbols].
  - exists counts, count. split_and!; [done|done| |done]. intros X _. cbn. lia.
  - destruct (Z.leb_spec 0 x) as [H0|H0].
    + rewrite rd_zget by lia. cbn [rbind]. pose proof (Hc x ltac:(lia)) as Hcx. cbn [occ] in Hcx. rewrite Z.eqb_refl in Hcx.
      pose proof (occ_nonneg its x). rewrite s16_short, wr_in_range by lia. cbn [rbind].
      destruct (IH (<[Z.to_nat x := zget counts x + 1]> counts) (count + 1)) as (cs & c & E & Hz' & Hc' & Hs);
        [by rewrite zlen_insert| |].
      * intros X HX. rewrite zget_insert by lia. pose proof (Hc X HX) as HcX. cbn [occ] in HcX.
        destruct (x =? X) eqn:Q; [apply Z.eqb_eq in Q as ->; lia|lia].
      * exists cs, c. split_and!; [done|done| |].
        -- intros X HX. rewrite Hc', zget_insert by lia. cbn [occ]. destruct (x =? X) eqn:Q; [apply Z.eqb_eq in Q as ->; lia|lia].
        -- rewrite (sumZ_insert _ _ (zget counts x)) in Hs; [lia|]. apply rd_Ok, rd_zget. lia.
    + destruct (IH counts count Hz) as (cs & c & E & Hz' & Hc' & Hs).
      * intros X HX. pose proof (Hc X HX) as HcX. cbn [occ] in HcX. destruct (x =? X); lia.
      * exists cs, c. split_and!; [done|done| |done]. intros X HX. rewrite Hc' by done. cbn [occ].
        destruct (Z.eqb_spec x X); lia.
Qed.

Lemma zget_zeros n X : zget (replicate n 0) X = 0.
Proof. unfold zget. rewrite nth_lookup. destruct (_ !! _) eqn:E; [|done]. by apply lookup_replicate in E as [-> _]. Qed.

Lemma sumZ_zeros n : sumZ (replicate n 0) = 0.
Proof. induction n as [|n IH]; [done|exact IH]. Qed.

Lemma zget_ext (a b : list Z) : zlen a = zlen b -> (forall X, 0 <= X < zlen a -> zget a X = zget b X) -> a = b.
Proof.
  intros Hl H. unfold zlen in *. apply list_eq_same_length with (n := length a); [lia|lia|]. intros i x y Hi Ex Ey.
  specialize (H (Z.of_nat i) ltac:(lia)). unfold zget in H. rewrite !nth_lookup, Nat2Z.id, Ex, Ey in H. exact H.
Qed.

Lemma NoDup_sorted (l : list Z) : StronglySorted Z.lt l -> NoDup l.
Proof.
  induction 1 as [|x l Hl IH Hx]; constructor; [|done]. intros Hin. rewrite Forall_forall in Hx. pose proof (Hx x Hin). lia.
Qed.

Lemma sorted_ext (a : list Z) : StronglySorted Z.lt a -> forall b, StronglySorted Z.lt b ->
  (forall x, x ∈ a <-> x ∈ b) -> a = b.
Proof.
  induction 1 as [|x a Ha IH Hx]; intros b Hb H.
  - destruct b as [|y b]; [done|]. destruct (not_elem_of_nil y). apply H. by left.
  - rewrite Forall_forall in Hx. destruct Hb as [|y b Hb Hy]; [destruct (not_elem_of_nil x); apply H; by left|].
    rewrite Forall_forall in Hy. assert (x = y) as <-.
    { pose proof (proj1 (H x) ltac:(by left)) as H1. pose proof (proj2 (H y) ltac:(by left)) as H2.
      apply elem_of_cons in H1 as [?|H1]; [done|]. apply elem_of_cons in H2 as [?|H2]; [done|].
      specialize (Hx _ H2). specialize (Hy _ H1). lia. }
    f_equal. apply IH; [done|]. intros z. specialize (H z). rewrite !elem_of_cons in H. split; intros Hz.
    + destruct (proj1 H (or_intror Hz)) as [?|?]; [|done]. subst z. specialize (Hx _ Hz). lia.
    + destruct (proj2 H (or_intror Hz)) as [?|?]; [|done]. subst z. specialize (Hy _ Hz). lia.
Qed.

Section Lr0.
Context (g : grammar) (ps : list production) (L : lays_out g ps).

Definition sym (i : Z) : Z := zget (ritem (tab g)) i.

Lemma rd_sym i : 0 <= i < nitems g -> rd (ritem (tab g)) i = Ok (sym i).
Proof. intros Hi. apply rd_zget. rewrite <- (lo_nitems _ _ L). done. Qed.

Lemma sym_range i : 1 <= i < nitems g -> sym i < nsyms g.
Proof.
  intros Hi. destruct (item_symbol g ps L i Hi) as (X & E & HX). rewrite rd_sym in E by lia. by injection E as ->.
Qed.

Definition counts : list Z := map (fun X => occ (ritem (tab g)) (Z.of_nat X)) (seq 0 (Z.to_nat (nsyms g))).

(** where the segment of [X] starts *)
Definition base (X : Z) : Z := psum counts X.

Lemma counts_length : length counts = Z.to_nat (nsyms g).
Proof. unfold counts. by rewrite length_map, length_seq. Qed.

Lemma zget_counts X : 0 <= X < nsyms g -> zget counts X = occ (ritem (tab g)) X.
Proof.
  intros HX. unfold zget, counts. rewrite nth_lookup, list_lookup_fmap, lookup_seq_lt by lia. cbn. f_equal. lia.
Qed.

Lemma counts_nonneg : Forall (fun x => 0 <= x) counts.
Proof. unfold counts. apply Forall_map, Forall_true. intros. apply occ_nonneg. Qed.

Lemma zlen_counts : 0 <= nsyms g -> zlen counts = nsyms g.
Proof. intros H. unfold zlen. rewrite counts_length. lia. Qed.

Lemma base_segments X Y : 0 <= X < nsyms g -> 0 <= Y < nsyms g -> X <> Y ->
  base X + occ (ritem (tab g)) X <= base Y \/ base Y + occ (ritem (tab g)) Y <= base X.
Proof.
  intros HX HY Ne. rewrite <- !zget_counts by done. pose proof zlen_counts.
  apply psum_segments; [apply counts_nonneg|lia|lia|done].
Qed.

Lemma base_total X : 0 <= X < nsyms g -> 0 <= base X /\ base X + occ (ritem (tab g)) X <= sumZ counts.
Proof. intros HX. rewrite <- zget_counts by done. pose proof zlen_counts. apply psum_total; [apply counts_nonneg|lia]. Qed.

Lemma allocate_itemsets_ok : allocate_itemsets g =
  Ok (Itemsets (bases counts 0) (replicate (Z.to_nat (nsyms g)) None) (replicate (Z.to_nat (sumZ counts)) 0) counts).
Proof.
  pose proof (lo_start _ _ L). unfold allocate_itemsets.
  destruct (count_symbols_ok (nsyms g) (ritem (tab g))) with (counts := replicate (Z.to_nat (nsyms g)) 0) (count := 0)
    as (cs & c & -> & Hz & Hc & Hs).
  - apply Forall_forall. intros X HX. apply list_elem_of_lookup in HX as [k Ek].
    assert (Hk : 0 <= Z.of_nat k < nitems g) by (apply lookup_lt_Some in Ek; rewrite (lo_nitems _ _ L); unfold zlen; lia).
    destruct (decide (k = 0%nat)) as [->|]; [rewrite (lo_ritem _ _ L) in Ek; cbn in Ek; injection Ek as <-; lia|].
    pose proof (sym_range (Z.of_nat k) ltac:(lia)) as Q. unfold sym, zget in Q. rewrite nth_lookup, Nat2Z.id, Ek in Q. exact Q.
  - rewrite zlen_replicate. lia.
  - intros X HX. rewrite zget_zeros.
    pose proof (occ_le (ritem (tab g)) X). pose proof (lo_short _ _ L). rewrite (lo_nitems _ _ L) in *. lia.
  - assert (cs = counts) as ->.
    { apply zget_ext; [unfold zlen in *; rewrite counts_length; lia|]. intros X HX. rewrite Hc, zget_zeros, zget_counts by lia. lia. }
    cbn [rbind]. rewrite sumZ_zeros in Hs. by replace c with (sumZ counts) by lia.
Qed.

(** ** The kernels of the successors *)

(** the items after [X] *)
Fixpoint shifted (X : Z) (l : list Z) : list Z :=
  match l with [] => [] | i :: l => if sym i =? X then (i + 1) :: shifted X l else shifted X l end.

Lemma shifted_app X a b : shifted X (a ++ b) = shifted X a ++ shifted X b.
Proof. induction a as [|i a IH]; [done|]. cbn. rewrite IH. by destruct (sym i =? X). Qed.

Lemma elem_of_shifted X l j : j ∈ shifted X l <-> exists i, i ∈ l /\ sym i = X /\ j = i + 1.
Proof.
  induction l as [|i l IH]; cbn [shifted].
  - rewrite elem_of_nil. split; [done|]. by intros (i & ?%elem_of_nil & _).
  - destruct (Z.eqb_spec (sym i) X) as [E|Ne]; rewrite ?elem_of_cons, IH; split.
    + intros [->|(i' & ? & ?)]; [exists i|exists i']; rewrite elem_of_cons; tauto.
    + intros (i' & [->|?]%elem_of_cons & ? & ->); [by left|right; by exists i'].
    + intros (i' & ? & ?). exists i'. rewrite elem_of_cons. tauto.
    + intros (i' & [->|?]%elem_of_cons & ? & ->); [done|by exists i'].
Qed.

Lemma shifted_sorted X l : StronglySorted Z.lt l -> StronglySorted Z.lt (shifted X l).
Proof.
  induction 1 as [|i l Hl IH Hi]; cbn [shifted]; [constructor|]. case_if E; [|done]. constructor; [done|].
  apply Forall_forall. intros j (i' & Hi' & _ & ->)%elem_of_shifted. rewrite Forall_forall in Hi. pose proof (Hi _ Hi'). lia.
Qed.

Definition in_items (l : list Z) : Prop := StronglySorted Z.lt l /\ Forall (fun i => 1 <= i < nitems g) l.

Lemma shifted_room X l : in_items l -> zlen (shifted X l) <= occ (ritem (tab g)) X.
Proof.
  intros [Hs Hi]. rewrite <- (occ_positions _ _ 1). pose proof (shifted_sorted X l Hs) as Ss. apply NoDup_sorted in Ss.
  assert (H : shifted X l ⊆+ lhs_rules (ritem (tab g)) 1 X); [|apply submseteq_length in H; unfold zlen; lia].
  apply NoDup_submseteq; [done|]. intros j (i & Hin & Es & ->)%elem_of_shifted. rewrite Forall_forall in Hi.
  pose proof (Hi _ Hin) as Hb. cbn in Hb. apply elem_of_lhs_rules. split; [lia|]. replace (i + 1 - 1) with i by lia.
  rewrite rd_sym by lia. by rewrite Es.
Qed.

Record laid (done : list Z) (k : itemsets) (sc : Z) : Prop := {
  nl_base : kernel_base k = bases counts 0;
  nl_end : zlen (kernel_end k) = nsyms g /\ forall X, 1 <= X < nsyms g ->
    rd (kernel_end k) X = Ok (match shifted X done with [] => None | l => Some (base X + zlen l) end);
  nl_items : zlen (kernel_items k) = sumZ counts /\ forall X t, 1 <= X < nsyms g -> 0 <= t < zlen (shifted X done) ->
    zget (kernel_items k) (base X + t) = zget (shifted X done) t;
  nl_syms : exists seen rest, shift_symbol k = seen ++ rest /\ zlen seen = sc /\ zlen (shift_symbol k) = nsyms g /\
    NoDup seen /\ forall X, X ∈ seen <-> 1 <= X < nsyms g /\ shifted X done <> [] }.

Lemma rd_base X : 0 <= X < nsyms g -> rd (bases counts 0) X = Ok (base X).
Proof.
  intros HX. apply rd_Ok. split; [lia|]. rewrite bases_lookup by (rewrite counts_length; lia). done.
Qed.

Lemma in_items_prefix a b : in_items (a ++ b) -> in_items a.
Proof. intros [H1 H2]. apply sorted_app_inv in H1 as [? _]. apply Forall_app in H2 as [? _]. done. Qed.

Lemma zget_app_l (a b : list Z) i : 0 <= i < zlen a -> zget (a ++ b) i = zget a i.
Proof. intros H. unfold zget, zlen in *. by rewrite app_nth1 by lia. Qed.

Lemma zget_snoc (a : list Z) x : zget (a ++ [x]) (zlen a) = x.
Proof. unfold zget, zlen. by rewrite Nat2Z.id, app_nth2, Nat.sub_diag by lia. Qed.

(** the segments after an item before [X] is put *)
Lemma laid_step done i k es its ss sc sc' X :
  in_items (done ++ [i]) -> sym i = X -> 1 <= X < nsyms g ->
  kernel_base k = bases counts 0 ->
  es = <[Z.to_nat X := Some (base X + zlen (shifted X done) + 1)]> (kernel_end k) ->
  its = <[Z.to_nat (base X + zlen (shifted X done)) := i + 1]> (kernel_items k) ->
  laid done k sc ->
  (exists seen rest, ss = seen ++ rest /\ zlen seen = sc' /\ zlen ss = nsyms g /\ NoDup seen /\
     forall Y, Y ∈ seen <-> Y = X \/ (1 <= Y < nsyms g /\ shifted Y done <> [])) ->
  laid (done ++ [i]) (Itemsets (kernel_base k) es its ss) sc'.
Proof.
  intros Hin Ei HX Hbase -> -> [_ [He1 He2] [Hi1 Hi2] _] (seen & rest & -> & Hsc & Hz & Hnd & Hseen).
  pose proof (shifted_room X _ Hin) as Room. rewrite shifted_app in Room. cbn [shifted] in Room.
  rewrite Ei, Z.eqb_refl in Room. rewrite zlen_snoc in Room. pose proof (base_total X ltac:(lia)) as Tot.
  pose proof (zlen_nonneg (shifted X done)).
  assert (SX : shifted X (done ++ [i]) = shifted X done ++ [i + 1]).
  { rewrite shifted_app. cbn [shifted]. by rewrite Ei, Z.eqb_refl. }
  assert (SY : forall Y, Y <> X -> shifted Y (done ++ [i]) = shifted Y done).
  { intros Y HY. rewrite shifted_app. cbn [shifted]. rewrite Ei. destruct (Z.eqb_spec X Y); [done|]. apply app_nil_r. }
  constructor; cbn [kernel_base kernel_end kernel_items shift_symbol].
  - done.
  - split; [by rewrite zlen_insert|]. intros Y HY. destruct (decide (Y = X)) as [->|Ne].
    + rewrite SX. apply rd_Ok. split; [lia|]. rewrite list_lookup_insert_eq by (unfold zlen in He1; lia). f_equal.
      destruct (shifted X done ++ [i + 1]) eqn:Q; [by destruct (shifted X done)|]. rewrite <- Q, zlen_snoc. f_equal. lia.
    + rewrite SY by done. rewrite <- He2 by done. unfold rd. destruct (Y <? 0); [done|]. by rewrite list_lookup_insert_ne by lia.
  - split; [by rewrite zlen_insert|]. intros Y t HY Ht. rewrite zget_insert by (pose proof (base_total Y ltac:(lia)); lia).
    destruct (decide (Y = X)) as [->|Ne].
    + rewrite SX in *. rewrite zlen_snoc in Ht. destruct (Z.eqb_spec (base X + zlen (shifted X done)) (base X + t)).
      * replace t with (zlen (shifted X done)) by lia. by rewrite zget_snoc.
      * rewrite zget_app_l, Hi2 by lia. done.
    + rewrite SY in * by done. pose proof (shifted_room Y _ (in_items_prefix _ _ Hin)).
      pose proof (base_segments X Y ltac:(lia) ltac:(lia) ltac:(done)).
      destruct (Z.eqb_spec (base X + zlen (shifted X done)) (base Y + t)); [lia|]. by apply Hi2.
  - exists seen, rest. split_and!; [done..|]. intros Y. rewrite Hseen. split.
    + intros [->|[? ?]]; [split; [done|]; rewrite SX; by destruct (shifted X done)|]. split; [done|].
      destruct (decide (Y = X)) as [->|Ne]; [rewrite SX; by destruct (shifted X done)|by rewrite SY].
    + intros [? Q]. destruct (decide (Y = X)) as [->|Ne]; [by left|]. right. rewrite SY in Q by done. done.
Qed.

Lemma laid_same done i k sc : sym i < 1 -> laid done k sc -> laid (done ++ [i]) k sc.
Proof.
  intros Ei [H1 [H2 H2'] [H3 H3'] (seen & rest & H4 & H5 & H6 & H7 & H8)].
  assert (SY : forall Y, 1 <= Y -> shifted Y (done ++ [i]) = shifted Y done).
  { intros Y HY. rewrite shifted_app. cbn [shifted]. destruct (Z.eqb_spec (sym i) Y); [lia|]. apply app_nil_r. }
  constructor; [done|split; [done|]|split; [done|]|exists seen, rest; split_and!; try done].
  - intros X HX. rewrite SY by lia. by apply H2'.
  - intros X t HX. rewrite SY by lia. by apply H3'.
  - intros X. rewrite H8. split; intros [? ?]; [rewrite SY by lia; done|]. rewrite SY in * by lia. done.
Qed.

Lemma new_itemsets_loop_ok l : forall done k sc, in_items (done ++ l) -> laid done k sc ->
  exists k' sc', new_itemsets_loop g l k sc = Ok (k', sc') /\ laid (done ++ l) k' sc'.
Proof.
  induction l as [|i l IH]; intros done k sc Hin Hl; cbn [new_itemsets_loop].
  - exists k, sc. by rewrite app_nil_r.
  - assert (Hin' : in_items (done ++ [i])) by (apply (in_items_prefix _ l); by rewrite <- app_assoc).
    assert (Hi : 1 <= i < nitems g).
    { destruct Hin' as [_ Hb]. apply Forall_app in Hb as [_ [Hb _]%Forall_cons]. done. }
    rewrite rd_sym by lia. cbn [rbind]. pose proof (sym_range i Hi) as Hs.
    replace (done ++ i :: l) with ((done ++ [i]) ++ l) in * by (by rewrite <- app_assoc).
    destruct (Z.ltb_spec 0 (sym i)) as [H0|H0]; [|apply IH; [done|by apply laid_same; [lia|]]].
    pose proof Hl as [Hb [He1 He2] [Hi1 Hi2] (seen & rest & Hss & Hsc & Hz & Hnd & Hseen)].
    pose proof (base_total (sym i) ltac:(lia)) as Tot. pose proof (shifted_room (sym i) _ Hin') as Room.
    rewrite shifted_app in Room. cbn [shifted] in Room. rewrite Z.eqb_refl, zlen_snoc in Room.
    pose proof (zlen_nonneg (shifted (sym i) done)) as H0'. pose proof (lo_short _ _ L).
    rewrite He2 by lia. cbn [rbind].
    assert (Hnew : shifted (sym i) done = [] -> sc < nsyms g /\ rest <> []).
    { intros Es. assert (Hn : NoDup (sym i :: seen)).
      { constructor; [|done]. intros [_ Q]%Hseen. done. }
      assert (Hr : Forall (fun x => 0 <= x < nsyms g) (sym i :: seen)).
      { constructor; [lia|]. apply Forall_forall. intros Y [? _]%Hseen. lia. }
      pose proof (nodup_length _ _ _ Hn Hr) as Q. rewrite zlen_cons in Q. split; [lia|]. intros ->.
      rewrite Hss, app_nil_r in Hz. lia. }
    assert (Hpos : forall p, p = base (sym i) + zlen (shifted (sym i) done) ->
      wr (kernel_items k) p (s16 (i + 1)) = Ok (<[Z.to_nat p := i + 1]> (kernel_items k)) /\
      wr (kernel_end k) (sym i) (Some (p + 1)) = Ok (<[Z.to_nat (sym i) := Some (p + 1)]> (kernel_end k))).
    { intros p ->. rewrite s16_short, !wr_in_range by lia. done. }
    destruct (shifted (sym i) done) as [|j js] eqn:Es.
    + destruct (Hnew eq_refl) as [Hsc' Hrest]. destruct rest as [|z rest]; [done|].
      rewrite zlen_nil in *. rewrite Hss, <- Hsc, wr_mid. cbn [rbind]. rewrite Hb, rd_base by lia. cbn [rbind].
      destruct (Hpos (base (sym i))) as [E1 E2]; [lia|]. rewrite E1. cbn [rbind]. rewrite E2. cbn [rbind].
      apply IH; [done|]. rewrite <- Hb. eapply (laid_step _ i k _ _ _ sc _ (sym i)); try done; rewrite ?Es.
      * lia.
      * by rewrite zlen_nil, Z.add_0_r.
      * by rewrite zlen_nil, Z.add_0_r.
      * exists (seen ++ [sym i]), rest. rewrite <- app_assoc, zlen_snoc, Hsc. cbn [app]. split_and!; [done|done| | |].
        -- rewrite Hss in Hz. unfold zlen in *. rewrite !length_app in *. done.
        -- apply NoDup_app. split_and!; [done| |apply NoDup_singleton].
           intros Y HY ->%list_elem_of_singleton. apply Hseen in HY as [_ HY]. done.
        -- intros Y. rewrite elem_of_app, list_elem_of_singleton, Hseen. tauto.
    + cbn [rbind]. destruct (Hpos (base (sym i) + zlen (j :: js))) as [E1 E2]; [done|]. rewrite E1. cbn [rbind]. rewrite E2.
      cbn [rbind]. apply IH; [done|]. eapply (laid_step _ i k _ _ _ sc _ (sym i)); try done; rewrite ?Es; try done; [lia|].
      exists seen, rest. split_and!; [done..|]. intros Y. rewrite Hseen. split; [by right|]. intros [->|?]; [|done]. split; [lia|by rewrite Es].
Qed.

(** the arrays between two states *)
Record cleared (k : itemsets) : Prop := {
  cl_base : kernel_base k = bases counts 0;
  cl_end : zlen (kernel_end k) = nsyms g;
  cl_items : zlen (kernel_items k) = sumZ counts;
  cl_syms : zlen (shift_symbol k) = nsyms g }.

Lemma laid_cleared done k sc : laid done k sc -> cleared k.
Proof. intros [? [? _] [? _] (? & ? & _ & _ & ? & _)]. by constructor. Qed.

Lemma allocated_cleared : exists k, allocate_itemsets g = Ok k /\ cleared k.
Proof.
  pose proof (lo_start _ _ L). eexists. split; [apply allocate_itemsets_ok|].
  assert (0 <= sumZ counts) by apply sumZ_nonneg, counts_nonneg.
  constructor; cbn [kernel_base kernel_end kernel_items shift_symbol]; [done|rewrite zlen_replicate; lia..|].
  unfold zlen. rewrite counts_length. lia.
Qed.

Lemma new_itemsets_ok k itemset : cleared k -> in_items itemset ->
  exists k' sc, new_itemsets g itemset k = Ok (k', sc) /\ laid itemset k' sc.
Proof.
  intros [Hb He Hi Hs] Hin. pose proof (lo_start _ _ L). unfold new_itemsets.
  apply (new_itemsets_loop_ok itemset []); [done|]. constructor; cbn [kernel_base kernel_end kernel_items shift_symbol].
  - done.
  - rewrite zlen_replicate. split; [lia|]. intros X HX. apply rd_Ok. split; [lia|]. apply lookup_replicate. split; [done|lia].
  - split; [done|]. intros X t _ Ht. change (shifted X []) with (@nil Z) in Ht. pose proof (zlen_nil (A := Z)). lia.
  - exists [], (shift_symbol k). split_and!; [done|done|done|constructor|]. intros X. split; [by intros ?%elem_of_nil|].
    by intros [_ Q].
Qed.

Lemma read_items_ok l : forall its p, (forall t, 0 <= t < zlen l -> rd its (p + t) = rd l t) ->
  read_items (length l) its p = Ok l.
Proof.
  induction l as [|x l IH]; intros its p H; [done|]. cbn [length read_items]. rewrite zlen_cons in H. pose proof (zlen_nonneg l).
  pose proof (H 0 ltac:(lia)) as E. rewrite Z.add_0_r in E. rewrite E. change (rd (x :: l) 0) with (Ok x). cbn [rbind].
  rewrite IH; [done|]. intros t Ht. rewrite <- Z.add_assoc, H, rd_cons by lia. f_equal. lia.
Qed.

Lemma kernel_ok done k sc X : in_items done -> laid done k sc -> 1 <= X < nsyms g -> shifted X done <> [] ->
  kernel k X = Ok (shifted X done).
Proof.
  intros Hin [Hb [_ He] [Hz Hi] _] HX Hne. unfold kernel. rewrite Hb, rd_base, He by lia. cbn [rbind].
  destruct (shifted X done) as [|j js] eqn:E; [done|]. rewrite <- E in *. cbn [of_option rbind].
  replace (Z.to_nat _) with (length (shifted X done)) by (unfold zlen; lia).
  apply read_items_ok. intros t Ht. pose proof (shifted_room X _ Hin). pose proof (base_total X ltac:(lia)).
  by rewrite !rd_zget, Hi by lia.
Qed.

(** ** The order of the symbols *)

Lemma wr_second (a c : list Z) x z y : wr (a ++ x :: z :: c) (zlen a + 1) y = Ok (a ++ x :: y :: c).
Proof.
  pose proof (wr_mid (a ++ [x]) c z y) as E. by rewrite zlen_snoc, <- !app_assoc in E.
Qed.

Lemma sift_ok x a : forall z c, StronglySorted Z.le a ->
  exists a', sift (length a) x (a ++ z :: c) = Ok (a' ++ c) /\ a' ≡ₚ x :: a /\ StronglySorted Z.le a'.
Proof.
  induction a as [|y a IH] using rev_ind; intros z c Hs.
  - exists [x]. split_and!; [done|done|repeat constructor].
  - rewrite length_app, Nat.add_1_r, <- app_assoc. cbn [sift app]. change (Z.of_nat (length a)) with (zlen a).
    rewrite rd_mid. cbn [rbind]. apply sorting.StronglySorted_app in Hs as (Hlt & Hs1 & _).
    assert (Hy : Forall (fun w => w <= y) a).
    { apply Forall_forall. intros w Hw. apply Hlt; [done|by left]. }
    destruct (Z.ltb_spec x y) as [Lt|Ge]; rewrite wr_second; cbn [rbind].
    + destruct (IH y (y :: c) Hs1) as (a' & E & Hp & Hs'). exists (a' ++ [y]). rewrite E, <- app_assoc. split; [done|].
      split; [by rewrite Hp|]. apply sorting.StronglySorted_app_2; [|done|repeat constructor].
      intros w1 w2 H1 ->%list_elem_of_singleton. rewrite Hp in H1. apply elem_of_cons in H1 as [?|H1]; [subst w1; lia|].
      rewrite Forall_forall in Hy. by apply Hy.
    + exists (a ++ [y; x]). split_and!.
      * by rewrite <- app_assoc.
      * rewrite Permutation_app_comm. cbn. rewrite Permutation_swap. apply Permutation_skip. by rewrite Permutation_app_comm.
      * apply sorting.StronglySorted_app_2; [|done|repeat constructor; lia].
        intros w1 w2 H1 H2. rewrite Forall_forall in Hy. pose proof (Hy _ H1).
        apply elem_of_cons in H2 as [?|[?|H2%elem_of_nil]%elem_of_cons]; [lia|lia|done].
Qed.

Lemma sort_loop_ok c : forall a rest, StronglySorted Z.le a ->
  exists a', for_loop (length c) (zlen a) (fun i ss => let* symbol := rd ss i in sift (Z.to_nat i) symbol ss) (a ++ c ++ rest) =
    Ok (a' ++ rest) /\ a' ≡ₚ a ++ c /\ StronglySorted Z.le a'.
Proof.
  induction c as [|x c IH]; intros a rest Hs; cbn [length for_loop].
  - exists a. by rewrite app_nil_r.
  - cbn [app]. rewrite rd_mid. cbn [rbind]. unfold zlen at 1. rewrite Nat2Z.id.
    destruct (sift_ok x a x (c ++ rest) Hs) as (a1 & E1 & Hp1 & Hs1). rewrite E1. cbn [rbind].
    destruct (IH a1 rest Hs1) as (a' & E & Hp & Hs'). exists a'.
    replace (zlen a + 1) with (zlen a1) by (unfold zlen; rewrite Hp1; cbn [length]; lia).
    split_and!; [done| |done]. rewrite Hp, Hp1. apply Permutation_middle.
Qed.

Lemma sort_symbols_ok seen rest : NoDup seen -> exists syms,
  sort_symbols (zlen seen) (seen ++ rest) = Ok (syms ++ rest) /\ syms ≡ₚ seen /\ StronglySorted Z.lt syms.
Proof.
  intros Hn. unfold sort_symbols. destruct seen as [|x seen].
  { exists []. split_and!; [done|done|constructor]. }
  destruct (sort_loop_ok seen [x] rest) as (a & E & Hp & Hs); [repeat constructor|].
  exists a. change (zlen [x]) with 1 in E. replace (Z.to_nat (zlen (x :: seen) - 1)) with (length seen) by (rewrite zlen_cons; unfold zlen; lia).
  split_and!; [exact E|exact Hp|]. assert (Hna : NoDup a) by (by rewrite Hp).
  clear -Hs Hna. induction Hs as [|y a Hs IH Hy]; [constructor|]. apply NoDup_cons in Hna as [Hn1 Hn2]. constructor; [by apply IH|].
  apply Forall_forall. intros z Hz. rewrite Forall_forall in Hy. pose proof (Hy z Hz).
  assert (y <> z) by (intros E; by rewrite E in Hn1). lia.
Qed.

(** ** The states found *)

(** the states linked from a state *)
Inductive chain (ss : list core) : option Z -> list Z -> Prop :=
  | chain_nil : chain ss None []
  | chain_cons n c l : rd ss n = Ok c -> chain ss (link c) l -> chain ss (Some n) (n :: l).

(** what a state is, without its link *)
Definition kernels (ss : list core) : list (Z * list Z) := map (fun c => (accessing_symbol c, items c)) ss.

Lemma zlen_kernels ss : zlen (kernels ss) = zlen ss.
Proof. apply zlen_map. Qed.

Lemma rd_kernels ss n X its : rd (kernels ss) n = Ok (X, its) <-> exists o, rd ss n = Ok (Core o X its).
Proof.
  unfold kernels. rewrite rd_map. split.
  - intros ([o X' its'] & E & Q). cbn in Q. injection Q as -> ->. by exists o.
  - intros (o & E). eexists. split; [exact E|done].
Qed.

Lemma kernels_link ss n c o : rd ss n = Ok c ->
  kernels (<[Z.to_nat n := Core o (accessing_symbol c) (items c)]> ss) = kernels ss.
Proof.
  intros [_ E]%rd_Ok. unfold kernels. rewrite list_fmap_insert. cbn. apply list_insert_id. by rewrite list_lookup_fmap, E.
Qed.

Lemma same_items_eq a : forall b, zlen a = zlen b -> same_items a b = true <-> a = b.
Proof.
  induction a as [|x a IH]; intros [|y b] Hl; rewrite ?zlen_cons, ?zlen_nil in Hl;
    try (pose proof (zlen_nonneg a)); try (pose proof (zlen_nonneg b)); try lia; [done|].
  cbn [same_items]. destruct (Z.eqb_spec x y) as [E|Ne]; [|split; [done|congruence]].
  rewrite IH by lia. split; congruence.
Qed.

Lemma same_kernel its c : (zlen (items c) =? zlen its) && same_items its (items c) = true <-> items c = its.
Proof.
  destruct (Z.eqb_spec (zlen (items c)) (zlen its)) as [E|Ne]; cbn [andb]; [|split; [done|congruence]].
  rewrite same_items_eq by done. done.
Qed.

Lemma linked_app ss tl o l : chain ss o l -> chain (ss ++ tl) o l.
Proof.
  induction 1 as [|n c l E _ IH]; [constructor|]. apply rd_range in E as R. econstructor; [|exact IH]. by rewrite rd_app_l by lia.
Qed.

Lemma linked_ext ss ss' o l : chain ss o l -> (forall n, n ∈ l -> rd ss' n = rd ss n) -> chain ss' o l.
Proof.
  induction 1 as [|n c l E _ IH]; intros H; [constructor|]. econstructor; [rewrite H; [exact E|by left]|].
  apply IH. intros. apply H. by right.
Qed.

(** the search in a chain *)
Definition found (ss : list core) (set : list (option Z)) (X : Z) (its : list Z) (n : Z) (l : list Z) (r : result (machine * Z)) : Prop :=
  (exists c q, q ∈ l /\ rd ss q = Ok c /\ items c = its /\ r = Ok (Machine ss set, q)) \/
  ((forall q c, q ∈ l -> rd ss q = Ok c -> items c <> its) /\
   (MAXSHORT <= zlen ss /\ r = Raise (Failure "too many states") \/
    zlen ss < MAXSHORT /\ exists ss', r = Ok (Machine ss' set, zlen ss) /\ kernels ss' = kernels ss ++ [(X, its)] /\
      chain ss' (Some n) (l ++ [zlen ss]) /\ forall q, q ∉ l -> q < zlen ss -> rd ss' q = rd ss q)).

Lemma find_state_ok ss set X its o l : chain ss o l -> forall n fuel, o = Some n -> NoDup l -> (length l < fuel)%nat ->
  found ss set X its n l (find_state fuel (Machine ss set) X its n).
Proof.
  induction 1 as [|n0 c l E Hc IH]; intros n [|fuel] Q Hn Hf; try lia; [done|]. injection Q as <-. cbn [length] in Hf.
  apply NoDup_cons in Hn as [Hn1 Hn2]. cbn [find_state states]. rewrite E. cbn [rbind].
  destruct ((zlen (items c) =? zlen its) && same_items its (items c)) eqn:Es.
  { apply same_kernel in Es. left. exists c, n0. split_and!; [by left|done..]. }
  assert (Ne : items c <> its) by (intros Es'; apply same_kernel in Es'; congruence). clear Es.
  apply rd_range in E as R. destruct (link c) as [n1|] eqn:El.
  - destruct (IH n1 fuel eq_refl Hn2 ltac:(lia)) as [(c' & q & Hq & H1 & H2 & ->)|[Hno [[H1 ->]|(H1 & ss' & -> & H2 & H3 & H4)]]].
    + left. exists c', q. split_and!; [by right|done..].
    + right. split; [|by left]. intros q c' [->|Hq]%elem_of_cons E'; [congruence|by eapply Hno].
    + right. split; [intros q c' [->|Hq]%elem_of_cons E'; [congruence|by eapply Hno]|]. right. split; [done|]. exists ss'.
      split_and!; [done|done| |].
      * cbn [app]. apply (chain_cons _ _ c); [rewrite H4; [done|done|lia]|by rewrite El].
      * intros q Hq Hlt. rewrite not_elem_of_cons in Hq. destruct Hq as [_ Hq]. by apply H4.
  - inv Hc. right. split; [intros q c' Hq E'; apply list_elem_of_singleton in Hq as ->; congruence|].
    unfold new_state, nstates, fatal. cbn [states]. destruct (Z.leb_spec MAXSHORT (zlen ss)) as [Hm|Hm]; [by left|right].
    split; [done|]. cbn [rbind states state_set]. rewrite wr_in_range by (rewrite zlen_app; pose proof (zlen_nonneg [Core None X its]); lia).
    cbn [rbind]. eexists. split; [done|].
    assert (E' : rd (ss ++ [Core None X its]) n0 = Ok c) by (by rewrite rd_app_l by lia).
    split_and!.
    + rewrite kernels_link by done. unfold kernels. by rewrite map_app.
    + cbn [app]. econstructor; [apply rd_insert_eq; rewrite zlen_app; pose proof (zlen_nonneg [Core None X its]); lia|].
      cbn [link]. econstructor; [rewrite rd_insert_ne by lia; apply rd_mid|constructor].
    + intros q Hq Hlt. rewrite not_elem_of_cons in Hq. destruct (Z.lt_ge_cases q 0); [unfold rd; destruct (Z.ltb_spec q 0); [done|lia]|].
      rewrite rd_insert_ne, rd_app_l by lia. done.
Qed.

(** the items of the start symbol's rules *)
Definition start_kernel : list Z := map (first_item ps) (rules_for g (start_symbol g)).

(** the state entered by [k.1], with the items [k.2] *)
Record goto_state (k : Z * list Z) : Prop := {
  gs_symbol : 1 <= k.1 < nsyms g;
  gs_items : in_items k.2;
  gs_some : k.2 <> [];
  gs_after : forall j, j ∈ k.2 -> sym (j - 1) = k.1 }.

Lemma first_item_before r p : rule ps r p -> sym (first_item ps r - 1) < 0.
Proof.
  intros Hp. pose proof (rule_bounds g ps L _ _ Hp) as Hb. destruct (decide (r = 2)) as [->|Ne].
  - unfold sym, first_item. rewrite (lo_ritem _ _ L). done.
  - destruct (rule_range g ps L (r - 1)) as [q Hq]; [lia|]. pose proof (rule_end g ps L _ _ Hq) as E.
    pose proof (rule_bounds g ps L _ _ Hq) as Hb'. pose proof (zlen_nonneg q.2). rewrite rd_sym in E by lia. injection E as E.
    assert (first_item ps r = first_item ps (r - 1) + zlen q.2 + 1) as ->.
    { destruct Hq as [_ Eq]. unfold first_item. replace (Z.to_nat (r - 2)) with (S (Z.to_nat (r - 1 - 2))) by lia.
      rewrite (offset_next _ _ _ Eq). lia. }
    replace (_ + 1 - 1) with (first_item ps (r - 1) + zlen q.2) by lia. lia.
Qed.

Lemma elem_of_start_kernel i : i ∈ start_kernel -> exists r p, rule ps r p /\ p.1 = start_symbol g /\ i = first_item ps r.
Proof.
  intros (r & -> & (p & Hp & E)%(elem_of_rules_for g ps L))%list_elem_of_fmap; [|lia]. by exists r, p.
Qed.

Lemma start_kernel_ok : in_items start_kernel.
Proof.
  split.
  - unfold start_kernel. pose proof (rules_for_sorted g (start_symbol g)) as Hs.
    pose proof (rules_for_positive g ps L (start_symbol g) ltac:(lia)) as Hp.
    induction Hs as [|r rs Hs IH Hr]; [constructor|]. apply Forall_cons in Hp as [Hr1 Hp]. cbn. constructor; [by apply IH|].
    apply Forall_map, Forall_forall. intros r' Hr'. cbn. rewrite Forall_forall in *.
    destruct (rule_range g ps L r Hr1) as [p H]. destruct (rule_range g ps L r' (Hp _ Hr')) as [p' H'].
    pose proof (first_item_lt ps r r' p p' H H' (Hr _ Hr')). pose proof (zlen_nonneg p.2). lia.
  - apply Forall_forall. intros i (r & p & Hp & _ & ->)%elem_of_start_kernel. pose proof (rule_bounds g ps L _ _ Hp).
    pose proof (zlen_nonneg p.2). lia.
Qed.

Lemma goto_not_start k : goto_state k -> k.2 <> start_kernel.
Proof.
  intros [Hs _ Hne Ha] E. destruct k.2 as [|j js]; [done|]. assert (Hj : j ∈ start_kernel) by (rewrite <- E; by left).
  apply elem_of_start_kernel in Hj as (r & p & Hp & _ & ->). pose proof (first_item_before _ _ Hp).
  pose proof (Ha (first_item ps r) ltac:(by left)). lia.
Qed.

(** the states and their chains, by first item *)
Record machine_ok (m : machine) : Prop := {
  mk_count : nstates m <= MAXSHORT;
  mk_set : zlen (state_set m) = nitems g;
  mk_kernels : exists ks, kernels (states m) = (0, start_kernel) :: ks /\ Forall goto_state ks;
  mk_distinct : NoDup (map snd (kernels (states m)));
  mk_chains : forall key, 0 <= key < nitems g -> exists o l, rd (state_set m) key = Ok o /\ chain (states m) o l /\ NoDup l /\
    forall n, n ∈ l <-> 1 <= n /\ exists X its, rd (kernels (states m)) n = Ok (X, key :: its) }.

Lemma mk_start m : machine_ok m -> 1 <= nstates m.
Proof.
  intros Hm. destruct (mk_kernels _ Hm) as (ks & E & _). unfold nstates. rewrite <- zlen_kernels, E, zlen_cons. pose proof (zlen_nonneg ks). lia.
Qed.

Lemma mk_goto m n k : machine_ok m -> 1 <= n -> rd (kernels (states m)) n = Ok k -> goto_state k.
Proof.
  intros [_ _ (ks & E & Hks) _ _] Hn Ek. rewrite E, rd_cons in Ek by lia. apply rd_Ok in Ek as [_ Ek].
  exact (Forall_lookup_1 _ _ _ _ Hks Ek).
Qed.

Lemma elem_of_kernels ss its : its ∈ map snd (kernels ss) <-> exists n X, rd (kernels ss) n = Ok (X, its).
Proof.
  rewrite list_elem_of_fmap. split.
  - intros ([X its'] & -> & [n E]%list_elem_of_lookup). exists (Z.of_nat n), X. apply rd_Ok. rewrite Nat2Z.id. split; [lia|done].
  - intros (n & X & [_ E]%rd_Ok). exists (X, its). split; [done|]. by apply list_elem_of_lookup_2 in E.
Qed.

Lemma mk_fresh m X key its (l : list Z) : machine_ok m -> goto_state (X, key :: its) ->
  (forall n, n ∈ l <-> 1 <= n /\ exists X its, rd (kernels (states m)) n = Ok (X, key :: its)) ->
  (forall q c, q ∈ l -> rd (states m) q = Ok c -> items c <> key :: its) -> key :: its ∉ map snd (kernels (states m)).
Proof.
  intros Hm Hg Hl Hno (n & X' & E)%elem_of_kernels. destruct (decide (n = 0)) as [->|Ne].
  - destruct (mk_kernels _ Hm) as (ks & Ek & _). rewrite Ek in E. injection E as _ E. by apply (goto_not_start _ Hg).
  - apply rd_range in E as R. assert (Hn : n ∈ l) by (apply Hl; split; [lia|by exists X', its]).
    apply rd_kernels in E as [o E]. by apply (Hno _ _ Hn E).
Qed.

Lemma machine_add m ss' set' X key its l o :
  machine_ok m -> goto_state (X, key :: its) -> nstates m < MAXSHORT ->
  (forall n, n ∈ l <-> 1 <= n /\ exists X its, rd (kernels (states m)) n = Ok (X, key :: its)) -> NoDup l ->
  key :: its ∉ map snd (kernels (states m)) -> kernels ss' = kernels (states m) ++ [(X, key :: its)] ->
  zlen set' = nitems g -> rd set' key = Ok o -> chain ss' o (l ++ [nstates m]) ->
  (forall q, q ∉ l -> q < nstates m -> rd ss' q = rd (states m) q) ->
  (forall key', key' <> key -> rd set' key' = rd (state_set m) key') ->
  machine_ok (Machine ss' set').
Proof.
  intros Hm Hg Hc Hl Hn Hf Ek Hz Eo Hch Hq Hset. pose proof (zlen_kernels (states m)) as Zk.
  pose proof (mk_start _ Hm) as H1.
  constructor; cbn [states state_set].
  - unfold nstates in *. cbn [states]. rewrite <- (zlen_kernels ss'), Ek, zlen_snoc. lia.
  - done.
  - destruct (mk_kernels _ Hm) as (ks & E & Hks). exists (ks ++ [(X, key :: its)]). rewrite Ek, E. split; [done|].
    apply Forall_app. split; [done|]. by constructor.
  - rewrite Ek, map_app. apply NoDup_app. split_and!; [apply (mk_distinct _ Hm)| |apply NoDup_singleton].
    intros x Hx ->%list_elem_of_singleton. done.
  - intros key' Hk'. destruct (decide (key' = key)) as [->|Ne].
    + exists o, (l ++ [nstates m]). split_and!; [done|done| |].
      * apply NoDup_app. split_and!; [done| |apply NoDup_singleton].
        intros x Hx ->%list_elem_of_singleton. apply Hl in Hx as (_ & X' & its' & E%rd_range). unfold nstates in E. lia.
      * intros n. rewrite elem_of_app, list_elem_of_singleton, Hl, Ek. unfold nstates. rewrite <- Zk. split.
        -- intros [[? (X' & its' & E)]| ->]; [|split; [unfold nstates in H1; lia|]; exists X, its; apply rd_mid].
           split; [done|]. exists X', its'. apply rd_range in E as R. by rewrite rd_app_l by lia.
        -- intros [? (X' & its' & E)]. apply rd_range in E as R. rewrite zlen_snoc in R.
           destruct (decide (n = zlen (kernels (states m)))) as [?|]; [by right|left]. rewrite rd_app_l in E by lia. eauto.
    + destruct (mk_chains _ Hm key' Hk') as (o1 & l1 & E1 & Hc1 & Hn1 & Hl1). exists o1, l1. rewrite Hset by done.
      split_and!; [done| |done|].
      * apply (linked_ext (states m)); [done|]. intros n Hin. apply Hl1 in Hin as (? & X1 & its1 & E).
        apply rd_range in E as R. apply Hq; [|unfold nstates; lia]. intros (_ & X2 & its2 & E2)%Hl. congruence.
      * intros n. rewrite Hl1, Ek. split; intros [? (X' & its' & E)]; (split; [done|]); exists X', its'.
        -- apply rd_range in E as R. by rewrite rd_app_l by lia.
        -- apply rd_range in E as R. rewrite zlen_snoc in R. destruct (decide (n = zlen (kernels (states m)))) as [->|].
           ++ rewrite rd_mid in E. congruence.
           ++ by rewrite rd_app_l in E by lia.
Qed.

(** the states after the search of a successor *)
Definition entered (m : machine) (k : Z * list Z) (r : result (machine * Z)) : Prop :=
  (exists m' n, r = Ok (m', n) /\ machine_ok m' /\ 1 <= n /\ rd (kernels (states m')) n = Ok k /\
     (kernels (states m') = kernels (states m) \/ kernels (states m') = kernels (states m) ++ [k])) \/
  (r = Raise (Failure "too many states") /\ nstates m = MAXSHORT /\ k.2 ∉ map snd (kernels (states m))).

Lemma get_state_ok m k X its : machine_ok m -> goto_state (X, its) -> kernel k X = Ok its ->
  entered m (X, its) (get_state g m k X).
Proof.
  intros Hm Hg Ek. unfold get_state. rewrite Ek. cbn [rbind]. destruct its as [|key its]; [by destruct (gs_some _ Hg)|].
  change (rd (key :: its) 0) with (Ok key). cbn [rbind].
  assert (Hkey : 1 <= key < nitems g) by (destruct (gs_items _ Hg) as [_ [H _]%Forall_cons]; exact H).
  destruct (Z.leb_spec 0 key); [|lia]. destruct (Z.ltb_spec key (nitems g)); [|lia]. cbn [andb negb].
  destruct (mk_chains _ Hm key ltac:(lia)) as (o & l & Eo & Hc & Hn & Hl). rewrite Eo. cbn [rbind].
  destruct m as [ss set]. pose proof (mk_count _ Hm) as Cm. unfold nstates in *. cbn [states state_set] in *.
  destruct o as [n|].
  - assert (Hlen : (length l < S (length ss))%nat).
    { assert (zlen l <= Z.max 0 (zlen ss - 0)); [|unfold zlen in *; lia]. apply nodup_length; [done|].
      apply Forall_forall. intros q (? & X' & its' & E%rd_range)%Hl. rewrite zlen_kernels in E. lia. }
    destruct (find_state_ok ss set X (key :: its) _ l Hc n _ eq_refl Hn Hlen) as [(c & q & Hq & Eq & Ei & ->)|[Hno H']].
    + left. exists (Machine ss set), q. pose proof (proj1 (Hl q) Hq) as (Hq1 & _). split_and!; [done|done|done| |by left].
      cbn [states]. destruct c as [lk X' its']. cbn in Ei. subst its'.
      assert (E' : rd (kernels ss) q = Ok (X', key :: its)) by (apply rd_kernels; by exists lk). rewrite E'.
      pose proof (gs_after _ (mk_goto (Machine ss set) _ _ Hm Hq1 E') key ltac:(by left)) as A1. pose proof (gs_after _ Hg key ltac:(by left)) as A2.
      cbn in A1, A2. congruence.
    + pose proof (mk_fresh (Machine ss set) _ _ _ _ Hm Hg Hl Hno) as Hf. destruct H' as [[H1 ->]|(H1 & ss' & -> & H2 & H3 & H4)].
      * right. split_and!; [done|unfold nstates; cbn [states]; lia|done].
      * left. exists (Machine ss' set), (zlen ss). cbn [states]. split_and!; [done| | |rewrite H2, <- zlen_kernels; apply rd_mid|by right].
        -- apply (machine_add (Machine ss set) ss' set X key its l (Some n)); try done. apply (mk_set _ Hm).
        -- exact (mk_start _ Hm).
  - inv Hc. assert (Hf : key :: its ∉ map snd (kernels ss)) by (apply (mk_fresh (Machine ss set) _ _ _ [] Hm Hg Hl); by intros ? ? ?%elem_of_nil).
    unfold new_state, nstates, fatal. cbn [states state_set]. destruct (Z.leb_spec MAXSHORT (zlen ss)) as [Hx|Hx]; [right; split_and!; [done|unfold nstates; cbn [states]; lia|done]|left].
    cbn [rbind state_set states]. pose proof (mk_set _ Hm) as Hz. cbn [state_set] in Hz. rewrite wr_in_range by lia. cbn [rbind].
    assert (EK : kernels (ss ++ [Core None X (key :: its)]) = kernels ss ++ [(X, key :: its)]) by (unfold kernels; by rewrite map_app).
    eexists _, _. cbn [states]. split_and!; [done| | |cbn [states]; rewrite EK, <- zlen_kernels; apply rd_mid|by right].
    + apply (machine_add (Machine ss set) _ _ X key its [] (Some (zlen ss))); try done.
      * by rewrite zlen_insert.
      * apply rd_insert_eq. lia.
      * econstructor; [apply rd_mid|constructor].
      * intros q _ Hq. cbn [states] in *. by rewrite rd_app_l.
      * intros key' Ne. unfold rd. destruct (Z.ltb_spec key' 0); [done|]. cbn [state_set]. by rewrite list_lookup_insert_ne by lia.
    + exact (mk_start _ Hm).
Qed.

(** ** The LR(0) automaton *)

(** the kernel of the items after [X] in the closure of [K] *)
Definition goto_kernel (K : list Z) (X : Z) (K' : list Z) : Prop :=
  StronglySorted Z.lt K' /\ K' <> [] /\
  forall j, j ∈ K' <-> exists i, in_closure g ps K i /\ rd (ritem (tab g)) i = Ok X /\ j = i + 1.

(** the kernels of the states, defined without their numbering *)
Inductive canonical : list Z -> Prop :=
  | canonical_start : canonical start_kernel
  | canonical_goto K X K' : canonical K -> 1 <= X -> goto_kernel K X K' -> canonical K'.

(** the successors of a kernel, in the order of their symbols *)
Definition successors (ks : list (Z * list Z)) (K : list Z) (row : list Z) : Prop :=
  exists symbols, StronglySorted Z.lt symbols /\ (forall X, X ∈ symbols <-> 1 <= X /\ exists K', goto_kernel K X K') /\
    Forall2 (fun X n => exists K', rd ks n = Ok (X, K') /\ goto_kernel K X K') symbols row.

(** the rules complete in the closure of a kernel *)
Definition completes (K : list Z) (rs : list Z) : Prop :=
  StronglySorted Z.lt rs /\ forall r, r ∈ rs <-> exists p, rule ps r p /\ in_closure g ps K (first_item ps r + zlen p.2).

Definition shifts_of (ss : list shifts) (s : Z) (row : list Z) : Prop :=
  match row with [] => s ∉ map shifts_number ss | _ => Shifts s row ∈ ss end.

Definition reductions_of (rs : list reductions) (s : Z) (row : list Z) : Prop :=
  match row with [] => s ∉ map reductions_number rs | _ => Reductions s row ∈ rs end.

(** the shifts and the reductions of the first [n] states *)
Record rows_to (ks : list (Z * list Z)) (n : Z) (ss : list shifts) (rs : list reductions) : Prop := {
  rt_shifts : StronglySorted Z.lt (map shifts_number ss) /\ Forall (fun s => 0 <= s < n) (map shifts_number ss);
  rt_reductions : StronglySorted Z.lt (map reductions_number rs) /\ Forall (fun s => 0 <= s < n) (map reductions_number rs);
  rt_row : forall s X K, s < n -> rd ks s = Ok (X, K) -> exists row reds, shifts_of ss s row /\ successors ks K row /\
    reductions_of rs s reds /\ completes K reds }.

Record lr0_automaton (cores : list core) (ss : list shifts) (rs : list reductions) : Prop := {
  la_count : zlen cores <= MAXSHORT;
  la_start : rd (kernels cores) 0 = Ok (0, start_kernel);
  la_distinct : NoDup (map snd (kernels cores));
  la_canonical : forall K, K ∈ map snd (kernels cores) <-> canonical K;
  la_rows : rows_to (kernels cores) (zlen cores) ss rs }.

Lemma goto_kernel_unique K X K1 K2 : goto_kernel K X K1 -> goto_kernel K X K2 -> K1 = K2.
Proof.
  intros (S1 & _ & H1) (S2 & _ & H2). apply sorted_ext; [done..|]. intros j. by rewrite H1, H2.
Qed.

(** [its] is the closure of [K], sorted *)
Definition closure_of (K its : list Z) : Prop := in_items its /\ forall i, i ∈ its <-> in_closure g ps K i.

Lemma goto_shifted K its X : closure_of K its -> 1 <= X -> shifted X its <> [] <-> goto_kernel K X (shifted X its).
Proof.
  intros [[Hs Hi] Hc] HX. split; [|by intros (_ & ? & _)]. intros Hne. split; [by apply shifted_sorted|]. split; [done|].
  intros j. rewrite elem_of_shifted. setoid_rewrite <- Hc. rewrite Forall_forall in Hi.
  split; intros (i & Hin & E & ->); exists i; (split; [done|]); (split; [|done]); specialize (Hi i Hin); cbn in Hi.
  - by rewrite rd_sym, E by lia.
  - rewrite rd_sym in E by lia. congruence.
Qed.

Lemma goto_some K its X K' : closure_of K its -> 1 <= X -> goto_kernel K X K' -> X < nsyms g /\ shifted X its <> [].
Proof.
  intros [[Hs Hi] Hc] HX (_ & Hne & H). destruct K' as [|j K']; [done|].
  destruct (proj1 (H j) ltac:(by left)) as (i & Hin & E & _). apply Hc in Hin. rewrite Forall_forall in Hi.
  specialize (Hi i Hin). cbn in Hi. rewrite rd_sym in E by lia. injection E as E. split; [rewrite <- E; by apply sym_range|].
  assert (Hj : i + 1 ∈ shifted X its) by (apply elem_of_shifted; by exists i). intros Q. rewrite Q in Hj. by apply elem_of_nil in Hj.
Qed.

(** an item before a symbol, an item at the end of its rule *)
Lemma item_cases i : 1 <= i < nitems g -> exists r p, rule ps r p /\
  (i = first_item ps r + zlen p.2 /\ sym i = - r \/ 0 <= sym i /\ i + 1 <= first_item ps r + zlen p.2).
Proof.
  intros Hi. destruct (item_rule g ps L i Hi) as (r & p & t & Hp & Ht & ->). exists r, p. split; [done|].
  destruct (decide (t = zlen p.2)) as [->|Ne].
  - left. split; [done|]. pose proof (rule_end g ps L _ _ Hp) as E. rewrite rd_sym in E by lia. congruence.
  - right. split; [|lia]. destruct (rd_in_range p.2 t) as [X E]; [lia|]. pose proof (rule_symbol_range g ps L _ _ _ _ Hp E) as HX.
    rewrite <- (rule_symbol g ps L _ _ _ Hp) in E by lia. rewrite rd_sym in E by lia. injection E as ->. lia.
Qed.

Lemma shifted_state its X : in_items its -> 1 <= X < nsyms g -> shifted X its <> [] -> goto_state (X, shifted X its).
Proof.
  intros [Hs Hi] HX Hne. constructor; cbn [fst snd]; [done| |done|].
  - split; [by apply shifted_sorted|]. apply Forall_forall. intros j (i & Hin & E & ->)%elem_of_shifted.
    rewrite Forall_forall in Hi. specialize (Hi i Hin). cbn in Hi.
    destruct (item_cases i Hi) as (r & p & Hp & [[_ E']|[_ H]]); pose proof (rule_bounds g ps L _ _ Hp); lia.
  - intros j (i & Hin & E & ->)%elem_of_shifted. by replace (i + 1 - 1) with i by lia.
Qed.

(** more kernels than a [short] can number *)
Definition too_many (P : list Z -> Prop) : Prop := exists ks, NoDup ks /\ zlen ks = MAXSHORT + 1 /\ Forall P ks.

Lemma zlen_kernels_snd m : zlen (map snd (kernels (states m))) = nstates m.
Proof. unfold nstates. by rewrite zlen_map, zlen_kernels. Qed.

Lemma s16_state m n k : machine_ok m -> rd (kernels (states m)) n = Ok k -> s16 n = n.
Proof. intros Hm E%rd_range. pose proof (mk_count _ Hm). rewrite zlen_kernels in E. unfold nstates in *. apply s16_short; lia. Qed.

(** the successors of a state whose closure is [its] *)
Lemma get_states_ok its k sc symbols : in_items its -> laid its k sc ->
  Forall (fun X => 1 <= X < nsyms g /\ shifted X its <> []) symbols -> forall m row, machine_ok m ->
  zlen row + zlen symbols <= nsyms g ->
  (exists m' row' new, get_states g m k symbols row = Ok (m', row ++ row') /\ machine_ok m' /\
     kernels (states m') = kernels (states m) ++ new /\ Forall (fun kn => kn.1 ∈ symbols /\ kn.2 = shifted kn.1 its) new /\
     Forall2 (fun X n => rd (kernels (states m')) n = Ok (X, shifted X its)) symbols row') \/
  (get_states g m k symbols row = Raise (Failure "too many states") /\
     too_many (fun K => K ∈ map snd (kernels (states m)) \/ exists X, X ∈ symbols /\ K = shifted X its)).
Proof.
  intros Hin Hl. induction 1 as [|X symbols [HX Hne] Hsy IH]; intros m row Hm Hr; cbn [get_states].
  - left. exists m, [], []. rewrite !app_nil_r. split_and!; [done..|constructor].
  - rewrite zlen_cons in Hr. pose proof (zlen_nonneg symbols).
    pose proof (shifted_state its X Hin HX Hne) as Hg. pose proof (kernel_ok its k sc X Hin Hl HX Hne) as Ek.
    destruct (get_state_ok m k X _ Hm Hg Ek) as [(m1 & n & -> & Hm1 & Hn & En & Ek1)|(-> & Hc & Hf)]; cbn [rbind].
    + destruct (Z.ltb_spec (zlen row) (nsyms g)); [|lia]. rewrite (s16_state m1 n _ Hm1 En).
      assert (exists new, kernels (states m1) = kernels (states m) ++ new /\ Forall (fun kn => kn = (X, shifted X its)) new) as (n1 & E1 & F1).
      { destruct Ek1 as [E1|E1]; [exists []; by rewrite app_nil_r|]. eexists. split; [exact E1|by repeat constructor]. }
      destruct (IH m1 (row ++ [n]) Hm1) as [(m' & row' & new & -> & Hm' & E2 & F2 & Hrow)|[-> (Ks & H1 & H2 & H3)]]; [rewrite zlen_snoc; lia|left|right].
      * exists m', (n :: row'), (n1 ++ new). rewrite <- app_assoc. split_and!; [done|done| | |].
        -- by rewrite E2, E1, app_assoc.
        -- apply Forall_app. split; [eapply Forall_impl; [exact F1|]; intros kn ->; split; [by left|done]|].
           eapply Forall_impl; [exact F2|]. intros kn [? ?]. split; [by right|done].
        -- constructor; [|done]. rewrite E2. by apply rd_grown.
      * split; [done|]. exists Ks. split_and!; [done|done|]. eapply Forall_impl; [exact H3|]. cbn.
        intros K [HK|(Y & HY & ->)]; [|right; exists Y; split; [by right|done]].
        rewrite E1, map_app in HK. apply elem_of_app in HK as [?|HK]; [by left|right].
        apply list_elem_of_fmap in HK as (kn & -> & Hkn). rewrite Forall_forall in F1. rewrite (F1 _ Hkn). exists X. split; [by left|done].
    + right. split; [done|]. exists (shifted X its :: map snd (kernels (states m))). split_and!.
      * constructor; [done|apply (mk_distinct _ Hm)].
      * rewrite zlen_cons, zlen_kernels_snd. lia.
      * constructor; [right; exists X; split; [by left|done]|]. apply Forall_forall. intros K HK. by left.
Qed.

Lemma append_states_ok its k sc m : in_items its -> laid its k sc -> machine_ok m ->
  (exists m' k' row symbols new, append_states g m k sc = Ok (m', k', row) /\ machine_ok m' /\ cleared k' /\
     kernels (states m') = kernels (states m) ++ new /\
     Forall (fun kn => 1 <= kn.1 < nsyms g /\ shifted kn.1 its <> [] /\ kn.2 = shifted kn.1 its) new /\
     zlen row = sc /\ StronglySorted Z.lt symbols /\ (forall X, X ∈ symbols <-> 1 <= X < nsyms g /\ shifted X its <> []) /\
     Forall2 (fun X n => rd (kernels (states m')) n = Ok (X, shifted X its)) symbols row) \/
  (append_states g m k sc = Raise (Failure "too many states") /\
     too_many (fun K => K ∈ map snd (kernels (states m)) \/ exists X, 1 <= X < nsyms g /\ shifted X its <> [] /\ K = shifted X its)).
Proof.
  intros Hin Hl Hm. pose proof Hl as [Hb [He _] [Hi _] (seen & rest & Ess & Hsc & Hz & Hnd & Hseen)].
  unfold append_states. rewrite Ess, <- Hsc. destruct (sort_symbols_ok seen rest Hnd) as (syms & -> & Hp & Hs). cbn [rbind].
  assert (Esc : zlen seen = zlen syms) by (unfold zlen; by rewrite Hp).
  assert (Hsyms : forall X, X ∈ syms <-> 1 <= X < nsyms g /\ shifted X its <> []) by (intros X; by rewrite Hp).
  assert (Er : read_items (Z.to_nat (zlen syms)) (syms ++ rest) 0 = Ok syms).
  { unfold zlen. rewrite Nat2Z.id. apply read_items_ok. intros t Ht. by rewrite Z.add_0_l, rd_app_l by lia. }
  rewrite Esc, Er. cbn [rbind].
  destruct (get_states_ok its k sc syms Hin Hl) with (m := m) (row := @nil Z) as [(m' & row & new & -> & Hm' & E & F & Hrow)|[-> H]]; [|done| | |].
  - apply Forall_forall. intros X. by rewrite Hsyms.
  - rewrite zlen_nil. pose proof (zlen_app seen rest) as Q. rewrite <- Ess in Q. pose proof (zlen_nonneg rest). lia.
  - left. cbn [rbind app]. do 2 eexists. exists row, syms, new. split; [done|]. split; [done|]. split; [|split_and!; try done].
    + constructor; cbn [kernel_base kernel_end kernel_items shift_symbol]; [done..|].
      rewrite <- Hz, Ess, !zlen_app. lia.
    + eapply Forall_impl; [exact F|]. intros kn [H1 H2]. apply Hsyms in H1 as [? ?]. done.
    + unfold zlen. by rewrite (Forall2_length _ _ _ Hrow).
  - right. cbn [rbind]. split; [done|]. destruct H as (Ks & H1 & H2 & H3). exists Ks. split_and!; [done|done|].
    eapply Forall_impl; [exact H3|]. cbn. intros K [?|(X & HX & ->)]; [by left|right]. apply Hsyms in HX as [? ?]. by exists X.
Qed.

(** the rules complete in a set of items *)
Fixpoint complete (l : list Z) : list Z :=
  match l with [] => [] | i :: l => if sym i <? 0 then - sym i :: complete l else complete l end.

Lemma elem_of_complete l r : in_items l -> r ∈ complete l <-> exists p, rule ps r p /\ first_item ps r + zlen p.2 ∈ l.
Proof.
  intros [_ Hi]. induction Hi as [|i l Hi Hl IH]; cbn [complete].
  - split; [by intros ?%elem_of_nil|]. by intros (? & _ & ?%elem_of_nil).
  - destruct (item_cases i Hi) as (r' & p' & Hp' & [[Ei Es]|[H0 Hle]]).
    + pose proof (rule_bounds g ps L _ _ Hp'). destruct (Z.ltb_spec (sym i) 0); [|lia]. rewrite elem_of_cons, IH, Es, Z.opp_involutive.
      split; [intros [->|(p & Hp & Hin)]; [exists p'; rewrite Ei; split; [done|by left]|exists p; split; [done|by right]]|].
      intros (p & Hp & [E|Hin]%elem_of_cons); [left|right; by exists p]. pose proof (zlen_nonneg p.2). pose proof (zlen_nonneg p'.2).
      destruct (Z.lt_trichotomy r r') as [Hlr|[Hlr|Hlr]]; [|done|].
      * pose proof (first_item_lt ps _ _ _ _ Hp Hp' Hlr). lia.
      * pose proof (first_item_lt ps _ _ _ _ Hp' Hp Hlr). lia.
    + destruct (Z.ltb_spec (sym i) 0); [lia|]. rewrite IH. split; intros (p & Hp & Hin); exists p; (split; [done|]); [by right|].
      apply elem_of_cons in Hin as [E|Hin]; [|done]. pose proof (rule_end g ps L _ _ Hp) as Q.
      pose proof (rule_bounds g ps L _ _ Hp). rewrite E, rd_sym in Q by lia. injection Q as Q. lia.
Qed.

Lemma complete_sorted l : in_items l -> StronglySorted Z.lt (complete l).
Proof.
  intros [Hs Hi]. induction Hs as [|i l Hs IH Hlt]; [constructor|]. apply Forall_cons in Hi as [Hi Hl]. cbn [complete].
  destruct (Z.ltb_spec (sym i) 0); [|by apply IH]. constructor; [by apply IH|]. apply Forall_forall. intros r' Hr'.
  apply elem_of_complete in Hr' as (p' & Hp' & Hin); [|done]. rewrite Forall_forall in Hlt. specialize (Hlt _ Hin).
  destruct (item_cases i Hi) as (r & p & Hp & [[Ei Es]|[H0 _]]); [|lia]. rewrite Es, Z.opp_involutive.
  pose proof (zlen_nonneg p'.2). pose proof (zlen_nonneg p.2). destruct (Z.lt_trichotomy r r') as [Hlr|[Hlr|Hlr]]; [done| |].
  - subst r'. destruct Hp as [_ Hp], Hp' as [_ Hp']. rewrite Hp in Hp'. injection Hp' as <-. lia.
  - pose proof (first_item_lt ps _ _ _ _ Hp' Hp Hlr). lia.
Qed.

Lemma complete_rules_ok l : forall redset, Forall (fun i => 1 <= i < nitems g) l -> zlen redset + zlen (complete l) <= nrules g + 1 ->
  complete_rules g l redset = Ok (redset ++ complete l).
Proof.
  induction l as [|i l IH]; intros redset Hi Hz; cbn [complete_rules complete] in *; [by rewrite app_nil_r|].
  apply Forall_cons in Hi as [Hi Hl]. rewrite rd_sym by lia. cbn [rbind]. destruct (sym i <? 0); [|by apply IH].
  rewrite zlen_cons in Hz. pose proof (zlen_nonneg (complete l)). destruct (Z.ltb_spec (zlen redset) (nrules g + 1)); [|lia].
  rewrite IH; [by rewrite <- app_assoc|done|]. rewrite zlen_snoc. lia.
Qed.

Definition with_reductions (n : Z) (row : list Z) (rs : list reductions) : list reductions :=
  match row with [] => rs | _ => rs ++ [Reductions n row] end.

Lemma save_reductions_ok s l rs : in_items l ->
  save_reductions g s l rs = Ok (with_reductions s (complete l) rs).
Proof.
  intros Hl. unfold save_reductions. rewrite complete_rules_ok; [|by destruct Hl|].
  - cbn [rbind app]. destruct (complete l) as [|r reds]; [done|]. rewrite zlen_cons. pose proof (zlen_nonneg reds).
    by destruct (Z.eqb_spec (1 + zlen reds) 0); [lia|].
  - rewrite zlen_nil. pose proof (complete_sorted l Hl) as Hs%NoDup_sorted.
    assert (Hr : Forall (fun r => 2 <= r < nrules g) (complete l)).
    { apply Forall_forall. intros r (p & Hp & _)%elem_of_complete; [|done]. pose proof (rule_bounds g ps L _ _ Hp). lia. }
    pose proof (nodup_length _ _ _ Hs Hr). rewrite (lo_nrules _ _ L) in *. pose proof (zlen_nonneg ps). lia.
Qed.

(** ** The rows of the states *)

Lemma successors_grown ks new K row : successors ks K row -> successors (ks ++ new) K row.
Proof.
  intros (syms & H1 & H2 & H3). exists syms. split_and!; [done|done|]. eapply Forall2_impl; [exact H3|].
  intros X n (K' & E & Hg). exists K'. split; [by apply rd_grown|done].
Qed.

Definition with_shifts (n : Z) (row : list Z) (ss : list shifts) : list shifts :=
  match row with [] => ss | _ => ss ++ [Shifts n row] end.

Lemma numbers_snoc (l : list Z) n : 0 <= n -> StronglySorted Z.lt l /\ Forall (fun s => 0 <= s < n) l ->
  StronglySorted Z.lt (l ++ [n]) /\ Forall (fun s => 0 <= s < n + 1) (l ++ [n]).
Proof.
  intros Hn [Hs Hl]. split.
  - apply sorted_app; [done|repeat constructor|]. intros x y Hx ->%list_elem_of_singleton. rewrite Forall_forall in Hl. by apply Hl.
  - apply Forall_app. split; [eapply Forall_impl; [exact Hl|]; cbn; lia|repeat constructor; lia].
Qed.

Lemma numbers_same (l : list Z) n : StronglySorted Z.lt l /\ Forall (fun s => 0 <= s < n) l ->
  StronglySorted Z.lt l /\ Forall (fun s => 0 <= s < n + 1) l.
Proof. intros [Hs Hl]. split; [done|]. eapply Forall_impl; [exact Hl|]. cbn. lia. Qed.

Lemma shifts_of_new n row ss : Forall (fun s => 0 <= s < n) (map shifts_number ss) -> shifts_of (with_shifts n row ss) n row.
Proof.
  intros H. destruct row; cbn; [|apply elem_of_app; right; by left]. intros Hn. rewrite Forall_forall in H. specialize (H _ Hn). lia.
Qed.

Lemma shifts_of_old n row ss s row' : s <> n -> shifts_of ss s row' -> shifts_of (with_shifts n row ss) s row'.
Proof.
  intros Ne. destruct row; [done|]. destruct row'; cbn; [|intros H; apply elem_of_app; by left].
  rewrite map_app, elem_of_app. cbn. rewrite list_elem_of_singleton. tauto.
Qed.

Lemma reductions_of_new n row rs : Forall (fun s => 0 <= s < n) (map reductions_number rs) -> reductions_of (with_reductions n row rs) n row.
Proof.
  intros H. destruct row; cbn; [|apply elem_of_app; right; by left]. intros Hn. rewrite Forall_forall in H. specialize (H _ Hn). lia.
Qed.

Lemma reductions_of_old n row rs s row' : s <> n -> reductions_of rs s row' -> reductions_of (with_reductions n row rs) s row'.
Proof.
  intros Ne. destruct row; [done|]. destruct row'; cbn; [|intros H; apply elem_of_app; by left].
  rewrite map_app, elem_of_app. cbn. rewrite list_elem_of_singleton. tauto.
Qed.

Lemma rows_next ks new n ss rs X K row reds : rows_to ks n ss rs -> rd ks n = Ok (X, K) -> 0 <= n <= zlen ks ->
  successors (ks ++ new) K row -> completes K reds ->
  rows_to (ks ++ new) (n + 1) (with_shifts n row ss) (with_reductions n reds rs).
Proof.
  intros [Hs Hr Hrow] E Hn Hsu Hc. constructor.
  - destruct row; [by apply numbers_same|]. cbn. rewrite map_app. by apply numbers_snoc; [lia|].
  - destruct reds; [by apply numbers_same|]. cbn. rewrite map_app. by apply numbers_snoc; [lia|].
  - intros s X' K' Hlt E'. destruct (decide (s = n)) as [->|Ne].
    + rewrite (rd_grown _ new _ _ E) in E'. injection E' as <- <-. exists row, reds.
      split_and!; [apply shifts_of_new, Hs|done|apply reductions_of_new, Hr|done].
    + rewrite rd_app_l in E' by lia. destruct (Hrow s X' K') as (row' & reds' & H1 & H2 & H3 & H4); [lia|done|]. exists row', reds'.
      split_and!; [by apply shifts_of_old|by apply successors_grown|by apply reductions_of_old|done].
Qed.

(** when the rows of all the states are known, the states are the canonical ones *)
Lemma rows_canonical m ss rs : machine_ok m -> Forall canonical (map snd (kernels (states m))) ->
  rows_to (kernels (states m)) (nstates m) ss rs -> lr0_automaton (states m) ss rs.
Proof.
  intros Hm Hc Hr. destruct (mk_kernels _ Hm) as (ks & Ek & _). constructor; [apply (mk_count _ Hm)|by rewrite Ek|apply (mk_distinct _ Hm)| |done].
  intros K. split; [by rewrite Forall_forall in Hc; apply Hc|]. induction 1 as [|K X K' _ IH HX Hg].
  - apply elem_of_kernels. exists 0, 0. by rewrite Ek.
  - apply elem_of_kernels in IH as (n & Y & E). apply rd_range in E as R. rewrite zlen_kernels in R.
    destruct (rt_row _ _ _ _ Hr n Y K) as (row & _ & _ & (syms & _ & Hsy & Hrow) & _); [unfold nstates; lia|done|].
    assert (HXs : X ∈ syms) by (apply Hsy; split; [done|by exists K']). apply list_elem_of_lookup in HXs as [i Ei].
    destruct (Forall2_lookup_l _ _ _ _ _ Hrow Ei) as (n' & _ & K2 & E2 & Hg2).
    rewrite (goto_kernel_unique _ _ _ _ Hg Hg2). apply elem_of_kernels. by exists n', X.
Qed.

Lemma closure_successors ks K its symbols row : closure_of K its -> StronglySorted Z.lt symbols ->
  (forall X, X ∈ symbols <-> 1 <= X < nsyms g /\ shifted X its <> []) ->
  Forall2 (fun X n => rd ks n = Ok (X, shifted X its)) symbols row -> successors ks K row.
Proof.
  intros Hcl Hs Hsy Hrow. exists symbols. split_and!; [done| |].
  - intros X. rewrite Hsy. split.
    + intros [? Hne]. split; [lia|]. exists (shifted X its). by apply (goto_shifted K); [|lia|].
    + intros [? (K' & Hg)]. destruct (goto_some K its X K' Hcl ltac:(done) Hg). split; [lia|done].
  - apply Forall2_same_length_lookup_2; [by eapply Forall2_length|]. intros i X n EX En.
    exists (shifted X its). split; [by eapply Forall2_lookup_lr in Hrow|].
    assert (HX : X ∈ symbols) by (by eapply list_elem_of_lookup_2). apply Hsy in HX as [? Hne]. by apply goto_shifted; [|lia|].
Qed.

Lemma closure_completes K its : closure_of K its -> completes K (complete its).
Proof.
  intros [Hin Hc]. split; [by apply complete_sorted|]. intros r. rewrite elem_of_complete by done. by setoid_rewrite Hc.
Qed.

(** the result of the generation *)
Definition generated (r : result (list core * list shifts * list reductions)) : Prop :=
  (exists cores ss rs, r = Ok (cores, ss, rs) /\ lr0_automaton cores ss rs) \/
  (r = Raise (Failure "too many states") /\ too_many canonical).

Lemma generate_loop_ok fd : first_sets g ps fd -> forall fuel m k s ss rs, machine_ok m -> cleared k -> 0 <= s <= nstates m ->
  Forall canonical (map snd (kernels (states m))) -> rows_to (kernels (states m)) s ss rs -> MAXSHORT - s < Z.of_nat fuel ->
  generated (generate_loop fuel g fd m k s ss rs).
Proof.
  intros Hfd. induction fuel as [|fuel IH]; intros m k s ss rs Hm Hk Hs Hc Hr Hf; pose proof (mk_count _ Hm) as Hmc; [lia|].
  cbn [generate_loop]. destruct (Z.leb_spec (nstates m) s) as [H1|H1].
  { left. do 3 eexists. split; [done|]. apply rows_canonical; [done..|]. by replace (nstates m) with s by lia. }
  unfold nstates in H1. destruct (rd_in_range (states m) s) as [[lk X K] E]; [lia|]. rewrite E. cbn [rbind items].
  assert (EK : rd (kernels (states m)) s = Ok (X, K)) by (apply rd_kernels; by exists lk).
  assert (HK : in_items K).
  { destruct (decide (s = 0)) as [->|]; [|by apply (gs_items _ (mk_goto m s _ Hm ltac:(lia) EK))].
    destruct (mk_kernels _ Hm) as (ks & Q & _). rewrite Q in EK. injection EK as _ <-. apply start_kernel_ok. }
  assert (CK : canonical K). { rewrite Forall_forall in Hc. apply Hc. apply elem_of_kernels. by exists s, X. }
  destruct (closure_ok g ps L fd K Hfd (proj1 HK) (proj2 HK)) as (its & -> & Hits1 & Hits2 & Hits3). cbn [rbind].
  assert (Hcl : closure_of K its) by done. pose proof (conj Hits1 Hits2 : in_items its) as Hin.
  rewrite save_reductions_ok by done. cbn [rbind].
  destruct (new_itemsets_ok k its Hk Hin) as (k1 & sc & -> & Hl). cbn [rbind].
  assert (Hgo : forall Y, 1 <= Y < nsyms g -> shifted Y its <> [] -> canonical (shifted Y its)).
  { intros Y HY Hne. apply (canonical_goto K Y); [done|lia|]. by apply goto_shifted; [|lia|]. }
  destruct (append_states_ok its k1 sc m Hin Hl Hm) as
    [(m' & k' & row & syms & new & -> & Hm' & Hk' & Ek & Hnew & Hz & Hss & Hsy & Hrow)|[-> (Ks & T1 & T2 & T3)]]; cbn [rbind].
  - assert (Erow : (if 0 <? sc then save_shifts s row ss else ss) = with_shifts s row ss).
    { rewrite <- Hz. destruct row as [|x row]; [done|]. rewrite zlen_cons. pose proof (zlen_nonneg row). by destruct (Z.ltb_spec 0 (1 + zlen row)); [|lia]. }
    rewrite Erow. pose proof (zlen_kernels_snd m) as Z1. pose proof (zlen_kernels_snd m') as Z2. rewrite Ek, map_app, zlen_app in Z2.
    pose proof (zlen_nonneg (map snd new)). unfold nstates in Z1. apply IH; [done|done|lia| | |lia].
    + rewrite Ek, map_app. apply Forall_app. split; [done|]. apply Forall_map. eapply Forall_impl; [exact Hnew|].
      intros kn (? & ? & ->). by apply Hgo.
    + rewrite Ek in *. eapply rows_next; [done|exact EK|rewrite zlen_kernels; lia| |by apply closure_completes].
      by eapply closure_successors.
  - right. split; [done|]. exists Ks. split_and!; [done..|]. eapply Forall_impl; [exact T3|]. cbn.
    rewrite Forall_forall in Hc. intros K' [?|(Y & ? & ? & ->)]; [by apply Hc|by apply Hgo].
Qed.

Lemma start_items_ok rs : Forall (fun r => 2 <= r < nrules g) rs -> start_items g rs = Ok (map (first_item ps) rs).
Proof.
  induction 1 as [|r rs Hr _ IH]; [done|]. cbn [start_items map]. destruct (rule_range g ps L r Hr) as [p Hp].
  rewrite (rule_start g ps L r p Hp). cbn [rbind]. by rewrite IH.
Qed.

Lemma initialize_states_ok d : rows_done g (Z.to_nat (nvars g)) d -> exists m, initialize_states g d = Ok m /\ machine_ok m /\
  nstates m = 1 /\ kernels (states m) = [(0, start_kernel)].
Proof.
  intros Hd. unfold initialize_states. rewrite (rules_of_ok g ps L d _ Hd) by (pose proof (lo_start _ _ L); lia). cbn [rbind].
  rewrite start_items_ok by (apply (rules_for_positive g ps L); lia). cbn [rbind]. eexists. split; [done|]. split; [|done].
  assert (Hn : 1 <= nitems g) by (rewrite (lo_nitems _ _ L), (lo_ritem _ _ L), zlen_cons; pose proof (zlen_nonneg (items_from 2 ps)); lia).
  constructor; cbn [states state_set].
  - unfold nstates. done.
  - rewrite zlen_replicate. lia.
  - exists []. split; [done|constructor].
  - apply NoDup_singleton.
  - intros key Hkey. exists None, []. split_and!; [|constructor|constructor|].
    + apply rd_Ok. split; [lia|]. apply lookup_replicate. split; [done|lia].
    + intros n. split; [by intros ?%elem_of_nil|]. intros (H1 & X & its & E%rd_range). unfold zlen in E. cbn in E. lia.
Qed.

Lemma lr0_ok :
  nvars g mod 32 <> 0 ->
  (exists nullable cores ss rs, lr0 g = Ok (nullable, (cores, ss, rs)) /\ lr0_automaton cores ss rs /\
     zlen nullable = nsyms g /\ forall X, 0 <= X < nsyms g -> rd nullable X = Ok true <-> derives_empty ps X) \/
  (lr0 g = Raise (Failure "too many states") /\ too_many canonical).
Proof.
  intros Hn. destruct (first_sets_ok g ps L Hn) as (d & fd & Ed & Hd & Ef & Hfd).
  destruct (set_nullable_marks g ps L) as (nu & Enu & Znu & Hnu).
  destruct allocated_cleared as (k & Ek & Hk). destruct (initialize_states_ok d Hd) as (m & Em & Hm & Hm1 & Hm2).
  unfold lr0, generate_states. rewrite Ed, Enu. cbn [rbind]. rewrite Ek, Ef, Em. cbn [rbind].
  destruct (generate_loop_ok fd Hfd (S (Z.to_nat MAXSHORT)) m k 0 [] []) as [(cores & ss & rs & -> & H)|[-> H]]; cbn [rbind].
  - done.
  - done.
  - lia.
  - rewrite Hm2. repeat constructor.
  - constructor; [by split; constructor..|]. intros s X K Hs E%rd_range. lia.
  - lia.
  - left. by exists nu, cores, ss, rs.
  - by right.
Qed.

(** C16: The generation of the states ends: for any packed grammar whose number of variables is not
    a multiple of 32, either the result is the canonical LR(0) automaton, whose kernels
    are those reached from the items of the start symbol, each one once, with for each
    state its successors in the order of the symbols and the rules complete in its
    closure, and the nullable symbols are those that derive the empty string; or there are
    more canonical kernels than states that a [short] numbers, and the generator stops with
    an error. *)
Theorem lr0_correct :
  nvars g mod 32 <> 0 ->
  (exists nullable cores ss rs, lr0 g = Ok (nullable, (cores, ss, rs)) /\ lr0_automaton cores ss rs /\
     zlen nullable = nsyms g /\ forall X, 0 <= X < nsyms g -> rd nullable X = Ok true <-> derives_empty ps X) \/
  (lr0 g = Raise (Failure "too many states") /\ too_many canonical).
Proof. exact lr0_ok. Qed.

End Lr0.

Lemma lr0_witness :
  (exists nullable cores ss rs, lr0 demo_grammar = Ok (nullable, (cores, ss, rs)) /\
     lr0_automaton demo_grammar demo_productions cores ss rs /\
     zlen nullable = 6 /\ forall X, 0 <= X < 6 -> rd nullable X = Ok true <-> derives_empty demo_productions X) \/
  (lr0 demo_grammar = Raise (Failure "too many states") /\ too_many (canonical demo_grammar demo_productions)).
Proof. exact (lr0_correct demo_grammar demo_productions demo_lays_out ltac:(discriminate)). Defined.

Example demo_automaton :
  lr0 demo_grammar = Ok ([false; false; false; false; true; true],
    ([Core None 0 [1]; Core None 2 [6]; Core None 4 [2]; Core None 5 [9]; Core None 5 [7]],
     [Shifts 0 [1; 2; 3]; Shifts 1 [1; 4]],
     [Reductions 0 [3]; Reductions 1 [3]; Reductions 3 [5]; Reductions 4 [4]])).
Proof. vm_compute. reflexivity. Qed.
