(* ===== verification/Digraph.v ===== *)
(** * The sets of the gotos ([digraph] and [traverse] of [ocaml/yacc/lalr.c])

    [F] is a matrix with a row of bits for each vertex of a graph.  [digraph] adds to the
    row of each vertex the rows of the vertices that it reaches, in one depth-first
    traversal: the vertices of a cycle are on the stack [VERTICES] until the traversal
    leaves the first of them, which then gives them its row.  [INDEX] holds 0 before the
    visit of a vertex, [infinity] when its row is final, and in between a position of the
    stack that it reaches.

    A relation is an array of lists of vertices, absent or ended with -1: here an
    [option] of the list before the -1. *)

From S2P Require Import Prelude.
From S2P Require Import Warshall.
From S2P Require Import Grammar.
From stdpp Require Import relations.
#[local] Open Scope Z_scope.

Record search := Search { INDEX : list Z; VERTICES : list Z; top : Z; F : list Z }.

(** while (fp1 < fp3) *fp2++ = *fp1++: the row at [base] is copied *)
Definition copy_row (f : list Z) (fp2 base tokensetsize : Z) : result (list Z) :=
  let* (f, _, _) :=
    while_loop (S (Z.to_nat tokensetsize))
      (fun '(_, fp1, _) => fp1 <? base + tokensetsize)
      (fun '(f, fp1, fp2) =>
         let* x := rd f fp1 in
         let* f := wr f fp2 x in
         Ok (f, fp1 + 1, fp2 + 1))
      (f, base, fp2) in
  Ok f.

(** the vertices above [i] leave the stack, and [i] *)
Fixpoint pop_vertices (fuel : nat) (tokensetsize infinity i : Z) (s : search) {struct fuel} : result search :=
  match fuel with
  | O => NoFuel
  | S fuel =>
      let* j := rd (VERTICES s) (top s) in
      let* ix := wr (INDEX s) j (s16 infinity) in
      if i =? j then Ok (Search ix (VERTICES s) (top s - 1) (F s)) else
      let* f := copy_row (F s) (tokensetsize * j) (i * tokensetsize) tokensetsize in
      pop_vertices fuel tokensetsize infinity i (Search ix (VERTICES s) (top s - 1) f)
  end.

(** the successors [rp] of [i], visited with [traverse] *)
Fixpoint visit_edges (traverse : Z -> search -> result search) (tokensetsize i : Z) (rp : list Z) (s : search) : result search :=
  match rp with
  | [] => Ok s
  | j :: rp =>
      let* n := rd (INDEX s) j in
      let* s := if n =? 0 then traverse j s else Ok s in
      let* m := rd (INDEX s) i in
      let* n := rd (INDEX s) j in
      let* ix := if n <? m then wr (INDEX s) i n else Ok (INDEX s) in
      let* (f, _) := or_row (F s) (i * tokensetsize) (j * tokensetsize) (i * tokensetsize + tokensetsize) in
      visit_edges traverse tokensetsize i rp (Search ix (VERTICES s) (top s) f)
  end.

Fixpoint traverse (fuel : nat) (tokensetsize infinity : Z) (R : list (option (list Z))) (i : Z) (s : search) {struct fuel}
    : result search :=
  match fuel with
  | O => NoFuel
  | S fuel =>
      let height := top s + 1 in
      let* vs := wr (VERTICES s) height (s16 i) in
      let* ix := wr (INDEX s) i (s16 height) in
      let s := Search ix vs height (F s) in
      let* e := rd R i in
      let* s :=
        match e with
        | Some rp => visit_edges (traverse fuel tokensetsize infinity R) tokensetsize i rp s
        | None => Ok s
        end in
      let* m := rd (INDEX s) i in
      if m =? height then pop_vertices (S (Z.to_nat (top s))) tokensetsize infinity i s else Ok s
  end.

(** a call is nested in at most one call for each vertex *)
Definition digraph (tokensetsize ngotos : Z) (relation : list (option (list Z))) (f : list Z) : result (list Z) :=
  let infinity := ngotos + 2 in
  let zeros := replicate (Z.to_nat (ngotos + 1)) 0 in
  let* s :=
    for_loop (Z.to_nat ngotos) 0
      (fun i s =>
         let* n := rd (INDEX s) i in
         let* e := rd relation i in
         match e with
         | Some _ => if n =? 0 then traverse (S (Z.to_nat ngotos)) tokensetsize infinity relation i s else Ok s
         | None => Ok s
         end)
      (Search zeros zeros 0 f) in
  Ok (F s).

(** a cycle 0 -> 1 -> 2 -> 1, and 3 -> 0 *)
Example digraph_cycle : digraph 1 4 [Some [1]; Some [2]; Some [1]; Some [0]] [1; 2; 4; 8] = Ok [7; 6; 6; 15].
Proof. reflexivity. Qed.

(** ** Rows *)

Lemma copy_row_spec f fp2 base rs : 0 <= rs -> 0 <= base -> base + rs <= zlen f -> 0 <= fp2 -> fp2 + rs <= zlen f ->
  (base + rs <= fp2 \/ fp2 + rs <= base) ->
  exists f', copy_row f fp2 base rs = Ok f' /\ zlen f' = zlen f /\
    forall p, 0 <= p -> zget f' p = if (fp2 <=? p) && (p <? fp2 + rs) then zget f (p - fp2 + base) else zget f p.
Proof.
  intros Hrs Hb Hb' Hf Hf' Hd. unfold copy_row.
  edestruct (while_loop_inv
    (fun '(f', fp1, fp) => exists t, 0 <= t <= rs /\ fp1 = base + t /\ fp = fp2 + t /\ zlen f' = zlen f /\
       forall p, 0 <= p -> zget f' p = if (fp2 <=? p) && (p <? fp2 + t) then zget f (p - fp2 + base) else zget f p)
    (fun '(_, fp1, _) => base + rs - fp1)) as ([[f' fp1] fp] & -> & Hinv & Hend); [..|cbn in *].
  - intros [[f' fp1] fp] (t & Ht & -> & _). lia.
  - intros [[f' fp1] fp] (t & Ht & -> & -> & Hz & Hg) Hc%Z.ltb_lt. rewrite rd_zget by lia. cbn [rbind].
    rewrite wr_in_range by lia. cbn [rbind]. eexists. split; [done|]. split; [|lia]. exists (t + 1). rewrite zlen_insert.
    split_and!; [lia|lia|lia|lia|lia|]. intros p Hp. rewrite zget_insert, !Hg by lia.
    destruct (Z.eqb_spec (fp2 + t) p) as [<-|Hne]; [replace (fp2 + t - fp2 + base) with (base + t) by lia|]; zcases.
  - exists 0. split_and!; [lia|lia|lia|lia|lia|]. intros p Hp. zcases.
  - lia.
  - destruct Hinv as (t & Ht & -> & -> & Hz & Hg). apply Z.ltb_ge in Hend. replace t with rs in * by lia. exists f'. done.
Qed.

Lemma or_row_entry f rs n i j : 0 <= rs -> 0 <= i < n -> 0 <= j < n -> zlen f = n * rs ->
  exists f', or_row f (i * rs) (j * rs) (i * rs + rs) = Ok (f', i * rs + rs) /\ zlen f' = zlen f /\
    forall v t, 0 <= v -> 0 <= t < 32 * rs -> entry f' rs v t = entry f rs v t || ((v =? i) && entry f rs j t).
Proof.
  intros Hrs Hi Hj Hz. destruct (or_row_spec f (i * rs) (j * rs) rs) as (f' & E & Hz' & Hg); [done|nia..| |].
  { destruct (rows_disjoint rs i j Hrs) as [?|[?|?]]; lia. }
  exists f'. split_and!; [done|done|]. intros v t Hv Ht. unfold entry. assert (Hw : 0 <= t / 32 < rs) by zlia. rewrite Hg by nia.
  destruct (Z.eqb_spec v i) as [->|Ne].
  - replace (i * rs + t / 32 - i * rs + j * rs) with (j * rs + t / 32) by lia.
    destruct (Z.leb_spec (i * rs) (i * rs + t / 32)); [|lia]. destruct (Z.ltb_spec (i * rs + t / 32) (i * rs + rs)); [|lia].
    cbn [andb]. by rewrite Z.lor_spec.
  - rewrite orb_false_r. pose proof (cell_row rs v i (t / 32) Hw).
    destruct (Z.leb_spec (i * rs) (v * rs + t / 32)); [|done]. destruct (Z.ltb_spec (v * rs + t / 32) (i * rs + rs)); [|done]. lia.
Qed.

Lemma copy_row_entry f rs n i j : 0 <= rs -> 0 <= i < n -> 0 <= j < n -> i <> j -> zlen f = n * rs ->
  exists f', copy_row f (rs * j) (i * rs) rs = Ok f' /\ zlen f' = zlen f /\
    forall v t, 0 <= v -> 0 <= t < 32 * rs -> entry f' rs v t = entry f rs (if v =? j then i else v) t.
Proof.
  intros Hrs Hi Hj Ne Hz. rewrite (Z.mul_comm rs j). destruct (copy_row_spec f (j * rs) (i * rs) rs) as (f' & E & Hz' & Hg); [done|nia..|].
  exists f'. split_and!; [done|done|]. intros v t Hv Ht. unfold entry. assert (Hw : 0 <= t / 32 < rs) by zlia. rewrite Hg by nia.
  destruct (Z.eqb_spec v j) as [->|Nv].
  - destruct (Z.leb_spec (j * rs) (j * rs + t / 32)); [|lia]. destruct (Z.ltb_spec (j * rs + t / 32) (j * rs + rs)); [|lia].
    cbn. do 2 f_equal. lia.
  - pose proof (cell_row rs v j (t / 32) Hw).
    destruct (Z.leb_spec (j * rs) (v * rs + t / 32)); [|done]. destruct (Z.ltb_spec (v * rs + t / 32) (j * rs + rs)); [|done]. lia.
Qed.

(** ** The invariant of the traversal *)

Section Digraph.
Context (n rs : Z) (R : list (option (list Z))) (F0 : list Z).

(** [j] is a successor of [i] *)
Definition edge (i j : Z) : Prop := exists l, rd R i = Ok (Some l) /\ j ∈ l.

Context (Hn : 0 <= n) (Hrs : 0 <= rs) (Hshort : n + 2 <= MAXSHORT) (HR : zlen R = n).
Context (Hedge : forall i j, edge i j -> 0 <= j < n) (HF0 : zlen F0 = n * rs).

Definition infty : Z := n + 2.
Definition idx (s : search) (v : Z) : Z := zget (INDEX s) v.
Definition vat (s : search) (p : Z) : Z := zget (VERTICES s) p.
Definition bit (s : search) (v t : Z) : Prop := entry (F s) rs v t = true.

Definition vertex (v : Z) : Prop := 0 <= v < n.
Definition token (t : Z) : Prop := 0 <= t < 32 * rs.

Definition row_le (s : search) (v w : Z) : Prop := forall t, token t -> bit s v t -> bit s w t.

Definition on_stack (s : search) (v p : Z) : Prop := 1 <= p <= top s /\ vat s p = v.

(** what is known of a successor [w] of [v] after its visit *)
Definition resolved (s : search) (v w : Z) : Prop :=
  (idx s w = infty /\ row_le s w v) \/ exists q, on_stack s w q /\ idx s v <= q.

(** [A]: the vertices whose visit is not over *)
Record inv (A : Z -> Prop) (s : search) : Prop := {
  iv_sizes : zlen (INDEX s) = n + 1 /\ zlen (VERTICES s) = n + 1 /\ zlen (F s) = n * rs /\ 0 <= top s <= n;
  iv_stack : forall p, 1 <= p <= top s -> vertex (vat s p) /\ 1 <= idx s (vat s p) <= p;
  iv_distinct : forall p q, 1 <= p <= top s -> 1 <= q <= top s -> vat s p = vat s q -> p = q;
  iv_cases : forall v, vertex v -> idx s v = 0 \/ idx s v = infty \/ exists p, on_stack s v p;
  iv_sound : forall v t, vertex v -> token t -> bit s v t -> exists u, rtc edge v u /\ entry F0 rs u t = true;
  iv_grows : forall v t, vertex v -> token t -> entry F0 rs v t = true -> bit s v t;
  iv_done : forall v w, vertex v -> idx s v = infty -> edge v w -> idx s w = infty /\ row_le s w v;
  iv_back : forall p, 1 <= p <= top s -> rtc edge (vat s p) (vat s (idx s (vat s p)));
  iv_pending : forall p v, on_stack s v p -> ~ A v -> idx s v < p /\ forall w, edge v w -> resolved s v w }.

(** only the vertices not visited yet change *)
Record extends (s s' : search) : Prop := {
  ex_top : top s <= top s';
  ex_stack : forall p, 1 <= p <= top s -> vat s' p = vat s p;
  ex_visited : forall v, vertex v -> idx s v <> 0 -> idx s' v = idx s v /\
    forall t, token t -> bit s' v t <-> bit s v t }.

Lemma extends_refl s : extends s s.
Proof. by constructor. Qed.

Lemma extends_trans s1 s2 s3 : extends s1 s2 -> extends s2 s3 -> extends s1 s3.
Proof.
  intros [T1 S1 V1] [T2 S2 V2]. constructor; [lia| |].
  - intros p Hp. rewrite S2, S1 by lia. done.
  - intros v Hv H0. destruct (V1 v Hv H0) as [E1 B1]. destruct (V2 v Hv) as [E2 B2]; [congruence|].
    split; [congruence|]. intros t Ht. rewrite B2, B1 by done. done.
Qed.

Lemma extends_on_stack s s' v p : extends s s' -> on_stack s v p -> on_stack s' v p.
Proof. intros [T S _] [Hp E]. split; [lia|]. by rewrite S. Qed.

Lemma extends_row_le s s' v w : extends s s' -> vertex v -> vertex w -> idx s v <> 0 -> idx s w <> 0 -> row_le s v w -> row_le s' v w.
Proof.
  intros [_ _ V] Hv Hw Nv Nw H t Ht B. apply (V w Hw Nw); [done|]. apply H; [done|]. by apply (V v Hv Nv).
Qed.

Lemma infty_pos : infty <> 0.
Proof. unfold infty. lia. Qed.

Lemma extends_resolved s s' v w : extends s s' -> vertex v -> vertex w -> idx s v <> 0 -> resolved s v w -> resolved s' v w.
Proof.
  intros E Hv Hw Nv [[Ei Hr]|(q & Hq & Hle)]; pose proof (ex_visited _ _ E v Hv Nv) as [Ev _].
  - left. assert (Nw : idx s w <> 0) by (rewrite Ei; apply infty_pos). split; [|by apply (extends_row_le s)].
    destruct (ex_visited _ _ E w Hw Nw) as [-> _]. done.
  - right. exists q. split; [by apply (extends_on_stack s)|lia].
Qed.

Lemma on_stack_idx A s v p : inv A s -> on_stack s v p -> vertex v /\ 1 <= idx s v <= p.
Proof. intros I [Hp <-]. by apply (iv_stack _ _ I). Qed.

(** the facts of a vertex whose visit was over before *)
Lemma extends_pending A s s' v p : inv A s -> extends s s' -> on_stack s v p -> ~ A v ->
  idx s' v < p /\ forall w, edge v w -> resolved s' v w.
Proof.
  intros I E Hs HA. destruct (iv_pending _ _ I p v Hs HA) as [Hlt Hw]. pose proof (on_stack_idx _ _ _ _ I Hs) as [Hv Hi].
  destruct (ex_visited _ _ E v Hv ltac:(lia)) as [Ev _]. split; [lia|]. intros w Hvw.
  apply (extends_resolved s); [done|done|by eapply Hedge|lia|by apply Hw].
Qed.

Lemma idx_done_stack A s v p : inv A s -> on_stack s v p -> idx s v <> infty.
Proof.
  intros I Hs. pose proof (on_stack_idx _ _ _ _ I Hs) as [_ Hi]. destruct Hs as [Hp _].
  destruct (iv_sizes _ _ I) as (_ & _ & _ & ?). unfold infty. lia.
Qed.

Lemma stack_room A s i : inv A s -> vertex i -> idx s i = 0 -> top s < n.
Proof.
  intros I Hi H0. destruct (iv_sizes _ _ I) as (_ & _ & _ & Ht).
  assert (Hl : NoDup (i :: map (vat s) (seqZ 1 (top s)))).
  { constructor.
    - intros (p & -> & Hp%elem_of_seqZ)%list_elem_of_fmap. pose proof (iv_stack _ _ I p ltac:(lia)). lia.
    - apply NoDup_fmap_2_strong; [|apply NoDup_seqZ]. intros p q Hp%elem_of_seqZ Hq%elem_of_seqZ. apply (iv_distinct _ _ I); lia. }
  assert (Hb : Forall (fun v => 0 <= v < n) (i :: map (vat s) (seqZ 1 (top s)))).
  { constructor; [done|]. apply Forall_map, Forall_forall. intros p Hp%elem_of_seqZ. apply (iv_stack _ _ I). lia. }
  pose proof (nodup_length _ _ _ Hl Hb) as Q. rewrite zlen_cons, zlen_map in Q. unfold zlen in Q. rewrite length_seqZ in Q. lia.
Qed.

Definition pushed (s : search) (i : Z) : search :=
  Search (<[Z.to_nat i := top s + 1]> (INDEX s)) (<[Z.to_nat (top s + 1) := i]> (VERTICES s)) (top s + 1) (F s).

Lemma pushed_idx s i v : zlen (INDEX s) = n + 1 -> vertex i -> vertex v -> idx (pushed s i) v = if i =? v then top s + 1 else idx s v.
Proof. unfold vertex. intros Hz Hi Hv. unfold idx, pushed. cbn [INDEX]. apply zget_insert; lia. Qed.

Lemma pushed_vat s i p : zlen (VERTICES s) = n + 1 -> 0 <= top s < n -> 0 <= p -> vat (pushed s i) p = if top s + 1 =? p then i else vat s p.
Proof. intros Hz Ht Hp. unfold vat, pushed. cbn [VERTICES]. apply zget_insert; lia. Qed.

Lemma pushed_ok A s i : inv A s -> vertex i -> idx s i = 0 ->
  inv (fun v => A v \/ v = i) (pushed s i) /\ extends s (pushed s i).
Proof.
  intros I Hi H0. pose proof (stack_room _ _ _ I Hi H0) as Room. destruct (iv_sizes _ _ I) as (S1 & S2 & S3 & S4).
  assert (Ix := fun v => pushed_idx s i v S1 Hi). assert (Vx := fun p => pushed_vat s i p S2 (conj (proj1 S4) Room)).
  assert (Ne : forall p, 1 <= p <= top s -> vat s p <> i).
  { intros p Hp E. pose proof (iv_stack _ _ I p Hp) as Q. rewrite E in Q. lia. }
  assert (X : extends s (pushed s i)).
  { constructor; [cbn; lia| |].
    - intros p Hp. rewrite Vx by lia. destruct (Z.eqb_spec (top s + 1) p); [lia|done].
    - intros v Hv Nv. rewrite Ix by done. destruct (Z.eqb_spec i v); [congruence|done]. }
  assert (Vn : forall p, 1 <= p <= top s + 1 -> vertex (vat (pushed s i) p) /\ 1 <= idx (pushed s i) (vat (pushed s i) p) <= p).
  { intros p Hp. rewrite Vx by lia. destruct (Z.eqb_spec (top s + 1) p) as [<-|].
    - rewrite Ix, Z.eqb_refl by done. split; [done|lia].
    - destruct (iv_stack _ _ I p) as [Hv ?]; [lia|]. rewrite Ix by done.
      destruct (Z.eqb_spec i (vat s p)) as [E|_]; [destruct (Ne p); [lia|done]|done]. }
  split; [|done]. constructor; cbn [top pushed].
  - cbn [INDEX VERTICES F pushed]. rewrite !zlen_insert. split_and!; try done; lia.
  - done.
  - intros p q Hp Hq. rewrite !Vx by lia. destruct (Z.eqb_spec (top s + 1) p) as [<-|], (Z.eqb_spec (top s + 1) q) as [<-|]; intros E.
    + done.
    + destruct (Ne q); [lia|done].
    + destruct (Ne p); [lia|done].
    + apply (iv_distinct _ _ I); [lia|lia|done].
  - intros v Hv. rewrite Ix by done. destruct (Z.eqb_spec i v) as [<-|].
    + right; right. exists (top s + 1). split; [cbn; lia|]. by rewrite Vx, Z.eqb_refl by lia.
    + destruct (iv_cases _ _ I v Hv) as [?|[?|(p & Hp)]]; [by left|by right; left|]. right; right. exists p. by apply (extends_on_stack s).
  - apply (iv_sound _ _ I).
  - apply (iv_grows _ _ I).
  - intros v w Hv Ev Hvw. pose proof (Hedge _ _ Hvw) as Hw. rewrite Ix in Ev |- * by done.
    destruct (Z.eqb_spec i v) as [<-|]; [unfold infty in Ev; lia|].
    destruct (iv_done _ _ I v w Hv Ev Hvw) as [Ew Hr]. destruct (Z.eqb_spec i w) as [<-|]; [pose proof infty_pos; congruence|done].
  - intros p Hp. rewrite (Vx p) by lia. destruct (Z.eqb_spec (top s + 1) p) as [<-|].
    + by rewrite Ix, Z.eqb_refl, Vx, Z.eqb_refl by (try done; lia).
    + destruct (iv_stack _ _ I p) as [Hv Hi']; [lia|]. rewrite Ix by done.
      destruct (Z.eqb_spec i (vat s p)) as [E|_]; [destruct (Ne p); [lia|done]|].
      rewrite Vx by lia. destruct (Z.eqb_spec (top s + 1) (idx s (vat s p))); [lia|]. apply (iv_back _ _ I). lia.
  - intros p v [Hp Ev] HA. cbn [top pushed] in Hp. rewrite Vx in Ev by lia. destruct (Z.eqb_spec (top s + 1) p) as [<-|]; [destruct HA; by right|].
    apply (extends_pending A s); [done|done|split; [lia|done]|tauto].
Qed.

(** the visit of [i], pushed on the stack of [s], after the successors that satisfy [P] *)
Record visiting (A : Z -> Prop) (s : search) (i : Z) (P : Z -> Prop) (Above : Z -> Prop) (s2 : search) : Prop := {
  vs_inv : inv (fun v => A v \/ v = i) s2;
  vs_extends : extends s s2;
  vs_at : on_stack s2 i (top s + 1);
  vs_above : forall p, top s + 1 < p <= top s2 ->
    (idx s2 i <= idx s2 (vat s2 p) /\ row_le s2 (vat s2 p) i) \/ Above (vat s2 p);
  vs_resolved : forall j, P j -> edge i j /\ resolved s2 i j }.

(** [traverse] on a vertex not visited *)
Definition visited (A : Z -> Prop) (s : search) (i : Z) (s' : search) : Prop :=
  inv A s' /\ extends s s' /\
  (idx s' i = infty /\ top s' = top s \/ exists p, on_stack s' i p /\ idx s' i <= top s) /\
  forall p, top s < p <= top s' -> idx s' i <= idx s' (vat s' p) /\ row_le s' (vat s' p) i.

Definition not_above (k : Z) : Prop := False.

Definition lowered (s : search) (i j : Z) (f : list Z) : search :=
  Search (if idx s j <? idx s i then <[Z.to_nat i := idx s j]> (INDEX s) else INDEX s) (VERTICES s) (top s) f.

Lemma lowered_idx s i j f v : zlen (INDEX s) = n + 1 -> vertex i -> vertex v ->
  idx (lowered s i j f) v = if i =? v then Z.min (idx s i) (idx s j) else idx s v.
Proof.
  unfold vertex. intros Hz Hi Hv. unfold idx at 1. unfold lowered. cbn [INDEX]. destruct (Z.ltb_spec (idx s j) (idx s i)).
  - rewrite zget_insert by lia. destruct (Z.eqb_spec i v); [lia|done].
  - destruct (Z.eqb_spec i v) as [<-|]; [|done]. fold (idx s i). lia.
Qed.

(** the row of [j] added to the row of [i] *)
Definition or_rows (s : search) (i j : Z) (f : list Z) : Prop :=
  zlen f = zlen (F s) /\ forall v t, 0 <= v -> token t ->
    entry f rs v t = entry (F s) rs v t || ((v =? i) && entry (F s) rs j t).

Lemma lowered_bit s i j f v t : or_rows s i j f -> vertex v -> token t ->
  bit (lowered s i j f) v t <-> bit s v t \/ (v = i /\ bit s j t).
Proof.
  intros [_ H] Hv Ht. unfold bit, lowered. cbn [F]. rewrite H by (done || apply Hv).
  rewrite orb_true_iff, andb_true_iff, Z.eqb_eq. done.
Qed.

Lemma lowered_row_le s i j f v w : or_rows s i j f -> vertex v -> vertex w -> v <> i -> row_le s v w -> row_le (lowered s i j f) v w.
Proof.
  intros Ho Hv Hw Ne H t Ht B. apply (lowered_bit s) in B as [B|[? _]]; [|done..]. apply (lowered_bit s); [done..|]. left. by apply H.
Qed.

Section Lower.
Context (A : Z -> Prop) (s0 : search) (i : Z) (P : Z -> Prop) (s : search) (j : Z) (f : list Z).
Context (Hi : vertex i) (H0 : idx s0 i = 0) (Hij : edge i j) (Nj : idx s j <> 0) (Ho : or_rows s i j f).
Context (V : visiting A s0 i P (fun k => idx s j <= idx s k /\ row_le s k j) s).

Lemma lower_new : 1 <= idx s i <= n /\ 1 <= idx s j /\ idx (lowered s i j f) i = Z.min (idx s i) (idx s j).
Proof.
  pose proof (vs_inv _ _ _ _ _ _ V) as I. pose proof (Hedge _ _ Hij) as Hj. destruct (iv_sizes _ _ I) as (S1 & _ & _ & S4).
  pose proof (on_stack_idx _ _ _ _ I (vs_at _ _ _ _ _ _ V)) as [_ Hii]. destruct (vs_at _ _ _ _ _ _ V) as [At1 _].
  split; [lia|]. split; [|by rewrite lowered_idx, Z.eqb_refl].
  destruct (iv_cases _ _ I j Hj) as [?|[E|(p & Hp)]]; [done|rewrite E; unfold infty; lia|].
  apply (on_stack_idx _ _ _ _ I) in Hp as [_ ?]. lia.
Qed.

Lemma lower_old v : vertex v -> v <> i -> idx (lowered s i j f) v = idx s v.
Proof.
  intros Hv Ne. destruct (iv_sizes _ _ (vs_inv _ _ _ _ _ _ V)) as (S1 & _). rewrite lowered_idx by done.
  destruct (Z.eqb_spec i v); [congruence|done].
Qed.

Lemma lower_not_done v : idx s v = infty -> v <> i.
Proof. intros Ev ->. pose proof lower_new. unfold infty in *. lia. Qed.

Lemma lower_resolved v w : vertex v -> edge v w -> v <> i -> resolved s v w -> resolved (lowered s i j f) v w.
Proof.
  intros Hv Hvw Ne [[Ew Hr]|(q & Hq & Hle)]; pose proof (Hedge _ _ Hvw) as Hw.
  - left. pose proof (lower_not_done w Ew). rewrite lower_old by done. split; [done|]. by apply lowered_row_le.
  - right. exists q. by rewrite lower_old.
Qed.

Lemma lower_inv : inv (fun v => A v \/ v = i) (lowered s i j f).
Proof.
  pose proof V as [I X At Ab Re]. pose proof (Hedge _ _ Hij) as Hj. destruct (iv_sizes _ _ I) as (S1 & S2 & S3 & S4).
  destruct lower_new as (Hii & Hj1 & Li). assert (Bx := fun v t => lowered_bit s i j f v t Ho).
  constructor; cbn [top lowered VERTICES].
  - cbn [INDEX F lowered]. destruct Ho as [Hz _]. rewrite Hz. split_and!; try done; try lia. destruct (_ <? _); [by rewrite zlen_insert|done].
  - intros p Hp. destruct (iv_stack _ _ I p Hp) as [Hv Hle]. change (vat (lowered s i j f) p) with (vat s p). split; [done|].
    destruct (decide (vat s p = i)) as [E|Ne]; [rewrite E in Hle |- *; lia|]. by rewrite lower_old.
  - apply (iv_distinct _ _ I).
  - intros v Hv. destruct (decide (v = i)) as [->|Ne]; [right; right; by exists (top s0 + 1)|]. rewrite lower_old by done. apply (iv_cases _ _ I v Hv).
  - intros v t Hv Ht [B|[-> B]]%Bx; [by apply (iv_sound _ _ I)| |done..]. destruct (iv_sound _ _ I j t Hj Ht B) as (u & Hu & Eu).
    exists u. split; [by eapply rtc_l|done].
  - intros v t Hv Ht B. apply Bx; [done..|]. left. by apply (iv_grows _ _ I).
  - intros v w Hv Ev Hvw. destruct (decide (v = i)) as [->|Ne]; [unfold infty in Ev; lia|]. rewrite lower_old in Ev by done.
    destruct (iv_done _ _ I v w Hv Ev Hvw) as [Ew Hr]. pose proof (Hedge _ _ Hvw) as Hw. pose proof (lower_not_done w Ew).
    rewrite lower_old by done. split; [done|]. by apply lowered_row_le.
  - intros p Hp. change (vat (lowered s i j f)) with (vat s). destruct (iv_stack _ _ I p Hp) as [Hv Hle].
    destruct (decide (vat s p = i)) as [E|Ne]; [|rewrite lower_old by done; apply (iv_back _ _ I p Hp)]. pose proof (iv_back _ _ I p Hp) as Hb.
    rewrite E in *. rewrite Li. destruct (Z.min_spec (idx s i) (idx s j)) as [[_ ->]|[Hm ->]]; [done|].
    destruct (iv_cases _ _ I j Hj) as [?|[E'|(q & Hq)]]; [done|unfold infty in E'; lia|]. destruct Hq as [Hq <-].
    eapply rtc_l; [exact Hij|]. by apply (iv_back _ _ I).
  - intros p v Hp HA. destruct (iv_pending _ _ I p v Hp HA) as [Hlt Hw]. pose proof (on_stack_idx _ _ _ _ I Hp) as [Hv _].
    assert (Ne : v <> i) by (intros ->; apply HA; by right). rewrite lower_old by done. split; [done|]. intros w Hvw.
    apply lower_resolved; auto.
Qed.

Lemma lower_ok : visiting A s0 i (fun k => P k \/ k = j) not_above (lowered s i j f).
Proof.
  pose proof V as [I X At Ab Re]. destruct lower_new as (Hii & Hj1 & Li). pose proof (Hedge _ _ Hij) as Hj.
  assert (Bx := fun v t => lowered_bit s i j f v t Ho).
  constructor; [apply lower_inv| |done| |].
  - destruct X as [X1 X2 X3]. constructor; [done|done|]. intros v Hv Nv. assert (Ne : v <> i) by congruence.
    destruct (X3 v Hv Nv) as [E B]. rewrite lower_old by done. split; [done|]. intros t Ht. rewrite Bx, B by done. tauto.
  - intros p Hp. cbn [top lowered] in Hp. left. change (vat (lowered s i j f) p) with (vat s p). destruct At as [At1 At2].
    destruct (iv_stack _ _ I p) as [Hv Hle]; [lia|].
    assert (Ne : vat s p <> i) by (intros E; rewrite <- At2 in E; apply (iv_distinct _ _ I) in E; lia).
    rewrite Li, lower_old by done. destruct (Ab p Hp) as [[H1 H2]|[H1 H2]]; (split; [lia|]).
    + by apply lowered_row_le.
    + intros t Ht B. apply Bx; [done..|]. apply Bx in B as [B|[? _]]; [|done..]. right. split; [done|]. by apply H2.
  - assert (Low : forall w, edge i w -> idx s w = infty -> (row_le s w i \/ w = j) -> resolved (lowered s i j f) i w).
    { intros w Hiw Ew Hr. pose proof (Hedge _ _ Hiw) as Hw. pose proof (lower_not_done w Ew) as Ne. left. rewrite lower_old by done.
      split; [done|]. destruct Hr as [Hr| ->]; [by apply lowered_row_le|]. intros t Ht B. apply Bx; [done..|].
      apply Bx in B as [B|[? _]]; [|done..]. by right. }
    assert (On : forall w q, on_stack s w q -> Z.min (idx s i) (idx s j) <= q -> resolved (lowered s i j f) i w).
    { intros w q Hq Hle. right. exists q. by rewrite Li. }
    intros w [Hw| ->].
    + destruct (Re w Hw) as [Hiw [[Ew Hr]|(q & Hq & Hle)]]; (split; [done|]); [apply Low; auto|apply (On w q); [done|lia]].
    + split; [done|]. destruct (iv_cases _ _ I j Hj) as [?|[Ej|(q & Hq)]]; [done|apply Low; auto|].
      apply (on_stack_idx _ _ _ _ I) in Hq as Hle. apply (On j q); [done|lia].
Qed.

End Lower.

(** ** Leaving the stack *)

(** the vertices at [h] and above leave the stack with the row of [i] *)
Record popped (h i : Z) (s s' : search) : Prop := {
  pp_sizes : zlen (INDEX s') = zlen (INDEX s) /\ zlen (F s') = zlen (F s);
  pp_top : top s' = h - 1;
  pp_stack : VERTICES s' = VERTICES s;
  pp_in : forall p, h <= p <= top s -> idx s' (vat s p) = infty /\
    forall t, token t -> bit s' (vat s p) t <-> bit s i t;
  pp_out : forall v, vertex v -> (forall p, h <= p <= top s -> vat s p <> v) -> idx s' v = idx s v /\
    forall t, token t -> bit s' v t <-> bit s v t }.

Lemma pop_ok h i fuel : forall s, zlen (INDEX s) = n + 1 -> zlen (VERTICES s) = n + 1 -> zlen (F s) = n * rs ->
  1 <= h <= top s -> top s <= n -> vat s h = i -> (forall p, h <= p <= top s -> vertex (vat s p)) ->
  (forall p q, h <= p <= top s -> h <= q <= top s -> vat s p = vat s q -> p = q) -> top s - h < Z.of_nat fuel ->
  exists s', pop_vertices fuel rs infty i s = Ok s' /\ popped h i s s'.
Proof.
  induction fuel as [|fuel IH]; intros s Z1 Z2 Z3 Hh Ht Hi Hv Hd Hf; [lia|]. cbn [pop_vertices].
  rewrite rd_zget by lia. cbn [rbind]. fold (vat s (top s)). pose proof (Hv (top s) ltac:(lia)) as Hj. unfold vertex in Hj.
  rewrite s16_short, wr_in_range by (unfold infty, MAXSHORT in *; lia). cbn [rbind].
  pose proof (Hv h ltac:(lia)) as Hvi. rewrite Hi in Hvi. unfold vertex in Hvi.
  set (ix := <[_ := _]> _).
  assert (Ix : forall v, vertex v -> zget ix v = if vat s (top s) =? v then infty else idx s v).
  { unfold vertex. intros v Hv'. unfold ix, idx. apply zget_insert; lia. }
  destruct (Z.eqb_spec i (vat s (top s))) as [E|Ne].
  - assert (top s = h) as Eh by (apply Hd; [lia|lia|congruence]). eexists. split; [done|]. constructor; cbn [INDEX F top VERTICES].
    + unfold ix. by rewrite zlen_insert.
    + lia.
    + done.
    + intros p Hp. assert (p = h) as -> by lia. rewrite Hi. unfold idx at 1. cbn [INDEX]. rewrite Ix by done. rewrite <- E, Z.eqb_refl. done.
    + intros v Hv' Hno. unfold idx at 1. cbn [INDEX]. rewrite Ix by done.
      destruct (Z.eqb_spec (vat s (top s)) v) as [Ev|]; [destruct (Hno (top s)); [lia|done]|done].
  - assert (Hlt : h < top s) by (destruct (decide (h = top s)); [congruence|lia]).
    destruct (copy_row_entry (F s) rs n i (vat s (top s))) as (f & -> & Zf & Hrow); [done|done|done|done|done|]. cbn [rbind].
    assert (Bx : forall v t, vertex v -> token t -> entry f rs v t = true <-> bit s (if v =? vat s (top s) then i else v) t).
    { intros v t [? _] ?. unfold bit. by rewrite Hrow. }
    destruct (IH (Search ix (VERTICES s) (top s - 1) f)) as (s' & E & [P1 P2 P3 P4 P5]); cbn [INDEX VERTICES top F] in *.
    1-9: try done; try lia.
    + unfold ix. by rewrite zlen_insert.
    + intros p Hp. apply Hv. lia.
    + intros p q Hp Hq. apply Hd; lia.
    + rewrite E. exists s'. split; [done|].
      assert (Bi : forall t, token t -> entry f rs i t = true <-> bit s i t).
      { intros t H. rewrite Bx by done. by destruct (Z.eqb_spec i (vat s (top s))). }
      constructor; cbn [INDEX F top VERTICES]; [by rewrite Zf in P1; unfold ix in P1; rewrite zlen_insert in P1|done|done| |].
      * intros p Hp. destruct (decide (p = top s)) as [->|]; [|destruct (P4 p ltac:(lia)) as [Q1 Q2]; split; [done|]; intros t H; rewrite Q2, <- Bi by done; done].
        destruct (P5 (vat s (top s))) as [Q1 Q2]; [done|intros p Hp' Q; apply (Hd p (top s)) in Q; lia|]. unfold idx in Q1 at 2. cbn [INDEX] in Q1.
        rewrite Ix, Z.eqb_refl in Q1 by done. split; [done|]. intros t H. rewrite Q2 by done. unfold bit at 1. cbn [F].
        rewrite Bx, Z.eqb_refl by done. done.
      * intros v Hv' Hno. destruct (P5 v Hv') as [Q1 Q2]; [intros p Hp; apply Hno; lia|]. pose proof (Hno (top s) ltac:(lia)) as Nv.
        unfold idx in Q1 at 2. cbn [INDEX] in Q1. rewrite Ix in Q1 by done. destruct (Z.eqb_spec (vat s (top s)) v); [done|].
        split; [done|]. intros t H. rewrite Q2 by done. unfold bit at 1. cbn [F]. rewrite Bx by done. by destruct (Z.eqb_spec v (vat s (top s))); [congruence|].
Qed.

Section Leave.
Context (A : Z -> Prop) (s : search) (i : Z) (I0 : inv A s) (Hi : vertex i) (H0 : idx s i = 0).
Context (HA : forall v, A v -> exists p, on_stack s v p).
Context (s2 : search) (V : visiting A s i (edge i) (fun _ => False) s2).

(** the vertices above [i] are new, and their visit is over *)
Lemma above_new p : top s + 1 < p <= top s2 -> vertex (vat s2 p) /\ idx s (vat s2 p) = 0 /\ vat s2 p <> i /\ ~ A (vat s2 p).
Proof.
  intros Hp. destruct V as [I X [At1 At2] _ _]. destruct (iv_stack _ _ I p) as [Hv Hle]; [lia|].
  assert (Old : forall q, on_stack s (vat s2 p) q -> False).
  { intros q Hq. apply (extends_on_stack _ _ _ _ X) in Hq as Hq2. destruct Hq2 as [Hq1 Hq2]. destruct Hq as [Hq _].
    apply (iv_distinct _ _ I) in Hq2; lia. }
  split_and!; [done| | |].
  - destruct (iv_cases _ _ I0 _ Hv) as [?|[E|(q & Hq)]]; [done| |by apply Old in Hq].
    destruct (ex_visited _ _ X _ Hv) as [E' _]; [rewrite E; apply infty_pos|]. destruct (iv_sizes _ _ I) as (_ & _ & _ & ?).
    unfold infty in *. lia.
  - intros E. rewrite <- At2 in E. apply (iv_distinct _ _ I) in E; lia.
  - intros Ha. apply HA in Ha as [q Hq]. by apply Old in Hq.
Qed.

Lemma kept_visited : idx s2 i <> top s + 1 -> visited A s i s2.
Proof.
  intros Ne. pose proof V as [I X At Ab Re]. pose proof (on_stack_idx _ _ _ _ I At) as [_ Hii].
  split_and!; [|done|right; exists (top s + 1); split; [done|lia]|].
  - destruct I as [I1 I2 I3 I4 I5 I6 I7 I8 I9]. constructor; try done. intros p v Hp Ha. destruct (decide (v = i)) as [->|Nv].
    + destruct Hp as [Hp1 Hp2], At as [At1 At2]. assert (p = top s + 1) as -> by (apply I3; [done|done|congruence]).
      split; [lia|]. intros w Hw. by apply Re.
    + apply I9; [done|]. by intros [?|?].
  - intros p Hp. destruct (decide (p = top s + 1)) as [->|Np]; [destruct At as [_ ->]; split; [lia|by intros t]|].
    destruct (Ab p) as [?|?]; [lia|done|done].
Qed.

(** the vertices above [i] reach it *)
Lemma above_reaches : idx s2 i = top s + 1 -> forall p, top s + 1 <= p <= top s2 -> rtc edge (vat s2 p) i.
Proof.
  intros Ei. destruct V as [I X [At1 At2] Ab Re]. intros p. induction (Z.lt_wf 0 p) as [p _ IH]. intros Hp.
  destruct (decide (p = top s + 1)) as [->|Np]; [by rewrite At2|]. destruct (above_new p) as (Hv & _ & Ni & Na); [lia|].
  destruct (iv_pending _ _ I p (vat s2 p)) as [Hlt _]; [split; [lia|done]|tauto|].
  destruct (Ab p) as [[Hle _]|?]; [lia| |done]. etrans; [apply (iv_back _ _ I); lia|]. apply IH; lia.
Qed.

Context (s' : search) (Pop : popped (top s + 1) i s2 s') (Ei : idx s2 i = top s + 1).

Lemma vat_popped p : vat s' p = vat s2 p.
Proof. unfold vat. by rewrite (pp_stack _ _ _ _ Pop). Qed.

(** a vertex leaves the stack, or is unchanged *)
Lemma popped_cases v : vertex v -> (exists p, top s + 1 <= p <= top s2 /\ vat s2 p = v) \/
  (idx s' v = idx s2 v /\ (forall t, token t -> bit s' v t <-> bit s2 v t) /\ forall p, top s + 1 <= p <= top s2 -> vat s2 p <> v).
Proof.
  intros Hv. pose proof (vs_inv _ _ _ _ _ _ V) as I.
  assert (D : (exists p, top s + 1 <= p <= top s2 /\ vat s2 p = v) \/ forall p, top s + 1 <= p <= top s2 -> vat s2 p <> v).
  { destruct (decide (Exists (fun p => vat s2 p = v) (seqZ (top s + 1) (top s2 - top s)))) as [Q|Q].
    - apply Exists_exists in Q as (p & Hp%elem_of_seqZ & E). left. exists p. split; [lia|done].
    - right. intros p Hp E. apply Q. apply Exists_exists. exists p. split; [apply elem_of_seqZ; lia|done]. }
  destruct D as [?|Hno]; [by left|right]. destruct (pp_out _ _ _ _ Pop v Hv Hno). done.
Qed.

Lemma popped_unchanged v : vertex v -> idx s v <> 0 -> idx s' v = idx s2 v /\ forall t, token t -> bit s' v t <-> bit s2 v t.
Proof.
  intros Hv Nv. destruct (popped_cases v Hv) as [(p & Hp & E)|(? & ? & _)]; [|done].
  destruct (decide (p = top s + 1)) as [->|Np].
  - rewrite (proj2 (vs_at _ _ _ _ _ _ V)) in E. congruence.
  - destruct (above_new p) as (_ & Q & _); [lia|]. congruence.
Qed.

Lemma popped_extends : extends s s'.
Proof.
  destruct (vs_extends _ _ _ _ _ _ V) as [X1 X2 X3]. constructor.
  - rewrite (pp_top _ _ _ _ Pop). lia.
  - intros p Hp. rewrite vat_popped. by apply X2.
  - intros v Hv Nv. destruct (X3 v Hv Nv) as [E B]. destruct (popped_unchanged v Hv Nv) as [E' B'].
    split; [congruence|]. intros t Ht. by rewrite B', B.
Qed.

(** the vertices that leave have their successors done *)
Lemma popped_done p w : top s + 1 <= p <= top s2 -> edge (vat s2 p) w -> idx s' w = infty /\ row_le s' w (vat s2 p).
Proof.
  intros Hp Hw. pose proof V as [I X [At1 At2] Ab Re]. pose proof (Hedge _ _ Hw) as Vw.
  assert (Hr : resolved s2 (vat s2 p) w /\ top s + 1 <= idx s2 (vat s2 p) /\ row_le s2 (vat s2 p) i).
  { destruct (decide (p = top s + 1)) as [->|Np].
    - rewrite At2 in *. split; [by apply Re|]. split; [lia|by intros t].
    - destruct (above_new p) as (Hv & _ & Ni & Na); [lia|]. destruct (Ab p) as [[Hle Hrow]|?]; [lia| |done].
      split; [|split; [lia|done]]. apply (iv_pending _ _ I p); [split; [lia|done]|tauto|done]. }
  destruct Hr as (Hr & Hidx & Hrow). destruct (pp_in _ _ _ _ Pop p Hp) as [_ Bp].
  destruct Hr as [[Ew Hr]|(q & [Hq1 Hq2] & Hle)].
  - destruct (popped_cases w Vw) as [(q & Hq & <-)|(E & B & _)].
    + pose proof (idx_done_stack _ _ (vat s2 q) q I) as Q. destruct Q; [split; [lia|done]|done].
    + split; [congruence|]. intros t Ht Bt. apply Bp; [done|]. apply Hrow; [done|]. apply Hr; [done|]. by apply B.
  - destruct (pp_in _ _ _ _ Pop q) as [Eq Bq]; [lia|]. rewrite Hq2 in *. split; [done|].
    intros t Ht Bt. apply Bp; [done|]. by apply Bq.
Qed.

Lemma popped_inv : inv A s'.
Proof.
  pose proof V as [I X [At1 At2] Ab Re]. destruct (iv_sizes _ _ I) as (S1 & S2 & S3 & S4).
  destruct (pp_sizes _ _ _ _ Pop) as [P1 P2]. pose proof (pp_top _ _ _ _ Pop) as Pt.
  assert (Low : forall p, 1 <= p <= top s -> vertex (vat s2 p) /\ idx s' (vat s2 p) = idx s2 (vat s2 p)).
  { intros p Hp. destruct (iv_stack _ _ I p) as [Hv Hle]; [lia|]. split; [done|].
    apply popped_unchanged; [done|]. rewrite (ex_stack _ _ X) by done. pose proof (iv_stack _ _ I0 p Hp). lia. }
  constructor.
  - rewrite P1, P2, (pp_stack _ _ _ _ Pop), Pt. split_and!; try done; lia.
  - intros p Hp. rewrite !vat_popped. destruct (Low p) as [Hv ->]; [lia|]. apply (iv_stack _ _ I). lia.
  - intros p q Hp Hq. rewrite !vat_popped. apply (iv_distinct _ _ I); lia.
  - intros v Hv. destruct (popped_cases v Hv) as [(p & Hp & <-)|(-> & _ & Hno)]; [right; left; by apply (pp_in _ _ _ _ Pop)|].
    destruct (iv_cases _ _ I v Hv) as [?|[?|(p & Hp1 & Hp2)]]; [by left|by right; left|]. right; right. exists p.
    split; [|by rewrite vat_popped]. destruct (decide (top s + 1 <= p)); [destruct (Hno p ltac:(lia) Hp2)|lia].
  - intros v t Hv Ht B. destruct (popped_cases v Hv) as [(p & Hp & <-)|(_ & B' & _)]; [|by apply (iv_sound _ _ I), B'].
    apply (pp_in _ _ _ _ Pop p Hp) in B; [|done]. destruct (iv_sound _ _ I i t Hi Ht B) as (u & Hu & Eu). exists u.
    split; [|done]. etrans; [by apply above_reaches|done].
  - intros v t Hv Ht B. apply (iv_grows _ _ I) in B; [|done..].
    destruct (popped_cases v Hv) as [(p & Hp & <-)|(_ & B' & _)]; [|by apply B']. apply (pp_in _ _ _ _ Pop p Hp); [done|].
    destruct (decide (p = top s + 1)) as [->|Np]; [by rewrite At2 in B|]. destruct (Ab p) as [[_ Hr]|?]; [lia|by apply Hr|done].
  - intros v w Hv Ev Hw. destruct (popped_cases v Hv) as [(p & Hp & <-)|(E & B & _)]; [by apply popped_done|].
    rewrite E in Ev. destruct (iv_done _ _ I v w Hv Ev Hw) as [Ew Hr]. pose proof (Hedge _ _ Hw) as Vw.
    destruct (popped_cases w Vw) as [(p & Hp & <-)|(Ew' & Bw & _)].
    + destruct (idx_done_stack _ _ (vat s2 p) p I); [split; [lia|done]|done].
    + split; [congruence|]. intros t Ht Bt. apply B; [done|]. apply Hr; [done|]. by apply Bw.
  - intros p Hp. rewrite !vat_popped. destruct (Low p) as [Hv E]; [lia|]. rewrite E. apply (iv_back _ _ I). lia.
  - intros p v [Hp Ev] Ha. rewrite Pt in Hp. assert (Hs : on_stack s v p).
    { split; [lia|]. rewrite <- Ev, vat_popped. symmetry. apply (ex_stack _ _ X). lia. }
    by apply (extends_pending A s _ v p I0 popped_extends).
Qed.

Lemma popped_visited : visited A s i s'.
Proof.
  pose proof (vs_at _ _ _ _ _ _ V) as [At1 At2]. pose proof (pp_top _ _ _ _ Pop) as Pt. split_and!.
  - apply popped_inv.
  - apply popped_extends.
  - left. split; [|lia]. rewrite <- At2. apply (pp_in _ _ _ _ Pop). lia.
  - lia.
Qed.

End Leave.

(** ** The traversal *)

(** the vertices not visited *)
Definition whites (s : search) : nat := length (filter (fun v => idx s v = 0) (seqZ 0 n)).

Lemma elem_of_whites s v : v ∈ filter (fun v => idx s v = 0) (seqZ 0 n) <-> idx s v = 0 /\ vertex v.
Proof. rewrite list_elem_of_filter, elem_of_seqZ. unfold vertex. by rewrite Z.add_0_l. Qed.

Lemma whites_extends s s' : extends s s' -> (whites s' <= whites s)%nat.
Proof.
  intros E. apply submseteq_length, NoDup_submseteq; [apply NoDup_filter, NoDup_seqZ|].
  intros v [Hw Hv]%elem_of_whites. apply elem_of_whites. split; [|done].
  destruct (decide (idx s v = 0)) as [?|Nv]; [done|]. destruct (ex_visited _ _ E v Hv Nv). congruence.
Qed.

Lemma whites_lt s s' v : extends s s' -> vertex v -> idx s v = 0 -> idx s' v <> 0 -> (whites s' < whites s)%nat.
Proof.
  intros E Hv Ev Nv. assert (H : v :: filter (fun v => idx s' v = 0) (seqZ 0 n) ⊆+ filter (fun v => idx s v = 0) (seqZ 0 n)).
  - apply NoDup_submseteq.
    + constructor; [by intros [? _]%elem_of_whites|apply NoDup_filter, NoDup_seqZ].
    + intros w [->|[Hw Vw]%elem_of_whites]%elem_of_cons; apply elem_of_whites; [done|]. split; [|done].
      destruct (decide (idx s w = 0)) as [?|Nw]; [done|]. destruct (ex_visited _ _ E w Vw Nw). congruence.
  - apply submseteq_length in H. exact H.
Qed.

Lemma visiting_impl A s0 i (P Q B C : Z -> Prop) s : visiting A s0 i P B s -> (forall j, Q j -> P j) -> (forall k, B k -> C k) ->
  visiting A s0 i Q C s.
Proof.
  intros [I X At Ab Re] HP HB. constructor; [done|done|done| |].
  - intros p Hp. destruct (Ab p Hp) as [?|?]; [by left|right; by apply HB].
  - intros j Hj. by apply Re, HP.
Qed.

Lemma visit_child A s0 i P s2 j s3 : vertex i -> visiting A s0 i P not_above s2 -> visited (fun v => A v \/ v = i) s2 j s3 -> vertex j ->
  visiting A s0 i P (fun k => idx s3 j <= idx s3 k /\ row_le s3 k j) s3 /\ idx s3 j <> 0.
Proof.
  intros Hi [I X At Ab Re] (I3 & X3 & Hj3 & New) Hj. pose proof (on_stack_idx _ _ _ _ I At) as [_ Hii].
  destruct (ex_visited _ _ X3 i Hi ltac:(lia)) as [Ei Bi]. split.
  - constructor.
    + done.
    + by eapply extends_trans.
    + by apply (extends_on_stack s2).
    + intros p Hp. destruct (decide (p <= top s2)) as [Hle|Hgt]; [left|right; apply New; lia].
      rewrite (ex_stack _ _ X3) by lia. destruct (iv_stack _ _ I p) as [Hv Hidx]; [lia|].
      destruct (Ab p) as [[Q1 Q2]|?]; [lia| |done]. destruct (ex_visited _ _ X3 (vat s2 p) Hv ltac:(lia)) as [Ev _].
      split; [lia|]. apply (extends_row_le s2); [done..|lia|lia|done].
    + intros k Hk. destruct (Re k Hk) as [Hik Hr]. split; [done|]. apply (extends_resolved s2); [done|done|by eapply Hedge|lia|done].
  - destruct Hj3 as [[E _]|(p & Hp & _)]; [rewrite E; apply infty_pos|]. apply (on_stack_idx _ _ _ _ I3) in Hp as [_ ?]. lia.
Qed.

(** what [traverse] promises with some fuel *)
Definition traverses (f : Z -> search -> result search) (fuel : nat) : Prop :=
  forall A s i, inv A s -> vertex i -> idx s i = 0 -> (forall v, A v -> exists p, on_stack s v p) -> (whites s <= fuel)%nat ->
  exists s', f i s = Ok s' /\ visited A s i s'.

Lemma lowered_INDEX A s0 i P B s j : vertex i -> visiting A s0 i P B s ->
  (if idx s j <? idx s i then wr (INDEX s) i (idx s j) else Ok (INDEX s)) =
  Ok (if idx s j <? idx s i then <[Z.to_nat i := idx s j]> (INDEX s) else INDEX s).
Proof.
  unfold vertex. intros Hi V. destruct (iv_sizes _ _ (vs_inv _ _ _ _ _ _ V)) as (S1 & _).
  destruct (_ <? _); [|done]. by rewrite wr_in_range by lia.
Qed.

Lemma visit_edges_ok f fuel : traverses f fuel -> forall A s0 i rp P s, vertex i -> idx s0 i = 0 ->
  (forall v, A v -> exists p, on_stack s0 v p) -> (forall j, j ∈ rp -> edge i j) -> visiting A s0 i P not_above s -> (whites s <= fuel)%nat ->
  exists s', visit_edges f rs i rp s = Ok s' /\ visiting A s0 i (fun k => P k \/ k ∈ rp) not_above s'.
Proof.
  intros Hf A s0 i rp. induction rp as [|j rp IH]; intros P s Hi H0 HA Hrp V Hw; cbn [visit_edges].
  { exists s. split; [done|]. eapply visiting_impl; [exact V| |done]. intros k [?|?%elem_of_nil]; done. }
  assert (Hij : edge i j) by (apply Hrp; by left). pose proof (Hedge _ _ Hij) as Hj. unfold vertex in Hi, Hj.
  destruct (iv_sizes _ _ (vs_inv _ _ _ _ _ _ V)) as (S1 & _). rewrite rd_zget by lia. cbn [rbind]. fold (idx s j).
  assert (Child : exists s2, (if idx s j =? 0 then f j s else Ok s) = Ok s2 /\ idx s2 j <> 0 /\ (whites s2 <= fuel)%nat /\
    visiting A s0 i P (fun k => idx s2 j <= idx s2 k /\ row_le s2 k j) s2).
  { destruct (Z.eqb_spec (idx s j) 0) as [Ej|Nj].
    - destruct (Hf (fun v => A v \/ v = i) s j) as (s2 & E2 & Vj); [apply V|done|done| |done|].
      + intros v [Ha| ->]; [destruct (HA v Ha) as [p Hp]; exists p; by apply (extends_on_stack _ _ _ _ (vs_extends _ _ _ _ _ _ V))|].
        exists (top s0 + 1). apply (vs_at _ _ _ _ _ _ V).
      + destruct (visit_child A s0 i P s j s2 Hi V Vj Hj) as [V2 N2]. exists s2. split_and!; [done|done| |done].
        pose proof (whites_extends s s2 (proj1 (proj2 Vj))). lia.
    - exists s. split_and!; [done|done|done|]. by eapply visiting_impl; [exact V|done|]. }
  destruct Child as (s2 & -> & Nj & Hw2 & V2). cbn [rbind]. destruct (iv_sizes _ _ (vs_inv _ _ _ _ _ _ V2)) as (Z1 & _ & Z3 & _).
  rewrite !rd_zget by lia. cbn [rbind]. fold (idx s2 j). fold (idx s2 i). rewrite (lowered_INDEX A s0 i P _ s2 j Hi V2). cbn [rbind].
  destruct (or_row_entry (F s2) rs n i j) as (f2 & -> & Zf & Hrow); [done..|]. cbn [rbind].
  assert (Ho : or_rows s2 i j f2) by (split; [done|intros v t Hv Ht; by apply Hrow]).
  pose proof (lower_ok A s0 i P s2 j f2 Hi H0 Hij Nj Ho V2) as V3. fold (lowered s2 i j f2).
  destruct (IH _ (lowered s2 i j f2) Hi H0 HA ltac:(intros k Hk; apply Hrp; by right) V3) as (s' & -> & V').
  - assert (whites (lowered s2 i j f2) <= whites s2)%nat; [|lia]. apply submseteq_length, NoDup_submseteq; [apply NoDup_filter, NoDup_seqZ|].
    intros v [Ev Hv]%elem_of_whites. apply elem_of_whites. rewrite lowered_idx in Ev by done. split; [|done].
    destruct (Z.eqb_spec i v); [|done]. pose proof (iv_stack _ _ (vs_inv _ _ _ _ _ _ V3)) as Q.
    destruct (on_stack_idx _ _ _ _ (vs_inv _ _ _ _ _ _ V3) (vs_at _ _ _ _ _ _ V3)) as [_ Hi3]. rewrite lowered_idx, Z.eqb_refl in Hi3 by done. lia.
  - exists s'. split; [done|]. eapply visiting_impl; [exact V'| |done]. intros k [?|[->|?]%elem_of_cons]; tauto.
Qed.

Lemma traverse_ok fuel : traverses (traverse fuel rs infty R) fuel.
Proof.
  induction fuel as [|fuel IH]; intros A s i I Hi H0 HA Hw.
  { pose proof (proj2 (elem_of_whites s i) (conj H0 Hi)) as Q. unfold whites in Hw.
    destruct (filter _ _); [by apply elem_of_nil in Q|]. cbn in Hw. lia. }
  pose proof (stack_room _ _ _ I Hi H0) as Room. destruct (iv_sizes _ _ I) as (S1 & S2 & S3 & S4).
  destruct (pushed_ok A s i I Hi H0) as [I1 X1]. pose proof (pushed_idx s i i S1 Hi Hi) as Ei. rewrite Z.eqb_refl in Ei.
  assert (V1 : visiting A s i (fun _ => False) not_above (pushed s i)).
  { constructor; [done|done| |cbn [top pushed]; lia|done]. split; [cbn [top pushed]; lia|]. by rewrite pushed_vat, Z.eqb_refl by lia. }
  cbn [traverse]. unfold vertex in Hi. rewrite !s16_short by (unfold MAXSHORT in *; lia). rewrite wr_in_range by lia. cbn [rbind].
  rewrite wr_in_range by lia. cbn [rbind]. fold (pushed s i).
  destruct (rd_in_range R i) as [e Ee]; [lia|]. rewrite Ee. cbn [rbind].
  assert (Visit : exists s2, match e with Some rp => visit_edges (traverse fuel rs infty R) rs i rp (pushed s i) | None => Ok (pushed s i) end = Ok s2 /\
    visiting A s i (edge i) not_above s2).
  { destruct e as [rp|].
    - destruct (visit_edges_ok _ fuel IH A s i rp (fun _ => False) (pushed s i) Hi H0 HA) as (s2 & E2 & V2); [|done| |].
      + intros j Hj. by exists rp.
      + pose proof (whites_lt s (pushed s i) i X1 Hi H0 ltac:(lia)). lia.
      + exists s2. split; [done|]. eapply visiting_impl; [exact V2| |done]. intros j (l & El & Hj). right. congruence.
    - exists (pushed s i). split; [done|]. eapply visiting_impl; [exact V1| |done]. intros j (l & El & _). congruence. }
  destruct Visit as (s2 & -> & V). cbn [rbind]. destruct (iv_sizes _ _ (vs_inv _ _ _ _ _ _ V)) as (Z1 & Z2 & Z3 & Z4).
  rewrite rd_zget by lia. cbn [rbind]. fold (idx s2 i). pose proof (vs_at _ _ _ _ _ _ V) as [At1 At2].
  destruct (Z.eqb_spec (idx s2 i) (top s + 1)) as [Eh|Ne].
  - destruct (pop_ok (top s + 1) i (S (Z.to_nat (top s2))) s2) as (s' & -> & Pop); [done|done|done|lia|lia|done| | |lia|].
    + intros p Hp. apply (iv_stack _ _ (vs_inv _ _ _ _ _ _ V)). lia.
    + intros p q Hp Hq. apply (iv_distinct _ _ (vs_inv _ _ _ _ _ _ V)); lia.
    + exists s'. split; [done|]. by apply (popped_visited A s i I Hi H0 HA s2 V s' Pop).
  - exists s2. split; [done|]. by apply (kept_visited A s i s2 V).
Qed.

(** between two visits, the stack is empty *)
Definition nobody (v : Z) : Prop := False.

Lemma start_inv : inv nobody (Search (replicate (Z.to_nat (n + 1)) 0) (replicate (Z.to_nat (n + 1)) 0) 0 F0).
Proof.
  constructor; cbn [top INDEX VERTICES F]; try (intros; lia).
  - rewrite !zlen_replicate. split_and!; [lia|lia|done|lia|lia].
  - intros v _. left. unfold idx. cbn [INDEX]. unfold zget. rewrite nth_lookup. destruct (_ !! _) eqn:E; [|done]. by apply lookup_replicate in E as [-> _].
  - intros v t _ _ B. by exists v.
  - intros v t _ _ B. done.
  - intros v w _ E. unfold idx in E. cbn [INDEX] in E. unfold zget in E. rewrite nth_lookup in E. pose proof infty_pos.
    destruct (_ !! _) eqn:Q; [apply lookup_replicate in Q as [-> _]|]; cbn in E; lia.
  - intros p v [Hp _]. cbn [top] in Hp. lia.
Qed.

(** the edges of the vertices before [i] are final *)
Definition searched (i : Z) (s : search) : Prop :=
  inv nobody s /\ top s = 0 /\ forall v w, 0 <= v < i -> edge v w -> idx s v = infty.

Lemma search_step i s : vertex i -> searched i s ->
  exists s', (let* n0 := rd (INDEX s) i in let* e := rd R i in
    match e with
    | Some _ => if n0 =? 0 then traverse (S (Z.to_nat n)) rs infty R i s else Ok s
    | None => Ok s
    end) = Ok s' /\ searched (i + 1) s'.
Proof.
  intros Hi (I & T0 & Hs). destruct (iv_sizes _ _ I) as (S1 & _). unfold vertex in Hi. rewrite rd_zget by lia. cbn [rbind].
  fold (idx s i). destruct (rd_in_range R i) as [e Ee]; [lia|]. rewrite Ee. cbn [rbind].
  assert (Keep : (forall w, edge i w -> idx s i = infty) -> searched (i + 1) s).
  { intros H. split_and!; [done|done|]. intros v w Hv Hw. destruct (decide (v = i)) as [->|]; [by apply (H w)|]. apply (Hs v w); [lia|done]. }
  destruct e as [l|]; [|exists s; split; [done|]; apply Keep; intros w (l & El & _); congruence].
  destruct (Z.eqb_spec (idx s i) 0) as [E0|N0].
  - destruct (traverse_ok (S (Z.to_nat n)) nobody s i I Hi E0) as (s' & -> & I' & X & Hi' & New); [done| |].
    { pose proof (length_filter (fun v => idx s v = 0) (seqZ 0 n)) as Q. rewrite length_seqZ in Q. unfold whites. lia. }
    exists s'. split; [done|].
    assert (Fin : idx s' i = infty /\ top s' = top s).
    { destruct Hi' as [?|(p & Hp & Hle)]; [done|]. apply (on_stack_idx _ _ _ _ I') in Hp as [_ ?]. lia. }
    destruct Fin as [F1 F2]. split_and!; [done|lia|]. intros v w Hv Hw. destruct (decide (v = i)) as [->|]; [done|].
    assert (Hv' : vertex v) by (unfold vertex; lia). pose proof (Hs v w ltac:(lia) Hw) as Ev.
    destruct (ex_visited _ _ X v Hv'); [rewrite Ev; apply infty_pos|congruence].
  - exists s. split; [done|]. apply Keep. intros w _. destruct (iv_cases _ _ I i Hi) as [?|[?|(p & Hp & _)]]; [done|done|lia].
Qed.

Lemma digraph_ok : exists f, digraph rs n R F0 = Ok f /\ zlen f = n * rs /\
  forall i t, vertex i -> token t -> entry f rs i t = true <-> exists j, rtc edge i j /\ entry F0 rs j t = true.
Proof.
  unfold digraph. fold infty.
  destruct (for_loop_inv searched (Z.to_nat n) 0
    (fun i s => let* n0 := rd (INDEX s) i in let* e := rd R i in
      match e with
      | Some _ => if n0 =? 0 then traverse (S (Z.to_nat n)) rs infty R i s else Ok s
      | None => Ok s
      end)
    (Search (replicate (Z.to_nat (n + 1)) 0) (replicate (Z.to_nat (n + 1)) 0) 0 F0)) as (s & -> & I & T0 & Hs).
  - split_and!; [apply start_inv|done|]. intros; lia.
  - intros i s Hi H. apply search_step; [unfold vertex; lia|done].
  - cbn [rbind]. exists (F s). split; [done|]. split; [apply (iv_sizes _ _ I)|]. intros i t Hi Ht. split; [by apply (iv_sound _ _ I)|].
    intros (j & Hj & B). change (bit s i t). induction Hj as [i|i k j Hik _ IH]; [by apply (iv_grows _ _ I)|].
    pose proof (Hedge _ _ Hik) as Hk. assert (Ei : idx s i = infty) by (apply (Hs i k); [unfold vertex in Hi; lia|done]).
    destruct (iv_done _ _ I i k Hi Ei Hik) as [_ Hr]. apply Hr; [done|]. by apply IH.
Qed.

(** C18: The traversal of the gotos is correct and ends: for any relation between fewer than
    [MAXSHORT - 1] vertices, with cycles or not, the matrix after [digraph] holds in each
    row the union of the initial rows of the vertices reached; the stack and the index
    stay inside their arrays. *)
Theorem digraph_correct :
  exists f, digraph rs n R F0 = Ok f /\ zlen f = n * rs /\
  forall i t, 0 <= i < n -> 0 <= t < 32 * rs ->
    entry f rs i t = true <-> exists j, rtc edge i j /\ entry F0 rs j t = true.
Proof. exact digraph_ok. Qed.

End Digraph.

Lemma digraph_witness :
  exists f, digraph 1 4 [Some [1]; Some [2]; Some [1]; Some [0]] [1; 2; 4; 8] = Ok f /\ zlen f = 4 * 1 /\
  forall i t, 0 <= i < 4 -> 0 <= t < 32 * 1 ->
    entry f 1 i t = true <-> exists j, rtc (edge [Some [1]; Some [2]; Some [1]; Some [0]]) i j /\ entry [1; 2; 4; 8] 1 j t = true.
Proof.
  apply (digraph_correct 4 1 [Some [1]; Some [2]; Some [1]; Some [0]] [1; 2; 4; 8]); try (vm_compute; done || lia).
  intros i j (l & E & Hj). apply rd_range in E as Hi. unfold zlen in Hi. cbn [length] in Hi.
  assert (Hc : i = 0 \/ i = 1 \/ i = 2 \/ i = 3) by lia.
  destruct Hc as [?|[?|[?|?]]]; subst i; vm_compute in E; injection E as <-; apply list_elem_of_singleton in Hj; lia.
Defined.
