(* ===== verification/Lalr.v ===== *)
(** * LALR(1) lookaheads ([ocaml/yacc/lalr.c])

    A goto is a transition on a variable; the gotos are numbered by variable and then by
    state.  [F] has a row of tokens for each goto: the tokens that can be read just after,
    closed over the nullable variables ([initialize_F]), then the tokens that follow
    ([build_relations], [compute_FOLLOWS]), with the traversals of [Digraph.v]; the
    lookaheads of a complete rule are the union of the rows of the gotos to which its
    reduction leads.

    The arrays [goto_map] and [temp_map] are given from their first variable, the one of
    [ntokens]; a list ended with -1 is the list before the -1. *)

From S2P Require Import Prelude.
From S2P Require Import Warshall.
From S2P Require Import Grammar.
From S2P Require Import Closure.
From S2P Require Import Lr0.
From S2P Require Import Digraph.
From Stdlib Require Import Sorting.Sorted.
From stdpp Require Import relations sorting.
#[local] Open Scope Z_scope.

(** ** Tables by state *)

Fixpoint set_table {A B} (number : A -> Z) (value : A -> B) (l : list A) (table : list (option B)) : result (list (option B)) :=
  match l with
  | [] => Ok table
  | sp :: l => let* table := wr table (number sp) (Some (value sp)) in set_table number value l table
  end.

Definition set_shift_table (n : Z) (ss : list shifts) : result (list (option (list Z))) :=
  set_table shifts_number Lr0.shift ss (replicate (Z.to_nat n) None).

Definition set_reduction_table (n : Z) (rs : list reductions) : result (list (option (list Z))) :=
  set_table reductions_number reduced rs (replicate (Z.to_nat n) None).

Definition set_accessing_symbol (cores : list core) : list Z := map accessing_symbol cores.

Fixpoint maxrhs_loop (its : list Z) (length max : Z) : Z :=
  match its with
  | [] => max
  | i :: its =>
      if 0 <=? i then maxrhs_loop its (length + 1) max
      else maxrhs_loop its 0 (if max <? length then length else max)
  end.

Definition set_maxrhs (g : grammar) : Z := maxrhs_loop (ritem (tab g)) 0 0.

Definition nreds (rp : option (list Z)) : list Z := match rp with Some rules => rules | None => [] end.

(** [lookaheads], with its last entry *)
Fixpoint lookahead_bases (reduction_table : list (option (list Z))) (k : Z) : list Z :=
  match reduction_table with
  | [] => [s16 k]
  | rp :: rt => s16 k :: lookahead_bases rt (k + zlen (nreds rp))
  end.

(** [lookaheads] and [LAruleno]; the rows of [LA] are empty *)
Definition initialize_LA (reduction_table : list (option (list Z))) : list Z * list Z :=
  (lookahead_bases reduction_table 0, concat (map nreds reduction_table)).

(** ** The gotos *)

Record gotos := Gotos { goto_map : list Z; from_state : list Z; to_state : list Z }.

Definition ngotos (gs : gotos) : Z := zlen (from_state gs).

(** the shifts of a state, from the last one: those on variables are counted *)
Fixpoint count_gotos (g : grammar) (acc : list Z) (shift : list Z) (map : list Z) (n : Z) : result (list Z * Z) :=
  match shift with
  | [] => Ok (map, n)
  | s :: shift =>
      let* symbol := rd acc s in
      if ISTOKEN g symbol then Ok (map, n)
      else if n =? MAXSHORT then fatal "too many gotos"
      else
        let* c := rd map (symbol - ntokens g) in
        let* map := wr map (symbol - ntokens g) (s16 (c + 1)) in
        count_gotos g acc shift map (n + 1)
  end.

Fixpoint count_all_gotos (g : grammar) (acc : list Z) (ss : list shifts) (map : list Z) (n : Z) : result (list Z * Z) :=
  match ss with
  | [] => Ok (map, n)
  | sp :: ss => let* (map, n) := count_gotos g acc (rev (Lr0.shift sp)) map n in count_all_gotos g acc ss map n
  end.

Fixpoint goto_bases (counts : list Z) (k : Z) : list Z :=
  match counts with [] => [] | c :: counts => s16 k :: goto_bases counts (k + c) end.

Fixpoint put_gotos (g : grammar) (acc : list Z) (state1 : Z) (shift : list Z) (temp_map from to : list Z)
    : result (list Z * list Z * list Z) :=
  match shift with
  | [] => Ok (temp_map, from, to)
  | state2 :: shift =>
      let* symbol := rd acc state2 in
      if ISTOKEN g symbol then Ok (temp_map, from, to)
      else
        let* k := rd temp_map (symbol - ntokens g) in
        let* temp_map := wr temp_map (symbol - ntokens g) (s16 (k + 1)) in
        let* from := wr from k (s16 state1) in
        let* to := wr to k (s16 state2) in
        put_gotos g acc state1 shift temp_map from to
  end.

Fixpoint put_all_gotos (g : grammar) (acc : list Z) (ss : list shifts) (temp_map from to : list Z)
    : result (list Z * list Z * list Z) :=
  match ss with
  | [] => Ok (temp_map, from, to)
  | sp :: ss =>
      let* (temp_map, from, to) := put_gotos g acc (shifts_number sp) (rev (Lr0.shift sp)) temp_map from to in
      put_all_gotos g acc ss temp_map from to
  end.

Definition set_goto_map (g : grammar) (acc : list Z) (ss : list shifts) : result gotos :=
  let* (counts, n) := count_all_gotos g acc ss (replicate (Z.to_nat (nvars g + 1)) 0) 0 in
  let map := goto_bases (take (Z.to_nat (nvars g)) counts) 0 ++ [s16 n] in
  let zeros := replicate (Z.to_nat n) 0 in
  let* (_, from, to) := put_all_gotos g acc ss map zeros zeros in
  Ok (Gotos map from to).

(** the search between [low] and [high]; the assertion is that they do not cross *)
Fixpoint map_goto_loop (fuel : nat) (from : list Z) (state low high : Z) {struct fuel} : result Z :=
  match fuel with
  | O => NoFuel
  | S fuel =>
      if high <? low then Undef else
      let middle := Z.shiftr (low + high) 1 in
      let* s := rd from middle in
      if s =? state then Ok middle
      else if s <? state then map_goto_loop fuel from state (middle + 1) high
      else map_goto_loop fuel from state low (middle - 1)
  end.

Definition map_goto (g : grammar) (gs : gotos) (state symbol : Z) : result Z :=
  let* low := rd (goto_map gs) (symbol - ntokens g) in
  let* high := rd (goto_map gs) (symbol + 1 - ntokens g) in
  map_goto_loop (S (S (length (from_state gs)))) (from_state gs) state low high.

(** ** The tokens read after a goto *)

(** edge[nedges++] = k: [edge] has room for [ngotos + 1] edges *)
Definition put_edge (gs : gotos) (edge : list Z) (k : Z) : result (list Z) :=
  if zlen edge <? ngotos gs + 1 then Ok (edge ++ [k]) else Undef.

(** the tokens, then the rest of the shifts *)
Fixpoint read_tokens (g : grammar) (acc : list Z) (rowp : Z) (shift : list Z) (f : list Z) : result (list Z * list Z) :=
  match shift with
  | [] => Ok (f, [])
  | s :: rest =>
      let* symbol := rd acc s in
      if ISVAR g symbol then Ok (f, shift)
      else let* f := SETBIT f rowp symbol in read_tokens g acc rowp rest f
  end.

Fixpoint read_nullables (g : grammar) (gs : gotos) (acc : list Z) (nullable : list bool) (stateno : Z) (shift edge : list Z)
    : result (list Z) :=
  match shift with
  | [] => Ok edge
  | s :: shift =>
      let* symbol := rd acc s in
      let* b := rd nullable symbol in
      let* edge := if b then let* k := map_goto g gs stateno symbol in put_edge gs edge k else Ok edge in
      read_nullables g gs acc nullable stateno shift edge
  end.

(** a list that is not empty is allocated *)
Definition edges (edge : list Z) : option (list Z) := match edge with [] => None | _ => Some edge end.

Definition F_row (g : grammar) (gs : gotos) (acc : list Z) (shift_table : list (option (list Z))) (nullable : list bool)
    (i : Z) (st : list Z * list (option (list Z))) : result (list Z * list (option (list Z))) :=
  let '(f, reads) := st in
  let* stateno := rd (to_state gs) i in
  let* sp := rd shift_table stateno in
  match sp with
  | None => Ok (f, reads)
  | Some shift =>
      let* (f, rest) := read_tokens g acc (i * WORDSIZE (ntokens g)) shift f in
      let* edge := read_nullables g gs acc nullable stateno rest [] in
      let* reads := wr reads i (edges edge) in
      Ok (f, reads)
  end.

Definition initialize_F (g : grammar) (gs : gotos) (acc : list Z) (shift_table : list (option (list Z))) (nullable : list bool)
    : result (list Z) :=
  let n := ngotos gs in
  let* (f, reads) :=
    for_loop (Z.to_nat n) 0 (F_row g gs acc shift_table nullable)
      (replicate (Z.to_nat (n * WORDSIZE (ntokens g))) 0, replicate (Z.to_nat n) None) in
  let* f := SETBIT f 0 0 in
  digraph (WORDSIZE (ntokens g)) n reads f.

(** ** The relations between gotos *)

(** the state after [symbol2], the last one when there is none *)
Fixpoint find_shift (acc : list Z) (symbol2 : Z) (shift : list Z) (stateno : Z) : result Z :=
  match shift with
  | [] => Ok stateno
  | s :: shift =>
      let* a := rd acc s in
      if a =? symbol2 then Ok s else find_shift acc symbol2 shift s
  end.

(** the states along the right-hand side at [rp], from the last of [states]; there is room for
    [maxrhs + 1] of them *)
Fixpoint walk_rhs (fuel : nat) (g : grammar) (acc : list Z) (shift_table : list (option (list Z))) (rp stateno : Z) (states : list Z)
    {struct fuel} : result (Z * Z * list Z) :=
  match fuel with
  | O => NoFuel
  | S fuel =>
      let* symbol2 := rd (ritem (tab g)) rp in
      if 0 <=? symbol2 then
        let* sp := rd shift_table stateno in
        let* shift := of_option sp in
        let* stateno := find_shift acc symbol2 shift stateno in
        if zlen states <? set_maxrhs g + 1
        then walk_rhs fuel g acc shift_table (rp + 1) stateno (states ++ [stateno])
        else Undef
      else Ok (rp, stateno, states)
  end.

(** the variables at the end of the right-hand side, while they are nullable *)
Fixpoint include_edges (fuel : nat) (g : grammar) (gs : gotos) (nullable : list bool) (rp length : Z) (states edge : list Z)
    {struct fuel} : result (list Z) :=
  match fuel with
  | O => NoFuel
  | S fuel =>
      let rp := rp - 1 in
      let* symbol := rd (ritem (tab g)) rp in
      if ISVAR g symbol then
        let length := length - 1 in
        let* stateno := rd states length in
        let* k := map_goto g gs stateno symbol in
        let* edge := put_edge gs edge k in
        let* b := rd nullable symbol in
        if b && (0 <? length) then include_edges fuel g gs nullable rp length states edge else Ok edge
      else Ok edge
  end.

(** the index of the rule among the reductions of the state; the assertion is that it is found *)
Fixpoint find_rule (n : nat) (LAruleno : list Z) (ruleno i : Z) : result Z :=
  match n with
  | O => Undef
  | S n => let* r := rd LAruleno i in if r =? ruleno then Ok i else find_rule n LAruleno ruleno (i + 1)
  end.

Definition add_lookback_edge (lookaheads LAruleno : list Z) (lookback : list (list Z)) (stateno ruleno gotono : Z)
    : result (list (list Z)) :=
  let* i := rd lookaheads stateno in
  let* k := rd lookaheads (stateno + 1) in
  let* i := find_rule (Z.to_nat (k - i)) LAruleno ruleno i in
  let* sp := rd lookback i in
  wr lookback i (s16 gotono :: sp).

(** the rules [rs] of the variable of the goto [i] *)
Fixpoint relate_rules (g : grammar) (gs : gotos) (acc : list Z) (shift_table : list (option (list Z))) (nullable : list bool)
    (lookaheads LAruleno : list Z) (i state1 : Z) (rs : list Z) (edge : list Z) (lookback : list (list Z))
    : result (list Z * list (list Z)) :=
  match rs with
  | [] => Ok (edge, lookback)
  | rule :: rs =>
      let* rp := rd (rrhs (tab g)) rule in
      let* (rp, stateno, states) :=
        walk_rhs (S (Z.to_nat (nitems g))) g acc shift_table rp state1 [state1] in
      let* lookback := add_lookback_edge lookaheads LAruleno lookback stateno rule i in
      let* edge := include_edges (S (length states)) g gs nullable rp (zlen states - 1) states edge in
      relate_rules g gs acc shift_table nullable lookaheads LAruleno i state1 rs edge lookback
  end.

Definition relate_goto (g : grammar) (d : derivations) (gs : gotos) (acc : list Z) (shift_table : list (option (list Z)))
    (nullable : list bool) (lookaheads LAruleno : list Z) (i : Z) (st : list (option (list Z)) * list (list Z))
    : result (list (option (list Z)) * list (list Z)) :=
  let '(includes, lookback) := st in
  let* state1 := rd (from_state gs) i in
  let* state2 := rd (to_state gs) i in
  let* symbol1 := rd acc state2 in
  let* rs := rules_of d symbol1 in
  let* (edge, lookback) := relate_rules g gs acc shift_table nullable lookaheads LAruleno i state1 rs [] lookback in
  let* includes := wr includes i (edges edge) in
  Ok (includes, lookback).

(** ** The transposed relation *)

Fixpoint count_edges (l : list Z) (nedges : list Z) : result (list Z) :=
  match l with
  | [] => Ok nedges
  | j :: l => let* c := rd nedges j in let* nedges := wr nedges j (s16 (c + 1)) in count_edges l nedges
  end.

Fixpoint count_all_edges (R : list (option (list Z))) (nedges : list Z) : result (list Z) :=
  match R with
  | [] => Ok nedges
  | e :: R => let* nedges := count_edges (default [] e) nedges in count_all_edges R nedges
  end.

(** [i] is put in the lists of its successors; [temp_R] is the place of the next element *)
Fixpoint put_edges (i : Z) (l : list Z) (new_R : list (option (list Z))) (temp_R : list Z) : result (list (option (list Z)) * list Z) :=
  match l with
  | [] => Ok (new_R, temp_R)
  | j :: l =>
      let* e := rd new_R j in
      let* row := of_option e in
      let* k := rd temp_R j in
      let* row := wr row k i in
      let* new_R := wr new_R j (Some row) in
      let* temp_R := wr temp_R j (k + 1) in
      put_edges i l new_R temp_R
  end.

Fixpoint put_all_edges (i : Z) (R : list (option (list Z))) (new_R : list (option (list Z))) (temp_R : list Z)
    : result (list (option (list Z)) * list Z) :=
  match R with
  | [] => Ok (new_R, temp_R)
  | e :: R =>
      let* (new_R, temp_R) := put_edges (s16 i) (default [] e) new_R temp_R in
      put_all_edges (i + 1) R new_R temp_R
  end.

Definition transpose (R : list (option (list Z))) (n : Z) : result (list (option (list Z))) :=
  let zeros := replicate (Z.to_nat n) 0 in
  let* nedges := count_all_edges R zeros in
  let rows := map (fun k => if 0 <? k then Some (replicate (Z.to_nat k) 0) else None) nedges in
  let* (new_R, _) := put_all_edges 0 R rows zeros in
  Ok new_R.

Definition build_relations (g : grammar) (d : derivations) (gs : gotos) (acc : list Z) (shift_table : list (option (list Z)))
    (nullable : list bool) (lookaheads LAruleno : list Z) : result (list (option (list Z)) * list (list Z)) :=
  let n := ngotos gs in
  let* (includes, lookback) :=
    for_loop (Z.to_nat n) 0 (relate_goto g d gs acc shift_table nullable lookaheads LAruleno)
      (replicate (Z.to_nat n) None, replicate (length LAruleno) []) in
  let* includes := transpose includes n in
  Ok (includes, lookback).

(** ** The lookaheads *)

(** while (fp1 < fp3) *fp1++ |= *fp2++, in two arrays *)
Definition or_tokens (LA : list Z) (rowp : Z) (f : list Z) (fp2 tokensetsize : Z) : result (list Z) :=
  let* (LA, _, _) :=
    while_loop (S (Z.to_nat tokensetsize))
      (fun '(_, fp1, _) => fp1 <? rowp + tokensetsize)
      (fun '(LA, fp1, fp2) =>
         let* x := rd LA fp1 in
         let* y := rd f fp2 in
         let* LA := wr LA fp1 (Z.lor x y) in
         Ok (LA, fp1 + 1, fp2 + 1))
      (LA, rowp, fp2) in
  Ok LA.

Fixpoint or_lookbacks (f : list Z) (tokensetsize rowp : Z) (sp : list Z) (LA : list Z) : result (list Z) :=
  match sp with
  | [] => Ok LA
  | v :: sp => let* LA := or_tokens LA rowp f (tokensetsize * v) tokensetsize in or_lookbacks f tokensetsize rowp sp LA
  end.

Definition compute_lookaheads (f : list Z) (tokensetsize : Z) (lookback : list (list Z)) (n : Z) (LA : list Z) : result (list Z) :=
  for_loop (Z.to_nat n) 0
    (fun i LA => let* sp := rd lookback i in or_lookbacks f tokensetsize (i * tokensetsize) sp LA) LA.

(** [lookaheads], [LAruleno] and [LA] *)
Definition lalr (g : grammar) (d : derivations) (nullable : list bool) (cores : list core) (ss : list shifts) (rs : list reductions)
    : result (list Z * list Z * list Z) :=
  let tokensetsize := WORDSIZE (ntokens g) in
  let n := zlen cores in
  let acc := set_accessing_symbol cores in
  let* shift_table := set_shift_table n ss in
  let* reduction_table := set_reduction_table n rs in
  let '(lookaheads, LAruleno) := initialize_LA reduction_table in
  let LA := replicate (Z.to_nat (zlen LAruleno * tokensetsize)) 0 in
  let* gs := set_goto_map g acc ss in
  let* f := initialize_F g gs acc shift_table nullable in
  let* (includes, lookback) := build_relations g d gs acc shift_table nullable lookaheads LAruleno in
  let* f := digraph tokensetsize (ngotos gs) includes f in
  let* k := rd lookaheads n in
  let* LA := compute_lookaheads f tokensetsize lookback k LA in
  Ok (lookaheads, LAruleno, LA).

Example demo_lalr :
  (let* d := set_derives demo_grammar in
   let* (nullable, (cores, ss, rs)) := lr0 demo_grammar in
   lalr demo_grammar d nullable cores ss rs) = Ok ([0; 1; 2; 2; 3; 4], [3; 3; 5; 4], [1; 1; 1; 1]).
Proof. vm_compute. reflexivity. Qed.

(** [edge] is too short for the includes edges of [a], in
    [s: a; a: b | b n | b n n | b n n n; b: ; n: ;] *)
Example edge_overflow :
  let g := grammar_of 2 7 ([(2, [3; 0]); (3, [4])] ++ map (fun n => (4, 5 :: replicate n 6)) (seq 0 4) ++ [(5, []); (6, [])]) in
  (let* d := set_derives g in
   let* (nullable, (cores, ss, rs)) := lr0 g in
   lalr g d nullable cores ss rs) = Undef.
Proof. vm_compute. reflexivity. Qed.
