(* ===== verification/Transpose.v ===== *)
(** * Transposition of a relation ([transpose] of [ocaml/yacc/lalr.c])

    The successors of each vertex are counted in an array of shorts, the lists are allocated,
    and filled with a pointer into each. The proof reads the relation as the list of its
    pairs, in the order of the two passes. *)

From S2P Require Import Prelude.
From S2P Require Import Grammar.
From S2P Require Import Closure.
From S2P Require Import Lr0.
From S2P Require Import Digraph.
From S2P Require Import Lalr.
#[local] Open Scope Z_scope.

(** the pairs of the relation, from the vertex [i] *)
Fixpoint pairs (i : Z) (R : list (option (list Z))) : list (Z * Z) :=
  match R with [] => [] | e :: R => map (pair i) (default [] e) ++ pairs (i + 1) R end.

(** the predecessors of [j] *)
Fixpoint into (j : Z) (D : list (Z * Z)) : list Z :=
  match D with [] => [] | (i, j') :: D => if j' =? j then i :: into j D else into j D end.

Lemma into_app j D E : into j (D ++ E) = into j D ++ into j E.
Proof. induction D as [|[i j'] D IH]; cbn; [done|]. destruct (j' =? j); cbn; by rewrite IH. Qed.

Lemma into_length j D : zlen (into j D) <= zlen D.
Proof. induction D as [|[i j'] D IH]; cbn; [done|]. destruct (j' =? j); rewrite ?zlen_cons; lia. Qed.

Lemma elem_of_into j D i : i ∈ into j D <-> (i, j) ∈ D.
Proof.
  induction D as [|[i' j'] D IH]; cbn [into]; [split; by intros ?%elem_of_nil|]. rewrite elem_of_cons. destruct (Z.eqb_spec j' j) as [->|Ne].
  - rewrite elem_of_cons, IH. split; intros [?|?]; try tauto; left; congruence.
  - rewrite IH. split; [by right|]. intros [[= -> ->]|?]; done.
Qed.

Lemma elem_of_pairs R : forall i0 i j, (i, j) ∈ pairs i0 R <-> exists l, i0 <= i /\ rd R (i - i0) = Ok (Some l) /\ j ∈ l.
Proof.
  induction R as [|e R IH]; intros i0 i j; cbn [pairs].
  - split; [by intros ?%elem_of_nil|]. intros (l & _ & E & _). apply rd_range in E. pose proof (zlen_nil (A := option (list Z))). lia.
  - rewrite elem_of_app, IH. split.
    + intros [(j' & [= -> ->] & H)%list_elem_of_fmap|(l & Hi & E & Hj)].
      * destruct e as [l|]; cbn in H; [|by apply elem_of_nil in H]. exists l. split_and!; [lia| |done]. by replace (i0 - i0) with 0 by lia.
      * exists l. split_and!; [lia| |done]. rewrite rd_cons by lia. by replace (i - i0 - 1) with (i - (i0 + 1)) by lia.
    + intros (l & Hi & E & Hj). destruct (decide (i = i0)) as [->|Ne].
      * left. replace (i0 - i0) with 0 in E by lia. injection E as ->. apply list_elem_of_fmap. by exists j.
      * right. exists l. split_and!; [lia| |done]. rewrite rd_cons in E by lia. by replace (i - (i0 + 1)) with (i - i0 - 1) by lia.
Qed.

Lemma edge_pairs R i j : edge R i j <-> (i, j) ∈ pairs 0 R.
Proof.
  rewrite elem_of_pairs. unfold edge. split.
  - intros (l & E & Hj). apply rd_range in E as R0. exists l. rewrite Z.sub_0_r. split_and!; [lia|done|done].
  - intros (l & Hi & E & Hj). rewrite Z.sub_0_r in E. by exists l.
Qed.

Lemma zlen_pairs R : forall i, zlen (pairs i R) = sumZ (map (fun e => zlen (default [] e)) R).
Proof. induction R as [|e R IH]; intros i; cbn [pairs map sumZ]; [done|]. by rewrite zlen_app, zlen_map, IH. Qed.

Section Transpose.
Context (n : Z).

#[local] Abbreviation vertex i := (0 <= i < n).

(** ** The counts *)

Definition counted (D : list (Z * Z)) (a : list Z) : Prop := zlen a = n /\ forall j, vertex j -> rd a j = Ok (zlen (into j D)).

Lemma count_edges_ok i l : Forall (fun j => vertex j) l -> forall D a, counted D a -> zlen D + zlen l <= MAXSHORT ->
  exists a', count_edges l a = Ok a' /\ counted (D ++ map (pair i) l) a'.
Proof.
  induction 1 as [|j l Hj _ IH]; intros D a [Hz Ha] Hm; cbn [count_edges map]; [exists a; by rewrite app_nil_r|].
  rewrite zlen_cons in Hm. pose proof (zlen_nonneg l). pose proof (into_length j D). rewrite (Ha j Hj). cbn [rbind].
  pose proof (zlen_nonneg (into j D)). rewrite s16_short, wr_in_range by (unfold MAXSHORT in *; lia). cbn [rbind].
  destruct (IH (D ++ [(i, j)]) (<[Z.to_nat j := zlen (into j D) + 1]> a)) as (a' & -> & H').
  - split; [by rewrite zlen_insert|]. intros j' Hj'. rewrite into_app, zlen_app. cbn [into]. destruct (Z.eqb_spec j j') as [<-|Ne].
    + rewrite rd_insert_eq by lia. done.
    + rewrite rd_insert_ne, Ha by lia. pose proof (zlen_nil (A := Z)). f_equal. lia.
  - rewrite zlen_snoc. lia.
  - exists a'. rewrite <- app_assoc in H'. done.
Qed.

Lemma count_all_edges_ok R : Forall (fun e => Forall (fun j => vertex j) (default [] e)) R -> forall i D a, counted D a ->
  zlen D + zlen (pairs i R) <= MAXSHORT -> exists a', count_all_edges R a = Ok a' /\ counted (D ++ pairs i R) a'.
Proof.
  induction 1 as [|e R He _ IH]; intros i D a Ha Hm; cbn [count_all_edges pairs] in *; [exists a; by rewrite app_nil_r|].
  rewrite zlen_app, zlen_map in Hm. pose proof (zlen_nonneg (pairs (i + 1) R)). destruct (count_edges_ok i _ He D a Ha) as (a1 & -> & H1); [lia|]. cbn [rbind].
  destruct (IH (i + 1) _ a1 H1) as (a' & -> & H'); [rewrite zlen_app, zlen_map; lia|]. exists a'. by rewrite app_assoc.
Qed.

(** ** The lists *)

(** the list of [j], of length [k], after the pairs [D] *)
Definition filled_row (D : list (Z * Z)) (k j : Z) : option (list Z) :=
  if 0 <? k then Some (into j D ++ replicate (Z.to_nat (k - zlen (into j D))) 0) else None.

Definition filled (All D : list (Z * Z)) (new_R : list (option (list Z))) (temp_R : list Z) : Prop :=
  zlen new_R = n /\ zlen temp_R = n /\
  forall j, vertex j -> rd temp_R j = Ok (zlen (into j D)) /\ rd new_R j = Ok (filled_row D (zlen (into j All)) j).

Lemma put_edges_ok All D2 i l : Forall (fun j => vertex j) l -> forall D new_R temp_R, All = D ++ map (pair i) l ++ D2 -> filled All D new_R temp_R ->
  exists new_R' temp_R', put_edges i l new_R temp_R = Ok (new_R', temp_R') /\ filled All (D ++ map (pair i) l) new_R' temp_R'.
Proof.
  induction 1 as [|j l Hj _ IH]; intros D nR tR EA (Zn & Zt & H); cbn [put_edges map]; [exists nR, tR; by rewrite app_nil_r|].
  destruct (H j Hj) as [Et En]. set (k := zlen (into j All)) in *. pose proof (zlen_nonneg (into j D)).
  assert (Hk : zlen (into j D) < k).
  { unfold k. rewrite EA, !into_app, !zlen_app. cbn [map into]. rewrite Z.eqb_refl, zlen_cons. pose proof (zlen_nonneg (into j (map (pair i) l))).
    pose proof (zlen_nonneg (into j D2)). lia. }
  unfold filled_row in En. destruct (Z.ltb_spec 0 k); [|lia]. rewrite En. cbn [rbind of_option]. rewrite Et. cbn [rbind].
  replace (Z.to_nat (k - zlen (into j D))) with (S (Z.to_nat (k - (zlen (into j D) + 1)))) by lia. cbn [replicate]. rewrite wr_mid. cbn [rbind].
  rewrite wr_in_range by lia. cbn [rbind]. rewrite wr_in_range by lia. cbn [rbind]. cbn [app map] in EA.
  destruct (IH (D ++ [(i, j)]) (<[Z.to_nat j := Some (into j D ++ i :: replicate (Z.to_nat (k - (zlen (into j D) + 1))) 0)]> nR)
    (<[Z.to_nat j := zlen (into j D) + 1]> tR)) as (nR' & tR' & -> & H').
  - by rewrite <- app_assoc.
  - split_and!; [by rewrite zlen_insert..|]. intros j' Hj'. unfold filled_row. rewrite into_app, zlen_app. cbn [into]. destruct (Z.eqb_spec j j') as [<-|Ne].
    + rewrite !rd_insert_eq by lia. fold k. destruct (Z.ltb_spec 0 k); [|lia]. rewrite <- app_assoc. done.
    + rewrite !rd_insert_ne by lia. destruct (H j' Hj') as [-> ->]. unfold filled_row. pose proof (zlen_nil (A := Z)). rewrite app_nil_r.
      split; [f_equal; lia|]. by replace (zlen (into j' D) + zlen []) with (zlen (into j' D)) by lia.
  - exists nR', tR'. rewrite <- app_assoc in H'. done.
Qed.

Lemma put_all_edges_ok All R : Forall (fun e => Forall (fun j => vertex j) (default [] e)) R -> forall i D new_R temp_R, 0 <= i -> i + zlen R <= MAXSHORT ->
  All = D ++ pairs i R -> filled All D new_R temp_R ->
  exists new_R' temp_R', put_all_edges i R new_R temp_R = Ok (new_R', temp_R') /\ filled All All new_R' temp_R'.
Proof.
  induction 1 as [|e R He _ IH]; intros i D nR tR Hi Hm EA HD; cbn [put_all_edges pairs] in *; [exists nR, tR; rewrite app_nil_r in EA; by rewrite EA at 2|].
  rewrite zlen_cons in Hm. pose proof (zlen_nonneg R). rewrite s16_short by (unfold MAXSHORT in *; lia).
  destruct (put_edges_ok All (pairs (i + 1) R) i _ He D nR tR EA HD) as (n1 & t1 & -> & H1). cbn [rbind].
  apply (IH (i + 1) (D ++ map (pair i) (default [] e)) n1 t1); [lia|lia|by rewrite <- app_assoc|done].
Qed.

Lemma transpose_ok R : zlen R = n -> n <= MAXSHORT -> (forall i j, edge R i j -> vertex j) ->
  sumZ (map (fun e => zlen (default [] e)) R) <= MAXSHORT ->
  exists R', transpose R n = Ok R' /\ zlen R' = n /\ forall i j, edge R' j i <-> edge R i j.
Proof.
  intros Hz Hn He Hm. assert (HR : Forall (fun e => Forall (fun j => vertex j) (default [] e)) R).
  { apply Forall_forall. intros e [i Ei]%list_elem_of_lookup. apply Forall_forall. intros j Hj. destruct e as [l|]; [|by apply elem_of_nil in Hj].
    apply (He (Z.of_nat i) j). exists l. split; [|done]. apply rd_Ok. rewrite Nat2Z.id. split; [lia|done]. }
  pose proof (zlen_nonneg R). rewrite <- (zlen_pairs R 0) in Hm. assert (Z0 : forall j, vertex j -> rd (replicate (Z.to_nat n) 0) j = Ok 0).
  { intros j Hj. apply rd_Ok. split; [lia|]. apply lookup_replicate. split; [done|lia]. }
  assert (Zr : zlen (replicate (Z.to_nat n) 0) = n) by (rewrite zlen_replicate; lia).
  unfold transpose. destruct (count_all_edges_ok R HR 0 [] (replicate (Z.to_nat n) 0)) as (a & -> & Za & Ha).
  { split; [done|]. intros j Hj. by rewrite Z0. }
  { rewrite zlen_nil. lia. }
  cbn [rbind app] in *. edestruct (put_all_edges_ok (pairs 0 R) R HR 0 []) as (R' & t & -> & ZR & _ & H'); [lia|lia|done| |cbn [rbind]].
  - split; [rewrite zlen_map; exact Za|]. split; [exact Zr|]. intros j Hj. rewrite Z0 by done. split; [done|]. apply rd_map. exists (zlen (into j (pairs 0 R))).
    split; [by apply Ha|]. unfold filled_row. cbn [into app]. change (zlen []) with 0. by rewrite Z.sub_0_r.
  - exists R'. split; [done|]. split; [done|]. intros i j. rewrite (edge_pairs R), <- elem_of_into. split.
    + intros (l & E & Hi). apply rd_range in E as Rj. destruct (H' j) as [_ Ej]; [lia|]. rewrite E in Ej. injection Ej as Ej. unfold filled_row in Ej.
      destruct (0 <? _); [|done]. injection Ej as ->. rewrite Z.sub_diag, app_nil_r in Hi. done.
    + intros Hi. assert (Hv : edge R i j) by (by apply edge_pairs, elem_of_into). destruct (H' j) as [_ Ej]; [by apply (He i)|]. exists (into j (pairs 0 R)). rewrite Ej. split; [|done].
      unfold filled_row. destruct (Z.ltb_spec 0 (zlen (into j (pairs 0 R)))) as [_|Hle]; [by rewrite Z.sub_diag, app_nil_r|].
      destruct (into j (pairs 0 R)); [by apply elem_of_nil in Hi|]. rewrite zlen_cons in Hle. pose proof (zlen_nonneg l). lia.
Qed.

End Transpose.
