(* ===== verification/Gotos.v ===== *)
(** * The gotos of the automaton

    What [set_goto_map] of [Lalr.v] computes from the automaton of [Lr0.v]: the
    transitions on variables, numbered by variable and then by state, so that [map_goto]
    finds the number of a transition by dichotomy. *)

From S2P Require Import Prelude.
From S2P Require Import Warshall.
From S2P Require Import Grammar.
From S2P Require Import Closure.
From S2P Require Import Lr0.
From S2P Require Import Lalr.
From Stdlib Require Import Sorting.Sorted.
From stdpp Require Import relations sorting.
#[local] Open Scope Z_scope.

Section Automaton.
Context (g : grammar) (ps : list production) (L : lays_out g ps).
Context (cores : list core) (ss : list shifts) (rs : list reductions) (Au : lr0_automaton g ps cores ss rs).

(** the transition of [p] on [X] leads to [q] *)
Definition trans (p X q : Z) : Prop := 1 <= X /\ exists Y Kp Kq,
  rd (kernels cores) p = Ok (Y, Kp) /\ rd (kernels cores) q = Ok (X, Kq) /\ goto_kernel g ps Kp X Kq.

Definition state (p : Z) : Prop := 0 <= p < zlen cores.

(** the symbol of the transitions to a state *)
Definition acc : list Z := set_accessing_symbol cores.

Lemma trans_states p X q : trans p X q -> state p /\ state q.
Proof.
  intros (_ & Y & Kp & Kq & Ep & Eq & _). apply rd_range in Ep, Eq. rewrite zlen_kernels in *. by split.
Qed.

Lemma rd_acc q X K : rd (kernels cores) q = Ok (X, K) -> rd acc q = Ok X.
Proof. intros (o & E)%rd_kernels. apply rd_map. eexists. split; [exact E|done]. Qed.

Lemma trans_acc p X q : trans p X q -> rd acc q = Ok X.
Proof. intros (_ & Y & Kp & Kq & _ & Eq & _). by apply rd_acc in Eq. Qed.

Lemma kernel_state q q' X X' K : rd (kernels cores) q = Ok (X, K) -> rd (kernels cores) q' = Ok (X', K) -> q = q'.
Proof.
  intros E E'. pose proof (la_distinct _ _ _ _ _ Au) as Hd. apply rd_Ok in E as [Hq E], E' as [Hq' E'].
  rewrite NoDup_alt in Hd. pose proof (Hd (Z.to_nat q) (Z.to_nat q') K) as H. rewrite !list_lookup_fmap, E, E' in H. cbn in H. specialize (H eq_refl eq_refl). lia.
Qed.

Lemma trans_fun p X q q' : trans p X q -> trans p X q' -> q = q'.
Proof.
  intros (_ & Y & Kp & Kq & Ep & Eq & Hg) (_ & Y' & Kp' & Kq' & Ep' & Eq' & Hg'). rewrite Ep in Ep'. injection Ep' as <- <-.
  rewrite (goto_kernel_unique _ _ _ _ _ _ Hg Hg') in Eq. by eapply kernel_state.
Qed.

Lemma trans_goto p X Y Kp K' : rd (kernels cores) p = Ok (Y, Kp) -> 1 <= X -> goto_kernel g ps Kp X K' ->
  exists q, trans p X q /\ rd (kernels cores) q = Ok (X, K').
Proof.
  intros Ep HX Hg. apply rd_range in Ep as R. rewrite zlen_kernels in R.
  destruct (rt_row _ _ _ _ _ _ (la_rows _ _ _ _ _ Au) p Y Kp) as (row & _ & _ & (syms & _ & Hsy & Hrow) & _); [lia|done|].
  assert (HXs : X ∈ syms) by (apply Hsy; split; [done|by exists K']). apply list_elem_of_lookup in HXs as [i Ei].
  destruct (Forall2_lookup_l _ _ _ _ _ Hrow Ei) as (q & _ & K2 & E2 & Hg2). rewrite (goto_kernel_unique _ _ _ _ _ _ Hg Hg2).
  exists q. split; [|done]. split; [done|]. by exists Y, Kp, K2.
Qed.

(** the shifts of a state *)
Definition row_of (p : Z) (row : list Z) : Prop :=
  state p /\ shifts_of ss p row /\ (forall q, q ∈ row <-> exists X, trans p X q) /\ exists syms,
    StronglySorted Z.lt syms /\ Forall2 (fun X q => trans p X q) syms row.

Lemma row_exists p : state p -> exists row, row_of p row.
Proof.
  intros Hp. destruct (rd_in_range (kernels cores) p) as [[Y Kp] Ep]; [rewrite zlen_kernels; exact Hp|].
  destruct (rt_row _ _ _ _ _ _ (la_rows _ _ _ _ _ Au) p Y Kp) as (row & _ & Hs & (syms & S1 & Hsy & Hrow) & _); [apply Hp|done|].
  assert (Hrow' : Forall2 (fun X q => trans p X q) syms row).
  { apply Forall2_same_length_lookup_2; [by eapply Forall2_length|]. intros i X q EX Eq.
    destruct (Forall2_lookup_lr _ _ _ _ _ _ Hrow EX Eq) as (K' & Eq' & Hg). apply list_elem_of_lookup_2, Hsy in EX as [HX _].
    split; [done|]. by exists Y, Kp, K'. }
  exists row. split; [done|]. split; [done|]. split; [|by exists syms]. intros q. split.
  - intros [i Ei]%list_elem_of_lookup. destruct (Forall2_lookup_r _ _ _ _ _ Hrow' Ei) as (X & _ & H). by exists X.
  - intros (X & H). pose proof H as (HX & Y' & Kp' & Kq & Ep' & Eq & Hg). rewrite Ep in Ep'. injection Ep' as <- <-.
    assert (HXs : X ∈ syms) by (apply Hsy; split; [done|by exists Kq]). apply list_elem_of_lookup in HXs as [i Ei].
    destruct (Forall2_lookup_l _ _ _ _ _ Hrow' Ei) as (q' & Eq' & H'). rewrite (trans_fun _ _ _ _ H H'). by apply list_elem_of_lookup_2 in Eq'.
Qed.

Lemma shifts_of_unique p row row' : shifts_of ss p row -> shifts_of ss p row' -> row = row'.
Proof.
  destruct (rt_shifts _ _ _ _ _ _ (la_rows _ _ _ _ _ Au)) as [Hs _]. apply NoDup_sorted in Hs. rewrite NoDup_alt in Hs.
  assert (N : forall r, Shifts p r ∈ ss -> p ∈ map shifts_number ss) by (intros r H; apply list_elem_of_fmap; by exists (Shifts p r)).
  destruct row as [|x row], row' as [|x' row']; cbn; intros H H'; try done; [by apply N in H'|by apply N in H|].
  apply list_elem_of_lookup in H as [i Ei], H' as [j Ej]. pose proof (Hs i j p) as Q. rewrite !list_lookup_fmap, Ei, Ej in Q. specialize (Q eq_refl eq_refl).
  subst j. congruence.
Qed.

Lemma row_unique p row row' : row_of p row -> row_of p row' -> row = row'.
Proof. intros (_ & H & _) (_ & H' & _). by eapply shifts_of_unique. Qed.

(** every recorded list of shifts is the row of its state *)
Lemma shifts_row sp : sp ∈ ss -> row_of (shifts_number sp) (Lr0.shift sp).
Proof.
  intros Hsp. destruct (rt_shifts _ _ _ _ _ _ (la_rows _ _ _ _ _ Au)) as [_ Hr]. rewrite Forall_forall in Hr.
  assert (Hn : shifts_number sp ∈ map shifts_number ss) by (apply list_elem_of_fmap; by exists sp). specialize (Hr _ Hn).
  destruct (row_exists (shifts_number sp)) as [row Hrow]; [exact Hr|]. pose proof Hrow as (_ & Hs & _).
  assert (row = Lr0.shift sp) as ->; [|done]. destruct row as [|x row]; [by destruct Hs|].
  destruct (rt_shifts _ _ _ _ _ _ (la_rows _ _ _ _ _ Au)) as [Hd _]. apply NoDup_sorted in Hd. rewrite NoDup_alt in Hd.
  cbn in Hs. apply list_elem_of_lookup in Hs as [i Ei], Hsp as [j Ej]. pose proof (Hd i j (shifts_number sp)) as Q.
  rewrite !list_lookup_fmap, Ei, Ej in Q. specialize (Q eq_refl eq_refl). subst j. rewrite Ei in Ej. injection Ej as <-. done.
Qed.

(** ** Counting the gotos *)

(** the index of the variable that leads to [q] *)
Definition key (q : Z) : Z := zget acc q - ntokens g.

(** the states of a list, before the first one that a token leads to *)
Fixpoint leading (l : list Z) : list Z :=
  match l with [] => [] | q :: l => if ISTOKEN g (zget acc q) then [] else q :: leading l end.

(** the transitions on variables, in the order of the shifts *)
Fixpoint transitions (l : list shifts) : list (Z * Z) :=
  match l with [] => [] | sp :: l => map (pair (shifts_number sp)) (leading (rev (Lr0.shift sp))) ++ transitions l end.

Definition known (q : Z) : Prop := rd acc q = Ok (zget acc q) /\ zget acc q < nsyms g.

Lemma count_gotos_ok l : Forall known l -> forall map n, zlen map = nvars g + 1 ->
  (forall a, 0 <= a < nvars g -> 0 <= zget map a <= n) -> 0 <= n <= MAXSHORT ->
  (n + zlen (leading l) <= MAXSHORT /\ exists map', count_gotos g acc l map n = Ok (map', n + zlen (leading l)) /\ zlen map' = nvars g + 1 /\
     forall a, 0 <= a < nvars g -> zget map' a = zget map a + occ (List.map key (leading l)) a) \/
  (MAXSHORT < n + zlen (leading l) /\ count_gotos g acc l map n = Raise (Failure "too many gotos")).
Proof.
  pose proof (lo_start _ _ L). induction 1 as [|q l [Eq Hq] Hl IH]; intros map n Hz Hm Hn; cbn [count_gotos leading].
  { left. rewrite zlen_nil, Z.add_0_r. split; [lia|]. exists map. split_and!; [done|done|]. intros a Ha. cbn. lia. }
  rewrite Eq. cbn [rbind]. destruct (ISTOKEN g (zget acc q)) eqn:Et.
  { left. rewrite zlen_nil, Z.add_0_r. split; [lia|]. exists map. split_and!; [done|done|]. intros a Ha. cbn. lia. }
  unfold ISTOKEN in Et. apply Z.ltb_ge in Et. rewrite zlen_cons. pose proof (zlen_nonneg (leading l)).
  destruct (Z.eqb_spec n MAXSHORT) as [->|Ne]; [right; split; [lia|done]|].
  assert (Hk : 0 <= zget acc q - ntokens g < nvars g) by (unfold nvars, ntokens; lia).
  rewrite rd_zget by lia. cbn [rbind]. pose proof (Hm _ Hk). rewrite s16_short, wr_in_range by lia. cbn [rbind].
  set (map1 := <[_ := _]> map).
  assert (Hm1 : forall a, 0 <= a < nvars g -> zget map1 a = zget map a + (if key q =? a then 1 else 0)).
  { intros a Ha. unfold map1, key. rewrite zget_insert by lia. destruct (Z.eqb_spec (zget acc q - ntokens g) a) as [<-|]; lia. }
  destruct (IH map1 (n + 1)) as [(Hle & map' & E & Hz' & Hm')|[Hgt E]]; [unfold map1; by rewrite zlen_insert| |lia|left|right].
  - intros a Ha. rewrite Hm1 by done. pose proof (Hm a Ha). destruct (key q =? a); lia.
  - split; [lia|]. exists map'. rewrite E. split_and!; [do 2 f_equal; lia|done|]. intros a Ha. rewrite Hm', Hm1 by done.
    cbn [List.map occ]. lia.
  - split; [lia|done].
Qed.

Lemma count_all_gotos_ok l : Forall (fun sp => Forall known (Lr0.shift sp)) l -> forall map n, zlen map = nvars g + 1 ->
  (forall a, 0 <= a < nvars g -> 0 <= zget map a <= n) -> 0 <= n <= MAXSHORT ->
  (n + zlen (transitions l) <= MAXSHORT /\ exists map', count_all_gotos g acc l map n = Ok (map', n + zlen (transitions l)) /\ zlen map' = nvars g + 1 /\
     forall a, 0 <= a < nvars g -> zget map' a = zget map a + occ (List.map (fun x => key x.2) (transitions l)) a) \/
  (MAXSHORT < n + zlen (transitions l) /\ count_all_gotos g acc l map n = Raise (Failure "too many gotos")).
Proof.
  induction 1 as [|sp l Hsp Hl IH]; intros map n Hz Hm Hn; cbn [count_all_gotos transitions].
  { left. rewrite zlen_nil, Z.add_0_r. split; [lia|]. exists map. split_and!; [done|done|]. intros a Ha. cbn. lia. }
  rewrite zlen_app, zlen_map. pose proof (zlen_nonneg (transitions l)). pose proof (zlen_nonneg (leading (rev (Lr0.shift sp)))).
  assert (Hr : Forall known (rev (Lr0.shift sp))) by (by apply Forall_rev).
  destruct (count_gotos_ok _ Hr map n Hz Hm Hn) as [(Hle & map1 & -> & Hz1 & Hm1)|[Hgt ->]]; cbn [rbind]; [|right; split; [lia|done]].
  assert (Oc : forall a, 0 <= occ (List.map key (leading (rev (Lr0.shift sp)))) a <= zlen (leading (rev (Lr0.shift sp)))).
  { intros a. pose proof (occ_le (List.map key (leading (rev (Lr0.shift sp)))) a) as Q. rewrite zlen_map in Q. pose proof (occ_nonneg (List.map key (leading (rev (Lr0.shift sp)))) a). lia. }
  destruct (IH map1 (n + zlen (leading (rev (Lr0.shift sp))))) as [(Hle' & map' & E & Hz' & Hm')|[Hgt E]]; [done| |lia|left|right].
  - intros a Ha. rewrite Hm1 by done. pose proof (Hm a Ha). pose proof (Oc a). lia.
  - split; [lia|]. exists map'. rewrite E. split_and!; [do 2 f_equal; lia|done|]. intros a Ha. rewrite Hm', Hm1 by done.
    rewrite map_app, map_map, occ_app. cbn [snd]. unfold key. lia.
  - split; [lia|done].
Qed.

(** ** The segments of the variables *)

(** the transitions of [D] on a variable *)
Fixpoint sel (a : Z) (D : list (Z * Z)) : list (Z * Z) :=
  match D with [] => [] | x :: D => if key x.2 =? a then x :: sel a D else sel a D end.

Lemma sel_app a D E : sel a (D ++ E) = sel a D ++ sel a E.
Proof. induction D as [|x D IH]; [done|]. cbn. rewrite IH. by destruct (key x.2 =? a). Qed.

Lemma sel_occ a D : zlen (sel a D) = occ (map (fun x => key x.2) D) a.
Proof. induction D as [|x D IH]; [done|]. cbn [sel map occ]. destruct (key x.2 =? a); rewrite ?zlen_cons, IH; lia. Qed.

Lemma elem_of_sel a D x : x ∈ sel a D <-> x ∈ D /\ key x.2 = a.
Proof.
  induction D as [|y D IH]; cbn [sel]; [rewrite elem_of_nil; tauto|].
  destruct (Z.eqb_spec (key y.2) a) as [E|Ne]; rewrite ?elem_of_cons, IH; split; [intros [->|?]; tauto|tauto|tauto|].
  intros [[->|?] ?]; [done|tauto].
Qed.

Definition tally (m : nat) (D : list (Z * Z)) : list Z := map (fun a => zlen (sel (Z.of_nat a) D)) (seq 0 m).

Lemma tally_zlen m D : zlen (tally m D) = Z.of_nat m.
Proof. unfold tally. rewrite zlen_map. unfold zlen. by rewrite length_seq. Qed.

Lemma zget_tally m D a : 0 <= a < Z.of_nat m -> zget (tally m D) a = zlen (sel a D).
Proof.
  intros Ha. unfold tally, zget. rewrite nth_lookup, list_lookup_fmap, lookup_seq_lt by lia. cbn. do 2 f_equal. lia.
Qed.

Lemma tally_nonneg m D : Forall (fun x => 0 <= x) (tally m D).
Proof. unfold tally. apply Forall_map, Forall_true. intros. apply zlen_nonneg. Qed.

Lemma tally_cons x D m : (Z.to_nat (key x.2) < m)%nat -> 0 <= key x.2 -> sumZ (tally m (x :: D)) = 1 + sumZ (tally m D).
Proof.
  intros Hm H0. assert (E : tally m (x :: D) = <[Z.to_nat (key x.2) := 1 + zlen (sel (key x.2) D)]> (tally m D)).
  { apply zget_ext; [rewrite zlen_insert, !tally_zlen; done|]. intros a Ha. rewrite tally_zlen in Ha.
    rewrite zget_insert, !zget_tally by (rewrite ?tally_zlen; lia). cbn [sel].
    destruct (Z.eqb_spec (key x.2) a) as [->|]; [by rewrite zlen_cons|done]. }
  rewrite E, (sumZ_insert _ _ (zlen (sel (key x.2) D))); [lia|].
  unfold tally. rewrite list_lookup_fmap, lookup_seq_lt by lia. cbn. do 3 f_equal. lia.
Qed.

Lemma tally_sum m D : Forall (fun x => 0 <= key x.2 < Z.of_nat m) D -> sumZ (tally m D) = zlen D.
Proof.
  induction 1 as [|x D Hx HD IH].
  - unfold tally. cbn. induction (seq 0 m); [done|]. cbn. rewrite zlen_nil. done.
  - rewrite tally_cons, IH, zlen_cons by lia. done.
Qed.

Lemma goto_bases_ok cs : Forall (fun x => 0 <= x) cs -> forall k, 0 <= k -> k + sumZ cs <= MAXSHORT -> goto_bases cs k = bases cs k.
Proof.
  induction 1 as [|c cs Hc Hcs IH]; intros k Hk Hle; [done|]. cbn [goto_bases bases sumZ] in *. pose proof (sumZ_nonneg cs Hcs).
  by rewrite s16_short, IH by lia.
Qed.

(** the variables by their index *)
Definition nv : nat := Z.to_nat (nvars g).
Definition T : list (Z * Z) := transitions ss.
Definition sbase (a : Z) : Z := psum (tally nv T) a.

(** the arrays after the transitions [D] *)
Record placed (D : list (Z * Z)) (temp from to : list Z) : Prop := {
  pl_sizes : zlen temp = nvars g + 1 /\ zlen from = zlen T /\ zlen to = zlen T;
  pl_temp : forall a, 0 <= a < nvars g -> zget temp a = sbase a + zlen (sel a D);
  pl_from : forall a t, 0 <= a < nvars g -> 0 <= t < zlen (sel a D) -> zget from (sbase a + t) = zget (map fst (sel a D)) t;
  pl_to : forall a t, 0 <= a < nvars g -> 0 <= t < zlen (sel a D) -> zget to (sbase a + t) = zget (map snd (sel a D)) t }.

Lemma sbase_room a D E : T = D ++ E -> 0 <= a < nvars g -> Forall (fun x => 0 <= key x.2 < nvars g) T ->
  0 <= sbase a /\ sbase a + zlen (sel a D) + zlen (sel a E) <= zlen T.
Proof.
  intros ET Ha HT. rewrite <- Z.add_assoc, <- zlen_app, <- sel_app, <- ET, <- (tally_sum nv T) by (unfold nv; eapply Forall_impl; [exact HT|]; cbn; lia).
  unfold sbase. rewrite <- (zget_tally nv T a) by (unfold nv; lia). apply psum_total; [apply tally_nonneg|rewrite tally_zlen; unfold nv; lia].
Qed.

Lemma sbase_apart a b : 0 <= a < nvars g -> 0 <= b < nvars g -> a <> b ->
  sbase a + zlen (sel a T) <= sbase b \/ sbase b + zlen (sel b T) <= sbase a.
Proof.
  intros Ha Hb Ne. unfold sbase. rewrite <- !(zget_tally nv T) by (unfold nv; lia).
  apply psum_segments; [apply tally_nonneg|rewrite tally_zlen; unfold nv; lia..|done].
Qed.

Lemma placed_step D x E temp from to : T = D ++ x :: E -> Forall (fun x => 0 <= key x.2 < nvars g) T -> placed D temp from to ->
  let k := zget temp (key x.2) in
  0 <= key x.2 < nvars g /\ 0 <= k < zlen T /\
  placed (D ++ [x]) (<[Z.to_nat (key x.2) := k + 1]> temp) (<[Z.to_nat k := x.1]> from) (<[Z.to_nat k := x.2]> to).
Proof.
  intros ET HT [(S1 & S2 & S3) Ht Hf Hto] k. assert (Hx : 0 <= key x.2 < nvars g) by (rewrite ET in HT; apply Forall_app in HT as [_ [H _]%Forall_cons]; exact H).
  assert (SX : sel (key x.2) (D ++ [x]) = sel (key x.2) D ++ [x]) by (rewrite sel_app; cbn [sel]; by rewrite Z.eqb_refl).
  assert (SY : forall a, a <> key x.2 -> sel a (D ++ [x]) = sel a D).
  { intros a Ne. rewrite sel_app. cbn [sel]. destruct (Z.eqb_spec (key x.2) a); [congruence|]. apply app_nil_r. }
  assert (Room : forall a, 0 <= a < nvars g -> 0 <= sbase a /\ sbase a + zlen (sel a (D ++ [x])) <= zlen T).
  { intros a Ha. destruct (sbase_room a (D ++ [x]) E) as [? ?]; [by rewrite <- app_assoc|done|done|]. pose proof (zlen_nonneg (sel a E)). lia. }
  assert (Ek : k = sbase (key x.2) + zlen (sel (key x.2) D)) by (by apply Ht).
  pose proof (Room _ Hx) as [R1 R2]. rewrite SX, zlen_snoc in R2. pose proof (zlen_nonneg (sel (key x.2) D)).
  assert (Seg : forall a t, 0 <= a < nvars g -> 0 <= t < zlen (sel a (D ++ [x])) -> 0 <= sbase a + t /\ (k = sbase a + t <-> a = key x.2 /\ t = zlen (sel a D))).
  { intros a t Ha Hs. pose proof (Room _ Ha) as [Q1 Q2]. split; [lia|]. rewrite Ek. split; [|intros [-> ->]; lia]. intros E'.
    destruct (decide (a = key x.2)) as [->|Ne]; [split; [done|lia]|]. rewrite SY in Hs by done.
    assert (P : forall b, 0 <= b < nvars g -> zlen (sel b (D ++ [x])) <= zlen (sel b T)).
    { intros b _. replace T with ((D ++ [x]) ++ E) by (by rewrite <- app_assoc). rewrite (sel_app b (D ++ [x]) E), zlen_app. pose proof (zlen_nonneg (sel b E)). lia. }
    pose proof (P _ Ha) as P1. pose proof (P _ Hx) as P2. rewrite SY in P1 by done. rewrite SX, zlen_snoc in P2.
    destruct (sbase_apart a (key x.2) Ha Hx Ne); lia. }
  assert (Put : forall (f : Z * Z -> Z) arr, zlen arr = zlen T ->
    (forall a t, 0 <= a < nvars g -> 0 <= t < zlen (sel a D) -> zget arr (sbase a + t) = zget (map f (sel a D)) t) ->
    forall a t, 0 <= a < nvars g -> 0 <= t < zlen (sel a (D ++ [x])) -> zget (<[Z.to_nat k := f x]> arr) (sbase a + t) = zget (map f (sel a (D ++ [x]))) t).
  { intros f arr Za Harr a t Ha Hs. pose proof (Seg a t Ha Hs) as [Q1 Q2]. rewrite zget_insert by lia. destruct (Z.eqb_spec k (sbase a + t)) as [E'|Ne].
    - apply Q2 in E' as [-> ->]. rewrite SX, map_app. cbn [map]. rewrite <- (zlen_map f). by rewrite zget_snoc.
    - destruct (decide (a = key x.2)) as [->|Na]; [|rewrite SY in * by done; by apply Harr].
      rewrite SX in *. rewrite zlen_snoc in Hs. assert (t <> zlen (sel (key x.2) D)) by (intros ->; apply Ne, Q2; done).
      rewrite map_app, zget_app_l by (rewrite zlen_map; lia). apply Harr; [done|lia]. }
  split; [done|]. split; [lia|]. constructor; [by rewrite !zlen_insert| |by apply (Put fst)|by apply (Put snd)].
  intros a Ha. rewrite zget_insert by lia. destruct (Z.eqb_spec (key x.2) a) as [<-|Ne]; [rewrite SX, zlen_snoc; lia|].
  rewrite SY by done. by apply Ht.
Qed.

Lemma put_gotos_ok p l : Forall (fun q => known q /\ state q) l -> state p -> zlen cores <= MAXSHORT -> zlen T <= MAXSHORT ->
  forall D E temp from to, T = D ++ map (pair p) (leading l) ++ E -> Forall (fun x => 0 <= key x.2 < nvars g) T -> placed D temp from to ->
  exists temp' from' to', put_gotos g acc p l temp from to = Ok (temp', from', to') /\ placed (D ++ map (pair p) (leading l)) temp' from' to'.
Proof.
  intros Hl Hp Hc HT. unfold state in *. induction Hl as [|q l [[Eq _] Hq] Hl IH]; intros D E temp from to ET HTk Hpl; cbn [put_gotos leading] in *.
  { exists temp, from, to. by rewrite app_nil_r. }
  rewrite Eq. cbn [rbind]. destruct (ISTOKEN g (zget acc q)); [exists temp, from, to; by rewrite app_nil_r|].
  cbn [map app] in ET. destruct (placed_step D (p, q) _ temp from to ET HTk Hpl) as (Hk & Hr & Hpl'). cbn [fst snd] in *.
  destruct Hpl as [(S1 & S2 & S3) _ _ _]. fold (key q). rewrite rd_zget by lia. cbn [rbind]. rewrite !s16_short by lia.
  rewrite wr_in_range by lia. cbn [rbind]. rewrite wr_in_range by lia. cbn [rbind]. rewrite wr_in_range by lia. cbn [rbind].
  destruct (IH (D ++ [(p, q)]) E _ _ _ ltac:(by rewrite <- app_assoc) HTk Hpl') as (t' & f' & o' & -> & H).
  do 3 eexists. split; [done|]. cbn [map]. by rewrite <- app_assoc in H.
Qed.

Lemma put_all_gotos_ok l : Forall (fun sp => Forall (fun q => known q /\ state q) (Lr0.shift sp) /\ state (shifts_number sp)) l ->
  zlen cores <= MAXSHORT -> zlen T <= MAXSHORT ->
  forall D temp from to, T = D ++ transitions l -> Forall (fun x => 0 <= key x.2 < nvars g) T -> placed D temp from to ->
  exists temp' from' to', put_all_gotos g acc l temp from to = Ok (temp', from', to') /\ placed T temp' from' to'.
Proof.
  intros Hl Hc HT. induction Hl as [|sp l [Hsp Hn] Hl IH]; intros D temp from to ET HTk Hpl; cbn [put_all_gotos transitions] in *.
  { exists temp, from, to. rewrite app_nil_r in ET. by rewrite ET. }
  destruct (put_gotos_ok (shifts_number sp) (rev (Lr0.shift sp)) (Forall_rev Hsp) Hn Hc HT D _ temp from to ET HTk Hpl) as (t1 & f1 & o1 & -> & H1).
  cbn [rbind]. apply (IH _ _ _ _ ltac:(by rewrite <- app_assoc) HTk H1).
Qed.

(** ** The transitions of the rows *)

Lemma trans_zget p X q : trans p X q -> zget acc q = X.
Proof. intros H. apply trans_acc in H. apply rd_range in H as R. rewrite rd_zget in H by done. by injection H. Qed.

Lemma trans_known p X q : trans p X q -> known q /\ state q /\ X < nsyms g.
Proof.
  intros H. pose proof (trans_zget _ _ _ H) as Ez. apply trans_acc in H as Ea. destruct (trans_states _ _ _ H) as [_ Hq].
  assert (HX : X < nsyms g); [|unfold known; by rewrite Ez].
  destruct H as (HX & Y & Kp & Kq & _ & _ & _ & Hne & Hg). destruct Kq as [|j Kq]; [done|].
  destruct (proj1 (Hg j) ltac:(by left)) as (i & _ & Ei & _). apply rd_range in Ei as R. rewrite <- (lo_nitems _ _ L) in R.
  destruct (decide (i = 0)) as [->|]; [rewrite (lo_ritem _ _ L) in Ei; injection Ei as <-; lia|].
  destruct (item_symbol g ps L i) as (Z & EZ & HZ); [lia|]. congruence.
Qed.

Lemma row_acc p row : row_of p row -> StronglySorted Z.lt (map (zget acc) row).
Proof.
  intros (_ & _ & _ & syms & Hs & Hrow). replace (map (zget acc) row) with syms; [done|].
  apply list_eq_Forall2. clear Hs. induction Hrow as [|X q syms row H _ IH]; [constructor|]. constructor; [|done]. by apply trans_zget in H.
Qed.

Lemma elem_of_rev {A} (x : A) l : x ∈ rev l <-> x ∈ l.
Proof. rewrite !list_elem_of_In. symmetry. apply in_rev. Qed.

Lemma sorted_rev l : StronglySorted Z.lt l -> StronglySorted Z.gt (rev l).
Proof.
  induction 1 as [|x l Hl IH Hx]; [constructor|]. cbn. apply sorting.StronglySorted_app_2; [|done|repeat constructor].
  intros a b Ha ->%list_elem_of_singleton. rewrite elem_of_rev in Ha. rewrite Forall_forall in Hx. specialize (Hx _ Ha). lia.
Qed.

(** the variables lead to the last states of a row *)
Lemma elem_of_leading l : StronglySorted Z.gt (map (zget acc) l) -> forall q, q ∈ leading l <-> q ∈ l /\ start_symbol g <= zget acc q.
Proof.
  induction l as [|x l IH]; intros Hs q; cbn [leading map] in *; [rewrite elem_of_nil; tauto|]. apply StronglySorted_inv in Hs as [Hs Hx].
  unfold ISTOKEN. destruct (Z.ltb_spec (zget acc x) (start_symbol g)) as [Lt|Ge].
  - rewrite elem_of_nil. split; [done|]. intros [[->|Hq]%elem_of_cons ?]; [lia|]. rewrite Forall_map, Forall_forall in Hx.
    specialize (Hx _ Hq). cbn in Hx. lia.
  - rewrite !elem_of_cons, IH by done. split; [intros [->|?]; tauto|tauto].
Qed.

Lemma row_leading p row q : row_of p row -> q ∈ leading (rev row) <-> exists X, trans p X q /\ start_symbol g <= X.
Proof.
  intros H. rewrite elem_of_leading by (rewrite map_rev; by apply sorted_rev, (row_acc p)). rewrite elem_of_rev.
  destruct H as (_ & _ & Hq & _). rewrite Hq. split; [intros [(X & Ht) HX]|intros (X & Ht & HX)]; pose proof (trans_zget _ _ _ Ht); [exists X|split; [exists X|]]; by subst.
Qed.

Lemma row_sel a n l : StronglySorted Z.gt (map (zget acc) l) -> Forall (fun x => x.1 = n) (sel a (map (pair n) (leading l))) /\ zlen (sel a (map (pair n) (leading l))) <= 1.
Proof.
  induction l as [|x l IH]; intros Hs; cbn [leading map] in *; [by split; [constructor|]|]. apply StronglySorted_inv in Hs as [Hs Hx].
  destruct (ISTOKEN g (zget acc x)); [by split; [constructor|]|]. destruct (IH Hs) as [F Hle]. cbn [map sel snd].
  destruct (Z.eqb_spec (key x) a) as [E|]; [|done]. split; [by constructor|]. rewrite zlen_cons.
  destruct (sel a (map (pair n) (leading l))) as [|y D] eqn:Q; [done|]. assert (Hy : y ∈ sel a (map (pair n) (leading l))) by (rewrite Q; by left).
  apply elem_of_sel in Hy as [(q & -> & Hq)%list_elem_of_fmap Ek]. apply elem_of_leading in Hq as [Hq _]; [|done].
  rewrite Forall_map, Forall_forall in Hx. specialize (Hx _ Hq). unfold key in *. cbn in *. lia.
Qed.

Lemma elem_of_transitions l p q : Forall (fun sp => row_of (shifts_number sp) (Lr0.shift sp)) l ->
  (p, q) ∈ transitions l <-> p ∈ map shifts_number l /\ exists X, trans p X q /\ start_symbol g <= X.
Proof.
  induction 1 as [|sp l Hsp Hl IH]; cbn [transitions map]; [rewrite !elem_of_nil; tauto|].
  rewrite elem_of_app, elem_of_cons, IH, list_elem_of_fmap. split.
  - intros [(q' & [= -> ->] & Hq)|[? ?]]; [|tauto]. apply (row_leading _ _ _ Hsp) in Hq. tauto.
  - intros [[->|?] HX]; [left; exists q; split; [done|]; by apply (row_leading _ _ _ Hsp)|tauto].
Qed.

Lemma transitions_sorted a l : StronglySorted Z.lt (map shifts_number l) -> Forall (fun sp => row_of (shifts_number sp) (Lr0.shift sp)) l ->
  StronglySorted Z.lt (map fst (sel a (transitions l))).
Proof.
  intros Hs Hr. induction Hr as [|sp l Hsp Hr IH]; cbn [transitions]; [constructor|]. cbn [map] in Hs. apply StronglySorted_inv in Hs as [Hs Hlt].
  rewrite sel_app, map_app. destruct (row_sel a (shifts_number sp) (rev (Lr0.shift sp))) as [F Hle].
  { rewrite map_rev. by apply sorted_rev, (row_acc _ _ Hsp). }
  apply sorting.StronglySorted_app_2; [|by destruct (sel a (map _ _)) as [|x [|y D]]; [constructor|repeat constructor|rewrite !zlen_cons in Hle; pose proof (zlen_nonneg D); lia]|by apply IH].
  intros u v (x & -> & Hx)%list_elem_of_fmap (y & -> & Hy)%list_elem_of_fmap. rewrite Forall_forall in F. rewrite (F _ Hx).
  apply elem_of_sel in Hy as [Hy _]. destruct y as [py qy]. apply (elem_of_transitions l) in Hy as [Hy _]; [|done]. rewrite Forall_forall in Hlt. by apply Hlt.
Qed.

Lemma rows_of_shifts : Forall (fun sp => row_of (shifts_number sp) (Lr0.shift sp)) ss.
Proof. apply Forall_forall. intros sp. apply shifts_row. Qed.

Lemma elem_of_T p q : (p, q) ∈ T <-> exists X, trans p X q /\ start_symbol g <= X.
Proof.
  unfold T. rewrite (elem_of_transitions ss) by apply rows_of_shifts. split; [tauto|]. intros (X & Ht & HX). split; [|by exists X].
  destruct (row_exists p) as [row Hrow]; [by apply (trans_states _ _ _ Ht)|]. pose proof Hrow as (_ & Hs & Hq & _).
  assert (Hin : q ∈ row) by (apply Hq; by exists X). destruct row as [|x row]; [by apply elem_of_nil in Hin|]. apply list_elem_of_fmap. by exists (Shifts p (x :: row)).
Qed.

(** ** The numbers of the gotos *)

Lemma psum_cons c cs a : 0 <= a -> psum (c :: cs) (a + 1) = c + psum cs a.
Proof. intros Ha. unfold psum. replace (Z.to_nat (a + 1)) with (S (Z.to_nat a)) by lia. done. Qed.

Lemma psum_split cs : Forall (fun x => 0 <= x) cs -> forall k, 0 <= k < sumZ cs ->
  exists a, 0 <= a < zlen cs /\ psum cs a <= k < psum cs a + zget cs a.
Proof.
  induction 1 as [|c cs Hc Hcs IH]; intros k Hk; cbn [sumZ] in Hk; [lia|]. rewrite zlen_cons. pose proof (zlen_nonneg cs).
  destruct (Z.lt_ge_cases k c) as [Lt|Ge]; [exists 0; split; [lia|unfold psum, zget; change (Z.to_nat 0) with 0%nat; cbn; lia]|]. destruct (IH (k - c)) as (a & Ha & Hle); [lia|].
  exists (a + 1). rewrite psum_cons by lia. split; [lia|]. unfold zget in *. replace (Z.to_nat (a + 1)) with (S (Z.to_nat a)) by lia. cbn [nth]. lia.
Qed.

Record gotos_ok (gs : gotos) : Prop := {
  go_sizes : zlen (goto_map gs) = nvars g + 1 /\ ngotos gs = zlen T /\ zlen (to_state gs) = zlen T /\ zlen T <= MAXSHORT;
  go_map : forall a, 0 <= a <= nvars g -> zget (goto_map gs) a = sbase a;
  go_from : forall a t, 0 <= a < nvars g -> 0 <= t < zlen (sel a T) -> zget (from_state gs) (sbase a + t) = zget (map fst (sel a T)) t;
  go_to : forall a t, 0 <= a < nvars g -> 0 <= t < zlen (sel a T) -> zget (to_state gs) (sbase a + t) = zget (map snd (sel a T)) t }.

Lemma T_keys : Forall (fun x => 0 <= key x.2 < nvars g) T.
Proof.
  apply Forall_forall. intros [p q] (X & Ht & HX)%elem_of_T. cbn. destruct (trans_known _ _ _ Ht) as (_ & _ & H).
  unfold key, nvars, ntokens. rewrite (trans_zget _ _ _ Ht). lia.
Qed.

Lemma ss_known : Forall (fun sp => Forall (fun q => known q /\ state q) (Lr0.shift sp) /\ state (shifts_number sp)) ss.
Proof.
  eapply Forall_impl; [apply rows_of_shifts|]. cbn. intros sp (Hp & _ & Hq & _). split; [|done]. apply Forall_forall.
  intros q (X & Ht)%Hq. destruct (trans_known _ _ _ Ht) as (? & ? & _). done.
Qed.

Lemma vars_positive : 0 < nvars g.
Proof. pose proof (lo_start _ _ L). unfold nvars, ntokens. lia. Qed.

Lemma set_goto_map_ok : (zlen T <= MAXSHORT /\ exists gs, set_goto_map g acc ss = Ok gs /\ gotos_ok gs) \/
  (MAXSHORT < zlen T /\ set_goto_map g acc ss = Raise (Failure "too many gotos")).
Proof.
  pose proof vars_positive as Hnv. unfold set_goto_map.
  destruct (count_all_gotos_ok ss) with (map := replicate (Z.to_nat (nvars g + 1)) 0) (n := 0) as [(Hle & cs & -> & Hz & Hc)|[Hgt ->]]; cbn [rbind].
  - eapply Forall_impl; [apply ss_known|]. intros sp [H _]. eapply Forall_impl; [exact H|]. by intros q [? _].
  - rewrite zlen_replicate. lia.
  - intros a Ha. rewrite zget_zeros. lia.
  - unfold MAXSHORT. lia.
  - left. rewrite Z.add_0_l in Hle. fold T in *. split; [done|]. rewrite Z.add_0_l.
    assert (Et : take (Z.to_nat (nvars g)) cs = tally nv T).
    { apply zget_ext; [unfold zlen in *; rewrite length_take; unfold tally, nv; rewrite length_map, length_seq; lia|]. intros a Ha.
      assert (Ha' : 0 <= a < nvars g) by (unfold zlen in Ha; rewrite length_take in Ha; lia).
      rewrite zget_tally, sel_occ by (unfold nv; lia). unfold zget at 1. rewrite nth_lookup, lookup_take, decide_True by lia.
      rewrite <- nth_lookup. fold (zget cs a). by rewrite Hc, zget_zeros by done. }
    assert (Es : sumZ (tally nv T) = zlen T) by (apply tally_sum; eapply Forall_impl; [apply T_keys|]; unfold nv; cbn; lia).
    pose proof (zlen_nonneg T). rewrite Et, goto_bases_ok, s16_short by (try apply tally_nonneg; lia).
    set (gm := bases (tally nv T) 0 ++ [zlen T]).
    assert (Zg : zlen gm = nvars g + 1) by (unfold gm; rewrite zlen_snoc; unfold zlen; rewrite bases_length; fold (zlen (tally nv T)); rewrite tally_zlen; unfold nv; lia).
    assert (Hg : forall a, 0 <= a <= nvars g -> zget gm a = sbase a).
    { intros a Ha. unfold gm, zget. rewrite nth_lookup. destruct (decide (a = nvars g)) as [->|].
      - rewrite lookup_app_r by (rewrite bases_length; unfold tally, nv; rewrite length_map, length_seq; lia).
        rewrite bases_length. unfold tally at 1. rewrite length_map, length_seq. unfold nv at 1. rewrite Nat.sub_diag. cbn.
        rewrite <- Es, <- psum_all, tally_zlen. unfold sbase, nv. f_equal. lia.
      - rewrite lookup_app_l by (rewrite bases_length; unfold tally, nv; rewrite length_map, length_seq; lia).
        rewrite bases_lookup by (unfold tally, nv; rewrite length_map, length_seq; lia). done. }
    destruct (put_all_gotos_ok ss ss_known (la_count _ _ _ _ _ Au) Hle [] gm (replicate (Z.to_nat (zlen T)) 0) (replicate (Z.to_nat (zlen T)) 0))
      as (temp & from & to & -> & [(S1 & S2 & S3) _ Hf Ht]); [done|apply T_keys| |].
    + pose proof (zlen_nil (A := Z * Z)). constructor; cbn [sel]; [rewrite !zlen_replicate; split_and!; lia| |intros; lia..].
      intros a Ha. rewrite Hg; lia.
    + cbn [rbind]. eexists. split; [done|]. constructor; cbn [goto_map from_state to_state]; try done.
  - right. split; [|done]. fold T in Hgt. lia.
Qed.

(** ** The search of a goto *)

Section Numbered.
Context (gs : gotos) (G : gotos_ok gs).

(** the transition numbered [k] *)
Definition goto_at (k p q : Z) : Prop := 0 <= k < ngotos gs /\ zget (from_state gs) k = p /\ zget (to_state gs) k = q.

Lemma segment_range a t : 0 <= a < nvars g -> 0 <= t < zlen (sel a T) -> 0 <= sbase a + t < ngotos gs.
Proof.
  intros Ha Ht. destruct (go_sizes _ G) as (_ & -> & _). destruct (sbase_room a T []) as [H1 H2]; [by rewrite app_nil_r|done|apply T_keys|].
  change (sel a []) with (@nil (Z * Z)) in H2. pose proof (zlen_nil (A := Z * Z)). lia.
Qed.

Lemma segment_at a t x : 0 <= a < nvars g -> sel a T !! t = Some x -> goto_at (sbase a + Z.of_nat t) x.1 x.2.
Proof.
  intros Ha Ex. apply lookup_lt_Some in Ex as Hlt. assert (Ht : 0 <= Z.of_nat t < zlen (sel a T)) by (unfold zlen; lia).
  split; [by apply segment_range|]. rewrite (go_from _ G), (go_to _ G) by done. unfold zget. rewrite !nth_lookup, Nat2Z.id, !list_lookup_fmap, Ex. done.
Qed.

(** every transition on a variable has a number, in the segment of the variable *)
Lemma goto_number p A q : trans p A q -> start_symbol g <= A ->
  exists k, goto_at k p q /\ sbase (A - ntokens g) <= k < sbase (A - ntokens g + 1).
Proof.
  intros Ht HA. destruct (trans_known _ _ _ Ht) as (_ & _ & HA'). assert (Ha : 0 <= A - ntokens g < nvars g) by (unfold nvars, ntokens; lia).
  assert (Hin : (p, q) ∈ sel (A - ntokens g) T).
  { apply elem_of_sel. split; [apply elem_of_T; by exists A|]. cbn. unfold key. by rewrite (trans_zget _ _ _ Ht). }
  apply list_elem_of_lookup in Hin as [t Et]. exists (sbase (A - ntokens g) + Z.of_nat t). split; [by apply (segment_at _ _ _ Ha Et)|].
  apply lookup_lt_Some in Et. unfold sbase. rewrite psum_next, zget_tally by (rewrite ?tally_zlen; unfold nv; lia). unfold zlen. lia.
Qed.

(** every number is the one of a transition on a variable *)
Lemma goto_transition k : 0 <= k < ngotos gs -> exists p A q, goto_at k p q /\ trans p A q /\ start_symbol g <= A /\
  sbase (A - ntokens g) <= k < sbase (A - ntokens g + 1).
Proof.
  intros Hk. destruct (go_sizes _ G) as (_ & En & _). assert (Es : sumZ (tally nv T) = zlen T).
  { apply tally_sum. eapply Forall_impl; [apply T_keys|]. unfold nv. cbn. lia. }
  destruct (psum_split (tally nv T) (tally_nonneg _ _) k) as (a & Ha & Hle); [lia|]. rewrite tally_zlen in Ha.
  assert (Ha' : 0 <= a < nvars g) by (unfold nv in Ha; lia). rewrite zget_tally in Hle by done. fold (sbase a) in Hle.
  destruct (lookup_lt_is_Some_2 (sel a T) (Z.to_nat (k - sbase a))) as [[p q] Et]; [unfold zlen in Hle; lia|].
  pose proof (segment_at a _ _ Ha' Et) as Hat. rewrite Z2Nat.id in Hat by lia. replace (sbase a + (k - sbase a)) with k in Hat by lia.
  apply list_elem_of_lookup_2, elem_of_sel in Et as [Hin Ek]. apply elem_of_T in Hin as (A & Ht & HA). cbn in *.
  unfold key in Ek. rewrite (trans_zget _ _ _ Ht) in Ek. exists p, A, q. split_and!; [done|done|done|..]; rewrite Ek; [lia|].
  unfold sbase. rewrite psum_next, zget_tally by (rewrite ?tally_zlen; lia). fold (sbase a). lia.
Qed.

Lemma sorted_zget l : StronglySorted Z.lt l -> forall i j, 0 <= i < j -> j < zlen l -> zget l i < zget l j.
Proof.
  induction 1 as [|x l Hl IH Hx]; intros i j Hij Hj; [rewrite zlen_nil in Hj; lia|]. rewrite zlen_cons in Hj.
  assert (Es : forall k, 0 < k -> zget (x :: l) k = zget l (k - 1)).
  { intros k Hk. unfold zget. replace (Z.to_nat k) with (S (Z.to_nat (k - 1))) by lia. done. }
  rewrite (Es j) by lia. destruct (decide (i = 0)) as [->|]; [|rewrite Es by lia; apply IH; lia].
  rewrite Forall_forall in Hx. apply Hx. unfold zget. apply list_elem_of_lookup. exists (Z.to_nat (j - 1)).
  destruct (lookup_lt_is_Some_2 l (Z.to_nat (j - 1))) as [y Ey]; [unfold zlen in Hj; lia|]. rewrite nth_lookup, Ey. done.
Qed.

(** the states of a segment are sorted *)
Lemma segment_sorted a i j : 0 <= a < nvars g -> sbase a <= i < j -> j < sbase (a + 1) -> zget (from_state gs) i < zget (from_state gs) j.
Proof.
  intros Ha Hij Hj. unfold sbase in Hj. rewrite psum_next, zget_tally in Hj by (rewrite ?tally_zlen; unfold nv; lia). fold (sbase a) in Hj.
  replace i with (sbase a + (i - sbase a)) by lia. replace j with (sbase a + (j - sbase a)) by lia. rewrite !(go_from _ G) by lia.
  apply sorted_zget; [|lia|rewrite zlen_map; lia]. apply transitions_sorted; [|apply rows_of_shifts].
  apply (rt_shifts _ _ _ _ _ _ (la_rows _ _ _ _ _ Au)).
Qed.

Lemma goto_at_unique k k' p q : goto_at k p q -> goto_at k' p q -> k = k'.
Proof.
  intros Hk Hk'. destruct (goto_transition k (proj1 Hk)) as (p1 & A & q1 & (_ & E1 & E2) & Ht & HA & Hs).
  destruct (goto_transition k' (proj1 Hk')) as (p2 & A' & q2 & (_ & E3 & E4) & Ht' & HA' & Hs').
  destruct Hk as (_ & E5 & E6), Hk' as (_ & E7 & E8). assert (A = A') as <-.
  { rewrite <- (trans_zget _ _ _ Ht), <- (trans_zget _ _ _ Ht'). congruence. }
  destruct (trans_known _ _ _ Ht) as (_ & _ & HA2). assert (Ha : 0 <= A - ntokens g < nvars g) by (unfold nvars, ntokens; lia).
  destruct (Z.lt_trichotomy k k') as [H|[H|H]]; [|done|].
  - pose proof (segment_sorted _ k k' Ha ltac:(lia) ltac:(lia)). lia.
  - pose proof (segment_sorted _ k' k Ha ltac:(lia) ltac:(lia)). lia.
Qed.

Lemma map_goto_loop_ok from lo hi k : (forall i j, lo <= i < j -> j < hi -> zget from i < zget from j) -> 0 <= lo -> hi <= zlen from ->
  forall fuel low high, lo <= low <= k -> k <= high <= hi -> k < hi -> high - low < Z.of_nat fuel ->
  map_goto_loop fuel from (zget from k) low high = Ok k.
Proof.
  intros Hs Hlo Hhi. induction fuel as [|fuel IH]; intros low high H1 H2 H3 Hf; [lia|]. cbn [map_goto_loop].
  destruct (Z.ltb_spec high low); [lia|]. rewrite Z.shiftr_div_pow2 by lia. change (2 ^ 1) with 2.
  assert (Hm : low <= (low + high) / 2 < hi /\ (low + high) / 2 <= high) by zlia. rewrite rd_zget by lia. cbn [rbind].
  destruct (Z.eqb_spec (zget from ((low + high) / 2)) (zget from k)) as [E|Ne].
  - f_equal. destruct (Z.lt_trichotomy ((low + high) / 2) k) as [H'|[H'|H']]; [|done|].
    + pose proof (Hs ((low + high) / 2) k). lia.
    + pose proof (Hs k ((low + high) / 2)). lia.
  - destruct (Z.ltb_spec (zget from ((low + high) / 2)) (zget from k)) as [Lt|Ge].
    + assert ((low + high) / 2 < k). { destruct (Z.lt_ge_cases ((low + high) / 2) k) as [|Q]; [done|].
        destruct (decide (k = (low + high) / 2)) as [E|]; [rewrite <- E in Lt; lia|]. pose proof (Hs k ((low + high) / 2)). lia. }
      apply IH; lia.
    + assert (k < (low + high) / 2). { destruct (Z.lt_ge_cases k ((low + high) / 2)) as [|Q]; [done|].
        destruct (decide (k = (low + high) / 2)) as [E|]; [rewrite <- E in Ne; lia|]. pose proof (Hs ((low + high) / 2) k). lia. }
      apply IH; lia.
Qed.

Lemma map_goto_ok p A q : trans p A q -> start_symbol g <= A -> exists k, map_goto g gs p A = Ok k /\ goto_at k p q.
Proof.
  intros Ht HA. destruct (goto_number p A q Ht HA) as (k & Hk & Hs). exists k. split; [|done].
  destruct (trans_known _ _ _ Ht) as (_ & _ & HA2). assert (Ha : 0 <= A - ntokens g < nvars g) by (unfold nvars, ntokens; lia).
  destruct (go_sizes _ G) as (Z1 & Z2 & Z3 & Z4). unfold map_goto. rewrite rd_zget by lia. cbn [rbind]. rewrite rd_zget by lia. cbn [rbind].
  rewrite !(go_map _ G) by lia. destruct Hk as (Hk & <- & _). replace (A + 1 - ntokens g) with (A - ntokens g + 1) by lia.
  assert (Hb : 0 <= sbase (A - ntokens g) /\ sbase (A - ntokens g + 1) <= zlen (from_state gs)).
  { destruct (sbase_room (A - ntokens g) T []) as [H1 H2]; [by rewrite app_nil_r|done|apply T_keys|].
    change (sel (A - ntokens g) []) with (@nil (Z * Z)) in H2. pose proof (zlen_nil (A := Z * Z)). unfold sbase at 2.
    rewrite psum_next, zget_tally by (rewrite ?tally_zlen; unfold nv; lia). fold (sbase (A - ntokens g)). unfold ngotos in Z2. lia. }
  apply (map_goto_loop_ok _ (sbase (A - ntokens g)) (sbase (A - ntokens g + 1))); [|lia|lia|lia|lia|lia|unfold zlen in *; lia].
  intros i j H1 H2. by apply (segment_sorted _ i j Ha).
Qed.

End Numbered.

End Automaton.
