(* ===== verification/Lookaheads.v ===== *)
(** * The LALR(1) lookaheads

    The specification of [lalr] of [Lalr.v], after DeRemer and Pennello: the tokens read
    after a goto, the tokens that follow it, and the lookaheads of a reduction, as
    inductive relations on the transitions of the automaton of [Lr0.v]; and the proof that
    the bit matrices of the code are these relations. *)

From S2P Require Import Prelude.
From S2P Require Import Warshall.
From S2P Require Import Grammar.
From S2P Require Import Closure.
From S2P Require Import Lr0.
From S2P Require Import Digraph.
From S2P Require Import Lalr.
From S2P Require Import Transpose.
From S2P Require Import Gotos.
From Stdlib Require Import Sorting.Sorted.
From stdpp Require Import relations sorting.
#[local] Open Scope Z_scope.

(** ** The relations *)

Section Relations.
Context (g : grammar) (ps : list production) (cores : list core).

#[local] Abbreviation trans := (trans g ps cores).

Definition nul (X : Z) : Prop := derives_empty ps X.

(** the tokens read after the goto of [p] on [A], nullable variables being skipped; the rule 2
    of the start symbol reads the end of the input after the goal, in the first state *)
Inductive reads : Z -> Z -> Z -> Prop :=
  | reads_shift p A r t q : trans p A r -> trans r t q -> t < start_symbol g -> reads p A t
  | reads_nullable p A r C r' t : trans p A r -> trans r C r' -> start_symbol g <= C -> nul C -> reads r C t -> reads p A t
  | reads_end goal : rule ps 2 (start_symbol g, [goal; 0]) -> reads 0 goal 0.

Fixpoint path (p : Z) (w : list Z) (q : Z) : Prop :=
  match w with [] => p = q | X :: w => exists r, trans p X r /\ path r w q end.

(** the tokens that follow a goto: those that follow the variable that it ends *)
Inductive follows : Z -> Z -> Z -> Prop :=
  | follows_reads p A t : reads p A t -> follows p A t
  | follows_includes p A t p' B q' r u v : rule ps r (B, u ++ A :: v) -> Forall nul v -> path p' u p -> trans p' B q' ->
      follows p' B t -> follows p A t.

(** the lookaheads of the rule [r] in the state [q] *)
Definition lookahead (q r t : Z) : Prop := exists p A w q', rule ps r (A, w) /\ path p w q /\ trans p A q' /\ follows p A t.

(** the rules that pack_symbols and pack_grammar of reader.c make: the start symbol is the
    left-hand side of the rule of the goal only, which is the next symbol, and no rule uses it *)
Record augmented : Prop := {
  ag_rules : forall r A w, rule ps r (A, w) -> A = start_symbol g \/ Forall (fun X => 1 <= X) w;
  ag_goal : rule ps 2 (start_symbol g, [start_symbol g + 1; 0]);
  ag_start : forall r A w, rule ps r (A, w) -> start_symbol g ∉ w }.

End Relations.

(** ** Tables by state *)

Lemma sorted_lookup {A} (R : A -> A -> Prop) l i j x y : StronglySorted R l -> l !! i = Some x -> l !! j = Some y -> (i < j)%nat -> R x y.
Proof.
  intros Hs. revert i j. induction Hs as [|z l Hs IH Hz]; intros [|i] [|j] Ei Ej Hij; try done || lia; cbn in *.
  - injection Ei as ->. rewrite Forall_forall in Hz. apply Hz. by apply list_elem_of_lookup_2 in Ej.
  - apply (IH i j); [done|done|lia].
Qed.

Lemma set_table_ok {A B} (number : A -> Z) (value : A -> B) l n : StronglySorted Z.lt (map number l) ->
  Forall (fun s => 0 <= s < n) (map number l) -> forall table, zlen table = n ->
  exists table', set_table number value l table = Ok table' /\ zlen table' = n /\
    (forall sp, sp ∈ l -> rd table' (number sp) = Ok (Some (value sp))) /\
    forall s, s ∉ map number l -> rd table' s = rd table s.
Proof.
  induction l as [|sp l IH]; intros Hs Hr table Hz; cbn [set_table map] in *.
  - exists table. split_and!; [done|done|by intros sp ?%elem_of_nil|done].
  - apply StronglySorted_inv in Hs as [Hs Hlt]. apply Forall_cons in Hr as [Hn Hr]. rewrite wr_in_range by lia. cbn [rbind].
    destruct (IH Hs Hr (<[Z.to_nat (number sp) := Some (value sp)]> table)) as (t' & E & Hz' & Hin & Hout); [by rewrite zlen_insert|].
    exists t'. split_and!; [done|done| |].
    + intros sp' [->|H]%elem_of_cons; [|by apply Hin]. rewrite Hout.
      * apply rd_insert_eq. lia.
      * intros Hx. rewrite Forall_forall in Hlt. specialize (Hlt _ Hx). lia.
    + intros s Hx. rewrite not_elem_of_cons in Hx. destruct Hx as [Ne Hx]. rewrite Hout by done. unfold rd.
      destruct (Z.ltb_spec s 0); [done|]. by rewrite list_lookup_insert_ne by lia.
Qed.


(** ** The union of the rows of the gotos *)

Section Tokens.
Context (rs n N : Z) (f : list Z) (Hrs : 0 <= rs) (Hf : zlen f = N * rs).

Lemma or_tokens_spec LA rowp fp2 : 0 <= rowp -> rowp + rs <= zlen LA -> 0 <= fp2 -> fp2 + rs <= zlen f ->
  exists LA', or_tokens LA rowp f fp2 rs = Ok LA' /\ zlen LA' = zlen LA /\
    forall p, 0 <= p -> zget LA' p = if (rowp <=? p) && (p <? rowp + rs) then Z.lor (zget LA p) (zget f (p - rowp + fp2)) else zget LA p.
Proof.
  intros Hb Hb' Hp Hp'. unfold or_tokens. edestruct (while_loop_inv
    (fun '(LA', fp1, fp) => exists t, 0 <= t <= rs /\ fp1 = rowp + t /\ fp = fp2 + t /\ zlen LA' = zlen LA /\
       forall p, 0 <= p -> zget LA' p = if (rowp <=? p) && (p <? rowp + t) then Z.lor (zget LA p) (zget f (p - rowp + fp2)) else zget LA p)
    (fun '(_, fp1, _) => rowp + rs - fp1)) as ([[LA' fp1] fp] & -> & Hinv & Hend); [..|cbn in *].
  - intros [[LA' fp1] fp] (t & Ht & -> & _). lia.
  - intros [[LA' fp1] fp] (t & Ht & -> & -> & Hz & Hg) Hc%Z.ltb_lt. rewrite !rd_zget by lia. cbn [rbind].
    rewrite wr_in_range by lia. cbn [rbind]. eexists. split; [done|]. split; [|lia]. exists (t + 1). rewrite zlen_insert.
    split_and!; [lia|lia|lia|lia|lia|]. intros p Hp0. rewrite zget_insert, !Hg by lia.
    destruct (Z.eqb_spec (rowp + t) p) as [<-|Hne]; [replace (rowp + t - rowp + fp2) with (fp2 + t) by lia|]; zcases.
  - exists 0. split_and!; [lia|lia|lia|lia|lia|]. intros p Hp0. zcases.
  - lia.
  - destruct Hinv as (t & Ht & -> & -> & Hz & Hg). apply Z.ltb_ge in Hend. replace t with rs in * by lia. exists LA'. done.
Qed.

Lemma or_tokens_added LA i v : zlen LA = n * rs -> 0 <= i < n -> 0 <= v < N ->
  exists LA', or_tokens LA (i * rs) f (rs * v) rs = Ok LA' /\ added LA LA' rs i (fun t => entry f rs v t = true).
Proof.
  intros Hz Hi Hv. destruct (or_tokens_spec LA (i * rs) (rs * v)) as (LA' & E & Z & Hg); [nia..|]. exists LA'. split; [done|]. split; [done|].
  intros i' t Hi' Ht. unfold entry. assert (Hw : 0 <= t / 32 < rs) by zlia. rewrite Hg by nia. destruct (decide (i' = i)) as [->|Ne].
  - replace (i * rs + t / 32 - i * rs + rs * v) with (v * rs + t / 32) by lia.
    destruct (Z.leb_spec (i * rs) (i * rs + t / 32)); [|lia]. destruct (Z.ltb_spec (i * rs + t / 32) (i * rs + rs)); [|lia].
    cbn [andb]. rewrite Z.lor_spec, orb_true_iff. tauto.
  - pose proof (cell_row rs i' i (t / 32) Hw). destruct (Z.leb_spec (i * rs) (i' * rs + t / 32)); cbn [andb]; [|tauto].
    destruct (Z.ltb_spec (i' * rs + t / 32) (i * rs + rs)); [lia|tauto].
Qed.

Lemma or_lookbacks_added i sp : 0 <= i < n -> Forall (fun v => 0 <= v < N) sp -> forall LA, zlen LA = n * rs ->
  exists LA', or_lookbacks f rs (i * rs) sp LA = Ok LA' /\ added LA LA' rs i (fun t => exists v, v ∈ sp /\ entry f rs v t = true).
Proof.
  intros Hi. induction 1 as [|v sp Hv _ IH]; intros LA Hz; cbn [or_lookbacks].
  - exists LA. split; [done|]. apply added_none. by intros t _ (v & ?%elem_of_nil & _).
  - destruct (or_tokens_added LA i v Hz Hi Hv) as (L1 & -> & Z1 & A1). cbn [rbind]. destruct (IH L1) as (L2 & -> & Z2 & A2); [lia|].
    exists L2. split; [done|]. split; [lia|]. intros i' t Hi' Ht. rewrite A2, A1 by done. split.
    + intros [[?|[-> ?]]|[-> (v' & ? & ?)]]; [by left|right; split; [done|]; exists v|right; split; [done|]; exists v']; rewrite elem_of_cons; tauto.
    + intros [?|[-> (v' & [->|?]%elem_of_cons & ?)]]; [by left; left|by left; right|right; split; [done|]; by exists v'].
Qed.

Lemma compute_lookaheads_ok lookback LA0 : 0 <= n <= zlen lookback -> zlen LA0 = n * rs ->
  (forall i t, 0 <= i < n -> 0 <= t < 32 * rs -> entry LA0 rs i t = false) ->
  (forall i sp, rd lookback i = Ok sp -> Forall (fun v => 0 <= v < N) sp) ->
  exists LA, compute_lookaheads f rs lookback n LA0 = Ok LA /\ zlen LA = n * rs /\
    forall i t, 0 <= i < n -> 0 <= t < 32 * rs -> entry LA rs i t = true <-> exists sp v, rd lookback i = Ok sp /\ v ∈ sp /\ entry f rs v t = true.
Proof.
  intros Hn Hz Hzero Hsp. unfold compute_lookaheads.
  destruct (for_loop_inv (fun j LA => zlen LA = n * rs /\ forall i t, 0 <= i < n -> 0 <= t < 32 * rs ->
      entry LA rs i t = true <-> i < j /\ exists sp v, rd lookback i = Ok sp /\ v ∈ sp /\ entry f rs v t = true)
    (Z.to_nat n) 0 (fun i LA => let* sp := rd lookback i in or_lookbacks f rs (i * rs) sp LA) LA0) as (LA & -> & Z & H).
  - split; [done|]. intros i t Hi Ht. rewrite Hzero by done. split; [done|lia].
  - intros j LA Hj (Z & H). destruct (rd_in_range lookback j) as [sp Esp]; [lia|]. rewrite Esp. cbn [rbind].
    destruct (or_lookbacks_added j sp ltac:(lia) (Hsp j sp Esp) LA Z) as (LA' & -> & Z' & A). exists LA'. split; [done|]. split; [lia|].
    intros i t Hi Ht. rewrite A, H by lia. split.
    + intros [[? ?]|[-> (v & ? & ?)]]; (split; [lia|]); [done|]. by exists sp, v.
    + intros [Hle (sp' & v & E & ? & ?)]. destruct (decide (i = j)) as [->|Ne]; [right|left; split; [lia|by exists sp', v]].
      rewrite Esp in E. injection E as <-. split; [done|]. by exists v.
  - exists LA. split; [done|]. split; [done|]. intros i t Hi Ht. rewrite H by done. split; [by intros [_ ?]|by split; [lia|]].
Qed.

End Tokens.

Section Lookaheads.
Context (g : grammar) (ps : list production) (L : lays_out g ps).
Context (cores : list core) (ss : list shifts) (rs : list reductions) (Au : lr0_automaton g ps cores ss rs).

#[local] Abbreviation trans := (trans g ps cores).
#[local] Abbreviation acc := (acc cores).
#[local] Abbreviation state := (state cores).
#[local] Abbreviation row_of := (row_of g ps cores ss).
#[local] Abbreviation T := (T g cores ss).

(** the rules complete in a state *)
Definition reds_of (p : Z) (reds : list Z) : Prop := reductions_of rs p reds /\ exists X K, rd (kernels cores) p = Ok (X, K) /\ completes g ps K reds.

Lemma reds_exists p : state p -> exists reds, reds_of p reds.
Proof.
  intros Hp. destruct (rd_in_range (kernels cores) p) as [[X K] E]; [rewrite zlen_kernels; exact Hp|].
  destruct (rt_row _ _ _ _ _ _ (la_rows _ _ _ _ _ Au) p X K) as (_ & reds & _ & _ & H1 & H2); [apply Hp|done|]. exists reds. split; [done|]. by exists X, K.
Qed.

Lemma shift_table_ok : exists st, set_shift_table (zlen cores) ss = Ok st /\ forall p row, row_of p row -> rd st p = Ok (edges row).
Proof.
  destruct (rt_shifts _ _ _ _ _ _ (la_rows _ _ _ _ _ Au)) as [Hs Hr].
  destruct (set_table_ok shifts_number Lr0.shift ss (zlen cores) Hs Hr (replicate (Z.to_nat (zlen cores)) None)) as (st & E & Hz & Hin & Hout).
  { rewrite zlen_replicate. pose proof (zlen_nonneg cores). lia. }
  exists st. split; [done|]. intros p row ([Hp1 Hp2] & Hsh & _). destruct row as [|q row]; cbn in *.
  - rewrite Hout by done. apply rd_Ok. split; [done|]. apply lookup_replicate. split; [done|]. lia.
  - by apply (Hin (Shifts p (q :: row))).
Qed.

Lemma reduction_table_ok : exists rt, set_reduction_table (zlen cores) rs = Ok rt /\ zlen rt = zlen cores /\
  forall p reds, state p -> reds_of p reds -> rd rt p = Ok (edges reds).
Proof.
  destruct (rt_reductions _ _ _ _ _ _ (la_rows _ _ _ _ _ Au)) as [Hs Hr].
  destruct (set_table_ok reductions_number reduced rs (zlen cores) Hs Hr (replicate (Z.to_nat (zlen cores)) None)) as (rt & E & Hz & Hin & Hout).
  { rewrite zlen_replicate. pose proof (zlen_nonneg cores). lia. }
  exists rt. split_and!; [done|done|]. intros p reds [Hp1 Hp2] [Hrd _]. destruct reds as [|q reds]; cbn in *.
  - rewrite Hout by done. apply rd_Ok. split; [done|]. apply lookup_replicate. split; [done|]. lia.
  - by apply (Hin (Reductions p (q :: reds))).
Qed.

(** ** The tokens read *)

Context (nullable : list bool) (Hnz : zlen nullable = nsyms g).
Context (Hnu : forall X, 0 <= X < nsyms g -> rd nullable X = Ok true <-> nul ps X).
Context (gs : gotos) (G : gotos_ok g cores ss gs).

#[local] Abbreviation goto_at := (goto_at gs).
#[local] Abbreviation W := (WORDSIZE (ntokens g)).
#[local] Abbreviation N := (ngotos gs).

Lemma rd_nullable X : 0 <= X < nsyms g -> exists b, rd nullable X = Ok b /\ (b = true <-> nul ps X).
Proof.
  intros HX. destruct (rd_in_range nullable X) as [b E]; [lia|]. exists b. split; [done|]. rewrite <- Hnu, E by done.
  split; [congruence|]. by intros [= ->].
Qed.

Lemma ntokens_words t : t < ntokens g -> t < 32 * W.
Proof. unfold WORDSIZE, BITS_PER_INT. zlia. Qed.

Lemma read_tokens_ok i l : 0 <= i < N -> StronglySorted Z.lt (map (zget acc) l) -> Forall (fun q => known g cores q /\ 0 <= zget acc q) l ->
  forall f, zlen f = N * W -> exists f' toks rest, read_tokens g acc (i * W) l f = Ok (f', rest) /\ l = toks ++ rest /\
    added f f' W i (fun t => exists q, q ∈ toks /\ zget acc q = t) /\
    (forall q, q ∈ toks -> zget acc q < start_symbol g) /\ forall q, q ∈ rest -> start_symbol g <= zget acc q.
Proof.
  intros Hi Hs Hl. induction Hl as [|q l [[Eq Hq] H0] Hl IH]; intros f Hz; cbn [read_tokens].
  { exists f, [], []. split_and!; [done|done| |by intros q ?%elem_of_nil|by intros q ?%elem_of_nil]. apply added_none. by intros t _ (q & ?%elem_of_nil & _). }
  rewrite Eq. cbn [rbind]. cbn [map] in Hs. apply StronglySorted_inv in Hs as [Hs Hx]. unfold ISVAR. destruct (Z.leb_spec (start_symbol g) (zget acc q)) as [Hge|Hlt].
  - exists f, [], (q :: l). split_and!; [done|done| |by intros q' ?%elem_of_nil|].
    + apply added_none. by intros t _ (q' & ?%elem_of_nil & _).
    + intros q' [->|Hq']%elem_of_cons; [done|]. rewrite Forall_map, Forall_forall in Hx. specialize (Hx _ Hq'). cbn in Hx. lia.
  - destruct (SETBIT_added f W N i (zget acc q)) as (f1 & -> & A1); [done|split; [done|by apply ntokens_words]|done|]. cbn [rbind].
    destruct (IH Hs f1) as (f' & toks & rest & -> & -> & A2 & H1 & H2); [by destruct A1 as [-> _]|].
    exists f', (q :: toks), rest. split_and!; [done|done| |intros q' [->|?]%elem_of_cons; auto|done].
    destruct A1 as [Z1 A1], A2 as [Z2 A2]. split; [congruence|]. intros i' t Hi' Ht. rewrite A2, A1 by done. split.
    + intros [[?|[-> <-]]|[-> (q' & Hq' & <-)]]; [by left|right|right]; (split; [done|]); [exists q|exists q']; rewrite elem_of_cons; tauto.
    + intros [?|[-> (q' & [->|Hq']%elem_of_cons & <-)]]; [tauto|tauto|]. right. split; [done|]. by exists q'.
Qed.

(** the edges to the gotos of [q] that satisfy [P] *)
Lemma put_edge_ok edge k : NoDup edge -> Forall (fun k => 0 <= k < N) edge -> 0 <= k < N -> put_edge gs edge k = Ok (edge ++ [k]).
Proof.
  intros Hn Hr Hk. unfold put_edge. pose proof (nodup_length edge 0 N Hn Hr) as Q. destruct (Z.ltb_spec (zlen edge) (N + 1)); [done|lia].
Qed.

Lemma read_nullables_ok q rest : Forall (fun q' => start_symbol g <= zget acc q' /\ exists X, trans q X q') rest -> NoDup rest ->
  forall edge done : list Z, NoDup edge -> (forall k, k ∈ edge -> exists q', q' ∈ done /\ goto_at k q q') -> (forall q', q' ∈ done -> q' ∉ rest) ->
  exists E, read_nullables g gs acc nullable q rest edge = Ok (edge ++ E) /\
    forall k, k ∈ E <-> exists q', q' ∈ rest /\ nul ps (zget acc q') /\ goto_at k q q'.
Proof.
  intros Hr. induction Hr as [|q' rest [Hge [X Ht]] Hr IH]; intros Hnd edge done Hne Hed Hdone; cbn [read_nullables].
  { exists []. rewrite app_nil_r. split; [done|]. intros k. rewrite elem_of_nil. split; [done|]. by intros (q' & ?%elem_of_nil & _). }
  apply NoDup_cons in Hnd as [Hq' Hnd]. destruct (trans_known g ps L cores q X q' Ht) as ((Eq & Hlt) & _ & _). rewrite Eq. cbn [rbind].
  pose proof (trans_zget g ps cores q X q' Ht) as EX. pose proof (lo_start _ _ L). destruct (rd_nullable (zget acc q')) as (b & -> & Hb); [lia|]. cbn [rbind].
  assert (Sub : forall q2, q2 ∈ q' :: done -> q2 ∉ rest).
  { intros q2 [->|H2]%elem_of_cons; [done|]. intros H3. apply (Hdone q2 H2). by right. }
  destruct b.
  - destruct (map_goto_ok g ps L cores ss rs Au gs G q (zget acc q') q') as (k & -> & Hk); [by rewrite EX|done|]. cbn [rbind].
    assert (Hnew : k ∉ edge).
    { intros Hin. destruct (Hed k Hin) as (q2 & Hq2 & Hk2). destruct Hk as (_ & _ & E1), Hk2 as (_ & _ & E2).
      apply (Hdone q2 Hq2). rewrite <- E2, E1. by left. }
    rewrite put_edge_ok; [|done| |by apply Hk].
    2: { apply Forall_forall. intros k2 (q2 & _ & Hk2 & _)%Hed. done. }
    cbn [rbind]. destruct (IH Hnd (edge ++ [k]) (q' :: done)) as (E & -> & HE); [| |done|].
    + apply NoDup_app. split_and!; [done| |apply NoDup_singleton]. by intros k2 Hk2 ->%list_elem_of_singleton.
    + intros k2 [(q2 & ? & ?)%Hed| ->%list_elem_of_singleton]%elem_of_app; [exists q2|exists q']; rewrite elem_of_cons; tauto.
    + exists (k :: E). rewrite <- app_assoc. split; [done|]. intros k2. rewrite elem_of_cons, HE. split.
      * intros [->|(q2 & ? & ? & ?)]; [exists q'|exists q2]; rewrite elem_of_cons; tauto.
      * intros (q2 & [->|Hq2]%elem_of_cons & Hn2 & Hk2); [left|right; by exists q2].
        by apply (goto_at_unique g ps L cores ss rs Au gs G k2 k q q').
  - cbn [rbind]. destruct (IH Hnd edge (q' :: done)) as (E & -> & HE); [done| |done|].
    + intros k2 (q2 & ? & ?)%Hed. exists q2. rewrite elem_of_cons. tauto.
    + exists E. split; [done|]. intros k2. rewrite HE. split.
      * intros (q2 & ? & ? & ?). exists q2. rewrite elem_of_cons. tauto.
      * intros (q2 & [->|Hq2]%elem_of_cons & Hn2 & Hk2); [|by exists q2]. apply Hb in Hn2. done.
Qed.

Context (st : list (option (list Z))) (Hst : forall p row, row_of p row -> rd st p = Ok (edges row)).

(** the state where the goto [i] leads *)
Definition target (i : Z) : Z := zget (to_state gs) i.

Definition token_read (i t : Z) : Prop := t < start_symbol g /\ exists q, trans (target i) t q.

(** the goto [k] is on a nullable variable, after the goto [i] *)
Definition next_read (i k : Z) : Prop := exists C q, trans (target i) C q /\ start_symbol g <= C /\ nul ps C /\ goto_at k (target i) q.

Lemma row_symbols p row : row_of p row -> StronglySorted Z.lt (map (zget acc) row) /\ NoDup row /\
  Forall (fun q => (known g cores q /\ 0 <= zget acc q) /\ exists X, trans p X q) row.
Proof.
  intros Hrow. pose proof (row_acc g ps cores ss p row Hrow) as Hs. split; [done|]. split.
  - apply NoDup_sorted in Hs. by apply NoDup_fmap_1 in Hs.
  - destruct Hrow as (_ & _ & Hq & _). apply Forall_forall. intros q (X & Ht)%Hq. destruct (trans_known g ps L cores p X q Ht) as (? & _ & _).
    split; [|by exists X]. split; [done|]. rewrite (trans_zget g ps cores p X q Ht). destruct Ht as [? _]. lia.
Qed.

Lemma edge_edges R i E k : rd R i = Ok (edges E) -> edge R i k <-> k ∈ E.
Proof.
  intros Er. unfold edge. rewrite Er. destruct E as [|x E]; cbn; split.
  - by intros (l & ? & _).
  - by intros ?%elem_of_nil.
  - intros (l & [= <-] & H). done.
  - intros H. by exists (x :: E).
Qed.

Lemma target_state i : 0 <= i < N -> rd (to_state gs) i = Ok (target i) /\ state (target i).
Proof.
  intros Hi. destruct (go_sizes _ _ _ _ G) as (_ & En & Et & _). split; [apply rd_zget; lia|].
  destruct (goto_transition g ps L cores ss rs Au gs G i Hi) as (p & A & q & (_ & _ & E) & Ht & _). unfold target. rewrite E.
  by apply (trans_states g ps cores p A q).
Qed.

(** the rows and the edges of the first gotos *)
Definition rows_read (i : Z) (fr : list Z * list (option (list Z))) : Prop :=
  zlen fr.1 = N * W /\ zlen fr.2 = N /\
  (forall i' t, 0 <= i' < N -> 0 <= t < 32 * W -> entry fr.1 W i' t = true <-> i' < i /\ token_read i' t) /\
  (forall i', 0 <= i' < N -> exists E, rd fr.2 i' = Ok (edges E) /\ forall k, k ∈ E <-> i' < i /\ next_read i' k).

Lemma F_row_ok i fr : 0 <= i < N -> rows_read i fr -> exists fr', F_row g gs acc st nullable i fr = Ok fr' /\ rows_read (i + 1) fr'.
Proof.
  intros Hi (Zf & Zr & Hf & Hr). destruct fr as [f reads]. cbn [fst snd] in *. unfold F_row. destruct (target_state i Hi) as [-> Hq]. cbn [rbind].
  destruct (row_exists g ps cores ss rs Au (target i) Hq) as [row Hrow]. rewrite (Hst _ _ Hrow). cbn [rbind].
  destruct (row_symbols _ _ Hrow) as (Hs & Hnd & Hk). pose proof Hrow as (_ & _ & Hin & _).
  destruct (read_tokens_ok i row Hi Hs) with (f := f) as (f' & toks & rest & Et & Erow & [Zf' Hadd] & Htoks & Hrest); [by eapply Forall_impl; [exact Hk|]; intros q [? _]|done|].
  assert (Htok : forall t, token_read i t <-> exists q, q ∈ toks /\ zget acc q = t).
  { intros t. split.
    - intros (Hlt & q & Ht). assert (Hqr : q ∈ row) by (apply Hin; by exists t). pose proof (trans_zget g ps cores _ _ _ Ht) as Ez.
      rewrite Erow in Hqr. apply elem_of_app in Hqr as [?|Hqr]; [by exists q|]. specialize (Hrest q Hqr). lia.
    - intros (q & Hq1 & <-). split; [by apply Htoks|]. destruct (proj1 (Hin q)) as (X & Ht); [rewrite Erow; apply elem_of_app; by left|].
      rewrite (trans_zget g ps cores _ _ _ Ht). by exists q. }
  assert (Hrow' : forall i' t, 0 <= i' < N -> 0 <= t < 32 * W -> entry f' W i' t = true <-> i' < i + 1 /\ token_read i' t).
  { intros i' t Hi' Ht. rewrite Hadd, Hf by (done || lia). destruct (decide (i' = i)) as [->|Ne]; [rewrite Htok; split; [intros [[? _]|[_ ?]]; [lia|by split; [lia|]]|intros [_ ?]; by right]|].
    split; [intros [[? ?]|[? _]]; [split; [lia|done]|done]|intros [? ?]; left; split; [lia|done]]. }
  destruct (read_nullables_ok (target i) rest) with (edge := @nil Z) (done := @nil Z) as (E & En & HE).
  { apply Forall_forall. intros q Hq1. split; [by apply Hrest|]. apply Hin. rewrite Erow. apply elem_of_app. by right. }
  { rewrite Erow in Hnd. apply NoDup_app in Hnd as (_ & _ & H). exact H. }
  { constructor. }
  { by intros k ?%elem_of_nil. }
  { by intros q' ?%elem_of_nil. }
  assert (Hnext : forall k, k ∈ E <-> next_read i k).
  { intros k. rewrite HE. split.
    - intros (q & Hq1 & Hn & Hk1). destruct (proj1 (Hin q)) as (X & Ht); [rewrite Erow; apply elem_of_app; by right|].
      pose proof (trans_zget g ps cores _ _ _ Ht) as Ez. specialize (Hrest q Hq1). exists X, q. rewrite <- Ez. rewrite Ez at 1. done.
    - intros (C & q & Ht & HC & Hn & Hk1). pose proof (trans_zget g ps cores _ _ _ Ht) as Ez. exists q. rewrite Ez. split; [|done].
      assert (Hqr : q ∈ row) by (apply Hin; by exists C). rewrite Erow in Hqr. apply elem_of_app in Hqr as [Hqr|?]; [|done].
      specialize (Htoks q Hqr). lia. }
  assert (Hedges : forall reads', zlen reads' = N -> rd reads' i = Ok (edges E) -> (forall i', 0 <= i' -> i' <> i -> rd reads' i' = rd reads i') ->
    rows_read (i + 1) (f', reads')).
  { intros reads' Zr' Ei Eo. split; [cbn; lia|]. split; [done|]. split; [done|]. intros i' Hi'. cbn [snd].
    destruct (decide (i' = i)) as [->|Ne].
    - exists E. split; [done|]. intros k. rewrite Hnext. split; [by split; [lia|]|by intros [_ ?]].
    - rewrite Eo by lia. destruct (Hr i' Hi') as (E' & Ee & HE'). exists E'. split; [done|]. intros k. rewrite HE'. split; intros [? ?]; (split; [lia|done]). }
  destruct row as [|x row].
  - cbn [edges]. symmetry in Erow. apply app_nil in Erow as [-> ->]. cbn in Et. injection Et as <-. cbn in En. injection En as <-.
    exists (f, reads). split; [done|]. apply Hedges; [done| |done]. cbn [edges]. destruct (Hr i Hi) as (E' & Ee & HE'). rewrite Ee.
    destruct E' as [|y E']; [done|]. destruct (proj1 (HE' y) ltac:(by left)). lia.
  - cbn [edges]. rewrite Et. cbn [rbind]. rewrite En. cbn [rbind app]. rewrite wr_in_range by lia. cbn [rbind]. eexists. split; [done|].
    apply Hedges; [by rewrite zlen_insert|apply rd_insert_eq; lia|intros; apply rd_insert_ne; lia].
Qed.

(** the goto [k] is the one of [p] on [A] *)
Definition goto_on (k p A : Z) : Prop := start_symbol g <= A /\ exists q, goto_at k p q /\ trans p A q.

Lemma goto_on_exists k : 0 <= k < N -> exists p A, goto_on k p A.
Proof.
  intros Hk. destruct (goto_transition g ps L cores ss rs Au gs G k Hk) as (p & A & q & H1 & H2 & H3 & _). exists p, A. split; [done|]. by exists q.
Qed.

Lemma goto_on_number p A q : trans p A q -> start_symbol g <= A -> exists k, goto_on k p A.
Proof.
  intros Ht HA. destruct (goto_number g ps L cores ss rs Au gs G p A q Ht HA) as (k & Hk & _). exists k. split; [done|]. by exists q.
Qed.

Lemma goto_on_unique k k' p A : goto_on k p A -> goto_on k' p A -> k = k'.
Proof.
  intros (_ & q & H1 & Ht) (_ & q' & H2 & Ht'). rewrite (trans_fun g ps cores ss rs Au p A q' q Ht' Ht) in H2.
  by apply (goto_at_unique g ps L cores ss rs Au gs G k k' p q).
Qed.

Lemma goto_on_fun k p A p' A' : goto_on k p A -> goto_on k p' A' -> p = p' /\ A = A'.
Proof.
  intros (_ & q & (_ & E1 & E2) & Ht) (_ & q' & (_ & E3 & E4) & Ht'). split; [congruence|].
  rewrite <- (trans_zget g ps cores _ _ _ Ht), <- (trans_zget g ps cores _ _ _ Ht'). congruence.
Qed.

Lemma goto_on_target k p A q : goto_on k p A -> trans p A q -> target k = q.
Proof.
  intros (_ & q' & (_ & _ & E) & Ht) Ht'. unfold target. rewrite E. by apply (trans_fun g ps cores ss rs Au p A).
Qed.

(** ** The items of the states *)

Context (Hmod : nvars g mod 32 <> 0).

(** the item [i] is in the closure of the state [p] *)
Definition item_in (p i : Z) : Prop := exists Y K, rd (kernels cores) p = Ok (Y, K) /\ in_closure g ps K i.

Lemma closure_range K i : Forall (fun k => 1 <= k < nitems g) K -> in_closure g ps K i -> 1 <= i < nitems g.
Proof.
  intros HK. induction 1 as [i Hi|i r p _ _ Hp _]; [by rewrite Forall_forall in HK; apply HK|].
  pose proof (rule_bounds g ps L r p Hp). pose proof (zlen_nonneg p.2). lia.
Qed.

Lemma canonical_items K : canonical g ps K -> in_items g K.
Proof.
  induction 1 as [|K X K' _ [_ IH] HX (Hs & _ & Hg)]; [by apply start_kernel_ok|]. split; [done|]. apply Forall_forall.
  intros j (i & Hi & Ei & ->)%Hg. pose proof (closure_range K i IH Hi) as Hr. rewrite (rd_sym g ps L) in Ei by lia. injection Ei as Ei.
  destruct (item_cases g ps L i Hr) as (r & p & Hp & [[E E']|[_ H]]); pose proof (rule_bounds g ps L r p Hp); lia.
Qed.

Lemma state_items p Y K : rd (kernels cores) p = Ok (Y, K) -> in_items g K.
Proof.
  intros E. apply canonical_items, (la_canonical _ _ _ _ _ Au). apply elem_of_kernels. by exists p, Y.
Qed.

Lemma item_step p i X : item_in p i -> rd (ritem (tab g)) i = Ok X -> 1 <= X -> exists q, trans p X q /\ item_in q (i + 1).
Proof.
  intros (Y & K & E & Hi) EX HX. destruct (state_items p Y K E) as [Hs HK]. destruct (first_sets_ok g ps L Hmod) as (_ & fd & _ & _ & _ & Hfd).
  destruct (closure_ok g ps L fd K Hfd Hs HK) as (its & _ & Hits1 & Hits2 & Hits3).
  assert (Hcl : closure_of g ps K its) by done. assert (Hj : i + 1 ∈ shifted g X its).
  { apply elem_of_shifted. exists i. split; [by apply Hits3|]. split; [|done]. pose proof (closure_range K i HK Hi). rewrite (rd_sym g ps L) in EX by lia. congruence. }
  assert (Hg : goto_kernel g ps K X (shifted g X its)).
  { apply (goto_shifted g ps L K its X Hcl HX). intros Q. rewrite Q in Hj. by apply elem_of_nil in Hj. }
  destruct (trans_goto g ps cores ss rs Au p X Y K _ E HX Hg) as (q & Ht & Eq). exists q. split; [done|].
  exists X, (shifted g X its). split; [done|]. by apply in_nucleus.
Qed.

Context (Ag : augmented g ps).

(** a variable that is shifted is in a right-hand side *)
Lemma trans_in_rule p A q : trans p A q -> exists r B w, rule ps r (B, w) /\ A ∈ w.
Proof.
  intros (HA & Y & Kp & Kq & E & _ & _ & Hne & Hg). destruct Kq as [|j Kq]; [done|]. destruct (proj1 (Hg j) ltac:(by left)) as (i & Hi & Ei & _).
  destruct (state_items p Y Kp E) as [_ HK]. pose proof (closure_range Kp i HK Hi) as Hr. destruct (item_rule g ps L i Hr) as (r & [B w] & t & Hp & Ht & ->).
  exists r, B, w. split; [done|]. pose proof (rule_bounds g ps L r _ Hp). cbn [snd] in *. destruct (decide (t = zlen w)) as [->|Ne].
  - pose proof (rule_end g ps L r _ Hp) as E2. cbn [snd] in E2. rewrite Ei in E2. injection E2 as E2. lia.
  - rewrite (rule_symbol g ps L r _ t Hp) in Ei by (cbn; lia). apply rd_Ok in Ei as [_ Ei]. by apply list_elem_of_lookup_2 in Ei.
Qed.

(** ** The first goto *)

(** the goto that is numbered first *)
Definition first_goto (p A : Z) : Prop := start_symbol g <= A /\ (exists q, trans p A q) /\
  forall p' A' q', trans p' A' q' -> start_symbol g <= A' -> A < A' \/ (A = A' /\ p <= p').

Lemma first_number p A : goto_on 0 p A -> first_goto p A.
Proof.
  intros Hk. pose proof Hk as (HA & q & Hat & Ht). split; [done|]. split; [by exists q|]. intros p' A' q' Ht' HA'.
  destruct (goto_number g ps L cores ss rs Au gs G p' A' q' Ht' HA') as (k' & Hat' & Hs').
  destruct (goto_transition g ps L cores ss rs Au gs G 0 (proj1 Hat)) as (p2 & A2 & q2 & Hat2 & Ht2 & HA2 & Hs2).
  destruct (goto_on_fun 0 p A p2 A2 Hk) as [<- <-]; [split; [done|]; by exists q2|].
  destruct (trans_known g ps L cores _ _ _ Ht) as (_ & _ & HA3). destruct (trans_known g ps L cores _ _ _ Ht') as (_ & _ & HA3').
  pose proof (proj1 Hat') as Hk'. destruct (Z.lt_trichotomy A A') as [H|[<-|H]]; [by left|right; split; [done|]|].
  - destruct (decide (k' = 0)) as [->|Ne]; [destruct Hat as (_ & E1 & _), Hat' as (_ & E2 & _); lia|].
    pose proof (segment_sorted g ps cores ss rs Au gs G (A - ntokens g) 0 k') as Q. destruct Hat as (_ & E1 & _), Hat' as (_ & E2 & _).
    rewrite E1, E2 in Q. assert (p < p'); [|lia]. apply Q; unfold nvars, ntokens in *; lia.
  - exfalso. pose proof (psum_mono (tally g cores (nv g) T) (A' - ntokens g + 1) (A - ntokens g)) as Q. specialize (Q (tally_nonneg _ _ _ _)).
    unfold sbase in *. unfold ntokens in *. lia.
Qed.

Lemma first_goto_number p A k : first_goto p A -> goto_on k p A -> k = 0.
Proof.
  intros (HA & [q Ht] & Hmin) Hk. pose proof Hk as (_ & q' & Hat & _). pose proof (proj1 Hat) as Hr.
  destruct (goto_on_exists 0) as (p0 & A0 & H0); [lia|]. pose proof (first_number _ _ H0) as (HA0 & [q0 Ht0] & Hmin0).
  pose proof (Hmin p0 A0 q0 Ht0 HA0). pose proof (Hmin0 p A q Ht HA). assert (A0 = A) as -> by lia. assert (p0 = p) as -> by lia.
  by apply (goto_on_unique _ _ p A).
Qed.

Lemma goal_shift : exists q, trans 0 (start_symbol g + 1) q.
Proof.
  pose proof (ag_goal _ _ Ag) as Hr. pose proof (lo_start _ _ L). destruct (item_step 0 (first_item ps 2) (start_symbol g + 1)) as (q & Ht & _); [| |lia|by exists q].
  - exists 0, (start_kernel g ps). split; [apply (la_start _ _ _ _ _ Au)|]. apply in_nucleus. apply list_elem_of_fmap. exists 2. split; [done|].
    apply (elem_of_rules_for g ps L); [lia|]. by eexists.
  - rewrite <- (Z.add_0_r (first_item ps 2)). by rewrite (rule_symbol g ps L 2 _ 0 Hr) by (cbn [snd]; change (zlen [start_symbol g + 1; 0]) with 2; lia).
Qed.

(** it is the one of the first state on the goal *)
Lemma first_goto_goal p A : first_goto p A <-> p = 0 /\ A = start_symbol g + 1.
Proof.
  destruct goal_shift as [q0 H0]. assert (Hmin : forall p' A' q', trans p' A' q' -> start_symbol g <= A' -> start_symbol g + 1 <= A' /\ 0 <= p').
  { intros p' A' q' Ht HA. destruct (trans_in_rule p' A' q' Ht) as (r & B & w & Hr & Hin). pose proof (ag_start _ _ Ag _ _ _ Hr) as Hs.
    assert (A' <> start_symbol g) by (by intros ->). destruct Ht as (_ & Y & Kp & _ & E & _). apply rd_range in E. lia. }
  split.
  - intros (HA & [q Ht] & Hf). pose proof (Hmin _ _ _ Ht HA). specialize (Hf _ _ _ H0 ltac:(lia)). lia.
  - intros [-> ->]. split; [lia|]. split; [by exists q0|]. intros p' A' q' Ht HA. pose proof (Hmin _ _ _ Ht HA). lia.
Qed.

(** the bits of [F] before the traversal *)
Definition read_base (k t : Z) : Prop := token_read k t \/ (k = 0 /\ t = 0).

Lemma read_base_reads k t p A : goto_on k p A -> read_base k t -> reads g ps cores p A t.
Proof.
  intros Hk [(Hlt & q & Ht)|[-> ->]]; [|apply first_number, first_goto_goal in Hk as [-> ->]; apply reads_end, (ag_goal _ _ Ag)]. pose proof Hk as (_ & r & Hat & Hr).
  rewrite (goto_on_target k p A r Hk Hr) in Ht. by eapply reads_shift.
Qed.

Lemma reads_closure R : (forall k k', edge R k k' -> 0 <= k' < N) -> (forall k k', 0 <= k < N -> edge R k k' <-> next_read k k') ->
  forall k p A t, goto_on k p A -> reads g ps cores p A t <-> exists k', rtc (edge R) k k' /\ read_base k' t.
Proof.
  intros Hb Hn k p A t Hk. split.
  - intros H. revert k Hk. induction H as [p A r t q Hr Ht Hlt|p A r C r' t Hr HC HC' Hn' _ IH|goal Hf]; intros k Hk.
    + exists k. split; [done|]. left. split; [done|]. exists q. by rewrite (goto_on_target k p A r Hk Hr).
    + destruct (goto_on_number r C r' HC HC') as [k1 Hk1]. destruct (IH k1 Hk1) as (k' & Hk' & B). exists k'. split; [|done].
      eapply rtc_l; [|exact Hk']. apply Hn; [by destruct Hk as (_ & ? & [? _] & _)|]. exists C, r'. rewrite (goto_on_target k p A r Hk Hr).
      pose proof Hk1 as (_ & r2 & Hat & Ht2). rewrite (trans_fun g ps cores ss rs Au r C r' r2 HC Ht2). done.
    + exists k. split; [done|]. right. split; [|done]. apply (first_goto_number 0 goal); [|done]. apply first_goto_goal. split; [done|].
      destruct Hf as [_ E], (ag_goal _ _ Ag) as [_ E']. rewrite E in E'. by injection E'.
  - intros (k' & Hk' & B). revert p A Hk. induction Hk' as [k|k k1 k' Hkk _ IH]; intros p A Hk; [by eapply read_base_reads|].
    assert (Hr : 0 <= k < N) by (destruct Hk as (_ & ? & [? _] & _); done). apply Hn in Hkk as (C & q & Ht & HC & Hnl & Hat); [|done].
    pose proof Hk as (_ & r & Hat0 & Hr0). rewrite (goto_on_target k p A r Hk Hr0) in *.
    eapply reads_nullable; [done|exact Ht|done|done|]. apply (IH B). split; [done|]. by exists q.
Qed.

Lemma initialize_F_ok : 0 < N -> N + 2 <= MAXSHORT -> exists f, initialize_F g gs acc st nullable = Ok f /\ zlen f = N * W /\
  forall k p A t, goto_on k p A -> 0 <= t < 32 * W -> entry f W k t = true <-> reads g ps cores p A t.
Proof.
  intros HN Hsh. pose proof (lo_start _ _ L). assert (HW : 0 < W) by (apply WORDSIZE_pos; unfold ntokens; lia). unfold initialize_F.
  destruct (for_loop_inv rows_read (Z.to_nat N) 0 (F_row g gs acc st nullable)
    (replicate (Z.to_nat (N * W)) 0, replicate (Z.to_nat N) None)) as ([f reads] & -> & Zf & Zr & Hf & Hr).
  - unfold rows_read. cbn [fst snd]. rewrite !zlen_replicate. split_and!; [nia|lia| |].
    + intros i' t Hi' Ht. rewrite zero_entry. split; [done|lia].
    + intros i' Hi'. exists []. split; [apply rd_Ok; split; [lia|]; apply lookup_replicate; split; [done|lia]|].
      intros k. rewrite elem_of_nil. split; [done|lia].
  - intros i fr Hi H'. apply F_row_ok; [lia|done].
  - cbn [rbind fst snd] in *. rewrite Z.add_0_l, Z2Nat.id in * by lia.
    destruct (SETBIT_added f W N 0 0) as (f1 & E1 & Z1 & A1); [lia|lia|done|]. change (0 * W) with 0 in E1. rewrite E1. cbn [rbind].
    assert (Hn : forall k k', 0 <= k < N -> edge reads k k' <-> next_read k k').
    { intros k k' Hk. destruct (Hr k Hk) as (E & Ee & HE). rewrite (edge_edges _ _ _ _ Ee), HE. split; [by intros [_ ?]|by split; [lia|]]. }
    assert (Hb : forall k k', edge reads k k' -> 0 <= k' < N).
    { intros k k' Hkk. pose proof Hkk as (l & El & _). apply rd_range in El. apply Hn in Hkk; [|lia]. by destruct Hkk as (C & q & _ & _ & _ & ? & _). }
    destruct (digraph_ok N W reads f1) as (f2 & E2 & Z2 & H2); [lia|lia|done|done|done|lia|]. exists f2. split_and!; [done|done|].
    intros k p A t Hk Ht. assert (Hkr : 0 <= k < N) by (destruct Hk as (_ & ? & [? _] & _); done).
    rewrite H2 by done. rewrite (reads_closure reads Hb Hn k p A t Hk). split; intros (k' & Hk' & B); exists k'; (split; [done|]).
    + assert (Hkr' : 0 <= k' < N) by (destruct (rtc_inv_r _ _ Hk') as [->|(k2 & _ & ?)]; [done|by eapply Hb]).
      apply A1 in B as [B|[-> <-]]; [|by right|lia|done]. apply Hf in B as [_ ?]; [by left|done|done].
    + assert (Hkr' : 0 <= k' < N) by (destruct (rtc_inv_r _ _ Hk') as [->|(k2 & _ & ?)]; [done|by eapply Hb]).
      apply A1; [lia|done|]. destruct B as [B|[-> ->]]; [left|by right]. apply Hf; [done|done|]. split; [lia|done].
Qed.

(** ** The paths of the rules *)

(** the states after each symbol of [w] *)
Fixpoint walk (p : Z) (w l : list Z) (q : Z) : Prop :=
  match w, l with
  | [], [] => p = q
  | X :: w, s :: l => trans p X s /\ walk s w l q
  | _, _ => False
  end.

Lemma walk_length w : forall p l q, walk p w l q -> zlen l = zlen w.
Proof.
  induction w as [|X w IH]; intros p [|s l] q H; try done. destruct H as [_ H]. rewrite !zlen_cons. by rewrite (IH _ _ _ H).
Qed.

Lemma walk_app u : forall p v l q, walk p (u ++ v) l q <-> exists l1 l2 s, l = l1 ++ l2 /\ walk p u l1 s /\ walk s v l2 q.
Proof.
  induction u as [|X u IH]; intros p v l q; cbn [app].
  - split; [intros H; by exists [], l, p|]. intros ([|y l1] & l2 & s & -> & H1 & H2); [|done]. cbn in H1. by subst.
  - destruct l as [|y l]; cbn [walk].
    + split; [done|]. intros ([|y l1] & l2 & s & E & H1 & _); [done|discriminate].
    + rewrite IH. split.
      * intros [Ht (l1 & l2 & s & -> & H1 & H2)]. by exists (y :: l1), l2, s.
      * intros ([|z l1] & l2 & s & E & H1 & H2); [done|]. injection E as -> ->. destruct H1 as [Ht H1]. split; [done|]. by exists l1, l2, s.
Qed.

Lemma walk_path w : forall p q, path g ps cores p w q <-> exists l, walk p w l q.
Proof.
  induction w as [|X w IH]; intros p q; cbn [path].
  - split; [intros H; by exists []|]. by intros ([|s l] & H).
  - split.
    + intros (r & Ht & H). apply IH in H as [l Hl]. by exists (r :: l).
    + intros ([|s l] & H); [done|]. destruct H as [Ht H]. exists s. split; [done|]. apply IH. by exists l.
Qed.

Lemma walk_fun w : forall p l q l' q', walk p w l q -> walk p w l' q' -> l = l' /\ q = q'.
Proof.
  induction w as [|X w IH]; intros p [|s l] q [|s' l'] q' H H'; try done; [cbn in *; by subst|].
  destruct H as [Ht H], H' as [Ht' H']. rewrite (trans_fun g ps cores ss rs Au p X s s' Ht Ht') in *. destruct (IH _ _ _ _ _ H H') as [-> ->]. done.
Qed.

(** a rule can be read from each state that predicts it *)
Lemma walk_rule r A w : rule ps r (A, w) -> Forall (fun X => 1 <= X) w -> forall v u p, w = u ++ v -> item_in p (first_item ps r + zlen u) ->
  exists l q, walk p v l q /\ item_in q (first_item ps r + zlen w).
Proof.
  intros Hr Hw. induction v as [|X v IH]; intros u p Ew Hi; [exists [], p; rewrite app_nil_r in Ew; by subst|].
  assert (EX : rd (ritem (tab g)) (first_item ps r + zlen u) = Ok X).
  { rewrite (rule_symbol g ps L r (A, w)); [cbn; rewrite Ew; apply rd_mid|done|]. cbn. rewrite Ew, zlen_app, zlen_cons. pose proof (zlen_nonneg u). pose proof (zlen_nonneg v). lia. }
  assert (HX : 1 <= X) by (rewrite Ew in Hw; apply Forall_app in Hw as [_ [? _]%Forall_cons]; done).
  destruct (item_step p _ X Hi EX HX) as (s & Ht & Hs). destruct (IH (u ++ [X]) s) as (l & q & Hl & Hq).
  - by rewrite <- app_assoc.
  - rewrite zlen_snoc. by replace (first_item ps r + (zlen u + 1)) with (first_item ps r + zlen u + 1) by lia.
  - by exists (s :: l), q.
Qed.

(** the rules of a variable are predicted where it is shifted *)
Lemma goto_predicts p A q r w : trans p A q -> rule ps r (A, w) -> item_in p (first_item ps r).
Proof.
  intros (HA & Y & Kp & Kq & E & _ & _ & Hne & Hg) Hr. exists Y, Kp. split; [done|]. destruct Kq as [|j Kq]; [done|].
  destruct (proj1 (Hg j) ltac:(by left)) as (i & Hi & Ei & _). by apply (in_predicted g ps Kp i r (A, w)).
Qed.

Lemma find_shift_ok p X q row : trans p X q -> Forall (fun s => known g cores s /\ exists Y, trans p Y s) row -> q ∈ row ->
  forall s0, find_shift acc X row s0 = Ok q.
Proof.
  intros Ht. induction 1 as [|s row [[Es Hs] [Y HY]] Hrow IH]; intros Hq s0; [by apply elem_of_nil in Hq|]. cbn [find_shift]. rewrite Es. cbn [rbind].
  pose proof (trans_zget g ps cores _ _ _ HY) as EY. destruct (Z.eqb_spec (zget acc s) X) as [E|Ne].
  - f_equal. apply (trans_fun g ps cores ss rs Au p X); [|done]. rewrite <- E, EY. done.
  - apply elem_of_cons in Hq as [->|Hq]; [by rewrite (trans_zget g ps cores _ _ _ Ht) in Ne|]. by apply IH.
Qed.

Lemma walk_rhs_ok r A w : rule ps r (A, w) -> Forall (fun X => 1 <= X) w -> forall v u p l q fuel states, w = u ++ v -> walk p v l q ->
  zlen states + zlen v <= set_maxrhs g + 1 -> (length v < fuel)%nat ->
  walk_rhs fuel g acc st (first_item ps r + zlen u) p states = Ok (first_item ps r + zlen w, q, states ++ l).
Proof.
  intros Hr Hw. induction v as [|X v IH]; intros u p l q [|fuel] states Ew Hl Hm Hf; try (cbn in Hf; lia); cbn [walk_rhs].
  - rewrite app_nil_r in Ew. subst u. pose proof (rule_end g ps L r (A, w) Hr) as E. cbn in E. rewrite E. cbn [rbind].
    pose proof (rule_bounds g ps L r _ Hr). destruct (Z.leb_spec 0 (- r)); [lia|]. destruct l; [|done]. cbn in Hl. subst. by rewrite app_nil_r.
  - destruct l as [|s l]; [done|]. destruct Hl as [Ht Hl]. rewrite zlen_cons in Hm. pose proof (zlen_nonneg v). cbn [length] in Hf.
    assert (EX : rd (ritem (tab g)) (first_item ps r + zlen u) = Ok X).
    { rewrite (rule_symbol g ps L r (A, w)); [cbn; rewrite Ew; apply rd_mid|done|]. cbn. rewrite Ew, zlen_app, zlen_cons. pose proof (zlen_nonneg u). lia. }
    rewrite EX. cbn [rbind]. assert (HX : 1 <= X) by (rewrite Ew in Hw; apply Forall_app in Hw as [_ [? _]%Forall_cons]; done).
    destruct (Z.leb_spec 0 X); [|lia]. destruct (trans_states g ps cores p X s Ht) as [Hp _].
    destruct (row_exists g ps cores ss rs Au p Hp) as [row Hrow]. rewrite (Hst _ _ Hrow). cbn [rbind].
    destruct (row_symbols _ _ Hrow) as (_ & _ & Hk). assert (Hs : s ∈ row) by (destruct Hrow as (_ & _ & H' & _); apply H'; by exists X).
    destruct row as [|x row]; [by apply elem_of_nil in Hs|]. cbn [edges of_option rbind].
    assert (Hk' : Forall (fun s => known g cores s /\ exists Y, trans p Y s) (x :: row)) by (eapply Forall_impl; [exact Hk|]; by intros q' [[? _] ?]).
    rewrite (find_shift_ok p X s (x :: row) Ht Hk' Hs). cbn [rbind].
    destruct (Z.ltb_spec (zlen states) (set_maxrhs g + 1)); [|lia].
    replace (first_item ps r + zlen u + 1) with (first_item ps r + zlen (u ++ [X])) by (rewrite zlen_snoc; lia).
    rewrite (IH (u ++ [X]) s l q fuel (states ++ [s])); [by rewrite <- app_assoc|by rewrite <- app_assoc|done|rewrite zlen_snoc; lia|lia].
Qed.

Lemma maxrhs_ok ps' : Forall (fun p : production => Forall (fun X => 0 <= X) p.2) ps' -> forall r m, 0 < r ->
  m <= maxrhs_loop (items_from r ps') 0 m /\ Forall (fun p : production => zlen p.2 <= maxrhs_loop (items_from r ps') 0 m) ps'.
Proof.
  assert (Hw : forall w rest k m, Forall (fun X => 0 <= X) w -> maxrhs_loop (w ++ rest) k m = maxrhs_loop rest (k + zlen w) m).
  { induction w as [|X w IH]; intros rest k m Hw; cbn [app maxrhs_loop]; [by rewrite zlen_nil, Z.add_0_r|]. apply Forall_cons in Hw as [HX Hw].
    destruct (Z.leb_spec 0 X); [|lia]. rewrite IH, zlen_cons by done. f_equal. lia. }
  induction 1 as [|p ps' Hp Hps IH]; intros r m Hr; cbn [items_from]; [split; [done|constructor]|].
  rewrite Hw by done. cbn [maxrhs_loop]. destruct (Z.leb_spec 0 (- r)); [lia|]. rewrite Z.add_0_l.
  destruct (IH (r + 1) (if m <? zlen p.2 then zlen p.2 else m)) as [H1 H2]; [lia|]. split.
  - etrans; [|exact H1]. destruct (Z.ltb_spec m (zlen p.2)); lia.
  - constructor; [|done]. etrans; [|exact H1]. destruct (Z.ltb_spec m (zlen p.2)); lia.
Qed.

Lemma rule_maxrhs r p : rule ps r p -> zlen p.2 <= set_maxrhs g.
Proof.
  intros [_ E]. unfold set_maxrhs. rewrite (lo_ritem _ _ L). cbn [maxrhs_loop]. change (0 <=? -1) with false. cbn iota.
  destruct (maxrhs_ok ps) with (r := 2) (m := if 0 <? 0 then 0 else 0) as [_ H]; [|lia|exact (Forall_lookup_1 _ _ _ _ H E)].
  eapply Forall_impl; [apply (lo_symbols _ _ L)|]. intros q [_ H]. eapply Forall_impl; [exact H|]. cbn. lia.
Qed.

(** ** The reductions *)

Context (rt : list (option (list Z))) (Hrz : zlen rt = zlen cores).
Context (Hrt : forall p reds, state p -> reds_of p reds -> rd rt p = Ok (edges reds)).

Definition nred : list Z := map (fun e => zlen (nreds e)) rt.

#[local] Abbreviation LAruleno := (concat (map nreds rt)).

Context (Hla : zlen (concat (map nreds rt)) <= MAXSHORT).

Lemma nred_nonneg : Forall (fun x => 0 <= x) nred.
Proof. unfold nred. apply Forall_map, Forall_true. intros. apply zlen_nonneg. Qed.

Lemma nred_zlen : zlen nred = zlen cores.
Proof. unfold nred. by rewrite zlen_map. Qed.

Lemma zlen_concat (ls : list (list Z)) : zlen (concat ls) = sumZ (map zlen ls).
Proof. induction ls as [|l ls IH]; [done|]. cbn [concat map sumZ]. by rewrite zlen_app, IH. Qed.

Lemma nred_sum : sumZ nred = zlen LAruleno.
Proof. rewrite zlen_concat, map_map. done. Qed.

Lemma psum_bounds q : state q -> 0 <= psum nred q <= psum nred (q + 1) /\ psum nred (q + 1) <= zlen LAruleno.
Proof.
  intros [Hq1 Hq2]. rewrite <- nred_sum, <- psum_all, nred_zlen. pose proof (psum_mono nred 0 q nred_nonneg ltac:(lia)) as Q. change (psum nred 0) with 0 in Q.
  pose proof (psum_mono nred q (q + 1) nred_nonneg ltac:(lia)). pose proof (psum_mono nred (q + 1) (zlen cores) nred_nonneg ltac:(lia)). lia.
Qed.

Lemma lookahead_bases_ok rt' : forall k p, 0 <= k -> k + sumZ (map (fun e => zlen (nreds e)) rt') <= MAXSHORT -> 0 <= p <= zlen rt' ->
  rd (lookahead_bases rt' k) p = Ok (k + psum (map (fun e => zlen (nreds e)) rt') p).
Proof.
  induction rt' as [|e rt' IH]; intros k p Hk Hs Hp; cbn [lookahead_bases map sumZ] in *.
  - pose proof (zlen_nil (A := option (list Z))). assert (p = 0) as -> by lia. rewrite s16_short by (unfold MAXSHORT in *; lia). change (psum [] 0) with 0. by rewrite Z.add_0_r.
  - rewrite zlen_cons in Hp. assert (H : 0 <= sumZ (map (fun e => zlen (nreds e)) rt')) by (apply sumZ_nonneg, Forall_map, Forall_true; intros; apply zlen_nonneg).
    pose proof (zlen_nonneg (nreds e)). rewrite s16_short by (unfold MAXSHORT in *; lia). destruct (decide (p = 0)) as [->|].
    + unfold psum. change (Z.to_nat 0) with 0%nat. cbn [take sumZ]. by rewrite Z.add_0_r.
    + rewrite rd_cons, IH by lia. f_equal. replace p with (p - 1 + 1) at 2 by lia. rewrite psum_cons by lia. lia.
Qed.

Lemma lookaheads_ok p : 0 <= p <= zlen cores -> rd (lookahead_bases rt 0) p = Ok (psum nred p).
Proof. intros Hp. rewrite lookahead_bases_ok; [done|lia|fold nred; rewrite nred_sum; lia|lia]. Qed.

Lemma rd_concat (ls : list (list Z)) : forall p l t, rd ls p = Ok l -> 0 <= t < zlen l -> rd (concat ls) (psum (map zlen ls) p + t) = rd l t.
Proof.
  induction ls as [|l0 ls IH]; intros p l t E Ht; [apply rd_range in E; pose proof (zlen_nil (A := list Z)); lia|]. apply rd_range in E as R. rewrite zlen_cons in R.
  cbn [concat map]. destruct (decide (p = 0)) as [->|].
  - injection E as ->. unfold psum. change (Z.to_nat 0) with 0%nat. cbn [take sumZ]. rewrite Z.add_0_l. by rewrite rd_app_l by lia.
  - rewrite rd_cons in E by lia. replace p with (p - 1 + 1) by lia. rewrite psum_cons by lia.
    assert (0 <= psum (map zlen ls) (p - 1)). { apply (psum_mono _ 0 (p - 1)); [|lia]. apply Forall_map, Forall_true. intros. apply zlen_nonneg. }
    rewrite rd_app_r by lia. rewrite <- (IH _ _ _ E Ht). f_equal. lia.
Qed.

(** the index of the rule [r] among the reductions of the state [q] *)
Definition la_index (q r k : Z) : Prop := state q /\ psum nred q <= k < psum nred (q + 1) /\ rd LAruleno k = Ok r.

Lemma reds_segment q reds : state q -> reds_of q reds -> psum nred (q + 1) = psum nred q + zlen reds /\
  forall t, 0 <= t < zlen reds -> rd LAruleno (psum nred q + t) = rd reds t.
Proof.
  intros Hq Hr. pose proof (Hrt q reds Hq Hr) as E.
  assert (En : rd (map nreds rt) q = Ok reds). { apply rd_map. exists (edges reds). split; [done|]. by destruct reds. }
  assert (Em : map zlen (map nreds rt) = nred) by (unfold nred; by rewrite map_map). split.
  - rewrite psum_next by (rewrite nred_zlen; exact Hq). f_equal. assert (rd nred q = Ok (zlen reds)) as Q; [|by rewrite rd_zget in Q by (rewrite nred_zlen; exact Hq); injection Q].
    rewrite <- Em. apply rd_map. by exists reds.
  - intros t Ht. rewrite <- Em. by apply rd_concat.
Qed.

Lemma reds_index q reds r : state q -> reds_of q reds -> r ∈ reds <-> exists k, la_index q r k.
Proof.
  intros Hq Hr. destruct (reds_segment q reds Hq Hr) as [En Ek]. split.
  - intros [t Et]%list_elem_of_lookup. apply lookup_lt_Some in Et as Hlt. exists (psum nred q + Z.of_nat t). split_and!; [done|lia|unfold zlen in *; lia|].
    rewrite Ek by (unfold zlen; lia). apply rd_Ok. rewrite Nat2Z.id. split; [lia|done].
  - intros (k & _ & Hk & E). replace k with (psum nred q + (k - psum nred q)) in E by lia. rewrite Ek in E by lia. apply rd_Ok in E as [_ E]. by apply list_elem_of_lookup_2 in E.
Qed.

Lemma la_increasing q reds : state q -> reds_of q reds -> forall k k' r r', psum nred q <= k < k' -> k' < psum nred (q + 1) ->
  rd LAruleno k = Ok r -> rd LAruleno k' = Ok r' -> r < r'.
Proof.
  intros Hq Hr. destruct (reds_segment q reds Hq Hr) as [En Ek]. destruct Hr as (_ & _ & _ & _ & Hs & _). intros k k' r r' Hk Hk' E E'.
  replace k with (psum nred q + (k - psum nred q)) in E by lia. replace k' with (psum nred q + (k' - psum nred q)) in E' by lia.
  rewrite Ek in E, E' by lia. apply rd_Ok in E as [_ E], E' as [_ E']. apply (sorted_lookup _ _ _ _ _ _ Hs E E'). lia.
Qed.

Lemma la_index_unique q r k k' : la_index q r k -> la_index q r k' -> k = k'.
Proof.
  intros (Hq & Hk & E) (_ & Hk' & E'). destruct (reds_exists q Hq) as [reds Hr]. destruct (reds_segment q reds Hq Hr) as [En Ek].
  replace k with (psum nred q + (k - psum nred q)) in E by lia. replace k' with (psum nred q + (k' - psum nred q)) in E' by lia.
  rewrite Ek in E, E' by lia. apply rd_Ok in E as [_ E], E' as [_ E']. destruct Hr as (_ & _ & _ & _ & Hs & _). apply NoDup_sorted in Hs.
  pose proof (NoDup_lookup _ _ _ _ Hs E E'). lia.
Qed.

Lemma find_rule_ok q r k : la_index q r k -> forall n i, psum nred q <= i <= k -> k - i < Z.of_nat n -> find_rule n LAruleno r i = Ok k.
Proof.
  intros Hk. induction n as [|n IH]; intros i Hi Hn; [lia|]. cbn [find_rule]. pose proof Hk as (Hq & Hr & E).
  assert (R : 0 <= i < zlen LAruleno).
  { apply rd_range in E. pose proof (psum_mono nred 0 q nred_nonneg ltac:(destruct Hq; lia)) as Q. change (psum nred 0) with 0 in Q. lia. }
  rewrite rd_zget by done. cbn [rbind]. destruct (Z.eqb_spec (zget LAruleno i) r) as [Er|Ne].
  - f_equal. apply (la_index_unique q r); [|done]. split; [done|]. split; [lia|]. rewrite rd_zget by done. by f_equal.
  - apply IH; [|lia]. destruct (decide (i = k)) as [->|]; [|lia]. rewrite rd_zget in E by done. congruence.
Qed.

Lemma add_lookback_edge_ok q r k x lb sp : la_index q r k -> zlen lb = zlen LAruleno -> rd lb k = Ok sp -> 0 <= x < N -> N <= MAXSHORT ->
  add_lookback_edge (lookahead_bases rt 0) LAruleno lb q r x = Ok (<[Z.to_nat k := x :: sp]> lb).
Proof.
  intros Hk Hz Es Hx HN. pose proof Hk as ([Hq1 Hq2] & Hr & E). unfold add_lookback_edge. rewrite !lookaheads_ok by lia. cbn [rbind].
  rewrite (find_rule_ok q r k Hk) by lia. cbn [rbind]. rewrite Es. cbn [rbind]. apply rd_range in Es. rewrite s16_short, wr_in_range by lia. done.
Qed.


(** ** The ends of the rules *)

Lemma nul_variable X : nul ps X -> start_symbol g <= X.
Proof.
  intros [E|(s & Hs & _)]%rtc_inv; [done|]. remember [X] as l eqn:E. destruct Hs as [u v p Hp]. destruct u as [|y u]; [|by destruct u].
  injection E as <- _. pose proof (lo_symbols _ _ L) as H. rewrite Forall_forall in H. apply (H p Hp).
Qed.

Lemma walk_last l' u : forall p l s, walk p u l s -> rd (p :: l ++ l') (zlen u) = Ok s.
Proof.
  induction u as [|X u IH]; intros p [|s1 l] s H; try done; [by cbn in H; subst|]. destruct H as [_ H].
  pose proof (zlen_nonneg u). rewrite zlen_cons, rd_cons by lia. replace (1 + zlen u - 1) with (zlen u) by lia. by apply IH.
Qed.

(** the number of includes edges of a right-hand side, given from its end *)
Fixpoint tails (w : list Z) : Z :=
  match w with
  | [] => 0
  | X :: w => if start_symbol g <=? X then 1 + (if bool_decide (rd nullable X = Ok true) then tails w else 0) else 0
  end.

Lemma tails_nonneg w : 0 <= tails w.
Proof. induction w as [|X w IH]; cbn [tails]; [lia|]. destruct (_ <=? _); [|lia]. destruct (bool_decide _); lia. Qed.

(** the goto [k] is on a variable of [u], read from [p], with only nullable variables after it *)
Definition ends_with (p : Z) (u : list Z) (k : Z) : Prop := exists u' B v s, u = u' ++ B :: v /\ Forall (nul ps) v /\ path g ps cores p u' s /\ goto_on k s B.

Lemma ends_snoc p u X s k : path g ps cores p u s -> ends_with p (u ++ [X]) k <-> goto_on k s X \/ (nul ps X /\ ends_with p u k).
Proof.
  intros Hp. split.
  - intros (u' & B & v & s' & E & Hv & Hu & Hk). destruct v as [|Y v _] using rev_ind.
    + apply app_inj_tail in E as [-> ->]. left. rewrite walk_path in Hp, Hu. destruct Hp as [l Hl], Hu as [l' Hl'].
      by destruct (walk_fun _ _ _ _ _ _ Hl Hl') as [_ ->].
    + rewrite app_comm_cons, app_assoc in E. apply app_inj_tail in E as [-> ->]. apply Forall_app in Hv as [Hv [HY _]%Forall_cons].
      right. split; [done|]. by exists u', B, v, s'.
  - intros [Hk|(HX & u' & B & v & s' & -> & Hv & Hu & Hk)].
    + exists u, X, [], s. split_and!; [done|constructor|done|done].
    + exists u', B, (v ++ [X]), s'. split_and!; [by rewrite <- app_assoc|apply Forall_app; split; [done|by repeat constructor]|done|done].
Qed.

Lemma include_edges_ok r A w p l q : rule ps r (A, w) -> Forall (fun X => 1 <= X < nsyms g) w -> walk p w l q ->
  forall u v, w = u ++ v -> forall fuel edge, (length u < fuel)%nat -> zlen edge + tails (rev u) <= N + 1 ->
  exists E, include_edges fuel g gs nullable (first_item ps r + zlen u) (zlen u) (p :: l) edge = Ok (edge ++ E) /\ zlen E = tails (rev u) /\
    forall k, k ∈ E <-> ends_with p u k.
Proof.
  intros Hr Hw Hl. induction u as [|X u IH] using rev_ind; intros v Ew [|fuel] edge Hf Hm; try lia; cbn [include_edges].
  - pose proof (first_item_before g ps L r _ Hr) as Hn. pose proof (rule_bounds g ps L r _ Hr). rewrite zlen_nil.
    replace (first_item ps r + 0 - 1) with (first_item ps r - 1) by lia. pose proof (zlen_nonneg w). cbn [snd] in *. rewrite (rd_sym g ps L) by lia. cbn [rbind].
    unfold ISVAR. pose proof (lo_start _ _ L). destruct (Z.leb_spec (start_symbol g) (sym g (first_item ps r - 1))); [lia|].
    exists []. rewrite app_nil_r. split_and!; [done|done|]. intros k. rewrite elem_of_nil. split; [done|]. intros (u' & B & v' & s & E & _). by destruct u'.
  - rewrite <- app_assoc in Ew. cbn [app] in Ew. rewrite rev_app_distr in *. cbn [rev app tails] in *. rewrite zlen_snoc.
    replace (first_item ps r + (zlen u + 1) - 1) with (first_item ps r + zlen u) by lia. replace (zlen u + 1 - 1) with (zlen u) by lia.
    rewrite Ew in Hl. apply walk_app in Hl as (l1 & l2 & s & -> & Hl1 & Hl2). destruct l2 as [|s' l2]; [done|]. destruct Hl2 as [Ht _].
    rewrite (rule_symbol g ps L r (A, w)); [|done|cbn; rewrite Ew, zlen_app, zlen_cons; pose proof (zlen_nonneg u); pose proof (zlen_nonneg v); lia].
    cbn [snd]. rewrite Ew, rd_mid. cbn [rbind]. rewrite Ew in Hw. apply Forall_app in Hw as [_ [HX _]%Forall_cons].
    assert (Hp : path g ps cores p u s) by (apply walk_path; by exists l1). rewrite length_app in Hf. cbn [length] in Hf.
    setoid_rewrite (ends_snoc p u X s _ Hp). unfold ISVAR. destruct (Z.leb_spec (start_symbol g) X) as [Hge|Hlt].
    + assert (Es : rd (p :: l1 ++ s' :: l2) (zlen u) = Ok s) by (by apply walk_last).
      rewrite Es. cbn [rbind]. destruct (map_goto_ok g ps L cores ss rs Au gs G s X s' Ht Hge) as (k & -> & Hk). cbn [rbind].
      assert (Hon : goto_on k s X) by (split; [done|]; by exists s').
      pose proof (tails_nonneg (rev u)). unfold put_edge. destruct (Z.ltb_spec (zlen edge) (N + 1)); [|destruct (bool_decide _); lia]. cbn [rbind].
      destruct (rd_nullable X) as (b & Eb & Hb); [lia|]. rewrite Eb in *. cbn [rbind].
      assert (Hone : forall k', k' ∈ [k] <-> goto_on k' s X).
      { intros k'. rewrite list_elem_of_singleton. split; [by intros ->|]. intros Hk'. by apply (goto_on_unique k' k s X). }
      destruct b; cbn [andb].
      * rewrite bool_decide_true in * by done. destruct (Z.ltb_spec 0 (zlen u)) as [Hu|Hu].
        -- destruct (IH (X :: v)) with (fuel := fuel) (edge := edge ++ [k]) as (E & -> & Z & HE); [done|lia|rewrite zlen_snoc; lia|].
           exists (k :: E). rewrite <- app_assoc. split; [done|]. rewrite zlen_cons. split; [lia|]. intros k'.
           rewrite elem_of_cons, HE, <- Hone, list_elem_of_singleton. tauto.
        -- assert (u = []) as -> by (destruct u; [done|rewrite zlen_cons in Hu; pose proof (zlen_nonneg u); lia]).
           exists [k]. split_and!; [done|done|]. intros k'. rewrite Hone. split; [by left|]. intros [?|(_ & u' & B & v' & ? & E & _)]; [done|]. by destruct u'.
      * rewrite bool_decide_false by done. exists [k]. split_and!; [done|done|]. intros k'. rewrite Hone. split; [by left|].
        intros [?|[Hn _]]; [done|]. by apply Hb in Hn.
    + exists []. rewrite app_nil_r. split_and!; [done|done|]. intros k. rewrite elem_of_nil. split; [done|].
      intros [[? _]|[?%nul_variable _]]; lia.
Qed.


(** ** The relations between gotos *)

Lemma complete_item q r p : item_in q (first_item ps r + zlen p.2) -> rule ps r p -> exists k, la_index q r k.
Proof.
  intros (Y & K & E & Hi) Hr. assert (Hq : state q) by (apply rd_range in E; rewrite zlen_kernels in E; exact E).
  destruct (reds_exists q Hq) as [reds Hreds]. apply (reds_index q reds r Hq Hreds). destruct Hreds as (_ & Y' & K' & E' & _ & Hc).
  rewrite E in E'. injection E' as <- <-. apply Hc. by exists p.
Qed.

(** the rule [r] is one of [A], with a right-hand side of symbols that can be shifted *)
Definition rule_of (A r : Z) (w : list Z) : Prop := rule ps r (A, w) /\ Forall (fun X => 1 <= X) w.

Definition rule_tails (r : Z) : Z := match ps !! Z.to_nat (r - 2) with Some p => tails (rev p.2) | None => 0 end.

(** the reduction of the rule [r] in the lookahead [k] leads to the goto of [p] on [A] *)
Definition backs (p A r k : Z) : Prop := exists w q, rule_of A r w /\ path g ps cores p w q /\ la_index q r k.

Lemma rule_of_fun A r w w' : rule_of A r w -> rule_of A r w' -> w = w'.
Proof. intros [[_ E] _] [[_ E'] _]. congruence. Qed.

Lemma rule_of_symbols A r w : rule_of A r w -> Forall (fun X => 1 <= X < nsyms g) w.
Proof.
  intros [[_ El] Hpos]. pose proof (lo_symbols _ _ L) as H. rewrite Forall_lookup in H. destruct (H _ _ El) as [_ H2]. cbn in H2.
  rewrite Forall_forall in *. intros X HX. specialize (Hpos X HX). specialize (H2 X HX). cbn in *. lia.
Qed.

Lemma rule_tails_nonneg rules : 0 <= sumZ (map rule_tails rules).
Proof.
  apply sumZ_nonneg, Forall_map, Forall_true. intros r. unfold rule_tails. destruct (ps !! _); [apply tails_nonneg|lia].
Qed.

Lemma backs_index p A r w l q k : rule_of A r w -> walk p w l q -> la_index q r k -> forall k', backs p A r k' <-> k' = k.
Proof.
  intros Hw Hl Hk k'. split.
  - intros (w' & q' & Hw' & Hp & Hk'). rewrite (rule_of_fun A r w' w Hw' Hw) in Hp. apply walk_path in Hp as [l' Hl'].
    destruct (walk_fun _ _ _ _ _ _ Hl Hl') as [_ <-]. by apply (la_index_unique q r).
  - intros ->. exists w, q. split_and!; [done|apply walk_path; by exists l|done].
Qed.

Lemma relate_rules_ok i p A : goto_on i p A -> N <= MAXSHORT -> forall rules, Forall (fun r => exists w, rule_of A r w) rules ->
  forall edge lb, zlen edge + sumZ (map rule_tails rules) <= N + 1 -> zlen lb = zlen LAruleno ->
  exists E lb', relate_rules g gs acc st nullable (lookahead_bases rt 0) LAruleno i p rules edge lb = Ok (edge ++ E, lb') /\
    zlen E = sumZ (map rule_tails rules) /\ (forall k, k ∈ E <-> exists r w, r ∈ rules /\ rule_of A r w /\ ends_with p w k) /\
    zlen lb' = zlen lb /\ forall k sp, rd lb k = Ok sp -> exists sp', rd lb' k = Ok sp' /\
      forall x, x ∈ sp' <-> x ∈ sp \/ (x = i /\ exists r, r ∈ rules /\ backs p A r k).
Proof.
  intros Hi HN rules. induction 1 as [|r rules [w Hw] Hrs IH]; intros edge lb He Hz; cbn [relate_rules map sumZ] in *.
  { exists [], lb. rewrite app_nil_r. split_and!; [done|done| |done|].
    - intros k. rewrite elem_of_nil. split; [done|]. by intros (r & w & ?%elem_of_nil & _).
    - intros k sp E. exists sp. split; [done|]. intros x. split; [by left|]. by intros [?|(_ & r & ?%elem_of_nil & _)]. }
  pose proof Hw as [Hr Hpos]. rewrite (rule_start g ps L r _ Hr). cbn [rbind]. pose proof Hi as (HA & q1 & Hat & Ht).
  destruct (walk_rule r A w Hr Hpos w [] p) as (l & q & Hl & Hq); [done|rewrite zlen_nil, Z.add_0_r; by apply (goto_predicts p A q1 r w)|].
  pose proof (rule_maxrhs r _ Hr) as Hm. pose proof (rule_bounds g ps L r _ Hr) as Hb. cbn [snd] in *.
  pose proof (walk_rhs_ok r A w Hr Hpos w [] p l q (S (Z.to_nat (nitems g))) [p] eq_refl Hl) as Ew.
  rewrite zlen_nil, Z.add_0_r in Ew. rewrite Ew; [|change (zlen [p]) with 1; lia|unfold zlen in *; lia]. cbn [rbind app]. clear Ew.
  destruct (complete_item q r (A, w) Hq Hr) as [k Hk]. pose proof Hk as (_ & _ & Ek). apply rd_range in Ek. rewrite <- Hz in Ek.
  destruct (rd_in_range lb k Ek) as [sp Esp]. rewrite (add_lookback_edge_ok q r k i lb sp Hk Hz Esp (proj1 Hat) HN). cbn [rbind].
  assert (Et : rule_tails r = tails (rev w)). { unfold rule_tails. destruct Hr as [_ ->]. done. }
  rewrite Et in *. pose proof (rule_tails_nonneg rules) as Hsum. destruct (include_edges_ok r A w p l q Hr (rule_of_symbols A r w Hw) Hl w []) with (fuel := S (length (p :: l))) (edge := edge) as (E1 & E1e & Z1 & H1).
  { by rewrite app_nil_r. }
  { pose proof (walk_length _ _ _ _ Hl) as Q. unfold zlen in Q. cbn [length]. lia. }
  { lia. }
  pose proof (walk_length _ _ _ _ Hl) as Ql. rewrite zlen_cons. replace (1 + zlen l - 1) with (zlen w) by lia. rewrite E1e. cbn [rbind].
  destruct (IH (edge ++ E1) (<[Z.to_nat k := i :: sp]> lb)) as (E2 & lb' & -> & Z2 & H2 & Z3 & H3).
  { rewrite zlen_app. lia. }
  { by rewrite zlen_insert. }
  exists (E1 ++ E2), lb'. rewrite <- app_assoc. split; [done|]. split; [rewrite zlen_app; lia|]. split; [|split; [by rewrite Z3, zlen_insert|]].
  - intros k'. rewrite elem_of_app, H1, H2. split.
    + intros [H|(r' & w' & ? & ? & ?)]; [exists r, w|exists r', w']; rewrite elem_of_cons; tauto.
    + intros (r' & w' & [->|Hr']%elem_of_cons & Hw' & H); [left; by rewrite (rule_of_fun A r w w' Hw Hw')|right; by exists r', w'].
  - intros k' sp' E'. assert (Hex : (exists r', r' ∈ r :: rules /\ backs p A r' k') <-> k' = k \/ exists r', r' ∈ rules /\ backs p A r' k').
    { rewrite <- (backs_index p A r w l q k Hw Hl Hk). split.
      - intros (r' & [->|Hr']%elem_of_cons & H); [by left|right; by exists r'].
      - intros [H|(r' & ? & ?)]; [exists r|exists r']; rewrite elem_of_cons; tauto. }
    destruct (decide (k' = k)) as [->|Ne].
    + rewrite Esp in E'. injection E' as <-. destruct (H3 k (i :: sp)) as (sp2 & E2' & H); [apply rd_insert_eq; lia|]. exists sp2. split; [done|].
      intros x. rewrite H, elem_of_cons, Hex. tauto.
    + apply rd_range in E' as R. destruct (H3 k' sp') as (sp2 & E2' & H); [by rewrite rd_insert_ne by lia|]. exists sp2. split; [done|].
      intros x. rewrite H, Hex. tauto.
Qed.


Lemma goto_rules p A q : trans p A q -> start_symbol g <= A -> Forall (fun r => exists w, rule_of A r w) (rules_for g A) /\
  forall r w, r ∈ rules_for g A /\ rule_of A r w <-> rule ps r (A, w).
Proof.
  intros Ht HA. destruct (trans_in_rule p A q Ht) as (r0 & B & w0 & Hr0 & Hin). pose proof (ag_start _ _ Ag _ _ _ Hr0) as Hs.
  assert (Ne : A <> start_symbol g) by (intros ->; done). assert (Hof : forall r w, rule ps r (A, w) -> rule_of A r w).
  { intros r w Hr. split; [done|]. by destruct (ag_rules _ _ Ag r A w Hr). }
  assert (Hel := fun r => elem_of_rules_for g ps L A r HA). split.
  - apply Forall_forall. intros r ([A' w] & Hr & E)%Hel. cbn in E. subst A'. exists w. by apply Hof.
  - intros r w. split; [by intros [_ [? _]]|]. intros Hr. split; [|by apply Hof]. apply Hel. by exists (A, w).
Qed.

Definition includes_edge (i k : Z) : Prop := exists p A r w, goto_on i p A /\ rule ps r (A, w) /\ ends_with p w k.

Definition back_edge (i k : Z) : Prop := exists p A r w q, goto_on i p A /\ rule ps r (A, w) /\ path g ps cores p w q /\ la_index q r k.

Lemma goto_includes i p A q k : goto_on i p A -> trans p A q ->
  (exists r w, r ∈ rules_for g A /\ rule_of A r w /\ ends_with p w k) <-> includes_edge i k.
Proof.
  intros Hon Ht. destruct (goto_rules p A q Ht (proj1 Hon)) as [_ H]. split.
  - intros (r & w & Hr & Hw & He). exists p, A, r, w. split; [done|]. split; [by apply (proj1 (H r w))|done].
  - intros (p' & A' & r & w & Hon' & Hr & He). destruct (goto_on_fun _ _ _ _ _ Hon Hon') as [<- <-]. apply H in Hr as [? ?]. by exists r, w.
Qed.

Lemma goto_backs i p A q k : goto_on i p A -> trans p A q ->
  (exists r, r ∈ rules_for g A /\ backs p A r k) <-> back_edge i k.
Proof.
  intros Hon Ht. destruct (goto_rules p A q Ht (proj1 Hon)) as [_ H]. split.
  - intros (r & Hr & w & s & Hw & Hp & Hk). exists p, A, r, w, s. split; [done|]. split; [by apply (proj1 (H r w))|done].
  - intros (p' & A' & r & w & s & Hon' & Hr & Hp & Hk). destruct (goto_on_fun _ _ _ _ _ Hon Hon') as [<- <-]. apply H in Hr as [? ?].
    exists r. split; [done|]. by exists w, s.
Qed.

Definition goto_tails (A : Z) : Z := sumZ (map rule_tails (rules_for g A)).

Context (d : derivations) (Hd : rows_done g (Z.to_nat (nvars g)) d).
Context (HN : N + 2 <= MAXSHORT) (Htails : forall A, start_symbol g <= A < nsyms g -> goto_tails A <= N + 1).

(** the edges and the lists of the first gotos *)
Definition related (i : Z) (st : list (option (list Z)) * list (list Z)) : Prop :=
  zlen st.1 = N /\ zlen st.2 = zlen LAruleno /\
  (forall i', 0 <= i' < N -> exists E, rd st.1 i' = Ok (edges E) /\ zlen E <= goto_tails (zget acc (target i')) /\
     forall k, k ∈ E <-> i' < i /\ includes_edge i' k) /\
  (forall k sp, rd st.2 k = Ok sp -> forall x, x ∈ sp <-> 0 <= x < i /\ back_edge x k).

Lemma relate_goto_ok i inc : 0 <= i < N -> related i inc ->
  exists inc', relate_goto g d gs acc st nullable (lookahead_bases rt 0) LAruleno i inc = Ok inc' /\ related (i + 1) inc'.
Proof.
  intros Hi (Z1 & Z2 & H1 & H2). destruct inc as [includes lookback]. cbn [fst snd] in *. unfold relate_goto.
  destruct (goto_on_exists i Hi) as (p & A & Hon). pose proof Hon as (HA & q & (_ & Ep & Eq) & Ht).
  destruct (go_sizes _ _ _ _ G) as (_ & En & Et & _). rewrite rd_zget by (unfold ngotos in *; lia). cbn [rbind].
  destruct (target_state i Hi) as [-> _]. cbn [rbind]. rewrite (goto_on_target i p A q Hon Ht), Ep.
  destruct (trans_known g ps L cores p A q Ht) as ((-> & _) & _ & HA2). cbn [rbind]. rewrite (trans_zget g ps cores p A q Ht).
  rewrite (rules_of_ok g ps L d A Hd) by lia. cbn [rbind]. destruct (goto_rules p A q Ht HA) as [Hall Hrules].
  destruct (relate_rules_ok i p A Hon ltac:(lia) (rules_for g A) Hall [] lookback) as (E & lb' & -> & ZE & HE & Zlb & Hlb).
  { apply Htails. lia. }
  { done. }
  cbn [rbind app]. rewrite wr_in_range by lia. cbn [rbind]. eexists. split; [done|]. split; [cbn [fst]; by rewrite zlen_insert|]. split; [cbn; lia|]. cbn [fst snd]. split.
  - intros i' Hi'. destruct (decide (i' = i)) as [->|Ne].
    + exists E. split; [apply rd_insert_eq; lia|]. split; [rewrite (goto_on_target i p A q Hon Ht), (trans_zget g ps cores p A q Ht); unfold goto_tails; lia|].
      intros k. rewrite HE, (goto_includes i p A q k Hon Ht). split; [by split; [lia|]|by intros [_ ?]].
    + destruct (H1 i' Hi') as (E' & Ee & ZE' & HE'). exists E'. split; [by rewrite rd_insert_ne by lia|]. split; [done|]. intros k. rewrite HE'.
      split; intros [? ?]; (split; [lia|done]).
  - intros k sp' Esp'. apply rd_range in Esp' as R. destruct (rd_in_range lookback k) as [sp Esp]; [lia|].
    destruct (Hlb k sp Esp) as (sp2 & E2 & Hx). rewrite Esp' in E2. injection E2 as <-. intros x. rewrite Hx, (H2 k sp Esp), (goto_backs i p A q k Hon Ht).
    split; [intros [[? ?]|[-> ?]]; (split; [lia|done])|]. intros [? ?]. destruct (decide (x = i)) as [->|]; [by right|left; split; [lia|done]].
Qed.


Context (Hsum : sumZ (map (fun q => goto_tails (zget acc q)) (to_state gs)) <= MAXSHORT).

Lemma sumZ_le (a b : list Z) : Forall2 Z.le a b -> sumZ a <= sumZ b.
Proof. induction 1; cbn; lia. Qed.

Lemma build_relations_ok : exists includes lookback,
  build_relations g d gs acc st nullable (lookahead_bases rt 0) LAruleno = Ok (includes, lookback) /\ zlen includes = N /\
  (forall i k, edge includes k i <-> includes_edge i k) /\
  zlen lookback = zlen LAruleno /\ forall k sp, rd lookback k = Ok sp -> forall x, x ∈ sp <-> back_edge x k.
Proof.
  unfold build_relations. pose proof (zlen_nonneg (from_state gs)) as Hnn. fold N in Hnn.
  destruct (for_loop_inv related (Z.to_nat N) 0 (relate_goto g d gs acc st nullable (lookahead_bases rt 0) LAruleno)
    (replicate (Z.to_nat N) None, replicate (length LAruleno) [])) as ([inc lb] & -> & Z1 & Z2 & H1 & H2).
  - split; [cbn; rewrite zlen_replicate; unfold ngotos in *; lia|]. split; [cbn; rewrite zlen_replicate; done|]. cbn [fst snd]. split.
    + intros i' Hi'. exists []. split; [apply rd_Ok; split; [lia|]; apply lookup_replicate; split; [done|lia]|]. split.
      * apply rule_tails_nonneg.
      * intros k. rewrite elem_of_nil. split; [done|lia].
    + intros k sp [_ [-> _]%lookup_replicate]%rd_Ok x. rewrite elem_of_nil. split; [done|lia].
  - intros i inc Hi. apply relate_goto_ok. unfold ngotos in *. lia.
  - cbn [rbind fst snd] in *. rewrite Z.add_0_l, Z2Nat.id in * by (unfold ngotos in *; lia).
    assert (He : forall i k, edge inc i k <-> includes_edge i k).
    { intros i k. split.
      - intros Hk. pose proof Hk as (l & El & _). apply rd_range in El. destruct (H1 i) as (E & Ee & _ & HE); [lia|]. apply (edge_edges inc i E k Ee), HE in Hk. apply Hk.
      - intros Hk. assert (Hi : 0 <= i < N) by (destruct Hk as (p & A & r & w & (_ & q & [? _] & _) & _); done).
        destruct (H1 i Hi) as (E & Ee & _ & HE). apply (edge_edges inc i E k Ee), HE. split; [lia|done]. }
    destruct (transpose_ok N inc) as (inc' & -> & Zi & Hi); [done|lia| | |cbn [rbind]].
    + intros i j (p & A & r & w & _ & _ & u & B & v & s & _ & _ & _ & _ & q & [? _] & _)%He. done.
    + etrans; [|exact Hsum]. apply sumZ_le, Forall2_fmap. destruct (go_sizes _ _ _ _ G) as (_ & En & Et & _).
      apply Forall2_same_length_lookup_2; [unfold zlen in *; lia|]. intros i e q Ee Eq. apply lookup_lt_Some in Ee as Hlt.
      destruct (H1 (Z.of_nat i)) as (E & Er & ZE & _); [unfold zlen in *; lia|]. apply rd_Ok in Er as [_ Er]. rewrite Nat2Z.id, Ee in Er. injection Er as ->.
      unfold target, zget in ZE. rewrite Nat2Z.id, (nth_lookup_Some _ _ 0 _ Eq) in ZE. by destruct E.
    + exists inc', lb. split; [done|]. split; [done|]. split; [intros i k; by rewrite Hi|]. split; [done|]. intros k sp Esp x. rewrite (H2 k sp Esp).
      split; [by intros [_ ?]|]. intros Hx. split; [|done]. destruct Hx as (p & A & r & w & q & (_ & q' & [? _] & _) & _). lia.
Qed.

(** ** The tokens that follow *)

Lemma follows_closure R : (forall i k, edge R k i <-> includes_edge i k) -> forall k p A t, goto_on k p A ->
  follows g ps cores p A t <-> exists k' p' A', rtc (edge R) k k' /\ goto_on k' p' A' /\ reads g ps cores p' A' t.
Proof.
  intros He k p A t Hk. split.
  - intros H. revert k Hk. induction H as [p A t Hr|p A t p' B q' r u v Hr Hv Hu Ht _ IH]; intros k Hk; [by exists k, p, A|].
    assert (HB : start_symbol g <= B).
    { pose proof (lo_symbols _ _ L) as H. rewrite Forall_lookup in H. destruct Hr as [_ El]. destruct (H _ _ El) as [? _]. cbn in *. lia. }
    destruct (goto_on_number p' B q' Ht HB) as [i Hi]. destruct (IH i Hi) as (k' & p2 & A2 & Hi' & H2). exists k', p2, A2. split; [|done].
    eapply rtc_l; [|exact Hi']. apply He. exists p', B, r, (u ++ A :: v). split; [done|]. split; [done|]. by exists u, A, v, p.
  - intros (k' & p' & A' & Hkk & Hk' & Hr). revert p A Hk. induction Hkk as [k|k i k' Hki _ IH]; intros p A Hk.
    + destruct (goto_on_fun _ _ _ _ _ Hk Hk') as [-> ->]. by apply follows_reads.
    + apply He in Hki as (p1 & B & r & w & Hi & Hrule & u & A1 & v & s & -> & Hv & Hu & Hk1). destruct (goto_on_fun _ _ _ _ _ Hk Hk1) as [-> ->].
      pose proof Hi as (_ & q & _ & Ht). eapply follows_includes; [exact Hrule|exact Hv|exact Hu|exact Ht|]. by apply IH.
Qed.

Lemma compute_FOLLOWS_ok R f0 : 0 < N -> zlen R = N -> (forall i k, edge R k i <-> includes_edge i k) -> zlen f0 = N * W ->
  (forall k p A t, goto_on k p A -> 0 <= t < 32 * W -> entry f0 W k t = true <-> reads g ps cores p A t) ->
  exists f, digraph W N R f0 = Ok f /\ zlen f = N * W /\
    forall k p A t, goto_on k p A -> 0 <= t < 32 * W -> entry f W k t = true <-> follows g ps cores p A t.
Proof.
  intros Hpos ZR He Zf Hf. pose proof (lo_start _ _ L). assert (HW : 0 < W) by (apply WORDSIZE_pos; unfold ntokens; lia).
  assert (Hb : forall k i, edge R k i -> 0 <= i < N) by (intros k i (p & A & r & w & (_ & q & [? _] & _) & _)%He; done).
  destruct (digraph_ok N W R f0) as (f & E & Z & H'); [lia|lia|done|done|done|lia|]. exists f. split; [done|]. split; [done|].
  intros k p A t Hk Ht. assert (Hkr : 0 <= k < N) by (destruct Hk as (_ & ? & [? _] & _); done).
  rewrite H' by done. rewrite (follows_closure R He k p A t Hk). split.
  - intros (k' & Hk' & B). assert (Hkr' : 0 <= k' < N) by (destruct (rtc_inv_r _ _ Hk') as [->|(k2 & _ & ?)]; [done|by eapply Hb]).
    destruct (goto_on_exists k' Hkr') as (p' & A' & Hon). exists k', p', A'. split; [done|]. split; [done|]. by apply (Hf k').
  - intros (k' & p' & A' & Hk' & Hon & Hr). exists k'. split; [done|]. by apply (Hf k' p' A').
Qed.


(** ** The lookaheads *)

Lemma la_index_fun q r q' r' k : la_index q r k -> la_index q' r' k -> q = q' /\ r = r'.
Proof.
  intros (Hq & Hk & E) (Hq' & Hk' & E'). split; [|congruence]. destruct (decide (q = q')) as [|Ne]; [done|].
  rewrite !psum_next in * by (rewrite nred_zlen; exact Hq || exact Hq').
  destruct (psum_segments nred q q' nred_nonneg) as [?|?]; [rewrite nred_zlen; exact Hq|rewrite nred_zlen; exact Hq'|done|lia|lia].
Qed.

Lemma lookahead_back q r k t : la_index q r k ->
  lookahead g ps cores q r t <-> exists x p A, back_edge x k /\ goto_on x p A /\ follows g ps cores p A t.
Proof.
  intros Hk. split.
  - intros (p & A & w & q' & Hr & Hp & Ht & Hf). assert (HA : start_symbol g <= A).
    { pose proof (lo_symbols _ _ L) as H. rewrite Forall_lookup in H. destruct Hr as [_ El]. destruct (H _ _ El) as [? _]. cbn in *. lia. }
    destruct (goto_on_number p A q' Ht HA) as [x Hx]. exists x, p, A. split; [|done]. by exists p, A, r, w, q.
  - intros (x & p & A & (p1 & A1 & r1 & w & q1 & Hx1 & Hr & Hp & Hk1) & Hx & Hf). destruct (goto_on_fun _ _ _ _ _ Hx Hx1) as [<- <-].
    destruct (la_index_fun _ _ _ _ _ Hk Hk1) as [<- <-]. pose proof Hx as (_ & q' & _ & Ht). by exists p, A, w, q'.
Qed.

Lemma LA_ok : 0 < N -> exists LA,
  (let* f := initialize_F g gs acc st nullable in
   let* (includes, lookback) := build_relations g d gs acc st nullable (lookahead_bases rt 0) LAruleno in
   let* f := digraph W N includes f in
   let* k := rd (lookahead_bases rt 0) (zlen cores) in
   compute_lookaheads f W lookback k (replicate (Z.to_nat (zlen LAruleno * W)) 0)) = Ok LA /\
  zlen LA = zlen LAruleno * W /\
  forall q r k t, la_index q r k -> 0 <= t < 32 * W -> entry LA W k t = true <-> lookahead g ps cores q r t.
Proof.
  intros Hpos. destruct (initialize_F_ok Hpos HN) as (f0 & -> & Z0 & H0). destruct build_relations_ok as (inc & lb & Eb & Zi & Hi & Zl & Hl).
  cbn [rbind]. rewrite Eb. cbn [rbind]. destruct (compute_FOLLOWS_ok inc f0 Hpos Zi Hi Z0 H0) as (f & -> & Zf & Hf). cbn [rbind].
  pose proof (zlen_nonneg cores). rewrite lookaheads_ok by lia. cbn [rbind].
  replace (psum nred (zlen cores)) with (zlen LAruleno) by (rewrite <- nred_zlen, psum_all, nred_sum; done).
  pose proof (lo_start _ _ L). assert (HW : 0 < W) by (apply WORDSIZE_pos; unfold ntokens; lia). pose proof (zlen_nonneg LAruleno).
  assert (Hback : forall x k, back_edge x k -> 0 <= x < N) by (intros x k (p & A & r & w & q & (_ & q' & [? _] & _) & _); done).
  destruct (compute_lookaheads_ok W (zlen LAruleno) N f ltac:(lia) Zf lb (replicate (Z.to_nat (zlen LAruleno * W)) 0)) as (LA & -> & ZL & HL).
  - lia.
  - rewrite zlen_replicate. nia.
  - intros. apply zero_entry.
  - intros k sp Esp. apply Forall_forall. intros x Hx%(Hl k sp Esp). by eapply Hback.
  - exists LA. split; [done|]. split; [done|]. intros q r k t Hk Ht. pose proof Hk as (_ & _ & Ek%rd_range). rewrite HL by done.
    rewrite (lookahead_back q r k t Hk). split.
    + intros (sp & x & Esp & Hx%(Hl k sp Esp) & Hxt). destruct (goto_on_exists x) as (p & A & Hon); [by eapply Hback|].
      exists x, p, A. split; [done|]. split; [done|]. by apply (Hf x).
    + intros (x & p & A & Hx & Hon & Hfl). destruct (rd_in_range lb k) as [sp Esp]; [lia|]. exists sp, x. split; [done|]. split; [by apply (Hl k sp Esp)|].
      by apply (Hf x p A).
Qed.

End Lookaheads.

(** ** The tables of the generator *)

Section Tables.
Context (g : grammar) (ps : list production) (L : lays_out g ps) (Ag : augmented g ps).
Context (cores : list core) (ss : list shifts) (rs : list reductions) (Au : lr0_automaton g ps cores ss rs).
Context (nullable : list bool) (Hnz : zlen nullable = nsyms g).
Context (Hnu : forall X, 0 <= X < nsyms g -> rd nullable X = Ok true <-> derives_empty ps X).

(** what the arrays and the shorts can hold, and that the code does not test: the gotos, the
    reductions, and the edges of the relations *)
Record fits (rt : list (option (list Z))) (gs : gotos) : Prop := {
  ft_reductions : zlen (concat (map nreds rt)) <= MAXSHORT;
  ft_gotos : 0 < ngotos gs /\ ngotos gs + 2 <= MAXSHORT;
  ft_edges : forall A, start_symbol g <= A < nsyms g -> goto_tails g ps nullable A <= ngotos gs + 1;
  ft_includes : sumZ (map (fun q => goto_tails g ps nullable (zget (set_accessing_symbol cores) q)) (to_state gs)) <= MAXSHORT }.

(** for each state, the rules complete in its closure, and the lookaheads of each *)
Definition lalr_tables (lookaheads LAruleno LA : list Z) : Prop :=
  zlen LA = zlen LAruleno * WORDSIZE (ntokens g) /\
  forall q X K, rd (kernels cores) q = Ok (X, K) -> exists a b, rd lookaheads q = Ok a /\ rd lookaheads (q + 1) = Ok b /\
    0 <= a <= b /\ b <= zlen LAruleno /\
    (forall r, (exists p, rule ps r p /\ in_closure g ps K (first_item ps r + zlen p.2)) <-> exists k, a <= k < b /\ rd LAruleno k = Ok r) /\
    (forall k k' r r', a <= k < k' -> k' < b -> rd LAruleno k = Ok r -> rd LAruleno k' = Ok r' -> r < r') /\
    forall k r t, a <= k < b -> rd LAruleno k = Ok r -> 0 <= t < ntokens g ->
      entry LA (WORDSIZE (ntokens g)) k t = true <-> lookahead g ps cores q r t.

Lemma lalr_ok d rt gs : nvars g mod 32 <> 0 -> rows_done g (Z.to_nat (nvars g)) d -> set_reduction_table (zlen cores) rs = Ok rt ->
  set_goto_map g (set_accessing_symbol cores) ss = Ok gs -> gotos_ok g cores ss gs -> fits rt gs ->
  exists LA, lalr g d nullable cores ss rs = Ok (lookahead_bases rt 0, concat (map nreds rt), LA) /\
    lalr_tables (lookahead_bases rt 0) (concat (map nreds rt)) LA.
Proof.
  intros Hmod Hd Ert Egs G [F1 [F2 F3] F4 F5]. destruct (shift_table_ok g ps cores ss rs Au) as (st & Est & Hst).
  destruct (reduction_table_ok g ps cores ss rs Au) as (rt' & Ert' & Hrz & Hrt). rewrite Ert in Ert'. injection Ert' as <-.
  destruct (LA_ok g ps L cores ss rs Au nullable Hnz Hnu gs G st Hst Hmod Ag rt Hrz Hrt F1 d Hd F3 F4 F5 F2) as (LA & E & ZL & HL).
  exists LA. split; [unfold lalr, initialize_LA; rewrite Est; cbn [rbind]; rewrite Ert; cbn [rbind]; rewrite Egs; cbn [rbind]|].
  - change (acc cores) with (set_accessing_symbol cores) in E. destruct (initialize_F g gs (set_accessing_symbol cores) st nullable) as [f|e| |]; cbn [rbind] in *; try done.
    destruct (build_relations _ _ _ _ _ _ _ _) as [[inc lb]|e| |]; cbn [rbind] in *; try done.
    destruct (digraph _ _ _ _) as [f1|e| |]; cbn [rbind] in *; try done. destruct (rd (lookahead_bases rt 0) (zlen cores)) as [k|e| |]; cbn [rbind] in *; try done.
    by rewrite E.
  - split; [exact ZL|]. intros q X K EK. apply rd_range in EK as Hq. rewrite zlen_kernels in Hq.
    destruct (reds_exists g ps cores ss rs Au q Hq) as [reds Hreds].
    exists (psum (nred rt) q), (psum (nred rt) (q + 1)). rewrite !(lookaheads_ok cores rt Hrz F1) by lia. split; [done|]. split; [done|].
    split; [by apply (psum_bounds cores rt Hrz)|]. split; [apply (psum_bounds cores rt Hrz q); done|]. split.
    + intros r. transitivity (r ∈ reds).
      * destruct Hreds as (_ & X' & K' & EK' & _ & Hc). rewrite EK in EK'. injection EK' as <- <-. by rewrite Hc.
      * rewrite (reds_index g ps cores rs nullable rt Hrz Hrt q reds r Hq Hreds). split; [intros (k & _ & ? & ?)|intros (k & ? & ?)]; by exists k.
    + split; [by apply (la_increasing g ps cores rs rt Hrz Hrt q reds Hq Hreds)|].
      intros k r t Hk Er Ht. apply (HL q r k t); [done|]. split; [lia|apply (ntokens_words g); lia].
Qed.

Lemma lalr_tables_ok : nvars g mod 32 <> 0 ->
  (forall rt gs, set_reduction_table (zlen cores) rs = Ok rt -> set_goto_map g (set_accessing_symbol cores) ss = Ok gs -> fits rt gs) ->
  exists d, set_derives g = Ok d /\
  ((exists lookaheads LAruleno LA, lalr g d nullable cores ss rs = Ok (lookaheads, LAruleno, LA) /\ lalr_tables lookaheads LAruleno LA) \/
   (lalr g d nullable cores ss rs = Raise (Failure "too many gotos") /\ MAXSHORT < zlen (T g cores ss))).
Proof.
  intros Hmod Hfit. destruct (set_derives_done g ps L) as (d & Ed & Hd). exists d. split; [done|].
  destruct (shift_table_ok g ps cores ss rs Au) as (st & Est & _). destruct (reduction_table_ok g ps cores ss rs Au) as (rt & Ert & _).
  destruct (set_goto_map_ok g ps L cores ss rs Au) as [(_ & gs & Egs & G)|(Hm & Egs)].
  - left. destruct (lalr_ok d rt gs Hmod Hd Ert Egs G (Hfit rt gs Ert Egs)) as (LA & E & H). by exists (lookahead_bases rt 0), (concat (map nreds rt)), LA.
  - right. split; [|done]. unfold lalr. rewrite Est. cbn [rbind]. rewrite Ert. cbn [rbind]. destruct (initialize_LA rt).
    change (acc cores) with (set_accessing_symbol cores) in Egs. by rewrite Egs.
Qed.

(** C11: For an augmented grammar whose number of variables is not a multiple of 32, its LR(0)
    automaton and its nullable symbols, when the gotos, the reductions and the edges fit in
    the arrays and in shorts, which the code does not test ([fits]): [LAruleno] gives, from [lookaheads q] to
    [lookaheads (q + 1)], exactly the rules complete in the state [q], and the row of bits of
    each of them is exactly the set of its LALR(1) lookaheads, as defined by the relations
    reads, includes and lookback, where the end of the input is read after the goal in the
    first state; or there are more gotos than a short numbers, and the error says so. *)
Theorem lalr_correct : nvars g mod 32 <> 0 ->
  (forall rt gs, set_reduction_table (zlen cores) rs = Ok rt -> set_goto_map g (set_accessing_symbol cores) ss = Ok gs -> fits rt gs) ->
  exists d, set_derives g = Ok d /\
  ((exists lookaheads LAruleno LA, lalr g d nullable cores ss rs = Ok (lookaheads, LAruleno, LA) /\ lalr_tables lookaheads LAruleno LA) \/
   (lalr g d nullable cores ss rs = Raise (Failure "too many gotos") /\ MAXSHORT < zlen (T g cores ss))).
Proof. exact lalr_tables_ok. Qed.

End Tables.

Lemma demo_augmented : augmented demo_grammar demo_productions.
Proof.
  assert (H : forall r A w, rule demo_productions r (A, w) -> (A, w) ∈ demo_productions) by (intros r A w [_ E]; by apply list_elem_of_lookup_2 in E).
  assert (F : Forall (fun p : production => (p.1 = 3 \/ Forall (fun X => 1 <= X) p.2) /\ Forall (fun X => X <> 3) p.2) demo_productions).
  { repeat constructor; cbn; lia || (left; reflexivity) || (right; repeat constructor; lia). }
  rewrite Forall_forall in F. split; [intros r A w [? Hs]%H%F; done|by split|]. intros r A w [? Hs]%H%F. cbn in Hs. rewrite Forall_forall in Hs. intros Hin. by apply (Hs _ Hin).
Qed.

Lemma lalr_witness : exists nullable cores ss rs, lr0 demo_grammar = Ok (nullable, (cores, ss, rs)) /\
  exists d, set_derives demo_grammar = Ok d /\
  ((exists lookaheads LAruleno LA, lalr demo_grammar d nullable cores ss rs = Ok (lookaheads, LAruleno, LA) /\
      lalr_tables demo_grammar demo_productions cores lookaheads LAruleno LA) \/
   (lalr demo_grammar d nullable cores ss rs = Raise (Failure "too many gotos") /\ MAXSHORT < zlen (T demo_grammar cores ss))).
Proof.
  destruct (lr0_ok demo_grammar demo_productions demo_lays_out ltac:(discriminate)) as [(nu & cores & ss & rs & E & Au & Hz & Hnu)|[E _]].
  - exists nu, cores, ss, rs. split; [done|]. rewrite demo_automaton in E. injection E as <- <- <- <-.
    apply (lalr_correct demo_grammar demo_productions demo_lays_out demo_augmented _ _ _ Au _ Hz Hnu); [discriminate|].
    intros rt gs Ert Egs. vm_compute in Ert, Egs. injection Ert as <-. injection Egs as <-. constructor; [by vm_compute|by split; vm_compute| |by vm_compute].
    intros A HA. assert (A = 3 \/ A = 4 \/ A = 5) as [->|[->| ->]] by (cbn in HA; lia); vm_compute; done.
  - rewrite demo_automaton in E. discriminate.
Defined.
