(* ===== verification/Mkpar.v ===== *)
(** * The parser actions and the conflicts ([ocaml/yacc/mkpar.c])

    The actions of a state: its shifts on tokens, and the reductions of its rules on their
    lookaheads, in a list sorted by symbol, a shift first, then the reductions by rule.
    [remove_conflicts] suppresses actions until no symbol has more than one, by the
    precedences or, without them, in favour of the shift and of the first rule.

    The pointer [pref] of [remove_conflicts] is the index of the action in the list, since
    the suppression is written in the actions themselves. *)

From S2P Require Import Prelude.
From S2P Require Import Warshall.
From S2P Require Import Grammar.
From S2P Require Import Closure.
From S2P Require Import Lr0.
From S2P Require Import Digraph.
From S2P Require Import Lalr.
From S2P Require Import Gotos.
From S2P Require Import Lookaheads.
From Stdlib Require Import Sorting.Sorted.
From stdpp Require Import relations sorting.
#[local] Open Scope Z_scope.

Definition LEFT : Z := 1.
Definition RIGHT : Z := 2.

Inductive action_code := SHIFT | REDUCE.

#[export] Instance action_code_eq_dec : EqDecision action_code.
Proof. solve_decision. Defined.

Record action := Action {
  a_symbol : Z;
  a_number : Z;
  a_prec : Z;
  a_code : action_code;
  a_assoc : Z;
  suppressed : Z }.

#[export] Instance action_eq_dec : EqDecision action.
Proof. solve_decision. Defined.

(** ** The actions of a state *)

(** the precedences of the tokens and of the rules *)
Record precedences := Precedences {
  symbol_prec : list Z;
  symbol_assoc : list Z }.

(** the loop on the shifts, from the last one *)
Fixpoint put_shifts (g : grammar) (pr : precedences) (acc : list Z) (to_state : list Z) (actions : list action) : result (list action) :=
  match to_state with
  | [] => Ok actions
  | k :: to_state =>
      let* symbol := rd acc k in
      if ISTOKEN g symbol then
        let* p := rd (symbol_prec pr) symbol in
        let* a := rd (symbol_assoc pr) symbol in
        put_shifts g pr acc to_state (Action symbol k p SHIFT a 0 :: actions)
      else put_shifts g pr acc to_state actions
  end.

Definition get_shifts (g : grammar) (pr : precedences) (acc : list Z) (shift_table : list (option (list Z))) (stateno : Z)
    : result (list action) :=
  let* sp := rd shift_table stateno in
  match sp with
  | Some to_state => put_shifts g pr acc (rev to_state) []
  | None => Ok []
  end.

(** the actions passed while the condition holds, and the rest *)
Fixpoint pass (cond : action -> bool) (next : list action) : list action * list action :=
  match next with
  | a :: l => if cond a then let (passed, next) := pass cond l in (a :: passed, next) else ([], next)
  | [] => ([], [])
  end.

Definition is_shift (a : action) : bool := match a_code a with SHIFT => true | REDUCE => false end.

Definition add_reduce (g : grammar) (actions : list action) (ruleno symbol : Z) : result (list action) :=
  let (l1, next) := pass (fun a => a_symbol a <? symbol) actions in
  let (l2, next) := pass (fun a => (a_symbol a =? symbol) && is_shift a) next in
  let (l3, next) := pass (fun a => (a_symbol a =? symbol) && negb (is_shift a) && (a_number a <? ruleno)) next in
  let* p := rd (rprec (tab g)) ruleno in
  let* a := rd (rassoc (tab g)) ruleno in
  Ok (l1 ++ l2 ++ l3 ++ Action symbol ruleno p REDUCE a 0 :: next).

(** the tokens of a row, from the last one *)
Fixpoint add_row (n : nat) (g : grammar) (LA : list Z) (rowp ruleno : Z) (actions : list action) : result (list action) :=
  match n with
  | O => Ok actions
  | S n =>
      let* b := BIT LA rowp (Z.of_nat n) in
      let* actions := if negb (b =? 0) then add_reduce g actions ruleno (Z.of_nat n) else Ok actions in
      add_row n g LA rowp ruleno actions
  end.

Definition add_reductions (g : grammar) (lookaheads LAruleno LA : list Z) (stateno : Z) (actions : list action) : result (list action) :=
  let* m := rd lookaheads stateno in
  let* n := rd lookaheads (stateno + 1) in
  for_loop (Z.to_nat (n - m)) m
    (fun i actions =>
       let* ruleno := rd LAruleno i in
       add_row (Z.to_nat (ntokens g)) g LA (i * WORDSIZE (ntokens g)) ruleno actions) actions.

Definition parse_actions (g : grammar) (pr : precedences) (acc : list Z) (shift_table : list (option (list Z)))
    (lookaheads LAruleno LA : list Z) (stateno : Z) : result (list action) :=
  let* actions := get_shifts g pr acc shift_table stateno in
  add_reductions g lookaheads LAruleno LA stateno actions.

(** ** Conflicts *)

(** the last state of the loop is the last one tried, when the goal is not found *)
Fixpoint final_loop (acc : list Z) (goal : Z) (to_state : list Z) (final_state : Z) : result Z :=
  match to_state with
  | [] => Ok final_state
  | s :: to_state =>
      let* a := rd acc s in
      if a =? goal then Ok s else final_loop acc goal to_state s
  end.

Definition find_final_state (g : grammar) (acc : list Z) (shift_table : list (option (list Z))) : result Z :=
  let* p := rd shift_table 0 in
  let* to_state := of_option p in
  let* goal := rd (ritem (tab g)) 1 in
  final_loop acc goal (rev to_state) 0.

Definition suppress (k : Z) (a : action) : action :=
  Action (a_symbol a) (a_number a) (a_prec a) (a_code a) (a_assoc a) k.

Record conflicts := Conflicts { row : list action; pref : option Z; symbol : Z; SRcount : Z; RRcount : Z }.

(** the loop on the actions of a state: the action [k] *)
Definition conflict_step (at_final : bool) (k : Z) (c : conflicts) : result conflicts :=
  let* p := rd (row c) k in
  if negb (a_symbol p =? symbol c) then Ok (Conflicts (row c) (Some k) (a_symbol p) (SRcount c) (RRcount c))
  else if at_final && (symbol c =? 0) then
    let* r := wr (row c) k (suppress 1 p) in
    Ok (Conflicts r (pref c) (symbol c) (SRcount c + 1) (RRcount c))
  else
    let* i := of_option (pref c) in
    let* f := rd (row c) i in
    if is_shift f then
      if (0 <? a_prec f) && (0 <? a_prec p) then
        if a_prec f <? a_prec p then
          let* r := wr (row c) i (suppress 2 f) in
          Ok (Conflicts r (Some k) (symbol c) (SRcount c) (RRcount c))
        else if a_prec p <? a_prec f then
          let* r := wr (row c) k (suppress 2 p) in
          Ok (Conflicts r (pref c) (symbol c) (SRcount c) (RRcount c))
        else if a_assoc f =? LEFT then
          let* r := wr (row c) i (suppress 2 f) in
          Ok (Conflicts r (Some k) (symbol c) (SRcount c) (RRcount c))
        else if a_assoc f =? RIGHT then
          let* r := wr (row c) k (suppress 2 p) in
          Ok (Conflicts r (pref c) (symbol c) (SRcount c) (RRcount c))
        else
          let* r := wr (row c) i (suppress 2 f) in
          let* r := wr r k (suppress 2 p) in
          Ok (Conflicts r (pref c) (symbol c) (SRcount c) (RRcount c))
      else
        let* r := wr (row c) k (suppress 1 p) in
        Ok (Conflicts r (pref c) (symbol c) (SRcount c + 1) (RRcount c))
    else
      let* r := wr (row c) k (suppress 1 p) in
      Ok (Conflicts r (pref c) (symbol c) (SRcount c) (RRcount c + 1)).

(** the loop on the states: the rows, and the conflicts of each state; [pref] is always set
    before it is used, since no symbol is -1 *)
Fixpoint remove_conflicts (final_state i : Z) (parser : list (list action)) : result (list (list action * (Z * Z))) :=
  match parser with
  | [] => Ok []
  | actions :: parser =>
      let* c := for_loop (length actions) 0 (conflict_step (i =? final_state)) (Conflicts actions None (-1) 0 0) in
      let* rest := remove_conflicts final_state (i + 1) parser in
      Ok ((row c, (SRcount c, RRcount c)) :: rest)
  end.

Definition SRconflicts (rows : list (list action * (Z * Z))) : list Z := map (fun r => s16 r.2.1) rows.
Definition RRconflicts (rows : list (list action * (Z * Z))) : list Z := map (fun r => s16 r.2.2) rows.
Definition SRtotal (counts : list (Z * Z)) : Z := sumZ (map fst counts).
Definition RRtotal (counts : list (Z * Z)) : Z := sumZ (map snd counts).

(** ** Rules never reduced, default reductions *)

Definition active (a : action) : bool := suppressed a =? 0.

Fixpoint use_rules (actions : list action) (rules_used : list Z) : result (list Z) :=
  match actions with
  | [] => Ok rules_used
  | p :: actions =>
      let* rules_used := if negb (is_shift p) && active p then wr rules_used (a_number p) 1 else Ok rules_used in
      use_rules actions rules_used
  end.

(** [rules_used] and [nunused] *)
Definition unused_rules (g : grammar) (parser : list (list action)) : result (list Z * Z) :=
  let* used := use_rules (concat parser) (replicate (Z.to_nat (nrules g)) 0) in
  let* n := for_loop (Z.to_nat (nrules g - 3)) 3
    (fun i n => let* u := rd used i in Ok (if u =? 0 then s16 (n + 1) else n)) 0 in
  Ok (used, n).

Fixpoint sole_loop (p : list action) (count ruleno : Z) : Z :=
  match p with
  | [] => if count =? 0 then 0 else ruleno
  | a :: p =>
      if is_shift a && active a then 0
      else if negb (is_shift a) && active a then
        if (0 <? ruleno) && negb (a_number a =? ruleno) then 0
        else sole_loop p (if a_symbol a =? 1 then count else count + 1) (a_number a)
      else sole_loop p count ruleno
  end.

Definition sole_reduction (actions : list action) : Z := sole_loop actions 0 0.

Definition defreds (parser : list (list action)) : list Z := map (fun actions => s16 (sole_reduction actions)) parser.

(** ** The parser *)

Fixpoint parser_rows (g : grammar) (pr : precedences) (acc : list Z) (shift_table : list (option (list Z)))
    (lookaheads LAruleno LA : list Z) (n : nat) (i : Z) : result (list (list action)) :=
  match n with
  | O => Ok []
  | S n =>
      let* actions := parse_actions g pr acc shift_table lookaheads LAruleno LA i in
      let* rest := parser_rows g pr acc shift_table lookaheads LAruleno LA n (i + 1) in
      Ok (actions :: rest)
  end.

Record parser_info := ParserInfo {
  parser : list (list action);
  conflict_counts : list (Z * Z);
  final_state : Z;
  rules_used : list Z;
  nunused : Z;
  defred : list Z }.

Definition make_parser (g : grammar) (pr : precedences) (acc : list Z) (shift_table : list (option (list Z)))
    (lookaheads LAruleno LA : list Z) : result parser_info :=
  let* rows := parser_rows g pr acc shift_table lookaheads LAruleno LA (length acc) 0 in
  let* fs := find_final_state g acc shift_table in
  let* rows := remove_conflicts fs 0 rows in
  let parser := map fst rows in
  let* (used, n) := unused_rules g parser in
  Ok (ParserInfo parser (map snd rows) fs used n (defreds parser)).

(** expressions with two left-associative operators, the second one binding tighter, and a
    third rule, a prefix operator without precedence *)
Definition expr_productions : list production :=
  [(5, [6; 0]); (6, [6; 1; 6]); (6, [6; 2; 6]); (6, [3; 6]); (6, [4])].

Definition expr_grammar : grammar :=
  let t := tab (grammar_of 5 7 expr_productions) in
  Grammar (Tables (ritem t) (rlhs t) (rrhs t) [0; 0; 0; 1; 2; 0; 0] [0; 0; 0; 1; 1; 0; 0]) 5 7 7 (zlen (ritem t)).

Definition expr_precedences : precedences := Precedences [0; 1; 2; 0; 0] [0; 1; 1; 0; 0].

Definition expr_parser : result parser_info :=
  let* d := set_derives expr_grammar in
  let* (nullable, (cores, ss, rs)) := lr0 expr_grammar in
  let* (lookaheads, LAruleno, LA) := lalr expr_grammar d nullable cores ss rs in
  let* shift_table := set_shift_table (zlen cores) ss in
  make_parser expr_grammar expr_precedences (set_accessing_symbol cores) shift_table lookaheads LAruleno LA.

(** ** Sorted lists of actions *)

Definition rank (a : action) : Z := if is_shift a then 0 else a_number a.

Definition key_lt (a b : action) : Prop := a_symbol a < a_symbol b \/ (a_symbol a = a_symbol b /\ rank a < rank b).

Lemma pass_sorted (cond : action -> bool) l : StronglySorted key_lt l ->
  (forall x y, x ∈ l -> y ∈ l -> key_lt x y -> cond y = true -> cond x = true) ->
  forall a b, pass cond l = (a, b) -> l = a ++ b /\ Forall (fun x => cond x = true) a /\ Forall (fun x => cond x = false) b.
Proof.
  induction 1 as [|x l Hs IH Hx]; intros Hc a b E; cbn [pass] in E; [by injection E as <- <-|]. destruct (cond x) eqn:Ex.
  - destruct (pass cond l) as [a' b'] eqn:E'. injection E as <- <-. destruct (IH ltac:(intros y z Hy Hz; apply Hc; by right) a' b' eq_refl) as (-> & Ha & Hb).
    split_and!; [done|by constructor|done].
  - injection E as <- <-. split_and!; [done|constructor|]. constructor; [done|]. rewrite Forall_forall in *. intros y Hy.
    destruct (cond y) eqn:Ey; [|done]. rewrite (Hc x y) in Ex; [done|by left|by right|by apply Hx|done].
Qed.

Lemma sorted_app_l {A} (R : A -> A -> Prop) a b : StronglySorted R (a ++ b) -> StronglySorted R b.
Proof. induction a as [|x a IH]; [done|]. intros [Hs _]%StronglySorted_inv. by apply IH. Qed.

Lemma sorted_insert {A} (R : A -> A -> Prop) x a b : StronglySorted R (a ++ b) -> Forall (fun y => R y x) a -> Forall (R x) b ->
  StronglySorted R (a ++ x :: b).
Proof.
  induction a as [|y a IH]; cbn; intros Hs Ha Hb; [by constructor|]. apply StronglySorted_inv in Hs as [Hs Hy]. apply Forall_cons in Ha as [Hyx Ha].
  constructor; [by apply IH|]. apply Forall_app in Hy as [? ?]. apply Forall_app. split; [done|by constructor].
Qed.

Section Actions.
Context (g : grammar) (ps : list production) (L : lays_out g ps).
Context (pr : precedences) (Hsp : ntokens g <= zlen (symbol_prec pr)) (Hsa : ntokens g <= zlen (symbol_assoc pr)).
Context (Hrp : nrules g <= zlen (rprec (tab g))) (Hra : nrules g <= zlen (rassoc (tab g))).

Definition shift_action (t s : Z) : action := Action t s (zget (symbol_prec pr) t) SHIFT (zget (symbol_assoc pr) t) 0.

Definition reduce_action (r t : Z) : action := Action t r (zget (rprec (tab g)) r) REDUCE (zget (rassoc (tab g)) r) 0.

Lemma add_reduce_ok l r t : StronglySorted key_lt l -> Forall (fun a => 0 <= rank a) l -> 0 < r < nrules g ->
  (forall a, a ∈ l -> ~ (a_symbol a = t /\ rank a = r)) ->
  exists l', add_reduce g l r t = Ok l' /\ StronglySorted key_lt l' /\ forall a, a ∈ l' <-> a ∈ l \/ a = reduce_action r t.
Proof.
  intros Hs Hk Hr Hf. unfold add_reduce. destruct (pass _ l) as [l1 n1] eqn:E1.
  rewrite Forall_forall in Hk. apply pass_sorted in E1 as (-> & F1 & F1'); [|done|intros x y _ _ [?|[? _]]; rewrite !Z.ltb_lt; lia].
  rewrite Forall_forall in F1, F1'. destruct (pass _ n1) as [l2 n2] eqn:E2. apply sorted_app_l in Hs as Hs1.
  apply pass_sorted in E2 as (-> & F2 & F2'); [|done|].
  2: { intros x y Hx Hy Hxy [Ey%Z.eqb_eq Sy]%andb_true_iff. apply F1' in Hx as Hx1. apply Z.ltb_ge in Hx1. pose proof (Hk x ltac:(apply elem_of_app; by right)) as Kx.
       unfold key_lt, rank in *. rewrite Sy in Hxy. destruct (is_shift x); lia. }
  rewrite Forall_forall in F2, F2'. destruct (pass _ n2) as [l3 n3] eqn:E3. apply sorted_app_l in Hs1 as Hs2.
  apply pass_sorted in E3 as (-> & F3 & F3'); [|done|].
  2: { intros x y Hx Hy Hxy [[Ey%Z.eqb_eq Sy%negb_true_iff]%andb_true_iff Ly%Z.ltb_lt]%andb_true_iff.
       pose proof (F2' x Hx) as Hx2. pose proof (F1' x ltac:(apply elem_of_app; by right)) as Hx1. apply Z.ltb_ge in Hx1.
       unfold key_lt, rank in *. rewrite Sy in Hxy. rewrite !andb_true_iff, negb_true_iff, Z.eqb_eq, Z.ltb_lt.
       destruct (is_shift x); [|lia]. rewrite andb_true_r in Hx2. apply Z.eqb_neq in Hx2. lia. }
  rewrite Forall_forall in F3, F3'. rewrite !rd_zget by lia. cbn [rbind]. eexists. split; [done|]. fold (reduce_action r t). split.
  - rewrite !app_assoc in *. apply sorted_insert; [done| |].
    + apply Forall_forall. intros a Ha. rewrite !elem_of_app in Ha. unfold key_lt, reduce_action. cbn [a_symbol]. change (rank (Action _ _ _ _ _ _)) with r.
      destruct Ha as [[Ha|Ha]|Ha].
      * apply F1, Z.ltb_lt in Ha. by left.
      * apply F2, andb_true_iff in Ha as [?%Z.eqb_eq S]. right. unfold rank. rewrite S. lia.
      * apply F3 in Ha as [[?%Z.eqb_eq S%negb_true_iff]%andb_true_iff ?%Z.ltb_lt]%andb_true_iff. right. unfold rank. rewrite S. lia.
    + apply Forall_forall. intros a Ha. unfold key_lt, reduce_action. cbn [a_symbol]. change (rank (Action _ _ _ _ _ _)) with r.
      pose proof (F1' a ltac:(rewrite !elem_of_app; tauto)) as H1%Z.ltb_ge. pose proof (F2' a ltac:(rewrite !elem_of_app; tauto)) as H2.
      pose proof (F3' a Ha) as H3. pose proof (Hf a ltac:(rewrite !elem_of_app; tauto)) as H4. unfold rank in *.
      destruct (decide (a_symbol a = t)) as [Et|]; [|left; lia]. right. rewrite Et, Z.eqb_refl in *. cbn [andb] in *. destruct (is_shift a); [done|].
      cbn in H3. apply Z.ltb_ge in H3. lia.
  - intros a. rewrite !elem_of_app, elem_of_cons. tauto.
Qed.

Lemma BIT_entry R rs nr i j : 0 <= i < nr -> 0 <= j < 32 * rs -> zlen R = nr * rs ->
  exists b, BIT R (i * rs) j = Ok b /\ negb (b =? 0) = entry R rs i j.
Proof.
  intros Hi Hj Hz. assert (Hw : 0 <= j / 32 < rs) by zlia. unfold BIT, BITS_PER_INT. rewrite rd_zget by nia. cbn [rbind]. eexists. split; [done|].
  unfold entry. rewrite Z.testbit_odd. change 1 with (Z.ones 1) at 1. rewrite Z.land_ones by lia. change (2 ^ 1) with 2. rewrite Zmod_odd.
  by destruct (Z.odd _).
Qed.

(** ** The actions of a state *)

Context (cores : list core) (ss : list shifts) (rs : list reductions) (Au : lr0_automaton g ps cores ss rs).
Context (st : list (option (list Z))) (Hst : forall p row, row_of g ps cores ss p row -> rd st p = Ok (edges row)).
Context (lookaheads LAruleno LA : list Z) (Htab : lalr_tables g ps cores lookaheads LAruleno LA).

#[local] Abbreviation trans := (trans g ps cores).
#[local] Abbreviation acc := (acc cores).
#[local] Abbreviation W := (WORDSIZE (ntokens g)).

Definition shift_actions (row : list Z) : list action :=
  map (fun k => shift_action (zget acc k) k) (filter (fun k => zget acc k < start_symbol g) row).

Lemma put_shifts_ok l : Forall (fun k => known g cores k /\ 0 <= zget acc k) l -> forall actions,
  put_shifts g pr acc l actions = Ok (rev (shift_actions l) ++ actions).
Proof.
  induction 1 as [|k l [[Ek Hk] H0] Hl IH]; intros actions; cbn [put_shifts]; [done|]. rewrite Ek. cbn [rbind]. unfold ISTOKEN, shift_actions.
  destruct (Z.ltb_spec (zget acc k) (start_symbol g)) as [Hlt|Hge].
  - rewrite filter_cons_True by done. unfold ntokens in *. rewrite !rd_zget by lia. cbn [rbind map rev]. rewrite IH. by rewrite <- app_assoc.
  - rewrite filter_cons_False by lia. apply IH.
Qed.

Lemma shift_actions_rev l : rev (shift_actions (rev l)) = shift_actions l.
Proof.
  unfold shift_actions. rewrite <- map_rev. f_equal. induction l as [|k l IH]; [done|]. cbn [rev]. rewrite filter_app, rev_app_distr, IH.
  destruct (decide (zget acc k < start_symbol g)).
  - rewrite !filter_cons_True by done. done.
  - rewrite !filter_cons_False by done. done.
Qed.

Lemma get_shifts_ok p row : row_of g ps cores ss p row -> get_shifts g pr acc st p = Ok (shift_actions row).
Proof.
  intros Hrow. unfold get_shifts. rewrite (Hst _ _ Hrow). cbn [rbind]. destruct (row_symbols g ps L cores ss p row Hrow) as (_ & _ & Hk).
  destruct row as [|k row]; [done|]. cbn [edges]. rewrite put_shifts_ok.
  - by rewrite app_nil_r, shift_actions_rev.
  - apply Forall_rev. eapply Forall_impl; [exact Hk|]. by intros x [? _].
Qed.

Lemma elem_of_shift_actions p row a : row_of g ps cores ss p row ->
  a ∈ shift_actions row <-> exists t s, t < start_symbol g /\ trans p t s /\ a = shift_action t s.
Proof.
  intros Hrow. pose proof Hrow as (_ & _ & Hin & _). unfold shift_actions. rewrite list_elem_of_fmap. split.
  - intros (s & -> & [Hlt (t & Ht)%Hin]%list_elem_of_filter). pose proof (trans_zget g ps cores _ _ _ Ht) as Ez. rewrite Ez in *. by exists t, s.
  - intros (t & s & Hlt & Ht & ->). pose proof (trans_zget g ps cores _ _ _ Ht) as Ez. exists s. rewrite Ez. split; [done|].
    apply list_elem_of_filter. rewrite Ez. split; [done|]. apply Hin. by exists t.
Qed.

Lemma shift_actions_sorted p row : row_of g ps cores ss p row -> StronglySorted key_lt (shift_actions row).
Proof.
  intros Hrow. destruct (row_symbols g ps L cores ss p row Hrow) as (Hs & _ & _). unfold shift_actions. clear Hrow.
  induction row as [|k row IH]; [constructor|]. cbn [map] in Hs. apply StronglySorted_inv in Hs as [Hs Hk]. specialize (IH Hs).
  destruct (decide (zget acc k < start_symbol g)); [rewrite filter_cons_True by done|by rewrite filter_cons_False by done]. cbn [map]. constructor; [done|].
  apply Forall_forall. rewrite Forall_forall in Hk. intros a (k' & -> & [_ Hk']%list_elem_of_filter)%list_elem_of_fmap. left. cbn. apply Hk. apply list_elem_of_fmap. by exists k'.
Qed.

(** the list sorted, with more actions *)
Definition grown (l l' : list action) (P : action -> Prop) : Prop :=
  StronglySorted key_lt l' /\ Forall (fun a => 0 <= rank a) l' /\ forall a, a ∈ l' <-> a ∈ l \/ P a.

Lemma add_row_ok k r : 0 <= k < zlen LAruleno -> 0 < r < nrules g -> zlen LA = zlen LAruleno * W ->
  forall n l, Z.of_nat n <= ntokens g -> StronglySorted key_lt l -> Forall (fun a => 0 <= rank a) l ->
  (forall a, a ∈ l -> rank a = r -> Z.of_nat n <= a_symbol a) ->
  exists l', add_row n g LA (k * W) r l = Ok l' /\ grown l l' (fun a => exists t, 0 <= t < Z.of_nat n /\ entry LA W k t = true /\ a = reduce_action r t).
Proof.
  intros Hk Hr Hz. induction n as [|n IH]; intros l Hn Hs Hf Hfr; cbn [add_row].
  { exists l. split; [done|]. split_and!; [done|done|]. intros a. split; [by left|]. intros [?|(t & ? & _)]; [done|lia]. }
  destruct (BIT_entry LA W (zlen LAruleno) k (Z.of_nat n)) as (b & -> & Ee); [lia|split; [lia|apply (ntokens_words g); lia]|done|]. cbn [rbind]. rewrite Ee.
  destruct (entry LA W k (Z.of_nat n)) eqn:Eb.
  - destruct (add_reduce_ok l r (Z.of_nat n) Hs Hf Hr) as (l1 & -> & Hs1 & Hin1). { intros a Ha [Ea Era]. specialize (Hfr a Ha Era). lia. }
    cbn [rbind]. destruct (IH l1) as (l' & -> & Hs' & Hf' & Hin'); [lia|done| | |].
    + apply Forall_forall. intros a [Ha| ->]%Hin1; [rewrite Forall_forall in Hf; by apply Hf|]. change (rank (reduce_action _ _)) with r. lia.
    + intros a [Ha| ->]%Hin1 Era; [specialize (Hfr a Ha Era); lia|cbn; lia].
    + exists l'. split; [done|]. split_and!; [done|done|]. intros a. rewrite Hin', Hin1. split.
      * intros [[?| ->]|(t & ? & ? & ->)]; [by left|right; exists (Z.of_nat n); split_and!; [lia|lia|done|done]|right; exists t; split_and!; [lia|lia|done|done]].
      * intros [?|(t & Ht & ? & ->)]; [by left; left|]. destruct (decide (t = Z.of_nat n)) as [->|]; [by left; right|]. right. exists t. split_and!; [lia|lia|done|done].
  - cbn [rbind]. destruct (IH l) as (l' & -> & Hs' & Hf' & Hin'); [lia|done|done| |].
    + intros a Ha Era. specialize (Hfr a Ha Era). lia.
    + exists l'. split; [done|]. split_and!; [done|done|]. intros a. rewrite Hin'. split.
      * intros [?|(t & ? & ? & ->)]; [by left|right; exists t; split_and!; [lia|lia|done|done]].
      * intros [?|(t & Ht & ? & ->)]; [by left|]. destruct (decide (t = Z.of_nat n)) as [->|]; [congruence|]. right. exists t. split_and!; [lia|lia|done|done].
Qed.

(** the rule [r] is complete in the state [q] *)
Definition complete (q r : Z) : Prop := exists X K p, rd (kernels cores) q = Ok (X, K) /\ rule ps r p /\ in_closure g ps K (first_item ps r + zlen p.2).

(** the actions of the state [q], before the conflicts are removed *)
Definition candidate (q : Z) (a : action) : Prop :=
  (exists t s, t < start_symbol g /\ trans q t s /\ a = shift_action t s) \/
  exists r t, complete q r /\ 0 <= t < ntokens g /\ lookahead g ps cores q r t /\ a = reduce_action r t.

Lemma add_reductions_ok q l : state cores q -> StronglySorted key_lt l -> Forall (fun a => is_shift a = true) l ->
  exists l', add_reductions g lookaheads LAruleno LA q l = Ok l' /\
    grown l l' (fun a => exists r t, complete q r /\ 0 <= t < ntokens g /\ lookahead g ps cores q r t /\ a = reduce_action r t).
Proof.
  intros Hq Hs Hsh. destruct Htab as [Hz Hrows]. destruct (rd_in_range (kernels cores) q) as [[X K] EK]; [rewrite zlen_kernels; exact Hq|].
  destruct (Hrows q X K EK) as (a & b & Ea & Eb & Hab & Hb & Hc & Hi & Hl). unfold add_reductions. rewrite Ea, Eb. cbn [rbind].
  assert (Hcomp : forall r, complete q r <-> exists k, a <= k < b /\ rd LAruleno k = Ok r).
  { intros r. rewrite <- Hc. split.
    - intros (X' & K' & p & EK' & Hp & Hcl). rewrite EK in EK'. injection EK' as <- <-. by exists p.
    - intros (p & Hp & Hcl). by exists X, K, p. }
  assert (Hrank : Forall (fun a => 0 <= rank a) l) by (eapply Forall_impl; [exact Hsh|]; intros x E; unfold rank; by rewrite E).
  destruct (for_loop_inv (fun i l' => grown l l' (fun x => exists k r t, a <= k < i /\ rd LAruleno k = Ok r /\ 0 <= t < ntokens g /\
      entry LA W k t = true /\ x = reduce_action r t)) (Z.to_nat (b - a)) a
    (fun i actions => let* ruleno := rd LAruleno i in add_row (Z.to_nat (ntokens g)) g LA (i * W) ruleno actions) l) as (l' & E & Hs' & Hr' & Hin').
  - split_and!; [done|done|]. intros x. split; [by left|]. intros [?|(k & r & t & ? & _)]; [done|lia].
  - intros i l1 Hi1 (Hs1 & Hr1 & Hin1). destruct (rd_in_range LAruleno i) as [r Er]; [lia|]. rewrite Er. cbn [rbind].
    destruct (proj2 (Hc r)) as (p & Hp & _); [exists i; split; [lia|done]|]. pose proof (rule_bounds g ps L r p Hp) as Hb2.
    pose proof (lo_start _ _ L) as Hst0. destruct (add_row_ok i r ltac:(lia) ltac:(lia) Hz (Z.to_nat (ntokens g)) l1) as (l2 & -> & Hs2 & Hr2 & Hin2).
    + unfold ntokens. lia.
    + done.
    + done.
    + intros x [Hx|(k & r' & t & Hk & Ek & _ & _ & ->)]%Hin1 Exr.
      * rewrite Forall_forall in Hsh. unfold rank in Exr. rewrite (Hsh x Hx) in Exr. lia.
      * change (rank (reduce_action _ _)) with r' in Exr. specialize (Hi k i r' r ltac:(lia) ltac:(lia) Ek Er). lia.
    + exists l2. split; [done|]. split_and!; [done|done|]. unfold ntokens in *. rewrite Z2Nat.id in Hin2 by lia. intros x. rewrite Hin2, Hin1. split.
      * intros [[?|(k & r' & t & ? & H)]|(t & ? & ? & ->)]; [by left|right; exists k, r', t; split; [lia|done]|right; exists i, r, t].
        split; [lia|]. split; [done|]. split; [done|]. by split.
      * intros [?|(k & r' & t & Hk & Ek & H)]; [by left; left|]. destruct (decide (k = i)) as [->|]; [|left; right; exists k, r', t; split; [lia|done]].
        rewrite Er in Ek. injection Ek as <-. right. by exists t.
  - rewrite E. exists l'. split; [done|]. split_and!; [done|done|]. intros x. rewrite Hin'. replace (a + Z.of_nat (Z.to_nat (b - a))) with b by lia. split.
    + intros [?|(k & r & t & Hk & Ek & Ht & Hen & ->)]; [by left|]. right. exists r, t. split; [apply Hcomp; by exists k|]. split; [done|].
      split; [|done]. by apply (Hl k r t).
    + intros [?|(r & t & (k & Hk & Ek)%Hcomp & Ht & Hla & ->)]; [by left|]. right. exists k, r, t. split_and!; [lia|lia|done|lia|lia| |done]. by apply (Hl k r t).
Qed.

Lemma parse_actions_ok q : state cores q -> exists row, parse_actions g pr acc st lookaheads LAruleno LA q = Ok row /\
  StronglySorted key_lt row /\ Forall (fun a => 0 <= rank a) row /\ forall a, a ∈ row <-> candidate q a.
Proof.
  intros Hq. destruct (row_exists g ps cores ss rs Au q Hq) as [row Hrow]. unfold parse_actions. rewrite (get_shifts_ok q row Hrow). cbn [rbind].
  destruct (add_reductions_ok q (shift_actions row) Hq (shift_actions_sorted q row Hrow)) as (l & -> & Hs & Hr & Hin).
  - apply Forall_forall. by intros a (k & -> & _)%list_elem_of_fmap.
  - exists l. split; [done|]. split; [done|]. split; [done|]. intros a. by rewrite Hin, (elem_of_shift_actions q row a Hrow).
Qed.

End Actions.

(** ** The action that is left for a symbol *)

(** the reduction [p] has the precedence over the shift [f], or the same one and it is on the left *)
Definition beats (f p : action) : bool :=
  (0 <? a_prec f) && (0 <? a_prec p) && ((a_prec f <? a_prec p) || ((a_prec f =? a_prec p) && (a_assoc f =? LEFT))).

(** neither is left: the same precedence, without associativity *)
Definition ties (f p : action) : bool :=
  (0 <? a_prec f) && (0 <? a_prec p) && (a_prec f =? a_prec p) && negb (a_assoc f =? LEFT) && negb (a_assoc f =? RIGHT).

(** of the actions on a symbol, the one that is left; [at_final] for the end of the input in
    the final state *)
Definition chosen (at_final : bool) (actions : list action) : option action :=
  match actions with
  | [] => None
  | f :: rs =>
      if at_final || negb (is_shift f) then Some f
      else match List.find (beats f) rs with
           | Some p => Some p
           | None => if existsb (ties f) rs then None else Some f
           end
  end.

(** the preferred action, once [f] and [rs] are processed *)
Definition stand (at_final : bool) (f : action) (rs : list action) : action :=
  if at_final || negb (is_shift f) then f
  else match List.find (beats f) rs with
       | Some p => p
       | None => if existsb (ties f) rs then suppress 2 f else f
       end.

Definition on_symbol (t : Z) (l : list action) : list action := filter (fun a => a_symbol a = t) l.

Definition left_on (t : Z) (l : list action) : list action := filter (fun a => suppressed a = 0 /\ a_symbol a = t) l.

Definition counted_in (l : list action) : Z := zlen (filter (fun a => suppressed a = 1) l).

Lemma find_snoc {A} (f : A -> bool) l x : List.find f (l ++ [x]) = match List.find f l with Some y => Some y | None => if f x then Some x else None end.
Proof. induction l as [|y l IH]; cbn; [done|]. by destruct (f y). Qed.

Lemma stand_keep fin f rs p : fin = true \/ is_shift (stand fin f rs) = false -> stand fin f (rs ++ [p]) = stand fin f rs.
Proof.
  unfold stand. intros H. destruct fin; [done|]. destruct (is_shift f) eqn:Sf; cbn [negb orb] in *; [|done]. rewrite find_snoc.
  destruct (List.find (beats f) rs); [done|]. destruct H as [|H]; [done|]. destruct (existsb (ties f) rs); unfold is_shift in *; cbn in H; congruence.
Qed.

Lemma beats_suppress k f p : beats (suppress k f) p = beats f p.
Proof. done. Qed.

Lemma ties_suppress k f p : ties (suppress k f) p = ties f p.
Proof. done. Qed.

Lemma stand_shift fin f rs p : Forall (fun a => is_shift a = false) rs -> fin = false -> is_shift (stand fin f rs) = true ->
  stand fin f (rs ++ [p]) = if beats (stand fin f rs) p then p else if ties (stand fin f rs) p then suppress 2 (stand fin f rs) else stand fin f rs.
Proof.
  unfold stand. intros Hrs -> H. destruct (is_shift f) eqn:Sf; cbn [negb orb] in *; [|congruence]. rewrite find_snoc, existsb_app. cbn [existsb]. rewrite orb_false_r.
  destruct (List.find (beats f) rs) as [q|] eqn:E.
  - apply List.find_some in E as [E _]. apply list_elem_of_In in E. rewrite Forall_forall in Hrs. rewrite (Hrs q E) in H. done.
  - destruct (existsb (ties f) rs); cbn [orb]; rewrite ?beats_suppress, ?ties_suppress; destruct (beats f p); try done. by destruct (ties f p).
Qed.

Lemma chosen_stand fin f rs : Forall (fun a => suppressed a = 0) (f :: rs) ->
  option_list (chosen fin (f :: rs)) = if decide (suppressed (stand fin f rs) = 0) then [stand fin f rs] else [].
Proof.
  intros [Hf Hrs]%Forall_cons. unfold chosen, stand. destruct (fin || negb (is_shift f)); [by rewrite decide_True|].
  destruct (List.find (beats f) rs) as [p|] eqn:E.
  - apply List.find_some in E as [E _]. apply list_elem_of_In in E. rewrite Forall_forall in Hrs. by rewrite decide_True by (by apply Hrs).
  - destruct (existsb (ties f) rs); [by rewrite decide_False|by rewrite decide_True].
Qed.

Lemma stand_in fin f rs : exists a k, a ∈ f :: rs /\ (stand fin f rs = a \/ stand fin f rs = suppress k a).
Proof.
  unfold stand. destruct (fin || negb (is_shift f)); [exists f, 0; split; [by left|by left]|].
  destruct (List.find (beats f) rs) as [p|] eqn:E.
  - apply List.find_some in E as [E _]. apply list_elem_of_In in E. exists p, 0. split; [by right|by left].
  - exists f, 2. split; [by left|]. destruct (existsb (ties f) rs); [by right|by left].
Qed.

Lemma left_on_app t l1 l2 : left_on t (l1 ++ l2) = left_on t l1 ++ left_on t l2.
Proof. apply filter_app. Qed.

Lemma on_symbol_app t l1 l2 : on_symbol t (l1 ++ l2) = on_symbol t l1 ++ on_symbol t l2.
Proof. apply filter_app. Qed.

Lemma counted_in_app l1 l2 : counted_in (l1 ++ l2) = counted_in l1 + counted_in l2.
Proof. unfold counted_in. by rewrite filter_app, zlen_app. Qed.

Lemma counted_in_cons a l : counted_in (a :: l) = (if decide (suppressed a = 1) then 1 else 0) + counted_in l.
Proof.
  unfold counted_in. destruct (decide (suppressed a = 1)); [rewrite filter_cons_True by done; by rewrite zlen_cons|by rewrite filter_cons_False by done].
Qed.

Lemma left_on_suppressed t l : Forall (fun a => suppressed a <> 0) l -> left_on t l = [].
Proof. induction 1 as [|a l Ha _ IH]; [done|]. unfold left_on in *. rewrite filter_cons_False; [done|tauto]. Qed.

Lemma left_on_one t a : suppressed a = 0 -> left_on t [a] = if decide (t = a_symbol a) then [a] else [].
Proof.
  intros Ha. unfold left_on. destruct (decide (t = a_symbol a)) as [->|]; [by rewrite filter_cons_True|]. rewrite filter_cons_False; [done|]. intros [_ ?]. congruence.
Qed.

Lemma on_symbol_one t a : on_symbol t [a] = if decide (t = a_symbol a) then [a] else [].
Proof.
  unfold on_symbol. destruct (decide (t = a_symbol a)) as [->|]; [by rewrite filter_cons_True|]. rewrite filter_cons_False; [done|]. congruence.
Qed.

Lemma on_symbol_in t l a : a ∈ on_symbol t l -> a_symbol a = t /\ a ∈ l.
Proof. intros H. by apply list_elem_of_filter in H. Qed.

Lemma stand_symbol fin f rs s : Forall (fun a => suppressed a = 0 /\ a_symbol a = s) (f :: rs) ->
  a_symbol (stand fin f rs) = s /\ suppressed (stand fin f rs) <> 1.
Proof.
  intros [[Hf1 Hf2] Hrs]%Forall_cons. unfold stand. destruct (fin || negb (is_shift f)); [lia|].
  destruct (List.find (beats f) rs) as [p|] eqn:E.
  - apply List.find_some in E as [E _]. apply list_elem_of_In in E. rewrite Forall_forall in Hrs. destruct (Hrs p E). lia.
  - destruct (existsb (ties f) rs); cbn; lia.
Qed.

(** no precedence decides between the shift [f] and the reduction [p] *)
Definition unsolved (f p : action) : bool := negb ((0 <? a_prec f) && (0 <? a_prec p)).

(** the shift/reduce conflicts of the actions on a symbol: the reductions that no precedence
    compares to the shift, up to the one that has the precedence over it; at the end of the
    input of the final state, all but the first *)
Fixpoint sr_on (f : action) (rs : list action) : Z :=
  match rs with
  | [] => 0
  | p :: rs => if beats f p then 0 else (if unsolved f p then 1 else 0) + sr_on f rs
  end.

Definition sr_conflicts (at_final : bool) (actions : list action) : Z :=
  match actions with
  | [] => 0
  | f :: rs => if at_final then zlen rs else if is_shift f then sr_on f rs else 0
  end.

(** the reduce/reduce conflicts: the reductions after the first one, or after the one that has
    the precedence over the shift *)
Fixpoint rr_on (f : action) (rs : list action) : Z :=
  match rs with
  | [] => 0
  | p :: rs => if beats f p then zlen rs else rr_on f rs
  end.

Definition rr_conflicts (at_final : bool) (actions : list action) : Z :=
  match actions with
  | [] => 0
  | f :: rs => if at_final then 0 else if is_shift f then rr_on f rs else zlen rs
  end.

(** over the symbols below [n] *)
Definition over_symbols (n : Z) (count : bool -> list action -> Z) (at_final : bool) (l : list action) : Z :=
  sumZ (map (fun t => count (at_final && (t =? 0)) (on_symbol t l)) (seqZ 0 n)).

(** the actions [l] of a state, whose symbols are below [n], once the conflicts are removed:
    those that are left for each symbol, and the numbers of the conflicts that no precedence
    solves, which are the actions suppressed for want of a precedence *)
Definition resolved (n : Z) (at_final : bool) (l row : list action) (sr rr : Z) : Prop :=
  map (suppress 0) row = l /\ (forall t, left_on t row = option_list (chosen (at_final && (t =? 0)) (on_symbol t l))) /\
  sr = over_symbols n sr_conflicts at_final l /\ rr = over_symbols n rr_conflicts at_final l /\ sr + rr = counted_in row.

(** what one more reduction adds *)
Definition sr_next (at_final : bool) (f' p : action) : Z := if at_final || (is_shift f' && unsolved f' p) then 1 else 0.
Definition rr_next (at_final : bool) (f' : action) : Z := if at_final || is_shift f' then 0 else 1.

Lemma sr_on_snoc f rs p : sr_on f (rs ++ [p]) = sr_on f rs + match List.find (beats f) rs with Some _ => 0 | None => if beats f p then 0 else if unsolved f p then 1 else 0 end.
Proof.
  induction rs as [|q rs IH]; cbn [sr_on app List.find]; [destruct (beats f p); lia|]. destruct (beats f q); [lia|]. rewrite IH. lia.
Qed.

Lemma rr_on_snoc f rs p : rr_on f (rs ++ [p]) = rr_on f rs + match List.find (beats f) rs with Some _ => 1 | None => 0 end.
Proof.
  induction rs as [|q rs IH]; cbn [rr_on app List.find]; [by destruct (beats f p)|]. destruct (beats f q); [by rewrite zlen_snoc|]. by rewrite IH.
Qed.

Lemma beats_solved f p : unsolved f p = true -> beats f p = false.
Proof. unfold unsolved, beats. by intros ->%negb_true_iff. Qed.

Lemma stand_is_shift f rs : is_shift f = true -> Forall (fun a : action => is_shift a = false) rs ->
  is_shift (stand false f rs) = match List.find (beats f) rs with Some _ => false | None => true end /\ (List.find (beats f) rs = None -> forall p, unsolved (stand false f rs) p = unsolved f p).
Proof.
  intros Sf Hrs. unfold stand. rewrite Sf. cbn [orb negb]. destruct (List.find (beats f) rs) as [q|] eqn:E.
  - apply List.find_some in E as [E _]. apply list_elem_of_In in E. rewrite Forall_forall in Hrs. by rewrite (Hrs q E).
  - by destruct (existsb (ties f) rs).
Qed.

Lemma sr_conflicts_one fin p : sr_conflicts fin [p] = 0.
Proof. unfold sr_conflicts. by destruct fin, (is_shift p). Qed.

Lemma rr_conflicts_one fin p : rr_conflicts fin [p] = 0.
Proof. unfold rr_conflicts. by destruct fin, (is_shift p). Qed.

Lemma sr_conflicts_snoc fin f rs p : Forall (fun a => is_shift a = false) rs ->
  sr_conflicts fin (f :: rs ++ [p]) = sr_conflicts fin (f :: rs) + sr_next fin (stand fin f rs) p.
Proof.
  intros Hrs. unfold sr_conflicts, sr_next. destruct fin; [by rewrite zlen_snoc|]. destruct (is_shift f) eqn:Sf; cbn [orb].
  - destruct (stand_is_shift f rs Sf Hrs) as [-> Hu]. rewrite sr_on_snoc. destruct (List.find _ rs); [done|]. rewrite Hu by done. cbn [andb].
    destruct (unsolved f p) eqn:U; [by rewrite beats_solved|]. by destruct (beats f p).
  - unfold stand. by rewrite Sf, orb_true_r, Sf.
Qed.

Lemma rr_conflicts_snoc fin f rs p : Forall (fun a => is_shift a = false) rs ->
  rr_conflicts fin (f :: rs ++ [p]) = rr_conflicts fin (f :: rs) + rr_next fin (stand fin f rs).
Proof.
  intros Hrs. unfold rr_conflicts, rr_next. destruct fin; [done|]. destruct (is_shift f) eqn:Sf; cbn [orb].
  - destruct (stand_is_shift f rs Sf Hrs) as [-> _]. rewrite rr_on_snoc. by destruct (List.find _ rs).
  - unfold stand. rewrite Sf, orb_true_r, Sf. by rewrite zlen_snoc.
Qed.

Lemma sumZ_change (f f' : Z -> Z) t l : NoDup l -> t ∈ l -> (forall x, x <> t -> f' x = f x) -> sumZ (map f' l) = sumZ (map f l) + (f' t - f t).
Proof.
  intros Hnd Ht Hf. induction l as [|x l IH]; [by apply elem_of_nil in Ht|]. apply NoDup_cons in Hnd as [Hx Hnd]. cbn [map sumZ].
  destruct (decide (x = t)) as [->|Ne].
  - assert (map f' l = map f l) as ->; [|lia]. apply map_ext_in. intros y Hy%list_elem_of_In. apply Hf. by intros ->.
  - rewrite IH by (done || (apply elem_of_cons in Ht as [?|?]; congruence)). rewrite (Hf x) by done. lia.
Qed.

Lemma over_symbols_snoc n count fin l p : 0 <= a_symbol p < n ->
  over_symbols n count fin (l ++ [p]) = over_symbols n count fin l +
    (count (fin && (a_symbol p =? 0)) (on_symbol (a_symbol p) l ++ [p]) - count (fin && (a_symbol p =? 0)) (on_symbol (a_symbol p) l)).
Proof.
  intros Hp. unfold over_symbols. rewrite (sumZ_change (fun t => count (fin && (t =? 0)) (on_symbol t l)) (fun t => count (fin && (t =? 0)) (on_symbol t (l ++ [p]))) (a_symbol p)).
  - by rewrite on_symbol_app, on_symbol_one, decide_True.
  - apply NoDup_seqZ.
  - apply elem_of_seqZ. lia.
  - intros x Hx. rewrite on_symbol_app, on_symbol_one, decide_False by done. by rewrite app_nil_r.
Qed.

Lemma over_symbols_nil n count fin : (forall b, count b [] = 0) -> over_symbols n count fin [] = 0.
Proof. intros H. unfold over_symbols. cbn [on_symbol]. induction (seqZ 0 n) as [|t l IH]; cbn [map sumZ]; [done|]. unfold on_symbol. cbn. rewrite H. exact IH. Qed.

(** ** The loop on the actions of a state *)

Section Row.
Context (n : Z) (at_final : bool) (row0 : list action).

#[local] Abbreviation final_on s := (at_final && (s =? 0)).

(** after the actions [done]: [d1], the preferred action, and the suppressed ones of the same symbol *)
Definition settled (done todo : list action) (c : conflicts) : Prop := exists d1 f d2 rs,
  let f' := stand (final_on (symbol c)) f rs in
  row c = d1 ++ f' :: d2 ++ todo /\ pref c = Some (zlen d1) /\ zlen (d1 ++ f' :: d2) = zlen done /\
  on_symbol (symbol c) done = f :: rs /\ Forall (fun a => is_shift a = false) rs /\ Forall (fun a => a_symbol a <= symbol c) done /\
  map (suppress 0) (d1 ++ f' :: d2) = done /\ Forall (fun a => suppressed a <> 0) d2 /\
  (forall t, left_on t d1 = if decide (t = symbol c) then [] else option_list (chosen (final_on t) (on_symbol t done))) /\
  SRcount c + RRcount c = counted_in (d1 ++ f' :: d2).

(** the counts after the actions [done] *)
Definition tallied (done : list action) (c : conflicts) : Prop :=
  SRcount c = over_symbols n sr_conflicts at_final done /\ RRcount c = over_symbols n rr_conflicts at_final done.

(** the same symbol: the action [p] is suppressed, or the preferred one, or both *)
Definition keeps (c c' : conflicts) (j : Z) (d1 : list action) (f' : action) (d2 : list action) (p : action) (todo : list action) : Prop :=
  row c' = d1 ++ f' :: (d2 ++ [suppress j p]) ++ todo /\ pref c' = Some (zlen d1) /\ symbol c' = symbol c /\
  (j = 1 /\ SRcount c' + RRcount c' = SRcount c + RRcount c + 1 \/ j = 2 /\ SRcount c' + RRcount c' = SRcount c + RRcount c).

Definition replaces (c c' : conflicts) (d1 : list action) (f' : action) (d2 : list action) (p : action) (todo : list action) : Prop :=
  row c' = (d1 ++ suppress 2 f' :: d2) ++ p :: [] ++ todo /\ pref c' = Some (zlen (d1 ++ suppress 2 f' :: d2)) /\ symbol c' = symbol c /\
  SRcount c' + RRcount c' = SRcount c + RRcount c.

Lemma conflict_step_same c d1 f' d2 p todo : row c = d1 ++ f' :: d2 ++ p :: todo -> pref c = Some (zlen d1) -> a_symbol p = symbol c ->
  exists c', conflict_step at_final (zlen (d1 ++ f' :: d2)) c = Ok c' /\
  if final_on (symbol c) || negb (is_shift f') then keeps c c' 1 d1 f' d2 p todo
  else if beats f' p then replaces c c' d1 f' d2 p todo
  else if ties f' p then keeps c c' 2 d1 (suppress 2 f') d2 p todo
  else exists j, keeps c c' j d1 f' d2 p todo.
Proof.
  intros Er Ep Es. set (k := zlen (d1 ++ f' :: d2)). assert (Rk : rd (row c) k = Ok p).
  { rewrite Er. unfold k. replace (d1 ++ f' :: d2 ++ p :: todo) with ((d1 ++ f' :: d2) ++ p :: todo) by (by rewrite <- app_assoc). apply rd_mid. }
  assert (Ri : rd (row c) (zlen d1) = Ok f') by (rewrite Er; apply rd_mid).
  assert (Wk : forall x, wr (row c) k x = Ok (d1 ++ f' :: (d2 ++ [x]) ++ todo)).
  { intros x. rewrite Er. unfold k. replace (d1 ++ f' :: d2 ++ p :: todo) with ((d1 ++ f' :: d2) ++ p :: todo) by (by rewrite <- app_assoc).
    rewrite wr_mid. by rewrite <- !app_assoc. }
  assert (Wi : forall x, wr (row c) (zlen d1) x = Ok (d1 ++ x :: d2 ++ p :: todo)) by (intros x; rewrite Er; apply wr_mid).
  assert (Wik : forall x y, wr (d1 ++ x :: d2 ++ p :: todo) k y = Ok (d1 ++ x :: (d2 ++ [y]) ++ todo)).
  { intros x y. replace (d1 ++ x :: d2 ++ p :: todo) with ((d1 ++ x :: d2) ++ p :: todo) by (by rewrite <- app_assoc).
    replace k with (zlen (d1 ++ x :: d2)) by (unfold k; by rewrite !zlen_app, !zlen_cons). rewrite wr_mid. by rewrite <- !app_assoc. }
  unfold conflict_step. rewrite Rk. cbn [rbind]. rewrite Es, Z.eqb_refl. cbn [negb]. destruct (final_on (symbol c)); cbn [orb negb].
  { rewrite Wk. cbn [rbind]. eexists. split; [done|]. split_and!; [done|done|done|left; cbn; lia]. }
  rewrite Ep. cbn [rbind of_option]. rewrite Ri. cbn [rbind]. destruct (is_shift f'); cbn [negb].
  2: { rewrite Wk. cbn [rbind]. eexists. split; [done|]. split_and!; [done|done|done|left; cbn; lia]. }
  unfold beats, ties. destruct ((0 <? a_prec f') && (0 <? a_prec p)); cbn [andb].
  2: { rewrite Wk. cbn [rbind]. eexists. split; [done|]. exists 1. split_and!; [done|done|done|left; cbn; lia]. }
  assert (Rep : replaces c (Conflicts (d1 ++ suppress 2 f' :: d2 ++ p :: todo) (Some k) (symbol c) (SRcount c) (RRcount c)) d1 f' d2 p todo).
  { split_and!; [by rewrite <- app_assoc|cbn; unfold k; by rewrite !zlen_app, !zlen_cons|done|done]. }
  destruct (Z.ltb_spec (a_prec f') (a_prec p)) as [Lt|Ge]; cbn [orb andb].
  { rewrite Wi. cbn [rbind]. eexists. split; [done|]. exact Rep. }
  destruct (Z.ltb_spec (a_prec p) (a_prec f')) as [Gt|Le].
  { destruct (Z.eqb_spec (a_prec f') (a_prec p)); [lia|]. cbn [orb andb]. rewrite Wk. cbn [rbind]. eexists. split; [done|].
    exists 2. split_and!; [done|done|done|right; cbn; lia]. }
  destruct (Z.eqb_spec (a_prec f') (a_prec p)); [|lia]. cbn [andb orb]. destruct (a_assoc f' =? LEFT); cbn [negb andb].
  { rewrite Wi. cbn [rbind]. eexists. split; [done|]. exact Rep. }
  destruct (a_assoc f' =? RIGHT); cbn [negb].
  - rewrite Wk. cbn [rbind]. eexists. split; [done|]. exists 2. split_and!; [done|done|done|right; cbn; lia].
  - rewrite Wi. cbn [rbind]. rewrite Wik. cbn [rbind]. eexists. split; [done|]. split_and!; [done|done|done|right; cbn; lia].
Qed.

Lemma keeps_settled c c' j d1 f d2 rs f1 done p todo : let f' := stand (final_on (symbol c)) f rs in
  keeps c c' j d1 f1 d2 p todo -> f1 = stand (final_on (symbol c)) f (rs ++ [p]) -> (f1 = f' \/ f1 = suppress 2 f') ->
  a_symbol p = symbol c -> suppressed p = 0 -> is_shift p = false -> suppressed f' <> 1 ->
  zlen (d1 ++ f' :: d2) = zlen done -> on_symbol (symbol c) done = f :: rs -> Forall (fun a => is_shift a = false) rs ->
  Forall (fun a => a_symbol a <= symbol c) done -> map (suppress 0) (d1 ++ f' :: d2) = done -> Forall (fun a => suppressed a <> 0) d2 ->
  (forall t, left_on t d1 = if decide (t = symbol c) then [] else option_list (chosen (final_on t) (on_symbol t done))) ->
  SRcount c + RRcount c = counted_in (d1 ++ f' :: d2) -> settled (done ++ [p]) todo c'.
Proof.
  intros f' (Er & Ep & Es & Ej) Ef Hf' Hp Hp0 Hps Hf1 Hz Hon Hrs Hle Hmap Hd2 Hl Hc. exists d1, f, (d2 ++ [suppress j p]), (rs ++ [p]).
  rewrite Es, <- Ef. split; [by rewrite Er, <- app_assoc|]. split; [done|]. split; [rewrite app_comm_cons, app_assoc, !zlen_snoc, <- Hz, !zlen_app, !zlen_cons; lia|].
  split; [by rewrite on_symbol_app, Hon, on_symbol_one, decide_True|]. split; [apply Forall_app; split; [done|by constructor]|].
  split; [apply Forall_app; split; [done|]; constructor; [lia|constructor]|]. split.
  { rewrite <- Hmap, !map_app. cbn [map]. rewrite map_app, <- app_assoc. cbn [map app].
    assert (suppress 0 f1 = suppress 0 f') as -> by (by destruct Hf' as [->| ->]).
    assert (suppress 0 (suppress j p) = p) as -> by (destruct p; cbn in *; by subst). done. }
  split; [apply Forall_app; split; [done|]; constructor; [cbn; lia|constructor]|]. split.
  - intros t. rewrite Hl, on_symbol_app, on_symbol_one. destruct (decide (t = symbol c)); [done|]. rewrite decide_False by congruence. by rewrite app_nil_r.
  - rewrite counted_in_app, counted_in_cons, counted_in_app, counted_in_cons in *. cbn [suppressed suppress] in *. change (counted_in []) with 0.
    assert (E1 : (if decide (suppressed f1 = 1) then 1 else 0) = 0).
    { destruct Hf' as [->| ->]; [by rewrite decide_False|]. by rewrite decide_False. }
    rewrite E1. rewrite (decide_False (P := suppressed f' = 1)) in Hc by done. destruct Ej as [[-> Ej]|[-> Ej]]; rewrite Ej, Hc.
    + rewrite (decide_True (P := 1 = 1)) by done. lia.
    + rewrite (decide_False (P := 2 = 1)) by done. lia.
Qed.

(** each branch of the code counts what [sr_next] and [rr_next] say *)
Lemma conflict_step_counts c c' k d1 f' d2 p todo : row c = d1 ++ f' :: d2 ++ p :: todo -> pref c = Some (zlen d1) -> a_symbol p = symbol c ->
  rd (row c) k = Ok p -> conflict_step at_final k c = Ok c' ->
  SRcount c' = SRcount c + sr_next (final_on (symbol c)) f' p /\ RRcount c' = RRcount c + rr_next (final_on (symbol c)) f'.
Proof.
  intros Er Ep Es Rk. unfold conflict_step. rewrite Rk. cbn [rbind]. rewrite Es, Z.eqb_refl, Ep, Er. cbn [negb of_option rbind]. rewrite rd_mid. cbn [rbind].
  unfold sr_next, rr_next, unsolved. destruct (final_on (symbol c)), (is_shift f'), ((0 <? a_prec f') && (0 <? a_prec p)); cbn [orb andb negb]; intros E;
    repeat match goal with
    | E : (if ?b then _ else _) = Ok _ |- _ => destruct b
    | E : rbind ?r _ = Ok _ |- _ => destruct r; cbn [rbind] in E; [|discriminate E..]
    end; injection E as <-; cbn; lia.
Qed.

Context (Hs : StronglySorted key_lt row0) (Hk : Forall (fun a => suppressed a = 0 /\ 0 <= rank a /\ 0 <= a_symbol a) row0).
Context (Hn : Forall (fun a => a_symbol a < n) row0).

(** after the first action of a symbol, the others are reductions *)
Lemma same_symbol done p todo f : row0 = done ++ p :: todo -> f ∈ done -> a_symbol f = a_symbol p -> is_shift p = false.
Proof.
  intros E Hf Es. rewrite Forall_forall in Hk. destruct (Hk f) as (_ & Hr & _); [rewrite E; apply elem_of_app; by left|].
  rewrite E in Hs. apply sorting.StronglySorted_app in Hs as (H & _ & _). specialize (H f p Hf ltac:(by left)).
  unfold key_lt, rank in *. destruct (is_shift p); [destruct (is_shift f); lia|done].
Qed.

Lemma symbols_le done p todo f : row0 = done ++ p :: todo -> f ∈ done -> a_symbol f <= a_symbol p.
Proof.
  intros E Hf. rewrite E in Hs. apply sorting.StronglySorted_app in Hs as (H & _ & _). specialize (H f p Hf ltac:(by left)). unfold key_lt in H. lia.
Qed.

Lemma no_later s t done : Forall (fun a => a_symbol a <= s) done -> s < t -> on_symbol t done = [].
Proof.
  intros Hle Hlt. destruct (on_symbol t done) as [|a l] eqn:Ea; [done|]. assert (Ha : a ∈ on_symbol t done) by (rewrite Ea; by left).
  apply on_symbol_in in Ha as [Es Ha]. rewrite Forall_forall in Hle. specialize (Hle a Ha). cbn in Hle. lia.
Qed.

Lemma group_ok done p todo f rs c : row0 = done ++ p :: todo -> on_symbol (symbol c) done = f :: rs ->
  Forall (fun a => suppressed a = 0 /\ a_symbol a = symbol c) (f :: rs).
Proof.
  intros E Hon. apply Forall_forall. intros a Ha. rewrite <- Hon in Ha. apply on_symbol_in in Ha as [Ea Ha]. rewrite Forall_forall in Hk.
  destruct (Hk a) as (? & _); [rewrite E; apply elem_of_app; by left|done].
Qed.

Lemma settled_new done p todo c : row0 = done ++ p :: todo -> settled done (p :: todo) c -> a_symbol p <> symbol c ->
  exists c', conflict_step at_final (zlen done) c = Ok c' /\ settled (done ++ [p]) todo c'.
Proof.
  intros E (d1 & f & d2 & rs & Er & Ep & Hz & Hon & Hrs & Hle & Hmap & Hd2 & Hl & Hc) Ne. set (f' := stand _ f rs) in *.
  assert (Hp : suppressed p = 0) by (rewrite Forall_forall in Hk; apply Hk; rewrite E; apply elem_of_app; right; by left).
  assert (Hfd : f ∈ done) by (apply (on_symbol_in (symbol c)); rewrite Hon; by left). assert (Hfs : a_symbol f = symbol c) by (apply (on_symbol_in (symbol c) done); rewrite Hon; by left).
  pose proof (symbols_le done p todo f E Hfd) as Hlt. pose proof (group_ok done p todo f rs c E Hon) as Hall.
  assert (Hno : on_symbol (a_symbol p) done = []) by (apply (no_later (symbol c)); [done|lia]).
  destruct (stand_symbol (final_on (symbol c)) f rs _ Hall) as [Hfs' Hf1]. fold f' in Hfs', Hf1.
  unfold conflict_step. rewrite <- Hz. replace (row c) with ((d1 ++ f' :: d2) ++ p :: todo) by (by rewrite Er, <- app_assoc). rewrite rd_mid. cbn [rbind].
  destruct (Z.eqb_spec (a_symbol p) (symbol c)); [done|]. cbn [negb]. eexists. split; [done|]. exists (d1 ++ f' :: d2), p, [], [].
  assert (Hst : forall b, stand b p [] = p) by (intros b; unfold stand; cbn; by destruct (b || negb (is_shift p))).
  cbn [symbol row pref SRcount RRcount]. rewrite Hst. split; [done|]. split; [done|]. split; [rewrite zlen_snoc, zlen_snoc; lia|].
  split; [|split; [constructor|]]; [|split; [|split; [|split; [constructor|split]]]].
  - rewrite on_symbol_app, on_symbol_one, decide_True by done. by rewrite Hno.
  - apply Forall_app. split; [eapply Forall_impl; [exact Hle|]; cbn; lia|]. by constructor.
  - rewrite map_app, Hmap. cbn [map]. do 2 f_equal. destruct p. cbn in *. by subst.
  - intros t. rewrite left_on_app, Hl, on_symbol_app, on_symbol_one. change (f' :: d2) with ([f'] ++ d2). rewrite left_on_app, (left_on_suppressed t d2 Hd2), app_nil_r.
    destruct (decide (t = a_symbol p)) as [->|Nt].
    + rewrite decide_False, Hno by done. unfold left_on. rewrite filter_cons_False; [done|]. intros [_ ?]. congruence.
    + rewrite app_nil_r. destruct (decide (t = symbol c)) as [->|].
      * rewrite Hon, chosen_stand by (eapply Forall_impl; [exact Hall|]; by intros ? [? _]). fold f'. cbn [app]. unfold left_on.
        destruct (decide (suppressed f' = 0)); [by rewrite filter_cons_True|rewrite filter_cons_False; [done|tauto]].
      * unfold left_on at 1. rewrite filter_cons_False by (intros [_ ?]; congruence). by rewrite app_nil_r.
  - rewrite Hc, (counted_in_app (_ ++ _)), counted_in_cons, (decide_False (P := suppressed p = 1)) by lia. change (counted_in []) with 0. lia.
Qed.

Lemma settled_same done p todo c : row0 = done ++ p :: todo -> settled done (p :: todo) c -> a_symbol p = symbol c ->
  exists c', conflict_step at_final (zlen done) c = Ok c' /\ settled (done ++ [p]) todo c'.
Proof.
  intros E (d1 & f & d2 & rs & Er & Ep & Hz & Hon & Hrs & Hle & Hmap & Hd2 & Hl & Hc) Es. set (f' := stand _ f rs) in *.
  assert (Hp : suppressed p = 0) by (rewrite Forall_forall in Hk; apply Hk; rewrite E; apply elem_of_app; right; by left).
  assert (Hfd : f ∈ done) by (apply (on_symbol_in (symbol c)); rewrite Hon; by left). assert (Hfs : a_symbol f = symbol c) by (apply (on_symbol_in (symbol c) done); rewrite Hon; by left).
  assert (Hps : is_shift p = false) by (apply (same_symbol done p todo f); [done|done|congruence]).
  pose proof (group_ok done p todo f rs c E Hon) as Hall. destruct (stand_symbol (final_on (symbol c)) f rs _ Hall) as [Hfs' Hf1]. fold f' in Hfs', Hf1.
  destruct (conflict_step_same c d1 f' d2 p todo Er Ep Es) as (c' & E' & H'). rewrite <- Hz. exists c'. split; [done|].
  assert (Keep : forall j f1, keeps c c' j d1 f1 d2 p todo -> f1 = stand (final_on (symbol c)) f (rs ++ [p]) -> f1 = f' \/ f1 = suppress 2 f' -> settled (done ++ [p]) todo c').
  { intros j f1 K1 K2 K3. by apply (keeps_settled c c' j d1 f d2 rs f1 done p todo). }
  destruct (final_on (symbol c) || negb (is_shift f')) eqn:B.
  { apply (Keep 1 f'); [done| |by left]. symmetry. apply stand_keep. apply orb_true_iff in B as [B|B%negb_true_iff]; [by left|by right]. }
  apply orb_false_iff in B as [B1 B2%negb_false_iff]. pose proof (stand_shift (final_on (symbol c)) f rs p Hrs B1 B2) as Hst. fold f' in Hst.
  destruct (beats f' p).
  - destruct H' as (Er' & Ep' & Es' & Ec'). exists (d1 ++ suppress 2 f' :: d2), f, [], (rs ++ [p]). rewrite Es', Hst. split; [done|]. split; [done|].
    split; [rewrite !zlen_snoc, <- Hz, !zlen_app, !zlen_cons; lia|]. split; [by rewrite on_symbol_app, Hon, on_symbol_one, decide_True|].
    split; [apply Forall_app; split; [done|by constructor]|]. split; [apply Forall_app; split; [done|]; constructor; [lia|constructor]|]. split.
    { rewrite map_app, <- Hmap, !map_app. cbn [map]. assert (suppress 0 p = p) as -> by (destruct p; cbn in *; by subst). done. }
    split; [constructor|]. split.
    + intros t. change (suppress 2 f' :: d2) with ([suppress 2 f'] ++ d2). rewrite !left_on_app, (left_on_suppressed t d2 Hd2), Hl.
      rewrite (left_on_suppressed t [suppress 2 f']), on_symbol_app, on_symbol_one by (repeat constructor; done).
      destruct (decide (t = symbol c)); [done|]. rewrite decide_False by congruence. by rewrite !app_nil_r.
    + rewrite Ec', Hc, !counted_in_app, !counted_in_cons, (decide_False (P := suppressed p = 1)), (decide_False (P := suppressed f' = 1)) by lia.
      cbn [suppressed suppress]. rewrite (decide_False (P := 2 = 1)) by done. change (counted_in []) with 0. lia.
  - destruct (ties f' p); [apply (Keep 2 (suppress 2 f')); [done|done|by right]|]. destruct H' as [j H']. apply (Keep j f'); [done|done|by left].
Qed.

Lemma settled_first p todo : row0 = p :: todo -> exists c', conflict_step at_final 0 (Conflicts row0 None (-1) 0 0) = Ok c' /\ settled [p] todo c'.
Proof.
  intros E. assert (Hp : suppressed p = 0 /\ 0 <= a_symbol p).
  { rewrite Forall_forall in Hk. destruct (Hk p) as (? & _ & ?); [rewrite E; by left|done]. }
  unfold conflict_step. cbn [row symbol pref SRcount RRcount]. rewrite E. change (rd (p :: todo) 0) with (Ok p). cbn [rbind].
  destruct (Z.eqb_spec (a_symbol p) (-1)); [lia|]. cbn [negb]. eexists. split; [done|]. exists [], p, [], [].
  assert (Hst : forall b, stand b p [] = p) by (intros b; unfold stand; cbn; by destruct (b || negb (is_shift p))).
  cbn [symbol row pref SRcount RRcount]. rewrite Hst. split_and!; [done|done|done|by rewrite on_symbol_one, decide_True|constructor|by repeat constructor| |constructor| |].
  - cbn. f_equal. destruct p. cbn in *. by destruct Hp as [-> _].
  - intros t. rewrite on_symbol_one. by destruct (decide (t = a_symbol p)).
  - cbn [app]. rewrite counted_in_cons, (decide_False (P := suppressed p = 1)) by lia. done.
Qed.

Lemma step_tallied done p todo c c' : row0 = done ++ p :: todo -> settled done (p :: todo) c -> tallied done c ->
  conflict_step at_final (zlen done) c = Ok c' -> tallied (done ++ [p]) c'.
Proof.
  intros E (d1 & f & d2 & rs & Er & Ep & Hz & Hon & Hrs & Hle & _) [T1 T2] E'. set (f' := stand _ f rs) in *.
  assert (Hp : 0 <= a_symbol p < n).
  { rewrite Forall_forall in Hk, Hn. assert (Hin : p ∈ row0) by (rewrite E; apply elem_of_app; right; by left). destruct (Hk p Hin) as (_ & _ & ?). by specialize (Hn p Hin). }
  assert (Rk : rd (row c) (zlen done) = Ok p) by (rewrite Er, <- Hz; replace (d1 ++ f' :: d2 ++ p :: todo) with ((d1 ++ f' :: d2) ++ p :: todo) by (by rewrite <- app_assoc); apply rd_mid).
  unfold tallied. rewrite !over_symbols_snoc by done. destruct (decide (a_symbol p = symbol c)) as [Es|Ne].
  - destruct (conflict_step_counts c c' _ d1 f' d2 p todo Er Ep Es Rk E') as [-> ->]. rewrite Es, Hon. cbn [app].
    rewrite sr_conflicts_snoc, rr_conflicts_snoc by done. fold f'. lia.
  - assert (Hfd : f ∈ done) by (apply (on_symbol_in (symbol c)); rewrite Hon; by left). assert (Hfs : a_symbol f = symbol c) by (apply (on_symbol_in (symbol c) done); rewrite Hon; by left).
    pose proof (symbols_le done p todo f E Hfd). rewrite (no_later (symbol c) (a_symbol p) done Hle) by lia.
    unfold conflict_step in E'. rewrite Rk in E'. cbn [rbind] in E'. destruct (Z.eqb_spec (a_symbol p) (symbol c)); [done|]. injection E' as <-.
    cbn [SRcount RRcount app]. rewrite sr_conflicts_one, rr_conflicts_one. cbn. lia.
Qed.

Lemma settled_resolved c : settled row0 [] c -> tallied row0 c -> resolved n at_final row0 (row c) (SRcount c) (RRcount c).
Proof.
  intros (d1 & f & d2 & rs & Er & _ & _ & Hon & _ & _ & Hmap & Hd2 & Hl & Hc) [T1 T2]. set (f' := stand _ f rs) in *. rewrite app_nil_r in Er. rewrite <- Er in *.
  split; [done|]. split; [|done]. intros t. rewrite Er. change (f' :: d2) with ([f'] ++ d2). rewrite !left_on_app, (left_on_suppressed t d2 Hd2), app_nil_r, Hl.
  assert (Hall : Forall (fun a => suppressed a = 0 /\ a_symbol a = symbol c) (f :: rs)).
  { apply Forall_forall. intros a Ha. rewrite <- Hon in Ha. apply on_symbol_in in Ha as [Ea Ha]. rewrite Forall_forall in Hk. by destruct (Hk a Ha) as (? & _). }
  destruct (stand_symbol (final_on (symbol c)) f rs _ Hall) as [Hfs' _]. fold f' in Hfs'. destruct (decide (t = symbol c)) as [->|Nt].
  - rewrite Hon, chosen_stand by (eapply Forall_impl; [exact Hall|]; by intros ? [? _]). fold f'. cbn [app]. unfold left_on.
    destruct (decide (suppressed f' = 0)); [by rewrite filter_cons_True|rewrite filter_cons_False; [done|tauto]].
  - unfold left_on. rewrite filter_cons_False by (intros [_ ?]; congruence). by rewrite app_nil_r.
Qed.

Lemma conflict_loop_ok todo : forall done c, done <> [] -> row0 = done ++ todo -> settled done todo c -> tallied done c ->
  exists c', for_loop (length todo) (zlen done) (conflict_step at_final) c = Ok c' /\ resolved n at_final row0 (row c') (SRcount c') (RRcount c').
Proof.
  induction todo as [|p todo IH]; intros done c Hne E Hc Ht; cbn [for_loop length].
  - exists c. split; [done|]. rewrite app_nil_r in E. rewrite <- E in *. by apply settled_resolved.
  - assert (exists c', conflict_step at_final (zlen done) c = Ok c' /\ settled (done ++ [p]) todo c') as (c' & E' & Hc').
    { destruct (decide (a_symbol p = symbol c)); [by apply settled_same|by apply settled_new]. }
    rewrite E'. cbn [rbind]. rewrite <- (zlen_snoc done p). apply IH; [by destruct done|by rewrite <- app_assoc|done|by apply (step_tallied done p todo c)].
Qed.

Lemma conflict_row_ok : exists c, for_loop (length row0) 0 (conflict_step at_final) (Conflicts row0 None (-1) 0 0) = Ok c /\ resolved n at_final row0 (row c) (SRcount c) (RRcount c).
Proof.
  assert (row0 = [] \/ exists p todo, row0 = p :: todo) as [E|(p & todo & E)] by (destruct row0 as [|p todo]; [by left|right; by exists p, todo]).
  - rewrite E. exists (Conflicts [] None (-1) 0 0). split; [done|]. unfold resolved. by rewrite !over_symbols_nil.
  - destruct (settled_first p todo E) as (c & Ec & Hc). replace (length row0) with (S (length todo)) by (by rewrite E). cbn [for_loop]. rewrite Ec. cbn [rbind].
    change (0 + 1) with (zlen [p]). apply conflict_loop_ok; [done..|]. assert (Hp : 0 <= a_symbol p < n).
    { rewrite E in Hk, Hn. apply Forall_cons in Hk as [(_ & _ & ?) _]. by apply Forall_cons in Hn as [? _]. }
    unfold tallied. change [p] with ([] ++ [p]). rewrite !over_symbols_snoc, !over_symbols_nil by done.
    unfold conflict_step in Ec. rewrite E in Ec. change (rd (row (Conflicts (p :: todo) None (-1) 0 0)) 0) with (Ok p) in Ec. cbn [rbind symbol] in Ec.
    destruct (Z.eqb_spec (a_symbol p) (-1)); [lia|]. injection Ec as <-. cbn [SRcount RRcount]. unfold on_symbol. cbn [filter list_filter app]. by rewrite sr_conflicts_one, rr_conflicts_one.
Qed.

End Row.

Definition row_ok (l : list action) : Prop :=
  StronglySorted key_lt l /\ Forall (fun a => suppressed a = 0 /\ 0 <= rank a /\ 0 <= a_symbol a) l.

Lemma remove_conflicts_ok n fs parser : Forall (fun l => row_ok l /\ Forall (fun a => a_symbol a < n) l) parser -> forall i, exists rows, remove_conflicts fs i parser = Ok rows /\ zlen rows = zlen parser /\
  forall k l, rd parser k = Ok l -> exists r, rd rows k = Ok r /\ resolved n (i + k =? fs) l r.1 r.2.1 r.2.2.
Proof.
  induction 1 as [|l parser [[Hs Hk] Hn] _ IH]; intros i; cbn [remove_conflicts].
  - exists []. split_and!; [done|done|]. intros k l E%rd_range. pose proof (zlen_nil (A := list action)). lia.
  - destruct (conflict_row_ok n (i =? fs) l Hs Hk Hn) as (c & -> & Hc). cbn [rbind]. destruct (IH (i + 1)) as (rows & -> & Hz & Hrows). cbn [rbind].
    eexists. split; [done|]. split; [rewrite !zlen_cons; lia|]. intros k l' E. apply rd_range in E as R. destruct (decide (k = 0)) as [->|].
    + injection E as <-. eexists. split; [done|]. by rewrite Z.add_0_r.
    + rewrite rd_cons in E by lia. destruct (Hrows _ _ E) as (r & Er & Hr). exists r. split; [by rewrite rd_cons by lia|]. by replace (i + k) with (i + 1 + (k - 1)) by lia.
Qed.

(** ** Default reductions, rules never reduced *)

(** all the actions left reduce by [r], and one of them is not on the token of errors *)
Definition default_rule (l : list action) (r : Z) : Prop :=
  (forall a, a ∈ l -> active a = true -> is_shift a = false /\ a_number a = r) /\ exists a, a ∈ l /\ active a = true /\ a_symbol a <> 1.

Definition agrees (r : Z) (a : action) : bool := negb (active a) || (negb (is_shift a) && (a_number a =? r)).

Definition not_error (a : action) : bool := active a && negb (a_symbol a =? 1).

Lemma default_rule_bool l r : default_rule l r <-> forallb (agrees r) l && existsb not_error l = true.
Proof.
  rewrite andb_true_iff, forallb_forall, existsb_exists. unfold default_rule, agrees, not_error. setoid_rewrite <- list_elem_of_In.
  setoid_rewrite orb_true_iff. setoid_rewrite andb_true_iff. setoid_rewrite negb_true_iff. setoid_rewrite Z.eqb_eq. setoid_rewrite Z.eqb_neq.
  split; intros [H1 H2]; (split; [|exact H2]).
  - intros a Ha. destruct (decide (suppressed a = 0)) as [Aa|]; [right; by apply H1|by left].
  - intros a Ha Aa. by destruct (H1 a Ha).
Qed.

Lemma sole_loop_ok r : 0 < r -> forall p count, 0 <= count ->
  sole_loop p count r = if forallb (agrees r) p then (if (0 <? count) || existsb not_error p then r else 0) else 0.
Proof.
  intros Hr. induction p as [|a p IH]; intros count Hc; cbn [sole_loop forallb existsb].
  - rewrite orb_false_r. destruct (Z.eqb_spec count 0) as [->|]; [done|]. destruct (Z.ltb_spec 0 count); [done|lia].
  - unfold agrees at 1, not_error at 1. destruct (active a); rewrite ?andb_true_r, ?andb_false_r; cbn [negb orb andb]; [|by apply IH].
    destruct (is_shift a); cbn [negb andb]; [done|]. destruct (Z.ltb_spec 0 r); [|lia]. cbn [andb]. destruct (Z.eqb_spec (a_number a) r) as [->|]; cbn [negb andb]; [|done].
    rewrite IH by (destruct (_ =? 1); lia). destruct (Z.eqb_spec (a_symbol a) 1); cbn [negb orb]; [done|]. rewrite orb_true_r.
    destruct (Z.ltb_spec 0 (count + 1)); [done|lia].
Qed.

Lemma sole_reduction_ok l : (forall a, a ∈ l -> is_shift a = false -> 0 < a_number a) ->
  0 <= sole_reduction l /\ (0 < sole_reduction l -> default_rule l (sole_reduction l)) /\ forall r, default_rule l r -> sole_reduction l = r.
Proof.
  unfold sole_reduction. setoid_rewrite default_rule_bool. induction l as [|a l IH]; intros Hn; cbn [sole_loop].
  - cbn. split_and!; [done|done|]. intros r H. done.
  - cbn [forallb existsb]. unfold agrees at 1 3, not_error at 1 3. pose proof (Hn a ltac:(by left)) as Hna.
    destruct (active a); rewrite ?andb_true_r, ?andb_false_r; cbn [negb orb andb]; [|apply IH; intros b Hb; apply Hn; by right].
    destruct (is_shift a); cbn [negb andb]; [split_and!; [done|lia|done]|]. specialize (Hna eq_refl). change (0 <? 0) with false. cbn [andb].
    rewrite sole_loop_ok by (done || destruct (_ =? 1); lia).
    assert (E : ((0 <? (if a_symbol a =? 1 then 0 else 0 + 1)) || existsb not_error l) = (negb (a_symbol a =? 1) || existsb not_error l)) by (by destruct (a_symbol a =? 1)).
    rewrite E. destruct (negb (a_symbol a =? 1) || existsb not_error l).
    + split_and!; [destruct (forallb (agrees (a_number a)) l); cbn; lia| |].
      * destruct (forallb (agrees (a_number a)) l) eqn:F; [intros _|cbn; intros; lia]. by rewrite Z.eqb_refl, F.
      * intros r [[H1 H2]%andb_true_iff _]%andb_true_iff. apply Z.eqb_eq in H1 as <-. by rewrite H2.
    + split_and!; [destruct (forallb (agrees (a_number a)) l); cbn; lia|destruct (forallb (agrees (a_number a)) l); cbn; intros; lia|]. intros r. by rewrite andb_false_r.
Qed.

Lemma use_rules_ok l : forall used, Forall (fun a => is_shift a = false -> 0 <= a_number a < zlen used) l ->
  exists used', use_rules l used = Ok used' /\ zlen used' = zlen used /\
    forall r, 0 <= r < zlen used -> zget used' r = 0 <-> zget used r = 0 /\ forall a, a ∈ l -> active a = true -> is_shift a = false -> a_number a <> r.
Proof.
  induction l as [|a l IH]; intros used Hl; cbn [use_rules].
  - exists used. split_and!; [done|done|]. intros r _. split; [|by intros [? _]]. intros H. split; [done|]. by intros a ?%elem_of_nil.
  - apply Forall_cons in Hl as [Ha Hl]. assert (Step : exists used1, (if negb (is_shift a) && active a then wr used (a_number a) 1 else Ok used) = Ok used1 /\
      zlen used1 = zlen used /\ forall r, 0 <= r < zlen used -> zget used1 r = 0 <-> zget used r = 0 /\ (active a = true -> is_shift a = false -> a_number a <> r)).
    { destruct (is_shift a) eqn:Sa, (active a) eqn:Aa; cbn [negb andb]; try (exists used; split_and!; [done|done|]; intros r _; tauto || (split; [intros ?; split; [done|congruence]|by intros [? _]])).
      rewrite wr_in_range by (by apply Ha). eexists. split; [done|]. rewrite zlen_insert. split; [done|]. intros r Hr. specialize (Ha eq_refl). rewrite zget_insert by lia.
      destruct (Z.eqb_spec (a_number a) r); [split; [done|]; intros [_ H]; by specialize (H eq_refl eq_refl)|tauto]. }
    destruct Step as (used1 & -> & Z1 & H1). cbn [rbind]. destruct (IH used1) as (used' & -> & Z' & H'); [by rewrite Z1|]. exists used'. split_and!; [done|lia|].
    intros r Hr. rewrite H', H1 by lia. split.
    + intros [[? Hna] Hnl]. split; [done|]. intros b [->|Hb]%elem_of_cons; [done|by apply Hnl].
    + intros [? Hn]. split; [split; [done|]; apply Hn; by left|]. intros b Hb. apply Hn. by right.
Qed.

(** ** The parser of a grammar *)

Section Parser.
Context (g : grammar) (ps : list production) (L : lays_out g ps) (Ag : augmented g ps) (Hmod : nvars g mod 32 <> 0).
Context (pr : precedences) (Hsp : ntokens g <= zlen (symbol_prec pr)) (Hsa : ntokens g <= zlen (symbol_assoc pr)).
Context (Hrp : nrules g <= zlen (rprec (tab g))) (Hra : nrules g <= zlen (rassoc (tab g))).
Context (cores : list core) (ss : list shifts) (rs : list reductions) (Au : lr0_automaton g ps cores ss rs).
Context (st : list (option (list Z))) (Hst : forall p row, row_of g ps cores ss p row -> rd st p = Ok (edges row)).
Context (lookaheads LAruleno LA : list Z) (Htab : lalr_tables g ps cores lookaheads LAruleno LA).

#[local] Abbreviation trans := (trans g ps cores).
#[local] Abbreviation acc := (acc cores).
#[local] Abbreviation candidate := (candidate g ps pr cores).

Lemma final_loop_ok p X q l : trans p X q -> Forall (fun s => known g cores s /\ exists Y, trans p Y s) l -> q ∈ l ->
  forall s0, final_loop acc X l s0 = Ok q.
Proof.
  intros Ht. induction 1 as [|s row [[Es Hs] [Y HY]] Hrow IH]; intros Hq s0; [by apply elem_of_nil in Hq|]. cbn [final_loop]. rewrite Es. cbn [rbind].
  pose proof (trans_zget g ps cores _ _ _ HY) as EY. destruct (Z.eqb_spec (zget acc s) X) as [E|Ne].
  - f_equal. apply (trans_fun g ps cores ss rs Au p X); [|done]. rewrite <- E, EY. done.
  - apply elem_of_cons in Hq as [->|Hq]; [by rewrite (trans_zget g ps cores _ _ _ Ht) in Ne|]. by apply IH.
Qed.

Lemma find_final_state_ok : exists goal fs, rule ps 2 (start_symbol g, [goal; 0]) /\ trans 0 goal fs /\ find_final_state g acc st = Ok fs.
Proof.
  pose proof (ag_goal _ _ Ag) as Hr. pose proof (Grammar.lo_start _ _ L) as Hst0. set (goal := start_symbol g + 1) in *. assert (H1 : 1 <= goal) by lia. assert (Eg : rd (ritem (tab g)) 1 = Ok goal).
  { exact (rule_symbol g ps L 2 _ 0 Hr ltac:(cbn; unfold zlen; cbn; lia)). }
  destruct (item_step g ps L cores ss rs Au Hmod 0 1 goal) as (fs & Ht & _); [|done|done|].
  { exists 0, (start_kernel g ps). split; [apply (la_start _ _ _ _ _ Au)|]. apply in_nucleus. apply list_elem_of_fmap. exists 2. split; [done|].
    apply (elem_of_rules_for g ps L); [done|]. by exists (start_symbol g, [goal; 0]). }
  exists goal, fs. split; [done|]. split; [done|]. unfold find_final_state. destruct (trans_states g ps cores _ _ _ Ht) as [Hq _].
  destruct (row_exists g ps cores ss rs Au 0 Hq) as [row Hrow]. rewrite (Hst _ _ Hrow). cbn [rbind].
  pose proof Hrow as (_ & _ & Hin & _). assert (Hf : fs ∈ row) by (apply Hin; by exists goal). destruct row as [|x row]; [by apply elem_of_nil in Hf|].
  cbn [edges of_option rbind]. rewrite Eg. cbn [rbind]. apply (final_loop_ok 0 goal fs); [done| |by apply elem_of_rev].
  apply Forall_rev. destruct (row_symbols g ps L cores ss 0 _ Hrow) as (_ & _ & Hk). eapply Forall_impl; [exact Hk|]. by intros q [[? _] ?].
Qed.

Lemma candidate_ok q a : candidate q a -> suppressed a = 0 /\ 0 <= a_symbol a < ntokens g /\ (is_shift a = false -> 0 < a_number a < nrules g).
Proof.
  intros [(t & s & Ht' & [Ht _] & ->)|(r & t & (X & K & p & _ & Hp & _) & Ht & _ & ->)]; cbn; [unfold ntokens; split_and!; [done|lia|lia|done]|].
  pose proof (rule_bounds g ps L r p Hp). split_and!; [done|lia|lia|intros _; lia].
Qed.

Definition state_row (q : Z) (l : list action) : Prop := row_ok l /\ forall a, a ∈ l <-> candidate q a.

Lemma parser_rows_ok n : forall i, 0 <= i -> i + Z.of_nat n <= zlen cores ->
  exists rows, parser_rows g pr acc st lookaheads LAruleno LA n i = Ok rows /\ zlen rows = Z.of_nat n /\
    forall k, 0 <= k < Z.of_nat n -> exists l, rd rows k = Ok l /\ state_row (i + k) l.
Proof.
  induction n as [|n IH]; intros i Hi Hn; cbn [parser_rows]; [exists []; split_and!; [done|done|lia]|].
  destruct (parse_actions_ok g ps L pr Hsp Hsa Hrp Hra cores ss rs Au st Hst lookaheads LAruleno LA Htab i) as (l & -> & Hs & Hr & Hin); [split; lia|]. cbn [rbind].
  destruct (IH (i + 1)) as (rows & -> & Hz & Hrows); [lia|lia|]. cbn [rbind]. exists (l :: rows). split; [done|]. split; [rewrite zlen_cons; lia|].
  intros k Hk. destruct (decide (k = 0)) as [->|].
  - exists l. split; [done|]. rewrite Z.add_0_r. split; [|done]. split; [done|]. apply Forall_forall. intros a Ha. rewrite Forall_forall in Hr.
    pose proof (Hr a Ha). apply Hin, candidate_ok in Ha as (? & [? _] & _). done.
  - destruct (Hrows (k - 1)) as (l' & El & Hl'); [lia|]. exists l'. rewrite rd_cons by lia. split; [done|]. by replace (i + k) with (i + 1 + (k - 1)) by lia.
Qed.

(** what the parser of a state does: [l] has its candidate actions, [row] those that are left *)
Record parser_for (info : parser_info) : Prop := {
  pf_states : zlen (parser info) = zlen cores;
  pf_final : exists goal, rule ps 2 (start_symbol g, [goal; 0]) /\ trans 0 goal (final_state info);
  pf_row : forall q, state cores q -> exists l row sr rr, state_row q l /\
    rd (parser info) q = Ok row /\ rd (conflict_counts info) q = Ok (sr, rr) /\ resolved (ntokens g) (q =? final_state info) l row sr rr;
  pf_default : forall q row, rd (parser info) q = Ok row -> exists r, rd (defred info) q = Ok r /\ 0 <= r < nrules g /\
    (0 < r -> default_rule row r) /\ forall r', default_rule row r' -> r = r';
  pf_used : forall r, 0 <= r < nrules g -> zget (rules_used info) r = 0 <->
    forall row a, row ∈ parser info -> a ∈ row -> active a = true -> is_shift a = false -> a_number a <> r;
  pf_unused : nunused info = zlen (filter (fun r => zget (rules_used info) r = 0) (seqZ 3 (nrules g - 3))) }.

Lemma offset_length ps' : zlen ps' <= offset ps' (length ps').
Proof. induction ps' as [|p ps' IH]; cbn [offset length]; [done|]. rewrite zlen_cons. pose proof (zlen_nonneg p.2). lia. Qed.

Lemma nrules_le : nrules g <= MAXSHORT + 1.
Proof.
  pose proof (lo_short _ _ L). rewrite (lo_nrules _ _ L). rewrite (lo_nitems _ _ L), (lo_ritem _ _ L), zlen_cons, (items_from_zlen ps 2) in *.
  pose proof (offset_length ps). lia.
Qed.

Lemma unused_count used n : zlen used = nrules g -> 0 <= n <= nrules g - 3 ->
  for_loop (Z.to_nat n) 3 (fun i m => let* u := rd used i in Ok (if u =? 0 then s16 (m + 1) else m)) 0 =
  Ok (zlen (filter (fun r => zget used r = 0) (seqZ 3 n))).
Proof.
  intros Hz Hn. pose proof nrules_le.
  destruct (for_loop_inv (fun j m => m = zlen (filter (fun r => zget used r = 0) (seqZ 3 (j - 3)))) (Z.to_nat n) 3
    (fun i m => let* u := rd used i in Ok (if u =? 0 then s16 (m + 1) else m)) 0) as (m & -> & ->).
  - done.
  - intros j m Hj ->. rewrite rd_zget by lia. cbn [rbind]. eexists. split; [done|]. replace (j + 1 - 3) with (j - 3 + 1) by lia.
    rewrite seqZ_app by lia. rewrite filter_app, zlen_app. replace (3 + (j - 3)) with j by lia. change (seqZ j 1) with [j].
    assert (Hl : zlen (filter (fun r => zget used r = 0) (seqZ 3 (j - 3))) <= j - 3).
    { pose proof (length_filter (fun r => zget used r = 0) (seqZ 3 (j - 3))) as Q. rewrite length_seqZ in Q. unfold zlen. lia. }
    pose proof (zlen_nonneg (filter (fun r => zget used r = 0) (seqZ 3 (j - 3)))).
    destruct (Z.eqb_spec (zget used j) 0); [rewrite filter_cons_True by done|rewrite filter_cons_False by done].
    + rewrite s16_short by (unfold MAXSHORT in *; lia). done.
    + unfold zlen at 3. cbn. lia.
  - do 3 f_equal. f_equal. lia.
Qed.

Lemma elem_of_concat {A} (ls : list (list A)) x : x ∈ concat ls <-> exists l, l ∈ ls /\ x ∈ l.
Proof. rewrite list_elem_of_In, in_concat. by setoid_rewrite <- list_elem_of_In. Qed.

Lemma left_numbers q l row at_final n sr rr : state_row q l -> resolved n at_final l row sr rr -> forall a, a ∈ row -> is_shift a = false -> 0 < a_number a < nrules g.
Proof.
  intros [_ Hl] (<- & _) a Ha Sa. assert (Hc : candidate q (suppress 0 a)) by (apply Hl, list_elem_of_fmap; by exists a).
  apply candidate_ok in Hc as (_ & _ & H). by apply H.
Qed.

Lemma make_parser_ok : exists info, make_parser g pr acc st lookaheads LAruleno LA = Ok info /\ parser_for info.
Proof.
  destruct find_final_state_ok as (goal & fs & Hr2 & Htf & Efs). unfold make_parser.
  destruct (parser_rows_ok (length acc) 0) as (rows0 & -> & Z0 & H0); [lia|unfold acc, set_accessing_symbol, zlen; rewrite length_map; lia|]. cbn [rbind].
  assert (Ea : Z.of_nat (length acc) = zlen cores) by (unfold acc, set_accessing_symbol, zlen; by rewrite length_map). rewrite Ea in *. rewrite Efs. cbn [rbind].
  destruct (remove_conflicts_ok (ntokens g) fs rows0) with (i := 0) as (rows & -> & Z1 & H1).
  { apply Forall_forall. intros l [k Ek]%list_elem_of_lookup. apply lookup_lt_Some in Ek as Hk. destruct (H0 (Z.of_nat k)) as (l' & El & [Hl Hc]); [unfold zlen in *; lia|].
    apply rd_Ok in El as [_ El]. rewrite Nat2Z.id, Ek in El. injection El as ->. split; [done|]. apply Forall_forall. by intros a (_ & [_ ?] & _)%Hc%candidate_ok. }
  cbn [rbind]. unfold unused_rules.
  assert (Hrow : forall q, state cores q -> exists l r, state_row q l /\ rd rows q = Ok r /\ resolved (ntokens g) (q =? fs) l r.1 r.2.1 r.2.2).
  { intros q [Hq1 Hq2]. destruct (H0 q) as (l & El & Hl); [lia|]. destruct (H1 q l El) as (r & Er & Hr). by exists l, r. }
  assert (Hnum : forall row a, row ∈ map fst rows -> a ∈ row -> is_shift a = false -> 0 < a_number a < nrules g).
  { intros row a (r & -> & [k Ek]%list_elem_of_lookup)%list_elem_of_fmap Ha. apply lookup_lt_Some in Ek as Hk.
    destruct (Hrow (Z.of_nat k)) as (l & r' & Hl & Er & Hr); [split; unfold zlen in *; lia|]. apply rd_Ok in Er as [_ Er]. rewrite Nat2Z.id, Ek in Er. injection Er as <-.
    by apply (left_numbers _ l _ _ _ _ _ Hl Hr). }
  assert (Hpos : 0 <= nrules g - 3 \/ nrules g = 2 \/ nrules g < 2) by lia. pose proof (rule_bounds g ps L 2 _ Hr2) as Hb2.
  destruct (use_rules_ok (concat (map fst rows)) (replicate (Z.to_nat (nrules g)) 0)) as (used & -> & Zu & Hu).
  { apply Forall_forall. intros a (row & Hrow' & Ha)%elem_of_concat Sa. rewrite zlen_replicate. specialize (Hnum row a Hrow' Ha Sa). lia. }
  cbn [rbind]. rewrite zlen_replicate in Zu, Hu. rewrite Z2Nat.id in Zu, Hu by lia. rewrite (unused_count used (nrules g - 3)) by lia. cbn [rbind]. eexists. split; [done|].
  constructor; cbn [parser conflict_counts final_state rules_used nunused defred].
  - rewrite zlen_map. lia.
  - by exists goal.
  - intros q Hq. destruct (Hrow q Hq) as (l & [row [sr rr]] & Hl & Er & Hr). exists l, row, sr, rr. split; [done|].
    split; [apply rd_map; by exists (row, (sr, rr))|]. split; [apply rd_map; by exists (row, (sr, rr))|done].
  - intros q row Eq. exists (s16 (sole_reduction row)). split; [apply rd_map; by exists row|]. assert (Hin : row ∈ map fst rows) by (apply rd_Ok in Eq as [_ Eq]; by apply list_elem_of_lookup_2 in Eq).
    destruct (sole_reduction_ok row) as (P0 & P1 & P2); [intros a Ha Sa; specialize (Hnum row a Hin Ha Sa); lia|]. pose proof nrules_le as Hns.
    assert (Hlt : sole_reduction row < nrules g).
    { destruct (decide (0 < sole_reduction row)) as [H|]; [|lia]. destruct (P1 H) as [Hall (a & Ha & Aa & _)]. destruct (Hall a Ha Aa) as [Sa Na]. specialize (Hnum row a Hin Ha Sa). lia. }
    rewrite s16_short by (unfold MAXSHORT in *; lia). by split_and!.
  - intros r Hr. rewrite Hu by lia. rewrite zget_zeros. split.
    + intros [_ H] row a Hrow' Ha. apply H. apply elem_of_concat. by exists row.
    + intros H. split; [done|]. intros a (row & Hrow' & Ha)%elem_of_concat. by apply (H row).
  - done.
Qed.

End Parser.

(** C12: For an augmented grammar whose number of variables is not a multiple of 32, with the
    precedences of its tokens and of its rules, its LR(0) automaton and its LALR(1) tables,
    the parser of each state comes from its candidate actions, the shifts of its tokens and the reductions of
    its complete rules on their lookaheads: for each symbol the action that is left is the
    one that the precedences choose, or the shift, or the first rule; the shift/reduce
    conflicts counted are the reductions that no precedence compares to the shift while it
    stands, and the reduce/reduce ones those that come after the reduction that is left; the default reductions and the rules never reduced
    are those of the actions left; the final state is the one after the goal. *)
Theorem make_parser_correct g ps (L : lays_out g ps) (Ag : augmented g ps) pr cores ss rs lookaheads LAruleno LA shift_table :
  nvars g mod 32 <> 0 -> ntokens g <= zlen (symbol_prec pr) -> ntokens g <= zlen (symbol_assoc pr) ->
  nrules g <= zlen (rprec (tab g)) -> nrules g <= zlen (rassoc (tab g)) ->
  lr0_automaton g ps cores ss rs -> lalr_tables g ps cores lookaheads LAruleno LA ->
  set_shift_table (zlen cores) ss = Ok shift_table ->
  exists info, make_parser g pr (set_accessing_symbol cores) shift_table lookaheads LAruleno LA = Ok info /\ parser_for g ps pr cores info.
Proof.
  intros Hmod Hsp Hsa Hrp Hra Au Htab Est. destruct (shift_table_ok g ps cores ss rs Au) as (st & Est' & Hst). rewrite Est in Est'. injection Est' as <-.
  exact (make_parser_ok g ps L Ag Hmod pr Hsp Hsa Hrp Hra cores ss rs Au shift_table Hst lookaheads LAruleno LA Htab).
Qed.

Lemma expr_lays_out : lays_out expr_grammar expr_productions.
Proof. constructor; try done. repeat constructor; cbn; lia. Qed.

Lemma expr_augmented : augmented expr_grammar expr_productions.
Proof.
  assert (H : forall r A w, rule expr_productions r (A, w) -> (A, w) ∈ expr_productions) by (intros r A w [_ E]; by apply list_elem_of_lookup_2 in E).
  assert (F : Forall (fun p : production => (p.1 = 5 \/ Forall (fun X => 1 <= X) p.2) /\ Forall (fun X => X <> 5) p.2) expr_productions).
  { repeat constructor; cbn; lia || (left; reflexivity) || (right; repeat constructor; lia). }
  rewrite Forall_forall in F. split; [intros r A w [? Hs]%H%F; done|by split|]. intros r A w [? Hs]%H%F. cbn in Hs. rewrite Forall_forall in Hs. intros Hin. by apply (Hs _ Hin).
Qed.

Lemma make_parser_witness : exists info cores, expr_parser = Ok info /\ parser_for expr_grammar expr_productions expr_precedences cores info.
Proof.
  unfold expr_parser. destruct (lr0_ok expr_grammar expr_productions expr_lays_out ltac:(discriminate)) as [(nu & cores & ss & rs & E & Au & Hz & Hnu)|[E _]];
    [|vm_compute in E; discriminate].
  destruct (lalr_tables_ok expr_grammar expr_productions expr_lays_out expr_augmented cores ss rs Au nu Hz Hnu) as (d & Ed & [(la & lar & LA & El & Htab)|[El _]]).
  - discriminate.
  - pose proof E as E'. vm_compute in E'. injection E' as <- <- <- <-. intros rt gs Ert Egs. vm_compute in Ert, Egs. injection Ert as <-. injection Egs as <-.
    constructor; [by vm_compute|by split; vm_compute| |by vm_compute]. intros A HA. assert (A = 5 \/ A = 6) as [->| ->] by (cbn in HA; lia); vm_compute; done.
  - destruct (shift_table_ok expr_grammar expr_productions cores ss rs Au) as (st & Est & _).
    destruct (make_parser_correct expr_grammar expr_productions expr_lays_out expr_augmented expr_precedences cores ss rs la lar LA st) as (info & Ei & Hi); [done..|].
    exists info, cores. split; [|done]. rewrite Ed. cbn [rbind]. rewrite E. cbn [rbind]. rewrite El. cbn [rbind]. rewrite Est. cbn [rbind]. done.
  - exfalso. vm_compute in E. injection E as <- <- <- <-. vm_compute in Ed. injection Ed as <-. vm_compute in El. discriminate.
Defined.

(** + and * are left-associative and * binds tighter, so that after e + e a * is shifted and a +
    reduces; the rule of the prefix operator has no precedence, and its two conflicts are
    solved by shifting *)
Example expr_actions : exists info, expr_parser = Ok info /\
  map (fun row => map (fun a => (a_symbol a, a_code a, a_number a)) (filter (fun a => suppressed a = 0) row)) (parser info) =
    [[(3, SHIFT, 1); (4, SHIFT, 2)]; [(3, SHIFT, 1); (4, SHIFT, 2)]; [(0, REDUCE, 6); (1, REDUCE, 6); (2, REDUCE, 6)];
     [(1, SHIFT, 5); (2, SHIFT, 6)]; [(0, REDUCE, 5); (1, SHIFT, 5); (2, SHIFT, 6)]; [(3, SHIFT, 1); (4, SHIFT, 2)];
     [(3, SHIFT, 1); (4, SHIFT, 2)]; [(0, REDUCE, 3); (1, REDUCE, 3); (2, SHIFT, 6)]; [(0, REDUCE, 4); (1, REDUCE, 4); (2, REDUCE, 4)]] /\
  conflict_counts info = [(0, 0); (0, 0); (0, 0); (0, 0); (2, 0); (0, 0); (0, 0); (0, 0); (0, 0)] /\
  defred info = [0; 0; 6; 0; 0; 0; 0; 0; 4] /\ nunused info = 0.
Proof. eexists. vm_compute. by split_and!. Qed.
