(* ===== verification/Packing.v ===== *)
(** * The packing of the parser tables ([ocaml/yacc/output.c])

    A vector is a list of entries, numbers at distinct places: the shifts of a state and its
    reductions that are not the default one, indexed by the values of the tokens, and, for
    each variable, its gotos that are not the default one, indexed by the states.  The
    vectors are packed, the widest ones first, in one array [table]: each one is given a
    base, and the entry [x] of a vector of base [b] is at [b + x], where [check] holds [x].

    A null pointer in [froms] and [tos] is the empty list, and [maxtable] is the length of
    [table] and of [check]; [order] and [pos] are given up to the vectors already treated. *)

From S2P Require Import Prelude.
From S2P Require Import Grammar.
From S2P Require Import Closure.
From S2P Require Import Lr0.
From S2P Require Import Lalr.
From S2P Require Import Mkpar.
#[local] Open Scope Z_scope.

Definition MAXTABLE : Z := 32500.

Record vectors := Vectors {
  froms : list (list Z);
  tos : list (list Z);
  tally : list Z;
  width : list Z }.

Definition set_vector (vs : vectors) (i : Z) (from to : list Z) (t w : Z) : result vectors :=
  let* fs := wr (froms vs) i from in
  let* ts := wr (tos vs) i to in
  let* ta := wr (tally vs) i t in
  let* wi := wr (width vs) i w in
  Ok (Vectors fs ts ta wi).

(** ** The vectors of the tokens *)

(** the actions left: the shifts, then the reductions from [ntokens] on; and their numbers *)
Fixpoint action_row (ntok default : Z) (p : list action) (st : list Z * Z * Z) : result (list Z * Z * Z) :=
  let '(actionrow, shiftcount, reducecount) := st in
  match p with
  | [] => Ok st
  | a :: p =>
      if active a then
        if is_shift a then
          let* r := wr actionrow (a_symbol a) (a_number a) in
          action_row ntok default p (r, shiftcount + 1, reducecount)
        else if negb (a_number a =? default) then
          let* r := wr actionrow (a_symbol a + ntok) (a_number a) in
          action_row ntok default p (r, shiftcount, reducecount + 1)
        else action_row ntok default p st
      else action_row ntok default p st
  end.

(** the entries of [actionrow] from [off] on, in arrays of length [count]; and the width *)
Definition fill_row (symbol_value actionrow : list Z) (ntok off delta count : Z) : result (list Z * list Z * Z) :=
  let zeros := replicate (Z.to_nat count) 0 in
  let* (r, s, _, min, max) :=
    for_loop (Z.to_nat ntok) 0
      (fun j '(r, s, k, min, max) =>
         let* a := rd actionrow (off + j) in
         if a =? 0 then Ok (r, s, k, min, max) else
         let* v := rd symbol_value j in
         let* r := wr r k v in
         let* s := wr s k (s16 (a - delta)) in
         Ok (r, s, k + 1, if v <? min then v else min, if max <? v then v else max))
      (zeros, zeros, 0, MAXSHORT, 0) in
  Ok (r, s, s16 (max - min + 1)).

Definition token_row (g : grammar) (symbol_value : list Z) (info : parser_info) (i : Z) (vs : vectors) : result vectors :=
  let ntok := ntokens g in
  let nstates := zlen (parser info) in
  let* actions := rd (parser info) i in
  match actions with
  | [] => Ok vs
  | _ =>
      let* d := rd (defred info) i in
      let* (row, shiftcount, reducecount) := action_row ntok d actions (replicate (Z.to_nat (2 * ntok)) 0, 0, 0) in
      let* (r, s, w) := if 0 <? shiftcount then fill_row symbol_value row ntok 0 0 shiftcount else Ok ([], [], 0) in
      let* vs := set_vector vs i r s (s16 shiftcount) w in
      let* (r, s, w) := if 0 <? reducecount then fill_row symbol_value row ntok ntok 2 reducecount else Ok ([], [], 0) in
      set_vector vs (nstates + i) r s (s16 reducecount) w
  end.

Definition token_actions (g : grammar) (symbol_value : list Z) (info : parser_info) (vs : vectors) : result vectors :=
  for_loop (length (parser info)) 0 (token_row g symbol_value info) vs.

(** ** The vectors of the gotos *)

(** the state where most of the gotos of the variable lead *)
Definition default_goto (nstates : Z) (gs : gotos) (v : Z) : result Z :=
  let* m := rd (goto_map gs) v in
  let* n := rd (goto_map gs) (v + 1) in
  if m =? n then Ok 0 else
  let* state_count :=
    for_loop (Z.to_nat (n - m)) m
      (fun i sc => let* s := rd (to_state gs) i in let* c := rd sc s in wr sc s (s16 (c + 1)))
      (replicate (Z.to_nat nstates) 0) in
  let* (max, default_state) :=
    for_loop (Z.to_nat nstates) 0
      (fun i '(max, d) => let* c := rd state_count i in Ok (if max <? c then (c, i) else (max, d))) (0, 0) in
  Ok default_state.

(** the gotos of the variable [v], counted from the first one, that do not lead to the default state *)
Definition save_column (nstates : Z) (gs : gotos) (symbol_value_v v default_state : Z) (vs : vectors) : result vectors :=
  let* m := rd (goto_map gs) v in
  let* n := rd (goto_map gs) (v + 1) in
  let* count :=
    for_loop (Z.to_nat (n - m)) m
      (fun i c => let* s := rd (to_state gs) i in Ok (if s =? default_state then c else c + 1)) 0 in
  if count =? 0 then Ok vs else
  let zeros := replicate (Z.to_nat count) 0 in
  let* (sp1, sp2, k) :=
    for_loop (Z.to_nat (n - m)) m
      (fun i '(sp1, sp2, k) =>
         let* s := rd (to_state gs) i in
         if s =? default_state then Ok (sp1, sp2, k) else
         let* f := rd (from_state gs) i in
         let* sp1 := wr sp1 k f in
         let* sp2 := wr sp2 k s in
         Ok (sp1, sp2, k + 1)) (zeros, zeros, 0) in
  let* last := rd sp1 (k - 1) in
  let* first := rd sp1 0 in
  set_vector vs (symbol_value_v + 2 * nstates) sp1 sp2 (s16 count) (s16 (last - first + 1)).

(** the columns, and [yydgoto]; the variable [v] is the symbol [start_symbol + v] *)
Definition goto_actions (g : grammar) (symbol_value : list Z) (nstates : Z) (gs : gotos) (vs : vectors) : result (vectors * list Z) :=
  for_loop (Z.to_nat (nvars g - 1)) 1
    (fun v '(vs, dgoto) =>
       let* k := default_goto nstates gs v in
       let* sv := rd symbol_value (start_symbol g + v) in
       let* vs := save_column nstates gs sv v k vs in
       Ok (vs, dgoto ++ [k])) (vs, []).

(** ** The order of the vectors *)

(** while (j >= 0 && ...) j--: the number of vectors that stay before *)
Fixpoint step_back (cond : Z -> result bool) (order : list Z) (n : nat) : result nat :=
  match n with
  | O => Ok O
  | S j => let* v := rd order (Z.of_nat j) in let* b := cond v in if b then step_back cond order j else Ok n
  end.

Definition sort_step (vs : vectors) (i : Z) (order : list Z) : result (list Z) :=
  let* t := rd (tally vs) i in
  if 0 <? t then
    let* w := rd (width vs) i in
    let* n := step_back (fun v => let* w1 := rd (width vs) v in Ok (w1 <? w)) order (length order) in
    let* n := step_back (fun v => let* w1 := rd (width vs) v in
                                  if w1 =? w then let* t1 := rd (tally vs) v in Ok (t1 <? t) else Ok false) order n in
    Ok (take n order ++ s16 i :: drop n order)
  else Ok order.

Definition sort_actions (nvectors : Z) (vs : vectors) : result (list Z) :=
  for_loop (Z.to_nat nvectors) 0 (sort_step vs) [].

(** ** The table *)

Record packing := Packing {
  base : list Z;
  pos : list Z;
  table : list Z;
  check_ : list Z;
  lowzero : Z;
  high : Z }.

Definition with_arrays (p : packing) (ta ch : list Z) : packing := Packing (base p) (pos p) ta ch (lowzero p) (high p).

(** do newmax += 200 while (newmax <= loc) *)
Fixpoint new_max (fuel : nat) (newmax loc : Z) : result Z :=
  match fuel with
  | O => NoFuel
  | S fuel => let newmax := newmax + 200 in if newmax <=? loc then new_max fuel newmax loc else Ok newmax
  end.

Definition grow_table (p : packing) (loc : Z) : result packing :=
  if MAXTABLE <=? loc then fatal "maximum table size exceeded" else
  let* newmax := new_max (Z.to_nat MAXTABLE) (zlen (table p)) loc in
  let k := Z.to_nat (newmax - zlen (table p)) in
  Ok (with_arrays p (table p ++ replicate k 0) (check_ p ++ replicate k (-1))).

(** the entries are free, from the base [j]; the table may grow *)
Fixpoint entries_free (from : list Z) (j : Z) (p : packing) : result (packing * bool) :=
  match from with
  | [] => Ok (p, true)
  | x :: from =>
      let loc := j + x in
      let* p := if zlen (table p) <=? loc then grow_table p loc else Ok p in
      let* c := rd (check_ p) loc in
      if c =? -1 then entries_free from j p else Ok (p, false)
  end.

(** the first base from [j] on *)
Fixpoint find_base (fuel : nat) (from : list Z) (j : Z) (p : packing) : result (packing * Z) :=
  match fuel with
  | O => NoFuel
  | S fuel =>
      if j =? 0 then find_base fuel from (j + 1) p else
      let* (p, ok) := entries_free from j p in
      if ok && negb (existsb (Z.eqb j) (pos p)) then Ok (p, j) else find_base fuel from (j + 1) p
  end.

Fixpoint put_entries (from to : list Z) (j : Z) (p : packing) : result packing :=
  match from, to with
  | x :: from, y :: to =>
      let loc := j + x in
      let* ta := wr (table p) loc y in
      let* ch := wr (check_ p) loc x in
      put_entries from to j (Packing (base p) (pos p) ta ch (lowzero p) (if high p <? loc then loc else high p))
  | _, _ => Ok p
  end.

Definition first_base (low : Z) (from : list Z) : Z :=
  match from with
  | [] => low
  | x :: from => foldl (fun j y => if j <? low - y then low - y else j) (low - x) from
  end.

(** while (lowzero < maxtable && check[lowzero] != -1) ++lowzero *)
Fixpoint next_low (fuel : nat) (ch : list Z) (l : Z) : result Z :=
  match fuel with
  | O => NoFuel
  | S fuel =>
      if l <? zlen ch then let* c := rd ch l in if c =? -1 then Ok l else next_low fuel ch (l + 1)
      else Ok l
  end.

Definition pack_vector (vs : vectors) (order : list Z) (vector : Z) (p : packing) : result (packing * Z) :=
  let* i := rd order vector in
  let* from := rd (froms vs) i in
  let* to := rd (tos vs) i in
  let* (p, j) := find_base (Z.to_nat (MAXTABLE + MAXSHORT + 2)) from (first_base (lowzero p) from) p in
  let* p := put_entries from to j p in
  let* l := next_low (S (length (check_ p))) (check_ p) (lowzero p) in
  Ok (Packing (base p) (pos p) (table p) (check_ p) l (high p), j).

(** the loop on [k] *)
Fixpoint same_entries (n : nat) (k : Z) (tj ti fj fi : list Z) : result bool :=
  match n with
  | O => Ok true
  | S n =>
      let* a := rd tj k in let* b := rd ti k in
      if negb (a =? b) then Ok false else
      let* a := rd fj k in let* b := rd fi k in
      if negb (a =? b) then Ok false else same_entries n (k + 1) tj ti fj fi
  end.

(** the loop on [prev] *)
Fixpoint match_from (vs : vectors) (order : list Z) (i : Z) (prev : nat) : result Z :=
  match prev with
  | O => Ok (-1)
  | S prev =>
      let* t := rd (tally vs) i in
      let* w := rd (width vs) i in
      let* j := rd order (Z.of_nat prev) in
      let* wj := rd (width vs) j in
      let* tj := rd (tally vs) j in
      if negb (wj =? w) || negb (tj =? t) then Ok (-1) else
      let* toj := rd (tos vs) j in
      let* toi := rd (tos vs) i in
      let* fromj := rd (froms vs) j in
      let* fromi := rd (froms vs) i in
      let* b := same_entries (Z.to_nat t) 0 toj toi fromj fromi in
      if b then Ok j else match_from vs order i prev
  end.

Definition matching_vector (nstates : Z) (vs : vectors) (order : list Z) (vector : Z) : result Z :=
  let* i := rd order vector in
  if 2 * nstates <=? i then Ok (-1) else match_from vs order i (Z.to_nat vector).

Definition pack_step (nstates : Z) (vs : vectors) (order : list Z) (i : Z) (p : packing) : result packing :=
  let* state := matching_vector nstates vs order i in
  let* (p, place) :=
    if state <? 0 then pack_vector vs order i p else let* b := rd (base p) state in Ok (p, b) in
  let* v := rd order i in
  let* b := wr (base p) v (s16 place) in
  Ok (Packing b (pos p ++ [s16 place]) (table p) (check_ p) (lowzero p) (high p)).

Definition pack_table (nstates nvectors : Z) (vs : vectors) (order : list Z) : result packing :=
  for_loop (length order) 0 (pack_step nstates vs order)
    (Packing (replicate (Z.to_nat nvectors) 0) [] (replicate 1000 0) (replicate 1000 (-1)) 0 0).

(** the vectors start empty *)
Definition output_actions (g : grammar) (symbol_value : list Z) (info : parser_info) (gs : gotos) : result (packing * list Z) :=
  let nstates := zlen (parser info) in
  let nvectors := 2 * nstates + nvars g in
  let k := Z.to_nat nvectors in
  let* vs := token_actions g symbol_value info (Vectors (replicate k []) (replicate k []) (replicate k 0) (replicate k 0)) in
  let* (vs, dgoto) := goto_actions g symbol_value nstates gs vs in
  let* order := sort_actions nvectors vs in
  let* p := pack_table nstates nvectors vs order in
  Ok (p, dgoto).

(** ** The order *)

Lemma step_back_ok cond order n : (n <= length order)%nat -> (forall v, v ∈ order -> exists b, cond v = Ok b) ->
  exists m, step_back cond order n = Ok m /\ (m <= n)%nat.
Proof.
  intros Hn Hc. induction n as [|n IH]; cbn [step_back]; [by exists O|]. destruct (rd_in_range order (Z.of_nat n)) as [v Ev]; [unfold zlen; lia|].
  rewrite Ev. cbn [rbind]. destruct (Hc v) as [b ->]; [apply rd_Ok in Ev as [_ Ev]; by apply list_elem_of_lookup_2 in Ev|]. cbn [rbind].
  destruct b; [|exists (S n); split; [done|lia]]. destruct IH as (m & -> & Hm); [lia|]. exists m. split; [done|lia].
Qed.

(** ** Places in the table *)

(** [p'] is [p] with a longer table *)
Definition longer (p p' : packing) : Prop := exists k : nat,
  p' = with_arrays p (table p ++ replicate k 0) (check_ p ++ replicate k (-1)) /\ zlen (table p) + Z.of_nat k <= Z.max (zlen (table p)) (MAXTABLE + 200).

Lemma longer_refl p : longer p p.
Proof. exists O. rewrite !app_nil_r. split; [by destruct p|lia]. Qed.

Lemma longer_trans p1 p2 p3 : longer p1 p2 -> longer p2 p3 -> longer p1 p3.
Proof.
  intros (k1 & -> & H1) (k2 & -> & H2). exists (k1 + k2)%nat. unfold with_arrays in *. cbn in *. rewrite zlen_app, zlen_replicate in H2.
  rewrite !replicate_add, !app_assoc. split; [done|]. unfold MAXTABLE in *. lia.
Qed.

Lemma new_max_ok loc : forall fuel m, 0 <= m -> loc < m + 200 * Z.of_nat fuel -> m <= loc -> exists m', new_max fuel m loc = Ok m' /\ m <= m' /\ loc < m' <= loc + 200.
Proof.
  induction fuel as [|fuel IH]; intros m Hm Hf Hl; [lia|]. cbn [new_max]. destruct (Z.leb_spec (m + 200) loc) as [Hle|Hlt]; [|exists (m + 200); split; [done|lia]].
  destruct (IH (m + 200)) as (m' & -> & ? & ?); [lia|lia|lia|]. exists m'. split; [done|lia].
Qed.

Lemma grow_table_ok p loc : 0 <= zlen (table p) <= loc -> (exists p', grow_table p loc = Ok p' /\ longer p p' /\ loc < zlen (table p')) \/
  (grow_table p loc = Raise (Failure "maximum table size exceeded") /\ MAXTABLE <= loc).
Proof.
  intros Hl. unfold grow_table. destruct (Z.leb_spec MAXTABLE loc) as [Hm|Hm]; [by right|left].
  destruct (new_max_ok loc (Z.to_nat MAXTABLE) (zlen (table p))) as (m & -> & H1 & H2); [lia|unfold MAXTABLE in *; lia|lia|]. cbn [rbind].
  eexists. split; [done|]. split; [|cbn; rewrite zlen_app, zlen_replicate; lia]. eexists. split; [done|]. unfold MAXTABLE in *. lia.
Qed.

Lemma longer_check p p' n : longer p p' -> zlen (check_ p) = zlen (table p) -> zlen (check_ p') = zlen (table p') /\ zlen (table p) <= zlen (table p') /\
  (0 <= n < zlen (table p) -> zget (check_ p') n = zget (check_ p) n /\ zget (table p') n = zget (table p) n) /\
  (zlen (table p) <= n < zlen (table p') -> zget (check_ p') n = -1).
Proof.
  intros (k & -> & _) Hz. cbn. rewrite !zlen_app, !zlen_replicate. split; [lia|]. split; [lia|]. split.
  - intros Hn. unfold zget, zlen in *. by rewrite !app_nth1 by lia.
  - intros Hn. unfold zget, zlen in *. rewrite app_nth2 by lia. apply nth_lookup_Some with (d := 0). apply lookup_replicate. split; [done|lia].
Qed.

(** the place [n] holds an entry *)
Definition taken (p : packing) (n : Z) : Prop := n < zlen (table p) /\ zget (check_ p) n <> -1.

(** the base [j] can be given to a vector without using a place from [MAXTABLE] on *)
Definition available (p : packing) (from : list Z) (j : Z) : Prop :=
  j <> 0 /\ j ∉ pos p /\ forall x, x ∈ from -> 0 <= j + x < MAXTABLE /\ ~ taken p (j + x).

Lemma longer_taken p p' n : longer p p' -> zlen (check_ p) = zlen (table p) -> 0 <= n -> taken p' n <-> taken p n.
Proof.
  intros L Hz Hn. unfold taken. destruct (longer_check p p' n L Hz) as (_ & Hl & H1 & H2). split.
  - intros [Hn' Hc]. destruct (decide (n < zlen (table p))) as [Hlt|]; [|by rewrite H2 in Hc by lia]. destruct H1 as [H1 _]; [lia|]. by rewrite <- H1.
  - intros [Hn' Hc]. destruct H1 as [H1 _]; [lia|]. split; [lia|by rewrite H1].
Qed.

Lemma longer_available p p' from j : longer p p' -> zlen (check_ p) = zlen (table p) -> available p from j -> available p' from j.
Proof.
  intros L Hz (Hj & Hp & Hf). split; [done|]. split; [by destruct L as (k & -> & _)|]. intros x Hx. destruct (Hf x Hx) as [? Ht].
  split; [done|]. by rewrite (longer_taken p p') by (done || lia).
Qed.

(** the entries are free from the base [j] *)
Definition free_at (from : list Z) (j : Z) (p : packing) : Prop := forall x, x ∈ from -> 0 <= j + x < zlen (table p) /\ zget (check_ p) (j + x) = -1.

Lemma entries_free_ok j : forall from p, Forall (fun x => 0 <= j + x) from -> zlen (check_ p) = zlen (table p) ->
  (exists p' b, entries_free from j p = Ok (p', b) /\ longer p p' /\ (b = true -> free_at from j p') /\
     (b = false -> exists x, x ∈ from /\ taken p' (j + x)) /\ (forall x, head from = Some x -> j + x < zlen (table p'))) \/
  (entries_free from j p = Raise (Failure "maximum table size exceeded") /\ exists x, x ∈ from /\ MAXTABLE <= j + x).
Proof.
  induction from as [|x from IH]; intros p Hf Hz; cbn [entries_free].
  { left. exists p, true. split; [done|]. split; [apply longer_refl|]. split; [by intros _ x ?%elem_of_nil|]. by split. }
  apply Forall_cons in Hf as [Hx Hf]. pose proof (zlen_nonneg (table p)).
  set (grown := if zlen (table p) <=? j + x then grow_table p (j + x) else Ok p).
  assert (G : (exists p1, grown = Ok p1 /\ longer p p1 /\ j + x < zlen (table p1)) \/ (grown = Raise (Failure "maximum table size exceeded")) /\ MAXTABLE <= j + x).
  { unfold grown. destruct (Z.leb_spec (zlen (table p)) (j + x)) as [Hle|Hlt].
    - destruct (grow_table_ok p (j + x)) as [H'|H']; [lia|by left|by right].
    - left. exists p. split; [done|]. split; [apply longer_refl|done]. }
  destruct G as [(p1 & -> & L1 & H1)|[-> Hx1]]; [|right; split; [done|]; exists x; split; [by left|done]]. cbn [rbind]. destruct (longer_check p p1 0 L1 Hz) as (Z1 & Z2 & _ & _).
  rewrite rd_zget by lia. cbn [rbind]. destruct (Z.eqb_spec (zget (check_ p1) (j + x)) (-1)) as [E|Ne].
  - destruct (IH p1 Hf Z1) as [(p' & b & -> & L2 & Hb & Hb' & _)|[-> (y & Hy & Hm)]]; [|right; split; [done|]; exists y; split; [by right|done]].
    left. exists p', b. split; [done|]. split; [by eapply longer_trans|].
    destruct (longer_check p1 p' (j + x) L2 Z1) as (Z3 & Z4 & C & _). split; [|split; [|intros y [= <-]; lia]]; [|intros Eb; destruct (Hb' Eb) as (y & Hy & Hty); exists y; split; [by right|done]]. intros Eb y [->|Hy]%elem_of_cons; [|by apply Hb].
    destruct C as [C _]; [lia|]. split; [lia|congruence].
  - left. exists p1, false. split; [done|]. split; [done|]. split; [done|]. split; [|intros y [= <-]; done]. intros _. exists x. split; [by left|]. by split.
Qed.

Lemma find_base_ok x0 from : forall fuel j p, Forall (fun x => 0 <= j + x) (x0 :: from) -> zlen (check_ p) = zlen (table p) -> zlen (table p) <= MAXTABLE + 200 ->
  Z.max 0 (MAXTABLE + 201 - (j + x0)) + (if j <=? 0 then 1 else 0) < Z.of_nat fuel ->
  (exists p' j', find_base fuel (x0 :: from) j p = Ok (p', j') /\ longer p p' /\ j <= j' /\ j' <> 0 /\ (j' ∉ pos p) /\ free_at (x0 :: from) j' p') \/
  (find_base fuel (x0 :: from) j p = Raise (Failure "maximum table size exceeded") /\ forall i, j <= i -> ~ available p (x0 :: from) i).
Proof.
  induction fuel as [|fuel IH]; intros j p Hf Hz Hm Hfu; [destruct (j <=? 0); lia|]. cbn [find_base].
  assert (Hf1 : Forall (fun x => 0 <= j + 1 + x) (x0 :: from)) by (eapply Forall_impl; [exact Hf|]; cbn; lia).
  destruct (Z.eqb_spec j 0) as [->|Nj].
  - destruct (IH (0 + 1) p Hf1 Hz Hm) as [(p' & j' & E & L & Hj & H')|[E Hno]]; [change (0 <=? 0) with true in Hfu; change (0 + 1 <=? 0) with false; cbn iota in *; lia| |].
    2: { right. split; [done|]. intros i Hi. destruct (decide (i = 0)) as [->|]; [by intros (? & _)|]. apply Hno. lia. } left. exists p', j'. split; [done|]. split; [done|]. split; [lia|done].
  - destruct (entries_free_ok j (x0 :: from) p Hf Hz) as [(p1 & b & -> & L1 & Hb & Hb' & Hh)|[-> (x & Hx & Hm')]]; [|right; split; [done|]].
    2: { intros i Hi (_ & _ & Ha). specialize (Ha x Hx). lia. } cbn [rbind].
    destruct (longer_check p p1 0 L1 Hz) as (Z1 & Z2 & _ & _). specialize (Hh x0 eq_refl).
    assert (Hm1 : zlen (table p1) <= MAXTABLE + 200) by (destruct L1 as (k & -> & Hk); cbn; rewrite zlen_app, zlen_replicate; unfold MAXTABLE in *; lia).
    destruct (b && negb (existsb (Z.eqb j) (pos p1))) eqn:B.
    + apply andb_true_iff in B as [-> B%negb_true_iff]. left. exists p1, j. split; [done|]. split; [done|]. split; [lia|]. split; [done|]. split; [|by apply Hb].
      assert (Ep : pos p1 = pos p) by (by destruct L1 as (k & -> & _)). rewrite Ep in B. intros Hin. apply list_elem_of_In in Hin.
      rewrite <- not_true_iff_false, existsb_exists in B. apply B. exists j. split; [done|]. apply Z.eqb_refl.
    + destruct (IH (j + 1) p1 Hf1 Z1 Hm1) as [(p' & j' & E & L & Hj & Hj0 & Hp & H')|[E Hno]]; [destruct (Z.leb_spec j 0), (Z.leb_spec (j + 1) 0); lia| |].
      2: { right. split; [done|]. intros i Hi Ha. destruct (decide (i = j)) as [->|]; [|apply (Hno i); [lia|by apply (longer_available p)]].
           destruct Ha as (_ & Hp & Ha). destruct b; cbn [andb] in B.
           - apply Hp. apply negb_false_iff, existsb_exists in B as (y & Hy & <-%Z.eqb_eq). apply list_elem_of_In. by destruct L1 as (k & -> & _).
           - destruct (Hb' eq_refl) as (x & Hx & Ht). destruct (Ha x Hx) as [? Hnt]. apply Hnt. by apply (longer_taken p p1 (j + x) L1 Hz ltac:(lia)). } left. exists p', j'. split; [done|].
      split; [by eapply longer_trans|]. split; [lia|]. split; [done|]. split; [|done]. by destruct L1 as (k & -> & _).
Qed.

Lemma put_entries_ok j : forall from to p, zlen to = zlen from -> NoDup from -> zlen (check_ p) = zlen (table p) ->
  (forall x, x ∈ from -> 0 <= j + x < zlen (table p)) -> high p < zlen (table p) ->
  exists p', put_entries from to j p = Ok p' /\ base p' = base p /\ pos p' = pos p /\ lowzero p' = lowzero p /\
    zlen (table p') = zlen (table p) /\ zlen (check_ p') = zlen (table p) /\ high p <= high p' < zlen (table p) /\
    (forall k x y, from !! k = Some x -> to !! k = Some y -> zget (check_ p') (j + x) = x /\ zget (table p') (j + x) = y /\ j + x <= high p') /\
    forall n, 0 <= n -> (forall x, x ∈ from -> j + x <> n) -> zget (check_ p') n = zget (check_ p) n /\ zget (table p') n = zget (table p) n.
Proof.
  induction from as [|x from IH]; intros [|y to] p Hz Hn Hc Hr Hh; cbn [put_entries].
  - exists p. split_and!; [done..|lia|lia|lia|done|done].
  - exists p. split_and!; [done..|lia|lia|lia|done|done].
  - rewrite zlen_cons, zlen_nil in Hz. pose proof (zlen_nonneg from). lia.
  - rewrite !zlen_cons in Hz. apply NoDup_cons in Hn as [Hx Hn]. pose proof (Hr x ltac:(by left)) as Hrx.
    rewrite !wr_in_range by lia. cbn [rbind].
    set (p1 := Packing _ _ _ _ _ _). destruct (IH to p1) as (p' & -> & B & P & Lz & Zt & Zc & Hh' & Hin & Hout); [lia|done|cbn; by rewrite !zlen_insert| | |].
    { intros z Hz'. cbn. rewrite zlen_insert. apply Hr. by right. }
    { cbn. rewrite zlen_insert. destruct (Z.ltb_spec (high p) (j + x)); lia. }
    cbn in B, P, Lz, Zt, Zc, Hh'. cbn [table check_ p1] in Hout. rewrite !zlen_insert in *. exists p'. split_and!; [done|done|done|done|done|done|destruct (Z.ltb_spec (high p) (j + x)); lia|lia| |].
    + intros [|k] z w Ez Ew; cbn in Ez, Ew; [|by apply (Hin k)]. injection Ez as <-. injection Ew as <-. destruct (Hout (j + x)) as [-> ->]; [lia| |].
      { intros z Hz' E. assert (z = x) as -> by lia. done. }
      rewrite !zget_insert, !Z.eqb_refl by lia. split_and!; [done|done|]. destruct (Z.ltb_spec (high p) (j + x)); lia.
    + intros n Hn0 Hne. destruct (Hout n) as [-> ->]; [done|intros z Hz'; apply Hne; by right|]. pose proof (Hne x ltac:(by left)).
      rewrite !zget_insert by lia. by destruct (Z.eqb_spec (j + x) n).
Qed.

Lemma next_low_ok ch : forall fuel l, 0 <= l <= zlen ch -> zlen ch - l < Z.of_nat fuel -> exists l', next_low fuel ch l = Ok l' /\ l <= l' <= zlen ch /\ forall n, l <= n < l' -> zget ch n <> -1.
Proof.
  induction fuel as [|fuel IH]; intros l Hl Hf; [lia|]. cbn [next_low]. destruct (Z.ltb_spec l (zlen ch)); [|exists l; split; [done|]; split; lia].
  rewrite rd_zget by lia. cbn [rbind]. destruct (Z.eqb_spec (zget ch l) (-1)); [exists l; split; [done|]; split; lia|].
  destruct (IH (l + 1)) as (l' & -> & ? & Hl'); [lia|lia|]. exists l'. split; [done|]. split; [lia|]. intros m Hm. destruct (decide (m = l)) as [->|]; [done|]. apply Hl'. lia.
Qed.

Lemma first_base_ok low from : 0 <= low -> Forall (fun x => 0 <= x <= MAXSHORT) from -> from <> [] ->
  Forall (fun x => 0 <= first_base low from + x) from /\ - MAXSHORT <= first_base low from /\
  (forall j, j < first_base low from -> exists x, x ∈ from /\ j + x < low).
Proof.
  intros Hl Hf Hne. destruct from as [|x from]; [done|]. cbn [first_base]. apply Forall_cons in Hf as [Hx Hf].
  assert (G : forall l j, Forall (fun y => 0 <= y <= MAXSHORT) l -> j <= foldl (fun j y => if j <? low - y then low - y else j) j l /\
    Forall (fun y => 0 <= foldl (fun j y => if j <? low - y then low - y else j) j l + y) l /\
    (foldl (fun j y => if j <? low - y then low - y else j) j l = j \/ exists y, y ∈ l /\ foldl (fun j y => if j <? low - y then low - y else j) j l = low - y)).
  { induction l as [|y l IH]; intros j Hy; cbn [foldl]; [split_and!; [lia|constructor|by left]|]. apply Forall_cons in Hy as [Hy Hyl].
    destruct (IH (if j <? low - y then low - y else j) Hyl) as (H1 & H2 & H3). split; [destruct (Z.ltb_spec j (low - y)); lia|]. split.
    - constructor; [|done]. destruct (Z.ltb_spec j (low - y)); lia.
    - destruct H3 as [->|(z & Hz & ->)]; [|right; exists z; split; [by right|done]]. destruct (Z.ltb_spec j (low - y)); [right; exists y; split; [by left|done]|by left]. }
  destruct (G from (low - x) Hf) as (H1 & H2 & H3). split; [constructor; [lia|done]|]. split; [lia|]. intros j Hj.
  destruct H3 as [E|(y & Hy & E)]; rewrite E in Hj; [exists x; split; [by left|lia]|exists y; split; [by right|lia]].
Qed.

Lemma same_entries_ok n : forall k tj ti fj fi, 0 <= k -> k + Z.of_nat n = zlen tj -> zlen ti = zlen tj -> zlen fj = zlen tj -> zlen fi = zlen tj ->
  exists b, same_entries n k tj ti fj fi = Ok b /\ (b = true -> drop (Z.to_nat k) tj = drop (Z.to_nat k) ti /\ drop (Z.to_nat k) fj = drop (Z.to_nat k) fi).
Proof.
  induction n as [|n IH]; intros k tj ti fj fi Hk Hn H1 H2 H3; cbn [same_entries].
  - exists true. split; [done|]. intros _. rewrite !drop_ge by (unfold zlen in *; lia). done.
  - rewrite !rd_zget by lia. cbn [rbind]. destruct (Z.eqb_spec (zget tj k) (zget ti k)) as [E1|]; cbn [negb]; [|by exists false].
    destruct (Z.eqb_spec (zget fj k) (zget fi k)) as [E2|]; cbn [negb]; [|by exists false].
    destruct (IH (k + 1) tj ti fj fi) as (b & -> & Hb); [lia..|]. exists b. split; [done|]. intros B. destruct (Hb B) as [H4 H5].
    replace (Z.to_nat (k + 1)) with (S (Z.to_nat k)) in H4, H5 by lia.
    assert (D : forall l, zlen l = zlen tj -> drop (Z.to_nat k) l = zget l k :: drop (S (Z.to_nat k)) l).
    { intros l Hl. apply drop_S. apply rd_Ok, rd_zget. lia. }
    rewrite (D tj), (D ti), (D fj), (D fi) by done. by rewrite E1, E2, H4, H5.
Qed.

Section Packed.
Context (nstates nvectors : Z) (vs : vectors).

(** [to] has the value of the entry [x] *)
Definition entry_of (from to : list Z) (x y : Z) : Prop := exists k : nat, from !! k = Some x /\ to !! k = Some y.

(** the vector [v] has these arrays *)
Definition vector (v : Z) (from to : list Z) : Prop :=
  rd (froms vs) v = Ok from /\ rd (tos vs) v = Ok to /\ rd (tally vs) v = Ok (zlen from).

(** arrays of the same length, with distinct entries; [order] holds the numbers of the
    vectors in shorts *)
Record vectors_ok : Prop := {
  vo_zlen : zlen (froms vs) = nvectors /\ zlen (tos vs) = nvectors /\ zlen (tally vs) = nvectors /\ zlen (width vs) = nvectors;
  vo_short : nvectors <= MAXSHORT + 1;
  vo_vector : forall v, 0 <= v < nvectors -> exists from to, vector v from to /\ zlen to = zlen from /\ NoDup from /\ Forall (fun x => 0 <= x <= MAXSHORT) from }.

Context (V : vectors_ok).

Definition used (v : Z) : Prop := 0 <= v < nvectors /\ 0 < zget (tally vs) v.

Lemma sort_actions_ok : exists order, sort_actions nvectors vs = Ok order /\ NoDup order /\ forall v, v ∈ order <-> used v.
Proof.
  destruct (vo_zlen V) as (Z1 & Z2 & Z3 & Z4). pose proof (zlen_nonneg (froms vs)). unfold sort_actions.
  destruct (for_loop_inv (fun i order => NoDup order /\ forall v, v ∈ order <-> 0 <= v < i /\ 0 < zget (tally vs) v) (Z.to_nat nvectors) 0 (sort_step vs) [])
    as (order & -> & Hn & Hin).
  - split; [constructor|]. intros v. rewrite elem_of_nil. split; [done|lia].
  - intros i order Hi [Hn Hin]. unfold sort_step. rewrite rd_zget by lia. cbn [rbind]. destruct (Z.ltb_spec 0 (zget (tally vs) i)) as [Hp|Hp].
    + rewrite rd_zget by lia. cbn [rbind]. assert (Hr : forall v, v ∈ order -> 0 <= v < nvectors) by (intros v Hv%Hin; lia).
      destruct (step_back_ok (fun v => let* w1 := rd (width vs) v in Ok (w1 <? zget (width vs) i)) order (length order)) as (n1 & -> & Hn1); [lia| |].
      { intros v Hv. rewrite rd_zget by (rewrite Z4; by apply Hr). by eexists. }
      cbn [rbind]. destruct (step_back_ok (fun v => let* w1 := rd (width vs) v in if w1 =? zget (width vs) i then let* t1 := rd (tally vs) v in Ok (t1 <? zget (tally vs) i) else Ok false) order n1)
        as (n2 & -> & Hn2); [lia| |].
      { intros v Hv. specialize (Hr v Hv). rewrite rd_zget by lia. cbn [rbind]. destruct (_ =? _); [|by eexists]. rewrite rd_zget by lia. by eexists. }
      cbn [rbind]. pose proof (vo_short V). rewrite s16_short by (unfold MAXSHORT in *; lia). eexists. split; [done|]. assert (Hni : i ∉ order) by (intros Hv%Hin; lia). split.
      * rewrite <- (take_drop n2 order) in Hn, Hni. apply NoDup_app in Hn as (N1 & N2 & N3). rewrite elem_of_app in Hni.
        apply NoDup_app. split; [done|]. split; [|constructor; [tauto|done]]. intros x Hx [->|Hx']%elem_of_cons; [tauto|by apply (N2 x)].
      * intros v. rewrite elem_of_app, elem_of_cons. transitivity (v = i \/ v ∈ order); [rewrite <- (take_drop n2 order) at 3; rewrite elem_of_app; tauto|].
        rewrite Hin. split; [intros [->|?]; [split; [lia|done]|lia]|]. intros [Hv Hpv]. destruct (decide (v = i)); [by left|right; split; [lia|done]].
    + exists order. split; [done|]. split; [done|]. intros v. rewrite Hin. split; [lia|]. intros [Hv Hpv]. destruct (decide (v = i)) as [->|]; [lia|]. split; [lia|done].
  - exists order. split; [done|]. split; [done|]. intros v. rewrite Hin. unfold used. by replace (0 + Z.of_nat (Z.to_nat nvectors)) with nvectors by lia.
Qed.

Context (order : list Z) (Ho : NoDup order) (Hu : forall v, v ∈ order -> used v).

Lemma used_vector v : used v -> exists from to, vector v from to /\ zlen to = zlen from /\ NoDup from /\ Forall (fun x => 0 <= x <= MAXSHORT) from /\ from <> [].
Proof.
  intros [Hv Ht]. destruct (vo_vector V v Hv) as (from & to & Hvec & Hz & Hn & Hf). exists from, to. split_and!; [apply Hvec..|done|done|done|].
  intros ->. destruct Hvec as (_ & _ & E). destruct (vo_zlen V) as (_ & _ & Z3 & _). rewrite rd_zget in E by lia. injection E as E. pose proof (zlen_nil (A := Z)). lia.
Qed.

Lemma vector_fun v from to from' to' : vector v from to -> vector v from' to' -> from = from' /\ to = to'.
Proof. intros (E1 & E2 & _) (E3 & E4 & _). split; congruence. Qed.

#[local] Abbreviation base_of p v := (zget (base p) v).

(** the vectors [done] are packed; no place is free below [lowzero] *)
Record packed (done : list Z) (p : packing) : Prop := {
  pk_sizes : zlen (base p) = nvectors /\ zlen (check_ p) = zlen (table p) /\ zlen (table p) <= MAXTABLE + 200 /\ 0 <= lowzero p <= zlen (table p) /\ 0 <= high p < zlen (table p);
  pk_low : forall n, 0 <= n < lowzero p -> zget (check_ p) n <> -1;
  pk_used : forall v, v ∈ done -> used v;
  pk_pos : pos p = map (fun v => base_of p v) done;
  pk_zero : forall v, 0 <= v < nvectors -> v ∉ done -> base_of p v = 0;
  pk_base : forall v, v ∈ done -> base_of p v <> 0 /\ - MAXSHORT <= base_of p v <= MAXSHORT;
  pk_cell : forall n, 0 <= n < zlen (table p) -> zget (check_ p) n <> -1 -> exists v from to, v ∈ done /\ vector v from to /\
    entry_of from to (n - base_of p v) (zget (table p) n) /\ zget (check_ p) n = n - base_of p v;
  pk_entry : forall v from to x y, v ∈ done -> vector v from to -> entry_of from to x y ->
    0 <= base_of p v + x <= high p /\ zget (check_ p) (base_of p v + x) = x /\ zget (table p) (base_of p v + x) = y;
  pk_same : forall v w from to from' to', v ∈ done -> w ∈ done -> base_of p v = base_of p w -> vector v from to -> vector w from' to' -> from = from' /\ to = to' }.

Lemma match_from_ok v done rest : order = done ++ v :: rest -> forall prev, (prev <= length done)%nat ->
  exists r, match_from vs order v prev = Ok r /\ (r = -1 \/ r ∈ done /\ forall from to, vector v from to -> vector r from to).
Proof.
  intros Eo. assert (Hv : used v) by (apply Hu; rewrite Eo; apply elem_of_app; right; by left).
  destruct (used_vector v Hv) as (from & to & (Ef & Et & Eta) & Hz & _). destruct (vo_zlen V) as (Z1 & Z2 & Z3 & Z4). pose proof Hv as [Hvr _].
  induction prev as [|prev IH]; intros Hp; cbn [match_from]; [exists (-1); split; [done|by left]|]. rewrite Eta, rd_zget by lia. cbn [rbind].
  assert (Ej : exists j, rd order (Z.of_nat prev) = Ok j /\ j ∈ done).
  { destruct (lookup_lt_is_Some_2 done prev ltac:(lia)) as [j Ej]. exists j. split; [|by apply list_elem_of_lookup_2 in Ej]. apply rd_Ok. rewrite Nat2Z.id, Eo.
    split; [lia|]. by apply lookup_app_l_Some. }
  destruct Ej as (j & -> & Hj). cbn [rbind]. assert (Uj : used j) by (apply Hu; rewrite Eo; apply elem_of_app; by left).
  destruct (used_vector j Uj) as (fj & tj & (Efj & Etj & Etaj) & Hzj & _). pose proof Uj as [Hjr _]. rewrite (rd_zget (width vs) j) by lia. cbn [rbind]. rewrite Etaj. cbn [rbind].
  destruct (_ || _) eqn:B; [exists (-1); split; [done|by left]|]. apply orb_false_iff in B as [_ B%negb_false_iff%Z.eqb_eq].
  rewrite Etj, Et, Efj, Ef. cbn [rbind]. pose proof (zlen_nonneg from). destruct (same_entries_ok (Z.to_nat (zlen from)) 0 tj to fj from) as (b & -> & Hb); [lia..|]. cbn [rbind].
  destruct b; [|apply IH; lia]. destruct (Hb eq_refl) as [H1 H2]. change (Z.to_nat 0) with O in H1, H2. rewrite !drop_0 in H1, H2. subst tj fj.
  exists j. split; [done|]. right. split; [done|]. intros from' to' Hvec. destruct (vector_fun v from to from' to') as [<- <-]; [done|done|]. done.
Qed.

(** a vector with the base [j], its entries being in the table *)
Lemma packed_snoc done p v j p2 l : packed done p -> v ∉ done -> used v -> j <> 0 -> - MAXSHORT <= j <= MAXSHORT ->
  zlen (check_ p2) = zlen (table p2) -> zlen (table p2) <= MAXTABLE + 200 -> 0 <= l <= zlen (table p2) -> high p <= high p2 < zlen (table p2) ->
  (forall n, 0 <= n < l -> zget (check_ p2) n <> -1) ->
  (forall n, 0 <= n < zlen (table p2) -> zget (check_ p2) n <> -1 ->
     (0 <= n < zlen (table p) /\ zget (check_ p) n <> -1 /\ zget (check_ p2) n = zget (check_ p) n /\ zget (table p2) n = zget (table p) n) \/
     exists from to, vector v from to /\ entry_of from to (n - j) (zget (table p2) n) /\ zget (check_ p2) n = n - j) ->
  (forall n, 0 <= n <= high p -> zget (check_ p) n <> -1 -> zget (check_ p2) n = zget (check_ p) n /\ zget (table p2) n = zget (table p) n) ->
  (forall from to x y, vector v from to -> entry_of from to x y -> 0 <= j + x <= high p2 /\ zget (check_ p2) (j + x) = x /\ zget (table p2) (j + x) = y) ->
  (forall w from to, w ∈ done -> base_of p w = j -> vector v from to -> vector w from to) ->
  packed (done ++ [v]) (Packing (<[Z.to_nat v := j]> (base p)) (pos p ++ [j]) (table p2) (check_ p2) l (high p2)).
Proof.
  intros [Hs Hlow Hus Hp Hz Hb Hc He Hsm] Hv Huv Hj0 Hjr S1 S2 S3 S4 Hlow2 Hcell Hkept Hent Hsame. destruct Hs as (Z1 & Z2 & Z3 & Z4 & Z5).
  assert (Hr : forall u, u ∈ done -> 0 <= u < nvectors) by (intros u Hu1; apply (Hus u Hu1)). pose proof Huv as [Hvr _].
  assert (Bv : zget (<[Z.to_nat v := j]> (base p)) v = j) by (rewrite zget_insert by lia; by rewrite Z.eqb_refl).
  assert (Bo : forall u, 0 <= u -> u <> v -> zget (<[Z.to_nat v := j]> (base p)) u = base_of p u).
  { intros u Hu0 Ne. rewrite zget_insert by lia. by destruct (Z.eqb_spec v u). }
  assert (Hd : forall u, u ∈ done -> zget (<[Z.to_nat v := j]> (base p)) u = base_of p u) by (intros u Hu1; apply Bo; [by apply Hr|by intros ->]).
  assert (Hsplit : forall u, u ∈ done ++ [v] -> u ∈ done \/ u = v) by (intros u [?| ->%list_elem_of_singleton]%elem_of_app; tauto).
  constructor; cbn [base pos table check_ lowzero high].
  - rewrite zlen_insert. split_and!; lia.
  - exact Hlow2.
  - intros u [Hu1| ->]%Hsplit; [by apply Hus|done].
  - rewrite map_app, Hp. cbn [map]. rewrite Bv. f_equal. apply map_ext_in. intros u Hu1%list_elem_of_In. by rewrite Hd.
  - intros u Hu1 Hu2. rewrite elem_of_app, list_elem_of_singleton in Hu2. rewrite Bo by (lia || tauto). apply Hz; [done|tauto].
  - intros u [Hu1| ->]%Hsplit; [rewrite Hd by done; by apply Hb|by rewrite Bv].
  - intros n Hn Hne. destruct (Hcell n Hn Hne) as [(Hn' & Hne' & E1 & E2)|(from & to & H1 & H2 & H3)].
    + destruct (Hc n Hn' Hne') as (u & from & to & Hu1 & H1 & H2 & H3). exists u, from, to. rewrite Hd, E1, E2 by done.
      split; [apply elem_of_app; by left|]. split; [done|]. by split.
    + exists v, from, to. rewrite Bv. split; [apply elem_of_app; right; by left|]. split; [done|]. by split.
  - intros u from to x y [Hu1| ->]%Hsplit Hvec Hxy; [rewrite Hd by done|rewrite Bv; by apply (Hent from to)].
    destruct (He u from to x y Hu1 Hvec Hxy) as (H1 & H2 & H3). split; [lia|]. destruct (Hkept (base_of p u + x)) as [-> ->]; [done| |done].
    rewrite H2. destruct Hxy as (k & Ek & _). destruct (vo_vector V u (Hr u Hu1)) as (from' & to' & Hvec' & _ & _ & Hf). destruct (vector_fun u from to from' to' Hvec Hvec') as [<- <-].
    rewrite Forall_lookup in Hf. specialize (Hf k x Ek). cbn in Hf. lia.
  - intros u w from to from' to' [Hu1| ->]%Hsplit [Hw1| ->]%Hsplit E Hvec Hvec'; rewrite ?Bv in E; rewrite ?Hd in E by done.
    + by apply (Hsm u w).
    + pose proof (Hsame u from' to' Hu1 E Hvec') as H. by apply (vector_fun u).
    + pose proof (Hsame w from to Hw1 (eq_sym E) Hvec) as H. by apply (vector_fun w).
    + by apply (vector_fun v).
Qed.

(** no base can be given to the vector [v] below [MAXTABLE] *)
Definition no_room (p : packing) (v : Z) : Prop := forall from to j, vector v from to -> ~ available p from j.

Lemma pack_vector_ok done p v rest : packed done p -> order = done ++ v :: rest ->
  (exists p2 j l, pack_vector vs order (zlen done) p = Ok (Packing (base p) (pos p) (table p2) (check_ p2) l (high p2), j) /\
     packed (done ++ [v]) (Packing (<[Z.to_nat v := j]> (base p)) (pos p ++ [j]) (table p2) (check_ p2) l (high p2)) /\ - MAXSHORT <= j <= MAXSHORT) \/
  (pack_vector vs order (zlen done) p = Raise (Failure "maximum table size exceeded") /\ no_room p v).
Proof.
  intros Hpk Eo. pose proof Hpk as [(Z1 & Z2 & Z3 & Z4 & Z5) Hlow Hus Hp _ Hb _ He _]. assert (Hv : used v) by (apply Hu; rewrite Eo; apply elem_of_app; right; by left).
  assert (Hvd : v ∉ done) by (rewrite Eo in Ho; apply NoDup_app in Ho as (_ & H & _); intros Hv'; apply (H v Hv'); by left).
  destruct (used_vector v Hv) as (from & to & Hvec & Hzt & Hnd & Hf & Hne). pose proof Hvec as (Ef & Et & _).
  unfold pack_vector. rewrite Eo, rd_mid. cbn [rbind]. rewrite Ef, Et. cbn [rbind]. destruct (first_base_ok (lowzero p) from ltac:(lia) Hf Hne) as (Hj0 & Hjl & Hjf).
  destruct from as [|x0 from]; [done|]. set (j0 := first_base _ _) in *. assert (Hx0 : 0 <= j0 + x0) by (by apply Forall_cons in Hj0 as [? _]).
  destruct (find_base_ok x0 from (Z.to_nat (MAXTABLE + MAXSHORT + 2)) j0 p Hj0 Z2 Z3) as [(p1 & j & -> & L & Hj & Hjn & Hjp & Hfree)|[-> Hno]]; [|left|right; split; [done|]].
  { unfold MAXTABLE, MAXSHORT. destruct (j0 <=? 0); lia. }
  2: { intros from' to' i Hvec' Ha. destruct (vector_fun v _ _ from' to' Hvec Hvec') as [<- _]. destruct (decide (i < j0)) as [Hi|Hi]; [|by apply (Hno i); [lia|]].
       destruct (Hjf i Hi) as (x & Hx & Hlt). destruct Ha as (_ & _ & Ha). destruct (Ha x Hx) as [? Hnt]. apply Hnt. split; [lia|]. apply Hlow. lia. }
  cbn [rbind]. pose proof (longer_check p p1) as Lc. destruct (Lc 0 L Z2) as (Z1' & Z2' & _ & _). pose proof L as (k & Ep1 & Hk).
  assert (Eb : base p1 = base p /\ pos p1 = pos p /\ lowzero p1 = lowzero p /\ high p1 = high p) by (by rewrite Ep1). destruct Eb as (Eb & Epos & Elow & Ehigh).
  destruct (put_entries_ok j (x0 :: from) to p1 Hzt Hnd Z1') as (p2 & -> & B2 & P2 & L2 & T2 & C2 & H2 & Hin & Hout); [intros x Hx; by apply Hfree|lia|]. cbn [rbind].
  destruct (next_low_ok (check_ p2) (S (length (check_ p2))) (lowzero p2)) as (l & -> & Hl & Hlow2); [lia|unfold zlen; lia|]. cbn [rbind].
  assert (Hmax : zlen (table p1) <= MAXTABLE + 200) by (rewrite Ep1 in *; cbn in *; rewrite zlen_app, zlen_replicate in *; unfold MAXTABLE in *; lia).
  assert (Hjr : - MAXSHORT <= j <= MAXSHORT). { split; [lia|]. destruct (Hfree x0 ltac:(by left)) as [Hx _]. apply Forall_cons in Hf as [Hf _]. unfold MAXTABLE, MAXSHORT in *. lia. }
  exists p2, j, l. rewrite B2, P2, Eb, Epos. split; [done|]. split; [|done].
  apply (packed_snoc done p v j p2 l Hpk Hvd Hv Hjn Hjr); [lia|lia|lia|lia| | | | |].
  - intros n Hn. destruct (decide (n < lowzero p)) as [Hlt|]; [|apply Hlow2; lia]. destruct (Lc n L Z2) as (_ & _ & [C1 _] & _); [lia|].
    destruct (Hout n) as [-> _]; [lia| |rewrite C1; apply Hlow; lia]. intros x Hx E. destruct (Hfree x Hx) as [_ F]. rewrite E, C1 in F. apply (Hlow n); [lia|done].
  - intros n Hn Hc. rewrite T2 in Hn. destruct (decide (n - j ∈ x0 :: from)) as [Hx|Hx].
    + right. apply list_elem_of_lookup in Hx as [i Ei]. destruct (lookup_lt_is_Some_2 to i) as [y Ey]; [apply lookup_lt_Some in Ei; unfold zlen in Hzt; lia|].
      destruct (Hin i _ _ Ei Ey) as (I1 & I2 & _). replace (j + (n - j)) with n in I1, I2 by lia. exists (x0 :: from), to. rewrite I2. split; [done|]. split; [by exists i|done].
    + left. destruct (Hout n) as [-> E2]; [lia|intros x Hx' E; apply Hx; by replace (n - j) with x by lia|]. destruct (Hout n) as [E1 _]; [lia|intros x Hx' E; apply Hx; by replace (n - j) with x by lia|].
      rewrite E1 in Hc. destruct (Lc n L Z2) as (_ & _ & C1 & C3). destruct (decide (n < zlen (table p))) as [Hlt|]; [|rewrite C3 in Hc by lia; done].
      destruct C1 as [C1 C4]; [lia|]. rewrite E2. rewrite C1 in Hc |- *. rewrite C4. split; [lia|]. split; [done|]. by split.
  - intros n Hn Hc. destruct (Lc n L Z2) as (_ & _ & [C1 C4] & _); [lia|]. destruct (Hout n) as [-> ->]; [lia| |done].
    intros x Hx E. destruct (Hfree x Hx) as [_ F]. rewrite E, C1 in F. done.
  - intros from' to' x y Hvec' (i & Ei & Ey). destruct (vector_fun v _ _ from' to' Hvec Hvec') as [<- <-]. destruct (Hin i x y Ei Ey) as (I1 & I2 & I3).
    destruct (Hfree x) as [? _]; [by apply list_elem_of_lookup_2 in Ei|]. split; [lia|done].
  - intros w from' to' Hw Ew. exfalso. apply Hjp. rewrite Hp. apply list_elem_of_fmap. by exists w.
Qed.

Lemma pack_step_ok done p v rest : packed done p -> order = done ++ v :: rest ->
  (exists p', pack_step nstates vs order (zlen done) p = Ok p' /\ packed (done ++ [v]) p') \/
  (pack_step nstates vs order (zlen done) p = Raise (Failure "maximum table size exceeded") /\ no_room p v).
Proof.
  intros Hpk Eo. pose proof Hpk as [(Z1 & Z2 & Z3 & Z4 & Z5) Hlow Hus Hp _ Hb Hc He Hsm]. assert (Hv : used v) by (apply Hu; rewrite Eo; apply elem_of_app; right; by left).
  assert (Hvd : v ∉ done) by (rewrite Eo in Ho; apply NoDup_app in Ho as (_ & H & _); intros Hv'; apply (H v Hv'); by left). pose proof Hv as [Hvr _].
  assert (Eov : rd order (zlen done) = Ok v) by (rewrite Eo; apply rd_mid). unfold pack_step, matching_vector. rewrite Eov. cbn [rbind].
  assert (M : exists r, (if 2 * nstates <=? v then Ok (-1) else match_from vs order v (Z.to_nat (zlen done))) = Ok r /\
    (r = -1 \/ r ∈ done /\ forall from to, vector v from to -> vector r from to)).
  { destruct (2 * nstates <=? v); [exists (-1); split; [done|by left]|]. apply (match_from_ok v done rest Eo). unfold zlen. lia. }
  destruct M as (r & -> & Hr). cbn [rbind]. destruct Hr as [->|[Hr Hsame]].
  - change (-1 <? 0) with true. cbn iota. destruct (pack_vector_ok done p v rest Hpk Eo) as [(p2 & j & l & -> & Hpk' & Hj)|[-> Hno]]; [left|by right].
    cbn [rbind base pos table check_ lowzero high]. rewrite s16_short by done. rewrite wr_in_range by lia. cbn [rbind]. by eexists.
  - left. destruct (Hus r Hr) as [Hrr _]. destruct (Z.ltb_spec r 0); [lia|]. rewrite rd_zget by lia. cbn [rbind]. destruct (Hb r Hr) as [Hb0 Hbr].
    rewrite s16_short by done. rewrite wr_in_range by lia. cbn [rbind]. eexists. split; [done|].
    apply (packed_snoc done p v (base_of p r) p (lowzero p) Hpk Hvd Hv Hb0 Hbr); [done|done|lia|lia|done| |done| |].
    + intros n Hn Hne. by left.
    + intros from to x y Hvec Hxy. by apply (He r from to x y Hr (Hsame _ _ Hvec) Hxy).
    + intros w from to Hw Ew Hvec. destruct (used_vector w (Hus w Hw)) as (from' & to' & Hvec' & _).
      destruct (Hsm w r from' to' from to Hw Hr Ew Hvec' (Hsame _ _ Hvec)) as [-> ->]. done.
Qed.

Lemma for_loop_snoc {A} (body : Z -> A -> result A) : forall n i a b, for_loop n i body a = Ok b -> for_loop (S n) i body a = body (i + Z.of_nat n) b.
Proof.
  induction n as [|n IH]; intros i a b E.
  - injection E as <-. cbn [for_loop]. rewrite Z.add_0_r. by destruct (body i a).
  - cbn [for_loop] in E. change (for_loop (S (S n)) i body a) with (let* a' := body i a in for_loop (S n) (i + 1) body a').
    destruct (body i a) as [a'|e| |] eqn:Ea; try discriminate E. cbn [rbind] in *. rewrite (IH _ _ _ E). f_equal. lia.
Qed.

(** the first [n] vectors of the order *)
Definition pack_first (n : nat) : result packing :=
  for_loop n 0 (pack_step nstates vs order) (Packing (replicate (Z.to_nat nvectors) 0) [] (replicate 1000 0) (replicate 1000 (-1)) 0 0).

(** once the vectors [done] are packed there is no room for the next one *)
Definition table_full : Prop := exists done v rest p, order = done ++ v :: rest /\ pack_first (length done) = Ok p /\ packed done p /\ no_room p v.

Lemma pack_loop_ok rest : forall done p, pack_first (length done) = Ok p -> packed done p -> order = done ++ rest ->
  (exists p', for_loop (length rest) (zlen done) (pack_step nstates vs order) p = Ok p' /\ packed order p') \/
  (for_loop (length rest) (zlen done) (pack_step nstates vs order) p = Raise (Failure "maximum table size exceeded") /\ table_full).
Proof.
  induction rest as [|v rest IH]; intros done p Ef Hp Eo; cbn [for_loop length].
  - left. exists p. split; [done|]. rewrite app_nil_r in Eo. by rewrite Eo.
  - destruct (pack_step_ok done p v rest Hp Eo) as [(p' & E & Hp')|[-> Hno]]; [|right; split; [done|by exists done, v, rest, p]].
    rewrite E. cbn [rbind]. rewrite <- (zlen_snoc done v). apply IH; [|done|by rewrite <- app_assoc].
    unfold pack_first in *. rewrite length_app, Nat.add_comm. exact (eq_trans (for_loop_snoc _ _ _ _ _ Ef) E).
Qed.

Lemma pack_table_ok : (exists p, pack_table nstates nvectors vs order = Ok p /\ packed order p) \/
  (pack_table nstates nvectors vs order = Raise (Failure "maximum table size exceeded") /\ table_full).
Proof.
  unfold pack_table. apply (pack_loop_ok order []); [done| |done]. destruct (vo_zlen V) as (Z1 & _). pose proof (zlen_nonneg (froms vs)).
  constructor; cbn [base pos table check_ lowzero high].
  - rewrite !zlen_replicate. unfold MAXTABLE. lia.
  - lia.
  - by intros v ?%elem_of_nil.
  - done.
  - intros v _ _. apply zget_zeros.
  - by intros v ?%elem_of_nil.
  - intros n Hn Hne. exfalso. apply Hne. rewrite zlen_replicate in Hn. unfold zget. apply nth_lookup_Some. apply lookup_replicate. split; [done|lia].
  - by intros v from to x y ?%elem_of_nil.
  - by intros v w from to from' to' ?%elem_of_nil.
Qed.

(** what the engine of the parsers relies on: in the place [x] of a vector, [check] holds [x]
    exactly when the vector has the entry [x], and then [table] holds its value *)
Definition packs (p : packing) : Prop :=
  zlen (base p) = nvectors /\ zlen (check_ p) = zlen (table p) /\ 0 <= high p < zlen (table p) /\ zlen (table p) <= MAXTABLE + 200 /\
  (forall v, 0 <= v < nvectors -> - MAXSHORT <= zget (base p) v <= MAXSHORT) /\
  (forall v, 0 <= v < nvectors -> zget (base p) v <> 0 <-> used v) /\
  (forall n, 0 <= n < zlen (table p) -> -1 <= zget (check_ p) n <= MAXSHORT) /\
  forall v from to x, used v -> vector v from to -> 0 <= x ->
    ((exists y, entry_of from to x y) <-> 0 <= zget (base p) v + x <= high p /\ zget (check_ p) (zget (base p) v + x) = x) /\
    forall y, entry_of from to x y -> zget (table p) (zget (base p) v + x) = y.

Lemma packed_packs p : packed order p -> (forall v, used v -> v ∈ order) -> packs p.
Proof.
  intros [(Z1 & Z2 & Z3 & Z4 & Z5) _ Hus _ Hz Hb Hc He Hsm] Hall. split; [done|]. split; [done|]. split; [lia|]. split; [lia|]. split; [|split; [|split]].
  - intros v Hv. destruct (decide (v ∈ order)) as [Hin|Hin]; [by apply Hb|]. rewrite Hz by done. unfold MAXSHORT. lia.
  - intros v Hv. split; [|intros Hv'; exact (proj1 (Hb v (Hall v Hv')))]. intros Hne. apply Hus. destruct (decide (v ∈ order)); [done|]. by rewrite Hz in Hne.
  - intros n Hn. destruct (decide (zget (check_ p) n = -1)) as [->|Hne]; [unfold MAXSHORT; lia|]. destruct (Hc n Hn Hne) as (v & from & to & Hv & Hvec & (k & Ek & _) & E).
    destruct (Hus v Hv) as [Hvr _]. destruct (vo_vector V v Hvr) as (from' & to' & Hvec' & _ & _ & Hf). destruct (vector_fun v from to from' to' Hvec Hvec') as [<- <-].
    rewrite Forall_forall in Hf. apply list_elem_of_lookup_2 in Ek. specialize (Hf _ Ek). cbn in Hf. lia.
  - intros v from to x Hv Hvec Hx. pose proof (Hall v Hv) as Hin. split; [|intros y Hy; by apply (He v from to x y)]. split.
    + intros [y Hy]. destruct (He v from to x y Hin Hvec Hy) as (H1 & H2 & _). by split.
    + intros [Hn Hcx]. destruct (Hc (base_of p v + x)) as (u & from' & to' & Hu1 & Hvec' & Hxy & E); [lia|lia|].
      assert (Eb : base_of p v = base_of p u) by lia. destruct (Hsm v u from to from' to' Hin Hu1 Eb Hvec Hvec') as [<- <-].
      replace (base_of p v + x - base_of p u) with x in Hxy by lia. eexists. exact Hxy.
Qed.

End Packed.

#[local] Abbreviation full := (Raise (Failure "maximum table size exceeded")).

Lemma pack_ok nstates nvectors vs : vectors_ok nvectors vs ->
  exists order, sort_actions nvectors vs = Ok order /\ NoDup order /\ (forall v, v ∈ order <-> used nvectors vs v) /\
    ((exists p, pack_table nstates nvectors vs order = Ok p /\ packs nvectors vs p) \/ (pack_table nstates nvectors vs order = full) /\ table_full nstates nvectors vs order).
Proof.
  intros V. destruct (sort_actions_ok nvectors vs V) as (order & E & Hn & Hin). exists order. split; [done|]. split; [done|]. split; [done|].
  destruct (pack_table_ok nstates nvectors vs V order Hn (fun v => proj1 (Hin v))) as [(p & Ep & Hp)|[Ep Hf]]; [left|by right].
  exists p. split; [done|]. apply (packed_packs nvectors vs V order); [done|apply Hin].
Qed.

(** C13: Arrays of distinct entries of shorts are ordered, and packed in this order.  The packing
    fails only when the vectors before some vector, as they are packed, leave no room for it:
    no base that is not 0 nor the base of another vector puts all its entries in free places
    below [MAXTABLE].  Otherwise the places of each vector, from its base, hold its entries
    and no other ones: [check] tells an entry of this vector from the entries of the others
    and from free places. *)
Theorem pack_table_correct (nstates nvectors : Z) (vs : vectors) : vectors_ok nvectors vs ->
  exists order, sort_actions nvectors vs = Ok order /\ NoDup order /\ (forall v, v ∈ order <-> used nvectors vs v) /\
    ((exists p, pack_table nstates nvectors vs order = Ok p /\ packs nvectors vs p) \/ (pack_table nstates nvectors vs order = full) /\ table_full nstates nvectors vs order).
Proof. exact (pack_ok nstates nvectors vs). Qed.

(** two states; the vectors 0 and 1 have the same entries, the vector 3 none *)
Definition some_vectors : vectors :=
  Vectors [[256; 257; 300]; [256; 257; 300]; [256]; []; [0; 1]] [[4; 5; 6]; [4; 5; 6]; [1]; []; [1; 2]] [3; 3; 1; 0; 2] [45; 45; 1; 0; 2].

Lemma some_vectors_ok : vectors_ok 5 some_vectors.
Proof.
  constructor; [done|done|]. intros v Hv.
  assert (v = 0 \/ v = 1 \/ v = 2 \/ v = 3 \/ v = 4) as [->|[->|[->|[->| ->]]]] by lia; do 2 eexists;
    (split; [split_and!; reflexivity|]); (split; [reflexivity|]); (split; [repeat constructor; rewrite ?elem_of_cons, ?elem_of_nil; lia|]);
    repeat constructor; unfold MAXSHORT; lia.
Qed.

Lemma pack_table_witness : exists order p, sort_actions 5 some_vectors = Ok order /\ pack_table 2 5 some_vectors order = Ok p /\ packs 5 some_vectors p.
Proof.
  destruct (pack_table_correct 2 5 some_vectors some_vectors_ok) as (order & E & _ & _ & Hp). exists order.
  assert (Eo : order = [0; 1; 4; 2]) by (assert (E' : sort_actions 5 some_vectors = Ok [0; 1; 4; 2]) by reflexivity; congruence).
  destruct Hp as [(p & Ep & Hp)|[Ef _]]; [by exists p|]. exfalso. subst order.
  assert (B : match pack_table 2 5 some_vectors [0; 1; 4; 2] with Ok _ => true | _ => false end = true) by (vm_compute; reflexivity). rewrite Ef in B. discriminate B.
Defined.
