(* ===== verification/Vectors.v ===== *)
(** * The vectors of the parser tables

    What [token_actions] and [goto_actions] of [Packing.v] compute from the parser of
    [Mkpar.v] and the gotos of [Gotos.v]: the vector of a state has its shifts, the next one
    its reductions that are not the default one, and the vector of a variable has the gotos
    that do not lead to the state of [yydgoto]. *)

From S2P Require Import Prelude.
From S2P Require Import Warshall.
From S2P Require Import Grammar.
From S2P Require Import Closure.
From S2P Require Import Lr0.
From S2P Require Import Lalr.
From S2P Require Import Gotos.
From S2P Require Import Lookaheads.
From S2P Require Import Mkpar.
From S2P Require Import Packing.
From Stdlib Require Import Sorting.Sorted.
From stdpp Require Import relations sorting.
#[local] Open Scope Z_scope.

(** the values of the symbols, as pack_symbols gives them: those of the variables follow their
    order; the symbol 0 is the end of the input, the symbol 1 the token [error].  Two tokens
    may have the same value: that of the token EOF is the one of the end of the input *)
Record values_ok (g : grammar) (sv : list Z) : Prop := {
  sv_zlen : zlen sv = nsyms g /\ nsyms g <= MAXSHORT;
  sv_token : forall t, 0 <= t < ntokens g -> 0 <= zget sv t <= MAXSHORT;
  sv_special : 1 < ntokens g /\ zget sv 0 = 0 /\ zget sv 1 = 256;
  sv_error : forall t, 0 <= t < ntokens g -> zget sv t = 256 -> t = 1;
  sv_start : zget sv (start_symbol g) = -1;
  sv_var : forall v, 0 < v < nvars g -> zget sv (start_symbol g + v) = v - 1 }.

(** ** Writing a vector *)

Definition sizes (n : Z) (vs : vectors) : Prop := zlen (froms vs) = n /\ zlen (tos vs) = n /\ zlen (tally vs) = n /\ zlen (width vs) = n.

(** the entries of the vector [v] are those of the relation *)
Definition has_entries (vs : vectors) (v : Z) (E : Z -> Z -> Prop) : Prop := exists from to, vector vs v from to /\
  zlen to = zlen from /\ NoDup from /\ Forall (fun x => 0 <= x <= MAXSHORT) from /\ forall x y, entry_of from to x y <-> E x y.

(** [vs'] is [vs], but for the vector [i] *)
Definition but (i : Z) (vs vs' : vectors) : Prop := forall v, 0 <= v -> v <> i -> forall from to, vector vs v from to -> vector vs' v from to.

Lemma set_vector_ok n vs i from to t w : sizes n vs -> 0 <= i < n -> t = zlen from ->
  exists vs', set_vector vs i from to t w = Ok vs' /\ sizes n vs' /\ vector vs' i from to /\ but i vs vs'.
Proof.
  intros (Z1 & Z2 & Z3 & Z4) Hi ->. unfold set_vector. rewrite !wr_in_range by lia. cbn [rbind]. eexists. split; [done|].
  split; [unfold sizes; cbn; by rewrite !zlen_insert|]. split; [unfold vector; cbn; by rewrite !rd_insert_eq by lia|].
  intros v Hv Ne from' to' Hvec. unfold vector in *. cbn. by rewrite !rd_insert_ne by lia.
Qed.

Lemma but_entries i vs vs' v E : but i vs vs' -> 0 <= v -> v <> i -> has_entries vs v E -> has_entries vs' v E.
Proof. intros Hb Hv Ne (from & to & Hvec & H). exists from, to. split; [by apply Hb|done]. Qed.

Lemma entries_ext vs v (E E' : Z -> Z -> Prop) : (forall x y, E x y <-> E' x y) -> has_entries vs v E -> has_entries vs v E'.
Proof. intros HE (from & to & H1 & H2 & H3 & H4 & H). exists from, to. split_and!; [apply H1..|done|done|done|]. intros x y. by rewrite H. Qed.

Lemma entry_of_map (js : list Z) (f h : Z -> Z) x y : entry_of (map f js) (map h js) x y <-> exists j, j ∈ js /\ f j = x /\ h j = y.
Proof.
  unfold entry_of. setoid_rewrite list_lookup_fmap. split.
  - intros (k & Ex & Ey). destruct (js !! k) as [j|] eqn:E; [|done]. cbn in *. exists j. apply list_elem_of_lookup_2 in E. split; [done|]. split; congruence.
  - intros (j & [k E]%list_elem_of_lookup & <- & <-). exists k. by rewrite E.
Qed.

(** ** The rows *)

(** the places of the row that are not 0 *)
Definition nonzero (row : list Z) (off n : Z) : list Z := filter (fun j => zget row (off + j) <> 0) (seqZ 0 n).

Lemma elem_of_nonzero row off n j : j ∈ nonzero row off n <-> 0 <= j < n /\ zget row (off + j) <> 0.
Proof. unfold nonzero. rewrite list_elem_of_filter, elem_of_seqZ. split; intros [? ?]; split; (done || lia). Qed.

Lemma nonzero_NoDup row off n : NoDup (nonzero row off n).
Proof. apply NoDup_filter, NoDup_seqZ. Qed.

Lemma nonzero_next row off n : 0 <= n -> nonzero row off (n + 1) = nonzero row off n ++ (if zget row (off + n) =? 0 then [] else [n]).
Proof.
  intros Hn. unfold nonzero. rewrite seqZ_app by lia. rewrite filter_app. f_equal. rewrite Z.add_0_l. change (seqZ n 1) with [n].
  destruct (Z.eqb_spec (zget row (off + n)) 0); [by rewrite filter_cons_False by tauto|by rewrite filter_cons_True by tauto].
Qed.

Lemma nonzero_prefix row off n m : 0 <= n <= m -> zlen (nonzero row off n) <= zlen (nonzero row off m).
Proof.
  intros Hn. unfold nonzero. replace m with (n + (m - n)) by lia. rewrite seqZ_app by lia. rewrite filter_app, zlen_app.
  pose proof (zlen_nonneg (filter (fun j => zget row (off + j) <> 0) (seqZ (0 + n) (m - n)))). lia.
Qed.

Lemma wr_next {A} (a : list A) x y n : wr (a ++ replicate (S n) x) (zlen a) y = Ok ((a ++ [y]) ++ replicate n x).
Proof. cbn [replicate]. by rewrite wr_mid, <- app_assoc. Qed.

Lemma fill_row_ok sv row ntok off delta : 0 <= ntok <= zlen sv -> 0 <= off -> off + ntok <= zlen row ->
  exists w, fill_row sv row ntok off delta (zlen (nonzero row off ntok)) =
    Ok (map (zget sv) (nonzero row off ntok), map (fun j => s16 (zget row (off + j) - delta)) (nonzero row off ntok), w).
Proof.
  intros Hn Ho Hr. unfold fill_row. set (count := zlen (nonzero row off ntok)). set (f := zget sv). set (h := fun j => s16 (zget row (off + j) - delta)).
  destruct (for_loop_inv (fun j '(r, s, k, min, max) => let js := nonzero row off j in
     r = map f js ++ replicate (Z.to_nat (count - zlen js)) 0 /\ s = map h js ++ replicate (Z.to_nat (count - zlen js)) 0 /\ k = zlen js)
    (Z.to_nat ntok) 0
    (fun j '(r, s, k, min, max) =>
         let* a := rd row (off + j) in
         if a =? 0 then Ok (r, s, k, min, max) else
         let* v := rd sv j in
         let* r := wr r k v in
         let* s := wr s k (s16 (a - delta)) in
         Ok (r, s, k + 1, if v <? min then v else min, if max <? v then v else max))
    (replicate (Z.to_nat count) 0, replicate (Z.to_nat count) 0, 0, MAXSHORT, 0)) as ([[[[r s] k] mn] mx] & -> & -> & -> & _).
  - change (nonzero row off 0) with (@nil Z). cbv beta iota zeta. change (zlen (@nil Z)) with 0. by rewrite Z.sub_0_r.
  - intros j [[[[r s] k] mn] mx] Hj (-> & -> & ->). rewrite rd_zget by lia. cbn [rbind]. cbv zeta. rewrite nonzero_next by lia.
    destruct (Z.eqb_spec (zget row (off + j)) 0) as [E|Ne]; [eexists; split; [done|]; by rewrite app_nil_r|].
    rewrite rd_zget by lia. cbn [rbind]. set (js := nonzero row off j) in *.
    assert (Hlt : zlen js < count). { pose proof (nonzero_prefix row off (j + 1) ntok ltac:(lia)) as H. rewrite nonzero_next in H by lia.
      destruct (Z.eqb_spec (zget row (off + j)) 0); [done|]. rewrite zlen_snoc in H. unfold count, js. lia. }
    replace (Z.to_nat (count - zlen js)) with (S (Z.to_nat (count - zlen (js ++ [j])))) by (rewrite zlen_snoc; lia).
    assert (W1 := wr_next (map f js) 0 (zget sv j) (Z.to_nat (count - zlen (js ++ [j])))). assert (W2 := wr_next (map h js) 0 (s16 (zget row (off + j) - delta)) (Z.to_nat (count - zlen (js ++ [j])))).
    rewrite zlen_map in W1, W2. rewrite W1. cbn [rbind]. rewrite W2. cbn [rbind]. eexists. split; [done|]. cbv beta iota. rewrite !map_app, zlen_snoc. done.
  - cbn [rbind]. rewrite Z2Nat.id, Z.add_0_l by lia. cbv zeta. fold count. rewrite Z.sub_diag. cbn [replicate Z.to_nat]. rewrite !app_nil_r. by eexists.
Qed.

(** the actions that are in the row, [d] being the default reduction, and their places *)
Definition kept (d : Z) (l : list action) : list action := filter (fun a => active a = true /\ (is_shift a = true \/ a_number a <> d)) l.
Definition place (ntok : Z) (a : action) : Z := if is_shift a then a_symbol a else a_symbol a + ntok.

Definition shifts_in (l : list action) : list action := filter (fun a => is_shift a = true) l.
Definition reduces_in (l : list action) : list action := filter (fun a => is_shift a = false) l.

Record row_holds (ntok d : Z) (l : list action) (row : list Z) : Prop := {
  rh_zlen : zlen row = 2 * ntok;
  rh_action : forall a, a ∈ kept d l -> 0 <= place ntok a < 2 * ntok /\ zget row (place ntok a) = a_number a;
  rh_place : forall j, 0 <= j -> zget row j <> 0 -> exists a, a ∈ kept d l /\ place ntok a = j }.

Lemma kept_snoc d l a : kept d (l ++ [a]) = kept d l ++ (if active a && (is_shift a || negb (a_number a =? d)) then [a] else []).
Proof.
  unfold kept. rewrite filter_app. f_equal. destruct (active a && _) eqn:E; [rewrite filter_cons_True|rewrite filter_cons_False]; try done.
  - apply andb_true_iff in E as [? [?|?%negb_true_iff%Z.eqb_neq]%orb_true_iff]; tauto.
  - intros [Ha Hd]. rewrite Ha in E. cbn in E. apply orb_false_iff in E as [E1 E2%negb_false_iff%Z.eqb_eq]. destruct Hd; congruence.
Qed.

Lemma row_holds_add ntok d l row a : row_holds ntok d l row -> kept d (l ++ [a]) = kept d l ++ [a] -> NoDup (map (place ntok) (kept d (l ++ [a]))) ->
  0 <= place ntok a < 2 * ntok -> exists row', wr row (place ntok a) (a_number a) = Ok row' /\ row_holds ntok d (l ++ [a]) row'.
Proof.
  intros [Hz Ha Hp] Ek Hn Hr. rewrite wr_in_range by lia. eexists. split; [done|]. rewrite Ek, map_app in Hn. apply NoDup_app in Hn as (_ & Hn & _).
  constructor; rewrite ?Ek.
  - by rewrite zlen_insert.
  - intros b [Hb| ->%list_elem_of_singleton]%elem_of_app; [|split; [done|]; rewrite zget_insert by lia; by rewrite Z.eqb_refl].
    destruct (Ha b Hb) as [Hb0 Eb]. split; [done|]. rewrite zget_insert by lia.
    destruct (Z.eqb_spec (place ntok a) (place ntok b)) as [E|]; [|done]. exfalso.
    apply (Hn (place ntok b)); [apply list_elem_of_fmap; by exists b|rewrite <- E; by left].
  - intros j Hj Hne. rewrite zget_insert in Hne by lia. destruct (Z.eqb_spec (place ntok a) j) as [<-|].
    + exists a. split; [apply elem_of_app; right; by left|done].
    + destruct (Hp j Hj Hne) as (b & Hb & <-). exists b. split; [apply elem_of_app; by left|done].
Qed.

Lemma action_row_ok ntok d : forall p done row, NoDup (map (place ntok) (kept d (done ++ p))) ->
  Forall (fun a => active a = true -> 0 <= a_symbol a < ntok) p -> row_holds ntok d done row ->
  exists row', action_row ntok d p (row, zlen (shifts_in (kept d done)), zlen (reduces_in (kept d done))) =
    Ok (row', zlen (shifts_in (kept d (done ++ p))), zlen (reduces_in (kept d (done ++ p)))) /\ row_holds ntok d (done ++ p) row'.
Proof.
  induction p as [|a p IH]; intros done row Hn Hp Hrow; cbn [action_row]; [exists row; by rewrite app_nil_r|].
  apply Forall_cons in Hp as [Ha Hp]. replace (done ++ a :: p) with ((done ++ [a]) ++ p) in * by (by rewrite <- app_assoc).
  specialize (IH (done ++ [a])). pose proof (kept_snoc d done a) as Ek.
  assert (Same : kept d (done ++ [a]) = kept d done -> exists row', action_row ntok d p (row, zlen (shifts_in (kept d done)), zlen (reduces_in (kept d done))) =
    Ok (row', zlen (shifts_in (kept d ((done ++ [a]) ++ p))), zlen (reduces_in (kept d ((done ++ [a]) ++ p)))) /\ row_holds ntok d ((done ++ [a]) ++ p) row').
  { intros E. rewrite <- E. apply IH; [done|done|]. destruct Hrow. constructor; by rewrite ?E. }
  assert (Sub : NoDup (map (place ntok) (kept d (done ++ [a])))).
  { unfold kept in *. rewrite filter_app, map_app in Hn. by apply NoDup_app in Hn as (? & _). }
  destruct (active a); cbn [andb] in Ek; [|apply Same; by rewrite Ek, app_nil_r]. specialize (Ha eq_refl).
  assert (Grow : kept d (done ++ [a]) = kept d done ++ [a] -> exists row1, wr row (place ntok a) (a_number a) = Ok row1 /\ row_holds ntok d (done ++ [a]) row1).
  { intros E. apply row_holds_add; [done|done|done|]. unfold place. destruct (is_shift a); lia. }
  unfold place at 1 in Grow. destruct (is_shift a) eqn:Sa; cbn [orb] in Ek; [|destruct (Z.eqb_spec (a_number a) d) as [E|Ne]; cbn [negb] in *; [apply Same; by rewrite Ek, app_nil_r|]];
    destruct (Grow Ek) as (row1 & -> & H1); cbn [rbind]; destruct (IH row1 Hn Hp H1) as (row' & E & H'); exists row'; (split; [|done]); rewrite <- E, Ek;
    unfold shifts_in, reduces_in; rewrite !filter_app, !zlen_app, !filter_cons, !filter_nil, Sa;
    rewrite ?(decide_True (P := true = true)), ?(decide_True (P := false = false)), ?(decide_False (P := true = false)), ?(decide_False (P := false = true)) by done; by rewrite zlen_nil, Z.add_0_r.
Qed.

Lemma nodup_map_filter {A B} (f : A -> B) (P : A -> Prop) `{forall x, Decision (P x)} l : NoDup (map f l) -> NoDup (map f (filter P l)).
Proof.
  induction l as [|x l IH]; cbn [map]; [done|]. intros [Hx Hl]%NoDup_cons. rewrite filter_cons. destruct (decide (P x)); [|by apply IH].
  cbn [map]. constructor; [|by apply IH]. intros (y & E & [_ Hy]%list_elem_of_filter)%list_elem_of_fmap. apply Hx. rewrite E. apply list_elem_of_fmap. by exists y.
Qed.

(** the entries of one half of the row: the shifts, or the reductions *)
Lemma row_half ntok d l row (b : bool) : row_holds ntok d l row -> NoDup (map (place ntok) (kept d l)) ->
  Forall (fun a => 0 <= a_symbol a < ntok /\ a_number a <> 0) (kept d l) ->
  let off := if b then 0 else ntok in
  (forall j, j ∈ nonzero row off ntok <-> exists a, a ∈ kept d l /\ is_shift a = b /\ a_symbol a = j /\ zget row (off + j) = a_number a) /\
  zlen (filter (fun a => is_shift a = b) (kept d l)) = zlen (nonzero row off ntok).
Proof.
  intros [Hz Ha Hp] Hn Hk off. rewrite Forall_forall in Hk.
  assert (Pl : forall a, a ∈ kept d l -> is_shift a = b -> place ntok a = off + a_symbol a) by (intros a _ E; unfold place, off; rewrite E; destruct b; lia).
  assert (Hin : forall j, j ∈ nonzero row off ntok <-> exists a, a ∈ kept d l /\ is_shift a = b /\ a_symbol a = j /\ zget row (off + j) = a_number a).
  { intros j. rewrite elem_of_nonzero. split.
    - intros [Hj Hne]. destruct (Hp (off + j)) as (a & Hin & E); [unfold off; destruct b; lia|done|]. destruct (Hk a Hin) as [Hr _]. exists a.
      assert (Sa : is_shift a = b) by (unfold place, off in E; destruct (is_shift a), b; [done|lia|lia|done]).
      split; [done|]. split; [done|]. pose proof (Pl a Hin Sa). split; [lia|]. rewrite <- E. by apply Ha.
    - intros (a & Hin & Sa & <- & E). destruct (Hk a Hin) as [Hr Hne]. split; [done|]. by rewrite E. }
  split; [done|]. rewrite <- (zlen_map a_symbol). unfold zlen. f_equal. apply Permutation_length, NoDup_Permutation; [|apply nonzero_NoDup|].
  - assert (E : map (place ntok) (filter (fun a => is_shift a = b) (kept d l)) = map (Z.add off) (map a_symbol (filter (fun a => is_shift a = b) (kept d l)))).
    { rewrite map_map. apply map_ext_in. intros a [Sa Hka]%list_elem_of_In%list_elem_of_filter. by apply Pl. }
    apply (NoDup_fmap_1 (Z.add off)). change (NoDup (map (Z.add off) (map a_symbol (filter (fun a => is_shift a = b) (kept d l))))). rewrite <- E.
    by apply nodup_map_filter.
  - intros j. rewrite Hin. rewrite list_elem_of_fmap. split.
    + intros (a & -> & [Sa Hka]%list_elem_of_filter). exists a. split; [done|]. split; [done|]. split; [done|]. rewrite <- (Pl a Hka Sa). by apply Ha.
    + intros (a & Hka & Sa & <- & _). exists a. split; [done|]. by apply list_elem_of_filter.
Qed.

(** ** The vectors of a state *)

Lemma nodup_left (l : list action) : (forall t, (length (left_on t l) <= 1)%nat) -> NoDup (map a_symbol (filter (fun a => active a = true) l)).
Proof.
  induction l as [|a l IH]; intros H; [constructor|]. rewrite filter_cons. assert (Hl : forall t, (length (left_on t l) <= 1)%nat).
  { intros t. specialize (H t). unfold left_on in *. rewrite filter_cons in H. destruct (decide _) in H; cbn in H; lia. }
  destruct (decide (active a = true)) as [Ha|]; [|by apply IH]. cbn [map]. constructor; [|by apply IH].
  intros (b & E & [Hb Hin]%list_elem_of_filter)%list_elem_of_fmap. specialize (H (a_symbol a)).
  unfold active in Ha, Hb. apply Z.eqb_eq in Ha, Hb.
  assert (Ec : left_on (a_symbol a) (a :: l) = a :: left_on (a_symbol a) l) by (unfold left_on; by rewrite filter_cons_True).
  assert (Hin' : b ∈ left_on (a_symbol a) l) by (apply list_elem_of_filter; by split_and!).
  rewrite Ec in H. destruct (left_on _ l); [by apply elem_of_nil in Hin'|cbn in H; lia].
Qed.

Lemma kept_active d l : kept d l = filter (fun a => is_shift a = true \/ a_number a <> d) (filter (fun a => active a = true) l).
Proof.
  unfold kept. induction l as [|a l IH]; [done|]. rewrite !filter_cons. destruct (decide (active a = true)); cycle 1.
  - rewrite decide_False by tauto. exact IH.
  - rewrite filter_cons. destruct (decide (is_shift a = true \/ a_number a <> d)); [rewrite decide_True by done|rewrite decide_False by tauto]; by rewrite IH.
Qed.

Lemma elem_of_kept d l a : a ∈ kept d l <-> a ∈ l /\ active a = true /\ (is_shift a = true \/ a_number a <> d).
Proof. unfold kept. rewrite list_elem_of_filter. tauto. Qed.

(** in each state the shifts are on tokens of different values, and so are the reductions but
    those by the default rule: then no entry of a vector hides another one *)
Definition rows_apart (info : parser_info) (sv : list Z) : Prop := forall q row d a b,
  rd (parser info) q = Ok row -> rd (Mkpar.defred info) q = Ok d -> a ∈ kept d row -> b ∈ kept d row ->
  is_shift a = is_shift b -> zget sv (a_symbol a) = zget sv (a_symbol b) -> a_symbol a = a_symbol b.

Section States.
Context (g : grammar) (ps : list production) (L : lays_out g ps).
Context (cores : list core) (ss : list shifts) (rs : list reductions) (Au : lr0_automaton g ps cores ss rs).
Context (pr : precedences) (info : parser_info) (Pf : parser_for g ps pr cores info).
Context (sv : list Z) (Sv : values_ok g sv) (Ap : rows_apart info sv).

#[local] Abbreviation trans := (trans g ps cores).
#[local] Abbreviation n := (zlen cores).
#[local] Abbreviation ntok := (ntokens g).
#[local] Abbreviation nvec := (2 * n + nvars g).

(** the shift of [x] to the state [y], the reduction on [x] by the rule [y + 2], the goto from [x] to [y] *)
Definition shift_entry (row : list action) (x y : Z) : Prop := exists a, a ∈ row /\ active a = true /\ is_shift a = true /\ zget sv (a_symbol a) = x /\ a_number a = y.
Definition reduce_entry (row : list action) (d x y : Z) : Prop :=
  exists a, a ∈ row /\ active a = true /\ is_shift a = false /\ a_number a <> d /\ zget sv (a_symbol a) = x /\ a_number a - 2 = y.
Definition goto_entry (A d x y : Z) : Prop := trans x A y /\ y <> d.

Lemma target_positive p X q : trans p X q -> 0 < q < n.
Proof.
  intros Ht. destruct (trans_states _ _ _ _ _ _ Ht) as [_ Hq]. unfold state in Hq. destruct (decide (q = 0)) as [->|]; [|lia]. exfalso.
  destruct Ht as (HX & Y & Kp & Kq & _ & E & _). rewrite (la_start _ _ _ _ _ Au) in E. injection E as <- _. lia.
Qed.

Lemma row_facts q row : rd (parser info) q = Ok row -> NoDup (map a_symbol (filter (fun a => active a = true) row)) /\
  forall a, a ∈ row -> active a = true -> candidate g ps pr cores q a /\ 0 <= a_symbol a < ntok /\ 0 < a_number a <= MAXSHORT.
Proof.
  intros Er. assert (Hq : state cores q) by (apply rd_range in Er; by rewrite (pf_states _ _ _ _ _ Pf) in Er).
  destruct (pf_row _ _ _ _ _ Pf q Hq) as (l & row' & sr & rr & [Hl Hc] & Er' & _ & Hres & Hleft & _). rewrite Er in Er'. injection Er' as <-. split.
  - apply nodup_left. intros t. rewrite Hleft. destruct (chosen _ _); cbn; lia.
  - intros a Ha Aa. assert (Ec : candidate g ps pr cores q a).
    { apply Hc. rewrite <- Hres. apply list_elem_of_fmap. exists a. split; [|done]. unfold active in Aa. apply Z.eqb_eq in Aa. destruct a; cbn in *; by subst. }
    split; [done|]. pose proof (la_count _ _ _ _ _ Au). pose proof (nrules_le g ps L) as Hnr.
    destruct Ec as [(t & s & Ht & Hs & ->)|(r & t & (X & K & p & _ & Hp & _) & Ht & _ & ->)]; cbn.
    + pose proof (target_positive _ _ _ Hs). destruct Hs as [? _]. unfold ntokens. lia.
    + pose proof (rule_bounds g ps L r p Hp). lia.
Qed.

#[local] Abbreviation none := (fun _ _ : Z => False).

(** the actions of one kind that a row keeps have values of their own *)
Definition apart (l : list action) : Prop := forall a b, a ∈ l -> b ∈ l -> is_shift a = is_shift b ->
  zget sv (a_symbol a) = zget sv (a_symbol b) -> a_symbol a = a_symbol b.

Lemma half_entries vs v row d arr (b : bool) : apart (kept d row) -> row_holds ntok d row arr -> NoDup (map (place ntok) (kept d row)) ->
  Forall (fun a => 0 <= a_symbol a < ntok /\ a_number a <> 0) (kept d row) ->
  let off := if b then 0 else ntok in let delta := if b then 0 else 2 in
  (forall a, a ∈ kept d row -> s16 (a_number a - delta) = a_number a - delta) ->
  vector vs v (map (zget sv) (nonzero arr off ntok)) (map (fun j => s16 (zget arr (off + j) - delta)) (nonzero arr off ntok)) ->
  has_entries vs v (fun x y => exists a, a ∈ kept d row /\ is_shift a = b /\ zget sv (a_symbol a) = x /\ a_number a - delta = y).
Proof.
  intros Hap Hrow Hn Hk off delta Hs Hvec. destruct (row_half ntok d row arr b Hrow Hn Hk) as [Hin _]. fold off in Hin.
  eexists _, _. split; [exact Hvec|]. split; [by rewrite !zlen_map|]. split; [|split].
  - apply NoDup_fmap_2_strong; [|apply nonzero_NoDup]. intros t u (a & Ha & Sa & <- & _)%Hin (a' & Ha' & Sa' & <- & _)%Hin. apply (Hap a a'); [done|done|congruence].
  - apply Forall_forall. intros x (t & -> & [Ht _]%elem_of_nonzero)%list_elem_of_fmap. by apply (sv_token _ _ Sv).
  - intros x y. rewrite entry_of_map. split.
    + intros (j & (a & Ha & Sa & <- & E)%Hin & <- & <-). exists a. split; [done|]. split; [done|]. split; [done|]. by rewrite E, Hs.
    + intros (a & Ha & Sa & <- & <-). exists (a_symbol a). rewrite Forall_forall in Hk.
      assert (Hz : zget arr (off + a_symbol a) = a_number a).
      { destruct (rh_action _ _ _ _ Hrow a Ha) as [_ <-]. f_equal. unfold place, off. rewrite Sa. destruct b; lia. }
      split; [apply Hin; by exists a|]. split; [done|]. by rewrite Hz, Hs.
Qed.

Lemma nonzero_zlen row off m : 0 <= m -> zlen (nonzero row off m) <= m.
Proof.
  intros Hm. pose proof (length_filter (fun j => zget row (off + j) <> 0) (seqZ 0 m)) as H. rewrite length_seqZ in H. unfold nonzero, zlen. lia.
Qed.

Lemma fill_vector vs v row d arr (b : bool) : apart (kept d row) -> row_holds ntok d row arr -> NoDup (map (place ntok) (kept d row)) ->
  Forall (fun a => 0 <= a_symbol a < ntok /\ a_number a <> 0) (kept d row) -> sizes nvec vs -> 0 <= v < nvec ->
  let off := if b then 0 else ntok in let delta := if b then 0 else 2 in let count := zlen (filter (fun a => is_shift a = b) (kept d row)) in
  (forall a, a ∈ kept d row -> s16 (a_number a - delta) = a_number a - delta) ->
  exists r s w vs', (if 0 <? count then fill_row sv arr ntok off delta count else Ok ([], [], 0)) = Ok (r, s, w) /\
    set_vector vs v r s (s16 count) w = Ok vs' /\ sizes nvec vs' /\ but v vs vs' /\
    has_entries vs' v (fun x y => exists a, a ∈ kept d row /\ is_shift a = b /\ zget sv (a_symbol a) = x /\ a_number a - delta = y).
Proof.
  intros Hap Hrow Hn Hk Hz Hv off delta count Hs. destruct (row_half ntok d row arr b Hrow Hn Hk) as [Hin Ec]. fold off in Hin, Ec. fold count in Ec.
  destruct (sv_zlen _ _ Sv) as [Zs Zm]. pose proof (lo_start _ _ L). pose proof (nonzero_zlen arr off ntok ltac:(unfold ntokens; lia)) as Hle. pose proof (zlen_nonneg (nonzero arr off ntok)).
  rewrite Ec. rewrite s16_short by (unfold ntokens, MAXSHORT in *; lia).
  assert (F : exists w, (if 0 <? zlen (nonzero arr off ntok) then fill_row sv arr ntok off delta (zlen (nonzero arr off ntok)) else Ok ([], [], 0)) =
    Ok (map (zget sv) (nonzero arr off ntok), map (fun j => s16 (zget arr (off + j) - delta)) (nonzero arr off ntok), w)).
  { destruct (Z.ltb_spec 0 (zlen (nonzero arr off ntok))) as [Hp|Hp]; cycle 1.
    - destruct (nonzero arr off ntok); [by eexists|rewrite zlen_cons in *; pose proof (zlen_nonneg l); lia].
    - apply fill_row_ok; [unfold ntokens; lia|unfold off; destruct b; unfold ntokens; lia|]. rewrite (rh_zlen _ _ _ _ Hrow). unfold off. destruct b; unfold ntokens; lia. }
  destruct F as [w ->]. destruct (set_vector_ok nvec vs v (map (zget sv) (nonzero arr off ntok)) (map (fun j => s16 (zget arr (off + j) - delta)) (nonzero arr off ntok))
    (zlen (nonzero arr off ntok)) w Hz Hv) as (vs' & E & Hz' & Hvec & Hb); [by rewrite zlen_map|].
  exists (map (zget sv) (nonzero arr off ntok)), (map (fun j => s16 (zget arr (off + j) - delta)) (nonzero arr off ntok)), w, vs'. split; [done|]. split; [done|]. split; [done|]. split; [done|].
  by apply (half_entries vs' v row d arr b Hap Hrow Hn Hk).
Qed.

Lemma row_kept q row d : rd (parser info) q = Ok row -> NoDup (map (place ntok) (kept d row)) /\
  Forall (fun a => 0 <= a_symbol a < ntok /\ a_number a <> 0) (kept d row) /\
  forall a delta, a ∈ kept d row -> 0 <= delta <= 2 -> s16 (a_number a - delta) = a_number a - delta.
Proof.
  intros Er. destruct (row_facts q row Er) as [Hn Ha]. split; [|split].
  - apply (NoDup_fmap_1 (fun x => if decide (x < ntok) then x else x - ntok)). rewrite kept_active.
    assert (E : map (fun x => if decide (x < ntok) then x else x - ntok) (map (place ntok) (kept d row)) = map a_symbol (kept d row)).
    { rewrite map_map. apply map_ext_in. intros a (Hin & Aa & _)%list_elem_of_In%elem_of_kept. destruct (Ha a Hin Aa) as (_ & Hs & _).
      unfold place. destruct (is_shift a); [by rewrite decide_True by lia|rewrite decide_False by lia; lia]. }
    rewrite <- kept_active. change (NoDup (map (fun x => if decide (x < ntok) then x else x - ntok) (map (place ntok) (kept d row)))). rewrite E, kept_active. by apply nodup_map_filter.
  - apply Forall_forall. intros a (Hin & Aa & _)%elem_of_kept. destruct (Ha a Hin Aa) as (_ & ? & ?). lia.
  - intros a delta (Hin & Aa & _)%elem_of_kept Hd. destruct (Ha a Hin Aa) as (_ & ? & ?). apply s16_short. lia.
Qed.

Lemma shift_kept row d x y : (exists a, a ∈ kept d row /\ is_shift a = true /\ zget sv (a_symbol a) = x /\ a_number a - 0 = y) <-> shift_entry row x y.
Proof.
  unfold shift_entry. split.
  - intros (a & (Hin & Aa & _)%elem_of_kept & Sa & <- & <-). exists a. split_and!; [done..|lia].
  - intros (a & Hin & Aa & Sa & <- & <-). exists a. rewrite elem_of_kept. split_and!; [done|done|by left|done|done|lia].
Qed.

Lemma reduce_kept row d x y : (exists a, a ∈ kept d row /\ is_shift a = false /\ zget sv (a_symbol a) = x /\ a_number a - 2 = y) <-> reduce_entry row d x y.
Proof.
  unfold reduce_entry. split.
  - intros (a & (Hin & Aa & Hd)%elem_of_kept & Sa & <- & <-). exists a. split_and!; [done..| |done|done]. destruct Hd; congruence.
  - intros (a & Hin & Aa & Sa & Hd & <- & <-). exists a. rewrite elem_of_kept. split_and!; [done|done|by right|done|done|done].
Qed.

Lemma n_nonneg : 0 <= n <= MAXSHORT.
Proof. pose proof (la_count _ _ _ _ _ Au). pose proof (zlen_nonneg cores). lia. Qed.

Lemma nvars_positive : 0 < nvars g.
Proof. pose proof (lo_start _ _ L). unfold nvars, ntokens. lia. Qed.

Lemma empty_entries vs v (E : Z -> Z -> Prop) : has_entries vs v none -> (forall x y, ~ E x y) -> has_entries vs v E.
Proof. intros H HE. eapply entries_ext; [|exact H]. intros x y. split; [done|apply HE]. Qed.

Lemma token_row_ok vs q row d : rd (parser info) q = Ok row -> rd (Mkpar.defred info) q = Ok d -> sizes nvec vs ->
  has_entries vs q none -> has_entries vs (n + q) none ->
  exists vs', token_row g sv info q vs = Ok vs' /\ sizes nvec vs' /\ has_entries vs' q (shift_entry row) /\ has_entries vs' (n + q) (reduce_entry row d) /\
    forall v E, 0 <= v -> v <> q -> v <> n + q -> has_entries vs v E -> has_entries vs' v E.
Proof.
  intros Er Ed Hz E1 E2. apply rd_range in Er as Hq. rewrite (pf_states _ _ _ _ _ Pf) in Hq. unfold token_row. rewrite Er. cbn [rbind].
  destruct row as [|a row].
  { exists vs. split; [done|]. split; [done|]. split; [|split; [|done]]; (eapply empty_entries; [done|]); intros x y (a & Ha & _); by apply elem_of_nil in Ha. }
  set (r := a :: row) in *. rewrite Ed. cbn [rbind]. destruct (row_kept q r d Er) as (Hn & Hk & Hs). destruct (sv_zlen _ _ Sv) as [Zs Zm]. pose proof (lo_start _ _ L). pose proof nvars_positive.
  destruct (action_row_ok ntok d r [] (replicate (Z.to_nat (2 * ntok)) 0) Hn) as (arr & Ea & Hrow).
  { destruct (row_facts q r Er) as [_ Ha]. apply Forall_forall. intros b Hb Ab. by apply (Ha b Hb Ab). }
  { constructor; [rewrite zlen_replicate; unfold ntokens; lia|by intros b Hb%elem_of_nil|]. intros j Hj. by rewrite zget_zeros. }
  change (kept d []) with (@nil action) in Ea. change (zlen (shifts_in [])) with 0 in Ea. change (zlen (reduces_in [])) with 0 in Ea. cbn [app] in Ea, Hrow. rewrite Ea. cbn [rbind]. unfold shifts_in, reduces_in.
  assert (Hap : apart (kept d r)) by (intros x y Hx Hy; by apply (Ap q r d)).
  destruct (fill_vector vs q r d arr true Hap Hrow Hn Hk Hz ltac:(lia) (fun b Hb => Hs b 0 Hb ltac:(lia))) as (fr & to & w & vs1 & -> & Ev1 & Hz1 & Hb1 & He1).
  cbn [rbind]. rewrite Ev1. cbn [rbind].
  destruct (fill_vector vs1 (n + q) r d arr false Hap Hrow Hn Hk Hz1 ltac:(lia) (fun b Hb => Hs b 2 Hb ltac:(lia))) as (fr2 & to2 & w2 & vs2 & Ef2 & Ev2 & Hz2 & Hb2 & He2).
  rewrite (pf_states _ _ _ _ _ Pf), Ef2. cbn [rbind]. rewrite Ev2.
  exists vs2. split; [done|]. split; [done|]. split; [|split].
  - eapply entries_ext; [apply (shift_kept r d)|]. by apply (but_entries (n + q) vs1 vs2 q); [|lia|lia|].
  - eapply entries_ext; [apply reduce_kept|done].
  - intros v E Hv N1 N2 He. apply (but_entries (n + q) vs1 vs2 v); [done|done|done|]. by apply (but_entries q vs vs1 v).
Qed.

(** what [token_actions] leaves *)
Definition token_vectors (vs : vectors) : Prop := sizes nvec vs /\
  (forall q row d, rd (parser info) q = Ok row -> rd (Mkpar.defred info) q = Ok d ->
     has_entries vs q (shift_entry row) /\ has_entries vs (n + q) (reduce_entry row d)) /\
  forall v, 2 * n <= v < nvec -> has_entries vs v none.

Lemma no_entries v : 0 <= v < nvec ->
  has_entries (Vectors (replicate (Z.to_nat nvec) []) (replicate (Z.to_nat nvec) []) (replicate (Z.to_nat nvec) 0) (replicate (Z.to_nat nvec) 0)) v none.
Proof.
  intros Hv. assert (R : forall A (x : A), rd (replicate (Z.to_nat nvec) x) v = Ok x).
  { intros A x. apply rd_Ok. split; [lia|]. apply lookup_replicate. split; [done|lia]. }
  exists [], []. split; [unfold vector; cbn; by rewrite !R|]. split; [done|]. split; [constructor|]. split; [constructor|].
  intros x y. split; [|done]. by intros (k & E & _).
Qed.

Lemma token_actions_ok : exists vs, token_actions g sv info (Vectors (replicate (Z.to_nat nvec) []) (replicate (Z.to_nat nvec) [])
    (replicate (Z.to_nat nvec) 0) (replicate (Z.to_nat nvec) 0)) = Ok vs /\ token_vectors vs.
Proof.
  unfold token_actions. pose proof n_nonneg. pose proof nvars_positive. assert (En : Z.of_nat (length (parser info)) = n) by apply (pf_states _ _ _ _ _ Pf).
  destruct (for_loop_inv (fun i vs => sizes nvec vs /\
      (forall q row d, q < i -> rd (parser info) q = Ok row -> rd (Mkpar.defred info) q = Ok d ->
         has_entries vs q (shift_entry row) /\ has_entries vs (n + q) (reduce_entry row d)) /\
      forall v, i <= v < n \/ n + i <= v < nvec -> has_entries vs v none) (length (parser info)) 0 (token_row g sv info)
    (Vectors (replicate (Z.to_nat nvec) []) (replicate (Z.to_nat nvec) []) (replicate (Z.to_nat nvec) 0) (replicate (Z.to_nat nvec) 0)))
    as (vs & -> & Hz & Hd & Hn).
  - split; [unfold sizes; cbn; rewrite !zlen_replicate; lia|]. split; [|intros v Hv; apply no_entries; lia]. intros q row d Hq Er _. apply rd_range in Er. lia.
  - intros i vs Hi (Hz & Hd & Hn). destruct (rd_in_range (parser info) i) as [row Er]; [unfold zlen; lia|].
    destruct (pf_default _ _ _ _ _ Pf i row Er) as (d & Ed & _). destruct (token_row_ok vs i row d Er Ed Hz) as (vs' & E & Hz' & H1 & H2 & H3); [apply Hn; lia..|].
    exists vs'. split; [done|]. split; [done|]. split.
    + intros q row' d' Hq Er' Ed'. destruct (decide (q = i)) as [->|]; [rewrite Er in Er'; rewrite Ed in Ed'; by injection Er' as <-; injection Ed' as <-|].
      apply rd_range in Er' as Hq0. destruct (Hd q row' d') as [? ?]; [lia|done|done|]. split; (apply H3; [lia|lia|lia|done]).
    + intros v Hv. apply H3; [lia|lia|lia|]. apply Hn. lia.
  - exists vs. split; [done|]. rewrite En in Hd, Hn. rewrite Z.add_0_l in Hd, Hn. split; [done|]. split.
    + intros q row d Er Ed. apply Hd; [|done|done]. apply rd_range in Er. rewrite (pf_states _ _ _ _ _ Pf) in Er. lia.
    + intros v Hv. apply Hn. lia.
Qed.

(** ** The vector of a variable *)

Context (gs : gotos) (G : gotos_ok g cores ss gs).

#[local] Abbreviation sbase := (sbase g cores ss).

Lemma sbase_next a : 0 <= a < nvars g -> sbase (a + 1) = sbase a + zlen (sel g cores a (T g cores ss)).
Proof. intros Ha. unfold Gotos.sbase. rewrite psum_next, zget_tally by (rewrite ?tally_zlen; unfold nv; lia). done. Qed.

Lemma segment_trans v i : 0 <= v < nvars g -> sbase v <= i < sbase (v + 1) ->
  0 <= i < ngotos gs /\ trans (zget (from_state gs) i) (start_symbol g + v) (zget (to_state gs) i).
Proof.
  intros Hv Hi. rewrite sbase_next in Hi by done.
  assert (Hr : 0 <= i < ngotos gs). { replace i with (sbase v + (i - sbase v)) by lia. eapply segment_range; [exact L|exact Au|exact G|done|lia]. }
  split; [done|]. destruct (goto_transition g ps L cores ss rs Au gs G i Hr) as (p & A & q & (_ & E1 & E2) & Ht & HA & Hs).
  destruct (trans_known _ _ L _ _ _ _ Ht) as (_ & _ & HA2). assert (Ha : 0 <= A - ntok < nvars g) by (unfold nvars, ntokens in *; lia).
  rewrite sbase_next in Hs by done. rewrite E1, E2. replace (start_symbol g + v) with A; [done|].
  destruct (decide (A - ntok = v)) as [<-|Ne]; [unfold ntokens; lia|]. destruct (sbase_apart g cores ss (A - ntok) v) as [H|H]; [done|done|done|lia|lia].
Qed.

Lemma filter_next (P : Z -> Prop) `{forall x, Decision (P x)} m j : m <= j ->
  filter P (seqZ m (j + 1 - m)) = filter P (seqZ m (j - m)) ++ (if decide (P j) then [j] else []).
Proof.
  intros Hj. replace (j + 1 - m) with (j - m + 1) by lia. rewrite seqZ_app by lia. rewrite filter_app. f_equal. replace (m + (j - m)) with j by lia.
  change (seqZ j 1) with [j]. by rewrite filter_cons, filter_nil.
Qed.

(** the gotos of the variable that do not lead to [d] *)
Definition others (v d : Z) : list Z := filter (fun i => zget (to_state gs) i <> d) (seqZ (sbase v) (sbase (v + 1) - sbase v)).

Lemma others_prefix v d j : sbase v <= j <= sbase (v + 1) -> zlen (filter (fun i => zget (to_state gs) i <> d) (seqZ (sbase v) (j - sbase v))) <= zlen (others v d).
Proof.
  intros Hj. unfold others. replace (sbase (v + 1) - sbase v) with ((j - sbase v) + (sbase (v + 1) - j)) by lia. rewrite seqZ_app by lia. rewrite filter_app, zlen_app.
  pose proof (zlen_nonneg (filter (fun i => zget (to_state gs) i <> d) (seqZ (sbase v + (j - sbase v)) (sbase (v + 1) - j)))). lia.
Qed.

Lemma elem_of_others v d i : i ∈ others v d <-> sbase v <= i < sbase (v + 1) /\ zget (to_state gs) i <> d.
Proof. unfold others. rewrite list_elem_of_filter, elem_of_seqZ. split; intros [? ?]; split; (done || lia). Qed.

Lemma variable_segment v : 0 <= v < nvars g -> rd (goto_map gs) v = Ok (sbase v) /\ rd (goto_map gs) (v + 1) = Ok (sbase (v + 1)) /\
  0 <= sbase v <= sbase (v + 1) /\ sbase (v + 1) <= ngotos gs /\ ngotos gs <= MAXSHORT /\ zlen (to_state gs) = ngotos gs.
Proof.
  intros Hv. destruct (go_sizes _ _ _ _ G) as (Z1 & Z2 & Z3 & Z4). rewrite !rd_zget, !(go_map _ _ _ _ G) by lia. split; [done|]. split; [done|].
  destruct (sbase_room g cores ss v (T g cores ss) []) as [H1 H2]; [by rewrite app_nil_r|done|eapply T_keys; [exact L|exact Au]|].
  change (sel g cores v []) with (@nil (Z * Z)) in H2. rewrite zlen_nil in H2. rewrite sbase_next by done. pose proof (zlen_nonneg (sel g cores v (T g cores ss))). split_and!; lia.
Qed.

Lemma default_goto_ok v : 0 <= v < nvars g -> exists d, default_goto n gs v = Ok d /\ 0 <= d < n.
Proof.
  intros Hv. destruct (variable_segment v Hv) as (E1 & E2 & H1 & H2 & H3 & H4). unfold default_goto. rewrite E1, E2. cbn [rbind].
  pose proof (la_start _ _ _ _ _ Au) as H0. apply rd_range in H0. rewrite zlen_kernels in H0.
  destruct (Z.eqb_spec (sbase v) (sbase (v + 1))) as [|Ne]; [exists 0; split; [done|lia]|].
  destruct (for_loop_inv (fun i sc => zlen sc = n) (Z.to_nat (sbase (v + 1) - sbase v)) (sbase v)
    (fun i sc => let* s := rd (to_state gs) i in let* c := rd sc s in wr sc s (s16 (c + 1))) (replicate (Z.to_nat n) 0)) as (sc & -> & Hz).
  - rewrite zlen_replicate. lia.
  - intros i sc Hi Hz. rewrite rd_zget by lia. cbn [rbind]. destruct (segment_trans v i Hv ltac:(lia)) as [_ Ht]. apply target_positive in Ht.
    rewrite rd_zget by lia. cbn [rbind]. rewrite wr_in_range by lia. eexists. split; [done|]. by rewrite zlen_insert.
  - cbn [rbind]. destruct (for_loop_inv (fun i '(max, d) => 0 <= d < n) (Z.to_nat n) 0
      (fun i '(max, d) => let* c := rd sc i in Ok (if max <? c then (c, i) else (max, d))) (0, 0)) as ([max d] & -> & Hd).
    + lia.
    + intros i [max d] Hi Hd. rewrite rd_zget by lia. cbn [rbind]. eexists. split; [done|]. destruct (max <? _); lia.
    + cbn [rbind]. by exists d.
Qed.

Lemma count_others v d : 0 <= v < nvars g ->
  for_loop (Z.to_nat (sbase (v + 1) - sbase v)) (sbase v) (fun i c => let* s := rd (to_state gs) i in Ok (if s =? d then c else c + 1)) 0 = Ok (zlen (others v d)).
Proof.
  intros Hv. destruct (variable_segment v Hv) as (_ & _ & H1 & H2 & _ & H4).
  destruct (for_loop_inv (fun j c => c = zlen (filter (fun i => zget (to_state gs) i <> d) (seqZ (sbase v) (j - sbase v)))) (Z.to_nat (sbase (v + 1) - sbase v)) (sbase v)
    (fun i c => let* s := rd (to_state gs) i in Ok (if s =? d then c else c + 1)) 0) as (c & -> & ->).
  - by rewrite Z.sub_diag.
  - intros j c Hj ->. rewrite rd_zget by lia. cbn [rbind]. eexists. split; [done|]. rewrite filter_next, zlen_app by lia.
    destruct (Z.eqb_spec (zget (to_state gs) j) d); [rewrite decide_False by tauto|rewrite decide_True by done]; [by rewrite zlen_nil, Z.add_0_r|done].
  - unfold others. do 4 f_equal. lia.
Qed.

Lemma save_loop_ok v d : 0 <= v < nvars g -> let zeros := replicate (Z.to_nat (zlen (others v d))) 0 in
  for_loop (Z.to_nat (sbase (v + 1) - sbase v)) (sbase v)
    (fun i '(sp1, sp2, k) =>
       let* s := rd (to_state gs) i in
       if s =? d then Ok (sp1, sp2, k) else
       let* f := rd (from_state gs) i in
       let* sp1 := wr sp1 k f in
       let* sp2 := wr sp2 k s in
       Ok (sp1, sp2, k + 1)) (zeros, zeros, 0) = Ok (map (zget (from_state gs)) (others v d), map (zget (to_state gs)) (others v d), zlen (others v d)).
Proof.
  intros Hv zeros. destruct (variable_segment v Hv) as (_ & _ & H1 & H2 & _ & H4). set (count := zlen (others v d)) in *.
  match goal with |- for_loop _ _ ?body _ = _ =>
    destruct (for_loop_inv (fun j '(sp1, sp2, k) => let js := filter (fun i => zget (to_state gs) i <> d) (seqZ (sbase v) (j - sbase v)) in
      sp1 = map (zget (from_state gs)) js ++ replicate (Z.to_nat (count - zlen js)) 0 /\ sp2 = map (zget (to_state gs)) js ++ replicate (Z.to_nat (count - zlen js)) 0 /\
      k = zlen js) (Z.to_nat (sbase (v + 1) - sbase v)) (sbase v) body (zeros, zeros, 0)) as ([[sp1 sp2] k] & -> & -> & -> & ->)
  end.
  - rewrite Z.sub_diag. change (seqZ (sbase v) 0) with (@nil Z). rewrite filter_nil. cbv zeta. change (zlen (@nil Z)) with 0. by rewrite !Z.sub_0_r.
  - intros j [[sp1 sp2] k] Hj (-> & -> & ->). rewrite rd_zget by lia. cbn [rbind]. cbv zeta. rewrite filter_next by lia.
    pose proof (others_prefix v d (j + 1) ltac:(lia)) as Hle. rewrite filter_next in Hle by lia. fold count in Hle.
    set (js := filter (fun i => zget (to_state gs) i <> d) (seqZ (sbase v) (j - sbase v))) in *.
    destruct (Z.eqb_spec (zget (to_state gs) j) d) as [E|Ne]; [eexists; split; [done|]; rewrite decide_False by tauto; by rewrite app_nil_r|].
    rewrite decide_True in Hle |- * by done. rewrite zlen_snoc in Hle. rewrite rd_zget by (unfold ngotos in *; lia). cbn [rbind].
    replace (Z.to_nat (count - zlen js)) with (S (Z.to_nat (count - zlen (js ++ [j])))) by (rewrite zlen_snoc; lia).
    assert (W1 := wr_next (map (zget (from_state gs)) js) 0 (zget (from_state gs) j) (Z.to_nat (count - zlen (js ++ [j])))).
    assert (W2 := wr_next (map (zget (to_state gs)) js) 0 (zget (to_state gs) j) (Z.to_nat (count - zlen (js ++ [j])))).
    rewrite zlen_map in W1, W2. rewrite W1. cbn [rbind]. rewrite W2. cbn [rbind]. eexists. split; [done|]. cbv beta iota. rewrite !map_app, zlen_snoc. done.
  - replace (sbase v + Z.of_nat (Z.to_nat (sbase (v + 1) - sbase v)) - sbase v) with (sbase (v + 1) - sbase v) by lia. fold (others v d). fold count.
    rewrite Z.sub_diag. cbn [replicate Z.to_nat]. by rewrite !app_nil_r.
Qed.

Lemma others_entries vs i v d : 0 <= v < nvars g -> vector vs i (map (zget (from_state gs)) (others v d)) (map (zget (to_state gs)) (others v d)) ->
  has_entries vs i (goto_entry (start_symbol g + v) d).
Proof.
  intros Hv Hvec. eexists _, _. split; [exact Hvec|]. split; [by rewrite !zlen_map|]. split; [|split].
  - apply NoDup_fmap_2_strong; [|apply NoDup_filter, NoDup_seqZ]. intros j k [Hj _]%elem_of_others [Hk _]%elem_of_others E.
    destruct (Z.lt_trichotomy j k) as [H|[H|H]]; [|done|].
    + pose proof (segment_sorted g ps cores ss rs Au gs G v j k Hv ltac:(lia) ltac:(lia)). lia.
    + pose proof (segment_sorted g ps cores ss rs Au gs G v k j Hv ltac:(lia) ltac:(lia)). lia.
  - apply Forall_forall. intros x (j & -> & [Hj _]%elem_of_others)%list_elem_of_fmap. destruct (segment_trans v j Hv Hj) as [_ Ht].
    destruct (trans_states _ _ _ _ _ _ Ht) as [[? ?] _]. pose proof n_nonneg. lia.
  - intros x y. rewrite entry_of_map. split.
    + intros (j & [Hj Hd]%elem_of_others & <- & <-). split; [|done]. by apply segment_trans.
    + intros [Ht Hd]. destruct (goto_number g ps L cores ss rs Au gs G x _ y Ht ltac:(lia)) as (k & (_ & <- & <-) & Hk).
      replace (start_symbol g + v - ntok) with v in Hk by (unfold ntokens; lia). exists k. rewrite elem_of_others. split; [by split|done].
Qed.

Lemma save_column_ok vs v d : 0 < v < nvars g -> sizes nvec vs -> has_entries vs (v - 1 + 2 * n) none ->
  exists vs', save_column n gs (v - 1) v d vs = Ok vs' /\ sizes nvec vs' /\ has_entries vs' (v - 1 + 2 * n) (goto_entry (start_symbol g + v) d) /\
    forall u E, 0 <= u -> u <> v - 1 + 2 * n -> has_entries vs u E -> has_entries vs' u E.
Proof.
  intros Hv Hz Hn. pose proof n_nonneg. destruct (variable_segment v) as (E1 & E2 & H1 & H2 & H3 & H4); [lia|].
  unfold save_column. rewrite E1, E2. cbn [rbind]. rewrite count_others by lia. cbn [rbind]. destruct (Z.eqb_spec (zlen (others v d)) 0) as [E|Ne].
  - exists vs. split; [done|]. split; [done|]. split; [|done]. apply empty_entries; [done|]. intros x y [Ht Hd].
    destruct (goto_number g ps L cores ss rs Au gs G x _ y Ht ltac:(lia)) as (k & (_ & <- & <-) & Hk).
    replace (start_symbol g + v - ntok) with v in Hk by (unfold ntokens; lia).
    assert (Hin : k ∈ others v d) by (by apply elem_of_others). destruct (others v d); [by apply elem_of_nil in Hin|]. rewrite zlen_cons in E. pose proof (zlen_nonneg l). lia.
  - rewrite save_loop_ok by lia. cbn [rbind]. pose proof (zlen_nonneg (others v d)). rewrite !rd_zget by (rewrite zlen_map; lia). cbn [rbind].
    assert (Hle : zlen (others v d) <= sbase (v + 1) - sbase v).
    { unfold others. pose proof (length_filter (fun i => zget (to_state gs) i <> d) (seqZ (sbase v) (sbase (v + 1) - sbase v))) as Q. rewrite length_seqZ in Q. unfold zlen. lia. }
    rewrite (s16_short (zlen (others v d))) by (unfold MAXSHORT in *; lia).
    match goal with |- context [set_vector _ _ _ _ _ ?w] => destruct (set_vector_ok nvec vs (v - 1 + 2 * n) (map (zget (from_state gs)) (others v d)) (map (zget (to_state gs)) (others v d))
      (zlen (others v d)) w Hz) as (vs' & -> & Hz' & Hvec & Hb); [lia|by rewrite zlen_map|] end.
    exists vs'. split; [done|]. split; [done|]. split; [apply others_entries; [lia|done]|]. intros u E Hu Nu. by apply (but_entries (v - 1 + 2 * n)).
Qed.

(** [yydgoto], and the vectors of the variables *)
Definition goto_vectors (vs : vectors) (dgoto : list Z) : Prop := zlen dgoto = nvars g - 1 /\ forall v, 0 < v < nvars g ->
  exists d, rd dgoto (v - 1) = Ok d /\ 0 <= d < n /\ has_entries vs (v - 1 + 2 * n) (goto_entry (start_symbol g + v) d).

Lemma goto_actions_ok vs : token_vectors vs -> exists vs' dgoto, goto_actions g sv n gs vs = Ok (vs', dgoto) /\
  sizes nvec vs' /\ goto_vectors vs' dgoto /\ (forall v E, 0 <= v < 2 * n -> has_entries vs v E -> has_entries vs' v E) /\ has_entries vs' (nvec - 1) none.
Proof.
  intros (Hz & _ & Hn). pose proof n_nonneg. pose proof nvars_positive. unfold goto_actions. destruct (sv_zlen _ _ Sv) as [Zs Zm]. pose proof (lo_start _ _ L).
  match goal with |- context [for_loop _ _ ?body _] => destruct (for_loop_inv (fun i '(vs', dgoto) => sizes nvec vs' /\ zlen dgoto = i - 1 /\
      (forall v, 0 < v < i -> exists d, rd dgoto (v - 1) = Ok d /\ 0 <= d < n /\ has_entries vs' (v - 1 + 2 * n) (goto_entry (start_symbol g + v) d)) /\
      (forall v E, 0 <= v < 2 * n -> has_entries vs v E -> has_entries vs' v E) /\ forall v, i - 1 + 2 * n <= v < nvec -> has_entries vs' v none)
    (Z.to_nat (nvars g - 1)) 1 body (vs, [])) as ([vs' dgoto] & -> & Hz' & Zd & Hd & Hk & Hr) end.
  - split; [done|]. split; [done|]. split; [lia|]. split; [done|]. intros v Hv. apply Hn. lia.
  - intros i [vs1 dg] Hi (Hz1 & Zd & Hd & Hk & Hr). destruct (default_goto_ok i) as (d & -> & Hdr); [lia|]. cbn [rbind].
    rewrite rd_zget by (unfold nvars, ntokens in *; lia). cbn [rbind]. rewrite (sv_var _ _ Sv) by lia.
    destruct (save_column_ok vs1 i d) as (vs2 & -> & Hz2 & He & Hb); [lia|done|apply Hr; lia|]. cbn [rbind]. eexists. split; [done|].
    split; [done|]. split; [rewrite zlen_snoc; lia|]. split; [|split].
    + intros v Hv. destruct (decide (v = i)) as [->|]; [exists d; split; [|done]; rewrite <- Zd; apply rd_mid|].
      destruct (Hd v) as (d' & Ed & Hd' & He'); [lia|]. exists d'. split; [by apply rd_grown|]. split; [done|]. apply Hb; [lia|lia|done].
    + intros v E Hv H'. apply Hb; [lia|lia|]. by apply Hk.
    + intros v Hv. apply Hb; [lia|lia|]. apply Hr. lia.
  - exists vs', dgoto. split; [done|]. replace (1 + Z.of_nat (Z.to_nat (nvars g - 1))) with (nvars g) in * by lia.
    split; [done|]. split; [by split|]. split; [done|]. apply Hr. lia.
Qed.

(** ** Reading the packed tables *)

(** the place [x] of the vector [v] holds [y] *)
Definition slot (p : packing) (v x y : Z) : Prop := zget (base p) v <> 0 /\ 0 <= zget (base p) v + x <= high p /\
  zget (check_ p) (zget (base p) v + x) = x /\ zget (table p) (zget (base p) v + x) = y.

Lemma packs_slot vs p v E x y : packs nvec vs p -> zlen (tally vs) = nvec -> 0 <= v < nvec -> has_entries vs v E -> 0 <= x -> slot p v x y <-> E x y.
Proof.
  intros (_ & _ & _ & _ & _ & Hu & _ & He) Zt Hv (from & to & Hvec & Hz & _ & _ & HE) Hx. rewrite <- HE.
  assert (Ut : used nvec vs v <-> 0 < zlen from).
  { destruct Hvec as (_ & _ & Et). rewrite rd_zget in Et by lia. injection Et as Et. unfold used. rewrite Et. tauto. }
  split.
  - intros (Hb & Hr & Hc & Ht). apply Hu in Hb; [|done]. destruct (He v from to x Hb Hvec Hx) as [Hi Hy].
    destruct (proj2 Hi (conj Hr Hc)) as [y' Hy']. by rewrite <- Ht, (Hy y' Hy').
  - intros Hy. assert (Hus : used nvec vs v).
    { apply Ut. destruct Hy as (k & Ek & _). apply lookup_lt_Some in Ek. unfold zlen. lia. }
    destruct (He v from to x Hus Hvec Hx) as [Hi Ht]. destruct (proj1 Hi (ex_intro _ y Hy)) as [Hr Hc]. split; [by apply Hu|]. split; [done|]. split; [done|]. by apply Ht.
Qed.

(** the tables give the actions and the gotos of each state *)
Record packed_for (p : packing) (dgoto : list Z) : Prop := {
  po_sizes : zlen (base p) = nvec /\ zlen (check_ p) = zlen (table p) /\ 0 <= high p < zlen (table p) /\ zlen (table p) <= MAXTABLE + 200 /\ zlen dgoto = nvars g - 1;
  po_base : forall v, 0 <= v < nvec -> - MAXSHORT <= zget (base p) v <= MAXSHORT;
  po_check : forall i, 0 <= i < zlen (table p) -> -1 <= zget (check_ p) i <= MAXSHORT;
  po_shift : forall q row x y, rd (parser info) q = Ok row -> 0 <= x -> slot p q x y <-> shift_entry row x y;
  po_reduce : forall q row d x y, rd (parser info) q = Ok row -> rd (Mkpar.defred info) q = Ok d -> 0 <= x -> slot p (n + q) x y <-> reduce_entry row d x y;
  po_goto : forall v, 0 < v < nvars g -> exists d, rd dgoto (v - 1) = Ok d /\ 0 <= d < n /\
    forall x y, 0 <= x -> slot p (2 * n + (v - 1)) x y <-> goto_entry (start_symbol g + v) d x y }.

Lemma all_vectors_ok vs dgoto : nvec <= MAXSHORT + 1 -> sizes nvec vs ->
  (forall q row d, rd (parser info) q = Ok row -> rd (Mkpar.defred info) q = Ok d ->
     has_entries vs q (shift_entry row) /\ has_entries vs (n + q) (reduce_entry row d)) ->
  goto_vectors vs dgoto -> has_entries vs (nvec - 1) none -> vectors_ok nvec vs.
Proof.
  intros Hm Hz Ht [_ Hg] Hl. constructor; [done|done|]. intros v Hv.
  enough (exists E, has_entries vs v E) as (E & from & to & H1 & H2 & H3 & H4 & _) by (exists from, to; by split_and!).
  assert (Row : forall q, 0 <= q < n -> exists row d, rd (parser info) q = Ok row /\ rd (Mkpar.defred info) q = Ok d).
  { intros q Hq. destruct (rd_in_range (parser info) q) as [row Er]; [by rewrite (pf_states _ _ _ _ _ Pf)|]. destruct (pf_default _ _ _ _ _ Pf q row Er) as (d & Ed & _). by exists row, d. }
  destruct (decide (v < n)) as [|H1]; [|destruct (decide (v < 2 * n)) as [|H2]; [|destruct (decide (v < nvec - 1)) as [|H3]]].
  - destruct (Row v) as (row & d & Er & Ed); [lia|]. destruct (Ht v row d Er Ed) as [? _]. by eexists.
  - destruct (Row (v - n)) as (row & d & Er & Ed); [lia|]. destruct (Ht _ row d Er Ed) as [_ H]. replace (n + (v - n)) with v in H by lia. by eexists.
  - destruct (Hg (v - 2 * n + 1)) as (d & _ & _ & H); [lia|]. replace (v - 2 * n + 1 - 1 + 2 * n) with v in H by lia. by eexists.
  - replace v with (nvec - 1) by lia. by eexists.
Qed.

(** the table is too short for the vectors: packed in their order, some of them leave no room
    for the next one *)
Definition table_too_short : Prop := exists vs dgoto order,
  (let* vs := token_actions g sv info (Vectors (replicate (Z.to_nat nvec) []) (replicate (Z.to_nat nvec) []) (replicate (Z.to_nat nvec) 0) (replicate (Z.to_nat nvec) 0)) in
   goto_actions g sv n gs vs) = Ok (vs, dgoto) /\
  vectors_ok nvec vs /\ sort_actions nvec vs = Ok order /\ table_full n nvec vs order.

Lemma output_actions_ok : nvec <= MAXSHORT + 1 -> (exists p dgoto, output_actions g sv info gs = Ok (p, dgoto) /\ packed_for p dgoto) \/
  (output_actions g sv info gs = Raise (Failure "maximum table size exceeded") /\ table_too_short).
Proof.
  intros Hm. pose proof n_nonneg. pose proof nvars_positive. unfold output_actions. cbv zeta. rewrite (pf_states _ _ _ _ _ Pf).
  destruct token_actions_ok as (vs & Et & Tv). rewrite Et. cbn [rbind]. destruct (goto_actions_ok vs Tv) as (vs' & dgoto & Eg & Hz & Hg & Hk & Hl). rewrite Eg. cbn [rbind].
  assert (Ht : forall q row d, rd (parser info) q = Ok row -> rd (Mkpar.defred info) q = Ok d ->
     has_entries vs' q (shift_entry row) /\ has_entries vs' (n + q) (reduce_entry row d)).
  { intros q row d Er Ed. destruct Tv as (_ & Ht & _). apply rd_range in Er as Hq. rewrite (pf_states _ _ _ _ _ Pf) in Hq.
    destruct (Ht q row d Er Ed). split; (apply Hk; [lia|done]). }
  pose proof (all_vectors_ok vs' dgoto Hm Hz Ht Hg Hl) as Vok. destruct (pack_ok n nvec vs' Vok) as (order & Eo & _ & _ & Hpk). rewrite Eo. cbn [rbind].
  destruct Hpk as [(p & -> & Hp)|[-> Hf]]; [|right; split; [done|]; exists vs', dgoto, order; by rewrite Et]. cbn [rbind]. left. exists p, dgoto. split; [done|].
  pose proof Hp as (P1 & P2 & P3 & P4 & P5 & _ & P7 & _). assert (Zt : zlen (tally vs') = nvec) by apply Hz. constructor.
  - split_and!; [done|done|lia|lia|lia|apply Hg].
  - done.
  - done.
  - intros q row x y Er Hx. destruct (pf_default _ _ _ _ _ Pf q row Er) as (d & Ed & _). apply rd_range in Er as Hq. rewrite (pf_states _ _ _ _ _ Pf) in Hq.
    apply (packs_slot vs'); [done|done|lia|by apply (Ht q row d)|done].
  - intros q row d x y Er Ed Hx. apply rd_range in Er as Hq. rewrite (pf_states _ _ _ _ _ Pf) in Hq. apply (packs_slot vs'); [done|done|lia|by apply (Ht q row d)|done].
  - intros v Hv. destruct (proj2 Hg v Hv) as (d & Ed & Hd & He). exists d. split; [done|]. split; [done|]. intros x y Hx. rewrite Z.add_comm. apply (packs_slot vs'); [done|done|lia|done|done].
Qed.

End States.
