(* ===== verification/Mlvalues.v ===== *)
(** * Values and headers ([ocaml/runtime/caml/mlvalues.h])

    The 64-bit representation of OCaml integers as tagged words, the block
    header (tag, color, size, reserved byte of mixed blocks) and the closure
    information word.  A machine word holding a [value] is a [Z] in the range of
    [intnat]; headers are in the range of [uintnat]. *)

From S2P Require Import Prelude.
#[local] Open Scope Z_scope.

(** ** Longs vs blocks *)

Definition Is_long (x : Z) : bool := negb (Z.land x 1 =? 0).
Definition Is_block (x : Z) : bool := Z.land x 1 =? 0.
Definition Val_long (x : Z) : Z := s64 (s64 (u64 (Z.shiftl (u64 x) 1)) + 1).
Definition Long_val (x : Z) : Z := Z.shiftr x 1.
Definition Max_long : Z := s64 (Z.shiftl 1 62) - 1.
Definition Min_long : Z := - s64 (Z.shiftl 1 62).
Definition Val_int (x : Z) : Z := Val_long x.
Definition Int_val (x : Z) : Z := s32 (Long_val x).
Definition Unsigned_long_val (x : Z) : Z := Z.shiftr (u64 x) 1.

Definition Val_bool (b : bool) : Z := Val_int (if b then 1 else 0).
Definition Val_false : Z := Val_int 0.
Definition Val_true : Z := Val_int 1.
Definition Val_not (x : Z) : Z := Val_false + Val_true - x.
Definition Val_unit : Z := Val_int 0.

(** ** Headers *)

Definition HEADER_BITS : Z := 64.
Definition HEADER_RESERVED_BITS : Z := 8.   (* always 8 for flambda-backend *)
Definition HEADER_TAG_BITS : Z := 8.
Definition HEADER_TAG_MASK : Z := Z.shiftl 1 HEADER_TAG_BITS - 1.
Definition HEADER_COLOR_BITS : Z := 2.
Definition HEADER_COLOR_SHIFT : Z := HEADER_TAG_BITS.
Definition HEADER_COLOR_MASK : Z :=
  Z.shiftl (Z.shiftl 1 HEADER_COLOR_BITS - 1) HEADER_COLOR_SHIFT.
Definition HEADER_WOSIZE_BITS : Z :=
  HEADER_BITS - HEADER_TAG_BITS - HEADER_COLOR_BITS - HEADER_RESERVED_BITS.
Definition HEADER_WOSIZE_SHIFT : Z := HEADER_COLOR_SHIFT + HEADER_COLOR_BITS.
Definition HEADER_WOSIZE_MASK : Z :=
  Z.shiftl (Z.shiftl 1 HEADER_WOSIZE_BITS - 1) HEADER_WOSIZE_SHIFT.
Definition HEADER_RESERVED_SHIFT : Z := HEADER_BITS - HEADER_RESERVED_BITS.
Definition Max_wosize : Z := Z.shiftl 1 HEADER_WOSIZE_BITS - 1.

Definition Tag_hd (hd : Z) : Z := Z.land hd HEADER_TAG_MASK.
Definition Hd_with_tag (hd tag : Z) : Z :=
  Z.lor (Z.land hd (Z.lnot HEADER_TAG_MASK)) tag.
Definition Allocated_wosize_hd (hd : Z) : Z :=
  Z.shiftr (Z.land hd HEADER_WOSIZE_MASK) HEADER_WOSIZE_SHIFT.
Definition Cleanhd_hd (hd : Z) : Z :=
  Z.land hd (Z.lor HEADER_TAG_MASK HEADER_WOSIZE_MASK).
Definition Reserved_hd (hd : Z) : Z := Z.shiftr hd HEADER_RESERVED_SHIFT.
Definition Hd_reserved (res : Z) : Z := u64 (Z.shiftl res HEADER_RESERVED_SHIFT).
Definition Color_hd (hd : Z) : Z := Z.land hd HEADER_COLOR_MASK.
Definition Hd_with_color (hd color : Z) : Z :=
  Z.lor (Z.land hd (Z.lnot HEADER_COLOR_MASK)) color.

Definition Is_mixed_block_reserved (res : Z) : bool := 0 <? res.
Definition Reserved_mixed_block_scannable_wosize_native (sz : Z) : Z := sz + 1.
Definition Mixed_block_scannable_wosize_reserved_native (res : Z) : Z := res - 1.
Definition Scannable_wosize_reserved_native (res sz : Z) : Z :=
  if Is_mixed_block_reserved res
  then Mixed_block_scannable_wosize_reserved_native res else sz.
Definition Scannable_wosize_hd_native (hd : Z) : Z :=
  let res := Reserved_hd hd in
  if Is_mixed_block_reserved res
  then Mixed_block_scannable_wosize_reserved_native res
  else Allocated_wosize_hd hd.

(** the header of a statically allocated block *)
Definition Caml_out_of_heap_header_with_reserved (wosize tag reserved : Z) : Z :=
  u64 (Hd_reserved reserved + Z.shiftl wosize HEADER_WOSIZE_SHIFT
       + Z.shiftl 3 HEADER_COLOR_SHIFT + tag).
Definition Caml_out_of_heap_header (wosize tag : Z) : Z :=
  Caml_out_of_heap_header_with_reserved wosize tag 0.

(** ** Tags *)

Definition Forcing_tag : Z := 244.
Definition Cont_tag : Z := 245.
Definition Lazy_tag : Z := 246.
Definition Closure_tag : Z := 247.
Definition Object_tag : Z := 248.
Definition Infix_tag : Z := 249.
Definition Forward_tag : Z := 250.
Definition No_scan_tag : Z := 251.
Definition Abstract_tag : Z := 251.
Definition String_tag : Z := 252.
Definition Double_tag : Z := 253.
Definition Double_array_tag : Z := 254.
Definition Custom_tag : Z := 255.

(** ** The closure information word *)

Definition Arity_closinfo (info : Z) : Z := Z.shiftr (s64 info) 56.
Definition Start_env_closinfo (info : Z) : Z := Z.shiftr (u64 (Z.shiftl (u64 info) 9)) 10.
Definition Is_last_closinfo (info : Z) : Z := Z.shiftr (u64 (Z.shiftl (u64 info) 8)) 63.
Definition Make_closinfo (arity delta is_last : Z) : Z :=
  u64 (u64 (Z.shiftl (u64 arity) 56) + u64 (Z.shiftl is_last 55)
       + u64 (Z.shiftl delta 1) + 1).

(** ** Sizes *)

Definition Whsize_wosize (sz : Z) : Z := sz + 1.
Definition Bsize_wsize (sz : Z) : Z := sz * 8.
Definition Wsize_bsize (sz : Z) : Z := sz / 8.
Definition Bhsize_wosize (sz : Z) : Z := Bsize_wsize (Whsize_wosize sz).

(** ** Tagged integers *)

Lemma Val_long_eq n : Val_long n = s64 (2 * n + 1).
Proof. unfold Val_long. rewrite Z.shiftl_mul_pow2 by lia. solve_word. Qed.

Lemma Val_long_s63 n : is_s63 n -> Val_long n = 2 * n + 1.
Proof. rewrite Val_long_eq. solve_word. Qed.

Lemma Long_val_eq x : Long_val x = x / 2.
Proof. unfold Long_val. by rewrite Z.shiftr_div_pow2 by lia. Qed.

Lemma Long_val_long n : Long_val (Val_long n) = s63 n.
Proof. rewrite Long_val_eq, Val_long_eq. solve_word. Qed.

Lemma Long_val_long_id n : is_s63 n -> Long_val (Val_long n) = n.
Proof. intros. rewrite Long_val_long. by apply s63_id. Qed.

Lemma Int_val_int n : is_s32 n -> Int_val (Val_int n) = n.
Proof.
  intros H. unfold Int_val, Val_int. rewrite Long_val_long. solve_word.
Qed.

Lemma Val_long_lt a b : is_s63 a -> is_s63 b -> (Val_long a <? Val_long b) = (a <? b).
Proof. intros. rewrite !Val_long_s63 by done. zcases. Qed.

Lemma Val_long_eqb a b : is_s63 a -> is_s63 b -> (Val_long a =? Val_long b) = (a =? b).
Proof.
  intros. rewrite !Val_long_s63 by done.
  destruct (Z.eqb_spec (2 * a + 1) (2 * b + 1)), (Z.eqb_spec a b); lia || done.
Qed.

Lemma Is_long_odd x : Is_long x = Z.odd x.
Proof.
  unfold Is_long. change 1 with (2 ^ 0) at 1. rewrite land_pow2_nonzero by lia.
  symmetry. apply Z.bit0_odd.
Qed.

Lemma Is_long_Val_long n : Is_long (Val_long n) = true.
Proof.
  rewrite Is_long_odd, Val_long_eq. apply Z.odd_spec. unfold s64.
  exists ((n - 2 ^ 63 * ((2 * n + 1 + 2 ^ 63) / 2 ^ 64))). zlia.
Qed.

Lemma Val_long_Long_val v : Is_long v = true -> is_s64 v ->
  is_s63 (Long_val v) /\ Val_long (Long_val v) = v.
Proof.
  rewrite Is_long_odd, Long_val_eq. intros [k ->]%Z.odd_spec Hv.
  assert (E : (2 * k + 1) / 2 = k) by zlia. rewrite E.
  assert (Hk : is_s63 k) by (unfold is_s63, is_s64 in *; lia).
  split; [done|by rewrite Val_long_s63].
Qed.

#[export] Hint Rewrite Long_val_long : word.
#[export] Hint Rewrite Long_val_long_id Int_val_int using (assumption || solve_word) : word.

(** ** Bit fields *)

(** a field of [n] bits at position [s] *)
Lemma land_field x n s :
  0 <= n -> 0 <= s -> Z.land x (Z.shiftl (Z.ones n) s) = (x / 2 ^ s) mod 2 ^ n * 2 ^ s.
Proof.
  intros Hn Hs. rewrite <- Z.land_ones, <- Z.shiftl_mul_pow2, <- Z.shiftr_div_pow2 by lia.
  zbits.
Qed.

Lemma ldiff_field x m : Z.land x (Z.lnot m) = x - Z.land x m.
Proof.
  rewrite <- Z.ldiff_land.
  assert (H : Z.ldiff x m + Z.land x m = x); [|lia].
  rewrite Z.add_nocarry_lxor.
  - zbits. rewrite Z.ldiff_spec. btauto.
  - zbits. rewrite Z.ldiff_spec. btauto.
Qed.

Lemma lor_add x y s : 0 <= s -> (x / 2 ^ s) * 2 ^ s = x -> 0 <= y < 2 ^ s -> Z.lor x y = x + y.
Proof.
  intros Hs Hx Hy. rewrite Z.add_nocarry_lxor, Z.lxor_lor; [done| |].
  all: rewrite <- Hx, <- Z.shiftr_div_pow2, <- Z.shiftl_mul_pow2 by lia.
  all: zbits; rewrite ?(testbit_high y s) by lia; try btauto; done.
Qed.

Ltac hd_consts :=
  change HEADER_TAG_MASK with (Z.shiftl (Z.ones 8) 0) in *;
  change HEADER_COLOR_MASK with (Z.shiftl (Z.ones 2) 8) in *;
  change HEADER_WOSIZE_MASK with (Z.shiftl (Z.ones 46) 10) in *;
  change HEADER_WOSIZE_SHIFT with 10 in *;
  change HEADER_RESERVED_SHIFT with 56 in *;
  change HEADER_COLOR_SHIFT with 8 in *;
  change Max_wosize with (2 ^ 46 - 1) in *.

Lemma Tag_hd_eq hd : Tag_hd hd = hd mod 2 ^ 8.
Proof. unfold Tag_hd. hd_consts. rewrite land_field by lia. zlia. Qed.

Lemma Color_hd_eq hd : Color_hd hd = (hd / 2 ^ 8) mod 2 ^ 2 * 2 ^ 8.
Proof. unfold Color_hd. hd_consts. by rewrite land_field by lia. Qed.

Lemma Allocated_wosize_hd_eq hd : Allocated_wosize_hd hd = (hd / 2 ^ 10) mod 2 ^ 46.
Proof.
  unfold Allocated_wosize_hd. hd_consts.
  by rewrite land_field, Z.shiftr_div_pow2, Z.div_mul by lia.
Qed.

Lemma Reserved_hd_eq hd : Reserved_hd hd = hd / 2 ^ 56.
Proof. unfold Reserved_hd. hd_consts. by rewrite Z.shiftr_div_pow2 by lia. Qed.

Lemma lor_disjoint x y : Z.land x y = 0 -> Z.lor x y = x + y.
Proof. intros H. by rewrite Z.add_nocarry_lxor, Z.lxor_lor. Qed.

Lemma make_header_eq wosize tag reserved :
  0 <= wosize <= Max_wosize -> 0 <= tag < 256 -> 0 <= reserved < 256 ->
  Caml_out_of_heap_header_with_reserved wosize tag reserved =
    reserved * 2 ^ 56 + wosize * 2 ^ 10 + 3 * 2 ^ 8 + tag.
Proof.
  intros. unfold Caml_out_of_heap_header_with_reserved, Hd_reserved. hd_consts.
  rewrite !Z.shiftl_mul_pow2 by lia. solve_word.
Qed.

Lemma Hd_with_tag_eq hd tag :
  0 <= tag < 256 -> Hd_with_tag hd tag = hd - hd mod 256 + tag.
Proof.
  intros Ht. unfold Hd_with_tag. hd_consts. rewrite ldiff_field, land_field by lia.
  rewrite (lor_add _ _ 8) by zlia. zlia.
Qed.

Lemma Hd_with_color_eq hd c :
  0 <= c < 4 ->
  Hd_with_color hd (c * 2 ^ 8) = hd - Color_hd hd + c * 2 ^ 8.
Proof.
  intros Hc. unfold Hd_with_color. rewrite lor_disjoint.
  - rewrite ldiff_field. done.
  - hd_consts. rewrite <- Z.shiftl_mul_pow2 by lia.
    zbits; rewrite ?(testbit_high c 2) by lia; try btauto; done.
Qed.

(** the header with the given fields *)
Definition header_of (t c w r : Z) : Z := t + 2 ^ 8 * (c + 2 ^ 2 * (w + 2 ^ 46 * r)).

Lemma split_low a b n : 0 <= a < n -> (a + n * b) mod n = a /\ (a + n * b) / n = b.
Proof.
  intros Ha. split; symmetry.
  - apply (Z.mod_unique_pos _ _ b); lia.
  - apply (Z.div_unique_pos _ _ _ a); lia.
Qed.

Lemma header_of_fields t c w r :
  0 <= t < 2 ^ 8 -> 0 <= c < 2 ^ 2 -> 0 <= w < 2 ^ 46 ->
  let hd := header_of t c w r in
  Tag_hd hd = t /\ Color_hd hd = c * 2 ^ 8 /\ Allocated_wosize_hd hd = w /\ Reserved_hd hd = r.
Proof.
  intros Ht Hc Hw hd.
  rewrite Tag_hd_eq, Color_hd_eq, Allocated_wosize_hd_eq, Reserved_hd_eq.
  destruct (split_low t (c + 2 ^ 2 * (w + 2 ^ 46 * r)) (2 ^ 8) Ht) as [E1 E2].
  destruct (split_low c (w + 2 ^ 46 * r) (2 ^ 2) Hc) as [E3 E4].
  destruct (split_low w r (2 ^ 46) Hw) as [E5 E6].
  fold (header_of t c w r) in E1, E2. fold hd in E1, E2.
  change (2 ^ 56) with (2 ^ 8 * 2 ^ 2 * 2 ^ 46). change (2 ^ 10) with (2 ^ 8 * 2 ^ 2).
  rewrite <- !Z.div_div, E1, E2, E3, E4, E5, E6 by lia. done.
Qed.

Lemma header_of_split hd :
  is_u64 hd -> exists t c w r, 0 <= t < 2 ^ 8 /\ 0 <= c < 2 ^ 2 /\ 0 <= w < 2 ^ 46 /\
    0 <= r < 2 ^ 8 /\ hd = header_of t c w r.
Proof.
  intros H. unfold header_of.
  exists (hd mod 2 ^ 8), (hd / 2 ^ 8 mod 2 ^ 2), (hd / 2 ^ 8 / 2 ^ 2 mod 2 ^ 46),
    (hd / 2 ^ 8 / 2 ^ 2 / 2 ^ 46).
  split_and!; try (apply Z.mod_pos_bound; lia).
  - apply Z.div_pos; [apply Z.div_pos; [apply Z.div_pos|]|]; unfold is_u64 in *; lia.
  - rewrite !Z.div_div by lia. apply Z.div_lt_upper_bound; unfold is_u64 in *; lia.
  - pose proof (Z.div_mod hd (2 ^ 8)). pose proof (Z.div_mod (hd / 2 ^ 8) (2 ^ 2)).
    pose proof (Z.div_mod (hd / 2 ^ 8 / 2 ^ 2) (2 ^ 46)). lia.
Qed.

Lemma header_of_u64 t c w r :
  0 <= t < 2 ^ 8 -> 0 <= c < 2 ^ 2 -> 0 <= w < 2 ^ 46 -> 0 <= r < 2 ^ 8 ->
  is_u64 (header_of t c w r).
Proof. unfold header_of, is_u64. lia. Qed.

(** changing the color of a header changes that field only *)
Lemma Hd_with_color_fields hd' c' : is_u64 hd' -> 0 <= c' < 4 ->
  let hd2 := Hd_with_color hd' (Z.shiftl c' HEADER_COLOR_SHIFT) in
  is_u64 hd2 /\ Tag_hd hd2 = Tag_hd hd' /\ Allocated_wosize_hd hd2 = Allocated_wosize_hd hd' /\
  Color_hd hd2 = Z.shiftl c' HEADER_COLOR_SHIFT /\ Reserved_hd hd2 = Reserved_hd hd'.
Proof.
  intros Hhd' Hc' hd2. unfold hd2. hd_consts. rewrite Z.shiftl_mul_pow2 by lia.
  rewrite Hd_with_color_eq by done.
  destruct (header_of_split hd' Hhd') as (t & c & w & r & Bt & Bc & Bw & Br & ->).
  destruct (header_of_fields t c w r) as (-> & -> & -> & ->); [done..|].
  replace (header_of t c w r - c * 2 ^ 8 + c' * 2 ^ 8) with (header_of t c' w r)
    by (unfold header_of; lia).
  destruct (header_of_fields t c' w r) as (-> & -> & -> & ->); [done..|].
  split; [by apply header_of_u64|done].
Qed.

(** The header word keeps its four fields apart: building a header and reading
    any field back gives the field that was stored, with the color that marks a
    block outside the heap; replacing the tag or the color of any header changes
    that field only; the scannable size of a mixed block survives its encoding
    in the reserved byte; and clearing the reserved and color bits is the
    identity on sizes and tags. *)
Theorem header_fields wosize tag reserved :
  0 <= wosize <= Max_wosize -> 0 <= tag < 256 -> 0 <= reserved < 256 ->
  let hd := Caml_out_of_heap_header_with_reserved wosize tag reserved in
  is_u64 hd /\
  Tag_hd hd = tag /\ Allocated_wosize_hd hd = wosize /\ Reserved_hd hd = reserved /\
  Color_hd hd = Z.shiftl 3 HEADER_COLOR_SHIFT /\
  Cleanhd_hd hd = wosize * 2 ^ 10 + tag /\
  Scannable_wosize_hd_native hd = (if reserved =? 0 then wosize else reserved - 1) /\
  (forall hd' tag', is_u64 hd' -> 0 <= tag' < 256 ->
     let hd2 := Hd_with_tag hd' tag' in
     is_u64 hd2 /\ Tag_hd hd2 = tag' /\ Allocated_wosize_hd hd2 = Allocated_wosize_hd hd' /\
     Color_hd hd2 = Color_hd hd' /\ Reserved_hd hd2 = Reserved_hd hd') /\
  (forall hd' c, is_u64 hd' -> 0 <= c < 4 ->
     let hd2 := Hd_with_color hd' (Z.shiftl c HEADER_COLOR_SHIFT) in
     is_u64 hd2 /\ Tag_hd hd2 = Tag_hd hd' /\ Allocated_wosize_hd hd2 = Allocated_wosize_hd hd' /\
     Color_hd hd2 = Z.shiftl c HEADER_COLOR_SHIFT /\ Reserved_hd hd2 = Reserved_hd hd').
Proof.
  intros Hw Ht Hr hd. hd_consts.
  assert (E : hd = header_of tag 3 wosize reserved).
  { unfold hd, header_of. rewrite make_header_eq by done. lia. }
  destruct (header_of_fields tag 3 wosize reserved) as (E1 & E2 & E3 & E4); [lia..|].
  rewrite <- E in E1, E2, E3, E4. rewrite E1, E2, E3, E4.
  split_and!; try done.
  - rewrite E. apply header_of_u64; lia.
  - unfold Cleanhd_hd. hd_consts. change (Z.lor _ _) with (Z.ones 8 + Z.shiftl (Z.ones 46) 10).
    rewrite <- (lor_disjoint (Z.ones 8)) by done.
    rewrite Z.land_lor_distr_r, Z.land_ones, land_field by lia.
    rewrite <- Tag_hd_eq, <- Allocated_wosize_hd_eq, E1, E3.
    rewrite Z.lor_comm, (lor_add _ _ 10) by (rewrite ?Z.div_mul; lia). done.
  - unfold Scannable_wosize_hd_native, Is_mixed_block_reserved,
      Mixed_block_scannable_wosize_reserved_native.
    rewrite E4, E3. destruct (Z.ltb_spec 0 reserved), (Z.eqb_spec reserved 0); lia.
  - intros hd' tag' Hhd' Ht'. cbv zeta. rewrite Hd_with_tag_eq by done.
    destruct (header_of_split hd' Hhd') as (t & c & w & r & Bt & Bc & Bw & Br & ->).
    destruct (header_of_fields t c w r) as (F1 & -> & -> & ->); [done..|].
    rewrite Tag_hd_eq in F1. change 256 with (2 ^ 8). rewrite F1.
    replace (header_of t c w r - t + tag') with (header_of tag' c w r) by (unfold header_of; lia).
    destruct (header_of_fields tag' c w r) as (-> & -> & -> & ->); [done..|].
    split; [by apply header_of_u64|done].
  - intros hd' c' Hhd' Hc'. by apply Hd_with_color_fields.
Qed.

Lemma header_fields_witness :
  (0 <= 3 <= Max_wosize /\ 0 <= 245 < 256 /\ 0 <= 2 < 256) /\
  Allocated_wosize_hd (Caml_out_of_heap_header_with_reserved 3 245 2) = 3.
Proof.
  split; [hd_consts; lia|].
  destruct (header_fields 3 245 2) as (_ & _ & H & _); [hd_consts; lia..|exact H].
Defined.

(** The tagged representation of OCaml integers: a word [Val_long n] is a long
    and never a block, decoding it gives [n] wrapped to 63 bits, and on 63-bit
    integers the tagged words compare as the integers do (the lexer and the
    string comparisons of the runtime compare tagged words directly).  The
    closure information word returns the arity, the environment offset and the
    last-closure flag it was made from. *)
Theorem tagged_words :
  (forall n, Is_long (Val_long n) = true /\ Is_block (Val_long n) = false /\
     Long_val (Val_long n) = s63 n) /\
  (forall a b, is_s63 a -> is_s63 b ->
     (Val_long a <? Val_long b) = (a <? b) /\ (Val_long a =? Val_long b) = (a =? b)) /\
  (forall arity delta is_last,
     -128 <= arity < 128 -> 0 <= delta < 2 ^ 54 -> 0 <= is_last <= 1 ->
     let info := Make_closinfo arity delta is_last in
     Arity_closinfo info = arity /\ Start_env_closinfo info = delta /\
     Is_last_closinfo info = is_last /\ Is_long info = true).
Proof.
  split_and!.
  - intros n. pose proof (Is_long_Val_long n) as H. split; [done|].
    split; [|apply Long_val_long]. unfold Is_long, Is_block in *. by apply negb_true_iff.
  - intros a b Ha Hb. split; [by apply Val_long_lt|by apply Val_long_eqb].
  - intros arity delta is_last Ha Hd Hl. cbv zeta.
    assert (E : Make_closinfo arity delta is_last =
      (arity mod 256) * 2 ^ 56 + is_last * 2 ^ 55 + 2 * delta + 1).
    { unfold Make_closinfo. rewrite !Z.shiftl_mul_pow2 by lia. solve_word. }
    unfold Arity_closinfo, Start_env_closinfo, Is_last_closinfo.
    rewrite Is_long_odd, !Z.shiftl_mul_pow2, !Z.shiftr_div_pow2 by lia.
    split_and!; [solve_word..|].
    rewrite E. apply Z.odd_spec.
    exists ((arity mod 256) * 2 ^ 55 + is_last * 2 ^ 54 + delta). lia.
Qed.
