(* ===== verification/Md5.v ===== *)
(** * Message digests ([ocaml/runtime/md5.c])

    The incremental MD5 of the runtime: a context that buffers input by 64-byte
    blocks ([caml_MD5Init], [caml_MD5Update], [caml_MD5Final]), the optimised
    block transform [caml_MD5Transform], and the entry points
    [caml_md5_block] and [caml_md5_string].  The reference is RFC 1321, written
    independently below ([rfc_md5]). *)

From S2P Require Import Prelude.
#[local] Open Scope Z_scope.

(** ** The runtime's implementation *)

(** [in] is the 64-byte input buffer; viewed as 16 little-endian words by the
    transform. *)
Record MD5Context := { buf : list Z; bits0 : Z; bits1 : Z; inp : list Z }.

(** [((uint32_t * ) in)[i]] *)
Definition in_word (i : list Z) (n : nat) : Z := le_word (take 4 (drop (4 * n) i)).

Definition F1 (x y z : Z) : Z := Z.lxor z (Z.land x (Z.lxor y z)).
Definition F2 (x y z : Z) : Z := F1 z x y.
Definition F3 (x y z : Z) : Z := Z.lxor (Z.lxor x y) z.
Definition F4 (x y z : Z) : Z := Z.lxor y (Z.lor x (u32 (Z.lnot z))).

(** w<<s | w>>(32-s) on 32-bit words *)
Definition rotl32 (w s : Z) : Z := Z.lor (u32 (Z.shiftl w s)) (Z.shiftr w (32 - s)).

(** the new value of [w] *)
Definition MD5STEP (f : Z -> Z -> Z -> Z) (w x y z data s : Z) : Z :=
  let w := u32 (w + u32 (f x y z + data)) in
  let w := rotl32 w s in
  u32 (w + x).

(** Four consecutive steps, on [a], [d], [c] and [b] in this order; each takes
    the index of an input word, an additive constant and a rotation. *)
Definition MD5STEP4 (f : Z -> Z -> Z -> Z) (i : list Z)
    (s1 s2 s3 s4 : nat * Z * Z) (st : Z * Z * Z * Z) : Z * Z * Z * Z :=
  let data (s : nat * Z * Z) := u32 (in_word i s.1.1 + s.1.2) in
  let '(a, b, c, d) := st in
  let a := MD5STEP f a b c d (data s1) s1.2 in
  let d := MD5STEP f d a b c (data s2) s2.2 in
  let c := MD5STEP f c d a b (data s3) s3.2 in
  let b := MD5STEP f b c d a (data s4) s4.2 in
  (a, b, c, d).

(** the 64 steps of the transform *)
Definition MD5STEPS (i : list Z) (st : Z * Z * Z * Z) : Z * Z * Z * Z :=
  let st := MD5STEP4 F1 i (0%nat, 0xd76aa478, 7) (1%nat, 0xe8c7b756, 12)
                          (2%nat, 0x242070db, 17) (3%nat, 0xc1bdceee, 22) st in
  let st := MD5STEP4 F1 i (4%nat, 0xf57c0faf, 7) (5%nat, 0x4787c62a, 12)
                          (6%nat, 0xa8304613, 17) (7%nat, 0xfd469501, 22) st in
  let st := MD5STEP4 F1 i (8%nat, 0x698098d8, 7) (9%nat, 0x8b44f7af, 12)
                          (10%nat, 0xffff5bb1, 17) (11%nat, 0x895cd7be, 22) st in
  let st := MD5STEP4 F1 i (12%nat, 0x6b901122, 7) (13%nat, 0xfd987193, 12)
                          (14%nat, 0xa679438e, 17) (15%nat, 0x49b40821, 22) st in
  let st := MD5STEP4 F2 i (1%nat, 0xf61e2562, 5) (6%nat, 0xc040b340, 9)
                          (11%nat, 0x265e5a51, 14) (0%nat, 0xe9b6c7aa, 20) st in
  let st := MD5STEP4 F2 i (5%nat, 0xd62f105d, 5) (10%nat, 0x02441453, 9)
                          (15%nat, 0xd8a1e681, 14) (4%nat, 0xe7d3fbc8, 20) st in
  let st := MD5STEP4 F2 i (9%nat, 0x21e1cde6, 5) (14%nat, 0xc33707d6, 9)
                          (3%nat, 0xf4d50d87, 14) (8%nat, 0x455a14ed, 20) st in
  let st := MD5STEP4 F2 i (13%nat, 0xa9e3e905, 5) (2%nat, 0xfcefa3f8, 9)
                          (7%nat, 0x676f02d9, 14) (12%nat, 0x8d2a4c8a, 20) st in
  let st := MD5STEP4 F3 i (5%nat, 0xfffa3942, 4) (8%nat, 0x8771f681, 11)
                          (11%nat, 0x6d9d6122, 16) (14%nat, 0xfde5380c, 23) st in
  let st := MD5STEP4 F3 i (1%nat, 0xa4beea44, 4) (4%nat, 0x4bdecfa9, 11)
                          (7%nat, 0xf6bb4b60, 16) (10%nat, 0xbebfbc70, 23) st in
  let st := MD5STEP4 F3 i (13%nat, 0x289b7ec6, 4) (0%nat, 0xeaa127fa, 11)
                          (3%nat, 0xd4ef3085, 16) (6%nat, 0x04881d05, 23) st in
  let st := MD5STEP4 F3 i (9%nat, 0xd9d4d039, 4) (12%nat, 0xe6db99e5, 11)
                          (15%nat, 0x1fa27cf8, 16) (2%nat, 0xc4ac5665, 23) st in
  let st := MD5STEP4 F4 i (0%nat, 0xf4292244, 6) (7%nat, 0x432aff97, 10)
                          (14%nat, 0xab9423a7, 15) (5%nat, 0xfc93a039, 21) st in
  let st := MD5STEP4 F4 i (12%nat, 0x655b59c3, 6) (3%nat, 0x8f0ccc92, 10)
                          (10%nat, 0xffeff47d, 15) (1%nat, 0x85845dd1, 21) st in
  let st := MD5STEP4 F4 i (8%nat, 0x6fa87e4f, 6) (15%nat, 0xfe2ce6e0, 10)
                          (6%nat, 0xa3014314, 15) (13%nat, 0x4e0811a1, 21) st in
  let st := MD5STEP4 F4 i (4%nat, 0xf7537e82, 6) (11%nat, 0xbd3af235, 10)
                          (2%nat, 0x2ad7d2bb, 15) (9%nat, 0xeb86d391, 21) st in
  st.

Definition caml_MD5Transform (bf : list Z) (i : list Z) : list Z :=
  let '(a, b, c, d) := MD5STEPS i (zget bf 0, zget bf 1, zget bf 2, zget bf 3) in
  [u32 (zget bf 0 + a); u32 (zget bf 1 + b); u32 (zget bf 2 + c); u32 (zget bf 3 + d)].

(** [in0] is the uninitialised contents of the input buffer *)
Definition caml_MD5Init (in0 : list Z) : MD5Context :=
  {| buf := [0x67452301; 0xefcdab89; 0x98badcfe; 0x10325476];
     bits0 := 0; bits1 := 0; inp := in0 |}.

(** while (len >= 64) { memcpy(ctx->in, buf, 64); transform; ... } followed by
    the copy of the remaining bytes; [data] is the rest of the input *)
Fixpoint update_blocks (fuel : nat) (ctx : MD5Context) (data : list Z) : result MD5Context :=
  match fuel with
  | O => NoFuel
  | S fuel =>
      if 64 <=? zlen data then
        let* i := memcpy (inp ctx) 0 (take 64 data) in
        update_blocks fuel
          {| buf := caml_MD5Transform (buf ctx) i; bits0 := bits0 ctx; bits1 := bits1 ctx; inp := i |}
          (drop 64 data)
      else
        let* i := memcpy (inp ctx) 0 data in
        Ok {| buf := buf ctx; bits0 := bits0 ctx; bits1 := bits1 ctx; inp := i |}
  end.

Definition caml_MD5Update (ctx : MD5Context) (data : list Z) : result MD5Context :=
  let len := zlen data in
  (* update bitcount *)
  let t := bits0 ctx in
  let b0 := u32 (t + u32 (Z.shiftl (u32 len) 3)) in
  let b1 := if b0 <? t then u32 (bits1 ctx + 1) else bits1 ctx in
  let b1 := u32 (b1 + Z.shiftr len 29) in
  let t := Z.land (Z.shiftr t 3) 0x3f in
  if negb (t =? 0) then
    let room := 64 - t in
    if len <? room then
      let* i := memcpy (inp ctx) t data in
      Ok {| buf := buf ctx; bits0 := b0; bits1 := b1; inp := i |}
    else
      let* i := memcpy (inp ctx) t (take (Z.to_nat room) data) in
      update_blocks (S (length data))
        {| buf := caml_MD5Transform (buf ctx) i; bits0 := b0; bits1 := b1; inp := i |}
        (drop (Z.to_nat room) data)
  else
    update_blocks (S (length data))
      {| buf := buf ctx; bits0 := b0; bits1 := b1; inp := inp ctx |} data.

(** the digest; the context is erased *)
Definition caml_MD5Final (ctx : MD5Context) : result (list Z * MD5Context) :=
  let count := Z.land (Z.shiftr (bits0 ctx) 3) 0x3F in
  let* i := wr (inp ctx) count 0x80 in
  let p := count + 1 in
  let count := 64 - 1 - count in
  let* (bf, i) :=
    if count <? 8 then
      let* i := memset i p 0 count in
      let bf := caml_MD5Transform (buf ctx) i in
      let* i := memset i 0 0 56 in
      Ok (bf, i)
    else
      let* i := memset i p 0 (count - 8) in
      Ok (buf ctx, i) in
  let* i := memcpy i 56 (le_bytes 4 (bits0 ctx)) in
  let* i := memcpy i 60 (le_bytes 4 (bits1 ctx)) in
  let bf := caml_MD5Transform bf i in
  Ok (mjoin (le_bytes 4 <$> bf),
      {| buf := replicate 4 0; bits0 := 0; bits1 := 0; inp := replicate 64 0 |}).

(** one-shot digest of a block of memory *)
Definition caml_md5_block (in0 : list Z) (data : list Z) : result (list Z) :=
  let* ctx := caml_MD5Update (caml_MD5Init in0) data in
  let* (digest, _) := caml_MD5Final ctx in
  Ok digest.

(** [len] bytes of an OCaml string from offset [ofs]; like the C code, it does
    not check the range: outside the string the read is undefined *)
Definition caml_md5_string (in0 : list Z) (str : list Z) (ofs len : Z) : result (list Z) :=
  if (0 <=? ofs) && (0 <=? len) && (ofs + len <=? zlen str) then
    caml_md5_block in0 (take (Z.to_nat len) (drop (Z.to_nat ofs) str))
  else Undef.

(** ** RFC 1321 *)

Definition rfc_F (x y z : Z) : Z := Z.lor (Z.land x y) (Z.land (u32 (Z.lnot x)) z).
Definition rfc_G (x y z : Z) : Z := Z.lor (Z.land x z) (Z.land y (u32 (Z.lnot z))).
Definition rfc_H (x y z : Z) : Z := Z.lxor x (Z.lxor y z).
Definition rfc_I (x y z : Z) : Z := Z.lxor y (Z.lor x (u32 (Z.lnot z))).

(** the table T[1 .. 64] of the RFC: floor(2^32 * abs(sin i)) *)
Definition rfc_T : list Z :=
  [0xd76aa478; 0xe8c7b756; 0x242070db; 0xc1bdceee; 0xf57c0faf; 0x4787c62a; 0xa8304613; 0xfd469501;
   0x698098d8; 0x8b44f7af; 0xffff5bb1; 0x895cd7be; 0x6b901122; 0xfd987193; 0xa679438e; 0x49b40821;
   0xf61e2562; 0xc040b340; 0x265e5a51; 0xe9b6c7aa; 0xd62f105d; 0x02441453; 0xd8a1e681; 0xe7d3fbc8;
   0x21e1cde6; 0xc33707d6; 0xf4d50d87; 0x455a14ed; 0xa9e3e905; 0xfcefa3f8; 0x676f02d9; 0x8d2a4c8a;
   0xfffa3942; 0x8771f681; 0x6d9d6122; 0xfde5380c; 0xa4beea44; 0x4bdecfa9; 0xf6bb4b60; 0xbebfbc70;
   0x289b7ec6; 0xeaa127fa; 0xd4ef3085; 0x04881d05; 0xd9d4d039; 0xe6db99e5; 0x1fa27cf8; 0xc4ac5665;
   0xf4292244; 0x432aff97; 0xab9423a7; 0xfc93a039; 0x655b59c3; 0x8f0ccc92; 0xffeff47d; 0x85845dd1;
   0x6fa87e4f; 0xfe2ce6e0; 0xa3014314; 0x4e0811a1; 0xf7537e82; 0xbd3af235; 0x2ad7d2bb; 0xeb86d391].

Definition rfc_S : list Z := [7; 12; 17; 22; 5; 9; 14; 20; 4; 11; 16; 23; 6; 10; 15; 21].

(** round [i / 16]: its function and the order in which it reads the block *)
Definition rfc_fun (i : nat) : Z -> Z -> Z -> Z :=
  match (i / 16)%nat with 0%nat => rfc_F | 1%nat => rfc_G | 2%nat => rfc_H | _ => rfc_I end.
Definition rfc_index (i : nat) : nat :=
  match (i / 16)%nat with
  | 0%nat => i mod 16
  | 1%nat => (5 * i + 1) mod 16
  | 2%nat => (3 * i + 5) mod 16
  | _ => (7 * i) mod 16
  end.

(** word [k] of the block, its low-order byte first *)
Definition rfc_X (blk : list Z) (k : nat) : Z :=
  nth (4 * k) blk 0 + 2 ^ 8 * nth (4 * k + 1) blk 0 + 2 ^ 16 * nth (4 * k + 2) blk 0 + 2 ^ 24 * nth (4 * k + 3) blk 0.

(** X <<< s, the circular shift to the left by s positions: the s high bits come back as the
    low ones *)
Definition rfc_rotate (x s : Z) : Z := (x * 2 ^ s) mod 2 ^ 32 + x / 2 ^ (32 - s).

(** operation [i]: a = b + ((a + F(b,c,d) + X[k] + T[i]) <<< s), after which the
    four registers rotate *)
Definition rfc_op (blk : list Z) (st : Z * Z * Z * Z) (i : nat) : Z * Z * Z * Z :=
  let '(a, b, c, d) := st in
  let t := u32 (a + rfc_fun i b c d + rfc_X blk (rfc_index i) + nth i rfc_T 0) in
  let s := nth (4 * (i / 16) + i mod 4) rfc_S 0 in
  (d, u32 (b + rfc_rotate t s), b, c).

Definition rfc_block (st : Z * Z * Z * Z) (blk : list Z) : Z * Z * Z * Z :=
  let '(a', b', c', d') := fold_left (rfc_op blk) (seq 0 64) st in
  let '(a, b, c, d) := st in
  (u32 (a + a'), u32 (b + b'), u32 (c + c'), u32 (d + d')).

(** the first [n] blocks of [msg] *)
Fixpoint rfc_blocks (n : nat) (st : Z * Z * Z * Z) (msg : list Z) : Z * Z * Z * Z :=
  match n with
  | O => st
  | S n => rfc_blocks n (rfc_block st (take 64 msg)) (drop 64 msg)
  end.

(** a 1 bit, zeros up to 56 modulo 64, the length in bits modulo 2^64 *)
Definition rfc_pad (msg : list Z) : list Z :=
  msg ++ [0x80] ++ replicate (Z.to_nat ((55 - zlen msg) mod 64)) 0
      ++ le_bytes 8 (8 * zlen msg).

Definition rfc_init : Z * Z * Z * Z := (0x67452301, 0xefcdab89, 0x98badcfe, 0x10325476).

Definition rfc_md5 (msg : list Z) : list Z :=
  let padded := rfc_pad msg in
  let '(a, b, c, d) := rfc_blocks (length padded / 64) rfc_init padded in
  le_bytes 4 a ++ le_bytes 4 b ++ le_bytes 4 c ++ le_bytes 4 d.

(** the digests of the empty string and of "abc" given in the RFC *)
Example rfc_md5_empty :
  le_word (rev (rfc_md5 [])) = 0xd41d8cd98f00b204e9800998ecf8427e.
Proof. vm_compute. reflexivity. Qed.
Example md5_block_abc :
  rmap (fun d => le_word (rev d)) (caml_md5_block (replicate 64 0) [97; 98; 99])
  = Ok 0x900150983cd24fb0d6963f7d28e17f72.
Proof. vm_compute. reflexivity. Qed.

(** ** The block transform *)

Definition u32_state (st : Z * Z * Z * Z) : Prop :=
  let '(a, b, c, d) := st in is_u32 a /\ is_u32 b /\ is_u32 c /\ is_u32 d.

Definition regs (st : Z * Z * Z * Z) : list Z := let '(a, b, c, d) := st in [a; b; c; d].

Ltac u32_high :=
  repeat match goal with
  | H : is_u32 ?x |- context [Z.testbit ?x ?i] =>
      rewrite (testbit_high x 32 i) by (first [exact H | lia])
  end.

Lemma F1_spec x y z : is_u32 x -> is_u32 y -> is_u32 z -> F1 x y z = rfc_F x y z.
Proof. intros. unfold F1, rfc_F, u32. zbits; u32_high; btauto. Qed.
Lemma F2_spec x y z : is_u32 x -> is_u32 y -> is_u32 z -> F2 x y z = rfc_G x y z.
Proof. intros. unfold F2, F1, rfc_G, u32. zbits; u32_high; btauto. Qed.
Lemma F3_spec x y z : is_u32 x -> is_u32 y -> is_u32 z -> F3 x y z = rfc_H x y z.
Proof. intros. unfold F3, rfc_H. zbits. Qed.
Lemma F4_spec x y z : is_u32 x -> is_u32 y -> is_u32 z -> F4 x y z = rfc_I x y z.
Proof. done. Qed.

(** the data the code passes to step [i] *)
Definition step_ok (f : Z -> Z -> Z -> Z) (i : nat) (s : nat * Z * Z) : Prop :=
  (forall x y z, is_u32 x -> is_u32 y -> is_u32 z -> f x y z = rfc_fun i x y z) /\
  s = (rfc_index i, nth i rfc_T 0, nth (4 * (i / 16) + i mod 4) rfc_S 0).

Lemma rfc_X_in_word blk k : rfc_X blk k = in_word blk k.
Proof.
  unfold rfc_X, in_word. rewrite !nth_lookup.
  replace (blk !! (4 * k)%nat) with (drop (4 * k) blk !! 0%nat) by (by rewrite lookup_drop, Nat.add_0_r).
  rewrite <- !lookup_drop. destruct (drop (4 * k) blk) as [|b0 [|b1 [|b2 [|b3 l]]]]; cbn [take le_word lookup list_lookup default from_option id Nat.add]; rewrite ?take_0; cbn [le_word]; lia.
Qed.

Lemma rfc_rotate_rotl32 x s : is_u32 x -> 0 <= s <= 32 -> rfc_rotate x s = rotl32 x s.
Proof.
  unfold is_u32. intros Hx Hs. unfold rfc_rotate, rotl32, u32. rewrite Z.shiftl_mul_pow2, Z.shiftr_div_pow2 by lia.
  assert (E : Z.land ((x * 2 ^ s) mod 2 ^ 32) (x / 2 ^ (32 - s)) = 0); [|by rewrite Z.add_nocarry_lxor, Z.lxor_lor].
  apply Z.bits_inj'. intros n Hn. rewrite Z.land_spec, Z.bits_0. destruct (Z.lt_ge_cases n s).
  - by rewrite Z.mod_pow2_bits_low, Z.mul_pow2_bits_low by lia.
  - rewrite Z.div_pow2_bits, (testbit_high x 32) by (done || lia). apply andb_false_r.
Qed.

Lemma rfc_S_range n : 0 <= nth n rfc_S 0 <= 32.
Proof. do 16 (destruct n as [|n]; [by vm_compute|]). by destruct n. Qed.

Lemma MD5STEP_spec f i s blk a b c d :
  step_ok f i s -> u32_state (a, b, c, d) ->
  rfc_op blk (a, b, c, d) i =
    (d, MD5STEP f a b c d (u32 (in_word blk s.1.1 + s.1.2)) s.2, b, c) /\
  u32_state (rfc_op blk (a, b, c, d) i).
Proof.
  intros [Hf ->] (Ha & Hb & Hc & Hd). simpl. split.
  - unfold MD5STEP. rewrite Hf, rfc_X_in_word, rfc_rotate_rotl32 by (done || apply u32_range || apply rfc_S_range). do 3 f_equal.
    rewrite Z.add_comm. do 3 f_equal. solve_word.
  - split_and!; auto with word.
Qed.

Lemma MD5STEP4_spec f blk j s1 s2 s3 s4 st :
  step_ok f j s1 -> step_ok f (S j) s2 -> step_ok f (S (S j)) s3 ->
  step_ok f (S (S (S j))) s4 -> u32_state st ->
  MD5STEP4 f blk s1 s2 s3 s4 st = fold_left (rfc_op blk) (seq j 4) st /\
  u32_state (fold_left (rfc_op blk) (seq j 4) st).
Proof.
  intros H1 H2 H3 H4 Hst. destruct st as [[[a b] c] d].
  cbn [seq fold_left].
  destruct (MD5STEP_spec f j s1 blk a b c d H1 Hst) as [E1 U1]. rewrite E1 in U1 |- *.
  destruct (MD5STEP_spec f _ s2 blk _ _ _ _ H2 U1) as [E2 U2]. rewrite E2 in U2 |- *.
  destruct (MD5STEP_spec f _ s3 blk _ _ _ _ H3 U2) as [E3 U3]. rewrite E3 in U3 |- *.
  destruct (MD5STEP_spec f _ s4 blk _ _ _ _ H4 U3) as [E4 U4]. rewrite E4 in U4 |- *.
  split; [reflexivity|exact U4].
Qed.

Lemma fold_left_seq_4 blk j m n st :
  m = (4 + n)%nat ->
  fold_left (rfc_op blk) (seq j m) st =
  fold_left (rfc_op blk) (seq (j + 4) n) (fold_left (rfc_op blk) (seq j 4) st).
Proof. intros ->. by rewrite seq_app, fold_left_app. Qed.

(** one row of four steps: replace it by the RFC operations and forget how its
    input was obtained *)
Ltac md5_row F j m n :=
  match goal with
  | H : u32_state ?st |- context [MD5STEP4 ?f ?blk ?s1 ?s2 ?s3 ?s4 ?st] =>
      let E := fresh in let U := fresh in
      destruct (MD5STEP4_spec f blk j s1 s2 s3 s4 st) as [E U];
        [split; [exact F|reflexivity]..|exact H|];
      rewrite E; clear E H; rewrite (fold_left_seq_4 blk j m n st eq_refl);
      revert U; generalize (fold_left (rfc_op blk) (seq j 4) st); clear st; intros st U;
      simpl Nat.add
  end.

Lemma MD5STEPS_spec blk st :
  u32_state st -> MD5STEPS blk st = fold_left (rfc_op blk) (seq 0 64) st.
Proof.
  intros Hst. unfold MD5STEPS. cbv zeta.
  md5_row F1_spec 0%nat 64%nat 60%nat. md5_row F1_spec 4%nat 60%nat 56%nat.
  md5_row F1_spec 8%nat 56%nat 52%nat. md5_row F1_spec 12%nat 52%nat 48%nat.
  md5_row F2_spec 16%nat 48%nat 44%nat. md5_row F2_spec 20%nat 44%nat 40%nat.
  md5_row F2_spec 24%nat 40%nat 36%nat. md5_row F2_spec 28%nat 36%nat 32%nat.
  md5_row F3_spec 32%nat 32%nat 28%nat. md5_row F3_spec 36%nat 28%nat 24%nat.
  md5_row F3_spec 40%nat 24%nat 20%nat. md5_row F3_spec 44%nat 20%nat 16%nat.
  md5_row F4_spec 48%nat 16%nat 12%nat. md5_row F4_spec 52%nat 12%nat 8%nat.
  md5_row F4_spec 56%nat 8%nat 4%nat. md5_row F4_spec 60%nat 4%nat 0%nat.
  done.
Qed.

Lemma caml_MD5Transform_spec st blk :
  u32_state st ->
  caml_MD5Transform (regs st) blk = regs (rfc_block st blk) /\ u32_state (rfc_block st blk).
Proof.
  intros Hst. unfold caml_MD5Transform, rfc_block.
  destruct st as [[[a b] c] d]. change (zget (regs _) 0) with a.
  change (zget (regs _) 1) with b. change (zget (regs _) 2) with c.
  change (zget (regs _) 3) with d. rewrite MD5STEPS_spec by done.
  destruct (fold_left _ _ _) as [[[a' b'] c'] d']. split; [done|].
  simpl. auto with word.
Qed.

Lemma rfc_block_u32 st blk : u32_state (rfc_block st blk).
Proof.
  unfold rfc_block. destruct (fold_left _ _ _) as [[[a b] c] d], st as [[[? ?] ?] ?].
  simpl. auto with word.
Qed.

#[local] Arguments caml_MD5Transform : simpl never.
#[local] Arguments rfc_block : simpl never.
#[local] Opaque caml_MD5Transform rfc_block.

(** ** Blocks of a message *)

Lemma rfc_blocks_u32 n st msg : u32_state st -> u32_state (rfc_blocks n st msg).
Proof. revert st msg. induction n; simpl; auto using rfc_block_u32. Qed.

Lemma rfc_blocks_add n m st msg :
  rfc_blocks (n + m) st msg = rfc_blocks m (rfc_blocks n st msg) (drop (64 * n) msg).
Proof.
  revert st msg. induction n as [|n IH]; intros st msg; simpl rfc_blocks; [done|].
  rewrite IH, drop_drop. do 2 f_equal. lia.
Qed.

Lemma rfc_blocks_app n st a b :
  (64 * n <= length a)%nat -> rfc_blocks n st (a ++ b) = rfc_blocks n st a.
Proof.
  revert st a. induction n as [|n IH]; intros st a Hn; simpl; [done|].
  rewrite take_app_le, drop_app_le by lia. apply IH. rewrite length_drop. lia.
Qed.

Lemma div_mod_64 n :
  (64 <= n)%nat -> (n / 64 = S ((n - 64) / 64) /\ n mod 64 = (n - 64) mod 64)%nat.
Proof.
  intros Hn. replace n with (n - 64 + 1 * 64)%nat at 1 3 by lia.
  rewrite Nat.div_add, Nat.Div0.mod_add by lia. split; lia.
Qed.

(** ** The context *)

(** [ctx] has absorbed the message [msg] *)
Record absorbed (ctx : MD5Context) (msg : list Z) : Prop := {
  ab_len : length (inp ctx) = 64%nat;
  ab_buf : buf ctx = regs (rfc_blocks (length msg / 64) rfc_init msg);
  ab_bits0 : bits0 ctx = u32 (8 * zlen msg);
  ab_bits1 : bits1 ctx = u32 (8 * zlen msg / 2 ^ 32);
  ab_tail : take (length msg mod 64) (inp ctx) = drop (64 * (length msg / 64)) msg
}.

Lemma rfc_init_u32 : u32_state rfc_init.
Proof. simpl. unfold is_u32. lia. Qed.
#[local] Hint Resolve rfc_init_u32 rfc_blocks_u32 rfc_block_u32 : word.

Lemma caml_MD5Init_absorbed in0 :
  length in0 = 64%nat -> absorbed (caml_MD5Init in0) [].
Proof. intros. split; simpl; done. Qed.

(** what a run of [update_blocks] on [data] does *)
Lemma update_blocks_spec fuel : forall ctx data st,
  (length data < fuel)%nat -> length (inp ctx) = 64%nat -> u32_state st ->
  buf ctx = regs st ->
  exists i, update_blocks fuel ctx data =
      Ok {| buf := regs (rfc_blocks (length data / 64) st data);
            bits0 := bits0 ctx; bits1 := bits1 ctx; inp := i |} /\
    length i = 64%nat /\
    take (length data mod 64) i = drop (64 * (length data / 64)) data.
Proof.
  induction fuel as [|fuel IH]; intros ctx data st Hf Hi Hst Hb; [lia|].
  cbn [update_blocks]. destruct (Z.leb_spec 64 (zlen data)) as [H64|H64]; unfold zlen in H64.
  - assert (Ht : length (take 64 data) = 64%nat) by (rewrite length_take; lia).
    rewrite memcpy_0 by lia. cbn [rbind]. rewrite Ht.
    rewrite (drop_ge (inp ctx)), app_nil_r by lia.
    destruct (caml_MD5Transform_spec st (take 64 data) Hst) as [E U].
    edestruct (IH {| buf := caml_MD5Transform (buf ctx) (take 64 data); bits0 := bits0 ctx;
                     bits1 := bits1 ctx; inp := take 64 data |}
                  (drop 64 data) (rfc_block st (take 64 data))) as (i & -> & Hl & Htl).
    { rewrite length_drop. lia. } { exact Ht. } { exact U. } { cbn [buf]. by rewrite Hb. }
    exists i. rewrite length_drop in *.
    destruct (div_mod_64 (length data)) as [-> ->]; [lia|]. cbn [rfc_blocks bits0 bits1].
    split; [reflexivity|]. split; [exact Hl|]. rewrite Htl, drop_drop. f_equal. lia.
  - rewrite memcpy_0 by lia. cbn [rbind].
    rewrite Nat.div_small, Nat.mod_small by lia. cbn [rfc_blocks]. rewrite <- Hb.
    eexists. split; [reflexivity|]. rewrite Nat.mul_0_r, drop_0.
    rewrite length_app, length_drop. split; [lia|]. apply take_app_length.
Qed.

Lemma bits_absorbed l len :
  0 <= l -> 0 <= len ->
  let t := u32 (8 * l) in
  let b0 := u32 (t + u32 (Z.shiftl (u32 len) 3)) in
  let b1 := if b0 <? t then u32 (u32 (8 * l / 2 ^ 32) + 1) else u32 (8 * l / 2 ^ 32) in
  b0 = u32 (8 * (l + len)) /\
  u32 (b1 + Z.shiftr len 29) = u32 (8 * (l + len) / 2 ^ 32).
Proof.
  intros Hl Hlen. cbv zeta. rewrite Z.shiftl_mul_pow2, Z.shiftr_div_pow2 by lia.
  unfold u32. change (2 ^ 3) with 8. change (2 ^ 29) with 536870912.
  change (2 ^ 32) with 4294967296. set (M := 4294967296).
  replace ((len mod M * 8) mod M) with ((8 * len) mod M)
    by (rewrite Z.mul_mod_idemp_l by done; f_equal; lia).
  replace (len / 536870912) with (8 * len / M) by (unfold M; zlia).
  pose proof (Z.div_mod (8 * l) M ltac:(done)) as El.
  pose proof (Z.div_mod (8 * len) M ltac:(done)) as En.
  pose proof (Z.mod_pos_bound (8 * l) M ltac:(done)).
  pose proof (Z.mod_pos_bound (8 * len) M ltac:(done)).
  replace (8 * (l + len)) with (8 * l + 8 * len) by lia.
  set (x := (8 * l) mod M) in *. set (y := (8 * len) mod M) in *.
  set (p := 8 * l / M) in *. set (q := 8 * len / M) in *.
  replace (8 * l + 8 * len) with (x + y + (p + q) * M) by lia.
  rewrite Z.mod_add, Z.div_add by done. split; [done|].
  destruct (Z.ltb_spec ((x + y) mod M) x) as [Hc|Hc].
  - assert (E1 : (x + y) / M = 1).
    { destruct (decide (x + y < M)); [rewrite Z.mod_small in Hc by lia; lia|].
      symmetry. apply (Z.div_unique _ _ _ (x + y - M)); lia. }
    rewrite E1, Z.add_mod_idemp_l, <- Z.add_assoc, Z.add_mod_idemp_l by done. f_equal. lia.
  - assert (E1 : (x + y) / M = 0).
    { apply Z.div_small. destruct (decide (x + y < M)); [lia|].
      exfalso. rewrite <- (Z.mod_unique (x + y) M 1 (x + y - M)) in Hc by lia. lia. }
    rewrite E1, Z.add_mod_idemp_l by done. done.
Qed.

Lemma count_absorbed l : 0 <= l -> Z.land (Z.shiftr (u32 (8 * l)) 3) 63 = l mod 64.
Proof.
  intros. change 63 with (Z.ones 6). rewrite Z.land_ones, Z.shiftr_div_pow2 by lia.
  unfold u32. zlia.
Qed.

Lemma caml_MD5Update_absorbed ctx msg data :
  absorbed ctx msg ->
  exists ctx', caml_MD5Update ctx data = Ok ctx' /\ absorbed ctx' (msg ++ data).
Proof.
  intros [Hl Hb H0 H1 Ht]. unfold caml_MD5Update. rewrite H0, H1.
  destruct (bits_absorbed (zlen msg) (zlen data)) as [E0 E1]; auto with word.
  cbv zeta in E0, E1 |- *. rewrite E1, E0. clear E0 E1.
  rewrite count_absorbed by auto with word.
  set (q := (length msg / 64)%nat) in *. set (r := (length msg mod 64)%nat) in *.
  assert (Hqr : length msg = (64 * q + r)%nat) by apply Nat.div_mod_eq.
  assert (Hr : (r < 64)%nat) by (apply Nat.mod_upper_bound; lia).
  assert (zlen msg mod 64 = Z.of_nat r) as ->.
  { unfold zlen. rewrite Hqr, Nat2Z.inj_add, Nat2Z.inj_mul. zlia. }
  assert (Htl : length (drop (64 * q) msg) = r) by (rewrite length_drop; lia).
  rewrite <- zlen_app.
  (* how the blocks of the longer message split *)
  assert (Hsplit : forall n m, length (msg ++ data) = (64 * (q + n) + m)%nat -> (m < 64)%nat ->
    (length (msg ++ data) / 64 = q + n /\ length (msg ++ data) mod 64 = m)%nat).
  { intros n m E Hm. split; symmetry;
      [apply (Nat.div_unique _ 64 _ m)|apply (Nat.mod_unique _ 64 (q + n))]; lia. }
  assert (Hblocks : forall n, rfc_blocks (q + n) rfc_init (msg ++ data) =
    rfc_blocks n (rfc_blocks q rfc_init msg) (drop (64 * q) msg ++ data)).
  { intros n. rewrite rfc_blocks_add, rfc_blocks_app, drop_app_le by lia. done. }
  destruct (Z.eqb_spec (Z.of_nat r) 0) as [Er|Er]; simpl negb; cbn iota.
  - (* the buffer is empty *)
    assert (r = 0%nat) by lia.
    edestruct (update_blocks_spec (S (length data))) as (i & -> & Hli & Hti);
      [lia|..|]; [exact Hl| |exact Hb|].
    { auto with word. }
    eexists. split; [done|].
    destruct (Hsplit (length data / 64)%nat (length data mod 64)%nat) as [Ed Em].
    { rewrite length_app. pose proof (Nat.div_mod_eq (length data) 64). lia. }
    { apply Nat.mod_upper_bound. lia. }
    split; cbn [buf bits0 bits1 inp]; [done| |done|done|].
    + rewrite Ed, Hblocks. rewrite (nil_length_inv (drop _ msg)) by lia. done.
    + rewrite Em, Ed, Hti. rewrite drop_app_ge by lia. f_equal. lia.
  - destruct (Z.ltb_spec (zlen data) (64 - Z.of_nat r)) as [Hs|Hs]; unfold zlen in Hs.
    + (* the data fits in the buffer *)
      rewrite memcpy_Ok by (unfold zlen; lia). cbn [rbind]. eexists. split; [done|].
      destruct (Hsplit 0%nat (r + length data)%nat) as [Ed Em]; [rewrite length_app; lia|lia|].
      split; cbn [buf bits0 bits1 inp]; [| |done|done|].
      * rewrite !length_app, length_take, length_drop. lia.
      * rewrite Ed, Hblocks, Hb. done.
      * rewrite Em, Ed, Nat2Z.id, Ht, Nat.add_0_r, drop_app_le by lia.
        rewrite app_assoc, take_app_le by (rewrite length_app; lia).
        apply take_ge. rewrite length_app. lia.
    + (* complete the buffer, then whole blocks *)
      set (room := (64 - r)%nat). replace (Z.to_nat (64 - Z.of_nat r)) with room by lia.
      assert (Hrm : length (take room data) = room) by (rewrite length_take; lia).
      rewrite memcpy_Ok by (unfold zlen; lia). cbn [rbind]. rewrite Hrm, Nat2Z.id, Ht.
      rewrite (drop_ge (inp ctx)) by lia. rewrite app_nil_r.
      set (blk := drop (64 * q) msg ++ take room data).
      assert (Hblk : length blk = 64%nat) by (unfold blk; rewrite length_app; lia).
      destruct (caml_MD5Transform_spec (rfc_blocks q rfc_init msg) blk) as [E U];
        [auto with word|]. rewrite Hb, E.
      edestruct (update_blocks_spec (S (length data))) as (i & -> & Hli & Hti);
        [..|]; [| |exact U|done|]; [rewrite length_drop; lia|done|].
      eexists. split; [done|]. rewrite length_drop in *.
      set (n := ((length data - room) / 64)%nat) in *.
      destruct (Hsplit (1 + n)%nat ((length data - room) mod 64)%nat) as [Ed Em].
      { rewrite length_app. pose proof (Nat.div_mod_eq (length data - room) 64). lia. }
      { apply Nat.mod_upper_bound. lia. }
      assert (Hcut : drop (64 * q) msg ++ data = blk ++ drop room data).
      { unfold blk. rewrite <- app_assoc, take_drop. done. }
      split; cbn [buf bits0 bits1 inp]; [done| |done|done|].
      * rewrite Ed, Hblocks, Hcut. simpl. rewrite take_app_le, take_ge, drop_app_ge by lia.
        rewrite Hblk. done.
      * rewrite Em, Ed, Hti.
        replace (64 * (q + (1 + n)))%nat with (64 * q + (64 + 64 * n))%nat by lia.
        rewrite <- drop_drop, drop_app_le, Hcut, <- drop_drop, drop_app_ge by lia.
        rewrite Hblk. done.
Qed.

Lemma rfc_blocks_tail n msg s :
  let q := (length msg / 64)%nat in
  rfc_blocks (q + n) rfc_init (msg ++ s) =
  rfc_blocks n (rfc_blocks q rfc_init msg) (drop (64 * q) msg ++ s).
Proof.
  intros q. assert (64 * q <= length msg)%nat by apply Nat.Div0.mul_div_le.
  rewrite rfc_blocks_add, rfc_blocks_app, drop_app_le by lia. done.
Qed.

Lemma rfc_blocks_1 st blk s :
  length blk = 64%nat -> rfc_blocks 1 st (blk ++ s) = rfc_block st blk.
Proof. intros H. cbn [rfc_blocks]. by rewrite take_app_le, take_ge by lia. Qed.

Lemma rfc_blocks_2 st blk1 blk2 :
  length blk1 = 64%nat -> length blk2 = 64%nat ->
  rfc_blocks 2 st (blk1 ++ blk2) = rfc_block (rfc_block st blk1) blk2.
Proof.
  intros H1 H2. cbn [rfc_blocks]. rewrite take_app_le, (take_ge blk1), drop_app_ge, H1 by lia.
  rewrite Nat.sub_diag, drop_0, take_ge by lia. done.
Qed.

(** the last 8 bytes: the bit count, low word first *)
Lemma length_words L :
  le_bytes 4 (u32 (8 * L)) ++ le_bytes 4 (u32 (8 * L / 2 ^ 32)) = le_bytes 8 (8 * L).
Proof.
  unfold u32. change (2 ^ 32) with (256 ^ Z.of_nat 4). rewrite !le_bytes_mod.
  symmetry. apply (le_bytes_app 4 4).
Qed.

(** stores the bit count in the last 8 bytes of a buffer *)
Lemma store_length pre suf a b :
  length pre = 56%nat -> length suf = 8%nat ->
  rbind (memcpy (pre ++ suf) 56 (le_bytes 4 a)) (fun i => memcpy i 60 (le_bytes 4 b)) =
  Ok (pre ++ le_bytes 4 a ++ le_bytes 4 b).
Proof.
  intros Hp Hs. rewrite <- (take_drop 4 suf).
  replace 56 with (zlen pre) by (unfold zlen; lia).
  rewrite memcpy_mid by (rewrite le_bytes_length, length_take; lia). cbn [rbind].
  rewrite app_assoc. rewrite <- (app_nil_r (drop 4 suf)).
  replace 60 with (zlen (pre ++ le_bytes 4 a))
    by (unfold zlen; rewrite length_app, le_bytes_length; lia).
  rewrite memcpy_mid by (rewrite le_bytes_length, length_drop; lia).
  by rewrite app_nil_r, <- app_assoc.
Qed.

Definition digest_of (st : Z * Z * Z * Z) : list Z := mjoin (le_bytes 4 <$> regs st).

Lemma caml_MD5Final_absorbed ctx msg :
  absorbed ctx msg ->
  exists ctx', caml_MD5Final ctx = Ok (rfc_md5 msg, ctx').
Proof.
  intros [Hl Hb H0 H1 Ht]. unfold caml_MD5Final. rewrite H0, H1.
  rewrite count_absorbed by auto with word.
  set (q := (length msg / 64)%nat) in *. set (r := (length msg mod 64)%nat) in *.
  assert (Hqr : length msg = (64 * q + r)%nat) by apply Nat.div_mod_eq.
  assert (Hr : (r < 64)%nat) by (apply Nat.mod_upper_bound; lia).
  assert (HL : zlen msg mod 64 = Z.of_nat r).
  { unfold zlen. rewrite Hqr, Nat2Z.inj_add, Nat2Z.inj_mul. zlia. }
  rewrite HL. set (st := rfc_blocks q rfc_init msg) in *.
  assert (Hst : u32_state st) by (unfold st; auto with word).
  set (tail := drop (64 * q) msg) in *.
  assert (Htl : length tail = r) by (unfold tail; rewrite length_drop; lia).
  assert (Htl' : zlen tail = Z.of_nat r) by (unfold zlen; lia).
  assert (Hdig : forall n, length (rfc_pad msg) = (64 * (q + n))%nat ->
    rfc_md5 msg = digest_of (rfc_blocks n st (tail ++ drop (length msg) (rfc_pad msg)))).
  { intros n Hn. unfold rfc_md5, digest_of. rewrite Hn, (Nat.mul_comm 64), Nat.div_mul by lia.
    assert (rfc_pad msg = msg ++ drop (length msg) (rfc_pad msg)) as Ep.
    { unfold rfc_pad. by rewrite drop_app_length. }
    rewrite Ep at 1. unfold q at 1. rewrite rfc_blocks_tail. fold q st tail.
    destruct (rfc_blocks n st _) as [[[a b] c] d]. reflexivity. }
  assert (Hpadded : drop (length msg) (rfc_pad msg) = [0x80] ++
     replicate (Z.to_nat ((55 - zlen msg) mod 64)) 0 ++
     le_bytes 4 (u32 (8 * zlen msg)) ++ le_bytes 4 (u32 (8 * zlen msg / 2 ^ 32))).
  { unfold rfc_pad. by rewrite drop_app_length, length_words. }
  rewrite Hpadded in Hdig.
  destruct (inp ctx) as [|x0 rest0] eqn:Ei; [done|]. rewrite <- Ei in *. clear Ei x0 rest0.
  destruct (drop r (inp ctx)) as [|x rest] eqn:Er.
  { apply (f_equal length) in Er. rewrite length_drop in Er. simpl in Er. lia. }
  assert (Hin : inp ctx = tail ++ x :: rest) by (by rewrite <- Ht, <- Er, take_drop).
  assert (Hrest : length rest = (63 - r)%nat).
  { apply (f_equal length) in Hin. rewrite length_app in Hin. simpl in Hin. lia. }
  rewrite Hin, <- Htl', wr_mid. cbn [rbind].
  replace (tail ++ 0x80 :: rest) with ((tail ++ [0x80]) ++ rest) by (by rewrite <- app_assoc).
  assert (Hp : zlen (tail ++ [0x80]) = zlen tail + 1) by (rewrite zlen_app; done).
  rewrite <- Hp. assert (Hp' : length (tail ++ [0x80]) = S r) by (rewrite length_app; simpl; lia).
  destruct (Z.ltb_spec (64 - 1 - zlen tail) 8) as [Hc|Hc].
  - (* two blocks *)
    replace (64 - 1 - zlen tail) with (zlen rest) by (unfold zlen; lia).
    rewrite memset_end. cbn [rbind].
    set (blk1 := (tail ++ [0x80]) ++ replicate (length rest) 0).
    assert (Hb1 : length blk1 = 64%nat)
      by (unfold blk1; rewrite length_app, length_replicate; lia).
    rewrite Hb. destruct (caml_MD5Transform_spec st blk1 Hst) as [-> U1].
    replace (memset blk1 0 0 56) with (memset (take 56 blk1 ++ drop 56 blk1) 0 0 56)
      by (by rewrite take_drop).
    rewrite memset_front by (unfold zlen; rewrite length_take; lia).
    cbn [rbind]. rewrite length_take, Hb1.
    change (56 `min` 64)%nat with 56%nat.
    pose proof (store_length (replicate 56 0) (drop 56 blk1) (u32 (8 * zlen msg))
      (u32 (8 * zlen msg / 2 ^ 32)) eq_refl ltac:(rewrite length_drop; lia)) as Es.
    apply rbind_Ok in Es as (i1 & -> & Es). cbn [rbind]. rewrite Es. cbn [rbind].
    set (blk2 := replicate 56 0 ++ _).
    destruct (caml_MD5Transform_spec (rfc_block st blk1) blk2 U1) as [-> _].
    eexists. f_equal. f_equal. rewrite (Hdig 2%nat).
    2: { unfold rfc_pad. rewrite !length_app, length_replicate, le_bytes_length. simpl length.
         replace ((55 - zlen msg) mod 64) with (119 - Z.of_nat r) by zlia. lia. }
    unfold digest_of. rewrite <- rfc_blocks_2; [|done|done].
    replace ((55 - zlen msg) mod 64) with (119 - Z.of_nat r) by zlia.
    replace (Z.to_nat (119 - Z.of_nat r)) with (length rest + 56)%nat by lia.
    rewrite replicate_add. unfold blk1, blk2. by rewrite <- !app_assoc.
  - (* one block *)
    rewrite memset_part by (unfold zlen in *; lia). cbn [rbind].
    replace (Z.to_nat (64 - 1 - zlen tail - 8)) with (55 - r)%nat by lia.
    rewrite app_assoc.
    pose proof (store_length ((tail ++ [0x80]) ++ replicate (55 - r) 0)
      (drop (55 - r) rest) (u32 (8 * zlen msg))
      (u32 (8 * zlen msg / 2 ^ 32)) ltac:(rewrite length_app, length_replicate; lia)
      ltac:(rewrite length_drop; lia)) as Es.
    apply rbind_Ok in Es as (i1 & -> & Es). cbn [rbind]. rewrite Es. cbn [rbind].
    rewrite Hb. set (blk := _ ++ le_bytes 4 _ ++ _).
    destruct (caml_MD5Transform_spec st blk Hst) as [-> _].
    assert (Hblk : length blk = 64%nat)
      by (unfold blk; rewrite !length_app, length_replicate, !le_bytes_length; simpl; lia).
    eexists. f_equal. f_equal. rewrite (Hdig 1%nat).
    2: { unfold rfc_pad. rewrite !length_app, length_replicate, le_bytes_length. simpl length.
         replace ((55 - zlen msg) mod 64) with (55 - Z.of_nat r) by zlia. lia. }
    unfold digest_of. rewrite <- (rfc_blocks_1 st blk []) by done.
    replace ((55 - zlen msg) mod 64) with (55 - Z.of_nat r) by zlia.
    unfold blk. rewrite app_nil_r, <- !app_assoc.
    by replace (Z.to_nat (55 - Z.of_nat r)) with (55 - r)%nat by lia.
Qed.

(** several updates in a row *)
Fixpoint caml_MD5Updates (ctx : MD5Context) (chunks : list (list Z)) : result MD5Context :=
  match chunks with
  | [] => Ok ctx
  | data :: chunks =>
      let* ctx := caml_MD5Update ctx data in
      caml_MD5Updates ctx chunks
  end.

Lemma caml_MD5Updates_absorbed chunks : forall ctx msg,
  absorbed ctx msg ->
  exists ctx', caml_MD5Updates ctx chunks = Ok ctx' /\ absorbed ctx' (msg ++ mjoin chunks).
Proof.
  induction chunks as [|data chunks IH]; intros ctx msg H; cbn [caml_MD5Updates].
  - exists ctx. change (mjoin []) with (@nil Z). by rewrite app_nil_r.
  - destruct (caml_MD5Update_absorbed ctx msg data H) as (ctx1 & -> & H1). cbn [rbind].
    destruct (IH ctx1 _ H1) as (ctx2 & -> & H2). exists ctx2.
    split; [done|]. by rewrite <- app_assoc in H2.
Qed.

(** C23: However the input is cut into buffers, initialising a context, feeding it
    the buffers one after the other with [caml_MD5Update] and finishing with
    [caml_MD5Final] never reads or writes outside the context and yields the
    RFC 1321 digest of the concatenated input. *)
Theorem md5_incremental in0 chunks :
  length in0 = 64%nat ->
  exists ctx ctx', caml_MD5Updates (caml_MD5Init in0) chunks = Ok ctx /\
    caml_MD5Final ctx = Ok (rfc_md5 (mjoin chunks), ctx').
Proof.
  intros H. destruct (caml_MD5Updates_absorbed chunks _ _ (caml_MD5Init_absorbed in0 H))
    as (ctx & E & Ha).
  destruct (caml_MD5Final_absorbed _ _ Ha) as (ctx' & E'). eauto.
Qed.

Lemma md5_incremental_witness :
  length (replicate 64 7) = 64%nat /\
  exists ctx ctx', caml_MD5Updates (caml_MD5Init (replicate 64 7)) [[97]; []; [98; 99]] = Ok ctx /\
    caml_MD5Final ctx = Ok (rfc_md5 [97; 98; 99], ctx').
Proof.
  split; [reflexivity|]. exact (md5_incremental (replicate 64 7) [[97]; []; [98; 99]] eq_refl).
Defined.

(** [caml_md5_string] on a substring inside its string is the RFC 1321 digest
    of that substring; outside the string it reads out of bounds (the C code
    relies on its OCaml caller, [Digest.substring], for the check). *)
Theorem caml_md5_string_correct in0 str ofs len :
  length in0 = 64%nat ->
  caml_md5_string in0 str ofs len =
    if (0 <=? ofs) && (0 <=? len) && (ofs + len <=? zlen str)
    then Ok (rfc_md5 (take (Z.to_nat len) (drop (Z.to_nat ofs) str))) else Undef.
Proof.
  intros H. unfold caml_md5_string, caml_md5_block. destruct (_ && _); [|done].
  destruct (caml_MD5Update_absorbed _ [] (take (Z.to_nat len) (drop (Z.to_nat ofs) str))
    (caml_MD5Init_absorbed in0 H)) as (ctx & -> & Ha). cbn [rbind].
  destruct (caml_MD5Final_absorbed _ _ Ha) as (ctx' & ->). done.
Qed.

Lemma caml_md5_string_correct_witness :
  length (replicate 64 0) = 64%nat /\
  caml_md5_string (replicate 64 0) [120; 97; 98; 99; 120] 1 3 = Ok (rfc_md5 [97; 98; 99]).
Proof.
  split; [reflexivity|].
  exact (caml_md5_string_correct (replicate 64 0) [120; 97; 98; 99; 120] 1 3 eq_refl).
Defined.
