(* ===== verification/Str.v ===== *)
(** * Strings and bytes ([ocaml/runtime/str.c], [caml_alloc_string] of [alloc.c])

    A string block is the list of all the bytes of the block, padding included:
    the last byte of the block holds the distance from the end of the contents.
    Every access goes through the bytes of the block, and the length is computed
    from the padding as the runtime does.  [string_block blk s] says that the
    block [blk] represents the OCaml string [s].

    Indices and integers are passed as tagged words.  Where the C code compares
    two string pointers for equality, the model takes the outcome of that test
    as a parameter. *)

From S2P Require Import Prelude.
From S2P Require Import Mlvalues.
#[local] Open Scope Z_scope.

(** ** Allocation and length *)

(** [fresh] is the contents of the freshly allocated block: whatever the memory
    held *)
Definition caml_alloc_string (fresh : list Z) (len : Z) : result (list Z) :=
  let wosize := (len + 8) / 8 in
  let* blk := memcpy (take (Z.to_nat (Bsize_wsize wosize)) fresh)
                (Bsize_wsize (wosize - 1)) (replicate 8 0) in
  let offset_index := Bsize_wsize wosize - 1 in
  wr blk offset_index (u8 (offset_index - len)).

Definition caml_alloc_initialized_string (fresh : list Z) (p : list Z) : result (list Z) :=
  let* blk := caml_alloc_string fresh (zlen p) in
  memcpy blk 0 p.

Definition caml_string_length (s : list Z) : result Z :=
  let temp := zlen s - 1 in
  let* b := rd s temp in
  Ok (temp - b).

Definition caml_ml_string_length (s : list Z) : result Z :=
  let temp := zlen s - 1 in
  let* b := rd s temp in
  Ok (Val_long (temp - b)).

Definition caml_ml_bytes_length (s : list Z) : result Z := caml_ml_string_length s.

(** the number of bytes before the first NUL *)
Fixpoint strlen (s : list Z) : result Z :=
  match s with
  | [] => Undef
  | c :: s => if c =? 0 then Ok 0 else rmap (Z.add 1) (strlen s)
  end.

Definition caml_string_is_c_safe (s : list Z) : result bool :=
  let* n := strlen s in
  let* len := caml_string_length s in
  Ok (n =? len).

(** [caml_create_bytes]: the length is unsigned, so a negative one is too large *)
Definition caml_create_bytes (fresh : list Z) (len : Z) : result (list Z) :=
  let size := u64 (Long_val len) in
  if Bsize_wsize Max_wosize - 1 <? size then Raise (Invalid_argument "Bytes.create")
  else caml_alloc_string fresh size.

Definition caml_create_string (fresh : list Z) (len : Z) : result (list Z) :=
  let size := u64 (Long_val len) in
  if Bsize_wsize Max_wosize - 1 <? size then Raise (Invalid_argument "String.create")
  else caml_alloc_string fresh size.

(** ** Accesses *)

(** if (idx < 0 || idx + k >= caml_string_length(str)) caml_array_bound_error(); *)
Definition check_bounds (str : list Z) (idx k : Z) : result unit :=
  let* len := caml_string_length str in
  if (idx <? 0) || (len <=? idx + k) then Raise Bound_error else Ok tt.

Definition caml_string_get (str : list Z) (index : Z) : result Z :=
  let idx := Long_val index in
  let* _ := check_bounds str idx 0 in
  let* b := rd str idx in
  Ok (Val_int b).

Definition caml_bytes_get (str : list Z) (index : Z) : result Z := caml_string_get str index.

Definition caml_bytes_set (str : list Z) (index newval : Z) : result (list Z) :=
  let idx := Long_val index in
  let* _ := check_bounds str idx 0 in
  wr str idx (u8 (Int_val newval)).

Definition caml_string_set (str : list Z) (index newval : Z) : result (list Z) :=
  caml_bytes_set str index newval.

Definition caml_string_get16 (str : list Z) (index : Z) : result Z :=
  let idx := Long_val index in
  let* _ := check_bounds str idx 1 in
  let* b1 := rd str idx in
  let* b2 := rd str (idx + 1) in
  let res := Z.lor (Z.shiftl b2 8) b1 in
  Ok (Val_int res).

(** the boxed result is given as the [int32_t] it holds *)
Definition caml_string_get32 (str : list Z) (index : Z) : result Z :=
  let idx := Long_val index in
  let* _ := check_bounds str idx 3 in
  let* b1 := rd str idx in
  let* b2 := rd str (idx + 1) in
  let* b3 := rd str (idx + 2) in
  let* b4 := rd str (idx + 3) in
  let res := Z.lor (Z.lor (Z.lor (Z.shiftl b4 24) (Z.shiftl b3 16)) (Z.shiftl b2 8)) b1 in
  Ok (s32 res).

Definition caml_string_get64 (str : list Z) (index : Z) : result Z :=
  let idx := Long_val index in
  let* _ := check_bounds str idx 7 in
  let* b1 := rd str idx in
  let* b2 := rd str (idx + 1) in
  let* b3 := rd str (idx + 2) in
  let* b4 := rd str (idx + 3) in
  let* b5 := rd str (idx + 4) in
  let* b6 := rd str (idx + 5) in
  let* b7 := rd str (idx + 6) in
  let* b8 := rd str (idx + 7) in
  let res := Z.lor (Z.lor (Z.lor (Z.lor (Z.lor (Z.lor (Z.lor
    (Z.shiftl b8 56) (Z.shiftl b7 48)) (Z.shiftl b6 40)) (Z.shiftl b5 32))
    (Z.shiftl b4 24)) (Z.shiftl b3 16)) (Z.shiftl b2 8)) b1 in
  Ok (s64 (u64 res)).

Definition caml_bytes_get16 (str : list Z) (index : Z) : result Z := caml_string_get16 str index.
Definition caml_bytes_get32 (str : list Z) (index : Z) : result Z := caml_string_get32 str index.
Definition caml_bytes_get64 (str : list Z) (index : Z) : result Z := caml_string_get64 str index.

Definition byte_at (val shift : Z) : Z := Z.land 0xFF (Z.shiftr val shift).

Definition caml_bytes_set16 (str : list Z) (index newval : Z) : result (list Z) :=
  let idx := Long_val index in
  let* _ := check_bounds str idx 1 in
  let val := Long_val newval in
  let b2 := byte_at val 8 in
  let b1 := Z.land 0xFF val in
  let* str := wr str idx b1 in
  wr str (idx + 1) b2.

(** [val] is the contents of the boxed argument *)
Definition caml_bytes_set32 (str : list Z) (index val : Z) : result (list Z) :=
  let idx := Long_val index in
  let* _ := check_bounds str idx 3 in
  let b4 := byte_at val 24 in
  let b3 := byte_at val 16 in
  let b2 := byte_at val 8 in
  let b1 := Z.land 0xFF val in
  let* str := wr str idx b1 in
  let* str := wr str (idx + 1) b2 in
  let* str := wr str (idx + 2) b3 in
  wr str (idx + 3) b4.

Definition caml_bytes_set64 (str : list Z) (index val : Z) : result (list Z) :=
  let idx := Long_val index in
  let* _ := check_bounds str idx 7 in
  let b8 := byte_at val 56 in
  let b7 := byte_at val 48 in
  let b6 := byte_at val 40 in
  let b5 := byte_at val 32 in
  let b4 := byte_at val 24 in
  let b3 := byte_at val 16 in
  let b2 := byte_at val 8 in
  let b1 := Z.land 0xFF val in
  let* str := wr str idx b1 in
  let* str := wr str (idx + 1) b2 in
  let* str := wr str (idx + 2) b3 in
  let* str := wr str (idx + 3) b4 in
  let* str := wr str (idx + 4) b5 in
  let* str := wr str (idx + 5) b6 in
  let* str := wr str (idx + 6) b7 in
  wr str (idx + 7) b8.

(** ** Comparisons *)

(** word [i] of a block *)
Definition word_at (s : list Z) (i : nat) : Z := le_word (take 8 (drop (8 * i) s)).

(** the loop of [caml_string_equal] from word [i], [n] words remaining *)
Fixpoint equal_words (n i : nat) (s1 s2 : list Z) : bool :=
  match n with
  | O => true
  | S n => if negb (word_at s1 i =? word_at s2 i) then false else equal_words n (S i) s1 s2
  end.

Definition caml_string_equal (same : bool) (s1 s2 : list Z) : Z :=
  if same then Val_true else
  let sz1 := Wsize_bsize (zlen s1) in
  let sz2 := Wsize_bsize (zlen s2) in
  if negb (sz1 =? sz2) then Val_false else
  if equal_words (Z.to_nat sz1) 0 s1 s2 then Val_true else Val_false.

Definition caml_bytes_equal (same : bool) (s1 s2 : list Z) : Z := caml_string_equal same s1 s2.
Definition caml_string_notequal (same : bool) (s1 s2 : list Z) : Z :=
  Val_not (caml_string_equal same s1 s2).
Definition caml_bytes_notequal (same : bool) (s1 s2 : list Z) : Z :=
  caml_string_notequal same s1 s2.

(** [memcmp] on [n] bytes: the sign of the first difference *)
Fixpoint memcmp (n : nat) (p q : list Z) : result Z :=
  match n with
  | O => Ok 0
  | S n =>
      match p, q with
      | a :: p, b :: q => if a =? b then memcmp n p q else Ok (if a <? b then -1 else 1)
      | _, _ => Undef
      end
  end.

Definition caml_string_compare (same : bool) (s1 s2 : list Z) : result Z :=
  if same then Ok (Val_int 0) else
  let* len1 := caml_string_length s1 in
  let* len2 := caml_string_length s2 in
  let* res := memcmp (Z.to_nat (if len1 <=? len2 then len1 else len2)) s1 s2 in
  Ok (if res <? 0 then Val_int (-1)
      else if 0 <? res then Val_int 1
      else if len1 <? len2 then Val_int (-1)
      else if len2 <? len1 then Val_int 1
      else Val_int 0).

Definition caml_bytes_compare (same : bool) (s1 s2 : list Z) : result Z :=
  caml_string_compare same s1 s2.
Definition caml_string_lessthan (same : bool) (s1 s2 : list Z) : result Z :=
  let* c := caml_string_compare same s1 s2 in Ok (if c <? Val_int 0 then Val_true else Val_false).
Definition caml_string_lessequal (same : bool) (s1 s2 : list Z) : result Z :=
  let* c := caml_string_compare same s1 s2 in Ok (if c <=? Val_int 0 then Val_true else Val_false).
Definition caml_string_greaterthan (same : bool) (s1 s2 : list Z) : result Z :=
  let* c := caml_string_compare same s1 s2 in Ok (if Val_int 0 <? c then Val_true else Val_false).
Definition caml_string_greaterequal (same : bool) (s1 s2 : list Z) : result Z :=
  let* c := caml_string_compare same s1 s2 in Ok (if Val_int 0 <=? c then Val_true else Val_false).

(** ** Blits and fills: unchecked, as in the C code *)

(** the [n] bytes of [s] from [ofs] *)
Definition slice (s : list Z) (ofs n : Z) : result (list Z) :=
  if (0 <=? ofs) && (0 <=? n) && (ofs + n <=? zlen s)
  then Ok (take (Z.to_nat n) (drop (Z.to_nat ofs) s)) else Undef.

(** [memmove] reads all its source before writing, so the copy between two
    blocks and the copy inside one block ([s1 == s2]) are the same *)
Definition caml_blit_bytes (s1 : list Z) (ofs1 : Z) (s2 : list Z) (ofs2 n : Z) : result (list Z) :=
  let* data := slice s1 (Long_val ofs1) (Long_val n) in
  memcpy s2 (Long_val ofs2) data.
Definition caml_blit_string (s1 : list Z) (ofs1 : Z) (s2 : list Z) (ofs2 n : Z) : result (list Z) :=
  caml_blit_bytes s1 ofs1 s2 ofs2 n.

Definition caml_fill_bytes (s : list Z) (offset len init : Z) : result (list Z) :=
  memset s (Long_val offset) (u8 (Int_val init)) (Long_val len).
Definition caml_fill_string (s : list Z) (offset len init : Z) : result (list Z) :=
  caml_fill_bytes s offset len init.

(** ** Formatted output *)

(** [vsnprintf(dst, size, ...)] when the formatted text is [text]: at most
    [size - 1] characters and a NUL are written; the result is the length of the
    whole text, negative when it does not fit an [int] *)
Definition vsnprintf (dst : list Z) (size : Z) (text : list Z) : result (list Z * Z) :=
  if 2 ^ 31 - 1 <? zlen text then Ok (dst, -1)
  else if size <=? 0 then Ok (dst, zlen text)
  else let* dst := memcpy dst 0 (take (Z.to_nat (size - 1)) text ++ [0]) in
       Ok (dst, zlen text).

(** [buf] and [fresh] are the previous contents of the stack buffer and of the
    block to be allocated; [text] is what the format and arguments print *)
Definition caml_alloc_sprintf (buf fresh text : list Z) : result (list Z) :=
  let* (buf, n) := vsnprintf buf 128 text in
  if n <? 0 then Raise Out_of_memory
  else if n <? 128 then
    caml_alloc_initialized_string fresh (take (Z.to_nat n) buf)
  else
    let* res := caml_alloc_string fresh n in
    let* (res, _) := vsnprintf res (n + 1) text in
    Ok res.

(** ** The contents of a block *)

(** the padding after [n] bytes of contents *)
Definition padding (n : nat) : list Z :=
  let k := (7 - n mod 8)%nat in replicate k 0 ++ [Z.of_nat k].

Definition string_block (blk s : list Z) : Prop :=
  is_bytes s /\ blk = s ++ padding (length s).

Example alloc_abc :
  caml_alloc_initialized_string (replicate 16 9) [97; 98; 99] = Ok [97; 98; 99; 0; 0; 0; 0; 4].
Proof. reflexivity. Qed.
Example alloc_8 :
  rmap (drop 7) (caml_alloc_initialized_string (replicate 16 9) [1; 2; 3; 4; 5; 6; 7; 8])
  = Ok [8; 0; 0; 0; 0; 0; 0; 0; 7].
Proof. reflexivity. Qed.

(** ** Contents and blocks *)

Lemma padding_length n : length (padding n) = (8 - n mod 8)%nat.
Proof.
  unfold padding. rewrite length_app, length_replicate. simpl length.
  pose proof (Nat.mod_upper_bound n 8). lia.
Qed.

Lemma padding_bytes n : is_bytes (padding n).
Proof.
  apply Forall_app. split.
  - apply Forall_replicate. unfold is_u8. lia.
  - constructor; [|done]. unfold is_u8. lia.
Qed.

Lemma string_block_zlen blk s :
  string_block blk s -> zlen blk = 8 * (zlen s / 8 + 1).
Proof.
  intros [_ ->]. rewrite zlen_app. unfold zlen at 2. rewrite padding_length.
  pose proof (Nat.mod_upper_bound (length s) 8).
  rewrite Nat2Z.inj_sub, Nat2Z.inj_mod by lia. unfold zlen. zlia.
Qed.

Lemma caml_string_length_block blk s :
  string_block blk s -> caml_string_length blk = Ok (zlen s).
Proof.
  intros [_ ->]. unfold caml_string_length, padding.
  set (k := (7 - length s mod 8)%nat). rewrite app_assoc.
  assert (E : zlen ((s ++ replicate k 0) ++ [Z.of_nat k]) - 1 = zlen (s ++ replicate k 0)).
  { rewrite (zlen_app _ [_]). unfold zlen at 2. simpl. lia. }
  rewrite E. assert (rd ((s ++ replicate k 0) ++ [Z.of_nat k]) (zlen (s ++ replicate k 0))
    = Ok (Z.of_nat k)) as ->.
  { apply rd_Ok. unfold zlen. rewrite Nat2Z.id. split; [lia|].
    by rewrite lookup_app_r, Nat.sub_diag by lia. }
  cbn [rbind]. f_equal. rewrite zlen_app. unfold zlen. rewrite length_replicate. lia.
Qed.

Lemma string_block_rd blk s i :
  string_block blk s -> 0 <= i < zlen s -> rd blk i = Ok (zget s i).
Proof.
  intros [_ ->] Hi. apply rd_Ok. split; [lia|]. unfold zlen in Hi.
  rewrite lookup_app_l by lia. unfold zget.
  destruct (lookup_lt_is_Some_2 s (Z.to_nat i)) as [x Hx]; [lia|].
  rewrite Hx. f_equal. symmetry. by apply nth_lookup_Some.
Qed.

Lemma string_block_wr blk s i b :
  string_block blk s -> 0 <= i < zlen s -> is_u8 b ->
  exists blk', wr blk i b = Ok blk' /\ string_block blk' (<[Z.to_nat i := b]> s).
Proof.
  intros [Hs ->] Hi Hb. unfold zlen in Hi.
  rewrite wr_in_range by (rewrite zlen_app; pose proof (zlen_nonneg (padding (length s)));
    unfold zlen in *; lia).
  eexists. split; [done|]. split.
  - by apply Forall_insert.
  - rewrite length_insert, insert_app_l by lia. done.
Qed.

Lemma check_bounds_block blk s idx k :
  string_block blk s ->
  check_bounds blk idx k =
    if (idx <? 0) || (zlen s <=? idx + k) then Raise Bound_error else Ok tt.
Proof. intros H. unfold check_bounds. by rewrite (caml_string_length_block _ _ H). Qed.

(** consecutive byte stores *)
Fixpoint wr_list (blk : list Z) (i : Z) (bs : list Z) : result (list Z) :=
  match bs with
  | [] => Ok blk
  | b :: bs => let* blk := wr blk i b in wr_list blk (i + 1) bs
  end.

(** [s] with the bytes [bs] written at [i] *)
Definition patch (s : list Z) (i : Z) (bs : list Z) : list Z :=
  take (Z.to_nat i) s ++ bs ++ drop (Z.to_nat i + length bs) s.

Lemma patch_nil s i : patch s i [] = s.
Proof. unfold patch. rewrite Nat.add_0_r. simpl. apply take_drop. Qed.

Lemma patch_cons s i b bs :
  0 <= i < zlen s -> patch (<[Z.to_nat i := b]> s) (i + 1) bs = patch s i (b :: bs).
Proof.
  intros Hi. unfold zlen in Hi. unfold patch.
  replace (Z.to_nat (i + 1)) with (S (Z.to_nat i)) by lia. simpl length.
  rewrite drop_insert_lt by lia.
  rewrite (take_S_r _ _ b) by (by rewrite list_lookup_insert_eq by lia).
  rewrite take_insert_ge, <- app_assoc, Nat.add_succ_comm by lia. done.
Qed.

Lemma patch_length s i bs :
  0 <= i -> i + zlen bs <= zlen s -> length (patch s i bs) = length s.
Proof.
  unfold zlen, patch. intros. rewrite !length_app, length_take, length_drop. lia.
Qed.

Lemma wr_list_block bs : forall blk s i,
  string_block blk s -> is_bytes bs -> 0 <= i -> i + zlen bs <= zlen s ->
  exists blk', wr_list blk i bs = Ok blk' /\ string_block blk' (patch s i bs).
Proof.
  induction bs as [|b bs IH]; intros blk s i Hblk Hbs Hi Hlen; simpl wr_list.
  - exists blk. by rewrite patch_nil.
  - rewrite zlen_cons in Hlen. pose proof (zlen_nonneg bs).
    apply Forall_cons in Hbs as [Hb Hbs].
    destruct (string_block_wr blk s i b) as (blk1 & -> & H1); [done|lia|done|]. cbn [rbind].
    destruct (IH blk1 _ (i + 1) H1) as (blk2 & -> & H2); [done|lia|rewrite zlen_insert; lia|].
    exists blk2. rewrite patch_cons in H2 by lia. done.
Qed.

Lemma rbind_ret {A} (m : result A) : rbind m Ok = m.
Proof. by destruct m. Qed.

Lemma byte_at_eq val k : 0 <= k -> byte_at val k = (val / 2 ^ k) mod 256.
Proof.
  intros. unfold byte_at. rewrite Z.land_comm. change 0xFF with (Z.ones 8).
  by rewrite Z.land_ones, Z.shiftr_div_pow2 by lia.
Qed.

Lemma le_bytes_byte_at n val :
  le_bytes n val = (fun k => byte_at val (8 * Z.of_nat k)) <$> seq 0 n.
Proof.
  revert val. induction n as [|n IH]; intros val; [done|].
  simpl le_bytes. simpl seq. rewrite fmap_cons. f_equal.
  - rewrite byte_at_eq by lia. change (2 ^ _) with 1. by rewrite Z.div_1_r.
  - rewrite IH, <- (fmap_S_seq 0 n), <- list_fmap_compose. apply list_fmap_ext.
    intros _ k _. simpl. rewrite !byte_at_eq by lia.
    replace (8 * Z.of_nat (S k)) with (8 + 8 * Z.of_nat k) by lia.
    rewrite Z.pow_add_r, <- Z.div_div by lia. done.
Qed.

Lemma byte_at_0 val : Z.land 0xFF val = byte_at val 0.
Proof. done. Qed.

Lemma set_list_16 blk index val :
  caml_bytes_set16 blk index val =
  rbind (check_bounds blk (Long_val index) 1)
    (fun _ => wr_list blk (Long_val index) (le_bytes 2 (Long_val val))).
Proof.
  unfold caml_bytes_set16. destruct (check_bounds _ _ _); [|done..]. cbn [rbind].
  rewrite le_bytes_byte_at. simpl. rewrite byte_at_0.
  destruct (wr blk _ _); [|done..]. cbn [rbind]. by rewrite rbind_ret.
Qed.

Lemma set_list_8 blk index val :
  caml_bytes_set blk index val =
  rbind (check_bounds blk (Long_val index) 0)
    (fun _ => wr_list blk (Long_val index) (le_bytes 1 (Long_val val))).
Proof.
  unfold caml_bytes_set. destruct (check_bounds _ _ _); [|done..]. cbn [rbind].
  simpl wr_list. rewrite rbind_ret. f_equal. unfold Int_val, u8. solve_word.
Qed.

Lemma set_list_32 blk index val :
  caml_bytes_set32 blk index val =
  rbind (check_bounds blk (Long_val index) 3)
    (fun _ => wr_list blk (Long_val index) (le_bytes 4 val)).
Proof.
  unfold caml_bytes_set32. destruct (check_bounds _ _ _); [|done..]. cbn [rbind].
  rewrite le_bytes_byte_at. simpl. rewrite byte_at_0, <- !Z.add_assoc. simpl.
  by repeat (destruct (wr _ _ _); [|done..]; cbn [rbind]).
Qed.

Lemma set_list_64 blk index val :
  caml_bytes_set64 blk index val =
  rbind (check_bounds blk (Long_val index) 7)
    (fun _ => wr_list blk (Long_val index) (le_bytes 8 val)).
Proof.
  unfold caml_bytes_set64. destruct (check_bounds _ _ _); [|done..]. cbn [rbind].
  rewrite le_bytes_byte_at. simpl. rewrite byte_at_0, <- !Z.add_assoc. simpl.
  by repeat (destruct (wr _ _ _); [|done..]; cbn [rbind]).
Qed.

(** What a store of [n] bytes promises: a bounds error, or the [n] low bytes of
    [val] written at [idx] *)
Definition store_spec (n : nat) (s : list Z) (idx val : Z) (r : result (list Z)) : Prop :=
  if (idx <? 0) || (zlen s <? idx + Z.of_nat n) then r = Raise Bound_error
  else exists blk', r = Ok blk' /\ string_block blk' (patch s idx (le_bytes n val)).

Lemma store_block n blk s idx val k :
  string_block blk s -> k = Z.of_nat n - 1 ->
  store_spec n s idx val
    (rbind (check_bounds blk idx k) (fun _ => wr_list blk idx (le_bytes n val))).
Proof.
  intros Hb ->. unfold store_spec. rewrite (check_bounds_block _ _ _ _ Hb).
  replace (zlen s <=? idx + (Z.of_nat n - 1)) with (zlen s <? idx + Z.of_nat n) by zcases.
  destruct (_ || _) eqn:E; [done|]. cbn [rbind].
  apply orb_false_iff in E as [?%Z.ltb_ge ?%Z.ltb_ge].
  apply wr_list_block; [done|apply le_bytes_is_bytes|done|].
  unfold zlen. rewrite le_bytes_length. unfold zlen in *. lia.
Qed.

Lemma bytes_stores_ok blk s idx :
  string_block blk s -> is_s63 idx ->
  (forall v, is_s63 v -> store_spec 1 s idx v (caml_bytes_set blk (Val_long idx) (Val_long v))) /\
  (forall v, is_s63 v -> store_spec 2 s idx v (caml_bytes_set16 blk (Val_long idx) (Val_long v))) /\
  (forall v, store_spec 4 s idx v (caml_bytes_set32 blk (Val_long idx) v)) /\
  (forall v, store_spec 8 s idx v (caml_bytes_set64 blk (Val_long idx) v)).
Proof.
  intros Hb Hi. split_and!; intros v; [intros Hv..| |].
  - rewrite set_list_8, !Long_val_long_id by done. by apply store_block.
  - rewrite set_list_16, !Long_val_long_id by done. by apply store_block.
  - rewrite set_list_32, Long_val_long_id by done. by apply store_block.
  - rewrite set_list_64, Long_val_long_id by done. by apply store_block.
Qed.

Definition block_abc : list Z := [97; 98; 99; 0; 0; 0; 0; 4].

Lemma block_abc_ok : string_block block_abc [97; 98; 99].
Proof.
  split; [|reflexivity]. repeat constructor; unfold is_u8; lia.
Qed.

(** ** Loads *)

Lemma slice_cons s i n :
  0 <= i < zlen s ->
  take (S n) (drop (Z.to_nat i) s) = zget s i :: take n (drop (Z.to_nat (i + 1)) s).
Proof.
  intros Hi. unfold zlen in Hi. replace (Z.to_nat (i + 1)) with (S (Z.to_nat i)) by lia.
  destruct (lookup_lt_is_Some_2 s (Z.to_nat i)) as [x Hx]; [lia|].
  rewrite (drop_S s x (Z.to_nat i) Hx). simpl. f_equal. unfold zget.
  symmetry. by apply nth_lookup_Some.
Qed.

Lemma zget_byte s i : is_bytes s -> 0 <= i < zlen s -> 0 <= zget s i < 256.
Proof.
  intros Hs Hi. apply rd_zget, rd_Ok in Hi as [_ Hi].
  unfold is_bytes in Hs. rewrite Forall_lookup in Hs. by apply Hs in Hi.
Qed.

(** one step of the assembly of a word, high bytes first *)
Lemma lor_shift x b k k' :
  k' = k + 8 -> 0 <= k -> 0 <= b < 256 ->
  Z.lor (x * 2 ^ k') (Z.shiftl b k) = (x * 256 + b) * 2 ^ k.
Proof.
  intros -> Hk Hb. rewrite Z.shiftl_mul_pow2 by done.
  rewrite (lor_add _ _ (k + 8)) by
    (rewrite ?Z.div_mul, ?Z.pow_add_r by (try apply Z.pow_nonzero; lia); nia).
  rewrite Z.pow_add_r by lia. lia.
Qed.

Lemma lor_shift_0 x b : 0 <= b < 256 -> Z.lor (x * 2 ^ 8) b = x * 256 + b.
Proof.
  intros. pose proof (lor_shift x b 0 8 eq_refl) as H1. rewrite Z.shiftl_0_r, Z.mul_1_r in H1.
  by apply H1.
Qed.

(** What a load of [n] bytes promises *)
Definition load_spec (n : nat) (s : list Z) (idx : Z) (conv : Z -> Z) (r : result Z) : Prop :=
  if (idx <? 0) || (zlen s <? idx + Z.of_nat n) then r = Raise Bound_error
  else r = Ok (conv (le_word (take n (drop (Z.to_nat idx) s)))).

(** reads the bytes of a load one by one *)
Ltac load_bytes Hb Hs :=
  let E := fresh in
  unfold load_spec; rewrite (check_bounds_block _ _ _ _ Hb);
  match goal with |- context [zlen ?s <=? ?i + ?k] =>
    match goal with |- context [zlen s <? i + Z.of_nat ?n] =>
      replace (zlen s <=? i + k) with (zlen s <? i + Z.of_nat n) by zcases
    end
  end;
  destruct (_ || _) eqn:E; [reflexivity|]; cbn [rbind];
  apply orb_false_iff in E as [?%Z.ltb_ge ?%Z.ltb_ge];
  repeat (rewrite (string_block_rd _ _ _ Hb) by lia; cbn [rbind]);
  repeat rewrite slice_cons by lia; rewrite <- ?Z.add_assoc;
  change (1 + 1) with 2; change (1 + 2) with 3; change (1 + 3) with 4;
  change (1 + 4) with 5; change (1 + 5) with 6; change (1 + 6) with 7;
  repeat match goal with
  | |- context [zget ?s ?i] => lazymatch goal with
      | H : 0 <= zget s i < 256 |- _ => fail
      | _ => pose proof (zget_byte s i Hs ltac:(lia))
      end
  end.

Lemma get8_load blk s i :
  string_block blk s -> is_s63 i ->
  load_spec 1 s i Val_int (caml_string_get blk (Val_long i)).
Proof.
  intros Hb Hi. unfold caml_string_get. rewrite Long_val_long_id by done.
  load_bytes Hb (proj1 Hb). do 2 f_equal. simpl. lia.
Qed.

Lemma get16_load blk s i :
  string_block blk s -> is_s63 i ->
  load_spec 2 s i Val_int (caml_string_get16 blk (Val_long i)).
Proof.
  intros Hb Hi. unfold caml_string_get16. rewrite Long_val_long_id by done.
  load_bytes Hb (proj1 Hb). do 2 f_equal.
  rewrite Z.shiftl_mul_pow2, lor_shift_0 by lia. simpl. lia.
Qed.

Lemma get32_load blk s i :
  string_block blk s -> is_s63 i ->
  load_spec 4 s i s32 (caml_string_get32 blk (Val_long i)).
Proof.
  intros Hb Hi. unfold caml_string_get32. rewrite Long_val_long_id by done.
  load_bytes Hb (proj1 Hb). do 2 f_equal.
  rewrite (Z.shiftl_mul_pow2 _ 24), !lor_shift, lor_shift_0 by lia. simpl. lia.
Qed.

Lemma get64_load blk s i :
  string_block blk s -> is_s63 i ->
  load_spec 8 s i s64 (caml_string_get64 blk (Val_long i)).
Proof.
  intros Hb Hi. unfold caml_string_get64. rewrite Long_val_long_id by done.
  load_bytes Hb (proj1 Hb). rewrite s64_u64. do 2 f_equal.
  rewrite (Z.shiftl_mul_pow2 _ 56), !lor_shift, lor_shift_0 by lia. simpl. lia.
Qed.

Lemma bytes_loads_ok blk s idx :
  string_block blk s -> is_s63 idx ->
  load_spec 1 s idx Val_int (caml_string_get blk (Val_long idx)) /\
  load_spec 2 s idx Val_int (caml_string_get16 blk (Val_long idx)) /\
  load_spec 4 s idx s32 (caml_string_get32 blk (Val_long idx)) /\
  load_spec 8 s idx s64 (caml_string_get64 blk (Val_long idx)).
Proof. auto using get8_load, get16_load, get32_load, get64_load. Qed.

(** C38: Each load and each store of 1, 2, 4 or 8 bytes of a byte sequence raises the bounds
    error exactly when the bytes are not all inside the contents; otherwise a load gives the
    little-endian word they store, as an unsigned tagged integer for 1 and 2 bytes and as a
    signed integer of that width for 4 and 8, and a store writes the low bytes of the value
    at the index, least significant first, and leaves the rest of the contents, the padding
    and the length alone. *)
Theorem bytes_access blk s idx :
  string_block blk s -> is_s63 idx ->
  (load_spec 1 s idx Val_int (caml_string_get blk (Val_long idx)) /\
   load_spec 2 s idx Val_int (caml_string_get16 blk (Val_long idx)) /\
   load_spec 4 s idx s32 (caml_string_get32 blk (Val_long idx)) /\
   load_spec 8 s idx s64 (caml_string_get64 blk (Val_long idx))) /\
  (forall v, is_s63 v -> store_spec 1 s idx v (caml_bytes_set blk (Val_long idx) (Val_long v))) /\
  (forall v, is_s63 v -> store_spec 2 s idx v (caml_bytes_set16 blk (Val_long idx) (Val_long v))) /\
  (forall v, store_spec 4 s idx v (caml_bytes_set32 blk (Val_long idx) v)) /\
  (forall v, store_spec 8 s idx v (caml_bytes_set64 blk (Val_long idx) v)).
Proof. intros Hb Hi. split; [by apply bytes_loads_ok|by apply bytes_stores_ok]. Qed.

Lemma bytes_access_witness :
  (store_spec 2 [97; 98; 99] 1 513 (caml_bytes_set16 block_abc (Val_long 1) (Val_long 513)) /\
   caml_bytes_set16 block_abc (Val_long 1) (Val_long 513) = Ok [97; 1; 2; 0; 0; 0; 0; 4]) /\
  caml_string_get16 block_abc (Val_long 1) = Ok (Val_int (98 + 256 * 99)).
Proof.
  split; [|reflexivity]. split; [|reflexivity].
  apply (bytes_access block_abc [97; 98; 99] 1); [apply block_abc_ok|unfold is_s63; lia..].
Defined.

(** ** Equality by words *)

Lemma word_at_app w rest : length w = 8%nat -> word_at (w ++ rest) 0 = le_word w.
Proof. intros H. unfold word_at. by rewrite Nat.mul_0_r, drop_0, take_app_length' by done. Qed.

Lemma word_at_S w rest i : length w = 8%nat -> word_at (w ++ rest) (S i) = word_at rest i.
Proof.
  intros H. unfold word_at. replace (8 * S i)%nat with (length w + 8 * i)%nat by lia.
  by rewrite drop_app_add.
Qed.

Lemma le_word_inj a b :
  is_bytes a -> is_bytes b -> length a = length b -> le_word a = le_word b -> a = b.
Proof.
  intros Ha Hb Hl E. rewrite <- (le_bytes_word a Ha), <- (le_bytes_word b Hb).
  by rewrite Hl, E.
Qed.

Lemma equal_words_shift n : forall i w1 w2 r1 r2,
  length w1 = 8%nat -> length w2 = 8%nat ->
  equal_words n (S i) (w1 ++ r1) (w2 ++ r2) = equal_words n i r1 r2.
Proof.
  induction n as [|n IH]; intros; simpl; [done|]. by rewrite !word_at_S, IH by done.
Qed.

Lemma split_word (s : list Z) n :
  length s = (8 * S n)%nat -> exists w r, s = w ++ r /\ length w = 8%nat /\ length r = (8 * n)%nat.
Proof.
  intros H. exists (take 8 s), (drop 8 s).
  rewrite take_drop, length_take, length_drop. split_and!; [done|lia..].
Qed.

(** blocks of [n] words are equal exactly when their words are *)
Lemma equal_words_spec n : forall s1 s2,
  length s1 = (8 * n)%nat -> length s2 = (8 * n)%nat -> is_bytes s1 -> is_bytes s2 ->
  equal_words n 0 s1 s2 = bool_decide (s1 = s2).
Proof.
  induction n as [|n IH]; intros s1 s2 H1 H2 B1 B2.
  - apply nil_length_inv in H1, H2. by subst.
  - destruct (split_word _ _ H1) as (w1 & r1 & -> & W1 & R1).
    destruct (split_word _ _ H2) as (w2 & r2 & -> & W2 & R2).
    apply Forall_app in B1 as [B1 B1'], B2 as [B2 B2'].
    simpl equal_words. rewrite equal_words_shift, IH, !word_at_app by done.
    destruct (Z.eqb_spec (le_word w1) (le_word w2)) as [E|E]; simpl.
    + apply le_word_inj in E as ->; [|done..|lia].
      apply bool_decide_ext. split; [by intros ->|]. apply app_inv_head.
    + symmetry. apply bool_decide_eq_false. intros [-> _]%app_inj_1; [done|lia].
Qed.

Lemma string_block_bytes blk s : string_block blk s -> is_bytes blk.
Proof. intros [Hs ->]. apply Forall_app. split; [done|apply padding_bytes]. Qed.

Lemma string_block_inj blk s1 s2 : string_block blk s1 -> string_block blk s2 -> s1 = s2.
Proof.
  intros H1 H2. pose proof (caml_string_length_block _ _ H1) as L1.
  rewrite (caml_string_length_block _ _ H2) in L1. injection L1 as L1.
  destruct H1 as [_ H1], H2 as [_ H2]. rewrite H1 in H2.
  apply app_inj_1 in H2 as [-> _]; [done|]. unfold zlen in L1. lia.
Qed.

Lemma string_block_fun blk1 blk2 s : string_block blk1 s -> string_block blk2 s -> blk1 = blk2.
Proof. by intros [_ ->] [_ ->]. Qed.

Lemma string_block_wsize blk s : string_block blk s -> Wsize_bsize (zlen blk) = zlen s / 8 + 1.
Proof.
  intros H. rewrite (string_block_zlen _ _ H). unfold Wsize_bsize.
  by rewrite Z.mul_comm, Z.div_mul.
Qed.

(** Comparing blocks word by word, header sizes first, decides equality of
    the string contents: the padding never makes equal strings differ nor
    different strings agree. *)
Theorem caml_string_equal_correct same blk1 blk2 s1 s2 :
  string_block blk1 s1 -> string_block blk2 s2 -> (same = true -> blk1 = blk2) ->
  caml_string_equal same blk1 blk2 = Val_bool (bool_decide (s1 = s2)) /\
  caml_string_notequal same blk1 blk2 = Val_bool (bool_decide (s1 <> s2)).
Proof.
  intros H1 H2 Hsame.
  assert (E : caml_string_equal same blk1 blk2 = Val_bool (bool_decide (s1 = s2))).
  { unfold caml_string_equal. destruct same.
    { rewrite Hsame in H1 by done. rewrite (string_block_inj _ _ _ H1 H2).
      by rewrite bool_decide_true. }
    assert (B : bool_decide (s1 = s2) = bool_decide (blk1 = blk2)).
    { apply bool_decide_ext. split; intros ->; eauto using string_block_fun, string_block_inj. }
    rewrite B. pose proof (string_block_zlen _ _ H1) as L1.
    pose proof (string_block_zlen _ _ H2) as L2.
    rewrite (string_block_wsize _ _ H1), (string_block_wsize _ _ H2).
    destruct (Z.eqb_spec (zlen s1 / 8 + 1) (zlen s2 / 8 + 1)) as [E|E]; simpl negb; cbv iota.
    - rewrite equal_words_spec; [by repeat case_bool_decide| | | |];
        eauto using string_block_bytes; unfold zlen in *; lia.
    - rewrite bool_decide_false; [done|]. intros ->. lia. }
  split; [done|]. unfold caml_string_notequal. rewrite E.
  destruct (decide (s1 = s2)) as [->|N].
  - rewrite bool_decide_true, bool_decide_false by naive_solver. done.
  - by rewrite bool_decide_false, bool_decide_true by done.
Qed.

Lemma caml_string_equal_witness :
  caml_string_equal false block_abc block_abc = Val_bool true.
Proof.
  exact (proj1 (caml_string_equal_correct false _ _ _ _ block_abc_ok block_abc_ok
    (fun _ => eq_refl))).
Defined.

(** ** The order on strings *)

(** the lexicographic order on byte sequences *)
Fixpoint lex_compare (s1 s2 : list Z) : comparison :=
  match s1, s2 with
  | [], [] => Eq
  | [], _ :: _ => Lt
  | _ :: _, [] => Gt
  | a :: s1, b :: s2 => match a ?= b with Eq => lex_compare s1 s2 | c => c end
  end.

Definition sign_of (c : comparison) : Z := match c with Eq => 0 | Lt => -1 | Gt => 1 end.

Lemma lex_compare_Eq s1 : forall s2, lex_compare s1 s2 = Eq <-> s1 = s2.
Proof.
  induction s1 as [|a s1 IH]; intros [|b s2]; simpl; try done.
  destruct (Z.compare_spec a b) as [->|L|L].
  - rewrite IH. split; congruence.
  - split; [done|]. intros [= ->]. lia.
  - split; [done|]. intros [= ->]. lia.
Qed.

Lemma lex_compare_antisym s1 : forall s2, lex_compare s2 s1 = CompOpp (lex_compare s1 s2).
Proof.
  induction s1 as [|a s1 IH]; intros [|b s2]; simpl; try done.
  rewrite (Z.compare_antisym a b). destruct (a ?= b); simpl; auto.
Qed.

Lemma lex_compare_trans s1 : forall s2 s3,
  lex_compare s1 s2 = Lt -> lex_compare s2 s3 = Lt -> lex_compare s1 s3 = Lt.
Proof.
  induction s1 as [|a s1 IH]; intros [|b s2] [|c s3]; simpl; try done.
  destruct (Z.compare_spec a b), (Z.compare_spec b c), (Z.compare_spec a c);
    subst; try done; try lia; eauto.
Qed.

Lemma lex_compare_take s1 : forall s2,
  lex_compare s1 s2 =
    match lex_compare (take (length s1 `min` length s2) s1) (take (length s1 `min` length s2) s2)
    with Eq => zlen s1 ?= zlen s2 | c => c end.
Proof.
  induction s1 as [|a s1 IH]; intros [|b s2]; try done.
  rewrite !zlen_cons. simpl. destruct (a ?= b); [|done..]. rewrite IH.
  destruct (lex_compare _ _); [|done..].
  destruct (Z.compare_spec (zlen s1) (zlen s2)); symmetry; rewrite ?Z.compare_eq_iff,
    ?Z.compare_lt_iff, ?Z.compare_gt_iff; lia.
Qed.

Lemma memcmp_spec n : forall p q,
  (n <= length p)%nat -> (n <= length q)%nat ->
  memcmp n p q = Ok (sign_of (lex_compare (take n p) (take n q))).
Proof.
  induction n as [|n IH]; intros [|a p] [|b q] Hp Hq; simpl in *; try done; try lia.
  destruct (Z.eqb_spec a b) as [->|N].
  - rewrite Z.compare_refl. apply IH; lia.
  - destruct (Z.compare_spec a b), (Z.ltb_spec a b); try done; lia.
Qed.

Lemma caml_string_compare_spec same blk1 blk2 s1 s2 :
  string_block blk1 s1 -> string_block blk2 s2 -> (same = true -> blk1 = blk2) ->
  caml_string_compare same blk1 blk2 = Ok (Val_int (sign_of (lex_compare s1 s2))).
Proof.
  intros H1 H2 Hsame. unfold caml_string_compare. destruct same.
  { rewrite Hsame in H1 by done. rewrite (string_block_inj _ _ _ H1 H2).
    by rewrite (proj2 (lex_compare_Eq s2 s2)). }
  rewrite (caml_string_length_block _ _ H1), (caml_string_length_block _ _ H2). cbn [rbind].
  replace (Z.to_nat (if zlen s1 <=? zlen s2 then zlen s1 else zlen s2))
    with (length s1 `min` length s2)%nat by (unfold zlen; zcases).
  destruct H1 as [_ ->], H2 as [_ ->].
  rewrite memcmp_spec by (rewrite length_app; lia). cbn [rbind].
  rewrite !take_app_le by lia. rewrite (lex_compare_take s1 s2).
  destruct (lex_compare _ _); [|done..]. simpl.
  destruct (Z.compare_spec (zlen s1) (zlen s2)), (Z.ltb_spec (zlen s1) (zlen s2)),
    (Z.ltb_spec (zlen s2) (zlen s1)); try done; lia.
Qed.

(** C39: The string comparison primitives compute the lexicographic order on bytes,
    a proper prefix being smaller, and the four order tests follow it. *)
Theorem caml_string_compare_correct same blk1 blk2 s1 s2 :
  string_block blk1 s1 -> string_block blk2 s2 -> (same = true -> blk1 = blk2) ->
  let c := lex_compare s1 s2 in
  caml_string_compare same blk1 blk2 = Ok (Val_int (sign_of c)) /\
  caml_string_lessthan same blk1 blk2 = Ok (Val_bool (bool_decide (c = Lt))) /\
  caml_string_lessequal same blk1 blk2 = Ok (Val_bool (bool_decide (c <> Gt))) /\
  caml_string_greaterthan same blk1 blk2 = Ok (Val_bool (bool_decide (c = Gt))) /\
  caml_string_greaterequal same blk1 blk2 = Ok (Val_bool (bool_decide (c <> Lt))).
Proof.
  intros H1 H2 Hs c. unfold caml_string_lessthan, caml_string_lessequal,
    caml_string_greaterthan, caml_string_greaterequal.
  rewrite (caml_string_compare_spec _ _ _ _ _ H1 H2 Hs). fold c. cbn [rbind].
  split_and!; [done|by destruct c..].
Qed.

Definition block_abd : list Z := [97; 98; 100; 0; 0; 0; 0; 4].

Lemma block_abd_ok : string_block block_abd [97; 98; 100].
Proof. split; [|reflexivity]. repeat constructor; unfold is_u8; lia. Qed.

Lemma caml_string_compare_witness :
  caml_string_compare false block_abc block_abd = Ok (Val_int (-1)).
Proof.
  exact (proj1 (caml_string_compare_correct false _ _ _ _ block_abc_ok block_abd_ok
    (fun H => match Bool.diff_false_true H with end))).
Defined.

(** ** Allocation *)

(** [caml_alloc_string] lays out the padding; the contents are the words the
    memory held before the last one, then zeros *)
Lemma caml_alloc_string_layout fresh len :
  0 <= len -> len + 8 <= zlen fresh ->
  exists data, zlen data = len /\ (is_bytes fresh -> is_bytes data) /\
    caml_alloc_string fresh len = Ok (data ++ padding (length data)).
Proof.
  intros Hlen Hfresh. set (w := len / 8). set (k := len mod 8).
  assert (Hw : len = 8 * w + k /\ 0 <= k < 8 /\ 0 <= w) by (unfold w, k; zlia).
  assert (Ew : (len + 8) / 8 = w + 1) by (unfold w; zlia).
  set (old := take (Z.to_nat (8 * w)) fresh).
  assert (Hold : zlen old = 8 * w) by (unfold old, zlen in *; rewrite length_take; lia).
  exists (old ++ replicate (Z.to_nat k) 0). split_and!.
  - rewrite zlen_app, Hold. unfold zlen. rewrite length_replicate. lia.
  - intros F. apply Forall_app. split; [by apply Forall_take|].
    apply Forall_replicate. unfold is_u8. lia.
  - assert (Hl : (length (old ++ replicate (Z.to_nat k) 0%Z) mod 8 = Z.to_nat k)%nat).
    { rewrite length_app, length_replicate. unfold zlen in Hold.
      replace (length old + Z.to_nat k)%nat with (Z.to_nat k + Z.to_nat w * 8)%nat by lia.
      rewrite Nat.Div0.mod_add. apply Nat.mod_small. lia. }
    unfold caml_alloc_string, Bsize_wsize, padding. rewrite Ew, Hl.
    rewrite memcpy_Ok by (rewrite ?zlen_length; unfold zlen in *; rewrite ?length_take, ?length_replicate; lia).
    cbn [rbind]. rewrite take_take, drop_ge by (rewrite length_replicate, length_take; unfold zlen in *; lia).
    replace (Z.to_nat ((w + 1 - 1) * 8) `min` Z.to_nat ((w + 1) * 8))%nat with (Z.to_nat (8 * w)) by lia.
    fold old. rewrite app_nil_r.
    replace (replicate 8 0) with (replicate 7 0 ++ [0]) by done. rewrite app_assoc.
    replace ((w + 1) * 8 - 1) with (zlen (old ++ replicate 7 0)) by (rewrite zlen_app, Hold; unfold zlen; simpl; lia).
    rewrite wr_mid. f_equal. rewrite <- !app_assoc. f_equal.
    replace 7%nat with (Z.to_nat k + (7 - Z.to_nat k))%nat at 1 by lia.
    rewrite replicate_add, <- app_assoc. do 3 f_equal.
    rewrite zlen_app, Hold. unfold zlen. rewrite length_replicate. unfold u8. 
    rewrite Z.mod_small by lia. lia.
Qed.

Lemma alloc_initialized_block fresh p :
  is_bytes p -> zlen p + 8 <= zlen fresh ->
  exists blk, caml_alloc_initialized_string fresh p = Ok blk /\ string_block blk p.
Proof.
  intros Hp Hf. pose proof (zlen_nonneg p).
  destruct (caml_alloc_string_layout fresh (zlen p)) as (data & Hd & _ & E); [lia..|].
  exists (p ++ padding (length p)). split; [|by split].
  unfold caml_alloc_initialized_string. rewrite E. cbn [rbind].
  assert (length data = length p) as Hl by (unfold zlen in Hd; lia).
  rewrite memcpy_0 by (rewrite length_app; lia). by rewrite <- Hl, drop_app_length.
Qed.

Lemma caml_ml_string_length_block blk s :
  string_block blk s -> caml_ml_string_length blk = Ok (Val_long (zlen s)).
Proof.
  intros H. pose proof (caml_string_length_block _ _ H) as L. revert L.
  unfold caml_ml_string_length, caml_string_length.
  destruct (rd blk _); try done. cbn [rbind]. by intros [= ->].
Qed.

(** C40: Allocation: whatever the fresh memory holds, a string allocated with
    initial contents represents exactly these contents and its length reads back,
    and [caml_create_bytes] returns a byte sequence of the requested length, or
    fails with [Invalid_argument] exactly for the lengths (negative ones
    included) above the largest string. *)
Theorem string_allocation fresh :
  is_bytes fresh ->
  (forall p, is_bytes p -> zlen p + 8 <= zlen fresh ->
     exists blk, caml_alloc_initialized_string fresh p = Ok blk /\ string_block blk p /\
       caml_ml_string_length blk = Ok (Val_long (zlen p))) /\
  (forall len, is_s63 len ->
     if (len <? 0) || (8 * Max_wosize - 1 <? len)
     then caml_create_bytes fresh (Val_long len) = Raise (Invalid_argument "Bytes.create")
     else (len + 8 <= zlen fresh ->
       exists blk s, caml_create_bytes fresh (Val_long len) = Ok blk /\ string_block blk s /\
         zlen s = len)).
Proof.
  intros F. split.
  - intros p Hp Hf. destruct (alloc_initialized_block fresh p Hp Hf) as (blk & E & B).
    exists blk. eauto using caml_ml_string_length_block.
  - intros len Hlen. unfold caml_create_bytes. rewrite Long_val_long_id by done.
    unfold Bsize_wsize. rewrite (Z.mul_comm Max_wosize 8).
    destruct (Z.ltb_spec len 0) as [N|N]; simpl.
    + assert ((8 * Max_wosize - 1 <? u64 len) = true) as ->; [|done].
      apply Z.ltb_lt. change Max_wosize with (2 ^ 46 - 1). revert Hlen. unfold is_s63, u64. zlia.
    + rewrite u64_id by (revert Hlen; unfold is_s63, is_u64; lia).
      destruct (Z.ltb_spec (8 * Max_wosize - 1) len) as [T|T]; [done|].
      intros Hf. destruct (caml_alloc_string_layout fresh len N Hf) as (data & L & D & E).
      exists (data ++ padding (length data)), data. split_and!; [done|by split; auto|done].
Qed.

Lemma fresh_16_bytes : is_bytes (replicate 16 255).
Proof. apply Forall_replicate. unfold is_u8. lia. Qed.

Lemma string_allocation_witness :
  (exists blk, caml_alloc_initialized_string (replicate 16 255) [97; 98; 99] = Ok blk /\
     string_block blk [97; 98; 99] /\ caml_ml_string_length blk = Ok (Val_long 3)) /\
  caml_alloc_initialized_string (replicate 16 255) [97; 98; 99] = Ok block_abc.
Proof.
  split; [|reflexivity].
  apply (proj1 (string_allocation _ fresh_16_bytes)); [apply block_abc_ok|].
  vm_compute. discriminate.
Defined.

(** ** Copies *)

Lemma memcpy_block blk s ofs data :
  string_block blk s -> is_bytes data -> 0 <= ofs -> ofs + zlen data <= zlen s ->
  exists blk', memcpy blk ofs data = Ok blk' /\ string_block blk' (patch s ofs data).
Proof.
  intros [Hs ->] Hd Ho Hl. rewrite memcpy_Ok by
    (rewrite ?zlen_app; pose proof (zlen_nonneg (padding (length s))); lia).
  eexists. split; [done|]. split.
  - unfold patch. repeat (apply Forall_app; split); auto using Forall_take, Forall_drop.
  - rewrite patch_length by done. unfold patch, zlen in *.
    rewrite take_app_le, drop_app_le by lia. by rewrite <- !app_assoc.
Qed.

Lemma slice_block blk s ofs n :
  string_block blk s -> 0 <= ofs -> 0 <= n -> ofs + n <= zlen s ->
  slice blk ofs n = Ok (take (Z.to_nat n) (drop (Z.to_nat ofs) s)).
Proof.
  intros [_ ->] Ho Hn Hl. unfold slice, zlen in *. rewrite length_app.
  destruct (Z.leb_spec 0 ofs), (Z.leb_spec 0 n); try lia. simpl.
  destruct (Z.leb_spec (ofs + n) (Z.of_nat (length s + length (padding (length s))))); [|lia].
  rewrite drop_app_le, take_app_le by (rewrite ?length_drop; lia). done.
Qed.

(** [caml_blit_bytes] on ranges inside the contents copies the source range as
    it was before the call over the destination range and leaves everything else
    alone, also when source and destination are the same byte sequence and the
    ranges overlap; [caml_fill_bytes] fills exactly its range. *)
Theorem bytes_copies blk1 s1 blk2 s2 ofs1 ofs2 n :
  string_block blk1 s1 -> string_block blk2 s2 ->
  0 <= n -> 0 <= ofs1 -> ofs1 + n <= zlen s1 -> 0 <= ofs2 -> ofs2 + n <= zlen s2 ->
  is_s63 (zlen s1) -> is_s63 (zlen s2) ->
  (exists blk', caml_blit_bytes blk1 (Val_long ofs1) blk2 (Val_long ofs2) (Val_long n) = Ok blk' /\
     string_block blk' (patch s2 ofs2 (take (Z.to_nat n) (drop (Z.to_nat ofs1) s1)))) /\
  (forall c, is_u8 c ->
     exists blk', caml_fill_bytes blk2 (Val_long ofs2) (Val_long n) (Val_int c) = Ok blk' /\
     string_block blk' (patch s2 ofs2 (replicate (Z.to_nat n) c))).
Proof.
  intros H1 H2 Hn Ho1 Hl1 Ho2 Hl2 L1 L2.
  assert (I : forall x, 0 <= x <= zlen s1 \/ 0 <= x <= zlen s2 -> Long_val (Val_long x) = x).
  { intros x Hx. apply Long_val_long_id. revert L1 L2. unfold is_s63. lia. }
  split.
  - unfold caml_blit_bytes. rewrite !I by lia. rewrite (slice_block _ _ _ _ H1) by lia. cbn [rbind].
    apply memcpy_block; try done.
    + apply Forall_take, Forall_drop, (proj1 H1).
    + unfold zlen in *. rewrite length_take, length_drop. lia.
  - intros c Hc. unfold caml_fill_bytes. rewrite !I by lia. rewrite Int_val_int by
      (revert Hc; unfold is_u8, is_s32; lia). rewrite u8_id by done.
    unfold memset. destruct (Z.ltb_spec n 0); [lia|].
    apply memcpy_block; try done.
    + by apply Forall_replicate.
    + unfold zlen in *. rewrite length_replicate. lia.
Qed.

Lemma bytes_copies_witness :
  (exists blk', caml_blit_bytes block_abc (Val_long 0) block_abc (Val_long 1) (Val_long 2) = Ok blk' /\
     string_block blk' (patch [97; 98; 99] 1 (take (Z.to_nat 2) (drop (Z.to_nat 0) [97; 98; 99])))) /\
  caml_blit_bytes block_abc (Val_long 0) block_abc (Val_long 1) (Val_long 2)
    = Ok [97; 97; 98; 0; 0; 0; 0; 4].
Proof.
  split; [|reflexivity].
  refine (proj1 (bytes_copies block_abc [97; 98; 99] block_abc [97; 98; 99] 0 1 2
    block_abc_ok block_abc_ok _ _ _ _ _ _ _)); unfold is_s63, zlen; simpl length; lia.
Defined.

(** ** Formatted output *)

Lemma caml_alloc_string_ok fresh len :
  0 <= len -> len + 8 <= zlen fresh ->
  exists data, zlen data = len /\ caml_alloc_string fresh len = Ok (data ++ padding (length data)).
Proof.
  intros H1 H2. destruct (caml_alloc_string_layout fresh len H1 H2) as (d & ? & _ & ?). eauto.
Qed.

(** the byte after the contents is a NUL *)
Lemma padding_head n : exists r, padding n = 0 :: r.
Proof.
  unfold padding. destruct (7 - n mod 8)%nat as [|k]; [by exists []|].
  simpl. eauto.
Qed.

Lemma vsnprintf_block data text :
  length data = length text -> zlen text <= 2 ^ 31 - 1 ->
  vsnprintf (data ++ padding (length data)) (zlen text + 1) text
  = Ok (text ++ padding (length text), zlen text).
Proof.
  intros Hd Hn. unfold vsnprintf. pose proof (zlen_nonneg text).
  destruct (Z.ltb_spec (2 ^ 31 - 1) (zlen text)); [lia|].
  destruct (Z.leb_spec (zlen text + 1) 0); [lia|].
  rewrite take_ge by (unfold zlen; lia). rewrite Hd.
  destruct (padding_head (length text)) as [r E]. rewrite E.
  pose proof (memcpy_mid [] (data ++ [0]) (text ++ [0]) r) as M. simpl app in M.
  replace (data ++ 0 :: r) with ((data ++ [0]) ++ r) by by rewrite <- app_assoc.
  change (zlen []) with 0 in M. rewrite M by (rewrite !length_app; simpl; lia).
  cbn [rbind]. by rewrite <- app_assoc.
Qed.

Lemma caml_alloc_sprintf_spec buf fresh text :
  is_bytes text -> zlen buf = 128 -> zlen text + 8 <= zlen fresh -> zlen text <= 2 ^ 31 - 1 ->
  exists blk, caml_alloc_sprintf buf fresh text = Ok blk /\ string_block blk text.
Proof.
  intros Ht Hb Hf Hn. unfold caml_alloc_sprintf. unfold vsnprintf at 1.
  destruct (Z.ltb_spec (2 ^ 31 - 1) (zlen text)); [lia|].
  destruct (Z.leb_spec 128 0); [lia|]. pose proof (zlen_nonneg text).
  rewrite memcpy_0 by (rewrite length_app, length_take; change (length [0]) with 1%nat; unfold zlen in Hb; lia). cbn [rbind].
  destruct (Z.ltb_spec (zlen text) 0); [lia|]. destruct (Z.ltb_spec (zlen text) 128).
  - unfold zlen. rewrite Nat2Z.id, (take_ge text) by (unfold zlen in *; lia).
    rewrite <- app_assoc, take_app_length. by apply alloc_initialized_block.
  - destruct (caml_alloc_string_ok fresh (zlen text)) as (d & Hd & ->); [lia..|]. cbn [rbind].
    rewrite vsnprintf_block by (unfold zlen in *; lia). cbn [rbind].
    eexists. split; [done|by split].
Qed.

(** [caml_alloc_sprintf] returns the string of the formatted text, whether it
    goes through the 128-byte buffer or is formatted a second time directly in
    the allocated string, where the final NUL lands on the padding. *)
Theorem caml_alloc_sprintf_correct buf fresh text :
  is_bytes text -> zlen buf = 128 -> zlen text + 8 <= zlen fresh -> zlen text <= 2 ^ 31 - 1 ->
  exists blk, caml_alloc_sprintf buf fresh text = Ok blk /\ string_block blk text.
Proof. apply caml_alloc_sprintf_spec. Qed.

Lemma caml_alloc_sprintf_witness :
  exists blk, caml_alloc_sprintf (replicate 128 7) (replicate 144 9) (replicate 130 65) = Ok blk
    /\ string_block blk (replicate 130 65).
Proof.
  apply caml_alloc_sprintf_correct; [|vm_compute; congruence..].
  apply Forall_replicate. unfold is_u8. lia.
Defined.

Lemma strlen_app_0 s r : strlen (s ++ 0 :: r) =
  Ok (match list_find (fun x => x = 0) s with Some (i, _) => Z.of_nat i | None => zlen s end).
Proof.
  induction s as [|a s IH]; [done|]. simpl. destruct (Z.eqb_spec a 0) as [->|N]; [done|].
  rewrite IH. simpl. rewrite decide_False by done.
  destruct (list_find _ s) as [[i x]|]; simpl; f_equal; [lia|by rewrite zlen_cons].
Qed.

(** C0: A string is C-safe exactly when its contents hold no NUL, because the byte
    after the contents of a string block is always one. *)
Theorem caml_string_is_c_safe_correct blk s :
  string_block blk s -> caml_string_is_c_safe blk = Ok (bool_decide (0 ∉ s)).
Proof.
  intros H. unfold caml_string_is_c_safe.
  assert (E : strlen blk =
    Ok (match list_find (fun x => x = 0) s with Some (i, _) => Z.of_nat i | None => zlen s end)).
  { destruct H as [_ ->]. destruct (padding_head (length s)) as [r ->]. apply strlen_app_0. }
  rewrite E, (caml_string_length_block _ _ H). cbn [rbind]. f_equal.
  destruct (list_find _ s) as [[i x]|] eqn:F.
  - apply list_find_Some in F as (F & -> & _). pose proof (lookup_lt_Some _ _ _ F).
    rewrite bool_decide_false by (intros N; by apply N, (list_elem_of_lookup_2 _ i)).
    apply Z.eqb_neq. unfold zlen. lia.
  - apply list_find_None in F. rewrite Forall_forall in F.
    rewrite Z.eqb_refl, bool_decide_true; [done|]. intros N. by apply (F 0).
Qed.

Lemma caml_string_is_c_safe_witness :
  caml_string_is_c_safe block_abc = Ok (bool_decide (0 ∉ [97; 98; 99])).
Proof. exact (caml_string_is_c_safe_correct _ _ block_abc_ok). Defined.
