(* ===== verification/Intext.v ===== *)
(** * Byte streams of the marshaler ([extern.c], [intern.c], [caml/intext.h])

    The output side buffers bytes in a chain of blocks, or in a buffer provided
    by the caller, and [grow_extern_output] starts a new block when the current
    one is full.  [contents] is the sequence of bytes emitted so far.  A store
    beyond the limit of the current block is undefined behaviour in the model.
    The input side reads bytes from a pointer: the model keeps the bytes that
    remain and reading past their end is undefined behaviour.

    The primitives are those of a 64-bit little-endian platform. *)

From S2P Require Import Prelude.
From S2P Require Import Mlvalues.
#[local] Open Scope Z_scope.

(** ** Codes of the format *)

Definition Intext_magic_number_small : Z := 0x8495A6BE.
Definition Intext_magic_number_big : Z := 0x8495A6BF.
Definition Intext_magic_number_compressed : Z := 0x8495A6BD.

Definition PREFIX_SMALL_BLOCK : Z := 0x80.
Definition PREFIX_SMALL_INT : Z := 0x40.
Definition PREFIX_SMALL_STRING : Z := 0x20.
Definition CODE_INT8 : Z := 0x0.
Definition CODE_INT16 : Z := 0x1.
Definition CODE_INT32 : Z := 0x2.
Definition CODE_INT64 : Z := 0x3.
Definition CODE_SHARED8 : Z := 0x4.
Definition CODE_SHARED16 : Z := 0x5.
Definition CODE_SHARED32 : Z := 0x6.
Definition CODE_SHARED64 : Z := 0x14.
Definition CODE_BLOCK32 : Z := 0x8.
Definition CODE_BLOCK64 : Z := 0x13.
Definition CODE_STRING8 : Z := 0x9.
Definition CODE_STRING32 : Z := 0xA.
Definition CODE_STRING64 : Z := 0x15.
Definition CODE_DOUBLE_BIG : Z := 0xB.
Definition CODE_DOUBLE_LITTLE : Z := 0xC.
Definition CODE_DOUBLE_ARRAY8_BIG : Z := 0xD.
Definition CODE_DOUBLE_ARRAY8_LITTLE : Z := 0xE.
Definition CODE_DOUBLE_ARRAY32_BIG : Z := 0xF.
Definition CODE_DOUBLE_ARRAY32_LITTLE : Z := 0x7.
Definition CODE_DOUBLE_ARRAY64_BIG : Z := 0x16.
Definition CODE_DOUBLE_ARRAY64_LITTLE : Z := 0x17.
Definition CODE_CODEPOINTER : Z := 0x10.
Definition CODE_INFIXPOINTER : Z := 0x11.
Definition OLD_CODE_CUSTOM : Z := 0x12.
Definition CODE_CUSTOM_LEN : Z := 0x18.
Definition CODE_CUSTOM_FIXED : Z := 0x19.
Definition CODE_UNBOXED_INT64 : Z := 0x1a.
(* ARCH_FLOAT_ENDIANNESS is little-endian *)
Definition CODE_DOUBLE_NATIVE : Z := CODE_DOUBLE_LITTLE.
Definition CODE_DOUBLE_ARRAY8_NATIVE : Z := CODE_DOUBLE_ARRAY8_LITTLE.
Definition CODE_DOUBLE_ARRAY32_NATIVE : Z := CODE_DOUBLE_ARRAY32_LITTLE.
Definition CODE_DOUBLE_ARRAY64_NATIVE : Z := CODE_DOUBLE_ARRAY64_LITTLE.
Definition SIZE_EXTERN_OUTPUT_BLOCK : Z := 8100.

(** ** The output buffer *)

(** [blocks]: the finished blocks, in order; [cur]: the bytes of the current
    block up to [extern_ptr]; [limit]: the size of the current block;
    [userprovided]: the caller's buffer is in use *)
Record output := Output {
  blocks : list (list Z);
  cur : list Z;
  limit : Z;
  userprovided : bool }.

Definition contents (o : output) : list Z := concat (blocks o) ++ cur o.

Definition init_extern_output : output := Output [] [] SIZE_EXTERN_OUTPUT_BLOCK false.

(** [caml_output_value_to_block]: the buffer of [len] bytes, its first 20 bytes
    reserved for the header *)
Definition init_user_output (len : Z) : output := Output [] [] (len - 20) true.

Definition grow_extern_output (o : output) (required : Z) : result output :=
  if userprovided o then Raise (Failure "Marshal.to_buffer: buffer overflow") else
  let extra := if required <=? SIZE_EXTERN_OUTPUT_BLOCK / 2 then 0 else required in
  Ok (Output (blocks o ++ [cur o]) [] (SIZE_EXTERN_OUTPUT_BLOCK + extra) false).

Definition extern_output_length (o : output) : Z :=
  foldr (fun b n => zlen b + n) (zlen (cur o)) (blocks o).

(** stores at [extern_ptr], then advances it *)
Definition store (o : output) (bs : list Z) : result output :=
  if zlen (cur o) + zlen bs <=? limit o
  then Ok (Output (blocks o) (cur o ++ bs) (limit o) (userprovided o)) else Undef.

(** if (s->extern_ptr + n > s->extern_limit) grow_extern_output(s, n); *)
Definition reserve (o : output) (n : Z) : result output :=
  if limit o <? zlen (cur o) + n then grow_extern_output o n else Ok o.

Definition store16 (n : Z) : list Z := [u8 (Z.shiftr n 8); u8 n].
Definition store32 (n : Z) : list Z :=
  [u8 (Z.shiftr n 24); u8 (Z.shiftr n 16); u8 (Z.shiftr n 8); u8 n].
Definition store64 (n : Z) : list Z :=
  [u8 (Z.shiftr n 56); u8 (Z.shiftr n 48); u8 (Z.shiftr n 40); u8 (Z.shiftr n 32);
   u8 (Z.shiftr n 24); u8 (Z.shiftr n 16); u8 (Z.shiftr n 8); u8 n].

Definition writebyte (o : output) (c : Z) : result output :=
  let* o := if limit o <=? zlen (cur o) then grow_extern_output o 1 else Ok o in
  store o [u8 c].

Definition writeblock (o : output) (data : list Z) : result output :=
  let* o := reserve o (zlen data) in store o data.

Definition writecode8 (o : output) (code val : Z) : result output :=
  let* o := reserve o 2 in store o [u8 code; u8 val].
Definition writecode16 (o : output) (code val : Z) : result output :=
  let* o := reserve o 3 in store o (u8 code :: store16 (s32 val)).
Definition writecode32 (o : output) (code val : Z) : result output :=
  let* o := reserve o 5 in store o (u8 code :: store32 val).
Definition writecode64 (o : output) (code val : Z) : result output :=
  let* o := reserve o 9 in store o (u8 code :: store64 val).

Definition caml_serialize_int_1 (o : output) (i : Z) : result output :=
  let* o := reserve o 1 in store o [u8 i].
Definition caml_serialize_int_2 (o : output) (i : Z) : result output :=
  let* o := reserve o 2 in store o (store16 i).
Definition caml_serialize_int_4 (o : output) (i : Z) : result output :=
  let* o := reserve o 4 in store o (store32 i).
Definition caml_serialize_int_8 (o : output) (i : Z) : result output :=
  let* o := reserve o 8 in store o (store64 i).
Definition caml_serialize_block_1 (o : output) (data : list Z) : result output :=
  let* o := reserve o (zlen data) in store o data.

(** [Reverse_16], [Reverse_32], [Reverse_64] on each element *)
Fixpoint reverse_elements (n : nat) (len : nat) (data : list Z) : list Z :=
  match len with
  | O => []
  | S len => rev (take n data) ++ reverse_elements n len (drop n data)
  end.

(** the block writers on [len] elements held in memory as the bytes [data] *)
Definition caml_serialize_block_2 (o : output) (data : list Z) (len : nat) : result output :=
  let* o := reserve o (2 * Z.of_nat len) in store o (reverse_elements 2 len data).
Definition caml_serialize_block_4 (o : output) (data : list Z) (len : nat) : result output :=
  let* o := reserve o (4 * Z.of_nat len) in store o (reverse_elements 4 len data).
Definition caml_serialize_block_8 (o : output) (data : list Z) (len : nat) : result output :=
  let* o := reserve o (8 * Z.of_nat len) in store o (reverse_elements 8 len data).
Definition caml_serialize_block_float_8 (o : output) (data : list Z) (len : nat) : result output :=
  let* o := reserve o (8 * Z.of_nat len) in store o (take (8 * len) data).

(** ** Variable-length quantities *)

(** the base-128 digits of [n >> 7], prepended to the digits already stored;
    10 digits are enough for a 64-bit word *)
Fixpoint storevlq_loop (fuel : nat) (n : Z) (acc : list Z) : result (list Z) :=
  match fuel with
  | O => NoFuel
  | S fuel =>
      if n =? 0 then Ok acc
      else storevlq_loop fuel (Z.shiftr n 7) (Z.lor 0x80 (Z.land n 0x7F) :: acc)
  end.

Definition storevlq (n : Z) : result (list Z) :=
  storevlq_loop 11 (Z.shiftr n 7) [Z.land n 0x7F].

(** ** Reading *)

Definition read8u (src : list Z) : result (Z * list Z) :=
  match src with b :: src => Ok (b, src) | [] => Undef end.
Definition read8s (src : list Z) : result (Z * list Z) :=
  let* (b, src) := read8u src in Ok (if b <? 128 then b else b - 256, src).

Definition read16u (src : list Z) : result (Z * list Z) :=
  match src with
  | b0 :: b1 :: src => Ok (u16 (Z.shiftl b0 8 + b1), src) | _ => Undef
  end.
Definition read16s (src : list Z) : result (Z * list Z) :=
  match src with
  | b0 :: b1 :: src => Ok (s16 (Z.shiftl b0 8 + b1), src) | _ => Undef
  end.
Definition read32u (src : list Z) : result (Z * list Z) :=
  match src with
  | b0 :: b1 :: b2 :: b3 :: src =>
      Ok (u32 (Z.shiftl b0 24 + Z.shiftl b1 16 + Z.shiftl b2 8 + b3), src)
  | _ => Undef
  end.
Definition read32s (src : list Z) : result (Z * list Z) :=
  match src with
  | b0 :: b1 :: b2 :: b3 :: src =>
      Ok (s32 (Z.shiftl b0 24 + Z.shiftl b1 16 + Z.shiftl b2 8 + b3), src)
  | _ => Undef
  end.
Definition read64u (src : list Z) : result (Z * list Z) :=
  match src with
  | b0 :: b1 :: b2 :: b3 :: b4 :: b5 :: b6 :: b7 :: src =>
      Ok (u64 (Z.shiftl b0 56 + Z.shiftl b1 48 + Z.shiftl b2 40 + Z.shiftl b3 32
               + Z.shiftl b4 24 + Z.shiftl b5 16 + Z.shiftl b6 8 + b7), src)
  | _ => Undef
  end.

(** the loop of [readvlq]: [c] is the last byte read, [n] the number so far *)
Fixpoint readvlq_loop (fuel : nat) (c n retcode : Z) (src : list Z) : result (Z * Z * list Z) :=
  match fuel with
  | O => NoFuel
  | S fuel =>
      if Z.land c 0x80 =? 0 then Ok (retcode, n, src) else
      let* (c, src) := read8u src in
      let n7 := u64 (Z.shiftl n 7) in
      let retcode := if negb (n =? Z.shiftr n7 7) then -1 else retcode in
      readvlq_loop fuel c (Z.lor n7 (Z.land c 0x7F)) retcode src
  end.

(** [(retcode, number, rest)] *)
Definition readvlq (src : list Z) : result (Z * Z * list Z) :=
  let* (c, src) := read8u src in
  readvlq_loop (S (length src)) c (Z.land c 0x7F) 0 src.

Definition readblock (src : list Z) (len : Z) : result (list Z * list Z) :=
  if (0 <=? len) && (len <=? zlen src)
  then Ok (take (Z.to_nat len) src, drop (Z.to_nat len) src) else Undef.

Definition caml_deserialize_uint_1 (src : list Z) : result (Z * list Z) := read8u src.
Definition caml_deserialize_sint_1 (src : list Z) : result (Z * list Z) := read8s src.
Definition caml_deserialize_uint_2 (src : list Z) : result (Z * list Z) := read16u src.
Definition caml_deserialize_sint_2 (src : list Z) : result (Z * list Z) := read16s src.
Definition caml_deserialize_uint_4 (src : list Z) : result (Z * list Z) := read32u src.
Definition caml_deserialize_sint_4 (src : list Z) : result (Z * list Z) := read32s src.

(** [n]-byte elements, byte-reversed one by one *)
Definition caml_deserialize_block_1 (src : list Z) (len : nat) : result (list Z * list Z) :=
  readblock src (Z.of_nat len).
Definition deserialize_reversed (n len : nat) (src : list Z) : result (list Z * list Z) :=
  let* (data, src) := readblock src (Z.of_nat (n * len)) in
  Ok (reverse_elements n len data, src).
Definition caml_deserialize_block_2 (src : list Z) (len : nat) := deserialize_reversed 2 len src.
Definition caml_deserialize_block_4 (src : list Z) (len : nat) := deserialize_reversed 4 len src.
Definition caml_deserialize_block_8 (src : list Z) (len : nat) := deserialize_reversed 8 len src.
Definition caml_deserialize_block_float_8 (src : list Z) (len : nat) : result (list Z * list Z) :=
  readblock src (8 * Z.of_nat len).

(** the element read in memory, as the integer it stores *)
Definition caml_deserialize_uint_8 (src : list Z) : result (Z * list Z) :=
  let* (data, src) := caml_deserialize_block_8 src 1 in Ok (le_word data, src).
Definition caml_deserialize_sint_8 (src : list Z) : result (Z * list Z) :=
  let* (data, src) := caml_deserialize_block_8 src 1 in Ok (s64 (le_word data), src).

(** ** The output side: every write is in bounds and appends its bytes *)

(** a writer either appends [bs] to the contents, or reports the overflow of the
    caller's buffer; it does the latter exactly when the bytes do not fit *)
Definition appends (o : output) (bs : list Z) (r : result output) : Prop :=
  if userprovided o && (limit o <? zlen (cur o) + zlen bs)
  then r = Raise (Failure "Marshal.to_buffer: buffer overflow")
  else exists o', r = Ok o' /\ contents o' = contents o ++ bs /\
    userprovided o' = userprovided o /\
    (userprovided o = true -> limit o' = limit o /\ cur o' = cur o ++ bs).

Lemma put_appends o n bs :
  n = zlen bs -> appends o bs (rbind (reserve o n) (fun o => store o bs)).
Proof.
  intros ->. unfold appends, reserve, store, grow_extern_output, contents.
  pose proof (zlen_nonneg bs).
  destruct (Z.ltb_spec (limit o) (zlen (cur o) + zlen bs)) as [L|L].
  - destruct (userprovided o) eqn:U; [done|]. simpl.
    destruct (Z.leb_spec (zlen bs) (SIZE_EXTERN_OUTPUT_BLOCK / 2)) as [B|B].
    + change (SIZE_EXTERN_OUTPUT_BLOCK / 2) with 4050 in B. unfold SIZE_EXTERN_OUTPUT_BLOCK.
      rewrite (proj2 (Z.leb_le _ _)) by (unfold zlen at 1; simpl; lia).
      eexists. split; [done|]. simpl. rewrite concat_app. simpl. by rewrite app_nil_r.
    + unfold SIZE_EXTERN_OUTPUT_BLOCK.
      rewrite (proj2 (Z.leb_le _ _)) by (unfold zlen at 1; simpl; lia).
      eexists. split; [done|]. simpl. rewrite concat_app. simpl. by rewrite app_nil_r.
  - rewrite andb_false_r. cbn [rbind]. rewrite (proj2 (Z.leb_le _ _)) by lia.
    eexists. split; [done|]. simpl. by rewrite app_assoc.
Qed.

Lemma writebyte_appends o c : appends o [u8 c] (writebyte o c).
Proof.
  pose proof (put_appends o 1 [u8 c] eq_refl) as P. revert P.
  unfold writebyte, reserve. replace (limit o <? zlen (cur o) + 1) with (limit o <=? zlen (cur o))
    by zcases. done.
Qed.

Lemma writeblock_appends o data : appends o data (writeblock o data).
Proof. by apply put_appends. Qed.
Lemma writecode8_appends o c v : appends o [u8 c; u8 v] (writecode8 o c v).
Proof. by apply put_appends. Qed.
Lemma writecode16_appends o c v : appends o (u8 c :: store16 (s32 v)) (writecode16 o c v).
Proof. by apply put_appends. Qed.
Lemma writecode32_appends o c v : appends o (u8 c :: store32 v) (writecode32 o c v).
Proof. by apply put_appends. Qed.
Lemma writecode64_appends o c v : appends o (u8 c :: store64 v) (writecode64 o c v).
Proof. by apply put_appends. Qed.
Create HintDb intext.
#[export] Hint Resolve writebyte_appends writeblock_appends writecode8_appends
  writecode16_appends writecode32_appends writecode64_appends : intext.

Lemma appends_trans o bs1 bs2 r k :
  appends o bs1 r -> (forall o', appends o' bs2 (k o')) -> appends o (bs1 ++ bs2) (rbind r k).
Proof.
  unfold appends. intros H1 H2. rewrite zlen_app. pose proof (zlen_nonneg bs2).
  destruct (userprovided o) eqn:U; simpl in *.
  - destruct (Z.ltb_spec (limit o) (zlen (cur o) + zlen bs1)).
    + rewrite H1. by rewrite (proj2 (Z.ltb_lt _ _)) by lia.
    + destruct H1 as (o1 & -> & C1 & U1 & R1). destruct R1 as [L1 R1]; [done|]. cbn [rbind].
      specialize (H2 o1). rewrite U1, L1, R1, zlen_app in H2. simpl in H2.
      rewrite <- Z.add_assoc in H2.
      destruct (Z.ltb_spec (limit o) (zlen (cur o) + (zlen bs1 + zlen bs2))); [done|].
      destruct H2 as (o2 & -> & C2 & U2 & R2). destruct R2 as [L2 R2]; [done|].
      exists o2. rewrite C2, C1, R2, L2, U2, !app_assoc. done.
  - destruct H1 as (o1 & -> & C1 & U1 & _). cbn [rbind]. specialize (H2 o1).
    rewrite U1 in H2. simpl in H2. destruct H2 as (o2 & -> & C2 & U2 & _).
    exists o2. rewrite C2, C1, U2, !app_assoc. done.
Qed.

Lemma extern_output_length_eq o : extern_output_length o = zlen (contents o).
Proof.
  unfold extern_output_length, contents. rewrite zlen_app.
  induction (blocks o) as [|b bs IH]; simpl; [unfold zlen at 2; simpl; lia|]. rewrite IH, zlen_app. lia.
Qed.

(** ** Big-endian integers *)

Lemma store16_eq n : store16 n = rev (le_bytes 2 n).
Proof. unfold store16, u8. simpl. by rewrite Z.shiftr_div_pow2 by lia. Qed.
Lemma store32_eq n : store32 n = rev (le_bytes 4 n).
Proof. unfold store32, u8. simpl. by rewrite !Z.shiftr_div_pow2, !Z.div_div by lia. Qed.
Lemma store64_eq n : store64 n = rev (le_bytes 8 n).
Proof. unfold store64, u8. simpl. by rewrite !Z.shiftr_div_pow2, !Z.div_div by lia. Qed.

Lemma read16_be b0 b1 src :
  read16u (b0 :: b1 :: src) = Ok (u16 (le_word (rev [b0; b1])), src) /\
  read16s (b0 :: b1 :: src) = Ok (s16 (le_word (rev [b0; b1])), src).
Proof.
  unfold read16u, read16s. simpl. rewrite Z.shiftl_mul_pow2 by lia.
  split; do 3 f_equal; lia.
Qed.
Lemma read32_be b0 b1 b2 b3 src :
  read32u (b0 :: b1 :: b2 :: b3 :: src) = Ok (u32 (le_word (rev [b0; b1; b2; b3])), src) /\
  read32s (b0 :: b1 :: b2 :: b3 :: src) = Ok (s32 (le_word (rev [b0; b1; b2; b3])), src).
Proof.
  unfold read32u, read32s. simpl. rewrite !Z.shiftl_mul_pow2 by lia.
  split; do 3 f_equal; lia.
Qed.
Lemma read64_be b0 b1 b2 b3 b4 b5 b6 b7 src :
  read64u (b0 :: b1 :: b2 :: b3 :: b4 :: b5 :: b6 :: b7 :: src) =
    Ok (u64 (le_word (rev [b0; b1; b2; b3; b4; b5; b6; b7])), src).
Proof.
  unfold read64u. simpl. rewrite !Z.shiftl_mul_pow2 by lia. do 3 f_equal. lia.
Qed.

Lemma read16_store n src :
  read16u (store16 n ++ src) = Ok (u16 n, src) /\ read16s (store16 n ++ src) = Ok (s16 n, src).
Proof.
  unfold store16 at 1 2. simpl app. destruct (read16_be (u8 (Z.shiftr n 8)) (u8 n) src) as [-> ->].
  change [u8 (Z.shiftr n 8); u8 n] with (store16 n).
  rewrite store16_eq, rev_involutive, le_word_bytes. change (256 ^ Z.of_nat 2) with (2 ^ 16).
  split; do 2 f_equal; solve_word.
Qed.
Lemma read32_store n src :
  read32u (store32 n ++ src) = Ok (u32 n, src) /\ read32s (store32 n ++ src) = Ok (s32 n, src).
Proof.
  unfold store32 at 1 2. simpl app.
  destruct (read32_be (u8 (Z.shiftr n 24)) (u8 (Z.shiftr n 16)) (u8 (Z.shiftr n 8)) (u8 n) src) as [-> ->].
  change [u8 (Z.shiftr n 24); u8 (Z.shiftr n 16); u8 (Z.shiftr n 8); u8 n] with (store32 n).
  rewrite store32_eq, rev_involutive, le_word_bytes. change (256 ^ Z.of_nat 4) with (2 ^ 32).
  split; do 2 f_equal; solve_word.
Qed.
Lemma read64_store n src : read64u (store64 n ++ src) = Ok (u64 n, src).
Proof.
  unfold store64. simpl app. rewrite read64_be.
  change [u8 (Z.shiftr n 56); u8 (Z.shiftr n 48); u8 (Z.shiftr n 40); u8 (Z.shiftr n 32);
    u8 (Z.shiftr n 24); u8 (Z.shiftr n 16); u8 (Z.shiftr n 8); u8 n] with (store64 n).
  rewrite store64_eq, rev_involutive, le_word_bytes. change (256 ^ Z.of_nat 8) with (2 ^ 64).
  do 2 f_equal. solve_word.
Qed.
Lemma read8_store n src :
  read8u (u8 n :: src) = Ok (u8 n, src) /\
  read8s (u8 n :: src) = Ok ((n + 128) mod 256 - 128, src).
Proof.
  split; [done|]. unfold read8s. simpl. do 2 f_equal. unfold u8. zcases; solve_word.
Qed.

(** ** Variable-length quantities *)

Definition is_digit7 (d : Z) : Prop := 0 <= d < 128.

(** the bytes of a nonempty sequence of base-128 digits, high digit first *)
Fixpoint vlq_bytes (ds : list Z) : list Z :=
  match ds with
  | [] => []
  | [d] => [d]
  | d :: ds => Z.lor 0x80 d :: vlq_bytes ds
  end.

Fixpoint vlq_value (acc : Z) (ds : list Z) : Z :=
  match ds with [] => acc | d :: ds => vlq_value (128 * acc + d) ds end.

Lemma vlq_value_acc ds : forall acc,
  vlq_value acc ds = acc * 128 ^ zlen ds + vlq_value 0 ds.
Proof.
  induction ds as [|d ds IH]; intros acc; cbn [vlq_value]; [unfold zlen; simpl; lia|].
  rewrite (IH (128 * acc + d)), (IH (128 * 0 + d)), zlen_cons, Z.pow_add_r by
    (pose proof (zlen_nonneg ds); lia). lia.
Qed.

Lemma vlq_value_ge ds acc : 0 <= acc -> Forall is_digit7 ds -> acc <= vlq_value acc ds.
Proof.
  revert acc. induction ds as [|d ds IH]; intros acc Ha Hd; cbn [vlq_value]; [lia|].
  apply Forall_cons in Hd as [Hd Hds]. unfold is_digit7 in Hd.
  specialize (IH (128 * acc + d)). transitivity (128 * acc + d); [lia|]. apply IH; [lia|done].
Qed.

Lemma digit7_bits d : is_digit7 d ->
  Z.land d 0x80 = 0 /\ Z.land (Z.lor 0x80 d) 0x80 = 0x80 /\ Z.land d 0x7F = d /\
  Z.land (Z.lor 0x80 d) 0x7F = d.
Proof.
  intros Hd. assert (Hh : forall i, 7 <= i -> Z.testbit d i = false).
  { intros i Hi. apply (testbit_high d 7); [|done]. exact Hd. }
  assert (Hl : Z.land d 0x7F = d).
  { change 0x7F with (Z.ones 7). rewrite Z.land_ones by lia. apply Z.mod_small. exact Hd. }
  assert (H0 : Z.land d 0x80 = 0).
  { apply Z.bits_inj'. intros i Hi. rewrite Z.land_spec, Z.testbit_0_l.
    change 0x80 with (2 ^ 7). rewrite Z.pow2_bits_eqb by lia.
    destruct (Z.eqb_spec 7 i) as [<-|]; [by rewrite Hh|apply andb_false_r]. }
  split_and!; [done| |done|].
  - by rewrite Z.land_lor_distr_l, H0.
  - by rewrite Z.land_lor_distr_l, Hl.
Qed.

Lemma readvlq_loop_bytes ds : forall fuel c acc rest,
  (length ds < fuel)%nat -> (Z.land c 0x80 =? 0) = bool_decide (ds = []) ->
  Forall is_digit7 ds -> 0 <= acc -> vlq_value acc ds < 2 ^ 64 ->
  readvlq_loop fuel c acc 0 (vlq_bytes ds ++ rest) = Ok (0, vlq_value acc ds, rest).
Proof.
  induction ds as [|d ds IH]; intros [|fuel] c acc rest Hf Hc Hd Ha Hv;
    try (simpl in Hf; lia); cbn [readvlq_loop]; rewrite Hc; [done|].
  apply Forall_cons in Hd as [Hd Hds]. destruct (digit7_bits d Hd) as (B1 & B2 & B3 & B4).
  set (b := match ds with [] => d | _ => Z.lor 0x80 d end).
  assert (E : vlq_bytes (d :: ds) ++ rest = b :: (vlq_bytes ds ++ rest)) by (by destruct ds).
  rewrite E. cbn [read8u rbind bool_decide decide]. rewrite bool_decide_false by done.
  cbn [vlq_value] in Hv |- *.
  assert (128 * acc + d <= vlq_value (128 * acc + d) ds) by
    (apply vlq_value_ge; [unfold is_digit7 in Hd; lia|done]).
  unfold is_digit7 in Hd.
  assert (Hn7 : u64 (Z.shiftl acc 7) = 128 * acc).
  { rewrite Z.shiftl_mul_pow2, u64_id by (unfold is_u64; lia). lia. }
  assert (Hr : Z.shiftr (128 * acc) 7 = acc).
  { rewrite Z.shiftr_div_pow2, Z.mul_comm by lia. by apply Z.div_mul. }
  rewrite Hn7, Hr, Z.eqb_refl. cbn [negb].
  assert (Eb : Z.land b 0x7F = d) by (unfold b; by destruct ds).
  rewrite Eb. assert (El : Z.lor (128 * acc) d = 128 * acc + d).
  { apply (lor_add _ _ 7); [lia| |lia]. change (2 ^ 7) with 128.
    rewrite (Z.mul_comm 128 acc), Z.div_mul by lia. lia. }
  rewrite El. apply IH; [simpl in Hf; lia| |done|lia|done].
  unfold b. destruct ds; [by rewrite B1|by rewrite B2].
Qed.

Lemma digit7_low m : is_digit7 (Z.land m 0x7F) /\ m = 128 * Z.shiftr m 7 + Z.land m 0x7F.
Proof.
  change 0x7F with (Z.ones 7). rewrite Z.land_ones, Z.shiftr_div_pow2 by lia.
  unfold is_digit7. split; [|rewrite (Z.div_mod m (2 ^ 7)) at 1 by lia; lia].
  pose proof (Z.mod_pos_bound m (2 ^ 7)). lia.
Qed.

(** [k] bounds the number of iterations *)
Lemma storevlq_loop_bytes k : forall fuel m ds,
  0 <= m < 128 ^ Z.of_nat k -> (k < fuel)%nat -> ds <> [] -> Forall is_digit7 ds ->
  exists ds', storevlq_loop fuel m (vlq_bytes ds) = Ok (vlq_bytes ds') /\ ds' <> [] /\
    Forall is_digit7 ds' /\ vlq_value 0 ds' = m * 128 ^ zlen ds + vlq_value 0 ds /\
    zlen ds' <= zlen ds + Z.of_nat k.
Proof.
  induction k as [|k IH]; intros [|fuel] m ds Hm Hf Hne Hds; try lia;
    cbn [storevlq_loop]; (destruct (Z.eqb_spec m 0) as [->|N];
      [exists ds; split_and!; try done; lia|]).
  - simpl in Hm. lia.
  - destruct (digit7_low m) as [Hd Em].
    replace (Z.lor 0x80 (Z.land m 0x7F) :: vlq_bytes ds)
      with (vlq_bytes (Z.land m 0x7F :: ds)) by (by destruct ds).
    assert (Hs : 0 <= Z.shiftr m 7 < 128 ^ Z.of_nat k).
    { rewrite Nat2Z.inj_succ, Z.pow_succ_r in Hm by lia. unfold is_digit7 in Hd. nia. }
    destruct (IH fuel (Z.shiftr m 7) (Z.land m 0x7F :: ds)) as (ds' & E & Hne' & Hds' & V & L);
      [done|lia|done|by constructor|].
    exists ds'. rewrite zlen_cons in V, L. split_and!; try done; [|lia].
    rewrite V, Z.pow_add_r by (pose proof (zlen_nonneg ds); lia).
    cbn [vlq_value]. rewrite (vlq_value_acc ds (128 * 0 + _)). rewrite Em at 3. lia.
Qed.

Lemma vlq_bytes_length ds : zlen (vlq_bytes ds) = zlen ds.
Proof.
  induction ds as [|d [|d' ds] IH]; try done. cbn [vlq_bytes] in *.
  rewrite zlen_cons, IH. by rewrite (zlen_cons d).
Qed.

Lemma storevlq_readvlq n rest :
  is_u64 n -> exists bs, storevlq n = Ok bs /\ 1 <= zlen bs <= 10 /\
    readvlq (bs ++ rest) = Ok (0, n, rest).
Proof.
  intros Hn. unfold storevlq, is_u64 in *. destruct (digit7_low n) as [Hd En].
  assert (Hs : 0 <= Z.shiftr n 7 < 128 ^ Z.of_nat 9) by (unfold is_digit7 in Hd; simpl; lia).
  destruct (storevlq_loop_bytes 9 11 (Z.shiftr n 7) [Z.land n 0x7F]) as (ds & E & Hne & Hds & V & L);
    [done|lia|done|by constructor|].
  cbn [vlq_bytes] in E. rewrite E. exists (vlq_bytes ds). split_and!; [done| | |].
  - rewrite vlq_bytes_length. destruct ds; [done|]. rewrite zlen_cons. pose proof (zlen_nonneg ds). lia.
  - rewrite vlq_bytes_length. change (zlen [_]) with 1 in L. lia.
  - assert (V' : vlq_value 0 ds = n) by (rewrite V; unfold zlen; cbn; lia).
    destruct ds as [|d ds]; [done|]. apply Forall_cons in Hds as [Hd0 Hds].
    destruct (digit7_bits d Hd0) as (B1 & B2 & B3 & B4).
    set (b := match ds with [] => d | _ => Z.lor 0x80 d end).
    assert (Eb : vlq_bytes (d :: ds) ++ rest = b :: (vlq_bytes ds ++ rest)) by (by destruct ds).
    assert (E7 : Z.land b 0x7F = d) by (unfold b; by destruct ds).
    unfold readvlq. rewrite Eb. cbn [read8u rbind]. rewrite E7.
    cbn [vlq_value] in V'. replace (128 * 0 + d) with d in V' by lia.
    rewrite readvlq_loop_bytes; [by rewrite V'| | |done|unfold is_digit7 in Hd0; lia|lia].
    + pose proof (vlq_bytes_length ds) as Lb. unfold zlen in Lb. rewrite length_app. lia.
    + unfold b. destruct ds; [by rewrite B1|by rewrite B2].
Qed.
