(* ===== verification/Ints.v ===== *)
(** * Integers ([ocaml/runtime/ints.c])

    Reading integers from strings, [Int32], [Int64] and [Nativeint] arithmetic,
    byte swapping, marshaling of boxed integers, and the preparation of formats.
    A boxed integer is represented by the C integer it holds; a C operation that
    overflows wraps around, as the runtime is compiled with [-fwrapv]; a shift by
    the width or more, or by a negative amount, is undefined behaviour.
    Conversions between integers and floating-point numbers are not modelled.

    [int_spec] is the reference for reading: the sign, the base prefix, a digit, digits
    and underscores, then the range test on the mathematical integer.  The interfaces of the
    standard library say that underscores can appear anywhere; before the first digit they
    are refused ([leading_underscore]). *)

From S2P Require Import Prelude.
From S2P Require Import Mlvalues.
From S2P Require Import Str.
From S2P Require Import Intext.
#[local] Open Scope Z_scope.

(** ** Reading integers *)

(** characters *)
Definition chr_plus : Z := 43.
Definition chr_minus : Z := 45.
Definition chr_0 : Z := 48.
Definition chr_9 : Z := 57.
Definition chr_A : Z := 65.
Definition chr_F : Z := 70.
Definition chr_underscore : Z := 95.
Definition chr_a : Z := 97.
Definition chr_f : Z := 102.

(** [(p, base, signedness, sign)] *)
Definition parse_sign_and_base (s : list Z) (p : Z) : result (Z * Z * bool * Z) :=
  let* c := rd s p in
  let (sign, p) := (if c =? chr_minus then (-1, p + 1)
                    else if c =? chr_plus then (1, p + 1) else (1, p)) : Z * Z in
  let* c := rd s p in
  if c =? chr_0 then
    let* c1 := rd s (p + 1) in
    if (c1 =? 120) || (c1 =? 88) then Ok (p + 2, 16, false, sign)        (* x X *)
    else if (c1 =? 111) || (c1 =? 79) then Ok (p + 2, 8, false, sign)    (* o O *)
    else if (c1 =? 98) || (c1 =? 66) then Ok (p + 2, 2, false, sign)     (* b B *)
    else if (c1 =? 117) || (c1 =? 85) then Ok (p + 2, 10, false, sign)   (* u U *)
    else Ok (p, 10, true, sign)
  else Ok (p, 10, true, sign).

Definition parse_digit (c : Z) : Z :=
  if (chr_0 <=? c) && (c <=? chr_9) then c - chr_0
  else if (chr_A <=? c) && (c <=? chr_F) then c - chr_A + 10
  else if (chr_a <=? c) && (c <=? chr_f) then c - chr_a + 10
  else -1.

(** the loop over the digits: the position after the last one, and the number *)
Fixpoint parse_digits (fuel : nat) (s : list Z) (base threshold : Z) (errmsg : string)
    (p res : Z) : result (Z * Z) :=
  match fuel with
  | O => NoFuel
  | S fuel =>
      let* c := rd s p in
      if c =? chr_underscore then parse_digits fuel s base threshold errmsg (p + 1) res else
      let d := parse_digit c in
      if (d <? 0) || (base <=? d) then Ok (p, res) else
      if threshold <? res then Raise (Failure errmsg) else
      let res := u64 (base * res + d) in
      if res <? d then Raise (Failure errmsg)
      else parse_digits fuel s base threshold errmsg (p + 1) res
  end.

Definition parse_intnat (s : list Z) (nbits : Z) (errmsg : string) : result Z :=
  let* (p, base, signedness, sign) := parse_sign_and_base s 0 in
  let threshold := (2 ^ 64 - 1) / base in
  let* c := rd s p in
  let d := parse_digit c in
  if (d <? 0) || (base <=? d) then Raise (Failure errmsg) else
  let* (p, res) := parse_digits (S (length s)) s base threshold errmsg (p + 1) d in
  let* len := caml_string_length s in
  if negb (p =? len) then Raise (Failure errmsg) else
  let too_big :=
    if signedness
    then if 0 <=? sign then 2 ^ (nbits - 1) <=? res else 2 ^ (nbits - 1) <? res
    else (nbits <? 64) && (2 ^ nbits <=? res) in
  if too_big then Raise (Failure errmsg)
  else Ok (if sign <? 0 then s64 (- s64 res) else s64 res).

Definition INT_ERRMSG : string := "int_of_string".
Definition INT32_ERRMSG : string := "Int32.of_string".
Definition INT64_ERRMSG : string := "Int64.of_string".
Definition INTNAT_ERRMSG : string := "Nativeint.of_string".

Definition caml_int_of_string (s : list Z) : result Z :=
  let* n := parse_intnat s 63 INT_ERRMSG in Ok (Val_long n).
Definition caml_int32_of_string (s : list Z) : result Z :=
  let* n := parse_intnat s 32 INT32_ERRMSG in Ok (s32 n).
Definition caml_nativeint_of_string (s : list Z) : result Z :=
  parse_intnat s 64 INTNAT_ERRMSG.

(** the separate code of [Int64.of_string] *)
Definition caml_int64_of_string (s : list Z) : result Z :=
  let* (p, base, signedness, sign) := parse_sign_and_base s 0 in
  let threshold := (2 ^ 64 - 1) / base in
  let* c := rd s p in
  let d := parse_digit c in
  if (d <? 0) || (base <=? d) then Raise (Failure INT64_ERRMSG) else
  let* (p, res) := parse_digits (S (length s)) s base threshold INT64_ERRMSG (p + 1) d in
  let* len := caml_string_length s in
  if negb (p =? len) then Raise (Failure INT64_ERRMSG) else
  let too_big :=
    if signedness
    then if 0 <=? sign then 2 ^ 63 <=? res else 2 ^ 63 <? res
    else false in
  if too_big then Raise (Failure INT64_ERRMSG)
  else Ok (s64 (if sign <? 0 then u64 (- res) else res)).

(** ** Formats *)

Definition FORMAT_BUFFER_SIZE : Z := 32.
Definition is_lnL (c : Z) : bool := (c =? 108) || (c =? 110) || (c =? 76).

(** [(lastletter, format_string)]; [buf] is the previous contents of the buffer *)
Definition parse_format (fmt suffix buf : list Z) : result (Z * list Z) :=
  let* len := caml_string_length fmt in
  let len_suffix := zlen suffix in
  if FORMAT_BUFFER_SIZE <=? len + len_suffix + 1
  then Raise (Invalid_argument "format_int: format too long") else
  let* data := slice fmt 0 len in
  let* buf := memcpy buf 0 data in
  let p := len - 1 in
  let* lastletter := rd buf p in
  let* c := rd buf (p - 1) in
  let p := if is_lnL c then p - 1 else p in
  let* buf := memcpy buf p suffix in
  let p := p + len_suffix in
  let* buf := wr buf p lastletter in
  let* buf := wr buf (p + 1) 0 in
  Ok (lastletter, buf).

Definition ARCH_INT32_PRINTF_FORMAT : list Z := [].
Definition ARCH_INT64_PRINTF_FORMAT : list Z := [108].
Definition ARCH_INTNAT_PRINTF_FORMAT : list Z := [108].

(** [sprintf format arg]: the text printed by the C library; [buf], [obuf] and
    [fresh] are the previous contents of the memory used *)
Section Format.
Context (sprintf : list Z -> Z -> list Z).
Context (buf obuf fresh : list Z).

(** the C string at the start of a buffer *)
Definition c_string (b : list Z) : result (list Z) :=
  let* n := strlen b in Ok (take (Z.to_nat n) b).

Definition format_number (fs : list Z) (n : Z) : result (list Z) :=
  let* f := c_string fs in caml_alloc_sprintf obuf fresh (sprintf f n).

Definition caml_format_int (fmt : list Z) (arg : Z) : result (list Z) :=
  let* (conv, fs) := parse_format fmt ARCH_INTNAT_PRINTF_FORMAT buf in
  if (conv =? 117) || (conv =? 120) || (conv =? 88) || (conv =? 111)  (* u x X o *)
  then format_number fs (Unsigned_long_val arg)
  else format_number fs (Long_val arg).

Definition caml_int32_format (fmt : list Z) (n : Z) : result (list Z) :=
  let* (_, fs) := parse_format fmt ARCH_INT32_PRINTF_FORMAT buf in format_number fs n.
Definition caml_int64_format (fmt : list Z) (n : Z) : result (list Z) :=
  let* (_, fs) := parse_format fmt ARCH_INT64_PRINTF_FORMAT buf in format_number fs n.
Definition caml_nativeint_format (fmt : list Z) (n : Z) : result (list Z) :=
  let* (_, fs) := parse_format fmt ARCH_INTNAT_PRINTF_FORMAT buf in format_number fs n.
End Format.

(** ** Comparison, byte swapping *)

Definition COMPARE_INT (v1 v2 : Z) : Z :=
  (if v2 <? v1 then 1 else 0) - (if v1 <? v2 then 1 else 0).

(** the operands are compared as tagged words *)
Definition caml_int_compare (v1 v2 : Z) : Z := Val_long (COMPARE_INT v1 v2).

Definition caml_bswap16_direct (x : Z) : Z :=
  Z.lor (Z.shiftl (Z.land x 0x00FF) 8) (Z.shiftr (Z.land x 0xFF00) 8).
Definition caml_bswap16 (v : Z) : Z :=
  let x := Int_val v in
  Val_int (Z.lor (Z.shiftl (Z.land x 0x00FF) 8) (Z.shiftr (Z.land x 0xFF00) 8)).

(** the last operand is unsigned in C, and so is the result before its conversion *)
Definition caml_swap32 (x : Z) : Z :=
  s32 (Z.lor (Z.lor (Z.lor
    (u32 (Z.shiftl (Z.land x 0x000000FF) 24))
    (u32 (Z.shiftl (Z.land x 0x0000FF00) 8)))
    (Z.shiftr (Z.land x 0x00FF0000) 8))
    (Z.shiftr (Z.land (u32 x) 0xFF000000) 24)).

Definition swap64 (x : Z) : Z :=
  s64 (Z.lor (Z.lor (Z.lor (Z.lor (Z.lor (Z.lor (Z.lor
    (u64 (Z.shiftl (Z.land x 0x00000000000000FF) 56))
    (u64 (Z.shiftl (Z.land x 0x000000000000FF00) 40)))
    (Z.shiftl (Z.land x 0x0000000000FF0000) 24))
    (Z.shiftl (Z.land x 0x00000000FF000000) 8))
    (Z.shiftr (Z.land x 0x000000FF00000000) 8))
    (Z.shiftr (Z.land x 0x0000FF0000000000) 24))
    (Z.shiftr (Z.land x 0x00FF000000000000) 40))
    (Z.shiftr (Z.land (u64 x) 0xFF00000000000000) 56)).
Definition caml_swap64 (x : Z) : Z := swap64 x.
Definition caml_int32_bswap (n : Z) : Z := caml_swap32 n.
Definition caml_int64_bswap (n : Z) : Z := swap64 n.
Definition caml_nativeint_bswap (n : Z) : Z := caml_swap64 n.

(** ** Arithmetic *)

Definition caml_int32_neg (a : Z) : Z := s32 (- a).
Definition caml_int32_add (a b : Z) : Z := s32 (a + b).
Definition caml_int32_sub (a b : Z) : Z := s32 (a - b).
Definition caml_int32_mul (a b : Z) : Z := s32 (a * b).
Definition caml_int32_div (dividend divisor : Z) : result Z :=
  if divisor =? 0 then Raise Zero_divide
  else if (dividend =? s32 (Z.shiftl 1 31)) && (divisor =? -1) then Ok dividend
  else Ok (Z.quot dividend divisor).
Definition caml_int32_mod (dividend divisor : Z) : result Z :=
  if divisor =? 0 then Raise Zero_divide
  else if (dividend =? s32 (Z.shiftl 1 31)) && (divisor =? -1) then Ok 0
  else Ok (Z.rem dividend divisor).
Definition caml_int32_and (a b : Z) : Z := Z.land a b.
Definition caml_int32_or (a b : Z) : Z := Z.lor a b.
Definition caml_int32_xor (a b : Z) : Z := Z.lxor a b.

(** a shift count in range *)
Definition with_shift (width n : Z) (r : Z) : result Z :=
  if (0 <=? n) && (n <? width) then Ok r else Undef.

Definition caml_int32_shift_left (a n : Z) : result Z :=
  with_shift 32 (Int_val n) (s32 (Z.shiftl a (Int_val n))).
Definition caml_int32_shift_right (a n : Z) : result Z :=
  with_shift 32 (Int_val n) (Z.shiftr a (Int_val n)).
Definition caml_int32_shift_right_unsigned (a n : Z) : result Z :=
  with_shift 32 (Int_val n) (s32 (Z.shiftr (u32 a) (Int_val n))).
Definition caml_int32_of_int (v : Z) : Z := s32 (Long_val v).
Definition caml_int32_to_int (n : Z) : Z := Val_long n.
Definition caml_int32_compare (a b : Z) : Z := Val_int (COMPARE_INT a b).

Definition caml_int64_neg (a : Z) : Z := s64 (- a).
Definition caml_int64_add (a b : Z) : Z := s64 (a + b).
Definition caml_int64_sub (a b : Z) : Z := s64 (a - b).
Definition caml_int64_mul (a b : Z) : Z := s64 (a * b).
Definition caml_int64_div (dividend divisor : Z) : result Z :=
  if divisor =? 0 then Raise Zero_divide
  else if (dividend =? s64 (Z.shiftl 1 63)) && (divisor =? -1) then Ok dividend
  else Ok (Z.quot dividend divisor).
Definition caml_int64_mod (dividend divisor : Z) : result Z :=
  if divisor =? 0 then Raise Zero_divide
  else if (dividend =? s64 (Z.shiftl 1 63)) && (divisor =? -1) then Ok 0
  else Ok (Z.rem dividend divisor).
Definition caml_int64_and (a b : Z) : Z := Z.land a b.
Definition caml_int64_or (a b : Z) : Z := Z.lor a b.
Definition caml_int64_xor (a b : Z) : Z := Z.lxor a b.
Definition caml_int64_shift_left (a n : Z) : result Z :=
  with_shift 64 (Int_val n) (s64 (Z.shiftl a (Int_val n))).
Definition caml_int64_shift_right (a n : Z) : result Z :=
  with_shift 64 (Int_val n) (Z.shiftr a (Int_val n)).
Definition caml_int64_shift_right_unsigned (a n : Z) : result Z :=
  with_shift 64 (Int_val n) (s64 (Z.shiftr (u64 a) (Int_val n))).
Definition caml_int64_of_int (v : Z) : Z := Long_val v.
Definition caml_int64_to_int (n : Z) : Z := Val_long n.
Definition caml_int64_of_int32 (n : Z) : Z := n.
Definition caml_int64_to_int32 (n : Z) : Z := s32 n.
Definition caml_int64_compare (a b : Z) : Z := Val_int (COMPARE_INT a b).

(** [nativeint] is 64 bits wide; its primitives have their own code *)
Definition Nativeint_min_int : Z := s64 (Z.shiftl 1 63).
Definition caml_nativeint_neg (a : Z) : Z := s64 (- a).
Definition caml_nativeint_add (a b : Z) : Z := s64 (a + b).
Definition caml_nativeint_sub (a b : Z) : Z := s64 (a - b).
Definition caml_nativeint_mul (a b : Z) : Z := s64 (a * b).
Definition caml_nativeint_div (dividend divisor : Z) : result Z :=
  if divisor =? 0 then Raise Zero_divide
  else if (dividend =? Nativeint_min_int) && (divisor =? -1) then Ok dividend
  else Ok (Z.quot dividend divisor).
Definition caml_nativeint_mod (dividend divisor : Z) : result Z :=
  if divisor =? 0 then Raise Zero_divide
  else if (dividend =? Nativeint_min_int) && (divisor =? -1) then Ok 0
  else Ok (Z.rem dividend divisor).
Definition caml_nativeint_and (a b : Z) : Z := Z.land a b.
Definition caml_nativeint_or (a b : Z) : Z := Z.lor a b.
Definition caml_nativeint_xor (a b : Z) : Z := Z.lxor a b.
Definition caml_nativeint_shift_left (a n : Z) : result Z :=
  with_shift 64 (Int_val n) (s64 (Z.shiftl a (Int_val n))).
Definition caml_nativeint_shift_right (a n : Z) : result Z :=
  with_shift 64 (Int_val n) (Z.shiftr a (Int_val n)).
Definition caml_nativeint_shift_right_unsigned (a n : Z) : result Z :=
  with_shift 64 (Int_val n) (s64 (Z.shiftr (u64 a) (Int_val n))).
Definition caml_nativeint_of_int (v : Z) : Z := Long_val v.
Definition caml_nativeint_to_int (n : Z) : Z := Val_long n.
Definition caml_nativeint_of_int32 (n : Z) : Z := n.
Definition caml_nativeint_to_int32 (n : Z) : Z := s32 n.
Definition caml_nativeint_compare (a b : Z) : Z := Val_int (COMPARE_INT a b).

(** ** Operations of the custom blocks *)

Definition int32_cmp (a b : Z) : Z := COMPARE_INT a b.
Definition int64_cmp (a b : Z) : Z := COMPARE_INT a b.
Definition nativeint_cmp (a b : Z) : Z := COMPARE_INT a b.

Definition int32_hash (n : Z) : Z := n.
Definition int64_hash (x : Z) : Z := Z.lxor (u32 (Z.shiftr x 32)) (u32 x).
Definition nativeint_hash (n : Z) : Z :=
  Z.lxor (Z.lxor (Z.shiftr n 32) (Z.shiftr n 63)) n.

(** [(output, bsize_32, bsize_64)] *)
Definition int32_serialize (o : output) (n : Z) : result (output * Z * Z) :=
  let* o := caml_serialize_int_4 o n in Ok (o, 4, 4).
Definition int64_serialize (o : output) (n : Z) : result (output * Z * Z) :=
  let* o := caml_serialize_int_8 o n in Ok (o, 8, 8).
Definition nativeint_serialize (o : output) (l : Z) : result (output * Z * Z) :=
  let* o :=
    if (- 2 ^ 31 <=? l) && (l <? 2 ^ 31) then
      let* o := caml_serialize_int_1 o 1 in caml_serialize_int_4 o (s32 l)
    else
      let* o := caml_serialize_int_1 o 2 in caml_serialize_int_8 o l in
  Ok (o, 4, 8).

(** [(contents, size, rest of the input)] *)
Definition int32_deserialize (src : list Z) : result (Z * Z * list Z) :=
  let* (n, src) := caml_deserialize_sint_4 src in Ok (n, 4, src).
Definition int64_deserialize (src : list Z) : result (Z * Z * list Z) :=
  let* (n, src) := caml_deserialize_sint_8 src in Ok (n, 8, src).
Definition nativeint_deserialize (src : list Z) : result (Z * Z * list Z) :=
  let* (tag, src) := caml_deserialize_uint_1 src in
  let* (n, src) :=
    if tag =? 1 then caml_deserialize_sint_4 src
    else if tag =? 2 then caml_deserialize_sint_8 src
    else Raise (Failure "input_value: ill-formed native integer") in
  Ok (n, 8, src).

(** ** The reference for reading integers *)

Definition strip_sign (s : list Z) : Z * list Z :=
  match s with
  | c :: s' => if c =? chr_minus then (-1, s') else if c =? chr_plus then (1, s') else (1, s)
  | [] => (1, [])
  end.

(** base, signedness, digits *)
Definition strip_base (s : list Z) : Z * bool * list Z :=
  match s with
  | c :: c1 :: s' =>
      if c =? chr_0 then
        if bool_decide (c1 ∈ [120; 88]) then (16, false, s')
        else if bool_decide (c1 ∈ [111; 79]) then (8, false, s')
        else if bool_decide (c1 ∈ [98; 66]) then (2, false, s')
        else if bool_decide (c1 ∈ [117; 85]) then (10, false, s')
        else (10, true, s)
      else (10, true, s)
  | _ => (10, true, s)
  end.

(** the digits, in the order of their values: 0 to 9 and A to F, and in lower case *)
Definition upper_digits : list Z := [48; 49; 50; 51; 52; 53; 54; 55; 56; 57; 65; 66; 67; 68; 69; 70].
Definition lower_digits : list Z := [48; 49; 50; 51; 52; 53; 54; 55; 56; 57; 97; 98; 99; 100; 101; 102].

(** the place of a character among the digits of the base *)
Definition digit_of (base c : Z) : option Z :=
  let place digits := (fun '(i, _) => Z.of_nat i) <$> list_find (eq c) (take (Z.to_nat base) digits) in
  match place upper_digits with Some d => Some d | None => place lower_digits end.

(** [None] when a character is neither a digit of the base nor an underscore *)
Fixpoint digits_value (base acc : Z) (s : list Z) : option Z :=
  match s with
  | [] => Some acc
  | c :: s =>
      if c =? chr_underscore then digits_value base acc s
      else match digit_of base c with Some d => digits_value base (base * acc + d) s | None => None end
  end.

Definition number_value (base : Z) (s : list Z) : option Z :=
  match s with
  | [] => None
  | c :: s => match digit_of base c with Some d => digits_value base d s | None => None end
  end.

(** [n] wrapped to a signed integer of [nbits] bits *)
Definition wrap (nbits n : Z) : Z := (n + 2 ^ (nbits - 1)) mod 2 ^ nbits - 2 ^ (nbits - 1).

Definition int_spec (nbits : Z) (s : list Z) : option Z :=
  let (sign, s) := strip_sign s in
  let '(base, signedness, s) := strip_base s in
  v ← number_value base s;
  if signedness
  then if (- 2 ^ (nbits - 1) <=? sign * v) && (sign * v <? 2 ^ (nbits - 1))
       then Some (sign * v) else None
  else if v <? 2 ^ nbits then Some (wrap nbits (sign * v)) else None.

Example int_spec_ex :
  int_spec 63 [45; 49; 95; 48] = Some (-10) /\                (* -1_0 *)
  int_spec 32 [48; 120; 70; 70; 70; 70; 70; 70; 70; 70] = Some (-1) /\   (* 0xFFFFFFFF *)
  int_spec 32 [50; 49; 52; 55; 52; 56; 51; 54; 52; 56] = None.    (* 2147483648 *)
Proof. vm_compute. done. Qed.

(** ** Reading a block at a position *)

(** the byte at the end of a prefix of the contents: the next one, or NUL *)
Lemma rd_block_app blk pre post :
  string_block blk (pre ++ post) -> rd blk (zlen pre) = Ok (hd 0 post).
Proof.
  intros [_ ->]. apply rd_Ok. unfold zlen. split; [lia|]. rewrite Nat2Z.id.
  rewrite <- app_assoc, lookup_app_r, Nat.sub_diag by lia.
  destruct post as [|c post]; [|done].
  destruct (padding_head (length (pre ++ []))) as [r ->]. done.
Qed.

Lemma parse_digit_range c : -1 <= parse_digit c < 16.
Proof.
  unfold parse_digit, chr_0, chr_9, chr_A, chr_F, chr_a, chr_f. zcases.
Qed.

(** [parse_digit] gives the place of a digit *)
Lemma digit_of_parse base c : 2 <= base <= 16 ->
  digit_of base c = let d := parse_digit c in if (d <? 0) || (base <=? d) then None else Some d.
Proof.
  intros Hb. destruct (decide (48 <= c <= 102)) as [Hc|Hc].
  - assert (H : forallb (fun base => forallb (fun c => bool_decide (digit_of base c =
      let d := parse_digit c in if (d <? 0) || (base <=? d) then None else Some d)) (seqZ 48 55)) (seqZ 2 15) = true) by (vm_compute; reflexivity).
    rewrite forallb_forall in H. specialize (H base ltac:(apply list_elem_of_In, elem_of_seqZ; lia)). rewrite forallb_forall in H.
    specialize (H c ltac:(apply list_elem_of_In, elem_of_seqZ; lia)). by apply bool_decide_eq_true in H.
  - assert (Hno : forall digits, Forall (fun x => 48 <= x <= 102) digits -> list_find (eq c) (take (Z.to_nat base) digits) = None).
    { intros digits F. apply list_find_None. apply (Forall_take _ (Z.to_nat base)) in F. eapply Forall_impl; [exact F|]. intros x Hx ->. done. }
    unfold digit_of. rewrite !Hno by (repeat constructor; lia). cbn [fmap option_fmap option_map]. cbv zeta.
    unfold parse_digit, chr_0, chr_9, chr_A, chr_F, chr_a, chr_f. zcases.
Qed.

Lemma digits_value_cons base acc c s : 2 <= base <= 16 -> digits_value base acc (c :: s) =
  if c =? chr_underscore then digits_value base acc s else
  let d := parse_digit c in if (d <? 0) || (base <=? d) then None else digits_value base (base * acc + d) s.
Proof. intros Hb. cbn [digits_value]. rewrite digit_of_parse by done. cbv zeta. destruct (c =? chr_underscore); [done|]. by destruct ((parse_digit c <? 0) || (base <=? parse_digit c)). Qed.

Lemma number_value_cons base c s : 2 <= base <= 16 -> number_value base (c :: s) =
  let d := parse_digit c in if (d <? 0) || (base <=? d) then None else digits_value base d s.
Proof. intros Hb. cbn [number_value]. rewrite digit_of_parse by done. cbv zeta. by destruct ((parse_digit c <? 0) || (base <=? parse_digit c)). Qed.

Lemma digits_value_ge base s : forall acc v,
  2 <= base <= 16 -> 0 <= acc -> digits_value base acc s = Some v -> acc <= v.
Proof.
  induction s as [|c s IH]; intros acc v Hb Ha; [intros [= ->]; lia|]. rewrite digits_value_cons by done. cbv zeta.
  destruct (c =? chr_underscore); [by apply IH|].
  destruct (Z.ltb_spec (parse_digit c) 0), (Z.leb_spec base (parse_digit c)); simpl; try done.
  intros H1. apply IH in H1; nia.
Qed.

(** the digit loop of the C code *)
Lemma parse_digits_correct blk base errmsg post : forall pre res fuel,
  string_block blk (pre ++ post) -> 2 <= base <= 16 -> is_u64 res -> (length post < fuel)%nat ->
  let r := parse_digits fuel blk base ((2 ^ 64 - 1) / base) errmsg (zlen pre) res in
  match digits_value base res post with
  | Some v => if v <? 2 ^ 64 then r = Ok (zlen (pre ++ post), v) else r = Raise (Failure errmsg)
  | None => r = Raise (Failure errmsg) \/ exists p n, r = Ok (p, n) /\ p <> zlen (pre ++ post)
  end.
Proof.
  induction post as [|c post IH]; intros pre res [|fuel] Hb Hbase Hres Hf;
    try (simpl in Hf; lia); cbn zeta; cbn [parse_digits];
    rewrite (rd_block_app _ _ _ Hb); cbn [rbind hd].
  { simpl. rewrite app_nil_r. unfold is_u64 in Hres.
    by rewrite (proj2 (Z.ltb_lt _ _)) by lia. }
  assert (Hb' : string_block blk ((pre ++ [c]) ++ post)) by by rewrite <- app_assoc.
  assert (El : zlen pre + 1 = zlen (pre ++ [c])) by (rewrite zlen_app; done).
  assert (Ea : pre ++ c :: post = (pre ++ [c]) ++ post) by by rewrite <- app_assoc.
  simpl in Hf. rewrite digits_value_cons, El, Ea by done. cbv zeta.
  destruct (c =? chr_underscore); [apply IH; auto; lia|].
  pose proof (parse_digit_range c) as Hd.
  destruct (Z.ltb_spec (parse_digit c) 0), (Z.leb_spec base (parse_digit c)); cbn [orb].
  1-3: right; do 2 eexists; split; [done|]; rewrite <- Ea, zlen_app, zlen_cons;
    pose proof (zlen_nonneg post); lia.
  set (d := parse_digit c) in *. unfold is_u64 in Hres.
  pose proof (Z.div_mod (2 ^ 64 - 1) base ltac:(lia)) as Dt.
  pose proof (Z.mod_pos_bound (2 ^ 64 - 1) base ltac:(lia)) as Mt.
  set (t := (2 ^ 64 - 1) / base) in *.
  assert (Big : 2 ^ 64 <= base * res + d ->
    match digits_value base (base * res + d) post with
    | Some v => if v <? 2 ^ 64 then @Raise (Z * Z) (Failure errmsg) = Ok (zlen (pre ++ [c] ++ post), v)
                else @Raise (Z * Z) (Failure errmsg) = Raise (Failure errmsg)
    | None => @Raise (Z * Z) (Failure errmsg) = Raise (Failure errmsg) \/
        exists p n, @Raise (Z * Z) (Failure errmsg) = Ok (p, n) /\ p <> zlen (pre ++ [c] ++ post)
    end).
  { intros Hbig. destruct (digits_value _ _ post) as [v|] eqn:E; [|by left].
    apply digits_value_ge in E; [|lia..]. by rewrite (proj2 (Z.ltb_ge _ _)) by lia. }
  rewrite <- app_assoc.
  destruct (Z.ltb_spec t res) as [L|L]; [apply Big; nia|].
  assert (Hm : base * res <= 2 ^ 64 - 1) by nia.
  unfold u64. destruct (Z.ltb_spec (base * res + d) (2 ^ 64)) as [S|S].
  - rewrite Z.mod_small by lia. rewrite (proj2 (Z.ltb_ge _ _)) by lia.
    rewrite app_assoc. apply IH; [done|lia|unfold is_u64; lia|lia].
  - rewrite <- (Z.mod_unique (base * res + d) (2 ^ 64) 1 (base * res + d - 2 ^ 64)) by lia.
    rewrite (proj2 (Z.ltb_lt _ _)) by lia. by apply Big.
Qed.

Lemma strip_sign_correct blk s :
  string_block blk s ->
  exists pre, s = pre ++ snd (strip_sign s) /\
    (forall B (k : Z -> Z -> result B),
      rbind (rd blk 0) (fun c =>
        let (sign, p) := (if c =? chr_minus then (-1, 0 + 1)
                          else if c =? chr_plus then (1, 0 + 1) else (1, 0)) : Z * Z in k sign p)
      = k (fst (strip_sign s)) (zlen pre)).
Proof.
  intros Hb. pose proof (rd_block_app blk [] s Hb) as R. change (zlen []) with 0 in R.
  setoid_rewrite R. destruct s as [|c s]; cbn [hd rbind strip_sign].
  - by exists [].
  - destruct (c =? chr_minus); [by exists [c]|]. destruct (c =? chr_plus); [by exists [c]|by exists []].
Qed.

Lemma elem_of_pair_eqb (c a b : Z) : bool_decide (c ∈ [a; b]) = (c =? a) || (c =? b).
Proof.
  apply eq_true_iff_eq. rewrite bool_decide_eq_true, orb_true_iff, !Z.eqb_eq.
  rewrite !elem_of_cons, elem_of_nil. tauto.
Qed.

Lemma parse_sign_and_base_correct blk s :
  string_block blk s ->
  let '(base, signedness, s2) := strip_base (snd (strip_sign s)) in
  2 <= base <= 16 /\ exists pre, s = pre ++ s2 /\
    parse_sign_and_base blk 0 = Ok (zlen pre, base, signedness, fst (strip_sign s)).
Proof.
  intros Hb. destruct (strip_sign_correct blk s Hb) as (pre & Hs & R).
  unfold parse_sign_and_base. rewrite (R _ (fun sign p => _)). clear R.
  set (sign := fst (strip_sign s)). set (s1 := snd (strip_sign s)) in *. clearbody sign s1.
  subst s. rewrite (rd_block_app _ _ _ Hb). cbn [rbind].
  assert (R1 : forall c s', s1 = c :: s' -> rd blk (zlen pre + 1) = Ok (hd 0 s')).
  { intros c s' ->. pose proof (rd_block_app blk (pre ++ [c]) s') as R.
    rewrite zlen_app, <- app_assoc in R. by apply R. }
  destruct s1 as [|c s1]; cbn [hd strip_base].
  { split; [lia|]. by exists pre. }
  rewrite (R1 _ _ eq_refl). cbn [rbind]. destruct s1 as [|c1 s2]; cbn [hd].
  { split; [lia|]. exists pre. destruct (c =? chr_0); done. }
  destruct (c =? chr_0); [|split; [lia|]; by exists pre].
  rewrite !elem_of_pair_eqb.
  assert (E : exists pre', pre ++ c :: c1 :: s2 = pre' ++ s2 /\ zlen pre + 2 = zlen pre').
  { exists (pre ++ [c; c1]). by rewrite zlen_app, <- app_assoc. }
  destruct E as (pre' & E & ->).
  repeat (destruct (_ || _); [split; [lia|]; exists pre'; done|]).
  split; [lia|]. by exists pre.
Qed.

(** the range test of [parse_intnat] is the one on the signed number *)
Lemma range_test nbits sign v :
  (sign = 1 \/ sign = -1) -> 0 <= v -> 1 <= nbits ->
  (if 0 <=? sign then 2 ^ (nbits - 1) <=? v else 2 ^ (nbits - 1) <? v)
  = negb ((- 2 ^ (nbits - 1) <=? sign * v) && (sign * v <? 2 ^ (nbits - 1))).
Proof.
  intros [-> | ->] Hv Hn; assert (0 < 2 ^ (nbits - 1)) by (apply Z.pow_pos_nonneg; lia).
  - rewrite Z.mul_1_l. change (0 <=? 1) with true. cbv iota. zcases.
  - change (0 <=? -1) with false. cbv iota. zcases.
Qed.

Lemma strip_sign_sign s : fst (strip_sign s) = 1 \/ fst (strip_sign s) = -1.
Proof. destruct s; simpl; [tauto|]. repeat case_match; simpl; tauto. Qed.

Lemma signed_result sign v :
  sign = 1 \/ sign = -1 ->
  (if sign <? 0 then s64 (- s64 v) else s64 v) = s64 (sign * v).
Proof.
  intros [-> | ->]; [by rewrite Z.mul_1_l|].
  change (-1 <? 0) with true. cbv iota. replace (-1 * v) with (- v) by lia. solve_word.
Qed.

(** what [parse_intnat] computes: the number, before the conversion to [nbits] bits *)
Lemma parse_intnat_correct blk s nbits errmsg :
  string_block blk s -> 1 <= nbits <= 64 ->
  parse_intnat blk nbits errmsg =
    (let '(base, signedness, s2) := strip_base (snd (strip_sign s)) in
     let sign := fst (strip_sign s) in
     match number_value base s2 with
     | Some v =>
         if (if signedness
             then (- 2 ^ (nbits - 1) <=? sign * v) && (sign * v <? 2 ^ (nbits - 1))
             else v <? 2 ^ nbits)
         then Ok (s64 (sign * v)) else Raise (Failure errmsg)
     | None => Raise (Failure errmsg)
     end).
Proof.
  intros Hb Hn. pose proof (parse_sign_and_base_correct blk s Hb) as P.
  unfold parse_intnat. destruct (strip_base _) as [[base sg] s2].
  destruct P as (Hbase & pre & -> & ->). cbn [rbind]. cbn zeta.
  set (sign := fst _). assert (Hsign : sign = 1 \/ sign = -1) by apply strip_sign_sign.
  clearbody sign. rewrite (rd_block_app _ _ _ Hb). cbn [rbind].
  destruct s2 as [|c s2]; cbn [hd]; [done|]. rewrite number_value_cons by done. cbv zeta.
  pose proof (parse_digit_range c). destruct (_ || _) eqn:D; [done|].
  apply orb_false_iff in D as [D1%Z.ltb_ge D2%Z.leb_gt].
  assert (El : zlen pre + 1 = zlen (pre ++ [c])) by (rewrite zlen_app; done).
  assert (Ea : pre ++ c :: s2 = (pre ++ [c]) ++ s2) by by rewrite <- app_assoc.
  assert (Hf : (length s2 < S (length blk))%nat).
  { destruct Hb as [_ ->]. rewrite !length_app. simpl. lia. }
  rewrite (caml_string_length_block _ _ Hb), El. rewrite Ea in *.
  pose proof (parse_digits_correct blk base errmsg s2 (pre ++ [c]) (parse_digit c)
    (S (length blk)) Hb Hbase ltac:(unfold is_u64; lia) Hf) as PD. cbn zeta in PD.
  destruct (digits_value base (parse_digit c) s2) as [v|] eqn:V.
  - apply digits_value_ge in V; [|lia..].
    assert (P2 : 2 ^ nbits <= 2 ^ 64) by (apply Z.pow_le_mono_r; lia).
    assert (P3 : 2 ^ (nbits - 1) < 2 ^ nbits) by (apply Z.pow_lt_mono_r; lia).
    destruct (Z.ltb_spec v (2 ^ 64)) as [L|L]; rewrite PD; cbn [rbind].
    + rewrite Z.eqb_refl. cbn [negb]. rewrite signed_result by done.
      destruct sg; [rewrite range_test by (auto || lia); by destruct (_ && _)|].
      destruct (Z.ltb_spec nbits 64); simpl; [zcases|].
      replace nbits with 64 by lia. by rewrite (proj2 (Z.ltb_lt _ _)).
    + assert ((if sg then (- 2 ^ (nbits - 1) <=? sign * v) && (sign * v <? 2 ^ (nbits - 1))
        else v <? 2 ^ nbits) = false) as ->; [|done].
      destruct sg; [|by apply Z.ltb_ge; lia]. apply andb_false_iff.
      destruct Hsign as [-> | ->]; [right; apply Z.ltb_ge|left; apply Z.leb_gt]; lia.
  - destruct PD as [-> | (p & n & -> & N)]; [done|]. cbn [rbind].
    by rewrite (proj2 (Z.eqb_neq _ _) N).
Qed.

Lemma caml_int64_of_string_eq s : caml_int64_of_string s = parse_intnat s 64 INT64_ERRMSG.
Proof.
  unfold caml_int64_of_string, parse_intnat.
  destruct (parse_sign_and_base s 0) as [[[[p b] sg] sign]| | |]; [|done..]. cbn [rbind]. cbn zeta.
  destruct (rd s p) as [c| | |]; [|done..]. cbn [rbind].
  destruct (_ || _); [done|].
  destruct (parse_digits _ _ _ _ _ _ _) as [[p' res]| | |]; [|done..]. cbn [rbind].
  destruct (caml_string_length s) as [len| | |]; [|done..]. cbn [rbind].
  change (64 <? 64) with false. change (64 - 1) with 63. cbn [andb].
  destruct (negb _), sg, (0 <=? sign), (2 ^ 63 <=? res), (2 ^ 63 <? res), (sign <? 0);
    try done; f_equal; solve_word.
Qed.

Lemma s64_signed n : - 2 ^ 63 <= n < 2 ^ 63 -> s64 n = n.
Proof. intros H. by apply s64_id. Qed.

(** converting the result of [parse_intnat] to [nbits] bits gives [int_spec] *)
Lemma parse_intnat_spec blk s nbits errmsg (conv : Z -> Z) :
  string_block blk s -> 1 <= nbits <= 64 ->
  (forall n, - 2 ^ (nbits - 1) <= n < 2 ^ (nbits - 1) -> conv (s64 n) = conv n) ->
  (forall n, conv (s64 n) = conv (wrap nbits n)) ->
  rbind (parse_intnat blk nbits errmsg) (fun n => Ok (conv n)) =
    match int_spec nbits s with Some n => Ok (conv n) | None => Raise (Failure errmsg) end.
Proof.
  intros Hb Hn C1 C2. rewrite (parse_intnat_correct blk s) by done. unfold int_spec.
  destruct (strip_sign s) as [sign s1]. cbn [fst snd].
  destruct (strip_base s1) as [[b sg] s2]. cbn zeta.
  destruct (number_value b s2) as [v|]; [|done]. cbn [mbind option_bind]. destruct sg.
  - destruct (_ && _) eqn:R; [|done]. cbn [rbind]. f_equal. apply C1.
    apply andb_true_iff in R as [R1%Z.leb_le R2%Z.ltb_lt]. lia.
  - destruct (v <? 2 ^ nbits); [|done]. cbn [rbind]. f_equal. apply C2.
Qed.

Lemma s64_parse_intnat blk s e :
  string_block blk s ->
  parse_intnat blk 64 e = rbind (parse_intnat blk 64 e) (fun n => Ok (s64 n)).
Proof.
  intros Hb. rewrite (parse_intnat_correct blk s) by (done || lia).
  destruct (strip_base _) as [[b sg] s2]. destruct (number_value b s2); [|done].
  cbn zeta. destruct (if sg then _ else _); [|done]. cbn [rbind]. by rewrite s64_s64.
Qed.

Lemma caml_int_of_string_spec blk s :
  string_block blk s -> caml_int_of_string blk =
    match int_spec 63 s with Some n => Ok (Val_long n) | None => Raise (Failure INT_ERRMSG) end.
Proof.
  intros Hb. apply (parse_intnat_spec _ s 63 _ Val_long); [done|lia|..];
    intros n; [intros _|]; rewrite !Val_long_eq; [solve_word|].
  change (wrap 63 n) with (s63 n). solve_word.
Qed.

Lemma caml_int32_of_string_spec blk s :
  string_block blk s -> caml_int32_of_string blk =
    match int_spec 32 s with Some n => Ok (s32 n) | None => Raise (Failure INT32_ERRMSG) end.
Proof.
  intros Hb. apply (parse_intnat_spec _ s 32 _ s32); [done|lia|..];
    intros n; [intros _|]; [solve_word|]. change (wrap 32 n) with (s32 n). solve_word.
Qed.

Lemma parse_intnat_64_spec blk s e :
  string_block blk s -> parse_intnat blk 64 e =
    match int_spec 64 s with Some n => Ok (s64 n) | None => Raise (Failure e) end.
Proof.
  intros Hb. rewrite (s64_parse_intnat _ s) by done.
  apply (parse_intnat_spec _ s 64 _ s64); [done|lia|..]; intros n; [intros _|done]; by rewrite s64_s64.
Qed.

(** an underscore before the first digit *)
Lemma leading_underscore blk s :
  string_block blk (chr_underscore :: s) ->
  caml_int_of_string blk = Raise (Failure INT_ERRMSG) /\ caml_int32_of_string blk = Raise (Failure INT32_ERRMSG) /\
  caml_int64_of_string blk = Raise (Failure INT64_ERRMSG).
Proof.
  intros Hb. assert (E : forall nbits, int_spec nbits (chr_underscore :: s) = None) by (intros nbits; by destruct s).
  rewrite (caml_int_of_string_spec _ _ Hb), (caml_int32_of_string_spec _ _ Hb), caml_int64_of_string_eq, (parse_intnat_64_spec _ _ _ Hb).
  by rewrite !E.
Qed.

(** C9: The integer readers of [int], [Int32], [Nativeint] and [Int64] accept exactly
    the strings [int_spec] accepts: an optional sign, an optional base prefix, a
    digit of the base, then digits and underscores up to the end of the string,
    of a value in range for the width (signed in base 10, unsigned after a
    prefix); they return that value and raise [Failure] on every other string.
    The tests on 64-bit words that detect overflow are exact.  A string whose first digit
    comes after an underscore is refused, although the interfaces of [Stdlib], [Int32] and
    [Int64] say that underscores can appear anywhere. *)
Theorem integers_of_strings blk s :
  string_block blk s ->
  caml_int_of_string blk =
    match int_spec 63 s with Some n => Ok (Val_long n) | None => Raise (Failure INT_ERRMSG) end /\
  caml_int32_of_string blk =
    match int_spec 32 s with Some n => Ok (s32 n) | None => Raise (Failure INT32_ERRMSG) end /\
  caml_nativeint_of_string blk =
    match int_spec 64 s with Some n => Ok (s64 n) | None => Raise (Failure INTNAT_ERRMSG) end /\
  caml_int64_of_string blk =
    match int_spec 64 s with Some n => Ok (s64 n) | None => Raise (Failure INT64_ERRMSG) end.
Proof.
  intros Hb. rewrite caml_int64_of_string_eq. unfold caml_nativeint_of_string.
  auto using caml_int_of_string_spec, caml_int32_of_string_spec, parse_intnat_64_spec.
Qed.

Definition block_m12 : list Z := [45; 49; 95; 50; 0; 0; 0; 3].

Lemma block_m12_ok : string_block block_m12 [45; 49; 95; 50].
Proof. split; [|reflexivity]. repeat constructor; unfold is_u8; lia. Qed.

Lemma integers_of_strings_witness :
  caml_int_of_string block_m12 = Ok (Val_long (-12)).
Proof. exact (proj1 (integers_of_strings _ _ block_m12_ok)). Defined.

(** ** Decimal round trip *)

(** what the C library prints for ["%d"]: [fuel] bounds the number of digits *)
Fixpoint decimal_digits (fuel : nat) (n : Z) : list Z :=
  match fuel with
  | O => []
  | S fuel => if n <? 10 then [chr_0 + n]
              else decimal_digits fuel (n / 10) ++ [chr_0 + n mod 10]
  end.

Definition decimal (n : Z) : list Z :=
  if n <? 0 then chr_minus :: decimal_digits 20 (- n) else decimal_digits 20 n.

Lemma digits_value_app base s1 : forall acc s2,
  digits_value base acc (s1 ++ s2) =
    match digits_value base acc s1 with Some v => digits_value base v s2 | None => None end.
Proof.
  induction s1 as [|c s1 IH]; intros acc s2; simpl; [done|].
  destruct (c =? chr_underscore); [apply IH|]. destruct (digit_of base c); [apply IH|done].
Qed.

Lemma parse_digit_chr d : 0 <= d < 10 -> parse_digit (chr_0 + d) = d.
Proof. unfold parse_digit, chr_0, chr_9. intros. zcases. Qed.

Lemma digits_value_digit acc d :
  0 <= d < 10 -> digits_value 10 acc [chr_0 + d] = Some (10 * acc + d).
Proof.
  intros Hd. rewrite digits_value_cons by lia. cbv zeta. rewrite parse_digit_chr by done. cbn [digits_value].
  replace (chr_0 + d =? chr_underscore) with false
    by (symmetry; apply Z.eqb_neq; unfold chr_0, chr_underscore; lia).
  by rewrite (proj2 (Z.ltb_ge _ _)), (proj2 (Z.leb_gt _ _)) by lia.
Qed.

(** the digits printed for [n]: the first one is [0] only for [n = 0] *)
Lemma decimal_digits_correct fuel : forall n,
  0 <= n < 10 ^ Z.of_nat fuel -> (0 < fuel)%nat ->
  exists c r, decimal_digits fuel n = c :: r /\ chr_0 <= c <= chr_9 /\
    (c = chr_0 -> r = []) /\ digits_value 10 0 (c :: r) = Some n /\
    Forall (fun x => chr_0 <= x <= chr_9) r.
Proof.
  induction fuel as [|fuel IH]; intros n Hn Hf; [lia|]. cbn [decimal_digits].
  destruct (Z.ltb_spec n 10) as [L|L].
  - exists (chr_0 + n), []. rewrite digits_value_digit by lia.
    unfold chr_0, chr_9. split_and!; [done|lia..|done|f_equal; lia|constructor].
  - assert (fuel <> 0%nat) by (intros ->; simpl in Hn; lia).
    rewrite Nat2Z.inj_succ, Z.pow_succ_r in Hn by lia.
    destruct (IH (n / 10)) as (c & r & -> & Hc & H0 & V & F); [|lia|].
    { split; [apply Z.div_pos; lia|]. apply Z.div_lt_upper_bound; lia. }
    assert (Hm : 0 <= n mod 10 < 10) by (apply Z.mod_pos_bound; lia).
    exists c, (r ++ [chr_0 + n mod 10]). split_and!; [done|lia|lia| | |].
    + intros E0. specialize (H0 E0). subst c r. change [chr_0] with [chr_0 + 0] in V.
      rewrite digits_value_digit in V by lia. injection V as V.
      assert (1 <= n / 10) by (apply Z.div_le_lower_bound; lia). lia.
    + rewrite app_comm_cons, digits_value_app, V, digits_value_digit by done.
      f_equal. rewrite (Z.div_mod n 10) at 3 by lia. lia.
    + apply Forall_app. split; [done|]. constructor; [unfold chr_0, chr_9; lia|done].
Qed.

Lemma number_value_decimal n : 0 <= n < 10 ^ 20 ->
  exists c r, decimal_digits 20 n = c :: r /\ chr_0 <= c <= chr_9 /\ (c = chr_0 -> r = []) /\
    number_value 10 (c :: r) = Some n /\ Forall (fun x => chr_0 <= x <= chr_9) (c :: r).
Proof.
  intros Hn. destruct (decimal_digits_correct 20 n) as (c & r & E & Hc & H0 & V & F); [done|lia|].
  exists c, r. refine (conj E (conj Hc (conj H0 (conj _ _)))); [|by constructor].
  rewrite number_value_cons by lia. rewrite digits_value_cons in V by lia. cbv zeta in *.
  replace (c =? chr_underscore) with false in V
    by (symmetry; apply Z.eqb_neq; unfold chr_9, chr_underscore in *; lia).
  revert V. destruct (_ || _); [done|]. by intros <-.
Qed.

(** a decimal text has no base prefix *)
Lemma strip_base_decimal c r :
  (c = chr_0 -> r = []) -> strip_base (c :: r) = (10, true, c :: r).
Proof.
  intros H. destruct r as [|c1 r]; [done|]. cbn [strip_base].
  destruct (Z.eqb_spec c chr_0) as [->|]; [by specialize (H eq_refl)|done].
Qed.

Lemma int_spec_decimal nbits n :
  1 <= nbits <= 64 -> - 2 ^ (nbits - 1) <= n < 2 ^ (nbits - 1) ->
  int_spec nbits (decimal n) = Some n /\ is_bytes (decimal n).
Proof.
  intros Hb Hn. assert (P : 2 ^ (nbits - 1) <= 2 ^ 63) by (apply Z.pow_le_mono_r; lia).
  assert (R : (- 2 ^ (nbits - 1) <=? n) && (n <? 2 ^ (nbits - 1)) = true) by zcases.
  assert (B : forall l, Forall (fun x => chr_0 <= x <= chr_9) l -> is_bytes l).
  { intros l Hl. eapply Forall_impl; [exact Hl|]. intros x. unfold chr_0, chr_9, is_u8. lia. }
  unfold decimal, int_spec. destruct (Z.ltb_spec n 0) as [L|L].
  - destruct (number_value_decimal (- n)) as (c & r & -> & Hc & H0 & V & F); [lia|].
    cbn [strip_sign]. rewrite Z.eqb_refl, strip_base_decimal, V by done.
    cbn [mbind option_bind]. replace (-1 * - n) with n by lia. rewrite R. split; [done|].
    constructor; [unfold is_u8, chr_minus; lia|by apply B].
  - destruct (number_value_decimal n) as (c & r & -> & Hc & H0 & V & F); [lia|].
    cbn [strip_sign]. unfold chr_0, chr_9, chr_minus, chr_plus in Hc |- *.
    rewrite (proj2 (Z.eqb_neq c 45)), (proj2 (Z.eqb_neq c 43)) by lia.
    rewrite strip_base_decimal, V by done.
    cbn [mbind option_bind]. rewrite Z.mul_1_l, R. split; [done|by apply B].
Qed.

Lemma block_of_bytes s : is_bytes s -> string_block (s ++ padding (length s)) s.
Proof. done. Qed.

(** C36: Every integer of each width is read back from its decimal text. *)
Theorem decimal_roundtrip :
  (forall n, is_s63 n ->
     caml_int_of_string (decimal n ++ padding (length (decimal n))) = Ok (Val_long n)) /\
  (forall n, is_s32 n ->
     caml_int32_of_string (decimal n ++ padding (length (decimal n))) = Ok n) /\
  (forall n, is_s64 n ->
     caml_nativeint_of_string (decimal n ++ padding (length (decimal n))) = Ok n /\
     caml_int64_of_string (decimal n ++ padding (length (decimal n))) = Ok n).
Proof.
  split_and!; intros n Hn.
  - destruct (int_spec_decimal 63 n) as [S B]; [lia|exact Hn|].
    by rewrite (caml_int_of_string_spec _ (decimal n)), S by auto using block_of_bytes.
  - destruct (int_spec_decimal 32 n) as [S B]; [lia|exact Hn|].
    rewrite (caml_int32_of_string_spec _ (decimal n)), S by auto using block_of_bytes.
    by rewrite s32_id.
  - destruct (int_spec_decimal 64 n) as [S B]; [lia|exact Hn|].
    rewrite caml_int64_of_string_eq. unfold caml_nativeint_of_string.
    rewrite !(parse_intnat_64_spec _ (decimal n)), S by auto using block_of_bytes.
    by rewrite s64_id.
Qed.

(** ** Byte swapping *)

(** a byte of [x] moved from bit [s] to bit [t] *)
Lemma byte_left x s n t : t = s + n -> 0 <= s -> 0 <= n ->
  Z.shiftl (Z.land x (Z.shiftl (Z.ones 8) s)) n = Z.shiftl ((x / 2 ^ s) mod 256) t.
Proof.
  intros -> Hs Hn. rewrite land_field, !Z.shiftl_mul_pow2, <- Z.mul_assoc, <- Z.pow_add_r by lia.
  done.
Qed.

Lemma byte_right x s n t : s = t + n -> 0 <= t -> 0 <= n ->
  Z.shiftr (Z.land x (Z.shiftl (Z.ones 8) s)) n = Z.shiftl ((x / 2 ^ s) mod 256) t.
Proof.
  intros E Ht Hn. rewrite land_field, Z.shiftl_mul_pow2, Z.shiftr_div_pow2 by lia.
  rewrite E at 2. rewrite Z.pow_add_r, Z.mul_assoc by lia.
  apply Z.div_mul. apply Z.pow_nonzero; lia.
Qed.

Lemma byte_range y : 0 <= y mod 256 < 256.
Proof. apply Z.mod_pos_bound. lia. Qed.

(** the top byte of a wrapped word *)
Lemma top_byte x s : 0 <= s -> ((x mod 2 ^ (s + 8)) / 2 ^ s) mod 256 = (x / 2 ^ s) mod 256.
Proof.
  intros Hs. rewrite Z.pow_add_r by lia. change (2 ^ 8) with 256.
  rewrite Z.rem_mul_r by (try apply Z.pow_nonzero; try apply Z.pow_pos_nonneg; lia).
  rewrite (Z.mul_comm (2 ^ s) (_ mod 256)), Z.div_add by (apply Z.pow_nonzero; lia).
  rewrite (Z.div_small (x mod 2 ^ s)) by (apply Z.mod_pos_bound, Z.pow_pos_nonneg; lia).
  by rewrite Z.add_0_l, Z.mod_mod.
Qed.

Lemma top_byte_64 x : (u64 x / 2 ^ 56) mod 256 = (x / 2 ^ 56) mod 256.
Proof. exact (top_byte x 56 ltac:(lia)). Qed.
Lemma top_byte_32 x : (u32 x / 2 ^ 24) mod 256 = (x / 2 ^ 24) mod 256.
Proof. exact (top_byte x 24 ltac:(lia)). Qed.

Lemma swap64_eq x : swap64 x = s64 (le_word (rev (le_bytes 8 x))).
Proof.
  unfold swap64. f_equal.
  change 0x00000000000000FF with (Z.shiftl (Z.ones 8) 0).
  change 0x000000000000FF00 with (Z.shiftl (Z.ones 8) 8).
  change 0x0000000000FF0000 with (Z.shiftl (Z.ones 8) 16).
  change 0x00000000FF000000 with (Z.shiftl (Z.ones 8) 24).
  change 0x000000FF00000000 with (Z.shiftl (Z.ones 8) 32).
  change 0x0000FF0000000000 with (Z.shiftl (Z.ones 8) 40).
  change 0x00FF000000000000 with (Z.shiftl (Z.ones 8) 48).
  change 0xFF00000000000000 with (Z.shiftl (Z.ones 8) 56).
  rewrite (byte_left x 0 56 56), (byte_left x 8 40 48), (byte_left x 16 24 40),
    (byte_left x 24 8 32), (byte_right x 32 8 24), (byte_right x 40 24 16),
    (byte_right x 48 40 8), (byte_right (u64 x) 56 56 0) by lia.
  rewrite top_byte_64, Z.shiftl_0_r, Z.div_1_r by lia.
  simpl le_bytes. rewrite !Z.div_div by lia.
  change (256 * 256 * 256 * 256 * 256 * 256 * 256) with (2 ^ 56).
  change (256 * 256 * 256 * 256 * 256 * 256) with (2 ^ 48).
  change (256 * 256 * 256 * 256 * 256) with (2 ^ 40).
  change (256 * 256 * 256 * 256) with (2 ^ 32). change (256 * 256 * 256) with (2 ^ 24).
  change (256 * 256) with (2 ^ 16). change (x / 256) with (x / 2 ^ 8).
  generalize (byte_range x), (byte_range (x / 2 ^ 8)), (byte_range (x / 2 ^ 16)),
    (byte_range (x / 2 ^ 24)), (byte_range (x / 2 ^ 32)), (byte_range (x / 2 ^ 40)),
    (byte_range (x / 2 ^ 48)), (byte_range (x / 2 ^ 56)).
  generalize (x mod 256), ((x / 2 ^ 8) mod 256), ((x / 2 ^ 16) mod 256),
    ((x / 2 ^ 24) mod 256), ((x / 2 ^ 32) mod 256), ((x / 2 ^ 40) mod 256),
    ((x / 2 ^ 48) mod 256), ((x / 2 ^ 56) mod 256).
  intros b0 b1 b2 b3 b4 b5 b6 b7 H0 H1 H2 H3 H4 H5 H6 H7.
  rewrite (u64_id (Z.shiftl b1 48)), (u64_id (Z.shiftl b0 56)) by
    (rewrite Z.shiftl_mul_pow2 by lia; unfold is_u64; lia).
  rewrite (Z.shiftl_mul_pow2 _ 56), !lor_shift, lor_shift_0 by lia. simpl. lia.
Qed.

Lemma caml_swap32_eq x : caml_swap32 x = s32 (le_word (rev (le_bytes 4 x))).
Proof.
  unfold caml_swap32. f_equal.
  change 0x000000FF with (Z.shiftl (Z.ones 8) 0). change 0x0000FF00 with (Z.shiftl (Z.ones 8) 8).
  change 0x00FF0000 with (Z.shiftl (Z.ones 8) 16). change 0xFF000000 with (Z.shiftl (Z.ones 8) 24).
  rewrite (byte_left x 0 24 24), (byte_left x 8 8 16), (byte_right x 16 8 8),
    (byte_right (u32 x) 24 24 0) by lia.
  rewrite top_byte_32, Z.shiftl_0_r, Z.div_1_r by lia.
  simpl le_bytes. rewrite !Z.div_div by lia.
  change (256 * 256 * 256) with (2 ^ 24). change (256 * 256) with (2 ^ 16).
  change (x / 256) with (x / 2 ^ 8).
  generalize (byte_range x), (byte_range (x / 2 ^ 8)), (byte_range (x / 2 ^ 16)),
    (byte_range (x / 2 ^ 24)).
  generalize (x mod 256), ((x / 2 ^ 8) mod 256), ((x / 2 ^ 16) mod 256), ((x / 2 ^ 24) mod 256).
  intros b0 b1 b2 b3 H0 H1 H2 H3.
  rewrite (u32_id (Z.shiftl b1 16)), (u32_id (Z.shiftl b0 24)) by
    (rewrite Z.shiftl_mul_pow2 by lia; unfold is_u32; lia).
  rewrite (Z.shiftl_mul_pow2 _ 24), !lor_shift, lor_shift_0 by lia. simpl. lia.
Qed.

Lemma le_bytes_s64 n : le_bytes 8 (s64 n) = le_bytes 8 n.
Proof.
  rewrite <- (le_bytes_mod 8 n), <- (le_bytes_mod 8 (s64 n)).
  change (256 ^ Z.of_nat 8) with (2 ^ 64). f_equal. exact (u64_s64 n).
Qed.
Lemma le_bytes_s32 n : le_bytes 4 (s32 n) = le_bytes 4 n.
Proof.
  rewrite <- (le_bytes_mod 4 n), <- (le_bytes_mod 4 (s32 n)).
  change (256 ^ Z.of_nat 4) with (2 ^ 32). f_equal. exact (u32_s32 n).
Qed.

Lemma rev_bytes l : is_bytes l -> is_bytes (rev l).
Proof. apply List.Forall_rev. Qed.

Lemma le_bytes_le_word n bs : is_bytes bs -> length bs = n -> le_bytes n (le_word bs) = bs.
Proof. intros H <-. by apply le_bytes_word. Qed.

Lemma swap64_bytes x : le_bytes 8 (swap64 x) = rev (le_bytes 8 x).
Proof.
  rewrite swap64_eq, le_bytes_s64. apply le_bytes_le_word.
  - apply rev_bytes, le_bytes_is_bytes.
  - by rewrite length_rev, le_bytes_length.
Qed.
Lemma caml_swap32_bytes x : le_bytes 4 (caml_swap32 x) = rev (le_bytes 4 x).
Proof.
  rewrite caml_swap32_eq, le_bytes_s32. apply le_bytes_le_word.
  - apply rev_bytes, le_bytes_is_bytes.
  - by rewrite length_rev, le_bytes_length.
Qed.

(** The byte-swapping primitives reverse the bytes of their operand, whatever its
    sign, and swapping twice gives the operand back; the 16-bit swap exchanges
    the two low bytes and drops the others. *)
Theorem byte_swaps :
  (forall n, le_bytes 4 (caml_int32_bswap n) = rev (le_bytes 4 n) /\ is_s32 (caml_int32_bswap n)) /\
  (forall n, le_bytes 8 (caml_int64_bswap n) = rev (le_bytes 8 n) /\ is_s64 (caml_int64_bswap n)) /\
  (forall n, is_s32 n -> caml_int32_bswap (caml_int32_bswap n) = n) /\
  (forall n, is_s64 n -> caml_int64_bswap (caml_int64_bswap n) = n /\
     caml_nativeint_bswap (caml_nativeint_bswap n) = n) /\
  (forall v, caml_bswap16 v = Val_int (le_word (rev (le_bytes 2 (Int_val v))))).
Proof.
  assert (I64 : forall n, is_s64 n -> swap64 (swap64 n) = n).
  { intros n Hn. rewrite (swap64_eq (swap64 n)), swap64_bytes, rev_involutive, le_word_bytes.
    change (256 ^ Z.of_nat 8) with (2 ^ 64). change (n mod 2 ^ 64) with (u64 n).
    rewrite s64_u64. by apply s64_id. }
  split_and!.
  - intros n. split; [apply caml_swap32_bytes|]. unfold caml_int32_bswap, caml_swap32. auto with word.
  - intros n. split; [apply swap64_bytes|]. unfold caml_int64_bswap, swap64. auto with word.
  - intros n Hn. unfold caml_int32_bswap.
    rewrite (caml_swap32_eq (caml_swap32 n)), caml_swap32_bytes, rev_involutive, le_word_bytes.
    change (256 ^ Z.of_nat 4) with (2 ^ 32). change (n mod 2 ^ 32) with (u32 n).
    rewrite s32_u32. by apply s32_id.
  - intros n Hn. split; by apply I64.
  - intros v. unfold caml_bswap16. f_equal. set (x := Int_val v).
    change 0x00FF with (Z.shiftl (Z.ones 8) 0). change 0xFF00 with (Z.shiftl (Z.ones 8) 8).
    rewrite (byte_left x 0 8 8), (byte_right x 8 8 0), Z.shiftl_0_r, Z.div_1_r by lia.
    rewrite Z.shiftl_mul_pow2, lor_shift_0 by (apply byte_range || lia).
    change (2 ^ 8) with 256. simpl. lia.
Qed.

Lemma byte_swaps_witness :
  caml_int32_bswap (caml_int32_bswap (-5)) = -5 /\ caml_int64_bswap 1 = 72057594037927936.
Proof.
  split; [|reflexivity].
  apply (proj1 (proj2 (proj2 byte_swaps))). unfold is_s32. lia.
Defined.

(** ** Division *)

(** what division and remainder at a signed width promise; [wrapf] is the
    reduction to that width *)
Definition division_spec (is_sN : Z -> Prop) (wrapf : Z -> Z)
    (div mod_ : Z -> Z -> result Z) (a b : Z) : Prop :=
  if b =? 0 then div a b = Raise Zero_divide /\ mod_ a b = Raise Zero_divide
  else exists q r, div a b = Ok q /\ mod_ a b = Ok r /\ is_sN q /\ is_sN r /\
    wrapf (wrapf (q * b) + r) = a /\ Z.abs r < Z.abs b /\ 0 <= a * r /\
    q = wrapf (Z.quot a b).

Lemma quot_range half a b :
  1 < half -> - half <= a < half -> b <> 0 -> ~ (a = - half /\ b = -1) ->
  - half <= Z.quot a b < half.
Proof.
  intros Hh Ha Hb N. destruct (decide (b = 1)) as [->|N1]; [rewrite Z.quot_1_r; lia|].
  destruct (decide (b = -1)) as [->|N2].
  { change (-1) with (- (1)). rewrite Z.quot_opp_r, Z.quot_1_r by lia. lia. }
  assert (Q : Z.abs (Z.quot a b) < half); [|lia].
  rewrite <- Z.quot_abs, Z.quot_div_nonneg by lia.
  apply Z.le_lt_trans with (half / 2); [|apply Z.div_lt; lia].
  transitivity (Z.abs a / 2); [apply Z.div_le_compat_l; lia|apply Z.div_le_mono; lia].
Qed.

(** the common reasoning: [half] is the number of values of each sign *)
Lemma division_width half wrapf div mod_ (is_sN : Z -> Prop) :
  1 < half ->
  (forall x, is_sN x <-> - half <= x < half) ->
  (forall x, wrapf x = (x + half) mod (2 * half) - half) ->
  (forall a b, div a b = if b =? 0 then Raise Zero_divide
     else if (a =? - half) && (b =? -1) then Ok a else Ok (Z.quot a b)) ->
  (forall a b, mod_ a b = if b =? 0 then Raise Zero_divide
     else if (a =? - half) && (b =? -1) then Ok 0 else Ok (Z.rem a b)) ->
  forall a b, is_sN a -> is_sN b -> division_spec is_sN wrapf div mod_ a b.
Proof.
  intros Hh Hs Hw Hd Hm a b [Ha1 Ha2]%Hs [Hb1 Hb2]%Hs. unfold division_spec. rewrite Hd, Hm.
  assert (W : forall x, - half <= x < half -> wrapf x = x).
  { intros x Hx. rewrite Hw, Z.mod_small by lia. lia. }
  assert (Wh : wrapf half = - half).
  { rewrite Hw. replace (half + half) with (2 * half) by lia. rewrite Z.mod_same; lia. }
  destruct (Z.eqb_spec b 0) as [->|Nb]; [done|].
  destruct ((a =? - half) && (b =? -1)) eqn:O.
  - apply andb_true_iff in O as [->%Z.eqb_eq ->%Z.eqb_eq]. exists (- half), 0.
    rewrite !Hs. change (-1) with (- (1)). rewrite Z.quot_opp_opp, Z.quot_1_r by lia.
    replace (- half * - (1)) with half by lia. rewrite Wh.
    replace (- half + 0) with (- half) by lia. rewrite W by lia. split_and!; done || lia.
  - assert (N : ~ (a = - half /\ b = -1)).
    { intros [-> ->]. rewrite !Z.eqb_refl in O. done. }
    pose proof (quot_range half a b Hh (conj Ha1 Ha2) Nb N) as Q.
    pose proof (Z.rem_bound_abs a b Nb) as R. pose proof (Z.quot_rem' a b) as E.
    pose proof (Z.rem_sign_mul a b Nb) as S.
    exists (Z.quot a b), (Z.rem a b). rewrite !Hs.
    assert (E2 : wrapf (wrapf (Z.quot a b * b) + Z.rem a b) = a).
    { rewrite !Hw. replace ((Z.quot a b * b + half) mod (2 * half) - half + Z.rem a b + half)
        with ((Z.quot a b * b + half) mod (2 * half) + Z.rem a b) by lia.
      rewrite Zplus_mod_idemp_l.
      replace (Z.quot a b * b + half + Z.rem a b) with (a + half) by lia.
      rewrite Z.mod_small by lia. lia. }
    rewrite (W (Z.quot a b)) by done. split_and!; done || lia.
Qed.

(** C37: Division and remainder of [Int32], [Int64] and [Nativeint]: they raise
    [Division_by_zero] exactly on a zero divisor; otherwise quotient and
    remainder are in range and satisfy [q * b + r = a] in wrapped arithmetic,
    [|r| < |b|], [r] has the sign of [a], and [q] is the truncated quotient,
    wrapped: dividing the least integer by -1 gives it back with remainder 0. *)
Theorem boxed_division :
  (forall a b, is_s32 a -> is_s32 b -> division_spec is_s32 s32 caml_int32_div caml_int32_mod a b) /\
  (forall a b, is_s64 a -> is_s64 b -> division_spec is_s64 s64 caml_int64_div caml_int64_mod a b) /\
  (forall a b, is_s64 a -> is_s64 b ->
     division_spec is_s64 s64 caml_nativeint_div caml_nativeint_mod a b).
Proof.
  split_and!; [apply (division_width (2 ^ 31))|apply (division_width (2 ^ 63))..]; done || lia.
Qed.

Lemma boxed_division_witness :
  division_spec is_s32 s32 caml_int32_div caml_int32_mod (- 2 ^ 31) (-1) /\
  caml_int32_div (- 2 ^ 31) (-1) = Ok (- 2 ^ 31).
Proof.
  split; [|reflexivity].
  apply (proj1 boxed_division); unfold is_s32; lia.
Defined.

(** ** Marshaling of boxed integers *)

Lemma deserialize_sint_8_store n rest :
  caml_deserialize_sint_8 (store64 n ++ rest) = Ok (s64 n, rest).
Proof.
  unfold caml_deserialize_sint_8, caml_deserialize_block_8, deserialize_reversed, readblock.
  change (Z.of_nat (8 * 1)) with 8. rewrite zlen_app. change (zlen (store64 n)) with 8.
  pose proof (zlen_nonneg rest). rewrite (proj2 (Z.leb_le 8 _)) by lia. simpl andb. cbv iota.
  change (Z.to_nat 8) with (length (store64 n)). rewrite take_app_length, drop_app_length.
  cbn [rbind reverse_elements]. rewrite app_nil_r.
  change 8%nat with (length (store64 n)). rewrite firstn_all.
  rewrite store64_eq, rev_involutive, le_word_bytes.
  change (256 ^ Z.of_nat 8) with (2 ^ 64). do 2 f_equal. exact (s64_u64 n).
Qed.

(** a serializer and a deserializer agree on [n]: the bytes that the first appends
    to the output are read back as [n], with the size announced for 64-bit
    platforms *)
Definition serialization_roundtrip (ser : output -> Z -> result (output * Z * Z))
    (deser : list Z -> result (Z * Z * list Z)) (n : Z) : Prop :=
  exists bs bsize_32 bsize_64,
    (forall o, exists r, appends o bs r /\
       ser o n = rbind r (fun o => Ok (o, bsize_32, bsize_64))) /\
    (forall rest, deser (bs ++ rest) = Ok (n, bsize_64, rest)).

(** Marshaling of boxed integers: the bytes written for an [Int32], [Int64] or
    [Nativeint] (in 4 or 8 bytes depending on its size) are appended to the
    output without overrunning its buffer, and read back as the same integer. *)
Theorem boxed_marshal_roundtrip :
  (forall n, is_s32 n -> serialization_roundtrip int32_serialize int32_deserialize n) /\
  (forall n, is_s64 n -> serialization_roundtrip int64_serialize int64_deserialize n) /\
  (forall n, is_s64 n -> serialization_roundtrip nativeint_serialize nativeint_deserialize n).
Proof.
  split_and!; intros n Hn.
  - exists (store32 n), 4, 4. split.
    + intros o. exists (caml_serialize_int_4 o n). split; [by apply put_appends|done].
    + intros rest. unfold int32_deserialize, caml_deserialize_sint_4.
      rewrite (proj2 (read32_store n rest)). cbn [rbind]. by rewrite s32_id.
  - exists (store64 n), 8, 8. split.
    + intros o. exists (caml_serialize_int_8 o n). split; [by apply put_appends|done].
    + intros rest. unfold int64_deserialize. rewrite deserialize_sint_8_store.
      cbn [rbind]. by rewrite s64_id.
  - unfold serialization_roundtrip, nativeint_serialize.
    destruct (_ && _) eqn:R.
    + exists ([u8 1] ++ store32 (s32 n)), 4, 8. split.
      * intros o. eexists. split; [|done].
        apply appends_trans; [by apply put_appends|intros; by apply put_appends].
      * intros rest. rewrite <- app_assoc. unfold nativeint_deserialize. cbn [app].
        cbn [caml_deserialize_uint_1 read8u rbind]. change (u8 1 =? 1) with true. cbv iota.
        unfold caml_deserialize_sint_4. rewrite (proj2 (read32_store _ rest)). cbn [rbind].
        apply andb_true_iff in R as [R1%Z.leb_le R2%Z.ltb_lt].
        rewrite s32_s32, s32_id by (unfold is_s32; lia). done.
    + exists ([u8 2] ++ store64 n), 4, 8. split.
      * intros o. eexists. split; [|done].
        apply appends_trans; [by apply put_appends|intros; by apply put_appends].
      * intros rest. rewrite <- app_assoc. unfold nativeint_deserialize. cbn [app].
        cbn [caml_deserialize_uint_1 read8u rbind].
        change (u8 2 =? 1) with false. change (u8 2 =? 2) with true. cbv iota.
        rewrite deserialize_sint_8_store. cbn [rbind]. by rewrite s64_id.
Qed.

Lemma boxed_marshal_roundtrip_witness :
  serialization_roundtrip nativeint_serialize nativeint_deserialize (2 ^ 40).
Proof. apply (proj2 (proj2 boxed_marshal_roundtrip)). unfold is_s64. lia. Defined.

(** ** Formats *)

Lemma memcpy_app {A} (a b src : list A) :
  (length src <= length b)%nat ->
  memcpy (a ++ b) (zlen a) src = Ok (a ++ src ++ drop (length src) b).
Proof.
  intros H. rewrite <- (take_drop (length src) b) at 1.
  rewrite memcpy_mid by (rewrite length_take; lia). done.
Qed.

(** the C format for the OCaml format [pre m c]: an [l], [n] or [L] before the
    last letter is replaced by the suffix of the C type *)
Definition c_format (pre : list Z) (m c : Z) (suffix : list Z) : list Z :=
  (if is_lnL m then pre else pre ++ [m]) ++ suffix ++ [c].

Lemma parse_format_ok fmt pre m c suffix buf :
  string_block fmt (pre ++ [m; c]) -> zlen pre + zlen suffix + 3 < 32 -> zlen buf = 32 ->
  exists rest, parse_format fmt suffix buf = Ok (c, c_format pre m c suffix ++ 0 :: rest).
Proof.
  intros Hb Hl Hbuf. unfold parse_format. rewrite (caml_string_length_block _ _ Hb). cbn [rbind].
  assert (El : zlen (pre ++ [m; c]) = zlen pre + 2) by (rewrite zlen_app; done).
  pose proof (zlen_nonneg pre). pose proof (zlen_nonneg suffix).
  unfold FORMAT_BUFFER_SIZE. rewrite El, (proj2 (Z.leb_gt _ _)) by lia.
  rewrite (slice_block _ _ _ _ Hb) by lia. cbn [rbind].
  rewrite drop_0, take_ge by (unfold zlen in *; lia).
  rewrite memcpy_0 by (unfold zlen in *; lia). cbn [rbind].
  set (tail := drop _ buf).
  assert (Ht : zlen tail = 30 - zlen pre) by (unfold tail, zlen in *; rewrite length_drop; lia).
  clearbody tail.
  assert (E1 : rd ((pre ++ [m; c]) ++ tail) (zlen pre + 2 - 1) = Ok c).
  { apply rd_Ok. split; [lia|]. rewrite <- app_assoc. unfold zlen.
    rewrite lookup_app_r by lia. by replace (_ - _)%nat with 1%nat by lia. }
  assert (E2 : rd ((pre ++ [m; c]) ++ tail) (zlen pre + 2 - 1 - 1) = Ok m).
  { apply rd_Ok. split; [lia|]. rewrite <- app_assoc. unfold zlen.
    rewrite lookup_app_r by lia. by replace (_ - _)%nat with 0%nat by lia. }
  rewrite E1. cbn [rbind]. rewrite E2. cbn [rbind].
  set (a := if is_lnL m then pre else pre ++ [m]).
  set (b := if is_lnL m then m :: c :: tail else c :: tail).
  assert (Eab : (pre ++ [m; c]) ++ tail = a ++ b).
  { unfold a, b. destruct (is_lnL m); by rewrite <- !app_assoc. }
  assert (Ep : (if is_lnL m then zlen pre + 2 - 1 - 1 else zlen pre + 2 - 1) = zlen a).
  { unfold a. destruct (is_lnL m); rewrite ?zlen_app; unfold zlen; simpl; lia. }
  assert (Hlb : 32 = zlen a + zlen b).
  { rewrite <- zlen_app, <- Eab, zlen_app. lia. }
  assert (Hla : zlen a <= zlen pre + 1).
  { unfold a. destruct (is_lnL m); rewrite ?zlen_app; unfold zlen; simpl; lia. }
  rewrite Eab, Ep. unfold c_format. fold a. clearbody a b.
  rewrite memcpy_app by (unfold zlen in *; lia). cbn [rbind].
  destruct (drop (length suffix) b) as [|x [|y r]] eqn:D;
    [apply (f_equal zlen) in D; unfold zlen in *; rewrite length_drop in D; simpl in D; lia..|].
  rewrite app_assoc, <- zlen_app, wr_mid. cbn [rbind].
  replace ((a ++ suffix) ++ c :: y :: r) with ((a ++ suffix ++ [c]) ++ y :: r)
    by by rewrite <- !app_assoc.
  replace (zlen (a ++ suffix) + 1) with (zlen (a ++ suffix ++ [c]))
    by (rewrite !zlen_app; unfold zlen; simpl; lia).
  rewrite wr_mid. cbn [rbind]. by exists r.
Qed.

Lemma c_string_app f rest : 0 ∉ f -> c_string (f ++ 0 :: rest) = Ok f.
Proof.
  intros H. unfold c_string. rewrite strlen_app_0.
  assert (list_find (fun x => x = 0) f = None) as ->.
  { apply list_find_None, Forall_forall. intros x Hx ->. done. }
  cbn [rbind]. unfold zlen. by rewrite Nat2Z.id, take_app_length.
Qed.

Lemma c_format_no_nul pre m c suffix :
  0 ∉ pre ++ [m; c] -> 0 ∉ suffix -> 0 ∉ c_format pre m c suffix.
Proof.
  unfold c_format. intros H1 H2. destruct (is_lnL m);
    rewrite ?elem_of_app, ?elem_of_cons, ?elem_of_nil in *; tauto.
Qed.

Section FormatCorrect.
Context (sprintf : list Z -> Z -> list Z) (buf obuf fresh fmt pre : list Z) (m c : Z).
Hypothesis Hfmt : string_block fmt (pre ++ [m; c]).
Hypothesis Hlen : zlen pre < 28.
Hypothesis Hnul : 0 ∉ pre ++ [m; c].
Hypothesis Hbuf : zlen buf = 32 /\ zlen obuf = 128.
(** the text printed by the C library fits in memory *)
Hypothesis Htext : forall f n, is_bytes (sprintf f n) /\ zlen (sprintf f n) + 8 <= zlen fresh /\
  zlen (sprintf f n) <= 2 ^ 31 - 1.

Definition formats (suffix : list Z) (n : Z) (r : result (list Z)) : Prop :=
  exists blk, r = Ok blk /\ string_block blk (sprintf (c_format pre m c suffix) n).

Lemma alloc_sprintf_text text :
  is_bytes text -> zlen text + 8 <= zlen fresh -> zlen text <= 2 ^ 31 - 1 ->
  exists blk, caml_alloc_sprintf obuf fresh text = Ok blk /\ string_block blk text.
Proof. intros. apply caml_alloc_sprintf_spec; tauto. Qed.

Lemma format_with_suffix suffix :
  zlen suffix <= 1 -> 0 ∉ suffix ->
  exists fs, parse_format fmt suffix buf = Ok (c, fs) /\
    forall n, formats suffix n (format_number sprintf obuf fresh fs n).
Proof.
  intros Hs H0. destruct (parse_format_ok fmt pre m c suffix buf) as [rest E]; [done|lia|tauto|].
  eexists. split; [exact E|]. intros n. unfold format_number.
  rewrite c_string_app by by apply c_format_no_nul. cbn [rbind].
  destruct (Htext (c_format pre m c suffix) n) as (T1 & T2 & T3). by apply alloc_sprintf_text.
Qed.

(** Formatting: for an OCaml format of at least two characters and at most 29,
    without NUL, the C library is called with the format in which the OCaml
    size annotation is replaced by the one of the C type, on the integer, taken
    unsigned for the conversions u, x, X and o of [int], and the result is the
    string of the text it prints. *)
Theorem formats_correct :
  (forall arg, formats ARCH_INTNAT_PRINTF_FORMAT
     (if bool_decide (c ∈ [117; 120; 88; 111]) then Unsigned_long_val arg else Long_val arg)
     (caml_format_int sprintf buf obuf fresh fmt arg)) /\
  (forall n, formats ARCH_INT32_PRINTF_FORMAT n (caml_int32_format sprintf buf obuf fresh fmt n)) /\
  (forall n, formats ARCH_INT64_PRINTF_FORMAT n (caml_int64_format sprintf buf obuf fresh fmt n)) /\
  (forall n, formats ARCH_INTNAT_PRINTF_FORMAT n
     (caml_nativeint_format sprintf buf obuf fresh fmt n)).
Proof.
  assert (L : zlen [108] <= 1 /\ 0 ∉ [108]) by (split; [done|]; rewrite elem_of_cons, elem_of_nil; lia).
  destruct (format_with_suffix [108]) as (fl & El & Fl); [tauto..|].
  destruct (format_with_suffix []) as (f0 & E0 & F0); [done|apply not_elem_of_nil|].
  split_and!; intros n.
  - unfold caml_format_int, ARCH_INTNAT_PRINTF_FORMAT. rewrite El. cbn [rbind].
    assert (B : bool_decide (c ∈ [117; 120; 88; 111]) =
      (c =? 117) || (c =? 120) || (c =? 88) || (c =? 111)).
    { apply eq_true_iff_eq. rewrite bool_decide_eq_true, !orb_true_iff, !Z.eqb_eq.
      rewrite !elem_of_cons, elem_of_nil. tauto. }
    rewrite B. destruct (_ || _); apply Fl.
  - unfold caml_int32_format, ARCH_INT32_PRINTF_FORMAT. rewrite E0. apply F0.
  - unfold caml_int64_format, ARCH_INT64_PRINTF_FORMAT. rewrite El. apply Fl.
  - unfold caml_nativeint_format, ARCH_INTNAT_PRINTF_FORMAT. rewrite El. apply Fl.
Qed.
End FormatCorrect.

(** a C library that prints at most 16 characters of the format, then a byte *)
Definition print_byte (f : list Z) (n : Z) : list Z := (u8 <$> take 16 f) ++ [u8 n].

Lemma print_byte_text f n :
  is_bytes (print_byte f n) /\ zlen (print_byte f n) + 8 <= zlen (replicate 64 7) /\
  zlen (print_byte f n) <= 2 ^ 31 - 1.
Proof.
  split.
  - apply Forall_app. split; [|constructor; [apply u8_range|done]].
    apply Forall_fmap, Forall_true. intros x. apply u8_range.
  - unfold print_byte, zlen. rewrite !length_app, length_fmap, length_take, length_replicate.
    change (length [u8 n]) with 1%nat. lia.
Qed.

Lemma formats_correct_witness :
  exists blk, caml_int64_format print_byte (replicate 32 7) (replicate 128 7)
    (replicate 64 7) [37; 76; 100; 0; 0; 0; 0; 4] 65 = Ok blk /\
  string_block blk [37; 108; 100; 65].
Proof.
  apply (proj1 (proj2 (proj2 (formats_correct print_byte (replicate 32 7) (replicate 128 7)
    (replicate 64 7) [37; 76; 100; 0; 0; 0; 0; 4] [37] 76 100
    ltac:(split; [repeat constructor; unfold is_u8; lia|reflexivity])
    ltac:(vm_compute; reflexivity)
    ltac:(rewrite !elem_of_app, !elem_of_cons, !elem_of_nil; lia)
    ltac:(split; reflexivity) print_byte_text)))).
Defined.
