(* ===== verification/Memory.v ===== *)
(** * The OCaml heap

    Memory is a finite map from byte addresses, multiples of 8, to 64-bit words.
    A value is a word: an odd word is an integer, an even word points to the first
    field of a block, whose header is the word before it.  The macros that read
    headers and fields ([Hd_val], [Tag_val], [Wosize_val], [Field], [Byte]) read
    this map, and reading an address that is not mapped is undefined behaviour. *)

From S2P Require Import Prelude.
From S2P Require Import Mlvalues.
From S2P Require Import Str.
From stdpp Require Export gmap.
#[local] Open Scope Z_scope.

Notation mem := (gmap Z Z).

Definition load (m : mem) (a : Z) : result Z := of_option (m !! a).

Definition Hd_val (m : mem) (v : Z) : result Z := rmap u64 (load m (v - 8)).
Definition Field (m : mem) (v i : Z) : result Z := load m (v + 8 * i).
Definition Tag_val (m : mem) (v : Z) : result Z := rmap Tag_hd (Hd_val m v).
Definition Wosize_val (m : mem) (v : Z) : result Z := rmap Allocated_wosize_hd (Hd_val m v).
Definition Reserved_val (m : mem) (v : Z) : result Z := rmap Reserved_hd (Hd_val m v).
Definition Infix_offset_hd (hd : Z) : Z := Bsize_wsize (Allocated_wosize_hd hd).
Definition Infix_offset_val (m : mem) (v : Z) : result Z := rmap Infix_offset_hd (Hd_val m v).
Definition Forward_val (m : mem) (v : Z) : result Z := Field m v 0.
Definition Closinfo_val (m : mem) (v : Z) : result Z := Field m v 1.
Definition Oid_val (m : mem) (v : Z) : result Z := rmap Long_val (Field m v 1).

(** fields [i], [i + 1], ..., [i + n - 1] *)
Fixpoint fields (m : mem) (v i : Z) (n : nat) : result (list Z) :=
  match n with
  | O => Ok []
  | S n =>
      let* x := Field m v i in
      let* xs := fields m v (i + 1) n in
      Ok (x :: xs)
  end.

(** the bytes of a sequence of words *)
Definition bytes_of_words (ws : list Z) : list Z := concat (le_bytes 8 <$> ws).

(** the bytes of the whole block, as the string and float macros see it *)
Definition block_bytes (m : mem) (v : Z) : result (list Z) :=
  let* wosize := Wosize_val m v in
  rmap bytes_of_words (fields m v 0 (Z.to_nat wosize)).

(** [Double_flat_field]: the 64 bits of a float *)
Definition Double_flat_field (m : mem) (v i : Z) : result Z := rmap u64 (Field m v i).

(** ** Lemmas *)

Lemma load_Ok m a x : load m a = Ok x <-> m !! a = Some x.
Proof. unfold load, of_option. destruct (m !! a); naive_solver. Qed.

Lemma Field_Ok m v i x : Field m v i = Ok x <-> m !! (v + 8 * i) = Some x.
Proof. apply load_Ok. Qed.

Lemma fields_Ok m v n : forall i,
  (forall j, i <= j < i + Z.of_nat n -> is_ok (Field m v j) = true) ->
  exists xs, fields m v i n = Ok xs /\ length xs = n.
Proof.
  induction n as [|n IH]; intros i H; [by exists []|]. cbn [fields].
  pose proof (H i ltac:(lia)) as Hi. destruct (Field m v i) as [x| | |]; try discriminate Hi.
  destruct (IH (i + 1)) as (xs & -> & L).
  { intros j Hj. apply H. lia. }
  exists (x :: xs). cbn [rbind]. split; [done|]. simpl. lia.
Qed.

Lemma fields_length m v n : forall i xs, fields m v i n = Ok xs -> length xs = n.
Proof.
  induction n as [|n IH]; intros i xs; cbn [fields]; [by intros [= <-]|].
  intros (x & Hx & (ys & Hys & [= <-])%rbind_Ok)%rbind_Ok. simpl. f_equal. eauto.
Qed.

Lemma fields_lookup m v n : forall i xs k x,
  fields m v i n = Ok xs -> xs !! k = Some x -> Field m v (i + Z.of_nat k) = Ok x.
Proof.
  induction n as [|n IH]; intros i xs k x; cbn [fields]; [by intros [= <-]|].
  intros (y & Hy & (ys & Hys & [= <-])%rbind_Ok)%rbind_Ok. destruct k as [|k]; simpl.
  - intros [= ->]. by rewrite Z.add_0_r.
  - intros Hk. replace (i + Z.of_nat (S k)) with (i + 1 + Z.of_nat k) by lia. eauto.
Qed.

Lemma bytes_of_words_length ws : length (bytes_of_words ws) = (8 * length ws)%nat.
Proof.
  unfold bytes_of_words. induction ws as [|w ws IH]; [done|].
  rewrite fmap_cons. cbn [concat]. rewrite length_app, le_bytes_length, IH. cbn [length]. lia.
Qed.

Lemma bytes_of_words_bytes ws : is_bytes (bytes_of_words ws).
Proof.
  unfold bytes_of_words. induction ws as [|w ws IH]; [constructor|].
  rewrite fmap_cons. cbn [concat]. apply Forall_app. split; [apply le_bytes_is_bytes|done].
Qed.

(** ** Blocks *)

(** [v] points to a block of header [hd] and fields [fs] *)
Definition block_at (m : mem) (v hd : Z) (fs : list Z) : Prop :=
  Hd_val m v = Ok hd /\ fields m v 0 (Z.to_nat (Allocated_wosize_hd hd)) = Ok fs.

Section BlockAt.
Context {m : mem} {v hd : Z} {fs : list Z} (H : block_at m v hd fs).

Lemma block_at_hd : Hd_val m v = Ok hd.
Proof. apply H. Qed.

Lemma block_at_tag : Tag_val m v = Ok (Tag_hd hd).
Proof. unfold Tag_val, rmap. by rewrite block_at_hd. Qed.

Lemma block_at_wosize : Wosize_val m v = Ok (Allocated_wosize_hd hd).
Proof. unfold Wosize_val, rmap. by rewrite block_at_hd. Qed.

Lemma block_at_reserved : Reserved_val m v = Ok (Reserved_hd hd).
Proof. unfold Reserved_val, rmap. by rewrite block_at_hd. Qed.

Lemma Allocated_wosize_nonneg : 0 <= Allocated_wosize_hd hd.
Proof. rewrite Allocated_wosize_hd_eq. apply Z.mod_pos_bound. lia. Qed.

Lemma block_at_zlen : Allocated_wosize_hd hd = zlen fs.
Proof.
  destruct H as [_ F]. apply fields_length in F. unfold zlen.
  pose proof Allocated_wosize_nonneg. lia.
Qed.

Lemma block_at_field k x : fs !! k = Some x -> Field m v (Z.of_nat k) = Ok x.
Proof. intros Hk. destruct H as [_ F]. exact (fields_lookup _ _ _ _ _ _ _ F Hk). Qed.

Lemma block_at_field0 x : fs !! 0%nat = Some x -> Field m v 0 = Ok x.
Proof. exact (block_at_field 0 x). Qed.

Lemma block_at_field1 x : fs !! 1%nat = Some x -> Field m v 1 = Ok x.
Proof. exact (block_at_field 1 x). Qed.

Lemma block_at_Field i : 0 <= i < zlen fs -> Field m v i = Ok (zget fs i).
Proof.
  intros Hi. pose proof (rd_zget fs i Hi) as R. apply rd_Ok in R as [_ R].
  apply block_at_field in R. by rewrite Z2Nat.id in R by lia.
Qed.

Lemma block_at_bytes : block_bytes m v = Ok (bytes_of_words fs).
Proof.
  unfold block_bytes. rewrite block_at_wosize. cbn [rbind]. unfold rmap.
  by rewrite (proj2 H).
Qed.
End BlockAt.

(** related values: the same integer, or blocks related by [R] *)
Definition value_rel (R : Z -> Z -> Prop) (v1 v2 : Z) : Prop :=
  (Is_long v1 = true /\ v1 = v2) \/ (Is_long v1 = false /\ Is_long v2 = false /\ R v1 v2).

Lemma value_rel_long R v1 v2 : value_rel R v1 v2 -> Is_long v1 = Is_long v2.
Proof. intros [[_ ->] | (-> & -> & _)]; done. Qed.

(** ** Stores and allocation *)

Definition store_word (m : mem) (a x : Z) : result mem :=
  match m !! a with Some _ => Ok (<[a := x]> m) | None => Undef end.

(** [caml_modify(&Field(v, i), x)], [Field(v, i) = x] *)
Definition set_Field (m : mem) (v i x : Z) : result mem := store_word m (v + 8 * i) x.

(** [Byte_u(v, i)] *)
Definition Byte_u (m : mem) (v i : Z) : result Z :=
  let* w := Field m v (i / 8) in Ok (Z.land (Z.shiftr w (8 * (i mod 8))) 0xFF).
Definition set_Byte_u (m : mem) (v i b : Z) : result mem :=
  let* w := Field m v (i / 8) in
  let sh := 8 * (i mod 8) in
  set_Field m v (i / 8)
    (s64 (u64 w - Z.shiftl (Z.land (Z.shiftr (u64 w) sh) 0xFF) sh + Z.shiftl (u8 b) sh)).

(** the word at an address that is mapped *)
Definition word (m : mem) (a : Z) : Z := default 0 (m !! a).

Lemma word_Some m a x : m !! a = Some x -> word m a = x.
Proof. unfold word. by intros ->. Qed.

Lemma load_word m a : is_Some (m !! a) -> load m a = Ok (word m a).
Proof. intros [x E]. apply load_Ok. by rewrite (word_Some m a x E). Qed.

Lemma store_word_Ok m a x : is_Some (m !! a) -> store_word m a x = Ok (<[a := x]> m).
Proof. intros [y E]. unfold store_word. by rewrite E. Qed.

(** words stored from address [a] on *)
Fixpoint store_words (m : mem) (a : Z) (ws : list Z) : mem :=
  match ws with
  | [] => m
  | w :: ws => <[a := w]> (store_words m (a + 8) ws)
  end.

(** the heap and its first free address: allocation takes the block there *)
Record heap := Heap { h_mem : mem; h_next : Z }.

Definition Make_header_with_reserved (wosize tag reserved : Z) : Z :=
  u64 (Hd_reserved reserved + Z.shiftl wosize HEADER_WOSIZE_SHIFT + tag).
Definition Make_header (wosize tag : Z) : Z := Make_header_with_reserved wosize tag 0.

Definition alloc (h : heap) (tag reserved : Z) (init : list Z) : Z * heap :=
  let v := h_next h + 8 in
  (v, Heap (<[h_next h := s64 (Make_header_with_reserved (zlen init) tag reserved)]>
              (store_words (h_mem h) v init))
        (v + 8 * zlen init)).

(** ** Allocated blocks *)

Lemma Make_header_of wosize tag reserved :
  0 <= wosize < 2 ^ 46 -> 0 <= tag < 256 -> 0 <= reserved < 256 ->
  Make_header_with_reserved wosize tag reserved = header_of tag 0 wosize reserved.
Proof.
  intros. unfold Make_header_with_reserved, Hd_reserved, header_of. hd_consts.
  rewrite !Z.shiftl_mul_pow2 by lia. solve_word.
Qed.

Lemma Make_header_u64 wosize tag reserved : is_u64 (Make_header_with_reserved wosize tag reserved).
Proof. apply u64_range. Qed.

Lemma store_words_below m ws : forall a b, b < a -> store_words m a ws !! b = m !! b.
Proof.
  induction ws as [|w ws IH]; intros a b H; cbn [store_words]; [done|].
  rewrite lookup_insert_ne by lia. apply IH. lia.
Qed.

Lemma store_words_above m ws : forall a b,
  a + 8 * zlen ws <= b -> store_words m a ws !! b = m !! b.
Proof.
  induction ws as [|w ws IH]; intros a b H; cbn [store_words]; [done|].
  rewrite zlen_cons in H. pose proof (zlen_nonneg ws).
  rewrite lookup_insert_ne by lia. apply IH. lia.
Qed.

Lemma store_words_lookup m ws : forall a k w,
  ws !! k = Some w -> store_words m a ws !! (a + 8 * Z.of_nat k) = Some w.
Proof.
  induction ws as [|w ws IH]; intros a k x; [done|]. destruct k as [|k]; cbn [store_words].
  - intros [= ->]. rewrite Z.mul_0_r, Z.add_0_r. apply lookup_insert_eq.
  - intros H. rewrite lookup_insert_ne by lia.
    replace (a + 8 * Z.of_nat (S k)) with (a + 8 + 8 * Z.of_nat k) by lia. by apply IH.
Qed.

Lemma fields_Forall2 m v xs : forall i,
  (forall k x, xs !! k = Some x -> Field m v (i + Z.of_nat k) = Ok x) ->
  fields m v i (length xs) = Ok xs.
Proof.
  induction xs as [|x xs IH]; intros i H; [done|]. cbn [fields length].
  pose proof (H 0%nat x eq_refl) as E. rewrite Z.add_0_r in E. rewrite E. cbn [rbind].
  rewrite IH; [done|]. intros k y Hy.
  replace (i + 1 + Z.of_nat k) with (i + Z.of_nat (S k)) by lia. by apply H.
Qed.

(** an allocation gives a block with its tag and fields *)
Lemma alloc_block_at h tag reserved init v h' :
  alloc h tag reserved init = (v, h') ->
  zlen init < 2 ^ 46 -> 0 <= tag < 256 -> 0 <= reserved < 256 ->
  block_at (h_mem h') v (header_of tag 0 (zlen init) reserved) init.
Proof.
  intros [= <- <-] Hl Ht Hr. unfold block_at, Hd_val, rmap. cbn [h_mem].
  pose proof (zlen_nonneg init) as L.
  destruct (header_of_fields tag 0 (zlen init) reserved) as (_ & _ & Hw & _); [lia..|].
  rewrite Hw. unfold load. replace (h_next h + 8 - 8) with (h_next h) by lia.
  rewrite lookup_insert_eq. cbn [of_option rbind]. split.
  - rewrite u64_s64, Make_header_of, u64_id; [done| |lia..]. apply header_of_u64; lia.
  - unfold zlen. rewrite Nat2Z.id. apply fields_Forall2. intros k x Hk.
    apply Field_Ok. rewrite lookup_insert_ne by lia. by apply store_words_lookup.
Qed.

(** ... and changes no address below it *)
Lemma alloc_below h tag reserved init v h' b :
  alloc h tag reserved init = (v, h') -> b < h_next h -> h_mem h' !! b = h_mem h !! b.
Proof.
  intros [= <- <-] Hb. cbn [h_mem].
  rewrite lookup_insert_ne, store_words_below by lia. done.
Qed.
