(* ===== verification/Minorgc.v ===== *)
(** * The minor collector ([ocaml/runtime/minor_gc.c])

    A minor collection copies the blocks of the minor heap that are reachable to the
    shared heap, leaving in each of them a null header and the address of its copy.
    [oldify_one] copies a block and puts it on a list of blocks whose other fields are
    still to be looked at, linked through the second field of the copies; [oldify_mopup]
    empties that list.  The stacks of continuations are scanned as the bytecode runtime
    does ([caml_scan_stack] of fiber.c).

    The collection of a program of one domain is modelled: [caml_domain_alone()] holds,
    so a header is forwarded without a race.  The shared heap is used through the
    interface [SharedHeap]. *)

From S2P Require Import Prelude.
From S2P Require Import Mlvalues.
From S2P Require Import Str.
From S2P Require Import Memory.
#[local] Open Scope Z_scope.

(** ** The shared heap, as the collector uses it *)

(** [caml_shared_try_alloc(local, wosize, tag, reserved)]: the address of the header of a
    new block, or [None] for the null pointer *)
Class SharedHeap (H : Type) : Type :=
  caml_shared_try_alloc : H -> mem -> Z -> Z -> Z -> option (Z * H * mem).

(** what it promises: the new block is taken from the memory that the heap owns, has the
    header asked for, and nothing changes outside that memory *)
Class SharedHeapSpec (H : Type) `{SharedHeap H} := {
  sh_ok : H -> mem -> Prop;
  sh_owns : H -> Z -> Prop;
  sh_alloc : forall h m wosize tag reserved hp h' m',
    sh_ok h m -> 0 < wosize <= Max_wosize -> 0 <= tag < 256 -> 0 <= reserved < 256 ->
    caml_shared_try_alloc h m wosize tag reserved = Some (hp, h', m') ->
    sh_ok h' m' /\
    (forall a, sh_owns h' a -> sh_owns h a) /\
    (forall i, 0 <= i <= wosize ->
       sh_owns h (hp + 8 * i) /\ ~ sh_owns h' (hp + 8 * i) /\ is_Some (m' !! (hp + 8 * i))) /\
    (forall a, ~ sh_owns h a -> m' !! a = m !! a) /\
    0 <= hp /\ hp mod 8 = 0 /\
    (exists color, 0 <= color < 4 /\
       Hd_val m' (hp + 8) = Ok (header_of tag color wosize reserved));
  sh_frame : forall h m m',
    sh_ok h m -> (forall a, sh_owns h a -> m' !! a = m !! a) -> sh_ok h m'
}.

(** ** Stacks of fibers (bytecode) *)

(** the fields of [struct stack_info] and [struct stack_handler] *)
Definition stack_sp (m : mem) (stack : Z) : result Z := load m stack.
Definition stack_handler (m : mem) (stack : Z) : result Z := load m (stack + 16).
Definition Stack_high := stack_handler.
Definition Stack_handle_value (m : mem) (stack : Z) : result Z := stack_handler m stack.
Definition Stack_handle_exception (m : mem) (stack : Z) : result Z :=
  rmap (fun h => h + 8) (stack_handler m stack).
Definition Stack_handle_effect (m : mem) (stack : Z) : result Z :=
  rmap (fun h => h + 16) (stack_handler m stack).
Definition Stack_parent (m : mem) (stack : Z) : result Z :=
  let* h := stack_handler m stack in load m (h + 24).

Definition Val_ptr (p : Z) : Z := p + 1.
Definition Ptr_val (v : Z) : Z := v - 1.

(** the addresses of the words between [low] and [high] *)
Definition words_between (low high : Z) : list Z :=
  (fun i => low + 8 * i) <$> seqZ 0 ((high - low + 7) / 8).

(** a flag of scanning actions, and the addresses of code *)
Definition is_scannable (only_young : bool) (is_code : Z -> bool) (v : Z) : bool :=
  only_young || (Is_block v && negb (is_code v)).

(** [struct caml__roots_block]: the tables of local roots of a C function *)
Record roots_block := RootsBlock { ntables : Z; nitems : Z; tables : list Z }.

(** the slots of a chain of stacks, and the addresses read to find them *)
Fixpoint stack_slots (n : nat) (m : mem) (stack : Z) : result (list Z * list Z) :=
  if stack =? 0 then Ok ([], []) else
  match n with
  | O => NoFuel
  | S n =>
      let* high := Stack_high m stack in
      let* low := stack_sp m stack in
      let* parent := Stack_parent m stack in
      let* (slots, reads) := stack_slots n m parent in
      Ok (words_between low high ++ [high; high + 8; high + 16] ++ slots,
          [stack; stack + 16; high + 24] ++ reads)
  end.

Section Scan.
(** a scanning action on a state with a memory *)
Context {A : Type} (memory_of : A -> mem) (f : A -> Z -> Z -> result A).
Context (only_young : bool) (is_code : Z -> bool).

Definition scan_slot (p : Z) (st : A) : result A :=
  let* v := load (memory_of st) p in
  if is_scannable only_young is_code v then f st v p else Ok st.

Fixpoint scan_slots (ps : list Z) (st : A) : result A :=
  match ps with
  | [] => Ok st
  | p :: ps => let* st := scan_slot p st in scan_slots ps st
  end.

(** [while (stack != NULL) ...]: [n] bounds the number of stacks of the chain *)
Fixpoint caml_scan_stack (n : nat) (stack : Z) (st : A) : result A :=
  if stack =? 0 then Ok st else
  match n with
  | O => NoFuel
  | S n =>
      let* high := Stack_high (memory_of st) stack in
      let* low := stack_sp (memory_of st) stack in
      let* st := scan_slots (words_between low high) st in
      let* p := Stack_handle_value (memory_of st) stack in
      let* st := scan_slot p st in
      let* p := Stack_handle_exception (memory_of st) stack in
      let* st := scan_slot p st in
      let* p := Stack_handle_effect (memory_of st) stack in
      let* st := scan_slot p st in
      let* parent := Stack_parent (memory_of st) stack in
      caml_scan_stack n parent st
  end.

(** ** Local roots *)

Definition local_root (sp : Z) (st : A) : result A :=
  let* v := load (memory_of st) sp in
  if negb (v =? 0) then f st v sp else Ok st.

Definition roots_block_items (lr : roots_block) (st : A) : result A :=
  for_loop (Z.to_nat (ntables lr)) 0 (fun i st =>
    let* t := rd (tables lr) i in
    for_loop (Z.to_nat (nitems lr)) 0 (fun j st => local_root (t + 8 * j) st) st) st.

Fixpoint local_roots_blocks (lrs : list roots_block) (st : A) : result A :=
  match lrs with
  | [] => Ok st
  | lr :: lrs => let* st := roots_block_items lr st in local_roots_blocks lrs st
  end.

Definition caml_do_local_roots (n : nat) (local_roots : list roots_block) (current_stack : Z)
    (st : A) : result A :=
  let* st := local_roots_blocks local_roots st in
  caml_scan_stack n current_stack st.
End Scan.

(** ** Promotion *)

(** [struct oldify_state]: [todo_list], [live_bytes], and of the domain its shared heap
    and its count of allocated words; [st_mem] is the memory *)
Record oldify_state (H : Type) := Oldify {
  todo_list : Z;
  live_bytes : Z;
  allocated_words : Z;
  shared_heap : H;
  st_mem : mem
}.
Arguments Oldify {H} _ _ _ _ _.
Arguments todo_list {H} _.
Arguments live_bytes {H} _.
Arguments allocated_words {H} _.
Arguments shared_heap {H} _.
Arguments st_mem {H} _.

(** [caml_minor_heaps_start], [caml_minor_heaps_end] *)
Record minor_area := MinorArea { minor_heaps_start : Z; minor_heaps_end : Z }.

Definition Is_young (ar : minor_area) (v : Z) : bool :=
  (v <? minor_heaps_end ar) && (minor_heaps_start ar <? v).
Definition Is_block_and_young (ar : minor_area) (v : Z) : bool := Is_block v && Is_young ar v.

Definition Scannable_wosize_hd (native_code : bool) (hd : Z) : Z :=
  if native_code then Scannable_wosize_hd_native hd else Allocated_wosize_hd hd.
Definition Bhsize_hd (hd : Z) : Z := Bhsize_wosize (Allocated_wosize_hd hd).

Definition In_progress_update_val : Z := 0x100.
Definition Is_update_in_progress (hd : Z) : bool := hd =? In_progress_update_val.

(** a header in progress is never set when the domain is alone: waiting for it would not
    end *)
Definition get_header_val (m : mem) (v : Z) : result Z :=
  let* hd := Hd_val m v in
  if Is_update_in_progress hd then NoFuel else Ok hd.

Section Oldify.
Context {H : Type} `{SharedHeap H}.
Context (ar : minor_area) (native_code : bool).
#[local] Abbreviation state := (oldify_state H).

Definition on_mem (st : state) (m : mem) : state :=
  Oldify (todo_list st) (live_bytes st) (allocated_words st) (shared_heap st) m.
Definition store (st : state) (a x : Z) : result state :=
  rmap (on_mem st) (store_word (st_mem st) a x).
Definition add_live_bytes (st : state) (n : Z) : state :=
  Oldify (todo_list st) (u64 (live_bytes st + n)) (allocated_words st) (shared_heap st) (st_mem st).
Definition set_todo_list (st : state) (v : Z) : state :=
  Oldify v (live_bytes st) (allocated_words st) (shared_heap st) (st_mem st).

Definition alloc_shared (st : state) (wosize tag reserved : Z) : result (Z * state) :=
  match caml_shared_try_alloc (shared_heap st) (st_mem st) wosize tag reserved with
  | None => Raise (Fatal_error "allocation failure during minor GC")
  | Some (hp, h', m') =>
      Ok (hp + 8, Oldify (todo_list st) (live_bytes st)
            (u64 (allocated_words st + Whsize_wosize wosize)) h' m')
  end.

(** the branch of [caml_domain_alone()], which always succeeds *)
Definition try_update_object_header (st : state) (v p res infix_offset : Z) : result state :=
  let* st := store st (v - 8) 0 in
  let* st := store st v res in
  store st p (res + infix_offset).

(** [for (i = i; i < j; i++) Field(result, i) = Field(v, i)] *)
Definition copy_fields (res v i j : Z) (st : state) : result state :=
  for_loop (Z.to_nat (j - i)) i
    (fun i st => let* x := Field (st_mem st) v i in store st (res + 8 * i) x) st.

(** the block of [v], the infix offset of [v] in it, and its header *)
Fixpoint real_block (n : nat) (m : mem) (v infix_offset : Z) : result (Z * Z * Z) :=
  match n with
  | O => NoFuel
  | S n =>
      let* hd := get_header_val m v in
      if hd =? 0 then Ok (v, infix_offset, hd)
      else if Tag_hd hd =? Infix_tag
      then let off := Infix_offset_hd hd in real_block n m (v - off) off
      else Ok (v, infix_offset, hd)
  end.

(** whether a forwarding block that points to [f] is kept *)
Definition keeps_forward (m : mem) (f : Z) : result bool :=
  let* ft :=
    (if Is_block f then
       let* hd := get_header_val m f in
       let* f' := (if hd =? 0 then Field m f 0 else Ok f) in
       Tag_val m f'
     else Ok 0) in
  Ok ((ft =? Forward_tag) || (ft =? Lazy_tag) || (ft =? Forcing_tag) || (ft =? Double_tag)).

Fixpoint oldify_one (fuel : nat) (st : state) (v p : Z) : result state :=
  match fuel with
  | O => NoFuel
  | S fuel =>
    if negb (Is_block v && Is_young ar v) then store st p v else
    let* (v, infix_offset, hd) := real_block fuel (st_mem st) v 0 in
    if hd =? 0 then
      let* f := Field (st_mem st) v 0 in store st p (f + infix_offset)
    else
    let tag := Tag_hd hd in
    let sz := Allocated_wosize_hd hd in
    if tag =? Cont_tag then
      let* stack_value := Field (st_mem st) v 0 in
      let* (res, st) := alloc_shared st 1 Cont_tag (Reserved_hd hd) in
      let* st := try_update_object_header st v p res 0 in
      let stk := Ptr_val stack_value in
      let* st := store st res (Val_ptr stk) in
      caml_scan_stack st_mem (oldify_one fuel) true (fun _ => false) fuel stk st
    else if tag <? Infix_tag then
      let st := add_live_bytes st (Bhsize_hd hd) in
      let* (res, st) := alloc_shared st sz tag (Reserved_hd hd) in
      let* field0 := Field (st_mem st) v 0 in
      let* st := try_update_object_header st v p res infix_offset in
      let scannable_sz := Scannable_wosize_hd native_code hd in
      let* st :=
        (if scannable_sz =? 0
         then let* st := store st res field0 in copy_fields res v 1 sz st
         else copy_fields res v scannable_sz sz st) in
      if scannable_sz =? 0 then Ok st
      else if 1 <? scannable_sz then
        let* st := store st res field0 in
        let* st := store st (res + 8) (todo_list st) in
        Ok (set_todo_list st v)
      else oldify_one fuel st field0 res
    else if No_scan_tag <=? tag then
      let st := add_live_bytes st (Bhsize_hd hd) in
      let* (res, st) := alloc_shared st sz tag (Reserved_hd hd) in
      let* st := copy_fields res v 0 sz st in
      try_update_object_header st v p res 0
    else
      let* f := Forward_val (st_mem st) v in
      let* keep := keeps_forward (st_mem st) f in
      if keep then
        let st := add_live_bytes st (Bhsize_hd hd) in
        let* (res, st) := alloc_shared st 1 Forward_tag (Reserved_hd hd) in
        let* st := try_update_object_header st v p res 0 in
        oldify_one fuel st f res
      else oldify_one fuel st f p
  end.

(** ** The to-do list, and the ephemerons *)

(** [if (Is_block(f) && Is_young(f)) oldify_one(...) else Field(new_v, i) = f] *)
Definition mopup_field (fuel : nat) (v new_v i : Z) (st : state) : result state :=
  let* f := Field (st_mem st) v i in
  if Is_block f && Is_young ar f then oldify_one fuel st f (new_v + 8 * i)
  else store st (new_v + 8 * i) f.

Definition mopup_block (fuel : nat) (st : state) : result state :=
  let v := todo_list st in
  let* new_v := Field (st_mem st) v 0 in
  let* next := Field (st_mem st) new_v 1 in
  let st := set_todo_list st next in
  let* hd := Hd_val (st_mem st) new_v in
  let scannable_wosize := Scannable_wosize_hd native_code hd in
  let* f := Field (st_mem st) new_v 0 in
  let* st :=
    (if Is_block f && Is_young ar f then oldify_one fuel st f new_v else Ok st) in
  let* tag := Tag_val (st_mem st) new_v in
  let* i_st :=
    (if tag =? Closure_tag then
       let* info := Closinfo_val (st_mem st) v in
       let non_scannable := Start_env_closinfo info in
       let* st := copy_fields new_v v 1 non_scannable st in
       Ok (Z.max 1 non_scannable, st)
     else Ok (1, st)) in
  let (i, st) := (i_st : Z * state) in
  for_loop (Z.to_nat (scannable_wosize - i)) i (mopup_field fuel v new_v) st.

Definition mopup_todo (fuel : nat) (st : state) : result state :=
  while_loop fuel (fun st => negb (todo_list st =? 0)) (mopup_block fuel) st.

(** [struct caml_ephe_ref_elt] *)
Record caml_ephe_ref_elt := EpheRef { re_ephe : Z; re_offset : Z }.

Definition CAML_EPHE_DATA_OFFSET : Z := 1.
Definition Ephe_data (e : Z) : Z := e + 8 * CAML_EPHE_DATA_OFFSET.

Definition ephe_slot (re : caml_ephe_ref_elt) : Z :=
  if re_offset re =? CAML_EPHE_DATA_OFFSET then Ephe_data (re_ephe re)
  else re_ephe re + 8 * re_offset re.

(** the address of the value that marks an empty slot of an ephemeron *)
Context (caml_ephe_none : Z).

Definition mopup_ephe (fuel : nat) (re : caml_ephe_ref_elt) (st_redo : state * bool)
    : result (state * bool) :=
  let (st, redo) := st_redo in
  let data := ephe_slot re in
  let* v := load (st_mem st) data in
  if negb (v =? caml_ephe_none) && Is_block v && Is_young ar v then
    let* tag := Tag_val (st_mem st) v in
    let* offs := (if tag =? Infix_tag then Infix_offset_val (st_mem st) v else Ok 0) in
    let v := v - offs in
    let* hd := get_header_val (st_mem st) v in
    if hd =? 0 then
      let* f := Field (st_mem st) v 0 in
      let* st := store st data (f + offs) in
      Ok (st, redo)
    else
      let* x := load (st_mem st) data in
      let* st := oldify_one fuel st x data in
      Ok (st, true)
  else Ok (st, redo).

Fixpoint mopup_ephes (fuel : nat) (ephe_ref : list caml_ephe_ref_elt) (st_redo : state * bool)
    : result (state * bool) :=
  match ephe_ref with
  | [] => Ok st_redo
  | re :: ephe_ref =>
      let* st_redo := mopup_ephe fuel re st_redo in mopup_ephes fuel ephe_ref st_redo
  end.

(** [again: ... if (redo) goto again]: [n] bounds the number of turns *)
Fixpoint mopup_again (n fuel : nat) (ephe_ref : list caml_ephe_ref_elt) (do_ephemerons : bool)
    (st : state) : result state :=
  match n with
  | O => NoFuel
  | S n =>
      let* st := mopup_todo fuel st in
      let* st_redo := (if do_ephemerons then mopup_ephes fuel ephe_ref (st, false)
                       else Ok (st, false)) in
      let (st, redo) := (st_redo : state * bool) in
      if redo then mopup_again n fuel ephe_ref do_ephemerons st else Ok st
  end.

Definition oldify_mopup (fuel : nat) (ephe_ref : list caml_ephe_ref_elt) (do_ephemerons : bool)
    (st : state) : result state :=
  mopup_again 3 fuel ephe_ref do_ephemerons st.

(** ** Collection of a domain *)

(** [oldify_one (&st, **r, *r)] on every address of a list *)
Definition oldify_roots (fuel : nat) (rs : list Z) (st : state) : result state :=
  scan_slots st_mem (oldify_one fuel) true (fun _ => false) rs st.

(** the finalisers of a table of finalise.c: the addresses of [table[i].fun] and
    [table[i].val] for the recent entries *)
Record final_table := FinalTable { ft_base : Z; ft_old : Z; ft_young : Z }.

Definition final_slots (with_val : bool) (ft : final_table) : list Z :=
  i ← seqZ (ft_old ft) (ft_young ft - ft_old ft);
  let e := ft_base ft + 24 * i in
  if with_val then [e; e + 8] else [e].

(** what a domain gives to the collector: the tables of the references from the major heap
    and of the ephemerons, the finalisers, the roots of the tables of memprof, the roots of
    the running functions, the current stack, the roots of a hook; with the minor heap and
    the statistics *)
Record domain := Domain {
  d_young_start : Z;
  d_young_ptr : Z;
  d_young_end : Z;
  d_young_trigger : Z;
  d_major_ref : list Z;
  d_ephe_ref : list caml_ephe_ref_elt;
  d_final_first : final_table;
  d_final_last : final_table;
  d_memprof_roots : list Z;
  d_local_roots : list roots_block;
  d_current_stack : Z;
  d_hook_roots : list Z;
  d_allocated_words : Z;
  d_stat_minor_words : Z;
  d_stat_promoted_words : Z
}.

Definition caml_final_do_young_roots (fuel : nat) (d : domain) (do_last_val : bool) (st : state)
    : result state :=
  let* st := oldify_roots fuel (final_slots true (d_final_first d)) st in
  oldify_roots fuel (final_slots do_last_val (d_final_last d)) st.

(** [global_roots]: the addresses that [caml_scan_global_young_roots] visits *)
Definition caml_empty_minor_heap_promote (fuel : nat) (global_roots : list Z) (d : domain)
    (h : H) (m : mem) : result (domain * state) :=
  let minor_allocated_bytes := u64 (d_young_end d - d_young_ptr d) in
  let prev_alloc_words := d_allocated_words d in
  let st := Oldify 0 0 (d_allocated_words d) h m in
  let* st := oldify_roots fuel global_roots st in
  let* st := oldify_roots fuel (d_major_ref d) st in
  let* st := caml_final_do_young_roots fuel d false st in
  let* st := oldify_roots fuel (d_memprof_roots d) st in
  let* st := oldify_mopup fuel (d_ephe_ref d) true st in
  let* st := caml_do_local_roots st_mem (oldify_one fuel) true (fun _ => false) fuel
              (d_local_roots d) (d_current_stack d) st in
  let* st := oldify_roots fuel (d_hook_roots d) st in
  let* st := oldify_mopup fuel (d_ephe_ref d) false st in
  Ok (Domain (d_young_start d) (d_young_end d) (d_young_end d)
        (d_young_start d + (d_young_end d - d_young_start d) / 16 * 8)
        (d_major_ref d) (d_ephe_ref d) (d_final_first d) (d_final_last d)
        (d_memprof_roots d) (d_local_roots d) (d_current_stack d) (d_hook_roots d)
        (allocated_words st)
        (u64 (d_stat_minor_words d + Wsize_bsize minor_allocated_bytes))
        (u64 (d_stat_promoted_words d + u64 (allocated_words st - prev_alloc_words))), st).
End Oldify.
