(* ===== verification/Scanning.v ===== *)
(** * Scanning of stacks and local roots

    What [caml_scan_stack] and [caml_do_local_roots] do with any scanning action, from what
    the action does to one slot: every slot of the stacks of the chain and of the tables of
    local roots is done at the end.  The two collectors use these lemmas. *)

From S2P Require Import Prelude.
From S2P Require Import Memory.
From S2P Require Import Minorgc.
#[local] Open Scope Z_scope.

(** the addresses of the roots of a block *)
Definition roots_block_slots (lr : roots_block) : list Z :=
  t ← take (Z.to_nat (ntables lr)) (tables lr); (fun j => t + 8 * j) <$> seqZ 0 (nitems lr).

Definition roots_blocks_ok (lrs : list roots_block) : Prop :=
  Forall (fun lr => ntables lr <= zlen (tables lr) /\ 0 <= nitems lr) lrs.

Lemma roots_block_slots_elem lr a : 0 <= nitems lr ->
  a ∈ roots_block_slots lr <->
  exists i t, 0 <= i < ntables lr /\ rd (tables lr) i = Ok t /\ a ∈ ((fun j => t + 8 * j) <$> seqZ 0 (nitems lr)).
Proof.
  intros Hn. unfold roots_block_slots. rewrite list_elem_of_bind. split.
  - intros (t & Ha & (k & Hk)%list_elem_of_lookup). apply lookup_take_Some in Hk as [Hk Hlt].
    exists (Z.of_nat k), t. split; [lia|]. split; [|done]. apply rd_Ok. rewrite Nat2Z.id. split; [lia|done].
  - intros (i & t & Hi & [_ Ht]%rd_Ok & Ha). exists t. split; [done|].
    apply list_elem_of_lookup. exists (Z.to_nat i). apply lookup_take_Some. split; [done|lia].
Qed.

Section Scanning.
(** a scanning action, an invariant of its states indexed by a ghost state, the order in
    which the ghost states follow each other, the slots that may be scanned and those that
    have been; and the addresses that do not change *)
Context {A G : Type} (memory_of : A -> mem) (f : A -> Z -> Z -> result A).
Context (only_young : bool) (is_code : Z -> bool) (E : exn) (m0 : mem).
Context (Inv : G -> A -> Prop) (R : G -> G -> Prop) {R_preorder : PreOrder R}.
Context (ready done_at : G -> Z -> Prop) (frozen : Z -> Prop).
Context (R_ready : forall g g' p, R g g' -> ready g p -> ready g' p).
Context (R_done : forall g g' p, R g g' -> done_at g p -> done_at g' p).
Context (Inv_frozen : forall g st a, Inv g st -> frozen a -> memory_of st !! a = m0 !! a).

(** the slots [ps] are done, after [g] *)
Definition all_done (g : G) (ps : list Z) (st : A) : Prop :=
  exists g', Inv g' st /\ R g g' /\ Forall (done_at g') ps.

Lemma Forall_ready g g' ps : R g g' -> Forall (ready g) ps -> Forall (ready g') ps.
Proof. intros H F. eapply Forall_impl; [exact F|]. intros p. by apply R_ready. Qed.

Lemma Forall_done g g' ps : R g g' -> Forall (done_at g) ps -> Forall (done_at g') ps.
Proof. intros H F. eapply Forall_impl; [exact F|]. intros p. by apply R_done. Qed.

Lemma all_done_nil g st : Inv g st -> all_done g [] st.
Proof. intros I. exists g. split; [done|]. split; [reflexivity|constructor]. Qed.

(** two scans in sequence *)
Lemma all_done_bind g ps qs (r : result A) (k : A -> result A) :
  ok_or E r (all_done g ps) -> Forall (ready g) qs ->
  (forall g1 st1, Inv g1 st1 -> R g g1 -> Forall (ready g1) qs -> ok_or E (k st1) (all_done g1 qs)) ->
  ok_or E (rbind r k) (all_done g (ps ++ qs)).
Proof.
  intros Hr Hq Hk. eapply ok_or_bind; [exact Hr|]. intros s1 (g1 & I1 & R1 & D1).
  eapply ok_or_mono; [apply (Hk g1 s1 I1 R1); by eapply Forall_ready|].
  intros s2 (g2 & I2 & R2 & D2). exists g2. split; [done|]. split; [by etrans|].
  apply Forall_app. split; [by eapply Forall_done|done].
Qed.

Section Slots.
(** what the action does to a slot of a stack *)
Context (slot_ok : forall g st p, Inv g st -> ready g p ->
  ok_or E (scan_slot memory_of f only_young is_code p st) (all_done g [p])).

Lemma scan_slots_ok ps : forall g st, Inv g st -> Forall (ready g) ps ->
  ok_or E (scan_slots memory_of f only_young is_code ps st) (all_done g ps).
Proof.
  induction ps as [|p ps IH]; intros g st I H; cbn [scan_slots]; [by apply all_done_nil|].
  apply Forall_cons in H as [Hp Hps].
  apply (all_done_bind g [p] ps); [by apply slot_ok|done|]. intros g1 s1 I1 _. by apply IH.
Qed.

(** the words that lead to the slots of a chain do not change *)
Lemma caml_scan_stack_ok n : forall fuel stack slots reads g st,
  stack_slots n m0 stack = Ok (slots, reads) -> (n <= fuel)%nat -> Forall frozen reads ->
  Inv g st -> Forall (ready g) slots ->
  ok_or E (caml_scan_stack memory_of f only_young is_code fuel stack st) (all_done g slots).
Proof.
  induction n as [|n IH]; intros fuel stack slots reads g st Es Hf Hr I Hs.
  { destruct fuel; cbn in Es |- *; destruct (stack =? 0); try done; injection Es as <- _; by apply all_done_nil. }
  destruct fuel as [|fuel]; [lia|]. cbn in Es |- *. destruct (stack =? 0).
  { injection Es as <- _. by apply all_done_nil. }
  apply rbind_Ok in Es as (high & Eh & Es). apply rbind_Ok in Es as (low & El & Es).
  apply rbind_Ok in Es as (parent & Ep & Es). apply rbind_Ok in Es as ((slots' & reads') & Es & Er).
  injection Er as <- <-. rewrite !Forall_cons in Hr. destruct Hr as (F1 & F2 & F3 & Hr).
  assert (Hh : forall g st, Inv g st -> stack_handler (memory_of st) stack = Ok high).
  { intros g' s' I'. unfold Stack_high, stack_handler, load in *. by rewrite (Inv_frozen _ _ _ I' F2). }
  assert (Hl : stack_sp (memory_of st) stack = Ok low).
  { unfold stack_sp, load in *. by rewrite (Inv_frozen _ _ _ I F1). }
  assert (Hp : forall g st, Inv g st -> Stack_parent (memory_of st) stack = Ok parent).
  { intros g' s' I'. unfold Stack_parent. rewrite (Hh g' s' I'). unfold Stack_parent in Ep.
    unfold Stack_high in Eh. rewrite Eh in Ep. cbn [rbind] in *. unfold load in *.
    by rewrite (Inv_frozen _ _ _ I' F3). }
  unfold Stack_high. rewrite (Hh g st I), Hl. cbn [rbind]. clear Hl El Eh Ep.
  apply Forall_app in Hs as [Hs1 Hs].
  apply (all_done_bind g _ _); [by apply scan_slots_ok|done|]. intros g1 s1 I1 _ Hs'.
  unfold Stack_handle_value. rewrite (Hh g1 s1 I1). cbn [rbind].
  apply Forall_cons in Hs' as [Hp1 Hs']. change (high :: ?l) with ([high] ++ l).
  apply (all_done_bind g1); [by apply slot_ok|done|]. intros g2 s2 I2 _ Hs2.
  unfold Stack_handle_exception, rmap. rewrite (Hh g2 s2 I2). cbn [rbind].
  apply Forall_cons in Hs2 as [Hp2 Hs2]. change (?x :: high + 16 :: ?l) with ([x] ++ high + 16 :: l).
  apply (all_done_bind g2); [by apply slot_ok|done|]. intros g3 s3 I3 _ Hs3.
  unfold Stack_handle_effect, rmap. rewrite (Hh g3 s3 I3). cbn [rbind].
  apply Forall_cons in Hs3 as [Hp3 Hs3]. change (high + 16 :: ?l) with ([high + 16] ++ l).
  apply (all_done_bind g3); [by apply slot_ok|done|]. intros g4 s4 I4 _ Hs4.
  rewrite (Hp g4 s4 I4). cbn [rbind]. apply (IH fuel parent slots' reads'); [done|lia|done..].
Qed.
End Slots.

(** what the action does to a local root *)
Section Roots.
Context (root_ok : forall g st p, Inv g st -> ready g p ->
  ok_or E (local_root memory_of f p st) (all_done g [p])).

Lemma local_items_ok g st t n : Inv g st -> 0 <= n ->
  Forall (ready g) ((fun j => t + 8 * j) <$> seqZ 0 n) ->
  ok_or E (for_loop (Z.to_nat n) 0 (fun j st => local_root memory_of f (t + 8 * j) st) st)
    (all_done g ((fun j => t + 8 * j) <$> seqZ 0 n)).
Proof.
  intros I Hn Hs. rewrite Forall_forall in Hs. eapply ok_or_mono.
  - apply (for_loop_ok_or _ (fun i => all_done g ((fun j => t + 8 * j) <$> seqZ 0 i))); [by apply all_done_nil|].
    intros i s Hi (g1 & I1 & R1 & D1).
    rewrite (seqZ_app 0 i 1), fmap_app by lia. cbn [fmap list_fmap].
    assert (Rp : ready g1 (t + 8 * (0 + i))).
    { eapply R_ready; [exact R1|]. apply Hs, list_elem_of_fmap. eexists. split; [done|]. apply elem_of_seqZ. lia. }
    eapply ok_or_mono; [exact (root_ok g1 s _ I1 Rp)|].
    intros s2 (g2 & I2 & R2 & D2). exists g2. split; [done|]. split; [by etrans|].
    apply Forall_app. split; [by eapply Forall_done|done].
  - intros s. by rewrite Z.add_0_l, Z2Nat.id by lia.
Qed.

Lemma roots_block_items_ok g st lr : Inv g st -> ntables lr <= zlen (tables lr) -> 0 <= nitems lr ->
  Forall (ready g) (roots_block_slots lr) ->
  ok_or E (roots_block_items memory_of f lr st) (all_done g (roots_block_slots lr)).
Proof.
  intros I Hnt Hni Hs. rewrite Forall_forall in Hs. unfold roots_block_items. eapply ok_or_mono.
  - apply (for_loop_ok_or _ (fun i st' => exists g', Inv g' st' /\ R g g' /\
      forall k t, 0 <= k < i -> rd (tables lr) k = Ok t ->
        Forall (done_at g') ((fun j => t + 8 * j) <$> seqZ 0 (nitems lr)))).
    + exists g. split; [done|]. split; [reflexivity|]. intros k t Hk. lia.
    + intros i s Hi (g1 & I1 & R1 & D1).
      destruct (rd_in_range (tables lr) i ltac:(lia)) as [t Et]. rewrite Et. cbn [rbind].
      eapply ok_or_mono.
      * apply (local_items_ok g1 s t (nitems lr) I1 Hni). eapply Forall_ready; [exact R1|].
        apply Forall_forall. intros a Ha. apply Hs, roots_block_slots_elem; [done|]. exists i, t. split; [lia|done].
      * intros s2 (g2 & I2 & R2 & D2). exists g2. split; [done|]. split; [by etrans|].
        intros k t' Hk Ek. destruct (decide (k = i)) as [->|].
        { rewrite Et in Ek. injection Ek as <-. done. }
        eapply Forall_done; [exact R2|]. apply (D1 k); [lia|done].
  - intros s (g' & I' & R' & D'). exists g'. split; [done|]. split; [done|].
    apply Forall_forall. intros a (i & t & Hi & Et & Ha)%roots_block_slots_elem; [|done].
    specialize (D' i t ltac:(lia) Et). rewrite Forall_forall in D'. by apply D'.
Qed.

Lemma local_roots_blocks_ok lrs : forall g st, Inv g st -> roots_blocks_ok lrs ->
  Forall (ready g) (lrs ≫= roots_block_slots) ->
  ok_or E (local_roots_blocks memory_of f lrs st) (all_done g (lrs ≫= roots_block_slots)).
Proof.
  induction lrs as [|lr lrs IH]; intros g st I Hok Hs; cbn [local_roots_blocks]; [by apply all_done_nil|].
  apply Forall_cons in Hok as [[Hnt Hni] Hok]. apply Forall_app in Hs as [Hs1 Hs2].
  apply (all_done_bind g _ _); [by apply roots_block_items_ok|done|]. intros g1 s1 I1 _. by apply IH.
Qed.

Context (slot_ok : forall g st p, Inv g st -> ready g p ->
  ok_or E (scan_slot memory_of f only_young is_code p st) (all_done g [p])).

Lemma do_local_roots_ok g st lrs n fuel stack slots reads : Inv g st -> roots_blocks_ok lrs ->
  stack_slots n m0 stack = Ok (slots, reads) -> (n <= fuel)%nat -> Forall frozen reads ->
  Forall (ready g) ((lrs ≫= roots_block_slots) ++ slots) ->
  ok_or E (caml_do_local_roots memory_of f only_young is_code fuel lrs stack st)
    (all_done g ((lrs ≫= roots_block_slots) ++ slots)).
Proof.
  intros I Hok Es Hf Hr [Hs1 Hs2]%Forall_app. unfold caml_do_local_roots.
  apply (all_done_bind g _ _); [by apply local_roots_blocks_ok|done|].
  intros g1 s1 I1 _ Hs. by eapply caml_scan_stack_ok.
Qed.
End Roots.
End Scanning.
