(* ===== verification/Promotion.v ===== *)
(** * Correctness of the minor collector

    The state of a collection is described by a ghost record: which blocks have been
    copied and where ([g_copy]), the blocks on the to-do list ([g_todo]), the addresses
    whose update is promised by a caller ([g_pending]) and the slots that no one has yet
    reached ([g_untouched]).  [Inv] relates it to the memory at the start; every operation
    of [Minorgc.v] preserves it. *)

From S2P Require Import Prelude.
From S2P Require Import Mlvalues.
From S2P Require Import Str.
From S2P Require Import Memory.
From S2P Require Import Minorgc.
From S2P Require Import Scanning.
#[local] Open Scope Z_scope.

(** a run that ends well, or with the fatal error of an allocation that failed *)
#[local] Abbreviation ok_or_fatal :=
  (ok_or (Fatal_error "allocation failure during minor GC")).

Section Promotion.
Context {Heap : Type} {SH : SharedHeap Heap} {SHS : SharedHeapSpec Heap}.
Context (ar : minor_area) (native_code : bool).
(** the memory and the shared heap at the start, the blocks of the minor heap, the slots
    of the roots and of the stacks, and a bound on the length of a chain of stacks *)
Context (m0 : mem) (h0 : Heap) (Y S : gset Z) (K : nat).

Definition hd0 (v : Z) : Z := u64 (word m0 (v - 8)).
Definition wosize0 (v : Z) : Z := Allocated_wosize_hd (hd0 v).
Definition tag0 (v : Z) : Z := Tag_hd (hd0 v).
Definition reserved0 (v : Z) : Z := Reserved_hd (hd0 v).
Definition scannable0 (v : Z) : Z := Scannable_wosize_hd native_code (hd0 v).
Definition field0 (v i : Z) : Z := word m0 (v + 8 * i).

(** the number of fields that hold values *)
Definition nfields (v : Z) : Z :=
  if No_scan_tag <=? tag0 v then 0
  else if (tag0 v =? Cont_tag) || (tag0 v =? Forward_tag) then 1
  else scannable0 v.

Definition in_area (a : Z) : Prop := minor_heaps_start ar <= a < minor_heaps_end ar.
Definition young_value (v : Z) : bool := Is_block v && Is_young ar v.

(** an infix pointer into a closure of the minor heap *)
Definition infix_of (v w : Z) : Prop :=
  w ∈ Y /\ tag0 w = Closure_tag /\ w + 16 <= v < w + 8 * wosize0 w /\
  v mod 8 = 0 /\ is_Some (m0 !! (v - 8)) /\
  Tag_hd (hd0 v) = Infix_tag /\ Infix_offset_hd (hd0 v) = v - w.

Definition ok_value (v : Z) : Prop :=
  young_value v = true -> v ∈ Y \/ exists w, infix_of v w.

(** an address that the collection never changes *)
Definition frozen (a : Z) : Prop := (a ∉ S) /\ ~ in_area a /\ ~ sh_owns h0 a.

(** a forwarding block that is short-circuited *)
Definition short (v : Z) : Prop :=
  tag0 v = Forward_tag /\ keeps_forward m0 (field0 v 0) = Ok false.

Definition cont_slots (v : Z) (slots : list Z) : Prop :=
  exists reads, stack_slots K m0 (Ptr_val (field0 v 0)) = Ok (slots, reads) /\
    Forall (fun a => a ∈ S) slots /\ Forall frozen reads.

(** a well-formed minor heap *)
Record minor_heap_ok : Prop := {
  mh_start : 0 <= minor_heaps_start ar;
  mh_area : forall v, v ∈ Y -> v mod 8 = 0 /\ minor_heaps_start ar <= v - 8 /\
    v + 8 * wosize0 v <= minor_heaps_end ar;
  mh_size : forall v, v ∈ Y -> 0 < wosize0 v;
  mh_mapped : forall v i, v ∈ Y -> -1 <= i < wosize0 v -> is_Some (m0 !! (v + 8 * i));
  mh_disjoint : forall v w, v ∈ Y -> w ∈ Y -> v <> w ->
    v + 8 * wosize0 v <= w - 8 \/ w + 8 * wosize0 w <= v - 8;
  mh_tag : forall v, v ∈ Y -> tag0 v <> Infix_tag;
  mh_scannable : forall v, v ∈ Y -> 0 <= scannable0 v <= wosize0 v;
  mh_forward : forall v, v ∈ Y -> tag0 v = Forward_tag -> wosize0 v = 1 /\
    (let f := field0 v 0 in Is_block f = true -> young_value f = false ->
     frozen (f - 8) /\ is_Some (m0 !! (f - 8)) /\ hd0 f <> 0 /\ hd0 f <> In_progress_update_val);
  mh_cont : forall v, v ∈ Y -> tag0 v = Cont_tag -> wosize0 v = 1 /\
    Is_block (field0 v 0) = false /\ exists slots, cont_slots v slots;
  mh_closure : forall v, v ∈ Y -> tag0 v = Closure_tag -> 1 < scannable0 v ->
    let start_env := Start_env_closinfo (field0 v 1) in
    start_env <= wosize0 v /\
    (forall i, 1 <= i < start_env -> young_value (field0 v i) = false);
  mh_fields : forall v i, v ∈ Y -> 0 <= i < nfields v -> ok_value (field0 v i);
  mh_slots : forall a, a ∈ S -> is_Some (m0 !! a) /\ ~ in_area a /\ ~ sh_owns h0 a /\
    ok_value (word m0 a);
  mh_heap : forall a, in_area a -> ~ sh_owns h0 a
}.

(** [promoted F v x]: when the blocks are copied as [F] says, the value [v] has become [x] *)
Inductive promoted (F : gmap Z Z) : Z -> Z -> Prop :=
  | promoted_same v : young_value v = false -> promoted F v v
  | promoted_block v r : v ∈ Y -> young_value v = true -> F !! v = Some r -> promoted F v r
  | promoted_infix v w r : infix_of v w -> young_value v = true -> F !! w = Some r ->
      promoted F v (r + (v - w))
  | promoted_short v x : v ∈ Y -> young_value v = true -> short v ->
      promoted F (field0 v 0) x -> promoted F v x.

Record ghost := Ghost {
  g_copy : gmap Z Z;
  g_todo : list Z;
  g_untouched : gset Z;
  g_pending : gset Z
}.

(** the places that the collection updates: the slots and the fields of the copies *)
Inductive place := Slot (a : Z) | Fld (v i : Z).

Definition source (l : place) : Z :=
  match l with Slot a => word m0 a | Fld v i => field0 v i end.
Definition scans (l : place) : bool :=
  match l with Slot _ => true | Fld v i => i <? nfields v end.

(** what the place must hold at the end *)
Definition accepts (F : gmap Z Z) (l : place) (x : Z) : Prop :=
  if scans l then promoted F (source l) x else x = source l.

Definition place_at (g : ghost) (l : place) (a : Z) : Prop :=
  match l with
  | Slot b => b = a /\ a ∈ S
  | Fld v i => exists r, g_copy g !! v = Some r /\ (v ∉ g_todo g) /\ 0 <= i < wosize0 v /\
      a = r + 8 * i
  end.

Fixpoint chain (m : mem) (F : gmap Z Z) (l : list Z) (head : Z) : Prop :=
  match l with
  | [] => head = 0
  | v :: l => head = v /\ exists r next, F !! v = Some r /\ m !! (r + 8) = Some next /\
      chain m F l next
  end.

Definition todo_ok (m : mem) (v r : Z) : Prop :=
  1 < scannable0 v /\ tag0 v < Infix_tag /\ tag0 v <> Cont_tag /\
  m !! r = Some (field0 v 0) /\
  (forall i, nfields v <= i < wosize0 v -> m !! (r + 8 * i) = Some (field0 v i)).

(** the words of a copy *)
Definition copy_ok (h : Heap) (m : mem) (v r : Z) : Prop :=
  r mod 8 = 0 /\ 8 <= r /\
  (exists color, 0 <= color < 4 /\
     Hd_val m r = Ok (header_of (tag0 v) color (wosize0 v) (reserved0 v))) /\
  (forall i, -1 <= i < wosize0 v ->
     sh_owns h0 (r + 8 * i) /\ ~ sh_owns h (r + 8 * i) /\ is_Some (m !! (r + 8 * i))).

Definition disjoint_blocks (v r w s : Z) : Prop :=
  forall i j, -1 <= i < wosize0 v -> -1 <= j < wosize0 w -> r + 8 * i <> s + 8 * j.

Record Inv (g : ghost) (st : oldify_state Heap) : Prop := {
  i_dom : forall v r, g_copy g !! v = Some r -> v ∈ Y /\ ~ short v;
  i_not_copied : forall v i, v ∈ Y -> g_copy g !! v = None -> -1 <= i < wosize0 v ->
    st_mem st !! (v + 8 * i) = m0 !! (v + 8 * i);
  i_copied : forall v r, g_copy g !! v = Some r ->
    st_mem st !! (v - 8) = Some 0 /\ st_mem st !! v = Some r /\
    (forall i, 1 <= i < wosize0 v -> st_mem st !! (v + 8 * i) = m0 !! (v + 8 * i));
  i_copy : forall v r, g_copy g !! v = Some r -> copy_ok (shared_heap st) (st_mem st) v r;
  i_disjoint : forall v r w s, g_copy g !! v = Some r -> g_copy g !! w = Some s -> v <> w ->
    disjoint_blocks v r w s;
  i_places : forall l a, place_at g l a -> a ∉ g_pending g -> a ∉ g_untouched g ->
    exists x, st_mem st !! a = Some x /\ accepts (g_copy g) l x;
  i_todo : forall v, v ∈ g_todo g -> exists r, g_copy g !! v = Some r /\ todo_ok (st_mem st) v r;
  i_nodup : NoDup (g_todo g);
  i_chain : chain (st_mem st) (g_copy g) (g_todo g) (todo_list st);
  i_slots : forall a, a ∈ S -> a ∈ g_pending g \/ a ∈ g_untouched g -> st_mem st !! a = m0 !! a;
  i_cont : forall v r slots, g_copy g !! v = Some r -> tag0 v = Cont_tag -> cont_slots v slots ->
    Forall (fun a => a ∉ g_untouched g) slots;
  i_frame : forall a, frozen a -> st_mem st !! a = m0 !! a;
  i_untouched : g_untouched g ⊆ S;
  i_heap : sh_ok (shared_heap st) (st_mem st);
  i_owns : forall a, sh_owns (shared_heap st) a -> sh_owns h0 a
}.

(** how the ghost state evolves: only blocks that are copied meanwhile join the list *)
Record grows (g g' : ghost) : Prop := {
  gr_copy : g_copy g ⊆ g_copy g';
  gr_todo : exists l, g_todo g' = l ++ g_todo g;
  gr_untouched : g_untouched g' ⊆ g_untouched g;
  gr_pending : g_pending g' ⊆ g_pending g
}.

Record after (g g' : ghost) : Prop := {
  af_grows : grows g g';
  af_new : forall w, w ∈ g_todo g' -> w ∈ g_todo g \/ g_copy g !! w = None
}.

Lemma af_copy g g' : after g g' -> g_copy g ⊆ g_copy g'.
Proof. intros [A _]. apply A. Qed.
Lemma af_untouched g g' : after g g' -> g_untouched g' ⊆ g_untouched g.
Proof. intros [A _]. apply A. Qed.
Lemma af_pending g g' : after g g' -> g_pending g' ⊆ g_pending g.
Proof. intros [A _]. apply A. Qed.

#[local] Instance grows_preorder : PreOrder grows.
Proof.
  split.
  - intros g. split; [done|by exists []|done|done].
  - intros g1 g2 g3 [C1 [l1 T1] U1 P1] [C2 [l2 T2] U2 P2].
    split; [by etrans| |set_solver|set_solver]. exists (l2 ++ l1). by rewrite T2, T1, app_assoc.
Qed.

#[local] Instance after_preorder : PreOrder after.
Proof.
  split.
  - intros g. split; [reflexivity|]. intros w Hw. by left.
  - intros g1 g2 g3 [G1 N1] [G2 N2]. split; [by etrans|]. intros w [Hw|Hw]%N2; [by apply N1|].
    right. eapply lookup_weaken_None; [exact Hw|apply G1].
Qed.

(** the place [p] is done: it is neither pending nor untouched *)
Definition done_at (g : ghost) (p : Z) : Prop := (p ∉ g_pending g) /\ (p ∉ g_untouched g).

Lemma after_done g g' p : after g g' -> done_at g p -> done_at g' p.
Proof. intros [[_ _ U P] _] [N1 N2]. split; set_solver. Qed.

Definition finish (g : ghost) (p : Z) : ghost :=
  Ghost (g_copy g) (g_todo g) (g_untouched g ∖ {[p]}) (g_pending g ∖ {[p]}).

Lemma after_finish g p : after g (finish g p).
Proof. split; [split; cbn; [done|by exists []|set_solver|set_solver]|]. intros w Hw. by left. Qed.

Lemma done_finish g p : done_at (finish g p) p.
Proof. split; cbn; set_solver. Qed.

(** ** The minor heap *)

Context (W : minor_heap_ok).

Lemma hd0_range v : is_u64 (hd0 v).
Proof. apply u64_range. Qed.

Lemma tag0_range v : 0 <= tag0 v < 256.
Proof. unfold tag0. rewrite Tag_hd_eq. apply Z.mod_pos_bound. lia. Qed.

Lemma wosize0_range v : 0 <= wosize0 v <= Max_wosize.
Proof.
  unfold wosize0. rewrite Allocated_wosize_hd_eq. change Max_wosize with (2 ^ 46 - 1).
  pose proof (Z.mod_pos_bound (hd0 v / 2 ^ 10) (2 ^ 46)). lia.
Qed.

Lemma reserved0_range v : 0 <= reserved0 v < 256.
Proof.
  unfold reserved0. rewrite Reserved_hd_eq. pose proof (hd0_range v) as R. unfold is_u64 in R.
  split; [apply Z.div_pos; lia|]. apply Z.div_lt_upper_bound; lia.
Qed.

Lemma hd0_large v : 0 < wosize0 v -> 1024 <= hd0 v.
Proof.
  unfold wosize0. rewrite Allocated_wosize_hd_eq. pose proof (hd0_range v) as R. unfold is_u64 in R.
  intros Hw. destruct (Z.lt_ge_cases (hd0 v) 1024) as [L|]; [|done].
  rewrite (Z.div_small (hd0 v) (2 ^ 10)) in Hw by lia. by rewrite Z.mod_0_l in Hw.
Qed.

Lemma young_value_Y v : v ∈ Y -> young_value v = true.
Proof.
  intros Hv. destruct (mh_area W v Hv) as (Hm & Hs & He). pose proof (mh_size W v Hv).
  unfold young_value, Is_block, Is_young.
  change (Z.land v 1) with (Z.land v (Z.ones 1)). rewrite Z.land_ones by lia.
  replace (v mod 2 ^ 1) with 0 by zlia.
  destruct (Z.ltb_spec v (minor_heaps_end ar)), (Z.ltb_spec (minor_heaps_start ar) v); done || lia.
Qed.

Lemma in_area_Y v i : v ∈ Y -> -1 <= i < wosize0 v -> in_area (v + 8 * i).
Proof. intros Hv Hi. destruct (mh_area W v Hv) as (Hm & Hs & He). unfold in_area. lia. Qed.

Lemma young_words v w i j :
  v ∈ Y -> w ∈ Y -> -1 <= i < wosize0 v -> -1 <= j < wosize0 w ->
  v + 8 * i = w + 8 * j -> v = w /\ i = j.
Proof.
  intros Hv Hw Hi Hj E. destruct (decide (v = w)) as [->|N]; [lia|].
  destruct (mh_disjoint W v w Hv Hw N); lia.
Qed.

Lemma mapped0 v i : v ∈ Y -> -1 <= i < wosize0 v -> m0 !! (v + 8 * i) = Some (word m0 (v + 8 * i)).
Proof. intros Hv Hi. destruct (mh_mapped W v i Hv Hi) as [x E]. by rewrite (word_Some _ _ _ E). Qed.

Lemma infix_word v w : infix_of v w -> exists j, 1 <= j < wosize0 w /\ v - 8 = w + 8 * j.
Proof.
  intros (Hw & _ & R & M & _). destruct (mh_area W w Hw) as (Mw & _).
  exists ((v - 8 - w) / 8). zlia.
Qed.

Lemma infix_Y v w : infix_of v w -> v ∈ Y -> False.
Proof. intros (_ & _ & _ & _ & _ & T & _) Hv. by apply (mh_tag W v Hv). Qed.

Lemma nfields_le v : v ∈ Y -> 0 <= nfields v <= wosize0 v.
Proof.
  intros Hv. unfold nfields. pose proof (mh_size W v Hv). pose proof (mh_scannable W v Hv).
  destruct (No_scan_tag <=? tag0 v); [lia|].
  destruct ((tag0 v =? Cont_tag) || (tag0 v =? Forward_tag)); lia.
Qed.

Lemma promoted_mono F F' v x : F ⊆ F' -> promoted F v x -> promoted F' v x.
Proof.
  intros Hs. induction 1.
  - by apply promoted_same.
  - apply promoted_block; [done|done|by eapply lookup_weaken].
  - apply promoted_infix; [done|done|by eapply lookup_weaken].
  - by apply promoted_short.
Qed.

Lemma accepts_mono F F' l x : F ⊆ F' -> accepts F l x -> accepts F' l x.
Proof. unfold accepts. intros Hs. destruct (scans l); [|done]. by apply promoted_mono. Qed.

(** ** Places *)

Section Places.
Context (g : ghost) (st : oldify_state Heap) (I : Inv g st).

Lemma place_slot_mapped a : a ∈ S -> is_Some (st_mem st !! a).
Proof.
  intros Ha. destruct (decide (a ∈ g_pending g \/ a ∈ g_untouched g)) as [D|D].
  - rewrite (i_slots _ _ I) by done. by apply (mh_slots W).
  - assert ((a ∉ g_pending g) /\ (a ∉ g_untouched g)) as [D1 D2] by tauto.
    destruct (i_places _ _ I (Slot a) a) as (x & E & _); [done..|]. by exists x.
Qed.

Lemma place_mapped l a : place_at g l a -> is_Some (st_mem st !! a).
Proof.
  destruct l as [b|v i]; cbn; [by intros [-> Ha]; apply place_slot_mapped|].
  intros (r & E & _ & Hi & ->). apply (i_copy _ _ I _ _ E). lia.
Qed.

Lemma copy_word_not_slot v r i : g_copy g !! v = Some r -> -1 <= i < wosize0 v -> r + 8 * i ∉ S.
Proof.
  intros E Hi Ha. destruct (i_copy _ _ I _ _ E) as (_ & _ & _ & Hw).
  destruct (Hw i Hi) as (O & _). by destruct (mh_slots W _ Ha) as (_ & _ & N & _).
Qed.

Lemma copy_word_not_area v r i : g_copy g !! v = Some r -> -1 <= i < wosize0 v -> ~ in_area (r + 8 * i).
Proof.
  intros E Hi Ha. destruct (i_copy _ _ I _ _ E) as (_ & _ & _ & Hw).
  destruct (Hw i Hi) as (O & _). by apply (mh_heap W _ Ha).
Qed.

(** two places have the same address only if they are the same *)
Lemma place_inj l l' a : place_at g l a -> place_at g l' a -> l = l'.
Proof.
  destruct l as [b|v i], l' as [b'|v' i']; cbn.
  - intros [-> _] [-> _]. done.
  - intros [-> Ha] (r & E & _ & Hi & ->). exfalso. eapply copy_word_not_slot; [done| |done]. lia.
  - intros (r & E & _ & Hi & ->) [-> Ha]. exfalso. eapply copy_word_not_slot; [done| |done]. lia.
  - intros (r & E & _ & Hi & ->) (r' & E' & _ & Hi' & Ea).
    destruct (decide (v = v')) as [->|N]; [rewrite E in E'; injection E' as <-; f_equal; lia|].
    exfalso. apply (i_disjoint _ _ I _ _ _ _ E E' N i i'); lia.
Qed.

Lemma place_not_area l a : place_at g l a -> ~ in_area a.
Proof.
  destruct l as [b|v i]; cbn; [intros [-> Ha]; by apply (mh_slots W)|].
  intros (r & E & _ & Hi & ->). eapply copy_word_not_area; [done|lia].
Qed.

Lemma place_not_owned l a : place_at g l a -> ~ sh_owns (shared_heap st) a.
Proof.
  destruct l as [b|v i]; cbn.
  - intros [-> Ha] O. apply (mh_slots W _ Ha). by apply (i_owns _ _ I).
  - intros (r & E & _ & Hi & ->). apply (i_copy _ _ I _ _ E). lia.
Qed.

Lemma place_not_frozen l a : place_at g l a -> ~ frozen a.
Proof.
  destruct l as [b|v i]; cbn; [by intros [-> Ha] [N _]|].
  intros (r & E & _ & Hi & ->) (_ & _ & N). apply N. apply (i_copy _ _ I _ _ E). lia.
Qed.
End Places.

Lemma chain_agree m m' F F' l : forall head,
  F ⊆ F' ->
  (forall v r, v ∈ l -> F !! v = Some r -> m' !! (r + 8) = m !! (r + 8)) ->
  chain m F l head -> chain m' F' l head.
Proof.
  induction l as [|v l IH]; intros head Hs Hm; cbn; [done|].
  intros (E & r & next & Er & En & Hc). split; [done|]. exists r, next.
  split; [by eapply lookup_weaken|]. split; [rewrite (Hm v r); [done|left|done]|].
  apply IH; [done| |done]. intros w s Hw. apply Hm. by right.
Qed.

(** the words that the invariant reads of a copy *)
Lemma copy_ok_agree h h' m m' v r :
  v ∈ Y ->
  (forall a, sh_owns h' a -> sh_owns h a) ->
  m' !! (r - 8) = m !! (r - 8) ->
  (forall i, 0 <= i < wosize0 v -> is_Some (m !! (r + 8 * i)) -> is_Some (m' !! (r + 8 * i))) ->
  copy_ok h m v r -> copy_ok h' m' v r.
Proof.
  intros Hv Ho Hh Hm (M & P & (c & Hc & Eh) & Hw). split; [done|]. split; [done|].
  split; [exists c; split; [done|]; unfold Hd_val, load in *; by rewrite Hh|].
  intros i Hi. destruct (Hw i Hi) as (O & N & D). split; [done|]. split; [eauto|].
  destruct (decide (i = -1)) as [->|]; [|apply Hm; [lia|done]].
  replace (r + 8 * -1) with (r - 8) in * by lia. by rewrite Hh.
Qed.

Lemma todo_ok_agree m m' v r :
  v ∈ Y ->
  (forall i, 0 <= i < wosize0 v -> i <> 1 -> m' !! (r + 8 * i) = m !! (r + 8 * i)) ->
  todo_ok m v r -> todo_ok m' v r.
Proof.
  intros Hv Hm (H1 & H2 & H3 & H4 & H5). split; [done|]. split; [done|]. split; [done|].
  pose proof (mh_size W v Hv). split.
  - specialize (Hm 0). rewrite Z.mul_0_r, Z.add_0_r in Hm. rewrite Hm by lia. done.
  - intros i Hi. pose proof (nfields_le v Hv).
    assert (1 < nfields v).
    { unfold nfields. change Infix_tag with 249 in *. change No_scan_tag with 251.
      change Cont_tag with 245 in *. change Forward_tag with 250.
      destruct (Z.leb_spec 251 (tag0 v)); [lia|].
      destruct (Z.eqb_spec (tag0 v) 245); [lia|]. destruct (Z.eqb_spec (tag0 v) 250); [lia|]. done. }
    rewrite Hm by lia. by apply H5.
Qed.

(** storing a word that no place of the collection and no block depends on *)
Section Store.
Context (g : ghost) (st : oldify_state Heap) (I : Inv g st).
Context (p x : Z) (l : place) (Hp : place_at g l p).

Lemma store_place_ne_copy v r i :
  g_copy g !! v = Some r -> -1 <= i < wosize0 v -> v ∈ g_todo g \/ i = -1 -> r + 8 * i <> p.
Proof.
  intros E Hi C Ep. pose proof Hp as Hq. rewrite <- Ep in Hq. revert Hq. case l; cbn.
  - intros b [_ Ha]. by eapply copy_word_not_slot.
  - intros w j (s & Es & Nt & Hj & Ea). destruct (decide (v = w)) as [->|N].
    + rewrite E in Es. injection Es as <-. destruct C as [C| ->]; [done|lia].
    + apply (i_disjoint _ _ I _ _ _ _ E Es N i j); lia.
Qed.

Lemma store_place_ne_young v i : v ∈ Y -> -1 <= i < wosize0 v -> v + 8 * i <> p.
Proof.
  intros Hv Hi <-. eapply place_not_area; [done|done|]. by apply in_area_Y.
Qed.

(** a value that the place accepts finishes it; a field whose update is promised may hold
    anything *)
Definition stores_well (g' : ghost) : Prop :=
  (accepts (g_copy g) l x /\ g' = finish g p) \/ (p ∈ g_pending g /\ (p ∉ S) /\ g' = g).

Lemma stores_well_copy g' : stores_well g' -> g_copy g' = g_copy g /\ g_todo g' = g_todo g /\
  g_untouched g' ⊆ g_untouched g /\ g_pending g' ⊆ g_pending g /\
  (forall a, a <> p -> a ∈ g_pending g \/ a ∈ g_untouched g -> a ∈ g_pending g' \/ a ∈ g_untouched g').
Proof. intros [[_ ->] | (_ & _ & ->)]; cbn; split_and!; try done; set_solver. Qed.

Lemma store_gen g' : stores_well g' ->
  exists st', store st p x = Ok st' /\ Inv g' st' /\ st_mem st' = <[p := x]> (st_mem st) /\
    todo_list st' = todo_list st.
Proof.
  intros Ha. destruct (stores_well_copy g' Ha) as (EF & ET & SU & SP & SD). exists (on_mem st (<[p := x]> (st_mem st))). split; [|split; [|done]].
  { unfold store, rmap. by rewrite (store_word_Ok _ _ _ (place_mapped _ _ I _ _ Hp)). }
  pose proof store_place_ne_copy as Nc. pose proof store_place_ne_young as Ny.
  destruct g' as [F' T' U' P']. cbn in EF, ET, SU, SP, SD. subst F' T'.
  destruct I. split; cbn; try done.
  - intros v i Hv Hn Hi. rewrite lookup_insert_ne by (apply not_eq_sym; by apply Ny). eauto.
  - intros v r E. destruct (i_dom0 _ _ E) as [Hv _]. pose proof (mh_size W v Hv).
    destruct (i_copied0 _ _ E) as (E1 & E2 & E3).
    pose proof (Ny v (-1) Hv ltac:(lia)). pose proof (Ny v 0 Hv ltac:(lia)).
    rewrite !lookup_insert_ne by lia. split; [done|]. split; [done|].
    intros i Hi. rewrite lookup_insert_ne by (apply not_eq_sym, Ny; [done|lia]). eauto.
  - intros v r E. destruct (i_dom0 _ _ E) as [Hv _]. pose proof (mh_size W v Hv).
    eapply copy_ok_agree; [done| | | |by apply (i_copy0 _ _ E)]; [done| |].
    + pose proof (Nc v r (-1) E ltac:(lia) ltac:(by right)). by rewrite lookup_insert_ne by lia.
    + intros i Hi Hs. destruct (decide (p = r + 8 * i)) as [->|].
      * rewrite lookup_insert_eq. by eexists.
      * by rewrite lookup_insert_ne.
  - intros l' a Hl' Np Nu. destruct (decide (a = p)) as [->|Ne].
    + rewrite (place_inj g st I l' l p Hl' Hp), lookup_insert_eq. exists x. split; [done|].
      destruct Ha as [[Ha _] | (Hpp & _ & Eg)]; [done|].
      apply (f_equal g_pending) in Eg. cbn in Eg. by rewrite <- Eg in Hpp.
    + rewrite lookup_insert_ne by done. apply (i_places0 l' a Hl'); naive_solver.
  - intros v Hv. destruct (i_todo0 v Hv) as (r & E & T). destruct (i_dom0 _ _ E) as [HvY _].
    exists r. split; [done|]. eapply todo_ok_agree; [done| |done].
    intros i Hi _. rewrite lookup_insert_ne; [done|]. apply not_eq_sym, (Nc v r i E); [lia|by left].
  - eapply chain_agree; [done| |done]. intros v r Hv E.
    destruct (i_todo0 v Hv) as (r' & E' & T). rewrite E in E'. injection E' as <-.
    destruct (i_dom0 _ _ E) as [HvY _]. destruct T as (T1 & _). pose proof (mh_scannable W v HvY).
    pose proof (Nc v r 1 E ltac:(lia) ltac:(by left)). by rewrite lookup_insert_ne by lia.
  - intros a HaS Hpu. rewrite lookup_insert_ne; [apply i_slots0; set_solver|]. intros <-.
    destruct Ha as [[_ [= -> ->]] | (_ & Hps & _)]; [set_solver|done].
  - intros v r slots E T C. eapply Forall_impl; [by eapply i_cont0|]. set_solver.
  - intros a Hf. rewrite lookup_insert_ne; [by apply i_frame0|]. intros ->.
    by eapply (place_not_frozen g st).
  - set_solver.
  - eapply sh_frame; [done|]. intros a Ho. apply lookup_insert_ne. intros <-.
    by eapply (place_not_owned g st).
Qed.

Lemma store_place : accepts (g_copy g) l x ->
  exists st', store st p x = Ok st' /\ Inv (finish g p) st' /\ st_mem st' = <[p := x]> (st_mem st) /\
    todo_list st' = todo_list st.
Proof. intros Ha. apply store_gen. by left. Qed.

Lemma store_pending : p ∈ g_pending g -> p ∉ S ->
  exists st', store st p x = Ok st' /\ Inv g st' /\ st_mem st' = <[p := x]> (st_mem st) /\
    todo_list st' = todo_list st.
Proof. intros Ha Hs. apply store_gen. right. done. Qed.
End Store.

(** ** Allocation *)

Definition relevant (g : ghost) (a : Z) : Prop :=
  a ∈ S \/ in_area a \/ frozen a \/
  exists v r i, g_copy g !! v = Some r /\ -1 <= i < wosize0 v /\ a = r + 8 * i.

(** the invariant depends on the relevant words only *)
Lemma Inv_agree g st st' :
  Inv g st -> todo_list st' = todo_list st ->
  (forall a, relevant g a -> st_mem st' !! a = st_mem st !! a) ->
  (forall a, sh_owns (shared_heap st') a -> sh_owns (shared_heap st) a) ->
  sh_ok (shared_heap st') (st_mem st') ->
  Inv g st'.
Proof.
  intros I Et Hm Ho Hok.
  assert (Hy : forall v i, v ∈ Y -> -1 <= i < wosize0 v ->
    st_mem st' !! (v + 8 * i) = st_mem st !! (v + 8 * i)).
  { intros v i Hv Hi. apply Hm. right. left. by apply in_area_Y. }
  assert (Hc : forall v r i, g_copy g !! v = Some r -> -1 <= i < wosize0 v ->
    st_mem st' !! (r + 8 * i) = st_mem st !! (r + 8 * i)).
  { intros v r i E Hi. apply Hm. do 3 right. by exists v, r, i. }
  assert (Hp : forall l a, place_at g l a -> st_mem st' !! a = st_mem st !! a).
  { intros [b|v i] a; cbn; [intros [-> Ha]; apply Hm; by left|].
    intros (r & E & _ & Hi & ->). apply (Hc v r i E). lia. }
  destruct I. split; try done.
  - intros v i Hv Hn Hi. rewrite Hy by done. eauto.
  - intros v r E. destruct (i_dom0 _ _ E) as [Hv _]. pose proof (mh_size W v Hv).
    destruct (i_copied0 _ _ E) as (E1 & E2 & E3).
    pose proof (Hy v (-1) Hv ltac:(lia)) as A. pose proof (Hy v 0 Hv ltac:(lia)) as B.
    rewrite Z.mul_0_r, Z.add_0_r in B. replace (v + 8 * -1) with (v - 8) in A by lia.
    rewrite A, B. split; [done|]. split; [done|]. intros i Hi. rewrite Hy by (done || lia). eauto.
  - intros v r E. destruct (i_dom0 _ _ E) as [Hv _]. pose proof (mh_size W v Hv).
    eapply copy_ok_agree; [done| | | |by apply (i_copy0 _ _ E)]; [done| |].
    + pose proof (Hc v r (-1) E ltac:(lia)) as A. by replace (r + 8 * -1) with (r - 8) in A by lia.
    + intros i Hi Hs. rewrite (Hc v r) by (done || lia). done.
  - intros l a Hl Np Nu. rewrite (Hp l a Hl). by apply i_places0.
  - intros v Hv. destruct (i_todo0 v Hv) as (r & E & T). destruct (i_dom0 _ _ E) as [HvY _].
    exists r. split; [done|]. eapply todo_ok_agree; [done| |done].
    intros i Hi _. apply (Hc v r i E). lia.
  - rewrite Et. eapply chain_agree; [done| |done]. intros v r Hv E.
    destruct (i_todo0 v Hv) as (r' & E' & T). rewrite E in E'. injection E' as <-.
    destruct (i_dom0 _ _ E) as [HvY _]. destruct T as (T1 & _). pose proof (mh_scannable W v HvY).
    apply (Hc v r 1 E). lia.
  - intros a HaS D. rewrite Hm by (by left). eauto.
  - intros a Hf. rewrite Hm by (by right; right; left). eauto.
  - eauto.
Qed.

(** a block that has just been allocated for the copy of [v] *)
Definition limbo (g : ghost) (st : oldify_state Heap) (v res : Z) : Prop :=
  copy_ok (shared_heap st) (st_mem st) v res /\
  (forall w s, g_copy g !! w = Some s -> disjoint_blocks v res w s).

Lemma limbo_not_relevant g st v res i :
  limbo g st v res -> -1 <= i < wosize0 v -> ~ relevant g (res + 8 * i).
Proof.
  intros ((_ & _ & _ & Hw) & D) Hi. destruct (Hw i Hi) as (O & N & _).
  intros [R | [R | [(_ & _ & R) | (w & s & j & E & Hj & Ea)]]].
  - by apply (mh_slots W) in R as (_ & _ & R & _).
  - by apply (mh_heap W) in R.
  - done.
  - by apply (D w s E i j).
Qed.

Lemma alloc_ok g st v :
  Inv g st -> v ∈ Y ->
  ok_or_fatal (alloc_shared st (wosize0 v) (tag0 v) (reserved0 v)) (fun '(res, st') =>
    Inv g st' /\ limbo g st' v res /\
    (forall a, relevant g a -> st_mem st' !! a = st_mem st !! a)).
Proof.
  intros I Hv. unfold alloc_shared.
  destruct (caml_shared_try_alloc _ _ _ _ _) as [((hp & h') & m')|] eqn:E; [|done]. cbn.
  destruct (sh_alloc _ _ _ _ _ _ _ _ (i_heap _ _ I)
    (conj (mh_size W v Hv) (proj2 (wosize0_range v))) (tag0_range v) (reserved0_range v) E)
    as (Hok & Hsub & Hw & Hout & Hpos & Hmod & Hhd).
  assert (Hrel : forall a, relevant g a -> m' !! a = st_mem st !! a).
  { intros a R. apply Hout. intros O. pose proof (i_owns _ _ I a O) as O0.
    destruct R as [R | [R | [(_ & _ & R) | (w & s & j & Ew & Hj & ->)]]].
    - by apply (mh_slots W) in R as (_ & _ & R & _).
    - by apply (mh_heap W) in R.
    - done.
    - destruct (i_copy _ _ I _ _ Ew) as (_ & _ & _ & C). by destruct (C j Hj) as (_ & C2 & _). }
  split; [|split; [|done]].
  - eapply Inv_agree; [done|done|done|done|done].
  - split.
    + unfold copy_ok. cbn. split; [zlia|]. split; [lia|]. split; [done|]. intros i Hi.
      destruct (Hw (i + 1) ltac:(lia)) as (O & N & D).
      replace (hp + 8 * (i + 1)) with (hp + 8 + 8 * i) in * by lia.
      split; [by apply (i_owns _ _ I)|]. done.
    + intros w s Ew i j Hi Hj Ea. destruct (Hw (i + 1) ltac:(lia)) as (O & _ & _).
      replace (hp + 8 * (i + 1)) with (hp + 8 + 8 * i) in * by lia.
      destruct (i_copy _ _ I _ _ Ew) as (_ & _ & _ & C). destruct (C j Hj) as (_ & C2 & _).
      rewrite <- Ea in C2. done.
Qed.

Lemma limbo_store g st v res i x :
  Inv g st -> v ∈ Y -> limbo g st v res -> 0 <= i < wosize0 v ->
  exists st', store st (res + 8 * i) x = Ok st' /\ Inv g st' /\ limbo g st' v res /\
    st_mem st' = <[res + 8 * i := x]> (st_mem st).
Proof.
  intros I Hv L Hi. pose proof L as ((HM & HP & Hh & Hw) & D).
  destruct (Hw i ltac:(lia)) as (O & N & M).
  exists (on_mem st (<[res + 8 * i := x]> (st_mem st))). split; [|split; [|split; [|done]]].
  - unfold store, rmap. by rewrite (store_word_Ok _ _ _ M).
  - eapply Inv_agree; [done|done| |done|].
    + intros a R. cbn. rewrite lookup_insert_ne; [done|]. intros <-.
      by apply (limbo_not_relevant g st v res i L ltac:(lia)).
    + cbn. eapply sh_frame; [apply (i_heap _ _ I)|]. intros a Oa. apply lookup_insert_ne.
      by intros <-.
  - split; [|done]. cbn. eapply copy_ok_agree; [done|done| | |apply L].
    + by rewrite lookup_insert_ne by lia.
    + intros j Hj Ms. destruct (decide (i = j)) as [->|]; [rewrite lookup_insert_eq; by eexists|].
      by rewrite lookup_insert_ne by lia.
Qed.

(** ** Forwarding *)

(** [v] is copied at [res]; the addresses [pend] of the copy are still to be filled, and the
    slots [X] of its stacks to be scanned *)
Definition forwarded (g : ghost) (v res : Z) (pend X : gset Z) : ghost :=
  Ghost (<[v := res]> (g_copy g)) (g_todo g) (g_untouched g ∖ X)
    (g_pending g ∪ (g_untouched g ∩ X) ∪ pend).

Section Forward.
Context (g : ghost) (st : oldify_state Heap) (I : Inv g st).
Context (v res : Z) (pend X : gset Z).
Context (Hv : v ∈ Y) (Hn : g_copy g !! v = None) (Hs : ~ short v) (L : limbo g st v res).
Context (Hpend : forall i, 0 <= i < wosize0 v -> res + 8 * i ∉ pend ->
  nfields v <= i /\ st_mem st !! (res + 8 * i) = Some (field0 v i)).
Context (Hpend' : forall a, a ∈ pend -> exists i, 0 <= i < wosize0 v /\ a = res + 8 * i).
Context (HX : tag0 v = Cont_tag -> forall slots, cont_slots v slots -> Forall (fun a => a ∈ X) slots).

Definition forward_mem : mem := <[v := res]> (<[v - 8 := 0]> (st_mem st)).

Lemma forward_mem_ne a : (forall i, -1 <= i < wosize0 v -> a <> v + 8 * i) ->
  forward_mem !! a = st_mem st !! a.
Proof.
  intros N. pose proof (mh_size W v Hv). unfold forward_mem.
  pose proof (N 0 ltac:(lia)). pose proof (N (-1) ltac:(lia)). by rewrite !lookup_insert_ne by lia.
Qed.

Lemma forward_mem_out a : ~ in_area a -> forward_mem !! a = st_mem st !! a.
Proof. intros N. apply forward_mem_ne. intros i Hi ->. apply N. by apply in_area_Y. Qed.

Lemma forward_mem_copy w r i : g_copy g !! w = Some r -> -1 <= i < wosize0 w ->
  forward_mem !! (r + 8 * i) = st_mem st !! (r + 8 * i).
Proof. intros E Hi. apply forward_mem_out. by eapply copy_word_not_area. Qed.

Lemma forward_mem_young w i : w ∈ Y -> w <> v -> -1 <= i < wosize0 w ->
  forward_mem !! (w + 8 * i) = st_mem st !! (w + 8 * i).
Proof.
  intros Hw Ne Hi. apply forward_mem_ne. intros j Hj E.
  by destruct (young_words w v i j Hw Hv Hi Hj E).
Qed.

Lemma todo_not_v : v ∉ g_todo g.
Proof. intros T. destruct (i_todo _ _ I v T) as (r & E & _). by rewrite Hn in E. Qed.

Lemma res_not_area i : -1 <= i < wosize0 v -> ~ in_area (res + 8 * i).
Proof. intros Hi A. apply (limbo_not_relevant g st v res i L Hi). by right; left. Qed.

Lemma forward_pend_other l a : place_at g l a -> a ∉ pend.
Proof.
  intros Hl (i & Hi & ->)%Hpend'. apply (limbo_not_relevant g st v res i L ltac:(lia)).
  destruct l as [b|w j]; cbn in Hl; [left; by destruct Hl as [-> ?]|].
  destruct Hl as (r & E & _ & Hj & ->). do 3 right. exists w, r, j. split_and!; [done|lia|lia|done].
Qed.

Lemma forward_places l a : place_at (forwarded g v res pend X) l a ->
  a ∉ g_pending (forwarded g v res pend X) -> a ∉ g_untouched (forwarded g v res pend X) ->
  exists x, forward_mem !! a = Some x /\ accepts (<[v := res]> (g_copy g)) l x.
Proof.
  intros Hl Np Nu. cbn in Np, Nu.
  assert (Hold : place_at g l a ->
    exists x, forward_mem !! a = Some x /\ accepts (<[v := res]> (g_copy g)) l x).
  { intros Hg. destruct (i_places _ _ I l a Hg) as (x & E & A); [set_solver|set_solver|].
    exists x. rewrite forward_mem_out by (by eapply place_not_area). split; [done|].
    eapply accepts_mono; [|done]. by apply insert_subseteq. }
  destruct l as [b|w i]; [by apply Hold|]. cbn in Hl. destruct Hl as (r & E & Nt & Hi & ->).
  destruct (decide (w = v)) as [->|Ne].
  - rewrite lookup_insert_eq in E. injection E as <-.
    destruct (Hpend i Hi) as (Hf & Ew); [set_solver|]. exists (field0 v i).
    rewrite forward_mem_out by (apply res_not_area; lia). split; [done|].
    unfold accepts, scans. destruct (Z.ltb_spec i (nfields v)); [lia|done].
  - rewrite lookup_insert_ne in E by done. apply Hold. by exists r.
Qed.

Lemma forward_block :
  exists st', (let* st := store st (v - 8) 0 in store st v res) = Ok st' /\
    Inv (forwarded g v res pend X) st' /\ st_mem st' = forward_mem /\
    todo_list st' = todo_list st.
Proof.
  exists (on_mem st forward_mem). pose proof (mh_size W v Hv) as Hsz.
  assert (M1 : is_Some (st_mem st !! (v - 8))).
  { rewrite <- (Z.add_opp_r v). change (- (8)) with (8 * -1).
    rewrite (i_not_copied _ _ I v (-1)) by (done || lia). apply (mh_mapped W); [done|lia]. }
  assert (M0 : is_Some (st_mem st !! v)).
  { rewrite <- (Z.add_0_r v) at 1. change 0 with (8 * 0) at 1.
    rewrite (i_not_copied _ _ I v 0) by (done || lia). apply (mh_mapped W); [done|lia]. }
  split.
  { unfold store, rmap. rewrite store_word_Ok by done. cbn.
    rewrite store_word_Ok by (rewrite lookup_insert_ne by lia; done). done. }
  split; [|done]. pose proof todo_not_v as Nt. pose proof forward_places as FP. destruct I. split; cbn; try done.
  - intros w r. destruct (decide (w = v)) as [->|Ne]; [done|]. rewrite lookup_insert_ne by done. eauto.
  - intros w i Hw E Hi. apply lookup_insert_None in E as [E Ne].
    rewrite forward_mem_young by done. eauto.
  - intros w r. destruct (decide (w = v)) as [->|Ne].
    + rewrite lookup_insert_eq. intros [= <-]. unfold forward_mem at 1 2.
      rewrite lookup_insert_ne by lia. rewrite !lookup_insert_eq. split; [done|]. split; [done|].
      intros i Hi. unfold forward_mem. rewrite !lookup_insert_ne by lia. apply i_not_copied0; [done|done|lia].
    + rewrite lookup_insert_ne by done. intros E. destruct (i_dom0 _ _ E) as [Hw _].
      pose proof (mh_size W w Hw). destruct (i_copied0 _ _ E) as (E1 & E2 & E3).
      pose proof (forward_mem_young w (-1) Hw Ne ltac:(lia)) as A.
      pose proof (forward_mem_young w 0 Hw Ne ltac:(lia)) as B.
      rewrite Z.mul_0_r, Z.add_0_r in B. replace (w + 8 * -1) with (w - 8) in A by lia.
      rewrite A, B. split; [done|]. split; [done|]. intros i Hi.
      rewrite forward_mem_young by (done || lia). eauto.
  - intros w r. destruct (decide (w = v)) as [->|Ne].
    + rewrite lookup_insert_eq. intros [= <-].
      eapply copy_ok_agree; [done| | | |apply L]; [done| |].
      * pose proof (forward_mem_out _ (res_not_area (-1) ltac:(lia))) as A.
        by replace (res + 8 * -1) with (res - 8) in A by lia.
      * intros i Hi D. rewrite forward_mem_out by (apply res_not_area; lia). done.
    + rewrite lookup_insert_ne by done. intros E. destruct (i_dom0 _ _ E) as [Hw _].
      pose proof (mh_size W w Hw).
      eapply copy_ok_agree; [done| | | |by apply (i_copy0 _ _ E)]; [done| |].
      * pose proof (forward_mem_copy w r (-1) E ltac:(lia)) as A.
        by replace (r + 8 * -1) with (r - 8) in A by lia.
      * intros i Hi D. rewrite (forward_mem_copy w r i E) by lia. done.
  - intros w r w' s. destruct L as [_ D]. destruct (decide (w = v)) as [->|N1], (decide (w' = v)) as [->|N2]; [done| | |];
      rewrite ?lookup_insert_eq, ?lookup_insert_ne by done.
    + intros [= <-] E _. by apply D.
    + intros E [= <-] _ i j Hi Hj Ea. by apply (D w r E j i).
    + eauto.
  - intros w Hw. destruct (i_todo0 w Hw) as (r & E & T). destruct (i_dom0 _ _ E) as [HwY _].
    exists r. split; [by rewrite lookup_insert_ne by (intros ->; done)|].
    eapply todo_ok_agree; [done| |done]. intros i Hi _. apply (forward_mem_copy w r i E). lia.
  - eapply chain_agree; [by apply insert_subseteq| |done]. intros w r Hw E.
    destruct (i_todo0 w Hw) as (r' & E' & T). rewrite E in E'. injection E' as <-.
    destruct (i_dom0 _ _ E) as [HwY _]. destruct T as (T1 & _). pose proof (mh_scannable W w HwY).
    apply (forward_mem_copy w r 1 E). lia.
  - intros a Ha D. rewrite forward_mem_out by (by apply (mh_slots W)). apply i_slots0; [done|].
    assert (a ∉ pend); [|set_solver]. by apply (forward_pend_other (Slot a) a).
  - intros w r slots. destruct (decide (w = v)) as [->|Ne].
    + intros _ T C. eapply Forall_impl; [by eapply (HX T)|]. set_solver.
    + rewrite lookup_insert_ne by done. intros E T C. eapply Forall_impl; [by eapply i_cont0|]. set_solver.
  - intros a Hf. rewrite forward_mem_out by apply Hf. eauto.
  - set_solver.
  - eapply sh_frame; [done|]. intros a Ho. apply forward_mem_out. intros A.
    by apply (mh_heap W a A), i_owns0.
Qed.
End Forward.

(** ** The to-do list *)

(** the addresses of the fields [i .. j - 1] of a copy *)
Definition field_addrs (r i j : Z) : gset Z := list_to_set ((fun k => r + 8 * k) <$> seqZ i (j - i)).

Lemma elem_of_field_addrs r i j a : a ∈ field_addrs r i j <-> exists k, i <= k < j /\ a = r + 8 * k.
Proof.
  unfold field_addrs. rewrite elem_of_list_to_set, list_elem_of_fmap. split.
  - intros (k & -> & Hk%elem_of_seqZ). exists k. split; [lia|done].
  - intros (k & Hk & ->). exists k. split; [done|]. apply elem_of_seqZ. lia.
Qed.

Definition pushed (g : ghost) (v r : Z) : ghost :=
  Ghost (g_copy g) (v :: g_todo g) (g_untouched g) (g_pending g ∖ field_addrs r 0 (wosize0 v)).

Lemma push_todo g st v r :
  Inv g st -> g_copy g !! v = Some r -> v ∉ g_todo g -> todo_ok (st_mem st) v r ->
  st_mem st !! (r + 8) = Some (todo_list st) ->
  Inv (pushed g v r) (set_todo_list st v).
Proof.
  intros I E Nt T En. pose proof (copy_word_not_slot g st I v r) as Ns.
  pose proof (place_inj g st I) as PI. destruct I. split; cbn; try done.
  - intros l a Hl Np Nu.
    assert (Hg : place_at g l a).
    { destruct l as [b|w i]; [done|]. cbn in Hl |- *. destruct Hl as (s & Es & N & Hi & ->).
      exists s. split; [done|]. split; [set_solver|done]. }
    apply (i_places0 l a Hg); [|done]. intros Hp. apply Np. apply elem_of_difference. split; [done|].
    rewrite elem_of_field_addrs. intros (k & Hk & ->).
    assert (El : l = Fld v k) by (apply (PI l (Fld v k) (r + 8 * k)); [done|by exists r]).
    subst l. cbn in Hl. destruct Hl as (_ & _ & N & _). set_solver.
  - intros w [->|Hw]%elem_of_cons; [|eauto]. exists r. done.
  - by constructor.
  - split; [done|]. by exists r, (todo_list st).
  - set_solver.
Qed.

Definition popped (g : ghost) (v r : Z) (l : list Z) : ghost :=
  Ghost (g_copy g) l (g_untouched g) (g_pending g ∪ field_addrs r 0 (nfields v)).

Lemma pop_todo g st v l :
  Inv g st -> g_todo g = v :: l ->
  exists r next, todo_list st = v /\ v ∈ Y /\ g_copy g !! v = Some r /\ todo_ok (st_mem st) v r /\
    st_mem st !! v = Some r /\ st_mem st !! (r + 8) = Some next /\ (v ∉ l) /\
    Inv (popped g v r l) (set_todo_list st next).
Proof.
  intros I El. pose proof I as I'. destruct I'. rewrite El in *. cbn in i_chain0.
  destruct i_chain0 as (Ev & r & next & E & En & Hc). destruct (i_dom0 _ _ E) as [Hv _].
  destruct (i_todo0 v) as (r' & E' & T); [by left|]. rewrite E in E'. injection E' as <-.
  destruct (i_copied0 _ _ E) as (_ & E0 & _). apply NoDup_cons in i_nodup0 as [Nv Nd].
  exists r, next. split_and!; try done.
  split; cbn; try done.
  - intros [b|w i] a Hl Np Nu.
    + apply (i_places0 (Slot b) a); [done|set_solver|done].
    + cbn in Hl. destruct Hl as (s & Es & N & Hi & ->). destruct (decide (w = v)) as [->|Ne].
      * rewrite E in Es. injection Es as <-. destruct (Z.lt_ge_cases i (nfields v)) as [Hf|Hf].
        { exfalso. apply Np. apply elem_of_union. right. apply elem_of_field_addrs. exists i. split; [lia|done]. }
        exists (field0 v i). split; [apply T; lia|]. unfold accepts, scans.
        destruct (Z.ltb_spec i (nfields v)); [lia|done].
      * apply (i_places0 (Fld w i)); [|set_solver|done]. exists s. split; [done|].
        rewrite El. split; [set_solver|done].
  - intros w Hw. apply i_todo0. by right.
  - intros a Ha D. apply i_slots0; [done|]. destruct D as [D|D]; [|by right].
    apply elem_of_union in D as [D|D]; [by left|]. apply elem_of_field_addrs in D as (k & Hk & ->).
    exfalso. pose proof (nfields_le v Hv). eapply copy_word_not_slot; [exact I|exact E| |exact Ha]. lia.
Qed.

(** ** Headers during the collection *)

Lemma Hd_val_word m v : is_Some (m !! (v - 8)) -> Hd_val m v = Ok (u64 (word m (v - 8))).
Proof. intros M. unfold Hd_val, rmap. by rewrite load_word. Qed.

Lemma header0_of v : Tag_hd (hd0 v) <> 0 \/ 0 < wosize0 v -> hd0 v <> 0 /\ hd0 v <> In_progress_update_val.
Proof.
  intros [T|Hw].
  - split; intros E; rewrite E in T; by apply T.
  - apply hd0_large in Hw. change In_progress_update_val with 256. lia.
Qed.

Lemma get_header_same m v :
  m !! (v - 8) = m0 !! (v - 8) -> is_Some (m0 !! (v - 8)) -> hd0 v <> In_progress_update_val ->
  get_header_val m v = Ok (hd0 v).
Proof.
  intros E M N. unfold get_header_val. rewrite Hd_val_word by (by rewrite E). cbn [rbind].
  unfold word. rewrite E. fold (word m0 (v - 8)). fold (hd0 v). unfold Is_update_in_progress.
  destruct (Z.eqb_spec (hd0 v) In_progress_update_val); done.
Qed.

Lemma Tag_val_same m v :
  m !! (v - 8) = m0 !! (v - 8) -> is_Some (m0 !! (v - 8)) -> Tag_val m v = Ok (tag0 v).
Proof.
  intros E M. unfold Tag_val, rmap. rewrite Hd_val_word by (by rewrite E). cbn [rbind].
  unfold word. by rewrite E.
Qed.

Lemma header_mapped v : v ∈ Y -> is_Some (m0 !! (v - 8)).
Proof.
  intros Hv. pose proof (mh_size W v Hv). pose proof (mh_mapped W v (-1) Hv ltac:(lia)) as M.
  by replace (v + 8 * -1) with (v - 8) in M by lia.
Qed.

Section Headers.
Context (g : ghost) (st : oldify_state Heap) (I : Inv g st).

Lemma header_not_copied v : v ∈ Y -> g_copy g !! v = None -> st_mem st !! (v - 8) = m0 !! (v - 8).
Proof.
  intros Hv E. pose proof (mh_size W v Hv). pose proof (i_not_copied _ _ I v (-1) Hv E ltac:(lia)) as A.
  by replace (v + 8 * -1) with (v - 8) in A by lia.
Qed.

Lemma header_infix v w : infix_of v w ->
  st_mem st !! (v - 8) = m0 !! (v - 8) /\ is_Some (m0 !! (v - 8)) /\ hd0 v <> 0 /\
  hd0 v <> In_progress_update_val.
Proof.
  intros HI. pose proof HI as (Hw & _ & _ & _ & M & T & _). destruct (infix_word v w HI) as (j & Hj & E).
  split.
  - rewrite E. destruct (g_copy g !! w) as [r|] eqn:C.
    + apply (i_copied _ _ I _ _ C). lia.
    + apply (i_not_copied _ _ I); [done|done|lia].
  - split; [done|]. apply header0_of. left. by rewrite T.
Qed.

Lemma real_block_not_copied n v off : v ∈ Y -> g_copy g !! v = None ->
  real_block (Datatypes.S n) (st_mem st) v off = Ok (v, off, hd0 v).
Proof.
  intros Hv E. pose proof (mh_size W v Hv) as Hw. destruct (header0_of v (or_intror Hw)) as [N1 N2].
  cbn [real_block]. rewrite get_header_same by (done || by apply header_not_copied || by apply header_mapped).
  cbn [rbind]. destruct (Z.eqb_spec (hd0 v) 0); [done|]. fold (tag0 v).
  destruct (Z.eqb_spec (tag0 v) Infix_tag) as [T|]; [by destruct (mh_tag W v Hv)|done].
Qed.

Lemma get_header_copied v r : g_copy g !! v = Some r -> get_header_val (st_mem st) v = Ok 0.
Proof.
  intros E. destruct (i_copied _ _ I _ _ E) as (E1 & _). unfold get_header_val, Hd_val, rmap.
  by rewrite (proj2 (load_Ok _ _ _) E1).
Qed.

Lemma real_block_copied n v r off : g_copy g !! v = Some r ->
  real_block (Datatypes.S n) (st_mem st) v off = Ok (v, off, 0).
Proof. intros E. cbn [real_block]. by rewrite (get_header_copied v r E). Qed.

Lemma real_block_infix n v w : infix_of v w ->
  real_block (Datatypes.S n) (st_mem st) v 0 = real_block n (st_mem st) w (v - w).
Proof.
  intros HI. destruct (header_infix v w HI) as (E & M & N1 & N2). cbn [real_block].
  rewrite get_header_same by done. cbn [rbind]. destruct (Z.eqb_spec (hd0 v) 0); [done|].
  destruct HI as (_ & _ & _ & _ & _ & T & ->). rewrite T. cbn. f_equal. lia.
Qed.

Lemma copy_tag v r : v ∈ Y -> g_copy g !! v = Some r -> Tag_val (st_mem st) r = Ok (tag0 v).
Proof.
  intros Hv E. destruct (i_copy _ _ I _ _ E) as (_ & _ & (c & Hc & Eh) & _).
  unfold Tag_val, rmap. rewrite Eh. cbn [rbind]. pose proof (wosize0_range v) as [W1 W2].
  change Max_wosize with (2 ^ 46 - 1) in W2.
  destruct (header_of_fields (tag0 v) c (wosize0 v) (reserved0 v)) as (-> & _); [|lia|lia|done].
  pose proof (tag0_range v). lia.
Qed.

(** the decision about a forwarding block does not change during the collection *)
Lemma keeps_forward_same v : v ∈ Y -> tag0 v = Forward_tag ->
  exists b, keeps_forward (st_mem st) (field0 v 0) = Ok b /\ keeps_forward m0 (field0 v 0) = Ok b.
Proof.
  intros Hv T. destruct (mh_forward W v Hv T) as [_ HF]. cbv zeta in HF.
  assert (Hok : ok_value (field0 v 0)).
  { apply (mh_fields W); [done|]. unfold nfields. by rewrite T. }
  set (f := field0 v 0) in *. unfold keeps_forward.
  destruct (Is_block f) eqn:EB; [|by eexists].
  destruct (young_value f) eqn:EY.
  - destruct (Hok EY) as [Hf | [w HI]].
    + pose proof (mh_size W f Hf) as Hw. destruct (header0_of f (or_intror Hw)) as [N1 N2].
      rewrite (get_header_same m0 f eq_refl (header_mapped f Hf) N2). cbn [rbind].
      destruct (Z.eqb_spec (hd0 f) 0); [done|]. cbn [rbind].
      rewrite (Tag_val_same m0 f eq_refl (header_mapped f Hf)). cbn [rbind].
      destruct (g_copy g !! f) as [r|] eqn:C.
      * rewrite (get_header_copied f r C). cbn [rbind].
        destruct (i_copied _ _ I _ _ C) as (_ & E0 & _).
        rewrite (proj2 (Field_Ok _ f 0 r)) by (by rewrite Z.add_0_r). cbn [rbind Z.eqb].
        rewrite (copy_tag f r Hf C). by eexists.
      * pose proof (header_not_copied f Hf C) as E.
        rewrite (get_header_same _ f E (header_mapped f Hf) N2). cbn [rbind].
        destruct (Z.eqb_spec (hd0 f) 0); [done|]. cbn [rbind].
        rewrite (Tag_val_same _ f E (header_mapped f Hf)). by eexists.
    + destruct (header_infix f w HI) as (E & M & N1 & N2).
      rewrite !get_header_same by done. cbn [rbind]. destruct (Z.eqb_spec (hd0 f) 0); [done|].
      cbn [rbind]. rewrite !Tag_val_same by done. by eexists.
  - destruct (HF eq_refl eq_refl) as (Hz & M & N1 & N2). pose proof (i_frame _ _ I _ Hz) as E.
    rewrite !get_header_same by done. cbn [rbind]. destruct (Z.eqb_spec (hd0 f) 0); [done|].
    cbn [rbind]. rewrite !Tag_val_same by done. by eexists.
Qed.
End Headers.

(** ** Copying fields *)

Definition finish_all (g : ghost) (X : gset Z) : ghost :=
  Ghost (g_copy g) (g_todo g) (g_untouched g ∖ X) (g_pending g ∖ X).

Lemma after_finish_all g X : after g (finish_all g X).
Proof. split; [split; cbn; [done|by exists []|set_solver|set_solver]|]. intros w Hw. by left. Qed.

Lemma finish_finish_all g r i k : i <= k ->
  finish (finish_all g (field_addrs r i k)) (r + 8 * k) = finish_all g (field_addrs r i (k + 1)).
Proof.
  intros Hk. unfold finish, finish_all. cbn.
  assert (E : forall X : gset Z, X ∖ field_addrs r i k ∖ {[r + 8 * k]} = X ∖ field_addrs r i (k + 1)).
  { intros X. apply set_eq. intros a. rewrite !elem_of_difference, !elem_of_field_addrs, elem_of_singleton.
    split.
    - intros [[Ha N1] N2]. split; [done|]. intros (k' & Hk' & ->).
      destruct (decide (k' = k)) as [->|]; [done|]. apply N1. exists k'. split; [lia|done].
    - intros [Ha N]. split; [split; [done|]|].
      + intros (k' & Hk' & ->). apply N. exists k'. split; [lia|done].
      + intros ->. apply N. exists k. split; [lia|done]. }
  by rewrite !E.
Qed.

Lemma finish_all_nil g r i j : j <= i -> finish_all g (field_addrs r i j) = g.
Proof.
  intros Hj. unfold finish_all.
  assert (E : field_addrs r i j = ∅).
  { apply set_eq. intros a. rewrite elem_of_field_addrs. set_solver by lia. }
  rewrite E. destruct g. cbn. f_equal; set_solver.
Qed.

Lemma Field_copied g st v r k : Inv g st -> g_copy g !! v = Some r -> 1 <= k < wosize0 v ->
  Field (st_mem st) v k = Ok (field0 v k).
Proof.
  intros I E Hk. destruct (i_dom _ _ I _ _ E) as [Hv _]. destruct (i_copied _ _ I _ _ E) as (_ & _ & C).
  apply Field_Ok. rewrite C by done. apply mapped0; [done|lia].
Qed.

Lemma Field_not_copied g st v k : Inv g st -> v ∈ Y -> g_copy g !! v = None -> 0 <= k < wosize0 v ->
  Field (st_mem st) v k = Ok (field0 v k).
Proof.
  intros I Hv E Hk. apply Field_Ok. rewrite (i_not_copied _ _ I) by (done || lia). apply mapped0; [done|lia].
Qed.

(** the fields of [v] copied as they are: code pointers of closures, and the fields that
    hold no values *)
Lemma copy_fields_ok g st v r i j :
  Inv g st -> g_copy g !! v = Some r -> v ∉ g_todo g -> 1 <= i -> j <= wosize0 v ->
  (forall k, i <= k < j -> accepts (g_copy g) (Fld v k) (field0 v k)) ->
  exists st', copy_fields r v i j st = Ok st' /\ Inv (finish_all g (field_addrs r i j)) st' /\
    todo_list st' = todo_list st.
Proof.
  intros I E Nt Hi Hj Ha. unfold copy_fields.
  destruct (Z.le_gt_cases j i) as [Hji|Hji].
  { replace (Z.to_nat (j - i)) with 0%nat by lia. exists st. cbn. by rewrite finish_all_nil. }
  match goal with |- context [for_loop _ _ ?b _] => set (body := b) end.
  destruct (for_loop_inv (fun k st' => Inv (finish_all g (field_addrs r i k)) st' /\
    todo_list st' = todo_list st) (Z.to_nat (j - i)) i body st) as (st' & R & I' & T).
  - rewrite finish_all_nil by lia. done.
  - intros k s Hk [Is Ts]. unfold body.
    rewrite (Field_copied _ s v r k Is E) by lia. cbn [rbind].
    destruct (store_place (finish_all g (field_addrs r i k)) s Is (r + 8 * k) (field0 v k) (Fld v k))
      as (s' & -> & I' & _ & T'); [|by apply Ha; lia|].
    + exists r. split_and!; [done|done|lia|lia|done].
    + exists s'. split; [done|]. rewrite <- finish_finish_all by lia. split; [done|by rewrite T'].
  - exists st'. split; [exact R|]. replace (i + Z.of_nat (Z.to_nat (j - i))) with j in I' by lia. done.
Qed.

(** the block copied before it is forwarded *)
Lemma copy_limbo_ok g st v r :
  Inv g st -> v ∈ Y -> g_copy g !! v = None -> limbo g st v r ->
  exists st', copy_fields r v 0 (wosize0 v) st = Ok st' /\ Inv g st' /\ limbo g st' v r /\
    (forall k, 0 <= k < wosize0 v -> st_mem st' !! (r + 8 * k) = Some (field0 v k)).
Proof.
  intros I Hv E L. unfold copy_fields. pose proof (mh_size W v Hv).
  match goal with |- context [for_loop _ _ ?b _] => set (body := b) end.
  destruct (for_loop_inv (fun k st' => Inv g st' /\ limbo g st' v r /\
    (forall k', 0 <= k' < k -> st_mem st' !! (r + 8 * k') = Some (field0 v k')))
    (Z.to_nat (wosize0 v - 0)) 0 body st) as (st' & R & I' & L' & C).
  - split_and!; [done|done|]. intros k' Hk'. lia.
  - intros k s Hk (Is & Ls & Cs). unfold body.
    rewrite (Field_not_copied _ s v k Is Hv E) by lia. cbn [rbind].
    destruct (limbo_store g s v r k (field0 v k) Is Hv Ls ltac:(lia)) as (s' & -> & I' & L' & M').
    exists s'. split_and!; [done|done|done|]. intros k' Hk'. rewrite M'.
    destruct (decide (k' = k)) as [->|]; [by rewrite lookup_insert_eq|].
    rewrite lookup_insert_ne by lia. apply Cs. lia.
  - exists st'. split; [exact R|]. split_and!; [done|done|]. intros k Hk. apply C. lia.
Qed.

(** ** One value *)

(** the blocks that are not copied yet bound the depth of the calls *)
Definition room (g : ghost) : nat := size (Y ∖ dom (g_copy g)).
#[local] Instance short_dec v : Decision (short v).
Proof. unfold short. apply _. Defined.
Definition short_cost (v : Z) : nat := if decide (v ∈ Y /\ short v) then 1 else 0.
Definition need (g : ghost) (v : Z) : nat := K + 2 * room g + 3 + short_cost v.

Lemma room_after g g' : after g g' -> (room g' <= room g)%nat.
Proof.
  intros A. unfold room. apply subseteq_size. pose proof (subseteq_dom (D := gset Z) _ _ (af_copy _ _ A)). set_solver.
Qed.

Lemma room_forwarded g v res pend X : v ∈ Y -> g_copy g !! v = None ->
  room g = Datatypes.S (room (forwarded g v res pend X)).
Proof.
  intros Hv E. unfold room, forwarded. cbn.
  assert (Hin : v ∈ Y ∖ dom (g_copy g)) by (apply elem_of_difference; split; [done|by apply not_elem_of_dom]).
  assert (Q : Y ∖ dom (g_copy g) = {[v]} ∪ Y ∖ dom (<[v := res]> (g_copy g))).
  { rewrite dom_insert_L. apply set_eq. intros w. destruct (decide (w = v)) as [->|]; set_solver. }
  rewrite Q, size_union by (rewrite dom_insert_L; set_solver). by rewrite size_singleton.
Qed.

Definition lifts (F : gmap Z Z) (l : place) (v : Z) : Prop :=
  forall F', F ⊆ F' -> forall x, promoted F' v x -> accepts F' l x.

Definition oldify_spec (fuel : nat) : Prop := forall g st v p l,
  Inv g st -> ok_value v -> place_at g l p -> lifts (g_copy g) l v -> (need g v <= fuel)%nat ->
  ok_or_fatal (oldify_one ar native_code fuel st v p) (fun st' =>
    exists g', Inv g' st' /\ after g g' /\ done_at g' p).

Lemma young_in_area v : young_value v = true -> in_area v.
Proof. unfold young_value, Is_young, in_area. rewrite !andb_true_iff. lia. Qed.

Lemma promoted_old g st v x : Inv g st -> promoted (g_copy g) v x -> young_value x = false.
Proof.
  intros I P. induction P as [v Hn|v r Hv Hy E|v w r HI Hy E|v x Hv Hy Hs P IH]; [done| | |done].
  - destruct (i_dom _ _ I _ _ E) as [Hv' _]. pose proof (mh_size W v Hv).
    destruct (young_value r) eqn:Q; [|done]. apply young_in_area in Q.
    destruct (copy_word_not_area g st I v r 0 E); [lia|]. by rewrite Z.mul_0_r, Z.add_0_r.
  - destruct (young_value (r + (v - w))) eqn:Q; [|done]. apply young_in_area in Q.
    destruct HI as (Hw & _ & R & M & _). destruct (mh_area W w Hw) as (Mw & _).
    destruct (copy_word_not_area g st I w r ((v - w) / 8) E); [zlia|].
    by replace (r + 8 * ((v - w) / 8)) with (r + (v - w)) by zlia.
Qed.

Lemma promoted_old_inv F v x : young_value v = false -> promoted F v x -> x = v.
Proof. intros Hv P. destruct P; congruence. Qed.

Lemma short_cost_le v : (short_cost v <= 1)%nat.
Proof. unfold short_cost. destruct (decide _); lia. Qed.

Section Slots.
Context (fuel : nat) (IH : oldify_spec fuel).

Lemma scan_slot_ok g st p :
  Inv g st -> p ∈ S -> p ∉ g_untouched g -> (K + 2 * room g + 4 <= fuel)%nat ->
  ok_or_fatal (scan_slot st_mem (oldify_one ar native_code fuel) true (fun _ => false) p st)
    (fun st' => exists g', Inv g' st' /\ after g g' /\ done_at g' p).
Proof.
  intros I Hp Nu Hf. unfold scan_slot.
  rewrite load_word by (by eapply place_slot_mapped). cbn.
  pose proof (short_cost_le (word (st_mem st) p)).
  apply (IH g st _ p (Slot p)); [done| |done| |unfold need; lia].
  - destruct (decide (p ∈ g_pending g)) as [D|D].
    + unfold word. rewrite (i_slots _ _ I) by (done || by left). by apply (mh_slots W).
    + destruct (i_places _ _ I (Slot p) p) as (x & E & A); [done..|]. rewrite (word_Some _ _ _ E).
      intros Q. by rewrite (promoted_old _ _ _ _ I A) in Q.
  - destruct (decide (p ∈ g_pending g)) as [D|D].
    + unfold word at 1. rewrite (i_slots _ _ I) by (done || by left). by intros F' _ x.
    + destruct (i_places _ _ I (Slot p) p) as (x & E & A); [done..|]. rewrite (word_Some _ _ _ E).
      intros F' HF y Py. rewrite (promoted_old_inv _ _ _ (promoted_old _ _ _ _ I A) Py).
      by eapply accepts_mono.
Qed.

(** what is assumed of the ghost state when [fuel] is enough *)
#[local] Abbreviation Inv_room := (fun g st => Inv g st /\ (K + 2 * room g + 4 <= fuel)%nat).
#[local] Abbreviation ready_at := (fun g a => a ∈ S /\ a ∉ g_untouched g).

Lemma oldify_slot_spec g st p : Inv_room g st -> ready_at g p ->
  ok_or_fatal (scan_slot st_mem (oldify_one ar native_code fuel) true (fun _ => false) p st)
    (all_done Inv_room after done_at g [p]).
Proof.
  intros [I Hf] [Hp Nu]. eapply ok_or_mono; [by apply scan_slot_ok|]. cbv beta.
  intros s (g' & I' & A' & D'). pose proof (room_after _ _ A').
  exists g'. split; [split; [done|lia]|]. split; [done|]. by constructor.
Qed.

Lemma ready_after g g' p : after g g' -> ready_at g p -> ready_at g' p.
Proof. intros A' [Hp Nu]. split; [done|]. pose proof (af_untouched _ _ A'). set_solver. Qed.

Lemma oldify_slots_ok ps g st :
  Inv g st -> Forall (fun a => a ∈ S) ps -> Forall (fun a => a ∉ g_untouched g) ps ->
  (K + 2 * room g + 4 <= fuel)%nat ->
  ok_or_fatal (scan_slots st_mem (oldify_one ar native_code fuel) true (fun _ => false) ps st)
    (fun st' => exists g', Inv g' st' /\ after g g' /\ Forall (done_at g') ps).
Proof.
  intros I Hs Hu Hf. eapply ok_or_mono.
  - apply (scan_slots_ok _ _ _ _ _ Inv_room after ready_at done_at ready_after after_done oldify_slot_spec ps g st).
    + done.
    + apply Forall_and. by split.
  - intros s (g' & [I' _] & A' & D'). by exists g'.
Qed.

(** the stacks of a chain: the words that lead to the slots do not change *)
Lemma oldify_stack_ok n f stack slots reads g st :
  stack_slots n m0 stack = Ok (slots, reads) -> (n <= f)%nat ->
  Forall frozen reads -> Forall (fun a => a ∈ S) slots ->
  Inv g st -> Forall (fun a => a ∉ g_untouched g) slots ->
  (K + 2 * room g + 4 <= fuel)%nat ->
  ok_or_fatal
    (caml_scan_stack st_mem (oldify_one ar native_code fuel) true (fun _ => false) f stack st)
    (fun st' => exists g', Inv g' st' /\ after g g' /\ Forall (done_at g') slots).
Proof.
  intros Es Hf Hr Hs I Hu Hk. eapply ok_or_mono.
  - eapply (caml_scan_stack_ok _ _ _ _ _ m0 Inv_room after ready_at done_at frozen ready_after after_done);
      [|exact oldify_slot_spec|exact Es|done..|].
    + intros g1 s1 a [I1 _]. by apply (i_frame _ _ I1).
    + apply Forall_and. by split.
  - intros s (g' & [I' _] & A' & D'). by exists g'.
Qed.

End Slots.

(** the block of a value of the minor heap, as [real_block] finds it *)
Definition block_of (v w : Z) : Prop := (v ∈ Y /\ w = v) \/ infix_of v w.

Lemma block_of_Y v w : block_of v w -> w ∈ Y.
Proof. intros [[Hv ->] | HI]; [done|apply HI]. Qed.

Lemma block_of_ok v : ok_value v -> young_value v = true -> exists w, block_of v w.
Proof. intros Hok Hy. destruct (Hok Hy) as [Hv | [w HI]]; [exists v; by left|exists w; by right]. Qed.

Lemma block_of_offset v w : block_of v w -> tag0 w <> Closure_tag -> v = w.
Proof. intros [[_ ->] | (_ & T & _)] N; done. Qed.

Lemma block_of_real g st n v w : Inv g st -> block_of v w ->
  real_block (Datatypes.S (Datatypes.S n)) (st_mem st) v 0 =
    Ok (w, v - w, match g_copy g !! w with Some _ => 0 | None => hd0 w end).
Proof.
  intros I HB. pose proof (block_of_Y v w HB) as Hw. destruct HB as [[Hv ->] | HI].
  - rewrite Z.sub_diag. destruct (g_copy g !! v) as [r|] eqn:E.
    + by apply (real_block_copied g st I _ _ r).
    + by apply (real_block_not_copied g st I).
  - rewrite (real_block_infix g st I _ _ w HI). destruct (g_copy g !! w) as [r|] eqn:E.
    + by apply (real_block_copied g st I _ _ r).
    + by apply (real_block_not_copied g st I).
Qed.

Lemma block_of_promoted F v w r : block_of v w -> young_value v = true -> F !! w = Some r ->
  promoted F v (r + (v - w)).
Proof.
  intros [[Hv ->] | HI] Hy E; [|by apply promoted_infix].
  rewrite Z.sub_diag, Z.add_0_r. by apply promoted_block.
Qed.

Lemma nfields_scannable w : w ∈ Y -> tag0 w < Infix_tag -> tag0 w <> Cont_tag -> nfields w = scannable0 w.
Proof.
  intros Hw T N. unfold nfields. change Infix_tag with 249 in *. change No_scan_tag with 251.
  change Cont_tag with 245 in *. change Forward_tag with 250.
  destruct (Z.leb_spec 251 (tag0 w)); [lia|].
  destruct (Z.eqb_spec (tag0 w) 245); [lia|]. by destruct (Z.eqb_spec (tag0 w) 250); [lia|].
Qed.

Lemma Inv_live g st n : Inv g st -> Inv g (add_live_bytes st n).
Proof. intros I. by eapply Inv_agree; [exact I| | | |apply (i_heap _ _ I)]. Qed.

Lemma set_todo_id (st : oldify_state Heap) : set_todo_list st (todo_list st) = st.
Proof. by destruct st. Qed.

(** one value of the minor heap whose block is not copied yet *)
Section Branches.
Context (fuel : nat) (IH : oldify_spec fuel).
Context (g : ghost) (st : oldify_state Heap) (I : Inv g st).
Context (v w p : Z) (l : place) (Hp : place_at g l p) (Hl : lifts (g_copy g) l v).
Context (HB : block_of v w) (Hy : young_value v = true) (Hn : g_copy g !! w = None).
Context (Hf : (need g v <= Datatypes.S fuel)%nat).

Lemma branch_Y : w ∈ Y.
Proof. by eapply block_of_Y. Qed.

(** the block is copied at [res], and the place updated *)
Lemma forward_place st1 res pend X :
  Inv g st1 -> ~ short w -> limbo g st1 w res ->
  (forall i, 0 <= i < wosize0 w -> res + 8 * i ∉ pend ->
    nfields w <= i /\ st_mem st1 !! (res + 8 * i) = Some (field0 w i)) ->
  (forall a, a ∈ pend -> exists i, 0 <= i < wosize0 w /\ a = res + 8 * i) ->
  (tag0 w = Cont_tag -> forall slots, cont_slots w slots -> Forall (fun a => a ∈ X) slots) ->
  exists st2, try_update_object_header st1 w p res (v - w) = Ok st2 /\
    Inv (finish (forwarded g w res pend X) p) st2 /\ todo_list st2 = todo_list st1 /\
    (forall a, ~ in_area a -> a <> p -> st_mem st2 !! a = st_mem st1 !! a).
Proof.
  intros I1 Hs L HP1 HP2 HX.
  destruct (forward_block g st1 I1 w res pend X branch_Y Hn Hs L HP1 HP2 HX) as (s & E & I2 & M & T).
  assert (Hp' : place_at (forwarded g w res pend X) l p).
  { revert Hp. destruct l as [b|w' i]; cbn; [done|]. intros (r & Er & R). exists r.
    rewrite lookup_insert_ne by congruence. done. }
  destruct (store_place _ s I2 p (res + (v - w)) l Hp') as (s2 & E2 & I3 & M3 & T3).
  { apply Hl; [by apply insert_subseteq|]. apply block_of_promoted; [done|done|]. apply lookup_insert_eq. }
  exists s2. split; [|split; [done|split; [by rewrite T3|]]].
  - unfold try_update_object_header. apply rbind_Ok in E as (s' & Es & E). rewrite Es. cbn [rbind].
    rewrite E. cbn [rbind]. exact E2.
  - intros a Na Np. rewrite M3, lookup_insert_ne, M by done.
    apply forward_mem_out; [exact branch_Y|done].
Qed.

(** how [oldify_one] starts on it *)
Lemma oldify_one_start (Hf2 : (2 <= fuel)%nat) :
  oldify_one ar native_code (Datatypes.S fuel) st v p =
  (let infix_offset := v - w in
   let tag := tag0 w in
   let sz := wosize0 w in
    if tag =? Cont_tag then
      let* stack_value := Field (st_mem st) w 0 in
      let* (res, st) := alloc_shared st 1 Cont_tag (reserved0 w) in
      let* st := try_update_object_header st w p res 0 in
      let stk := Ptr_val stack_value in
      let* st := store st res (Val_ptr stk) in
      caml_scan_stack st_mem (oldify_one ar native_code fuel) true (fun _ => false) fuel stk st
    else if tag <? Infix_tag then
      let st := add_live_bytes st (Bhsize_hd (hd0 w)) in
      let* (res, st) := alloc_shared st sz tag (reserved0 w) in
      let* field0 := Field (st_mem st) w 0 in
      let* st := try_update_object_header st w p res infix_offset in
      let* st :=
        (if scannable0 w =? 0
         then let* st := store st res field0 in copy_fields res w 1 sz st
         else copy_fields res w (scannable0 w) sz st) in
      if scannable0 w =? 0 then Ok st
      else if 1 <? scannable0 w then
        let* st := store st res field0 in
        let* st := store st (res + 8) (todo_list st) in
        Ok (set_todo_list st w)
      else oldify_one ar native_code fuel st field0 res
    else if No_scan_tag <=? tag then
      let st := add_live_bytes st (Bhsize_hd (hd0 w)) in
      let* (res, st) := alloc_shared st sz tag (reserved0 w) in
      let* st := copy_fields res w 0 sz st in
      try_update_object_header st w p res 0
    else
      let* f := Forward_val (st_mem st) w in
      let* keep := keeps_forward (st_mem st) f in
      if keep then
        let st := add_live_bytes st (Bhsize_hd (hd0 w)) in
        let* (res, st) := alloc_shared st 1 Forward_tag (reserved0 w) in
        let* st := try_update_object_header st w p res 0 in
        oldify_one ar native_code fuel st f res
      else oldify_one ar native_code fuel st f p).
Proof.
  pose proof (block_of_real g st (fuel - 2) v w I HB) as R.
  replace (Datatypes.S (Datatypes.S (fuel - 2))) with fuel in R by lia.
  cbn [oldify_one]. fold (young_value v). rewrite Hy. cbn [negb]. rewrite R, Hn. cbn [rbind].
  pose proof (mh_size W w branch_Y) as Hw. destruct (header0_of w (or_intror Hw)) as [N _].
  destruct (Z.eqb_spec (hd0 w) 0); done.
Qed.

Definition promotes (r : result (oldify_state Heap)) : Prop :=
  ok_or_fatal r (fun st' => exists g', Inv g' st' /\ after g g' /\ done_at g' p).

Lemma grows_forwarded res pend X g2 :
  grows (finish (forwarded g w res pend X) p) g2 -> (forall a, a ∈ pend \/ a ∈ X -> done_at g2 a) ->
  grows g g2.
Proof.
  intros [C [T ET] U P] D. cbn in *. split.
  - etrans; [|exact C]. by apply insert_subseteq.
  - by exists T.
  - set_solver.
  - intros a Ha. pose proof (P a Ha) as Q. destruct (decide (a ∈ pend \/ a ∈ X)) as [B|B].
    + by destruct (D a B).
    + set_solver.
Qed.

Lemma after_forwarded res pend X g2 :
  after (finish (forwarded g w res pend X) p) g2 -> (forall a, a ∈ pend \/ a ∈ X -> done_at g2 a) ->
  after g g2.
Proof.
  intros [G N] D. split; [by eapply grows_forwarded|]. intros w' [Hw|Hw]%N; [by left|]. right.
  cbn in Hw. by apply lookup_insert_None in Hw as [Hw _].
Qed.

Lemma limbo_not_place st1 res i : limbo g st1 w res -> 0 <= i < wosize0 w -> res + 8 * i <> p.
Proof.
  intros L Hi Ep. apply (limbo_not_relevant g st1 w res i L ltac:(lia)). rewrite Ep.
  revert Hp. destruct l as [b|w' j]; cbn; [by intros [_ ?]; left|].
  intros (r & E & _ & Hj & Ea). do 3 right. exists w', r, j. split_and!; [done|lia|lia|done].
Qed.

Lemma new_place res pend X i : 0 <= i < wosize0 w ->
  place_at (finish (forwarded g w res pend X) p) (Fld w i) (res + 8 * i).
Proof.
  intros Hi. exists res. cbn. rewrite lookup_insert_eq. split_and!; [done| |lia|lia|done].
  by apply (todo_not_v g st I).
Qed.

Lemma new_place0 res pend X : place_at (finish (forwarded g w res pend X) p) (Fld w 0) res.
Proof.
  pose proof (mh_size W w branch_Y). pose proof (new_place res pend X 0 ltac:(lia)) as Q.
  by rewrite Z.mul_0_r, Z.add_0_r in Q.
Qed.

Lemma all_pending (st1 : oldify_state Heap) res :
  (forall i, 0 <= i < wosize0 w -> res + 8 * i ∉ field_addrs res 0 (wosize0 w) ->
    nfields w <= i /\ st_mem st1 !! (res + 8 * i) = Some (field0 w i)) /\
  (forall a, a ∈ field_addrs res 0 (wosize0 w) -> exists i, 0 <= i < wosize0 w /\ a = res + 8 * i).
Proof.
  split.
  - intros i Hi N. exfalso. apply N, elem_of_field_addrs. by exists i.
  - intros a (k & Hk & ->)%elem_of_field_addrs. by exists k.
Qed.

Lemma not_forward_short : tag0 w <> Forward_tag -> ~ short w.
Proof. by intros N [T _]. Qed.

(** blocks without values *)
Lemma branch_no_scan : (2 <= fuel)%nat -> No_scan_tag <= tag0 w ->
  promotes (oldify_one ar native_code (Datatypes.S fuel) st v p).
Proof.
  intros Hf2 T. change No_scan_tag with 251 in T. unfold promotes. rewrite oldify_one_start by done.
  cbv zeta. change Cont_tag with 245. change Infix_tag with 249. change No_scan_tag with 251.
  destruct (Z.eqb_spec (tag0 w) 245), (Z.ltb_spec (tag0 w) 249), (Z.leb_spec 251 (tag0 w)); try lia.
  assert (Ev : v = w) by (apply block_of_offset; [done|change Closure_tag with 247; lia]).
  eapply ok_or_bind; [apply (alloc_ok g); [by apply Inv_live|exact branch_Y]|].
  intros (res, s1) (I1 & L & _).
  destruct (copy_limbo_ok g s1 w res I1 branch_Y Hn L) as (s2 & -> & I2 & L2 & C2). cbn [rbind].
  destruct (forward_place s2 res ∅ ∅ I2) as (s3 & E3 & I3 & _); try done.
  - apply not_forward_short. change Forward_tag with 250. lia.
  - intros i Hi _. unfold nfields. change No_scan_tag with 251. destruct (Z.leb_spec 251 (tag0 w)); [|lia].
    split; [lia|by apply C2].
  - rewrite Ev, Z.sub_diag in E3. rewrite E3. exists (finish (forwarded g w res ∅ ∅) p).
    split; [done|]. split; [|apply done_finish]. eapply after_forwarded; [reflexivity|]. set_solver.
Qed.

(** forwarding blocks *)
Lemma branch_forward : (2 <= fuel)%nat -> tag0 w = Forward_tag ->
  promotes (oldify_one ar native_code (Datatypes.S fuel) st v p).
Proof.
  intros Hf2 T. unfold promotes. rewrite oldify_one_start by done. rewrite T. cbn -[oldify_one].
  assert (Ev : v = w) by (apply block_of_offset; [done|by rewrite T]).
  pose proof (mh_forward W w branch_Y T) as [Hw _].
  unfold Forward_val. rewrite (Field_not_copied g st w 0 I branch_Y Hn) by lia. cbn [rbind].
  destruct (keeps_forward_same g st I w branch_Y T) as (b & -> & Eb). cbn [rbind].
  assert (Hok : ok_value (field0 w 0)).
  { apply (mh_fields W); [exact branch_Y|]. unfold nfields. by rewrite T. }
  pose proof (short_cost_le (field0 w 0)) as Hc. destruct b.
  - assert (Hs : ~ short w) by (intros [_ Q]; congruence).
    rewrite <- T. rewrite <- Hw at 1.
    eapply ok_or_bind; [apply (alloc_ok g); [by apply Inv_live|exact branch_Y]|].
    intros (res, s1) (I1 & L & _).
    destruct (all_pending s1 res) as [P1 P2].
    destruct (forward_place s1 res (field_addrs res 0 (wosize0 w)) ∅ I1 Hs L P1 P2) as (s2 & E2 & I2 & _).
    { by rewrite T. }
    rewrite Ev, Z.sub_diag in E2. rewrite E2. cbn [rbind].
    eapply ok_or_mono.
    { apply (IH _ s2 (field0 w 0) res (Fld w 0) I2 Hok).
      - apply new_place0.
      - intros F' _ x. unfold accepts, scans, nfields. by rewrite T.
      - pose proof (room_forwarded g w res (field_addrs res 0 (wosize0 w)) ∅ branch_Y Hn).
        unfold need, room, finish in *. cbn in *. lia. }
    cbv beta. intros s3 (g3 & I3 & A3 & D3). exists g3. split; [done|]. split.
    + eapply after_forwarded; [exact A3|]. intros a [(k & Hk & ->)%elem_of_field_addrs|Ha]; [|set_solver].
      replace (res + 8 * k) with res by lia. done.
    + eapply after_done; [exact A3|apply done_finish].
  - assert (Hs : short w) by done.
    apply (IH g st (field0 w 0) p l I Hok Hp).
    + intros F' HF x Px. apply Hl; [done|]. rewrite Ev.
      apply promoted_short; [exact branch_Y|apply young_value_Y, branch_Y|done|done].
    + assert (short_cost v = 1%nat).
      { unfold short_cost. rewrite Ev, decide_True; [done|]. split; [exact branch_Y|done]. }
      assert (short_cost (field0 w 0) = 0%nat); [|unfold need in *; lia].
      unfold short_cost. apply decide_False. intros [Hfy [Tf _]].
      unfold keeps_forward in Eb.
      destruct (proj1 (andb_true_iff _ _) (young_value_Y _ Hfy)) as [HBk _]. rewrite HBk in Eb.
      pose proof (mh_size W _ Hfy) as Hwf. destruct (header0_of _ (or_intror Hwf)) as [N1 N2].
      rewrite (get_header_same m0 _ eq_refl (header_mapped _ Hfy) N2) in Eb. cbn [rbind] in Eb.
      destruct (Z.eqb_spec (hd0 (field0 w 0)) 0); [done|]. cbn [rbind] in Eb.
      rewrite (Tag_val_same m0 _ eq_refl (header_mapped _ Hfy)), Tf in Eb. done.
Qed.


Lemma cont_slots_unique slots slots' : cont_slots w slots -> cont_slots w slots' -> slots = slots'.
Proof. intros (r & E & _) (r' & E' & _). rewrite E in E'. by injection E' as <- _. Qed.

(** continuations *)
Lemma branch_cont : (K + 2 <= fuel)%nat -> tag0 w = Cont_tag ->
  promotes (oldify_one ar native_code (Datatypes.S fuel) st v p).
Proof.
  intros Hf2 T. unfold promotes. rewrite oldify_one_start by lia. rewrite T. cbn -[oldify_one caml_scan_stack].
  assert (Ev : v = w) by (apply block_of_offset; [done|by rewrite T]).
  destruct (mh_cont W w branch_Y T) as (Hw & HBk & slots & HC).
  rewrite (Field_not_copied g st w 0 I branch_Y Hn) by lia. cbn [rbind].
  rewrite <- T. rewrite <- Hw at 1.
  eapply ok_or_bind; [by apply (alloc_ok g _ _ I branch_Y)|].
  intros (res, s1) (I1 & L & _). destruct (all_pending s1 res) as [P1 P2].
  set (pend := field_addrs res 0 (wosize0 w)) in *.
  assert (Hs : ~ short w) by (apply not_forward_short; by rewrite T).
  destruct (forward_place s1 res pend (list_to_set slots) I1 Hs L P1 P2) as (s2 & E2 & I2 & _).
  { intros _ sl C. rewrite (cont_slots_unique _ _ C HC). apply Forall_forall. intros a Ha.
    by apply elem_of_list_to_set. }
  rewrite Ev, Z.sub_diag in E2. rewrite E2. cbn [rbind].
  replace (Val_ptr (Ptr_val (field0 w 0))) with (field0 w 0) by (unfold Val_ptr, Ptr_val; lia).
  destruct (store_place _ s2 I2 res (field0 w 0) (Fld w 0) (new_place0 _ _ _)) as (s3 & -> & I3 & _).
  { unfold accepts, scans, nfields. rewrite T. cbn. apply promoted_same. unfold young_value. by rewrite HBk. }
  cbn [rbind]. destruct HC as (reads & Es & HS & HR).
  pose proof (room_forwarded g w res pend (list_to_set slots) branch_Y Hn) as Hroom.
  eapply ok_or_mono.
  { apply (oldify_stack_ok fuel IH K fuel _ slots reads _ s3 Es ltac:(lia) HR HS I3).
    - apply Forall_forall. intros a Ha. cbn. apply (elem_of_list_to_set (C := gset Z)) in Ha. set_solver.
    - unfold need, room, finish, forwarded in *. cbn in *. lia. }
  cbv beta. intros s4 (g4 & I4 & A4 & D4). exists g4. split; [done|].
  assert (A3 : after (finish (forwarded g w res pend (list_to_set slots)) p) g4)
    by (etrans; [apply after_finish|exact A4]).
  split; [|eapply after_done; [exact A3|apply done_finish]].
  eapply after_forwarded; [exact A3|]. intros a [(k & Hk & ->)%elem_of_field_addrs|Ha].
  - replace (res + 8 * k) with res by lia. eapply after_done; [exact A4|apply done_finish].
  - apply elem_of_list_to_set in Ha. rewrite Forall_forall in D4. by apply D4.
Qed.

(** blocks whose fields hold values: the fields that do not are copied at once *)
Lemma raw_fields_ok g1 s1 res :
  Inv g1 s1 -> g_copy g1 !! w = Some res -> w ∉ g_todo g1 -> place_at g1 (Fld w 0) res ->
  nfields w = scannable0 w ->
  exists s2, (if scannable0 w =? 0
     then let* st := store s1 res (field0 w 0) in copy_fields res w 1 (wosize0 w) st
     else copy_fields res w (scannable0 w) (wosize0 w) s1) = Ok s2 /\
    Inv (finish_all g1 (field_addrs res (nfields w) (wosize0 w))) s2 /\ todo_list s2 = todo_list s1.
Proof.
  intros I1 E Nt Hp0 Hnf. pose proof (mh_scannable W w branch_Y).
  assert (Hraw : forall g2 k, nfields w <= k -> accepts (g_copy g2) (Fld w k) (field0 w k)).
  { intros g2 k Hk. unfold accepts, scans. by destruct (Z.ltb_spec k (nfields w)); [lia|]. }
  destruct (Z.eqb_spec (scannable0 w) 0) as [Z0|N0].
  - destruct (store_place _ s1 I1 res (field0 w 0) (Fld w 0) Hp0) as (s2 & -> & I2 & _ & T2).
    { apply (Hraw g1). lia. }
    cbn [rbind].
    destruct (copy_fields_ok _ s2 w res 1 (wosize0 w) I2 E Nt) as (s3 & E3 & I3 & T3); [lia|lia| |].
    { intros k Hk. apply (Hraw (finish g1 res)). lia. }
    exists s3. split; [exact E3|]. split; [|by rewrite T3]. rewrite Hnf, Z0. revert I3.
    unfold finish_all, finish. cbn. rewrite !difference_difference_l_L.
    replace ({[res]} ∪ field_addrs res 1 (wosize0 w)) with (field_addrs res 0 (wosize0 w)); [done|].
    pose proof (mh_size W w branch_Y).
    apply set_eq. intros a. rewrite elem_of_union, !elem_of_field_addrs, elem_of_singleton. split.
    + intros (k & Hk & ->). destruct (decide (k = 0)) as [->|]; [left; lia|right; exists k; lia].
    + intros [-> | (k & Hk & ->)]; [exists 0; lia|exists k; lia].
  - rewrite Hnf. apply copy_fields_ok; [done|done|done|lia|lia|]. intros k Hk. apply (Hraw g1). lia.
Qed.


(** the copy put on the to-do list *)
Lemma push_copy g2 s2 res :
  Inv g2 s2 -> g_copy g2 !! w = Some res -> w ∉ g_todo g2 -> tag0 w < Infix_tag -> tag0 w <> Cont_tag ->
  1 < scannable0 w ->
  (forall k, 0 <= k < scannable0 w -> res + 8 * k ∈ g_pending g2) ->
  (forall k, scannable0 w <= k < wosize0 w -> done_at g2 (res + 8 * k)) ->
  exists s3, (let* st := store s2 res (field0 w 0) in
     let* st := store st (res + 8) (todo_list st) in Ok (set_todo_list st w)) = Ok s3 /\
    Inv (pushed g2 w res) s3.
Proof.
  intros I2 E Nt T Tc H1 HP HR. pose proof (mh_scannable W w branch_Y) as Hsc.
  assert (HF : forall k, 0 <= k < wosize0 w -> place_at g2 (Fld w k) (res + 8 * k)).
  { intros k Hk. exists res. split_and!; [done|done|lia|lia|done]. }
  assert (HN : forall k, 0 <= k < wosize0 w -> res + 8 * k ∉ S).
  { intros k Hk. eapply copy_word_not_slot; [exact I2|exact E|lia]. }
  pose proof (HF 0 ltac:(lia)) as F0. pose proof (HP 0 ltac:(lia)) as Q0. pose proof (HN 0 ltac:(lia)) as N0.
  rewrite Z.mul_0_r, Z.add_0_r in F0, Q0, N0.
  destruct (store_pending g2 s2 I2 res (field0 w 0) _ F0 Q0 N0) as (s3 & -> & I3 & M3 & T3). cbn [rbind].
  destruct (store_pending g2 s3 I3 (res + 8) (todo_list s3) _ (HF 1 ltac:(lia)) (HP 1 ltac:(lia))
    (HN 1 ltac:(lia))) as (s4 & -> & I4 & M4 & T4). cbn [rbind].
  exists (set_todo_list s4 w). split; [done|]. apply push_todo; [done|done|done| |].
  - split; [done|]. split; [done|]. split; [done|]. split.
    + rewrite M4, lookup_insert_ne, M3 by lia. apply lookup_insert_eq.
    + rewrite (nfields_scannable w branch_Y T Tc). intros k Hk. destruct (HR k Hk) as [R1 R2].
      destruct (i_places _ _ I4 _ _ (HF k ltac:(lia)) R1 R2) as (x & -> & A).
      unfold accepts, scans in A. rewrite (nfields_scannable w branch_Y T Tc) in A.
      destruct (Z.ltb_spec k (scannable0 w)); [lia|]. by rewrite A.
  - rewrite M4, T4. apply lookup_insert_eq.
Qed.

Lemma branch_scan : (2 <= fuel)%nat -> tag0 w < Infix_tag -> tag0 w <> Cont_tag ->
  promotes (oldify_one ar native_code (Datatypes.S fuel) st v p).
Proof.
  intros Hf2 T Tc. unfold promotes. rewrite oldify_one_start by done. cbv zeta.
  destruct (Z.eqb_spec (tag0 w) Cont_tag), (Z.ltb_spec (tag0 w) Infix_tag); try done; [|lia].
  pose proof (nfields_scannable w branch_Y T Tc) as Hnf. pose proof (mh_scannable W w branch_Y) as Hsc.
  pose proof (mh_size W w branch_Y) as Hsz.
  eapply ok_or_bind; [apply (alloc_ok g); [by apply Inv_live|exact branch_Y]|].
  intros (res, s1) (I1 & L & _).
  rewrite (Field_not_copied g s1 w 0 I1 branch_Y Hn) by lia. cbn [rbind].
  destruct (all_pending s1 res) as [P1 P2]. set (pend := field_addrs res 0 (wosize0 w)) in *.
  assert (Hs : ~ short w) by (apply not_forward_short; intros E; rewrite E in T; done).
  destruct (forward_place s1 res pend ∅ I1 Hs L P1 P2) as (s2 & -> & I2 & T2 & _); [done|]. cbn [rbind].
  set (g1 := finish (forwarded g w res pend ∅) p) in *.
  assert (E1 : g_copy g1 !! w = Some res) by apply lookup_insert_eq.
  assert (Nt : w ∉ g_todo g1) by (by apply (todo_not_v g st I)).
  destruct (raw_fields_ok g1 s2 res I2 E1 Nt (new_place0 _ _ _) Hnf) as (s3 & E3 & I3 & T3).
  rewrite E3. cbn [rbind]. set (g2 := finish_all g1 (field_addrs res (nfields w) (wosize0 w))) in *.
  assert (A2 : after g1 g2) by apply after_finish_all.
  assert (Dp : done_at g2 p) by (eapply after_done; [exact A2|apply done_finish]).
  assert (Hpend : forall g3, grows g2 g3 -> (forall k, 0 <= k < nfields w -> done_at g3 (res + 8 * k)) ->
    forall a, a ∈ pend \/ a ∈ (∅ : gset Z) -> done_at g3 a).
  { intros g3 A3 D a [(k & Hk & ->)%elem_of_field_addrs|Ha]; [|set_solver].
    destruct (Z.lt_ge_cases k (nfields w)); [by apply D; lia|].
    assert (res + 8 * k ∈ field_addrs res (nfields w) (wosize0 w)) by (apply elem_of_field_addrs; exists k; lia).
    destruct A3 as [_ _ U3 P3]. unfold g2, finish_all in U3, P3. split; cbn in *; set_solver. }
  destruct (Z.eqb_spec (scannable0 w) 0) as [Z0|N0].
  { exists g2. split; [done|]. split; [|done]. eapply after_forwarded; [exact A2|].
    apply Hpend; [done|]. intros k Hk. lia. }
  destruct (Z.ltb_spec 1 (scannable0 w)) as [H1|H1].
  - edestruct (push_copy g2 s3 res) as (s4 & E4 & I4); try done.
    + intros k Hk. unfold g2, g1, finish_all, finish, forwarded. cbn. rewrite !elem_of_difference.
      split; [split|].
      * apply elem_of_union. right. apply elem_of_field_addrs. exists k. lia.
      * rewrite elem_of_singleton. apply (limbo_not_place s1 res k L). lia.
      * rewrite elem_of_field_addrs. intros (k' & Hk' & E'). lia.
    + intros k Hk. assert (res + 8 * k ∈ field_addrs res (nfields w) (wosize0 w)).
      { apply elem_of_field_addrs. exists k. lia. }
      unfold g2, finish_all. split; cbn; set_solver.
    + rewrite E4. exists (pushed g2 w res). split; [done|].
      assert (A3 : grows g2 (pushed g2 w res)) by (split; cbn; [done|by exists [w]|done|set_solver]).
      split; [|destruct A3 as [_ _ U3 P3], Dp as [D1 D2]; split; set_solver].
      split; [|intros w' [->|Hw']%elem_of_cons; [by right|by left]].
      eapply grows_forwarded; [etrans; [apply A2|exact A3]|].
      apply Hpend; [done|]. intros k Hk. split; cbn.
      * rewrite elem_of_difference, elem_of_field_addrs. intros [_ N]. apply N. exists k. lia.
      * intros Q%(i_untouched _ _ I3). revert Q. eapply copy_word_not_slot; [exact I3|exact E1|lia].
  - assert (Hone : scannable0 w = 1) by lia.
    assert (Hok : ok_value (field0 w 0)) by (apply (mh_fields W); [exact branch_Y|lia]).
    pose proof (short_cost_le (field0 w 0)). eapply ok_or_mono.
    { apply (IH g2 s3 (field0 w 0) res (Fld w 0) I3 Hok).
      - apply (new_place0 res pend ∅).
      - intros F' _ x. unfold accepts, scans. by rewrite Hnf, Hone.
      - pose proof (room_forwarded g w res pend ∅ branch_Y Hn). pose proof (room_after _ _ A2).
        unfold need, g1, room, finish in *. cbn in *. lia. }
    cbv beta. intros s4 (g4 & I4 & A4 & D4). exists g4. split; [done|]. split; [|by eapply after_done].
    eapply after_forwarded; [by etrans|]. apply Hpend; [apply A4|].
    intros k Hk. by replace (res + 8 * k) with res by lia.
Qed.

End Branches.

(** [oldify_one] promotes any value, and the graph that it reaches except what it leaves on
    the to-do list *)
Lemma oldify_one_ok fuel : oldify_spec fuel.
Proof.
  induction fuel as [|fuel IH]; intros g st v p l I Hok Hp Hl Hf; [unfold need in Hf; lia|].
  destruct (young_value v) eqn:Hy.
  - destruct (block_of_ok v Hok Hy) as [w HB]. destruct (g_copy g !! w) as [r|] eqn:E.
    + pose proof (block_of_real g st (fuel - 2) v w I HB) as R. unfold need in Hf.
      replace (Datatypes.S (Datatypes.S (fuel - 2))) with fuel in R by lia.
      cbn [oldify_one]. fold (young_value v). rewrite Hy. cbn [negb]. rewrite R, E. cbn [rbind Z.eqb].
      destruct (i_copied _ _ I _ _ E) as (_ & E0 & _).
      rewrite (proj2 (Field_Ok _ w 0 r)) by (by rewrite Z.add_0_r). cbn [rbind].
      destruct (store_place g st I p (r + (v - w)) l Hp) as (s & -> & I' & _).
      { apply Hl; [done|]. by apply block_of_promoted. }
      exists (finish g p). split; [done|]. split; [apply after_finish|apply done_finish].
    + assert (Hf2 : (K + 2 <= fuel)%nat).
      { unfold need in Hf. pose proof (room_forwarded g w 0 ∅ ∅ (block_of_Y v w HB) E). lia. }
      destruct (decide (tag0 w = Cont_tag)) as [|Nc]; [by apply (branch_cont fuel IH g st I v w p l)|].
      destruct (decide (tag0 w = Forward_tag)) as [|Nf]; [by apply (branch_forward fuel IH g st I v w p l); try lia|].
      pose proof (mh_tag W w (block_of_Y v w HB)) as Ni.
      change Infix_tag with 249 in *. change Forward_tag with 250 in *.
      destruct (Z.lt_ge_cases (tag0 w) 249); [by apply (branch_scan fuel IH g st I v w p l); try lia|].
      apply (branch_no_scan fuel IH g st I v w p l); try done; [lia|]. change No_scan_tag with 251. lia.
  - cbn [oldify_one]. fold (young_value v). rewrite Hy. cbn [negb].
    destruct (store_place g st I p v l Hp) as (s & -> & I' & _).
    { apply Hl; [done|]. by apply promoted_same. }
    exists (finish g p). split; [done|]. split; [apply after_finish|apply done_finish].
Qed.

(** ** The to-do list emptied *)

Lemma Inv_finish g st p x l : Inv g st -> place_at g l p -> st_mem st !! p = Some x ->
  accepts (g_copy g) l x -> Inv (finish g p) st.
Proof.
  intros I Hp E A. destruct (store_place g st I p x l Hp A) as (s & Es & I' & _).
  unfold store, rmap in Es. rewrite store_word_Ok in Es by (by rewrite E). cbn in Es.
  rewrite insert_id in Es by done. injection Es as <-. by destruct st.
Qed.

Lemma copy_header g st v r : Inv g st -> v ∈ Y -> g_copy g !! v = Some r ->
  exists hd, Hd_val (st_mem st) r = Ok hd /\ Scannable_wosize_hd native_code hd = scannable0 v /\
    Tag_hd hd = tag0 v.
Proof.
  intros I Hv E. destruct (i_copy _ _ I _ _ E) as (_ & _ & (c & Hc & Eh) & _).
  pose proof (wosize0_range v) as [W1 W2]. change Max_wosize with (2 ^ 46 - 1) in W2.
  pose proof (tag0_range v).
  destruct (header_of_fields (tag0 v) c (wosize0 v) (reserved0 v)) as (T & _ & Ew & Er); [lia|lia|lia|].
  eexists. split; [exact Eh|]. split; [|done].
  unfold scannable0, Scannable_wosize_hd, Scannable_wosize_hd_native. by rewrite Ew, Er.
Qed.

Section Mopup.
Context (fuel : nat).

Lemma mopup_field_ok g st v r i :
  Inv g st -> g_copy g !! v = Some r -> v ∉ g_todo g -> 1 <= i < nfields v ->
  (K + 2 * room g + 4 <= fuel)%nat ->
  ok_or_fatal (mopup_field ar native_code fuel v r i st) (fun st' =>
    exists g', Inv g' st' /\ after g g' /\ done_at g' (r + 8 * i)).
Proof.
  intros I E Nt Hi Hf. destruct (i_dom _ _ I _ _ E) as [Hv _]. pose proof (nfields_le v Hv).
  unfold mopup_field. rewrite (Field_copied g st v r i I E) by lia. cbn [rbind].
  fold (young_value (field0 v i)). pose proof (short_cost_le (field0 v i)).
  assert (Hp : place_at g (Fld v i) (r + 8 * i)) by (exists r; split_and!; done || lia).
  destruct (young_value (field0 v i)) eqn:Hy.
  - apply (oldify_one_ok fuel g st _ _ (Fld v i) I); [by apply (mh_fields W); [|lia]|done| |unfold need; lia].
    intros F' _ x. unfold accepts, scans. by destruct (Z.ltb_spec i (nfields v)); [|lia].
  - destruct (store_place g st I _ (field0 v i) (Fld v i) Hp) as (s & -> & I' & _).
    { unfold accepts, scans. destruct (Z.ltb_spec i (nfields v)); [|lia]. by apply promoted_same. }
    exists (finish g (r + 8 * i)). split; [done|]. split; [apply after_finish|apply done_finish].
Qed.

(** the fields after the environment of a closure, or after the first *)
Lemma mopup_fields_ok g st v r i :
  Inv g st -> g_copy g !! v = Some r -> v ∉ g_todo g -> 1 <= i -> (K + 2 * room g + 4 <= fuel)%nat ->
  ok_or_fatal (for_loop (Z.to_nat (nfields v - i)) i (mopup_field ar native_code fuel v r) st)
    (fun st' => exists g', Inv g' st' /\ after g g' /\
      (forall k, i <= k < nfields v -> done_at g' (r + 8 * k))).
Proof.
  intros I E Nt Hi Hf. eapply ok_or_mono.
  - apply (for_loop_ok_or _ (fun j st' => exists g', Inv g' st' /\ after g g' /\
      (forall k, i <= k < j -> done_at g' (r + 8 * k)))).
    + exists g. split; [done|]. split; [reflexivity|]. intros k Hk. lia.
    + intros j s Hj (g1 & I1 & A1 & D1). pose proof (room_after _ _ A1).
      eapply ok_or_mono.
      * apply (mopup_field_ok g1 s v r j I1); [|destruct A1 as [[_ [l T] _ _] N]; intros Q%N|lia|lia].
        { eapply lookup_weaken; [exact E|by apply af_copy]. }
        { destruct Q as [Q|Q]; [done|by rewrite E in Q]. }
      * cbv beta. intros s2 (g2 & I2 & A2 & D2). exists g2. split; [done|]. split; [by etrans|].
        intros k Hk. destruct (decide (k = j)) as [->|]; [done|].
        eapply after_done; [exact A2|]. apply D1. lia.
  - cbv beta. intros s (g' & I' & A' & D'). exists g'. split; [done|]. split; [done|].
    intros k Hk. apply D'. lia.
Qed.

(** the code pointers of a closure *)
Lemma mopup_closure_ok g st v r :
  Inv g st -> g_copy g !! v = Some r -> v ∉ g_todo g -> 1 < scannable0 v ->
  nfields v = scannable0 v ->
  exists i st', (if tag0 v =? Closure_tag then
       let* info := Closinfo_val (st_mem st) v in
       let* st := copy_fields r v 1 (Start_env_closinfo info) st in
       Ok (Z.max 1 (Start_env_closinfo info), st)
     else Ok (1, st)) = Ok (i, st') /\ 1 <= i /\
    exists g', Inv g' st' /\ after g g' /\ g_copy g' = g_copy g /\ g_todo g' = g_todo g /\
    (forall k, 1 <= k < i -> done_at g' (r + 8 * k)).
Proof.
  intros I E Nt H1 Hnf. destruct (i_dom _ _ I _ _ E) as [Hv _]. pose proof (mh_scannable W v Hv).
  destruct (Z.eqb_spec (tag0 v) Closure_tag) as [T|T].
  - unfold Closinfo_val. rewrite (Field_copied g st v r 1 I E) by lia. cbn [rbind].
    destruct (mh_closure W v Hv T H1) as [Hse Hcode].
    set (se := Start_env_closinfo (field0 v 1)) in *.
    destruct (copy_fields_ok g st v r 1 se I E Nt) as (s & -> & I' & _); [lia|done| |].
    { intros k Hk. unfold accepts, scans. destruct (Z.ltb_spec k (nfields v)); [|done].
      apply promoted_same. by apply Hcode. }
    exists (Z.max 1 se), s. cbn [rbind]. split; [done|]. split; [lia|].
    exists (finish_all g (field_addrs r 1 se)). split; [done|]. split; [apply after_finish_all|].
    split; [done|]. split; [done|]. intros k Hk.
    assert (r + 8 * k ∈ field_addrs r 1 se) by (apply elem_of_field_addrs; exists k; lia).
    split; cbn; set_solver.
  - exists 1, st. split; [done|]. split; [lia|]. exists g. split; [done|]. split; [reflexivity|].
    split; [done|]. split; [done|]. intros k Hk. lia.
Qed.

Lemma mopup_first_ok g st v r :
  Inv g st -> g_copy g !! v = Some r -> v ∉ g_todo g -> 0 < nfields v ->
  st_mem st !! r = Some (field0 v 0) -> (K + 2 * room g + 4 <= fuel)%nat ->
  ok_or_fatal (if Is_block (field0 v 0) && Is_young ar (field0 v 0)
               then oldify_one ar native_code fuel st (field0 v 0) r else Ok st)
    (fun st' => exists g', Inv g' st' /\ after g g' /\ done_at g' r).
Proof.
  intros I E Nt Hi Em Hf. destruct (i_dom _ _ I _ _ E) as [Hv _]. pose proof (nfields_le v Hv).
  fold (young_value (field0 v 0)). pose proof (short_cost_le (field0 v 0)).
  assert (Hp : place_at g (Fld v 0) r) by (exists r; split_and!; done || lia).
  destruct (young_value (field0 v 0)) eqn:Hy.
  - apply (oldify_one_ok fuel g st _ _ (Fld v 0) I); [by apply (mh_fields W); [|lia]|done| |unfold need; lia].
    intros F' _ x. unfold accepts, scans. by destruct (Z.ltb_spec 0 (nfields v)); [|lia].
  - exists (finish g r). split; [|split; [apply after_finish|apply done_finish]].
    eapply Inv_finish; [done|exact Hp|done|]. unfold accepts, scans.
    destruct (Z.ltb_spec 0 (nfields v)); [|lia]. by apply promoted_same.
Qed.

Lemma not_todo_after g g' v r : after g g' -> g_copy g !! v = Some r -> v ∉ g_todo g -> v ∉ g_todo g'.
Proof. intros [_ N] E Nt [Q|Q]%N; [done|by rewrite E in Q]. Qed.

(** one block of the list *)
Lemma mopup_block_ok g st v l :
  Inv g st -> g_todo g = v :: l -> (K + 2 * room g + 4 <= fuel)%nat ->
  ok_or_fatal (mopup_block ar native_code fuel st) (fun st' => exists g', Inv g' st' /\
    after (Ghost (g_copy g) l (g_untouched g) (g_pending g)) g').
Proof.
  intros I El Hf. destruct (pop_todo g st v l I El) as (r & next & Ev & Hv & E & T & E0 & En & Nl & I1).
  set (g1 := popped g v r l) in *. destruct T as (H1 & Ti & Tc & Em & _).
  pose proof (nfields_scannable v Hv Ti Tc) as Hnf.
  unfold mopup_block. rewrite Ev.
  rewrite (proj2 (Field_Ok _ v 0 r)) by (by rewrite Z.add_0_r). cbn [rbind].
  rewrite (proj2 (Field_Ok _ r 1 next)) by done. cbn [rbind].
  destruct (copy_header g1 _ v r I1 Hv E) as (hd & -> & Esc & Et). cbn [rbind].
  rewrite (proj2 (Field_Ok _ r 0 (field0 v 0))) by (by rewrite Z.add_0_r). cbn [rbind].
  eapply ok_or_bind; [apply (mopup_first_ok g1 _ v r I1 E); [done|lia|done|exact Hf]|].
  cbv beta. intros s2 (g2 & I2 & A2 & D2). pose proof (room_after _ _ A2).
  assert (E2 : g_copy g2 !! v = Some r) by (eapply lookup_weaken; [exact E|by apply (af_copy _ _ A2)]).
  pose proof (not_todo_after _ _ _ _ A2 E Nl) as N2.
  rewrite (copy_tag g2 s2 I2 v r Hv E2). cbn [rbind].
  destruct (mopup_closure_ok g2 s2 v r I2 E2 N2 H1 Hnf) as (i & s3 & -> & Hi & g3 & I3 & A3 & C3 & T3 & D3).
  cbn [rbind]. pose proof (room_after _ _ A3). rewrite Esc, <- Hnf.
  eapply ok_or_mono.
  { apply (mopup_fields_ok g3 s3 v r i I3); [by rewrite C3|by rewrite T3|done|].
    change (room g1) with (room g) in *. lia. }
  cbv beta. intros s4 (g4 & I4 & A4 & D4). exists g4. split; [done|].
  assert (A : after g1 g4) by (etrans; [exact A2|by etrans]).
  destruct A as [[C Td U P] N]. split; [split; [exact C|exact Td|exact U|]|exact N].
  intros a Ha. pose proof (P a Ha) as Hb. apply elem_of_union in Hb as [Hb|Hb]; [done|]. exfalso.
  apply elem_of_field_addrs in Hb as (k & Hk & ->).
  assert (Dk : done_at g4 (r + 8 * k)); [|destruct Dk as [Nk _]; by apply Nk].
  destruct (decide (k = 0)) as [->|].
  { rewrite Z.mul_0_r, Z.add_0_r. eapply after_done; [|exact D2]. by etrans. }
  destruct (Z.lt_ge_cases k i); [eapply after_done; [exact A4|apply D3; lia]|apply D4; lia].
Qed.
End Mopup.

(** the effect of a phase that leaves nothing to do *)
Record reaches (g g' : ghost) : Prop := {
  re_copy : g_copy g ⊆ g_copy g';
  re_untouched : g_untouched g' ⊆ g_untouched g;
  re_pending : g_pending g' ⊆ g_pending g
}.

#[local] Instance reaches_preorder : PreOrder reaches.
Proof.
  split; [done|]. intros g1 g2 g3 [C1 U1 P1] [C2 U2 P2].
  split; [by etrans|set_solver|set_solver].
Qed.

Lemma after_reaches g g' : after g g' -> reaches g g'.
Proof. intros [[C _ U P] _]. done. Qed.

Lemma reaches_done g g' p : reaches g g' -> done_at g p -> done_at g' p.
Proof. intros [_ U P] [N1 N2]. split; set_solver. Qed.

Lemma reaches_room g g' : reaches g g' -> (room g' <= room g)%nat.
Proof.
  intros A. unfold room. apply subseteq_size.
  pose proof (subseteq_dom (D := gset Z) _ _ (re_copy _ _ A)). set_solver.
Qed.

Lemma room_le g : (room g <= size Y)%nat.
Proof. unfold room. apply subseteq_size. set_solver. Qed.

(** the blocks whose copies are not complete *)
Definition unprocessed (g : ghost) : nat := size (Y ∖ (dom (g_copy g) ∖ list_to_set (g_todo g))).

Lemma unprocessed_le g : (unprocessed g <= size Y)%nat.
Proof. unfold unprocessed. apply subseteq_size. set_solver. Qed.

Lemma unprocessed_next g g' st v l : Inv g st -> g_todo g = v :: l ->
  after (Ghost (g_copy g) l (g_untouched g) (g_pending g)) g' -> (unprocessed g' < unprocessed g)%nat.
Proof.
  intros I El A. destruct (pop_todo g st v l I El) as (r & _ & _ & Hv & E & _ & _ & _ & Nl & _).
  pose proof (subseteq_dom (D := gset Z) _ _ (af_copy _ _ A)) as HD. cbn in HD.
  assert (Hnew : forall w, w ∈ dom (g_copy g) -> w ∉ l -> w ∉ g_todo g').
  { intros w Hw Nw Hw'. destruct (af_new _ _ A w Hw') as [Q|Q]; cbn in Q; [done|].
    by apply not_elem_of_dom in Q. }
  assert (Hvd : v ∈ dom (g_copy g)) by (by apply elem_of_dom; exists r).
  pose proof (Hnew v Hvd Nl) as Nv. unfold unprocessed. apply subset_size. rewrite El. split.
  - intros w. rewrite !elem_of_difference, !elem_of_list_to_set, elem_of_cons. intros [Hw N]. split; [done|].
    intros [Hd Nt]. apply N. split; [by apply HD|]. apply Hnew; [done|]. tauto.
  - intros Hsub. specialize (Hsub v). rewrite !elem_of_difference, !elem_of_list_to_set, elem_of_cons in Hsub.
    destruct Hsub as [_ Hsub]; [split; [done|]; intros [_ Q]; by apply Q; left|].
    apply Hsub. split; [by apply HD|done].
Qed.

Lemma todo_zero g st : Inv g st -> todo_list st = 0 <-> g_todo g = [].
Proof.
  intros I. pose proof (i_chain _ _ I) as C. destruct (g_todo g) as [|v l] eqn:El; cbn in C; [done|].
  destruct C as [Ev _]. split; [|done]. intros Z0. exfalso.
  destruct (i_todo _ _ I v) as (r & E & _); [rewrite El; by left|].
  destruct (i_dom _ _ I _ _ E) as [Hv _]. destruct (mh_area W v Hv) as (_ & Hs & _).
  pose proof (mh_start W). lia.
Qed.

Definition slots_ready (g : ghost) (ps : list Z) : Prop :=
  Forall (fun a => a ∈ S /\ a ∉ g_untouched g) ps.

Lemma slots_ready_reaches g g' ps : reaches g g' -> slots_ready g ps -> slots_ready g' ps.
Proof.
  intros R F. eapply Forall_impl; [exact F|]. intros a [Ha Hu]. split; [done|]. pose proof (re_untouched _ _ R). set_solver.
Qed.

Lemma Forall_done_reaches g g' ps : reaches g g' -> Forall (done_at g) ps -> Forall (done_at g') ps.
Proof. intros R F. eapply Forall_impl; [exact F|]. intros a. by apply reaches_done. Qed.

Section Phases.
Context (fuel : nat) (Hfuel : (K + 2 * size Y + 4 <= fuel)%nat).

Lemma fuel_room g : (K + 2 * room g + 4 <= fuel)%nat.
Proof. pose proof (room_le g). lia. Qed.

Lemma mopup_loop_ok n : forall g st, Inv g st -> (unprocessed g < n)%nat ->
  ok_or_fatal (while_loop n (fun st => negb (todo_list st =? 0)) (mopup_block ar native_code fuel) st)
    (fun st' => exists g', Inv g' st' /\ reaches g g' /\ g_todo g' = []).
Proof.
  induction n as [|n IHn]; intros g st I Hn; [lia|]. cbn [while_loop].
  destruct (Z.eqb_spec (todo_list st) 0) as [E|E]; cbn [negb].
  - exists g. split; [done|]. split; [reflexivity|]. by eapply todo_zero.
  - destruct (g_todo g) as [|v l] eqn:El; [by destruct E; eapply todo_zero|].
    eapply ok_or_bind; [apply (mopup_block_ok fuel g st v l I El), fuel_room|].
    cbv beta. intros s (g1 & I1 & A1). pose proof (unprocessed_next g g1 st v l I El A1).
    eapply ok_or_mono; [apply (IHn g1 s I1); lia|].
    cbv beta. intros s2 (g2 & I2 & R2 & T2). exists g2. split; [done|]. split; [|done].
    etrans; [|exact R2]. destruct A1 as [[C _ U P] _]. done.
Qed.

Lemma mopup_todo_ok g st : Inv g st ->
  ok_or_fatal (mopup_todo ar native_code fuel st)
    (fun st' => exists g', Inv g' st' /\ reaches g g' /\ g_todo g' = []).
Proof. intros I. apply mopup_loop_ok; [done|]. pose proof (unprocessed_le g). lia. Qed.

(** a slot that is done holds no value of the minor heap *)
Lemma done_slot g st p : Inv g st -> p ∈ S -> done_at g p ->
  exists x, st_mem st !! p = Some x /\ promoted (g_copy g) (word m0 p) x /\ young_value x = false.
Proof.
  intros I Hp [D1 D2]. destruct (i_places _ _ I (Slot p) p) as (x & E & A); [done..|].
  exists x. split; [done|]. split; [exact A|]. exact (promoted_old g st _ x I A).
Qed.

Lemma oldify_roots_ok rs g st : Inv g st -> Forall (fun a => a ∈ S) rs ->
  Forall (fun a => a ∉ g_untouched g) rs ->
  ok_or_fatal (oldify_roots ar native_code fuel rs st) (fun st' =>
    exists g', Inv g' st' /\ reaches g g' /\ Forall (done_at g') rs).
Proof.
  intros I Hs Hu. eapply ok_or_mono.
  - apply (oldify_slots_ok fuel (oldify_one_ok fuel) rs g st I Hs Hu), fuel_room.
  - cbv beta. intros s (g' & I' & A & D). exists g'. split; [done|]. split; [by apply after_reaches|done].
Qed.

Section Ephemerons.
Context (none : Z) (Hnone : young_value none = false).

(** the offset of a value in its block, as the header of the value tells *)
Lemma ephe_offset g st v w : Inv g st -> block_of v w ->
  (let* tag := Tag_val (st_mem st) v in
   if tag =? Infix_tag then Infix_offset_val (st_mem st) v else Ok 0) = Ok (v - w).
Proof.
  intros I [[Hv ->] | HI].
  - rewrite Z.sub_diag. destruct (g_copy g !! v) as [r|] eqn:E.
    + destruct (i_copied _ _ I _ _ E) as (E1 & _). unfold Tag_val, Hd_val, rmap.
      rewrite (proj2 (load_Ok _ _ _) E1). done.
    + rewrite (Tag_val_same _ v (header_not_copied g st I v Hv E) (header_mapped v Hv)). cbn [rbind].
      destruct (Z.eqb_spec (tag0 v) Infix_tag) as [T|]; [by destruct (mh_tag W v Hv)|done].
  - destruct (header_infix g st I v w HI) as (E & M & _). destruct HI as (_ & _ & _ & _ & _ & T & Off).
    rewrite (Tag_val_same _ v E M). cbn [rbind]. unfold tag0. rewrite T. cbn.
    unfold Infix_offset_val, rmap. rewrite Hd_val_word by (by rewrite E). cbn [rbind].
    unfold word. rewrite E. fold (word m0 (v - 8)). fold (hd0 v). by rewrite Off.
Qed.

Lemma mopup_ephe_ok g st re b : Inv g st -> ephe_slot re ∈ S -> ephe_slot re ∉ g_untouched g ->
  ok_or_fatal (mopup_ephe ar native_code none fuel re (st, b)) (fun '(st', b') =>
    exists g', Inv g' st' /\ reaches g g' /\ done_at g' (ephe_slot re) /\
      (done_at g (ephe_slot re) -> b' = b) /\ (b' = false -> b = false /\ g_todo g' = g_todo g)).
Proof.
  intros I Hs Hu. unfold mopup_ephe. set (p := ephe_slot re) in *.
  assert (Hm : is_Some (st_mem st !! p)) by (by eapply place_slot_mapped).
  rewrite load_word by done. cbn [rbind]. set (v := word (st_mem st) p).
  assert (Ec : negb (v =? none) && Is_block v && Is_young ar v = young_value v).
  { rewrite <- andb_assoc. fold (young_value v). destruct (Z.eqb_spec v none) as [->|]; [by rewrite Hnone|done]. }
  rewrite Ec. destruct (young_value v) eqn:Hy.
  - assert (D : p ∈ g_pending g).
    { destruct (decide (p ∈ g_pending g)) as [|N]; [done|].
      destruct (done_slot g st p I Hs (conj N Hu)) as (x & E & _ & Hx). unfold v in Hy.
      rewrite (word_Some _ _ _ E) in Hy. congruence. }
    assert (Ev : v = word m0 p) by (unfold v, word; by rewrite (i_slots _ _ I p Hs (or_introl D))).
    assert (Hok : ok_value v) by (rewrite Ev; by apply (mh_slots W)).
    assert (Hl : lifts (g_copy g) (Slot p) v) by (rewrite Ev; by intros F' _ x).
    destruct (block_of_ok v Hok Hy) as [w HB]. pose proof (block_of_Y v w HB) as Hw.
    pose proof (mh_size W w Hw) as Hwz. destruct (header0_of w (or_intror Hwz)) as [N1 N2].
    pose proof (ephe_offset g st v w I HB) as Eo.
    apply rbind_Ok in Eo as (tag & -> & Eo). cbn [rbind]. rewrite Eo. cbn [rbind].
    replace (v - (v - w)) with w by lia. destruct (g_copy g !! w) as [r|] eqn:E.
    + rewrite (get_header_copied g st I w r E). cbn [rbind Z.eqb].
      destruct (i_copied _ _ I _ _ E) as (_ & E0 & _).
      rewrite (proj2 (Field_Ok _ w 0 r)) by (by rewrite Z.add_0_r). cbn [rbind].
      destruct (store_place g st I p (r + (v - w)) (Slot p) (conj eq_refl Hs)) as (s & -> & I' & _).
      { apply Hl; [done|]. by apply block_of_promoted. }
      exists (finish g p). split; [done|]. split; [apply after_reaches, after_finish|].
      split; [apply done_finish|]. split; [done|]. done.
    + rewrite (get_header_same _ w (header_not_copied g st I w Hw E) (header_mapped w Hw) N2). cbn [rbind].
      destruct (Z.eqb_spec (hd0 w) 0); [done|].
      pose proof (short_cost_le v). pose proof (fuel_room g).
      eapply ok_or_bind.
      { apply (oldify_one_ok fuel g st v p (Slot p) I Hok (conj eq_refl Hs) Hl). unfold need. lia. }
      cbv beta. intros s (g' & I' & A & Dp). exists g'. split; [done|]. split; [by apply after_reaches|].
      split; [done|]. split; [|done]. intros [Np _]. done.
  - exists (finish g p). split; [|split; [apply after_reaches, after_finish|split; [apply done_finish|split; done]]].
    destruct Hm as [x E]. assert (Ex : v = x) by (unfold v; by apply word_Some).
    apply (Inv_finish g st p x (Slot p) I (conj eq_refl Hs) E).
    destruct (decide (p ∈ g_pending g)) as [D|D].
    + unfold accepts, source, scans. rewrite (i_slots _ _ I p Hs (or_introl D)) in E.
      rewrite (word_Some _ _ _ E), <- Ex. by apply promoted_same.
    + destruct (i_places _ _ I (Slot p) p) as (x' & E' & A); [done..|]. congruence.
Qed.

Lemma mopup_ephes_ok res : forall g st b, Inv g st -> slots_ready g (ephe_slot <$> res) ->
  ok_or_fatal (mopup_ephes ar native_code none fuel res (st, b)) (fun '(st', b') =>
    exists g', Inv g' st' /\ reaches g g' /\ Forall (done_at g') (ephe_slot <$> res) /\
      (Forall (done_at g) (ephe_slot <$> res) -> b' = b) /\
      (b' = false -> b = false /\ g_todo g' = g_todo g)).
Proof.
  induction res as [|re res IHr]; intros g st b I Hs; cbn [mopup_ephes].
  - exists g. split; [done|]. split; [reflexivity|]. split; [constructor|]. split; [done|]. by intros ->.
  - apply Forall_cons in Hs as [[Hp Hu] Hs].
    eapply ok_or_bind; [by apply (mopup_ephe_ok g st re b I)|].
    intros (s, b1) (g1 & I1 & R1 & D1 & B1 & T1).
    eapply ok_or_mono; [by apply (IHr g1 s b1 I1); eapply slots_ready_reaches|].
    intros (s2, b2) (g2 & I2 & R2 & D2 & B2 & T2). exists g2. split; [done|]. split; [by etrans|].
    split; [|split].
    + constructor; [by eapply reaches_done|done].
    + intros [Da Db]%Forall_cons. rewrite B2 by (by eapply Forall_done_reaches). by apply B1.
    + intros Hb. destruct (T2 Hb) as [Hb1 E2]. destruct (T1 Hb1) as [Hb2 E1]. split; [done|]. by rewrite E2.
Qed.

Definition mopup_result (res : list caml_ephe_ref_elt) (eph : bool) (g g' : ghost) : Prop :=
  reaches g g' /\ g_todo g' = [] /\ (eph = true -> Forall (done_at g') (ephe_slot <$> res)).

(** one turn; there is another one only when an ephemeron was not done *)
Lemma mopup_turn_ok res (eph : bool) g st : Inv g st -> slots_ready g (ephe_slot <$> res) ->
  ok_or_fatal
    (let* st := mopup_todo ar native_code fuel st in
     if eph then mopup_ephes ar native_code none fuel res (st, false) else Ok (st, false))
    (fun '(st', redo) => exists g', Inv g' st' /\ reaches g g' /\
      (eph = true -> Forall (done_at g') (ephe_slot <$> res)) /\
      ((eph = true -> Forall (done_at g) (ephe_slot <$> res)) -> redo = false) /\
      (redo = false -> g_todo g' = [])).
Proof.
  intros I Hs. eapply ok_or_bind; [by apply (mopup_todo_ok g)|]. cbv beta. intros s (g1 & I1 & R1 & T1).
  destruct eph.
  - eapply ok_or_mono; [by apply (mopup_ephes_ok res g1 s false I1); eapply slots_ready_reaches|].
    intros (s2, b2) (g2 & I2 & R2 & D2 & B2 & T2). exists g2. split; [done|]. split; [by etrans|].
    split; [done|]. split.
    + intros D. apply B2. eapply Forall_done_reaches; [exact R1|by apply D].
    + intros Hb. destruct (T2 Hb) as [_ ->]. done.
  - exists g1. done.
Qed.


Lemma mopup_ok res (eph : bool) g st : Inv g st -> slots_ready g (ephe_slot <$> res) ->
  ok_or_fatal (oldify_mopup ar native_code none fuel res eph st)
    (fun st' => exists g', Inv g' st' /\ mopup_result res eph g g').
Proof.
  intros I Hs. unfold oldify_mopup.
  assert (Step : forall n g st, Inv g st -> slots_ready g (ephe_slot <$> res) ->
    (forall g2 st2, Inv g2 st2 -> reaches g g2 -> (eph = true -> Forall (done_at g2) (ephe_slot <$> res)) ->
      ~ (eph = true -> Forall (done_at g) (ephe_slot <$> res)) ->
      ok_or_fatal (mopup_again ar native_code none n fuel res eph st2)
        (fun st' => exists g', Inv g' st' /\ mopup_result res eph g g')) ->
    ok_or_fatal (mopup_again ar native_code none (Datatypes.S n) fuel res eph st)
      (fun st' => exists g', Inv g' st' /\ mopup_result res eph g g')).
  { clear g st I Hs. intros n g st I Hs Hnext. cbn [mopup_again].
    pose proof (mopup_turn_ok res eph g st I Hs) as Q.
    destruct (mopup_todo ar native_code fuel st) as [s1|e| |] eqn:E1; cbn [rbind] in *; try done.
    destruct (if eph then _ else _) as [(s2, redo)|e| |] eqn:E2; cbn [rbind] in *; try done.
    destruct Q as (g2 & I2 & R2 & D2 & B2 & T2). destruct redo.
    - apply (Hnext g2 s2 I2 R2 D2). intros D. discriminate (B2 D).
    - exists g2. split; [done|]. split; [done|]. split; [by apply T2|done]. }
  apply Step; [done|done|]. intros g2 s2 I2 R2 D2 _.
  eapply ok_or_mono.
  - apply Step; [done|by eapply slots_ready_reaches|]. intros g3 s3 _ _ _ N. by destruct N.
  - cbv beta. intros s3 (g3 & I3 & R3 & T3 & D3). exists g3. split; [done|]. split; [by etrans|done].
Qed.

End Ephemerons.

(** local roots *)
Lemma local_root_ok g st p : Inv g st -> p ∈ S -> p ∉ g_untouched g ->
  ok_or_fatal (local_root st_mem (oldify_one ar native_code fuel) p st) (fun st' =>
    exists g', Inv g' st' /\ reaches g g' /\ done_at g' p).
Proof.
  intros I Hp Hu. unfold local_root. pose proof (place_slot_mapped g st I p Hp) as Hm.
  rewrite load_word by done. cbn [rbind]. destruct (Z.eqb_spec (word (st_mem st) p) 0) as [E0|N0]; cbn [negb].
  - exists (finish g p). split; [|split; [apply after_reaches, after_finish|apply done_finish]].
    destruct Hm as [x E]. rewrite (word_Some _ _ _ E) in E0. subst x.
    apply (Inv_finish g st p 0 (Slot p) I (conj eq_refl Hp) E).
    destruct (decide (p ∈ g_pending g)) as [D|D].
    + unfold accepts, source, scans. rewrite (i_slots _ _ I p Hp (or_introl D)) in E.
      rewrite (word_Some _ _ _ E). apply promoted_same. unfold young_value, Is_young.
      pose proof (mh_start W). destruct (Z.ltb_spec (minor_heaps_start ar) 0); [lia|].
      by rewrite !andb_false_r.
    + destruct (i_places _ _ I (Slot p) p) as (x' & E' & A); [done..|]. congruence.
  - pose proof (fuel_room g).
    pose proof (scan_slot_ok fuel (oldify_one_ok fuel) g st p I Hp Hu ltac:(lia)) as Q.
    unfold scan_slot in Q. rewrite load_word in Q by done. cbn in Q.
    eapply ok_or_mono; [exact Q|]. cbv beta. intros s (g' & I' & A & D).
    exists g'. split; [done|]. split; [by apply after_reaches|done].
Qed.

Lemma oldify_local_roots_ok g st lrs stack slots reads : Inv g st -> roots_blocks_ok lrs ->
  stack_slots K m0 stack = Ok (slots, reads) -> Forall frozen reads ->
  slots_ready g ((lrs ≫= roots_block_slots) ++ slots) ->
  ok_or_fatal (caml_do_local_roots st_mem (oldify_one ar native_code fuel) true (fun _ => false) fuel lrs stack st)
    (all_done Inv reaches done_at g ((lrs ≫= roots_block_slots) ++ slots)).
Proof.
  intros I Hok Es Hr Hs.
  eapply (do_local_roots_ok _ _ _ _ _ m0 Inv reaches (fun g a => a ∈ S /\ a ∉ g_untouched g) done_at frozen);
    [| | | | |exact I|exact Hok|exact Es| |exact Hr|exact Hs].
  - intros g1 g2 p R1 [Hp Nu]. split; [done|]. pose proof (re_untouched _ _ R1). set_solver.
  - intros g1 g2 p. by apply reaches_done.
  - intros g1 s1 a I1. by apply (i_frame _ _ I1).
  - intros g1 s1 p I1 [Hp Nu]. eapply ok_or_mono; [by apply (local_root_ok g1)|]. cbv beta.
    intros s2 (g2 & I2 & R2 & D2). exists g2. split; [done|]. split; [done|]. by constructor.
  - intros g1 s1 p I1 [Hp Nu]. pose proof (fuel_room g1).
    eapply ok_or_mono; [apply (scan_slot_ok fuel (oldify_one_ok fuel) g1); [done..|lia]|]. cbv beta.
    intros s2 (g2 & I2 & A2 & D2). exists g2. split; [done|]. split; [by apply after_reaches|]. by constructor.
  - pose proof (fuel_room g). lia.
Qed.

End Phases.

(** ** The collection *)

Definition root_slots (global_roots : list Z) (d : domain) (stack : list Z) : list Z :=
  global_roots ++ d_major_ref d ++ final_slots true (d_final_first d) ++
  final_slots false (d_final_last d) ++ d_memprof_roots d ++ (ephe_slot <$> d_ephe_ref d) ++
  ((d_local_roots d ≫= roots_block_slots) ++ stack) ++ d_hook_roots d.

(** the memory [m] holds the collected heap: the blocks were copied as [F] says *)
Record collected (roots : list Z) (F : gmap Z Z) (m : mem) : Prop := {
  co_copied : forall v r, F !! v = Some r -> v ∈ Y /\
    (exists color, Hd_val m r = Ok (header_of (tag0 v) color (wosize0 v) (reserved0 v))) /\
    (forall i, -1 <= i < wosize0 v -> sh_owns h0 (r + 8 * i));
  co_disjoint : forall v r w s, F !! v = Some r -> F !! w = Some s -> v <> w -> disjoint_blocks v r w s;
  co_roots : forall a, a ∈ roots ->
    exists x, m !! a = Some x /\ promoted F (word m0 a) x /\ young_value x = false;
  co_values : forall v r i, F !! v = Some r -> 0 <= i < nfields v ->
    exists x, Field m r i = Ok x /\ promoted F (field0 v i) x /\ young_value x = false;
  co_raw : forall v r i, F !! v = Some r -> nfields v <= i < wosize0 v ->
    Field m r i = Ok (field0 v i);
  co_stacks : forall v r slots a, F !! v = Some r -> tag0 v = Cont_tag -> cont_slots v slots ->
    a ∈ slots -> exists x, m !! a = Some x /\ promoted F (word m0 a) x /\ young_value x = false;
  co_frame : forall a, frozen a -> m !! a = m0 !! a
}.

Definition start_ghost (roots : list Z) : ghost :=
  Ghost ∅ [] (S ∖ list_to_set roots) (list_to_set roots).

Lemma start_Inv roots aw : Forall (fun a => a ∈ S) roots -> sh_ok h0 m0 ->
  Inv (start_ghost roots) (Oldify 0 0 aw h0 m0).
Proof.
  intros Hs Hok. rewrite Forall_forall in Hs. split; cbn; try done.
  - intros [b|v i] a; cbn.
    + intros [-> Ha] Np Nu. set_solver.
    + by intros (r & E & _).
  - intros v Hv. by apply elem_of_nil in Hv.
  - constructor.
  - set_solver.
Qed.

Lemma collected_Inv roots g st : Inv g st -> g_todo g = [] -> g_pending g ⊆ list_to_set roots ->
  Forall (fun a => a ∈ S) roots -> Forall (done_at g) roots -> collected roots (g_copy g) (st_mem st).
Proof.
  intros I T P Hs D. rewrite Forall_forall in Hs, D.
  assert (Np : forall a, a ∉ g_pending g).
  { intros a Ha. pose proof (P a Ha) as Hr. apply elem_of_list_to_set in Hr. by destruct (D a Hr). }
  assert (HF : forall v r i, g_copy g !! v = Some r -> 0 <= i < wosize0 v ->
    exists x, Field (st_mem st) r i = Ok x /\ accepts (g_copy g) (Fld v i) x).
  { intros v r i E Hi. destruct (i_places _ _ I (Fld v i) (r + 8 * i)) as (x & Ex & A).
    - exists r. rewrite T. split_and!; [done|apply not_elem_of_nil|lia|lia|done].
    - apply Np.
    - intros Q%(i_untouched _ _ I). revert Q. eapply copy_word_not_slot; [done|done|lia].
    - exists x. split; [by apply Field_Ok|done]. }
  split.
  - intros v r E. destruct (i_dom _ _ I _ _ E) as [Hv _].
    destruct (i_copy _ _ I _ _ E) as (_ & _ & (c & _ & Eh) & Hw).
    split; [done|]. split; [by exists c|]. intros i Hi. by apply Hw.
  - apply (i_disjoint _ _ I).
  - intros a Ha. apply (done_slot g st a I); [by apply Hs|by apply D].
  - intros v r i E Hi. destruct (i_dom _ _ I _ _ E) as [Hv _]. pose proof (nfields_le v Hv).
    destruct (HF v r i E) as (x & Ex & A); [lia|]. unfold accepts, scans in A.
    destruct (Z.ltb_spec i (nfields v)); [|lia]. exists x. split; [done|]. split; [done|].
    exact (promoted_old g st _ x I A).
  - intros v r i E Hi. destruct (i_dom _ _ I _ _ E) as [Hv _]. pose proof (nfields_le v Hv).
    destruct (HF v r i E) as (x & Ex & A); [lia|]. unfold accepts, scans in A.
    destruct (Z.ltb_spec i (nfields v)); [lia|]. by rewrite Ex, A.
  - intros v r slots a E Tc C Ha. pose proof (i_cont _ _ I _ _ _ E Tc C) as Hu.
    rewrite Forall_forall in Hu. destruct C as (_ & _ & HS & _). rewrite Forall_forall in HS.
    apply (done_slot g st a I); [by apply HS|]. split; [apply Np|by apply Hu].
  - apply (i_frame _ _ I).
Qed.

(** the phases in sequence, from the start of a collection *)
Section Sequence.
Context (fuel : nat) (Hfuel : (K + 2 * size Y + 4 <= fuel)%nat).
Context (roots : list Z) (HS : Forall (fun a => a ∈ S) roots).

Definition phase (ps : list Z) (f : oldify_state Heap -> result (oldify_state Heap)) : Prop :=
  forall g st, Inv g st -> reaches (start_ghost roots) g ->
  ok_or_fatal (f st) (fun st' => exists g', Inv g' st' /\ reaches g g' /\ Forall (done_at g') ps).

Lemma start_ready ps g : ps ⊆ roots -> reaches (start_ghost roots) g -> slots_ready g ps.
Proof.
  intros Hps R. apply (slots_ready_reaches _ _ _ R). apply Forall_forall. intros a Ha.
  rewrite Forall_forall in HS. split; [by apply HS, Hps|]. cbn. apply Hps in Ha. set_solver.
Qed.

Lemma phase_roots ps : ps ⊆ roots -> phase ps (oldify_roots ar native_code fuel ps).
Proof.
  intros Hps g st I R. pose proof (start_ready ps g Hps R) as Q.
  apply oldify_roots_ok; [done|done| |]; (eapply Forall_impl; [exact Q|by intros a [? ?]]).
Qed.

Lemma phase_bind ps qs f k : phase ps f -> phase qs k ->
  phase (ps ++ qs) (fun st => let* st := f st in k st).
Proof.
  intros Hf Hk g st I R. eapply ok_or_bind; [by apply (Hf g)|]. cbv beta.
  intros s1 (g1 & I1 & R1 & D1). eapply ok_or_mono; [apply (Hk g1 s1 I1); by etrans|].
  cbv beta. intros s2 (g2 & I2 & R2 & D2). exists g2. split; [done|]. split; [by etrans|].
  apply Forall_app. split; [by eapply Forall_done_reaches|done].
Qed.

(** a phase, then the rest of the run, which knows what is done so far *)
Lemma phase_then ps qs f B (k : oldify_state Heap -> result B) Q g st :
  phase qs f -> Inv g st -> reaches (start_ghost roots) g -> Forall (done_at g) ps ->
  (forall g' st', Inv g' st' -> reaches (start_ghost roots) g' -> Forall (done_at g') (ps ++ qs) ->
     ok_or_fatal (k st') Q) ->
  ok_or_fatal (let* st := f st in k st) Q.
Proof.
  intros Hf I R D Hk. eapply ok_or_bind; [by apply (Hf g)|]. cbv beta.
  intros s1 (g1 & I1 & R1 & D1). apply (Hk g1 s1 I1); [by etrans|].
  apply Forall_app. split; [by eapply Forall_done_reaches|done].
Qed.

Lemma phase_mopup none res : young_value none = false -> ephe_slot <$> res ⊆ roots ->
  phase (ephe_slot <$> res) (oldify_mopup ar native_code none fuel res true).
Proof.
  intros Hn Hres g st I R. eapply ok_or_mono; [by apply (mopup_ok fuel Hfuel none Hn res true g st I), start_ready|].
  cbv beta. intros s (g' & I' & R' & T & D). exists g'. split; [done|]. split; [done|by apply D].
Qed.

Lemma phase_local lrs stack slots reads : roots_blocks_ok lrs ->
  stack_slots K m0 stack = Ok (slots, reads) -> Forall frozen reads ->
  (lrs ≫= roots_block_slots) ++ slots ⊆ roots ->
  phase ((lrs ≫= roots_block_slots) ++ slots) (caml_do_local_roots st_mem (oldify_one ar native_code fuel) true (fun _ => false) fuel lrs stack).
Proof.
  intros Hl Es Hr Hsub g st I R. by eapply (oldify_local_roots_ok fuel Hfuel g st); [..|apply start_ready].
Qed.
End Sequence.

Lemma minor_collection_ok none fuel global_roots d stack reads :
  young_value none = false -> sh_ok h0 m0 -> (K + 2 * size Y + 4 <= fuel)%nat ->
  roots_blocks_ok (d_local_roots d) ->
  stack_slots K m0 (d_current_stack d) = Ok (stack, reads) -> Forall frozen reads ->
  Forall (fun a => a ∈ S) (root_slots global_roots d stack) ->
  ok_or_fatal (caml_empty_minor_heap_promote ar native_code none fuel global_roots d h0 m0)
    (fun '(d', st') => d_young_ptr d' = d_young_end d /\ todo_list st' = 0 /\
       exists F, collected (root_slots global_roots d stack) F (st_mem st')).
Proof.
  intros Hnone Hok Hfuel Hlr Es Hr HS.
  pose proof (fun ps => phase_roots fuel Hfuel _ HS ps) as PR.
  unfold caml_empty_minor_heap_promote, caml_final_do_young_roots. cbv zeta.
  eapply (phase_then _ [] _ _ _ _ _ _ _ (PR global_roots ltac:(unfold root_slots; set_solver))
    (start_Inv _ (d_allocated_words d) HS Hok)); [reflexivity|constructor|].
  intros g1 s1 I1 R1 D1. eapply (phase_then _ _ _ _ _ _ _ _ _ (PR (d_major_ref d) ltac:(unfold root_slots; set_solver)) I1 R1 D1).
  intros g2 s2 I2 R2 D2. eapply (phase_then _ _ _ _ _ _ _ _ _ (phase_bind _ _ _ _ _
    (PR (final_slots true (d_final_first d)) ltac:(unfold root_slots; set_solver))
    (PR (final_slots false (d_final_last d)) ltac:(unfold root_slots; set_solver))) I2 R2 D2).
  intros g3 s3 I3 R3 D3. eapply (phase_then _ _ _ _ _ _ _ _ _ (PR (d_memprof_roots d) ltac:(unfold root_slots; set_solver)) I3 R3 D3).
  intros g4 s4 I4 R4 D4. eapply (phase_then _ _ _ _ _ _ _ _ _
    (phase_mopup fuel Hfuel _ HS none (d_ephe_ref d) Hnone ltac:(unfold root_slots; set_solver)) I4 R4 D4).
  intros g5 s5 I5 R5 D5. eapply (phase_then _ _ _ _ _ _ _ _ _
    (phase_local fuel Hfuel _ HS _ _ _ _ Hlr Es Hr ltac:(unfold root_slots; set_solver)) I5 R5 D5).
  intros g6 s6 I6 R6 D6. eapply (phase_then _ _ _ _ _ _ _ _ _ (PR (d_hook_roots d) ltac:(unfold root_slots; set_solver)) I6 R6 D6).
  intros g7 s7 I7 R7 D7. eapply ok_or_bind.
  { apply (mopup_ok fuel Hfuel none Hnone (d_ephe_ref d) false g7 s7 I7).
    apply (start_ready fuel Hfuel _ HS); [unfold root_slots; set_solver|done]. }
  cbv beta. intros s9 (g9 & I9 & R9 & T9 & _). cbn.
  split; [done|]. split; [by eapply todo_zero|]. exists (g_copy g9).
  apply (collected_Inv _ g9 s9 I9 T9); [|done|].
  - assert (Q : reaches (start_ghost (root_slots global_roots d stack)) g9) by (by etrans).
    apply (re_pending _ _ Q).
  - eapply Forall_done_reaches; [exact R9|]. revert D7. unfold root_slots. by rewrite !app_nil_l, <- !app_assoc.
Qed.
End Promotion.

(** ** A shared heap that allocates the next words *)

Definition next_alloc (next : Z) (m : mem) (wosize tag reserved : Z) : option (Z * Z * mem) :=
  let '(v, h) := alloc (Heap m next) tag reserved (replicate (Z.to_nat wosize) 0) in
  Some (next, h_next h, h_mem h).

Definition next_ok (next : Z) (m : mem) : Prop := 0 <= next /\ next mod 8 = 0.

#[export] Instance next_heap : SharedHeap Z := next_alloc.

#[export] Program Instance next_heap_spec : SharedHeapSpec Z := {
  sh_ok := next_ok;
  sh_owns := fun next a => next <= a
}.
Next Obligation.
  intros h m wosize tag reserved hp h' m' [Hh Hm] Hw Ht Hr E.
  unfold caml_shared_try_alloc, next_heap, next_alloc in E.
  destruct (alloc _ _ _ _) as [v q] eqn:A. injection E as <- <- <-.
  assert (Lz : zlen (replicate (Z.to_nat wosize) 0) = wosize) by (rewrite zlen_replicate; lia).
  change Max_wosize with (2 ^ 46 - 1) in Hw.
  pose proof (alloc_block_at _ _ _ _ _ _ A ltac:(lia) Ht Hr) as [BH BF]. rewrite Lz in BH, BF.
  pose proof (fun b => alloc_below _ _ _ _ _ _ b A) as BB. cbn [h_mem h_next] in BB.
  pose proof A as A'. injection A' as Ev Eq. cbn [h_next] in Ev. rewrite Lz in Eq.
  assert (En : h_next q = h + 8 + 8 * wosize) by (by rewrite <- Eq).
  rewrite En. destruct (header_of_fields tag 0 wosize reserved) as (_ & _ & Ew & _); [lia..|].
  rewrite Ew in BF. subst v. split_and!.
  - split; [lia|zlia].
  - intros a Ha. lia.
  - intros i Hi. split; [lia|]. split; [lia|]. destruct (decide (i = 0)) as [->|N].
    + apply rbind_Ok in BH as (x & Hx & _). apply load_Ok in Hx.
      replace (h + 8 * 0) with (h + 8 - 8) by lia. by exists x.
    + destruct (lookup_lt_is_Some_2 (replicate (Z.to_nat wosize) 0) (Z.to_nat (i - 1))) as [x Hx].
      { rewrite length_replicate. lia. }
      pose proof (fields_lookup _ _ _ _ _ _ _ BF Hx) as F. apply Field_Ok in F.
      replace (h + 8 + 8 * (0 + Z.of_nat (Z.to_nat (i - 1)))) with (h + 8 * i) in F by lia. by exists x.
  - intros a Ha. apply BB. lia.
  - lia.
  - done.
  - exists 0. split; [lia|done].
Qed.
Next Obligation. intros h m m' Hok _. exact Hok. Qed.

(** ** The theorem *)

(** C5: A minor collection of a well-formed minor heap ends, with the fatal error of an
    allocation that fails or with an empty minor heap: there is a map from the blocks of the
    minor heap to fresh and pairwise disjoint blocks of the shared heap, with the same tag,
    size and reserved bits; every root, every field of a copied block that holds a value and
    every slot of the stack of a copied continuation holds what its old value has been
    promoted to (itself, a copy, a pointer inside a copied closure, or what a forwarding block
    that is skipped points to) and no pointer to the minor heap; the fields that hold no
    values are the same words; and no other word of the memory has changed. *)
Theorem minor_collection_correct {Hp : Type} `{SharedHeapSpec Hp} ar native_code m0 h0 Y Sl K
    none fuel global_roots d stack reads :
  minor_heap_ok ar native_code m0 h0 Y Sl K ->
  young_value ar none = false -> sh_ok h0 m0 -> (K + 2 * size Y + 4 <= fuel)%nat ->
  roots_blocks_ok (d_local_roots d) ->
  stack_slots K m0 (d_current_stack d) = Ok (stack, reads) -> Forall (frozen ar h0 Sl) reads ->
  Forall (fun a => a ∈ Sl) (root_slots global_roots d stack) ->
  ok_or_fatal (caml_empty_minor_heap_promote ar native_code none fuel global_roots d h0 m0)
    (fun '(d', st') => d_young_ptr d' = d_young_end d /\ todo_list st' = 0 /\
       exists F, collected ar native_code m0 h0 Y Sl K (root_slots global_roots d stack) F (st_mem st')).
Proof. intros W. by apply minor_collection_ok. Qed.

(** a cyclic pair whose first field is a forwarding block that points to a string *)
Definition example_memory : mem :=
  list_to_map [(1000, header_of 0 0 2 0); (1008, 1032); (1016, 1008);
    (1024, header_of 250 0 1 0); (1032, 1048); (1040, header_of 252 0 1 0); (1048, 77);
    (5000, 1008)].
Definition example_area : minor_area := MinorArea 1000 2000.
Definition example_blocks : gset Z := {[1008; 1032; 1048]}.
Definition example_domain : domain :=
  Domain 1000 1000 2000 1000 [] [] (FinalTable 0 0 0) (FinalTable 0 0 0) [] [] 0 [] 0 0 0.

Lemma example_block v : v ∈ example_blocks -> v = 1008 \/ v = 1032 \/ v = 1048.
Proof. unfold example_blocks. set_solver. Qed.

Lemma example_heap_ok : minor_heap_ok example_area true example_memory 6000 example_blocks {[5000]} 0.
Proof.
  assert (HY : forall v, v = 1008 \/ v = 1032 \/ v = 1048 -> v ∈ example_blocks)
    by (unfold example_blocks; set_solver).
  split.
  - done.
  - intros v [-> | [-> | ->]]%example_block; vm_compute; split_and!; done.
  - intros v [-> | [-> | ->]]%example_block; vm_compute; done.
  - intros v i [-> | [-> | ->]]%example_block Hi.
    all: match type of Hi with _ <= _ < ?n => let x := eval vm_compute in n in change n with x in Hi end.
    + assert (i = -1 \/ i = 0 \/ i = 1) as [-> | [-> | ->]] by lia; by eexists.
    + assert (i = -1 \/ i = 0) as [-> | ->] by lia; by eexists.
    + assert (i = -1 \/ i = 0) as [-> | ->] by lia; by eexists.
  - intros v w [-> | [-> | ->]]%example_block [-> | [-> | ->]]%example_block N; try done.
    all: vm_compute; (by left) || (by right).
  - intros v [-> | [-> | ->]]%example_block; vm_compute; done.
  - intros v [-> | [-> | ->]]%example_block; vm_compute; split; done.
  - intros v [-> | [-> | ->]]%example_block T; by vm_compute in T.
  - intros v [-> | [-> | ->]]%example_block T; by vm_compute in T.
  - intros v [-> | [-> | ->]]%example_block T; by vm_compute in T.
  - intros v i [-> | [-> | ->]]%example_block Hi.
    all: match type of Hi with _ <= _ < ?n => let x := eval vm_compute in n in change n with x in Hi end.
    + assert (i = 0 \/ i = 1) as [-> | ->] by lia; intros _; left; apply HY; vm_compute; tauto.
    + assert (i = 0) as -> by lia; intros _; left; apply HY; vm_compute; tauto.
    + lia.
  - intros a ->%elem_of_singleton. split; [by eexists|]. split; [unfold in_area; cbn; lia|].
    split; [cbn; lia|]. intros _. left. apply HY. vm_compute. tauto.
  - intros a [_ Ha]. cbn in *. lia.
Qed.

(** the forwarding block is skipped: the copy of the pair points to the copy of the string *)
Lemma minor_collection_witness :
  (exists st, caml_empty_minor_heap_promote example_area true 1 20 [5000] example_domain 6000
      example_memory = Ok (Domain 1000 2000 2000 1496 [] [] (FinalTable 0 0 0) (FinalTable 0 0 0) [] [] 0 []
        5 125 5, st) /\
     map (fun a => st_mem st !! a) [5000; 6008; 6016; 6032] = [Some 6008; Some 6032; Some 6008; Some 77]) /\
  ok_or_fatal (caml_empty_minor_heap_promote example_area true 1 20 [5000] example_domain 6000
      example_memory)
    (fun '(d', st') => d_young_ptr d' = d_young_end example_domain /\ todo_list st' = 0 /\
       exists F, collected example_area true example_memory 6000 example_blocks {[5000]} 0 [5000] F (st_mem st')).
Proof.
  split; [eexists; split; [by vm_compute|by vm_compute]|].
  apply (minor_collection_correct example_area true example_memory 6000 example_blocks {[5000]} 0 1 20 [5000]
    example_domain [] []).
  - exact example_heap_ok.
  - done.
  - done.
  - apply Nat.leb_le. by vm_compute.
  - constructor.
  - done.
  - constructor.
  - constructor; [set_solver|constructor].
Defined.
