(* ===== verification/Addrmap.v ===== *)
(** * Address maps ([ocaml/runtime/addrmap.c])

    A hash table from nonzero keys to values: open addressing with linear probing, at most
    [MAX_CHAIN] slots being tried for a key.  When they are all taken by other keys, the
    table is copied to one of twice the size, which may have to grow again on the way.

    [addrmap_represents] relates a table to a finite map; the lemmas of the operations are
    stated with it, and the marking of the major collector uses them. *)

From S2P Require Import Prelude.
From stdpp Require Import gmap.
#[local] Open Scope Z_scope.

(** ** The table *)

(** [struct addrmap_entry] *)
Record addrmap_entry := Entry { e_key : Z; e_value : Z }.

(** [struct addrmap]; [None] is the null pointer *)
Record addrmap := Addrmap { entries : option (list addrmap_entry); am_size : Z }.

Definition ADDRMAP_NOT_PRESENT : Z := 0.
Definition ADDRMAP_INVALID_KEY : Z := 0.
Definition MAX_CHAIN : nat := 100.

Definition caml_addrmap_init : addrmap := Addrmap None 0.
Definition caml_addrmap_clear (t : addrmap) : addrmap := Addrmap None 0.

Definition pos_initial (t : addrmap) (key : Z) : Z :=
  let pos := u64 (u64 key * 0xcc9e2d51) in
  let pos := Z.lxor pos (Z.shiftr pos 17) in
  Z.land pos (u64 (am_size t - 1)).

Definition pos_next (t : addrmap) (pos : Z) : Z := Z.land (u64 (pos + 1)) (u64 (am_size t - 1)).

(** [t->entries[pos]] *)
Definition entry (t : addrmap) (pos : Z) : result addrmap_entry :=
  let* es := of_option (entries t) in rd es pos.
Definition set_entry (t : addrmap) (pos : Z) (e : addrmap_entry) : result addrmap :=
  let* es := of_option (entries t) in
  let* es := wr es pos e in
  Ok (Addrmap (Some es) (am_size t)).

Fixpoint contains_loop (i : nat) (t : addrmap) (key pos : Z) : result bool :=
  match i with
  | O => Ok false
  | S i =>
      let* e := entry t pos in
      if e_key e =? ADDRMAP_INVALID_KEY then Ok false
      else if e_key e =? key then Ok true
      else contains_loop i t key (pos_next t pos)
  end.

Definition caml_addrmap_contains (t : addrmap) (key : Z) : result bool :=
  match entries t with
  | None => Ok false
  | Some _ => contains_loop MAX_CHAIN t key (pos_initial t key)
  end.

(** [for (pos = pos_initial(t, key); ; pos = pos_next(t, pos))]: the loop has no bound *)
Fixpoint lookup_loop (fuel : nat) (t : addrmap) (key pos : Z) : result Z :=
  match fuel with
  | O => NoFuel
  | S fuel =>
      let* e := entry t pos in
      if e_key e =? key then Ok (e_value e) else lookup_loop fuel t key (pos_next t pos)
  end.

Definition caml_addrmap_lookup (fuel : nat) (t : addrmap) (key : Z) : result Z :=
  lookup_loop fuel t key (pos_initial t key).

(** [*p = v] for a pointer to the value of an entry, and [*p] *)
Definition set_value (t : addrmap) (pos v : Z) : result addrmap :=
  let* e := entry t pos in set_entry t pos (Entry (e_key e) v).
Definition get_value (t : addrmap) (pos : Z) : result Z := rmap e_value (entry t pos).

(** the first loop of [caml_addrmap_insert_pos]: the table and the slot of the key, or
    [None] when it has none *)
Fixpoint insert_loop (i : nat) (t : addrmap) (key pos : Z) : result (option (addrmap * Z)) :=
  match i with
  | O => Ok None
  | S i =>
      let* e := entry t pos in
      let* t := (if e_key e =? ADDRMAP_INVALID_KEY
                 then set_entry t pos (Entry key (e_value e)) else Ok t) in
      let* e := entry t pos in
      if e_key e =? key then Ok (Some (t, pos)) else insert_loop i t key (pos_next t pos)
  end.

Section Insert.
(** whether memory is available for a block of some size in bytes *)
Context (malloc_ok : Z -> bool).

(** [caml_stat_alloc] ends the program when there is no memory *)
Definition addrmap_alloc (sz : Z) : result addrmap :=
  check malloc_ok (u64 (16 * sz)) else Raise caml_fatal_out_of_memory;
  Ok (Addrmap (Some (replicate (Z.to_nat sz) (Entry ADDRMAP_INVALID_KEY ADDRMAP_NOT_PRESENT))) sz).

(** one turn of the loop on the old table *)
Definition rehash_entry (insert_pos : addrmap -> Z -> result (addrmap * Z))
    (old_table : list addrmap_entry) (i : Z) (t : addrmap) : result addrmap :=
  let* e := rd old_table i in
  if e_key e =? ADDRMAP_INVALID_KEY then Ok t else
  let* (t, p) := insert_pos t (e_key e) in
  set_value t p (e_value e).

(** the table, and the index of the entry whose value is pointed to *)
Fixpoint caml_addrmap_insert_pos (fuel : nat) (t : addrmap) (key : Z) : result (addrmap * Z) :=
  match fuel with
  | O => NoFuel
  | S fuel =>
      let* t := (match entries t with None => addrmap_alloc 256 | Some _ => Ok t end) in
      let* r := insert_loop MAX_CHAIN t key (pos_initial t key) in
      match r with
      | Some (t, pos) => Ok (t, pos)
      | None =>
          let* old_table := of_option (entries t) in
          let old_size := am_size t in
          let* t := addrmap_alloc (u64 (old_size * 2)) in
          let* t := for_loop (Z.to_nat old_size) 0
                      (rehash_entry (caml_addrmap_insert_pos fuel) old_table) t in
          caml_addrmap_insert_pos fuel t key
      end
  end.

Definition caml_addrmap_insert (fuel : nat) (t : addrmap) (k v : Z) : result addrmap :=
  let* (t, p) := caml_addrmap_insert_pos fuel t k in set_value t p v.
End Insert.

(** ** Iteration *)

Definition caml_addrmap_iter_ok (t : addrmap) (i : Z) : bool := i <? am_size t.

(** [while (i < t->size && t->entries[i].key == ADDRMAP_INVALID_KEY) i++] *)
Fixpoint next_loop (fuel : nat) (t : addrmap) (i : Z) : result Z :=
  match fuel with
  | O => NoFuel
  | S fuel =>
      if i <? am_size t then
        let* e := entry t i in
        if e_key e =? ADDRMAP_INVALID_KEY then next_loop fuel t (u64 (i + 1)) else Ok i
      else Ok i
  end.

(** one turn for each slot, and one to leave the loop *)
Definition caml_addrmap_next (t : addrmap) (i : Z) : result Z :=
  match entries t with
  | None => Ok (u64 (-1))
  | Some _ => next_loop (S (Z.to_nat (am_size t))) t (u64 (i + 1))
  end.

Definition caml_addrmap_iter_key (t : addrmap) (i : Z) : result Z := rmap e_key (entry t i).
Definition caml_addrmap_iter_value (t : addrmap) (i : Z) : result Z := rmap e_value (entry t i).
Definition caml_addrmap_iterator (t : addrmap) : result Z := caml_addrmap_next t (u64 (-1)).

(** [for (i = ...; caml_addrmap_iter_ok(t, i); i = caml_addrmap_next(t, i)) f(key, value)],
    the body being an action on a state *)
Fixpoint iter_loop {A} (n : nat) (t : addrmap) (f : Z -> Z -> A -> result A) (i : Z) (a : A) : result A :=
  match n with
  | O => NoFuel
  | S n =>
      if caml_addrmap_iter_ok t i then
        let* k := caml_addrmap_iter_key t i in
        let* v := caml_addrmap_iter_value t i in
        let* a := f k v a in
        let* i := caml_addrmap_next t i in
        iter_loop n t f i a
      else Ok a
  end.

Definition caml_addrmap_iter {A} (t : addrmap) (f : Z -> Z -> A -> result A) (a : A) : result A :=
  let* i := caml_addrmap_iterator t in iter_loop (S (Z.to_nat (am_size t))) t f i a.

(** ** The finite map that a table represents *)

Definition probe (t : addrmap) (k d : Z) : Z := (pos_initial t k + d) mod am_size t.

(** the slot tried at turn [d] has another key *)
Definition taken (t : addrmap) (k d : Z) : Prop :=
  exists e, entry t (probe t k d) = Ok e /\ e_key e <> ADDRMAP_INVALID_KEY /\ e_key e <> k.

Record addrmap_shape (t : addrmap) (lg : Z) : Prop := {
  as_lg : 8 <= lg <= 58;
  as_size : am_size t = 2 ^ lg;
  as_entries : exists es, entries t = Some es /\ zlen es = am_size t }.

Record addrmap_map (t : addrmap) (M : gmap Z Z) : Prop := {
  am_free : forall i v, entry t i = Ok (Entry ADDRMAP_INVALID_KEY v) -> v = ADDRMAP_NOT_PRESENT;
  am_slot : forall i k v, entry t i = Ok (Entry k v) -> k <> ADDRMAP_INVALID_KEY -> M !! k = Some v;
  am_once : forall i j k v w, entry t i = Ok (Entry k v) -> entry t j = Ok (Entry k w) ->
    k <> ADDRMAP_INVALID_KEY -> i = j;
  am_found : forall k v, M !! k = Some v -> k <> ADDRMAP_INVALID_KEY /\
    exists d, 0 <= d < Z.of_nat MAX_CHAIN /\ entry t (probe t k d) = Ok (Entry k v) /\
      forall e, 0 <= e < d -> taken t k e }.

Definition addrmap_represents (t : addrmap) (M : gmap Z Z) : Prop :=
  (t = caml_addrmap_init /\ M = ∅) \/ ((exists lg, addrmap_shape t lg) /\ addrmap_map t M).

Section Shape.
Context {t : addrmap} {lg : Z} (Sh : addrmap_shape t lg).

Lemma am_size_range : 256 <= am_size t <= 2 ^ 58.
Proof.
  pose proof (as_lg _ _ Sh). rewrite (as_size _ _ Sh). change 256 with (2 ^ 8).
  split; apply Z.pow_le_mono_r; lia.
Qed.

Lemma land_size p : Z.land p (u64 (am_size t - 1)) = p mod am_size t.
Proof.
  pose proof am_size_range. pose proof (as_lg _ _ Sh).
  rewrite u64_id by (unfold is_u64; lia). rewrite (as_size _ _ Sh).
  replace (2 ^ lg - 1) with (Z.ones lg) by (rewrite Z.ones_equiv; lia).
  by rewrite Z.land_ones by lia.
Qed.

Lemma addr_probe_range k d : 0 <= probe t k d < am_size t.
Proof. pose proof am_size_range. apply Z.mod_pos_bound. lia. Qed.

Lemma addr_probe_0 k : pos_initial t k = probe t k 0.
Proof.
  pose proof am_size_range. unfold probe. rewrite Z.add_0_r. unfold pos_initial.
  rewrite land_size. by rewrite Z.mod_mod by lia.
Qed.

Lemma probe_next k d : pos_next t (probe t k d) = probe t k (d + 1).
Proof.
  pose proof am_size_range. pose proof (addr_probe_range k d). unfold pos_next.
  rewrite u64_id by (unfold is_u64; lia). rewrite land_size. unfold probe.
  rewrite Z.add_mod_idemp_l by lia. f_equal. lia.
Qed.

Lemma probe_inj k d e :
  0 <= d < Z.of_nat MAX_CHAIN -> 0 <= e < Z.of_nat MAX_CHAIN -> probe t k d = probe t k e -> d = e.
Proof.
  pose proof am_size_range. unfold probe, MAX_CHAIN. intros Hd He E.
  set (x := pos_initial t k) in *.
  pose proof (Z.div_mod (x + d) (am_size t)). pose proof (Z.div_mod (x + e) (am_size t)).
  set (p := (x + d) / am_size t) in *. set (q := (x + e) / am_size t) in *.
  assert (p = q) by nia. nia.
Qed.

Lemma entry_is_ok i : 0 <= i < am_size t -> exists e, entry t i = Ok e.
Proof.
  destruct (as_entries _ _ Sh) as (es & E & L). intros Hi. unfold entry. rewrite E. cbn [of_option rbind].
  apply rd_in_range. lia.
Qed.

Lemma entry_range i e : entry t i = Ok e -> 0 <= i < am_size t.
Proof.
  destruct (as_entries _ _ Sh) as (es & E & L). unfold entry. rewrite E. cbn [of_option rbind].
  intros R%rd_range. lia.
Qed.

(** writing a slot *)
Lemma set_entry_ok i e : 0 <= i < am_size t ->
  exists t', set_entry t i e = Ok t' /\ addrmap_shape t' lg /\ am_size t' = am_size t /\
    entry t' i = Ok e /\ forall j, j <> i -> entry t' j = entry t j.
Proof.
  destruct (as_entries _ _ Sh) as (es & E & L). intros Hi. unfold set_entry, entry. rewrite E.
  cbn [of_option rbind]. rewrite wr_in_range by lia. cbn [rbind]. eexists. split; [done|].
  cbn [entries am_size]. split; [|split; [done|split]].
  - split; [apply Sh|apply Sh|]. eexists. split; [done|]. cbn [am_size]. by rewrite zlen_insert.
  - apply rd_insert_eq. lia.
  - intros j Hj. unfold rd. destruct (Z.ltb_spec j 0); [done|]. cbn [of_option rbind].
    by rewrite list_lookup_insert_ne by lia.
Qed.

(** loops that go on while the slots are taken by other keys *)
Lemma loop_skip {B} (F : nat -> Z -> B) k n :
  (forall i d, taken t k d -> F (S i) (probe t k d) = F i (probe t k (d + 1))) ->
  forall i d, (forall e, d <= e < d + Z.of_nat n -> taken t k e) ->
  F (n + i)%nat (probe t k d) = F i (probe t k (d + Z.of_nat n)).
Proof.
  intros HF. induction n as [|n IH]; intros i d Ht; [by rewrite Z.add_0_r|].
  cbn [Nat.add]. rewrite HF by (apply Ht; lia). rewrite IH by (intros; apply Ht; lia).
  do 2 f_equal. lia.
Qed.

Lemma contains_taken k i d :
  taken t k d -> contains_loop (S i) t k (probe t k d) = contains_loop i t k (probe t k (d + 1)).
Proof.
  intros (e & E & H1 & H2). cbn [contains_loop]. rewrite E. cbn [rbind].
  rewrite (proj2 (Z.eqb_neq _ _) H1), (proj2 (Z.eqb_neq _ _) H2). by rewrite probe_next.
Qed.

Lemma lookup_taken k i d :
  taken t k d -> lookup_loop (S i) t k (probe t k d) = lookup_loop i t k (probe t k (d + 1)).
Proof.
  intros (e & E & H1 & H2). cbn [lookup_loop]. rewrite E. cbn [rbind].
  rewrite (proj2 (Z.eqb_neq _ _) H2). by rewrite probe_next.
Qed.

Lemma insert_taken k i d :
  taken t k d -> insert_loop (S i) t k (probe t k d) = insert_loop i t k (probe t k (d + 1)).
Proof.
  intros (e & E & H1 & H2). cbn [insert_loop]. rewrite E. cbn [rbind].
  rewrite (proj2 (Z.eqb_neq _ _) H1). cbn [rbind]. rewrite E. cbn [rbind].
  rewrite (proj2 (Z.eqb_neq _ _) H2). by rewrite probe_next.
Qed.

(** the first slot that stops a search, among [n] *)
Lemma first_stop k (n : nat) :
  (forall d, 0 <= d < Z.of_nat n -> taken t k d) \/
  exists d e, 0 <= d < Z.of_nat n /\ entry t (probe t k d) = Ok e /\
    (e_key e = ADDRMAP_INVALID_KEY \/ e_key e = k) /\ forall c, 0 <= c < d -> taken t k c.
Proof.
  induction n as [|n [IH | (d & e & Hd & H)]]; [left; lia| |right; exists d, e; split; [lia|done]].
  destruct (entry_is_ok (probe t k (Z.of_nat n))) as [e E]; [apply addr_probe_range|].
  destruct (decide (e_key e = ADDRMAP_INVALID_KEY \/ e_key e = k)) as [Hs|Hs].
  - right. exists (Z.of_nat n), e. split_and!; [lia..|done|done|]. intros c Hc. apply IH. lia.
  - left. intros d Hd. destruct (decide (d = Z.of_nat n)) as [->|]; [|apply IH; lia].
    exists e. split; [done|]. tauto.
Qed.
End Shape.

Section Map.
Context {t : addrmap} {lg : Z} {M : gmap Z Z} (Sh : addrmap_shape t lg) (A : addrmap_map t M).

(** what the first slot that stops a search says of the map *)
Lemma stop_value k d e :
  k <> ADDRMAP_INVALID_KEY -> 0 <= d < Z.of_nat MAX_CHAIN -> entry t (probe t k d) = Ok e ->
  (e_key e = ADDRMAP_INVALID_KEY \/ e_key e = k) -> (forall c, 0 <= c < d -> taken t k c) ->
  M !! k = if e_key e =? k then Some (e_value e) else None.
Proof.
  intros Hk Hd E Hs Ht. destruct (Z.eqb_spec (e_key e) k) as [Ek|Nk].
  - destruct e as [k' v]. cbn [e_key e_value] in *. subst k'. by apply (am_slot _ _ A _ _ _ E).
  - destruct (M !! k) as [v|] eqn:EM; [exfalso|done].
    destruct (am_found _ _ A _ _ EM) as (_ & d' & Hd' & E' & Ht').
    destruct (Z.lt_trichotomy d d') as [L | [-> | L]].
    + destruct (Ht' d) as (x & Ex & Hx); [lia|]. rewrite E in Ex. injection Ex as <-. tauto.
    + rewrite E in E'. injection E' as ->. cbn [e_key] in Nk. done.
    + destruct (Ht d') as (x & Ex & Hx); [lia|]. rewrite E' in Ex. injection Ex as <-. cbn [e_key] in Hx. tauto.
Qed.

Lemma all_taken_absent k : (forall d, 0 <= d < Z.of_nat MAX_CHAIN -> taken t k d) -> M !! k = None.
Proof.
  intros Ht. destruct (M !! k) as [v|] eqn:EM; [exfalso|done].
  destruct (am_found _ _ A _ _ EM) as (_ & d & Hd & E & _). destruct (Ht d Hd) as (x & Ex & Hx).
  rewrite E in Ex. injection Ex as <-. cbn [e_key] in Hx. tauto.
Qed.

(** the slot where a search for [k] stops gets the entry of [k] *)
Lemma put_map k d e v t' :
  k <> ADDRMAP_INVALID_KEY -> 0 <= d < Z.of_nat MAX_CHAIN -> entry t (probe t k d) = Ok e ->
  (e_key e = ADDRMAP_INVALID_KEY \/ e_key e = k) -> (forall c, 0 <= c < d -> taken t k c) ->
  am_size t' = am_size t -> entry t' (probe t k d) = Ok (Entry k v) ->
  (forall j, j <> probe t k d -> entry t' j = entry t j) ->
  addrmap_map t' (<[k := v]> M).
Proof.
  intros Hk Hd E Hs Ht Hsz En Eo. pose proof (stop_value k d e Hk Hd E Hs Ht) as HM.
  set (p := probe t k d) in *.
  assert (HP : forall k' c, probe t' k' c = probe t k' c).
  { intros. unfold probe, pos_initial. by rewrite Hsz. }
  assert (HT : forall k' c, taken t k' c -> taken t' k' c).
  { intros k' c (x & Ex & X1 & X2). unfold taken. rewrite HP.
    destruct (decide (probe t k' c = p)) as [Ep|Np]; [|exists x; by rewrite Eo].
    rewrite Ep in *. rewrite E in Ex. injection Ex as <-. exists (Entry k v). split; [done|].
    cbn [e_key]. destruct Hs as [Hs|Hs]; [done|]. by rewrite <- Hs. }
  assert (Hother : forall i v', i <> p -> entry t i <> Ok (Entry k v')).
  { intros i v' Ni Ei. destruct (Z.eqb_spec (e_key e) k) as [Ek|Nk].
    - destruct e as [k' w]. cbn [e_key] in Ek. subst k'. by apply Ni, (am_once _ _ A _ _ _ _ _ Ei E).
    - pose proof (am_slot _ _ A _ _ _ Ei Hk). congruence. }
  split.
  - intros i w. destruct (decide (i = p)) as [->|Ni].
    + rewrite En. intros [= Hk0 _]. done.
    + rewrite (Eo i Ni). apply (am_free _ _ A).
  - intros i k' w. destruct (decide (i = p)) as [->|Ni].
    + rewrite En. intros [= <- <-] _. apply lookup_insert_eq.
    + rewrite (Eo i Ni). intros Ei Hk'. destruct (decide (k' = k)) as [->|Nk].
      * by destruct (Hother i w Ni).
      * rewrite lookup_insert_ne by done. by apply (am_slot _ _ A i).
  - intros i j k' v1 v2. destruct (decide (i = p)) as [->|Ni], (decide (j = p)) as [->|Nj]; [done|..].
    + rewrite En, (Eo j Nj). intros [= -> ->] Ej. by destruct (Hother j v2 Nj).
    + rewrite En, (Eo i Ni). intros Ei [= -> ->]. by destruct (Hother i v1 Ni).
    + rewrite (Eo i Ni), (Eo j Nj). apply (am_once _ _ A).
  - intros k' w. destruct (decide (k' = k)) as [->|Nk].
    + rewrite lookup_insert_eq. intros [= <-]. split; [done|]. exists d. split; [done|].
      rewrite HP. split; [done|]. intros c Hc. by apply HT, Ht.
    + rewrite lookup_insert_ne by done. intros (Hk' & d' & Hd' & E' & Ht')%(am_found _ _ A).
      split; [done|]. exists d'. split; [done|]. rewrite HP. split; [|intros c Hc; by apply HT, Ht'].
      rewrite Eo; [done|]. intros Ep. rewrite Ep, E in E'. injection E' as ->. cbn [e_key] in Hs. tauto.
Qed.

Lemma contains_ok k : k <> ADDRMAP_INVALID_KEY ->
  caml_addrmap_contains t k = Ok (bool_decide (is_Some (M !! k))).
Proof.
  intros Hk. destruct (as_entries _ _ Sh) as (es & Ees & _). unfold caml_addrmap_contains. rewrite Ees, (addr_probe_0 Sh).
  destruct (first_stop Sh k MAX_CHAIN) as [Ht | (d & e & Hd & E & Hs & Ht)].
  - rewrite (all_taken_absent k Ht), <- (Nat.add_0_r MAX_CHAIN).
    rewrite (loop_skip (fun i p => contains_loop i t k p) k) by (intros; try apply (contains_taken Sh); (done || apply Ht; lia)).
    done.
  - rewrite (stop_value k d e Hk Hd E Hs Ht).
    replace MAX_CHAIN with (Z.to_nat d + S (MAX_CHAIN - S (Z.to_nat d)))%nat by lia.
    rewrite (loop_skip (fun i p => contains_loop i t k p) k) by (intros; try apply (contains_taken Sh); (done || apply Ht; lia)).
    replace (0 + Z.of_nat (Z.to_nat d)) with d by lia. cbn [contains_loop]. rewrite E. cbn [rbind].
    destruct (Z.eqb_spec (e_key e) k) as [->|]; [by rewrite (proj2 (Z.eqb_neq _ _) Hk)|].
    destruct Hs as [Hs|Hs]; [by rewrite Hs|done].
Qed.

Lemma lookup_ok fuel k v : M !! k = Some v -> (MAX_CHAIN <= fuel)%nat ->
  caml_addrmap_lookup fuel t k = Ok v.
Proof.
  intros HM Hf. destruct (am_found _ _ A _ _ HM) as (Hk & d & Hd & E & Ht).
  unfold caml_addrmap_lookup. rewrite (addr_probe_0 Sh).
  replace fuel with (Z.to_nat d + S (fuel - S (Z.to_nat d)))%nat by lia.
  rewrite (loop_skip (fun i p => lookup_loop i t k p) k) by (intros; try apply (lookup_taken Sh); (done || apply Ht; lia)).
  replace (0 + Z.of_nat (Z.to_nat d)) with d by lia. cbn [lookup_loop]. rewrite E. cbn [rbind e_key e_value].
  by rewrite Z.eqb_refl.
Qed.

Lemma insert_loop_ok k : k <> ADDRMAP_INVALID_KEY ->
  (insert_loop MAX_CHAIN t k (pos_initial t k) = Ok None /\ M !! k = None) \/
  exists t' p, insert_loop MAX_CHAIN t k (pos_initial t k) = Ok (Some (t', p)) /\
    addrmap_shape t' lg /\ addrmap_map t' (<[k := default ADDRMAP_NOT_PRESENT (M !! k)]> M) /\
    entry t' p = Ok (Entry k (default ADDRMAP_NOT_PRESENT (M !! k))).
Proof.
  intros Hk. rewrite (addr_probe_0 Sh).
  destruct (first_stop Sh k MAX_CHAIN) as [Ht | (d & e & Hd & E & Hs & Ht)].
  - left. rewrite (all_taken_absent k Ht). split; [|done]. rewrite <- (Nat.add_0_r MAX_CHAIN).
    by rewrite (loop_skip (fun i p => insert_loop i t k p) k)
      by (intros; try apply (insert_taken Sh); (done || apply Ht; lia)).
  - right. pose proof (stop_value k d e Hk Hd E Hs Ht) as HM.
    replace MAX_CHAIN with (Z.to_nat d + S (MAX_CHAIN - S (Z.to_nat d)))%nat by lia.
    rewrite (loop_skip (fun i p => insert_loop i t k p) k)
      by (intros; try apply (insert_taken Sh); (done || apply Ht; lia)).
    replace (0 + Z.of_nat (Z.to_nat d)) with d by lia. cbn [insert_loop]. rewrite E. cbn [rbind].
    destruct (Z.eqb_spec (e_key e) ADDRMAP_INVALID_KEY) as [E0|N0].
    + destruct (set_entry_ok Sh (probe t k d) (Entry k (e_value e))) as (t' & -> & Sh' & Hsz & En & Eo);
        [apply (addr_probe_range Sh)|].
      cbn [rbind]. rewrite En. cbn [rbind e_key]. rewrite Z.eqb_refl. exists t', (probe t k d).
      split; [done|]. split; [done|].
      assert (default ADDRMAP_NOT_PRESENT (M !! k) = e_value e) as ->.
      { rewrite HM. destruct (Z.eqb_spec (e_key e) k) as [E1|_]; [by rewrite E0 in E1|].
        destruct e as [k0 v0]. cbn [e_key] in E0. subst k0. by rewrite (am_free _ _ A _ _ E). }
      split; [|done]. by apply (put_map k d e).
    + cbn [rbind]. rewrite E. cbn [rbind]. assert (Ek : e_key e = k) by (by destruct Hs).
      rewrite Ek in *. rewrite Z.eqb_refl in *. exists t, (probe t k d). rewrite HM. cbn [default].
      split; [done|]. split; [done|]. split; [|destruct e; by subst]. by rewrite insert_id.
Qed.

(** [*p = v] for a slot that a key has *)
Lemma set_value_ok k p v w : k <> ADDRMAP_INVALID_KEY -> entry t p = Ok (Entry k w) ->
  exists t', set_value t p v = Ok t' /\ addrmap_shape t' lg /\ addrmap_map t' (<[k := v]> M) /\
    entry t' p = Ok (Entry k v).
Proof.
  intros Hk E. pose proof (am_slot _ _ A _ _ _ E Hk) as HM.
  destruct (am_found _ _ A _ _ HM) as (_ & d & Hd & E' & Ht).
  assert (p = probe t k d) as -> by exact (am_once _ _ A _ _ _ _ _ E E' Hk).
  unfold set_value. rewrite E. cbn [rbind e_key].
  destruct (set_entry_ok Sh (probe t k d) (Entry k v)) as (t' & -> & Sh' & Hsz & En & Eo);
    [apply (addr_probe_range Sh)|].
  exists t'. split; [done|]. split; [done|]. split; [|done]. apply (put_map k d _ v t' Hk Hd E); try done. by right.
Qed.
End Map.

(** [p] is the slot of the key [k] in a table that represents [M] *)
Definition slot_of (t : addrmap) (M : gmap Z Z) (p k : Z) : Prop :=
  (exists lg, addrmap_shape t lg) /\ addrmap_map t M /\ k <> ADDRMAP_INVALID_KEY /\
  exists v, entry t p = Ok (Entry k v).

Lemma slot_represents t M p k : slot_of t M p k -> addrmap_represents t M.
Proof. intros (Sh & A & _). by right. Qed.

Lemma get_value_slot t M p k : slot_of t M p k -> exists v, M !! k = Some v /\ get_value t p = Ok v.
Proof.
  intros (_ & A & Hk & v & E). exists v. split; [by apply (am_slot _ _ A _ _ _ E)|].
  unfold get_value, rmap. by rewrite E.
Qed.

Lemma set_value_slot t M p k v : slot_of t M p k ->
  exists t', set_value t p v = Ok t' /\ slot_of t' (<[k := v]> M) p k.
Proof.
  intros ([lg Sh] & A & Hk & w & E). destruct (set_value_ok Sh A k p v w Hk E) as (t' & Es & Sh' & A' & E').
  exists t'. split; [done|]. split; [eauto|]. split; [done|]. split; [done|]. eauto.
Qed.

(** ** Insertion *)

Section Growth.
Context (malloc_ok : Z -> bool).
(** no object is larger than half of the address space *)
Context (malloc_limit : forall n, malloc_ok n = true -> n < 2 ^ 63).

Lemma addrmap_alloc_ok lg : 8 <= lg <= 59 ->
  ok_or caml_fatal_out_of_memory (addrmap_alloc malloc_ok (2 ^ lg)) (fun t => addrmap_shape t lg /\ addrmap_map t ∅).
Proof.
  intros Hlg. unfold addrmap_alloc.
  assert (0 < 2 ^ lg <= 2 ^ 59) by (split; [apply Z.pow_pos_nonneg; lia|apply Z.pow_le_mono_r; lia]).
  rewrite u64_id by (unfold is_u64; lia). destruct (malloc_ok (16 * 2 ^ lg)) eqn:Em; [|done].
  apply malloc_limit in Em. cbn [ok_or].
  assert (Hr : forall i e, entry (Addrmap (Some (replicate (Z.to_nat (2 ^ lg))
      (Entry ADDRMAP_INVALID_KEY ADDRMAP_NOT_PRESENT))) (2 ^ lg)) i = Ok e ->
      e = Entry ADDRMAP_INVALID_KEY ADDRMAP_NOT_PRESENT).
  { intros i e. unfold entry. cbn [entries of_option rbind]. intros [_ R]%rd_Ok.
    by apply lookup_replicate in R as [-> _]. }
  split.
  - split; [|done|].
    + assert (lg <> 59); [intros ->; lia|lia].
    + eexists. split; [done|]. cbn [am_size]. rewrite zlen_replicate. lia.
  - split.
    + by intros i v [= ->]%Hr.
    + by intros i k v [= -> ->]%Hr.
    + by intros i j k v w [= -> ->]%Hr.
    + intros k v. by rewrite lookup_empty.
Qed.

(** the new table [t'] holds the first [i] slots of the old one [t] *)
Definition rehashed (t : addrmap) (lg i : Z) (t' : addrmap) : Prop :=
  exists lg' Mi, lg <= lg' /\ addrmap_shape t' lg' /\ addrmap_map t' Mi /\
    forall k v, Mi !! k = Some v <->
      k <> ADDRMAP_INVALID_KEY /\ exists j, j < i /\ entry t j = Ok (Entry k v).

(** what [caml_addrmap_insert_pos] does to a table that represents [M] *)
Definition insert_result (lg : Z) (M : gmap Z Z) (k : Z) (r : addrmap * Z) : Prop :=
  exists lg', lg <= lg' /\ addrmap_shape (fst r) lg' /\
    addrmap_map (fst r) (<[k := default ADDRMAP_NOT_PRESENT (M !! k)]> M) /\
    entry (fst r) (snd r) = Ok (Entry k (default ADDRMAP_NOT_PRESENT (M !! k))).

Lemma rehash_entry_ok (insert_pos : addrmap -> Z -> result (addrmap * Z)) t lg0 M lg es i t' :
  (forall t lg' M k, addrmap_shape t lg' -> addrmap_map t M -> k <> ADDRMAP_INVALID_KEY -> lg <= lg' ->
    ok_or caml_fatal_out_of_memory (insert_pos t k) (insert_result lg' M k)) ->
  addrmap_shape t lg0 -> addrmap_map t M -> entries t = Some es ->
  0 <= i < am_size t -> rehashed t lg i t' ->
  ok_or caml_fatal_out_of_memory (rehash_entry insert_pos es i t') (rehashed t lg (i + 1)).
Proof.
  intros Hins Sh A Ees Hi (lg' & Mi & Hlg & Sh' & A' & HMi).
  destruct (entry_is_ok Sh i Hi) as [[k v] E]. unfold rehash_entry.
  assert (Er : rd es i = Ok (Entry k v)) by (unfold entry in E; by rewrite Ees in E).
  rewrite Er. cbn [rbind e_key e_value]. destruct (Z.eqb_spec k ADDRMAP_INVALID_KEY) as [Ek|Nk].
  - exists lg', Mi. split_and!; [done..|]. intros k' v'. rewrite HMi.
    split; (intros (Hk & j & Hj & Ej); split; [done|]; exists j; split; [|done]); [lia|].
    destruct (decide (j = i)) as [->|]; [|lia]. rewrite E in Ej. naive_solver.
  - assert (Hn : Mi !! k = None).
    { destruct (Mi !! k) as [w|] eqn:Ew; [exfalso|done]. apply HMi in Ew as (_ & j & Hj & Ej).
      pose proof (am_once _ _ A _ _ _ _ _ E Ej Nk). lia. }
    eapply ok_or_bind; [by apply (Hins t' lg' Mi k)|]. intros [t2 p] (lg2 & Hlg2 & Sh2 & A2 & E2).
    cbn [fst snd] in *. rewrite Hn in A2, E2. cbn [default] in *.
    destruct (set_value_ok Sh2 A2 k p v _ Nk E2) as (t3 & -> & Sh3 & A3 & _). cbn [ok_or].
    exists lg2, (<[k := v]> Mi). split_and!; [lia|done|by rewrite insert_insert_eq in A3|].
    intros k' v'. destruct (decide (k' = k)) as [->|Ne].
    + rewrite lookup_insert_eq. split.
      * intros [= <-]. split; [done|]. exists i. split; [lia|done].
      * intros (_ & j & Hj & Ej). pose proof (am_once _ _ A _ _ _ _ _ E Ej Nk) as <-. congruence.
    + rewrite lookup_insert_ne, HMi by done.
      split; (intros (Hk & j & Hj & Ej); split; [done|]; exists j; split; [|done]); [lia|].
      destruct (decide (j = i)) as [->|]; [|lia]. rewrite E in Ej. naive_solver.
Qed.

Lemma rehashed_all t lg0 M lg t' :
  addrmap_shape t lg0 -> addrmap_map t M -> rehashed t lg (am_size t) t' ->
  exists lg', lg <= lg' /\ addrmap_shape t' lg' /\ addrmap_map t' M.
Proof.
  intros Sh A (lg' & Mi & Hlg & Sh' & A' & HMi). exists lg'. split; [done|]. split; [done|].
  assert (Mi = M) as ->; [|done]. apply map_eq. intros k. apply option_eq. intros v. rewrite HMi. split.
  - intros (Hk & j & _ & Ej). by apply (am_slot _ _ A j).
  - intros (Hk & d & Hd & E & _)%(am_found _ _ A). split; [done|].
    exists (probe t k d). split; [|done]. by apply (addr_probe_range Sh).
Qed.

Lemma insert_pos_shape_ok fuel : forall t lg M k,
  addrmap_shape t lg -> addrmap_map t M -> k <> ADDRMAP_INVALID_KEY -> 60 <= lg + Z.of_nat fuel ->
  ok_or caml_fatal_out_of_memory (caml_addrmap_insert_pos malloc_ok fuel t k) (insert_result lg M k).
Proof.
  induction fuel as [|fuel IH]; intros t lg M k Sh A Hk Hf; [pose proof (as_lg _ _ Sh); lia|].
  destruct (as_entries _ _ Sh) as (es & Ees & Les). cbn [caml_addrmap_insert_pos]. rewrite Ees. cbn [rbind].
  destruct (insert_loop_ok Sh A k Hk) as [[-> HM] | (t' & p & -> & Sh' & A' & E')]; cbn [rbind].
  - rewrite Ees. cbn [of_option rbind]. pose proof (as_lg _ _ Sh). pose proof (am_size_range Sh).
    rewrite u64_id by (unfold is_u64; lia).
    replace (am_size t * 2) with (2 ^ (lg + 1)) by (rewrite (as_size _ _ Sh), Z.pow_add_r by lia; lia).
    eapply ok_or_bind; [apply addrmap_alloc_ok; lia|]. intros t1 [Sh1 A1].
    eapply ok_or_bind.
    { apply (for_loop_ok_or _ (rehashed t (lg + 1))).
      - exists (lg + 1), ∅. split_and!; [lia|done|done|]. intros k' v'. rewrite lookup_empty.
        split; [done|]. intros (_ & j & Hj & Ej). apply (entry_range Sh) in Ej. lia.
      - intros j a Hj Ha. rewrite Z2Nat.id in Hj by lia. eapply rehash_entry_ok; try done.
        intros t2 lg2 M2 k2 Sh2 A2 Hk2 Hlg2. apply IH; [done..|lia]. }
    rewrite Z.add_0_l, Z2Nat.id by lia. intros t2 R.
    destruct (rehashed_all _ _ _ _ _ Sh A R) as (lg2 & Hlg2 & Sh2 & A2).
    eapply ok_or_mono; [apply (IH t2 lg2 M k); [done..|lia]|].
    intros r (lg3 & Hlg3 & Hr). exists lg3. split; [lia|done].
  - exists lg. split; [lia|]. done.
Qed.

Lemma insert_pos_init fuel k :
  caml_addrmap_insert_pos malloc_ok (S fuel) caml_addrmap_init k =
  let* t := addrmap_alloc malloc_ok 256 in caml_addrmap_insert_pos malloc_ok (S fuel) t k.
Proof.
  cbn [caml_addrmap_insert_pos entries caml_addrmap_init].
  assert (H : forall t, addrmap_alloc malloc_ok 256 = Ok t -> entries t <> None).
  { intros t. unfold addrmap_alloc. generalize (Z.to_nat 256) as n. intros n.
    destruct (malloc_ok _); [intros [= <-]; discriminate|discriminate]. }
  destruct (addrmap_alloc malloc_ok 256) as [t| | |]; [|done..]. cbn [rbind].
  specialize (H t eq_refl). destruct (entries t) eqn:E; [|done]. cbn [rbind]. by rewrite E.
Qed.

(** what the callers use *)
Lemma insert_pos_ok t M k :
  addrmap_represents t M -> k <> ADDRMAP_INVALID_KEY ->
  ok_or caml_fatal_out_of_memory (caml_addrmap_insert_pos malloc_ok 60 t k) (fun '(t', p) =>
    slot_of t' (<[k := default ADDRMAP_NOT_PRESENT (M !! k)]> M) p k).
Proof.
  intros R Hk.
  assert (exists lg, ok_or caml_fatal_out_of_memory (caml_addrmap_insert_pos malloc_ok 60 t k) (insert_result lg M k))
    as [lg Q].
  { destruct R as [[-> ->] | [[lg Sh] A]].
    - exists 8. pose proof (addrmap_alloc_ok 8 ltac:(lia)) as Ha. change (2 ^ 8) with 256 in Ha.
      change 60%nat with (S 59) at 1. rewrite insert_pos_init.
      eapply ok_or_bind; [exact Ha|]. intros t1 [Sh1 A1]. by apply insert_pos_shape_ok.
    - exists lg. pose proof (as_lg _ _ Sh). apply insert_pos_shape_ok; [done..|lia]. }
  eapply ok_or_mono; [exact Q|]. intros [t' p] (lg' & Hlg & Sh & A & E). cbn [fst snd] in *.
  split; [eauto|]. split; [done|]. split; [done|]. eauto.
Qed.

Lemma insert_ok t M k v : addrmap_represents t M -> k <> ADDRMAP_INVALID_KEY ->
  ok_or caml_fatal_out_of_memory (caml_addrmap_insert malloc_ok 60 t k v) (fun t' => addrmap_represents t' (<[k := v]> M)).
Proof.
  intros R Hk. unfold caml_addrmap_insert. eapply ok_or_bind; [by apply (insert_pos_ok t M k)|].
  intros [t' p] Sl. destruct (set_value_slot _ _ _ _ v Sl) as (t'' & -> & Sl'').
  rewrite insert_insert_eq in Sl''. by eapply slot_represents.
Qed.
End Growth.

(** ** Iteration *)

(** the bindings of a sequence of slots *)
Definition bindings (es : list addrmap_entry) : list (Z * Z) :=
  omap (fun e => if e_key e =? ADDRMAP_INVALID_KEY then None else Some (e_key e, e_value e)) es.

(** the iterator [i] of [t] has the bindings [l] before it *)
Definition iter_at (t : addrmap) (i : Z) (l : list (Z * Z)) : Prop :=
  (am_size t <= i /\ l = []) \/
  exists es k v, entries t = Some es /\ zlen es = am_size t /\ am_size t < 2 ^ 63 /\
    entry t i = Ok (Entry k v) /\ k <> ADDRMAP_INVALID_KEY /\
    l = (k, v) :: bindings (drop (Z.to_nat (i + 1)) es).

Lemma next_loop_ok t es fuel : forall i,
  entries t = Some es -> zlen es = am_size t -> am_size t < 2 ^ 63 -> 0 <= i <= am_size t ->
  (Z.to_nat (am_size t - i) < fuel)%nat ->
  exists j, next_loop fuel t i = Ok j /\ iter_at t j (bindings (drop (Z.to_nat i) es)).
Proof.
  induction fuel as [|fuel IH]; intros i Ees Les Hb Hi Hf; [lia|]. cbn [next_loop].
  destruct (Z.ltb_spec i (am_size t)) as [L|L].
  - destruct (rd_in_range es i) as [[k v] R]; [lia|].
    assert (E : entry t i = Ok (Entry k v)) by (unfold entry; by rewrite Ees).
    pose proof R as [_ Hl]%rd_Ok. rewrite (drop_S _ _ _ Hl). rewrite E.
    cbn [rbind e_key bindings omap list_omap e_value].
    destruct (Z.eqb_spec k ADDRMAP_INVALID_KEY) as [Ek|Nk].
    + rewrite u64_id by (unfold is_u64; lia).
      replace (S (Z.to_nat i)) with (Z.to_nat (i + 1)) by lia. apply IH; [done..|lia|lia].
    + exists i. split; [done|]. right. exists es, k, v. split_and!; try done.
      by replace (S (Z.to_nat i)) with (Z.to_nat (i + 1)) by lia.
  - exists i. split; [done|]. left. split; [lia|]. rewrite drop_ge; [done|]. unfold zlen in Les. lia.
Qed.

Lemma iter_at_step t i l : iter_at t i l ->
  if caml_addrmap_iter_ok t i then
    exists k v l' i', l = (k, v) :: l' /\ caml_addrmap_iter_key t i = Ok k /\
      caml_addrmap_iter_value t i = Ok v /\ caml_addrmap_next t i = Ok i' /\ iter_at t i' l'
  else l = [].
Proof.
  unfold caml_addrmap_iter_ok. intros [[Hi ->] | (es & k & v & Ees & Les & Hb & E & Hk & ->)].
  - by rewrite (proj2 (Z.ltb_ge _ _) Hi).
  - assert (Hi : 0 <= i < am_size t).
    { unfold entry in E. rewrite Ees in E. apply rd_range in E. lia. }
    rewrite (proj2 (Z.ltb_lt _ _)) by lia.
    destruct (next_loop_ok t es (S (Z.to_nat (am_size t))) (i + 1)) as (i' & En & Hi'); [done..|lia|lia|].
    exists k, v, (bindings (drop (Z.to_nat (i + 1)) es)), i'. split; [done|].
    unfold caml_addrmap_iter_key, caml_addrmap_iter_value, rmap. rewrite E. split_and!; [done..| |done].
    unfold caml_addrmap_next. rewrite Ees. by rewrite u64_id by (unfold is_u64; lia).
Qed.

Lemma iterator_ok t es : entries t = Some es -> zlen es = am_size t -> am_size t < 2 ^ 63 ->
  exists i, caml_addrmap_iterator t = Ok i /\ iter_at t i (bindings es).
Proof.
  intros Ees Les Hb. unfold caml_addrmap_iterator, caml_addrmap_next. rewrite Ees.
  change (u64 (u64 (-1) + 1)) with 0. pose proof (zlen_nonneg es).
  apply (next_loop_ok t es); [done..|lia|lia].
Qed.

(** the run of an action on bindings in order *)
Fixpoint run_bindings {A} (f : Z -> Z -> A -> result A) (l : list (Z * Z)) (a : A) : result A :=
  match l with
  | [] => Ok a
  | (k, v) :: l => let* a := f k v a in run_bindings f l a
  end.

Lemma iter_loop_ok {A} t (f : Z -> Z -> A -> result A) l : forall n i a,
  iter_at t i l -> (length l < n)%nat -> iter_loop n t f i a = run_bindings f l a.
Proof.
  induction l as [|[k v] l IH]; intros [|n] i a Hi Hn; simpl in Hn; try lia; cbn [iter_loop];
    apply iter_at_step in Hi; destruct (caml_addrmap_iter_ok t i).
  - by destruct Hi as (? & ? & ? & ? & ? & _).
  - done.
  - destruct Hi as (k' & v' & l' & i' & [= <- <- <-] & -> & -> & E & Hi'). cbn [rbind run_bindings].
    destruct (f k v a) as [b| | |]; [|done..]. cbn [rbind]. rewrite E. cbn [rbind]. apply IH; [done|lia].
  - done.
Qed.

Lemma bindings_length es : (length (bindings es) <= length es)%nat.
Proof.
  unfold bindings. induction es as [|e es IH]; [done|]. cbn [omap list_omap] in *.
  destruct (e_key e =? _); cbn [length]; lia.
Qed.

Lemma iter_at_length t i l : iter_at t i l -> (length l <= Z.to_nat (am_size t))%nat.
Proof.
  intros [[_ ->] | (es & k & v & Ees & Les & _ & E & _ & ->)]; [simpl; lia|].
  unfold entry in E. rewrite Ees in E. apply rd_range in E. unfold zlen in *. cbn [length].
  pose proof (bindings_length (drop (Z.to_nat (i + 1)) es)) as Hb. rewrite length_drop in Hb. lia.
Qed.

Lemma elem_of_bindings es k v :
  (k, v) ∈ bindings es <-> k <> ADDRMAP_INVALID_KEY /\ Entry k v ∈ es.
Proof.
  unfold bindings. rewrite list_elem_of_omap. split.
  - intros ([k' v'] & Hin & E). cbn [e_key e_value] in E.
    destruct (Z.eqb_spec k' ADDRMAP_INVALID_KEY); [done|]. by injection E as <- <-.
  - intros [Hk Hin]. exists (Entry k v). split; [done|]. cbn [e_key].
    by rewrite (proj2 (Z.eqb_neq _ _) Hk).
Qed.

Lemma NoDup_bindings es :
  (forall i j k v w, es !! i = Some (Entry k v) -> es !! j = Some (Entry k w) ->
     k <> ADDRMAP_INVALID_KEY -> i = j) -> NoDup (bindings es).
Proof.
  induction es as [|[k v] es IH]; intros Hu; [constructor|]. cbn [bindings omap list_omap e_key e_value].
  assert (IH' : NoDup (bindings es)).
  { apply IH. intros i j k' v' w' Hi Hj Hk. assert (S i = S j) as [= ->]; [|done]. by eapply Hu. }
  destruct (Z.eqb_spec k ADDRMAP_INVALID_KEY) as [|Hk]; [done|]. constructor; [|done].
  intros [_ [j Hj]%list_elem_of_lookup]%elem_of_bindings. by pose proof (Hu 0%nat (S j) k v v eq_refl Hj Hk).
Qed.

(** the bindings of a table are those of its map *)
Lemma represents_bindings t M : addrmap_represents t M ->
  exists i l, caml_addrmap_iterator t = Ok i /\ iter_at t i l /\ l ≡ₚ map_to_list M /\
    (length l <= Z.to_nat (am_size t))%nat.
Proof.
  intros [[-> ->] | [[lg Sh] A]].
  - exists (u64 (-1)), []. split; [done|]. split; [left; split; [by vm_compute|done]|].
    by rewrite map_to_list_empty.
  - destruct (as_entries _ _ Sh) as (es & Ees & Les). pose proof (am_size_range Sh) as B.
    destruct (iterator_ok t es Ees Les ltac:(lia)) as (i & Ei & Hi). exists i, (bindings es).
    split; [done|]. split; [done|]. split; [|pose proof (bindings_length es); unfold zlen in Les; lia].
    assert (Ent : forall j e, es !! j = Some e <-> entry t (Z.of_nat j) = Ok e).
    { intros j e. unfold entry. rewrite Ees. cbn [of_option rbind]. rewrite rd_Ok, Nat2Z.id.
      split; [intros; split; [lia|done]|tauto]. }
    apply NoDup_Permutation; [|apply NoDup_map_to_list|].
    + apply NoDup_bindings. intros i1 i2 k v w E1%Ent E2%Ent Hk.
      pose proof (am_once _ _ A _ _ _ _ _ E1 E2 Hk). lia.
    + intros [k v]. rewrite elem_of_bindings, elem_of_map_to_list. split.
      * intros [Hk [j E%Ent]%list_elem_of_lookup]. by apply (am_slot _ _ A (Z.of_nat j)).
      * intros (Hk & d & Hd & E & _)%(am_found _ _ A). split; [done|].
        apply list_elem_of_lookup. exists (Z.to_nat (probe t k d)). apply Ent.
        by rewrite Z2Nat.id by (apply (addr_probe_range Sh)).
Qed.

Lemma iter_represents {A} t M (f : Z -> Z -> A -> result A) a : addrmap_represents t M ->
  exists l, l ≡ₚ map_to_list M /\ caml_addrmap_iter t f a = run_bindings f l a.
Proof.
  intros R. destruct (represents_bindings t M R) as (i & l & Ei & Hi & P & L). exists l. split; [done|].
  unfold caml_addrmap_iter. rewrite Ei. cbn [rbind]. apply iter_loop_ok; [done|lia].
Qed.

(** ** The table refines a finite map *)

(** [*caml_addrmap_insert_pos(t, k) = v] for each binding of a list *)
Fixpoint assign_all (malloc_ok : Z -> bool) (l : list (Z * Z)) (t : addrmap) : result addrmap :=
  match l with
  | [] => Ok t
  | (k, v) :: l => let* t := caml_addrmap_insert malloc_ok 60 t k v in assign_all malloc_ok l t
  end.

Lemma assign_all_ok malloc_ok l :
  (forall n, malloc_ok n = true -> n < 2 ^ 63) -> Forall (fun e => e.1 <> ADDRMAP_INVALID_KEY) l ->
  forall t M, addrmap_represents t M ->
  ok_or caml_fatal_out_of_memory (assign_all malloc_ok l t) (fun t' =>
    addrmap_represents t' (foldl (fun M e => <[e.1 := e.2]> M) M l)).
Proof.
  intros Hm. induction 1 as [|[k v] l Hk _ IH]; intros t M R; [done|]. cbn [assign_all foldl fst snd].
  apply (ok_or_bind _ _ _ (fun t' => addrmap_represents t' (<[k := v]> M))); [|intros t' R'; by apply IH].
  by apply insert_ok.
Qed.

(** C7: An address map refines a finite map: after any sequence of assignments to nonzero
    keys, from the empty table, across collisions, full chains and the growths of the table
    (which may have to be repeated), either memory was exhausted or the table answers as the
    map with the same assignments: [caml_addrmap_contains] and, for the keys that are
    present, [caml_addrmap_lookup], which ends; and the iteration runs its action once on
    each binding of the map. *)
Theorem addrmap_refines_map malloc_ok l :
  (forall n, malloc_ok n = true -> n < 2 ^ 63) -> Forall (fun e => e.1 <> ADDRMAP_INVALID_KEY) l ->
  let M : gmap Z Z := foldl (fun M e => <[e.1 := e.2]> M) ∅ l in
  ok_or caml_fatal_out_of_memory (assign_all malloc_ok l caml_addrmap_init) (fun t =>
    (forall k, k <> ADDRMAP_INVALID_KEY ->
       caml_addrmap_contains t k = Ok (bool_decide (is_Some (M !! k)))) /\
    (forall k v fuel, M !! k = Some v -> (MAX_CHAIN <= fuel)%nat ->
       caml_addrmap_lookup fuel t k = Ok v) /\
    (forall A (f : Z -> Z -> A -> result A) a, exists bs, bs ≡ₚ map_to_list M /\
       caml_addrmap_iter t f a = run_bindings f bs a)).
Proof.
  intros Hm Hl M. eapply ok_or_mono; [apply (assign_all_ok malloc_ok l Hm Hl caml_addrmap_init ∅); by left|].
  intros t R. fold M in R. clearbody M. split; [|split].
  - intros k Hk. destruct R as [[-> ->] | [[lg Sh] A]]; [|by apply (contains_ok Sh A)].
    by rewrite lookup_empty, bool_decide_eq_false_2 by apply is_Some_None.
  - intros k v fuel HM Hf. destruct R as [[-> E] | [[lg Sh] A]]; [by rewrite E, lookup_empty in HM|].
    by apply (lookup_ok Sh A).
  - intros A f a. by apply iter_represents.
Qed.

(** three hundred keys, more than the first table can hold *)
Lemma addrmap_refines_map_witness :
  let l := (fun k => (8 * k, k)) <$> seqZ 1 300 in
  rmap am_size (assign_all (fun n => n <? 2 ^ 40) l caml_addrmap_init) = Ok 512 /\
  ok_or caml_fatal_out_of_memory (assign_all (fun n => n <? 2 ^ 40) l caml_addrmap_init) (fun t =>
    caml_addrmap_contains t 2400 = Ok true /\ caml_addrmap_contains t 2408 = Ok false /\
    caml_addrmap_lookup 100 t 2400 = Ok 300).
Proof.
  split; [by vm_compute|].
  eapply ok_or_mono; [apply (addrmap_refines_map (fun n => n <? 2 ^ 40))|].
  - intros n Hn%Z.ltb_lt. lia.
  - apply (bool_decide_unpack _). by vm_compute.
  - intros t (H1 & H2 & _). rewrite !H1 by done. split_and!; [by vm_compute..|].
    apply (H2 2400 300 100%nat); [by vm_compute|done].
Defined.
