(* ===== verification/Majorgc.v ===== *)
(** * Marking of the major heap ([ocaml/runtime/major_gc.c])

    Marking visits the blocks of the major heap that can be reached from the roots.  A block
    is marked by changing the colour of its header; the fields still to be looked at are
    ranges of the mark stack, or, when the stack has grown too large for the heap, bits of
    the compressed stack, an address map from chunks of 64 words to sets of words; between
    the two, the blocks found go through a prefetch buffer of 256 values.

    The marking of a program of one domain is modelled: a compare-and-exchange on a header
    succeeds.  The stacks of continuations are scanned as the bytecode runtime does. *)

From S2P Require Import Prelude.
From S2P Require Import Mlvalues.
From S2P Require Import Str.
From S2P Require Import Memory.
From S2P Require Import Minorgc.
From S2P Require Import Addrmap.
#[local] Open Scope Z_scope.

(** ** Colours of headers *)

(** [struct global_heap_state] *)
Record global_heap_state := HeapState { MARKED : Z; UNMARKED : Z; GARBAGE : Z }.

Definition NOT_MARKABLE : Z := Z.shiftl 3 HEADER_COLOR_SHIFT.
Definition Has_status_hd (hd s : Z) : bool := Color_hd hd =? s.
Definition With_status_hd (hd s : Z) : Z := Hd_with_color hd s.
Definition Has_status_val (m : mem) (v s : Z) : result bool := rmap (fun hd => Has_status_hd hd s) (Hd_val m v).
Definition is_unmarked (gs : global_heap_state) (m : mem) (v : Z) : result bool :=
  Has_status_val m v (UNMARKED gs).

(** ** The mark stack *)

(** a span of fields: addresses in bytes *)
Record mark_entry := MarkEntry { me_start : Z; me_end : Z }.

(** [struct mark_stack]: [ms_stack] is the part of the array that is in use, [count] its
    length, [ms_size] the size of the array *)
Record mark_stack := MarkStack {
  ms_stack : list mark_entry;
  ms_size : Z;
  compressed_stack : addrmap;
  compressed_stack_iter : Z
}.

Definition ms_count (stk : mark_stack) : Z := zlen (ms_stack stk).
Definition sizeof_mark_entry : Z := 16.
Definition BITS_PER_WORD : Z := 64.
Definition MARK_STACK_INIT_SIZE : Z := Z.shiftl 1 12.

(** [me->end - me->start], in words *)
Definition me_length (me : mark_entry) : Z := (me_end me - me_start me) / 8.
Definition is_large (me : mark_entry) : bool := BITS_PER_WORD <? me_length me.

Definition chunk_mask : Z := u64 (Z.lnot (BITS_PER_WORD - 1)).
Definition ptr_to_chunk (ptr : Z) : Z := Z.land (u64 ptr / 8) chunk_mask.
Definition ptr_to_chunk_offset (ptr : Z) : Z := Z.land (u64 ptr / 8) (u64 (Z.lnot chunk_mask)).
Definition chunk_and_offset_to_ptr (chunk offset : Z) : Z := u64 (u64 (chunk + offset) * 8).

Section Stack.
(** whether memory is available for a block of some size, and the size in bytes of the
    heap of the domain *)
Context (malloc_ok : Z -> bool) (heap_bsize : Z).

(** the bits of a chunk are kept as an unsigned word *)
Definition add_addr (amap : addrmap) (ptr : Z) : result addrmap :=
  let chunk := ptr_to_chunk ptr in
  let offset := ptr_to_chunk_offset ptr in
  let flag := u64 (Z.shiftl 1 offset) in
  let* (amap, pos) := caml_addrmap_insert_pos malloc_ok 60 amap chunk in
  let* v := get_value amap pos in
  let* amap := (if v =? ADDRMAP_NOT_PRESENT then set_value amap pos 0 else Ok amap) in
  let* v := get_value amap pos in
  if Z.land v flag =? 0 then set_value amap pos (Z.lor v flag) else Ok amap.

(** [while (me.start < me.end) { ... me.start++ }] *)
Definition add_span (me : mark_entry) (amap : addrmap) : result addrmap :=
  for_loop (Z.to_nat (me_length me)) 0 (fun i amap => add_addr amap (me_start me + 8 * i)) amap.

(** the loop on the entries: those that stay on the stack, and the compressed stack *)
Fixpoint prune_entries (stack kept : list mark_entry) (amap : addrmap)
    : result (list mark_entry * addrmap) :=
  match stack with
  | [] => Ok (kept, amap)
  | me :: stack =>
      if is_large me then prune_entries stack (kept ++ [me]) amap
      else let* amap := add_span me amap in prune_entries stack kept amap
  end.

Definition mark_stack_prune (stk : mark_stack) : result mark_stack :=
  let* amap :=
    iter_loop (S (Z.to_nat (am_size (compressed_stack stk)))) (compressed_stack stk)
      (fun k v amap => caml_addrmap_insert malloc_ok 60 amap k v)
      (compressed_stack_iter stk) caml_addrmap_init in
  let* (kept, amap) := prune_entries (ms_stack stk) [] amap in
  let* it := caml_addrmap_iterator amap in
  Ok (MarkStack kept (ms_size stk) amap it).

(** the bytes of the large entries *)
Definition large_bsize (stack : list mark_entry) : Z :=
  u64 (sizeof_mark_entry * zlen (filter (fun me => is_large me = true) stack)).

Definition realloc_mark_stack (stk : mark_stack) : result mark_stack :=
  let mark_stack_bsize := u64 (ms_size stk * sizeof_mark_entry) in
  let mark_stack_large_bsize :=
    if heap_bsize / 32 <=? mark_stack_bsize then large_bsize (ms_stack stk) else 0 in
  if u64 (mark_stack_bsize - mark_stack_large_bsize) <? heap_bsize / 32 then
    let target_bsize :=
      u64 (u64 (mark_stack_bsize - mark_stack_large_bsize) * 2 + mark_stack_large_bsize) in
    if malloc_ok target_bsize
    then Ok (MarkStack (ms_stack stk) (target_bsize / sizeof_mark_entry)
               (compressed_stack stk) (compressed_stack_iter stk))
    else mark_stack_prune stk
  else mark_stack_prune stk.

(** writing an entry past the end of the array is undefined *)
Definition mark_stack_push_range (stk : mark_stack) (start end_ : Z) : result mark_stack :=
  let* stk := (if ms_count stk =? ms_size stk then realloc_mark_stack stk else Ok stk) in
  check ms_count stk <? ms_size stk else Undef;
  Ok (MarkStack (ms_stack stk ++ [MarkEntry start end_]) (ms_size stk)
        (compressed_stack stk) (compressed_stack_iter stk)).

(** ** Marking *)

Context (gs : global_heap_state) (ar : minor_area) (native_code : bool) (is_code : Z -> bool).

Definition Is_markable (v : Z) : bool := Is_block v && negb (Is_young ar v).

(** the domain as marking sees it, the counters of the domains and of the cycles of
    ephemerons, and the memory *)
Record mark_state := MarkState {
  mk_mem : mem;
  mk_stack : mark_stack;
  stat_blocks_marked : Z;
  marking_done : bool;
  num_domains_to_mark : Z;
  ephe_cycle : Z;
  num_domains_done : Z
}.

Definition with_mk_mem (st : mark_state) (m : mem) : mark_state :=
  MarkState m (mk_stack st) (stat_blocks_marked st) (marking_done st)
    (num_domains_to_mark st) (ephe_cycle st) (num_domains_done st).
Definition with_mk_stack (st : mark_state) (stk : mark_stack) : mark_state :=
  MarkState (mk_mem st) stk (stat_blocks_marked st) (marking_done st)
    (num_domains_to_mark st) (ephe_cycle st) (num_domains_done st).
Definition add_blocks_marked (st : mark_state) (n : Z) : mark_state :=
  MarkState (mk_mem st) (mk_stack st) (u64 (stat_blocks_marked st + n)) (marking_done st)
    (num_domains_to_mark st) (ephe_cycle st) (num_domains_done st).
Definition set_marking_done (st : mark_state) (b : bool) (n : Z) : mark_state :=
  MarkState (mk_mem st) (mk_stack st) (stat_blocks_marked st) b
    (u64 (num_domains_to_mark st + n)) (ephe_cycle st) (num_domains_done st).
Definition ephe_next_cycle (st : mark_state) : mark_state :=
  MarkState (mk_mem st) (mk_stack st) (stat_blocks_marked st) (marking_done st)
    (num_domains_to_mark st) (u64 (ephe_cycle st + 1)) 0.

Definition store_header (st : mark_state) (v hd : Z) : result mark_state :=
  rmap (with_mk_mem st) (store_word (mk_mem st) (v - 8) (s64 hd)).

(** [for (i = offset; i < end; i++) if (Is_markable(Field(block, i))) break]: [n] turns *)
Fixpoint first_markable (n : nat) (m : mem) (block i end_ : Z) : result Z :=
  match n with
  | O => Ok i
  | S n =>
      if i <? end_ then
        let* v := Field m block i in
        if Is_markable v then Ok i else first_markable n m block (i + 1) end_
      else Ok i
  end.

(** the work credited, and the state *)
Definition mark_stack_push_block (st : mark_state) (block : Z) : result (Z * mark_state) :=
  let* tag := Tag_val (mk_mem st) block in
  let* offset :=
    (if tag =? Closure_tag
     then rmap Start_env_closinfo (Closinfo_val (mk_mem st) block) else Ok 0) in
  let* hd := Hd_val (mk_mem st) block in
  let block_scannable_wsz := Scannable_wosize_hd native_code hd in
  let end_ := if block_scannable_wsz <? 8 then block_scannable_wsz else 8 in
  let* i := first_markable (Z.to_nat (end_ - s32 offset)) (mk_mem st) block (s32 offset) end_ in
  if i =? block_scannable_wsz then Ok (Whsize_wosize (block_scannable_wsz - offset), st)
  else
    let* stk := mark_stack_push_range (mk_stack st) (block + 8 * i) (block + 8 * block_scannable_wsz) in
    Ok (i - offset, with_mk_stack st stk).

Definition caml_shrink_mark_stack (stk : mark_stack) : result mark_stack :=
  let init_stack_bsize := MARK_STACK_INIT_SIZE * sizeof_mark_entry in
  check ms_count stk <=? MARK_STACK_INIT_SIZE else Undef;
  if malloc_ok init_stack_bsize
  then Ok (MarkStack (ms_stack stk) MARK_STACK_INIT_SIZE (compressed_stack stk) (compressed_stack_iter stk))
  else Ok stk.

Section DarkenCont.
Context (darken : mark_state -> Z -> Z -> result mark_state).

(** a continuation whose header is neither marked nor unmarked is being scanned by another
    domain: the loop would wait for it *)
Definition caml_darken_cont (fuel : nat) (st : mark_state) (cont : Z) : result mark_state :=
  let* hd := Hd_val (mk_mem st) cont in
  if Has_status_hd hd (MARKED gs) then Ok st
  else if Has_status_hd hd (UNMARKED gs) then
    let* st := store_header st cont (With_status_hd hd NOT_MARKABLE) in
    let* stk := Field (mk_mem st) cont 0 in
    let* st :=
      (if negb (Ptr_val stk =? 0)
       then caml_scan_stack mk_mem darken false is_code fuel (Ptr_val stk) st else Ok st) in
    store_header st cont (With_status_hd hd (MARKED gs))
  else NoFuel.
End DarkenCont.

(** the block that a value points into, and its header *)
Definition block_of (m : mem) (v : Z) : result (Z * Z) :=
  let* hd := Hd_val m v in
  if Tag_hd hd =? Infix_tag then
    let v := v - Infix_offset_hd hd in
    let* hd := Hd_val m v in Ok (v, hd)
  else Ok (v, hd).

(** [caml_darken(state, v, p)] *)
Fixpoint caml_darken (fuel : nat) (st : mark_state) (v p : Z) : result mark_state :=
  match fuel with
  | O => NoFuel
  | S fuel =>
      if negb (Is_markable v) then Ok st else
      let* (v, hd) := block_of (mk_mem st) v in
      if negb (Has_status_hd hd (UNMARKED gs)) then Ok st else
      let st := if marking_done st then set_marking_done st false 1 else st in
      if Tag_hd hd =? Cont_tag then caml_darken_cont (caml_darken fuel) fuel st v
      else
        let* st := store_header st v (With_status_hd hd (MARKED gs)) in
        if Tag_hd hd <? No_scan_tag then rmap snd (mark_stack_push_block st v) else Ok st
  end.

(** the state, and the work left *)
Definition mark_slice_darken (fuel : nat) (st : mark_state) (child work : Z) : result (mark_state * Z) :=
  if negb (Is_markable child) then Ok (st, work) else
  let* (child, chd) := block_of (mk_mem st) child in
  if negb (Has_status_hd chd (UNMARKED gs)) then Ok (st, work) else
  let st := add_blocks_marked st 1 in
  if Tag_hd chd =? Cont_tag then
    let* st := caml_darken_cont (caml_darken fuel) fuel st child in
    Ok (st, s64 (work - Allocated_wosize_hd chd))
  else
    let* st := store_header st child (With_status_hd chd (MARKED gs)) in
    if Tag_hd chd <? No_scan_tag then
      let* (credit, st) := mark_stack_push_block st child in Ok (st, s64 (work - credit))
    else Ok (st, s64 (work - Allocated_wosize_hd chd)).

(** ** The prefetch buffer *)

Definition PREFETCH_BUFFER_SIZE : Z := Z.shiftl 1 8.
Definition PREFETCH_BUFFER_MIN : Z := 64.
Definition PREFETCH_BUFFER_MASK : Z := PREFETCH_BUFFER_SIZE - 1.

Record prefetch_buffer := PrefetchBuffer {
  enqueued : Z; dequeued : Z; waterline : Z; buffer : list Z }.

Definition pb_init : prefetch_buffer :=
  PrefetchBuffer 0 0 PREFETCH_BUFFER_MIN (replicate (Z.to_nat PREFETCH_BUFFER_SIZE) 0).
Definition pb_full (pb : prefetch_buffer) : bool :=
  enqueued pb =? u64 (dequeued pb + PREFETCH_BUFFER_SIZE).
Definition pb_size (pb : prefetch_buffer) : Z := u64 (enqueued pb - dequeued pb).
Definition pb_above_waterline (pb : prefetch_buffer) : bool := waterline pb <? pb_size pb.
Definition pb_drain_mode (pb : prefetch_buffer) : prefetch_buffer :=
  PrefetchBuffer (enqueued pb) (dequeued pb) 0 (buffer pb).
Definition pb_fill_mode (pb : prefetch_buffer) : prefetch_buffer :=
  PrefetchBuffer (enqueued pb) (dequeued pb) PREFETCH_BUFFER_MIN (buffer pb).
Definition pb_push (pb : prefetch_buffer) (v : Z) : result prefetch_buffer :=
  let* buffer := wr (buffer pb) (Z.land (enqueued pb) PREFETCH_BUFFER_MASK) v in
  Ok (PrefetchBuffer (u64 (enqueued pb + 1)) (dequeued pb) (waterline pb) buffer).
Definition pb_pop (pb : prefetch_buffer) : result (Z * prefetch_buffer) :=
  let* v := rd (buffer pb) (Z.land (dequeued pb) PREFETCH_BUFFER_MASK) in
  Ok (v, PrefetchBuffer (enqueued pb) (u64 (dequeued pb + 1)) (waterline pb) (buffer pb)).

(** ** The marking loop *)

(** the local variables of [do_some_marking] *)
Record mark_loop := MarkLoop {
  ml_st : mark_state; ml_pb : prefetch_buffer; ml_budget : Z; ml_blocks : Z }.

(** what a turn does next: the next turn, a span to scan, or the end of the loop *)
Inductive turn :=
  | Continue (l : mark_loop)
  | Scan (l : mark_loop) (me : mark_entry)
  | Break (l : mark_loop).

(** a value from the prefetch buffer *)
Definition mark_block (fuel : nat) (l : mark_loop) (block : Z) : result turn :=
  let* (block, hd) := block_of (mk_mem (ml_st l)) block in
  if negb (Has_status_hd hd (UNMARKED gs)) then Ok (Continue l) else
  let blocks := u64 (ml_blocks l + 1) in
  if Tag_hd hd =? Cont_tag then
    let* st := caml_darken_cont (caml_darken fuel) fuel (ml_st l) block in
    Ok (Continue (MarkLoop st (ml_pb l) (s64 (ml_budget l - Allocated_wosize_hd hd)) blocks))
  else
  let* st := store_header (ml_st l) block (With_status_hd hd (MARKED gs)) in
  let budget := s64 (ml_budget l - 1) in
  if No_scan_tag <=? Tag_hd hd then
    Ok (Continue (MarkLoop st (ml_pb l) (s64 (budget - Allocated_wosize_hd hd)) blocks))
  else
  let reserved := Reserved_hd hd in
  let wosize := Allocated_wosize_hd hd in
  let (wsz, budget) :=
    if Is_mixed_block_reserved reserved then
      let scannable_wosize :=
        if native_code then Scannable_wosize_reserved_native reserved wosize else wosize in
      (scannable_wosize, s64 (budget - (wosize - scannable_wosize)))
    else (wosize, budget) in
  if Tag_hd hd =? Closure_tag then
    let* info := Closinfo_val (mk_mem st) block in
    let env_offset := Start_env_closinfo info in
    Ok (Scan (MarkLoop st (ml_pb l) (s64 (budget - env_offset)) blocks)
          (MarkEntry (block + 8 * env_offset) (block + 8 * wsz)))
  else
    Ok (Scan (MarkLoop st (ml_pb l) budget blocks) (MarkEntry block (block + 8 * wsz))).

(** the first part of a turn *)
Definition next_work (fuel : nat) (l : mark_loop) : result turn :=
  if pb_above_waterline (ml_pb l) then
    let* (block, pb) := pb_pop (ml_pb l) in
    mark_block fuel (MarkLoop (ml_st l) pb (ml_budget l) (ml_blocks l)) block
  else
    let stk := mk_stack (ml_st l) in
    if (ml_budget l <=? 0) || (ms_count stk =? 0) then
      if 0 <? waterline (ml_pb l)
      then Ok (Continue (MarkLoop (ml_st l) (pb_drain_mode (ml_pb l)) (ml_budget l) (ml_blocks l)))
      else Ok (Break l)
    else
      let* me := rd (ms_stack stk) (ms_count stk - 1) in
      let stk := MarkStack (take (Z.to_nat (ms_count stk - 1)) (ms_stack stk)) (ms_size stk)
                   (compressed_stack stk) (compressed_stack_iter stk) in
      Ok (Scan (MarkLoop (with_mk_stack (ml_st l) stk) (ml_pb l) (ml_budget l) (ml_blocks l)) me).

(** [for (; me.start < scan_end; me.start++)]: where it stops, the buffer, the budget;
    [n] turns *)
Fixpoint scan_span (n : nat) (m : mem) (start scan_end : Z) (pb : prefetch_buffer) (budget : Z)
    : result (Z * prefetch_buffer * Z) :=
  match n with
  | O => Ok (start, pb, budget)
  | S n =>
      if start <? scan_end then
        let* child := load m start in
        let budget := s64 (budget - 1) in
        if Is_markable child then
          if pb_full pb then Ok (start, pb, budget)
          else let* pb := pb_push pb child in scan_span n m (start + 8) scan_end pb budget
        else scan_span n m (start + 8) scan_end pb budget
      else Ok (start, pb, budget)
  end.

(** the second part of a turn *)
Definition scan_entry (l : mark_loop) (me : mark_entry) : result mark_loop :=
  let scan_end :=
    if ml_budget l <? me_length me
    then me_start me + 8 * (if ml_budget l <? 0 then 0 else ml_budget l) else me_end me in
  let* r := scan_span (Z.to_nat (me_length me)) (mk_mem (ml_st l)) (me_start me) scan_end
              (ml_pb l) (ml_budget l) in
  let '(start, pb, budget) := r in
  if start <? me_end me then
    let* stk := mark_stack_push_range (mk_stack (ml_st l)) start (me_end me) in
    let pb := if PREFETCH_BUFFER_MIN <? pb_size pb then pb_fill_mode pb else pb in
    Ok (MarkLoop (with_mk_stack (ml_st l) stk) pb budget (ml_blocks l))
  else Ok (MarkLoop (ml_st l) pb budget (ml_blocks l)).

(** [while (1) ...], [n] turns at most *)
Fixpoint marking_loop (n fuel : nat) (l : mark_loop) : result mark_loop :=
  match n with
  | O => NoFuel
  | S n =>
      let* t := next_work fuel l in
      match t with
      | Continue l => marking_loop n fuel l
      | Scan l me => let* l := scan_entry l me in marking_loop n fuel l
      | Break l => Ok l
      end
  end.

Definition do_some_marking (n fuel : nat) (st : mark_state) (budget : Z) : result (mark_state * Z) :=
  let* l := marking_loop n fuel (MarkLoop st pb_init budget 0) in
  Ok (add_blocks_marked (ml_st l) (ml_blocks l), ml_budget l).

(** [for (ofs = 0; ofs < BITS_PER_WORD; ofs++)]: the words of a chunk *)
Definition mark_chunk (fuel : nat) (chunk bitset : Z) (st_budget : mark_state * Z)
    : result (mark_state * Z) :=
  for_loop (Z.to_nat BITS_PER_WORD) 0 (fun ofs st_budget =>
    let (st, budget) := (st_budget : mark_state * Z) in
    if negb (Z.land bitset (u64 (Z.shiftl 1 ofs)) =? 0) then
      let p := chunk_and_offset_to_ptr chunk ofs in
      let* v := load (mk_mem st) p in
      mark_slice_darken fuel st v budget
    else Ok (st, budget)) st_budget.

(** one turn of the loop of [mark] *)
Definition mark_turn (n fuel : nat) (st_budget : mark_state * Z) : result (mark_state * Z) :=
  let (st, budget) := (st_budget : mark_state * Z) in
  let* (st, budget) := do_some_marking n fuel st budget in
  if 0 <? budget then
    let mstk := mk_stack st in
    let it := compressed_stack_iter mstk in
    if caml_addrmap_iter_ok (compressed_stack mstk) it then
      let* chunk := caml_addrmap_iter_key (compressed_stack mstk) it in
      let* bitset := caml_addrmap_iter_value (compressed_stack mstk) it in
      let* it := caml_addrmap_next (compressed_stack mstk) it in
      let st := with_mk_stack st (MarkStack (ms_stack mstk) (ms_size mstk) (compressed_stack mstk) it) in
      mark_chunk fuel chunk bitset (st, budget)
    else Ok (set_marking_done (ephe_next_cycle st) true (-1), budget)
  else Ok (st, budget).

Definition mark (n fuel : nat) (st : mark_state) (budget : Z) : result (mark_state * Z) :=
  while_loop n (fun '(st, budget) => (0 <? budget) && negb (marking_done st))
    (mark_turn n fuel) (st, budget).

(** the interrupts that are handled between two calls are not modelled *)
Definition caml_empty_mark_stack (n fuel : nat) (st : mark_state) : result mark_state :=
  let* st := while_loop n (fun st => negb (marking_done st))
    (fun st => rmap fst (mark n fuel st 1000)) st in
  Ok (MarkState (mk_mem st) (mk_stack st) 0 (marking_done st)
        (num_domains_to_mark st) (ephe_cycle st) (num_domains_done st)).

(** ** The beginning of a cycle *)

(** a scanning action on every address of a list *)
Definition darken_roots (fuel : nat) (rs : list Z) (st : mark_state) : result mark_state :=
  for_loop (length rs) 0 (fun i st =>
    let* p := rd rs i in
    let* v := load (mk_mem st) p in
    caml_darken fuel st v p) st.

(** the roots of a domain: of the running functions, the current stack, the tables of
    finalisers (of the finalisers that wait to be called, the arrays [item]), and the
    addresses that the hook, [caml_scan_global_roots] and [caml_memprof_scan_roots] visit *)
Record mark_roots := MarkRoots {
  mr_local : list roots_block; mr_stack : Z;
  mr_first : final_table; mr_last : final_table; mr_todo : list final_table;
  mr_hook : list Z; mr_global : list Z; mr_memprof : list Z }.

(** the entries of a table from the first one *)
Definition all_entries (ft : final_table) : final_table := FinalTable (ft_base ft) 0 (ft_young ft).

Definition final_root_slots (do_val : bool) (r : mark_roots) : list Z :=
  final_slots do_val (all_entries (mr_first r)) ++ final_slots do_val (all_entries (mr_last r)) ++
  (mr_todo r ≫= fun todo => final_slots true (all_entries todo)).

Definition caml_final_do_roots (fuel : nat) (r : mark_roots) (do_val : bool) (st : mark_state)
    : result mark_state :=
  darken_roots fuel (final_root_slots do_val r) st.

Definition caml_do_roots (fuel : nat) (r : mark_roots) (do_final_val : bool) (st : mark_state)
    : result mark_state :=
  let* st := caml_do_local_roots mk_mem (caml_darken fuel) false is_code fuel
               (mr_local r) (mr_stack r) st in
  let* st := darken_roots fuel (mr_hook r) st in
  caml_final_do_roots fuel r do_final_val st.

(** [start_marking], after the minor heap has been emptied; the list of ephemerons is not
    modelled *)
Definition start_marking (fuel : nat) (r : mark_roots) (st : mark_state) : result mark_state :=
  let* st := caml_do_roots fuel r false st in
  let* st := darken_roots fuel (mr_global r) st in
  let* st := darken_roots fuel (mr_memprof r) st in
  let mstk := mk_stack st in
  if (ms_count mstk =? 0) && negb (caml_addrmap_iter_ok (compressed_stack mstk) (compressed_stack_iter mstk))
  then Ok (set_marking_done st true (-1)) else Ok st.

(** [caml_finish_marking]: the cycle has not started when [started] is false *)
Definition caml_finish_marking (n fuel : nat) (started : bool) (r : mark_roots) (st : mark_state)
    : result mark_state :=
  if marking_done st then Ok st else
  let* st := (if started then Ok st else start_marking fuel r st) in
  let* st := caml_empty_mark_stack n fuel st in
  let* stk := caml_shrink_mark_stack (mk_stack st) in
  Ok (with_mk_stack st stk).
End Stack.

(** [caml_init_major_gc]: the mark stack of a new domain *)
Definition init_mark_stack : result mark_stack :=
  let* it := caml_addrmap_iterator caml_addrmap_init in
  Ok (MarkStack [] MARK_STACK_INIT_SIZE caml_addrmap_init it).
