(* ===== verification/Marking.v ===== *)
(** * Correctness of the marking of the major heap

    From a heap described by [major_heap_ok], the marking that starts from the roots of a
    program of one domain ends, and the blocks that it has marked are exactly the unmarked
    blocks that were reachable; nothing else of the memory has changed.

    The state is followed by a ghost state: the colours given to the blocks so far, the
    bindings of the compressed stack that are still to be visited, and the block of each
    entry of the mark stack.  The tricolour invariant says that a field of a marked block
    points to a block that has been given a colour, or is in the mark stack, in the
    compressed stack or in the prefetch buffer. *)

From S2P Require Import Prelude.
From S2P Require Import Mlvalues.
From S2P Require Import Str.
From S2P Require Import Memory.
From S2P Require Import Minorgc.
From S2P Require Import Scanning.
From S2P Require Import Addrmap.
From S2P Require Import Majorgc.
#[local] Open Scope Z_scope.

(** the sum of a function on a list *)
Definition zsum {A} (f : A -> Z) (l : list A) : Z := foldr (fun x s => f x + s) 0 l.

Lemma zsum_app {A} (f : A -> Z) l k : zsum f (l ++ k) = zsum f l + zsum f k.
Proof. induction l as [|x l IH]; cbn [zsum foldr app] in *; [done|]. fold (zsum f (l ++ k)) (zsum f l) in *. lia. Qed.

Lemma zsum_ge {A} (f : A -> Z) n l : (forall x, x ∈ l -> n <= f x) -> n * zlen l <= zsum f l.
Proof.
  induction l as [|x l IH]; intros H; [cbn; unfold zlen; cbn; lia|].
  rewrite zlen_cons. cbn [zsum foldr]. fold (zsum f l).
  pose proof (H x ltac:(by left)). specialize (IH ltac:(intros; apply H; by right)). lia.
Qed.

Lemma zsum_perm_filter {A} (f : A -> Z) (b : A -> bool) l :
  zsum f l = zsum f (filter (fun x => b x = false) l) + zsum f (filter (fun x => b x = true) l).
Proof.
  unfold zsum. induction l as [|x l IH]; [done|]. rewrite !filter_cons.
  destruct (b x); repeat case_decide; try done; cbn [foldr] in *; lia.
Qed.

Lemma size_without (U D : gset Z) b : b ∈ U -> b ∉ D -> (size (U ∖ D) = S (size (U ∖ ({[b]} ∪ D))))%nat.
Proof.
  intros Hu Hd. replace (U ∖ ({[b]} ∪ D)) with ((U ∖ D) ∖ {[b]}) by set_solver.
  rewrite (size_difference (U ∖ D) {[b]}) by set_solver. rewrite size_singleton.
  assert (size (U ∖ D) <> 0)%nat; [|lia]. apply size_non_empty_iff. set_solver.
Qed.

Lemma Forall2_filter_l {A C} (P : A -> C -> Prop) (Q : A -> Prop) `{forall x, Decision (Q x)} l k :
  Forall2 P l k -> exists k', Forall2 P (filter Q l) k' /\ k' `sublist_of` k.
Proof.
  induction 1 as [|x y l k Hxy _ (k' & F & Sb)]; [by exists []|]. rewrite filter_cons. destruct (decide (Q x)).
  - exists (y :: k'). split; [by constructor|]. by constructor.
  - exists k'. split; [done|]. by constructor.
Qed.

Definition is_color (c : Z) : Prop := exists n, 0 <= n < 4 /\ c = Z.shiftl n HEADER_COLOR_SHIFT.

Lemma NOT_MARKABLE_color : is_color NOT_MARKABLE.
Proof. by exists 3. Qed.

(** the header with another colour *)
Lemma with_status_fields hd c : is_u64 hd -> is_color c ->
  is_u64 (With_status_hd hd c) /\ Tag_hd (With_status_hd hd c) = Tag_hd hd /\
  Allocated_wosize_hd (With_status_hd hd c) = Allocated_wosize_hd hd /\
  Reserved_hd (With_status_hd hd c) = Reserved_hd hd /\
  forall s, Has_status_hd (With_status_hd hd c) s = (c =? s).
Proof.
  intros Hu (n & Hn & ->). pose proof (Hd_with_color_fields hd n Hu Hn) as (H1 & H2 & H3 & H4 & H5).
  unfold With_status_hd. split_and!; try done. intros s. unfold Has_status_hd. by rewrite H4.
Qed.

(** ** The prefetch buffer is a queue *)

(** [pb] holds the values [q], the oldest first *)
Record queue_of (pb : prefetch_buffer) (q : list Z) : Prop := {
  qu_length : zlen q <= PREFETCH_BUFFER_SIZE;
  qu_dequeued : is_u64 (dequeued pb);
  qu_enqueued : enqueued pb = u64 (dequeued pb + zlen q);
  qu_buffer : zlen (buffer pb) = PREFETCH_BUFFER_SIZE;
  qu_values : forall k v, q !! k = Some v ->
    rd (buffer pb) ((dequeued pb + Z.of_nat k) mod PREFETCH_BUFFER_SIZE) = Ok v
}.

Lemma queue_init : queue_of pb_init [].
Proof. by split. Qed.

Lemma buffer_index x : Z.land x PREFETCH_BUFFER_MASK = x mod PREFETCH_BUFFER_SIZE.
Proof. unfold PREFETCH_BUFFER_MASK. change (PREFETCH_BUFFER_SIZE - 1) with (Z.ones 8). by rewrite Z.land_ones. Qed.

Lemma u64_mod_256 x : u64 x mod 256 = x mod 256.
Proof. unfold u64. zlia. Qed.

Lemma queue_size pb q : queue_of pb q -> pb_size pb = zlen q.
Proof.
  intros Q. unfold pb_size. rewrite (qu_enqueued _ _ Q). pose proof (qu_length _ _ Q) as L.
  pose proof (qu_dequeued _ _ Q). change PREFETCH_BUFFER_SIZE with 256 in L. pose proof (zlen_nonneg q). solve_word.
Qed.

Lemma queue_full pb q : queue_of pb q -> pb_full pb = (zlen q =? PREFETCH_BUFFER_SIZE).
Proof.
  intros Q. unfold pb_full. rewrite (qu_enqueued _ _ Q). pose proof (qu_length _ _ Q) as L.
  pose proof (qu_dequeued _ _ Q). change PREFETCH_BUFFER_SIZE with 256 in *. pose proof (zlen_nonneg q).
  apply eq_true_iff_eq. rewrite !Z.eqb_eq. solve_word.
Qed.

Lemma queue_pop pb v q : queue_of pb (v :: q) ->
  exists pb', pb_pop pb = Ok (v, pb') /\ queue_of pb' q /\ waterline pb' = waterline pb.
Proof.
  intros [L Dq Eq Bf Vs]. unfold pb_pop. rewrite buffer_index.
  pose proof (Vs 0%nat v eq_refl) as E. rewrite Z.add_0_r in E. rewrite E. cbn [rbind].
  eexists. split; [done|]. split; [|done]. rewrite zlen_cons in L, Eq.
  change PREFETCH_BUFFER_SIZE with 256 in *. split; cbn [enqueued dequeued buffer]; try done.
  - change PREFETCH_BUFFER_SIZE with 256. lia.
  - apply u64_range.
  - rewrite Eq. unfold u64. rewrite Z.add_mod_idemp_l by lia. f_equal. lia.
  - intros k w Hk. change PREFETCH_BUFFER_SIZE with 256. rewrite <- (Vs (S k) w Hk). f_equal.
    rewrite <- (u64_mod_256 (dequeued pb + Z.of_nat (S k))), <- (u64_mod_256 (_ + _)). f_equal.
    unfold u64. rewrite Z.add_mod_idemp_l by lia. f_equal. lia.
Qed.

Lemma queue_push pb q v : queue_of pb q -> zlen q < PREFETCH_BUFFER_SIZE ->
  exists pb', pb_push pb v = Ok pb' /\ queue_of pb' (q ++ [v]) /\ waterline pb' = waterline pb.
Proof.
  intros [L Dq Eq Bf Vs] Hl. unfold pb_push. rewrite buffer_index, Eq.
  change PREFETCH_BUFFER_SIZE with 256 in *. rewrite u64_mod_256. pose proof (zlen_nonneg q).
  set (i := (dequeued pb + zlen q) mod 256). assert (Hi : 0 <= i < zlen (buffer pb)) by (unfold i; zlia).
  rewrite wr_in_range by done. cbn [rbind]. eexists. split; [done|]. split; [|done].
  split; cbn [enqueued dequeued buffer]; change PREFETCH_BUFFER_SIZE with 256; rewrite ?zlen_insert, ?zlen_snoc; try done.
  - lia.
  - unfold u64. rewrite Z.add_mod_idemp_l by lia. f_equal. lia.
  - intros k w Hk. destruct (decide (k = length q)) as [->|Nk].
    + rewrite lookup_app_r, Nat.sub_diag in Hk by lia. injection Hk as <-. fold (zlen q) i. by rewrite rd_insert_eq.
    + assert (Hlt : (k < length q)%nat).
      { apply lookup_lt_Some in Hk. rewrite length_app in Hk. simpl in Hk. lia. }
      rewrite lookup_app_l in Hk by done. unfold zlen in *.
      rewrite rd_insert_ne; [by apply Vs|lia|zlia|]. unfold i. zlia.
Qed.

(** ** The room for large entries

    A stack that is full of entries of more than 64 words, in a domain whose own heap is at
    most 32 times as large as the stack, is "grown" to the size it has, since only the
    entries that can be compressed are counted twice: the entry pushed is written past the
    end of the array.  The blocks of the entries may be in the heaps of other domains; when
    they are in the heap of the domain, as [major_heap_ok] below says, that heap is larger. *)

Definition full_of_large (stk : mark_stack) : Prop :=
  ms_count stk = ms_size stk /\ Forall (fun me => is_large me = true) (ms_stack stk).

Lemma large_bsize_all stack : Forall (fun me => is_large me = true) stack -> zlen stack < 2 ^ 59 ->
  large_bsize stack = 16 * zlen stack.
Proof.
  intros F Hl. unfold large_bsize, sizeof_mark_entry.
  assert (filter (fun me => is_large me = true) stack = stack) as ->.
  { induction F as [|me stack Hme F IH]; [done|]. rewrite zlen_cons in Hl. rewrite filter_cons_True by done.
    f_equal. apply IH. lia. }
  apply u64_id. unfold is_u64. pose proof (zlen_nonneg stack). lia.
Qed.

(** C25: where the room for large entries is missing: on a full stack whose entries are all
    of more than 64 words, and at least 1/32 of the heap of the domain in size, growing
    succeeds and the entry is written past the end of the array *)
Theorem mark_stack_push_range_overflow malloc_ok heap_bsize stk start end_ :
  full_of_large stk -> ms_size stk < 2 ^ 59 -> malloc_ok (16 * ms_size stk) = true ->
  32 <= heap_bsize <= 512 * ms_size stk ->
  mark_stack_push_range malloc_ok heap_bsize stk start end_ = Undef.
Proof.
  intros [Hc F] Hs Hm Hh. unfold mark_stack_push_range, realloc_mark_stack, sizeof_mark_entry.
  rewrite Hc, Z.eqb_refl, (large_bsize_all _ F) by (unfold ms_count in Hc; lia).
  fold (ms_count stk). rewrite Hc, (u64_id (ms_size stk * 16)) by (unfold is_u64; lia).
  rewrite (proj2 (Z.leb_le _ _)) by zlia. replace (ms_size stk * 16 - 16 * ms_size stk) with 0 by lia.
  change (u64 0) with 0. rewrite (proj2 (Z.ltb_lt 0 _)) by zlia.
  rewrite (u64_id (u64 (0 * 2) + _)) by (change (u64 (0 * 2)) with 0; unfold is_u64; lia).
  change (u64 (0 * 2)) with 0. rewrite Z.add_0_l, Hm. cbn [rbind ms_count ms_stack ms_size].
  fold (ms_count stk). replace (16 * ms_size stk / 16) with (ms_size stk) by zlia.
  unfold ms_count in *. cbn [ms_stack]. by rewrite Hc, Z.ltb_irrefl.
Qed.

(** the initial stack, full of arrays of 65 words, in a heap of a megabyte *)
Lemma mark_stack_push_range_overflow_witness :
  let stk := MarkStack (replicate 4096 (MarkEntry 512 1032)) MARK_STACK_INIT_SIZE caml_addrmap_init 0 in
  realloc_mark_stack (fun n => n <? 2 ^ 40) (2 ^ 20) stk = Ok stk /\
  mark_stack_push_range (fun n => n <? 2 ^ 40) (2 ^ 20) stk 2048 2568 = Undef.
Proof.
  intros stk. split; [by vm_compute|].
  apply (mark_stack_push_range_overflow (fun n => n <? 2 ^ 40) (2 ^ 20) stk).
  - split; [by vm_compute|by apply Forall_replicate].
  - by vm_compute.
  - by vm_compute.
  - split; vm_compute; intros E; discriminate E.
Defined.

(** the same when the stack cannot grow: compressing leaves the large entries *)
Lemma mark_stack_push_range_no_memory malloc_ok heap_bsize stk start end_ :
  full_of_large stk -> (forall n, malloc_ok n = false) ->
  compressed_stack stk = caml_addrmap_init -> caml_addrmap_iter_ok caml_addrmap_init (compressed_stack_iter stk) = false ->
  mark_stack_push_range malloc_ok heap_bsize stk start end_ = Undef.
Proof.
  intros [Hc F] Hm Ha Hi. unfold mark_stack_push_range, realloc_mark_stack. rewrite Hc, Z.eqb_refl, Hm.
  assert (E : mark_stack_prune malloc_ok stk = Ok (MarkStack (ms_stack stk) (ms_size stk) caml_addrmap_init (u64 (-1)))).
  { unfold mark_stack_prune. rewrite Ha.
    assert (Hp : forall l kept am, Forall (fun me => is_large me = true) l -> prune_entries malloc_ok l kept am = Ok (kept ++ l, am)).
    { induction l as [|me l IH]; intros kept am Fl; cbn [prune_entries]; [by rewrite app_nil_r|]. apply Forall_cons in Fl as [Hme Fl].
      rewrite Hme, (IH _ _ Fl). by rewrite <- app_assoc. }
    cbn [iter_loop]. rewrite Hi. cbn [rbind]. rewrite (Hp _ [] _ F). by vm_compute. }
  rewrite E. destruct (_ <? _); cbn [rbind]; unfold ms_count in *; cbn [ms_stack ms_size]; by rewrite Hc, Z.ltb_irrefl.
Qed.

Section Marking.
(** the environment of the marking, the memory at the start, the blocks of the major heap,
    a bound on the length of a chain of stacks, and on the number of fields of a block *)
Context (malloc_ok : Z -> bool) (heap_bsize : Z).
Context (gs : global_heap_state) (ar : minor_area) (native_code : bool) (is_code : Z -> bool).
Context (m0 : mem) (B : gset Z) (K : nat) (N : Z).

Definition hd0 (v : Z) : Z := u64 (word m0 (v - 8)).
Definition tag0 (v : Z) : Z := Tag_hd (hd0 v).
Definition wosize0 (v : Z) : Z := Allocated_wosize_hd (hd0 v).
Definition scannable0 (v : Z) : Z := Scannable_wosize_hd native_code (hd0 v).
Definition unmarked0 (v : Z) : Prop := Has_status_hd (hd0 v) (UNMARKED gs) = true.

(** the first field that is scanned *)
Definition first0 (v : Z) : Z :=
  if tag0 v =? Closure_tag then Start_env_closinfo (word m0 (v + 8)) else 0.

(** blocks whose fields are scanned from the mark stack *)
Definition plain (v : Z) : Prop := tag0 v < No_scan_tag /\ tag0 v <> Cont_tag.

(** the stack of a continuation *)
Definition cont_stack (v : Z) : Z := Ptr_val (word m0 v).
Definition cont_slots (v : Z) : list Z :=
  if cont_stack v =? 0 then [] else
  match stack_slots K m0 (cont_stack v) with Ok (slots, _) => slots | _ => [] end.

(** the addresses whose words are looked at for a block *)
Definition scan_addrs (v : Z) : list Z :=
  if No_scan_tag <=? tag0 v then []
  else if tag0 v =? Cont_tag
  then filter (fun p => is_scannable false is_code (word m0 p) = true) (cont_slots v)
  else (fun i => v + 8 * i) <$> seqZ (first0 v) (scannable0 v - first0 v).

(** an address that marking never changes: that of no header *)
Definition frozen (a : Z) : Prop := a + 8 ∉ B.

(** the unmarked blocks of more than 64 words *)
Definition large_blocks : gset Z := filter (fun b => Has_status_hd (hd0 b) (UNMARKED gs) = true /\ 64 < wosize0 b) B.

(** a value that points to a block of the major heap, or inside a closure *)
Definition points_to (v b : Z) : Prop :=
  Is_markable ar v = true /\ b ∈ B /\
  (v = b \/ (is_Some (m0 !! (v - 8)) /\ frozen (v - 8) /\
             Tag_hd (hd0 v) = Infix_tag /\ v - Infix_offset_hd (hd0 v) = b)).

Definition good_value (v : Z) : Prop := Is_markable ar v = true -> exists b, points_to v b.

Record major_heap_ok : Prop := {
  mj_bound : 0 <= N;
  mj_marked : is_color (MARKED gs);
  mj_unmarked : is_color (UNMARKED gs);
  mj_colors : MARKED gs <> UNMARKED gs /\ MARKED gs <> NOT_MARKABLE /\ UNMARKED gs <> NOT_MARKABLE;
  mj_address : forall b, b ∈ B -> 512 <= b /\ b mod 8 = 0 /\ b + 8 * wosize0 b < 2 ^ 63;
  mj_mapped : forall b i, b ∈ B -> -1 <= i < wosize0 b -> is_Some (m0 !! (b + 8 * i));
  mj_disjoint : forall b c, b ∈ B -> c ∈ B -> b <> c ->
    b + 8 * wosize0 b <= c - 8 \/ c + 8 * wosize0 c <= b - 8;
  mj_tag : forall b, b ∈ B -> tag0 b <> Infix_tag;
  mj_fields : forall b, b ∈ B -> unmarked0 b -> plain b ->
    0 <= first0 b <= scannable0 b /\ scannable0 b <= wosize0 b /\ first0 b < 2 ^ 31 /\
    scannable0 b <= N /\ (tag0 b = Closure_tag -> 2 <= wosize0 b);
  mj_cont : forall b, b ∈ B -> unmarked0 b -> tag0 b = Cont_tag -> 1 <= wosize0 b /\
    (cont_stack b <> 0 -> exists slots reads, stack_slots K m0 (cont_stack b) = Ok (slots, reads) /\
       Forall frozen reads /\ Forall (fun p => frozen p /\ is_Some (m0 !! p)) slots);
  mj_values : forall b p, b ∈ B -> unmarked0 b -> p ∈ scan_addrs b -> good_value (word m0 p);
  mj_heap : forall bs, NoDup bs -> (forall b, b ∈ bs -> b ∈ B /\ unmarked0 b) ->
    zsum (fun b => 8 * (wosize0 b + 1)) bs <= heap_bsize < 2 ^ 60
}.

Context (W : major_heap_ok).

(** ** The memory during the marking *)

(** [m] is the initial memory, except that the blocks of [c] have been given a colour *)
Definition recolored (c : gmap Z Z) (m : mem) : Prop :=
  forall a, m !! a =
    match c !! (a + 8) with
    | Some col => Some (s64 (With_status_hd (hd0 (a + 8)) col))
    | None => m0 !! a
    end.

(** the header of a block in a coloured memory *)
Definition hd_of (c : gmap Z Z) (b : Z) : Z :=
  match c !! b with Some col => With_status_hd (hd0 b) col | None => hd0 b end.

(** the colours that may be given *)
Definition colors_ok (c : gmap Z Z) : Prop :=
  forall b col, c !! b = Some col -> b ∈ B /\ unmarked0 b /\ (col = MARKED gs \/ col = NOT_MARKABLE).

Lemma hd0_u64 v : is_u64 (hd0 v).
Proof. apply u64_range. Qed.

Lemma colors_color c b col : colors_ok c -> c !! b = Some col -> is_color col.
Proof. intros C E. destruct (C b col E) as (_ & _ & [-> | ->]); [apply (mj_marked W)|apply NOT_MARKABLE_color]. Qed.

Lemma recolored_frozen c m a : colors_ok c -> recolored c m -> frozen a -> m !! a = m0 !! a.
Proof.
  intros C Hm Fa. rewrite Hm. destruct (c !! (a + 8)) as [col|] eqn:E; [|done].
  by destruct (C _ _ E) as [Hb _].
Qed.

Lemma marked_header_mapped b : b ∈ B -> is_Some (m0 !! (b - 8)).
Proof.
  intros Hb. pose proof (Allocated_wosize_nonneg (hd := hd0 b)).
  replace (b - 8) with (b + 8 * -1) by lia. apply (mj_mapped W); [done|]. unfold wosize0. lia.
Qed.

Lemma Hd_val_recolored c m b : colors_ok c -> recolored c m -> b ∈ B -> Hd_val m b = Ok (hd_of c b).
Proof.
  intros C Hm Hb. unfold Hd_val, rmap, hd_of. unfold load at 1. rewrite Hm.
  replace (b - 8 + 8) with b by lia. destruct (c !! b) as [col|] eqn:E.
  - cbn [of_option rbind]. rewrite u64_s64, u64_id; [done|].
    by destruct (with_status_fields (hd0 b) col (hd0_u64 b) (colors_color _ _ _ C E)).
  - destruct (marked_header_mapped b Hb) as [x Ex]. rewrite Ex. cbn [of_option rbind]. unfold hd0.
    by rewrite (word_Some _ _ _ Ex).
Qed.

Section HdOf.
Context {c : gmap Z Z} {b : Z} (C : colors_ok c).

Lemma hd_of_tag : Tag_hd (hd_of c b) = tag0 b.
Proof.
  unfold hd_of. destruct (c !! b) as [col|] eqn:E; [|done].
  by destruct (with_status_fields (hd0 b) col (hd0_u64 b) (colors_color _ _ _ C E)) as (_ & -> & _).
Qed.

Lemma hd_of_wosize : Allocated_wosize_hd (hd_of c b) = wosize0 b.
Proof.
  unfold hd_of. destruct (c !! b) as [col|] eqn:E; [|done].
  by destruct (with_status_fields (hd0 b) col (hd0_u64 b) (colors_color _ _ _ C E)) as (_ & _ & -> & _).
Qed.

Lemma hd_of_reserved : Reserved_hd (hd_of c b) = Reserved_hd (hd0 b).
Proof.
  unfold hd_of. destruct (c !! b) as [col|] eqn:E; [|done].
  by destruct (with_status_fields (hd0 b) col (hd0_u64 b) (colors_color _ _ _ C E)) as (_ & _ & _ & -> & _).
Qed.

Lemma hd_of_scannable : Scannable_wosize_hd native_code (hd_of c b) = scannable0 b.
Proof.
  unfold scannable0, Scannable_wosize_hd, Scannable_wosize_hd_native.
  rewrite hd_of_reserved. fold (wosize0 b). by rewrite <- hd_of_wosize.
Qed.

Lemma hd_of_unmarked : Has_status_hd (hd_of c b) (UNMARKED gs) = true <-> unmarked0 b /\ c !! b = None.
Proof.
  unfold hd_of. destruct (c !! b) as [col|] eqn:E; [|tauto]. pose proof (mj_colors W).
  destruct (with_status_fields (hd0 b) col (hd0_u64 b) (colors_color _ _ _ C E)) as (_ & _ & _ & _ & ->).
  destruct (C b col E) as (_ & _ & Hc). rewrite Z.eqb_eq. split; [|by intros [_ ?]]. intros ->. destruct Hc; naive_solver.
Qed.
End HdOf.

(** giving a colour to a block *)
Lemma recolored_insert c m b col : recolored c m ->
  recolored (<[b := col]> c) (<[b - 8 := s64 (With_status_hd (hd0 b) col)]> m).
Proof.
  intros Hm a. destruct (decide (a = b - 8)) as [->|Na].
  - rewrite lookup_insert_eq. replace (b - 8 + 8) with b by lia. by rewrite lookup_insert_eq.
  - rewrite lookup_insert_ne by done. rewrite lookup_insert_ne by lia. apply Hm.
Qed.

(** ** Addresses and values *)

Lemma wosize0_nonneg b : 0 <= wosize0 b.
Proof. apply (Allocated_wosize_nonneg (hd := hd0 b)). Qed.

Lemma field_frozen b i : b ∈ B -> 0 <= i < wosize0 b -> frozen (b + 8 * i).
Proof.
  intros Hb Hi Hc. pose proof (wosize0_nonneg (b + 8 * i + 8)).
  destruct (mj_disjoint W b (b + 8 * i + 8) Hb Hc); lia.
Qed.

Lemma points_to_fun v b b' : points_to v b -> points_to v b' -> b = b'.
Proof.
  intros (_ & Hb & [-> | (M & F & T & E)]) (_ & Hb' & [E' | (M' & F' & T' & E')]); try congruence.
  - by destruct (mj_tag W b Hb).
  - subst v. by destruct (mj_tag W b' Hb').
Qed.

Lemma target_block_ok c m v b : colors_ok c -> recolored c m -> points_to v b ->
  block_of m v = Ok (b, hd_of c b).
Proof.
  intros C Hm (_ & Hb & [-> | (M & F & T & <-)]).
  - unfold block_of. rewrite (Hd_val_recolored c m b C Hm Hb). cbn [rbind]. rewrite (hd_of_tag C).
    by rewrite (proj2 (Z.eqb_neq _ _) (mj_tag W b Hb)).
  - unfold block_of. unfold Hd_val at 1, rmap, load. rewrite (recolored_frozen c m (v - 8) C Hm F).
    destruct M as [x Ex]. rewrite Ex. cbn [of_option rbind].
    assert (u64 x = hd0 v) as -> by (unfold hd0; by rewrite (word_Some _ _ _ Ex)).
    rewrite T, Z.eqb_refl, (Hd_val_recolored c m _ C Hm Hb). done.
Qed.

Lemma load_frozen c m p : colors_ok c -> recolored c m -> frozen p -> is_Some (m0 !! p) ->
  load m p = Ok (word m0 p).
Proof.
  intros C Hm F M. unfold load. rewrite (recolored_frozen c m p C Hm F). by apply load_word.
Qed.

Lemma plain_addrs b : plain b ->
  scan_addrs b = (fun i => b + 8 * i) <$> seqZ (first0 b) (scannable0 b - first0 b).
Proof.
  intros [H1 H2]. unfold scan_addrs. rewrite (proj2 (Z.leb_gt _ _) H1).
  by rewrite (proj2 (Z.eqb_neq _ _) H2).
Qed.

Lemma elem_of_plain_addrs b p : plain b ->
  p ∈ scan_addrs b <-> exists i, first0 b <= i < scannable0 b /\ p = b + 8 * i.
Proof.
  intros Pl. rewrite (plain_addrs b Pl), list_elem_of_fmap. setoid_rewrite elem_of_seqZ.
  split; intros (i & Hi); exists i; split; try tauto; destruct Hi; lia.
Qed.

Lemma scan_addr_ok b p : b ∈ B -> unmarked0 b -> p ∈ scan_addrs b -> frozen p /\ is_Some (m0 !! p).
Proof.
  intros Hb Hu Hp. unfold scan_addrs in Hp.
  destruct (Z.leb_spec No_scan_tag (tag0 b)) as [L|L]; [by apply elem_of_nil in Hp|].
  destruct (Z.eqb_spec (tag0 b) Cont_tag) as [T|T].
  - apply list_elem_of_filter in Hp as [_ Hp]. destruct (mj_cont W b Hb Hu T) as [_ Hc].
    unfold cont_slots in Hp. destruct (Z.eqb_spec (cont_stack b) 0); [by apply elem_of_nil in Hp|].
    destruct Hc as (slots & reads & E & _ & F); [done|]. rewrite E in Hp. rewrite Forall_forall in F. by apply F.
  - assert (Pl : plain b) by done. destruct (mj_fields W b Hb Hu Pl) as (F1 & F2 & _).
    apply list_elem_of_fmap in Hp as (i & -> & Hi%elem_of_seqZ).
    split; [apply field_frozen; [done|lia]|apply (mj_mapped W); [done|lia]].
Qed.

Lemma plain_addr_bounds b p : b ∈ B -> unmarked0 b -> plain b -> p ∈ scan_addrs b ->
  512 <= p < 2 ^ 63 /\ p mod 8 = 0.
Proof.
  intros Hb Hu Pl (i & Hi & ->)%(elem_of_plain_addrs b p Pl).
  destruct (mj_fields W b Hb Hu Pl) as (F1 & F2 & _), (mj_address W b Hb) as (A1 & A2 & A3). split; [lia|zlia].
Qed.

(** ** The words of the compressed stack *)

(** [p] is the address of a set bit of a binding *)
Definition bit_addr (p : Z) (e : Z * Z) : Prop :=
  exists ofs, 0 <= ofs < BITS_PER_WORD /\ Z.testbit (snd e) ofs = true /\ p = 8 * (fst e + ofs).

Lemma chunk_of_addr p : 0 <= p < 2 ^ 63 -> p mod 8 = 0 ->
  let k := ptr_to_chunk p in let o := ptr_to_chunk_offset p in
  k = p / 512 * 64 /\ 0 <= o < BITS_PER_WORD /\ p = 8 * (k + o).
Proof.
  intros Hp Ha. cbv zeta. unfold ptr_to_chunk, ptr_to_chunk_offset, chunk_mask, BITS_PER_WORD.
  rewrite u64_id by (unfold is_u64; lia). change (64 - 1) with (Z.ones 6).
  change (u64 (Z.lnot (Z.ones 6))) with (Z.shiftl (Z.ones 58) 6).
  change (u64 (Z.lnot (Z.shiftl (Z.ones 58) 6))) with (Z.ones 6).
  rewrite land_field, Z.land_ones by lia. change (2 ^ 6) with 64. change (2 ^ 58) with 288230376151711744.
  rewrite (Z.mod_small (p / 8 / 64)) by zlia. zlia.
Qed.

Lemma ptr_of_chunk k o : 0 <= k -> 0 <= o -> 8 * (k + o) < 2 ^ 63 -> chunk_and_offset_to_ptr k o = 8 * (k + o).
Proof. intros. unfold chunk_and_offset_to_ptr. rewrite (u64_id (k + o)), u64_id by (unfold is_u64; lia). lia. Qed.

Lemma flag_of_offset o : 0 <= o < BITS_PER_WORD -> u64 (Z.shiftl 1 o) = 2 ^ o.
Proof.
  unfold BITS_PER_WORD. intros Ho. rewrite Z.shiftl_1_l. apply u64_id. unfold is_u64.
  split; [apply Z.pow_nonneg; lia|apply Z.pow_lt_mono_r; lia].
Qed.

(** the words of a map of chunks *)
Definition map_addr (A : gmap Z Z) (p : Z) : Prop := exists e, A !! fst e = Some (snd e) /\ bit_addr p e.

Definition chunks_ok (A : gmap Z Z) : Prop :=
  forall k v, A !! k = Some v -> 0 < k /\ 0 <= v < 2 ^ 64.

Lemma lor_set_bit v o : Z.testbit v o = true -> Z.lor v (2 ^ o) = v.
Proof.
  intros Hb. apply Z.bits_inj'. intros i Hi. rewrite Z.lor_spec.
  destruct (decide (o < 0)); [by rewrite Z.testbit_neg_r in Hb by lia|].
  rewrite Z.pow2_bits_eqb by lia. destruct (Z.eqb_spec o i) as [->|]; [by rewrite Hb|apply orb_false_r].
Qed.

(** one more bit in the entry of a chunk *)
Lemma add_bit_map A p k o : chunks_ok A -> 0 < k -> 0 <= o < BITS_PER_WORD -> p = 8 * (k + o) ->
  let v := default ADDRMAP_NOT_PRESENT (A !! k) in 0 <= v < 2 ^ 64 ->
  let A' := <[k := Z.lor v (2 ^ o)]> A in
  chunks_ok A' /\ (size A' <= S (size A))%nat /\ forall q, map_addr A' q <-> map_addr A q \/ q = p.
Proof.
  intros C Hk Ho Ep v Hv A'. unfold BITS_PER_WORD in Ho.
  assert (Hbits : forall i, Z.testbit (Z.lor v (2 ^ o)) i = Z.testbit v i || (o =? i)).
  { intros i. rewrite Z.lor_spec. by rewrite Z.pow2_bits_eqb by lia. }
  split; [|split].
  - intros k' w. unfold A'. destruct (decide (k' = k)) as [->|Nk].
    + rewrite lookup_insert_eq. intros [= <-]. split; [done|]. apply bits_range; [lia|apply Z.lor_nonneg; lia|].
      intros i Hi. rewrite Hbits. rewrite (proj2 (Z.eqb_neq _ _)) by lia. rewrite orb_false_r.
      destruct (decide (v = 0)) as [->|]; [apply Z.testbit_0_l|]. apply Z.bits_above_log2; [lia|].
      enough (Z.log2 v < 64) by lia. apply Z.log2_lt_pow2; lia.
    + rewrite lookup_insert_ne by done. apply C.
  - unfold A'. destruct (A !! k) as [w|] eqn:E.
    + rewrite map_size_insert_Some by done. lia.
    + by rewrite map_size_insert_None.
  - assert (Hold : forall ofs, Z.testbit v ofs = true -> A !! k = Some v).
    { intros ofs Hb. unfold v in *. destruct (A !! k) as [w|]; cbn [default] in *; [done|].
      unfold ADDRMAP_NOT_PRESENT in Hb. by rewrite Z.testbit_0_l in Hb. }
    intros q. split.
    + intros ([k' w] & E & ofs & H1 & H2 & ->). unfold A' in E. cbn [fst snd] in *.
      destruct (decide (k' = k)) as [->|Nk].
      * rewrite lookup_insert_eq in E. injection E as <-. rewrite Hbits in H2. apply orb_true_iff in H2 as [H2|H2%Z.eqb_eq].
        { left. exists (k, v). split; [by eapply Hold|]. by exists ofs. }
        { right. by subst. }
      * rewrite lookup_insert_ne in E by done. left. exists (k', w). split; [done|]. by exists ofs.
    + intros [([k' w] & E & ofs & H1 & H2 & ->) | ->]; unfold A'.
      * cbn [fst snd] in *. destruct (decide (k' = k)) as [->|Nk].
        { exists (k, Z.lor v (2 ^ o)). cbn [fst snd]. rewrite lookup_insert_eq. split; [done|]. exists ofs.
          cbn [fst snd]. rewrite Hbits. unfold v. rewrite E. cbn [default id]. by rewrite H2. }
        { exists (k', w). cbn [fst snd]. rewrite lookup_insert_ne by done. split; [done|]. by exists ofs. }
      * exists (k, Z.lor v (2 ^ o)). cbn [fst snd]. rewrite lookup_insert_eq. split; [done|]. exists o.
        cbn [fst snd]. rewrite Hbits, Z.eqb_refl, orb_true_r. done.
Qed.

Context (malloc_limit : forall n, malloc_ok n = true -> n < 2 ^ 63).

(** adding the address of a field to the compressed stack *)
Lemma add_addr_ok amap A p : addrmap_represents amap A -> chunks_ok A ->
  512 <= p < 2 ^ 63 -> p mod 8 = 0 ->
  ok_or caml_fatal_out_of_memory (add_addr malloc_ok amap p) (fun amap' => exists A',
    addrmap_represents amap' A' /\ chunks_ok A' /\ (size A' <= S (size A))%nat /\
    forall q, map_addr A' q <-> map_addr A q \/ q = p).
Proof.
  intros R C Hp Ha. destruct (chunk_of_addr p) as (Ek & Ho & Ep); [lia|done|].
  unfold add_addr. set (k := ptr_to_chunk p) in *. set (o := ptr_to_chunk_offset p) in *.
  assert (Hk : 0 < k) by zlia. rewrite (flag_of_offset o Ho).
  eapply ok_or_bind; [apply (insert_pos_ok malloc_ok malloc_limit amap A k R); unfold ADDRMAP_INVALID_KEY; lia|].
  intros [amap1 pos] S1. set (v := default ADDRMAP_NOT_PRESENT (A !! k)) in *.
  assert (Hv : 0 <= v < 2 ^ 64).
  { unfold v. destruct (A !! k) as [w|] eqn:E; cbn [default]; [by destruct (C k w E)|unfold ADDRMAP_NOT_PRESENT; lia]. }
  (* the entry of the chunk, read again after it was set to 0 when it is new *)
  assert (exists amap2, (let* v := get_value amap1 pos in
      if v =? ADDRMAP_NOT_PRESENT then set_value amap1 pos 0 else Ok amap1) = Ok amap2 /\
      slot_of amap2 (<[k := v]> A) pos k) as (amap2 & E2 & S2).
  { destruct (get_value_slot _ _ _ _ S1) as (w & Ew & ->). rewrite lookup_insert_eq in Ew. injection Ew as <-.
    cbn [rbind]. destruct (Z.eqb_spec v ADDRMAP_NOT_PRESENT) as [E0|_]; [|by exists amap1].
    destruct (set_value_slot _ _ _ _ 0 S1) as (amap2 & -> & S2). exists amap2. split; [done|].
    rewrite insert_insert_eq in S2. by rewrite E0. }
  replace (let* v := get_value amap1 pos in
    let* amap := (if v =? ADDRMAP_NOT_PRESENT then set_value amap1 pos 0 else Ok amap1) in
    let* v := get_value amap pos in
    if Z.land v (2 ^ o) =? 0 then set_value amap pos (Z.lor v (2 ^ o)) else Ok amap)
  with (let* amap := (let* v := get_value amap1 pos in
          if v =? ADDRMAP_NOT_PRESENT then set_value amap1 pos 0 else Ok amap1) in
    let* v := get_value amap pos in
    if Z.land v (2 ^ o) =? 0 then set_value amap pos (Z.lor v (2 ^ o)) else Ok amap)
    by (by destruct (get_value amap1 pos)).
  rewrite E2. cbn [rbind]. destruct (get_value_slot _ _ _ _ S2) as (w & Ew & ->).
  rewrite lookup_insert_eq in Ew. injection Ew as <-. cbn [rbind].
  assert (exists amap3, (if Z.land v (2 ^ o) =? 0 then set_value amap2 pos (Z.lor v (2 ^ o)) else Ok amap2) = Ok amap3 /\
      addrmap_represents amap3 (<[k := Z.lor v (2 ^ o)]> A)) as (amap3 & -> & R3).
  { pose proof (land_pow2_nonzero v o (proj1 Ho)) as Hb.
    destruct (Z.eqb_spec (Z.land v (2 ^ o)) 0) as [E0|N0].
    - destruct (set_value_slot _ _ _ _ (Z.lor v (2 ^ o)) S2) as (amap3 & -> & S3). exists amap3. split; [done|].
      rewrite insert_insert_eq in S3. by eapply slot_represents.
    - exists amap2. split; [done|]. rewrite (lor_set_bit v o); [by eapply slot_represents|].
      cbn [negb] in Hb. by rewrite <- Hb. }
  cbn [ok_or]. exists (<[k := Z.lor v (2 ^ o)]> A). split; [done|]. by apply add_bit_map.
Qed.

(** ** The mark stack *)

(** [p] is the address of a field of an entry *)
Definition in_span (me : mark_entry) (p : Z) : Prop :=
  me_start me <= p < me_end me /\ (p - me_start me) mod 8 = 0.

(** [p] is a word of the bindings [l] of the compressed stack *)
Definition in_rest (l : list (Z * Z)) (p : Z) : Prop := exists e, e ∈ l /\ bit_addr p e.

(** the addresses of the fields that are still to be looked at *)
Definition grey (stk : mark_stack) (l : list (Z * Z)) (p : Z) : Prop :=
  (exists me, me ∈ ms_stack stk /\ in_span me p) \/ in_rest l p.

(** the entry [me] is the end of the fields of [b] *)
Definition entry_of (D : Z -> Prop) (me : mark_entry) (b : Z) : Prop :=
  D b /\ plain b /\ b + 8 * first0 b <= me_start me < me_end me /\
  me_end me = b + 8 * scannable0 b /\ (me_start me - b) mod 8 = 0.

(** the size of the mark stack at the start; it only grows *)
Context (S0 : Z) (HS0 : 2 <= S0).

(** there is memory to grow the mark stack, or it is larger than the number of large blocks,
    whose entries cannot be compressed *)
Definition stack_room : Prop := (forall n, 0 <= n <= heap_bsize / 8 -> malloc_ok n = true) \/ Z.of_nat (size large_blocks) < S0.

(** a mark stack with the fields of blocks that satisfy [D] *)
Record stack_ok (D : Z -> Prop) (stk : mark_stack) (l : list (Z * Z)) (bs : list Z) : Prop := {
  so_iter : iter_at (compressed_stack stk) (compressed_stack_iter stk) l;
  so_keys : NoDup (l.*1);
  so_chunks : forall k v, (k, v) ∈ l -> 0 < k /\ 0 <= v < 2 ^ 64;
  so_rest : forall p, in_rest l p -> exists b, D b /\ plain b /\ p ∈ scan_addrs b;
  so_entries : Forall2 (entry_of D) (ms_stack stk) bs;
  so_blocks : NoDup bs;
  so_size : S0 <= ms_size stk /\ ms_count stk <= ms_size stk /\ 16 * ms_size stk <= 2 ^ 16 + heap_bsize
}.

(** what is left to do: the words of the entries, and the chunks of the compressed stack *)
Definition pot (stk : mark_stack) (l : list (Z * Z)) : Z :=
  3 * zsum me_length (ms_stack stk) + 3 * zlen l.

Section Stacks.
Context (D : Z -> Prop) (HD : forall b, D b -> b ∈ B /\ unmarked0 b).

Lemma entry_bounds me b : entry_of D me b -> 1 <= me_length me <= wosize0 b /\ me_length me <= N /\
  me_end me = me_start me + 8 * me_length me /\
  forall p, in_span me p -> p ∈ scan_addrs b /\ 512 <= p < 2 ^ 63 /\ p mod 8 = 0.
Proof.
  intros (Db & Pl & Hs & He & Ha). destruct (HD b Db) as [Hb Hu].
  destruct (mj_fields W b Hb Hu Pl) as (F1 & F2 & _ & F4 & _). unfold me_length. split_and!; [zlia|zlia|zlia|zlia|].
  intros p [Hp Hq].
  assert (Hin : p ∈ scan_addrs b).
  { apply elem_of_plain_addrs; [done|]. exists ((p - b) / 8). split; [|zlia]. zlia. }
  split; [done|]. by apply (plain_addr_bounds b).
Qed.

Lemma in_span_nth me b p : entry_of D me b ->
  in_span me p <-> exists i, 0 <= i < me_length me /\ p = me_start me + 8 * i.
Proof.
  intros E. destruct (entry_bounds me b E) as (_ & _ & Ee & _). unfold in_span. rewrite Ee. split.
  - intros [Hp Hq]. exists ((p - me_start me) / 8). split; zlia.
  - intros (i & Hi & ->). split; [lia|zlia].
Qed.

Lemma add_span_ok amap A me b : addrmap_represents amap A -> chunks_ok A -> entry_of D me b ->
  ok_or caml_fatal_out_of_memory (add_span malloc_ok me amap) (fun amap' => exists A',
    addrmap_represents amap' A' /\ chunks_ok A' /\ Z.of_nat (size A') <= Z.of_nat (size A) + me_length me /\
    forall q, map_addr A' q <-> map_addr A q \/ in_span me q).
Proof.
  intros R C E. destruct (entry_bounds me b E) as (L & _ & Ee & Hp). unfold add_span. eapply ok_or_mono.
  - apply (for_loop_ok_or _ (fun i amap' => exists A', addrmap_represents amap' A' /\ chunks_ok A' /\
      Z.of_nat (size A') <= Z.of_nat (size A) + i /\
      forall q, map_addr A' q <-> map_addr A q \/ exists j, 0 <= j < i /\ q = me_start me + 8 * j)).
    + exists A. split_and!; [done|done|lia|]. intros q. split; [tauto|]. intros [?|(j & Hj & _)]; [done|lia].
    + intros i am Hi (A1 & R1 & C1 & S1 & H1).
      destruct (Hp (me_start me + 8 * i)) as (_ & Hb & Ha); [apply (in_span_nth me b _ E); exists i; split; [lia|done]|].
      eapply ok_or_mono; [by apply (add_addr_ok am A1)|]. intros am' (A2 & R2 & C2 & S2 & H2).
      exists A2. split_and!; [done|done|lia|]. intros q. rewrite H2, H1. split.
      * intros [[Hq|(j & Hj & ->)] | ->]; [by left|right; exists j; split; [lia|done]|right; exists i; split; [lia|done]].
      * intros [Hq|(j & Hj & ->)]; [by left; left|]. destruct (decide (j = i)) as [->|]; [by right|].
        left. right. exists j. split; [lia|done].
  - intros am' (A' & R' & C' & S' & H'). exists A'. split; [done|]. split; [done|].
    split; [lia|]. intros q. rewrite H', (in_span_nth me b _ E). by rewrite Z.add_0_l, Z2Nat.id by lia.
Qed.

(** the small entries *)
Definition small (stack : list mark_entry) : list mark_entry :=
  filter (fun me => is_large me = false) stack.
Definition large (stack : list mark_entry) : list mark_entry :=
  filter (fun me => is_large me = true) stack.

Lemma prune_entries_ok stack : forall bs kept amap A,
  Forall2 (entry_of D) stack bs -> addrmap_represents amap A -> chunks_ok A ->
  ok_or caml_fatal_out_of_memory (prune_entries malloc_ok stack kept amap) (fun '(kept', amap') =>
    kept' = kept ++ large stack /\ exists A', addrmap_represents amap' A' /\ chunks_ok A' /\
    Z.of_nat (size A') <= Z.of_nat (size A) + zsum me_length (small stack) /\
    forall q, map_addr A' q <-> map_addr A q \/ exists me, me ∈ small stack /\ in_span me q).
Proof.
  induction stack as [|me stack IH]; intros bs kept amap A F R C; cbn [prune_entries].
  - split; [by rewrite app_nil_r|]. exists A. split_and!; [done|done|cbn; lia|].
    intros q. split; [tauto|]. intros [?|(me & Hm & _)]; [done|by apply elem_of_nil in Hm].
  - apply Forall2_cons_inv_l in F as (b & bs' & E & F & ->). unfold large, small. rewrite !filter_cons.
    fold (large stack) (small stack). destruct (is_large me) eqn:Lm; cbn [bool_decide decide decide_rel].
    + destruct (decide (true = true)) as [_|?]; [|done]. destruct (decide (true = false)); [done|].
      eapply ok_or_mono; [by apply (IH bs' (kept ++ [me]) amap A)|]. intros [kept' amap'] [-> H]. split; [|done].
      by rewrite <- app_assoc.
    + destruct (decide (false = true)); [done|]. destruct (decide (false = false)) as [_|?]; [|done].
      eapply ok_or_bind; [by apply (add_span_ok amap A me b)|]. intros am1 (A1 & R1 & C1 & S1 & H1).
      eapply ok_or_mono; [by apply (IH bs' kept am1 A1)|]. intros [kept' amap'] [-> (A2 & R2 & C2 & S2 & H2)].
      split; [done|]. exists A2. split_and!; [done|done|cbn [zsum foldr]; fold (zsum me_length (small stack)); lia|].
      intros q. rewrite H2, H1. split.
      * intros [[Hq|Hq]|(me' & Hm & Hq)]; [by left|right; exists me; split; [by left|done]|].
        right. exists me'. split; [by right|done].
      * intros [Hq|(me' & [->|Hm]%elem_of_cons & Hq)]; [tauto|tauto|]. right. by exists me'.
Qed.

(** the bindings of the old compressed stack *)
Lemma insert_rest_ok l : forall amap A, addrmap_represents amap A -> chunks_ok A ->
  NoDup (l.*1) -> (forall k, k ∈ l.*1 -> A !! k = None) ->
  (forall k v, (k, v) ∈ l -> 0 < k /\ 0 <= v < 2 ^ 64) ->
  ok_or caml_fatal_out_of_memory
    (run_bindings (fun k v amap => caml_addrmap_insert malloc_ok 60 amap k v) l amap)
    (fun amap' => exists A', addrmap_represents amap' A' /\ chunks_ok A' /\
      (size A' <= size A + length l)%nat /\ forall q, map_addr A' q <-> map_addr A q \/ in_rest l q).
Proof.
  induction l as [|[k v] l IH]; intros amap A R C Nd Hf Hc; cbn [run_bindings].
  - exists A. split_and!; [done|done|simpl; lia|]. intros q. split; [tauto|].
    intros [?|(e & He & _)]; [done|by apply elem_of_nil in He].
  - cbn [fmap list_fmap fst] in Nd, Hf. apply NoDup_cons in Nd as [Nk Nd].
    destruct (Hc k v ltac:(by left)) as [Hk Hv].
    eapply ok_or_bind; [apply (insert_ok malloc_ok malloc_limit amap A k v R); unfold ADDRMAP_INVALID_KEY; lia|].
    intros am1 R1. pose proof (Hf k ltac:(by left)) as Ek. eapply ok_or_mono; [apply (IH am1 _ R1)|].
    + intros k' w. destruct (decide (k' = k)) as [->|]; [rewrite lookup_insert_eq; by intros [= <-]|].
      rewrite lookup_insert_ne by done. apply C.
    + done.
    + intros k' Hk'. rewrite lookup_insert_ne by (intros ->; done). apply Hf. by right.
    + intros k' w Hw. apply Hc. by right.
    + intros am' (A' & R' & C' & S' & H'). rewrite map_size_insert_None in S' by done. exists A'.
      split_and!; [done|done|simpl; lia|]. intros q. rewrite H'. split.
      * intros [([k' w] & E & Hq)|(e & He & Hq)]; [|right; exists e; split; [by right|done]]. cbn [fst snd] in E.
        destruct (decide (k' = k)) as [->|Nk'].
        { rewrite lookup_insert_eq in E. injection E as <-. right. exists (k, v). split; [by left|done]. }
        { rewrite lookup_insert_ne in E by done. left. by exists (k', w). }
      * intros [([k' w] & E & Hq)|(e & [->|He]%elem_of_cons & Hq)]; cbn [fst snd] in *.
        { left. exists (k', w). cbn [fst snd]. rewrite lookup_insert_ne; [done|]. intros ->. congruence. }
        { left. exists (k, v). cbn [fst snd]. by rewrite lookup_insert_eq. }
        { right. by exists e. }
Qed.

Lemma map_rest A l : l ≡ₚ map_to_list A -> forall q, in_rest l q <-> map_addr A q.
Proof.
  intros P q. unfold in_rest, map_addr. split; intros ([k v] & He & Hq); exists (k, v); (split; [|done]).
  - rewrite P in He. by apply elem_of_map_to_list in He.
  - rewrite P. by apply elem_of_map_to_list.
Qed.

Lemma in_rest_nil q : ~ in_rest [] q.
Proof. intros (e & He & _). by apply elem_of_nil in He. Qed.

(** compression: the large entries stay, the words of the others go to a new map *)
Lemma prune_ok stk l bs : stack_ok D stk l bs ->
  ok_or caml_fatal_out_of_memory (mark_stack_prune malloc_ok stk) (fun stk' => exists l' bs',
    stack_ok D stk' l' bs' /\ ms_size stk' = ms_size stk /\ ms_stack stk' = large (ms_stack stk) /\
    bs' ⊆ bs /\ (forall q, grey stk' l' q <-> grey stk l q) /\ pot stk' l' <= pot stk l).
Proof.
  intros SO. unfold mark_stack_prune. pose proof (so_iter _ _ _ _ SO) as It.
  rewrite (iter_loop_ok _ _ l _ _ _ It) by (apply iter_at_length in It; lia).
  eapply ok_or_bind.
  { apply (insert_rest_ok l caml_addrmap_init ∅); [by left|by intros k v|apply SO|done|apply SO]. }
  intros am1 (A1 & R1 & C1 & S1 & H1).
  eapply ok_or_bind; [apply (prune_entries_ok _ bs [] am1 A1 (so_entries _ _ _ _ SO) R1 C1)|].
  intros [kept am2] [-> (A2 & R2 & C2 & S2 & H2)]. cbn [app].
  destruct (represents_bindings am2 A2 R2) as (i & l' & -> & It' & P & _). cbn [rbind ok_or].
  destruct (Forall2_filter_l _ (fun me => is_large me = true) _ _ (so_entries _ _ _ _ SO)) as (bs' & F' & Sb).
  assert (Hrest : forall q, in_rest l' q <-> in_rest l q \/ exists me, me ∈ small (ms_stack stk) /\ in_span me q).
  { intros q. rewrite (map_rest A2 l' P), H2, H1. split; [|tauto].
    intros [[(e & He & _)|?]|?]; [|tauto..]. by rewrite lookup_empty in He. }
  assert (Hlen : zlen l' <= zlen l + zsum me_length (small (ms_stack stk))).
  { unfold zlen. rewrite P, length_map_to_list. rewrite map_size_empty in S1. lia. }
  assert (Hcount : zlen (large (ms_stack stk)) <= ms_count stk).
  { unfold large, ms_count, zlen. pose proof (length_filter (fun me => is_large me = true) (ms_stack stk)). lia. }
  exists l', bs'. split; [|split; [done|split; [done|split; [by apply sublist_subseteq|split]]]].
  - split; cbn [compressed_stack compressed_stack_iter ms_stack ms_size]; [done| | | |done| |].
    + rewrite P. apply NoDup_fst_map_to_list.
    + intros k v Hkv. rewrite P in Hkv. apply elem_of_map_to_list in Hkv. by apply C2.
    + intros q [Hq|(me & Hm & Hq)]%Hrest; [by apply (so_rest _ _ _ _ SO)|].
      apply list_elem_of_filter in Hm as [_ Hm]. apply list_elem_of_lookup in Hm as [j Hj].
      destruct (Forall2_lookup_l _ _ _ _ _ (so_entries _ _ _ _ SO) Hj) as (b & _ & E).
      destruct (entry_bounds me b E) as (_ & _ & _ & Hp). exists b. split; [apply E|]. split; [apply E|]. by apply Hp.
    + by apply (sublist_NoDup _ bs); [apply (so_blocks _ _ _ _ SO)|].
    + unfold ms_count in *. cbn [ms_stack]. pose proof (so_size _ _ _ _ SO). unfold ms_count in *. lia.
  - intros q. unfold grey. cbn [ms_stack]. rewrite Hrest. split.
    + intros [(me & Hm & Hq)|[?|(me & Hm & Hq)]]; [|tauto|];
        left; exists me; (split; [|done]); by apply list_elem_of_filter in Hm as [_ Hm].
    + intros [(me & Hm & Hq)|?]; [|tauto]. destruct (is_large me) eqn:Lm.
      * left. exists me. split; [|done]. by apply list_elem_of_filter.
      * right. right. exists me. split; [|done]. by apply list_elem_of_filter.
  - unfold pot. cbn [ms_stack]. rewrite (zsum_perm_filter me_length is_large (ms_stack stk)).
    fold (small (ms_stack stk)) (large (ms_stack stk)). lia.
Qed.

(** the large entries are in different blocks of the heap *)
Lemma large_in_blocks stk l bs : stack_ok D stk l bs -> exists bs', zlen (large (ms_stack stk)) = zlen bs' /\ NoDup bs' /\
  forall b, b ∈ bs' -> D b /\ 65 <= wosize0 b.
Proof.
  intros SO.
  destruct (Forall2_filter_l _ (fun me => is_large me = true) _ _ (so_entries _ _ _ _ SO)) as (bs' & F & Sb).
  fold (large (ms_stack stk)) in F. exists bs'. split; [unfold zlen; by rewrite (Forall2_length _ _ _ F)|].
  split; [by apply (sublist_NoDup _ bs); [apply (so_blocks _ _ _ _ SO)|]|].
  intros b [j Hj]%list_elem_of_lookup. destruct (Forall2_lookup_r _ _ _ _ _ F Hj) as (me & Hm & E).
    split; [apply E|]. apply list_elem_of_lookup_2 in Hm. apply list_elem_of_filter in Hm as [Lm _].
    destruct (entry_bounds me b E) as (L & _). unfold is_large, BITS_PER_WORD in Lm. apply Z.ltb_lt in Lm. lia.
Qed.

Lemma large_bytes stk l bs : stack_ok D stk l bs -> 528 * zlen (large (ms_stack stk)) <= heap_bsize.
Proof.
  intros SO. destruct (large_in_blocks _ _ _ SO) as (bs' & -> & Nd & Hb).
  etrans; [apply (zsum_ge (fun b => 8 * (wosize0 b + 1)))|apply (mj_heap W bs')].
  - intros b Hin. destruct (Hb b Hin). lia.
  - done.
  - intros b Hin. apply HD, Hb, Hin.
Qed.

(** the large entries are in different large blocks *)
Lemma large_count stk l bs : stack_ok D stk l bs -> zlen (large (ms_stack stk)) <= Z.of_nat (size large_blocks).
Proof.
  intros SO. destruct (large_in_blocks _ _ _ SO) as (bs' & -> & Nd & Hb). unfold zlen. apply inj_le.
  rewrite <- (size_list_to_set (C := gset Z) bs') by done. apply subseteq_size. intros b Hin%elem_of_list_to_set.
  destruct (Hb b Hin) as [[HB Hu]%HD Hw]. apply elem_of_filter. split; [|done]. split; [exact Hu|lia].
Qed.

(** there is room for the large entries *)
Context (room : stack_room).

Lemma stack_ok_resize stk l bs n : stack_ok D stk l bs -> S0 <= n -> ms_count stk <= n ->
  16 * n <= 2 ^ 16 + heap_bsize ->
  stack_ok D (MarkStack (ms_stack stk) n (compressed_stack stk) (compressed_stack_iter stk)) l bs.
Proof. intros SO H1 H2 H3. destruct SO. by split. Qed.

(** a full stack gets room: the heap is large enough for its large entries *)
Lemma realloc_ok stk l bs : stack_ok D stk l bs -> ms_count stk = ms_size stk ->
  ok_or caml_fatal_out_of_memory (realloc_mark_stack malloc_ok heap_bsize stk) (fun stk' => exists l' bs',
    stack_ok D stk' l' bs' /\ ms_count stk' < ms_size stk' /\
    bs' ⊆ bs /\ (forall q, grey stk' l' q <-> grey stk l q) /\ pot stk' l' <= pot stk l).
Proof.
  intros SO Hfull. pose proof (large_bytes _ _ _ SO) as HL. destruct (so_size _ _ _ _ SO) as (S1 & S2 & S3).
  pose proof (mj_heap W [] (NoDup_nil_2) ltac:(by intros b ?%elem_of_nil)) as [_ HH].
  pose proof (length_filter (fun me => is_large me = true) (ms_stack stk)) as Lle.
  fold (large (ms_stack stk)) in Lle. unfold ms_count, zlen in *.
  set (nl := Z.of_nat (length (large (ms_stack stk)))) in *.
  assert (Hlb : large_bsize (ms_stack stk) = 16 * nl).
  { unfold large_bsize, sizeof_mark_entry. fold (large (ms_stack stk)). apply u64_id. unfold is_u64, zlen. lia. }
  unfold realloc_mark_stack, sizeof_mark_entry. rewrite Hlb, (u64_id (ms_size stk * 16)) by (unfold is_u64; lia).
  set (lrg := if heap_bsize / 32 <=? ms_size stk * 16 then 16 * nl else 0).
  assert (Hlrg : 0 <= lrg < ms_size stk * 16 /\ lrg mod 16 = 0 /\ lrg <= heap_bsize / 33).
  { unfold lrg. destruct (Z.leb_spec (heap_bsize / 32) (ms_size stk * 16)); split_and!; try zlia. }
  assert (Hgrow : forall n, ms_size stk < n -> 16 * n <= 2 ^ 16 + heap_bsize ->
    ok_or caml_fatal_out_of_memory (Ok (MarkStack (ms_stack stk) n (compressed_stack stk) (compressed_stack_iter stk)))
      (fun stk' => exists l' bs', stack_ok D stk' l' bs' /\ ms_count stk' < ms_size stk' /\
        bs' ⊆ bs /\ (forall q, grey stk' l' q <-> grey stk l q) /\ pot stk' l' <= pot stk l)).
  { intros n Hn Hn'. exists l, bs. split; [apply stack_ok_resize; [done|lia|unfold ms_count, zlen; lia|done]|].
    split; [unfold ms_count, zlen; cbn [ms_stack ms_size]; lia|]. done. }
  rewrite (u64_id (ms_size stk * 16 - lrg)) by (unfold is_u64; lia).
  destruct (Z.ltb_spec (ms_size stk * 16 - lrg) (heap_bsize / 32)) as [Hlt|Hge].
  - rewrite u64_id by (unfold is_u64; zlia).
    destruct (malloc_ok _) eqn:Em; [apply Hgrow; zlia|]. destruct room as [R|R]; [rewrite R in Em by zlia; done|].
    pose proof (large_count _ _ _ SO) as HC. unfold zlen in HC. fold nl in HC.
    eapply ok_or_mono; [by apply (prune_ok _ l bs)|]. intros stk' (l' & bs' & SO' & Es & Ek & H).
    exists l', bs'. split; [done|]. split; [|done]. unfold ms_count, zlen. rewrite Es, Ek. fold nl. lia.
  - eapply ok_or_mono; [by apply (prune_ok _ l bs)|]. intros stk' (l' & bs' & SO' & Es & Ek & H).
    exists l', bs'. split; [done|]. split; [|done]. unfold ms_count, zlen. rewrite Es, Ek. fold nl.
    unfold lrg in *. destruct (Z.leb_spec (heap_bsize / 32) (ms_size stk * 16)); zlia.
Qed.

Lemma push_range_ok stk l bs b start : stack_ok D stk l bs -> b ∉ bs ->
  entry_of D (MarkEntry start (b + 8 * scannable0 b)) b ->
  ok_or caml_fatal_out_of_memory (mark_stack_push_range malloc_ok heap_bsize stk start (b + 8 * scannable0 b))
    (fun stk' => exists l' bs', stack_ok D stk' l' bs' /\ bs' ⊆ b :: bs /\
      (forall q, grey stk' l' q <-> grey stk l q \/ in_span (MarkEntry start (b + 8 * scannable0 b)) q) /\
      pot stk' l' <= pot stk l + 3 * me_length (MarkEntry start (b + 8 * scannable0 b))).
Proof.
  intros SO Nb E. unfold mark_stack_push_range. set (me := MarkEntry start (b + 8 * scannable0 b)) in *.
  eapply ok_or_bind with (P := fun stk' => exists l' bs', stack_ok D stk' l' bs' /\
    ms_count stk' < ms_size stk' /\ bs' ⊆ bs /\ (forall q, grey stk' l' q <-> grey stk l q) /\ pot stk' l' <= pot stk l).
  { destruct (Z.eqb_spec (ms_count stk) (ms_size stk)) as [Hf|Nf]; [by apply realloc_ok|].
    pose proof (so_size _ _ _ _ SO). exists l, bs. split; [done|]. split; [lia|]. done. }
  intros stk1 (l1 & bs1 & SO1 & Hc & Hsub & Hg & Hp). rewrite (proj2 (Z.ltb_lt _ _) Hc). cbn [ok_or].
  exists l1, (bs1 ++ [b]). split; [|split; [|split]].
  - destruct SO1 as [I1 I2 I3 I4 I5 I6 I7]. split; try done; cbn [ms_stack ms_size].
    + apply Forall2_app; [done|]. by constructor.
    + apply NoDup_app. split; [done|]. split; [|apply NoDup_singleton].
      intros x Hx ->%list_elem_of_singleton. by apply Nb, Hsub.
    + unfold ms_count in *. cbn [ms_stack]. rewrite zlen_snoc. lia.
  - intros x [Hx|Hx%list_elem_of_singleton]%elem_of_app; [right; by apply Hsub|subst; by left].
  - intros q. rewrite <- Hg. unfold grey. cbn [ms_stack]. setoid_rewrite elem_of_app. split.
    + intros [(me' & [Hm|Hm%list_elem_of_singleton] & Hq)|?]; [left; left; by exists me'|subst; tauto|tauto].
    + intros [[(me' & Hm & Hq)|?]|?]; [left; exists me'; tauto|tauto|]. left. exists me. split; [|done].
      right. by apply list_elem_of_singleton.
  - unfold pot in *. cbn [ms_stack]. rewrite zsum_app. cbn [zsum foldr]. lia.
Qed.
End Stacks.

Context (room : stack_room).

(** ** Reachability and the invariant *)

(** the values of the roots, and the number of domains that are marking *)
Context (roots : Z -> Prop) (nd : Z).

(** the unmarked blocks that can be reached through unmarked blocks *)
Inductive reach : Z -> Prop :=
  | reach_root v b : roots v -> points_to v b -> unmarked0 b -> reach b
  | reach_step a p b : reach a -> p ∈ scan_addrs a -> points_to (word m0 p) b -> unmarked0 b -> reach b.

(** the colours given, the bindings of the compressed stack still to be visited, the blocks
    of the entries of the mark stack, and the potential of the stack *)
Record ghost := Ghost {
  g_color : gmap Z Z; g_rest : list (Z * Z); g_blocks : list Z; g_pot : Z }.

Definition colored (g : ghost) (b : Z) : Prop := is_Some (g_color g !! b).

(** a value whose block may be given a colour *)
Definition markable_value (v : Z) : Prop :=
  Is_markable ar v = true -> exists b, points_to v b /\ (unmarked0 b -> reach b).

(** [pend]: addresses of fields, and [q]: values, that are still to be looked at *)
Record Inv (pend : Z -> Prop) (q : list Z) (g : ghost) (st : mark_state) : Prop := {
  iv_colors : colors_ok (g_color g);
  iv_mem : recolored (g_color g) (mk_mem st);
  iv_stack : stack_ok (colored g) (mk_stack st) (g_rest g) (g_blocks g);
  iv_pot : g_pot g = pot (mk_stack st) (g_rest g);
  iv_reach : forall b, colored g b -> reach b;
  iv_queue : forall v, v ∈ q -> Is_markable ar v = true /\ markable_value v;
  iv_closed : forall a p b, g_color g !! a = Some (MARKED gs) -> p ∈ scan_addrs a ->
    points_to (word m0 p) b -> unmarked0 b ->
    colored g b \/ grey (mk_stack st) (g_rest g) p \/ word m0 p ∈ q \/ pend p;
  iv_flag : marking_done st = false;
  iv_count : num_domains_to_mark st = nd
}.

(** what is left: the unmarked blocks weigh more than all their fields *)
Definition unmarked_blocks : gset Z := filter (fun b => Has_status_hd (hd0 b) (UNMARKED gs) = true) B.
Definition left (g : ghost) : nat := size (unmarked_blocks ∖ dom (g_color g)).
Definition weight : Z := 3 * N + 3.
Definition phi (g : ghost) : Z := weight * Z.of_nat (left g) + g_pot g.

(** [g'] follows [g]: blocks are only marked *)
Record follows (g g' : ghost) : Prop := {
  fo_keep : forall b col, g_color g !! b = Some col -> g_color g' !! b = Some col;
  fo_new : forall b col, g_color g' !! b = Some col -> g_color g !! b = Some col \/ col = MARKED gs;
  fo_phi : phi g' <= phi g
}.

#[local] Instance follows_preorder : PreOrder follows.
Proof.
  split; [intros g; split; [done|tauto|lia]|]. intros g1 g2 g3 [K1 N1 P1] [K2 N2 P2]. split; [|intros b col E|lia].
  - intros b col E. by apply K2, K1.
  - destruct (N2 b col E); [by apply N1|by right].
Qed.

Lemma follows_colored g g' b : follows g g' -> colored g b -> colored g' b.
Proof. intros F [col E]. exists col. by apply (fo_keep _ _ F). Qed.

Lemma elem_of_unmarked b : b ∈ unmarked_blocks <-> unmarked0 b /\ b ∈ B.
Proof. unfold unmarked_blocks. by rewrite elem_of_filter. Qed.

Lemma left_insert c b col l bs p c' : g_color (Ghost c' l bs p) = <[b := col]> c -> c !! b = None ->
  unmarked0 b -> b ∈ B -> forall g, g_color g = c -> (left g = S (left (Ghost c' l bs p)))%nat.
Proof.
  cbn [g_color]. intros -> En Hu Hb g Eg. unfold left. cbn [g_color]. rewrite Eg, dom_insert_L.
  apply size_without; [by apply elem_of_unmarked|by apply not_elem_of_dom].
Qed.

Lemma left_same g g' : (forall b, is_Some (g_color g !! b) <-> is_Some (g_color g' !! b)) -> left g = left g'.
Proof.
  intros H. unfold left. assert (dom (g_color g) = dom (g_color g')) as ->; [|done].
  apply set_eq. intros b. by rewrite !elem_of_dom.
Qed.

Lemma left_follows g g' : follows g g' -> (left g' <= left g)%nat.
Proof.
  intros F. unfold left. apply subseteq_size. intros b [Hb Hn]%elem_of_difference. apply elem_of_difference.
  split; [done|]. intros [col E]%elem_of_dom. apply Hn, elem_of_dom. exists col. by apply (fo_keep _ _ F).
Qed.

Lemma stack_ok_mono (D1 D2 : Z -> Prop) stk l bs : (forall b, D1 b -> D2 b) ->
  stack_ok D1 stk l bs -> stack_ok D2 stk l bs.
Proof.
  intros H [I1 I2 I3 I4 I5 I6 I7]. split; try done.
  - intros p Hp. destruct (I4 p Hp) as (b & Db & R). exists b. split; [by apply H|done].
  - eapply Forall2_impl; [exact I5|]. intros me b (Db & R). split; [by apply H|done].
Qed.

Lemma Inv_blocks pend q g st : Inv pend q g st -> forall b, colored g b -> b ∈ B /\ unmarked0 b.
Proof. intros I b [col E]. by destruct (iv_colors _ _ _ _ I b col E) as (? & ? & _). Qed.

(** ** Marking a block *)

Lemma store_header_ok c st b col : recolored c (mk_mem st) -> b ∈ B ->
  store_header st b (With_status_hd (hd0 b) col) =
    Ok (with_mk_mem st (<[b - 8 := s64 (With_status_hd (hd0 b) col)]> (mk_mem st))).
Proof.
  intros Hm Hb. unfold store_header. rewrite store_word_Ok; [done|]. rewrite Hm.
  destruct (c !! (b - 8 + 8)); [done|]. by apply marked_header_mapped.
Qed.

Lemma first_markable_ok m b e n : forall i,
  (forall j, i <= j < e -> Field m b j = Ok (word m0 (b + 8 * j))) -> e - i <= Z.of_nat n ->
  exists k, first_markable ar n m b i e = Ok k /\ i <= k /\ k <= Z.max i e /\
    forall j, i <= j < k -> Is_markable ar (word m0 (b + 8 * j)) = false.
Proof.
  induction n as [|n IH]; intros i Hf Hn; cbn [first_markable].
  - exists i. split_and!; [done|lia|lia|]. intros j Hj. lia.
  - destruct (Z.ltb_spec i e) as [L|L]; [|exists i; split_and!; [done|lia|lia|]; intros j Hj; lia].
    rewrite Hf by lia. cbn [rbind]. destruct (Is_markable ar (word m0 (b + 8 * i))) eqn:M.
    + exists i. split_and!; [done|lia|lia|]. intros j Hj. lia.
    + destruct (IH (i + 1)) as (k & -> & K1 & K2 & K3); [intros j Hj; apply Hf; lia|lia|].
      exists k. split_and!; [done|lia|lia|]. intros j Hj. destruct (decide (j = i)) as [->|]; [done|]. apply K3. lia.
Qed.

Section Blocks.
Context (c : gmap Z Z) (m : mem) (C : colors_ok c) (Hm : recolored c m).

Lemma Field_same b i : b ∈ B -> 0 <= i < wosize0 b -> Field m b i = Ok (word m0 (b + 8 * i)).
Proof.
  intros Hb Hi. unfold Field. apply (load_frozen c); [done..|by apply field_frozen|apply (mj_mapped W); [done|lia]].
Qed.

(** the first field to scan, as the code computes it *)
Lemma first_field_ok b : b ∈ B -> unmarked0 b -> plain b ->
  (let* tag := Tag_val m b in
   if tag =? Closure_tag then rmap Start_env_closinfo (Closinfo_val m b) else Ok 0) = Ok (first0 b).
Proof.
  intros Hb Hu Pl. destruct (mj_fields W b Hb Hu Pl) as (_ & _ & _ & _ & F5).
  unfold Tag_val, rmap at 1. rewrite (Hd_val_recolored c m b C Hm Hb). cbn [rbind]. rewrite (hd_of_tag C).
  unfold first0. destruct (Z.eqb_spec (tag0 b) Closure_tag) as [T|T]; [|done].
  unfold Closinfo_val, rmap. rewrite (Field_same b 1 Hb) by (specialize (F5 T); lia). by rewrite Z.mul_1_r.
Qed.
End Blocks.

Lemma push_block_ok c st l bs b : colors_ok c -> recolored c (mk_mem st) -> b ∈ B -> unmarked0 b -> plain b ->
  stack_ok (fun b => is_Some (c !! b)) (mk_stack st) l bs -> b ∉ bs -> is_Some (c !! b) ->
  ok_or caml_fatal_out_of_memory (mark_stack_push_block malloc_ok heap_bsize ar native_code st b) (fun '(_, st') =>
    exists stk' l' bs', st' = with_mk_stack st stk' /\
      stack_ok (fun b => is_Some (c !! b)) stk' l' bs' /\ bs' ⊆ b :: bs /\
      (forall q, grey (mk_stack st) l q -> grey stk' l' q) /\
      (forall p, p ∈ scan_addrs b -> Is_markable ar (word m0 p) = true -> grey stk' l' p) /\
      pot stk' l' <= pot (mk_stack st) l + 3 * N).
Proof.
  intros C Hm Hb Hu Pl SO Nb Hc. destruct (mj_fields W b Hb Hu Pl) as (F1 & F2 & F3 & F4 & F5).
  assert (HD : forall b, is_Some (c !! b) -> b ∈ B /\ unmarked0 b)
    by (intros b' [col E]; by destruct (C b' col E) as (? & ? & _)).
  pose proof (first_field_ok c (mk_mem st) C Hm b Hb Hu Pl) as EF.
  unfold mark_stack_push_block. unfold Tag_val, rmap at 1 in EF. unfold Tag_val, rmap at 1.
  rewrite (Hd_val_recolored c (mk_mem st) b C Hm Hb) in *. cbn [rbind] in *. rewrite EF. cbn [rbind].
  rewrite (hd_of_scannable C). set (w := scannable0 b) in *. set (e := if w <? 8 then w else 8).
  assert (He : e <= w /\ e <= 8) by (unfold e; destruct (Z.ltb_spec w 8); lia).
  rewrite s32_id by (unfold is_s32; lia).
  destruct (first_markable_ok (mk_mem st) b e (Z.to_nat (e - first0 b)) (first0 b)) as (i & -> & I1 & I2 & I3); [|lia|].
  { intros j Hj. apply (Field_same c); [done..|lia]. }
  cbn [rbind]. pose proof (mj_bound W) as HN.
  assert (Hskip : forall p, p ∈ scan_addrs b -> Is_markable ar (word m0 p) = true ->
            exists j, i <= j < w /\ p = b + 8 * j).
  { intros p (j & Hj & ->)%(elem_of_plain_addrs b p Pl) Hp. exists j. split; [|done].
    destruct (decide (j < i)); [by rewrite I3 in Hp by lia|]. fold w in Hj. lia. }
  destruct (Z.eqb_spec i w) as [->|Nw]; cbn [rbind ok_or].
  - exists (mk_stack st), l, bs. split_and!; [by destruct st|done|(intros x Hx; by right)|done| |lia].
    intros p Hp Hpm. destruct (Hskip p Hp Hpm) as (j & Hj & _). lia.
  - assert (HE : entry_of (fun b => is_Some (c !! b)) (MarkEntry (b + 8 * i) (b + 8 * w)) b).
    { split; [done|]. split; [done|]. cbn [me_start me_end]. fold w. split_and!; [lia|lia|done|zlia]. }
    eapply ok_or_bind.
    { apply (push_range_ok (fun b => is_Some (c !! b)) HD room (mk_stack st) l bs b (b + 8 * i) SO Nb HE). }
    cbv beta. intros stk' (l' & bs' & SO' & Hbs & Hg & Hp). fold w in Hg, Hp. cbn [ok_or].
    exists stk', l', bs'. split_and!; [done|done|done|intros q Hq; apply Hg; by left| |].
    + intros p Hp1 Hp2. destruct (Hskip p Hp1 Hp2) as (j & Hj & ->). apply Hg. right.
      split; cbn [me_start me_end]; [lia|zlia].
    + unfold me_length in Hp. cbn [me_start me_end] in Hp.
      replace (b + 8 * w - (b + 8 * i)) with ((w - i) * 8) in Hp by lia. rewrite Z.div_mul in Hp by lia. lia.
Qed.

(** a state with the memory, the stack and the counters of another *)
Definition state_with (st st' : mark_state) (m : mem) (stk : mark_stack) : Prop :=
  mk_mem st' = m /\ mk_stack st' = stk /\ marking_done st' = marking_done st /\
  num_domains_to_mark st' = num_domains_to_mark st.

(** a block that had no colour is marked, and its fields are to be looked at *)
Lemma Inv_mark pend pend' q g st st' b stk' l' bs' :
  Inv pend q g st -> b ∈ B -> unmarked0 b -> g_color g !! b = None -> reach b ->
  state_with st st' (<[b - 8 := s64 (With_status_hd (hd0 b) (MARKED gs))]> (mk_mem st)) stk' ->
  let c' := <[b := MARKED gs]> (g_color g) in
  stack_ok (fun b => is_Some (c' !! b)) stk' l' bs' ->
  (forall p, grey (mk_stack st) (g_rest g) p -> grey stk' l' p) ->
  (forall p b', p ∈ scan_addrs b -> points_to (word m0 p) b' -> unmarked0 b' ->
     is_Some (c' !! b') \/ grey stk' l' p \/ word m0 p ∈ q \/ pend' p) ->
  (forall p, pend p -> pend' p) -> pot stk' l' <= pot (mk_stack st) (g_rest g) + 3 * N ->
  let g' := Ghost c' l' bs' (pot stk' l') in
  Inv pend' q g' st' /\ follows g g' /\ phi g' <= phi g - 3.
Proof.
  intros I Hb Hu En Hr (Em & Es & Ef & Ec) c' SO Hg Hnew Hpend Hpot g'.
  assert (Hphi : phi g' <= phi g - 3).
  { unfold phi. rewrite (iv_pot _ _ _ _ I).
    rewrite (left_insert (g_color g) b (MARKED gs) l' bs' (pot stk' l') c' eq_refl En Hu Hb g eq_refl).
    fold g'. cbn [g_pot g']. unfold weight. pose proof (mj_bound W). nia. }
  split; [|split; [|done]].
  - split; cbn [g_color g_rest g_blocks g_pot g']; rewrite ?Em, ?Es; try done.
    + intros b' col. unfold c'. destruct (decide (b' = b)) as [->|Nb].
      * rewrite lookup_insert_eq. intros [= <-]. split_and!; [done|done|by left].
      * rewrite lookup_insert_ne by done. apply (iv_colors _ _ _ _ I).
    + apply recolored_insert, (iv_mem _ _ _ _ I).
    + intros b' [col E]. unfold colored, g', c' in E. cbn [g_color] in E. destruct (decide (b' = b)) as [->|Nb]; [done|].
      rewrite lookup_insert_ne in E by done. apply (iv_reach _ _ _ _ I). by exists col.
    + apply (iv_queue _ _ _ _ I).
    + intros a p b' Ea Hp Hpt Hu'. unfold c' in Ea. destruct (decide (a = b)) as [->|Na]; [by apply Hnew|].
      rewrite lookup_insert_ne in Ea by done.
      destruct (iv_closed _ _ _ _ I a p b' Ea Hp Hpt Hu') as [[col E]|[H|[H|H]]]; [left|right; left; by apply Hg|tauto|].
      * unfold colored, g', c'. cbn [g_color]. destruct (decide (b' = b)) as [->|Nb]; [rewrite lookup_insert_eq; by eexists|].
        rewrite lookup_insert_ne by done. by exists col.
      * do 3 right. by apply Hpend.
    + rewrite Ef. apply (iv_flag _ _ _ _ I).
    + rewrite Ec. apply (iv_count _ _ _ _ I).
  - split; cbn [g_color g']; unfold c'; [| |lia].
    + intros b' col E. rewrite lookup_insert_ne; [done|]. intros ->. congruence.
    + intros b' col. destruct (decide (b' = b)) as [->|Nb]; [rewrite lookup_insert_eq; intros [= <-]; by right|].
      rewrite lookup_insert_ne by done. by left.
Qed.

(** the blocks of the entries have been given a colour *)
Lemma not_in_stack D stk l bs b : stack_ok D stk l bs -> ~ D b -> b ∉ bs.
Proof.
  intros SO Nb [j Hj]%list_elem_of_lookup.
  destruct (Forall2_lookup_r _ _ _ _ _ (so_entries _ _ _ _ SO) Hj) as (me & _ & Db & _). done.
Qed.

Lemma uncolored g b : g_color g !! b = None -> ~ colored g b.
Proof. intros E [col E']. congruence. Qed.

(** the header of a block that is not a continuation is marked, and the block is pushed *)
Lemma mark_block_ok pend q g st st0 b :
  Inv pend q g st -> b ∈ B -> unmarked0 b -> g_color g !! b = None -> reach b -> tag0 b <> Cont_tag ->
  let m' := <[b - 8 := s64 (With_status_hd (hd0 b) (MARKED gs))]> (mk_mem st) in
  state_with st st0 m' (mk_stack st) ->
  ok_or caml_fatal_out_of_memory
    (if tag0 b <? No_scan_tag then mark_stack_push_block malloc_ok heap_bsize ar native_code st0 b
     else Ok (0, st0)) (fun '(_, st') => exists g',
    Inv pend q g' st' /\ follows g g' /\ colored g' b /\ phi g' <= phi g - 3).
Proof.
  intros I Hb Hu En Hr Nc m' SW. pose proof SW as (Em & Es & Ef & Ec).
  set (c' := <[b := MARKED gs]> (g_color g)).
  assert (SO : stack_ok (fun b => is_Some (c' !! b)) (mk_stack st0) (g_rest g) (g_blocks g)).
  { rewrite Es. eapply stack_ok_mono; [|apply (iv_stack _ _ _ _ I)]. intros b' Hb'. unfold c'.
    destruct (decide (b' = b)) as [->|]; [rewrite lookup_insert_eq; by eexists|by rewrite lookup_insert_ne]. }
  assert (Hbc : is_Some (c' !! b)) by (unfold c'; rewrite lookup_insert_eq; by eexists).
  assert (C' : colors_ok c').
  { intros b' col. unfold c'. destruct (decide (b' = b)) as [->|Nb].
    - rewrite lookup_insert_eq. intros [= <-]. split_and!; [done|done|by left].
    - rewrite lookup_insert_ne by done. apply (iv_colors _ _ _ _ I). }
  assert (Hm' : recolored c' (mk_mem st0)) by (rewrite Em; apply recolored_insert, (iv_mem _ _ _ _ I)).
  pose proof (mj_bound W). destruct (Z.ltb_spec (tag0 b) No_scan_tag) as [L|L].
  - assert (Pl : plain b) by done.
    eapply ok_or_mono; [apply (push_block_ok c' st0 (g_rest g) (g_blocks g) b); try done|].
    { eapply not_in_stack; [apply (iv_stack _ _ _ _ I)|by apply uncolored]. }
    intros [w st'] (stk' & l' & bs' & -> & SO' & _ & Hg & Hf & Hp). rewrite Es in Hg, Hp.
    destruct (Inv_mark pend pend q g st (with_mk_stack st0 stk') b stk' l' bs') as (I' & F' & P'); try done.
    { intros p b' Hp1 Hp2 Hu'. right. left. apply Hf; [done|apply Hp2]. }
    exists (Ghost c' l' bs' (pot stk' l')). split; [exact I'|split; [exact F'|by split]].
  - cbn [ok_or].
    destruct (Inv_mark pend pend q g st st0 b (mk_stack st) (g_rest g) (g_blocks g)) as (I' & F' & P'); try done.
    { by rewrite <- Es. }
    { intros p b' Hp. unfold scan_addrs in Hp. rewrite (proj2 (Z.leb_le _ _) L) in Hp. by apply elem_of_nil in Hp. }
    { lia. }
    eexists. split; [exact I'|split; [exact F'|by split]].
Qed.

(** ** Darkening *)

Definition darken := caml_darken malloc_ok heap_bsize gs ar native_code is_code.
Definition darken_cont (fuel : nat) := caml_darken_cont gs is_code (darken fuel) fuel.

(** the block that a slot points to has a colour *)
Definition done_slot (g : ghost) (p : Z) : Prop :=
  forall b, points_to (word m0 p) b -> unmarked0 b -> colored g b.
Definition done_scanned (g : ghost) (p : Z) : Prop :=
  is_scannable false is_code (word m0 p) = true -> done_slot g p.

Definition darken_spec (fuel : nat) : Prop := forall pend q g st v p,
  Inv pend q g st -> markable_value v -> (K + left g + 1 <= fuel)%nat ->
  ok_or caml_fatal_out_of_memory (darken fuel st v p) (fun st' => exists g', Inv pend q g' st' /\ follows g g' /\
    forall b, points_to v b -> unmarked0 b -> colored g' b).

(** the slots that may be scanned *)
Definition ready_slot (p : Z) : Prop := frozen p /\ is_Some (m0 !! p) /\
  (is_scannable false is_code (word m0 p) = true -> markable_value (word m0 p)).

Section Conts.
Context (pend : Z -> Prop) (q : list Z) (fuel : nat) (IH : darken_spec fuel).

#[local] Abbreviation Inv_room := (fun g st => Inv pend q g st /\ (K + left g + 1 <= fuel)%nat).

Lemma darken_slot_ok g st p : Inv_room g st -> ready_slot p ->
  ok_or caml_fatal_out_of_memory (scan_slot mk_mem (darken fuel) false is_code p st)
    (all_done Inv_room follows done_scanned g [p]).
Proof.
  intros [I Hf] (Fp & Mp & Hp). unfold scan_slot.
  rewrite (load_frozen _ _ _ (iv_colors _ _ _ _ I) (iv_mem _ _ _ _ I) Fp Mp). cbn [rbind].
  destruct (is_scannable false is_code (word m0 p)) eqn:Sc.
  - eapply ok_or_mono; [by apply (IH pend q g st); [|apply Hp|]|]. intros st' (g' & I' & F' & D').
    pose proof (left_follows _ _ F'). exists g'. split; [split; [done|lia]|]. split; [done|].
    constructor; [|constructor]. intros _. exact D'.
  - exists g. split; [done|]. split; [reflexivity|]. constructor; [|constructor]. intros E. congruence.
Qed.

Lemma done_scanned_follows g g' p : follows g g' -> done_scanned g p -> done_scanned g' p.
Proof. intros F H Sc b Hb Hu. eapply follows_colored; [done|]. by apply H. Qed.

(** the continuation is set aside while its stack is scanned *)
Lemma Inv_set_aside g st b : Inv pend q g st -> b ∈ B -> unmarked0 b -> g_color g !! b = None -> reach b ->
  let m' := <[b - 8 := s64 (With_status_hd (hd0 b) NOT_MARKABLE)]> (mk_mem st) in
  let g' := Ghost (<[b := NOT_MARKABLE]> (g_color g)) (g_rest g) (g_blocks g) (g_pot g) in
  Inv pend q g' (with_mk_mem st m') /\ left g = S (left g').
Proof.
  intros I Hb Hu En Hr m' g'. split.
  - destruct (mj_colors W) as (_ & Nm & _). split; cbn [g_color g_rest g_blocks g_pot g'].
    + intros b' col. destruct (decide (b' = b)) as [->|Nb].
      * rewrite lookup_insert_eq. intros [= <-]. split_and!; [done|done|by right].
      * rewrite lookup_insert_ne by done. apply (iv_colors _ _ _ _ I).
    + apply recolored_insert, (iv_mem _ _ _ _ I).
    + eapply stack_ok_mono; [|apply (iv_stack _ _ _ _ I)]. intros b' Hb'. unfold colored, g'. cbn [g_color].
      destruct (decide (b' = b)) as [->|]; [rewrite lookup_insert_eq; by eexists|by rewrite lookup_insert_ne].
    + apply (iv_pot _ _ _ _ I).
    + intros b' [col E]. unfold colored, g' in E. cbn [g_color] in E. destruct (decide (b' = b)) as [->|Nb]; [done|].
      rewrite lookup_insert_ne in E by done. apply (iv_reach _ _ _ _ I). by exists col.
    + apply (iv_queue _ _ _ _ I).
    + intros a p b' Ea Hp Hpt Hu'. destruct (decide (a = b)) as [->|Na].
      { rewrite lookup_insert_eq in Ea. congruence. }
      rewrite lookup_insert_ne in Ea by done.
      destruct (iv_closed _ _ _ _ I a p b' Ea Hp Hpt Hu') as [[col E]|H]; [left|tauto].
      unfold colored, g'. cbn [g_color]. destruct (decide (b' = b)) as [->|Nb]; [rewrite lookup_insert_eq; by eexists|].
      rewrite lookup_insert_ne by done. by exists col.
    + apply (iv_flag _ _ _ _ I).
    + apply (iv_count _ _ _ _ I).
  - by apply (left_insert (g_color g) b NOT_MARKABLE _ _ _ (<[b := NOT_MARKABLE]> (g_color g))).
Qed.

(** and marked when it has been *)
Lemma Inv_set_marked g st b : Inv pend q g st -> g_color g !! b = Some NOT_MARKABLE ->
  (forall p b', p ∈ scan_addrs b -> points_to (word m0 p) b' -> unmarked0 b' -> colored g b') ->
  let m' := <[b - 8 := s64 (With_status_hd (hd0 b) (MARKED gs))]> (mk_mem st) in
  let g' := Ghost (<[b := MARKED gs]> (g_color g)) (g_rest g) (g_blocks g) (g_pot g) in
  Inv pend q g' (with_mk_mem st m') /\ left g = left g' /\ forall x, colored g x <-> colored g' x.
Proof.
  intros I Eb Hd m' g'.
  assert (Hc : forall x, colored g x <-> colored g' x).
  { intros x. unfold colored, g'. cbn [g_color]. destruct (decide (x = b)) as [->|Nx].
    - rewrite lookup_insert_eq, Eb. split; intros _; by eexists.
    - by rewrite lookup_insert_ne. }
  destruct (iv_colors _ _ _ _ I b _ Eb) as (Hb & Hu & _).
  split; [|split; [by apply left_same|done]]. split; cbn [g_color g_rest g_blocks g_pot g'].
  - intros b' col. destruct (decide (b' = b)) as [->|Nb].
    + rewrite lookup_insert_eq. intros [= <-]. split_and!; [done|done|by left].
    + rewrite lookup_insert_ne by done. apply (iv_colors _ _ _ _ I).
  - apply recolored_insert, (iv_mem _ _ _ _ I).
  - eapply stack_ok_mono; [|apply (iv_stack _ _ _ _ I)]. intros x. apply Hc.
  - apply (iv_pot _ _ _ _ I).
  - intros x Hx%Hc. by apply (iv_reach _ _ _ _ I).
  - apply (iv_queue _ _ _ _ I).
  - intros a p b' Ea Hp Hpt Hu'. destruct (decide (a = b)) as [->|Na].
    { left. apply Hc. by apply (Hd p). }
    rewrite lookup_insert_ne in Ea by done.
    destruct (iv_closed _ _ _ _ I a p b' Ea Hp Hpt Hu') as [H|H]; [left; by apply Hc|tauto].
  - apply (iv_flag _ _ _ _ I).
  - apply (iv_count _ _ _ _ I).
Qed.

(** the header of a block that has no colour is neither that of a marked block *)
Lemma uncolored_header c b : c !! b = None -> hd_of c b = hd0 b.
Proof. unfold hd_of. by intros ->. Qed.

Lemma unmarked_not_marked b : unmarked0 b -> Has_status_hd (hd0 b) (MARKED gs) = false.
Proof.
  unfold unmarked0, Has_status_hd. intros E%Z.eqb_eq. apply Z.eqb_neq. rewrite E.
  destruct (mj_colors W) as [Ne _]. congruence.
Qed.

Lemma elem_of_cont_addrs b p : tag0 b = Cont_tag -> p ∈ scan_addrs b ->
  p ∈ cont_slots b /\ is_scannable false is_code (word m0 p) = true.
Proof.
  intros T. unfold scan_addrs. rewrite T. change (No_scan_tag <=? Cont_tag) with false. rewrite Z.eqb_refl.
  intros [H1 H2]%list_elem_of_filter. done.
Qed.

Lemma cont_slots_ready b : b ∈ B -> unmarked0 b -> tag0 b = Cont_tag -> reach b ->
  Forall ready_slot (cont_slots b).
Proof.
  intros Hb Hu T Hr. destruct (mj_cont W b Hb Hu T) as [_ Hc]. apply Forall_forall. intros p Hp.
  assert (Hs : is_scannable false is_code (word m0 p) = true -> p ∈ scan_addrs b).
  { intros Sc. unfold scan_addrs. rewrite T. change (No_scan_tag <=? Cont_tag) with false. rewrite Z.eqb_refl.
    by apply list_elem_of_filter. }
  unfold cont_slots in Hp. destruct (Z.eqb_spec (cont_stack b) 0) as [|N0]; [by apply elem_of_nil in Hp|].
  destruct (Hc N0) as (slots & reads & E & _ & Fs). rewrite E in Hp. rewrite Forall_forall in Fs.
  destruct (Fs p Hp) as [Fp Mp]. split; [done|]. split; [done|]. intros Sc Mk.
  destruct (mj_values W b p Hb Hu (Hs Sc) Mk) as (b' & Hpt). exists b'. split; [done|]. intros Hu'.
  by apply (reach_step b p); [|apply Hs| |].
Qed.

Lemma darken_cont_ok g st b :
  Inv pend q g st -> b ∈ B -> unmarked0 b -> g_color g !! b = None -> reach b -> tag0 b = Cont_tag ->
  (K + left g <= fuel)%nat ->
  ok_or caml_fatal_out_of_memory (darken_cont fuel st b) (fun st' => exists g',
    Inv pend q g' st' /\ follows g g' /\ colored g' b /\ phi g' <= phi g - 3).
Proof.
  intros I Hb Hu En Hr T Hf. destruct (mj_cont W b Hb Hu T) as [Hw Hc].
  unfold darken_cont, caml_darken_cont.
  rewrite (Hd_val_recolored _ _ b (iv_colors _ _ _ _ I) (iv_mem _ _ _ _ I) Hb). cbn [rbind].
  rewrite (uncolored_header _ b En), (unmarked_not_marked b Hu). unfold unmarked0 in Hu. rewrite Hu. fold (unmarked0 b) in Hu.
  rewrite (store_header_ok _ st b _ (iv_mem _ _ _ _ I) Hb). cbn [rbind].
  destruct (Inv_set_aside g st b I Hb Hu En Hr) as [I1 L1]. cbv zeta in I1, L1.
  set (g1 := Ghost _ _ _ _) in *. set (st1 := with_mk_mem st _) in *.
  rewrite (Field_same _ _ (iv_colors _ _ _ _ I1) (iv_mem _ _ _ _ I1) b 0 Hb) by lia. cbn [rbind].
  rewrite Z.mul_0_r, Z.add_0_r. fold (cont_stack b).
  eapply ok_or_bind with (P := all_done Inv_room follows done_scanned g1 (cont_slots b)).
  { pose proof (cont_slots_ready b Hb Hu T Hr) as Hs. unfold cont_slots in *.
    destruct (Z.eqb_spec (cont_stack b) 0) as [|N0]; cbn [negb].
    - exists g1. split; [split; [done|lia]|]. split; [reflexivity|constructor].
    - destruct (Hc N0) as (slots & reads & E & Fr & _). rewrite E in *.
      apply (caml_scan_stack_ok mk_mem (darken fuel) false is_code caml_fatal_out_of_memory m0 Inv_room follows
        (fun _ => ready_slot) done_scanned frozen ltac:(done) done_scanned_follows
        ltac:(intros g2 s2 a [I2 _]; apply (recolored_frozen _ _ _ (iv_colors _ _ _ _ I2) (iv_mem _ _ _ _ I2)))
        darken_slot_ok K fuel (cont_stack b) slots reads g1 st1 E); [lia|done|split; [done|lia]|done]. }
  intros st2 (g2 & [I2 _] & F2 & D2). rewrite (store_header_ok _ st2 b _ (iv_mem _ _ _ _ I2) Hb). cbn [ok_or].
  assert (E2 : g_color g2 !! b = Some NOT_MARKABLE).
  { apply (fo_keep _ _ F2). unfold g1. cbn [g_color]. apply lookup_insert_eq. }
  destruct (Inv_set_marked g2 st2 b I2 E2) as (I3 & L3 & C3).
  { intros p b' Hp Hpt Hu'. destruct (elem_of_cont_addrs b p T Hp) as [Hin Sc].
    rewrite Forall_forall in D2. by apply (D2 p Hin Sc). }
  cbv zeta in I3, L3, C3. set (g3 := Ghost (<[b := MARKED gs]> (g_color g2)) (g_rest g2) (g_blocks g2) (g_pot g2)) in *. exists g3. split; [done|].
  assert (Hphi : phi g3 <= phi g - 3).
  { pose proof (fo_phi _ _ F2) as P2. unfold phi in *. rewrite <- L3, L1.
    change (g_pot g3) with (g_pot g2). change (g_pot g1) with (g_pot g) in P2.
    unfold weight in *. pose proof (mj_bound W). nia. }
  split; [|split; [apply C3; by exists NOT_MARKABLE|done]]. split; [| |lia].
  - intros x col E. unfold g3. cbn [g_color]. rewrite lookup_insert_ne by (intros <-; congruence).
    apply (fo_keep _ _ F2). unfold g1. cbn [g_color]. by rewrite lookup_insert_ne by (intros <-; congruence).
  - intros x col. unfold g3. cbn [g_color]. destruct (decide (x = b)) as [->|Nx].
    + rewrite lookup_insert_eq. intros [= <-]. by right.
    + rewrite lookup_insert_ne by done. intros [E|E]%(fo_new _ _ F2); [left|by right].
      unfold g1 in E. cbn [g_color] in E. by rewrite lookup_insert_ne in E.
Qed.
End Conts.

(** whether a value leads to a block without a colour *)
Lemma value_block pend q g st v b : Inv pend q g st -> points_to v b ->
  block_of (mk_mem st) v = Ok (b, hd_of (g_color g) b) /\ b ∈ B /\
  (Has_status_hd (hd_of (g_color g) b) (UNMARKED gs) = true <-> unmarked0 b /\ g_color g !! b = None).
Proof.
  intros I Hpt. split; [by apply target_block_ok; [apply I|apply I|]|]. split; [apply Hpt|].
  apply hd_of_unmarked, I.
Qed.

Lemma not_unmarked_done pend q g st v b : Inv pend q g st -> points_to v b ->
  Has_status_hd (hd_of (g_color g) b) (UNMARKED gs) = false ->
  forall b', points_to v b' -> unmarked0 b' -> colored g b'.
Proof.
  intros I Hpt E b' Hpt' Hu. rewrite (points_to_fun v b' b Hpt' Hpt) in *.
  destruct (g_color g !! b) as [col|] eqn:Ec; [by exists col|].
  destruct (value_block pend q g st v b I Hpt) as (_ & _ & [_ H]). rewrite H in E by done. done.
Qed.

Lemma darken_ok fuel : darken_spec fuel.
Proof.
  induction fuel as [|fuel IH]; intros pend q g st v p I Hv Hf; [lia|].
  unfold darken. cbn [caml_darken]. fold darken.
  destruct (Is_markable ar v) eqn:Mk; cbn [negb].
  2:{ exists g. split; [done|]. split; [reflexivity|]. intros b (E & _). congruence. }
  destruct (Hv Mk) as (b & Hpt & Hr). destruct (value_block pend q g st v b I Hpt) as (-> & Hb & Hst). cbn [rbind].
  destruct (Has_status_hd (hd_of (g_color g) b) (UNMARKED gs)) eqn:Un; cbn [negb].
  2:{ exists g. split; [done|]. split; [reflexivity|]. by eapply not_unmarked_done. }
  destruct (proj1 Hst eq_refl) as [Hu En]. specialize (Hr Hu). rewrite (iv_flag _ _ _ _ I).
  rewrite (uncolored_header _ b En). fold (tag0 b).
  assert (Hdone : forall g' b', colored g' b -> points_to v b' -> unmarked0 b' -> colored g' b').
  { intros g' b' Hc Hpt' _. by rewrite (points_to_fun v b' b Hpt' Hpt). }
  destruct (Z.eqb_spec (tag0 b) Cont_tag) as [T|T].
  - eapply ok_or_mono; [apply (darken_cont_ok pend q fuel IH g st b); [done..|lia]|].
    intros st' (g' & I' & F' & C' & _). exists g'. split; [done|]. split; [done|]. intros b'. by apply Hdone.
  - rewrite (store_header_ok _ st b _ (iv_mem _ _ _ _ I) Hb). cbn [rbind].
    eapply ok_or_mono with (P := fun st' => exists g', Inv pend q g' st' /\ follows g g' /\ colored g' b /\ phi g' <= phi g - 3).
    2:{ intros st' (g' & I' & F' & C' & _). exists g'. split; [done|]. split; [done|]. intros b'. by apply Hdone. }
    set (st0 := with_mk_mem st _).
    pose proof (mark_block_ok pend q g st st0 b I Hb Hu En Hr T ltac:(by repeat split)) as Q.
    destruct (tag0 b <? No_scan_tag); [|exact Q]. unfold rmap. eapply ok_or_bind; [exact Q|]. by intros [w st'].
Qed.

(** ** The marking loop *)

Lemma Inv_add_blocks pend q g st n : Inv pend q g st -> Inv pend q g (add_blocks_marked st n).
Proof. intros I. destruct I. by split. Qed.

Section Loop.
Context (fuel : nat) (Hfuel : (K + size unmarked_blocks + 1 <= fuel)%nat).

Lemma fuel_left g : (K + left g + 1 <= fuel)%nat.
Proof.
  assert (left g <= size unmarked_blocks)%nat; [|lia]. unfold left. apply subseteq_size.
  intros b [Hb _]%elem_of_difference. done.
Qed.

Lemma mark_slice_darken_ok pend q g st v w : Inv pend q g st -> markable_value v ->
  ok_or caml_fatal_out_of_memory (mark_slice_darken malloc_ok heap_bsize gs ar native_code is_code fuel st v w)
    (fun '(st', _) => exists g', Inv pend q g' st' /\ follows g g' /\
       forall b, points_to v b -> unmarked0 b -> colored g' b).
Proof.
  intros I Hv. unfold mark_slice_darken. destruct (Is_markable ar v) eqn:Mk; cbn [negb].
  2:{ exists g. split; [done|]. split; [reflexivity|]. intros b (E & _). congruence. }
  destruct (Hv Mk) as (b & Hpt & Hr). destruct (value_block pend q g st v b I Hpt) as (-> & Hb & Hst). cbn [rbind].
  destruct (Has_status_hd (hd_of (g_color g) b) (UNMARKED gs)) eqn:Un; cbn [negb].
  2:{ exists g. split; [done|]. split; [reflexivity|]. by eapply not_unmarked_done. }
  destruct (proj1 Hst eq_refl) as [Hu En]. specialize (Hr Hu). rewrite (uncolored_header _ b En). fold (tag0 b).
  assert (Hdone : forall g' b', colored g' b -> points_to v b' -> unmarked0 b' -> colored g' b').
  { intros g' b' Hc Hpt' _. by rewrite (points_to_fun v b' b Hpt' Hpt). }
  apply (Inv_add_blocks _ _ _ _ 1) in I. set (st1 := add_blocks_marked st 1) in *.
  destruct (Z.eqb_spec (tag0 b) Cont_tag) as [T|T].
  - eapply ok_or_bind; [apply (darken_cont_ok pend q fuel (darken_ok fuel) g st1 b); [done..|pose proof (fuel_left g); lia]|].
    intros st' (g' & I' & F' & C' & _). exists g'. split; [done|]. split; [done|]. intros b'. by apply Hdone.
  - rewrite (store_header_ok _ st1 b _ (iv_mem _ _ _ _ I) Hb). cbn [rbind].
    set (st0 := with_mk_mem st1 _).
    pose proof (mark_block_ok pend q g st1 st0 b I Hb Hu En Hr T ltac:(by repeat split)) as Q.
    destruct (tag0 b <? No_scan_tag).
    + eapply ok_or_bind; [exact Q|]. intros [w' st'] (g' & I' & F' & C' & _). exists g'.
      split; [done|]. split; [done|]. intros b'. by apply Hdone.
    + destruct Q as (g' & I' & F' & C' & _). exists g'. split; [done|]. split; [done|]. intros b'. by apply Hdone.
Qed.

(** a value of the queue whose block has a colour *)
Lemma Inv_pop pend v q g st : Inv pend (v :: q) g st ->
  (forall b, points_to v b -> unmarked0 b -> colored g b) -> Inv pend q g st.
Proof.
  intros I Hd. destruct I as [I1 I2 I3 I4 I5 I6 I7 I8 I9]. split; try done.
  - intros w Hw. apply I6. by right.
  - intros a p b Ea Hp Hpt Hu. destruct (I7 a p b Ea Hp Hpt Hu) as [H|[H|[[E|H]%elem_of_cons|H]]]; [tauto..| |tauto|tauto].
    left. apply Hd; [by rewrite <- E|done].
Qed.

(** another mark stack *)
Lemma Inv_restack pend pend' q g st stk' l' bs' : Inv pend q g st -> stack_ok (colored g) stk' l' bs' ->
  (forall p, grey (mk_stack st) (g_rest g) p -> grey stk' l' p \/ pend' p) ->
  (forall p, pend p -> grey stk' l' p \/ pend' p) ->
  Inv pend' q (Ghost (g_color g) l' bs' (pot stk' l')) (with_mk_stack st stk').
Proof.
  intros I SO Hg Hp. destruct I as [I1 I2 I3 I4 I5 I6 I7 I8 I9]. split; try done.
  intros a p b Ea Hin Hpt Hu. destruct (I7 a p b Ea Hin Hpt Hu) as [H|[H|[H|H]]]; [by left| | |].
  - destruct (Hg p H); tauto.
  - tauto.
  - destruct (Hp p H); tauto.
Qed.

(** values found in the fields of a block go to the queue *)
Lemma Inv_enqueue pend pend' q new g st : Inv pend q g st ->
  (forall v, v ∈ new -> Is_markable ar v = true /\ markable_value v) ->
  (forall p b, pend p -> points_to (word m0 p) b -> word m0 p ∈ new \/ pend' p) ->
  Inv pend' (q ++ new) g st.
Proof.
  intros I Hn Hp. destruct I as [I1 I2 I3 I4 I5 I6 I7 I8 I9]. split; try done.
  - intros v [Hv|Hv]%elem_of_app; [by apply I6|by apply Hn].
  - intros a p b Ea Hin Hpt Hu. rewrite elem_of_app. destruct (I7 a p b Ea Hin Hpt Hu) as [H|[H|[H|H]]]; [tauto..|].
    destruct (Hp p b H Hpt); tauto.
Qed.

Lemma scan_span_ok m n : forall start d pb budget q,
  queue_of pb q -> d <= Z.of_nat n ->
  (forall i, 0 <= i < d -> load m (start + 8 * i) = Ok (word m0 (start + 8 * i))) ->
  exists k new pb' budget', scan_span ar n m start (start + 8 * d) pb budget = Ok (start + 8 * k, pb', budget') /\
    0 <= k <= Z.max 0 d /\ queue_of pb' (q ++ new) /\ waterline pb' = waterline pb /\ zlen new <= k /\
    (forall i, 0 <= i < k -> Is_markable ar (word m0 (start + 8 * i)) = true -> word m0 (start + 8 * i) ∈ new) /\
    (forall v, v ∈ new -> Is_markable ar v = true /\ exists i, 0 <= i < k /\ v = word m0 (start + 8 * i)) /\
    (0 < d -> zlen q < PREFETCH_BUFFER_SIZE -> 0 < k).
Proof.
  induction n as [|n IH]; intros start d pb budget q Q Hd Hl; cbn [scan_span].
  { exists 0, [], pb, budget. rewrite app_nil_r. rewrite Z.mul_0_r, Z.add_0_r.
    split_and!; try done; [lia|intros i Hi; lia|by intros v ?%elem_of_nil|lia]. }
  destruct (Z.ltb_spec start (start + 8 * d)) as [L|L].
  2:{ exists 0, [], pb, budget. rewrite app_nil_r. rewrite Z.mul_0_r, Z.add_0_r.
      split_and!; try done; [lia|intros i Hi; lia|by intros v ?%elem_of_nil|lia]. }
  pose proof (Hl 0 ltac:(lia)) as E0. rewrite Z.mul_0_r, Z.add_0_r in E0. rewrite E0. cbn [rbind].
  assert (Hl' : forall i, 0 <= i < d - 1 -> load m (start + 8 + 8 * i) = Ok (word m0 (start + 8 + 8 * i))).
  { intros i Hi. replace (start + 8 + 8 * i) with (start + 8 * (i + 1)) by lia. apply Hl. lia. }
  destruct (Is_markable ar (word m0 start)) eqn:Mk.
  - rewrite (queue_full pb q Q). destruct (Z.eqb_spec (zlen q) PREFETCH_BUFFER_SIZE) as [Ef|Nf].
    { exists 0, [], pb, (s64 (budget - 1)). rewrite app_nil_r. rewrite Z.mul_0_r, Z.add_0_r.
      split_and!; try done; [lia|intros i Hi; lia|by intros v ?%elem_of_nil|lia]. }
    pose proof (qu_length _ _ Q). destruct (queue_push pb q (word m0 start) Q ltac:(lia)) as (pb1 & -> & Q1 & W1).
    cbn [rbind]. destruct (IH (start + 8) (d - 1) pb1 (s64 (budget - 1)) _ Q1 ltac:(lia) Hl')
      as (k & new & pb' & budget' & E & Hk & Q' & W' & Ln & H1 & H2 & _).
    replace (start + 8 + 8 * (d - 1)) with (start + 8 * d) in E by lia. rewrite E.
    exists (k + 1), (word m0 start :: new), pb', budget'. rewrite <- app_assoc in Q'. cbn [app] in Q'.
    split_and!; [do 3 f_equal; lia|lia|lia|done|congruence|rewrite zlen_cons; lia| | |lia].
    + intros i Hi Hm. apply elem_of_cons. destruct (decide (i = 0)) as [->|]; [left; f_equal; lia|]. right.
      replace (start + 8 * i) with (start + 8 + 8 * (i - 1)) in * by lia. apply H1; [lia|done].
    + intros v [->|Hv]%elem_of_cons; [split; [done|]; exists 0; split; [lia|f_equal; lia]|].
      destruct (H2 v Hv) as [Hm (i & Hi & ->)]. split; [done|]. exists (i + 1). split; [lia|f_equal; lia].
  - destruct (IH (start + 8) (d - 1) pb (s64 (budget - 1)) _ Q ltac:(lia) Hl')
      as (k & new & pb' & budget' & E & Hk & Q' & W' & Ln & H1 & H2 & _).
    replace (start + 8 + 8 * (d - 1)) with (start + 8 * d) in E by lia. rewrite E.
    exists (k + 1), new, pb', budget'. split_and!; [do 3 f_equal; lia|lia|lia|done|done|lia| | |lia].
    + intros i Hi Hm. destruct (decide (i = 0)) as [->|].
      { rewrite Z.mul_0_r, Z.add_0_r in Hm. congruence. }
      replace (start + 8 * i) with (start + 8 + 8 * (i - 1)) in * by lia. apply H1; [lia|done].
    + intros v Hv. destruct (H2 v Hv) as [Hm (i & Hi & ->)]. split; [done|]. exists (i + 1). split; [lia|f_equal; lia].
Qed.

Definition line_ok (pb : prefetch_buffer) : Prop := waterline pb = 0 \/ waterline pb = PREFETCH_BUFFER_MIN.

(** what is left, with the values of the queue *)
Definition theta (g : ghost) (q : list Z) : Z := phi g + zlen q.

#[local] Abbreviation nothing := (fun _ : Z => False).

Record loop_ok (g0 : ghost) (budget0 : Z) (g : ghost) (q : list Z) (l : mark_loop) : Prop := {
  lo_inv : Inv nothing q g (ml_st l);
  lo_queue : queue_of (ml_pb l) q;
  lo_line : line_ok (ml_pb l);
  lo_follows : follows g0 g;
  lo_theta : theta g q <= phi g0;
  lo_budget : ml_budget l = budget0 \/ theta g q < phi g0
}.

(** a span of the block [b] is to be scanned, from a state where [t] was left *)
Record span_ok (g0 : ghost) (t : Z) (g : ghost) (q : list Z) (l : mark_loop) (me : mark_entry) (b : Z) : Prop := {
  sp_inv : Inv (in_span me) q g (ml_st l);
  sp_queue : queue_of (ml_pb l) q;
  sp_line : line_ok (ml_pb l);
  sp_follows : follows g0 g;
  sp_block : colored g b /\ plain b /\ b ∉ g_blocks g;
  sp_span : b + 8 * first0 b <= me_start me <= me_end me /\ me_end me = b + 8 * scannable0 b /\
    (me_start me - b) mod 8 = 0;
  sp_theta : theta g q + 3 * me_length me < t \/
    (theta g q + 3 * me_length me = t /\ zlen q < PREFETCH_BUFFER_SIZE /\ 0 < ml_budget l /\ 0 < me_length me)
}.

Lemma span_length g0 t g q l me b : span_ok g0 t g q l me b ->
  0 <= me_length me /\ me_end me = me_start me + 8 * me_length me /\
  forall i, 0 <= i < me_length me -> me_start me + 8 * i ∈ scan_addrs b.
Proof.
  intros S. destruct (sp_span _ _ _ _ _ _ _ S) as (H1 & H2 & H3). destruct (sp_block _ _ _ _ _ _ _ S) as (_ & Pl & _).
  unfold me_length. split; [zlia|]. split; [zlia|]. intros i Hi. apply elem_of_plain_addrs; [done|].
  exists ((me_start me + 8 * i - b) / 8). split; zlia.
Qed.

Lemma follows_recolor g0 g g' : follows g0 g -> g_color g' = g_color g -> phi g' <= phi g0 -> follows g0 g'.
Proof. intros [F1 F2 _] Ec Hp. split; [by rewrite Ec|by rewrite Ec|done]. Qed.

Lemma phi_restack g l bs p : phi (Ghost (g_color g) l bs p) = phi g - g_pot g + p.
Proof.
  unfold phi. rewrite (left_same (Ghost (g_color g) l bs p) g) by done. cbn [g_pot]. lia.
Qed.

Lemma scan_entry_ok g0 budget0 t g q l me b : span_ok g0 t g q l me b -> t <= phi g0 ->
  ok_or caml_fatal_out_of_memory (scan_entry malloc_ok heap_bsize ar l me) (fun l' => exists g' q',
    loop_ok g0 budget0 g' q' l' /\ theta g' q' < t).
Proof.
  intros S Ht. destruct (span_length _ _ _ _ _ _ _ S) as (L0 & Ee & Hin). destruct S as [I Q Ln F (Cb & Pl & Nb) (S1 & S2 & S3) St].
  destruct (Inv_blocks _ _ _ _ I b Cb) as [Hb Hu]. unfold scan_entry.
  set (d := if ml_budget l <? me_length me then (if ml_budget l <? 0 then 0 else ml_budget l) else me_length me).
  assert (Hd : 0 <= d <= me_length me /\ (0 < ml_budget l -> 0 < me_length me -> 0 < d)).
  { unfold d. destruct (Z.ltb_spec (ml_budget l) (me_length me)); [destruct (Z.ltb_spec (ml_budget l) 0)|]; lia. }
  replace (if ml_budget l <? me_length me
           then me_start me + 8 * (if ml_budget l <? 0 then 0 else ml_budget l) else me_end me)
    with (me_start me + 8 * d) by (unfold d; by destruct (ml_budget l <? me_length me)).
  destruct (scan_span_ok (mk_mem (ml_st l)) (Z.to_nat (me_length me)) (me_start me) d (ml_pb l) (ml_budget l) q Q)
    as (k & new & pb' & budget' & -> & Hk & Q' & W' & Lnew & H1 & H2 & Hprog); [lia| |].
  { intros i Hi. destruct (scan_addr_ok b (me_start me + 8 * i) Hb Hu) as [Fp Mp]; [apply Hin; lia|].
    by apply (load_frozen _ _ _ (iv_colors _ _ _ _ I) (iv_mem _ _ _ _ I)). }
  cbn [rbind].
  set (me' := MarkEntry (me_start me + 8 * k) (me_end me)).
  assert (I' : Inv (in_span me') (q ++ new) g (ml_st l)).
  { apply (Inv_enqueue (in_span me)); [done| |].
    - intros v Hv. destruct (H2 v Hv) as [Hm (i & Hi & ->)]. split; [done|]. intros _.
      destruct (mj_values W b (me_start me + 8 * i) Hb Hu ltac:(apply Hin; lia) Hm) as (b' & Hpt).
      exists b'. split; [done|]. intros Hu'. eapply (reach_step b); [by apply (iv_reach _ _ _ _ I)| |done|done].
      apply Hin. lia.
    - intros p b' [Hp1 Hp2] Hpt.
      assert (exists i, p = me_start me + 8 * i) as [i ->] by (exists ((p - me_start me) / 8); zlia).
      destruct (decide (i < k)) as [Hik|Hik]; [left; apply H1; [lia|apply Hpt]|].
      right. split; cbn [me_start me_end me']; [lia|zlia]. }
  assert (Hth : theta g (q ++ new) + 3 * (me_length me - k) < t).
  { unfold theta in *. rewrite zlen_app. destruct St as [St|(St & Hq & Hbud & Hlen)]; [lia|].
    specialize (Hprog ltac:(tauto) Hq). lia. }
  pose proof (zlen_nonneg (q ++ new)) as Lq.
  destruct (Z.ltb_spec (me_start me + 8 * k) (me_end me)) as [Lt|Ge].
  - assert (HE : entry_of (colored g) me' b).
    { split; [done|]. split; [done|]. cbn [me_start me_end me']. split_and!; [lia|lia|done|zlia]. }
    assert (Hlen' : me_length me' = me_length me - k) by (unfold me_length, me'; cbn [me_start me_end]; zlia).
    unfold me' in HE, Hlen', I'. rewrite S2 in *.
    eapply ok_or_bind; [apply (push_range_ok (colored g) (Inv_blocks _ _ _ _ I') room _ _ _ b _
      (iv_stack _ _ _ _ I') Nb HE)|].
    cbv beta. intros stk' (l' & bs' & SO' & _ & Hg & Hp). cbn [ok_or].
    pose proof (Inv_restack (in_span (MarkEntry (me_start me + 8 * k) (b + 8 * scannable0 b))) nothing
      (q ++ new) g (ml_st l) stk' l' bs' I' SO'
      ltac:(intros p Hp'; left; apply Hg; by left) ltac:(intros p Hp'; left; apply Hg; by right)) as I2.
    set (g' := Ghost (g_color g) l' bs' (pot stk' l')) in *.
    assert (Hphi : phi g' <= phi g + 3 * (me_length me - k)).
    { unfold g'. rewrite phi_restack, (iv_pot _ _ _ _ I'). lia. }
    exists g', (q ++ new). unfold theta in *. split; [|lia]. split; cbn [ml_st ml_pb ml_budget].
    + done.
    + destruct (PREFETCH_BUFFER_MIN <? pb_size pb'); [|done]. by destruct Q'.
    + destruct (PREFETCH_BUFFER_MIN <? pb_size pb'); [by right|]. unfold line_ok. by rewrite W'.
    + apply (follows_recolor g0 g g'); [done|done|]. pose proof (zlen_nonneg (q ++ new)). lia.
    + unfold theta. lia.
    + right. unfold theta. lia.
  - exists g, (q ++ new). unfold theta in *. split; [|lia]. split; cbn [ml_st ml_pb ml_budget]; try done.
    + apply (Inv_enqueue (in_span me') nothing (q ++ new) []) in I'; [by rewrite app_nil_r in I'|by intros v ?%elem_of_nil|].
      intros p b' [Hp1 Hp2]. cbn [me_start me_end me'] in *. lia.
    + unfold line_ok. by rewrite W'.
    + unfold theta. lia.
    + right. unfold theta. lia.
Qed.

(** a block whose fields are to be scanned is marked, the mark stack being left as it is *)
Lemma Inv_mark_same pend pend' q g st st' b :
  Inv pend q g st -> b ∈ B -> unmarked0 b -> g_color g !! b = None -> reach b ->
  state_with st st' (<[b - 8 := s64 (With_status_hd (hd0 b) (MARKED gs))]> (mk_mem st)) (mk_stack st) ->
  (forall p, p ∈ scan_addrs b -> pend' p) -> (forall p, pend p -> pend' p) ->
  let g' := Ghost (<[b := MARKED gs]> (g_color g)) (g_rest g) (g_blocks g) (pot (mk_stack st) (g_rest g)) in
  Inv pend' q g' st' /\ follows g g' /\ phi g' = phi g - weight.
Proof.
  intros I Hb Hu En Hr SW Hp Hpend g'. pose proof (mj_bound W).
  destruct (Inv_mark pend pend' q g st st' b (mk_stack st) (g_rest g) (g_blocks g) I Hb Hu En Hr SW) as (I' & F' & _);
    try done; [|intros p b' Hin _ _; do 3 right; by apply Hp|lia|].
  { eapply stack_ok_mono; [|apply (iv_stack _ _ _ _ I)]. intros b' Hb'.
    destruct (decide (b' = b)) as [->|]; [rewrite lookup_insert_eq; by eexists|by rewrite lookup_insert_ne]. }
  split; [done|]. split; [done|]. unfold phi. rewrite (iv_pot _ _ _ _ I).
  rewrite (left_insert (g_color g) b (MARKED gs) (g_rest g) (g_blocks g) (pot (mk_stack st) (g_rest g))
    (<[b := MARKED gs]> (g_color g)) eq_refl En Hu Hb g eq_refl). fold g'. change (g_pot g') with (pot (mk_stack st) (g_rest g)).
  rewrite Nat2Z.inj_succ, Z.mul_succ_r. lia.
Qed.

(** what a turn of the loop gets to do, from a state where [t] was left *)
Definition turn_ok (g0 : ghost) (budget0 t : Z) (tn : turn) : Prop :=
  match tn with
  | Continue l => exists g q, loop_ok g0 budget0 g q l /\ theta g q < t
  | Scan l me => exists g q b, span_ok g0 t g q l me b
  | Break _ => False
  end.

(** the span of a block, as the code computes it *)
Lemma block_span b budget : exists budget',
  (let reserved := Reserved_hd (hd0 b) in
   let wosize := Allocated_wosize_hd (hd0 b) in
   if Is_mixed_block_reserved reserved then
     let scannable_wosize :=
       if native_code then Scannable_wosize_reserved_native reserved wosize else wosize in
     (scannable_wosize, s64 (budget - (wosize - scannable_wosize)))
   else (wosize, budget)) = (scannable0 b, budget').
Proof.
  unfold scannable0, Scannable_wosize_hd, Scannable_wosize_hd_native, Scannable_wosize_reserved_native.
  destruct native_code, (Is_mixed_block_reserved (Reserved_hd (hd0 b))); by eexists.
Qed.

Lemma mark_block_turn_ok g0 budget0 g v q l :
  Inv nothing (v :: q) g (ml_st l) -> queue_of (ml_pb l) q -> line_ok (ml_pb l) -> follows g0 g ->
  theta g (v :: q) <= phi g0 ->
  ok_or caml_fatal_out_of_memory (mark_block malloc_ok heap_bsize gs ar native_code is_code fuel l v)
    (turn_ok g0 budget0 (theta g (v :: q))).
Proof.
  intros I Q Ln F Ht. unfold theta in Ht. rewrite zlen_cons in Ht. unfold mark_block.
  destruct (iv_queue _ _ _ _ I v ltac:(by left)) as [Mk Hv].
  destruct (Hv Mk) as (b & Hpt & Hr). destruct (value_block _ _ _ _ v b I Hpt) as (-> & Hb & Hst). cbn [rbind].
  destruct (Has_status_hd (hd_of (g_color g) b) (UNMARKED gs)) eqn:Un; cbn [negb].
  2:{ exists g, q. unfold theta. rewrite zlen_cons. split; [|lia].
      split; [|done..|unfold theta; lia|right; unfold theta; lia].
      eapply Inv_pop; [exact I|]. by eapply not_unmarked_done. }
  destruct (proj1 Hst eq_refl) as [Hu En]. specialize (Hr Hu). rewrite (uncolored_header _ b En). fold (tag0 b).
  assert (Hdone : forall g' b', colored g' b -> points_to v b' -> unmarked0 b' -> colored g' b').
  { intros g' b' Hc Hpt' _. by rewrite (points_to_fun v b' b Hpt' Hpt). }
  assert (Hcont : forall st' bu bl g', Inv nothing (v :: q) g' st' -> follows g g' -> colored g' b -> phi g' <= phi g - 3 ->
    turn_ok g0 budget0 (theta g (v :: q)) (Continue (MarkLoop st' (ml_pb l) bu bl))).
  { intros st' bu bl g' I' F' C' P'. exists g', q. unfold theta. rewrite zlen_cons. split; [|lia].
    split; [|done|done|by etrans|unfold theta; lia|right; unfold theta; lia].
    eapply Inv_pop; [exact I'|]. intros b'. by apply Hdone. }
  destruct (Z.eqb_spec (tag0 b) Cont_tag) as [T|T].
  { eapply ok_or_bind; [apply (darken_cont_ok nothing (v :: q) fuel (darken_ok fuel) g (ml_st l) b); [done..|pose proof (fuel_left g); lia]|].
    intros st' (g' & I' & F' & C' & P'). by apply (Hcont _ _ _ g'). }
  rewrite (store_header_ok _ (ml_st l) b _ (iv_mem _ _ _ _ I) Hb). cbn [rbind]. set (st1 := with_mk_mem (ml_st l) _).
  pose proof (mj_bound W) as HN. pose proof (zlen_nonneg q) as Lq.
  assert (Hcol : forall bs r p, colored (Ghost (<[b := MARKED gs]> (g_color g)) r bs p) b).
  { intros. unfold colored. cbn [g_color]. rewrite lookup_insert_eq. by eexists. }
  destruct (Z.leb_spec No_scan_tag (tag0 b)) as [L|L].
  { destruct (Inv_mark_same nothing nothing (v :: q) g (ml_st l) st1 b I Hb Hu En Hr ltac:(by repeat split)) as (I' & F' & P').
    { intros p Hp. unfold scan_addrs in Hp. rewrite (proj2 (Z.leb_le _ _) L) in Hp. by apply elem_of_nil in Hp. }
    { done. }
    eapply (Hcont _ _ _ _ I' F' ltac:(apply Hcol)). unfold weight in P'. lia. }
  assert (Pl : plain b) by done. destruct (mj_fields W b Hb Hu Pl) as (F1 & F2 & F3 & F4 & F5).
  (* the span *)
  assert (Hspan : forall bu bl, turn_ok g0 budget0 (theta g (v :: q)) (Scan (MarkLoop st1 (ml_pb l) bu bl)
            (MarkEntry (b + 8 * first0 b) (b + 8 * scannable0 b)))).
  { intros bu bl. set (me := MarkEntry _ _).
    destruct (Inv_mark_same nothing (in_span me) (v :: q) g (ml_st l) st1 b I Hb Hu En Hr ltac:(by repeat split)) as (I' & F' & P').
    { intros p (i & Hi & ->)%(elem_of_plain_addrs b p Pl). split; cbn [me_start me_end me]; [lia|zlia]. }
    { done. }
    cbv zeta in I', F', P'. eexists _, q, b. split; cbn [ml_st ml_pb ml_budget]; [|done|done|by etrans| | |].
    - eapply Inv_pop; [exact I'|]. intros b'. apply Hdone, Hcol.
    - split; [apply Hcol|]. split; [done|]. cbn [g_blocks].
      eapply not_in_stack; [apply (iv_stack _ _ _ _ I)|by apply uncolored].
    - cbn [me_start me_end me]. split_and!; [lia|lia|done|zlia].
    - left. unfold theta. rewrite P', zlen_cons. unfold weight, me_length. cbn [me_start me_end me].
      replace (b + 8 * scannable0 b - (b + 8 * first0 b)) with ((scannable0 b - first0 b) * 8) by lia.
      rewrite Z.div_mul by lia. lia. }
  destruct (block_span b (s64 (ml_budget l - 1))) as [bu Ebu]. cbv zeta in Ebu |- *. rewrite Ebu.
  unfold first0 in Hspan. destruct (Z.eqb_spec (tag0 b) Closure_tag) as [TC|NC].
  - destruct (Inv_mark_same nothing (fun p => p ∈ scan_addrs b) (v :: q) g (ml_st l) st1 b I Hb Hu En Hr ltac:(by repeat split)) as (I' & _);
      [done|done|]. specialize (F5 TC).
    unfold Closinfo_val. change (mk_mem st1) with (mk_mem st1) in *.
    rewrite (Field_same _ (mk_mem st1) (iv_colors _ _ _ _ I') (iv_mem _ _ _ _ I') b 1 Hb) by lia.
    cbn [rbind ok_or]. rewrite Z.mul_1_r. apply Hspan.
  - cbn [ok_or]. specialize (Hspan bu (u64 (ml_blocks l + 1))). by rewrite Z.mul_0_r, Z.add_0_r in Hspan.
Qed.

(** the last entry of the mark stack *)
Lemma pop_entry_ok D stk l bs : stack_ok D stk l bs -> ms_count stk <> 0 ->
  exists me b bs', bs = bs' ++ [b] /\ rd (ms_stack stk) (ms_count stk - 1) = Ok me /\ entry_of D me b /\
    let stk' := MarkStack (take (Z.to_nat (ms_count stk - 1)) (ms_stack stk)) (ms_size stk)
                  (compressed_stack stk) (compressed_stack_iter stk) in
    stack_ok D stk' l bs' /\ (forall p, grey stk l p -> grey stk' l p \/ in_span me p) /\
    pot stk' l = pot stk l - 3 * me_length me.
Proof.
  intros SO Nz. pose proof (so_entries _ _ _ _ SO) as FE. pose proof (so_blocks _ _ _ _ SO) as Nd.
  pose proof (so_size _ _ _ _ SO) as Sz. unfold ms_count in *.
  assert (exists s x, ms_stack stk = s ++ [x]) as (s & x & Es).
  { clear FE Sz. induction (ms_stack stk) as [|x s _] using rev_ind; [done|eauto]. }
  rewrite Es in *.
  apply Forall2_app_inv_l in FE as (bs' & bl & FE & FL & ->).
  apply Forall2_cons_inv_l in FL as (b & bl' & E & FL & ->). apply Forall2_nil_inv_l in FL as ->.
  exists x, b, bs'. rewrite zlen_snoc in *. replace (zlen s + 1 - 1) with (zlen s) by lia.
  assert (Et : take (Z.to_nat (zlen s)) (s ++ [x]) = s).
  { unfold zlen. rewrite Nat2Z.id. apply take_app_length. }
  split; [done|]. split; [apply rd_mid|]. split; [done|]. rewrite Et. split; [|split].
  - apply NoDup_app in Nd as (Nd & _). destruct SO as [I1 I2 I3 I4 I5 I6 I7].
    split; try done. unfold ms_count. cbn [ms_stack ms_size]. lia.
  - intros p [(me & Hm & Hp)|Hp]; [|left; by right]. rewrite Es in Hm.
    apply elem_of_app in Hm as [Hm|Hm%list_elem_of_singleton]; [left; left; by exists me|subst; by right].
  - unfold pot. cbn [ms_stack]. rewrite Es, zsum_app. cbn [zsum foldr]. lia.
Qed.

Lemma next_work_ok g0 budget0 g q l : loop_ok g0 budget0 g q l ->
  ok_or caml_fatal_out_of_memory (next_work malloc_ok heap_bsize gs ar native_code is_code fuel l) (fun tn =>
    turn_ok g0 budget0 (theta g q) tn \/
    (exists l', tn = Continue l' /\ loop_ok g0 budget0 g q l' /\ waterline (ml_pb l') = 0 /\ waterline (ml_pb l) <> 0) \/
    (tn = Break l /\ q = [] /\ (ml_budget l <= 0 \/ ms_count (mk_stack (ml_st l)) = 0))).
Proof.
  intros [I Q Ln F Ht Hbu]. unfold next_work, pb_above_waterline. rewrite (queue_size _ _ Q).
  destruct (Z.ltb_spec (waterline (ml_pb l)) (zlen q)) as [L|L].
  - destruct q as [|v q]; [destruct Ln as [E|E]; rewrite E in L; cbv in L; done|].
    destruct (queue_pop _ _ _ Q) as (pb' & -> & Q' & W'). cbn [rbind].
    eapply ok_or_mono; [apply (mark_block_turn_ok g0 budget0 g v q (MarkLoop (ml_st l) pb' (ml_budget l) (ml_blocks l)))|].
    + done.
    + done.
    + unfold line_ok. cbn [ml_pb]. by rewrite W'.
    + done.
    + done.
    + intros tn Htn. by left.
  - destruct (Z.leb_spec (ml_budget l) 0) as [Lb|Lb], (Z.eqb_spec (ms_count (mk_stack (ml_st l))) 0) as [Ec|Nc]; cbn [orb].
    4:{ destruct (pop_entry_ok _ _ _ _ (iv_stack _ _ _ _ I) Nc) as (me & b & bs' & Eb & -> & E & SO' & Hg & Hp).
        cbn [rbind ok_or]. left. cbv zeta in SO', Hg, Hp. set (stk' := MarkStack _ _ _ _) in *.
        destruct (entry_bounds (colored g) (Inv_blocks _ _ _ _ I) me b E) as (L1 & _ & Ee & _).
        pose proof (Inv_restack nothing (in_span me) q g (ml_st l) stk' (g_rest g) bs' I SO' Hg ltac:(done)) as I'.
        set (g' := Ghost (g_color g) (g_rest g) bs' (pot stk' (g_rest g))) in *.
        assert (Hphi : phi g' = phi g - 3 * me_length me).
        { unfold g'. rewrite phi_restack, (iv_pot _ _ _ _ I). lia. }
        pose proof (zlen_nonneg q) as Lq. unfold theta in *.
        exists g', q, b. destruct E as (Db & Pl & E1 & E2 & E3). split; cbn [ml_st ml_pb ml_budget]; try done.
        - apply (follows_recolor g0 g g'); [done|done|]. lia.
        - split; [done|]. split; [done|]. intros Hin. pose proof (so_blocks _ _ _ _ (iv_stack _ _ _ _ I)) as Nd.
          rewrite Eb in Nd. apply NoDup_app in Nd as (_ & Nd & _). apply (Nd b Hin). by left.
        - split_and!; [lia|lia|done|done].
        - right. unfold theta. split; [lia|]. split; [|lia].
          destruct Ln as [Wl|Wl]; rewrite Wl in L; unfold PREFETCH_BUFFER_MIN in L; change PREFETCH_BUFFER_SIZE with 256; lia. }
    all: assert (Qd : queue_of (pb_drain_mode (ml_pb l)) q) by (destruct Q; by split).
    all: destruct (Z.ltb_spec 0 (waterline (ml_pb l))) as [Lw|Lw]; right;
      [left; eexists; split; [done|]; split; [by split; try (by left)|split; [done|lia]]|].
    all: right; split; [done|]; split; [|tauto].
    all: destruct q; [done|]; rewrite zlen_cons in L; pose proof (zlen_nonneg q); lia.
Qed.

Lemma theta_nonneg pend q g st : Inv pend q g st -> 0 <= theta g q.
Proof.
  intros I. unfold theta, phi. rewrite (iv_pot _ _ _ _ I). unfold pot, weight.
  pose proof (mj_bound W). pose proof (zlen_nonneg q). pose proof (zlen_nonneg (g_rest g)).
  assert (0 * zlen (ms_stack (mk_stack st)) <= zsum me_length (ms_stack (mk_stack st))); [|nia].
  apply zsum_ge. intros me [j Hj]%list_elem_of_lookup.
  destruct (Forall2_lookup_l _ _ _ _ _ (so_entries _ _ _ _ (iv_stack _ _ _ _ I)) Hj) as (b & _ & E).
  destruct (entry_bounds (colored g) (Inv_blocks _ _ _ _ I) me b E) as (L & _). lia.
Qed.

(** enough turns *)
Lemma marking_loop_ok n : forall g0 budget0 g q l, loop_ok g0 budget0 g q l ->
  2 * theta g q + (if waterline (ml_pb l) =? 0 then 0 else 1) < Z.of_nat n ->
  ok_or caml_fatal_out_of_memory (marking_loop malloc_ok heap_bsize gs ar native_code is_code n fuel l) (fun l' => exists g',
    loop_ok g0 budget0 g' [] l' /\ (ml_budget l' <= 0 \/ ms_count (mk_stack (ml_st l')) = 0)).
Proof.
  induction n as [|n IH]; intros g0 budget0 g q l Hl Hn.
  { pose proof (theta_nonneg _ _ _ _ (lo_inv _ _ _ _ _ Hl)). destruct (waterline (ml_pb l) =? 0); lia. }
  cbn [marking_loop]. eapply ok_or_bind; [by apply (next_work_ok g0 budget0 g q l)|].
  intros tn [Htn|[(l' & -> & Hl' & W1 & W2)|(-> & -> & Hb)]].
  - destruct tn as [l'|l' me|l']; [| |done].
    + destruct Htn as (g' & q' & Hl' & Hth). apply (IH g0 budget0 g' q' l' Hl').
      destruct (waterline (ml_pb l) =? 0), (waterline (ml_pb l') =? 0); lia.
    + destruct Htn as (g' & q' & b & S). eapply ok_or_bind.
      * apply (scan_entry_ok g0 budget0 _ g' q' l' me b S). apply (lo_theta _ _ _ _ _ Hl).
      * intros l2 (g2 & q2 & Hl2 & Hth). apply (IH g0 budget0 g2 q2 l2 Hl2).
        destruct (waterline (ml_pb l) =? 0), (waterline (ml_pb l2) =? 0); lia.
  - apply (IH g0 budget0 g q l' Hl'). rewrite W1, Z.eqb_refl. rewrite (proj2 (Z.eqb_neq _ _) W2) in Hn. lia.
  - cbn [ok_or]. by exists g.
Qed.

Lemma do_some_marking_ok n g st budget : Inv nothing [] g st -> 2 * phi g + 1 < Z.of_nat n ->
  ok_or caml_fatal_out_of_memory (do_some_marking malloc_ok heap_bsize gs ar native_code is_code n fuel st budget)
    (fun '(st', budget') => exists g', Inv nothing [] g' st' /\ follows g g' /\
      (budget' = budget \/ phi g' < phi g) /\ (budget' <= 0 \/ ms_count (mk_stack st') = 0)).
Proof.
  intros I Hn. unfold do_some_marking. eapply ok_or_bind.
  { apply (marking_loop_ok n g budget g [] (MarkLoop st pb_init budget 0)).
    - split; [done|apply queue_init|by right|reflexivity|unfold theta; rewrite zlen_nil; lia|by left].
    - unfold theta. rewrite zlen_nil. cbn. lia. }
  intros l (g' & [I' _ _ F' _ Hb] & Hs). cbn [ok_or]. exists g'. split; [by apply Inv_add_blocks|].
  split; [done|]. split; [|done]. unfold theta in Hb. rewrite zlen_nil, Z.add_0_r in Hb. done.
Qed.

(** addresses that need not be looked at any more *)
Lemma Inv_pend pend pend' q g st : Inv pend q g st ->
  (forall p b, pend p -> points_to (word m0 p) b -> unmarked0 b -> colored g b \/ pend' p) -> Inv pend' q g st.
Proof.
  intros I Hp. destruct I as [I1 I2 I3 I4 I5 I6 I7 I8 I9]. split; try done.
  intros a p b Ea Hin Hpt Hu. destruct (I7 a p b Ea Hin Hpt Hu) as [H|[H|[H|H]]]; [tauto..|].
  destruct (Hp p b H Hpt Hu); tauto.
Qed.

(** the words of a chunk are fields of blocks that were reached *)
Definition chunk_ok (k v : Z) : Prop := 0 < k /\ 0 <= v < 2 ^ 64 /\
  forall p, bit_addr p (k, v) -> exists b, reach b /\ b ∈ B /\ unmarked0 b /\ plain b /\ p ∈ scan_addrs b.

Lemma bit_test v ofs : 0 <= ofs < BITS_PER_WORD ->
  negb (Z.land v (u64 (Z.shiftl 1 ofs)) =? 0) = Z.testbit v ofs.
Proof. intros Ho. rewrite flag_of_offset by done. apply land_pow2_nonzero, Ho. Qed.

Lemma mark_chunk_ok k v g st budget : chunk_ok k v -> Inv (fun p => bit_addr p (k, v)) [] g st ->
  ok_or caml_fatal_out_of_memory (mark_chunk malloc_ok heap_bsize gs ar native_code is_code fuel k v (st, budget))
    (fun '(st', _) => exists g', Inv nothing [] g' st' /\ follows g g').
Proof.
  intros (Hk & Hv & Hp) I. unfold mark_chunk. eapply ok_or_mono.
  - apply (for_loop_ok_or _ (fun i '(st', _) => exists g',
      Inv (fun p => exists ofs, i <= ofs < BITS_PER_WORD /\ Z.testbit v ofs = true /\ p = 8 * (k + ofs)) [] g' st' /\
      follows g g')).
    + exists g. split; [exact I|reflexivity].
    + intros i [s1 b1] Hi (g1 & I1 & F1). rewrite bit_test by (unfold BITS_PER_WORD in *; lia).
      destruct (Z.testbit v i) eqn:Eb.
      * destruct (Hp (8 * (k + i))) as (b & Hr & Hb & Hu & Pl & Hin).
        { exists i. split; [unfold BITS_PER_WORD in *; lia|done]. }
        destruct (plain_addr_bounds b _ Hb Hu Pl Hin) as [Bd _].
        rewrite ptr_of_chunk by lia. destruct (scan_addr_ok b _ Hb Hu Hin) as [Fp Mp].
        rewrite (load_frozen _ _ _ (iv_colors _ _ _ _ I1) (iv_mem _ _ _ _ I1) Fp Mp). cbn [rbind].
        eapply ok_or_mono.
        { apply (mark_slice_darken_ok _ [] g1 s1 (word m0 (8 * (k + i))) b1 I1). intros Mk.
          destruct (mj_values W b _ Hb Hu Hin Mk) as (b' & Hpt). exists b'. split; [done|]. intros Hu'.
          by eapply reach_step. }
        intros [s2 b2] (g2 & I2 & F2 & D2). exists g2. split; [|by etrans].
        eapply Inv_pend; [exact I2|]. intros p b' (ofs & Ho & Ht & ->) Hpt Hu'.
        destruct (decide (ofs = i)) as [->|]; [left; by apply D2|]. right. exists ofs. split; [lia|done].
      * cbn [ok_or]. exists g1. split; [|done]. eapply Inv_pend; [exact I1|].
        intros p b' (ofs & Ho & Ht & ->) _ _. right. exists ofs. split; [|done].
        destruct (decide (ofs = i)) as [->|]; [congruence|lia].
  - intros [s1 b1] (g1 & I1 & F1). exists g1. split; [|done]. eapply Inv_pend; [exact I1|].
    intros p b' (ofs & Ho & _). unfold BITS_PER_WORD in Ho. lia.
Qed.

(** the marking has ended *)
Record marked (g0 : ghost) (st : mark_state) : Prop := {
  md_ghost : exists g, colors_ok (g_color g) /\ recolored (g_color g) (mk_mem st) /\ follows g0 g /\
    (forall b, colored g b -> reach b) /\
    (forall a p b, g_color g !! a = Some (MARKED gs) -> p ∈ scan_addrs a ->
       points_to (word m0 p) b -> unmarked0 b -> colored g b);
  md_stack : ms_stack (mk_stack st) = [];
  md_iter : caml_addrmap_iter_ok (compressed_stack (mk_stack st)) (compressed_stack_iter (mk_stack st)) = false;
  md_done : marking_done st = true;
  md_count : num_domains_to_mark st = u64 (nd - 1)
}.

Lemma marked_follows g g' st : follows g g' -> marked g' st -> marked g st.
Proof.
  intros F [(g2 & H1 & H2 & H3 & H4 & H5) M2 M3 M4 M5]. split; [|done..]. exists g2. split; [done|]. split; [done|].
  split; [by etrans|done].
Qed.

(** when nothing is left *)
Lemma Inv_marked g st : Inv nothing [] g st -> ms_count (mk_stack st) = 0 ->
  caml_addrmap_iter_ok (compressed_stack (mk_stack st)) (compressed_stack_iter (mk_stack st)) = false ->
  marked g (set_marking_done st true (-1)).
Proof.
  intros I E0 It. pose proof (iter_at_step _ _ _ (so_iter _ _ _ _ (iv_stack _ _ _ _ I))) as Step. rewrite It in Step.
  assert (En : ms_stack (mk_stack st) = []) by (unfold ms_count, zlen in E0; by destruct (ms_stack (mk_stack st))).
  split; [|exact En|exact It|done|].
  - exists g. split; [apply I|]. split; [apply I|]. split; [reflexivity|]. split; [apply I|].
    intros a p b Ea Hp Hpt Hu. destruct (iv_closed _ _ _ _ I a p b Ea Hp Hpt Hu) as [H|[[(me & Hm & _)|(e & He & _)]|[H|H]]].
    + done.
    + rewrite En in Hm. by apply elem_of_nil in Hm.
    + rewrite Step in He. by apply elem_of_nil in He.
    + by apply elem_of_nil in H.
    + done.
  - cbn. by rewrite (iv_count _ _ _ _ I).
Qed.

Lemma mark_turn_ok n g st budget : Inv nothing [] g st -> 2 * phi g + 1 < Z.of_nat n -> 0 < budget ->
  ok_or caml_fatal_out_of_memory (mark_turn malloc_ok heap_bsize gs ar native_code is_code n fuel (st, budget))
    (fun '(st', _) => marked g st' \/ exists g', Inv nothing [] g' st' /\ follows g g' /\ phi g' < phi g).
Proof.
  intros I Hn Hb. unfold mark_turn. eapply ok_or_bind; [by apply (do_some_marking_ok n g st budget I)|].
  intros [st1 bud1] (g1 & I1 & F1 & Hbu & Hs). destruct (Z.ltb_spec 0 bud1) as [Lb|Lb].
  2:{ cbn [ok_or]. right. exists g1. split; [done|]. split; [done|]. destruct Hbu as [->|?]; lia. }
  destruct Hs as [?|Ec]; [lia|]. pose proof (iv_stack _ _ _ _ I1) as SO.
  pose proof (so_iter _ _ _ _ SO) as It. pose proof (iter_at_step _ _ _ It) as Step.
  destruct (caml_addrmap_iter_ok (compressed_stack (mk_stack st1)) (compressed_stack_iter (mk_stack st1))) eqn:Eit.
  - destruct Step as (k & v & l' & i' & El & -> & -> & -> & It'). cbn [rbind].
    set (stk' := MarkStack _ _ _ i'). pose proof (so_keys _ _ _ _ SO) as Nd. rewrite El in Nd. apply NoDup_cons in Nd as [_ Nd].
    assert (Hin : forall e, e ∈ l' -> e ∈ g_rest g1) by (intros e He; rewrite El; by right).
    assert (Hrest : forall p, in_rest (g_rest g1) p -> in_rest l' p \/ bit_addr p (k, v)).
    { intros p (e & He & Hp). rewrite El in He. apply elem_of_cons in He as [->|He]; [by right|]. left. by exists e. }
    assert (SO' : stack_ok (colored g1) stk' l' (g_blocks g1)).
    { destruct SO as [S1 S2 S3 S4 S5 S6 S7]. split; try done.
      - intros k' v' Hkv. by apply S3, Hin.
      - intros p (e & He & Hp). apply S4. exists e. split; [by apply Hin|done]. }
    pose proof (Inv_restack nothing (fun p => bit_addr p (k, v)) [] g1 st1 stk' l' (g_blocks g1) I1 SO'
      ltac:(intros p [Hg|Hg]; [left; by left|destruct (Hrest p Hg); [left; by right|by right]]) ltac:(done)) as I2.
    set (g2 := Ghost (g_color g1) l' (g_blocks g1) (pot stk' l')) in *.
    assert (Hphi : phi g2 = phi g1 - 3).
    { unfold g2. rewrite phi_restack, (iv_pot _ _ _ _ I1). unfold pot. rewrite El, zlen_cons. cbn [ms_stack stk']. lia. }
    pose proof (fo_phi _ _ F1). eapply ok_or_mono; [apply (mark_chunk_ok k v g2 (with_mk_stack st1 stk') bud1)|].
    + destruct (so_chunks _ _ _ _ SO k v) as [Hk Hv]; [rewrite El; by left|]. split; [done|]. split; [done|].
      intros p Hp. destruct (so_rest _ _ _ _ SO p) as (b & Cb & Pl & Hpb); [exists (k, v); split; [rewrite El; by left|done]|].
      destruct (Inv_blocks _ _ _ _ I1 b Cb) as [HB Hu]. exists b. split; [by apply (iv_reach _ _ _ _ I1)|done].
    + exact I2.
    + intros [st3 bud3] (g3 & I3 & F3). right. pose proof (fo_phi _ _ F3). exists g3. split; [done|].
      split; [|lia]. etrans; [|exact F3]. apply (follows_recolor g g1 g2); [done|done|lia].
  - cbn [ok_or]. left. apply (marked_follows g g1); [done|].
    by destruct (Inv_marked g1 st1 I1 Ec Eit).
Qed.

Lemma phi_nonneg pend g st : Inv pend [] g st -> 0 <= phi g.
Proof. intros I. pose proof (theta_nonneg _ _ _ _ I) as H. unfold theta, zlen in H. cbn in H. lia. Qed.

Lemma mark_ok n k : forall g st budget, Inv nothing [] g st -> 2 * phi g + 1 < Z.of_nat n ->
  phi g + 1 < Z.of_nat k ->
  ok_or caml_fatal_out_of_memory
    (while_loop k (fun '(st, budget) => (0 <? budget) && negb (marking_done st))
       (mark_turn malloc_ok heap_bsize gs ar native_code is_code n fuel) (st, budget))
    (fun '(st', _) => marked g st' \/ exists g', Inv nothing [] g' st' /\ follows g g' /\ (0 < budget -> phi g' < phi g)).
Proof.
  induction k as [|k IH]; intros g st budget I Hn Hk; pose proof (phi_nonneg _ _ _ I); [lia|].
  cbn [while_loop]. rewrite (iv_flag _ _ _ _ I), andb_true_r. destruct (Z.ltb_spec 0 budget) as [L|L].
  - eapply ok_or_bind; [by apply (mark_turn_ok n g st budget I)|]. intros [st1 b1] [M|(g1 & I1 & F1 & P1)].
    + destruct k as [|k]; [lia|]. cbn [while_loop]. rewrite (md_done _ _ M), andb_false_r. cbn [ok_or]. by left.
    + eapply ok_or_mono; [apply (IH g1 st1 b1 I1); lia|]. intros [st2 b2] [M|(g2 & I2 & F2 & _)].
      * left. by eapply marked_follows.
      * right. exists g2. pose proof (fo_phi _ _ F2). split; [done|]. split; [by etrans|lia].
  - cbn [ok_or]. right. exists g. split; [done|]. split; [reflexivity|lia].
Qed.

Lemma caml_empty_mark_stack_ok n g st : (marked g st \/ Inv nothing [] g st) -> 0 <= phi g ->
  2 * phi g + 2 < Z.of_nat n ->
  ok_or caml_fatal_out_of_memory (caml_empty_mark_stack malloc_ok heap_bsize gs ar native_code is_code n fuel st) (marked g).
Proof.
  intros HI Hp Hn. unfold caml_empty_mark_stack.
  assert (Hw : forall k g1 st1, (marked g st1 \/ (Inv nothing [] g1 st1 /\ follows g g1 /\ 0 <= phi g1 <= phi g /\ phi g1 + 1 < Z.of_nat k)) ->
    (0 < k)%nat ->
    ok_or caml_fatal_out_of_memory (while_loop k (fun st => negb (marking_done st))
      (fun st => rmap fst (mark malloc_ok heap_bsize gs ar native_code is_code n fuel st 1000)) st1) (marked g)).
  { induction k as [|k IH]; intros g1 st1 H Hk; [lia|]. cbn [while_loop].
    destruct H as [M|(I1 & F1 & P1 & P2)]; [by rewrite (md_done _ _ M)|]. rewrite (iv_flag _ _ _ _ I1). cbn [negb].
    unfold rmap. eapply ok_or_bind.
    { eapply ok_or_bind; [apply (mark_ok n n g1 st1 1000 I1); lia|]. intros [st2 b2] H2. cbn [fst ok_or]. exact H2. }
    cbv beta. intros st2 [M|(g2 & I2 & F2 & P3)].
    - apply (IH g1); [left; by eapply marked_follows|lia].
    - pose proof (phi_nonneg _ _ _ I2). specialize (P3 ltac:(lia)). apply (IH g2); [right|lia].
      split; [done|]. split; [by etrans|lia]. }
  eapply ok_or_bind; [apply (Hw n g st); [|lia]|].
  - destruct HI as [M|I]; [by left|right]. split; [done|]. split; [reflexivity|lia].
  - intros st1 [M1 M2 M3 M4 M5]. cbn [ok_or]. by split.
Qed.

(** ** The roots *)

(** a slot whose value is darkened *)
Definition ready_root (p : Z) : Prop := frozen p /\ is_Some (m0 !! p) /\ markable_value (word m0 p).
(** a local root: a null word is skipped *)
Definition ready_local (p : Z) : Prop := frozen p /\ is_Some (m0 !! p) /\ (word m0 p <> 0 -> markable_value (word m0 p)).
Definition done_local (g : ghost) (p : Z) : Prop := word m0 p <> 0 -> done_slot g p.

Lemma done_slot_follows g g' p : follows g g' -> done_slot g p -> done_slot g' p.
Proof. intros F H b Hb Hu. eapply follows_colored; [done|]. by apply H. Qed.

Lemma darken_roots_ok rs g st : Inv nothing [] g st -> Forall ready_root rs ->
  ok_or caml_fatal_out_of_memory (darken_roots malloc_ok heap_bsize gs ar native_code is_code fuel rs st)
    (all_done (Inv nothing []) follows done_slot g rs).
Proof.
  intros I Hs. unfold darken_roots. eapply ok_or_mono.
  - apply (for_loop_ok_or _ (fun i => all_done (Inv nothing []) follows done_slot g (take (Z.to_nat i) rs))).
    + exists g. split; [done|]. split; [reflexivity|constructor].
    + intros i s Hi (g1 & I1 & F1 & D1). destruct (rd_in_range rs i) as [p E]; [unfold zlen; lia|]. rewrite E. cbn [rbind].
      apply rd_Ok in E as [_ E]. rewrite Forall_forall in Hs. destruct (Hs p) as (Fp & Mp & Hv); [by eapply list_elem_of_lookup_2|].
      rewrite (load_frozen _ _ _ (iv_colors _ _ _ _ I1) (iv_mem _ _ _ _ I1) Fp Mp). cbn [rbind].
      eapply ok_or_mono; [apply (darken_ok fuel nothing [] g1 s _ p I1 Hv), fuel_left|].
      intros s2 (g2 & I2 & F2 & D2). exists g2. split; [done|]. split; [by etrans|].
      replace (Z.to_nat (i + 1)) with (S (Z.to_nat i)) by lia. rewrite (take_S_r _ _ _ E). apply Forall_app.
      split; [|by constructor]. eapply Forall_impl; [exact D1|]. intros p'. by apply done_slot_follows.
  - intros s. by rewrite Z.add_0_l, Nat2Z.id, firstn_all.
Qed.

Lemma darken_local_ok g st p : Inv nothing [] g st -> ready_local p ->
  ok_or caml_fatal_out_of_memory (local_root mk_mem (darken fuel) p st) (all_done (Inv nothing []) follows done_local g [p]).
Proof.
  intros I (Fp & Mp & Hv). unfold local_root.
  rewrite (load_frozen _ _ _ (iv_colors _ _ _ _ I) (iv_mem _ _ _ _ I) Fp Mp). cbn [rbind].
  destruct (Z.eqb_spec (word m0 p) 0) as [E0|N0]; cbn [negb].
  - exists g. split; [done|]. split; [reflexivity|]. constructor; [|constructor]. by intros Ne.
  - eapply ok_or_mono; [apply (darken_ok fuel nothing [] g st _ p I (Hv N0)), fuel_left|].
    intros s (g' & I' & F' & D'). exists g'. split; [done|]. split; [done|]. constructor; [|constructor]. intros _. exact D'.
Qed.

(** the addresses of the roots, and their values *)
Definition stack_root_slots (r : mark_roots) : list Z :=
  match stack_slots K m0 (mr_stack r) with Ok (slots, _) => slots | _ => [] end.
Definition other_roots (r : mark_roots) : list Z := mr_hook r ++ final_root_slots false r ++ mr_global r ++ mr_memprof r.

Definition root_value (r : mark_roots) (v : Z) : Prop := exists p, v = word m0 p /\
  ((p ∈ mr_local r ≫= roots_block_slots /\ v <> 0) \/
   (p ∈ stack_root_slots r /\ is_scannable false is_code v = true) \/ p ∈ other_roots r).

Record mark_roots_ok (r : mark_roots) : Prop := {
  mr_blocks : roots_blocks_ok (mr_local r);
  mr_chain : exists slots reads, stack_slots K m0 (mr_stack r) = Ok (slots, reads) /\ Forall frozen reads;
  mr_slots : Forall (fun p => frozen p /\ is_Some (m0 !! p))
    ((mr_local r ≫= roots_block_slots) ++ stack_root_slots r ++ other_roots r);
  mr_values : forall v, root_value r v -> good_value v
}.

Section Roots.
Context (r : mark_roots) (RO : mark_roots_ok r) (Hroots : forall v, root_value r v -> roots v).

Lemma root_value_markable v : root_value r v -> markable_value v.
Proof.
  intros Hv Mk. destruct (mr_values r RO v Hv Mk) as (b & Hpt). exists b. split; [done|]. intros Hu.
  by apply (reach_root v b); [apply Hroots| |].
Qed.

Lemma ready_slots_ok : Forall ready_local (mr_local r ≫= roots_block_slots) /\
  Forall ready_slot (stack_root_slots r) /\ Forall ready_root (other_roots r).
Proof.
  pose proof (mr_slots r RO) as F. rewrite !Forall_app in F. destruct F as (F1 & F2 & F3).
  rewrite Forall_forall in F1. rewrite Forall_forall in F2. rewrite Forall_forall in F3.
  split; [|split]; apply Forall_forall; intros p Hp.
  - destruct (F1 p Hp) as [? ?]. split; [done|]. split; [done|]. intros. apply root_value_markable.
    exists p. split; [done|]. by left.
  - destruct (F2 p Hp) as [? ?]. split; [done|]. split; [done|]. intros. apply root_value_markable.
    exists p. split; [done|]. right. by left.
  - destruct (F3 p Hp) as [? ?]. split; [done|]. split; [done|]. apply root_value_markable.
    exists p. split; [done|]. right. by right.
Qed.

(** the slots that have been done stay so *)
Lemma local_roots_ok g st : Inv nothing [] g st ->
  ok_or caml_fatal_out_of_memory (caml_do_local_roots mk_mem (darken fuel) false is_code fuel (mr_local r) (mr_stack r) st)
    (fun st' => exists g', Inv nothing [] g' st' /\ follows g g' /\
       Forall (done_local g') (mr_local r ≫= roots_block_slots) /\ Forall (done_scanned g') (stack_root_slots r)).
Proof.
  intros I. destruct ready_slots_ok as (R1 & R2 & _). unfold caml_do_local_roots.
  assert (Hdl : forall g g' p, follows g g' -> done_local g p -> done_local g' p).
  { intros g1 g2 p F D0 Ne. eapply done_slot_follows; [exact F|]. by apply D0. }
  eapply ok_or_bind.
  { apply (local_roots_blocks_ok mk_mem (darken fuel) caml_fatal_out_of_memory (Inv nothing []) follows (fun _ => ready_local) done_local
      ltac:(done) Hdl darken_local_ok); [exact I|apply RO|exact R1]. }
  intros s1 (g1 & I1 & F1 & D1). destruct (mr_chain r RO) as (slots & reads & Es & Fr).
  unfold stack_root_slots in *. rewrite Es in *. pose proof (fuel_left g1).
  eapply ok_or_mono; [apply (caml_scan_stack_ok mk_mem (darken fuel) false is_code caml_fatal_out_of_memory m0
    (fun g st => Inv nothing [] g st /\ (K + left g + 1 <= fuel)%nat) follows
    (fun _ => ready_slot) done_scanned frozen ltac:(done) done_scanned_follows
    ltac:(intros g2 s2 a [I2 _]; apply (recolored_frozen _ _ _ (iv_colors _ _ _ _ I2) (iv_mem _ _ _ _ I2)))
    (darken_slot_ok nothing [] fuel (darken_ok fuel)) K fuel (mr_stack r) slots reads g1 s1 Es); [lia|done|done|done]|].
  intros s2 (g2 & [I2 _] & F2 & D2). exists g2. split; [done|]. split; [by etrans|]. split; [|done].
  eapply Forall_impl; [exact D1|]. intros p. by apply Hdl.
Qed.

Lemma start_marking_ok g st : Inv nothing [] g st ->
  ok_or caml_fatal_out_of_memory (start_marking malloc_ok heap_bsize gs ar native_code is_code fuel r st) (fun st' => exists g',
    (marked g' st' \/ Inv nothing [] g' st') /\ follows g g' /\ 0 <= phi g' /\
    forall v b, root_value r v -> points_to v b -> unmarked0 b -> colored g' b).
Proof.
  intros I. destruct ready_slots_ok as (_ & _ & R3). unfold other_roots in R3. rewrite !Forall_app in R3.
  destruct R3 as (R3 & R4 & R5 & R6). unfold start_marking, caml_do_roots, caml_final_do_roots. fold darken.
  eapply ok_or_bind.
  { eapply ok_or_bind; [exact (local_roots_ok g st I)|]. intros s1 (g1 & I1 & F1 & D1 & D2).
    eapply ok_or_bind; [exact (darken_roots_ok (mr_hook r) g1 s1 I1 R3)|]. intros s2 (g2 & I2 & F2 & D3).
    eapply ok_or_mono; [exact (darken_roots_ok (final_root_slots false r) g2 s2 I2 R4)|]. intros s3 (g3 & I3 & F3 & D4).
    exact (ex_intro (fun g3 => exists g1 g2, Inv nothing [] g3 s3 /\ (follows g g1 /\ follows g1 g2 /\ follows g2 g3) /\
      (Forall (done_local g1) (mr_local r ≫= roots_block_slots) /\ Forall (done_scanned g1) (stack_root_slots r)) /\
      Forall (done_slot g2) (mr_hook r) /\ Forall (done_slot g3) (final_root_slots false r)) g3
      (ex_intro _ g1 (ex_intro _ g2 (conj I3 (conj (conj F1 (conj F2 F3)) (conj (conj D1 D2) (conj D3 D4))))))). }
  intros s3 (g3 & g1 & g2 & I3 & (F1 & F2 & F3) & (D1 & D2) & D3 & D4).
  eapply ok_or_bind; [exact (darken_roots_ok (mr_global r) g3 s3 I3 R5)|]. intros s4 (g4 & I4 & F4 & D5).
  eapply ok_or_bind; [exact (darken_roots_ok (mr_memprof r) g4 s4 I4 R6)|]. intros s5 (g5 & I5 & F5 & D6).
  assert (Q : follows g g5 /\ forall v b, root_value r v -> points_to v b -> unmarked0 b -> colored g5 b).
  { split; [repeat (etrans; [eassumption|]); reflexivity|]. intros v b (p & -> & Hp) Hpt Hu.
    rewrite Forall_forall in D1. rewrite Forall_forall in D2. rewrite Forall_forall in D3.
    rewrite Forall_forall in D4. rewrite Forall_forall in D5. rewrite Forall_forall in D6.
    unfold other_roots in Hp. rewrite !elem_of_app in Hp.
    destruct Hp as [[Hp Hn]|[[Hp Hs]|[Hp|[Hp|[Hp|Hp]]]]];
      [specialize (D1 p Hp Hn b Hpt Hu)|specialize (D2 p Hp Hs b Hpt Hu)|specialize (D3 p Hp b Hpt Hu)
      |specialize (D4 p Hp b Hpt Hu)|specialize (D5 p Hp b Hpt Hu)|specialize (D6 p Hp b Hpt Hu); done];
      eauto using follows_colored. }
  destruct Q as [Fg Hc]. pose proof (phi_nonneg _ _ _ I5).
  destruct (Z.eqb_spec (ms_count (mk_stack s5)) 0) as [E0|N0]; cbn [andb ok_or]; [|exists g5; by split; [right|]].
  destruct (caml_addrmap_iter_ok _ _) eqn:It; cbn [negb ok_or]; [exists g5; by split; [right|]|].
  exists g5. split; [left|done]. by apply Inv_marked.
Qed.
End Roots.
End Loop.

(** ** A whole cycle *)

#[local] Abbreviation nothing := (fun _ : Z => False).

(** the state before a cycle: nothing is left of the previous one *)
Record cycle_start (st : mark_state) : Prop := {
  cs_mem : mk_mem st = m0;
  cs_flag : marking_done st = false;
  cs_stack : ms_stack (mk_stack st) = [];
  cs_iter : caml_addrmap_iter_ok (compressed_stack (mk_stack st)) (compressed_stack_iter (mk_stack st)) = false;
  cs_size : ms_size (mk_stack st) = S0 /\ 2 <= S0 /\ 16 * S0 <= 2 ^ 16 + heap_bsize;
  cs_count : num_domains_to_mark st = nd
}.

(** the reachable blocks have been marked, and nothing else has changed *)
Definition memory_marked (m : mem) : Prop := forall a,
  (reach (a + 8) -> m !! a = Some (s64 (With_status_hd (hd0 (a + 8)) (MARKED gs)))) /\
  (~ reach (a + 8) -> m !! a = m0 !! a).

Record marking_ended (st : mark_state) : Prop := {
  me_done : marking_done st = true;
  me_stack : ms_stack (mk_stack st) = [];
  me_compressed : caml_addrmap_iter_ok (compressed_stack (mk_stack st)) (compressed_stack_iter (mk_stack st)) = false;
  me_count : num_domains_to_mark st = u64 (nd - 1);
  me_memory : memory_marked (mk_mem st)
}.

Lemma Inv_start st : cycle_start st -> Inv nothing [] (Ghost ∅ [] [] 0) st.
Proof.
  intros [C1 C2 C3 C4 (C5 & _ & C5') C6]. split; cbn [g_color g_rest g_blocks g_pot]; try done.
  - intros a. by rewrite lookup_empty, C1.
  - split; rewrite ?C3; try done.
    + left. split; [by apply Z.ltb_ge|done].
    + constructor.
    + intros k v H. by apply elem_of_nil in H.
    + intros p (e & He & _). by apply elem_of_nil in He.
    + constructor.
    + unfold ms_count. rewrite C3. change (zlen []) with 0. lia.
  - unfold pot. by rewrite C3.
  - intros b [col E]. cbn [g_color] in E. by rewrite lookup_empty in E.
  - intros v H. by apply elem_of_nil in H.
Qed.

(** when the marking has ended, what is reachable from the roots has been marked *)
Lemma marked_memory g st : marked g st -> (forall b col, g_color g !! b = Some col -> col = MARKED gs) ->
  (forall v b, roots v -> points_to v b -> unmarked0 b -> colored g b) -> memory_marked (mk_mem st).
Proof.
  intros [(g' & C & Hm & F & Hr & Hcl) _ _ _ _] Hc Hroots a.
  assert (Hcol : forall b col, g_color g' !! b = Some col -> col = MARKED gs).
  { intros b col [E|E]%(fo_new _ _ F); [by apply (Hc b)|done]. }
  assert (Hall : forall b, reach b -> g_color g' !! b = Some (MARKED gs)).
  { induction 1 as [v b Hv Hpt Hu|a' p b Ha IH Hp Hpt Hu].
    - destruct (follows_colored _ _ b F (Hroots v b Hv Hpt Hu)) as [col E]. by rewrite E, (Hcol b col E).
    - destruct (Hcl a' p b IH Hp Hpt Hu) as [col E]. by rewrite E, (Hcol b col E). }
  split; intros Ha; rewrite (Hm a).
  - by rewrite (Hall _ Ha).
  - destruct (g_color g' !! (a + 8)) as [col|] eqn:E; [|done]. destruct Ha. apply Hr. by exists col.
Qed.

Lemma caml_finish_marking_ok n fuel r st : mark_roots_ok r -> (forall v, root_value r v <-> roots v) ->
  cycle_start st -> (K + size unmarked_blocks + 1 <= fuel)%nat ->
  2 * (weight * Z.of_nat (size unmarked_blocks)) + 2 < Z.of_nat n ->
  ok_or caml_fatal_out_of_memory (caml_finish_marking malloc_ok heap_bsize gs ar native_code is_code n fuel false r st) marking_ended.
Proof.
  intros RO Hroots Cs Hf Hn. unfold caml_finish_marking. rewrite (cs_flag _ Cs). cbn [negb].
  pose proof (Inv_start st Cs) as I. set (g0 := Ghost ∅ [] [] 0) in *.
  assert (Hphi : phi g0 = weight * Z.of_nat (size unmarked_blocks)).
  { unfold phi, left. cbn [g_color g_pot g0]. rewrite dom_empty_L, difference_empty_L. lia. }
  eapply ok_or_bind; [apply (start_marking_ok fuel Hf r RO ltac:(apply Hroots) g0 st I)|].
  intros s1 (g1 & M & F & Hp & Hc). pose proof (fo_phi _ _ F).
  eapply ok_or_bind; [apply (caml_empty_mark_stack_ok fuel Hf n g1 s1 M); lia|].
  intros s2 M2. pose proof M2 as [_ E1 E2 E3 E4]. unfold caml_shrink_mark_stack, ms_count. rewrite E1.
  assert (Hm : memory_marked (mk_mem s2)).
  { apply (marked_memory g1); [done| |intros v b Hv; by apply Hc, Hroots]. intros b col E.
    destruct (fo_new _ _ F b col E) as [E'|]; [|done]. unfold g0 in E'. cbn [g_color] in E'.
    by rewrite lookup_empty in E'. }
  cbn [zlen length Z.of_nat Z.leb Z.compare]. destruct (malloc_ok _); cbn [rbind ok_or]; by split.
Qed.
End Marking.

(** C6: a marking cycle, from the roots to the end ([start_marking] and
    [caml_finish_marking]), on a heap of one domain: it ends (with the fuel given, that only
    depends on the number and the size of the unmarked blocks), unless memory is missing for
    the compressed stack; nothing is left in the mark stack, which may have been resized or
    compressed, nor in the compressed stack, and the domain is counted as done; every unmarked
    block that is reachable from the roots through unmarked blocks has been marked, in its
    header and nowhere else, and every other word of the memory is unchanged.

    The allocator may refuse any request, with one condition ([stack_room]): the requests that
    grow the mark stack (of at most one eighth of the heap) are granted, or fewer unmarked
    blocks have more than 64 words than the mark stack has entries at the start.  If not, a
    stack full of such blocks, which compressing does not shorten, could be overrun
    ([mark_stack_push_range_no_memory]). It grants no more than 2^63 - 1 bytes, as C says
    of every object. *)
Theorem marking_correct malloc_ok heap_bsize gs ar native_code is_code m0 B K N S0 nd n fuel r st :
  major_heap_ok heap_bsize gs ar native_code is_code m0 B K N ->
  mark_roots_ok ar is_code m0 B K r ->
  cycle_start heap_bsize m0 S0 nd st ->
  (forall n, malloc_ok n = true -> n < 2 ^ 63) ->
  stack_room malloc_ok heap_bsize gs m0 B S0 ->
  (K + size (unmarked_blocks gs m0 B) + 1 <= fuel)%nat ->
  2 * (weight N * Z.of_nat (size (unmarked_blocks gs m0 B))) + 2 < Z.of_nat n ->
  ok_or caml_fatal_out_of_memory
    (caml_finish_marking malloc_ok heap_bsize gs ar native_code is_code n fuel false r st)
    (marking_ended gs ar native_code is_code m0 B K (root_value is_code m0 K r) nd).
Proof.
  intros W RO Cs H1 H2 Hf Hn. pose proof (cs_size _ _ _ _ _ Cs) as (_ & HS & _).
  by apply (caml_finish_marking_ok _ _ _ _ _ _ _ _ _ _ W H1 S0 HS H2 (root_value is_code m0 K r) nd n fuel r st RO).
Qed.

(** ** An example: a cycle of two blocks, a string in it, and a block that is garbage *)

Definition example_heap : mem :=
  list_to_map [(1016, header_of 0 0 3 0); (1024, 2048); (1032, 7); (1040, 4096);
    (2040, header_of 0 0 1 0); (2048, 1024); (3064, header_of 0 0 1 0); (3072, 1024);
    (4088, header_of 252 0 1 0); (4096, 1234); (5000, 2048); (5008, 0)].
Definition example_heap_blocks : gset Z := {[1024; 2048; 3072; 4096]}.
Definition example_states : global_heap_state := HeapState 256 0 512.
Definition example_young : minor_area := MinorArea 100000 200000.
Definition example_roots : mark_roots := MarkRoots [RootsBlock 1 1 [5008]] 0 (FinalTable 6000 0 0) (FinalTable 7000 0 0) [] [] [5000] [].
(** the mark stack cannot grow *)
Definition example_malloc (n : Z) : bool := (32 <? n) && (n <? 2 ^ 40).
Definition example_start : mark_state :=
  MarkState example_heap (MarkStack [] 2 caml_addrmap_init 0) 0 false 1 0 0.

Lemma example_heap_block b : b ∈ example_heap_blocks -> b = 1024 \/ b = 2048 \/ b = 3072 \/ b = 4096.
Proof. unfold example_heap_blocks. set_solver. Qed.

Lemma example_points b v : v = b -> Is_markable example_young v = true ->
  b = 1024 \/ b = 2048 \/ b = 3072 \/ b = 4096 ->
  exists b, points_to example_young example_heap example_heap_blocks v b.
Proof.
  intros -> Mk Hb. exists b. split; [done|]. split; [|by left]. unfold example_heap_blocks. set_solver.
Qed.

Lemma zsum_subset {A} (f : A -> Z) l k : (forall x, 0 <= f x) -> l ⊆+ k -> zsum f l <= zsum f k.
Proof.
  intros Hf. unfold zsum. induction 1; cbn [foldr]; try lia. specialize (Hf x). lia.
Qed.

Lemma example_major_heap_ok :
  major_heap_ok 1000 example_states example_young true (fun _ => false) example_heap example_heap_blocks 0 3.
Proof.
  split.
  - done.
  - by exists 1.
  - by exists 0.
  - done.
  - intros b [-> | [-> | [-> | ->]]]%example_heap_block; vm_compute; split_and!; done.
  - intros b i [-> | [-> | [-> | ->]]]%example_heap_block Hi.
    all: match type of Hi with _ <= _ < ?n => let x := eval vm_compute in n in change n with x in Hi end.
    + assert (i = -1 \/ i = 0 \/ i = 1 \/ i = 2) as [-> | [-> | [-> | ->]]] by lia; by eexists.
    + assert (i = -1 \/ i = 0) as [-> | ->] by lia; by eexists.
    + assert (i = -1 \/ i = 0) as [-> | ->] by lia; by eexists.
    + assert (i = -1 \/ i = 0) as [-> | ->] by lia; by eexists.
  - intros b c [-> | [-> | [-> | ->]]]%example_heap_block [-> | [-> | [-> | ->]]]%example_heap_block Ne; try done.
    all: vm_compute; (by left) || (by right).
  - intros b [-> | [-> | [-> | ->]]]%example_heap_block; vm_compute; done.
  - intros b [-> | [-> | [-> | ->]]]%example_heap_block _ _; vm_compute; split_and!; done.
  - intros b [-> | [-> | [-> | ->]]]%example_heap_block _ T; by vm_compute in T.
  - intros b p [-> | [-> | [-> | ->]]]%example_heap_block _ Hp.
    all: match type of Hp with _ ∈ ?l => let x := eval vm_compute in l in change l with x in Hp end.
    all: rewrite ?elem_of_cons, elem_of_nil in Hp; destruct_or?; subst; try done.
    all: intros Mk; try by vm_compute in Mk.
    all: eapply example_points; [by vm_compute|done|tauto].
  - intros bs Nd Hb. split; [|done].
    transitivity (zsum (fun b => 8 * (wosize0 example_heap b + 1)) (elements example_heap_blocks)).
    + apply zsum_subset; [intros x; pose proof (wosize0_nonneg example_heap x); lia|].
      apply NoDup_submseteq; [done|]. intros x Hx. apply elem_of_elements. by apply Hb.
    + by vm_compute.
Qed.

Lemma marking_correct_witness :
  (exists st, caml_finish_marking example_malloc 1000 example_states example_young true (fun _ => false)
      200 5 false example_roots example_start = Ok st /\
    map (fun a => mk_mem st !! a) [1016; 2040; 3064; 4088] =
      [Some (header_of 0 1 3 0); Some (header_of 0 1 1 0); Some (header_of 0 0 1 0); Some (header_of 252 1 1 0)]) /\
  ok_or caml_fatal_out_of_memory
    (caml_finish_marking example_malloc 1000 example_states example_young true (fun _ => false)
      200 5 false example_roots example_start)
    (marking_ended example_states example_young true (fun _ => false) example_heap example_heap_blocks 0
      (root_value (fun _ => false) example_heap 0 example_roots) 1).
Proof.
  split; [eexists; split; [by vm_compute|by vm_compute]|].
  apply (marking_correct example_malloc 1000 example_states example_young true (fun _ => false) example_heap
    example_heap_blocks 0 3 2 1 200 5 example_roots example_start).
  - exact example_major_heap_ok.
  - split.
    + by repeat constructor.
    + exists [], []. done.
    + repeat constructor; [intros H%example_heap_block; lia|by eexists|intros H%example_heap_block; lia|by eexists].
    + intros v (p & -> & [[Hp Hn]|[[Hp _]|Hp]]).
      * apply list_elem_of_singleton in Hp as ->. by vm_compute in Hn.
      * by apply elem_of_nil in Hp.
      * apply list_elem_of_singleton in Hp as ->. intros Mk. eapply example_points; [by vm_compute|done|tauto].
  - by split.
  - intros n [_ Hn%Z.ltb_lt]%andb_true_iff. lia.
  - right. by vm_compute.
  - apply Nat.leb_le. by vm_compute.
  - by vm_compute.
Defined.
