(* ===== verification/Finalise.v ===== *)
(** * Finalisation functions ([ocaml/runtime/finalise.c])

    A domain keeps two tables of finalisers: [first], whose functions are called with the
    value the first time it is found dead, and [last], whose functions are called when the
    value is dead for ever.  In each, the entries [0..old) have their value in the major
    heap and the entries [old..young) may have it in the minor heap.  The finalisers of the
    values found dead move to the list of chunks [todo], from which they are called. *)

From S2P Require Import Prelude.
From S2P Require Import Mlvalues.
From S2P Require Import Str.
From S2P Require Import Memory.
From S2P Require Import Minorgc.
From S2P Require Import Majorgc.
#[local] Open Scope Z_scope.

(** [struct final] *)
Record final := Final { f_fun : Z; f_val : Z; f_offset : Z }.

(** [struct finalisable]: the entries that were never written are [None] *)
Record finalisable := Finalisable {
  table : option (list (option final));
  old : Z;
  young : Z;
  fl_size : Z
}.

(** [struct final_todo]: the array [item] has one entry more than the size that the chunk
    is allocated with *)
Record final_todo := FinalTodo { todo_size : Z; item : list (option final) }.

(** [struct caml_final_info], with the chunks from [todo_head] to [todo_tail], and whether
    an action is pending *)
Record final_info := FinalInfo {
  first : finalisable;
  updated_first : bool;
  last_final : finalisable;
  updated_last : bool;
  todo : list final_todo;
  running_finalisation_function : bool;
  action_pending : bool
}.

Definition no_finalisers : finalisable := Finalisable None 0 0 0.

(** [caml_alloc_final_info] *)
Definition caml_alloc_final_info : final_info :=
  FinalInfo no_finalisers false no_finalisers false [] false false.

Definition with_first (fi : final_info) (f : finalisable) : final_info :=
  FinalInfo f (updated_first fi) (last_final fi) (updated_last fi) (todo fi)
    (running_finalisation_function fi) (action_pending fi).
Definition with_last (fi : final_info) (f : finalisable) : final_info :=
  FinalInfo (first fi) (updated_first fi) f (updated_last fi) (todo fi)
    (running_finalisation_function fi) (action_pending fi).
Definition with_todo (fi : final_info) (t : list final_todo) (pending : bool) : final_info :=
  FinalInfo (first fi) (updated_first fi) (last_final fi) (updated_last fi) t
    (running_finalisation_function fi) pending.
Definition with_running (fi : final_info) (b : bool) : final_info :=
  FinalInfo (first fi) (updated_first fi) (last_final fi) (updated_last fi) (todo fi)
    b (action_pending fi).
Definition with_updated (fi : final_info) (b1 b2 : bool) : final_info :=
  FinalInfo (first fi) b1 (last_final fi) b2 (todo fi)
    (running_finalisation_function fi) (action_pending fi).

Definition sizeof_final : Z := 24.
Definition sizeof_final_todo : Z := 40.

(** [final->table[i]], and its assignment *)
Definition table_entry (f : finalisable) (i : Z) : result final :=
  let* t := of_option (table f) in let* e := rd t i in of_option e.
Definition set_table_entry (f : finalisable) (i : Z) (e : final) : result finalisable :=
  let* t := of_option (table f) in let* t := wr t i (Some e) in
  Ok (Finalisable (Some t) (old f) (young f) (fl_size f)).

(** [f->todo_tail->item[k] = e] and [f->todo_tail->size = k] *)
Definition set_tail (todo : list final_todo) (g : final_todo -> result final_todo)
    : result (list final_todo) :=
  let* t := of_option (last todo) in let* t := g t in
  Ok (take (length todo - 1) todo ++ [t]).
Definition set_tail_item (todo : list final_todo) (k : Z) (e : final) : result (list final_todo) :=
  set_tail todo (fun t => let* it := wr (item t) k (Some e) in Ok (FinalTodo (todo_size t) it)).
Definition set_tail_size (todo : list final_todo) (size : Z) : result (list final_todo) :=
  set_tail todo (fun t => Ok (FinalTodo size (item t))).
Definition tail_item (todo : list final_todo) (k : Z) : result final :=
  let* t := of_option (last todo) in let* e := rd (item t) k in of_option e.

(** the function will be called with unit *)
Definition without_value (e : final) : final := Final (f_fun e) Val_unit 0.

Section Finalise.
Context (malloc_ok : Z -> bool) (heap_bsize : Z).
Context (gs : global_heap_state) (ar : minor_area) (native_code : bool) (is_code : Z -> bool).
Context (flat_float_array : bool).

(** [size] is an [int] *)
Definition alloc_todo (todo : list final_todo) (size : Z) : result (list final_todo) :=
  check malloc_ok (u64 (sizeof_final_todo + size * sizeof_final))
    else Raise (Fatal_error "out of memory");
  Ok (todo ++ [FinalTodo size (replicate (Z.to_nat (size + 1)) None)]).

(** ** Major collections *)

(** the table and the chunks, and the indices [j] and [k] *)
Record update := Update { up_final : finalisable; up_todo : list final_todo; up_j : Z; up_k : Z }.

Definition count_unmarked (m : mem) (f : finalisable) : result Z :=
  for_loop (Z.to_nat (old f)) 0 (fun i n =>
    let* e := table_entry f i in
    let* u := is_unmarked gs m (f_val e) in
    Ok (if u then u64 (n + 1) else n)) 0.

(** [final->table[j++] = final->table[i]] *)
Definition keep_entry (i : Z) (u : update) : result update :=
  let* e := table_entry (up_final u) i in
  let* f := set_table_entry (up_final u) (up_j u) e in
  Ok (Update f (up_todo u) (u64 (up_j u + 1)) (up_k u)).

(** [f->todo_tail->item[k] = final->table[i]], with unit for the value or not *)
Definition move_entry (darken_value : bool) (i : Z) (u : update) : result update :=
  let* e := table_entry (up_final u) i in
  let* todo := set_tail_item (up_todo u) (up_k u) (if darken_value then e else without_value e) in
  Ok (Update (up_final u) todo (up_j u) (u64 (up_k u + 1))).

Definition update_entry (m : mem) (darken_value : bool) (i : Z) (u : update) : result update :=
  let* e := table_entry (up_final u) i in
  let* d := is_unmarked gs m (f_val e) in
  if d then move_entry darken_value i u else keep_entry i u.

Definition set_bounds (f : finalisable) (o y : Z) : finalisable := Finalisable (table f) o y (fl_size f).

(** [caml_darken (d, f->todo_tail->item[i].val, NULL)] for the first [k] items *)
Definition darken_items (fuel : nat) (todo : list final_todo) (k : Z) (st : mark_state)
    : result mark_state :=
  for_loop (Z.to_nat k) 0 (fun i st =>
    let* e := tail_item todo i in
    caml_darken malloc_ok heap_bsize gs ar native_code is_code fuel st (f_val e) 0) st.

(** the table, the chunks, whether an action is pending, the state of the marking *)
Definition generic_final_update (fuel : nat) (darken_value : bool) (f : finalisable)
    (todo : list final_todo) (pending : bool) (st : mark_state)
    : result (finalisable * list final_todo * bool * mark_state) :=
  let* todo_count := count_unmarked (mk_mem st) f in
  if 0 <? todo_count then
    let* todo := alloc_todo todo (s32 todo_count) in
    let* u := for_loop (Z.to_nat (old f)) 0 (update_entry (mk_mem st) darken_value) (Update f todo 0 0) in
    let o := up_j u in
    let* u := for_loop (Z.to_nat (young f - old f)) (old f) keep_entry u in
    let f := set_bounds (up_final u) o (up_j u) in
    let* todo := set_tail_size (up_todo u) (s32 (up_k u)) in
    let* st := (if darken_value then darken_items fuel todo (up_k u) st else Ok st) in
    Ok (f, todo, true, st)
  else Ok (f, todo, pending, st).

(** whether there was something to do *)
Definition caml_final_update_first (fuel : nat) (fi : final_info) (st : mark_state)
    : result (bool * final_info * mark_state) :=
  if negb (updated_first fi) then
    let* (f, todo, pending, st) :=
      generic_final_update fuel true (first fi) (todo fi) (action_pending fi) st in
    Ok (true, with_updated (with_todo (with_first fi f) todo pending) true (updated_last fi), st)
  else Ok (false, fi, st).

Definition caml_final_update_last (fuel : nat) (fi : final_info) (st : mark_state)
    : result (bool * final_info * mark_state) :=
  if negb (updated_last fi) then
    let* (f, todo, pending, st) :=
      generic_final_update fuel false (last_final fi) (todo fi) (action_pending fi) st in
    Ok (true, with_updated (with_todo (with_last fi f) todo pending) (updated_first fi) true, st)
  else Ok (false, fi, st).

(** ** Minor collections *)

Definition count_dead_young (m : mem) (f : finalisable) : result Z :=
  for_loop (Z.to_nat (young f - old f)) (old f) (fun i n =>
    let* e := table_entry f i in
    if Is_young ar (f_val e) then
      let* hd := get_header_val m (f_val e) in
      Ok (if negb (hd =? 0) then u64 (n + 1) else n)
    else Ok n) 0.

(** the test reads the entry [j] for the address and the entry [i] for the header *)
Definition minor_update_entry (m : mem) (i : Z) (u : update) : result update :=
  let* ej := table_entry (up_final u) (up_j u) in
  let* dead :=
    (if Is_young ar (f_val ej) then
       let* e := table_entry (up_final u) i in
       rmap (fun hd => negb (hd =? 0)) (get_header_val m (f_val e))
     else Ok false) in
  if (dead : bool) then move_entry false i u else keep_entry i u.

(** the address of the copy of a young value *)
Definition update_young_value (m : mem) (i : Z) (f : finalisable) : result finalisable :=
  let* e := table_entry f i in
  if Is_young ar (f_val e) then
    let* v := Field m (f_val e) 0 in set_table_entry f i (Final (f_fun e) v (f_offset e))
  else Ok f.

Definition generic_final_minor_update (f : finalisable) (todo : list final_todo) (pending : bool)
    (m : mem) : result (finalisable * list final_todo * bool) :=
  let* todo_count := count_dead_young m f in
  let* (f, todo, pending) :=
    (if 0 <? todo_count then
       let* todo := alloc_todo todo (s32 todo_count) in
       let* u := for_loop (Z.to_nat (young f - old f)) (old f) (minor_update_entry m)
                   (Update f todo (old f) 0) in
       let* todo := set_tail_size (up_todo u) (s32 todo_count) in
       Ok (set_bounds (up_final u) (old f) (up_j u), todo, true)
     else Ok (f, todo, pending)) in
  let* f := for_loop (Z.to_nat (young f - old f)) (old f) (update_young_value m) f in
  Ok (f, todo, pending).

Definition caml_final_update_last_minor (fi : final_info) (m : mem) : result final_info :=
  let* (f, todo, pending) :=
    generic_final_minor_update (last_final fi) (todo fi) (action_pending fi) m in
  Ok (with_todo (with_last fi f) todo pending).

Definition caml_final_empty_young (fi : final_info) : final_info :=
  with_last (with_first fi (set_bounds (first fi) (young (first fi)) (young (first fi))))
    (set_bounds (last_final fi) (young (last_final fi)) (young (last_final fi))).

(** ** Registration *)

(** [caml_stat_resize] of the table, or [caml_stat_alloc] *)
Definition resize_table (f : finalisable) (new_size : Z) : result finalisable :=
  check malloc_ok (u64 (new_size * sizeof_final)) else Raise caml_fatal_out_of_memory;
  let t := match table f with Some t => t | None => [] end in
  let n := Z.to_nat new_size in
  Ok (Finalisable (Some (take n t ++ replicate (n - length t) None)) (old f) (young f) new_size).

Definition generic_final_register (f : finalisable) (m : mem) (fn v : Z) : result finalisable :=
  let* invalid :=
    (if negb (Is_block v) then Ok true else
     let* tag := Tag_val m v in
     Ok ((tag =? Lazy_tag) || (flat_float_array && (tag =? Double_tag)) || (tag =? Forcing_tag) ||
         (tag =? Forward_tag))) in
  if (invalid : bool) then Raise (Invalid_argument "Gc.finalise") else
  let* f :=
    (if fl_size f <=? young f then
       match table f with
       | None => resize_table f 30
       | Some _ => resize_table f (u64 (fl_size f * 2))
       end
     else Ok f) in
  let* tag := Tag_val m v in
  let* e :=
    (if tag =? Infix_tag then
       let* ofs := Infix_offset_val m v in Ok (Final fn (v - ofs) (s32 ofs))
     else Ok (Final fn v 0)) in
  let* f := set_table_entry f (young f) e in
  Ok (set_bounds f (old f) (u64 (young f + 1))).

Definition caml_final_register (fi : final_info) (m : mem) (fn v : Z) : result final_info :=
  rmap (with_first fi) (generic_final_register (first fi) m fn v).
Definition caml_final_register_called_without_value (fi : final_info) (m : mem) (fn v : Z)
    : result final_info :=
  rmap (with_last fi) (generic_final_register (last_final fi) m fn v).

(** [memmove] and [memcpy] of entries of the tables *)
Definition copy_entries (t : list (option final)) (dst : Z) (src : list (option final)) (n : Z)
    : result (list (option final)) :=
  check n <=? zlen src else Undef;
  memcpy t dst (take (Z.to_nat n) src).

Definition caml_final_merge_finalisable (source target : finalisable) : result finalisable :=
  let n := u64 (young target + young source) in
  let* target := (if fl_size target <=? n then resize_table target (u64 (2 * n)) else Ok target) in
  let* t := of_option (table target) in
  let* s := of_option (table source) in
  let* t := copy_entries t (young source) t (young target) in
  let* t := copy_entries t 0 s (young source) in
  Ok (Finalisable (Some t) (u64 (old target + young source)) (u64 (young target + young source))
        (fl_size target)).

(** the finalisers of a domain that has ended are given to another ([caml_adopt_orphaned_work]) *)
Definition adopt_finalisers (f myf : final_info) : result final_info :=
  let myf := with_todo myf (todo myf ++ todo f) (action_pending myf) in
  let* myf :=
    (if 0 <? young (first f) then
       rmap (with_first myf) (caml_final_merge_finalisable (first f) (first myf)) else Ok myf) in
  if 0 <? young (last_final f) then
    rmap (with_last myf) (caml_final_merge_finalisable (last_final f) (last_final myf)) else Ok myf.

Fixpoint adopt_all (orphans : list final_info) (myf : final_info) : result final_info :=
  match orphans with
  | [] => Ok myf
  | f :: orphans => let* myf := adopt_finalisers f myf in adopt_all orphans myf
  end.
End Finalise.

(** ** Calls *)

(** the chunks that are empty are freed *)
Fixpoint skip_empty (todo : list final_todo) : list final_todo :=
  match todo with
  | [] => []
  | t :: todo' => if todo_size t =? 0 then skip_empty todo' else todo
  end.

(** the next function to call, and what is left *)
Definition next_call (todo : list final_todo) : result (option (final * list final_todo)) :=
  match skip_empty todo with
  | [] => Ok None
  | t :: todo =>
      let size := s32 (todo_size t - 1) in
      let* e := rd (item t) size in let* e := of_option e in
      Ok (Some (e, FinalTodo size (item t) :: todo))
  end.

Definition Is_exception_result (v : Z) : bool := Z.land v 3 =? 2.

Section Calls.
(** the state of the program, which has the finalisers of the domain, and the calls of
    OCaml functions *)
Context {A : Type} (info_of : A -> final_info) (put_info : final_info -> A -> A).
Context (caml_callback_exn : Z -> Z -> A -> result (Z * A)).

Definition update_info (g : final_info -> final_info) (a : A) : A := put_info (g (info_of a)) a.

Fixpoint calls_loop (fuel : nat) (a : A) : result (Z * A) :=
  match fuel with
  | O => NoFuel
  | S fuel =>
      let* c := next_call (todo (info_of a)) in
      match c with
      | None => Ok (Val_unit, update_info (fun fi => with_todo fi [] (action_pending fi)) a)
      | Some (f, todo) =>
          let a := update_info (fun fi => with_running (with_todo fi todo (action_pending fi)) true) a in
          let* (res, a) := caml_callback_exn (f_fun f) (s64 (f_val f + f_offset f)) a in
          let a := update_info (fun fi => with_running fi false) a in
          if Is_exception_result res then Ok (res, a) else calls_loop fuel a
      end
  end.

Definition caml_final_do_calls_exn (fuel : nat) (a : A) : result (Z * A) :=
  if running_finalisation_function (info_of a) then Ok (Val_unit, a) else
  match todo (info_of a) with
  | [] => Ok (Val_unit, a)
  | _ => calls_loop fuel a
  end.

Definition caml_final_release (a : A) : A := update_info (fun fi => with_running fi false) a.
End Calls.
