(* ===== verification/FinaliseSpec.v ===== *)
(** * Correctness of the tables of finalisers

    The tables and the chunks of [Finalise.v] hold lists of finalisers; each operation is
    described by what it does to these lists.  The updates separate the finalisers of the
    dead values from the others, in the order of the table. *)

From S2P Require Import Prelude.
From S2P Require Import Mlvalues.
From S2P Require Import Str.
From S2P Require Import Memory.
From S2P Require Import Minorgc.
From S2P Require Import Majorgc.
From S2P Require Import Finalise.
#[local] Open Scope Z_scope.

#[local] Ltac znil := rewrite ?(@zlen_nil final), ?(@zlen_nil (option final)) in *.

(** entries that have been written *)
#[local] Abbreviation written l := (Some <$> (l : list final)).

(** the table [f] holds the finalisers [olds] and the recent ones [recents] *)
Record holds (f : finalisable) (olds recents : list final) : Prop := {
  ho_old : old f = zlen olds;
  ho_young : young f = zlen olds + zlen recents;
  ho_size : young f <= fl_size f < 2 ^ 57;
  ho_table : match table f with
             | None => fl_size f = 0
             | Some t => zlen t = fl_size f /\ 0 < fl_size f /\
                 exists rest, t = written (olds ++ recents) ++ rest
             end
}.

(** the chunk [t] holds the finalisers [l] *)
Record chunk_of (t : final_todo) (l : list final) : Prop := {
  ch_size : todo_size t = zlen l;
  ch_bound : zlen l < 2 ^ 31;
  ch_items : exists rest, item t = written l ++ rest
}.

Lemma rd_written l i e : rd (written l) i = Ok (Some e) <-> rd l i = Ok e.
Proof.
  rewrite !rd_Ok, list_lookup_fmap. split; intros [H1 H2]; (split; [done|]).
  - destruct (l !! Z.to_nat i); [by injection H2 as ->|done].
  - by rewrite H2.
Qed.

Lemma zlen_fmap {A C} (f : A -> C) l : zlen (f <$> l) = zlen l.
Proof. unfold zlen. by rewrite length_fmap. Qed.

Lemma set_tail_last todo t g : set_tail (todo ++ [t]) g = rmap (fun t => todo ++ [t]) (g t).
Proof.
  unfold set_tail, rmap. rewrite last_snoc. cbn [of_option rbind]. destruct (g t); [cbn [rbind]|done..].
  do 2 f_equal. rewrite length_app. cbn [length]. replace (length todo + 1 - 1)%nat with (length todo) by lia.
  by rewrite take_app_length.
Qed.

(** ** The loops that separate the entries *)

Section Compact.
Context (pre : list (option final)) (o y size s : Z) (ts : list final_todo) (g : final -> final).
Context (Hy : zlen pre < 2 ^ 60).

(** the state of a loop: the entries kept, those that are no longer needed, and those
    still to be looked at; the items moved, and the room for others *)
Definition compacting (kept : list final) (junk : list (option final)) (rest : list final)
    (tail : list (option final)) (moved : list final) (blanks : list (option final)) : update :=
  Update (Finalisable (Some (pre ++ written kept ++ junk ++ written rest ++ tail)) o y size)
    (ts ++ [FinalTodo s (written moved ++ blanks)]) (zlen pre + zlen kept) (zlen moved).

#[local] Abbreviation here kept junk := (zlen pre + zlen (kept : list final) + zlen (junk : list (option final))).

Lemma compacting_entry kept junk e rest tail moved blanks :
  table_entry (up_final (compacting kept junk (e :: rest) tail moved blanks)) (here kept junk) = Ok e.
Proof.
  unfold table_entry. cbn [compacting up_final table of_option rbind fmap list_fmap app].
  rewrite !app_assoc. replace (here kept junk) with (zlen ((pre ++ written kept) ++ junk))
    by (rewrite !zlen_app, zlen_fmap; lia).
  by rewrite rd_mid.
Qed.

Lemma keep_entry_step kept junk e rest tail moved blanks : zlen kept < 2 ^ 60 ->
  keep_entry (here kept junk) (compacting kept junk (e :: rest) tail moved blanks) =
    Ok (compacting (kept ++ [e]) (drop 1 (junk ++ [Some e])) rest tail moved blanks).
Proof.
  intros Hk. unfold keep_entry. rewrite compacting_entry. cbn [rbind].
  unfold set_table_entry. cbn [compacting up_final up_todo up_j up_k table old young fl_size of_option rbind fmap list_fmap].
  replace (junk ++ (Some e :: written rest) ++ tail) with ((junk ++ [Some e]) ++ written rest ++ tail)
    by (by rewrite <- !app_assoc).
  destruct (junk ++ [Some e]) as [|x junk'] eqn:Ej; [by destruct junk|]. cbn [drop].
  rewrite (app_assoc pre). replace (zlen pre + zlen kept) with (zlen (pre ++ written kept)) by (rewrite zlen_app, zlen_fmap; lia).
  cbn [app]. rewrite wr_mid. cbn [rbind]. unfold compacting. rewrite zlen_snoc, fmap_app. cbn [fmap list_fmap].
  rewrite zlen_app, zlen_fmap. pose proof (zlen_nonneg kept). pose proof (zlen_nonneg pre).
  rewrite u64_id by (unfold is_u64; lia).
  rewrite <- !app_assoc. cbn [app]. do 2 f_equal. lia.
Qed.

Lemma move_entry_step (dv : bool) kept junk e rest tail moved b blanks : zlen moved < 2 ^ 60 ->
  (if dv then e else without_value e) = g e ->
  move_entry dv (here kept junk) (compacting kept junk (e :: rest) tail moved (b :: blanks)) =
    Ok (compacting kept (junk ++ [Some e]) rest tail (moved ++ [g e]) blanks).
Proof.
  intros Hm Hg. unfold move_entry. rewrite compacting_entry. cbn [rbind]. rewrite Hg.
  cbn [compacting up_final up_todo up_j up_k]. unfold set_tail_item. rewrite set_tail_last.
  cbn [item todo_size]. replace (zlen moved) with (zlen (written moved)) at 1 by apply zlen_fmap.
  rewrite wr_mid. cbn [rmap rbind]. unfold compacting. rewrite zlen_snoc, fmap_app, <- !app_assoc. cbn [fmap list_fmap app].
  pose proof (zlen_nonneg moved). by rewrite u64_id by (unfold is_u64; lia).
Qed.

Section Loop.
(** what decides, and what the decision relies on *)
Context (dead : final -> bool) (dv : bool) (body : Z -> update -> result update).
Context (Inv : list (option final) -> list final -> Prop).
Context (Hg : forall e, (if dv then e else without_value e) = g e).
Context (Hbody : forall kept junk e rest tail moved blanks, Inv junk (e :: rest) ->
  body (here kept junk) (compacting kept junk (e :: rest) tail moved blanks) =
    if dead e then move_entry dv (here kept junk) (compacting kept junk (e :: rest) tail moved blanks)
    else keep_entry (here kept junk) (compacting kept junk (e :: rest) tail moved blanks)).
Context (Inv_move : forall junk e rest, Inv junk (e :: rest) -> dead e = true -> Inv (junk ++ [Some e]) rest).
Context (Inv_keep : forall junk e rest, Inv junk (e :: rest) -> dead e = false -> Inv (drop 1 (junk ++ [Some e])) rest).

Lemma compact_loop rest : forall kept junk tail moved blanks, Inv junk rest ->
  zlen kept + zlen rest < 2 ^ 60 -> zlen moved + zlen rest < 2 ^ 60 ->
  zlen (filter (fun e => dead e = true) rest) <= zlen blanks ->
  exists junk' blanks',
    for_loop (length rest) (here kept junk) body (compacting kept junk rest tail moved blanks) =
      Ok (compacting (kept ++ filter (fun e => dead e = false) rest) junk' [] tail
            (moved ++ (g <$> filter (fun e => dead e = true) rest)) blanks') /\
    zlen kept + zlen junk + zlen rest = zlen kept + zlen (filter (fun e => dead e = false) rest) + zlen junk' /\
    zlen blanks = zlen (filter (fun e => dead e = true) rest) + zlen blanks'.
Proof.
  induction rest as [|e rest IH]; intros kept junk tail moved blanks HI Hk Hm Hb; cbn [length for_loop].
  { exists junk, blanks. rewrite !filter_nil, !app_nil_r. split; [done|]. unfold zlen. cbn. lia. }
  rewrite zlen_cons in Hk, Hm. pose proof (zlen_nonneg rest). rewrite Hbody by done.
  destruct (dead e) eqn:De.
  - rewrite (filter_cons_True (fun e => dead e = true)) in Hb |- * by done.
    rewrite (filter_cons_False (fun e => dead e = false)) by congruence. rewrite zlen_cons in Hb.
    destruct blanks as [|b blanks]; [rewrite zlen_nil in Hb; pose proof (zlen_nonneg (filter (fun e => dead e = true) rest)); lia|].
    rewrite (move_entry_step dv) by (apply Hg || lia). cbn [rbind]. rewrite zlen_cons in Hb.
    destruct (IH kept (junk ++ [Some e]) tail (moved ++ [g e]) blanks) as (junk' & blanks' & E & L1 & L2);
      [by apply Inv_move|lia|rewrite zlen_snoc; lia|lia|].
    replace (here kept junk + 1) with (here kept (junk ++ [Some e])) by (rewrite zlen_snoc; lia).
    exists junk', blanks'. rewrite E. rewrite zlen_snoc in L1. rewrite !zlen_cons. split; [|lia].
    cbn [fmap list_fmap]. by rewrite <- app_assoc.
  - rewrite (filter_cons_False (fun e => dead e = true)) in Hb |- * by congruence.
    rewrite (filter_cons_True (fun e => dead e = false)) by done.
    rewrite keep_entry_step by lia. cbn [rbind].
    destruct (IH (kept ++ [e]) (drop 1 (junk ++ [Some e])) tail moved blanks) as (junk' & blanks' & E & L1 & L2);
      [by apply Inv_keep|rewrite zlen_snoc; lia|lia|lia|].
    assert (Lj : zlen (drop 1 (junk ++ [Some e])) = zlen junk).
    { unfold zlen. rewrite length_drop, length_app. cbn [length]. lia. }
    rewrite zlen_snoc, Lj in *.
    replace (here kept junk + 1) with (zlen pre + (zlen kept + 1) + zlen junk) by lia.
    exists junk', blanks'. rewrite E. rewrite !zlen_cons. split; [|lia]. by rewrite <- app_assoc.
Qed.
End Loop.
End Compact.

Lemma filter_none {A} (l : list A) : filter (fun _ => false = true) l = [].
Proof. induction l as [|x l IH]; [done|]. by rewrite filter_cons_False. Qed.

Lemma filter_every {A} (l : list A) : filter (fun _ => false = false) l = l.
Proof. induction l as [|x l IH]; [done|]. rewrite filter_cons_True by done. by rewrite IH. Qed.

Lemma alive_filter {A} (dead : A -> bool) l : filter (fun e => dead e = true) l = [] ->
  filter (fun e => dead e = false) l = l.
Proof.
  induction l as [|e l IH]; [done|]. destruct (dead e) eqn:De.
  - by rewrite (filter_cons_True (fun e => dead e = true)).
  - rewrite (filter_cons_False (fun e => dead e = true)) by congruence. intros E.
    rewrite (filter_cons_True (fun e => dead e = false)) by done. by rewrite IH.
Qed.

Lemma zlen_filter {A} (P : A -> Prop) `{forall x, Decision (P x)} l : zlen (filter P l) <= zlen l.
Proof. unfold zlen. pose proof (length_filter P l). lia. Qed.

(** counting the entries that satisfy a test *)
Lemma count_loop (dead : final -> bool) (body : Z -> Z -> result Z) l : forall start n,
  (forall k e n, l !! k = Some e -> body (start + Z.of_nat k) n = Ok (if dead e then u64 (n + 1) else n)) ->
  0 <= n -> n + zlen l < 2 ^ 64 ->
  for_loop (length l) start body n = Ok (n + zlen (filter (fun e => dead e = true) l)).
Proof.
  induction l as [|e l IH]; intros start n Hb Hn Hl; cbn [length for_loop].
  - rewrite filter_nil, zlen_nil. f_equal. lia.
  - rewrite zlen_cons in Hl. pose proof (zlen_nonneg l). pose proof (Hb 0%nat e n eq_refl) as E. rewrite Z.add_0_r in E. rewrite E.
    assert (Hb' : forall k e n, l !! k = Some e -> body (start + 1 + Z.of_nat k) n = Ok (if dead e then u64 (n + 1) else n)).
    { intros k e' n' Hk. rewrite <- (Hb (S k) e' n' Hk). f_equal. lia. }
    cbn [rbind]. destruct (dead e) eqn:De.
    + rewrite (filter_cons_True (fun e => dead e = true)), zlen_cons, u64_id by (done || (unfold is_u64; lia)).
      rewrite IH by (done || lia). f_equal. lia.
    + rewrite (filter_cons_False (fun e => dead e = true)) by congruence. apply IH; [done..|lia].
Qed.

Section Updates.
Context (malloc_ok : Z -> bool) (heap_bsize : Z).
Context (gs : global_heap_state) (ar : minor_area) (native_code : bool) (is_code : Z -> bool).

(** the values are darkened, one after the other *)
Fixpoint darken_all (fuel : nat) (vs : list Z) (st : mark_state) : result mark_state :=
  match vs with
  | [] => Ok st
  | v :: vs =>
      let* st := caml_darken malloc_ok heap_bsize gs ar native_code is_code fuel st v 0 in
      darken_all fuel vs st
  end.

Lemma darken_items_loop fuel ts s l : forall l0 rest st,
  for_loop (length l) (zlen l0) (fun i st =>
    let* e := tail_item (ts ++ [FinalTodo s (written (l0 ++ l) ++ rest)]) i in
    caml_darken malloc_ok heap_bsize gs ar native_code is_code fuel st (f_val e) 0) st =
  darken_all fuel (f_val <$> l) st.
Proof.
  induction l as [|e l IH]; intros l0 rest st; cbn [length for_loop fmap list_fmap darken_all]; [done|].
  unfold tail_item at 1. rewrite last_snoc. cbn [of_option rbind item].
  rewrite fmap_app, <- app_assoc. cbn [fmap list_fmap app].
  replace (zlen l0) with (zlen (written l0)) at 1 by apply zlen_fmap. rewrite rd_mid. cbn [of_option rbind].
  destruct (caml_darken _ _ _ _ _ _ _ _ _ _) as [st'| | |]; [cbn [rbind]|done..].
  specialize (IH (l0 ++ [e]) rest st'). rewrite zlen_snoc, <- (app_assoc l0) in IH. cbn [app] in IH.
  by rewrite fmap_app, <- app_assoc in IH.
Qed.

Lemma holds_entry f olds recents k e : holds f olds recents -> rd (olds ++ recents) k = Ok e -> table_entry f k = Ok e.
Proof.
  intros [_ Hy Hs Ht] E. unfold table_entry. destruct (table f) as [t|].
  - destruct Ht as (_ & _ & rest & ->). cbn [of_option rbind].
    rewrite (rd_grown _ _ _ (Some e)) by (by apply rd_written). done.
  - apply rd_range in E. rewrite zlen_app in E. lia.
Qed.

(** [table_entry] of the old entries *)
Lemma holds_old f olds recents k e : holds f olds recents -> olds !! k = Some e -> table_entry f (0 + Z.of_nat k) = Ok e.
Proof.
  intros Hf E. apply (holds_entry f olds recents); [done|]. apply rd_Ok. rewrite Z.add_0_l, Nat2Z.id. split; [lia|].
  by apply lookup_app_l_Some.
Qed.

Lemma holds_recent f olds recents k e : holds f olds recents -> recents !! k = Some e ->
  table_entry f (zlen olds + Z.of_nat k) = Ok e.
Proof.
  intros Hf E. apply (holds_entry f olds recents); [done|]. apply rd_Ok. unfold zlen.
  replace (Z.to_nat _) with (length olds + k)%nat by lia. split; [lia|]. by rewrite lookup_app_r, Nat.add_sub' by lia.
Qed.

Lemma holds_table f olds recents t : holds f olds recents -> table f = Some t -> exists tail,
  f = Finalisable (Some (written olds ++ written recents ++ tail)) (zlen olds) (zlen olds + zlen recents) (fl_size f) /\
  zlen olds + zlen recents + zlen tail = fl_size f /\ 0 < fl_size f < 2 ^ 57.
Proof.
  intros [Ho Hy Hs Ht] Et. rewrite Et in Ht. destruct Ht as (Lt & Lp & tail & ->). exists tail.
  destruct f as [tb o y sz]. cbn [table old young fl_size] in *. subst tb o y.
  rewrite fmap_app, <- app_assoc. split; [done|]. rewrite zlen_app, zlen_fmap, zlen_app in Lt.
  cbn [fl_size]. lia.
Qed.

Lemma compacting_holds pre o y size s ts kept junk tail moved blanks o' y' l1 l2 :
  (exists p, pre = written p /\ l1 ++ l2 = p ++ kept) -> o' = zlen l1 -> y' = zlen l1 + zlen l2 ->
  zlen pre + zlen kept + zlen junk + zlen tail = size -> 0 < size < 2 ^ 57 ->
  holds (set_bounds (up_final (compacting pre o y size s ts kept junk [] tail moved blanks)) o' y') l1 l2.
Proof.
  intros (p & -> & El) -> -> Hl Hs. pose proof (zlen_nonneg junk). pose proof (zlen_nonneg tail).
  assert (zlen l1 + zlen l2 = zlen p + zlen kept) by (rewrite <- !zlen_app; by rewrite El). rewrite zlen_fmap in Hl.
  split; cbn [set_bounds up_final compacting old young fl_size table].
  - done.
  - done.
  - lia.
  - rewrite !zlen_app, !zlen_fmap, zlen_nil. split; [lia|]. split; [lia|]. exists (junk ++ tail).
    by rewrite El, fmap_app, <- app_assoc.
Qed.

Lemma alloc_todo_ok ts n : 0 <= n < 2 ^ 31 ->
  alloc_todo malloc_ok ts n =
    if malloc_ok (sizeof_final_todo + n * sizeof_final)
    then Ok (ts ++ [FinalTodo n (replicate (Z.to_nat (n + 1)) None)]) else Raise (Fatal_error "out of memory").
Proof.
  intros Hn. unfold alloc_todo, sizeof_final_todo, sizeof_final. rewrite u64_id by (unfold is_u64; lia). done.
Qed.

(** ** Updates of a major collection *)

(** the finalisers of dead values, and the others *)
Context (dead : final -> bool).
Definition dead_ones (l : list final) : list final := filter (fun e => dead e = true) l.
Definition alive_ones (l : list final) : list final := filter (fun e => dead e = false) l.

Lemma generic_final_update_ok fuel dv f olds recents ts pending st :
  holds f olds recents -> zlen olds + 1 < 2 ^ 31 ->
  (forall e, e ∈ olds -> is_unmarked gs (mk_mem st) (f_val e) = Ok (dead e)) ->
  let ds := dead_ones olds in let moved := if (dv : bool) then ds else without_value <$> ds in
  let r := generic_final_update malloc_ok heap_bsize gs ar native_code is_code fuel dv f ts pending st in
  if decide (ds = []) then r = Ok (f, ts, pending, st) else
  exists f' t, holds f' (alive_ones olds) recents /\ chunk_of t moved /\
    r = if malloc_ok (sizeof_final_todo + zlen ds * sizeof_final)
        then rmap (fun st' => (f', ts ++ [t], true, st')) (if dv then darken_all fuel (f_val <$> ds) st else Ok st)
        else Raise (Fatal_error "out of memory").
Proof.
  intros Hf Hl Hu ds moved r. pose proof Hf as [Ho Hy Hs Ht]. pose proof (zlen_nonneg olds). pose proof (zlen_nonneg recents).
  pose proof (zlen_filter (fun e => dead e = true) olds) as Hd. fold (dead_ones olds) ds in Hd. pose proof (zlen_nonneg ds).
  assert (Ec : count_unmarked gs (mk_mem st) f = Ok (zlen ds)).
  { unfold count_unmarked. rewrite Ho. unfold zlen at 1. rewrite Nat2Z.id.
    rewrite (count_loop dead); [done| |lia|lia]. intros k e n Hk. rewrite (holds_old f olds recents k e Hf Hk).
    cbn [rbind]. rewrite Hu by (by eapply list_elem_of_lookup_2). done. }
  unfold r, generic_final_update. rewrite Ec. cbn [rbind]. destruct (decide (ds = [])) as [->|Nd]; [done|].
  assert (Hpos : 0 < zlen ds) by (unfold zlen; destruct ds; [done|cbn; lia]).
  rewrite (proj2 (Z.ltb_lt _ _) Hpos), s32_id, alloc_todo_ok by (unfold is_s32; lia).
  destruct (table f) as [t0|] eqn:Et; [|lia]. destruct (holds_table f olds recents t0 Hf Et) as (tail & Ef & Lf & Bf).
  set (blanks := replicate (Z.to_nat (zlen ds + 1)) None).
  assert (Lb : zlen blanks = zlen ds + 1) by (unfold blanks; rewrite zlen_replicate; lia).
  set (g := fun e => if dv then e else without_value e).
  destruct (compact_loop [] (old f) (young f) (fl_size f) (zlen ds) ts g ltac:(done)
    dead dv (update_entry gs (mk_mem st) dv) (fun _ l => l ⊆ olds) ltac:(done)) with
    (rest := olds) (kept := @nil final) (junk := @nil (option final)) (tail := written recents ++ tail)
    (moved := @nil final) (blanks := blanks) as (junk1 & blanks1 & E1 & L1 & L2).
  { intros kept junk e rest' tail' moved' blanks' Hin. unfold update_entry. rewrite compacting_entry. cbn [rbind].
    by rewrite (Hu e) by (apply Hin; by left). }
  { set_solver. }
  { set_solver. }
  { done. }
  { znil. lia. }
  { znil. lia. }
  { fold (dead_ones olds) ds. lia. }
  fold (dead_ones olds) ds in E1, L2. fold (alive_ones olds) in E1, L1.
  destruct (compact_loop [] (old f) (young f) (fl_size f) (zlen ds) ts g ltac:(done)
    (fun _ => false) dv keep_entry (fun _ _ => True) ltac:(done) ltac:(done) ltac:(done) ltac:(done)) with
    (rest := recents) (kept := alive_ones olds) (junk := junk1) (tail := tail)
    (moved := g <$> ds) (blanks := blanks1) as (junk2 & blanks2 & E2 & L3 & L4).
  { done. }
  { pose proof (zlen_nonneg junk1). znil. lia. }
  { rewrite zlen_fmap. lia. }
  { rewrite filter_none, zlen_nil. apply zlen_nonneg. }
  rewrite filter_none, filter_every in *. znil. cbn [fmap list_fmap app] in E1, E2. rewrite app_nil_r in E2.
  assert (Eu : Update f (ts ++ [FinalTodo (zlen ds) blanks]) 0 0 =
    compacting [] (old f) (young f) (fl_size f) (zlen ds) ts [] [] olds (written recents ++ tail) [] blanks).
  { unfold compacting. cbn [fmap list_fmap app]. znil. rewrite Ef at 1. by rewrite Ho, Hy. }
  exists (set_bounds (up_final (compacting [] (old f) (young f) (fl_size f) (zlen ds) ts
    (alive_ones olds ++ recents) junk2 [] tail (g <$> ds) blanks2)) (zlen (alive_ones olds)) (zlen (alive_ones olds) + zlen recents)).
  exists (FinalTodo (zlen ds) (written (g <$> ds) ++ blanks2)).
  assert (Em : moved = g <$> ds) by (unfold moved, g; destruct dv; [by rewrite list_fmap_id|done]).
  split; [|split].
  - apply compacting_holds; [by exists []|done|done|rewrite zlen_app; znil; lia|done].
  - rewrite Em. split; cbn [todo_size item]; [by rewrite zlen_fmap|rewrite zlen_fmap; lia|by exists blanks2].
  - fold blanks. destruct (malloc_ok _); cbn [rbind]; [|done]. rewrite Ho at 1. unfold zlen at 1. rewrite Nat2Z.id, Eu.
    change (0 + 0 + 0) with 0 in E1. rewrite E1. cbn [rbind].
    replace (Z.to_nat (young f - old f)) with (length recents) by (rewrite Hy, Ho; unfold zlen; lia).
    replace (old f) with (0 + zlen (alive_ones olds) + zlen junk1) at 1 by lia.
    change (compacting _ _ _ _ _ _ _ _ [] (written recents ++ tail) _ _) with
      (compacting [] (old f) (young f) (fl_size f) (zlen ds) ts (alive_ones olds) junk1 recents tail (g <$> ds) blanks1).
    rewrite E2. cbn [rbind compacting up_final up_todo up_j up_k]. unfold set_tail_size. rewrite set_tail_last.
    cbn [rmap rbind item]. rewrite zlen_fmap, s32_id by (unfold is_s32; lia). znil. rewrite !Z.add_0_l, zlen_app.
    destruct dv; [|done]. unfold darken_items. replace (Z.to_nat (zlen ds)) with (length ds) by (unfold zlen; lia).
    pose proof (darken_items_loop fuel ts (zlen ds) ds [] blanks2 st) as Ed. znil. cbn [app] in Ed.
    replace (g <$> ds) with ds by (unfold g; by rewrite list_fmap_id). by rewrite Ed.
Qed.

(** ** Updates of a minor collection *)

Section Minor.
Context (m : mem).

Definition young_value (e : final) : bool := Is_young ar (f_val e).
(** the header of a block that was copied is zero *)
Definition young_dead (e : final) : bool := young_value e && negb (u64 (word m (f_val e - 8)) =? 0).
(** the finaliser of the copy *)
Definition forwarded (e : final) : final :=
  if young_value e then Final (f_fun e) (word m (f_val e)) (f_offset e) else e.

(** the young values can be read *)
Definition readable (e : final) : Prop := young_value e = true ->
  get_header_val m (f_val e) = Ok (u64 (word m (f_val e - 8))) /\ is_Some (m !! f_val e).

(** no value of the major heap comes after a dead value *)
Fixpoint majors_first (l : list final) : Prop :=
  match l with
  | [] => True
  | e :: l => (young_dead e = true -> Forall (fun e => young_value e = true) l) /\ majors_first l
  end.

Lemma count_dead_young_ok f olds recents : holds f olds recents -> Forall readable recents ->
  count_dead_young ar m f = Ok (zlen (filter (fun e => young_dead e = true) recents)).
Proof.
  intros Hf Hr. pose proof Hf as [Ho Hy Hs _]. pose proof (zlen_nonneg recents). pose proof (zlen_nonneg olds).
  unfold count_dead_young. replace (Z.to_nat (young f - old f)) with (length recents) by (rewrite Hy, Ho; unfold zlen; lia).
  rewrite Ho, (count_loop young_dead); [done| |lia|lia]. intros k e n Hk.
  rewrite (holds_recent f olds recents k e Hf Hk). cbn [rbind]. rewrite Forall_lookup in Hr. specialize (Hr k e Hk).
  unfold young_dead, readable, young_value in *. destruct (Is_young ar (f_val e)); [|done].
  destruct (Hr eq_refl) as [-> _]. done.
Qed.

(** what the test of the loop relies on *)
Definition junk_young (junk : list (option final)) (rest : list final) : Prop :=
  Forall readable rest /\ majors_first rest /\
  (junk = [] \/ (Forall (fun x => exists e, x = Some e /\ young_value e = true) junk /\
                Forall (fun e => young_value e = true) rest)).

Lemma junk_young_move junk e rest : junk_young junk (e :: rest) -> young_dead e = true ->
  junk_young (junk ++ [Some e]) rest.
Proof.
  intros ([_ Hr]%Forall_cons & [Ho1 Ho2] & Hj) De. split; [done|]. split; [done|]. right.
  assert (Ye : young_value e = true) by (unfold young_dead in De; by apply andb_true_iff in De as [? _]).
  split; [|by apply Ho1]. apply Forall_app. split; [|by constructor; [exists e|constructor]].
  destruct Hj as [->|[Hj _]]; [constructor|done].
Qed.

Lemma junk_young_keep junk e rest : junk_young junk (e :: rest) -> young_dead e = false ->
  junk_young (drop 1 (junk ++ [Some e])) rest.
Proof.
  intros ([_ Hr]%Forall_cons & [_ Ho] & Hj) _. split; [done|]. split; [done|].
  destruct Hj as [->|[Hj [Ye Hy]%Forall_cons]]; [by left|]. right. split; [|done]. apply Forall_drop, Forall_app.
  split; [done|]. constructor; [by exists e|constructor].
Qed.

(** the values of the entries [l] are replaced by those of their copies *)
Lemma update_young_loop f l : forall pre tail o y s, f = Finalisable (Some (pre ++ written l ++ tail)) o y s ->
  Forall readable l ->
  for_loop (length l) (zlen pre) (update_young_value ar m) f =
    Ok (Finalisable (Some (pre ++ written (forwarded <$> l) ++ tail)) o y s).
Proof.
  revert f. induction l as [|e l IH]; intros f pre tail o y s -> Hr; cbn [length for_loop]; [done|].
  apply Forall_cons in Hr as [He Hr]. unfold update_young_value at 1, table_entry. cbn [table of_option rbind fmap list_fmap app].
  rewrite rd_mid. cbn [of_option rbind].
  assert (E : (if Is_young ar (f_val e) then
      let* v := Field m (f_val e) 0 in
      set_table_entry (Finalisable (Some (pre ++ Some e :: written l ++ tail)) o y s) (zlen pre) (Final (f_fun e) v (f_offset e))
    else Ok (Finalisable (Some (pre ++ Some e :: written l ++ tail)) o y s)) =
    Ok (Finalisable (Some ((pre ++ [Some (forwarded e)]) ++ written l ++ tail)) o y s)).
  { unfold readable, forwarded, young_value in *. destruct (Is_young ar (f_val e)); [|by rewrite <- app_assoc].
    destruct (He eq_refl) as [_ [x Ex]]. unfold Field. rewrite Z.mul_0_r, Z.add_0_r. rewrite (load_word m _) by (by eexists).
    cbn [rbind]. unfold set_table_entry. cbn [table of_option rbind old young fl_size]. rewrite wr_mid. cbn [rbind].
    by rewrite <- app_assoc. }
  rewrite E. cbn [rbind]. rewrite <- (zlen_snoc pre (Some (forwarded e))). rewrite (IH _ (pre ++ [Some (forwarded e)]) tail o y s eq_refl Hr).
  by rewrite <- app_assoc.
Qed.

Lemma update_young_ok f olds l : holds f olds l -> Forall readable l -> exists f',
  for_loop (Z.to_nat (young f - old f)) (old f) (update_young_value ar m) f = Ok f' /\ holds f' olds (forwarded <$> l).
Proof.
  intros Hf Hr. pose proof Hf as [Ho Hy Hs Ht]. pose proof (zlen_nonneg olds). pose proof (zlen_nonneg l).
  replace (Z.to_nat (young f - old f)) with (length l) by (rewrite Hy, Ho; unfold zlen; lia).
  destruct (table f) as [t|] eqn:Et.
  - destruct (holds_table f olds l t Hf Et) as (tail & Ef & Lf & Bf). eexists. split.
    + rewrite Ho. rewrite <- (zlen_fmap (Some : final -> option final) olds).
      by apply (update_young_loop f l (written olds) tail (zlen olds) (zlen olds + zlen l) (fl_size f)).
    + split; cbn [table old young fl_size]; rewrite ?zlen_fmap; [done|done|lia|].
      rewrite !zlen_app, !zlen_fmap. split; [lia|]. split; [lia|]. exists tail. by rewrite fmap_app, <- app_assoc.
  - assert (Hl : zlen l = 0) by lia. assert (Hlo : zlen olds = 0) by lia. destruct l; [|unfold zlen in Hl; cbn in Hl; lia].
    exists f. done.
Qed.

Lemma minor_update_entry_ok pre o y size s ts kept junk e rest tail moved blanks : junk_young junk (e :: rest) ->
  minor_update_entry ar m (zlen pre + zlen (kept : list final) + zlen junk)
      (compacting pre o y size s ts kept junk (e :: rest) tail moved blanks) =
    if young_dead e then move_entry false (zlen pre + zlen kept + zlen junk) (compacting pre o y size s ts kept junk (e :: rest) tail moved blanks)
    else keep_entry (zlen pre + zlen kept + zlen junk) (compacting pre o y size s ts kept junk (e :: rest) tail moved blanks).
Proof.
  intros ([He _]%Forall_cons & _ & Hj). unfold minor_update_entry. rewrite compacting_entry.
  assert (Ej : exists e', table_entry (up_final (compacting pre o y size s ts kept junk (e :: rest) tail moved blanks))
      (zlen pre + zlen kept) = Ok e' /\ young_value e' = young_value e).
  { unfold table_entry. cbn [compacting up_final table of_option rbind fmap list_fmap app].
    rewrite (app_assoc pre). replace (zlen pre + zlen kept) with (zlen (pre ++ written kept)) by (rewrite zlen_app, zlen_fmap; lia).
    destruct Hj as [->|[Hj [Ye _]%Forall_cons]]; [cbn [app]; rewrite rd_mid; by exists e|].
    destruct junk as [|x junk]; [cbn [app]; rewrite rd_mid; by exists e|]. apply Forall_cons in Hj as [(e' & -> & Ye') _].
    cbn [app]. rewrite rd_mid. exists e'. split; [done|]. by rewrite Ye. }
  destruct Ej as (e' & Ej & Yj). cbn [compacting up_j] in Ej |- *. rewrite Ej. cbn [rbind].
  change (Is_young ar (f_val e')) with (young_value e'). rewrite Yj. unfold young_dead, readable in *.
  destruct (young_value e); [|done]. destruct (He eq_refl) as [-> _]. cbn [rmap rbind andb]. done.
Qed.

Lemma generic_final_minor_update_ok f olds recents ts pending :
  holds f olds recents -> zlen recents + 1 < 2 ^ 31 -> Forall readable recents -> majors_first recents ->
  let ds := filter (fun e => young_dead e = true) recents in
  let alive := forwarded <$> filter (fun e => young_dead e = false) recents in
  let r := generic_final_minor_update malloc_ok ar f ts pending m in
  exists f', holds f' olds alive /\
  if decide (ds = []) then r = Ok (f', ts, pending) else
  exists t, chunk_of t (without_value <$> ds) /\
    r = if malloc_ok (sizeof_final_todo + zlen ds * sizeof_final)
        then Ok (f', ts ++ [t], true) else Raise (Fatal_error "out of memory").
Proof.
  intros Hf Hl Hr Hm ds alive r. pose proof Hf as [Ho Hy Hs Ht]. pose proof (zlen_nonneg olds). pose proof (zlen_nonneg recents).
  pose proof (zlen_filter (fun e => young_dead e = true) recents) as Hd. fold ds in Hd. pose proof (zlen_nonneg ds).
  unfold r, generic_final_minor_update. rewrite (count_dead_young_ok f olds recents Hf Hr). fold ds. cbn [rbind].
  destruct (decide (ds = [])) as [E0|Nd].
  { rewrite E0. change (0 <? zlen (@nil final)) with false. cbn [rbind].
    destruct (update_young_ok f olds recents Hf Hr) as (f' & E & Hf'). exists f'. rewrite E. cbn [rbind].
    split; [|done]. unfold alive. by rewrite (alive_filter young_dead). }
  assert (Hpos : 0 < zlen ds) by (unfold zlen; destruct ds; [done|cbn; lia]).
  rewrite (proj2 (Z.ltb_lt _ _) Hpos), s32_id, alloc_todo_ok by (unfold is_s32; lia).
  destruct (table f) as [t0|] eqn:Et; [|lia]. destruct (holds_table f olds recents t0 Hf Et) as (tail & Ef & Lf & Bf).
  set (blanks := replicate (Z.to_nat (zlen ds + 1)) None).
  assert (Lb : zlen blanks = zlen ds + 1) by (unfold blanks; rewrite zlen_replicate; lia).
  assert (Lo : zlen (written olds) = zlen olds) by apply zlen_fmap.
  assert (Lp : zlen (written olds) < 2 ^ 60) by (rewrite Lo; lia).
  destruct (compact_loop (written olds) (old f) (young f) (fl_size f) (zlen ds) ts without_value Lp
    young_dead false (minor_update_entry ar m) junk_young ltac:(done)
    (fun kept junk e rest tail moved blanks => minor_update_entry_ok _ _ _ _ _ _ kept junk e rest tail moved blanks)
    junk_young_move junk_young_keep) with
    (rest := recents) (kept := @nil final) (junk := @nil (option final)) (tail := tail)
    (moved := @nil final) (blanks := blanks) as (junk1 & blanks1 & E1 & L1 & L2).
  { split; [done|]. split; [done|]. by left. }
  { znil. lia. }
  { znil. lia. }
  { fold ds. lia. }
  fold ds in E1, L2. set (kept := filter (fun e => young_dead e = false) recents) in *. znil. cbn [app] in E1.
  assert (Hr' : Forall readable kept).
  { rewrite Forall_forall in Hr |- *. intros e [_ He]%list_elem_of_filter. by apply Hr. }
  destruct (update_young_ok (set_bounds (up_final (compacting (written olds) (old f) (young f) (fl_size f) (zlen ds) ts
    kept junk1 [] tail (without_value <$> ds) blanks1)) (zlen olds) (zlen olds + zlen kept)) olds kept) as (f' & E & Hf'); [|done|].
  { apply compacting_holds; [by exists olds|done|done|lia|done]. }
  exists f'. split; [done|]. exists (FinalTodo (zlen ds) (written (without_value <$> ds) ++ blanks1)).
  split; [split; cbn [todo_size item]; [by rewrite zlen_fmap|rewrite zlen_fmap; lia|by exists blanks1]|].
  fold blanks. destruct (malloc_ok _); cbn [rbind]; [|done].
  assert (Eu : Update f (ts ++ [FinalTodo (zlen ds) blanks]) (old f) 0 =
    compacting (written olds) (old f) (young f) (fl_size f) (zlen ds) ts [] [] recents tail [] blanks).
  { unfold compacting. cbn [fmap list_fmap app]. znil. rewrite Lo, Z.add_0_r. rewrite Ef at 1. by rewrite Ho, Hy. }
  rewrite Eu. replace (Z.to_nat (young f - old f)) with (length recents) by (rewrite Hy, Ho; unfold zlen; lia).
  replace (zlen (written olds) + 0 + 0) with (old f) in E1 by lia. rewrite E1. cbn [rbind].
  cbn [compacting up_final up_todo up_j up_k]. unfold set_tail_size. rewrite set_tail_last. cbn [rmap rbind item].
  unfold set_bounds in E |- *. cbn [up_final compacting table old young fl_size] in E |- *.
  rewrite Lo, ?Ho in *. by rewrite E.
Qed.
(** the test on the entry [j] reads a dead value: the header alone decides *)
Lemma move_all_loop pre o y size s ts rest : forall junk tail moved blanks d,
  head (junk ++ written rest) = Some (Some d) \/ rest = [] -> young_value d = true ->
  (forall e, e ∈ rest -> exists hd, get_header_val m (f_val e) = Ok hd /\ hd <> 0) ->
  zlen moved + zlen rest < 2 ^ 60 ->
  for_loop (length rest) (zlen pre + zlen (@nil final) + zlen junk) (minor_update_entry ar m)
      (compacting pre o y size s ts [] junk rest tail moved blanks) =
    if zlen rest <=? zlen blanks
    then Ok (compacting pre o y size s ts [] (junk ++ written rest) [] tail
               (moved ++ (without_value <$> rest)) (drop (length rest) blanks))
    else Undef.
Proof.
  induction rest as [|e rest IH]; intros junk tail moved blanks d Hh Yd Hd Hl; cbn [length for_loop].
  { znil. rewrite (proj2 (Z.leb_le _ _)) by apply zlen_nonneg. cbn [fmap list_fmap drop]. by rewrite !app_nil_r. }
  destruct Hh as [Hh|]; [|done]. rewrite zlen_cons in *. pose proof (zlen_nonneg rest).
  destruct (Hd e ltac:(by left)) as (hd & Ehd & Nhd).
  assert (E : minor_update_entry ar m (zlen pre + zlen (@nil final) + zlen junk)
      (compacting pre o y size s ts [] junk (e :: rest) tail moved blanks) =
    move_entry false (zlen pre + zlen (@nil final) + zlen junk)
      (compacting pre o y size s ts [] junk (e :: rest) tail moved blanks)).
  { unfold minor_update_entry. rewrite compacting_entry. cbn [compacting up_j]. unfold table_entry at 1.
    cbn [compacting up_final table of_option rbind]. znil. rewrite Z.add_0_r.
    replace (pre ++ written [] ++ junk ++ written (e :: rest) ++ tail) with (pre ++ (junk ++ written (e :: rest)) ++ tail)
      by (cbn [fmap list_fmap app]; by rewrite <- app_assoc).
    destruct (junk ++ written (e :: rest)) as [|x all]; [done|]. injection Hh as ->. cbn [app]. rewrite rd_mid.
    cbn [of_option rbind]. change (Is_young ar (f_val d)) with (young_value d). rewrite Yd, Ehd. cbn [rmap rbind].
    by rewrite (proj2 (Z.eqb_neq _ _) Nhd). }
  rewrite E. destruct blanks as [|b blanks].
  - znil. rewrite (proj2 (Z.leb_gt _ _)) by lia. unfold move_entry.
    pose proof (compacting_entry pre o y size s ts [] junk e rest tail moved []) as Ee. znil. rewrite Ee. cbn [rbind compacting up_todo up_k].
    unfold set_tail_item. rewrite set_tail_last. cbn [item]. unfold wr. rewrite (proj2 (Z.leb_le _ _)) by apply zlen_nonneg.
    destruct (Z.ltb_spec (zlen moved) (zlen (written moved ++ []))) as [L|L]; [|done].
    rewrite app_nil_r, zlen_fmap in L. lia.
  - rewrite (move_entry_step _ _ _ _ _ _ without_value) by (done || lia). cbn [rbind].
    replace (zlen pre + zlen (@nil final) + zlen junk + 1) with (zlen pre + zlen (@nil final) + zlen (junk ++ [Some e])) by (rewrite zlen_snoc; lia).
    rewrite (IH _ _ _ _ d); [|by left; rewrite <- app_assoc|done|intros; apply Hd; by right|rewrite zlen_snoc; lia].
    rewrite zlen_cons. destruct (Z.leb_spec (zlen rest) (zlen blanks)), (Z.leb_spec (1 + zlen rest) (1 + zlen blanks)); try lia; [|done].
    cbn [fmap list_fmap drop length]. by rewrite <- !app_assoc.
Qed.

Lemma update_nothing f : old f = young f ->
  for_loop (Z.to_nat (young f - old f)) (old f) (update_young_value ar m) f = Ok f.
Proof. intros E. by rewrite E, Z.sub_diag. Qed.

(** after a dead value, the entries whose values have a header are taken as dead *)
Lemma minor_update_after_dead f olds d l ts pending :
  holds f olds (d :: l) -> young_dead d = true -> zlen (d :: l) < 2 ^ 31 - 1 ->
  (forall e, e ∈ d :: l -> exists hd, get_header_val m (f_val e) = Ok hd /\ hd <> 0) ->
  (forall e, e ∈ d :: l -> get_header_val m (f_val e) = Ok (u64 (word m (f_val e - 8)))) ->
  (forall e, e ∈ d :: l -> young_value e = true -> is_Some (m !! f_val e)) ->
  let ndead := zlen (filter (fun e => young_dead e = true) (d :: l)) in
  malloc_ok (sizeof_final_todo + ndead * sizeof_final) = true ->
  let r := generic_final_minor_update malloc_ok ar f ts pending m in
  if zlen (d :: l) <=? ndead + 1 then
    exists f' t, r = Ok (f', ts ++ [t], true) /\ holds f' olds [] /\
      todo_size t = ndead /\ exists rest, item t = written (without_value <$> d :: l) ++ rest
  else r = Undef.
Proof.
  intros Hf Dd Hl Hh Hw Hr ndead Hm r. pose proof Hf as [Ho Hy Hs Ht]. pose proof (zlen_nonneg olds). pose proof (zlen_nonneg l).
  assert (Rd : Forall readable (d :: l)).
  { apply Forall_forall. intros e He Ye. split; [by apply Hw|by apply Hr]. }
  unfold r, generic_final_minor_update. rewrite (count_dead_young_ok f olds (d :: l) Hf Rd). fold ndead. cbn [rbind].
  assert (Hp : 0 < ndead).
  { unfold ndead. rewrite (filter_cons_True (fun e => young_dead e = true)) by done. rewrite zlen_cons.
    pose proof (zlen_nonneg (filter (fun e => young_dead e = true) l)). lia. }
  pose proof (zlen_filter (fun e => young_dead e = true) (d :: l)) as Hd. fold ndead in Hd.
  rewrite (proj2 (Z.ltb_lt _ _) Hp), s32_id, alloc_todo_ok, Hm by (unfold is_s32; lia). cbn [rbind].
  destruct (table f) as [t0|] eqn:Et; [|rewrite zlen_cons in *; lia].
  destruct (holds_table f olds (d :: l) t0 Hf Et) as (tail & Ef & Lf & Bf).
  set (blanks := replicate (Z.to_nat (ndead + 1)) None).
  assert (Lb : zlen blanks = ndead + 1) by (unfold blanks; rewrite zlen_replicate; lia).
  assert (Lo : zlen (written olds) = zlen olds) by apply zlen_fmap.
  assert (Eu : Update f (ts ++ [FinalTodo ndead blanks]) (old f) 0 =
    compacting (written olds) (old f) (young f) (fl_size f) ndead ts [] [] (d :: l) tail [] blanks).
  { unfold compacting. cbn [fmap list_fmap app]. znil. rewrite Lo, Z.add_0_r. rewrite Ef at 1. by rewrite Ho, Hy. }
  rewrite Eu. replace (Z.to_nat (young f - old f)) with (length (d :: l)) by (rewrite Hy, Ho; unfold zlen; lia).
  assert (Yd : young_value d = true) by (unfold young_dead in Dd; by apply andb_true_iff in Dd as [? _]).
  pose proof (move_all_loop (written olds) (old f) (young f) (fl_size f) ndead ts (d :: l) [] tail [] blanks d
    ltac:(by left) Yd Hh ltac:(znil; lia)) as E1. znil.
  replace (zlen (written olds) + 0 + 0) with (old f) in E1 by lia. rewrite E1, Lb.
  destruct (zlen (d :: l) <=? ndead + 1); [|done]. cbn [rbind app].
  cbn [compacting up_final up_todo up_j up_k]. unfold set_tail_size. rewrite set_tail_last. cbn [rmap rbind item]. znil.
  set (f1 := set_bounds _ _ _). assert (Ey : old f1 = young f1).
  { unfold f1. cbn [set_bounds old young]. lia. }
  rewrite (update_nothing f1 Ey). cbn [rbind]. exists f1. eexists. split; [done|].
  split; [|by split; [|eexists]]. unfold f1. rewrite Z.add_0_r, Lo, Ho. cbn [app] in *.
  split; cbn [set_bounds old young fl_size table]; [done|znil; lia|lia|].
  split; [|split; [lia|]].
  - rewrite !zlen_app, Lo, (zlen_fmap _ (d :: l)). cbn [fmap list_fmap]. znil. lia.
  - rewrite app_nil_r. by eexists.
Qed.
End Minor.

(** ** Registration and adoption *)

Context (malloc_limit : forall n, malloc_ok n = true -> n < 2 ^ 61).

Lemma resize_table_ok f olds recents n : holds f olds recents -> young f <= n -> 0 < n < 2 ^ 59 ->
  ok_or caml_fatal_out_of_memory (resize_table malloc_ok f n)
    (fun f' => holds f' olds recents /\ fl_size f' = n).
Proof.
  intros [Ho Hy Hs Ht] Hn Hb. unfold resize_table, sizeof_final. rewrite u64_id by (unfold is_u64; lia).
  destruct (malloc_ok (n * 24)) eqn:Em; [|done]. apply malloc_limit in Em. cbn [ok_or]. split; [|done].
  split; cbn [table old young fl_size]; [done|done|lia|].
  set (t := match table f with Some t => t | None => [] end).
  assert (Ht' : exists rest, t = written (olds ++ recents) ++ rest).
  { unfold t. destruct (table f); [by destruct Ht as (_ & _ & Ht)|]. pose proof (zlen_nonneg olds). pose proof (zlen_nonneg recents).
    exists []. destruct olds, recents; unfold zlen in *; cbn [length] in *; try lia. done. }
  destruct Ht' as [rest ->]. assert (Ln : (length (written (olds ++ recents)) <= Z.to_nat n)%nat).
  { rewrite length_fmap, length_app. unfold zlen in *. lia. }
  rewrite take_app_ge by done. split; [|split; [lia|]].
  - unfold zlen. rewrite !length_app, length_take, length_replicate. lia.
  - eexists. by rewrite <- app_assoc.
Qed.

Definition registerable (flat_float_array : bool) (m : mem) (v : Z) : Prop :=
  let tag := Tag_hd (u64 (word m (v - 8))) in
  Is_block v = true /\ is_Some (m !! (v - 8)) /\
  tag <> Lazy_tag /\ (flat_float_array = true -> tag <> Double_tag) /\ tag <> Forcing_tag /\ tag <> Forward_tag.

Definition entry_for (m : mem) (fn v : Z) : final :=
  let hd := u64 (word m (v - 8)) in
  if Tag_hd hd =? Infix_tag then Final fn (v - Infix_offset_hd hd) (s32 (Infix_offset_hd hd)) else Final fn v 0.

Lemma set_table_entry_ok f olds recents e : holds f olds recents -> young f < fl_size f ->
  exists f', set_table_entry f (young f) e = Ok f' /\ old f' = old f /\ young f' = young f /\
    holds (set_bounds f' (old f') (young f + 1)) olds (recents ++ [e]).
Proof.
  intros [Ho Hy Hs Ht] Hl. pose proof (zlen_nonneg olds). pose proof (zlen_nonneg recents).
  destruct (table f) as [t|] eqn:Et; [|lia]. destruct Ht as (Lt & Lp & rest & ->). unfold set_table_entry. rewrite Et.
  cbn [of_option rbind]. assert (Lw : zlen (written (olds ++ recents)) = young f) by (rewrite zlen_fmap, zlen_app; lia).
  rewrite zlen_app in Lt. destruct rest as [|x rest]; [znil; lia|].
  assert (Ew : wr (written (olds ++ recents) ++ x :: rest) (young f) (Some e) = Ok (written (olds ++ recents) ++ Some e :: rest))
    by (rewrite <- Lw; apply wr_mid).
  rewrite Ew. cbn [rbind].
  eexists. split; [done|]. cbn [old young]. split; [done|]. split; [done|]. rewrite zlen_cons in Lt.
  split; cbn [set_bounds table old young fl_size]; [done|rewrite zlen_snoc; lia|lia|].
  rewrite zlen_app, zlen_cons. split; [lia|]. split; [lia|]. exists rest.
  by rewrite (app_assoc olds), (fmap_app _ (olds ++ recents)), <- app_assoc.
Qed.

Lemma generic_final_register_ok ffa f olds recents m fn v : holds f olds recents -> registerable ffa m v ->
  ok_or caml_fatal_out_of_memory (generic_final_register malloc_ok ffa f m fn v)
    (fun f' => holds f' olds (recents ++ [entry_for m fn v])).
Proof.
  intros Hf (Hb & Hm & H1 & H2 & H3 & H4). pose proof Hf as [Ho Hy Hs Ht]. pose proof (zlen_nonneg olds). pose proof (zlen_nonneg recents).
  unfold generic_final_register, Infix_offset_val, Tag_val, Hd_val. rewrite (load_word m _ Hm), Hb. cbn [rmap rbind negb].
  rewrite (proj2 (Z.eqb_neq _ _) H1), (proj2 (Z.eqb_neq _ _) H3), (proj2 (Z.eqb_neq _ _) H4), !orb_false_r.
  assert (E2 : ffa && (Tag_hd (u64 (word m (v - 8))) =? Double_tag) = false).
  { destruct ffa; [|done]. cbn [andb]. apply Z.eqb_neq. by apply H2. }
  rewrite E2. cbn [orb].
  eapply ok_or_bind with (P := fun f' => holds f' olds recents /\ young f' < fl_size f').
  { destruct (Z.leb_spec (fl_size f) (young f)) as [L|L]; [|done].
    destruct (table f) as [t|] eqn:Et.
    - destruct Ht as (_ & Lp & _). rewrite u64_id by (unfold is_u64; lia).
      eapply ok_or_mono; [apply (resize_table_ok f olds recents); [done|lia|lia]|]. intros f' [Hf' Es]. split; [done|].
      rewrite (ho_young _ _ _ Hf'). lia.
    - eapply ok_or_mono; [apply (resize_table_ok f olds recents); [done|lia|lia]|]. intros f' [Hf' Es]. split; [done|].
      rewrite (ho_young _ _ _ Hf'). lia. }
  intros f1 [Hf1 L1]. destruct (set_table_entry_ok f1 olds recents (entry_for m fn v) Hf1 L1) as (f2 & E & Eo & Ey & Hf2).
  pose proof (ho_young _ _ _ Hf1). pose proof (ho_size _ _ _ Hf1).
  assert (Ee : (if Tag_hd (u64 (word m (v - 8))) =? Infix_tag
    then Ok (Final fn (v - Infix_offset_hd (u64 (word m (v - 8)))) (s32 (Infix_offset_hd (u64 (word m (v - 8))))))
    else Ok (Final fn v 0)) = Ok (entry_for m fn v)) by (unfold entry_for; cbv zeta; by destruct (Z.eqb (Tag_hd (u64 (word m (v - 8)))) Infix_tag)).
  cbn [rmap rbind]. rewrite Ee. cbn [rbind]. rewrite E. cbn [rbind ok_or]. rewrite Ey, u64_id by (unfold is_u64; lia).
  exact Hf2.
Qed.

(** the entries of [source] are put before those of [target] *)
Lemma merge_ok source target s0 olds recents : holds source s0 [] -> s0 <> [] -> holds target olds recents ->
  ok_or caml_fatal_out_of_memory (caml_final_merge_finalisable malloc_ok source target)
    (fun f' => holds f' (s0 ++ olds) recents).
Proof.
  intros Hs Ns Ht. pose proof Hs as [So Sy Ss St]. pose proof Ht as [To Ty Ts _]. znil. rewrite Z.add_0_r in Sy.
  pose proof (zlen_nonneg olds). pose proof (zlen_nonneg recents).
  assert (L0 : 0 < zlen s0) by (unfold zlen; destruct s0; [done|cbn; lia]).
  unfold caml_final_merge_finalisable. set (n := u64 (young target + young source)).
  assert (En : n = young target + young source) by (apply u64_id; unfold is_u64; lia).
  eapply ok_or_bind with (P := fun f' => holds f' olds recents /\ n <= fl_size f').
  { destruct (Z.leb_spec (fl_size target) n); [|split; [done|lia]]. rewrite u64_id by (unfold is_u64; lia).
    eapply ok_or_mono; [apply (resize_table_ok target olds recents); [done|lia|lia]|]. intros f' [Hf' ->]. split; [done|lia]. }
  intros f [Hf Hn]. pose proof Hf as [Fo Fy Fs Ft]. destruct (table f) as [t|]; [|lia].
  destruct (table source) as [ts|]; [|lia]. destruct Ft as (Lt & Lp & rest & ->). destruct St as (Lts & _ & rests & ->).
  rewrite app_nil_r in *. cbn [of_option rbind]. set (X := written (olds ++ recents)) in *.
  assert (LX : zlen X = young f) by (unfold X; rewrite zlen_fmap, zlen_app; lia). rewrite zlen_app in Lt, Lts.
  pose proof (zlen_nonneg rest). pose proof (zlen_nonneg rests). rewrite zlen_fmap in Lts.
  assert (Eyf : young f = young target) by lia.
  unfold copy_entries at 1. rewrite (proj2 (Z.leb_le _ _)) by (rewrite zlen_app; lia).
  replace (Z.to_nat (young f)) with (length X) by (unfold zlen in *; lia). rewrite take_app_length.
  rewrite memcpy_Ok by (rewrite ?zlen_app; lia). cbn [rbind].
  unfold copy_entries. rewrite (proj2 (Z.leb_le _ _)) by (rewrite zlen_app, zlen_fmap; lia).
  assert (Eys : Z.to_nat (young source) = length (written s0)) by (rewrite length_fmap; unfold zlen in *; lia).
  rewrite Eys, take_app_length, memcpy_0.
  2:{ rewrite !length_app, length_take, length_app, length_drop, length_app. unfold zlen in *. lia. }
  cbn [rbind ok_or]. rewrite !u64_id by (unfold is_u64; lia).
  assert (Ld : drop (length (written s0)) (take (length (written s0)) (X ++ rest) ++ X ++ drop (length (written s0) + length X) (X ++ rest)) =
    X ++ drop (length (written s0) + length X) (X ++ rest)).
  { rewrite <- (length_take_le (X ++ rest) (length (written s0))) at 1.
    - by rewrite drop_app_length.
    - rewrite length_app. unfold zlen in *. lia. }
  rewrite Ld. split; cbn [table old young fl_size]; [rewrite zlen_app; lia|rewrite zlen_app; lia|lia|].
  split; [|split; [lia|]].
  - rewrite !zlen_app, zlen_fmap. unfold zlen at 3. rewrite length_drop, length_app. unfold zlen in *. rewrite length_fmap in *. lia.
  - eexists. unfold X. by rewrite <- (app_assoc s0), (fmap_app _ s0), <- app_assoc.
Qed.
End Updates.
