(* ===== verification/Finalisers.v ===== *)
(** * The life of finalisers

    A sequence of registrations, updates of the two collections and calls does to the tables
    of a domain what it does to lists: in particular each function registered is called once,
    or is still held, in the tables or in the list of the functions to call.  The condition
    ([ops_ok]) is that no minor collection finds a value of the major heap registered after a
    value that has died: there the code loses finalisers,
    as the last theorem of the file shows. *)

From stdpp Require Import gmultiset.
From S2P Require Import Prelude.
From S2P Require Import Mlvalues.
From S2P Require Import Str.
From S2P Require Import Memory.
From S2P Require Import Minorgc.
From S2P Require Import Addrmap.
From S2P Require Import Majorgc.
From S2P Require Import Finalise.
From S2P Require Import FinaliseSpec.
#[local] Open Scope Z_scope.

(** what a run may do to the finalisers of a domain *)
Inductive fin_op :=
  | Register (without : bool) (fn v : Z)
  | Update_first
  | Update_last
  | Update_minor
  | Empty_young
  | New_cycle
  | Next_call
  | Run (st : mark_state).

(** the finalisers as lists: old and recent entries of each table, and the chunks of the
    functions to call *)
Record fin_lists := FinLists {
  l_first : list final; l_first_recent : list final; l_updated_first : bool;
  l_last : list final; l_last_recent : list final; l_updated_last : bool;
  l_waiting : list (list final)
}.

Definition no_lists : fin_lists := FinLists [] [] false [] [] false [].

Definition all_held (a : fin_lists) : list final :=
  l_first a ++ l_first_recent a ++ l_last a ++ l_last_recent a ++ concat (l_waiting a).

Definition registered (op : fin_op) : list Z := match op with Register _ fn _ => [fn] | _ => [] end.

Section Life.
Context (malloc_ok : Z -> bool) (heap_bsize : Z).
Context (gs : global_heap_state) (ar : minor_area) (native_code : bool) (is_code : Z -> bool).
Context (flat_float_array : bool) (fuel : nat).

(** ** The operations of the code, and those of the lists *)

Definition exec (op : fin_op) (s : final_info * mark_state) : result ((final_info * mark_state) * list final) :=
  let (fi, st) := s in
  match op with
  | Register without fn v =>
      let* fi :=
        (if without
         then caml_final_register_called_without_value malloc_ok flat_float_array fi (mk_mem st) fn v
         else caml_final_register malloc_ok flat_float_array fi (mk_mem st) fn v) in
      Ok ((fi, st), [])
  | Update_first =>
      let* (_, fi, st) := caml_final_update_first malloc_ok heap_bsize gs ar native_code is_code fuel fi st in
      Ok ((fi, st), [])
  | Update_last =>
      let* (_, fi, st) := caml_final_update_last malloc_ok heap_bsize gs ar native_code is_code fuel fi st in
      Ok ((fi, st), [])
  | Update_minor =>
      let* fi := caml_final_update_last_minor malloc_ok ar fi (mk_mem st) in Ok ((fi, st), [])
  | Empty_young => Ok ((caml_final_empty_young fi, st), [])
  | New_cycle => Ok ((with_updated fi false false, st), [])
  | Next_call =>
      let* c := next_call (todo fi) in
      match c with
      | None => Ok ((with_todo fi [] (action_pending fi), st), [])
      | Some (e, todo) => Ok ((with_todo fi todo (action_pending fi), st), [e])
      end
  | Run st => Ok ((fi, st), [])
  end.

(** a value that the marking has not reached *)
Definition unmarked_value (st : mark_state) (e : final) : bool :=
  match is_unmarked gs (mk_mem st) (f_val e) with Ok b => b | _ => false end.

Definition add_chunk (l : list final) (w : list (list final)) : list (list final) :=
  match l with [] => w | _ => w ++ [l] end.

(** the last function of the first chunk that is not empty *)
Fixpoint take_call (w : list (list final)) : option (final * list (list final)) :=
  match w with
  | [] => None
  | l :: w => match last l with None => take_call w | Some e => Some (e, take (length l - 1) l :: w) end
  end.

Definition lexec (op : fin_op) (s : fin_lists * mark_state) : result ((fin_lists * mark_state) * list final) :=
  let (a, st) := s in
  let 'FinLists f fr uf l lr ul w := a in
  match op with
  | Register true fn v => Ok ((FinLists f fr uf l (lr ++ [entry_for (mk_mem st) fn v]) ul w, st), [])
  | Register false fn v => Ok ((FinLists f (fr ++ [entry_for (mk_mem st) fn v]) uf l lr ul w, st), [])
  | Update_first =>
      if uf then Ok (s, []) else
      let ds := dead_ones (unmarked_value st) f in
      let* st' := darken_all malloc_ok heap_bsize gs ar native_code is_code fuel (f_val <$> ds) st in
      Ok ((FinLists (alive_ones (unmarked_value st) f) fr true l lr ul (add_chunk ds w), st'), [])
  | Update_last =>
      if ul then Ok (s, []) else
      Ok ((FinLists f fr uf (alive_ones (unmarked_value st) l) lr true
             (add_chunk (without_value <$> dead_ones (unmarked_value st) l) w), st), [])
  | Update_minor =>
      Ok ((FinLists f fr uf l (forwarded ar (mk_mem st) <$> alive_ones (young_dead ar (mk_mem st)) lr) ul
             (add_chunk (without_value <$> dead_ones (young_dead ar (mk_mem st)) lr) w), st), [])
  | Empty_young => Ok ((FinLists (f ++ fr) [] uf (l ++ lr) [] ul w, st), [])
  | New_cycle => Ok ((FinLists f fr false l lr false w, st), [])
  | Next_call =>
      match take_call w with
      | None => Ok ((FinLists f fr uf l lr ul [], st), [])
      | Some (e, w) => Ok ((FinLists f fr uf l lr ul w, st), [e])
      end
  | Run st => Ok ((a, st), [])
  end.

(** when an operation may be used: a value can be registered, headers can be read, and, for
    the update of a minor collection, no value of the major heap was registered after a
    value that has died *)
Definition op_ok (op : fin_op) (s : fin_lists * mark_state) : Prop :=
  let (a, st) := s in
  match op with
  | Register _ fn v => registerable flat_float_array (mk_mem st) v
  | Update_first => forall e, e ∈ l_first a -> is_Some (mk_mem st !! (f_val e - 8))
  | Update_last => forall e, e ∈ l_last a -> is_Some (mk_mem st !! (f_val e - 8))
  | Update_minor =>
      Forall (readable ar (mk_mem st)) (l_last_recent a) /\ majors_first ar (mk_mem st) (l_last_recent a)
  | _ => True
  end.

(** the tables of a domain hold these lists *)
Record represents (s : final_info * mark_state) (a : fin_lists * mark_state) : Prop := {
  rp_first : holds (first s.1) (l_first a.1) (l_first_recent a.1);
  rp_last : holds (last_final s.1) (l_last a.1) (l_last_recent a.1);
  rp_updated : updated_first s.1 = l_updated_first a.1 /\ updated_last s.1 = l_updated_last a.1;
  rp_todo : Forall2 chunk_of (todo s.1) (l_waiting a.1);
  rp_marking : s.2 = a.2
}.

(** the same outcome, unless the program ends for lack of memory *)
Definition same_outcome {A C} (R : A -> C -> Prop) (r : result A) (q : result C) : Prop :=
  match r with
  | Ok x => exists y, q = Ok y /\ R x y
  | Raise (Fatal_error _) => True
  | Raise e => q = Raise e
  | Undef => q = Undef
  | NoFuel => q = NoFuel
  end.

(** ** Conservation *)

Lemma split_ones (dead : final -> bool) l : dead_ones dead l ++ alive_ones dead l ≡ₚ l.
Proof.
  unfold dead_ones, alive_ones. induction l as [|e l IH]; [done|]. destruct (dead e) eqn:De.
  - rewrite (filter_cons_True (fun e => dead e = true)) by done. rewrite (filter_cons_False (fun e => dead e = false)) by congruence.
    cbn [app]. by f_equiv.
  - rewrite (filter_cons_False (fun e => dead e = true)) by congruence. rewrite (filter_cons_True (fun e => dead e = false)) by done.
    rewrite <- Permutation_middle. by f_equiv.
Qed.

Lemma concat_add_chunk l w : concat (add_chunk l w) = concat w ++ l.
Proof. unfold add_chunk. destruct l; [by rewrite app_nil_r|]. rewrite concat_app. cbn [concat]. by rewrite app_nil_r. Qed.

Lemma take_call_concat w : match take_call w with
  | None => concat w = []
  | Some (e, w') => e :: concat w' ≡ₚ concat w
  end.
Proof.
  induction w as [|l w IH]; cbn [take_call concat]; [done|]. destruct (last l) as [e|] eqn:E.
  - apply last_Some in E as [l' ->]. cbn [concat]. rewrite length_app. cbn [length].
    replace (length l' + 1 - 1)%nat with (length l') by lia. rewrite take_app_length, <- app_assoc. cbn [app].
    by rewrite Permutation_middle.
  - apply last_None in E as ->. cbn [app]. exact IH.
Qed.

Lemma without_value_fun (l : list final) : f_fun <$> (without_value <$> l) = f_fun <$> l.
Proof. rewrite <- list_fmap_compose. by apply list_fmap_ext. Qed.

Lemma forwarded_fun m (l : list final) : f_fun <$> (forwarded ar m <$> l) = f_fun <$> l.
Proof. rewrite <- list_fmap_compose. apply list_fmap_ext. intros i e _. unfold compose, forwarded. by destruct (young_value ar e). Qed.

Lemma entry_for_fun m fn v : f_fun (entry_for m fn v) = fn.
Proof. unfold entry_for. cbv zeta. by destruct (_ =? _). Qed.

Definition funs (l : list final) : gmultiset Z := list_to_set_disj (f_fun <$> l).

Lemma funs_app l k : funs (l ++ k) = funs l ⊎ funs k.
Proof. unfold funs. by rewrite fmap_app, list_to_set_disj_app. Qed.

Lemma funs_perm l k : l ≡ₚ k -> funs l = funs k.
Proof. intros H. unfold funs. by apply list_to_set_disj_perm, fmap_Permutation. Qed.

Lemma funs_map (g : final -> final) l : f_fun <$> (g <$> l) = f_fun <$> l -> funs (g <$> l) = funs l.
Proof. unfold funs. by intros ->. Qed.

Lemma perm_funs (l k : list Z) : (list_to_set_disj l : gmultiset Z) = list_to_set_disj k -> l ≡ₚ k.
Proof.
  revert k. induction l as [|x l IH]; intros k E.
  - destruct k as [|y k]; [done|]. rewrite list_to_set_disj_nil, list_to_set_disj_cons in E. multiset_solver.
  - assert (Hx : x ∈ k) by (apply (elem_of_list_to_set_disj (A := Z)); rewrite <- E, list_to_set_disj_cons; apply gmultiset_elem_of_disj_union; left; by apply gmultiset_elem_of_singleton).
    apply elem_of_Permutation in Hx as [k' Hk]. rewrite Hk. f_equiv. apply IH.
    rewrite Hk, !list_to_set_disj_cons in E. by apply (inj (disj_union _)) in E.
Qed.

(** the functions held and called are those held before and registered *)
Lemma lexec_conserves op a st a' st' called : lexec op (a, st) = Ok ((a', st'), called) ->
  (f_fun <$> called) ++ (f_fun <$> all_held a') ≡ₚ registered op ++ (f_fun <$> all_held a).
Proof.
  intros E. apply perm_funs. rewrite !list_to_set_disj_app. fold (funs called) (funs (all_held a')) (funs (all_held a)).
  destruct a as [f fr uf l lr ul w]. unfold all_held.
  assert (Hs : forall dead l, funs (dead_ones dead l) ⊎ funs (alive_ones dead l) = funs l)
    by (intros dead l0; rewrite <- funs_app; apply funs_perm, split_ones).
  assert (Hw : forall l w, funs (concat (add_chunk l w)) = funs (concat w) ⊎ funs l)
    by (intros; by rewrite concat_add_chunk, funs_app).
  assert (Hn : funs [] = ∅) by done.
  assert (He : forall m fn v, funs [entry_for m fn v] = {[+ fn +]}).
  { intros m fn v. unfold funs. cbn [fmap list_fmap]. rewrite entry_for_fun, list_to_set_disj_cons, list_to_set_disj_nil. multiset_solver. }
  destruct op as [[]| | | | | | |]; cbn [lexec registered] in *.
  - injection E as <- _ <-. cbn [l_first l_first_recent l_last l_last_recent l_waiting]. rewrite !funs_app.
    rewrite Hn, He, list_to_set_disj_cons, list_to_set_disj_nil. multiset_solver.
  - injection E as <- _ <-. cbn [l_first l_first_recent l_last l_last_recent l_waiting]. rewrite !funs_app.
    rewrite Hn, He, list_to_set_disj_cons, list_to_set_disj_nil. multiset_solver.
  - rewrite list_to_set_disj_nil. destruct uf; [injection E as <- _ <-; by rewrite Hn|].
    apply rbind_Ok in E as (st1 & _ & E). injection E as <- _ <-. cbn [l_first l_first_recent l_last l_last_recent l_waiting].
    rewrite !funs_app, Hw, Hn, <- (Hs (unmarked_value st) f). multiset_solver.
  - rewrite list_to_set_disj_nil. destruct ul; [injection E as <- _ <-; by rewrite Hn|].
    injection E as <- _ <-. cbn [l_first l_first_recent l_last l_last_recent l_waiting].
    rewrite !funs_app, Hw, Hn, (funs_map without_value _ (without_value_fun _)), <- (Hs (unmarked_value st) l). multiset_solver.
  - rewrite list_to_set_disj_nil. injection E as <- _ <-. cbn [l_first l_first_recent l_last l_last_recent l_waiting].
    rewrite !funs_app, Hw, Hn, (funs_map without_value _ (without_value_fun _)), (funs_map (forwarded ar _) _ (forwarded_fun _ _)).
    rewrite <- (Hs (young_dead ar (mk_mem st)) lr). multiset_solver.
  - rewrite list_to_set_disj_nil. injection E as <- _ <-. cbn [l_first l_first_recent l_last l_last_recent l_waiting].
    rewrite !funs_app, Hn. multiset_solver.
  - rewrite list_to_set_disj_nil. injection E as <- _ <-. cbn [l_first l_first_recent l_last l_last_recent l_waiting].
    by rewrite Hn.
  - rewrite list_to_set_disj_nil. pose proof (take_call_concat w) as T. destruct (take_call w) as [[e w']|].
    + injection E as <- _ <-. cbn [l_first l_first_recent l_last l_last_recent l_waiting]. apply funs_perm in T.
      change (e :: concat w') with ([e] ++ concat w') in T. rewrite funs_app in T. rewrite !funs_app, <- T. multiset_solver.
    + injection E as <- _ <-. cbn [l_first l_first_recent l_last l_last_recent l_waiting]. cbn [concat].
      rewrite T, Hn. multiset_solver.
  - rewrite list_to_set_disj_nil. injection E as <- _ <-. by rewrite Hn.
Qed.

(** ** The tables do what the lists do *)

Context (malloc_limit : forall n, malloc_ok n = true -> n < 2 ^ 61).

#[local] Abbreviation agree := (fun x y : (_ * _) * list final => x.2 = y.2 /\ represents x.1 y.1).

Lemma skip_empty_ok todo w : Forall2 chunk_of todo w ->
  match next_call todo, take_call w with
  | Ok None, None => True
  | Ok (Some (e, todo')), Some (e', w') => e = e' /\ Forall2 chunk_of todo' w'
  | _, _ => False
  end.
Proof.
  unfold next_call. induction 1 as [|t l todo w Ht F IH]; cbn [skip_empty take_call]; [done|].
  pose proof Ht as [Es Hb (rest & Ei)]. rewrite Es. destruct (last l) as [e|] eqn:E.
  - apply last_Some in E as [l' ->]. rewrite zlen_snoc in *. pose proof (zlen_nonneg l').
    rewrite (proj2 (Z.eqb_neq _ _)) by lia. rewrite s32_id by (unfold is_s32; lia). rewrite Es, Z.add_simpl_r.
    rewrite Ei, fmap_app, <- app_assoc. cbn [fmap list_fmap app].
    replace (zlen l') with (zlen (Some <$> l')) by apply zlen_fmap. rewrite rd_mid. cbn [rbind of_option].
    split; [done|]. rewrite length_app. cbn [length]. replace (length l' + 1 - 1)%nat with (length l') by lia.
    rewrite take_app_length. constructor; [|done]. split; cbn [todo_size item]; [by rewrite zlen_fmap|lia|]. by eexists.
  - apply last_None in E as ->. rewrite zlen_nil, Z.eqb_refl. exact IH.
Qed.

Lemma add_chunk_ok todo w t l : Forall2 chunk_of todo w -> chunk_of t l -> l <> [] ->
  Forall2 chunk_of (todo ++ [t]) (add_chunk l w).
Proof.
  intros F Ht Nl. unfold add_chunk. destruct l; [done|]. apply Forall2_app; [done|]. by constructor.
Qed.

Lemma held_bound (P : fin_lists -> list final) a : (exists l k, all_held a ≡ₚ l ++ P a ++ k) -> zlen (P a) <= zlen (all_held a).
Proof.
  intros (l & k & E). apply Permutation_length in E. rewrite !length_app in E. unfold zlen. lia.
Qed.

Lemma ok_or_same {A C} (R : A -> C -> Prop) r y : ok_or caml_fatal_out_of_memory r (fun x => R x y) ->
  same_outcome R r (Ok y).
Proof. destruct r as [x|e| |]; cbn; [eauto| |done|done]. by intros ->. Qed.

Lemma register_step without fn v s a : represents s a -> op_ok (Register without fn v) a ->
  same_outcome agree (exec (Register without fn v) s) (lexec (Register without fn v) a).
Proof.
  destruct s as [fi st], a as [[f fr uf l lr ul w] st']. intros [H1 H2 H3 H4 H5] Hr. cbn in H1, H2, H3, H4, H5, Hr. subst st'.
  destruct without; cbn [exec lexec]; apply ok_or_same.
  - pose proof (generic_final_register_ok malloc_ok malloc_limit _ _ _ _ _ fn v H2 Hr) as Q.
    unfold caml_final_register_called_without_value. by destruct (generic_final_register _ _ _ _ _ _).
  - pose proof (generic_final_register_ok malloc_ok malloc_limit _ _ _ _ _ fn v H1 Hr) as Q.
    unfold caml_final_register. by destruct (generic_final_register _ _ _ _ _ _).
Qed.

Lemma unmarked_readable st e : is_Some (mk_mem st !! (f_val e - 8)) ->
  is_unmarked gs (mk_mem st) (f_val e) = Ok (unmarked_value st e).
Proof. intros H. unfold unmarked_value, is_unmarked, Has_status_val, Hd_val. by rewrite (load_word _ _ H). Qed.

Lemma update_first_step s a : represents s a -> op_ok Update_first a -> zlen (l_first a.1) + 1 < 2 ^ 31 ->
  same_outcome agree (exec Update_first s) (lexec Update_first a).
Proof.
  destruct s as [fi st], a as [[f fr uf l lr ul w] st']. intros [H1 H2 [H3 H3'] H4 H5] Hr Hl.
  cbn in H1, H2, H3, H3', H4, H5, Hr, Hl. subst st'. cbn [exec lexec]. unfold caml_final_update_first. rewrite H3.
  destruct uf; cbn [negb]; [eexists; split; [done|by split; [|split]]|].
  pose proof (generic_final_update_ok malloc_ok heap_bsize gs ar native_code is_code (unmarked_value st) fuel true (first fi) f fr
    (todo fi) (action_pending fi) st H1 Hl ltac:(intros e He; by apply unmarked_readable, Hr)) as Q. cbv zeta in Q.
  set (ds := dead_ones (unmarked_value st) f) in *. destruct (decide (ds = [])) as [E0|N0].
  - rewrite Q, E0. cbn [rbind fmap list_fmap darken_all]. eexists. split; [done|]. split; [done|]. split; cbn; try done.
    unfold alive_ones. rewrite (alive_filter _ _ E0). done.
  - destruct Q as (f' & t & Hf' & Ht & ->). destruct (malloc_ok _); [|done].
    destruct (darken_all _ _ _ _ _ _ _ _ _) as [st'| | |]; cbn [rmap rbind same_outcome]; [|by destruct e|done|done].
    eexists. split; [done|]. split; [done|]. split; cbn; try done. by apply add_chunk_ok.
Qed.

Lemma update_last_step s a : represents s a -> op_ok Update_last a -> zlen (l_last a.1) + 1 < 2 ^ 31 ->
  same_outcome agree (exec Update_last s) (lexec Update_last a).
Proof.
  destruct s as [fi st], a as [[f fr uf l lr ul w] st']. intros [H1 H2 [H3 H3'] H4 H5] Hr Hl.
  cbn in H1, H2, H3, H3', H4, H5, Hr, Hl. subst st'. cbn [exec lexec]. unfold caml_final_update_last. rewrite H3'.
  destruct ul; cbn [negb]; [eexists; split; [done|by split; [|split]]|].
  pose proof (generic_final_update_ok malloc_ok heap_bsize gs ar native_code is_code (unmarked_value st) fuel false (last_final fi) l lr
    (todo fi) (action_pending fi) st H2 Hl ltac:(intros e He; by apply unmarked_readable, Hr)) as Q. cbv zeta in Q.
  set (ds := dead_ones (unmarked_value st) l) in *. destruct (decide (ds = [])) as [E0|N0].
  - rewrite Q, E0. cbn [rbind fmap list_fmap add_chunk]. eexists. split; [done|]. split; [done|]. split; cbn; try done.
    unfold alive_ones. rewrite (alive_filter _ _ E0). done.
  - destruct Q as (f' & t & Hf' & Ht & ->). destruct (malloc_ok _); [|done].
    cbn [rmap rbind same_outcome]. eexists. split; [done|]. split; [done|]. split; cbn; try done.
    apply add_chunk_ok; [done..|]. by destruct ds.
Qed.

Lemma update_minor_step s a : represents s a -> op_ok Update_minor a -> zlen (l_last_recent a.1) + 1 < 2 ^ 31 ->
  same_outcome agree (exec Update_minor s) (lexec Update_minor a).
Proof.
  destruct s as [fi st], a as [[f fr uf l lr ul w] st']. intros [H1 H2 [H3 H3'] H4 H5] [Hr Ho] Hl.
  cbn in H1, H2, H3, H3', H4, H5, Hr, Ho, Hl. subst st'. cbn [exec lexec]. unfold caml_final_update_last_minor.
  destruct (generic_final_minor_update_ok malloc_ok ar (mk_mem st) (last_final fi) l lr (todo fi) (action_pending fi)
    H2 Hl Hr Ho) as (f' & Hf' & Q). cbv zeta in Q. fold (dead_ones (young_dead ar (mk_mem st)) lr) in Q.
  fold (alive_ones (young_dead ar (mk_mem st)) lr) in Hf'.
  set (ds := dead_ones (young_dead ar (mk_mem st)) lr) in *. destruct (decide (ds = [])) as [E0|N0].
  - rewrite Q, E0. cbn [rbind fmap list_fmap add_chunk]. eexists. split; [done|]. split; [done|]. by split.
  - destruct Q as (t & Ht & ->). destruct (malloc_ok _); [|done].
    cbn [rbind same_outcome]. eexists. split; [done|]. split; [done|]. split; cbn; try done.
    apply add_chunk_ok; [done..|]. by destruct ds.
Qed.

(** the recent entries become old *)
Lemma holds_empty_young f olds recents : holds f olds recents -> holds (set_bounds f (young f) (young f)) (olds ++ recents) [].
Proof.
  intros [Ho Hy Hs Ht]. split; cbn [set_bounds table old young fl_size]; rewrite ?zlen_app, ?zlen_nil, ?app_nil_r; [lia|lia|done|done].
Qed.

Lemma fin_step_ok op s a : represents s a -> op_ok op a -> zlen (all_held a.1) + 1 < 2 ^ 31 ->
  same_outcome agree (exec op s) (lexec op a).
Proof.
  intros R Hok Hl. destruct op as [wo fn v| | | | | | |st1].
  - by apply register_step.
  - apply update_first_step; [done..|]. assert (zlen (l_first a.1) <= zlen (all_held a.1)); [|lia].
    apply (held_bound l_first). exists [], (l_first_recent a.1 ++ l_last a.1 ++ l_last_recent a.1 ++ concat (l_waiting a.1)). done.
  - apply update_last_step; [done..|]. assert (zlen (l_last a.1) <= zlen (all_held a.1)); [|lia].
    apply (held_bound l_last). exists (l_first a.1 ++ l_first_recent a.1), (l_last_recent a.1 ++ concat (l_waiting a.1)).
    by rewrite <- app_assoc.
  - apply update_minor_step; [done..|]. assert (zlen (l_last_recent a.1) <= zlen (all_held a.1)); [|lia].
    apply (held_bound l_last_recent). exists (l_first a.1 ++ l_first_recent a.1 ++ l_last a.1), (concat (l_waiting a.1)).
    by rewrite <- !app_assoc.
  - destruct s as [fi st], a as [[f fr uf l lr ul w] st'], R as [H1 H2 H3 H4 H5]. cbn in H1, H2, H3, H4, H5. subst st'.
    cbn [exec lexec same_outcome]. eexists. split; [done|]. split; [done|].
    split; cbn; [by apply holds_empty_young|by apply holds_empty_young|done|done|done].
  - destruct s as [fi st], a as [[f fr uf l lr ul w] st'], R as [H1 H2 H3 H4 H5]. cbn in H1, H2, H3, H4, H5. subst st'.
    cbn [exec lexec same_outcome]. eexists. split; [done|]. split; [done|]. by split.
  - destruct s as [fi st], a as [[f fr uf l lr ul w] st'], R as [H1 H2 H3 H4 H5]. cbn in H1, H2, H3, H4, H5. subst st'.
    cbn [exec lexec]. pose proof (skip_empty_ok _ _ H4) as Q. destruct (next_call (todo fi)) as [[[e todo']|]| | |]; try done.
    + destruct (take_call w) as [[e' w']|]; [|done]. destruct Q as [-> Q]. cbn [rbind same_outcome].
      eexists. split; [done|]. split; [done|]. by split.
    + destruct (take_call w) as [[e' w']|]; [done|]. cbn [rbind same_outcome].
      eexists. split; [done|]. split; [done|]. by split.
  - destruct s as [fi st], a as [[f fr uf l lr ul w] st'], R as [H1 H2 H3 H4 H5]. cbn in H1, H2, H3, H4, H5. subst st'.
    cbn [exec lexec same_outcome]. eexists. split; [done|]. split; [done|]. by split.
Qed.

(** ** Runs *)

Fixpoint run_ops {A} (step : fin_op -> A -> result (A * list final)) (ops : list fin_op) (s : A)
    : result (A * list final) :=
  match ops with
  | [] => Ok (s, [])
  | op :: ops =>
      let* (s, called) := step op s in
      let* (s, called') := run_ops step ops s in Ok (s, called ++ called')
  end.

(** each operation may be used where it is *)
Fixpoint ops_ok (ops : list fin_op) (a : fin_lists * mark_state) : Prop :=
  match ops with
  | [] => True
  | op :: ops => op_ok op a /\ forall a' called, lexec op a = Ok (a', called) -> ops_ok ops a'
  end.

Lemma zlen_perm {A} (l k : list A) : l ≡ₚ k -> zlen l = zlen k.
Proof. intros E. unfold zlen. by rewrite (Permutation_length E). Qed.

Lemma run_ops_ok ops : forall s a, represents s a -> ops_ok ops a ->
  zlen (all_held a.1) + zlen (ops ≫= registered) + 1 < 2 ^ 31 ->
  same_outcome agree (run_ops exec ops s) (run_ops lexec ops a).
Proof.
  induction ops as [|op ops IH]; intros s a R Hok Hl; cbn [run_ops]; [eexists; split; [done|by split]|].
  destruct Hok as [Hop Hok]. change ((op :: ops) ≫= registered) with (registered op ++ (ops ≫= registered)) in Hl.
  rewrite zlen_app in Hl. pose proof (zlen_nonneg (registered op)). pose proof (zlen_nonneg (ops ≫= registered)).
  pose proof (fin_step_ok op s a R Hop ltac:(lia)) as Q.
  destruct (exec op s) as [[s1 c1]|e| |]; cbn [same_outcome] in Q.
  - destruct Q as ([a1 c1'] & E & [Ec R1]). cbn [snd fst] in Ec, R1. rewrite E, <- Ec. cbn [rbind].
    specialize (Hok a1 c1' E). destruct a as [a st], a1 as [a1 st1].
    pose proof (zlen_perm _ _ (lexec_conserves op a st a1 st1 c1' E)) as Lp. rewrite !zlen_app, !zlen_fmap in Lp.
    pose proof (zlen_nonneg c1'). cbn [fst] in *.
    specialize (IH s1 (a1, st1) R1 Hok ltac:(cbn [fst]; lia)).
    destruct (run_ops exec ops s1) as [[s2 c2]|e| |]; cbn [same_outcome rbind] in IH |- *.
    + destruct IH as ([a2 c2'] & -> & [Ec2 R2]). cbn [snd fst] in Ec2, R2. cbn [rbind]. eexists. split; [done|].
      split; [cbn [snd]; by rewrite Ec2|done].
    + destruct e; try done; by rewrite IH.
    + by rewrite IH.
    + by rewrite IH.
  - cbn [rbind same_outcome]. destruct e; try done; by rewrite Q.
  - by rewrite Q.
  - by rewrite Q.
Qed.

Lemma run_conserves ops : forall a st a' st' called, run_ops lexec ops (a, st) = Ok ((a', st'), called) ->
  (f_fun <$> called) ++ (f_fun <$> all_held a') ≡ₚ (ops ≫= registered) ++ (f_fun <$> all_held a).
Proof.
  induction ops as [|op ops IH]; intros a st a' st' called E; cbn [run_ops] in E; [by injection E as -> _ <-|].
  apply rbind_Ok in E as ([[a1 st1] c1] & E1 & E). apply rbind_Ok in E as ([[a2 st2] c2] & E2 & E). injection E as -> -> <-.
  apply IH in E2. apply lexec_conserves in E1. change ((op :: ops) ≫= registered) with (registered op ++ (ops ≫= registered)).
  rewrite fmap_app, <- app_assoc, E2. rewrite (Permutation_app_comm (ops ≫= registered)), !app_assoc, E1.
  rewrite <- !app_assoc. f_equiv. apply Permutation_app_comm.
Qed.
End Life.

Lemma represents_none st : represents (caml_alloc_final_info, st) (no_lists, st).
Proof.
  assert (H : holds no_finalisers [] []) by (by split).
  by split.
Qed.

(** C8: Take registrations, updates of the two collections, calls, and steps of the rest of
    the program, in any order, such that ([ops_ok]) the values can be registered, the headers
    of the values held can be read, and at each update of a minor collection, among the
    finalisers registered for the last use since the previous minor collection, no value of the
    major heap comes after one that is dead in the minor heap: in that last case the code
    loses finalisers (the next theorem).  Unless memory is missing, which is a fatal error,
    the tables and the chunks of a domain hold what
    the lists hold: the old and the recent finalisers in the order of their registration,
    without those whose value was found unmarked (or dead in the minor heap), which are in
    chunks, in the same order, with unit for the value when it may not be seen; the calls
    take the last one of the first chunk.  Each function registered has been called once or
    is still held, once. *)
Theorem finalisers_conserved malloc_ok heap_bsize gs ar native_code is_code flat_float_array fuel ops st :
  (forall n, malloc_ok n = true -> n < 2 ^ 61) ->
  ops_ok malloc_ok heap_bsize gs ar native_code is_code flat_float_array fuel ops (no_lists, st) ->
  zlen (ops ≫= registered) + 1 < 2 ^ 31 ->
  same_outcome (fun x y => x.2 = y.2 /\ represents x.1 y.1 /\
      (f_fun <$> x.2) ++ (f_fun <$> all_held y.1.1) ≡ₚ ops ≫= registered)
    (run_ops (exec malloc_ok heap_bsize gs ar native_code is_code flat_float_array fuel) ops (caml_alloc_final_info, st))
    (run_ops (lexec malloc_ok heap_bsize gs ar native_code is_code fuel) ops (no_lists, st)).
Proof.
  intros Hm Hok Hl. pose proof (run_ops_ok malloc_ok heap_bsize gs ar native_code is_code flat_float_array fuel Hm ops
    _ _ (represents_none st) Hok Hl) as Q. destruct (run_ops _ ops (caml_alloc_final_info, st)) as [[s c]|e| |]; [|exact Q..].
  destruct Q as ([[a st'] c'] & E & [Ec R]). cbn [snd fst] in Ec, R. subst c. exists ((a, st'), c'). split; [done|].
  split; [done|]. split; [done|]. cbn [snd fst]. apply run_conserves in E. by rewrite app_nil_r in E.
Qed.

(** ** An example: two values die, one of them in the minor heap, and another is copied *)

Definition fin_example_marking (m : mem) : mark_state :=
  MarkState m (MarkStack [] 2 caml_addrmap_init 0) 0 false 1 0 0.
Definition fin_example_before : mark_state := fin_example_marking
  (list_to_map [(1016, header_of 0 0 1 0); (1024, 1); (2040, header_of 0 1 1 0); (2048, 1);
    (100000, header_of 0 0 1 0); (100008, 1); (100016, header_of 0 0 1 0); (100024, 1)]).
Definition fin_example_after : mark_state := fin_example_marking
  (list_to_map [(1016, header_of 0 0 1 0); (1024, 1); (2040, header_of 0 1 1 0); (2048, 1);
    (100000, header_of 0 0 1 0); (100008, 1); (100016, 0); (100024, 2048)]).
Definition fin_example_ops : list fin_op :=
  [Register false 11 1024; Register false 12 2048; Register true 13 100008; Register true 14 100024;
   Run fin_example_after; Update_minor; Empty_young; Update_first; Next_call; Update_last; Next_call].

Lemma fin_example_ops_ok :
  ops_ok (fun n => n <? 2 ^ 40) 1000 (HeapState 256 0 512) (MinorArea 100000 200000) true (fun _ => false) true 3
    fin_example_ops (no_lists, fin_example_before).
Proof.
  unfold fin_example_ops. cbn [ops_ok].
  do 4 (split; [split; [done|]; split; [by eexists|]; by vm_compute|]; intros a c E; vm_compute in E; injection E as <- <-).
  split; [done|]. intros a c E. vm_compute in E. injection E as <- <-.
  split.
  { split.
    - apply Forall_cons. split; [intros _; split; [by vm_compute|by eexists]|].
      apply Forall_cons. split; [intros _; split; [by vm_compute|by eexists]|constructor].
    - split; [intros _; by repeat constructor|]. split; [intros _; constructor|done]. }
  intros a c E. vm_compute in E. injection E as <- <-.
  split; [done|]. intros a c E. vm_compute in E. injection E as <- <-.
  split.
  { intros e [->|[->|[]%elem_of_nil]%elem_of_cons]%elem_of_cons; by eexists. }
  intros a c E. vm_compute in E. injection E as <- <-.
  split; [done|]. intros a c E. vm_compute in E. injection E as <- <-.
  split.
  { intros e [->|[]%elem_of_nil]%elem_of_cons; by eexists. }
  intros a c E. vm_compute in E. injection E as <- <-.
  split; done.
Qed.

Lemma finalisers_conserved_witness :
  let step := exec (fun n => n <? 2 ^ 40) 1000 (HeapState 256 0 512) (MinorArea 100000 200000) true (fun _ => false) true 3 in
  rmap snd (run_ops step fin_example_ops (caml_alloc_final_info, fin_example_before)) =
    Ok [Final 13 Val_unit 0; Final 11 1024 0] /\
  same_outcome (fun x y => x.2 = y.2 /\ represents x.1 y.1 /\
      (f_fun <$> x.2) ++ (f_fun <$> all_held y.1.1) ≡ₚ fin_example_ops ≫= registered)
    (run_ops step fin_example_ops (caml_alloc_final_info, fin_example_before))
    (run_ops (lexec (fun n => n <? 2 ^ 40) 1000 (HeapState 256 0 512) (MinorArea 100000 200000) true (fun _ => false) 3)
       fin_example_ops (no_lists, fin_example_before)).
Proof.
  intros step. split; [by vm_compute|].
  apply (finalisers_conserved (fun n => n <? 2 ^ 40) 1000 (HeapState 256 0 512) (MinorArea 100000 200000) true
    (fun _ => false) true 3 fin_example_ops fin_example_before).
  - intros n Hn. apply Z.ltb_lt in Hn. lia.
  - exact fin_example_ops_ok.
  - by vm_compute.
Defined.

(** C24: the update of a minor collection tests the address of the entry that it is about to
    overwrite: after a dead value, the following values with a header, those of the major
    heap too, are taken as dead.  When there is one of the major heap, its finaliser leaves
    the table without being in the chunk; when there are more, the chunk is overrun. *)
Theorem minor_update_loses_finalisers malloc_ok ar m f olds d l ts pending :
  holds f olds (d :: l) -> young_dead ar m d = true -> zlen (d :: l) < 2 ^ 31 - 1 ->
  (forall e, e ∈ d :: l -> let hd := u64 (word m (f_val e - 8)) in get_header_val m (f_val e) = Ok hd /\ hd <> 0) ->
  (forall e, e ∈ d :: l -> young_value ar e = true -> is_Some (m !! f_val e)) ->
  let dead := zlen (dead_ones (young_dead ar m) (d :: l)) in
  malloc_ok (sizeof_final_todo + dead * sizeof_final) = true ->
  let r := generic_final_minor_update malloc_ok ar f ts pending m in
  if zlen (d :: l) <=? dead + 1 then
    exists f' t, r = Ok (f', ts ++ [t], true) /\ holds f' olds [] /\
      todo_size t = dead /\ exists rest, item t = (Some <$> (without_value <$> d :: l)) ++ rest
  else r = Undef.
Proof.
  intros Hf Dd Hl Hh Hr. apply (minor_update_after_dead malloc_ok ar m f olds d l ts pending Hf Dd Hl); [| |exact Hr].
  - intros e He. destruct (Hh e He) as [E N]. by eexists.
  - intros e He. by destruct (Hh e He) as [E _].
Qed.

(** a dead young value, then a value of the major heap, or two *)
Lemma minor_update_loses_finalisers_witness :
  let m := list_to_map [(1016, header_of 0 0 1 0); (1024, 1); (100000, header_of 0 0 1 0); (100008, 1)] : mem in
  let ar := MinorArea 100000 200000 in
  let f n := Finalisable (Some ((Some <$> [Final 1 100008 0; Final 2 1024 0; Final 3 1024 0]) ++ [None])) 0 n 4 in
  (exists f' t, generic_final_minor_update (fun _ => true) ar (f 2) [] false m = Ok (f', [t], true) /\
     holds f' [] [] /\ todo_size t = 1 /\
     exists rest, item t = [Some (Final 1 Val_unit 0); Some (Final 2 Val_unit 0)] ++ rest) /\
  generic_final_minor_update (fun _ => true) ar (f 3) [] false m = Undef.
Proof.
  intros m ar f. split.
  - refine (minor_update_loses_finalisers (fun _ => true) ar m (f 2) [] (Final 1 100008 0) [Final 2 1024 0] [] false
      _ _ _ _ _ _); [|done|done| | |done].
    + split; [done|done|done|]. split; [done|]. split; [done|]. by exists [Some (Final 3 1024 0); None].
    + intros e [->|[->|[]%elem_of_nil]%elem_of_cons]%elem_of_cons; by vm_compute.
    + intros e [->|[->|[]%elem_of_nil]%elem_of_cons]%elem_of_cons Y; by vm_compute in Y || by eexists.
  - by vm_compute.
Defined.
