(* ===== verification/Hash.v ===== *)
(** * Generic hashing ([ocaml/runtime/hash.c])

    [caml_hash_exn] traverses a value breadth-first with a queue of at most 256
    values and mixes what it meets into a 32-bit state (MurmurHash 3).  The queue
    is the list of the values written so far; the position [wr] is its length.
    Floats are the 64-bit integers of their representation.  The hash functions of
    custom blocks are code outside the model: [custom_hash] gives the function of
    an operations pointer, if it has one. *)

From S2P Require Import Prelude.
From S2P Require Import Mlvalues.
From S2P Require Import Str.
From S2P Require Import Ints.
From S2P Require Import Memory.
#[local] Open Scope Z_scope.

(** ** Mixing *)

Definition ROTL32 (x n : Z) : Z := Z.lor (u32 (Z.shiftl x n)) (Z.shiftr x (32 - n)).

Definition MIX (h d : Z) : Z :=
  let d := u32 (d * 0xcc9e2d51) in
  let d := ROTL32 d 15 in
  let d := u32 (d * 0x1b873593) in
  let h := Z.lxor h d in
  let h := ROTL32 h 13 in
  u32 (h * 5 + 0xe6546b64).

Definition FINAL_MIX (h : Z) : Z :=
  let h := Z.lxor h (Z.shiftr h 16) in
  let h := u32 (h * 0x85ebca6b) in
  let h := Z.lxor h (Z.shiftr h 13) in
  let h := u32 (h * 0xc2b2ae35) in
  Z.lxor h (Z.shiftr h 16).

Definition caml_hash_mix_uint32 (h d : Z) : Z := MIX h d.

Definition caml_hash_mix_intnat (h d : Z) : Z :=
  let n := u32 (Z.lxor (Z.lxor (Z.shiftr d 32) (Z.shiftr d 63)) d) in
  MIX h n.

Definition caml_hash_mix_int64 (h d : Z) : Z :=
  let hi := u32 (Z.shiftr d 32) in
  let lo := u32 d in
  MIX (MIX h lo) hi.

(** the halves mixed for a double, as [(h, l)]; [bits] are its 64 bits *)
Definition normalize_double (bits : Z) : Z * Z :=
  let h := u32 (Z.shiftr bits 32) in
  let l := u32 bits in
  if (Z.land h 0x7FF00000 =? 0x7FF00000) && negb (Z.lor l (Z.land h 0xFFFFF) =? 0)
  then (0x7FF00000, 0x00000001)
  else if (h =? 0x80000000) && (l =? 0) then (0, l)
  else (h, l).

Definition caml_hash_mix_double (hash bits : Z) : Z :=
  let (h, l) := normalize_double bits in
  MIX (MIX hash l) h.

Definition normalize_float (n : Z) : Z :=
  if (Z.land n 0x7F800000 =? 0x7F800000) && negb (Z.land n 0x007FFFFF =? 0) then 0x7F800001
  else if n =? 0x80000000 then 0 else n.

Definition caml_hash_mix_float (hash bits : Z) : Z := MIX hash (normalize_float (u32 bits)).

(** the 32-bit blocks of a string from position [i], then [(h, i)] *)
Fixpoint mix_blocks (fuel : nat) (h : Z) (s : list Z) (i len : Z) : result (Z * Z) :=
  match fuel with
  | O => NoFuel
  | S fuel =>
      if i + 4 <=? len then
        let* w := rmap le_word (slice s i 4) in
        mix_blocks fuel (MIX h w) s (i + 4) len
      else Ok (h, i)
  end.

Definition caml_hash_mix_string (h : Z) (s : list Z) : result Z :=
  let* len := caml_string_length s in
  let* (h, i) := mix_blocks (S (length s)) h s 0 len in
  let w := 0 in
  let* h :=
    (let r := Z.land len 3 in
     if r =? 3 then
       let* b2 := rd s (i + 2) in
       let w := Z.shiftl b2 16 in
       let* b1 := rd s (i + 1) in
       let w := Z.lor w (Z.shiftl b1 8) in
       let* b0 := rd s i in
       Ok (MIX h (Z.lor w b0))
     else if r =? 2 then
       let* b1 := rd s (i + 1) in
       let w := Z.lor w (Z.shiftl b1 8) in
       let* b0 := rd s i in
       Ok (MIX h (Z.lor w b0))
     else if r =? 1 then
       let* b0 := rd s i in
       Ok (MIX h (Z.lor w b0))
     else Ok h) in
  Ok (Z.lxor h (u32 len)).

Definition caml_string_hash (seed : Z) (s : list Z) : result Z :=
  let h := u32 (Int_val seed) in
  let* h := caml_hash_mix_string h s in
  Ok (Val_int (Z.land (FINAL_MIX h) 0x3FFFFFFF)).

(** ** The generic hash function *)

Definition HASH_QUEUE_SIZE : Z := 256.
Definition MAX_FORWARD_DEREFERENCE : nat := 1000.

Record hash_state := HashState {
  queue : list Z;      (* queue[0], ..., queue[wr - 1] *)
  q_rd : Z;
  h_num : Z;
  h_val : Z }.

Definition set_h (st : hash_state) (num h : Z) : hash_state :=
  HashState (queue st) (q_rd st) num h.

(** queue[wr++] = v *)
Definition enqueue (st : hash_state) (v : Z) : result hash_state :=
  if HASH_QUEUE_SIZE <=? zlen (queue st) then Undef
  else Ok (HashState (queue st ++ [v]) (q_rd st) (h_num st) (h_val st)).

(** the floats of a double array, stopping when [num] is exhausted *)
Fixpoint mix_doubles (n : nat) (m : mem) (v i : Z) (st : hash_state) : result hash_state :=
  match n with
  | O => Ok st
  | S n =>
      let* d := Double_flat_field m v i in
      let st := set_h st (h_num st - 1) (caml_hash_mix_double (h_val st) d) in
      if h_num st <=? 0 then Ok st else mix_doubles n m v (i + 1) st
  end.

(** the code pointers and information words of a closure *)
Fixpoint mix_words (n : nat) (m : mem) (v i : Z) (st : hash_state) : result hash_state :=
  match n with
  | O => Ok st
  | S n =>
      let* x := Field m v i in
      mix_words n m v (i + 1) (set_h st (h_num st - 1) (caml_hash_mix_intnat (h_val st) x))
  end.

(** copies [n] fields from [i] into the queue, up to [sz] values in the queue *)
Fixpoint enqueue_fields (n : nat) (m : mem) (v i sz : Z) (st : hash_state) : result hash_state :=
  match n with
  | O => Ok st
  | S n =>
      if sz <=? zlen (queue st) then Ok st
      else
        let* x := Field m v i in
        let* st := enqueue st x in
        enqueue_fields n m v (i + 1) sz st
  end.

(** follows at most [n] [Forward_tag] links from a [Forward_tag] block;
    [None] when the limit is reached *)
Fixpoint forward_chain (n : nat) (m : mem) (v : Z) : result (option Z) :=
  match n with
  | O => Ok None
  | S n =>
      let* v := Forward_val m v in
      if Is_long v then Ok (Some v)
      else let* t := Tag_val m v in
        if t =? Forward_tag then forward_chain n m v else Ok (Some v)
  end.

Section Hash.
Context (custom_hash : Z -> option (mem -> Z -> Z)).

(** the body of the traversal from the label [again]; [fuel] bounds the number of
    jumps back to it *)
Fixpoint hash_again (fuel : nat) (m : mem) (sz : Z) (st : hash_state) (v : Z)
    : result hash_state :=
  match fuel with
  | O => NoFuel
  | S fuel =>
      if Is_long v then Ok (set_h st (h_num st - 1) (caml_hash_mix_intnat (h_val st) v)) else
      let* tag := Tag_val m v in
      if tag =? String_tag then
        let* s := block_bytes m v in
        let* h := caml_hash_mix_string (h_val st) s in
        Ok (set_h st (h_num st - 1) h)
      else if tag =? Double_tag then
        let* d := Double_flat_field m v 0 in
        Ok (set_h st (h_num st - 1) (caml_hash_mix_double (h_val st) d))
      else if tag =? Double_array_tag then
        let* len := Wosize_val m v in
        mix_doubles (Z.to_nat len) m v 0 st
      else if tag =? Abstract_tag then Ok st
      else if tag =? Infix_tag then
        let* ofs := Infix_offset_val m v in
        hash_again fuel m sz (set_h st (h_num st) (caml_hash_mix_uint32 (h_val st) (u32 ofs)))
          (v - ofs)
      else if tag =? Forward_tag then
        let* r := forward_chain MAX_FORWARD_DEREFERENCE m v in
        match r with
        | Some v => hash_again fuel m sz st v
        | None => Ok st
        end
      else if tag =? Object_tag then
        let* oid := Oid_val m v in
        Ok (set_h st (h_num st - 1) (caml_hash_mix_intnat (h_val st) oid))
      else if tag =? Custom_tag then
        let* ops := Field m v 0 in
        match custom_hash ops with
        | Some hash =>
            let n := u32 (hash m v) in
            Ok (set_h st (h_num st - 1) (caml_hash_mix_uint32 (h_val st) n))
        | None => Ok st
        end
      else if tag =? Closure_tag then
        let* len := Wosize_val m v in
        let* info := Closinfo_val m v in
        let startenv := Start_env_closinfo info in
        let* hd := Hd_val m v in
        let st := set_h st (h_num st) (caml_hash_mix_uint32 (h_val st) (u32 (Cleanhd_hd hd))) in
        let* st := mix_words (Z.to_nat startenv) m v 0 st in
        enqueue_fields (Z.to_nat (len - startenv)) m v startenv sz st
      else if tag =? Cont_tag then Ok st
      else
        let* res := Reserved_val m v in
        if Is_mixed_block_reserved res then Raise (Invalid_argument "hash: mixed block value")
        else
        let* hd := Hd_val m v in
        let st := set_h st (h_num st) (caml_hash_mix_uint32 (h_val st) (u32 (Cleanhd_hd hd))) in
        let* len := Wosize_val m v in
        enqueue_fields (Z.to_nat len) m v 0 sz st
  end.

Definition hash_cond (st : hash_state) : bool :=
  (q_rd st <? zlen (queue st)) && (0 <? h_num st).

Definition hash_step (m : mem) (sz : Z) (st : hash_state) : result hash_state :=
  let* v := rd (queue st) (q_rd st) in
  hash_again 4 m sz (HashState (queue st) (q_rd st + 1) (h_num st) (h_val st)) v.

Definition caml_hash_exn (m : mem) (count limit seed obj : Z) : result Z :=
  let sz := Long_val limit in
  let sz := if (sz <? 0) || (HASH_QUEUE_SIZE <? sz) then HASH_QUEUE_SIZE else sz in
  let num := Long_val count in
  let h := u32 (Int_val seed) in
  let* st := while_loop 300 hash_cond (hash_step m sz) (HashState [obj] 0 num h) in
  Ok (Val_int (Z.land (FINAL_MIX (h_val st)) 0x3FFFFFFF)).

End Hash.

(** ** Variant tags *)

Fixpoint hash_variant_loop (accu : Z) (tag : list Z) {struct tag} : result Z :=
  match tag with
  | [] => Undef
  | c :: tag =>
      if c =? 0 then Ok accu
      else hash_variant_loop (Val_int (s32 (s32 (223 * Int_val accu) + c))) tag
  end.

(** [tag] is the NUL-terminated name *)
Definition caml_hash_variant (tag : list Z) : result Z :=
  let* accu := hash_variant_loop (Val_int 0) tag in
  let accu := Z.land accu (Val_long 0x7FFFFFFF) in
  Ok (s32 accu).

(** ** Strings *)

(** MurmurHash 3 on a byte sequence: 32-bit little-endian words, then the bytes
    that remain as one word, then the length *)
Fixpoint murmur_bytes (h : Z) (s : list Z) : Z :=
  match s with
  | [] => h
  | a :: b :: c :: d :: s => murmur_bytes (MIX h (le_word [a; b; c; d])) s
  | s => MIX h (le_word s)
  end.

Definition murmur (h : Z) (s : list Z) : Z := Z.lxor (murmur_bytes h s) (u32 (zlen s)).

Lemma murmur_bytes_4 h w s : length w = 4%nat -> murmur_bytes h (w ++ s) = murmur_bytes (MIX h (le_word w)) s.
Proof. by destruct w as [|a [|b [|c [|d [|e w]]]]]. Qed.

Lemma mix_blocks_correct blk fuel : forall h pre s,
  string_block blk (pre ++ s) -> (length s < 4 * fuel)%nat ->
  exists h' pre' s', pre ++ s = pre' ++ s' /\ (length s' < 4)%nat /\
    mix_blocks fuel h blk (zlen pre) (zlen (pre ++ s)) = Ok (h', zlen pre') /\
    murmur_bytes h s = murmur_bytes h' s' /\ zlen s' = (zlen s) mod 4.
Proof.
  induction fuel as [|fuel IH]; intros h pre s Hb Hf; [lia|]. cbn [mix_blocks].
  rewrite zlen_app. destruct (Z.leb_spec (zlen pre + 4) (zlen pre + zlen s)) as [L|L].
  - pose proof (zlen_nonneg pre). rewrite (slice_block _ _ _ _ Hb) by (rewrite ?zlen_app; lia).
    unfold rmap. cbn [rbind].
    assert (Ed : drop (Z.to_nat (zlen pre)) (pre ++ s) = s).
    { unfold zlen. by rewrite Nat2Z.id, drop_app_length. }
    rewrite Ed. change (Z.to_nat 4) with 4%nat.
    assert (Hw : length (take 4 s) = 4%nat) by (rewrite length_take; unfold zlen in L; lia).
    pose proof (eq_sym (take_drop 4 s)) as Es. revert Hw Es.
    generalize (take 4 s), (drop 4 s). intros w r Hw Es.
    assert (Hr : zlen r = zlen s - 4) by (rewrite Es, zlen_app; unfold zlen at 2; rewrite Hw; lia).
    assert (Hb' : string_block blk ((pre ++ w) ++ r)) by by rewrite <- app_assoc, <- Es.
    destruct (IH (MIX h (le_word w)) (pre ++ w) r Hb') as (h' & pre' & s' & E1 & E2 & E3 & E4 & E5).
    { unfold zlen in Hr. lia. }
    exists h', pre', s'. rewrite <- app_assoc, <- Es in E1. rewrite <- app_assoc, <- Es in E3.
    split_and!; [done|done| | |].
    + rewrite <- E3, !zlen_app. do 2 f_equal. unfold zlen. rewrite Hw. lia.
    + rewrite <- E4, Es. by apply murmur_bytes_4.
    + rewrite E5, Hr. zlia.
  - exists h, pre, s. split_and!; try done; [unfold zlen in *; lia|].
    symmetry. apply Z.mod_small. pose proof (zlen_nonneg s). lia.
Qed.

Lemma land_3 x : Z.land x 3 = x mod 4.
Proof. change 3 with (Z.ones 2). by rewrite Z.land_ones by lia. Qed.

Lemma lor_byte_hi a b k : 0 <= a < 2 ^ k -> 0 <= k -> Z.lor (Z.shiftl b k) a = a + 2 ^ k * b.
Proof.
  intros Ha Hk. rewrite Z.shiftl_mul_pow2 by done. rewrite (lor_add _ _ k); [lia|lia| |lia].
  rewrite Z.div_mul by lia. done.
Qed.

Lemma caml_hash_mix_string_correct blk s h :
  string_block blk s -> caml_hash_mix_string h blk = Ok (murmur h s).
Proof.
  intros Hb. unfold caml_hash_mix_string, murmur. rewrite (caml_string_length_block _ _ Hb).
  cbn [rbind].
  destruct (mix_blocks_correct blk (S (length blk)) h [] s Hb) as (h' & pre & s' & E1 & E2 & E3 & E4 & E5).
  { destruct Hb as [_ ->]. rewrite length_app. lia. }
  change (zlen []) with 0 in E3. change ([] ++ s) with s in E1, E3. rewrite E3, E4, land_3, <- E5. cbn [rbind].
  assert (B : is_bytes s') by (destruct Hb as [B _]; rewrite E1 in B; apply Forall_app in B; apply B).
  clear E3 E4. rewrite E1 in Hb.
  assert (R : forall k, 0 <= k < zlen s' -> rd blk (zlen pre + k) = Ok (zget s' k)).
  { intros k Hk. rewrite (string_block_rd _ _ _ Hb) by
      (pose proof (zlen_nonneg pre); rewrite zlen_app; lia).
    f_equal. unfold zget, zlen. rewrite !nth_lookup, lookup_app_r by lia.
    by replace (Z.to_nat _ - _)%nat with (Z.to_nat k) by lia. }
  assert (R0 : 0 < zlen s' -> rd blk (zlen pre) = Ok (zget s' 0)).
  { intros. replace (zlen pre) with (zlen pre + 0) by lia. apply R. lia. }
  unfold is_bytes, is_u8 in B.
  destruct s' as [|a [|b [|c [|d s']]]]; [| | | |simpl in E2; lia].
  - done.
  - change (zlen [a]) with 1 in *. cbn [rbind Z.eqb Pos.eqb]. rewrite R0 by lia. cbn [rbind].
    change (zget [a] 0) with a. rewrite Z.lor_0_l. cbn [murmur_bytes le_word].
    by replace (a + 256 * 0) with a by lia.
  - change (zlen [a; b]) with 2 in *. cbn [rbind Z.eqb Pos.eqb].
    rewrite R, R0 by lia. cbn [rbind].
    rewrite !Forall_cons in B. destruct B as (Ba & Bb & _).
    change (zget [a; b] 1) with b. change (zget [a; b] 0) with a.
    rewrite Z.lor_0_l, lor_byte_hi by lia. cbn [murmur_bytes le_word].
    by replace (a + 256 * (b + 256 * 0)) with (a + 2 ^ 8 * b) by lia.
  - change (zlen [a; b; c]) with 3 in *. cbn [rbind Z.eqb Pos.eqb].
    rewrite !R, R0 by lia. cbn [rbind].
    rewrite !Forall_cons in B. destruct B as (Ba & Bb & Bc & _).
    change (zget [a; b; c] 2) with c. change (zget [a; b; c] 1) with b.
    change (zget [a; b; c] 0) with a. rewrite <- Z.lor_assoc, (lor_byte_hi a b 8) by lia.
    rewrite lor_byte_hi by lia. cbn [murmur_bytes le_word].
    by replace (a + 256 * (b + 256 * (c + 256 * 0))) with (a + 2 ^ 8 * b + 2 ^ 16 * c) by lia.
Qed.

(** ** Floats and integers *)

(** the class of a double as [Stdlib.compare] sees it: NaNs together, zeros together *)
Definition is_nan (bits : Z) : bool :=
  (Z.land (u32 (Z.shiftr bits 32)) 0x7FF00000 =? 0x7FF00000)
  && negb (Z.lor (u32 bits) (Z.land (u32 (Z.shiftr bits 32)) 0xFFFFF) =? 0).
Definition is_zero (bits : Z) : bool := (bits =? 0) || (bits =? 2 ^ 63).

Lemma halves_inj a b :
  is_u64 a -> is_u64 b -> u32 (Z.shiftr a 32) = u32 (Z.shiftr b 32) -> u32 a = u32 b -> a = b.
Proof. intros Ha Hb. rewrite !Z.shiftr_div_pow2 by lia. solve_word. Qed.

Lemma is_zero_halves a :
  is_u64 a -> is_zero a = ((u32 (Z.shiftr a 32) =? 0) || (u32 (Z.shiftr a 32) =? 0x80000000)) && (u32 a =? 0).
Proof.
  intros Ha. unfold is_zero. rewrite Z.shiftr_div_pow2 by lia.
  destruct (Z.eqb_spec a 0), (Z.eqb_spec a (2 ^ 63)), (Z.eqb_spec (u32 (a / 2 ^ 32)) 0),
    (Z.eqb_spec (u32 (a / 2 ^ 32)) 0x80000000), (Z.eqb_spec (u32 a) 0); try done;
    exfalso; solve_word.
Qed.

(** the halves that are mixed identify exactly the NaNs and the zeros *)
Lemma normalize_double_eq a b :
  is_u64 a -> is_u64 b ->
  normalize_double a = normalize_double b <->
    (is_nan a = true /\ is_nan b = true) \/ (is_zero a = true /\ is_zero b = true) \/ a = b.
Proof.
  intros Ha Hb. pose proof (halves_inj a b Ha Hb) as Inj.
  rewrite (is_zero_halves a Ha), (is_zero_halves b Hb).
  unfold normalize_double, is_nan. cbv zeta.
  assert (E : a = b -> u32 (Z.shiftr a 32) = u32 (Z.shiftr b 32) /\ u32 a = u32 b) by (by intros ->).
  revert Inj E. generalize (u32 (Z.shiftr a 32)), (u32 a), (u32 (Z.shiftr b 32)), (u32 b).
  intros ha la hb lb Inj E.
  set (nan h l := (Z.land h 0x7FF00000 =? 0x7FF00000) && negb (Z.lor l (Z.land h 0xFFFFF) =? 0)).
  change ((Z.land ha _ =? _) && _) with (nan ha la). change ((Z.land hb _ =? _) && _) with (nan hb lb).
  assert (N1 : nan 0x7FF00000 1 = true) by reflexivity.
  assert (N2 : forall l, l = 0 -> nan 0 l = false /\ nan 0x80000000 l = false) by (by intros ? ->).
  clearbody nan.
  destruct (nan ha la) eqn:Na, (nan hb lb) eqn:Nb.
  - tauto.
  - split.
    + destruct (_ && _) eqn:Z; [done|]. intros [= <- <-]. congruence.
    + intros [[_ ?]|[[Z _]|E']]; [done| |destruct (E E'); congruence].
      apply andb_true_iff in Z as [[->%Z.eqb_eq | ->%Z.eqb_eq]%orb_true_iff ->%Z.eqb_eq];
        destruct (N2 0 eq_refl); congruence.
  - split.
    + destruct (_ && _) eqn:Z; [done|]. intros [= -> ->]. congruence.
    + intros [[? _]|[[_ Z]|E']]; [done| |destruct (E E'); congruence].
      apply andb_true_iff in Z as [[->%Z.eqb_eq | ->%Z.eqb_eq]%orb_true_iff ->%Z.eqb_eq];
        destruct (N2 0 eq_refl); congruence.
  - clear N1 N2 Na Nb.
    destruct (Z.eqb_spec ha 0x80000000), (Z.eqb_spec la 0), (Z.eqb_spec hb 0x80000000),
      (Z.eqb_spec lb 0), (Z.eqb_spec ha 0), (Z.eqb_spec hb 0); subst; simpl; try congruence;
      (split; [intros E2; simplify_eq; try congruence; try lia; auto
              |intros [[? ?]|[[? ?]|E']]; try congruence; try done;
               destruct (E E'); congruence]).
Qed.

(** 32/64-bit compatibility of integer hashing *)
Lemma mix_intnat_s32 h d : is_s32 d -> caml_hash_mix_intnat h d = caml_hash_mix_uint32 h (u32 d).
Proof.
  intros Hd. unfold caml_hash_mix_intnat, caml_hash_mix_uint32.
  assert (E : Z.shiftr d 32 = Z.shiftr d 63).
  { rewrite !Z.shiftr_div_pow2 by lia. unfold is_s32 in Hd. zlia. }
  by rewrite E, Z.lxor_nilpotent, Z.lxor_0_l.
Qed.

(** What hashing identifies: strings hash by their contents alone, as
    MurmurHash 3 of their bytes; an integer that fits 32 bits mixes as these 32
    bits, so that it hashes alike on 32-bit platforms, and [nativeint] values
    likewise; doubles mix alike when both are NaN or both are zero, and the two
    words that are mixed differ for all other pairs of doubles. *)
Theorem hash_identifications :
  (forall blk s h, string_block blk s -> caml_hash_mix_string h blk = Ok (murmur h s)) /\
  (forall h d, is_s32 d -> caml_hash_mix_intnat h d = caml_hash_mix_uint32 h (u32 d)) /\
  (forall n, is_s32 n -> u32 (nativeint_hash n) = u32 (int32_hash n)) /\
  (forall a b, is_u64 a -> is_u64 b ->
     (normalize_double a = normalize_double b <->
      (is_nan a = true /\ is_nan b = true) \/ (is_zero a = true /\ is_zero b = true) \/ a = b)) /\
  (forall h a b, normalize_double a = normalize_double b ->
     caml_hash_mix_double h a = caml_hash_mix_double h b).
Proof.
  split_and!.
  - intros. by apply caml_hash_mix_string_correct.
  - intros. by apply mix_intnat_s32.
  - intros n Hn. unfold nativeint_hash, int32_hash.
    assert (E : Z.shiftr n 32 = Z.shiftr n 63).
    { rewrite !Z.shiftr_div_pow2 by lia. unfold is_s32 in Hn. zlia. }
    by rewrite E, Z.lxor_nilpotent, Z.lxor_0_l.
  - apply normalize_double_eq.
  - intros h a b E. unfold caml_hash_mix_double. by rewrite E.
Qed.

Lemma hash_identifications_witness :
  caml_hash_mix_string 0 block_abc = Ok (murmur 0 [97; 98; 99]) /\
  caml_hash_mix_double 5 0 = caml_hash_mix_double 5 (2 ^ 63).
Proof.
  split; [apply hash_identifications, block_abc_ok|].
  apply hash_identifications. reflexivity.
Defined.

(** ** Variant tags *)

(** [hash_variant] of the type checker ([ocaml/typing/btype.ml]) *)
Definition compiler_hash_variant (s : list Z) : Z :=
  let accu := foldl (fun accu c => s63 (s63 (223 * accu) + c)) 0 s in
  let accu := Z.land accu (Z.shiftl 1 31 - 1) in
  if 0x3FFFFFFF <? accu then accu - Z.shiftl 1 31 else accu.

Lemma hash_variant_loop_correct s : forall x y rest,
  is_bytes s -> 0 ∉ s -> is_s32 x -> x mod 2 ^ 31 = y mod 2 ^ 31 ->
  exists x', hash_variant_loop (Val_int x) (s ++ 0 :: rest) = Ok (Val_int x') /\ is_s32 x' /\
    x' mod 2 ^ 31 = foldl (fun accu c => s63 (s63 (223 * accu) + c)) y s mod 2 ^ 31.
Proof.
  induction s as [|c s IH]; intros x y rest Hs H0 Hx Hm; cbn [app hash_variant_loop foldl].
  - exists x. done.
  - apply Forall_cons in Hs as [Hc Hs]. rewrite not_elem_of_cons in H0. destruct H0 as [N0 H0].
    rewrite (proj2 (Z.eqb_neq c 0)) by done. rewrite Int_val_int by done.
    apply IH; [done|done|auto with word|]. clear IH. solve_word.
Qed.

(** The run-time hash of a variant tag is the one the compiler computes. *)
Theorem caml_hash_variant_correct s rest :
  is_bytes s -> 0 ∉ s ->
  caml_hash_variant (s ++ 0 :: rest) = Ok (Val_int (compiler_hash_variant s)).
Proof.
  intros Hs H0. unfold caml_hash_variant, compiler_hash_variant.
  destruct (hash_variant_loop_correct s 0 0 rest) as (x & -> & Hx & E); try done.
  cbn [rbind]. cbv zeta. revert E. generalize (foldl (fun accu c => s63 (s63 (223 * accu) + c)) 0 s).
  intros y E. f_equal. change (Z.shiftl 1 31) with (2 ^ 31). change (2 ^ 31 - 1) with (Z.ones 31).
  change (Val_long 0x7FFFFFFF) with (Z.ones 32). rewrite !Z.land_ones by lia.
  rewrite <- E. unfold Val_int. rewrite Val_long_s63 by (revert Hx; unfold is_s32, is_s63; lia).
  assert (Hm : 0 <= x mod 2 ^ 31 < 2 ^ 31) by (apply Z.mod_pos_bound; lia).
  rewrite Val_long_s63 by (unfold is_s63; case_match; lia).
  clear E. revert Hm Hx. zcases; solve_word.
Qed.

Lemma caml_hash_variant_witness :
  caml_hash_variant ([70; 111; 111] ++ 0 :: []) = Ok (Val_int 3505894).
Proof.
  apply (caml_hash_variant_correct [70; 111; 111] []).
  - repeat constructor; unfold is_u8; lia.
  - rewrite !elem_of_cons, elem_of_nil. lia.
Defined.

(** ** The loops over the fields of a block *)

Lemma drop_zget (fs : list Z) i :
  0 <= i < zlen fs -> drop (Z.to_nat i) fs = zget fs i :: drop (Z.to_nat (i + 1)) fs.
Proof.
  intros Hi. pose proof (rd_zget fs i Hi) as R. apply rd_Ok in R as [_ R].
  rewrite (drop_S _ _ _ R). by replace (Z.to_nat (i + 1)) with (S (Z.to_nat i)) by lia.
Qed.

Section Loops.
Context {m : mem} {v hd : Z} {fs : list Z} (B : block_at m v hd fs).

Lemma enqueue_fields_eq sz n : forall i st,
  0 <= i -> i + Z.of_nat n = zlen fs -> sz <= HASH_QUEUE_SIZE ->
  enqueue_fields n m v i sz st =
    Ok (HashState (queue st ++ take (Z.to_nat sz - length (queue st)) (drop (Z.to_nat i) fs))
          (q_rd st) (h_num st) (h_val st)).
Proof.
  induction n as [|n IH]; intros i st Hi Hn Hsz; cbn [enqueue_fields].
  - rewrite drop_ge by (unfold zlen in Hn; lia). rewrite take_nil, app_nil_r. by destruct st.
  - destruct (Z.leb_spec sz (zlen (queue st))) as [L|L].
    + replace (Z.to_nat sz - length (queue st))%nat with 0%nat by (unfold zlen in L; lia).
      rewrite take_0, app_nil_r. by destruct st.
    + rewrite (block_at_Field B) by lia. cbn [rbind]. unfold enqueue.
      rewrite (proj2 (Z.leb_gt _ _)) by lia. cbn [rbind].
      rewrite IH by lia. cbn [queue q_rd h_num h_val]. do 2 f_equal.
      rewrite (drop_zget fs i), length_app by lia.
      replace (Z.to_nat sz - length (queue st))%nat
        with (S (Z.to_nat sz - (length (queue st) + length [zget fs i])))%nat
        by (simpl length; unfold zlen in L; lia).
      cbn [take]. by rewrite <- app_assoc.
Qed.

Lemma mix_words_eq n : forall i st,
  0 <= i -> i + Z.of_nat n <= zlen fs ->
  mix_words n m v i st =
    Ok (set_h st (h_num st - Z.of_nat n)
          (foldl caml_hash_mix_intnat (h_val st) (take n (drop (Z.to_nat i) fs)))).
Proof.
  induction n as [|n IH]; intros i st Hi Hn; cbn [mix_words].
  - rewrite take_0. unfold set_h. rewrite Z.sub_0_r. by destruct st.
  - rewrite (block_at_Field B) by lia. cbn [rbind]. rewrite IH by lia.
    rewrite (drop_zget fs i) by lia. cbn [take foldl set_h queue q_rd h_num h_val].
    by replace (h_num st - 1 - Z.of_nat n) with (h_num st - Z.of_nat (S n)) by lia.
Qed.

(** the number of floats left to count and the hash, after the floats [ds] *)
Fixpoint mix_double_list (num h : Z) (ds : list Z) : Z * Z :=
  match ds with
  | [] => (num, h)
  | d :: ds =>
      let num := num - 1 in
      let h := caml_hash_mix_double h (u64 d) in
      if num <=? 0 then (num, h) else mix_double_list num h ds
  end.

Lemma mix_doubles_eq n : forall i st,
  0 <= i -> i + Z.of_nat n <= zlen fs ->
  mix_doubles n m v i st =
    (let (num, h) := mix_double_list (h_num st) (h_val st) (take n (drop (Z.to_nat i) fs)) in
     Ok (set_h st num h)).
Proof.
  induction n as [|n IH]; intros i st Hi Hn; cbn [mix_doubles].
  - rewrite take_0. by destruct st.
  - unfold Double_flat_field, rmap. rewrite (block_at_Field B) by lia. cbn [rbind].
    rewrite (drop_zget fs i) by lia. cbn [take mix_double_list h_num h_val set_h].
    destruct (_ <=? 0); [done|]. rewrite IH by lia. by destruct (mix_double_list _ _ _).
Qed.
End Loops.

Definition same_double (a b : Z) : Prop := normalize_double (u64 a) = normalize_double (u64 b).

Lemma mix_double_list_same ds1 ds2 : Forall2 same_double ds1 ds2 ->
  forall num h, mix_double_list num h ds1 = mix_double_list num h ds2.
Proof.
  induction 1 as [|a b ds1 ds2 E _ IH]; intros num h; [done|]. cbn [mix_double_list].
  unfold caml_hash_mix_double. rewrite E. destruct (normalize_double (u64 b)).
  destruct (num - 1 <=? 0); [done|apply IH].
Qed.

(** decides the tests on constant tags *)
Ltac eval_tags :=
  repeat match goal with
  | |- context [?a =? ?b] =>
      let r := eval vm_compute in (a =? b) in
      match r with
      | true => change (a =? b) with true
      | false => change (a =? b) with false
      end
  end; cbv iota.

(** ** Isomorphic values have the same hash *)

Definition same_header (hd1 hd2 : Z) : Prop :=
  Tag_hd hd1 = Tag_hd hd2 /\ Allocated_wosize_hd hd1 = Allocated_wosize_hd hd2 /\
  Reserved_hd hd1 = Reserved_hd hd2.

Lemma same_header_clean hd1 hd2 : same_header hd1 hd2 -> Cleanhd_hd hd1 = Cleanhd_hd hd2.
Proof.
  intros (T & W & _). unfold Cleanhd_hd. rewrite !Z.land_lor_distr_r. f_equal; [exact T|].
  rewrite !Allocated_wosize_hd_eq in W. unfold HEADER_WOSIZE_MASK.
  change (Z.shiftl 1 HEADER_WOSIZE_BITS - 1) with (Z.ones 46).
  change HEADER_WOSIZE_SHIFT with 10. rewrite !land_field by lia. by rewrite W.
Qed.

(** the tags that [caml_hash_exn] does not treat as a block of values *)
Definition special_tags : list Z :=
  [String_tag; Double_tag; Double_array_tag; Abstract_tag; Infix_tag; Forward_tag;
   Object_tag; Custom_tag; Closure_tag; Cont_tag].

Section Isomorphism.
Context (custom_hash : Z -> option (mem -> Z -> Z)) (m1 m2 : mem) (R : Z -> Z -> Prop).

(** the contents of two blocks of the same header correspond *)
Inductive contents_rel (tag wosize v1 v2 : Z) (fs1 fs2 : list Z) : Prop :=
  | rel_string s :
      tag = String_tag -> string_block (bytes_of_words fs1) s ->
      string_block (bytes_of_words fs2) s -> contents_rel tag wosize v1 v2 fs1 fs2
  | rel_double d1 d2 :
      tag = Double_tag -> fs1 = [d1] -> fs2 = [d2] -> same_double d1 d2 ->
      contents_rel tag wosize v1 v2 fs1 fs2
  | rel_double_array :
      tag = Double_array_tag -> Forall2 same_double fs1 fs2 ->
      contents_rel tag wosize v1 v2 fs1 fs2
  | rel_opaque :
      tag = Abstract_tag \/ tag = Cont_tag -> contents_rel tag wosize v1 v2 fs1 fs2
  | rel_infix :
      tag = Infix_tag -> Tag_val m1 (v1 - Bsize_wsize wosize) = Ok Closure_tag ->
      value_rel R (v1 - Bsize_wsize wosize) (v2 - Bsize_wsize wosize) ->
      contents_rel tag wosize v1 v2 fs1 fs2
  | rel_forward f1 f2 :
      tag = Forward_tag -> fs1 !! 0%nat = Some f1 -> fs2 !! 0%nat = Some f2 ->
      value_rel R f1 f2 -> contents_rel tag wosize v1 v2 fs1 fs2
  | rel_object oid :
      tag = Object_tag -> fs1 !! 1%nat = Some oid -> fs2 !! 1%nat = Some oid ->
      contents_rel tag wosize v1 v2 fs1 fs2
  | rel_custom ops1 ops2 :
      tag = Custom_tag -> fs1 !! 0%nat = Some ops1 -> fs2 !! 0%nat = Some ops2 ->
      match custom_hash ops1, custom_hash ops2 with
      | Some f1, Some f2 => u32 (f1 m1 v1) = u32 (f2 m2 v2)
      | None, None => True
      | _, _ => False
      end -> contents_rel tag wosize v1 v2 fs1 fs2
  | rel_closure info :
      let env := Z.to_nat (Start_env_closinfo info) in
      tag = Closure_tag -> fs1 !! 1%nat = Some info -> fs2 !! 1%nat = Some info ->
      0 <= Start_env_closinfo info <= wosize ->
      take env fs1 = take env fs2 -> Forall2 (value_rel R) (drop env fs1) (drop env fs2) ->
      contents_rel tag wosize v1 v2 fs1 fs2
  | rel_scan :
      tag ∉ special_tags -> Forall2 (value_rel R) fs1 fs2 ->
      contents_rel tag wosize v1 v2 fs1 fs2.

(** [R] relates blocks of the two memories that have the same header and
    corresponding contents *)
Definition bisimulation : Prop :=
  forall v1 v2, R v1 v2 -> exists hd1 hd2 fs1 fs2,
    block_at m1 v1 hd1 fs1 /\ block_at m2 v2 hd2 fs2 /\ same_header hd1 hd2 /\
    contents_rel (Tag_hd hd1) (Allocated_wosize_hd hd1) v1 v2 fs1 fs2.

Hypothesis bisim : bisimulation.

Definition st_rel (st1 st2 : hash_state) : Prop :=
  Forall2 (value_rel R) (queue st1) (queue st2) /\ q_rd st1 = q_rd st2 /\
  h_num st1 = h_num st2 /\ h_val st1 = h_val st2 /\ zlen (queue st1) <= HASH_QUEUE_SIZE.

(** both runs go on in related states, or both refuse a mixed block *)
Definition res_rel (rd0 : Z) (r1 r2 : result hash_state) : Prop :=
  (exists st1 st2, r1 = Ok st1 /\ r2 = Ok st2 /\ st_rel st1 st2 /\ q_rd st1 = rd0) \/
  (r1 = Raise (Invalid_argument "hash: mixed block value") /\
   r2 = Raise (Invalid_argument "hash: mixed block value")).

Lemma res_rel_set_h st1 st2 num h :
  st_rel st1 st2 -> res_rel (q_rd st1) (Ok (set_h st1 num h)) (Ok (set_h st2 num h)).
Proof.
  intros (Q & Hr & Hn & Hh & L). left. do 2 eexists.
  split_and!; [done..| |done]. unfold st_rel. simpl. done.
Qed.

Lemma res_rel_same st1 st2 : st_rel st1 st2 -> res_rel (q_rd st1) (Ok st1) (Ok st2).
Proof. intros H. left. exists st1, st2. done. Qed.

(** appending related fields to the queues *)
Lemma res_rel_enqueue k st1 st2 fs1 fs2 num h :
  st_rel st1 st2 -> Forall2 (value_rel R) fs1 fs2 ->
  (k + length (queue st1) <= 256)%nat \/ k = 0%nat ->
  res_rel (q_rd st1) (Ok (HashState (queue st1 ++ take k fs1) (q_rd st1) num h))
    (Ok (HashState (queue st2 ++ take k fs2) (q_rd st2) num h)).
Proof.
  intros (Q & Hr & Hn & Hh & L) F Hk. left. do 2 eexists.
  split_and!; [done..| |done]. unfold st_rel. simpl. split_and!; try done.
  - apply Forall2_app; [done|]. by apply Forall2_take.
  - unfold HASH_QUEUE_SIZE, zlen in *. rewrite length_app, length_take. lia.
Qed.
Definition jump_tag (tag : Z) : Prop := tag = Infix_tag \/ tag = Forward_tag.

(** values that are neither infix pointers nor forwards take one iteration *)
Lemma hash_again_plain sz st1 st2 v1 v2 fuel :
  st_rel st1 st2 -> value_rel R v1 v2 -> sz <= HASH_QUEUE_SIZE ->
  (Is_long v1 = false -> forall t, Tag_val m1 v1 = Ok t -> ~ jump_tag t) ->
  res_rel (q_rd st1) (hash_again custom_hash (S fuel) m1 sz st1 v1)
    (hash_again custom_hash (S fuel) m2 sz st2 v2).
Proof.
  intros Hst Hv Hsz Hj. pose proof Hst as (Q & Hr & Hn & Hh & L). pose proof (Forall2_length _ _ _ Q) as Lq.
  destruct Hv as [[V ->]|(V1 & V2 & Hb)]; cbn [hash_again].
  { rewrite V, Hn, Hh. by apply res_rel_set_h. }
  rewrite V1, V2. destruct (bisim v1 v2 Hb) as (hd1 & hd2 & fs1 & fs2 & B1 & B2 & Hs & C).
  pose proof (Hj V1 _ (block_at_tag B1)) as Nj.
  pose proof (same_header_clean _ _ Hs) as Hc. destruct Hs as (T & W & Rs).
  pose proof (block_at_zlen B1) as Z1. pose proof (block_at_zlen B2) as Z2.
  pose proof (zlen_nonneg fs1). pose proof (zlen_nonneg fs2).
  rewrite (block_at_tag B1), (block_at_tag B2), <- T. cbn [rbind].
  destruct C as [s E S1 S2|d1 d2 E E1 E2 D|E D|[E|E]|E _ _|f1 f2 E _ _ _|oid E O1 O2|
    ops1 ops2 E O1 O2 O|info env E I1 I2 Hi Ht Hd|E F].
  - rewrite E. eval_tags. rewrite (block_at_bytes B1), (block_at_bytes B2). cbn [rbind].
    rewrite !(caml_hash_mix_string_correct _ s) by done. cbn [rbind].
    rewrite Hn, Hh. by apply res_rel_set_h.
  - rewrite E. eval_tags. subst fs1 fs2. unfold Double_flat_field, rmap.
    rewrite (block_at_field0 B1 d1), (block_at_field0 B2 d2) by done. cbn [rbind].
    unfold caml_hash_mix_double. rewrite D, Hn, Hh. destruct (normalize_double _).
    by apply res_rel_set_h.
  - rewrite E. eval_tags. rewrite (block_at_wosize B1), (block_at_wosize B2), <- W. cbn [rbind].
    rewrite (mix_doubles_eq B1), (mix_doubles_eq B2) by lia.
    rewrite !drop_0, (take_ge fs1), (take_ge fs2) by (unfold zlen in *; lia).
    rewrite (mix_double_list_same _ _ D), Hn, Hh. destruct (mix_double_list _ _ _).
    by apply res_rel_set_h.
  - rewrite E. eval_tags. by apply res_rel_same.
  - rewrite E. eval_tags. by apply res_rel_same.
  - by destruct Nj; left.
  - by destruct Nj; right.
  - rewrite E. eval_tags. unfold Oid_val, rmap.
    rewrite (block_at_field1 B1 oid), (block_at_field1 B2 oid) by done. cbn [rbind].
    rewrite Hn, Hh. by apply res_rel_set_h.
  - rewrite E. eval_tags. rewrite (block_at_field0 B1 ops1), (block_at_field0 B2 ops2) by done.
    cbn [rbind]. destruct (custom_hash ops1), (custom_hash ops2); try done; [|by apply res_rel_same].
    rewrite O, Hn, Hh. by apply res_rel_set_h.
  - rewrite E. eval_tags. unfold Closinfo_val.
    rewrite (block_at_wosize B1), (block_at_wosize B2), <- W. cbn [rbind].
    rewrite (block_at_field1 B1 info), (block_at_field1 B2 info) by done. cbn [rbind].
    rewrite (block_at_hd B1), (block_at_hd B2). cbn [rbind]. rewrite Hc.
    rewrite (mix_words_eq B1), (mix_words_eq B2) by lia. cbn [rbind].
    fold env. rewrite !drop_0, Ht, Hn, Hh.
    rewrite (enqueue_fields_eq B1), (enqueue_fields_eq B2) by lia.
    cbn [queue q_rd h_num h_val set_h]. fold env. rewrite <- Lq.
    apply res_rel_enqueue; [done|done|unfold HASH_QUEUE_SIZE in *; lia].
  - assert (N : forall t, t ∈ special_tags -> (Tag_hd hd1 =? t) = false).
    { intros t Ht. apply Z.eqb_neq. intros Et. by rewrite <- Et in Ht. }
    rewrite !N by (apply list_elem_of_In; simpl; tauto).
    rewrite (block_at_reserved B1), (block_at_reserved B2), <- Rs. cbn [rbind].
    destruct (Is_mixed_block_reserved _); [by right|].
    rewrite (block_at_hd B1), (block_at_hd B2). cbn [rbind]. rewrite Hc.
    rewrite (block_at_wosize B1), (block_at_wosize B2), <- W. cbn [rbind].
    rewrite (enqueue_fields_eq B1), (enqueue_fields_eq B2) by lia.
    cbn [queue q_rd h_num h_val set_h]. rewrite !drop_0, <- Lq, Hn, Hh.
    apply res_rel_enqueue; [done|done|unfold HASH_QUEUE_SIZE in *; lia].
Qed.

(** following forwards keeps the values related *)
Lemma forward_chain_rel n : forall v1 v2,
  R v1 v2 -> Tag_val m1 v1 = Ok Forward_tag ->
  (forward_chain n m1 v1 = Ok None /\ forward_chain n m2 v2 = Ok None) \/
  (exists w1 w2, forward_chain n m1 v1 = Ok (Some w1) /\ forward_chain n m2 v2 = Ok (Some w2) /\
     value_rel R w1 w2 /\
     (Is_long w1 = false -> forall t, Tag_val m1 w1 = Ok t -> t <> Forward_tag)).
Proof.
  induction n as [|n IH]; intros v1 v2 Hb Ht; cbn [forward_chain]; [by left|].
  destruct (bisim v1 v2 Hb) as (hd1 & hd2 & fs1 & fs2 & B1 & B2 & (T & W & Rs) & C).
  rewrite (block_at_tag B1) in Ht. injection Ht as Ht.
  destruct C as [s E|d1 d2 E|E|[E|E]|E|f1 f2 E F1 F2 F|oid E|ops1 ops2 E|info env E|E _];
    try (rewrite Ht in E; discriminate E).
  2: { exfalso. apply E. rewrite Ht. apply list_elem_of_In. simpl. tauto. }
  unfold Forward_val.
  rewrite (block_at_field0 B1 f1), (block_at_field0 B2 f2) by done. cbn [rbind].
  pose proof (value_rel_long _ _ _ F) as Lf.
  destruct F as [[L ->]|(L1 & L2 & Hf)].
  - rewrite L. right. exists f2, f2. split_and!; try done; [by left|]. intros. congruence.
  - rewrite L1, L2. destruct (bisim f1 f2 Hf) as (h1 & h2 & gs1 & gs2 & G1 & G2 & (T' & _) & _).
    rewrite (block_at_tag G1), (block_at_tag G2), <- T'. cbn [rbind].
    destruct (Z.eqb_spec (Tag_hd h1) Forward_tag) as [E1|N1].
    + apply IH; [done|]. by rewrite (block_at_tag G1), E1.
    + right. exists f1, f2. split_and!; try done; [right; done|].
      intros _ t. rewrite (block_at_tag G1). by intros [= <-].
Qed.

Lemma hash_again_infix sz st1 st2 v1 v2 fuel :
  st_rel st1 st2 -> value_rel R v1 v2 -> sz <= HASH_QUEUE_SIZE ->
  (Is_long v1 = false -> forall t, Tag_val m1 v1 = Ok t -> t <> Forward_tag) ->
  res_rel (q_rd st1) (hash_again custom_hash (S (S fuel)) m1 sz st1 v1)
    (hash_again custom_hash (S (S fuel)) m2 sz st2 v2).
Proof.
  intros Hst Hv Hsz Hj. destruct (decide (Is_long v1 = false /\ Tag_val m1 v1 = Ok Infix_tag)) as [[V I]|N].
  2: { apply hash_again_plain; try done. intros V t Ht [-> | ->]; [by apply N|by apply (Hj V _ Ht)]. }
  destruct Hv as [[V' _]|(V1 & V2 & Hb)]; [congruence|].
  remember (S fuel) as k. cbn [hash_again]. subst k. rewrite V1, V2.
  destruct (bisim v1 v2 Hb) as (hd1 & hd2 & fs1 & fs2 & B1 & B2 & (T & W & Rs) & C).
  rewrite (block_at_tag B1), (block_at_tag B2), <- T. rewrite (block_at_tag B1) in I.
  injection I as I. cbn [rbind].
  destruct C as [s E|d1 d2 E|E|[E|E]|E Ic Iv|f1 f2 E|oid E|ops1 ops2 E|info env E|E _];
    try (rewrite I in E; discriminate E).
  2: { exfalso. apply E. rewrite I. apply list_elem_of_In. simpl. tauto. }
  rewrite E. eval_tags. unfold Infix_offset_val, rmap.
  rewrite (block_at_hd B1), (block_at_hd B2). cbn [rbind]. unfold Infix_offset_hd. rewrite <- W.
  destruct Hst as (Q & Hr & Hn & Hh & L). rewrite Hn, Hh.
  apply (hash_again_plain sz (set_h st1 _ _) (set_h st2 _ _)); [done|done|done|].
  intros _ t Ht. rewrite Ic in Ht. injection Ht as <-. by intros [?|?].
Qed.

Lemma hash_again_rel sz st1 st2 v1 v2 :
  st_rel st1 st2 -> value_rel R v1 v2 -> sz <= HASH_QUEUE_SIZE ->
  res_rel (q_rd st1) (hash_again custom_hash 4 m1 sz st1 v1)
    (hash_again custom_hash 4 m2 sz st2 v2).
Proof.
  intros Hst Hv Hsz.
  destruct (decide (Is_long v1 = false /\ Tag_val m1 v1 = Ok Forward_tag)) as [[V I]|N].
  2: { apply hash_again_infix; try done. intros V t Ht ->. by apply N. }
  destruct Hv as [[V' _]|(V1 & V2 & Hb)]; [congruence|].
  remember 3%nat as k. cbn [hash_again]. subst k. rewrite V1, V2, I.
  destruct (bisim v1 v2 Hb) as (hd1 & hd2 & fs1 & fs2 & B1 & B2 & (T & W & Rs) & C).
  rewrite (block_at_tag B2), <- T. rewrite (block_at_tag B1) in I. injection I as E.
  rewrite E. cbn [rbind]. eval_tags.
  destruct (forward_chain_rel MAX_FORWARD_DEREFERENCE v1 v2 Hb) as [[-> ->]|(w1 & w2 & -> & -> & Hw & Hj)].
  { by rewrite (block_at_tag B1), E. }
  - by apply res_rel_same.
  - by apply hash_again_infix.
Qed.

(** the traversals stay in lockstep and end within the fuel *)
Lemma hash_loop_rel sz fuel : forall st1 st2,
  st_rel st1 st2 -> sz <= HASH_QUEUE_SIZE -> 0 <= q_rd st1 <= 257 -> 257 - q_rd st1 < Z.of_nat fuel ->
  (exists st1' st2', while_loop fuel hash_cond (hash_step custom_hash m1 sz) st1 = Ok st1' /\
     while_loop fuel hash_cond (hash_step custom_hash m2 sz) st2 = Ok st2' /\ st_rel st1' st2') \/
  (while_loop fuel hash_cond (hash_step custom_hash m1 sz) st1
     = Raise (Invalid_argument "hash: mixed block value") /\
   while_loop fuel hash_cond (hash_step custom_hash m2 sz) st2
     = Raise (Invalid_argument "hash: mixed block value")).
Proof.
  induction fuel as [|fuel IH]; intros st1 st2 Hst Hsz Hp Hf; [lia|].
  cbn [while_loop]. pose proof Hst as (Q & Hr & Hn & Hh & L).
  assert (Ec : hash_cond st2 = hash_cond st1).
  { unfold hash_cond, zlen. by rewrite Hr, Hn, (Forall2_length _ _ _ Q). }
  rewrite Ec. destruct (hash_cond st1) eqn:C; [|left; by exists st1, st2].
  apply andb_true_iff in C as [C%Z.ltb_lt _]. unfold hash_step. rewrite <- Hr.
  destruct (rd_in_range (queue st1) (q_rd st1)) as [v1 E1]; [lia|].
  destruct (rd_in_range (queue st2) (q_rd st1)) as [v2 E2].
  { unfold zlen in *. rewrite <- (Forall2_length _ _ _ Q). lia. }
  rewrite E1, E2. cbn [rbind]. apply rd_Ok in E1 as [_ E1], E2 as [_ E2].
  pose proof (Forall2_lookup_lr _ _ _ _ _ _ Q E1 E2) as Hv.
  destruct (hash_again_rel sz (HashState (queue st1) (q_rd st1 + 1) (h_num st1) (h_val st1))
    (HashState (queue st2) (q_rd st1 + 1) (h_num st2) (h_val st2)) v1 v2)
    as [(st1' & st2' & -> & -> & Hst' & Hr')|[-> ->]]; [done|done|done| |by right].
  cbn [rbind]. cbn [q_rd] in Hr'. unfold HASH_QUEUE_SIZE in L.
  apply IH; [done|done|lia..].
Qed.
End Isomorphism.

(** C10: Hashing isomorphic values, in the same or in different memories, gives the
    same result, for any bounds on the traversal and any seed, on shared and
    cyclic values alike; it always terminates, and either returns an integer
    between 0 and 2^30 - 1 or refuses a mixed block with [Invalid_argument].
    With [R] the identity, hashing is total on well-formed values. *)
Theorem caml_hash_isomorphic custom_hash m1 m2 R v1 v2 count limit seed :
  bisimulation custom_hash m1 m2 R -> value_rel R v1 v2 ->
  exists r, caml_hash_exn custom_hash m1 count limit seed v1 = r /\
    caml_hash_exn custom_hash m2 count limit seed v2 = r /\
    (r = Raise (Invalid_argument "hash: mixed block value") \/
     exists n, r = Ok (Val_int n) /\ 0 <= n < 2 ^ 30).
Proof.
  intros Hb Hv. unfold caml_hash_exn. cbv zeta.
  set (sz := if _ || _ then _ else _).
  assert (Hsz : sz <= HASH_QUEUE_SIZE).
  { unfold sz. destruct (_ || _) eqn:E; [done|]. apply orb_false_iff in E as [_ E%Z.ltb_ge]. done. }
  clearbody sz.
  destruct (hash_loop_rel custom_hash m1 m2 R Hb sz 300
    (HashState [v1] 0 (Long_val count) (u32 (Int_val seed)))
    (HashState [v2] 0 (Long_val count) (u32 (Int_val seed))))
    as [(st1 & st2 & -> & -> & (_ & _ & _ & Hh & _))|[-> ->]]; [|done|cbn; lia|cbn; lia| |].
  - split_and!; try done. by constructor.
  - cbn [rbind]. rewrite Hh. eexists. split_and!; [done|done|]. right.
    eexists. split; [done|]. change 0x3FFFFFFF with (Z.ones 30). rewrite Z.land_ones by lia.
    apply Z.mod_pos_bound. lia.
  - eexists. split_and!; [done|done|]. by left.
Qed.

(** a pair of an integer and itself, at two addresses of two memories *)
Definition pair_at (a : Z) : mem :=
  <[a - 8 := 2 * 1024]> (<[a := Val_int 7]> (<[a + 8 := a]> ∅)).

Lemma caml_hash_isomorphic_witness :
  exists r, caml_hash_exn (fun _ => None) (pair_at 64) (Val_int 10) (Val_int 100) (Val_int 0) 64 = r /\
    caml_hash_exn (fun _ => None) (pair_at 800) (Val_int 10) (Val_int 100) (Val_int 0) 800 = r /\
    (r = Raise (Invalid_argument "hash: mixed block value") \/
     exists n, r = Ok (Val_int n) /\ 0 <= n < 2 ^ 30).
Proof.
  apply (caml_hash_isomorphic _ _ _ (fun a b => a = 64 /\ b = 800)).
  - intros ? ? [-> ->]. exists (2 * 1024), (2 * 1024), [Val_int 7; 64], [Val_int 7; 800].
    split; [split; vm_compute; reflexivity|]. split; [split; vm_compute; reflexivity|].
    split; [split_and!; reflexivity|]. apply rel_scan.
    + apply (bool_decide_unpack _). vm_compute. exact I.
    + constructor; [by left|]. constructor; [by right|constructor].
  - by right.
Defined.
