(* ===== verification/Interp.v ===== *)
(** * The bytecode interpreter ([ocaml/runtime/interp.c])

    The registers of the abstract machine and one step of the interpreter, for
    every instruction except the debugger's ([EVENT], [BREAK]).

    - [stack] is the part of the current stack from [sp] to [Stack_high], [sp[0]]
      first, so that pushing is consing and [sp - Stack_high] is minus its length;
    - [code] maps the address of each 32-bit instruction word to its contents:
      code pointers are addresses, [pc++] adds 4;
    - suspended fibers are kept in [fibers] by the address of their [stack_info],
      with the stack saved in [f_stack];
    - the heap is the memory of [Memory.v]; collections are not modelled, an
      allocation takes a fresh block.

    C primitives, the actions run on a signal, and the success of growing a stack
    are parameters. *)

From S2P Require Import Prelude.
From S2P Require Import Mlvalues.
From S2P Require Import Memory.
#[local] Open Scope Z_scope.

(** ** Instructions, in the order of [caml/instruct.h] *)

Inductive instruction :=
  | ACC0 | ACC1 | ACC2 | ACC3 | ACC4 | ACC5 | ACC6 | ACC7
  | ACC | PUSH
  | PUSHACC0 | PUSHACC1 | PUSHACC2 | PUSHACC3
  | PUSHACC4 | PUSHACC5 | PUSHACC6 | PUSHACC7
  | PUSHACC | POP | ASSIGN
  | ENVACC1 | ENVACC2 | ENVACC3 | ENVACC4 | ENVACC
  | PUSHENVACC1 | PUSHENVACC2 | PUSHENVACC3 | PUSHENVACC4 | PUSHENVACC
  | PUSH_RETADDR | APPLY | APPLY1 | APPLY2 | APPLY3
  | APPTERM | APPTERM1 | APPTERM2 | APPTERM3
  | RETURN | RESTART | GRAB
  | CLOSURE | CLOSUREREC
  | OFFSETCLOSUREM3 | OFFSETCLOSURE0 | OFFSETCLOSURE3 | OFFSETCLOSURE
  | PUSHOFFSETCLOSUREM3 | PUSHOFFSETCLOSURE0
  | PUSHOFFSETCLOSURE3 | PUSHOFFSETCLOSURE
  | GETGLOBAL | PUSHGETGLOBAL | GETGLOBALFIELD | PUSHGETGLOBALFIELD | SETGLOBAL
  | ATOM0 | ATOM | PUSHATOM0 | PUSHATOM
  | MAKEBLOCK | MAKEBLOCK1 | MAKEBLOCK2 | MAKEBLOCK3 | MAKEFLOATBLOCK
  | GETFIELD0 | GETFIELD1 | GETFIELD2 | GETFIELD3 | GETFIELD | GETFLOATFIELD
  | SETFIELD0 | SETFIELD1 | SETFIELD2 | SETFIELD3 | SETFIELD | SETFLOATFIELD
  | VECTLENGTH | GETVECTITEM | SETVECTITEM
  | GETBYTESCHAR | SETBYTESCHAR
  | BRANCH | BRANCHIF | BRANCHIFNOT | SWITCH | BOOLNOT
  | PUSHTRAP | POPTRAP | RAISE
  | CHECK_SIGNALS
  | C_CALL1 | C_CALL2 | C_CALL3 | C_CALL4 | C_CALL5 | C_CALLN
  | CONST0 | CONST1 | CONST2 | CONST3 | CONSTINT
  | PUSHCONST0 | PUSHCONST1 | PUSHCONST2 | PUSHCONST3 | PUSHCONSTINT
  | NEGINT | ADDINT | SUBINT | MULINT | DIVINT | MODINT
  | ANDINT | ORINT | XORINT | LSLINT | LSRINT | ASRINT
  | EQ | NEQ | LTINT | LEINT | GTINT | GEINT
  | OFFSETINT | OFFSETREF | ISINT
  | GETMETHOD
  | BEQ | BNEQ | BLTINT | BLEINT | BGTINT | BGEINT
  | ULTINT | UGEINT
  | BULTINT | BUGEINT
  | GETPUBMET | GETDYNMET
  | STOP
  | EVENT | BREAK
  | RERAISE | RAISE_NOTRACE
  | GETSTRINGCHAR
  | PERFORM | RESUME | RESUMETERM | REPERFORMTERM
  | MAKE_FAUX_MIXEDBLOCK.

Definition instructions : list instruction :=
  [ ACC0; ACC1; ACC2; ACC3; ACC4; ACC5; ACC6; ACC7;
    ACC; PUSH;
    PUSHACC0; PUSHACC1; PUSHACC2; PUSHACC3;
    PUSHACC4; PUSHACC5; PUSHACC6; PUSHACC7;
    PUSHACC; POP; ASSIGN;
    ENVACC1; ENVACC2; ENVACC3; ENVACC4; ENVACC;
    PUSHENVACC1; PUSHENVACC2; PUSHENVACC3; PUSHENVACC4; PUSHENVACC;
    PUSH_RETADDR; APPLY; APPLY1; APPLY2; APPLY3;
    APPTERM; APPTERM1; APPTERM2; APPTERM3;
    RETURN; RESTART; GRAB;
    CLOSURE; CLOSUREREC;
    OFFSETCLOSUREM3; OFFSETCLOSURE0; OFFSETCLOSURE3; OFFSETCLOSURE;
    PUSHOFFSETCLOSUREM3; PUSHOFFSETCLOSURE0;
    PUSHOFFSETCLOSURE3; PUSHOFFSETCLOSURE;
    GETGLOBAL; PUSHGETGLOBAL; GETGLOBALFIELD; PUSHGETGLOBALFIELD; SETGLOBAL;
    ATOM0; ATOM; PUSHATOM0; PUSHATOM;
    MAKEBLOCK; MAKEBLOCK1; MAKEBLOCK2; MAKEBLOCK3; MAKEFLOATBLOCK;
    GETFIELD0; GETFIELD1; GETFIELD2; GETFIELD3; GETFIELD; GETFLOATFIELD;
    SETFIELD0; SETFIELD1; SETFIELD2; SETFIELD3; SETFIELD; SETFLOATFIELD;
    VECTLENGTH; GETVECTITEM; SETVECTITEM;
    GETBYTESCHAR; SETBYTESCHAR;
    BRANCH; BRANCHIF; BRANCHIFNOT; SWITCH; BOOLNOT;
    PUSHTRAP; POPTRAP; RAISE;
    CHECK_SIGNALS;
    C_CALL1; C_CALL2; C_CALL3; C_CALL4; C_CALL5; C_CALLN;
    CONST0; CONST1; CONST2; CONST3; CONSTINT;
    PUSHCONST0; PUSHCONST1; PUSHCONST2; PUSHCONST3; PUSHCONSTINT;
    NEGINT; ADDINT; SUBINT; MULINT; DIVINT; MODINT;
    ANDINT; ORINT; XORINT; LSLINT; LSRINT; ASRINT;
    EQ; NEQ; LTINT; LEINT; GTINT; GEINT;
    OFFSETINT; OFFSETREF; ISINT;
    GETMETHOD;
    BEQ; BNEQ; BLTINT; BLEINT; BGTINT; BGEINT;
    ULTINT; UGEINT;
    BULTINT; BUGEINT;
    GETPUBMET; GETDYNMET;
    STOP;
    EVENT; BREAK;
    RERAISE; RAISE_NOTRACE;
    GETSTRINGCHAR;
    PERFORM; RESUME; RESUMETERM; REPERFORMTERM;
    MAKE_FAUX_MIXEDBLOCK ].

(** [None]: a bad opcode *)
Definition decode (op : Z) : option instruction :=
  if op <? 0 then None else instructions !! Z.to_nat op.

(** ** Registers *)

Record fiber := Fiber {
  f_stack : list Z;      (* the stack from sp, when suspended *)
  f_parent : Z;          (* Stack_parent, 0 for NULL *)
  f_handle_value : Z;
  f_handle_exn : Z;
  f_handle_effect : Z }.

Record machine := Machine {
  pc : Z;
  stack : list Z;
  accu : Z;
  env : Z;
  extra_args : Z;
  trap_sp_off : Z;
  code : gmap Z Z;
  current_stack : Z;
  fibers : gmap Z fiber;
  mheap : heap }.

Definition set_pc (x : Z) (s : machine) : machine :=
  Machine x (stack s) (accu s) (env s) (extra_args s) (trap_sp_off s) (code s)
    (current_stack s) (fibers s) (mheap s).
Definition set_stack (x : list Z) (s : machine) : machine :=
  Machine (pc s) x (accu s) (env s) (extra_args s) (trap_sp_off s) (code s)
    (current_stack s) (fibers s) (mheap s).
Definition set_accu (x : Z) (s : machine) : machine :=
  Machine (pc s) (stack s) x (env s) (extra_args s) (trap_sp_off s) (code s)
    (current_stack s) (fibers s) (mheap s).
Definition set_env (x : Z) (s : machine) : machine :=
  Machine (pc s) (stack s) (accu s) x (extra_args s) (trap_sp_off s) (code s)
    (current_stack s) (fibers s) (mheap s).
Definition set_extra_args (x : Z) (s : machine) : machine :=
  Machine (pc s) (stack s) (accu s) (env s) x (trap_sp_off s) (code s)
    (current_stack s) (fibers s) (mheap s).
Definition set_trap_sp_off (x : Z) (s : machine) : machine :=
  Machine (pc s) (stack s) (accu s) (env s) (extra_args s) x (code s)
    (current_stack s) (fibers s) (mheap s).
Definition set_code (x : gmap Z Z) (s : machine) : machine :=
  Machine (pc s) (stack s) (accu s) (env s) (extra_args s) (trap_sp_off s) x
    (current_stack s) (fibers s) (mheap s).
Definition set_fibers (cur : Z) (x : gmap Z fiber) (s : machine) : machine :=
  Machine (pc s) (stack s) (accu s) (env s) (extra_args s) (trap_sp_off s) (code s)
    cur x (mheap s).
Definition set_heap (x : heap) (s : machine) : machine :=
  Machine (pc s) (stack s) (accu s) (env s) (extra_args s) (trap_sp_off s) (code s)
    (current_stack s) (fibers s) x.
Definition set_mem (m : mem) (s : machine) : machine :=
  set_heap (Heap m (h_next (mheap s))) s.

(** the outcome of an instruction: go on, or leave the interpreter with a value *)
Inductive outcome :=
  | Next (s : machine)
  | Return (v : Z) (s : machine).

(** ** Accesses *)

(** [pc[i]], a signed 32-bit word *)
Definition operand (s : machine) (i : Z) : result Z := of_option (code s !! (pc s + 4 * i)).
Definition advance (n : Z) (s : machine) : machine := set_pc (pc s + 4 * n) s.
(** [pc + n] *)
Definition pc_plus (s : machine) (n : Z) : Z := pc s + 4 * n.

(** [*--sp = x] *)
Definition push (x : Z) (s : machine) : machine := set_stack (x :: stack s) s.
(** [sp[i]] *)
Definition sp (s : machine) (i : Z) : result Z := rd (stack s) i.
(** [sp += n], for [n >= 0] *)
Definition pop (n : Z) (s : machine) : result machine :=
  if (0 <=? n) && (n <=? zlen (stack s))
  then Ok (set_stack (drop (Z.to_nat n) (stack s)) s) else Undef.
(** the [n] words at the top of the stack *)
Definition top (n : Z) (s : machine) : result (list Z) :=
  if (0 <=? n) && (n <=? zlen (stack s)) then Ok (take (Z.to_nat n) (stack s)) else Undef.

(** [Code_val] *)
Definition Code_val (s : machine) (v : Z) : result Z := Field (h_mem (mheap s)) v 0.
Definition get_field (s : machine) (v i : Z) : result Z := Field (h_mem (mheap s)) v i.

Definition Make_exception_result (v : Z) : Z := Z.lor v 2.
Definition Val_ptr (p : Z) : Z := p + 1.
Definition Ptr_val (v : Z) : Z := v - 1.

Definition next (s : machine) : result outcome := Ok (Next s).
(** [accu = x; Next] *)
Definition next_accu (r : result Z) (s : machine) : result outcome :=
  let* x := r in next (set_accu x s).

Section Interp.

(** [Atom(tag)]; the value of [caml_global_data]; [Max_young_wosize] plays no role *)
Context (Atom : Z -> Z) (caml_global_data : Z).
(** a C primitive, by its index: its result or the exception it raises *)
Context (primitive : Z -> list Z -> heap -> result ((Z + Z) * heap)).
(** [Caml_check_gc_interrupt], and [caml_process_pending_actions] with the
    exception it may raise *)
Context (gc_interrupt : machine -> bool)
  (process_pending_actions : heap -> option Z * heap).
(** whether the stack is under its threshold and cannot be grown *)
Context (stack_overflows : list Z -> bool).
(** predefined exceptions and the closure used for unhandled effects *)
Context (exn_stack_overflow exn_zero_divide exn_already_resumed raise_unhandled_effect : Z)
  (caml_make_unhandled_effect_exn : Z -> heap -> Z * heap).
(** [backtrace_active] *)
Context (backtrace_active : bool).
(** the registers [caml_interprete] saves on entry *)
Context (initial_trap_sp_off initial_stack_words : Z).

(** ** Exceptions *)

(** the fiber whose [stack_info] is current *)
Definition fiber_of (s : machine) (id : Z) : result fiber := of_option (fibers s !! id).

(** leaves the current fiber for its parent, restoring the parent's registers, and
    applies the handler [h] to [x] *)
Definition to_parent (s : machine) (x : Z) (h : fiber -> Z) : result machine :=
  let* old := fiber_of s (current_stack s) in
  let* parent := fiber_of s (f_parent old) in
  let s := set_fibers (f_parent old) (delete (current_stack s) (fibers s)) s in
  match f_stack parent with
  | trap :: ea :: rest =>
      let s := set_stack (x :: rest) s in
      let s := set_trap_sp_off (Long_val trap) s in
      let s := set_extra_args (Long_val ea) s in
      let s := set_accu (h old) s in
      let* c := Code_val s (accu s) in
      Ok (set_env (accu s) (set_pc c s))
  | _ => Undef
  end.

(** process_signal: *)
Definition process_signal (raise_notrace : machine -> result outcome) (s : machine)
    : result outcome :=
  let frame := [accu s; Val_unit; Val_unit; pc s; env s; Val_long (extra_args s)] in
  let s := set_stack (frame ++ stack s) s in
  let (exn, h) := process_pending_actions (mheap s) in
  let s := set_heap h s in
  match exn with
  | Some e => raise_notrace (set_accu e s)
  | None =>
      let* a := sp s 0 in
      let* p := sp s 3 in
      let* e := sp s 4 in
      let* x := sp s 5 in
      let* s := pop 6 s in
      next (set_extra_args (Long_val x) (set_env e (set_pc p (set_accu a s))))
  end.

(** CHECK_SIGNALS: *)
Definition check_signals (raise_notrace : machine -> result outcome) (s : machine)
    : result outcome :=
  if gc_interrupt s then process_signal raise_notrace s else next s.

(** Setup_for_c_call *)
Definition setup_for_c_call (s : machine) : machine :=
  set_stack (env s :: pc_plus s 1 :: stack s) s.

(** [*env = *sp; sp += 2] *)
Definition restore_after_c_call (s : machine) : result machine :=
  let* e := sp s 0 in
  let* s := pop 2 s in
  Ok (set_env e s).

(** leaves the interpreter: [return Make_exception_result(accu)] with the stack
    pointer and the trap of the caller *)
Definition return_exception (s : machine) : result outcome :=
  let* s := pop (zlen (stack s) - initial_stack_words) s in
  Ok (Return (Make_exception_result (accu s)) (set_trap_sp_off initial_trap_sp_off s)).

(** [caml_raise_async] (fatal on the stack of a fiber), caught by [raise_async_buf] *)
Definition raise_async (e : Z) (s : machine) : result outcome :=
  let* cur := fiber_of s (current_stack s) in
  if f_parent cur =? 0 then return_exception (set_accu e s) else Undef.

(** check_stacks: *)
Definition check_stacks (raise_notrace : machine -> result outcome) (s : machine)
    : result outcome :=
  if stack_overflows (stack s)
  then raise_async exn_stack_overflow (setup_for_c_call s)
  else check_signals raise_notrace s.

(** raise_notrace: to the parent fiber when the current one has no handler; [fuel]
    bounds the number of times an exception is raised on the way *)
Fixpoint raise_notrace (fuel : nat) (s : machine) : result outcome :=
  match fuel with
  | O => NoFuel
  | S fuel =>
      if 0 <? trap_sp_off s then
        let* cur := fiber_of s (current_stack s) in
        if f_parent cur =? 0 then return_exception s
        else
          let* s := to_parent s (accu s) f_handle_exn in
          check_stacks (raise_notrace fuel) s
      else
        let depth := - trap_sp_off s in
        let* s := pop (zlen (stack s) - depth) s in
        let* p := sp s 0 in
        let* link := sp s 1 in
        let* e := sp s 2 in
        let* ea := sp s 3 in
        let* s := pop 4 s in
        next (set_extra_args (Long_val ea) (set_env e
          (set_trap_sp_off (Long_val link) (set_pc p s))))
  end.

Definition raise_fuel : nat := 1000.
Definition raise (s : machine) : result outcome := raise_notrace raise_fuel s.

(** [caml_raise], caught by [raise_buf]: pending actions run first *)
Definition caml_raise (e : Z) (s : machine) : result outcome :=
  let (exn, h) := process_pending_actions (mheap s) in
  raise (set_accu (default e exn) (set_heap h s)).

(** RAISE, RERAISE: the trace of the exception leaves one word on the stack *)
Definition raise_exception (s : machine) : result outcome :=
  let s := if backtrace_active then push (pc_plus s (-1)) s else s in
  raise s.

Definition do_check_stacks (s : machine) : result outcome := check_stacks raise s.

(** enters the closure in [accu]: pc = Code_val(accu); env = accu; goto check_stacks *)
Definition enter (s : machine) : result outcome :=
  let* c := Code_val s (accu s) in
  do_check_stacks (set_env (accu s) (set_pc c s)).

(** do_return: *)
Definition do_return (s : machine) : result outcome :=
  match stack s with
  | [] =>
      let* s := to_parent s (accu s) f_handle_value in
      do_check_stacks s
  | _ =>
      let* p := sp s 0 in
      let* e := sp s 1 in
      let* ea := sp s 2 in
      let* s := pop 3 s in
      next (set_extra_args (Long_val ea) (set_env e (set_pc p s)))
  end.

(** ** Basic stack operations and accesses to the environment *)

(** accu = sp[i] *)
Definition acc (i : Z) (s : machine) : result outcome := next_accu (sp s i) s.
(** accu = Field(env, i) *)
Definition envacc (i : Z) (s : machine) : result outcome := next_accu (get_field s (env s) i) s.
Definition pushaccu (s : machine) : machine := push (accu s) s.
(** reads the operand [*pc++] *)
Definition with_operand (s : machine) (k : Z -> machine -> result outcome) : result outcome :=
  let* n := operand s 0 in k n (advance 1 s).

Definition exec_stack (i : instruction) (s : machine) : option (result outcome) :=
  match i with
  | ACC0 => Some (acc 0 s)
  | ACC1 => Some (acc 1 s)
  | ACC2 => Some (acc 2 s)
  | ACC3 => Some (acc 3 s)
  | ACC4 => Some (acc 4 s)
  | ACC5 => Some (acc 5 s)
  | ACC6 => Some (acc 6 s)
  | ACC7 => Some (acc 7 s)
  | PUSH | PUSHACC0 => Some (next (pushaccu s))
  | PUSHACC1 => Some (acc 1 (pushaccu s))
  | PUSHACC2 => Some (acc 2 (pushaccu s))
  | PUSHACC3 => Some (acc 3 (pushaccu s))
  | PUSHACC4 => Some (acc 4 (pushaccu s))
  | PUSHACC5 => Some (acc 5 (pushaccu s))
  | PUSHACC6 => Some (acc 6 (pushaccu s))
  | PUSHACC7 => Some (acc 7 (pushaccu s))
  | PUSHACC => Some (with_operand (pushaccu s) acc)
  | ACC => Some (with_operand s acc)
  | POP => Some (with_operand s (fun n s => rbind (pop n s) next))
  | ASSIGN => Some (with_operand s (fun n s =>
      let* st := wr (stack s) n (accu s) in next (set_accu Val_unit (set_stack st s))))
  | _ => None
  end.

Definition exec_env (i : instruction) (s : machine) : option (result outcome) :=
  match i with
  | ENVACC1 => Some (envacc 1 s)
  | ENVACC2 => Some (envacc 2 s)
  | ENVACC3 => Some (envacc 3 s)
  | ENVACC4 => Some (envacc 4 s)
  | PUSHENVACC1 => Some (envacc 1 (pushaccu s))
  | PUSHENVACC2 => Some (envacc 2 (pushaccu s))
  | PUSHENVACC3 => Some (envacc 3 (pushaccu s))
  | PUSHENVACC4 => Some (envacc 4 (pushaccu s))
  | PUSHENVACC => Some (with_operand (pushaccu s) envacc)
  | ENVACC => Some (with_operand s envacc)
  | _ => None
  end.

(** ** Function application *)

(** APPLYn: the frame of the caller goes under the [n] arguments *)
Definition apply_n (n : Z) (s : machine) : result outcome :=
  let* args := top n s in
  let* s1 := pop n s in
  let frame := [pc s; env s; Val_long (extra_args s)] in
  enter (set_extra_args (n - 1) (set_stack (args ++ frame ++ stack s1) s)).

(** APPTERMn: the [n] arguments replace the frame of [slotsize] words *)
Definition appterm_n (n slotsize : Z) (s : machine) : result outcome :=
  let* args := top n s in
  let* s1 := pop slotsize s in
  enter (set_extra_args (extra_args s + n - 1) (set_stack (args ++ stack s1) s)).

Definition alloc_block (tag reserved : Z) (init : list Z) (s : machine) : Z * machine :=
  let (v, h) := alloc (mheap s) tag reserved init in (v, set_heap h s).

Definition closinfo (delta is_last : Z) : Z := s64 (Make_closinfo 0 delta is_last).

Definition do_restart (s : machine) : result outcome :=
  let* wosize := Wosize_val (h_mem (mheap s)) (env s) in
  let num_args := wosize - 3 in
  if num_args <? 0 then Undef else
  let* args := fields (h_mem (mheap s)) (env s) 3 (Z.to_nat num_args) in
  let* e := get_field s (env s) 2 in
  next (set_extra_args (extra_args s + num_args) (set_env e (set_stack (args ++ stack s) s))).

Definition do_grab (required : Z) (s : machine) : result outcome :=
  if required <=? extra_args s
  then next (set_extra_args (extra_args s - required) s)
  else
    let num_args := 1 + extra_args s in
    let* args := top num_args s in
    (* the code pointer is the RESTART before this instruction *)
    let (v, s) := alloc_block Closure_tag 0
                    (pc_plus s (-3) :: closinfo 2 1 :: env s :: args) s in
    let* s := pop num_args (set_accu v s) in
    do_return s.

Definition exec_apply (i : instruction) (s : machine) : option (result outcome) :=
  match i with
  | PUSH_RETADDR => Some (
      let* n := operand s 0 in
      next (advance 1 (set_stack (pc_plus s n :: env s :: Val_long (extra_args s) :: stack s) s)))
  | APPLY => Some (
      let* n := operand s 0 in
      enter (set_extra_args (n - 1) s))
  | APPLY1 => Some (apply_n 1 s)
  | APPLY2 => Some (apply_n 2 s)
  | APPLY3 => Some (apply_n 3 s)
  | APPTERM => Some (
      let* nargs := operand s 0 in
      let* slotsize := operand s 1 in
      (* sliding up; down, the loop would overwrite the arguments *)
      if slotsize <? nargs then Undef else appterm_n nargs slotsize s)
  | APPTERM1 => Some (let* n := operand s 0 in appterm_n 1 n s)
  | APPTERM2 => Some (let* n := operand s 0 in appterm_n 2 n s)
  | APPTERM3 => Some (let* n := operand s 0 in appterm_n 3 n s)
  | RETURN => Some (with_operand s (fun n s =>
      let* s := pop n s in
      if 0 <? extra_args s then
        let s := set_extra_args (extra_args s - 1) s in
        let* c := Code_val s (accu s) in
        next (set_env (accu s) (set_pc c s))
      else do_return s))
  | RESTART => Some (do_restart s)
  | GRAB => Some (with_operand s do_grab)
  | _ => None
  end.

(** ** Closures *)

(** the words of functions [i], [i + 1], ... of a recursive closure, and the infix
    pointers to push; [v] is the block *)
Fixpoint closurerec_words (n : nat) (s : machine) (v i nfuncs envofs : Z)
    : result (list Z * list Z) :=
  match n with
  | O => Ok ([], [])
  | S n =>
      let* off := operand s i in
      let envofs := envofs - 3 in
      let* (ws, ps) := closurerec_words n s v (i + 1) nfuncs envofs in
      Ok (s64 (Make_header (i * 3) Infix_tag) :: pc_plus s off
            :: closinfo envofs (if i =? nfuncs - 1 then 1 else 0) :: ws,
          (v + 8 * (3 * i)) :: ps)
  end.

Definition do_closurerec (nfuncs nvars : Z) (s : machine) : result outcome :=
  let envofs := nfuncs * 3 - 1 in
  let s := if 0 <? nvars then pushaccu s else s in
  let* vars := top nvars s in
  let* s := pop nvars s in
  let v := h_next (mheap s) + 8 in
  let* off := operand s 0 in
  let* (ws, ps) := closurerec_words (Z.to_nat (nfuncs - 1)) s v 1 nfuncs envofs in
  let first := [pc_plus s off; closinfo envofs (if nfuncs <? 2 then 1 else 0)] in
  let (v, s) := alloc_block Closure_tag 0 (first ++ ws ++ vars) s in
  (* the block, then the infix pointers, are pushed in this order *)
  next (advance nfuncs (set_accu v (set_stack (rev ps ++ [v] ++ stack s) s))).

(** accu = env + n * sizeof(value) *)
Definition offsetclosure (n : Z) (s : machine) : result outcome :=
  next (set_accu (env s + 8 * n) s).

Definition exec_closure (i : instruction) (s : machine) : option (result outcome) :=
  match i with
  | CLOSURE => Some (with_operand s (fun nvars s =>
      let s := if 0 <? nvars then pushaccu s else s in
      let* vars := top nvars s in
      let* off := operand s 0 in
      let (v, s) := alloc_block Closure_tag 0 (pc_plus s off :: closinfo 2 1 :: vars) s in
      let* s := pop nvars (advance 1 (set_accu v s)) in
      next s))
  | CLOSUREREC => Some (
      let* nfuncs := operand s 0 in
      let* nvars := operand s 1 in
      if nfuncs <? 1 then Undef else do_closurerec nfuncs nvars (advance 2 s))
  | PUSHOFFSETCLOSURE => Some (with_operand (pushaccu s) offsetclosure)
  | OFFSETCLOSURE => Some (with_operand s offsetclosure)
  | PUSHOFFSETCLOSUREM3 => Some (offsetclosure (-3) (pushaccu s))
  | OFFSETCLOSUREM3 => Some (offsetclosure (-3) s)
  | PUSHOFFSETCLOSURE0 => Some (offsetclosure 0 (pushaccu s))
  | OFFSETCLOSURE0 => Some (offsetclosure 0 s)
  | PUSHOFFSETCLOSURE3 => Some (offsetclosure 3 (pushaccu s))
  | OFFSETCLOSURE3 => Some (offsetclosure 3 s)
  | _ => None
  end.

(** ** Globals and atoms *)

Definition getglobal (s : machine) : result outcome :=
  with_operand s (fun n s => next_accu (get_field s caml_global_data n) s).
Definition getglobalfield (s : machine) : result outcome :=
  let* n := operand s 0 in
  let* p := operand s 1 in
  let* g := get_field s caml_global_data n in
  next_accu (get_field s g p) (advance 2 s).

(** caml_modify(&Field(v, n), x); accu = Val_unit *)
Definition modify (v n x : Z) (s : machine) : result outcome :=
  let* m := set_Field (h_mem (mheap s)) v n x in
  next (set_accu Val_unit (set_mem m s)).

Definition exec_global (i : instruction) (s : machine) : option (result outcome) :=
  match i with
  | PUSHGETGLOBAL => Some (getglobal (pushaccu s))
  | GETGLOBAL => Some (getglobal s)
  | PUSHGETGLOBALFIELD => Some (getglobalfield (pushaccu s))
  | GETGLOBALFIELD => Some (getglobalfield s)
  | SETGLOBAL => Some (with_operand s (fun n s => modify caml_global_data n (accu s) s))
  | PUSHATOM0 => Some (next (set_accu (Atom 0) (pushaccu s)))
  | ATOM0 => Some (next (set_accu (Atom 0) s))
  | PUSHATOM => Some (with_operand (pushaccu s) (fun t s => next (set_accu (Atom t) s)))
  | ATOM => Some (with_operand s (fun t s => next (set_accu (Atom t) s)))
  | _ => None
  end.

(** ** Blocks *)

Definition Faux_mixed_block_sentinel : Z := 0xff.

(** a block of [wosize] fields: the accumulator, then words from the stack *)
Definition makeblock (wosize tag reserved : Z) (s : machine) : result outcome :=
  if wosize <? 1 then Undef else
  let* args := top (wosize - 1) s in
  let (v, s) := alloc_block tag reserved (accu s :: args) s in
  let* s := pop (wosize - 1) s in
  next (set_accu v s).

(** [Double_val] of each of the values [vs] *)
Fixpoint double_vals (s : machine) (vs : list Z) : result (list Z) :=
  match vs with
  | [] => Ok []
  | v :: vs =>
      let* d := get_field s v 0 in
      let* ds := double_vals s vs in
      Ok (d :: ds)
  end.

Definition getfield (n : Z) (s : machine) : result outcome := next_accu (get_field s (accu s) n) s.
Definition setfield (n : Z) (s : machine) : result outcome :=
  let* x := sp s 0 in
  let* s := pop 1 s in
  modify (accu s) n x s.

Definition exec_block (i : instruction) (s : machine) : option (result outcome) :=
  match i with
  | MAKEBLOCK => Some (
      let* wosize := operand s 0 in
      let* tag := operand s 1 in
      makeblock wosize tag 0 (advance 2 s))
  | MAKEBLOCK1 => Some (with_operand s (fun tag s => makeblock 1 tag 0 s))
  | MAKEBLOCK2 => Some (with_operand s (fun tag s => makeblock 2 tag 0 s))
  | MAKEBLOCK3 => Some (with_operand s (fun tag s => makeblock 3 tag 0 s))
  | MAKE_FAUX_MIXEDBLOCK => Some (
      let* wosize := operand s 0 in
      let* tag := operand s 1 in
      makeblock wosize tag Faux_mixed_block_sentinel (advance 2 s))
  | MAKEFLOATBLOCK => Some (with_operand s (fun size s =>
      if size <? 1 then Undef else
      let* args := top (size - 1) s in
      let* ds := double_vals s (accu s :: args) in
      let (v, s) := alloc_block Double_array_tag 0 ds s in
      let* s := pop (size - 1) s in
      next (set_accu v s)))
  | GETFIELD0 => Some (getfield 0 s)
  | GETFIELD1 => Some (getfield 1 s)
  | GETFIELD2 => Some (getfield 2 s)
  | GETFIELD3 => Some (getfield 3 s)
  | GETFIELD => Some (with_operand s getfield)
  | GETFLOATFIELD => Some (with_operand s (fun n s =>
      let* d := get_field s (accu s) n in
      let (v, s) := alloc_block Double_tag 0 [d] s in
      next (set_accu v s)))
  | SETFIELD0 => Some (setfield 0 s)
  | SETFIELD1 => Some (setfield 1 s)
  | SETFIELD2 => Some (setfield 2 s)
  | SETFIELD3 => Some (setfield 3 s)
  | SETFIELD => Some (with_operand s setfield)
  | SETFLOATFIELD => Some (with_operand s (fun n s =>
      let* v := sp s 0 in
      let* d := get_field s v 0 in
      let* s := pop 1 s in
      modify (accu s) n d s))
  | _ => None
  end.

(** ** Arrays and strings *)

Definition exec_array (i : instruction) (s : machine) : option (result outcome) :=
  match i with
  | VECTLENGTH => Some (
      let* size := Wosize_val (h_mem (mheap s)) (accu s) in
      next (set_accu (Val_long size) s))
  | GETVECTITEM => Some (
      let* n := sp s 0 in
      let* x := get_field s (accu s) (Long_val n) in
      let* s := pop 1 (set_accu x s) in
      next s)
  | SETVECTITEM => Some (
      let* n := sp s 0 in
      let* x := sp s 1 in
      let* s := pop 2 s in
      modify (accu s) (Long_val n) x s)
  | GETSTRINGCHAR | GETBYTESCHAR => Some (
      let* n := sp s 0 in
      let* b := Byte_u (h_mem (mheap s)) (accu s) (Long_val n) in
      let* s := pop 1 (set_accu (Val_int b) s) in
      next s)
  | SETBYTESCHAR => Some (
      let* n := sp s 0 in
      let* b := sp s 1 in
      let* m := set_Byte_u (h_mem (mheap s)) (accu s) (Long_val n) (Int_val b) in
      let* s := pop 2 (set_accu Val_unit (set_mem m s)) in
      next s)
  | _ => None
  end.

(** ** Branches *)

(** [if (taken) pc += *pc; else pc++] *)
Definition branch_if (taken : bool) (s : machine) : result outcome :=
  if taken then let* n := operand s 0 in next (advance n s) else next (advance 1 s).

Definition exec_branch (i : instruction) (s : machine) : option (result outcome) :=
  match i with
  | BRANCH => Some (branch_if true s)
  | BRANCHIF => Some (branch_if (negb (accu s =? Val_false)) s)
  | BRANCHIFNOT => Some (branch_if (accu s =? Val_false) s)
  | SWITCH => Some (with_operand s (fun n s =>
      let sizes := u32 n in
      let* index :=
        if Is_block (accu s)
        then rmap (fun tag => Z.land sizes 0xFFFF + tag) (Tag_val (h_mem (mheap s)) (accu s))
        else Ok (Long_val (accu s)) in
      let* off := operand s index in
      next (advance off s)))
  | BOOLNOT => Some (next (set_accu (Val_not (accu s)) s))
  | _ => None
  end.

(** ** Exceptions and signals *)

Definition exec_exception (i : instruction) (s : machine) : option (result outcome) :=
  match i with
  | PUSHTRAP => Some (
      let* n := operand s 0 in
      let trap := [pc_plus s n; Val_long (trap_sp_off s); env s; Val_long (extra_args s)] in
      let s := set_stack (trap ++ stack s) s in
      next (advance 1 (set_trap_sp_off (- zlen (stack s)) s)))
  | POPTRAP => Some (
      if gc_interrupt s then process_signal raise (advance (-1) s)
      else
        let* link := sp s 1 in
        let* s := pop 4 (set_trap_sp_off (Long_val link) s) in
        next s)
  | RAISE_NOTRACE => Some (raise s)
  | RERAISE | RAISE => Some (raise_exception s)
  | CHECK_SIGNALS => Some (check_signals raise s)
  | _ => None
  end.

(** ** Calls to C functions *)

(** [args] are passed; [nargs] words of the stack are popped on return *)
Definition call_primitive (args : list Z) (npop : Z) (s : machine) : result outcome :=
  let* prim := operand s 0 in
  let s := setup_for_c_call s in
  let* (r, h) := primitive prim args (mheap s) in
  let s := set_heap h s in
  match r with
  | inl v =>
      let* s := restore_after_c_call (set_accu v s) in
      let* s := pop npop s in
      next (advance 1 s)
  | inr e => raise (set_accu e s)
  end.

Definition c_call (n : Z) (s : machine) : result outcome :=
  let* args := top (n - 1) s in
  call_primitive (accu s :: args) (n - 1) s.

Definition exec_ccall (i : instruction) (s : machine) : option (result outcome) :=
  match i with
  | C_CALL1 => Some (c_call 1 s)
  | C_CALL2 => Some (c_call 2 s)
  | C_CALL3 => Some (c_call 3 s)
  | C_CALL4 => Some (c_call 4 s)
  | C_CALL5 => Some (c_call 5 s)
  | C_CALLN => Some (with_operand s (fun nargs s =>
      let s := pushaccu s in
      let* args := top nargs s in
      call_primitive args nargs s))
  | _ => None
  end.

(** ** Integers *)

Definition const (n : Z) (s : machine) : result outcome := next (set_accu (Val_int n) s).

Definition exec_const (i : instruction) (s : machine) : option (result outcome) :=
  match i with
  | CONST0 => Some (const 0 s)
  | CONST1 => Some (const 1 s)
  | CONST2 => Some (const 2 s)
  | CONST3 => Some (const 3 s)
  | PUSHCONST0 => Some (const 0 (pushaccu s))
  | PUSHCONST1 => Some (const 1 (pushaccu s))
  | PUSHCONST2 => Some (const 2 (pushaccu s))
  | PUSHCONST3 => Some (const 3 (pushaccu s))
  | PUSHCONSTINT => Some (with_operand (pushaccu s) const)
  | CONSTINT => Some (with_operand s const)
  | _ => None
  end.

(** [accu = f(accu, *sp++)] *)
Definition binop (s : machine) (f : Z -> Z -> result Z) : result outcome :=
  let* y := sp s 0 in
  let* r := f (accu s) y in
  let* s := pop 1 s in
  next (set_accu r s).

(** [accu = Val_long(Long_val(accu) op divisor)], unless the divisor is 0 *)
Definition division (s : machine) (op : Z -> Z -> Z) : result outcome :=
  let* y := sp s 0 in
  let* s := pop 1 s in
  let divisor := Long_val y in
  if divisor =? 0 then caml_raise exn_zero_divide (setup_for_c_call s)
  else next (set_accu (Val_long (op (Long_val (accu s)) divisor)) s).

(** shifting a 64-bit word by a negative amount or by 64 and more is undefined *)
Definition shift (x n : Z) (f : Z -> Z -> Z) : result Z :=
  if (0 <=? n) && (n <? 64) then Ok (s64 (f x n)) else Undef.

Definition exec_int (i : instruction) (s : machine) : option (result outcome) :=
  match i with
  | NEGINT => Some (next (set_accu (s64 (2 - accu s)) s))
  | ADDINT => Some (binop s (fun x y => Ok (s64 (x + y - 1))))
  | SUBINT => Some (binop s (fun x y => Ok (s64 (x - y + 1))))
  | MULINT => Some (binop s (fun x y => Ok (Val_long (s64 (Long_val x * Long_val y)))))
  | DIVINT => Some (division s Z.quot)
  | MODINT => Some (division s Z.rem)
  | ANDINT => Some (binop s (fun x y => Ok (Z.land x y)))
  | ORINT => Some (binop s (fun x y => Ok (Z.lor x y)))
  | XORINT => Some (binop s (fun x y => Ok (Z.lor (Z.lxor x y) 1)))
  | LSLINT => Some (binop s (fun x y =>
      rmap (fun z => s64 (z + 1)) (shift (s64 (x - 1)) (Long_val y) Z.shiftl)))
  | LSRINT => Some (binop s (fun x y =>
      rmap (fun z => Z.lor z 1) (shift (u64 x) (Long_val y) Z.shiftr)))
  | ASRINT => Some (binop s (fun x y =>
      rmap (fun z => Z.lor z 1) (shift x (Long_val y) Z.shiftr)))
  | _ => None
  end.

Definition exec_offset (i : instruction) (s : machine) : option (result outcome) :=
  match i with
  | OFFSETINT => Some (with_operand s (fun n s => next (set_accu (s64 (accu s + s32 (2 * n))) s)))
  | OFFSETREF => Some (with_operand s (fun n s =>
      let* x := get_field s (accu s) 0 in
      let* m := set_Field (h_mem (mheap s)) (accu s) 0 (s64 (x + s32 (2 * n))) in
      next (set_accu Val_unit (set_mem m s))))
  | ISINT => Some (next (set_accu (Val_long (Z.land (accu s) 1)) s))
  | _ => None
  end.

(** Integer_comparison *)
Definition comparison (typ : Z -> Z) (tst : Z -> Z -> bool) (s : machine) : result outcome :=
  binop s (fun x y => Ok (Val_int (if tst (typ x) (typ y) then 1 else 0))).

Definition intnat (x : Z) : Z := x.
Definition neqb (x y : Z) : bool := negb (x =? y).

Definition exec_comparison (i : instruction) (s : machine) : option (result outcome) :=
  match i with
  | EQ => Some (comparison intnat Z.eqb s)
  | NEQ => Some (comparison intnat neqb s)
  | LTINT => Some (comparison intnat Z.ltb s)
  | LEINT => Some (comparison intnat Z.leb s)
  | GTINT => Some (comparison intnat Z.gtb s)
  | GEINT => Some (comparison intnat Z.geb s)
  | ULTINT => Some (comparison u64 Z.ltb s)
  | UGEINT => Some (comparison u64 Z.geb s)
  | _ => None
  end.

(** Integer_branch_comparison *)
Definition branch_comparison (typ : Z -> Z) (tst : Z -> Z -> bool) (s : machine)
    : result outcome :=
  with_operand s (fun n s => branch_if (tst (typ n) (typ (Long_val (accu s)))) s).

Definition exec_branch_comparison (i : instruction) (s : machine) : option (result outcome) :=
  match i with
  | BEQ => Some (branch_comparison intnat Z.eqb s)
  | BNEQ => Some (branch_comparison intnat neqb s)
  | BLTINT => Some (branch_comparison intnat Z.ltb s)
  | BLEINT => Some (branch_comparison intnat Z.leb s)
  | BGTINT => Some (branch_comparison intnat Z.gtb s)
  | BGEINT => Some (branch_comparison intnat Z.geb s)
  | BULTINT => Some (branch_comparison u64 Z.ltb s)
  | BUGEINT => Some (branch_comparison u64 Z.geb s)
  | _ => None
  end.

(** ** Objects *)

(** Lookup(obj, lab) *)
Definition Lookup (m : mem) (obj lab : Z) : result Z :=
  let* meths := Field m obj 0 in
  Field m meths (Int_val lab).

(** the binary search for [tag] in the method table: from [li] and [hi], the index
    where it stops *)
Fixpoint search_method (fuel : nat) (m : mem) (meths tag li hi : Z) {struct fuel} : result Z :=
  if li <? hi then
    match fuel with
    | O => NoFuel
    | S fuel =>
        let mi := Z.lor (Z.shiftr (s32 (li + hi)) 1) 1 in
        let* x := Field m meths mi in
        if tag <? x then search_method fuel m meths tag li (s32 (mi - 2))
        else search_method fuel m meths tag mi hi
    end
  else Ok li.

(** each turn halves [hi - li], an [int] *)
Definition search_fuel : nat := 32.

Definition find_method (m : mem) (meths tag : Z) : result Z :=
  let* hi := Field m meths 0 in
  search_method search_fuel m meths tag 3 (s32 hi).

Definition do_getpubmet (s : machine) : result outcome :=
  let m := h_mem (mheap s) in
  let* meths := get_field s (accu s) 0 in
  let s := pushaccu s in
  let* tag := operand s 0 in
  let s := advance 1 (set_accu (Val_int tag) s) in
  let* cache := operand s 0 in
  let* mask := Field m meths 1 in
  let ofs := Z.land cache mask in
  let* x := load m (meths + 8 * 3 + ofs) in
  if x =? accu s then
    let* f := load m (meths + 8 * 2 + ofs) in
    next (advance 1 (set_accu f s))
  else
    let* li := find_method m meths (accu s) in
    let s := set_code (<[pc s := s32 ((li - 3) * 8)]> (code s)) s in
    let* f := Field m meths (li - 1) in
    next (advance 1 (set_accu f s)).

Definition exec_method (i : instruction) (s : machine) : option (result outcome) :=
  let m := h_mem (mheap s) in
  match i with
  | GETMETHOD => Some (let* obj := sp s 0 in next_accu (Lookup m obj (accu s)) s)
  | GETPUBMET => Some (do_getpubmet s)
  | GETDYNMET => Some (
      let* obj := sp s 0 in
      let* meths := Field m obj 0 in
      let* li := find_method m meths (accu s) in
      next_accu (Field m meths (li - 1)) s)
  | _ => None
  end.

(** ** Effects *)

(** the fiber at the end of the chain of parents from [stk] *)
Fixpoint last_fiber (fuel : nat) (fs : gmap Z fiber) (stk : Z) : result Z :=
  match fuel with
  | O => NoFuel
  | S fuel =>
      let* f := of_option (fs !! stk) in
      if f_parent f =? 0 then Ok stk else last_fiber fuel fs (f_parent f)
  end.

Definition with_parent (p : Z) (f : fiber) : fiber :=
  Fiber (f_stack f) p (f_handle_value f) (f_handle_exn f) (f_handle_effect f).
Definition with_stack (st : list Z) (f : fiber) : fiber :=
  Fiber st (f_parent f) (f_handle_value f) (f_handle_exn f) (f_handle_effect f).

(** do_resume: the continuation in [accu] runs above the current stack *)
Definition do_resume (resume_fn resume_arg : Z) (s : machine) : result outcome :=
  let stk := Ptr_val (accu s) in
  if stk =? 0 then caml_raise exn_already_resumed (setup_for_c_call s)
  else
    let* last := last_fiber (S (size (fibers s))) (fibers s) stk in
    let fs := alter (with_parent (current_stack s)) last (fibers s) in
    let fs := alter (with_stack (stack s)) (current_stack s) fs in
    let* f := of_option (fs !! stk) in
    match f_stack f with
    | trap :: rest =>
        let s := set_stack (resume_arg :: rest) (set_fibers stk fs s) in
        let s := set_accu resume_fn (set_trap_sp_off (Long_val trap) s) in
        enter (set_extra_args 0 s)
    | [] => Undef
    end.

(** the frame [RESUMETERM] and [REPERFORMTERM] leave below a terminal call:
    sp = sp + *pc - 2, then two words *)
Definition terminal_frame (s : machine) : result machine :=
  let* n := operand s 0 in
  let* s' := pop n s in
  Ok (set_stack (Val_long (trap_sp_off s) :: Val_long (extra_args s) :: stack s') s).

(** switches to [parent], giving the effect to the handler of [self] *)
Definition handle_effect (self parent : Z) (h : Z) (eff cont : Z) (fs : gmap Z fiber)
    (s : machine) : result outcome :=
  let* p := of_option (fs !! parent) in
  match f_stack p with
  | trap :: ea :: rest =>
      let s := set_stack (eff :: cont :: Val_ptr self :: rest) (set_fibers parent fs s) in
      let s := set_accu h (set_trap_sp_off (Long_val trap) s) in
      enter (set_extra_args (Long_val ea + 2) s)
  | _ => Undef
  end.

Definition do_perform (s : machine) : result outcome :=
  let old := current_stack s in
  let* f := fiber_of s old in
  if f_parent f =? 0 then
    let s := setup_for_c_call s in
    let (e, h) := caml_make_unhandled_effect_exn (accu s) (mheap s) in
    let* s := restore_after_c_call (set_accu e (set_heap h s)) in
    raise_exception s
  else
    let (cont, s) := alloc_block Cont_tag 0 [Val_ptr old] s in
    let frame := [Val_long (trap_sp_off s); pc s; env s; Val_long (extra_args s)] in
    let saved := with_parent 0 (with_stack (frame ++ stack s) f) in
    handle_effect old (f_parent f) (f_handle_effect f) (accu s) cont
      (<[old := saved]> (fibers s)) s.

(** [caml_continuation_use] (fiber.c): takes the fiber out of the continuation *)
Definition caml_continuation_use (m : mem) (cont : Z) : result (Z * mem) :=
  let* v := Field m cont 0 in
  let* m := set_Field m cont 0 (Val_ptr 0) in
  Ok (v, m).

Definition do_reperformterm (s : machine) : result outcome :=
  let eff := accu s in
  let* cont := sp s 0 in
  let* tail := sp s 1 in
  let cont_tail := Ptr_val tail in
  let self := current_stack s in
  let* f := fiber_of s self in
  let* s := terminal_frame s in
  if f_parent f =? 0 then
    let s := setup_for_c_call s in
    let (arg, h) := caml_make_unhandled_effect_exn eff (mheap s) in
    let s := set_heap h s in
    let* (v, m) := caml_continuation_use (h_mem (mheap s)) cont in
    let s := set_mem m s in
    if v =? Val_ptr 0 then caml_raise exn_already_resumed s
    else
      let* s := restore_after_c_call (set_accu v s) in
      do_resume raise_unhandled_effect arg s
  else
    let saved := with_parent 0 (with_stack (stack s) f) in
    let fs := alter (with_parent self) cont_tail (<[self := saved]> (fibers s)) in
    handle_effect self (f_parent f) (f_handle_effect f) eff cont fs s.

Definition exec_effect (i : instruction) (s : machine) : option (result outcome) :=
  match i with
  | RESUME => Some (
      let* resume_fn := sp s 0 in
      let* resume_arg := sp s 1 in
      let* s' := pop 2 s in
      let frame := [Val_long (trap_sp_off s); Val_long 0; pc s; env s; Val_long (extra_args s)] in
      do_resume resume_fn resume_arg (set_stack (frame ++ stack s') s))
  | RESUMETERM => Some (
      let* resume_fn := sp s 0 in
      let* resume_arg := sp s 1 in
      let* s := terminal_frame s in
      do_resume resume_fn resume_arg s)
  | PERFORM => Some (do_perform s)
  | REPERFORMTERM => Some (do_reperformterm s)
  | _ => None
  end.

(** ** The interpreter *)

(** STOP *)
Definition exec_stop (i : instruction) (s : machine) : option (result outcome) :=
  match i with
  | STOP => Some (Ok (Return (accu s) (set_trap_sp_off initial_trap_sp_off s)))
  | _ => None
  end.

(** the first of the families that knows the instruction *)
Definition exec (i : instruction) (s : machine) : result outcome :=
  let families :=
    [exec_stack; exec_env; exec_apply; exec_closure; exec_global; exec_block; exec_array;
     exec_branch; exec_exception; exec_ccall; exec_const; exec_int; exec_offset; exec_comparison;
     exec_branch_comparison; exec_method; exec_effect; exec_stop] in
  default Undef (foldr (fun f o => match f i s with Some r => Some r | None => o end)
                   None families).

(** [curr_instr = *pc++], and its case *)
Definition step (s : machine) : result outcome :=
  let* op := operand s 0 in
  let* i := of_option (decode op) in
  exec i (advance 1 s).

(** at most [n] instructions: the value returned, or the machine reached *)
Fixpoint run (n : nat) (s : machine) : result outcome :=
  match n with
  | O => Ok (Next s)
  | S n =>
      let* o := step s in
      match o with
      | Next s => run n s
      | Return _ _ => Ok o
      end
  end.

(** [caml_interprete(prog, _)], on the current stack *)
Definition caml_interprete (prog : Z) (n : nat) (s : machine) : result outcome :=
  run n (set_accu (Val_int 0) (set_env (Atom 0) (set_extra_args 0
           (set_trap_sp_off 1 (set_pc prog s))))).

(** ** Compressed instructions *)

(** runs [k] after an instruction that goes on *)
Definition and_then (r : result outcome) (k : machine -> result outcome) : result outcome :=
  let* o := r in match o with Next s => k s | Return _ _ => Ok o end.

(** the instructions that begin by pushing the accumulator, and what they do next *)
Definition push_forms : list (instruction * instruction) :=
  [(PUSHACC0, ACC0); (PUSHACC1, ACC1); (PUSHACC2, ACC2); (PUSHACC3, ACC3);
   (PUSHACC4, ACC4); (PUSHACC5, ACC5); (PUSHACC6, ACC6); (PUSHACC7, ACC7);
   (PUSHACC, ACC);
   (PUSHENVACC1, ENVACC1); (PUSHENVACC2, ENVACC2); (PUSHENVACC3, ENVACC3);
   (PUSHENVACC4, ENVACC4); (PUSHENVACC, ENVACC);
   (PUSHOFFSETCLOSUREM3, OFFSETCLOSUREM3); (PUSHOFFSETCLOSURE0, OFFSETCLOSURE0);
   (PUSHOFFSETCLOSURE3, OFFSETCLOSURE3); (PUSHOFFSETCLOSURE, OFFSETCLOSURE);
   (PUSHGETGLOBAL, GETGLOBAL); (PUSHGETGLOBALFIELD, GETGLOBALFIELD);
   (PUSHATOM0, ATOM0); (PUSHATOM, ATOM);
   (PUSHCONST0, CONST0); (PUSHCONST1, CONST1); (PUSHCONST2, CONST2);
   (PUSHCONST3, CONST3); (PUSHCONSTINT, CONSTINT)].

(** the instructions with their first operand built in *)
Definition operand_forms : list (instruction * instruction * Z) :=
  [(ACC0, ACC, 0); (ACC1, ACC, 1); (ACC2, ACC, 2); (ACC3, ACC, 3);
   (ACC4, ACC, 4); (ACC5, ACC, 5); (ACC6, ACC, 6); (ACC7, ACC, 7);
   (ENVACC1, ENVACC, 1); (ENVACC2, ENVACC, 2); (ENVACC3, ENVACC, 3); (ENVACC4, ENVACC, 4);
   (OFFSETCLOSUREM3, OFFSETCLOSURE, -3); (OFFSETCLOSURE0, OFFSETCLOSURE, 0);
   (OFFSETCLOSURE3, OFFSETCLOSURE, 3);
   (ATOM0, ATOM, 0);
   (MAKEBLOCK1, MAKEBLOCK, 1); (MAKEBLOCK2, MAKEBLOCK, 2); (MAKEBLOCK3, MAKEBLOCK, 3);
   (GETFIELD0, GETFIELD, 0); (GETFIELD1, GETFIELD, 1);
   (GETFIELD2, GETFIELD, 2); (GETFIELD3, GETFIELD, 3);
   (SETFIELD0, SETFIELD, 0); (SETFIELD1, SETFIELD, 1);
   (SETFIELD2, SETFIELD, 2); (SETFIELD3, SETFIELD, 3);
   (CONST0, CONSTINT, 0); (CONST1, CONSTINT, 1); (CONST2, CONSTINT, 2); (CONST3, CONSTINT, 3)].

Ltac exec_cbn :=
  unfold exec; cbn [foldr default exec_stack exec_env exec_apply exec_closure exec_global
    exec_block exec_array exec_branch exec_exception exec_ccall exec_const exec_int exec_offset
    exec_comparison exec_branch_comparison exec_method exec_effect exec_stop from_option id].

Lemma pc_plus_advance s n k : pc_plus (advance n s) k = pc_plus s (n + k).
Proof. unfold pc_plus, advance. cbn [pc set_pc]. lia. Qed.

Lemma operand_advance s n i : operand (advance n s) i = operand s (n + i).
Proof. unfold operand, advance. cbn [pc code set_pc].
  by replace (pc s + 4 * n + 4 * i) with (pc s + 4 * (n + i)) by lia.
Qed.

Lemma advance_advance s n k : advance n (advance k s) = advance (k + n) s.
Proof.
  unfold advance, set_pc. cbn [pc stack accu env extra_args trap_sp_off code
    current_stack fibers mheap]. f_equal. lia.
Qed.

(** The interpreter's compressed instructions do what the sequences they abbreviate
    do, in every state, undefined behaviour included: each PUSHx instruction is PUSH
    followed by x, and each instruction with its first operand built in is the generic
    instruction with that operand in the code. *)
Theorem compressed_instructions :
  (forall i j s, (i, j) ∈ push_forms -> exec i s = and_then (exec PUSH s) (exec j)) /\
  (forall i g n s, (i, g, n) ∈ operand_forms -> operand s 0 = Ok n ->
     exec g s = exec i (advance 1 s)) /\
  (forall s, exec GETSTRINGCHAR s = exec GETBYTESCHAR s).
Proof.
  split_and!.
  - intros i j s H. apply list_elem_of_In in H.
    repeat (destruct H as [[= <- <-] | H]; [destruct s; exec_cbn; reflexivity|]). done.
  - intros i g n s H Hn. apply list_elem_of_In in H.
    repeat (destruct H as [[= <- <- <-] | H];
      [exec_cbn; unfold with_operand; rewrite ?operand_advance, ?Hn; cbn [rbind];
       rewrite ?advance_advance; reflexivity|]). done.
  - reflexivity.
Qed.

(** ** Integer arithmetic *)

(** what the integer instructions compute, on the language's integers *)
Definition int_operations : list (instruction * (Z -> Z -> Z)) :=
  [(ADDINT, Z.add); (SUBINT, Z.sub); (MULINT, Z.mul); (DIVINT, Z.quot); (MODINT, Z.rem);
   (ANDINT, Z.land); (ORINT, Z.lor); (XORINT, Z.lxor); (LSLINT, Z.shiftl);
   (LSRINT, fun x y => Z.shiftr (x mod 2 ^ 63) y); (ASRINT, Z.shiftr)].

Definition int_comparisons : list (instruction * (Z -> Z -> bool)) :=
  [(EQ, Z.eqb); (NEQ, neqb); (LTINT, Z.ltb); (LEINT, Z.leb); (GTINT, Z.gtb); (GEINT, Z.geb);
   (ULTINT, fun x y => x mod 2 ^ 63 <? y mod 2 ^ 63);
   (UGEINT, fun x y => x mod 2 ^ 63 >=? y mod 2 ^ 63)].

(** the second operands for which the operation has a meaning *)
Definition second_operand (i : instruction) (y : Z) : Prop :=
  match i with
  | DIVINT | MODINT => y <> 0
  | LSLINT | LSRINT | ASRINT => 0 <= y < 64
  | _ => True
  end.

Lemma Val_long_s63_wrap z : Val_long (s63 z) = s64 (2 * z + 1).
Proof. rewrite Val_long_eq. solve_word. Qed.

Lemma lor_1_double z : Z.lor (2 * z) 1 = 2 * z + 1.
Proof. apply (lor_add (2 * z) 1 1); [lia|zlia|lia]. Qed.

Lemma lor_1_odd z : Z.lor (2 * z + 1) 1 = 2 * z + 1.
Proof.
  rewrite <- lor_1_double. rewrite <- Z.lor_assoc. by rewrite (Z.lor_diag 1).
Qed.

Lemma land_odd x y : Z.land (2 * x + 1) (2 * y + 1) = 2 * Z.land x y + 1.
Proof.
  apply Z.bits_inj'. intros i Hi. rewrite Z.land_spec.
  destruct (decide (i = 0)) as [->|]; [by rewrite !Z.testbit_odd_0|].
  replace i with (Z.succ (i - 1)) by lia.
  rewrite !Z.testbit_odd_succ by lia. by rewrite Z.land_spec.
Qed.

Lemma lor_odd x y : Z.lor (2 * x + 1) (2 * y + 1) = 2 * Z.lor x y + 1.
Proof.
  apply Z.bits_inj'. intros i Hi. rewrite Z.lor_spec.
  destruct (decide (i = 0)) as [->|]; [by rewrite !Z.testbit_odd_0|].
  replace i with (Z.succ (i - 1)) by lia.
  rewrite !Z.testbit_odd_succ by lia. by rewrite Z.lor_spec.
Qed.

Lemma lxor_odd x y : Z.lor (Z.lxor (2 * x + 1) (2 * y + 1)) 1 = 2 * Z.lxor x y + 1.
Proof.
  apply Z.bits_inj'. intros i Hi. rewrite Z.lor_spec, Z.lxor_spec.
  destruct (decide (i = 0)) as [->|]; [by rewrite !Z.testbit_odd_0|].
  replace i with (Z.succ (i - 1)) by lia.
  rewrite !Z.testbit_odd_succ by lia. rewrite Z.lxor_spec.
  rewrite (Z.bits_above_log2 1 (Z.succ (i - 1))) by (simpl; lia). btauto.
Qed.

Lemma shiftr_odd m n :
  0 <= n -> Z.lor (Z.shiftr (2 * m + 1) n) 1 = 2 * Z.shiftr m n + 1.
Proof.
  intros Hn. apply Z.bits_inj'. intros i Hi. rewrite Z.lor_spec, Z.shiftr_spec by done.
  destruct (decide (i = 0)) as [->|].
  { rewrite Z.testbit_odd_0. apply orb_true_r. }
  replace i with (Z.succ (i - 1)) by lia. replace (Z.succ (i - 1) + n) with (Z.succ (i - 1 + n)) by lia.
  rewrite !Z.testbit_odd_succ, Z.shiftr_spec by lia.
  rewrite (Z.bits_above_log2 1 (Z.succ (i - 1))) by (simpl; lia). btauto.
Qed.

Section IntegerOperands.
Context (x y : Z) (Hx : is_s63 x) (Hy : is_s63 y).

Lemma shift_left_long :
  0 <= y -> s64 (s64 (Z.shiftl (s64 (Val_long x - 1)) y) + 1) = Val_long (s63 (Z.shiftl x y)).
Proof.
  intros H. rewrite Val_long_s63_wrap, (Val_long_s63 x) by done.
  replace (s64 (2 * x + 1 - 1)) with (2 * x) by solve_word.
  rewrite !Z.shiftl_mul_pow2 by done. rewrite <- Z.mul_assoc.
  set (z := x * 2 ^ y). solve_word.
Qed.

Lemma shift_right_logical_long :
  0 <= y -> Z.lor (s64 (Z.shiftr (u64 (Val_long x)) y)) 1
            = Val_long (s63 (Z.shiftr (x mod 2 ^ 63) y)).
Proof.
  intros H. rewrite (Val_long_s63 x) by done.
  replace (u64 (2 * x + 1)) with (2 * (x mod 2 ^ 63) + 1) by solve_word.
  destruct (decide (y = 0)) as [->|].
  - rewrite !Z.shiftr_0_r, Val_long_s63_wrap.
    replace (s64 (2 * (x mod 2 ^ 63) + 1)) with (2 * x + 1) by solve_word.
    apply lor_1_odd.
  - assert (R : forall a, 0 <= a < 2 ^ 64 -> 0 <= Z.shiftr a y < 2 ^ 63).
    { intros a Ha. rewrite Z.shiftr_div_pow2 by done.
      assert (2 ^ 1 <= 2 ^ y) by (apply Z.pow_le_mono_r; lia).
      split; [apply Z.div_pos; lia|]. apply Z.div_lt_upper_bound; [lia|]. nia. }
    rewrite s64_id, shiftr_odd, Val_long_s63_wrap, s64_id; [done| |done|].
    + unfold is_s64. pose proof (shiftr_odd (x mod 2 ^ 63) y H) as <-.
      pose proof (R (2 * (x mod 2 ^ 63) + 1) ltac:(zlia)) as B.
      split; [pose proof (proj2 (Z.lor_nonneg (Z.shiftr (2 * (x mod 2 ^ 63) + 1) y) 1)); lia|].
      apply (bits_range _ 63); [lia|apply Z.lor_nonneg; lia|]. intros i Hi.
      rewrite Z.lor_spec, (testbit_high _ 63), (testbit_high 1 63) by lia. done.
    + pose proof (R (2 * (x mod 2 ^ 63) + 1) ltac:(zlia)). unfold is_s64. lia.
Qed.

Lemma shift_right_long :
  0 <= y -> Z.lor (s64 (Z.shiftr (Val_long x) y)) 1 = Val_long (s63 (Z.shiftr x y)).
Proof.
  intros H. assert (R : forall a, is_s64 a -> is_s64 (Z.shiftr a y)).
  { unfold is_s64. intros a Ha. rewrite Z.shiftr_div_pow2 by done.
    assert (2 ^ 0 <= 2 ^ y) by (apply Z.pow_le_mono_r; lia).
    split; [apply Z.div_le_lower_bound; nia|]. apply Z.div_lt_upper_bound; nia. }
  rewrite (Val_long_s63 x), Val_long_s63_wrap, s64_id, shiftr_odd, s64_id; try done.
  - unfold is_s63, is_s64 in *. rewrite Z.shiftr_div_pow2 by done.
    assert (2 ^ 0 <= 2 ^ y) by (apply Z.pow_le_mono_r; lia).
    pose proof (Z.div_le_lower_bound x (2 ^ y) (- 2 ^ 62) ltac:(lia) ltac:(nia)).
    pose proof (Z.div_lt_upper_bound x (2 ^ y) (2 ^ 62) ltac:(lia) ltac:(nia)). lia.
  - apply R. unfold is_s63, is_s64 in *. lia.
Qed.

Lemma compare_long :
  (Val_long x =? Val_long y) = (x =? y) /\ (Val_long x <? Val_long y) = (x <? y) /\
  (Val_long x <=? Val_long y) = (x <=? y) /\
  (u64 (Val_long x) <? u64 (Val_long y)) = (x mod 2 ^ 63 <? y mod 2 ^ 63) /\
  (u64 (Val_long x) <=? u64 (Val_long y)) = (x mod 2 ^ 63 <=? y mod 2 ^ 63).
Proof.
  rewrite !Val_long_s63 by done. unfold is_s63, u64 in *.
  replace ((2 * x + 1) mod 2 ^ 64) with (2 * (x mod 2 ^ 63) + 1) by zlia.
  replace ((2 * y + 1) mod 2 ^ 64) with (2 * (y mod 2 ^ 63) + 1) by zlia.
  split_and!; apply eq_true_iff_eq; rewrite ?Z.eqb_eq, ?Z.ltb_lt, ?Z.leb_le; lia.
Qed.
End IntegerOperands.

Lemma is_s63_shiftr x : is_s63 x <-> Z.shiftr x 62 = 0 \/ Z.shiftr x 62 = -1.
Proof. unfold is_s63. rewrite Z.shiftr_div_pow2 by lia. zlia. Qed.

Lemma bitwise_long x y :
  is_s63 x -> is_s63 y ->
  Z.land (Val_long x) (Val_long y) = Val_long (s63 (Z.land x y)) /\
  Z.lor (Val_long x) (Val_long y) = Val_long (s63 (Z.lor x y)) /\
  Z.lor (Z.lxor (Val_long x) (Val_long y)) 1 = Val_long (s63 (Z.lxor x y)).
Proof.
  intros Hx Hy.
  assert (is_s63 (Z.land x y) /\ is_s63 (Z.lor x y) /\ is_s63 (Z.lxor x y)) as (Ha & Ho & Hxo).
  { revert Hx Hy. rewrite !is_s63_shiftr, Z.shiftr_land, Z.shiftr_lor, Z.shiftr_lxor.
    intros [-> | ->] [-> | ->]; cbn; auto. }
  rewrite !s63_id, !Val_long_s63 by done.
  by rewrite land_odd, lor_odd, lxor_odd.
Qed.

Lemma division_long x y :
  is_s63 x -> is_s63 y -> y <> 0 ->
  Val_long (Z.quot x y) = Val_long (s63 (Z.quot x y)) /\
  Val_long (Z.rem x y) = Val_long (s63 (Z.rem x y)).
Proof. intros _ _ _. rewrite !Val_long_s63_wrap, !Val_long_eq. done. Qed.

(** the second argument of the operation is on the top of the stack *)
Definition int_state (s : machine) (x y : Z) (st : list Z) : Prop :=
  is_s63 x /\ is_s63 y /\ accu s = Val_long x /\ stack s = Val_long y :: st.

Lemma sp_top s y st : stack s = y :: st -> sp s 0 = Ok y.
Proof. unfold sp. by intros ->. Qed.

Lemma pop_1 s y st : stack s = y :: st -> pop 1 s = Ok (set_stack st s).
Proof.
  unfold pop. intros ->. rewrite zlen_cons. pose proof (zlen_nonneg st).
  destruct (Z.leb_spec 1 (1 + zlen st)); [done|lia].
Qed.

Lemma binop_long s x y st f z :
  int_state s x y st -> f (Val_long x) (Val_long y) = Ok z ->
  binop s f = next (set_accu z (set_stack st s)).
Proof.
  intros (Hx & Hy & Ha & Hs) Hf. unfold binop.
  by rewrite (sp_top _ _ _ Hs), Ha, (pop_1 _ _ _ Hs); cbn [rbind]; rewrite Hf.
Qed.

Lemma shift_Ok x n f : 0 <= n < 64 -> shift x n f = Ok (s64 (f x n)).
Proof.
  intros H. unfold shift.
  by destruct (Z.leb_spec 0 n), (Z.ltb_spec n 64); [|lia..].
Qed.

Lemma division_Ok s x y st op :
  int_state s x y st -> y <> 0 ->
  division s op = next (set_accu (Val_long (op x y)) (set_stack st s)).
Proof.
  intros (Hx & Hy & Ha & Hs) H. unfold division.
  rewrite (sp_top _ _ _ Hs), (pop_1 _ _ _ Hs). cbn [rbind accu set_stack].
  rewrite Ha, !Long_val_long_id by done. by destruct (Z.eqb_spec y 0).
Qed.

(** C22: The integer instructions implement the arithmetic of OCaml's 63-bit integers:
    on the representations of [x] and [y] they consume one word of the stack and leave
    the representation of the operation's result, wrapped to 63 bits (division and
    remainder truncate and need a divisor other than 0, shifts need an amount below the
    word size), and comparisons, signed and unsigned, leave the boolean. *)
Theorem integer_instructions s x y st :
  int_state s x y st ->
  (forall i f, (i, f) ∈ int_operations -> second_operand i y ->
     exec i s = next (set_accu (Val_long (s63 (f x y))) (set_stack st s))) /\
  (forall i tst, (i, tst) ∈ int_comparisons ->
     exec i s = next (set_accu (Val_bool (tst x y)) (set_stack st s))) /\
  exec NEGINT s = next (set_accu (Val_long (s63 (- x))) s).
Proof.
  intros H. pose proof H as (Hx & Hy & Ha & Hs).
  pose proof (bitwise_long x y Hx Hy) as (Land & Lor & Lxor).
  split_and!.
  - intros i f Hi D. apply list_elem_of_In in Hi.
    assert (W : forall z, Val_long z = Val_long (s63 z))
      by (intros z; by rewrite Val_long_s63_wrap, Val_long_eq).
    repeat (destruct Hi as [[= <- <-] | Hi]; [exec_cbn; cbn [second_operand] in D|]); [..|done];
      try (rewrite (division_Ok _ x y st) by done; by rewrite <- W);
      apply (binop_long _ _ _ _ _ _ H); rewrite ?Long_val_long_id by done;
      try (f_equal; done); try (rewrite shift_Ok by lia; unfold rmap; cbn [rbind]; f_equal).
    + f_equal. rewrite Val_long_s63_wrap, !Val_long_s63 by done. f_equal. lia.
    + f_equal. rewrite Val_long_s63_wrap, !Val_long_s63 by done. f_equal. lia.
    + f_equal. rewrite Val_long_s63_wrap, Val_long_eq. set (z := x * y). solve_word.
    + apply shift_left_long; first [done | lia].
    + apply shift_right_logical_long; first [done | lia].
    + apply shift_right_long; first [done | lia].
  - pose proof (compare_long x y Hx Hy) as (E & L & LE & UL & ULE).
    pose proof (compare_long y x Hy Hx) as (_ & L' & LE' & _ & ULE').
    intros i tst Hi. apply list_elem_of_In in Hi.
    repeat (destruct Hi as [[= <- <-] | Hi]; [exec_cbn|]); [..|done];
      apply (binop_long _ _ _ _ _ _ H); unfold Val_bool, intnat, neqb;
      rewrite ?Z.gtb_ltb, ?Z.geb_leb, ?E, ?L, ?LE, ?L', ?LE', ?UL, ?ULE'; reflexivity.
  - exec_cbn. rewrite Ha, Val_long_s63_wrap, Val_long_s63 by done.
    by replace (2 - (2 * x + 1)) with (2 * - x + 1) by lia.
Qed.

(** ** Exceptions *)

Lemma pop_app s junk st n :
  stack s = junk ++ st -> n = zlen junk -> pop n s = Ok (set_stack st s).
Proof.
  unfold pop. intros -> ->. rewrite zlen_app.
  pose proof (zlen_nonneg junk). pose proof (zlen_nonneg st).
  destruct (Z.leb_spec 0 (zlen junk)), (Z.leb_spec (zlen junk) (zlen junk + zlen st)); try lia.
  cbn [andb]. unfold zlen. by rewrite Nat2Z.id, drop_app_length.
Qed.

Lemma top_app s args st n :
  stack s = args ++ st -> n = zlen args -> top n s = Ok args.
Proof.
  unfold top. intros -> ->. rewrite zlen_app.
  pose proof (zlen_nonneg args). pose proof (zlen_nonneg st).
  destruct (Z.leb_spec 0 (zlen args)), (Z.leb_spec (zlen args) (zlen args + zlen st)); try lia.
  cbn [andb]. unfold zlen. by rewrite Nat2Z.id, take_app_length.
Qed.

(** [t] in the handler that [s] installs at [pc + n] *)
Definition in_handler (s : machine) (n : Z) (t : machine) : machine :=
  set_extra_args (extra_args s) (set_env (env s) (set_trap_sp_off (trap_sp_off s)
    (set_pc (pc_plus s n) (set_stack (stack s) t)))).

(** the frame [s] pushes for a handler at [pc + n] *)
Definition trap_frame (s : machine) (n : Z) : list Z :=
  [pc_plus s n; Val_long (trap_sp_off s); env s; Val_long (extra_args s)].

(** [t] runs inside the handler that [s] installs, with [junk] above its frame *)
Definition inside_handler (s : machine) (n : Z) (junk : list Z) (t : machine) : Prop :=
  stack t = junk ++ trap_frame s n ++ stack s /\
  trap_sp_off t = - zlen (trap_frame s n ++ stack s) /\
  is_s63 (trap_sp_off s) /\ is_s63 (extra_args s).

Lemma raise_inside s n junk t :
  inside_handler s n junk t -> raise t = next (in_handler s n t).
Proof.
  intros (Hs & Ho & Ht & He). unfold raise, raise_fuel.
  change 1000%nat with (S 999). generalize 999%nat. intros fuel.
  cbn [raise_notrace]. rewrite Ho. pose proof (zlen_nonneg (trap_frame s n ++ stack s)).
  destruct (Z.ltb_spec 0 (- zlen (trap_frame s n ++ stack s))); [lia|].
  rewrite (pop_app t _ _ _ Hs) by (rewrite Hs, (zlen_app junk); lia). cbn [rbind].
  set (t' := set_stack _ t).
  assert (St : stack t' = trap_frame s n ++ stack s) by done.
  unfold sp. rewrite St.
  change (rd _ 0) with (Ok (pc_plus s n)). change (rd _ 1) with (Ok (Val_long (trap_sp_off s))).
  change (rd _ 2) with (Ok (env s)). change (rd _ 3) with (Ok (Val_long (extra_args s))).
  cbn [rbind]. rewrite (pop_app t' (trap_frame s n) (stack s) 4 St eq_refl).
  cbn [rbind]. rewrite !Long_val_long_id by done. reflexivity.
Qed.

Lemma inside_handler_stack s n junk t junk' :
  inside_handler s n junk t -> inside_handler s n junk' (set_stack (junk' ++ trap_frame s n ++ stack s) t).
Proof. by intros (_ & Ho & ?). Qed.

(** raising leaves the same registers whatever was on the stack above the frame *)
Lemma raise_above s n junk t e h junk' :
  inside_handler s n junk t ->
  raise (set_accu e (set_heap h (set_stack (junk' ++ stack t) t)))
  = next (in_handler s n (set_accu e (set_heap h t))).
Proof.
  intros (Hs & Ho & ? & ?).
  rewrite (raise_inside s n (junk' ++ junk)); [done|].
  split_and!; try done. cbn [stack set_accu set_heap set_stack]. by rewrite Hs, <- app_assoc.
Qed.


Section Handler.
Context (s : machine) (n : Z).






End Handler.


(** ** Partial application *)

(** the closure [v] of [m] awaits more arguments: it remembers [args] and the closure [e]
    of the function whose [RESTART] is at [c] *)
Definition partial_closure (m : mem) (v c e : Z) (args : list Z) : Prop :=
  exists hd, block_at m v hd (c :: closinfo 2 1 :: e :: args) /\ Tag_hd hd = Closure_tag.

Lemma fields_tail m v n : forall k i xs ys,
  fields m v i (k + n) = Ok (xs ++ ys) -> length xs = k ->
  fields m v (i + Z.of_nat k) n = Ok ys.
Proof.
  induction k as [|k IH]; intros i xs ys H L.
  - destruct xs; [|done]. by rewrite Z.add_0_r.
  - destruct xs as [|x xs]; [done|]. cbn [fields Nat.add app] in H.
    apply rbind_Ok in H as (y & Hy & (zs & Hzs & [= -> ->])%rbind_Ok).
    replace (i + Z.of_nat (S k)) with (i + 1 + Z.of_nat k) by lia.
    apply (IH _ xs); [done|]. by injection L.
Qed.

Lemma restart_correct t v c e args :
  partial_closure (h_mem (mheap t)) v c e args -> env t = v ->
  exec RESTART t
  = next (set_extra_args (extra_args t + zlen args) (set_env e (set_stack (args ++ stack t) t))).
Proof.
  intros (hd & B & _) He. exec_cbn. unfold do_restart, get_field. rewrite He.
  rewrite (block_at_wosize B). pose proof (block_at_zlen B) as L. rewrite L. cbn [rbind].
  rewrite !zlen_cons in *. pose proof (zlen_nonneg args).
  destruct (Z.ltb_spec (1 + (1 + (1 + zlen args)) - 3) 0); [lia|].
  replace (1 + (1 + (1 + zlen args)) - 3) with (zlen args) by lia.
  assert (F : fields (h_mem (mheap t)) v 3 (Z.to_nat (zlen args)) = Ok args).
  { destruct B as [_ F]. apply (fields_tail _ _ _ 3 0 [c; closinfo 2 1; e] args); [|done].
    etransitivity; [|exact F]. f_equal. lia. }
  rewrite F. cbn [rbind].
  pose proof (block_at_field B 2 e eq_refl) as F2. change (Z.of_nat 2) with 2 in F2.
  rewrite F2. reflexivity.
Qed.

(** Currying. Applying a function to too few arguments (GRAB) returns to the caller
    a closure that holds the arguments received; whenever that closure is applied
    later, its RESTART instruction puts them back above the new arguments, with the
    function's own environment and the total number of pending arguments, as if
    the function had been applied to all of them at once. *)
Theorem partial_application s required args c e ea st :
  operand s 0 = Ok required -> extra_args s < required ->
  stack s = args ++ c :: e :: Val_long ea :: st -> zlen args = 1 + extra_args s ->
  is_s63 ea -> zlen args < 2 ^ 45 ->
  exists v s', exec GRAB s = next s' /\
    accu s' = v /\ pc s' = c /\ env s' = e /\ extra_args s' = ea /\ stack s' = st /\
    trap_sp_off s' = trap_sp_off s /\
    (* before the GRAB, at pc - 4, is the RESTART *)
    Code_val s' v = Ok (pc s - 4 - 4) /\
    partial_closure (h_mem (mheap s')) v (pc s - 4 - 4) (env s) args /\
    forall t, partial_closure (h_mem (mheap t)) v (pc s - 4 - 4) (env s) args -> env t = v ->
      exec RESTART t
      = next (set_extra_args (extra_args t + zlen args) (set_env (env s)
               (set_stack (args ++ stack t) t))).
Proof.
  intros Hr Hx Hs Hl Hea Hb.
  set (init := pc_plus (advance 1 s) (-3) :: closinfo 2 1 :: env s :: args).
  set (v := h_next (mheap s) + 8).
  destruct (alloc (mheap s) Closure_tag 0 init) as [v' h] eqn:A.
  assert (v' = v) as -> by (by injection A).
  assert (P : partial_closure (h_mem h) v (pc s - 4 - 4) (env s) args).
  { exists (header_of Closure_tag 0 (zlen init) 0).
    pose proof (zlen_nonneg args).
    assert (Li : zlen init = 3 + zlen args) by (unfold init; rewrite !zlen_cons; lia).
    replace (pc s - 4 - 4) with (pc_plus (advance 1 s) (-3))
      by (unfold pc_plus, advance; cbn [pc set_pc]; lia).
    split; [apply (alloc_block_at _ _ _ _ _ _ A); unfold Closure_tag; lia|].
    apply header_of_fields; unfold Closure_tag; lia. }
  exists v. eexists. split.
  { exec_cbn. unfold with_operand. rewrite Hr. cbn [rbind]. unfold do_grab.
    cbn [extra_args advance set_pc]. destruct (Z.leb_spec required (extra_args s)); [lia|].
    fold (advance 1 s). rewrite (top_app (advance 1 s) args _ _ Hs) by lia. cbn [rbind].
    unfold alloc_block. cbn [mheap advance set_pc]. fold (advance 1 s).
    change (env (advance 1 s)) with (env s). fold init. rewrite A.
    rewrite (pop_app _ args (c :: e :: Val_long ea :: st)) by done. cbn [rbind].
    unfold do_return. cbn [stack set_stack set_accu set_heap]. unfold sp. cbn [stack set_stack].
    change (rd _ 0) with (Ok c). change (rd _ 1) with (Ok e). change (rd _ 2) with (Ok (Val_long ea)).
    cbn [rbind].
    rewrite (pop_app _ [c; e; Val_long ea] st) by done. cbn [rbind]. reflexivity. }
  cbn [accu pc env extra_args stack trap_sp_off mheap set_extra_args set_env set_pc set_stack
    set_accu set_heap advance].
  rewrite Long_val_long_id by done. split_and!; try done.
  { destruct P as (hd & B & _). by apply (block_at_field0 B). }
  intros t Ht He. by apply (restart_correct t v (pc s - 4 - 4)).
Qed.

(** ** Method lookup *)

(** the method table [CamlinternalOO] builds: the number of public methods, the mask of
    the cache for [2 ^ p] entries, then the methods and their tags in increasing order;
    the other words the cache can point to are not tags *)
Record method_table (m : mem) (meths p : Z) (tags mets : list Z) : Prop := {
  mt_size : Field m meths 0 = Ok (2 * zlen tags + 1);
  mt_mask : Field m meths 1 = Ok (16 * 2 ^ p - 1);
  mt_p : 0 <= p;
  mt_length : length mets = length tags;
  mt_small : zlen tags <= 2 ^ p /\ zlen tags < 2 ^ 26;
  mt_tags : forall k t, tags !! k = Some t -> Field m meths (3 + 2 * Z.of_nat k) = Ok t;
  mt_mets : forall k f, mets !! k = Some f -> Field m meths (2 + 2 * Z.of_nat k) = Ok f;
  mt_sorted : forall j k t u, tags !! j = Some t -> tags !! k = Some u -> (j < k)%nat -> t < u;
  mt_rest : forall j, zlen tags <= j < 2 ^ p ->
    exists x, Field m meths (3 + 2 * j) = Ok x /\ x ∉ tags }.

Section MethodTable.
Context {m : mem} {meths p : Z} {tags mets : list Z} (T : method_table m meths p tags mets).

Lemma mt_tag_lt j k t u : tags !! j = Some t -> tags !! k = Some u -> (t < u <-> (j < k)%nat).
Proof.
  intros Hj Hk. split; [|by apply (mt_sorted _ _ _ _ _ T)].
  intros H. destruct (decide (j < k)%nat); [done|exfalso].
  destruct (decide (j = k)) as [->|]; [rewrite Hj in Hk; injection Hk; lia|].
  pose proof (mt_sorted _ _ _ _ _ T k j u t Hk Hj ltac:(lia)). lia.
Qed.

(** the search stops at the tag's index, from any interval that contains it *)
Lemma search_method_correct k tag fuel : forall a b,
  tags !! k = Some tag -> (a <= k <= b)%nat -> (b < length tags)%nat ->
  Z.of_nat (b - a) < 2 ^ Z.of_nat fuel ->
  search_method fuel m meths tag (3 + 2 * Z.of_nat a) (3 + 2 * Z.of_nat b)
  = Ok (3 + 2 * Z.of_nat k).
Proof.
  induction fuel as [|fuel IH]; intros a b Hk Hab Hb Hf; cbn [search_method];
    destruct (Z.ltb_spec (3 + 2 * Z.of_nat a) (3 + 2 * Z.of_nat b)) as [L|L];
    try (do 2 f_equal; lia).
  pose proof (mt_small _ _ _ _ _ T) as [_ Sm]. unfold zlen in Sm.
  rewrite Nat2Z.inj_succ, Z.pow_succ_r in Hf by lia.
  set (c := ((a + b + 1) / 2)%nat).
  assert (Hc : Z.of_nat c = (Z.of_nat a + Z.of_nat b + 1) / 2)
    by (unfold c; rewrite Nat2Z.inj_div, !Nat2Z.inj_add; done).
  assert (B : (a < c <= b)%nat) by (clear -Hc L; zlia).
  assert (M : Z.lor (Z.shiftr (s32 (3 + 2 * Z.of_nat a + (3 + 2 * Z.of_nat b))) 1) 1
              = 3 + 2 * Z.of_nat c).
  { rewrite s32_id by (unfold is_s32; lia). rewrite Z.shiftr_div_pow2 by lia. change (2 ^ 1) with 2.
    replace ((3 + 2 * Z.of_nat a + (3 + 2 * Z.of_nat b)) / 2)
      with (Z.of_nat a + Z.of_nat b + 3) by zlia.
    destruct (Z.Even_or_Odd (Z.of_nat a + Z.of_nat b)) as [[z Hz] | [z Hz]]; rewrite Hz in *.
    - replace (2 * z + 3) with (2 * (z + 1) + 1) by lia. rewrite lor_1_odd. zlia.
    - replace (2 * z + 1 + 3) with (2 * (z + 2)) by lia. rewrite lor_1_double. zlia. }
  rewrite M.
  destruct (lookup_lt_is_Some_2 tags c) as [u Hu]; [lia|].
  rewrite (mt_tags _ _ _ _ _ T c u Hu). cbn [rbind].
  pose proof (mt_tag_lt k c tag u Hk Hu) as Lt.
  destruct (Z.ltb_spec tag u) as [C|C].
  - rewrite s32_id by (unfold is_s32; lia).
    replace (3 + 2 * Z.of_nat c - 2) with (3 + 2 * Z.of_nat (c - 1)) by lia.
    apply Lt in C. apply IH; [done|lia|lia|]. clear -Hf Hc B. zlia.
  - assert (c <= k)%nat by (destruct (decide (k < c)%nat); [|lia]; assert (tag < u) by (by apply Lt); lia).
    apply IH; [done|lia|lia|]. clear -Hf Hc B. zlia.
Qed.

Lemma find_method_correct k tag :
  tags !! k = Some tag -> find_method m meths tag = Ok (3 + 2 * Z.of_nat k).
Proof.
  intros Hk. unfold find_method. rewrite (mt_size _ _ _ _ _ T). cbn [rbind].
  pose proof (mt_small _ _ _ _ _ T) as [_ Sm].
  pose proof (lookup_lt_Some _ _ _ Hk). unfold zlen in *.
  rewrite s32_id by (unfold is_s32; lia).
  replace (2 * Z.of_nat (length tags) + 1) with (3 + 2 * Z.of_nat (length tags - 1)) by lia.
  apply (search_method_correct k tag search_fuel 0); [done|lia|lia|].
  change (2 ^ Z.of_nat search_fuel) with (2 ^ 32). lia.
Qed.

Lemma mt_met k tag : tags !! k = Some tag -> exists f, mets !! k = Some f.
Proof.
  intros H. apply lookup_lt_is_Some_2. rewrite (mt_length _ _ _ _ _ T).
  by apply lookup_lt_Some in H.
Qed.

(** a cached offset that hits points to the method *)
Lemma cache_offset q : Z.land (16 * q) (16 * 2 ^ p - 1) = 16 * (q mod 2 ^ p).
Proof.
  pose proof (mt_p _ _ _ _ _ T) as Hp.
  replace (16 * 2 ^ p - 1) with (Z.ones (4 + p)).
  - rewrite Z.land_ones, Z.pow_add_r by lia. change (2 ^ 4) with 16.
    rewrite Z.mul_mod_distr_l; lia.
  - rewrite Z.ones_equiv, Z.pow_add_r by lia. change (2 ^ 4) with 16. lia.
Qed.

Lemma cache_word q :
  exists x, load m (meths + 8 * 3 + 16 * (q mod 2 ^ p)) = Ok x /\
    forall k, tags !! k = Some x -> q mod 2 ^ p = Z.of_nat k.
Proof.
  pose proof (mt_p _ _ _ _ _ T) as Hp.
  pose proof (Z.mod_pos_bound q (2 ^ p) ltac:(lia)) as Hj. set (j := q mod 2 ^ p) in *.
  replace (meths + 8 * 3 + 16 * j) with (meths + 8 * (3 + 2 * j)) by lia.
  change (load m (meths + 8 * (3 + 2 * j))) with (Field m meths (3 + 2 * j)).
  destruct (Z.ltb_spec j (zlen tags)) as [L|L].
  - destruct (lookup_lt_is_Some_2 tags (Z.to_nat j)) as [x Hx]; [unfold zlen in L; lia|].
    exists x. pose proof (mt_tags _ _ _ _ _ T _ _ Hx) as F. rewrite Z2Nat.id in F by lia.
    split; [done|]. intros k Hk.
    pose proof (mt_tag_lt _ _ _ _ Hx Hk). pose proof (mt_tag_lt _ _ _ _ Hk Hx). lia.
  - destruct (mt_rest _ _ _ _ _ T j) as (x & F & N); [lia|]. exists x. split; [done|].
    intros k Hk. destruct N. by apply list_elem_of_lookup_2 in Hk.
Qed.
End MethodTable.

Lemma find_method_field m meths p tags mets k tag f :
  method_table m meths p tags mets -> tags !! k = Some tag -> mets !! k = Some f ->
  rbind (find_method m meths tag) (fun li => Field m meths (li - 1)) = Ok f.
Proof.
  intros T Hk Hf. rewrite (find_method_correct T _ _ Hk). cbn [rbind].
  rewrite <- (mt_mets _ _ _ _ _ T _ _ Hf). f_equal. lia.
Qed.

(** C27: Method lookup. On an object whose class has a well-formed method table,
    GETDYNMET and GETPUBMET find the method of a public label by binary search, within
    32 turns; GETPUBMET finds the same method whatever offset its cache holds, even
    one left there by an object of another class, keeps the object on the stack, and
    leaves an offset with which the next lookup of the same label in this class hits. *)
Theorem method_lookup s obj meths p tags mets k tag f q :
  let m := h_mem (mheap s) in
  method_table m meths p tags mets -> Field m obj 0 = Ok meths ->
  tags !! k = Some (Val_int tag) -> mets !! k = Some f ->
  (accu s = Val_int tag -> sp s 0 = Ok obj ->
     exec GETDYNMET s = next (set_accu f s)) /\
  (accu s = obj -> operand s 0 = Ok tag -> operand s 1 = Ok (16 * q) ->
     exists c q', exec GETPUBMET s
       = next (set_accu f (set_code c (advance 2 (push obj s)))) /\
       (c = code s \/ c = <[pc s + 4 := 16 * q']> (code s)) /\
       c !! (pc s + 4) = Some (16 * q') /\
       Z.land (16 * q') (16 * 2 ^ p - 1) = 16 * Z.of_nat k).
Proof.
  intros m T Ho Hk Hf. pose proof (find_method_field _ _ _ _ _ _ _ _ T Hk Hf) as FM.
  pose proof (mt_small _ _ _ _ _ T) as [Sp Sn]. unfold zlen in Sp, Sn.
  pose proof (lookup_lt_Some _ _ _ Hk) as Lk. split.
  { intros Ha Hs. exec_cbn. rewrite Hs. cbn [rbind]. fold m. rewrite Ho, Ha. cbn [rbind].
    rewrite (find_method_correct T _ _ Hk) in *. cbn [rbind] in *. by rewrite FM. }
  intros Ha Ht Hc. exec_cbn. unfold do_getpubmet, get_field. fold m. rewrite Ha, Ho. cbn [rbind].
  change (operand (pushaccu s) 0) with (operand s 0). rewrite Ht. cbn [rbind].
  assert (C : operand (advance 1 (set_accu (Val_int tag) (pushaccu s))) 0 = Ok (16 * q)).
  { rewrite operand_advance. exact Hc. }
  rewrite C, (mt_mask _ _ _ _ _ T). cbn [rbind]. rewrite (cache_offset T q).
  destruct (cache_word T q) as (x & Hx & Hit). rewrite Hx. cbn [rbind].
  assert (Hc' : code s !! (pc s + 4) = Some (16 * q)).
  { unfold operand, of_option in Hc. change (4 * 1) with 4 in Hc.
    destruct (code s !! (pc s + 4)); [by injection Hc as ->|done]. }
  change (accu (advance 1 (set_accu (Val_int tag) (pushaccu s)))) with (Val_int tag).
  destruct (Z.eqb_spec x (Val_int tag)) as [->|_].
  - rewrite (Hit _ Hk).
    pose proof (mt_mets _ _ _ _ _ T _ _ Hf) as L. unfold Field in L.
    replace (meths + 8 * 2 + 16 * Z.of_nat k) with (meths + 8 * (2 + 2 * Z.of_nat k)) by lia.
    rewrite L. cbn [rbind]. exists (code s), q. split_and!; [|by left|done|].
    + unfold pushaccu. rewrite Ha. unfold next. do 2 f_equal.
      change (set_accu f (advance 1 (advance 1 (push obj s)))
              = set_accu f (set_code (code s) (advance 2 (push obj s)))).
      by rewrite advance_advance.
    + by rewrite (cache_offset T q), (Hit _ Hk).
  - rewrite (find_method_correct T _ _ Hk) in *. cbn [rbind] in *. rewrite FM. cbn [rbind].
    exists (<[pc s + 4 := 16 * Z.of_nat k]> (code s)), (Z.of_nat k). split_and!.
    + unfold pushaccu. rewrite Ha. unfold next. do 2 f_equal.
      assert (s32 ((3 + 2 * Z.of_nat k - 3) * 8) = 16 * Z.of_nat k) as ->
        by (rewrite s32_id; unfold is_s32; lia).
      set (c := <[_ := _]> (code s)).
      change (set_accu f (advance 1 (set_code c (advance 1 (push obj s))))
              = set_accu f (set_code c (advance 2 (push obj s)))).
      by rewrite <- (advance_advance (push obj s) 1 1 : _ = advance 2 _).
    + by right.
    + apply lookup_insert_eq.
    + rewrite (cache_offset T), Z.mod_small; [done|lia].
Qed.

(** ** Effects *)

(** suspended fibers, each the child of the next; the last one has no parent *)
Fixpoint chain (fs : gmap Z fiber) (ids : list Z) : Prop :=
  match ids with
  | [] => False
  | [a] => exists f, fs !! a = Some f /\ f_parent f = 0
  | a :: (b :: _) as rest => (exists f, fs !! a = Some f /\ f_parent f = b /\ b <> 0) /\ chain fs rest
  end.

Lemma chain_cons fs a b rest :
  chain fs (a :: b :: rest)
  <-> (exists f, fs !! a = Some f /\ f_parent f = b /\ b <> 0) /\ chain fs (b :: rest).
Proof. done. Qed.

Lemma chain_in fs ids a : chain fs ids -> a ∈ ids -> exists f, fs !! a = Some f.
Proof.
  induction ids as [|b [|c ids] IH]; cbn [chain]; [done| |].
  - intros (f & Hf & _) ->%list_elem_of_singleton. by exists f.
  - intros [(f & Hf & _) H] [-> | Ha]%elem_of_cons; [by exists f|]. by apply IH.
Qed.

Lemma chain_ext fs fs' ids :
  (forall a, a ∈ ids -> fs' !! a = fs !! a) -> chain fs ids -> chain fs' ids.
Proof.
  induction ids as [|a [|b ids] IH]; cbn [chain]; intros E; [done| |].
  - by rewrite E by set_solver.
  - rewrite E by set_solver. intros [? ?]. split; [done|]. apply IH; [|done]. set_solver.
Qed.

Lemma last_fiber_chain fs ids tail fuel :
  chain fs (ids ++ [tail]) -> (length ids < fuel)%nat ->
  last_fiber fuel fs (List.hd 0 (ids ++ [tail])) = Ok tail.
Proof.
  revert fuel. induction ids as [|a ids IH]; intros [|fuel] H L;
    cbn [app List.hd last_fiber length] in *; try lia.
  - destruct H as (f & -> & E). cbn [of_option rbind]. by rewrite E.
  - assert (exists b rest, ids ++ [tail] = b :: rest) as (b & rest & E).
    { destruct ids; simpl; eauto. }
    rewrite E in H. apply chain_cons in H as [(f & -> & P & Nz) H].
    cbn [of_option rbind]. rewrite P. destruct (Z.eqb_spec b 0); [done|].
    rewrite <- E in H. specialize (IH fuel H ltac:(lia)). by rewrite E in IH.
Qed.

Lemma chain_length fs ids : chain fs ids -> NoDup ids -> (length ids <= size fs)%nat.
Proof.
  intros H N. rewrite <- (size_dom (D := gset Z)), <- (size_list_to_set (C := gset Z) ids) by done.
  apply subseteq_size. intros a [Ha]%elem_of_list_to_set%(fun x => conj x I).
  apply elem_of_dom. destruct (chain_in _ _ _ H Ha) as [f ->]. done.
Qed.

(** giving the last fiber a parent that ends the chain makes it longer *)
Lemma chain_snoc fs ids tail self f :
  chain fs (ids ++ [tail]) -> NoDup (ids ++ [tail]) -> self ∉ ids ++ [tail] -> self <> 0 ->
  fs !! self = Some f -> f_parent f = 0 ->
  chain (alter (with_parent self) tail fs) ((ids ++ [tail]) ++ [self]).
Proof.
  intros H Hn Hs Hz Hf Hp. induction ids as [|a ids IH]; cbn [app] in *.
  - destruct H as (g & Hg & _). cbn [chain]. split.
    + exists (with_parent self g). by rewrite lookup_alter_eq, Hg.
    + exists f. rewrite lookup_alter_ne by set_solver. done.
  - apply NoDup_cons in Hn as [Ha Hn].
    assert (exists b rest, ids ++ [tail] = b :: rest) as (b & rest & E).
    { destruct ids; simpl; eauto. }
    rewrite E in *. apply chain_cons in H as [(g & Hg & P & Nz) H].
    cbn [app]. apply chain_cons. split.
    + exists g. rewrite lookup_alter_ne; [done|]. intros <-. apply Ha. rewrite <- E. set_solver.
    + apply IH; [done|done|set_solver].
Qed.

(** the machine [t] has suspended the computation of [s] in fiber [self], waiting for the
    result of an effect *)
Definition suspended (s : machine) (self : Z) (fs : gmap Z fiber) : Prop :=
  exists g, fs !! self = Some g /\ f_parent g = 0 /\
    f_stack g = Val_long (trap_sp_off s) :: pc s :: env s :: Val_long (extra_args s) :: stack s.

Lemma with_parent_stack p f : f_stack (with_parent p f) = f_stack f.
Proof. done. Qed.

(** resuming a chain of fibers: the first one runs, the last one gets the current
    fiber as its parent *)
Lemma do_resume_chain t fn arg ids tail g trap rest :
  chain (fibers t) (ids ++ [tail]) -> NoDup (ids ++ [tail]) ->
  current_stack t ∉ ids ++ [tail] ->
  let head := List.hd 0 (ids ++ [tail]) in
  head <> 0 -> accu t = Val_ptr head ->
  fibers t !! head = Some g -> f_stack g = trap :: rest ->
  do_resume fn arg t = enter (set_extra_args 0 (set_accu fn (set_trap_sp_off (Long_val trap)
    (set_stack (arg :: rest) (set_fibers head
       (alter (with_stack (stack t)) (current_stack t)
          (alter (with_parent (current_stack t)) tail (fibers t))) t))))).
Proof.
  intros C N Hc head Hz Ha Hg Hst. unfold do_resume. rewrite Ha. unfold Ptr_val, Val_ptr.
  replace (head + 1 - 1) with head by lia. destruct (Z.eqb_spec head 0); [done|].
  pose proof (chain_length _ _ C N) as L. rewrite length_app in L. simpl in L.
  unfold head at 1. rewrite (last_fiber_chain _ _ _ _ C) by lia. cbn [rbind].
  assert (Hh : head ∈ ids ++ [tail]) by (unfold head; destruct ids; simpl; set_solver).
  rewrite lookup_alter_ne by (intros E; apply Hc; by rewrite E).
  destruct (decide (tail = head)) as [Et|Ne].
  - rewrite Et, lookup_alter_eq, Hg. cbn [fmap option_fmap option_map of_option rbind].
    by rewrite with_parent_stack, Hst.
  - rewrite lookup_alter_ne, Hg by done. cbn [of_option rbind]. by rewrite Hst.
Qed.

(** PERFORM suspends the current fiber, with everything needed to go on after it, in
    a fresh continuation, and calls the effect handler of the fiber on its parent with
    the effect, the continuation and the fiber. *)
Theorem perform_suspends s f par ptrap pea prest g :
  fibers s !! current_stack s = Some f -> f_parent f = par -> par <> 0 ->
  par <> current_stack s ->
  fibers s !! par = Some g -> f_stack g = ptrap :: pea :: prest ->
  exists cont s', exec PERFORM s = enter s' /\
    accu s' = f_handle_effect f /\ current_stack s' = par /\
    trap_sp_off s' = Long_val ptrap /\ extra_args s' = Long_val pea + 2 /\
    stack s' = accu s :: cont :: Val_ptr (current_stack s) :: prest /\
    (exists hd, block_at (h_mem (mheap s')) cont hd [Val_ptr (current_stack s)] /\ Tag_hd hd = Cont_tag) /\
    suspended s (current_stack s) (fibers s') /\ chain (fibers s') [current_stack s].
Proof.
  intros Hf Hp Hz Hne Hg Hst. exec_cbn.
  unfold do_perform, fiber_of. rewrite Hf. cbn [of_option rbind]. rewrite Hp.
  destruct (Z.eqb_spec par 0); [done|]. unfold alloc_block.
  destruct (alloc (mheap s) Cont_tag 0 [Val_ptr (current_stack s)]) as [cont h] eqn:A.
  unfold handle_effect. change (fibers (set_heap h s)) with (fibers s).
  rewrite lookup_insert_ne by done. rewrite Hg. cbn [of_option rbind]. rewrite Hst.
  exists cont. eexists. split; [reflexivity|].
  cbn [accu current_stack trap_sp_off extra_args stack mheap fibers set_extra_args set_accu
    set_trap_sp_off set_stack set_fibers set_heap pc env].
  split_and!; try done.
  + exists (header_of Cont_tag 0 1 0). split; [|by apply header_of_fields; unfold Cont_tag; lia].
    apply (alloc_block_at _ _ _ _ _ _ A); change (zlen [_]) with 1; unfold Cont_tag; lia.
  + eexists. rewrite lookup_insert_eq. split_and!; reflexivity.
  + eexists. rewrite lookup_insert_eq. split; reflexivity.
Qed.

(** REPERFORMTERM passes an effect on to the next handler, which gets the effect and
    the same continuation: the current fiber is added at the end of the chain of
    suspended fibers that the continuation stands for, and runs no more. *)
Theorem reperform_extends_chain s f par ptrap pea prest g n cont ids tail st :
  fibers s !! current_stack s = Some f -> f_parent f = par -> par <> 0 ->
  par <> current_stack s -> current_stack s <> 0 ->
  fibers s !! par = Some g -> f_stack g = ptrap :: pea :: prest ->
  chain (fibers s) (ids ++ [tail]) -> NoDup (ids ++ [tail]) ->
  current_stack s ∉ ids ++ [tail] -> par ∉ ids ++ [tail] ->
  operand s 0 = Ok n -> stack s = cont :: Val_ptr tail :: st -> 2 <= n <= zlen (stack s) ->
  exists s', exec REPERFORMTERM s = enter s' /\
    accu s' = f_handle_effect f /\ current_stack s' = par /\
    trap_sp_off s' = Long_val ptrap /\ extra_args s' = Long_val pea + 2 /\
    stack s' = accu s :: cont :: Val_ptr (current_stack s) :: prest /\
    chain (fibers s') ((ids ++ [tail]) ++ [current_stack s]).
Proof.
  intros Hf Hp Hz Hne Hc Hg Hst C N Hi Hpi Ho Hs Hn.
  exec_cbn. unfold do_reperformterm, fiber_of, sp. rewrite Hs.
  change (rd _ 0) with (Ok cont). change (rd _ 1) with (Ok (Val_ptr tail)). cbn [rbind].
  rewrite Hf. cbn [of_option rbind]. unfold terminal_frame. rewrite Ho. cbn [rbind].
  unfold pop. destruct (Z.leb_spec 0 n), (Z.leb_spec n (zlen (stack s))); try lia.
  cbn [andb rbind]. rewrite Hp. destruct (Z.eqb_spec par 0); [done|].
  unfold handle_effect. unfold Ptr_val, Val_ptr. replace (tail + 1 - 1) with tail by lia.
  rewrite lookup_alter_ne by set_solver. cbn [fibers set_stack].
  rewrite lookup_insert_ne by done. rewrite Hg. cbn [of_option rbind]. rewrite Hst.
  eexists. split; [reflexivity|].
  cbn [accu current_stack trap_sp_off extra_args stack mheap fibers set_extra_args set_accu
    set_trap_sp_off set_stack set_fibers set_heap pc env].
  split_and!; try done. eapply chain_snoc; [|done|done|done|apply lookup_insert_eq|done].
  revert C. apply chain_ext. intros a Ha. apply lookup_insert_ne. by intros <-.
Qed.

(** C28: Resuming a chain of suspended fibers, of any length, runs its first fiber on top
    of the current one, which becomes the parent of the last fiber of the chain and
    is itself suspended after the RESUME: the function given is called with its argument,
    above a return frame that continues the suspended computation with its own stack,
    environment, pending arguments and exception handler. *)
Theorem resume_continues s t self fn arg st ids tail rest :
  suspended s self (alter (with_parent 0) self (fibers t)) ->
  is_s63 (trap_sp_off s) -> self <> 0 ->
  chain (fibers t) (ids ++ [tail]) -> NoDup (ids ++ [tail]) -> ids ++ [tail] = self :: rest ->
  current_stack t ∉ ids ++ [tail] ->
  accu t = Val_ptr self -> stack t = fn :: arg :: st ->
  exists t', exec RESUME t = enter t' /\
    accu t' = fn /\ extra_args t' = 0 /\ current_stack t' = self /\
    trap_sp_off t' = trap_sp_off s /\
    stack t' = arg :: pc s :: env s :: Val_long (extra_args s) :: stack s /\
    (forall f, fibers t !! tail = Some f ->
          fibers t' !! tail = Some (with_parent (current_stack t) f)) /\
    (forall g, fibers t !! current_stack t = Some g ->
          fibers t' !! current_stack t = Some (with_stack
            (Val_long (trap_sp_off t) :: Val_long 0 :: pc t :: env t :: Val_long (extra_args t) :: st) g)).
Proof.
  intros (g & Hg & Pg & Sg) Ht Hz C N E Hc Ha Hs.
  exec_cbn. unfold sp. rewrite Hs. change (rd _ 0) with (Ok fn). change (rd _ 1) with (Ok arg).
  cbn [rbind]. rewrite (pop_app t [fn; arg] st 2 Hs eq_refl). cbn [rbind].
  set (t0 := set_stack _ t).
  rewrite lookup_alter_eq in Hg. destruct (fibers t !! self) as [g0|] eqn:G0; [|done].
  injection Hg as <-. rewrite with_parent_stack in Sg.
  assert (Hh : List.hd 0 (ids ++ [tail]) = self) by (by rewrite E).
  epose proof (do_resume_chain t0 fn arg ids tail g0 _ _ C N Hc) as R.
  cbn zeta in R. rewrite Hh in R. erewrite (R Hz Ha G0 Sg).
  eexists. split; [reflexivity|].
  cbn [accu current_stack trap_sp_off extra_args stack mheap fibers set_extra_args set_accu
    set_trap_sp_off set_stack set_fibers set_heap pc env t0].
  rewrite Long_val_long_id by done. split_and!; try done.
  + intros f Hf. rewrite lookup_alter_ne by set_solver. by rewrite lookup_alter_eq, Hf.
  + intros g Hg. rewrite lookup_alter_eq, lookup_alter_ne, Hg by set_solver. done.
Qed.

End Interp.

(** ** A concrete machine *)

(** primitive 0 raises the exception 41; the others return their first argument *)
Definition demo_primitive (prim : Z) (args : list Z) (h : heap) : result ((Z + Z) * heap) :=
  if prim =? 0 then Ok (inr 41, h) else rmap (fun v => (inl v, h)) (rd args 0).

(** no signal arrives and the stack can always grow *)
Notation demo f := (f (fun tag => 8 + 16 * tag) 512 demo_primitive (fun _ => false)
  (fun h => (None, h)) (fun _ => false) 11 13 15 17 (fun e h => (e, h)) false 1 0).

Definition demo_enter : machine -> result outcome :=
  enter (fun _ => false) (fun h => (None, h)) (fun _ => false) 11 1 0.

(** two objects' class at 1032 with the methods 2001 (tag -5) and 2003 (tag 7), and an
    object of it at 1104 *)
Definition demo_mem : mem :=
  list_to_map [(1032, 5); (1040, 31); (1048, 2001); (1056, Val_int (-5)); (1064, 2003);
               (1072, Val_int 7); (1104, 1032)].

(** fiber 32 runs, its parent is fiber 64; fibers 96 and 128 are a continuation *)
Definition demo_fibers : gmap Z fiber :=
  list_to_map [(32, Fiber [] 64 21 22 23); (64, Fiber [1; 1; 5] 0 0 0 0);
               (96, Fiber [3; 400; 9; 5; 77] 128 24 25 26); (128, Fiber [1; 1] 0 27 28 29)].

Definition demo_machine (st : list Z) (a ea : Z) (code : list (Z * Z)) : machine :=
  Machine 100 st a 600 ea (-3) (list_to_map code) 32 demo_fibers (Heap demo_mem 2048).

Lemma compressed_instructions_witness :
  let s := demo_machine [3; 5; 7] 9 0 [(100, 2)] in
  demo exec ACC s = demo exec ACC2 (advance 1 s) /\
  demo exec PUSHACC2 s = and_then (demo exec PUSH s) (demo exec ACC2).
Proof.
  destruct (demo compressed_instructions) as (P & G & _). split.
  - apply (G _ _ 2); [apply list_elem_of_In; simpl; tauto | reflexivity].
  - apply P. apply list_elem_of_In. simpl. tauto.
Defined.

Lemma demo_int_state : int_state (demo_machine [Val_long (-3); 1] (Val_long 17) 0 []) 17 (-3) [1].
Proof. unfold int_state, is_s63. split_and!; done || lia. Qed.

Lemma integer_instructions_witness :
  let s := demo_machine [Val_long (-3); 1] (Val_long 17) 0 [] in
  demo exec DIVINT s = next (set_accu (Val_long (-5)) (set_stack [1] s)) /\
  demo exec ULTINT s = next (set_accu Val_true (set_stack [1] s)).
Proof.
  destruct (demo integer_instructions _ _ _ _ demo_int_state) as (A & C & _). split.
  - rewrite (A DIVINT Z.quot); [reflexivity | apply list_elem_of_In; simpl; tauto | discriminate].
  - rewrite (C ULTINT _ (list_elem_of_lookup_2 int_comparisons 6 _ eq_refl)). reflexivity.
Defined.




(** two arguments for a function of three *)
Definition demo_grab : machine := demo_machine ([3; 5] ++ [900; 800; Val_long 4; 7]) 9 1 [(100, 2)].

Lemma partial_application_witness :
  exists v s', demo exec GRAB demo_grab = next s' /\ pc s' = 900 /\ accu s' = v /\
    Code_val s' v = Ok 92 /\ stack s' = [7].
Proof.
  destruct (demo partial_application demo_grab 2 [3; 5] 900 800 4 [7])
    as (v & s' & E & A & P & _ & _ & St & _ & C & _);
    try reflexivity; try (unfold is_s63; cbn; lia).
  exists v, s'. split_and!; assumption.
Defined.

Lemma demo_table : method_table demo_mem 1032 1 [Val_int (-5); Val_int 7] [2001; 2003].
Proof.
  split; try done.
  - intros [|[|k]] t; [by intros [= <-]..|done].
  - intros [|[|k]] t; [by intros [= <-]..|done].
  - intros [|[|j]] [|[|k]] t u; cbn [lookup list_lookup]; try done; try lia; intros [= <-] [= <-]; done.
  - change (zlen _) with 2. intros j Hj. lia.
Qed.

Lemma method_lookup_witness :
  let s := demo_machine [3] 1104 0 [(100, 7); (104, 0)] in
  exists c q', demo exec GETPUBMET s = next (set_accu 2003 (set_code c (advance 2 (push 1104 s)))) /\
    c !! 104 = Some (16 * q') /\ Z.land (16 * q') 31 = 16.
Proof.
  destruct (demo method_lookup (demo_machine [3] 1104 0 [(100, 7); (104, 0)]) 1104 1032 1
    [Val_int (-5); Val_int 7] [2001; 2003] 1 7 2003 0 demo_table) as (_ & H); [done..|].
  destruct H as (c & q' & E & _ & L & Hit); [done..|]. exists c, q'. split_and!; assumption.
Defined.

Lemma perform_suspends_witness :
  exists cont s', demo exec PERFORM (demo_machine [3] 9 0 []) = demo_enter s' /\
    accu s' = 23 /\ stack s' = [9; cont; Val_ptr 32; 5].
Proof.
  destruct (demo perform_suspends (demo_machine [3] 9 0 []) (Fiber [] 64 21 22 23) 64 1 1 [5]
    (Fiber [1; 1; 5] 0 0 0 0)) as (cont & s' & E & A & _ & _ & _ & S & _); [done..|].
  exists cont, s'. split_and!; assumption.
Defined.

Lemma demo_chain : chain demo_fibers [96; 128].
Proof. split; eexists; split_and!; done. Qed.

Lemma reperform_extends_chain_witness :
  exists s', demo exec REPERFORMTERM (demo_machine [1200; Val_ptr 128; 3] 9 0 [(100, 3)]) = demo_enter s' /\
    accu s' = 23 /\ chain (fibers s') [96; 128; 32].
Proof.
  destruct (demo reperform_extends_chain (demo_machine [1200; Val_ptr 128; 3] 9 0 [(100, 3)])
    (Fiber [] 64 21 22 23) 64 1 1 [5] (Fiber [1; 1; 5] 0 0 0 0) 3 1200 [96] 128 [3])
    as (s' & E & A & _ & _ & _ & _ & C);
    try done; try exact demo_chain; try (apply (bool_decide_unpack _); vm_compute; exact I).
  exists s'. split_and!; assumption.
Defined.

(** the computation that fiber 96 suspended *)
Definition demo_suspended : machine := set_trap_sp_off 1 (set_pc 400 (demo_machine [77] 0 2 [])).

Lemma resume_continues_witness :
  exists t', demo exec RESUME (demo_machine [500; 11; 3] (Val_ptr 96) 0 []) = demo_enter t' /\
    accu t' = 500 /\ current_stack t' = 96 /\ stack t' = [11; 400; 9; 5; 77].
Proof.
  destruct (demo resume_continues (set_env 9 demo_suspended)
    (demo_machine [500; 11; 3] (Val_ptr 96) 0 []) 96 500 11 [3] [96] 128 [128])
    as (t' & E & A & _ & C & _ & S & _);
    try done; try exact demo_chain; try (apply (bool_decide_unpack _); vm_compute; exact I).
  - by eexists.
  - exists t'. split_and!; assumption.
Defined.
