(* ===== verification/Postable.v ===== *)
(** * The marshaler's position table ([extern.c])

    The hash table that records the objects already marshaled and their position in
    the output: open addressing with linear probing, a bit vector [present] for the
    occupied slots and an array [entries] of (object, position) pairs that is not
    initialised (here a finite map: reading a slot that was never written is undefined
    behaviour).  [malloc_ok] tells whether the allocator grants a number of bytes.

    [PositionTable] is what the marshaler relies on: the table represents a finite map
    from objects to positions.  The instance [position_table_spec] discharges it, when memory
    is available. *)

From S2P Require Import Prelude.
From stdpp Require Import gmap.
#[local] Open Scope Z_scope.

(** ** The table *)

Record position_table := PosTable {
  shift : Z;
  size : Z;
  mask : Z;
  threshold : Z;
  present : list Z;
  entries : gmap Z (Z * Z) }.

Definition Bits_word : Z := 8 * 8.
Definition Bitvect_size (n : Z) : Z := (n + Bits_word - 1) / Bits_word.
Definition POS_TABLE_INIT_SIZE_LOG2 : Z := 8.
Definition POS_TABLE_INIT_SIZE : Z := Z.shiftl 1 POS_TABLE_INIT_SIZE_LOG2.

Definition HASH_FACTOR : Z := 11400714819323198486.
Definition Hash (v shift : Z) : Z := Z.shiftr (u64 (u64 v * HASH_FACTOR)) shift.
Definition Threshold (sz : Z) : Z := (sz * 2) / 3.

Definition extern_init_position_table : position_table := {|
  size := POS_TABLE_INIT_SIZE;
  shift := 8 * 8 - POS_TABLE_INIT_SIZE_LOG2;
  mask := POS_TABLE_INIT_SIZE - 1;
  threshold := Threshold POS_TABLE_INIT_SIZE;
  present := replicate (Z.to_nat (Bitvect_size POS_TABLE_INIT_SIZE)) 0;
  entries := ∅ |}.

Definition bitvect_test (bv : list Z) (i : Z) : result bool :=
  let* w := rd bv (i / Bits_word) in
  Ok (negb (Z.land w (Z.shiftl 1 (Z.land i (Bits_word - 1))) =? 0)).
Definition bitvect_set (bv : list Z) (i : Z) : result (list Z) :=
  let* w := rd bv (i / Bits_word) in
  wr bv (i / Bits_word) (Z.lor w (Z.shiftl 1 (Z.land i (Bits_word - 1)))).

(** while (bitvect_test(present, h)) h = (h + 1) & mask *)
Fixpoint find_free (fuel : nat) (bv : list Z) (mask h : Z) {struct fuel} : result Z :=
  match fuel with
  | O => NoFuel
  | S fuel =>
      let* b := bitvect_test bv h in
      if b : bool then find_free fuel bv mask (Z.land (h + 1) mask) else Ok h
  end.

(** one turn of the loop over the entries of the old table *)
Definition reinsert (old : position_table) (i : Z) (t : position_table) : result position_table :=
  let* b := bitvect_test (present old) i in
  if negb b then Ok t else
  let* e := of_option (entries old !! i) in
  let* h := find_free (S (Z.to_nat (size t))) (present t) (mask t) (Hash (fst e) (shift t)) in
  let* p := bitvect_set (present t) h in
  Ok (PosTable (shift t) (size t) (mask t) (threshold t) p (<[h := e]> (entries t))).

(** [sizeof(struct object_position)], and the bytes of a bit vector *)
Definition sizeof_object_position : Z := 16.
Definition present_bsize (n : Z) : Z := Bitvect_size n * 8.

Definition extern_resize_position_table (malloc_ok : Z -> bool) (old : position_table) : result position_table :=
  let (new_size, new_shift) :=
    if size old <? 1000000 then (u64 (8 * size old), shift old - 3)
    else (u64 (2 * size old), shift old - 1) in
  if (new_size =? 0) || (2 ^ 64 <=? new_size * sizeof_object_position) then Raise Out_of_memory else
  if negb (malloc_ok (new_size * sizeof_object_position)) then Raise Out_of_memory else
  if negb (malloc_ok (present_bsize new_size)) then Raise Out_of_memory else
  let t := PosTable new_shift new_size (new_size - 1) (Threshold new_size)
             (replicate (Z.to_nat (Bitvect_size new_size)) 0) ∅ in
  for_loop (Z.to_nat (size old)) 0 (reinsert old) t.

(** [(position if the object is in the table, hash value for the record)] *)
Fixpoint lookup_loop (fuel : nat) (t : position_table) (obj h : Z) {struct fuel}
    : result (option Z * Z) :=
  match fuel with
  | O => NoFuel
  | S fuel =>
      let* b := bitvect_test (present t) h in
      if negb b then Ok (None, h) else
      let* e := of_option (entries t !! h) in
      if fst e =? obj then Ok (Some (snd e), h)
      else lookup_loop fuel t obj (Z.land (h + 1) (mask t))
  end.

Definition extern_lookup_position (t : position_table) (obj : Z) : result (option Z * Z) :=
  lookup_loop (S (Z.to_nat (size t))) t obj (Hash obj (shift t)).

(** [counter] is the number of objects, this one included *)
Definition extern_record_location_with_data (malloc_ok : Z -> bool) (t : position_table) (obj h data counter : Z)
    : result position_table :=
  let* p := bitvect_set (present t) h in
  let t := PosTable (shift t) (size t) (mask t) (threshold t) p (<[h := (obj, data)]> (entries t)) in
  if threshold t <=? counter then extern_resize_position_table malloc_ok t else Ok t.

(** ** The interface *)

(** the number of bindings of a finite map *)
Definition card (M : gmap Z Z) : Z := Z.of_nat (stdpp.base.size M).

(** Recording succeeds: memory is available.
    [pt_free t obj h]: [h] is the hash value that the lookup of [obj] gives for a record *)
Class PositionTable (T : Type) := {
  pt_init : T;
  pt_lookup : T -> Z -> result (option Z * Z);
  pt_record : T -> Z -> Z -> Z -> Z -> result T;
  pt_rep : T -> gmap Z Z -> Prop;
  pt_free : T -> Z -> Z -> Prop;
  pt_init_rep : pt_rep pt_init ∅;
  pt_lookup_rep : forall t M obj, pt_rep t M ->
    exists h, pt_lookup t obj = Ok (M !! obj, h) /\ (M !! obj = None -> pt_free t obj h);
  pt_record_rep : forall t M obj h data, pt_rep t M -> M !! obj = None -> pt_free t obj h ->
    card M + 1 < 2 ^ 56 ->
    exists t', pt_record t obj h data (card M + 1) = Ok t' /\
      pt_rep t' (<[obj := data]> M) }.

(** ** Bit vectors *)

Definition bit (bv : list Z) (i : Z) : bool := Z.testbit (zget bv (i / Bits_word)) (i mod Bits_word).

Lemma bit_index i : Z.shiftl 1 (Z.land i (Bits_word - 1)) = 2 ^ (i mod Bits_word).
Proof.
  change (Bits_word - 1) with (Z.ones 6). rewrite Z.land_ones by lia.
  rewrite Z.shiftl_mul_pow2 by (apply Z.mod_pos_bound; lia). change (2 ^ 6) with Bits_word. lia.
Qed.

Lemma word_index n i : 0 <= i < n * Bits_word -> 0 <= i / Bits_word < n.
Proof. unfold Bits_word. zlia. Qed.

Lemma bitvect_test_bit bv i :
  0 <= i < zlen bv * Bits_word -> bitvect_test bv i = Ok (bit bv i).
Proof.
  intros Hi. unfold bitvect_test. rewrite rd_zget by (by apply word_index). cbn [rbind].
  rewrite bit_index, land_pow2_nonzero; [done|]. apply Z.mod_pos_bound. unfold Bits_word. lia.
Qed.

Lemma bitvect_set_bit bv i :
  0 <= i < zlen bv * Bits_word ->
  exists bv', bitvect_set bv i = Ok bv' /\ zlen bv' = zlen bv /\
    forall j, 0 <= j -> bit bv' j = (j =? i) || bit bv j.
Proof.
  intros Hi. unfold bitvect_set. pose proof (word_index _ _ Hi) as Hw.
  rewrite rd_zget by done. cbn [rbind]. rewrite wr_in_range by done.
  eexists. split; [done|]. split; [apply zlen_insert|]. intros j Hj. unfold bit.
  rewrite zget_insert by (try done; unfold Bits_word; zlia). rewrite bit_index.
  assert (Hm : forall x, 0 <= x mod Bits_word < 64) by (intros; apply Z.mod_pos_bound; unfold Bits_word; lia).
  destruct (Z.eqb_spec (i / Bits_word) (j / Bits_word)) as [E|E].
  - rewrite Z.lor_spec, Z.pow2_bits_eqb, E by apply Hm. rewrite orb_comm. f_equal.
    apply eq_true_iff_eq. rewrite !Z.eqb_eq. unfold Bits_word in *. zlia.
  - destruct (Z.eqb_spec j i) as [->|]; [done|]. done.
Qed.

Lemma bit_replicate_0 n i : bit (replicate n 0) i = false.
Proof.
  unfold bit, zget. rewrite nth_lookup.
  destruct (replicate n 0 !! Z.to_nat (i / Bits_word)) as [x|] eqn:E; cbn [default from_option id].
  - apply lookup_replicate in E as [-> _]. apply Z.testbit_0_l.
  - apply Z.testbit_0_l.
Qed.

(** ** The representation *)

(** sizes: [size] is [2 ^ lg] *)
Record pt_shape (t : position_table) (lg : Z) : Prop := {
  sh_lg : 6 <= lg <= 60;
  sh_size : size t = 2 ^ lg;
  sh_shift : shift t = 64 - lg;
  sh_mask : mask t = 2 ^ lg - 1;
  sh_threshold : threshold t = Threshold (2 ^ lg);
  sh_present : zlen (present t) * Bits_word = 2 ^ lg }.

Definition has (t : position_table) (i : Z) : bool := bit (present t) i.

(** slot [i] holds the object [o] at position [p] *)
Definition slot (t : position_table) (i o p : Z) : Prop :=
  0 <= i < size t /\ has t i = true /\ entries t !! i = Some (o, p).

(** the [d]-th slot tried for [o] *)
Definition probe (t : position_table) (o d : Z) : Z := (Hash o (shift t) + d) mod size t.

(** the slots tried before the [d]-th are occupied *)
Definition probed (t : position_table) (o d : Z) : Prop :=
  forall e, 0 <= e < d -> has t (probe t o e) = true.

Record represents (t : position_table) (M : gmap Z Z) : Prop := {
  rp_slot : forall i, 0 <= i < size t -> has t i = true ->
    exists o p, entries t !! i = Some (o, p) /\ M !! o = Some p;
  rp_once : forall i j o p q, slot t i o p -> slot t j o q -> i = j;
  rp_found : forall o p, M !! o = Some p ->
    exists d, 0 <= d < size t /\ slot t (probe t o d) o p /\ probed t o d }.

(** [h] is the first free slot tried for [o] *)
Definition first_free (t : position_table) (o h : Z) : Prop :=
  exists d, 0 <= d < size t /\ h = probe t o d /\ has t h = false /\ probed t o d.

Definition table_rep (t : position_table) (M : gmap Z Z) : Prop :=
  (exists lg, pt_shape t lg) /\ represents t M /\ card M < threshold t.

Section Shape.
Context {t : position_table} {lg : Z} (S : pt_shape t lg).

Lemma size_pos : 64 <= size t <= 2 ^ 60.
Proof.
  pose proof (sh_lg _ _ S) as L. rewrite (sh_size _ _ S).
  change 64 with (2 ^ 6) at 1. split; apply Z.pow_le_mono_r; lia.
Qed.

Lemma Hash_range o : 0 <= Hash o (shift t) < size t.
Proof.
  pose proof (sh_lg _ _ S) as L. unfold Hash.
  rewrite (sh_shift _ _ S), (sh_size _ _ S), Z.shiftr_div_pow2 by lia.
  pose proof (u64_range (u64 o * HASH_FACTOR)) as U. unfold is_u64 in U.
  assert (2 ^ 64 = 2 ^ (64 - lg) * 2 ^ lg) as E by (rewrite <- Z.pow_add_r by lia; f_equal; lia).
  split; [apply Z.div_pos; lia|]. apply Z.div_lt_upper_bound; lia.
Qed.

Lemma probe_range o d : 0 <= probe t o d < size t.
Proof. apply Z.mod_pos_bound. pose proof size_pos. lia. Qed.

Lemma probe_0 o : probe t o 0 = Hash o (shift t).
Proof. unfold probe. rewrite Z.add_0_r. apply Z.mod_small, Hash_range. Qed.

Lemma probe_succ o d : Z.land (probe t o d + 1) (mask t) = probe t o (d + 1).
Proof.
  pose proof (sh_lg _ _ S) as L. rewrite (sh_mask _ _ S).
  replace (2 ^ lg - 1) with (Z.ones lg) by (rewrite Z.ones_equiv; lia).
  rewrite Z.land_ones by lia. unfold probe. rewrite (sh_size _ _ S).
  rewrite Z.add_mod_idemp_l by lia. f_equal. lia.
Qed.

Lemma test_has i : 0 <= i < size t -> bitvect_test (present t) i = Ok (has t i).
Proof.
  intros Hi. apply bitvect_test_bit. rewrite (sh_present _ _ S), <- (sh_size _ _ S). done.
Qed.
End Shape.

(** ** Free slots and probing *)

Lemma least_free (P : Z -> bool) (n : nat) :
  P (Z.of_nat n) = false ->
  exists d, 0 <= d <= Z.of_nat n /\ P d = false /\ forall e, 0 <= e < d -> P e = true.
Proof.
  intros Hn.
  assert (H : forall k : nat, (exists d, 0 <= d < Z.of_nat k /\ P d = false /\
      forall e, 0 <= e < d -> P e = true) \/ forall e, 0 <= e < Z.of_nat k -> P e = true).
  { induction k as [|k [(d & Hd & E)|IH]]; [right; lia|left; exists d; split; [lia|done]|].
    destruct (P (Z.of_nat k)) eqn:E.
    - right. intros e He. destruct (decide (e = Z.of_nat k)) as [->|]; [done|]. apply IH. lia.
    - left. exists (Z.of_nat k). split_and!; [lia..|done|done]. }
  destruct (H (S n)) as [(d & Hd & E)|A]; [exists d; split; [lia|done]|].
  rewrite A in Hn by lia. done.
Qed.

Section Probing.
Context {t : position_table} {lg : Z} {M : gmap Z Z} (S : pt_shape t lg) (R : represents t M).

Lemma slot_objects n :
  Z.of_nat n <= size t -> (forall i, 0 <= i < Z.of_nat n -> has t i = true) ->
  exists l : list Z, length l = n /\ NoDup l /\
    forall o, o ∈ l -> exists i p, 0 <= i < Z.of_nat n /\ slot t i o p.
Proof.
  induction n as [|n IH]; intros Hn H.
  - exists []. split_and!; [done|constructor|]. intros o Ho. by apply not_elem_of_nil in Ho.
  - destruct IH as (l & Ll & Nl & Hl); [lia|intros i Hi; apply H; lia|].
    destruct (rp_slot _ _ R (Z.of_nat n)) as (o & p & E & _); [lia|apply H; lia|].
    assert (Hs : slot t (Z.of_nat n) o p) by (split_and!; [lia..|apply H; lia|done]).
    exists (o :: l). split_and!; [simpl; lia| |].
    + constructor; [|done]. intros (i & q & Hi & Hq)%Hl.
      pose proof (rp_once _ _ R _ _ _ _ _ Hs Hq). lia.
    + intros o' [->|Ho]%elem_of_cons; [exists (Z.of_nat n), p; split; [lia|done]|].
      destruct (Hl _ Ho) as (i & q & Hi & Hq). exists i, q. split; [lia|done].
Qed.

Lemma exists_free : card M < size t -> exists i, 0 <= i < size t /\ has t i = false.
Proof.
  intros Hc. pose proof (size_pos S) as P.
  destruct (decide (Forall (fun i => has t i = true) (seqZ 0 (size t)))) as [F|F].
  - exfalso. rewrite Forall_forall in F.
    destruct (slot_objects (Z.to_nat (size t))) as (l & Ll & Nl & Hl); [lia| |].
    { intros i Hi. apply F. apply elem_of_seqZ. lia. }
    assert (length l <= stdpp.base.size M)%nat; [|unfold card in Hc; lia].
    rewrite <- (size_dom (D := gset Z)), <- (size_list_to_set (C := gset Z) l) by done.
    apply subseteq_size. intros o Ho. apply elem_of_list_to_set in Ho.
    destruct (Hl o Ho) as (i & p & Hi & _ & Hh & E).
    destruct (rp_slot _ _ R i) as (o' & p' & E' & Ho'); [lia|done|].
    assert (o' = o) as -> by congruence. apply elem_of_dom. by rewrite Ho'.
  - apply not_Forall_Exists in F; [|intros i; apply _]. apply Exists_exists in F as (i & Hi & F).
    apply elem_of_seqZ in Hi. exists i. split; [lia|]. simpl in F. by destruct (has t i).
Qed.

Lemma exists_first_free o : card M < size t -> exists h, first_free t o h.
Proof.
  intros Hc. destruct (exists_free Hc) as (i & Hi & Hf). pose proof (size_pos S) as P.
  set (d := (i - Hash o (shift t)) mod size t).
  assert (Hd : 0 <= d < size t) by (apply Z.mod_pos_bound; lia).
  assert (Hp : probe t o d = i).
  { unfold probe, d. rewrite Z.add_mod_idemp_r by lia.
    replace (Hash o (shift t) + (i - Hash o (shift t))) with i by lia. apply Z.mod_small. lia. }
  destruct (least_free (fun d => has t (probe t o d)) (Z.to_nat d)) as (e & He & Hfe & Hb).
  { rewrite Z2Nat.id by lia. by rewrite Hp. }
  exists (probe t o e), e. split_and!; [lia..|done|done|done].
Qed.

Lemma find_free_loop o D fuel : forall d,
  0 <= d <= D -> has t (probe t o D) = false -> probed t o D -> D - d < Z.of_nat fuel ->
  find_free fuel (present t) (mask t) (probe t o d) = Ok (probe t o D).
Proof.
  induction fuel as [|fuel IH]; intros d Hd Hf Hb Hl; [lia|]. cbn [find_free].
  rewrite (test_has S) by apply (probe_range S). cbn [rbind].
  destruct (decide (d = D)) as [->|]; [by rewrite Hf|].
  rewrite Hb by lia. rewrite (probe_succ S). apply IH; [lia|done|done|lia].
Qed.

Lemma find_free_correct o h :
  first_free t o h ->
  find_free (Datatypes.S (Z.to_nat (size t))) (present t) (mask t) (Hash o (shift t)) = Ok h.
Proof.
  intros (D & HD & -> & Hf & Hb). rewrite <- (probe_0 S). apply find_free_loop; [lia|done|done|lia].
Qed.

Lemma lookup_loop_found o p D fuel : forall d,
  0 <= d <= D -> D < size t -> slot t (probe t o D) o p -> probed t o D -> D - d < Z.of_nat fuel ->
  exists h, lookup_loop fuel t o (probe t o d) = Ok (Some p, h).
Proof.
  induction fuel as [|fuel IH]; intros d Hd HD Hs Hb Hl; [lia|]. cbn [lookup_loop].
  rewrite (test_has S) by apply (probe_range S). cbn [rbind].
  assert (Hh : has t (probe t o d) = true).
  { destruct (decide (d = D)) as [->|]; [apply Hs|apply Hb; lia]. }
  rewrite Hh. destruct (rp_slot _ _ R _ (probe_range S o d) Hh) as (o' & q & E & _).
  rewrite E. cbn [negb of_option rbind fst snd].
  destruct (Z.eqb_spec o' o) as [->|Ne].
  - assert (Hs' : slot t (probe t o d) o q) by (split; [apply (probe_range S)|done]).
    pose proof (rp_once _ _ R _ _ _ _ _ Hs Hs') as E'. exists (probe t o d).
    destruct Hs as (_ & _ & Es). rewrite E' in Es. congruence.
  - rewrite (probe_succ S). apply IH; try done; [|lia].
    destruct (decide (d = D)) as [->|]; [|lia]. destruct Hs as (_ & _ & Es). congruence.
Qed.

Lemma lookup_loop_absent o D fuel : forall d,
  M !! o = None -> 0 <= d <= D -> has t (probe t o D) = false -> probed t o D ->
  D - d < Z.of_nat fuel ->
  lookup_loop fuel t o (probe t o d) = Ok (None, probe t o D).
Proof.
  induction fuel as [|fuel IH]; intros d HM Hd Hf Hb Hl; [lia|]. cbn [lookup_loop].
  rewrite (test_has S) by apply (probe_range S). cbn [rbind].
  destruct (decide (d = D)) as [->|]; [by rewrite Hf|].
  assert (Hh : has t (probe t o d) = true) by (apply Hb; lia).
  rewrite Hh. destruct (rp_slot _ _ R _ (probe_range S o d) Hh) as (o' & q & E & Hq).
  rewrite E. cbn [negb of_option rbind fst snd].
  destruct (Z.eqb_spec o' o) as [->|Ne]; [congruence|].
  rewrite (probe_succ S). apply IH; try done; lia.
Qed.

Lemma lookup_correct o :
  card M < size t ->
  exists h, extern_lookup_position t o = Ok (M !! o, h) /\ (M !! o = None -> first_free t o h).
Proof.
  intros Hc. unfold extern_lookup_position. rewrite <- (probe_0 S).
  destruct (M !! o) as [p|] eqn:E.
  - destruct (rp_found _ _ R _ _ E) as (D & HD & Hs & Hb).
    destruct (lookup_loop_found o p D (Datatypes.S (Z.to_nat (size t))) 0) as [h ->]; try done; [lia..|].
    by exists h.
  - destruct (exists_first_free o Hc) as (h & D & HD & -> & Hf & Hb).
    exists (probe t o D). rewrite (lookup_loop_absent o D) by (done || lia).
    split; [done|]. intros _. by exists D.
Qed.

(** filling the first free slot adds the object to the map *)
Lemma put_represents o h p bv :
  M !! o = None -> first_free t o h -> zlen bv = zlen (present t) ->
  (forall j, 0 <= j -> bit bv j = (j =? h) || bit (present t) j) ->
  let t' := PosTable (shift t) (size t) (mask t) (threshold t) bv (<[h := (o, p)]> (entries t)) in
  pt_shape t' lg /\ represents t' (<[o := p]> M).
Proof.
  intros Hn (D & HD & -> & Hf & Hb) Hl Hbit t'. pose proof (probe_range S o D) as Hr.
  set (h := probe t o D) in *.
  assert (Hhas : forall i, 0 <= i -> has t' i = (i =? h) || has t i) by (intros; by apply Hbit).
  assert (Hold : forall i, has t i = true -> i <> h) by (intros i Hi ->; congruence).
  assert (Hslot : forall i o' q, slot t' i o' q ->
            (i = h /\ o' = o /\ q = p) \/ (i <> h /\ slot t i o' q)).
  { intros i o' q (Hi & Hh & E). cbn [entries t'] in E. destruct (decide (i = h)) as [->|Ne].
    - rewrite lookup_insert_eq in E. left. naive_solver.
    - rewrite lookup_insert_ne in E by done. right. split; [done|]. split_and!; [apply Hi..| |done].
      rewrite Hhas in Hh by lia. by destruct (Z.eqb_spec i h). }
  assert (Hkeep : forall i o' q, slot t i o' q -> slot t' i o' q).
  { intros i o' q (Hi & Hh & E). split_and!; [apply Hi..| |].
    - rewrite Hhas, Hh by lia. apply orb_true_r.
    - cbn [entries t']. rewrite lookup_insert_ne; [done|]. intros <-. congruence. }
  assert (Hprobed : forall o' d, probed t o' d -> probed t' o' d).
  { intros o' d H e He. change (probe t' o' e) with (probe t o' e).
    rewrite Hhas, H by (done || apply (probe_range S)). apply orb_true_r. }
  split; [destruct S; split; try done; cbn [present t']; by rewrite Hl|]. split.
  - intros i Hi Hh. cbn [entries t']. destruct (decide (i = h)) as [->|Ne].
    + exists o, p. by rewrite !lookup_insert_eq.
    + rewrite Hhas in Hh by lia. destruct (Z.eqb_spec i h); [done|]. cbn [orb] in Hh.
      destruct (rp_slot _ _ R i Hi Hh) as (o' & q & E & Hq).
      exists o', q. rewrite !lookup_insert_ne; [done| |done]. congruence.
  - intros i j o' q q' [(-> & -> & ->)|[Ni Hi]]%Hslot [(-> & E & _)|[Nj Hj]]%Hslot; try done.
    + destruct Hj as (Hj & Hh & E). destruct (rp_slot _ _ R j Hj Hh) as (x & y & E' & Hx). congruence.
    + subst o'. destruct Hi as (Hi & Hh & E). destruct (rp_slot _ _ R i Hi Hh) as (x & y & E' & Hx). congruence.
    + by apply (rp_once _ _ R _ _ _ _ _ Hi Hj).
  - intros o' q. destruct (decide (o' = o)) as [->|Ne].
    + rewrite lookup_insert_eq. intros [= <-]. exists D. split; [done|].
      split; [|by apply Hprobed]. split_and!; [apply Hr..| |].
      * rewrite Hhas by (change (probe t' o D) with h; lia).
        change (probe t' o D) with h. by rewrite Z.eqb_refl.
      * change (probe t' o D) with h. cbn [entries t']. apply lookup_insert_eq.
    + rewrite lookup_insert_ne by done. intros (d & Hd & Hs & Hp)%(rp_found _ _ R).
      exists d. split; [done|]. split; [by apply Hkeep|by apply Hprobed].
Qed.
End Probing.

(** ** Growing the table *)

Lemma empty_table lg :
  6 <= lg <= 60 ->
  let t := PosTable (64 - lg) (2 ^ lg) (2 ^ lg - 1) (Threshold (2 ^ lg))
             (replicate (Z.to_nat (Bitvect_size (2 ^ lg))) 0) ∅ in
  pt_shape t lg /\ represents t ∅.
Proof.
  intros Hlg t. split.
  - split; try done. cbn [present t]. unfold zlen. rewrite length_replicate. unfold Bitvect_size.
    assert (E : 2 ^ lg = 2 ^ (lg - 6) * 64) by (change 64 with (2 ^ 6); rewrite <- Z.pow_add_r by lia; f_equal; lia).
    assert (0 < 2 ^ (lg - 6)) by (apply Z.pow_pos_nonneg; lia).
    rewrite E. unfold Bits_word. zlia.
  - split.
    + intros i _. unfold has. cbn [present t]. by rewrite bit_replicate_0.
    + intros i j o p q (_ & Hh & _). unfold has in Hh. cbn [present t] in Hh. by rewrite bit_replicate_0 in Hh.
    + intros o p. by rewrite lookup_empty.
Qed.

Lemma card_subseteq (M N : gmap Z Z) :
  (forall o p, M !! o = Some p -> N !! o = Some p) -> card M <= card N.
Proof.
  intros H. unfold card. rewrite <- !(size_dom (D := gset Z)).
  apply inj_le. apply subseteq_size. intros o Ho. apply elem_of_dom in Ho as [p Hp]. apply elem_of_dom. exists p. by apply H.
Qed.

(** the new table holds the first [i] slots of the old one *)
Definition reinserted (old : position_table) (lg i : Z) (t : position_table) : Prop :=
  pt_shape t lg /\ exists Mi, represents t Mi /\
    forall o p, Mi !! o = Some p <-> exists j, j < i /\ slot old j o p.

Lemma reinsert_correct old lg0 M lg i t :
  pt_shape old lg0 -> represents old M -> card M < 2 ^ lg ->
  0 <= i < size old -> reinserted old lg i t ->
  exists t', reinsert old i t = Ok t' /\ reinserted old lg (i + 1) t'.
Proof.
  intros S0 R0 Hc Hi (S & Mi & R & HM). unfold reinsert.
  rewrite (test_has S0) by done. cbn [rbind]. destruct (has old i) eqn:Hh; cbn [negb].
  - destruct (rp_slot _ _ R0 i Hi Hh) as (o & p & E & Ho). rewrite E. cbn [of_option rbind fst].
    assert (Hs : slot old i o p) by (split; [done|by split]).
    assert (Hn : Mi !! o = None).
    { destruct (Mi !! o) as [q|] eqn:Eq; [|done]. apply HM in Eq as (j & Hj & Hq).
      pose proof (rp_once _ _ R0 _ _ _ _ _ Hs Hq). lia. }
    assert (Hc' : card Mi < size t).
    { rewrite (sh_size _ _ S). eapply Z.le_lt_trans; [|exact Hc]. apply card_subseteq.
      intros o' q (j & _ & Hj & Hh' & E')%HM.
      destruct (rp_slot _ _ R0 j Hj Hh') as (x & y & E2 & Hx). congruence. }
    destruct (exists_first_free S R o Hc') as (h & Hf).
    rewrite (find_free_correct S o h Hf). cbn [rbind].
    assert (Hr : 0 <= h < size t) by (destruct Hf as (d & _ & -> & _); apply (probe_range S)).
    destruct (bitvect_set_bit (present t) h) as (bv & -> & Hl & Hbit).
    { by rewrite (sh_present _ _ S), <- (sh_size _ _ S). }
    cbn [rbind]. eexists. split; [done|].
    destruct (put_represents S R o h p bv Hn Hf Hl Hbit) as [S' R'].
    split; [done|]. exists (<[o := p]> Mi). split; [done|]. intros o' q.
    destruct (decide (o' = o)) as [->|Ne].
    + rewrite lookup_insert_eq. split; [intros [= <-]; exists i; split; [lia|done]|].
      intros (j & _ & Hj). pose proof (rp_once _ _ R0 _ _ _ _ _ Hs Hj) as <-.
      destruct Hs as (_ & _ & E1), Hj as (_ & _ & E2). congruence.
    + rewrite lookup_insert_ne, HM by done. split; intros (j & Hj & Hq); exists j; split; try done; [lia|].
      destruct (decide (j = i)) as [->|]; [|lia]. destruct Hs as (_ & _ & E1), Hq as (_ & _ & E2). congruence.
  - exists t. split; [done|]. split; [done|]. exists Mi. split; [done|]. intros o p. rewrite HM.
    split; intros (j & Hj & Hq); exists j; split; try done; [lia|].
    destruct (decide (j = i)) as [->|]; [|lia]. destruct Hq as (_ & Hq & _). congruence.
Qed.

(** the size after a growth *)
Definition grown (sz : Z) : Z := if sz <? 1000000 then 8 * sz else 2 * sz.

(** the allocator grants both arrays of a table of this size *)
Definition granted (malloc_ok : Z -> bool) (sz : Z) : bool := malloc_ok (sz * sizeof_object_position) && malloc_ok (present_bsize sz).

Lemma resize_correct malloc_ok t M :
  (exists lg, pt_shape t lg /\ lg <= 56) -> represents t M -> card M <= threshold t ->
  if granted malloc_ok (grown (size t))
  then exists t', extern_resize_position_table malloc_ok t = Ok t' /\ table_rep t' M /\ size t' = grown (size t)
  else extern_resize_position_table malloc_ok t = Raise Out_of_memory.
Proof.
  intros (lg & S & Hlg) R Hc. unfold extern_resize_position_table. pose proof (size_pos S) as P.
  pose proof (sh_lg _ _ S) as L.
  assert (exists k, (k = 3 \/ k = 1) /\
    (if size t <? 1000000 then (u64 (8 * size t), shift t - 3) else (u64 (2 * size t), shift t - 1))
    = (2 ^ (lg + k), 64 - (lg + k)) /\ grown (size t) = 2 ^ (lg + k)) as (k & Hk & -> & ->).
  { unfold grown. assert (size t <= 2 ^ 56) by (rewrite (sh_size _ _ S); apply Z.pow_le_mono_r; lia).
    destruct (Z.ltb_spec (size t) 1000000); [exists 3|exists 1]; (split; [lia|]);
      rewrite u64_id by (unfold is_u64; lia); rewrite (sh_size _ _ S), (sh_shift _ _ S), Z.pow_add_r by lia;
      (split; [f_equal|]; lia). }
  assert (B : 2 ^ lg * 2 <= 2 ^ (lg + k) <= 2 ^ 59).
  { split; [|apply Z.pow_le_mono_r; lia]. replace (2 ^ lg * 2) with (2 ^ (lg + 1)) by (rewrite Z.pow_add_r by lia; lia).
    apply Z.pow_le_mono_r; lia. }
  rewrite (sh_size _ _ S) in P.
  destruct (Z.eqb_spec (2 ^ (lg + k)) 0), (Z.leb_spec (2 ^ 64) (2 ^ (lg + k) * sizeof_object_position));
    try (unfold sizeof_object_position in *; lia). cbn [orb].
  unfold granted. destruct (malloc_ok (_ * _)); cbn [andb negb]; [|done]. destruct (malloc_ok (present_bsize _)); cbn [negb]; [|done].
  destruct (empty_table (lg + k)) as [S' R']; [lia|].
  assert (Ht : threshold t < Threshold (2 ^ (lg + k)) /\ Threshold (2 ^ (lg + k)) <= 2 ^ (lg + k)).
  { rewrite (sh_threshold _ _ S). unfold Threshold. split; zlia. }
  destruct (for_loop_inv (reinserted t (lg + k)) (Z.to_nat (size t)) 0 (reinsert t)
    (PosTable (64 - (lg + k)) (2 ^ (lg + k)) (2 ^ (lg + k) - 1) (Threshold (2 ^ (lg + k)))
       (replicate (Z.to_nat (Bitvect_size (2 ^ (lg + k)))) 0) ∅)) as (t' & E & S2 & Mi & R2 & HM).
  - split; [done|]. exists ∅. split; [done|]. intros o p. rewrite lookup_empty.
    split; [done|]. intros (j & Hj & [Hj' _] & _). lia.
  - intros j a Hj Ha. apply (reinsert_correct t lg M); try done; [lia|]. rewrite Z2Nat.id in Hj; [lia|].
    rewrite (sh_size _ _ S). lia.
  - exists t'. split; [done|]. assert (Mi = M) as ->.
    { apply map_eq. intros o. apply option_eq. intros p. rewrite HM, Z2Nat.id by (rewrite (sh_size _ _ S); lia).
      split.
      - intros (j & _ & Hj & Hh & E'). destruct (rp_slot _ _ R j Hj Hh) as (x & y & E2 & Hx). congruence.
      - intros (d & Hd & Hs & _)%(rp_found _ _ R). exists (probe t o d). split; [|done].
        pose proof (probe_range S o d). lia. }
    split; [|exact (sh_size _ _ S2)]. split; [by exists (lg + k)|]. split; [done|]. rewrite (sh_threshold _ _ S2). lia.
Qed.

(** recording an object: the table grows when it reaches the threshold *)
Lemma record_ok malloc_ok t M o h p :
  table_rep t M -> M !! o = None -> first_free t o h -> card M + 1 < 2 ^ 56 ->
  let r := extern_record_location_with_data malloc_ok t o h p (card M + 1) in
  if threshold t <=? card M + 1
  then if granted malloc_ok (grown (size t))
       then exists t', r = Ok t' /\ table_rep t' (<[o := p]> M) /\ size t' = grown (size t) else r = Raise Out_of_memory
  else exists t', r = Ok t' /\ table_rep t' (<[o := p]> M) /\ size t' = size t.
Proof.
  intros ((lg & S) & R & Hc) Hn Hf Hb r. unfold r, extern_record_location_with_data.
  assert (Hr : 0 <= h < size t) by (destruct Hf as (d & _ & -> & _); apply (probe_range S)).
  destruct (bitvect_set_bit (present t) h) as (bv & -> & Hl & Hbit).
  { by rewrite (sh_present _ _ S), <- (sh_size _ _ S). }
  cbn [rbind]. destruct (put_represents S R o h p bv Hn Hf Hl Hbit) as [S' R'].
  set (t' := PosTable _ _ _ _ _ _) in *. change (threshold t') with (threshold t). change (size t) with (size t').
  assert (Hc' : card (<[o := p]> M) = card M + 1).
  { unfold card. rewrite map_size_insert_None by done. lia. }
  destruct (Z.leb_spec (threshold t) (card M + 1)) as [L|L].
  - apply resize_correct; [|done|].
    + exists lg. split; [done|]. destruct (Z.leb_spec lg 56); [done|].
      rewrite (sh_threshold _ _ S) in L. unfold Threshold in L.
      assert (2 ^ 57 <= 2 ^ lg) by (apply Z.pow_le_mono_r; lia). zlia.
    + rewrite Hc'. change (threshold t') with (threshold t). lia.
  - eexists. split; [done|]. split; [|done]. split; [by exists lg|]. split; [done|]. rewrite Hc'. exact L.
Qed.

Lemma record_correct t M o h p :
  table_rep t M -> M !! o = None -> first_free t o h -> card M + 1 < 2 ^ 56 ->
  exists t', extern_record_location_with_data (fun _ => true) t o h p (card M + 1) = Ok t' /\
    table_rep t' (<[o := p]> M).
Proof.
  intros T Hn Hf Hb. pose proof (record_ok (fun _ => true) t M o h p T Hn Hf Hb) as H. cbn zeta in H.
  destruct (_ <=? _); [change (granted _ _) with true in H; cbn iota in H|]; destruct H as (t' & E & T' & _); by exists t'.
Qed.

Lemma init_rep : table_rep extern_init_position_table ∅.
Proof.
  destruct (empty_table 8) as [S R]; [lia|].
  split; [by exists 8|]. split; [exact R|]. by vm_compute.
Qed.

Lemma lookup_rep t M o :
  table_rep t M ->
  exists h, extern_lookup_position t o = Ok (M !! o, h) /\ (M !! o = None -> first_free t o h).
Proof.
  intros ((lg & S) & R & Hc). apply (lookup_correct S R).
  eapply Z.lt_le_trans; [exact Hc|]. rewrite (sh_threshold _ _ S), (sh_size _ _ S).
  assert (0 <= 2 ^ lg) by (apply Z.pow_nonneg; lia). unfold Threshold. zlia.
Qed.

(** the hash table implements the interface, when memory is available *)
#[export] Instance position_table_spec : PositionTable position_table := {
  pt_init := extern_init_position_table;
  pt_lookup := extern_lookup_position;
  pt_record := extern_record_location_with_data (fun _ => true);
  pt_rep := table_rep;
  pt_free := first_free;
  pt_init_rep := init_rep;
  pt_lookup_rep := lookup_rep;
  pt_record_rep := record_correct }.

(** ** Recording a sequence of objects *)

(** looking each object up, and recording it: the table, and the number of objects *)
Definition record_all (malloc_ok : Z -> bool) (objs : list (Z * Z)) : result (position_table * Z) :=
  foldl (fun r e =>
    let* (t, n) := r in
    let* (o, h) := extern_lookup_position t (fst e) in
    match o with
    | Some _ => Undef
    | None =>
        let* t := extern_record_location_with_data malloc_ok t (fst e) h (snd e) (n + 1) in
        Ok (t, n + 1)
    end) (Ok (extern_init_position_table, 0)) objs.

(** the size of the table after [i] growths *)
Definition table_size (i : nat) : Z := Nat.iter i grown POS_TABLE_INIT_SIZE.

(** [n] objects need a growth that the allocator refuses *)
Definition growth_refused (malloc_ok : Z -> bool) (n : Z) : Prop :=
  exists i, Threshold (table_size i) <= n /\ granted malloc_ok (table_size (S i)) = false.

Lemma table_size_pos i : 256 <= table_size i.
Proof.
  induction i as [|i IH]; [done|]. change (table_size (S i)) with (grown (table_size i)). unfold grown. destruct (_ <? _); lia.
Qed.

Lemma table_size_mono i j : (i <= j)%nat -> table_size i <= table_size j.
Proof.
  induction 1 as [|j _ IH]; [done|]. change (table_size (S j)) with (grown (table_size j)). pose proof (table_size_pos j).
  unfold grown. destruct (_ <? _); lia.
Qed.

Lemma Threshold_mono n m : n <= m -> Threshold n <= Threshold m.
Proof. intros H. unfold Threshold. apply Z.div_le_mono; lia. Qed.

Lemma record_all_snoc malloc_ok objs e : record_all malloc_ok (objs ++ [e]) =
  let* (t, n) := record_all malloc_ok objs in
  let* (o, h) := extern_lookup_position t (fst e) in
  match o with
  | Some _ => Undef
  | None => let* t := extern_record_location_with_data malloc_ok t (fst e) h (snd e) (n + 1) in Ok (t, n + 1)
  end.
Proof. unfold record_all. by rewrite foldl_app. Qed.

Lemma list_to_map_fresh_snoc (l : list (Z * Z)) e : e.1 ∉ l.*1 ->
  (list_to_map (l ++ [e]) : gmap Z Z) = <[e.1 := e.2]> (list_to_map l).
Proof.
  intros Hn. rewrite list_to_map_app, insert_union_singleton_r by (by apply not_elem_of_list_to_map). by destruct e.
Qed.

(** the table after [i] growths, all granted, holds the objects *)
Definition recorded (malloc_ok : Z -> bool) (objs : list (Z * Z)) : Prop := exists t i,
  record_all malloc_ok objs = Ok (t, zlen objs) /\ table_rep t (list_to_map objs) /\ size t = table_size i /\
  forall j, (j < i)%nat -> granted malloc_ok (table_size (S j)) = true.

Lemma record_all_ok malloc_ok objs : NoDup (objs.*1) -> zlen objs < 2 ^ 56 ->
  recorded malloc_ok objs \/ record_all malloc_ok objs = Raise Out_of_memory /\ growth_refused malloc_ok (zlen objs).
Proof.
  induction objs as [|e objs IH] using rev_ind; intros Hn Hl.
  { left. exists extern_init_position_table, 0%nat. split; [done|]. split; [apply init_rep|]. split; [done|lia]. }
  rewrite fmap_app in Hn. apply NoDup_app in Hn as (Hn & Hd & _). rewrite zlen_snoc in *.
  assert (Hfresh : e.1 ∉ objs.*1) by (intros Hin; apply (Hd _ Hin); by left).
  rewrite record_all_snoc. destruct IH as [(t & i & E & T & Sz & G)|[E (i & H1 & H2)]]; [done|lia| |].
  2:{ right. rewrite E. split; [done|]. exists i. split; [lia|done]. }
  pose proof (not_elem_of_list_to_map_1 objs e.1 Hfresh) as HN.
  assert (Hc : card (list_to_map objs) = zlen objs) by (unfold card, zlen; by rewrite map_size_list_to_map).
  destruct (lookup_rep t _ (fst e) T) as (h & EL & Hf). rewrite HN in EL.
  pose proof (record_ok malloc_ok t _ (fst e) h (snd e) T HN (Hf HN) ltac:(lia)) as H. cbn zeta in H. rewrite Hc, <- list_to_map_fresh_snoc in H by done.
  pose proof T as ((lg & Sh) & _). rewrite (sh_threshold _ _ Sh), <- (sh_size _ _ Sh), Sz in H.
  assert (Hstep : forall t', extern_record_location_with_data malloc_ok t e.1 h e.2 (zlen objs + 1) = Ok t' ->
    record_all malloc_ok (objs ++ [e]) = Ok (t', zlen (objs ++ [e]))).
  { intros t' E'. rewrite record_all_snoc, E. cbn [rbind]. rewrite EL. cbn [rbind]. rewrite E'. by rewrite zlen_snoc. }
  destruct (Z.leb_spec (Threshold (table_size i)) (zlen objs + 1)) as [L|L];
    [destruct (granted malloc_ok (grown (table_size i))) eqn:Eg|].
  - left. destruct H as (t' & E' & T' & Sz'). exists t', (S i). split; [by apply Hstep|]. split; [done|]. split; [done|].
    intros j Hj. destruct (decide (j = i)) as [->|]; [done|]. apply G. lia.
  - right. rewrite E. cbn [rbind]. rewrite EL. cbn [rbind]. rewrite H. split; [done|]. by exists i.
  - left. destruct H as (t' & E' & T' & Sz'). exists t', i. split; [by apply Hstep|]. by split_and!.
Qed.

(** all the growths needed were granted *)
Lemma recorded_granted malloc_ok objs : recorded malloc_ok objs -> NoDup (objs.*1) -> ~ growth_refused malloc_ok (zlen objs).
Proof.
  intros (t & i & _ & ((lg & Sh) & _ & Hc) & Sz & G) Hn (j & Hj & Gj). destruct (decide (j < i)%nat) as [L|L]; [by rewrite G in Gj|].
  rewrite (sh_threshold _ _ Sh), <- (sh_size _ _ Sh), Sz in Hc. unfold card in Hc. rewrite map_size_list_to_map in Hc by done.
  pose proof (Threshold_mono _ _ (table_size_mono i j ltac:(lia))). unfold zlen in Hj. lia.
Qed.

(** C14: The position table refines a finite map, for any number of objects below
    [2 ^ 56], whatever the collisions and across every growth of the table, when memory is
    available: from the empty table, objects that a lookup has not found are recorded, at
    the hash value that the lookup returned, and looking any object up then ends and returns
    the position recorded for it, or none if it was not recorded.  Recording raises
    [Out_of_memory] exactly when one of the growths that this number of objects needs asks
    for an array that the allocator refuses. *)
Theorem position_table_refines_map malloc_ok (objs : list (Z * Z)) :
  NoDup (objs.*1) -> zlen objs < 2 ^ 56 ->
  (growth_refused malloc_ok (zlen objs) -> record_all malloc_ok objs = Raise Out_of_memory) /\
  (~ growth_refused malloc_ok (zlen objs) ->
    exists t, record_all malloc_ok objs = Ok (t, zlen objs) /\
      forall o, exists h, extern_lookup_position t o = Ok ((list_to_map objs : gmap Z Z) !! o, h)).
Proof.
  intros Hn Hl. destruct (record_all_ok malloc_ok objs Hn Hl) as [R|[E Hr]]; [|by split].
  split; [intros Hr; by destruct (recorded_granted _ _ R Hn)|intros _]. destruct R as (t & i & E & T & _). exists t. split; [done|].
  intros o. destruct (lookup_rep t _ o T) as (h & EL & _). by exists h.
Qed.

(** no growth is needed; and, for as many objects as the table may hold at first, a growth
    that is refused *)
Lemma position_table_refines_map_witness :
  (exists t, extern_lookup_position t 2048 = Ok (Some 1, 187)) /\
  record_all (fun n => n <? 20000) ((fun i => (8 * i, i)) <$> seqZ 0 170) = Raise Out_of_memory.
Proof.
  split.
  - destruct (position_table_refines_map (fun _ => true) [(1032, 0); (2048, 1); (8, 2)]) as [_ H].
    { apply (bool_decide_unpack _). vm_compute. exact I. }
    { reflexivity. }
    destruct H as (t & E & _); [by intros (i & _ & [=])|].
    exists t. vm_compute in E. injection E as <-. vm_compute. reflexivity.
  - apply (position_table_refines_map (fun n => n <? 20000) ((fun i => (8 * i, i)) <$> seqZ 0 170)).
    + apply (bool_decide_unpack _). vm_compute. exact I.
    + reflexivity.
    + exists 0%nat. split; [by vm_compute|reflexivity].
Defined.
