(* ===== verification/Extern.v ===== *)
(** * Writing marshaled data ([extern.c])

    [extern_rec] writes a value and everything reachable from it, depth first, with an
    explicit stack of pending fields; an object met again is written as a reference to
    the objects already written, found in the position table (an instance of
    [PositionTable]).  The memory is read only.

    The configuration is that of a 64-bit little-endian platform without zstd, so the
    COMPRESSED flag is ignored.  Custom operations and code fragments are parameters. *)

From S2P Require Import Prelude.
From S2P Require Import Mlvalues.
From S2P Require Import Str.
From S2P Require Import Memory.
From S2P Require Import Intext.
From S2P Require Import Postable.
#[local] Open Scope Z_scope.

Definition NO_SHARING : Z := 1.
Definition CLOSURES : Z := 2.
Definition COMPAT_32 : Z := 4.
Definition COMPRESSED : Z := 8.

Definition EXTERN_STACK_INIT_SIZE : Z := 256.
Definition EXTERN_STACK_MAX_SIZE : Z := 1024 * 1024 * 100.

(** a pending sequence of fields: its address and its length *)
Record extern_item := ExternItem { item_v : Z; item_count : Z }.

Record extern_state (T : Type) := ExternState {
  extern_flags : Z;
  obj_counter : Z;
  size_32 : Z;
  size_64 : Z;
  extern_stack_size : Z;      (* extern_stack_limit - extern_stack *)
  pos_table : T;
  out : output }.
Arguments ExternState {T}.
Arguments extern_flags {T}.
Arguments obj_counter {T}.
Arguments size_32 {T}.
Arguments size_64 {T}.
Arguments extern_stack_size {T}.
Arguments pos_table {T}.
Arguments out {T}.

(** [a custom block]: the identifier of its operations, [serialize] on the output, with
    the sizes on 32 and 64 bits, and the fixed sizes when there are *)
Record custom_operations := CustomOperations {
  identifier : list Z;
  serialize : option (mem -> Z -> output -> result (output * Z * Z));
  fixed_length : option (Z * Z) }.

Section Extern.
Context {T : Type} `{PositionTable T}.
Context (m : mem).
(** [Custom_ops_val] *)
Context (custom_ops : Z -> custom_operations).
(** [caml_find_code_fragment_by_pc]: the start of the code and its digest *)
Context (code_fragment : Z -> option (Z * option (list Z))).

Definition set_out (s : extern_state T) (o : output) : extern_state T :=
  ExternState (extern_flags s) (obj_counter s) (size_32 s) (size_64 s) (extern_stack_size s)
    (pos_table s) o.
Definition emit (s : extern_state T) (w : output -> result output) : result (extern_state T) :=
  let* o := w (out s) in Ok (set_out s o).
Definition add_sizes (s : extern_state T) (n32 n64 : Z) : extern_state T :=
  ExternState (extern_flags s) (obj_counter s) (u64 (size_32 s + n32)) (u64 (size_64 s + n64))
    (extern_stack_size s) (pos_table s) (out s).
Definition flag (s : extern_state T) (f : Z) : bool := negb (Z.land (extern_flags s) f =? 0).

Definition extern_resize_stack (s : extern_state T) : result (extern_state T) :=
  let newsize := 2 * extern_stack_size s in
  if EXTERN_STACK_MAX_SIZE <=? newsize then Raise Out_of_memory
  else Ok (ExternState (extern_flags s) (obj_counter s) (size_32 s) (size_64 s) newsize
             (pos_table s) (out s)).

(** sp++, with the growth of the stack *)
Definition push_item (s : extern_state T) (stack : list extern_item) (i : extern_item)
    : result (extern_state T * list extern_item) :=
  let* s := if extern_stack_size s <=? zlen stack + 1 then extern_resize_stack s else Ok s in
  Ok (s, i :: stack).

Definition extern_record_location (s : extern_state T) (obj h : Z) : result (extern_state T) :=
  if flag s NO_SHARING then Ok s else
  let counter := obj_counter s + 1 in
  let* t := pt_record (pos_table s) obj h (obj_counter s) counter in
  Ok (ExternState (extern_flags s) counter (size_32 s) (size_64 s) (extern_stack_size s) t (out s)).

(** ** Items *)

Definition extern_int (s : extern_state T) (n : Z) : result (extern_state T) :=
  if (0 <=? n) && (n <? 0x40) then emit s (fun o => writebyte o (PREFIX_SMALL_INT + n))
  else if (- 2 ^ 7 <=? n) && (n <? 2 ^ 7) then emit s (fun o => writecode8 o CODE_INT8 n)
  else if (- 2 ^ 15 <=? n) && (n <? 2 ^ 15) then emit s (fun o => writecode16 o CODE_INT16 n)
  else if (n <? - 2 ^ 30) || (2 ^ 30 <=? n) then
    if flag s COMPAT_32
    then Raise (Failure "output_value: integer cannot be read back on 32-bit platform")
    else emit s (fun o => writecode64 o CODE_INT64 n)
  else emit s (fun o => writecode32 o CODE_INT32 n).

Definition extern_unboxed_int (s : extern_state T) (n : Z) : result (extern_state T) :=
  if flag s COMPAT_32
  then Raise (Failure "output_value: cannot marshal unboxed values on 32 bit")
  else emit s (fun o => writecode64 o CODE_UNBOXED_INT64 n).

Definition extern_shared_reference (s : extern_state T) (d : Z) : result (extern_state T) :=
  if d <? 0x100 then emit s (fun o => writecode8 o CODE_SHARED8 d)
  else if d <? 0x10000 then emit s (fun o => writecode16 o CODE_SHARED16 d)
  else if 2 ^ 32 <=? d then emit s (fun o => writecode64 o CODE_SHARED64 d)
  else emit s (fun o => writecode32 o CODE_SHARED32 d).

Definition NOT_MARKABLE : Z := Z.shiftl 3 8.

Definition extern_header (s : extern_state T) (sz tag : Z) : result (extern_state T) :=
  if (tag <? 16) && (sz <? 8)
  then emit s (fun o => writebyte o (PREFIX_SMALL_BLOCK + tag + Z.shiftl sz 4))
  else
    let hd := u64 (Z.shiftl sz HEADER_WOSIZE_SHIFT + NOT_MARKABLE + tag) in
    if (0x3FFFFF <? sz) && flag s COMPAT_32
    then Raise (Failure "output_value: array cannot be read back on 32-bit platform")
    else if hd <? 2 ^ 32 then emit s (fun o => writecode32 o CODE_BLOCK32 hd)
    else emit s (fun o => writecode64 o CODE_BLOCK64 hd).

(** [bs]: the bytes of the block *)
Definition extern_string (s : extern_state T) (bs : list Z) (len : Z) : result (extern_state T) :=
  let* s :=
    if len <? 0x20 then emit s (fun o => writebyte o (PREFIX_SMALL_STRING + len))
    else if len <? 0x100 then emit s (fun o => writecode8 o CODE_STRING8 len)
    else if (0xFFFFFB <? len) && flag s COMPAT_32
    then Raise (Failure "output_value: string cannot be read back on 32-bit platform")
    else if len <? 2 ^ 32 then emit s (fun o => writecode32 o CODE_STRING32 len)
    else emit s (fun o => writecode64 o CODE_STRING64 len) in
  let* (data, _) := readblock bs len in
  emit s (fun o => writeblock o data).

(** [writeblock_float8] *)
Definition writeblock_float8 (o : output) (ds : list Z) : result output :=
  writeblock o (bytes_of_words ds).

Definition extern_double (s : extern_state T) (v : Z) : result (extern_state T) :=
  let* s := emit s (fun o => writebyte o CODE_DOUBLE_NATIVE) in
  let* ds := fields m v 0 1 in
  emit s (fun o => writeblock_float8 o ds).

Definition extern_double_array (s : extern_state T) (v nfloats : Z) : result (extern_state T) :=
  let* s :=
    if nfloats <? 0x100 then emit s (fun o => writecode8 o CODE_DOUBLE_ARRAY8_NATIVE nfloats)
    else if (0x1FFFFF <? nfloats) && flag s COMPAT_32
    then Raise (Failure "output_value: float array cannot be read back on 32-bit platform")
    else if nfloats <? 2 ^ 32 then emit s (fun o => writecode32 o CODE_DOUBLE_ARRAY32_NATIVE nfloats)
    else emit s (fun o => writecode64 o CODE_DOUBLE_ARRAY64_NATIVE nfloats) in
  let* ds := fields m v 0 (Z.to_nat nfloats) in
  emit s (fun o => writeblock_float8 o ds).

(** the place of [extern_ptr]: the number of blocks before, and the offset *)
Definition place (o : output) : nat * Z := (length (blocks o), zlen (cur o)).

(** stores through a pointer taken earlier *)
Definition store_at (o : output) (p : nat * Z) (bs : list Z) : result output :=
  if (fst p =? length (blocks o))%nat then
    let* c := memcpy (cur o) (snd p) bs in
    Ok (Output (blocks o) c (limit o) (userprovided o))
  else
    let* b := of_option (blocks o !! fst p) in
    let* b := memcpy b (snd p) bs in
    Ok (Output (<[fst p := b]> (blocks o)) (cur o) (limit o) (userprovided o)).

(** [(state, size on 32 bits, size on 64 bits)] *)
Definition extern_custom (s : extern_state T) (v : Z) : result (extern_state T * Z * Z) :=
  let* ops := rmap custom_ops (Field m v 0) in
  match serialize ops with
  | None => Raise (Invalid_argument "output_value: abstract value (Custom)")
  | Some ser =>
      match fixed_length ops with
      | None =>
          let* s := emit s (fun o => writebyte o CODE_CUSTOM_LEN) in
          let* s := emit s (fun o => writeblock o (identifier ops ++ [0])) in
          (* 12 bytes for the lengths *)
          let* s := emit s (fun o => if limit o <=? zlen (cur o) + 12
                                     then grow_extern_output o 12 else Ok o) in
          let size_header := place (out s) in
          let* s := emit s (fun o => store o (replicate 12 0)) in
          let* (o, sz_32, sz_64) := ser m v (out s) in
          let* o := store_at o size_header (store32 sz_32) in
          let* o := store_at o (fst size_header, snd size_header + 4) (store64 sz_64) in
          Ok (set_out s o, sz_32, sz_64)
      | Some (bsize_32, bsize_64) =>
          let* s := emit s (fun o => writebyte o CODE_CUSTOM_FIXED) in
          let* s := emit s (fun o => writeblock o (identifier ops ++ [0])) in
          let* (o, sz_32, sz_64) := ser m v (out s) in
          if (sz_32 =? bsize_32) && (sz_64 =? bsize_64) then Ok (set_out s o, sz_32, sz_64)
          else Raise (Fatal_error "output_value: incorrect fixed sizes specified by %s")
      end
  end.

Definition extern_code_pointer (s : extern_state T) (codeptr : Z) : result (extern_state T) :=
  match code_fragment codeptr with
  | Some (code_start, digest) =>
      if negb (flag s CLOSURES) then Raise (Invalid_argument "output_value: functional value") else
      match digest with
      | None => Raise (Invalid_argument "output_value: private function")
      | Some digest =>
          let* s := emit s (fun o => writecode32 o CODE_CODEPOINTER (codeptr - code_start)) in
          emit s (fun o => writeblock o (take 16 digest))
      end
  | None => Raise (Invalid_argument "output_value: abstract value (outside heap)")
  end.

(** ** Closures up to their environment *)

(** the padding before an infix header *)
Fixpoint closure_padding (fuel : nat) (s : extern_state T) (v i : Z) {struct fuel}
    : result (extern_state T * Z) :=
  match fuel with
  | O => NoFuel
  | S fuel =>
      let* x := Field m v i in
      if x =? Val_long 0 then let* s := extern_int s 0 in closure_padding fuel s v (i + 1)
      else Ok (s, i)
  end.

(** the entry points from field [i] on *)
Fixpoint closure_entries (fuel : nat) (s : extern_state T) (v i : Z) {struct fuel}
    : result (extern_state T * Z) :=
  match fuel with
  | O => NoFuel
  | S fuel' =>
      let* (s, i) :=
        if 0 <? i then
          let* (s, i) := closure_padding fuel s v i in
          let* x := Field m v i in
          let* s := extern_int s (Long_val x) in
          Ok (s, i + 1)
        else Ok (s, i) in
      let* c := Field m v i in
      let* s := extern_code_pointer s c in
      let* info := Field m v (i + 1) in
      let* s := extern_int s (Long_val info) in
      let i := i + 2 in
      let* (s, i) :=
        if negb (Arity_closinfo info =? 0) && negb (Arity_closinfo info =? 1) then
          let* c := Field m v i in
          let* s := extern_code_pointer s c in
          Ok (s, i + 1)
        else Ok (s, i) in
      if Is_last_closinfo info =? 0 then closure_entries fuel' s v i else Ok (s, i)
  end.

(** the rest of the part of the environment that is not scanned *)
Definition closure_unscanned (s : extern_state T) (v i startenv : Z) : result (extern_state T) :=
  for_loop (Z.to_nat (startenv - i)) i
    (fun i s => let* x := Field m v i in extern_unboxed_int s x) s.

(** the fields written, and [startenv] *)
Definition extern_closure_up_to_env (s : extern_state T) (v : Z) : result (extern_state T * Z) :=
  let* info := Closinfo_val m v in
  let startenv := Start_env_closinfo info in
  let* wosize := Wosize_val m v in
  let* (s, i) := closure_entries (S (Z.to_nat wosize)) s v 0 in
  let* s := closure_unscanned s v i startenv in
  Ok (s, startenv).

(** ** Values *)

(** what comes after the item: another value, or the next pending one *)
Inductive extern_next :=
  | Continue (s : extern_state T) (stack : list extern_item) (v : Z)
  | NextItem (s : extern_state T) (stack : list extern_item).

(** fields [i], ..., [sz - 1] of [v]: the first now, the others on the stack *)
Definition extern_fields (s : extern_state T) (stack : list extern_item) (v i sz : Z)
    : result extern_next :=
  let* (s, stack) :=
    if i <? sz - 1 then push_item s stack (ExternItem (v + 8 * (i + 1)) (sz - i - 1))
    else Ok (s, stack) in
  let* v := Field m v i in
  Ok (Continue s stack v).

(** records the object and goes to the next item *)
Definition extern_leaf (s : extern_state T) (stack : list extern_item) (v h n32 n64 : Z)
    : result extern_next :=
  let* s := extern_record_location (add_sizes s n32 n64) v h in
  Ok (NextItem s stack).

(** the contents of the block [v]; [h]: its hash value *)
Definition extern_contents (s : extern_state T) (stack : list extern_item) (v hd h : Z)
    : result extern_next :=
  let tag := Tag_hd hd in
  let sz := Allocated_wosize_hd hd in
  if tag =? String_tag then
    let* bs := block_bytes m v in
    let* len := caml_string_length bs in
    let* s := extern_string s bs len in
    extern_leaf s stack v h (1 + (len + 4) / 4) (1 + (len + 8) / 8)
  else if tag =? Double_tag then
    let* s := extern_double s v in
    extern_leaf s stack v h (1 + 2) (1 + 1)
  else if tag =? Double_array_tag then
    let* nfloats := Wosize_val m v in
    let* s := extern_double_array s v nfloats in
    extern_leaf s stack v h (1 + nfloats * 2) (1 + nfloats)
  else if tag =? Abstract_tag then
    Raise (Invalid_argument "output_value: abstract value (Abstract)")
  else if tag =? Infix_tag then
    let* s := emit s (fun o => writecode32 o CODE_INFIXPOINTER (Infix_offset_hd hd)) in
    Ok (Continue s stack (v - Infix_offset_hd hd))
  else if tag =? Custom_tag then
    let* (s, sz_32, sz_64) := extern_custom s v in
    extern_leaf s stack v h (2 + Z.shiftr (sz_32 + 3) 2) (2 + Z.shiftr (sz_64 + 7) 3)
  else if tag =? Closure_tag then
    let* s := extern_header s sz tag in
    let* s := extern_record_location (add_sizes s (1 + sz) (1 + sz)) v h in
    let* (s, i) := extern_closure_up_to_env s v in
    if sz <=? i then Ok (NextItem s stack) else extern_fields s stack v i sz
  else if tag =? Cont_tag then
    Raise (Invalid_argument "output_value: continuation value")
  else
    let* s := extern_header s sz tag in
    let* s := extern_record_location (add_sizes s (1 + sz) (1 + sz)) v h in
    extern_fields s stack v 0 sz.

(** whether the forwarding block to [f] is kept *)
Definition keep_forward (f : Z) : result bool :=
  if Is_block f then
    let* t := Tag_val m f in
    Ok ((t =? Forward_tag) || (t =? Lazy_tag) || (t =? Forcing_tag) || (t =? Double_tag))
  else Ok false.

Definition extern_block (s : extern_state T) (stack : list extern_item) (v : Z)
    : result extern_next :=
  let* hd := Hd_val m v in
  let tag := Tag_hd hd in
  let sz := Allocated_wosize_hd hd in
  if Is_mixed_block_reserved (Reserved_hd hd)
  then Raise (Invalid_argument "output_value: mixed block") else
  let* forward :=
    if tag =? Forward_tag then
      let* f := Forward_val m v in
      let* keep := keep_forward f in
      Ok (if (keep : bool) then None else Some f)
    else Ok None in
  match forward with
  | Some f => Ok (Continue s stack f)
  | None =>
      if sz =? 0 then let* s := extern_header s 0 tag in Ok (NextItem s stack) else
      if flag s NO_SHARING then extern_contents s stack v hd 0 else
      let* (found, h) := pt_lookup (pos_table s) v in
      match found with
      | Some pos =>
          let* s := extern_shared_reference s (if flag s COMPRESSED then pos else u64 (obj_counter s - pos)) in
          Ok (NextItem s stack)
      | None => extern_contents s stack v hd h
      end
  end.

Definition extern_item_step (s : extern_state T) (stack : list extern_item) (v : Z)
    : result extern_next :=
  if Is_long v then let* s := extern_int s (Long_val v) in Ok (NextItem s stack)
  else extern_block s stack v.

(** next_item: *)
Definition pop_item (stack : list extern_item) : result (Z * list extern_item) :=
  match stack with
  | [] => Undef
  | i :: stack =>
      let* v := load m (item_v i) in
      let count := item_count i - 1 in
      Ok (v, if count =? 0 then stack else ExternItem (item_v i + 8) count :: stack)
  end.

(** the loop of [extern_rec]; each turn handles one value *)
Fixpoint extern_loop (fuel : nat) (s : extern_state T) (stack : list extern_item) (v : Z)
    {struct fuel} : result (extern_state T) :=
  match fuel with
  | O => NoFuel
  | S fuel =>
      let* n := extern_item_step s stack v in
      match n with
      | Continue s stack v => extern_loop fuel s stack v
      | NextItem s [] => Ok s
      | NextItem s stack =>
          let* (v, stack) := pop_item stack in
          extern_loop fuel s stack v
      end
  end.

(** [flags] have been converted from the list; the output is initialised *)
Definition extern_start (flags : Z) (o : output) : extern_state T :=
  ExternState (Z.land flags (Z.lnot COMPRESSED)) 0 0 0 EXTERN_STACK_INIT_SIZE pt_init o.

(** the header of the result, after [extern_rec] *)
Definition extern_value_header (s : extern_state T) : result (list Z) :=
  let res_len := extern_output_length (out s) in
  if (2 ^ 32 <=? res_len) || (2 ^ 32 <=? size_32 s) || (2 ^ 32 <=? size_64 s) then
    if flag s COMPAT_32
    then Raise (Failure "output_value: object too big to be read back on 32-bit platform")
    else Ok (store32 Intext_magic_number_big ++ store32 0 ++ store64 res_len
             ++ store64 (obj_counter s) ++ store64 (size_64 s))
  else Ok (store32 Intext_magic_number_small ++ store32 res_len
           ++ store32 (obj_counter s) ++ store32 (size_32 s) ++ store32 (size_64 s)).

(** [(header, state)] *)
Definition extern_value (fuel : nat) (v flags : Z) (o : output) : result (list Z * extern_state T) :=
  let* s := extern_loop fuel (extern_start flags o) [] v in
  let* header := extern_value_header s in
  Ok (header, s).

(** [caml_output_value_to_bytes]: the bytes of the result *)
Definition caml_output_value_to_bytes (fuel : nat) (v flags : Z) : result (list Z) :=
  let* (header, s) := extern_value fuel v flags init_extern_output in
  Ok (header ++ contents (out s)).

(** [caml_output_value_to_block]: the first bytes of the buffer of [len] bytes *)
Definition caml_output_value_to_block (fuel : nat) (v flags len : Z) : result (list Z) :=
  let* (header, s) := extern_value fuel v flags (init_user_output len) in
  let data := contents (out s) in
  if negb (zlen header =? 20) && (len <? zlen header + zlen data)
  then Raise (Failure "Marshal.to_buffer: buffer overflow")
  else Ok (header ++ data).

End Extern.
