(* ===== verification/Intern.v ===== *)
(** * Reading marshaled data ([intern.c])

    [intern_rec] reads a value with an explicit stack of pending destinations, allocates
    the blocks in memory reserved from the sizes of the header, and keeps the table of
    the objects read, to which shared references point.

    Reading past the input, writing past the reserved memory, and writing past the
    object table or reading it out of range are undefined behaviour.  The memory of a
    new block holds zeros (in C it is not initialised) until its fields are read.  There is no zstd, so
    compressed objects are rejected.  Custom operations and code fragments are
    parameters, as is the generator of object identifiers. *)

From S2P Require Import Prelude.
From S2P Require Import Mlvalues.
From S2P Require Import Str.
From S2P Require Import Memory.
From S2P Require Import Intext.
#[local] Open Scope Z_scope.

Definition INTERN_STACK_INIT_SIZE : Z := 256.
Definition INTERN_STACK_MAX_SIZE : Z := 1024 * 1024 * 100.
Definition Max_young_wosize : Z := 256.

Inductive intern_op :=
  | OReadItems       (* read arg items and store them in dest[0], dest[1], ... *)
  | OFreshOID        (* generate a fresh OID and store it in *dest *)
  | OShift.          (* offset *dest by arg *)

Record intern_item := InternItem { op : intern_op; dest : Z; arg : Z }.

Record intern_state := InternState {
  intern_src : list Z;                 (* the bytes that remain *)
  intern_obj_table : option (list Z * Z);   (* the objects, and the size of the table *)
  intern_dest : option Z;              (* the words left in the destination block *)
  intern_stack_size : Z;               (* intern_stack_limit - intern_stack *)
  intern_heap : heap;
  intern_oid : Z }.                    (* the state of caml_fresh_oo_id *)

(** ** Words and bytes *)

Fixpoint words_of_bytes (n : nat) (bs : list Z) : list Z :=
  match n with
  | O => []
  | S n => s64 (le_word (take 8 bs)) :: words_of_bytes n (drop 8 bs)
  end.

(** readfloat, readfloats: [Reverse_64] unless the code is one of the [native] codes *)
Definition readfloat (src : list Z) (code : Z) : result (list Z * list Z) :=
  let* (data, src) := readblock src 8 in
  Ok (words_of_bytes 1 (if code =? CODE_DOUBLE_LITTLE then data else reverse_elements 8 1 data), src).

Definition readfloats (src : list Z) (len code : Z) : result (list Z * list Z) :=
  let* (data, src) := readblock src (len * 8) in
  let n := Z.to_nat len in
  let data :=
    if negb (code =? CODE_DOUBLE_ARRAY8_LITTLE) && negb (code =? CODE_DOUBLE_ARRAY32_LITTLE)
    then reverse_elements 8 n data else data in
  Ok (words_of_bytes n data, src).

(** the operations of a custom block: their address, the fixed size on 64 bits, and
    [deserialize] with the data words it stores, the size it returns and the rest *)
Record custom_reader := CustomReader {
  ops : Z;
  bsize_64 : option Z;
  deserialize : list Z -> result (list Z * Z * list Z) }.

Definition hex_digit (d : Z) : Ascii.ascii :=
  Ascii.ascii_of_nat (Z.to_nat (if d <? 10 then 48 + d else 55 + d)).
(** %02X of each byte *)
Fixpoint hex_bytes (bs : list Z) : string :=
  match bs with
  | [] => EmptyString
  | b :: bs => String (hex_digit (b / 16)) (String (hex_digit (b mod 16)) (hex_bytes bs))
  end.

Section Intern.
Context (Atom : Z -> Z).
(** [caml_find_custom_operations] on the identifier *)
Context (find_custom : list Z -> option custom_reader).
(** [caml_find_code_fragment_by_digest]: the start and the end of the code, and the code
    of "Debugger.function_placeholder" *)
Context (find_fragment : list Z -> option (Z * Z)) (function_placeholder : option Z).
(** [caml_fresh_oo_id]: the identifier, as a value *)
Context (fresh_oo_id : Z -> Z * Z).

Definition set_src (s : intern_state) (src : list Z) : intern_state :=
  InternState src (intern_obj_table s) (intern_dest s) (intern_stack_size s)
    (intern_heap s) (intern_oid s).
Definition set_intern_mem (s : intern_state) (m : mem) : intern_state :=
  InternState (intern_src s) (intern_obj_table s) (intern_dest s) (intern_stack_size s)
    (Heap m (h_next (intern_heap s))) (intern_oid s).

(** a read of the input *)
Definition read {A} (s : intern_state) (r : list Z -> result (A * list Z))
    : result (A * intern_state) :=
  let* (x, src) := r (intern_src s) in Ok (x, set_src s src).

Definition intern_resize_stack (s : intern_state) : result intern_state :=
  let newsize := 2 * intern_stack_size s in
  if INTERN_STACK_MAX_SIZE <=? newsize then Raise Out_of_memory
  else Ok (InternState (intern_src s) (intern_obj_table s) (intern_dest s) newsize
             (intern_heap s) (intern_oid s)).

(** PushItem *)
Definition PushItem (s : intern_state) (stack : list intern_item) (i : intern_item)
    : result (intern_state * list intern_item) :=
  let* s := if intern_stack_size s <=? zlen stack + 1 then intern_resize_stack s else Ok s in
  Ok (s, i :: stack).
Definition ReadItems (s : intern_state) (stack : list intern_item) (dest n : Z)
    : result (intern_state * list intern_item) :=
  if 0 <? n then PushItem s stack (InternItem OReadItems dest n) else Ok (s, stack).

(** reserves [whsize] words and the table of [num_objects] objects *)
Definition intern_alloc_storage (s : intern_state) (whsize num_objects : Z) : intern_state :=
  if whsize =? 0 then s else
  let wosize := whsize - 1 in
  let d := if (wosize <=? Max_young_wosize) && negb (wosize =? 0) then Some whsize
           else intern_dest s in
  let t := if 0 <? num_objects then Some ([], num_objects) else intern_obj_table s in
  InternState (intern_src s) t d (intern_stack_size s) (intern_heap s) (intern_oid s).

(** a block of [tag] whose memory is [init] *)
Definition intern_alloc_obj (s : intern_state) (tag : Z) (init : list Z)
    : result (Z * intern_state) :=
  let (v, h) := alloc (intern_heap s) tag 0 init in
  let* d :=
    match intern_dest s with
    | Some avail => if avail <? 1 + zlen init then Undef else Ok (Some (avail - (1 + zlen init)))
    | None => Ok None
    end in
  Ok (v, InternState (intern_src s) (intern_obj_table s) d (intern_stack_size s) h (intern_oid s)).

(** if (s->intern_obj_table != NULL) s->intern_obj_table[s->obj_counter++] = v *)
Definition intern_record (s : intern_state) (v : Z) : result intern_state :=
  match intern_obj_table s with
  | None => Ok s
  | Some (objs, n) =>
      if zlen objs <? n
      then Ok (InternState (intern_src s) (Some (objs ++ [v], n)) (intern_dest s)
                 (intern_stack_size s) (intern_heap s) (intern_oid s))
      else Undef
  end.

Definition alloc_recorded (s : intern_state) (tag : Z) (init : list Z) : result (Z * intern_state) :=
  let* (v, s) := intern_alloc_obj s tag init in
  let* s := intern_record s v in
  Ok (v, s).

(** what an item of the stream gives: a value for the destination, or nothing yet *)
Definition intern_result : Type := option Z * intern_state * list intern_item.

(** read_block: *)
Definition read_block (s : intern_state) (stack : list intern_item) (tag size : Z)
    : result intern_result :=
  if size =? 0 then Ok (Some (Atom tag), s, stack) else
  let* (v, s) := alloc_recorded s tag (replicate (Z.to_nat size) 0) in
  let* (s, stack) :=
    if tag =? Object_tag then
      let* (s, stack) := ReadItems s stack (v + 8 * 2) (size - 2) in
      let* (s, stack) := PushItem s stack (InternItem OFreshOID v 1) in
      ReadItems s stack v 2
    else ReadItems s stack v size in
  Ok (Some v, s, stack).

(** the bytes of a string block: the last word is cleared and gets the padding, then
    the contents are copied *)
Definition string_bytes (len : Z) (data : list Z) : result (list Z) :=
  let size := (len + 8) / 8 in
  let blk := replicate (Z.to_nat (Bsize_wsize size)) 0 in
  let ofs_ind := Bsize_wsize size - 1 in
  let* blk := wr blk ofs_ind (u8 (ofs_ind - len)) in
  memcpy blk 0 data.

(** read_string: *)
Definition read_string (s : intern_state) (stack : list intern_item) (len : Z)
    : result intern_result :=
  let size := (len + 8) / 8 in
  let* (data, s) := read s (fun src => readblock src len) in
  let* bs := string_bytes len data in
  let* (v, s) := alloc_recorded s String_tag (words_of_bytes (Z.to_nat size) bs) in
  Ok (Some v, s, stack).

(** read_double_array: *)
Definition read_double_array (s : intern_state) (stack : list intern_item) (len code : Z)
    : result intern_result :=
  let* (ds, s) := read s (fun src => readfloats src len code) in
  let* (v, s) := alloc_recorded s Double_array_tag ds in
  Ok (Some v, s, stack).

(** read_shared: *)
Definition read_shared (s : intern_state) (stack : list intern_item) (ofs : Z)
    : result intern_result :=
  match intern_obj_table s with
  | None => Undef
  | Some (objs, _) => let* v := rd objs (u64 (zlen objs - ofs)) in Ok (Some v, s, stack)
  end.

(** the identifier at the front of the input, and what follows its NUL *)
Fixpoint split_ident (src : list Z) : result (list Z * list Z) :=
  match src with
  | [] => Undef
  | c :: src =>
      if c =? 0 then Ok ([], src)
      else let* (id, rest) := split_ident src in Ok (c :: id, rest)
  end.

Definition read_custom (s : intern_state) (stack : list intern_item) (code : Z)
    : result intern_result :=
  let* (id, rest) := split_ident (intern_src s) in
  match find_custom id with
  | None => Raise (Failure "input_value: unknown custom block identifier")
  | Some c =>
      let* (expected_size, s) :=
        if code =? CODE_CUSTOM_FIXED then
          match bsize_64 c with
          | None => Raise (Failure "input_value: expected a fixed-size custom block")
          | Some n => Ok (n, set_src s rest)
          end
        else
          let* (_, s) := read (set_src s rest) (fun src => readblock src 4) in
          read s read64u in
      let temp_size := 1 + (expected_size + 8 - 1) / 8 in
      let* (data, size, rest) := deserialize c (intern_src s) in
      (* deserialize writes in the block of [temp_size] words *)
      if negb (1 + zlen data =? temp_size) then Undef else
      let* (v, s) := intern_alloc_obj (set_src s rest) Custom_tag (ops c :: data) in
      if negb (size =? expected_size)
      then Raise (Failure "input_value: incorrect length of serialized custom block")
      else let* s := intern_record s v in Ok (Some v, s, stack)
  end.

Definition intern_resolve_code_pointer (digest : list Z) (offset : Z) : option Z :=
  match find_fragment digest with
  | Some (code_start, code_end) =>
      if code_start + offset <? code_end then Some (code_start + offset) else None
  | None => None
  end.

Definition intern_bad_code_pointer {A} (digest : list Z) : result A :=
  Raise (Failure (String.append "input_value: unknown code module " (hex_bytes digest))).

Definition read_code_pointer (s : intern_state) (stack : list intern_item) : result intern_result :=
  let* (ofs, s) := read s read32u in
  let* (digest, s) := read s (fun src => readblock src 16) in
  match intern_resolve_code_pointer digest ofs, function_placeholder with
  | Some c, _ | None, Some c => Ok (Some c, s, stack)
  | None, None => intern_bad_code_pointer digest
  end.

(** CODE_INFIXPOINTER: a value for [dest], to be offset afterwards *)
Definition read_infix (s : intern_state) (stack : list intern_item) (dest : Z)
    : result intern_result :=
  let* (ofs, s) := read s read32u in
  let* (s, stack) := PushItem s stack (InternItem OShift dest ofs) in
  let* (s, stack) := ReadItems s stack dest 1 in
  Ok (None, s, stack).

(** reads a number, then uses it *)
Definition with_read {A} (s : intern_state) (r : list Z -> result (Z * list Z))
    (k : Z -> intern_state -> result A) : result A :=
  let* (x, s) := read s r in k x s.

(** the codes below [PREFIX_SMALL_STRING] *)
Definition read_code (s : intern_state) (stack : list intern_item) (dest code : Z)
    : result intern_result :=
  let int r := with_read s r (fun n s => Ok (Some (Val_long n), s, stack)) in
  let shared r := with_read s r (fun n s => read_shared s stack n) in
  let block r := with_read s r (fun hd s => read_block s stack (Tag_hd hd) (Allocated_wosize_hd hd)) in
  let str r := with_read s r (fun len s => read_string s stack len) in
  let double_array r := with_read s r (fun len s => read_double_array s stack len code) in
  if code =? CODE_INT8 then int read8s
  else if code =? CODE_INT16 then int read16s
  else if code =? CODE_INT32 then int read32s
  else if code =? CODE_INT64 then int read64u
  else if code =? CODE_UNBOXED_INT64 then
    with_read s read64u (fun n s => Ok (Some (s64 n), s, stack))
  else if code =? CODE_SHARED8 then shared read8u
  else if code =? CODE_SHARED16 then shared read16u
  else if code =? CODE_SHARED32 then shared read32u
  else if code =? CODE_SHARED64 then shared read64u
  else if code =? CODE_BLOCK32 then block read32u
  else if code =? CODE_BLOCK64 then block read64u
  else if code =? CODE_STRING8 then str read8u
  else if code =? CODE_STRING32 then str read32u
  else if code =? CODE_STRING64 then str read64u
  else if (code =? CODE_DOUBLE_LITTLE) || (code =? CODE_DOUBLE_BIG) then
    let* (ds, s) := read s (fun src => readfloat src code) in
    let* (v, s) := alloc_recorded s Double_tag ds in
    Ok (Some v, s, stack)
  else if (code =? CODE_DOUBLE_ARRAY8_LITTLE) || (code =? CODE_DOUBLE_ARRAY8_BIG) then double_array read8u
  else if (code =? CODE_DOUBLE_ARRAY32_LITTLE) || (code =? CODE_DOUBLE_ARRAY32_BIG) then double_array read32u
  else if (code =? CODE_DOUBLE_ARRAY64_LITTLE) || (code =? CODE_DOUBLE_ARRAY64_BIG) then double_array read64u
  else if code =? CODE_CODEPOINTER then read_code_pointer s stack
  else if code =? CODE_INFIXPOINTER then read_infix s stack dest
  else if code =? OLD_CODE_CUSTOM then
    Raise (Failure "input_value: custom blocks serialized with OCaml 4.08.0 (or prior) are no longer supported")
  else if (code =? CODE_CUSTOM_LEN) || (code =? CODE_CUSTOM_FIXED) then read_custom s stack code
  else Raise (Failure "input_value: ill-formed message").

(** reads a value for [dest] *)
Definition read_item (s : intern_state) (stack : list intern_item) (dest : Z) : result intern_result :=
  let* (code, s) := read s read8u in
  if PREFIX_SMALL_INT <=? code then
    if PREFIX_SMALL_BLOCK <=? code
    then read_block s stack (Z.land code 0xF) (Z.land (Z.shiftr code 4) 0x7)
    else Ok (Some (Val_int (Z.land code 0x3F)), s, stack)
  else if PREFIX_SMALL_STRING <=? code then read_string s stack (Z.land code 0x1F)
  else read_code s stack dest code.

(** one turn of the loop on the item on top of the stack *)
Definition intern_step (s : intern_state) (i : intern_item) (stack : list intern_item)
    : result (intern_state * list intern_item) :=
  let m := h_mem (intern_heap s) in
  match op i with
  | OFreshOID =>
      let* oid := Field m (dest i) 1 in
      if 0 <=? Long_val oid then
        let (id, next) := fresh_oo_id (intern_oid s) in
        let* m := set_Field m (dest i) 1 id in
        let s := set_intern_mem s m in
        Ok (InternState (intern_src s) (intern_obj_table s) (intern_dest s) (intern_stack_size s)
              (intern_heap s) next, stack)
      else Ok (s, stack)
  | OShift =>
      let* x := load m (dest i) in
      let* m := store_word m (dest i) (s64 (x + arg i)) in
      Ok (set_intern_mem s m, stack)
  | OReadItems =>
      let n := arg i - 1 in
      let stack := if n =? 0 then stack else InternItem OReadItems (dest i + 8) n :: stack in
      let* (v, s, stack) := read_item s stack (dest i) in
      match v with
      | None => Ok (s, stack)
      | Some v =>
          let* m := store_word (h_mem (intern_heap s)) (dest i) v in
          Ok (set_intern_mem s m, stack)
      end
  end.

Fixpoint intern_loop (fuel : nat) (s : intern_state) (stack : list intern_item) {struct fuel}
    : result intern_state :=
  match stack with
  | [] => Ok s
  | i :: stack =>
      match fuel with
      | O => NoFuel
      | S fuel =>
          let* (s, stack) := intern_step s i stack in
          intern_loop fuel s stack
      end
  end.

(** [intern_rec(s, dest)] *)
Definition intern_rec (fuel : nat) (s : intern_state) (dest : Z) : result intern_state :=
  let* (s, stack) := ReadItems s [] dest 1 in
  intern_loop fuel s stack.

(** ** Headers *)

Record marshal_header := MarshalHeader {
  magic : Z; header_len : Z; data_len : Z; uncompressed_data_len : Z;
  num_objects : Z; whsize : Z; compressed : bool }.

Definition intern_failwith2 {A} (fun_name msg : string) : result A :=
  Raise (Failure (String.append fun_name (String.append ": " msg))).

Definition caml_parse_header (src : list Z) (fun_name : string)
    : result (marshal_header * list Z) :=
  let* (magic, src) := read32u src in
  if magic =? Intext_magic_number_small then
    let* (len, src) := read32u src in
    let* (num_objects, src) := read32u src in
    let* (_, src) := read32u src in
    let* (whsize, src) := read32u src in
    Ok (MarshalHeader magic 20 len len num_objects whsize false, src)
  else if magic =? Intext_magic_number_big then
    let* (_, src) := read32u src in
    let* (len, src) := read64u src in
    let* (num_objects, src) := read64u src in
    let* (whsize, src) := read64u src in
    Ok (MarshalHeader magic 32 len len num_objects whsize false, src)
  else if magic =? Intext_magic_number_compressed then
    let* (b, src) := read8u src in
    let* (o1, len, src) := readvlq src in
    let* (o2, ulen, src) := readvlq src in
    let* (o3, num_objects, src) := readvlq src in
    let* (_, _, src) := readvlq src in
    let* (o4, whsize, src) := readvlq src in
    if negb (Z.lor (Z.lor (Z.lor o1 o2) o3) o4 =? 0)
    then intern_failwith2 fun_name "object too large to be read back on this platform"
    else Ok (MarshalHeader magic (Z.land b 0x3F) len ulen num_objects whsize true, src)
  else intern_failwith2 fun_name "bad object".

(** there is no zstd *)
Definition intern_decompress_input (fun_name : string) (h : marshal_header) : result unit :=
  if compressed h then intern_failwith2 fun_name "compressed object, cannot decompress" else Ok tt.

Definition intern_init (src : list Z) (h : heap) (oid : Z) : intern_state :=
  InternState src None None INTERN_STACK_INIT_SIZE h oid.

(** [caml_input_val_from_bytes(str, ofs)], with the local variable [obj] at the address
    [obj]; [str] is the contents of the bytes *)
Definition caml_input_val_from_bytes (fuel : nat) (str : list Z) (ofs obj : Z) (h : heap) (oid : Z)
    : result (Z * intern_state) :=
  let src := drop (Z.to_nat ofs) str in
  let* (hdr, _) := caml_parse_header src "input_val_from_string" in
  if zlen str <? u64 (ofs + header_len hdr + data_len hdr)
  then Raise (Failure "input_val_from_string: bad length") else
  let s := intern_init (drop (Z.to_nat (header_len hdr)) src) h oid in
  let s := intern_alloc_storage s (whsize hdr) (num_objects hdr) in
  let* _ := intern_decompress_input "input_val_from_string" hdr in
  let* s := intern_rec fuel s obj in
  let* v := load (h_mem (intern_heap s)) obj in
  Ok (v, s).

(** [caml_input_value_from_block(data, len)] *)
Definition caml_input_value_from_block (fuel : nat) (data : list Z) (len obj : Z) (h : heap) (oid : Z)
    : result (Z * intern_state) :=
  let* (hdr, src) := caml_parse_header data "input_value_from_block" in
  if len <? u64 (header_len hdr + data_len hdr)
  then Raise (Failure "input_val_from_block: bad length") else
  let* _ := intern_decompress_input "input_val_from_block" hdr in
  let s := intern_alloc_storage (intern_init src h oid) (whsize hdr) (num_objects hdr) in
  let* s := intern_rec fuel s obj in
  let* v := load (h_mem (intern_heap s)) obj in
  Ok (v, s).

(** the size in bytes of the object at [ofs], beyond its first 16 bytes *)
Definition caml_marshal_data_size (buff : list Z) (ofs : Z) : result Z :=
  let src := drop (Z.to_nat (Long_val ofs)) buff in
  let* (magic, src) := read32u src in
  let* (hlen, dlen) :=
    if magic =? Intext_magic_number_small then
      let* (len, _) := read32u src in Ok (20, len)
    else if magic =? Intext_magic_number_big then
      let* (_, src) := read32u src in
      let* (len, _) := read64u src in
      Ok (32, len)
    else if magic =? Intext_magic_number_compressed then
      let* (b, src) := read8u src in
      let* (r, len, _) := readvlq src in
      if r =? 0 then Ok (Z.land b 0x3F, len)
      else Raise (Failure "Marshal.data_size: object too large to be read back on this platform")
    else Raise (Failure "Marshal.data_size: bad object") in
  Ok (Val_long (hlen - 16 + dlen)).

End Intern.
