(* ===== verification/Marshal.v ===== *)
(** * The items of marshaled data

    What one turn of the loop of [extern_rec] writes and one turn of the loop of
    [intern_rec] reads: an integer, a shared reference, the header of a block, the bytes
    of a string, the words of floats.  [encodes] says that bytes are read as an item, and
    [emits] that a writer function writes them; for each writer function of [Extern.v] a
    lemma gives both. *)

From S2P Require Import Prelude.
From S2P Require Import Mlvalues.
From S2P Require Import Str.
From S2P Require Import Memory.
From S2P Require Import Intext.
From S2P Require Import Postable.
From S2P Require Import Extern.
From S2P Require Import Intern.
#[local] Open Scope Z_scope.

(** ** Items of the stream *)

Inductive token :=
  | TInt (n : Z)
  | TShared (d : Z)
  | TBlock (tag sz : Z)          (* a header; an atom when [sz] is 0 *)
  | TData (tag : Z) (ws : list Z).   (* a string, a float or a float array *)

Section Read.
Context (Atom : Z -> Z) (find_custom : list Z -> option custom_reader)
  (find_fragment : list Z -> option (Z * Z)) (function_placeholder : option Z).

#[local] Abbreviation read_item := (read_item Atom find_custom find_fragment function_placeholder).
#[local] Abbreviation read_code := (read_code Atom find_custom find_fragment function_placeholder).

(** what the reader does with a token *)
Definition interp_token (tok : token) (t : intern_state) (stack : list intern_item)
    : result intern_result :=
  match tok with
  | TInt n => Ok (Some (Val_long n), t, stack)
  | TShared d => read_shared t stack d
  | TBlock tag sz => read_block Atom t stack tag sz
  | TData tag ws => let* (v, t) := alloc_recorded t tag ws in Ok (Some v, t, stack)
  end.

(** the bytes [bs] encode the token *)
Definition encodes (bs : list Z) (tok : token) : Prop :=
  forall t stack dest rest, intern_src t = bs ++ rest ->
    read_item t stack dest = interp_token tok (set_src t rest) stack.

Lemma set_src_set_src t a b : set_src (set_src t a) b = set_src t b.
Proof. done. Qed.

Lemma read_Ok {A} t (r : list Z -> result (A * list Z)) x src :
  r (intern_src t) = Ok (x, src) -> read t r = Ok (x, set_src t src).
Proof. unfold read. by intros ->. Qed.

Lemma with_read_Ok {A} t r x src (k : Z -> intern_state -> result A) :
  r (intern_src t) = Ok (x, src) -> with_read t r k = k x (set_src t src).
Proof. intros E. unfold with_read. by rewrite (read_Ok _ _ _ _ E). Qed.

Lemma read_item_code t stack dest code rest :
  intern_src t = code :: rest -> code < PREFIX_SMALL_STRING ->
  read_item t stack dest = read_code (set_src t rest) stack dest code.
Proof.
  intros E Hc. unfold PREFIX_SMALL_STRING in Hc.
  unfold Intern.read_item. rewrite (read_Ok t read8u code rest) by (by rewrite E).
  cbn [rbind]. unfold PREFIX_SMALL_INT, PREFIX_SMALL_STRING.
  by destruct (Z.leb_spec 0x40 code), (Z.leb_spec 0x20 code); [lia..|].
Qed.

(** items made of a code and a number *)
Lemma encodes_code code (bs : list Z) (r : list Z -> result (Z * list Z)) n
    (k : Z -> intern_state -> list intern_item -> result intern_result) tok :
  code < PREFIX_SMALL_STRING ->
  (forall t stack dest, read_code t stack dest code = with_read t r (fun n t => k n t stack)) ->
  (forall rest, r (bs ++ rest) = Ok (n, rest)) ->
  (forall t stack, k n t stack = interp_token tok t stack) ->
  encodes (code :: bs) tok.
Proof.
  intros Hc Hr Hb Hk t stack dest rest E.
  rewrite (read_item_code t stack dest code (bs ++ rest)) by done.
  rewrite Hr. rewrite (with_read_Ok _ r n rest) by apply Hb.
  by rewrite set_src_set_src, Hk.
Qed.

(** ** What the writer emits *)

Context {T : Type} `{PositionTable T} (m : mem).

(** the output grows, with no bound, and values are shared *)
Record writable (s : extern_state T) : Prop := {
  wr_user : userprovided (out s) = false;
  wr_sharing : flag s NO_SHARING = false;
  wr_compat : flag s COMPAT_32 = false;
  wr_compressed : flag s COMPRESSED = false }.

(** [s'] is [s] with the bytes [bs] emitted *)
Definition wrote (s : extern_state T) (bs : list Z) (s' : extern_state T) : Prop :=
  s' = set_out s (out s') /\ contents (out s') = contents (out s) ++ bs /\
  userprovided (out s') = false.

Definition emits (s : extern_state T) (tok : token) (r : result (extern_state T)) : Prop :=
  exists s' bs, r = Ok s' /\ wrote s bs s' /\ encodes bs tok.

Lemma emit_wrote s w bs :
  writable s -> (forall o, appends o bs (w o)) -> exists s', emit s w = Ok s' /\ wrote s bs s'.
Proof.
  intros W Ha. specialize (Ha (out s)). unfold appends in Ha. rewrite (wr_user _ W) in Ha.
  destruct Ha as (o & E & Hc & Hu & _). unfold emit. rewrite E. cbn [rbind].
  eexists. split; [done|]. by split_and!.
Qed.

Lemma wrote_writable s bs s' : writable s -> wrote s bs s' -> writable s'.
Proof. intros [A B C D] (E & _ & U). rewrite E. by split. Qed.

Lemma wrote_trans s1 s2 s3 bs1 bs2 : wrote s1 bs1 s2 -> wrote s2 bs2 s3 -> wrote s1 (bs1 ++ bs2) s3.
Proof.
  intros (E1 & C1 & U1) (E2 & C2 & U2). split_and!; [|by rewrite C2, C1, app_assoc|done].
  rewrite E2, E1. done.
Qed.

Lemma emits_emit s w bs tok :
  writable s -> (forall o, appends o bs (w o)) -> encodes bs tok -> emits s tok (emit s w).
Proof. intros W Ha He. destruct (emit_wrote s w bs W Ha) as (s' & E & Hw). by exists s', bs. Qed.

Lemma Val_long_u64 n : Val_long (u64 n) = Val_long n.
Proof. rewrite !Val_long_eq. solve_word. Qed.

Lemma encodes_small_int n : 0 <= n < 0x40 -> encodes [u8 (PREFIX_SMALL_INT + n)] (TInt n).
Proof.
  intros Hn t stack dest rest E. unfold PREFIX_SMALL_INT in E.
  rewrite u8_id in E by (unfold is_u8; lia). unfold Intern.read_item.
  rewrite (read_Ok t read8u (0x40 + n) rest) by (by rewrite E).
  cbn [rbind]. unfold PREFIX_SMALL_INT, PREFIX_SMALL_BLOCK.
  destruct (Z.leb_spec 0x40 (0x40 + n)), (Z.leb_spec 0x80 (0x40 + n)); try lia.
  cbn [interp_token]. unfold Val_int.
  assert (Z.land (0x40 + n) 0x3F = n) as ->; [|done].
  change 0x3F with (Z.ones 6). rewrite Z.land_ones by lia. zlia.
Qed.

Lemma encodes_int8 n : - 2 ^ 7 <= n < 2 ^ 7 -> encodes [u8 CODE_INT8; u8 n] (TInt n).
Proof.
  intros Hn. apply (encodes_code _ _ read8s n (fun n t st => Ok (Some (Val_long n), t, st)));
    [done|done| |done].
  intros rest. cbn [app]. rewrite (proj2 (read8_store n rest)). do 2 f_equal. solve_word.
Qed.

Lemma encodes_int16 n :
  - 2 ^ 15 <= n < 2 ^ 15 -> encodes (u8 CODE_INT16 :: store16 (s32 n)) (TInt n).
Proof.
  intros Hn. apply (encodes_code _ _ read16s n (fun n t st => Ok (Some (Val_long n), t, st)));
    [done|done| |done].
  intros rest. rewrite (proj2 (read16_store (s32 n) rest)). do 2 f_equal. solve_word.
Qed.

Lemma encodes_int32 n :
  - 2 ^ 31 <= n < 2 ^ 31 -> encodes (u8 CODE_INT32 :: store32 n) (TInt n).
Proof.
  intros Hn. apply (encodes_code _ _ read32s n (fun n t st => Ok (Some (Val_long n), t, st)));
    [done|done| |done].
  intros rest. rewrite (proj2 (read32_store n rest)). do 2 f_equal. solve_word.
Qed.

Lemma encodes_int64 n : encodes (u8 CODE_INT64 :: store64 n) (TInt n).
Proof.
  apply (encodes_code _ _ read64u (u64 n) (fun n t st => Ok (Some (Val_long n), t, st)));
    [done|done| |].
  - intros rest. apply read64_store.
  - intros t st. cbn [interp_token]. by rewrite Val_long_u64.
Qed.

Lemma extern_int_emits s n : writable s -> is_s63 n -> emits s (TInt n) (extern_int s n).
Proof.
  intros W Hn. unfold extern_int. case_if E0; [|case_if E1; [|case_if E2; [|case_if E3]]].
  - eapply emits_emit; [done|auto with intext|]. apply encodes_small_int. lia.
  - eapply emits_emit; [done|auto with intext|]. apply encodes_int8. lia.
  - eapply emits_emit; [done|auto with intext|]. apply encodes_int16. lia.
  - rewrite (wr_compat _ W). eapply emits_emit; [done|auto with intext|]. apply encodes_int64.
  - eapply emits_emit; [done|auto with intext|]. apply encodes_int32. lia.
Qed.

(** ** References *)

Lemma encodes_shared code (bs : list Z) (r : list Z -> result (Z * list Z)) d :
  code < PREFIX_SMALL_STRING ->
  (forall t stack dest, read_code t stack dest code = with_read t r (fun n t => read_shared t stack n)) ->
  (forall rest, r (bs ++ rest) = Ok (d, rest)) ->
  encodes (code :: bs) (TShared d).
Proof. intros. by eapply (encodes_code _ _ r d (fun n t st => read_shared t st n)). Qed.

Lemma extern_shared_reference_emits s d :
  writable s -> is_u64 d -> emits s (TShared d) (extern_shared_reference s d).
Proof.
  intros W Hd. unfold extern_shared_reference, is_u64 in *.
  destruct (Z.ltb_spec d 0x100); [|destruct (Z.ltb_spec d 0x10000); [|destruct (Z.leb_spec (2 ^ 32) d)]];
    (eapply emits_emit; [done|auto with intext|]).
  - apply (encodes_shared _ _ read8u); [done|done|]. intros rest. cbn [app].
    rewrite (proj1 (read8_store d rest)). do 2 f_equal. solve_word.
  - apply (encodes_shared _ _ read16u); [done|done|]. intros rest.
    rewrite (proj1 (read16_store (s32 d) rest)). do 2 f_equal. solve_word.
  - apply (encodes_shared _ _ read64u); [done|done|]. intros rest.
    rewrite read64_store. by rewrite u64_id.
  - apply (encodes_shared _ _ read32u); [done|done|]. intros rest.
    rewrite (proj1 (read32_store d rest)). do 2 f_equal. solve_word.
Qed.

(** ** Headers *)

Lemma header_fields_of sz tag :
  0 <= sz < 2 ^ 46 -> 0 <= tag < 256 ->
  let hd := u64 (Z.shiftl sz HEADER_WOSIZE_SHIFT + NOT_MARKABLE + tag) in
  is_u64 hd /\ Tag_hd hd = tag /\ Allocated_wosize_hd hd = sz.
Proof.
  intros Hs Ht hd. assert (hd = header_of tag 3 sz 0) as ->.
  { unfold hd, header_of, NOT_MARKABLE. hd_consts. rewrite !Z.shiftl_mul_pow2 by lia.
    rewrite u64_id; unfold is_u64; lia. }
  split; [apply header_of_u64; lia|].
  destruct (header_of_fields tag 3 sz 0) as (-> & _ & -> & _); [lia..|done].
Qed.

Lemma encodes_small_block sz tag :
  0 <= sz < 8 -> 0 <= tag < 16 ->
  encodes [u8 (PREFIX_SMALL_BLOCK + tag + Z.shiftl sz 4)] (TBlock tag sz).
Proof.
  intros Hs Ht t stack dest rest E. unfold PREFIX_SMALL_BLOCK in E.
  rewrite Z.shiftl_mul_pow2 in E by lia. change (2 ^ 4) with 16 in E.
  rewrite u8_id in E by (unfold is_u8; lia). set (c := 0x80 + tag + sz * 16) in *.
  unfold Intern.read_item. rewrite (read_Ok t read8u c rest) by (by rewrite E).
  cbn [rbind]. unfold PREFIX_SMALL_INT, PREFIX_SMALL_BLOCK.
  destruct (Z.leb_spec 0x40 c), (Z.leb_spec 0x80 c); try lia. cbn [interp_token].
  assert (Z.land c 0xF = tag) as ->.
  { change 0xF with (Z.ones 4). rewrite Z.land_ones by lia. unfold c. zlia. }
  assert (Z.land (Z.shiftr c 4) 0x7 = sz) as ->; [|done].
  change 0x7 with (Z.ones 3). rewrite Z.land_ones, Z.shiftr_div_pow2 by lia. unfold c. zlia.
Qed.

Lemma encodes_block code (bs : list Z) (r : list Z -> result (Z * list Z)) hd tag sz :
  code < PREFIX_SMALL_STRING -> Tag_hd hd = tag -> Allocated_wosize_hd hd = sz ->
  (forall t stack dest, read_code t stack dest code
     = with_read t r (fun hd t => read_block Atom t stack (Tag_hd hd) (Allocated_wosize_hd hd))) ->
  (forall rest, r (bs ++ rest) = Ok (hd, rest)) ->
  encodes (code :: bs) (TBlock tag sz).
Proof.
  intros Hc <- <- Hr Hb.
  by eapply (encodes_code _ _ r hd (fun hd t st => read_block Atom t st (Tag_hd hd) (Allocated_wosize_hd hd))).
Qed.

Lemma extern_header_emits s sz tag :
  writable s -> 0 <= sz < 2 ^ 46 -> 0 <= tag < 256 ->
  emits s (TBlock tag sz) (extern_header s sz tag).
Proof.
  intros W Hs Ht. unfold extern_header. case_if E0.
  { eapply emits_emit; [done|auto with intext|]. apply encodes_small_block; lia. }
  rewrite (wr_compat _ W), andb_false_r. destruct (header_fields_of sz tag Hs Ht) as (Hu & Etag & Esz).
  set (hd := u64 _) in *. unfold is_u64 in Hu.
  destruct (Z.ltb_spec hd (2 ^ 32)); (eapply emits_emit; [done|auto with intext|]).
  - apply (encodes_block _ _ read32u hd); try done. intros rest.
    rewrite (proj1 (read32_store hd rest)). do 2 f_equal. solve_word.
  - apply (encodes_block _ _ read64u hd); try done. intros rest.
    rewrite read64_store. by rewrite u64_id.
Qed.

(** ** Strings and floats *)

Lemma words_of_bytes_of_words ws :
  Forall is_s64 ws -> words_of_bytes (length ws) (bytes_of_words ws) = ws.
Proof.
  unfold bytes_of_words. induction 1 as [|w ws Hw _ IH]; [done|].
  rewrite fmap_cons. cbn [concat length words_of_bytes].
  rewrite take_app_le by (by rewrite le_bytes_length).
  rewrite take_ge by (by rewrite le_bytes_length).
  rewrite drop_app_ge, le_bytes_length, drop_0 by (by rewrite le_bytes_length).
  rewrite IH, le_word_bytes. f_equal. change (256 ^ Z.of_nat 8) with (2 ^ 64). solve_word.
Qed.

Lemma memcpy_replicate_0 n off k :
  0 <= off -> off + Z.of_nat k <= Z.of_nat n ->
  memcpy (replicate n 0) off (replicate k 0) = Ok (replicate n 0).
Proof.
  intros H1 H2. rewrite memcpy_Ok by (unfold zlen; rewrite ?length_replicate; lia).
  rewrite take_replicate, drop_replicate, length_replicate, <- !replicate_add. do 2 f_equal. lia.
Qed.

(** the reader builds the block that the allocation of an initialised string builds *)
Lemma string_bytes_block data :
  is_bytes data -> exists blk, string_bytes (zlen data) data = Ok blk /\ string_block blk data.
Proof.
  intros Hd. set (n := Z.to_nat (Bsize_wsize ((zlen data + 8) / 8))).
  assert (Hn : Z.of_nat n = 8 * ((zlen data + 8) / 8)).
  { unfold n, Bsize_wsize. pose proof (zlen_nonneg data). rewrite Z2Nat.id; zlia. }
  destruct (alloc_initialized_block (replicate (n + 8) 0) data Hd) as (blk & E & B).
  { unfold zlen at 2. rewrite length_replicate. zlia. }
  exists blk. split; [|done]. rewrite <- E.
  unfold string_bytes, caml_alloc_initialized_string, caml_alloc_string.
  fold n. rewrite take_replicate. replace (n `min` (n + 8))%nat with n by lia.
  rewrite memcpy_replicate_0; [done|..]; unfold Bsize_wsize; pose proof (zlen_nonneg data); zlia.
Qed.

Lemma readblock_app (bs rest : list Z) : readblock (bs ++ rest) (zlen bs) = Ok (bs, rest).
Proof.
  unfold readblock. rewrite zlen_app. pose proof (zlen_nonneg bs). pose proof (zlen_nonneg rest).
  destruct (Z.leb_spec 0 (zlen bs)), (Z.leb_spec (zlen bs) (zlen bs + zlen rest)); try lia.
  unfold zlen. cbn [andb]. by rewrite Nat2Z.id, take_app_length, drop_app_length.
Qed.

(** the fields of a string block with the contents [data] *)
Definition string_words (ws data : list Z) : Prop :=
  Forall is_s64 ws /\ string_block (bytes_of_words ws) data.

Lemma read_string_data t stack ws data rest :
  string_words ws data -> intern_src t = data ++ rest ->
  read_string t stack (zlen data) = interp_token (TData String_tag ws) (set_src t rest) stack.
Proof.
  intros [Hw B] E. pose proof (string_block_zlen _ _ B) as L. unfold read_string.
  rewrite (read_Ok t _ data rest) by (rewrite E; apply readblock_app). cbn [rbind].
  destruct (string_bytes_block data) as (blk & Eb & Bb); [apply B|]. rewrite Eb. cbn [rbind].
  assert (blk = bytes_of_words ws) as -> by (destruct B as [_ ->], Bb as [_ ->]; done).
  assert (Z.to_nat ((zlen data + 8) / 8) = length ws) as ->.
  { unfold zlen at 1 in L. rewrite bytes_of_words_length in L. zlia. }
  by rewrite words_of_bytes_of_words.
Qed.

(** a prefix that gives the length, then the contents *)
Lemma encodes_string code (bs : list Z) (r : list Z -> result (Z * list Z)) ws data :
  code < PREFIX_SMALL_STRING -> string_words ws data ->
  (forall t stack dest, read_code t stack dest code = with_read t r (fun n t => read_string t stack n)) ->
  (forall rest, r (bs ++ rest) = Ok (zlen data, rest)) ->
  encodes ((code :: bs) ++ data) (TData String_tag ws).
Proof.
  intros Hc B Hr Hb t stack dest rest E. rewrite <- app_assoc in E. cbn [app] in E.
  rewrite (read_item_code t stack dest code (bs ++ data ++ rest)) by done.
  rewrite Hr. rewrite (with_read_Ok _ r (zlen data) (data ++ rest)) by apply Hb.
  by rewrite (read_string_data _ _ ws data rest).
Qed.

Lemma encodes_small_string ws data :
  string_words ws data -> zlen data < 0x20 ->
  encodes ([u8 (PREFIX_SMALL_STRING + zlen data)] ++ data) (TData String_tag ws).
Proof.
  intros B L t stack dest rest E. pose proof (zlen_nonneg data). unfold PREFIX_SMALL_STRING in E.
  rewrite u8_id in E by (unfold is_u8; lia). set (c := 0x20 + zlen data) in *.
  unfold Intern.read_item. rewrite (read_Ok t read8u c (data ++ rest)) by (by rewrite E).
  cbn [rbind]. unfold PREFIX_SMALL_INT, PREFIX_SMALL_STRING.
  destruct (Z.leb_spec 0x40 c), (Z.leb_spec 0x20 c); try lia.
  assert (Z.land c 0x1F = zlen data) as ->.
  { change 0x1F with (Z.ones 5). rewrite Z.land_ones by lia. unfold c. zlia. }
  by rewrite (read_string_data _ _ ws data rest).
Qed.

Lemma emits_then s w bs data tok :
  writable s -> (forall o, appends o bs (w o)) -> encodes (bs ++ data) tok ->
  emits s tok (rbind (emit s w) (fun s => emit s (fun o => writeblock o data))).
Proof.
  intros W Ha He. destruct (emit_wrote s w bs W Ha) as (s1 & -> & W1). cbn [rbind].
  destruct (emit_wrote s1 (fun o => writeblock o data) data) as (s2 & -> & W2);
    [by apply (wrote_writable s bs)|auto with intext|].
  exists s2, (bs ++ data). split_and!; [done|by apply (wrote_trans s s1)|done].
Qed.

Lemma extern_string_emits s ws data :
  writable s -> string_words ws data -> zlen data < 2 ^ 64 ->
  emits s (TData String_tag ws) (extern_string s (bytes_of_words ws) (zlen data)).
Proof.
  intros W B L. pose proof (zlen_nonneg data).
  assert (R : forall (r : result (extern_state T)),
    (let* s := r in let* (d, _) := readblock (bytes_of_words ws) (zlen data) in
     emit s (fun o => writeblock o d)) = rbind r (fun s => emit s (fun o => writeblock o data))).
  { intros r. destruct r; try done. cbn [rbind]. destruct B as [_ [_ ->]]. by rewrite readblock_app. }
  unfold extern_string. rewrite R, (wr_compat _ W), andb_false_r. clear R.
  case_if E0; [|case_if E1; [|case_if E2]].
  - eapply emits_then; [done|auto with intext|]. apply encodes_small_string; [done|lia].
  - eapply emits_then; [done|auto with intext|].
    apply (encodes_string _ [_] read8u); [done|done|done|]. intros rest. cbn [app].
    rewrite (proj1 (read8_store _ rest)). do 2 f_equal. rewrite u8_id; [done|unfold is_u8; lia].
  - eapply emits_then; [done|auto with intext|].
    apply (encodes_string _ _ read32u); [done|done|done|]. intros rest.
    rewrite (proj1 (read32_store _ rest)), u32_id; [done|unfold is_u32; lia].
  - eapply emits_then; [done|auto with intext|].
    apply (encodes_string _ _ read64u); [done|done|done|]. intros rest.
    rewrite read64_store, u64_id; [done|unfold is_u64; lia].
Qed.

Lemma zlen_bytes_of_words ws : zlen (bytes_of_words ws) = zlen ws * 8.
Proof. unfold zlen. rewrite bytes_of_words_length. lia. Qed.

Lemma extern_double_emits s v d :
  writable s -> is_s64 d -> fields m v 0 1 = Ok [d] ->
  emits s (TData Double_tag [d]) (extern_double m s v).
Proof.
  intros W Hd F. unfold extern_double. rewrite F. cbn [rbind].
  apply (emits_then s (fun o => writebyte o CODE_DOUBLE_NATIVE) [u8 CODE_DOUBLE_NATIVE]
    (bytes_of_words [d])); [done|auto with intext|].
  intros t stack dest rest E.
  rewrite (read_item_code t stack dest CODE_DOUBLE_LITTLE (bytes_of_words [d] ++ rest)) by done.
  change (Intern.read_code _ _ _ _ ?t' _ _ CODE_DOUBLE_LITTLE) with
    (let* (ds, s) := read t' (fun src => readfloat src CODE_DOUBLE_LITTLE) in
     let* (v, s) := alloc_recorded s Double_tag ds in Ok (Some v, s, stack)).
  rewrite (read_Ok _ _ [d] rest); [done|]. cbn [intern_src set_src]. unfold readfloat.
  pose proof (readblock_app (bytes_of_words [d]) rest) as R. rewrite zlen_bytes_of_words in R.
  change (zlen [d] * 8) with 8 in R. rewrite R. cbn [rbind Z.eqb].
  rewrite Z.eqb_refl. change 1%nat with (length [d]).
  by rewrite words_of_bytes_of_words by (by constructor).
Qed.

Lemma encodes_doubles code (bs : list Z) (r : list Z -> result (Z * list Z)) ds :
  code < PREFIX_SMALL_STRING -> Forall is_s64 ds ->
  code = CODE_DOUBLE_ARRAY8_LITTLE \/ code = CODE_DOUBLE_ARRAY32_LITTLE ->
  (forall t stack dest, read_code t stack dest code
     = with_read t r (fun n t => read_double_array t stack n code)) ->
  (forall rest, r (bs ++ rest) = Ok (zlen ds, rest)) ->
  encodes ((code :: bs) ++ bytes_of_words ds) (TData Double_array_tag ds).
Proof.
  intros Hc Hd Hcode Hr Hb t stack dest rest E. rewrite <- app_assoc in E. cbn [app] in E.
  rewrite (read_item_code t stack dest code (bs ++ bytes_of_words ds ++ rest)) by done.
  rewrite Hr. rewrite (with_read_Ok _ r (zlen ds) (bytes_of_words ds ++ rest)) by apply Hb.
  unfold read_double_array. rewrite (read_Ok _ _ ds rest); [done|]. cbn [intern_src set_src].
  unfold readfloats. rewrite <- zlen_bytes_of_words, readblock_app. cbn [rbind].
  assert (negb (code =? CODE_DOUBLE_ARRAY8_LITTLE) && negb (code =? CODE_DOUBLE_ARRAY32_LITTLE) = false) as ->
    by (destruct Hcode as [-> | ->]; done).
  unfold zlen. rewrite Nat2Z.id, words_of_bytes_of_words by done. done.
Qed.

(** below [2 ^ 32] elements: the reader swaps the bytes of longer arrays *)
Lemma extern_double_array_emits s v ds :
  writable s -> Forall is_s64 ds -> fields m v 0 (length ds) = Ok ds -> zlen ds < 2 ^ 32 ->
  emits s (TData Double_array_tag ds) (extern_double_array m s v (zlen ds)).
Proof.
  intros W Hd F L. pose proof (zlen_nonneg ds). unfold extern_double_array.
  rewrite (wr_compat _ W), andb_false_r. replace (Z.to_nat (zlen ds)) with (length ds) by (unfold zlen; lia). rewrite F. cbn [rbind].
  case_if E0; [|case_if E1; [|lia]].
  - eapply emits_then; [done|auto with intext|].
    apply (encodes_doubles _ [_] read8u); [done|done|by left|done|]. intros rest. cbn [app].
    rewrite (proj1 (read8_store _ rest)). do 2 f_equal. rewrite u8_id; [done|unfold is_u8; lia].
  - eapply emits_then; [done|auto with intext|].
    apply (encodes_doubles _ _ read32u); [done|done|by right|done|]. intros rest.
    rewrite (proj1 (read32_store _ rest)), u32_id; [done|unfold is_u32; lia].
Qed.
End Read.
