(* ===== verification/Roundtrip.v ===== *)
(** * The round trip of values through the marshaler

    [extern_value] on a graph of plain blocks (strings, floats, float arrays, and blocks
    of scanned fields, shared and cyclic as they may be), then [intern_rec] on the bytes.
    The two loops are simulated by a visit of the graph ([visit]): each turn of either
    loop visits one value.  [EInv] is the invariant of the writer, [IInv] that of the
    reader, and [matched] pairs the pending fields of the two stacks. *)

From S2P Require Import Prelude.
From S2P Require Import Mlvalues.
From S2P Require Import Str.
From S2P Require Import Memory.
From S2P Require Import Intext.
From S2P Require Import Postable.
From S2P Require Import Extern.
From S2P Require Import Intern.
From S2P Require Import Marshal.
#[local] Open Scope Z_scope.

(** ** Graphs of plain blocks *)

(** the tags of the blocks whose contents are copied *)
Definition is_data_tag (tag : Z) : bool :=
  (tag =? String_tag) || (tag =? Double_tag) || (tag =? Double_array_tag).
(** the tags of the blocks of values, but those with a treatment of their own *)
Definition is_scanned_tag (tag : Z) : bool := (tag <=? Lazy_tag) && negb (tag =? Cont_tag).

Section Graph.
Context (m : mem).

(** a block of size 0 *)
Definition is_atom (v tag : Z) : Prop :=
  exists hd, Is_long v = false /\ Hd_val m v = Ok hd /\ Tag_hd hd = tag /\
    Allocated_wosize_hd hd = 0 /\ Reserved_hd hd = 0 /\ tag <> Forward_tag.

(** [o] is a block of [tag] and fields [fs] *)
Record plain_block (o tag : Z) (fs : list Z) : Prop := {
  pb_block : exists hd, block_at m o hd fs /\ Tag_hd hd = tag /\ Reserved_hd hd = 0;
  pb_is_block : Is_long o = false;
  pb_fields : fs <> [] /\ Forall is_s64 fs }.

(** the contents of data blocks *)
Definition data_fields (tag : Z) (fs : list Z) : Prop :=
  (tag = String_tag /\ exists data, string_words fs data) \/
  (tag = Double_tag /\ zlen fs = 1) \/
  (tag = Double_array_tag /\ zlen fs < 2 ^ 32).

Context (objs : list Z).

Definition good_value (v : Z) : Prop :=
  (Is_long v = true /\ is_s64 v) \/ (exists tag, is_atom v tag) \/ v ∈ objs.

(** the values reachable from [objs] are integers, atoms and blocks of [objs] *)
Record graph : Prop := {
  graph_nodup : NoDup objs;
  graph_blocks : forall o, o ∈ objs -> exists tag fs, plain_block o tag fs /\
    (data_fields tag fs \/ (is_scanned_tag tag = true /\ Forall good_value fs)) }.

Definition block_words (o : Z) : Z :=
  match Wosize_val m o with Ok n => 1 + n | _ => 0 end.
(** the words of the blocks, with their headers *)
Definition words (os : list Z) : Z := foldr (fun o n => block_words o + n) 0 os.

Lemma plain_block_facts o tag fs :
  plain_block o tag fs -> exists hd, block_at m o hd fs /\ Hd_val m o = Ok hd /\
    Tag_hd hd = tag /\ Allocated_wosize_hd hd = zlen fs /\ Reserved_hd hd = 0 /\
    Wosize_val m o = Ok (zlen fs) /\ 1 <= zlen fs < 2 ^ 46 /\ 0 <= tag < 256.
Proof.
  intros [(hd & B & T & R) _ [Hne _]]. exists hd. pose proof (block_at_zlen B) as L.
  rewrite <- L. split_and!; try done.
  - apply B.
  - by rewrite (block_at_wosize B).
  - rewrite L. unfold zlen. destruct fs; [done|simpl; lia].
  - rewrite Allocated_wosize_hd_eq. apply Z.mod_pos_bound. lia.
  - rewrite <- T, Tag_hd_eq. apply Z.mod_pos_bound. lia.
  - rewrite <- T, Tag_hd_eq. apply (Z.mod_pos_bound _ (2 ^ 8)). lia.
Qed.

Lemma plain_block_words o tag fs : plain_block o tag fs -> block_words o = 1 + zlen fs.
Proof.
  intros (hd & _ & _ & _ & _ & _ & W & _)%plain_block_facts. unfold block_words. by rewrite W.
Qed.

Lemma plain_block_fun o tag tag' fs fs' :
  plain_block o tag fs -> plain_block o tag' fs' -> tag' = tag /\ fs' = fs.
Proof.
  intros (hd & B & H1 & T1 & _)%plain_block_facts (hd' & B' & H2 & T2 & _)%plain_block_facts.
  rewrite H1 in H2. injection H2 as <-. split; [congruence|].
  destruct B as [_ F], B' as [_ F']. rewrite F in F'. by injection F'.
Qed.

Lemma words_app a b : words (a ++ b) = words a + words b.
Proof. unfold words. induction a as [|x a IH]; simpl; lia. Qed.

Lemma words_perm a b : a ≡ₚ b -> words a = words b.
Proof. unfold words. induction 1; simpl; lia. Qed.

Lemma words_nonneg os : 0 <= words os.
Proof.
  unfold words, block_words. induction os as [|o os IH]; simpl; [lia|].
  destruct (Wosize_val m o) as [n| | |] eqn:E; try lia.
  unfold Wosize_val, rmap in E. destruct (Hd_val m o) as [hd| | |]; try discriminate.
  injection E as <-. pose proof (Allocated_wosize_nonneg (hd := hd)). lia.
Qed.

Lemma data_tag_fields tag fs : data_fields tag fs -> is_data_tag tag = true.
Proof. intros [[-> _] | [[-> _] | [-> _]]]; done. Qed.

Lemma scanned_not_data tag : is_scanned_tag tag = true -> is_data_tag tag = false.
Proof.
  unfold is_scanned_tag, is_data_tag, Lazy_tag, Cont_tag, String_tag, Double_tag, Double_array_tag.
  lia.
Qed.
End Graph.

(** ** One visit *)

(** the visit of the value [v], with the blocks visited before and after, the item
    written, and the fields that are left to visit *)
Inductive visit (m : mem) (seen : list Z) (v : Z) : token -> list Z -> list Z -> Prop :=
  | visit_long : Is_long v = true -> is_s64 v -> visit m seen v (TInt (Long_val v)) seen []
  | visit_atom tag : is_atom m v tag -> visit m seen v (TBlock tag 0) seen []
  | visit_shared k :
      Is_long v = false -> seen !! k = Some v ->
      visit m seen v (TShared (zlen seen - Z.of_nat k)) seen []
  | visit_data tag fs :
      v ∉ seen -> plain_block m v tag fs -> is_data_tag tag = true ->
      visit m seen v (TData tag fs) (seen ++ [v]) []
  | visit_block tag fs :
      v ∉ seen -> plain_block m v tag fs -> is_scanned_tag tag = true ->
      visit m seen v (TBlock tag (zlen fs)) (seen ++ [v]) fs.

(** ** The writer visits the graph *)

(** the limit on the number of blocks, below which neither stack overflows *)
Definition max_blocks : Z := 2 ^ 25.

Section Writer.
Context {T : Type} `{PositionTable T}.
Context (m : mem) (custom_ops : Z -> custom_operations)
  (code_fragment : Z -> option (Z * option (list Z))).
Context (Atom : Z -> Z) (find_custom : list Z -> option custom_reader)
  (find_fragment : list Z -> option (Z * Z)) (function_placeholder : option Z).
Context (objs : list Z).
Context (Hgraph : graph m objs) (Hcount : zlen objs <= max_blocks) (Hwords : words m objs < 2 ^ 61).

#[local] Abbreviation encodes := (encodes Atom find_custom find_fragment function_placeholder).
#[local] Abbreviation emits := (emits Atom find_custom find_fragment function_placeholder).
#[local] Abbreviation extern_item_step := (extern_item_step m custom_ops code_fragment).
#[local] Abbreviation extern_block := (extern_block m custom_ops code_fragment).
#[local] Abbreviation extern_contents := (extern_contents m custom_ops code_fragment).

(** the table holds the blocks [seen] at their positions *)
Definition positions (M : gmap Z Z) (seen : list Z) : Prop :=
  card M = zlen seen /\
  forall o p, M !! o = Some p <-> 0 <= p /\ seen !! Z.to_nat p = Some o.

Record EInv (s : extern_state T) (seen rest : list Z) : Prop := {
  ei_split : objs ≡ₚ seen ++ rest;
  ei_writable : writable s;
  ei_counter : obj_counter s = zlen seen;
  ei_size : size_64 s = words m seen;
  ei_stack : extern_stack_size s <= 2 ^ 26;
  ei_table : exists M, pt_rep (pos_table s) M /\ positions M seen }.

Lemma positions_insert M seen v :
  positions M seen -> v ∉ seen -> positions (<[v := zlen seen]> M) (seen ++ [v]).
Proof.
  intros [Hc HM] Hv. assert (E : M !! v = None).
  { destruct (M !! v) as [p|] eqn:E; [|done]. apply HM in E as [_ E%list_elem_of_lookup_2]. done. }
  split.
  - unfold card in *. rewrite map_size_insert_None by done. rewrite zlen_app. unfold zlen at 2. simpl. lia.
  - intros o p. destruct (decide (o = v)) as [->|N].
    + rewrite lookup_insert_eq. split.
      * intros [= <-]. pose proof (zlen_nonneg seen). split; [done|]. unfold zlen. rewrite Nat2Z.id.
        by rewrite lookup_app_r, Nat.sub_diag by lia.
      * intros [Hp [L|[L1 L2]]%lookup_app_Some]; [by apply list_elem_of_lookup_2 in L|].
        f_equal. apply list_lookup_singleton_Some in L2 as [L2 _]. unfold zlen. lia.
    + rewrite lookup_insert_ne by done. rewrite HM, lookup_app_Some. split.
      * intros [? ?]. split; [done|by left].
      * intros [? [?|[_ [_ ?]%list_lookup_singleton_Some]]]; [done|by destruct N].
Qed.

Lemma EInv_seen s seen rest v : EInv s seen rest -> v ∈ seen -> v ∈ objs.
Proof. intros I Hv. rewrite (ei_split _ _ _ I). apply elem_of_app. by left. Qed.

Lemma EInv_nodup s seen rest : EInv s seen rest -> NoDup (seen ++ rest).
Proof. intros I. rewrite <- (ei_split _ _ _ I). apply Hgraph. Qed.

Lemma EInv_rest s seen rest v :
  EInv s seen rest -> v ∈ objs -> v ∉ seen -> exists rest', rest ≡ₚ v :: rest'.
Proof.
  intros I Hv Hn. rewrite (ei_split _ _ _ I), elem_of_app in Hv. destruct Hv as [|Hv]; [done|].
  apply list_elem_of_split in Hv as (l1 & l2 & ->). exists (l1 ++ l2).
  by rewrite Permutation_middle.
Qed.

Lemma EInv_words s seen rest : EInv s seen rest -> words m seen + words m rest = words m objs.
Proof. intros I. rewrite (words_perm m _ _ (ei_split _ _ _ I)). by rewrite words_app. Qed.

Lemma EInv_count s seen rest : EInv s seen rest -> zlen seen + zlen rest = zlen objs.
Proof.
  intros I. pose proof (Permutation_length (ei_split _ _ _ I)) as L. rewrite length_app in L.
  unfold zlen. lia.
Qed.

(** writing bytes changes nothing else *)
Lemma EInv_wrote s seen rest bs s' : EInv s seen rest -> wrote s bs s' -> EInv s' seen rest.
Proof.
  intros [A B C D E F] W. pose proof (wrote_writable _ _ _ B W) as B'.
  destruct W as (E' & _). split; try done; by rewrite E'.
Qed.

(** recording a block *)
Lemma record_block s seen rest v tag fs h n32 :
  EInv s seen rest -> v ∈ objs -> v ∉ seen -> plain_block m v tag fs ->
  pt_free (pos_table s) v h ->
  exists s' rest', extern_record_location (add_sizes s n32 (1 + zlen fs)) v h = Ok s' /\
    EInv s' (seen ++ [v]) rest' /\ rest ≡ₚ v :: rest' /\ out s' = out s.
Proof.
  intros I Hv Hn Hb Hfree. destruct (EInv_rest _ _ _ _ I Hv Hn) as [rest' Er].
  pose proof (EInv_words _ _ _ I) as Ew. pose proof (EInv_count _ _ _ I) as Ec.
  rewrite (words_perm _ _ _ Er) in Ew. pose proof (Permutation_length Er) as El.
  change (words m (v :: rest')) with (block_words m v + words m rest') in Ew.
  rewrite (plain_block_words _ _ _ _ Hb) in Ew.
  pose proof (words_nonneg m rest'). pose proof (words_nonneg m seen). pose proof (zlen_nonneg fs).
  destruct I as [A B C D E (M & RM & PM)]. pose proof PM as [Hc HM].
  unfold extern_record_location. change (flag (add_sizes _ _ _) NO_SHARING) with (flag s NO_SHARING).
  rewrite (wr_sharing _ B). cbn [add_sizes obj_counter pos_table].
  destruct (pt_record_rep (pos_table s) M v h (obj_counter s) RM) as (t & Et & Rt); [|done| |].
  { destruct (M !! v) as [p|] eqn:EM; [|done]. apply HM in EM as [_ EM%list_elem_of_lookup_2]. done. }
  { unfold max_blocks in Hcount. simpl in El. unfold zlen in *. lia. }
  rewrite Hc, <- C in Et. rewrite Et. cbn [rbind].
  do 2 eexists. split; [done|]. split; [|done]. split; cbn.
  - by rewrite A, Er, <- app_assoc.
  - destruct B. by split.
  - rewrite zlen_app, C. done.
  - rewrite words_app, D. cbn. rewrite (plain_block_words _ _ _ _ Hb), u64_id; unfold is_u64; lia.
  - done.
  - exists (<[v := obj_counter s]> M). split; [done|]. rewrite C. by apply positions_insert.
Qed.

(** the stack with the fields [xs] of [v], but the first, pending *)
Definition push_fields (S : list extern_item) (v : Z) (xs : list Z) : list extern_item :=
  match xs with [] => S | _ => ExternItem (v + 8) (zlen xs) :: S end.

Definition after (s : extern_state T) (S : list extern_item) (v : Z) (kids : list Z)
    : extern_next :=
  match kids with [] => NextItem s S | x :: xs => Continue s (push_fields S v xs) x end.

Lemma push_item_ok s seen rest S i :
  EInv s seen rest -> zlen S < zlen seen ->
  exists s', push_item s S i = Ok (s', i :: S) /\ EInv s' seen rest /\ out s' = out s.
Proof.
  intros I HS. pose proof (EInv_count _ _ _ I). pose proof (zlen_nonneg rest).
  unfold push_item, extern_resize_stack, EXTERN_STACK_MAX_SIZE, max_blocks in *.
  destruct (Z.leb_spec (extern_stack_size s) (zlen S + 1)); [|by exists s].
  rewrite (proj2 (Z.leb_gt _ _)) by lia. eexists. split; [done|]. split; [|done].
  destruct I as [A [? ? ? ?] C D E F]. split; cbn; try done. lia.
Qed.

Lemma extern_fields_ok s seen rest S v tag fs :
  EInv s seen rest -> zlen S < zlen seen -> plain_block m v tag fs ->
  exists s', extern_fields m s S v 0 (zlen fs) = Ok (after s' S v fs) /\
    EInv s' seen rest /\ out s' = out s.
Proof.
  intros I HS Hb. destruct (plain_block_facts _ _ _ _ Hb) as (hd & B & _).
  destruct (pb_fields _ _ _ _ Hb) as [Hne _]. destruct fs as [|x xs]; [done|].
  assert (F0 : Field m v 0 = Ok x) by (by apply (block_at_field0 B)).
  unfold extern_fields. rewrite zlen_cons. change (v + 8 * (0 + 1)) with (v + 8).
  replace (1 + zlen xs - 0 - 1) with (zlen xs) by lia. destruct xs as [|x' xs].
  - exists s. cbn [rbind]. by rewrite F0.
  - rewrite (proj2 (Z.ltb_lt _ _)) by (rewrite zlen_cons; pose proof (zlen_nonneg xs); lia).
    destruct (push_item_ok s seen rest S (ExternItem (v + 8) (zlen (x' :: xs))) I HS)
      as (s' & -> & I' & O').
    exists s'. cbn [rbind]. by rewrite F0.
Qed.

(** what a turn of the loop on [v] does *)
Definition turn (s : extern_state T) (seen : list Z) (S : list extern_item) (v : Z)
    (r : result extern_next) : Prop :=
  exists tok seen' rest' kids s' bs, visit m seen v tok seen' kids /\ EInv s' seen' rest' /\
    contents (out s') = contents (out s) ++ bs /\ encodes bs tok /\ r = Ok (after s' S v kids).

Lemma emits_turn s seen rest S v tok r :
  EInv s seen rest -> visit m seen v tok seen [] -> emits s tok r ->
  turn s seen S v (rbind r (fun s => Ok (NextItem s S))).
Proof.
  intros I V (s' & bs & -> & W & E). exists tok, seen, rest, [], s', bs.
  split_and!; [done| |apply W|done|done]. by apply (EInv_wrote s _ _ bs).
Qed.

Lemma leaf_turn s seen rest S v tag fs h n32 r :
  EInv s seen rest -> v ∈ objs -> v ∉ seen -> plain_block m v tag fs -> is_data_tag tag = true ->
  pt_free (pos_table s) v h -> emits s (TData tag fs) r ->
  turn s seen S v (rbind r (fun s => extern_leaf s S v h n32 (1 + zlen fs))).
Proof.
  intros I Hv Hn Hb Ht Hf (s1 & bs & -> & W & E). pose proof (EInv_wrote _ _ _ _ _ I W) as I1.
  destruct (record_block s1 seen rest v tag fs h n32) as (s2 & rest' & E2 & I2 & _ & O2); try done.
  { destruct W as (-> & _). done. }
  exists (TData tag fs), (seen ++ [v]), rest', [], s2, bs. cbn [rbind]. unfold extern_leaf.
  rewrite E2, O2. split_and!; try done; [by apply visit_data|apply W].
Qed.

Lemma string_block_words fs data :
  string_words fs data -> zlen fs = (zlen data + 8) / 8 /\ zlen data < 8 * zlen fs.
Proof.
  intros [_ B]. pose proof (string_block_zlen _ _ B) as L. rewrite zlen_bytes_of_words in L.
  pose proof (zlen_nonneg data). split; zlia.
Qed.

Lemma data_turn s seen rest S v tag fs hd h :
  EInv s seen rest -> v ∈ objs -> v ∉ seen -> plain_block m v tag fs -> data_fields tag fs ->
  Hd_val m v = Ok hd -> pt_free (pos_table s) v h ->
  turn s seen S v (extern_contents s S v hd h).
Proof.
  intros I Hv Hn Hb Hd Hhd Hf. pose proof (ei_writable _ _ _ I) as W.
  pose proof (data_tag_fields _ _ Hd) as Ht. pose proof (pb_fields _ _ _ _ Hb) as [_ H64].
  destruct (plain_block_facts _ _ _ _ Hb) as (hd' & B & E1 & Et & Esz & Er & Ew & L & _).
  rewrite Hhd in E1. injection E1 as <-. unfold Extern.extern_contents. rewrite Et.
  destruct Hd as [[-> (data & Hs)] | [[-> L1] | [-> L32]]]; cbn [Z.eqb String_tag Double_tag Double_array_tag Pos.eqb].
  - pose proof (string_block_words _ _ Hs) as [Lw Ld]. rewrite (block_at_bytes B). cbn [rbind].
    rewrite (caml_string_length_block _ data) by apply Hs. cbn [rbind]. rewrite <- Lw.
    apply (leaf_turn s seen rest S v String_tag fs); try done.
    apply extern_string_emits; [done|done|lia].
  - destruct fs as [|d [|? ?]]; try discriminate L1.
    + apply (leaf_turn s seen rest S v Double_tag [d] h (1 + 2)); try done.
      apply extern_double_emits; [done|by inversion H64|].
      destruct B as [_ F]. rewrite Esz in F. exact F.
    + rewrite !zlen_cons in L1. pose proof (zlen_nonneg l). lia.
  - rewrite Ew. cbn [rbind]. apply (leaf_turn s seen rest S v Double_array_tag fs); try done.
    apply extern_double_array_emits; [done|done| |done].
    destruct B as [_ F]. rewrite Esz in F. unfold zlen in F. by rewrite Nat2Z.id in F.
Qed.

Lemma scanned_turn s seen rest S v tag fs hd h :
  EInv s seen rest -> v ∈ objs -> v ∉ seen -> plain_block m v tag fs -> is_scanned_tag tag = true ->
  zlen S <= zlen seen -> Hd_val m v = Ok hd -> pt_free (pos_table s) v h ->
  turn s seen S v (extern_contents s S v hd h).
Proof.
  intros I Hv Hn Hb Ht HS Hhd Hf. pose proof (ei_writable _ _ _ I) as W.
  destruct (plain_block_facts _ _ _ _ Hb) as (hd' & B & E1 & Et & Esz & Er & Ew & L & Lt).
  rewrite Hhd in E1. injection E1 as <-. unfold Extern.extern_contents. rewrite Et, Esz.
  assert (N : (String_tag <> tag /\ Double_tag <> tag /\ Double_array_tag <> tag /\ Abstract_tag <> tag)
    /\ Infix_tag <> tag /\ Custom_tag <> tag /\ Closure_tag <> tag /\ Cont_tag <> tag).
  { unfold is_scanned_tag, Lazy_tag in Ht. 
    unfold String_tag, Double_tag, Double_array_tag, Abstract_tag, Infix_tag, Custom_tag, Closure_tag, Cont_tag in *. lia. }
  destruct N as [(N1 & N2 & N3 & N4) (N5 & N6 & N7 & N8)].
  rewrite !(proj2 (Z.eqb_neq tag _)) by done.
  destruct (extern_header_emits Atom find_custom find_fragment function_placeholder
    s (zlen fs) tag) as (s1 & bs & -> & W1 & E); [done|lia|lia|].
  cbn [rbind]. pose proof (EInv_wrote _ _ _ _ _ I W1) as I1.
  destruct (record_block s1 seen rest v tag fs h (1 + zlen fs)) as (s2 & rest' & -> & I2 & _ & O2); try done.
  { destruct W1 as (-> & _). done. }
  cbn [rbind]. destruct (extern_fields_ok s2 (seen ++ [v]) rest' S v tag fs) as (s3 & -> & I3 & O3);
    [done|rewrite zlen_app; unfold zlen at 3; simpl; lia|done|].
  exists (TBlock tag (zlen fs)), (seen ++ [v]), rest', fs, s3, bs. rewrite O3, O2.
  split_and!; try done; [by apply visit_block|apply W1].
Qed.

Lemma atom_turn s seen rest S v tag :
  EInv s seen rest -> is_atom m v tag -> turn s seen S v (extern_block s S v).
Proof.
  intros I Ha. pose proof Ha as (hd & Hl & Hhd & Et & Esz & Er & Hf). unfold Extern.extern_block.
  rewrite Hhd. cbn [rbind]. rewrite Et, Esz, Er. cbn [Is_mixed_block_reserved Z.ltb Z.compare].
  rewrite (proj2 (Z.eqb_neq tag _)) by done. cbn [rbind Z.eqb].
  apply (emits_turn s seen rest S v (TBlock tag 0)); [done|by constructor|].
  apply extern_header_emits; [apply I|lia|]. rewrite <- Et, Tag_hd_eq.
  apply (Z.mod_pos_bound _ (2 ^ 8)). lia.
Qed.

Lemma block_turn s seen rest S v :
  EInv s seen rest -> v ∈ objs -> zlen S <= zlen seen -> turn s seen S v (extern_block s S v).
Proof.
  intros I Hv HS. pose proof (ei_writable _ _ _ I) as W.
  destruct (graph_blocks _ _ Hgraph v Hv) as (tag & fs & Hb & Hd).
  destruct (plain_block_facts _ _ _ _ Hb) as (hd & B & Hhd & Et & Esz & Er & Ew & L & Lt).
  unfold Extern.extern_block. rewrite Hhd. cbn [rbind]. rewrite Et, Esz, Er.
  cbn [Is_mixed_block_reserved Z.ltb Z.compare].
  rewrite (proj2 (Z.eqb_neq tag _)).
  2:{ intros ->. destruct Hd as [Hd%data_tag_fields|[Hd _]]; done. }
  cbn [rbind]. rewrite (proj2 (Z.eqb_neq (zlen fs) 0)) by lia. rewrite (wr_sharing _ W).
  destruct (ei_table _ _ _ I) as (M & RM & [Hc HM]).
  destruct (pt_lookup_rep (pos_table s) M v RM) as (h & -> & Hf). cbn [rbind].
  destruct (M !! v) as [p|] eqn:EM.
  - apply HM in EM as [Hp EM]. rewrite (wr_compressed _ W).
    pose proof (lookup_lt_Some _ _ _ EM) as Lp. pose proof (EInv_count _ _ _ I) as Ec.
    pose proof (zlen_nonneg rest). unfold max_blocks in Hcount.
    apply (emits_turn s seen rest S v (TShared (zlen seen - Z.of_nat (Z.to_nat p)))); [done| |].
    + constructor; [apply Hb|done].
    + rewrite (ei_counter _ _ _ I), u64_id by (unfold is_u64, zlen in *; lia).
      rewrite Z2Nat.id by done. apply extern_shared_reference_emits; [done|].
      unfold is_u64, zlen in *. lia.
  - specialize (Hf eq_refl). assert (Hn : v ∉ seen).
    { intros [k Hk]%list_elem_of_lookup. destruct (HM v (Z.of_nat k)) as [_ HM'].
      rewrite EM, Nat2Z.id in HM'. discriminate HM'. split; [lia|done]. }
    destruct Hd as [Hd|[Hd _]].
    + by apply (data_turn s seen rest S v tag fs).
    + by apply (scanned_turn s seen rest S v tag fs).
Qed.

Lemma extern_turn s seen rest S v :
  EInv s seen rest -> good_value m objs v -> zlen S <= zlen seen ->
  turn s seen S v (extern_item_step s S v).
Proof.
  intros I Hv HS. unfold Extern.extern_item_step. destruct Hv as [[Hl H64] | [[tag Ha] | Hv]].
  - rewrite Hl. apply (emits_turn s seen rest S v (TInt (Long_val v))); [done|by constructor|].
    apply extern_int_emits; [apply I|by apply Val_long_Long_val].
  - pose proof Ha as (? & -> & _). by apply (atom_turn s seen rest S v tag).
  - destruct (graph_blocks _ _ Hgraph v Hv) as (tag & fs & [_ -> _] & _).
    by apply (block_turn s seen rest S v).
Qed.
End Writer.

(** ** The reader builds a copy of the graph *)

(** the value [y] of the copy for the value [x] of the graph; [R] relates the blocks *)
Inductive value_copy (m : mem) (Atom : Z -> Z) (R : Z -> Z -> Prop) (x : Z) : Z -> Prop :=
  | copy_long : Is_long x = true -> value_copy m Atom R x x
  | copy_atom tag : is_atom m x tag -> value_copy m Atom R x (Atom tag)
  | copy_block y : Is_long x = false -> R x y -> value_copy m Atom R x y.

(** the blocks at the same position of the two lists *)
Definition related (seen dsts : list Z) (x y : Z) : Prop :=
  exists k, seen !! k = Some x /\ dsts !! k = Some y.

Lemma value_copy_mono m Atom (R R' : Z -> Z -> Prop) x y :
  (forall x y, R x y -> R' x y) -> value_copy m Atom R x y -> value_copy m Atom R' x y.
Proof. intros HR [Hl|tag Ha|y' Hl Hy]; [by constructor|by constructor|constructor; auto]. Qed.

Lemma related_app seen dsts o d x y :
  related seen dsts x y -> related (seen ++ [o]) (dsts ++ [d]) x y.
Proof.
  intros (k & H1 & H2). exists k. by rewrite !lookup_app_l by (by eapply lookup_lt_Some).
Qed.

(** the values [xs] for the addresses [d], [d + 8], ... *)
Fixpoint pairs (xs : list Z) (d : Z) : list (Z * Z) :=
  match xs with [] => [] | x :: xs => (x, d) :: pairs xs (d + 8) end.

Lemma pairs_lookup xs : forall d k x, xs !! k = Some x -> (x, d + 8 * Z.of_nat k) ∈ pairs xs d.
Proof.
  induction xs as [|x xs IH]; intros d k y; [done|]. cbn [pairs]. destruct k as [|k].
  - intros [= ->]. rewrite Z.add_0_r. by left.
  - intros Hk. right. replace (d + 8 * Z.of_nat (S k)) with (d + 8 + 8 * Z.of_nat k) by lia. by apply IH.
Qed.

Lemma pairs_inv xs : forall d p, p ∈ pairs xs d -> exists k, xs !! k = Some p.1 /\ p.2 = d + 8 * Z.of_nat k.
Proof.
  induction xs as [|x xs IH]; intros d p; cbn [pairs]; [by intros ?%elem_of_nil|].
  intros [->|Hp]%elem_of_cons; [exists 0%nat; simpl; split; [done|lia]|].
  destruct (IH _ _ Hp) as (k & Hk & Ek). exists (S k). split; [done|lia].
Qed.

Lemma pairs_length xs : forall d, length (pairs xs d) = length xs.
Proof. induction xs; intros d; simpl; auto. Qed.

Lemma pairs_nodup xs : forall d, NoDup (pairs xs d).*2.
Proof.
  induction xs as [|x xs IH]; intros d; cbn [pairs]; [constructor|].
  rewrite fmap_cons. constructor; [|apply IH].
  intros (p & E & (k & _ & Ek)%pairs_inv)%list_elem_of_fmap. simpl in E. lia.
Qed.

(** ** Stores of several words *)

Lemma store_words_inv m ws : forall a b x,
  store_words m a ws !! b = Some x -> m !! b = Some x \/ a <= b < a + 8 * zlen ws.
Proof.
  induction ws as [|w ws IH]; intros a b x; cbn [store_words]; [by left|].
  rewrite zlen_cons. pose proof (zlen_nonneg ws).
  destruct (decide (b = a)) as [->|N]; [right; lia|]. rewrite lookup_insert_ne by done.
  intros [?|?]%IH; [by left|right; lia].
Qed.

Lemma store_words_mono (m m' : mem) ws : forall a, m ⊆ m' -> store_words m a ws ⊆ store_words m' a ws.
Proof. induction ws as [|w ws IH]; intros a H; cbn [store_words]; [done|]. by apply insert_mono, IH. Qed.

(** stores at addresses that are not mapped *)
Lemma store_words_extends (m : mem) ws a :
  (forall b x, m !! b = Some x -> b < a) -> m ⊆ store_words m a ws.
Proof.
  intros H. apply map_subseteq_spec. intros b x Hb. by rewrite store_words_below by (by eapply H).
Qed.

Lemma alloc_extends h tag init :
  (forall b x, h_mem h !! b = Some x -> b < h_next h) ->
  h_mem h ⊆ h_mem (alloc h tag 0 init).2.
Proof.
  intros H. apply map_subseteq_spec. intros b x Hb.
  rewrite (alloc_below h tag 0 init (h_next h + 8) _ b); [done|done|by eapply H].
Qed.

Lemma alloc_bounded h tag init b x :
  (forall b x, h_mem h !! b = Some x -> b < h_next h) ->
  h_mem (alloc h tag 0 init).2 !! b = Some x -> b < h_next (alloc h tag 0 init).2.
Proof.
  intros H. unfold alloc. cbn [snd h_mem h_next]. pose proof (zlen_nonneg init).
  destruct (decide (b = h_next h)) as [->|N]; [lia|]. rewrite lookup_insert_ne by done.
  intros [E|?]%store_words_inv; [apply H in E|]; lia.
Qed.

Section Copy.
(** [base]: the end of the heap before the reader *)
Context (m : mem) (Atom : Z -> Z) (base : Z).

#[local] Abbreviation value_copy := (value_copy m Atom).

(** [d] is the address of a copy of the block [o]: the header and the data are in
    [fixed], and each scanned field is a cell, for the value of the field of [o] *)
Definition copied (fixed : mem) (cells : list (Z * Z)) (o d : Z) : Prop :=
  Is_long d = false /\ exists tag fs, plain_block m o tag fs /\
    fixed !! (d - 8) = Some (s64 (Make_header_with_reserved (zlen fs) tag 0)) /\
    if is_data_tag tag
    then forall k x, fs !! k = Some x -> fixed !! (d + 8 * Z.of_nat k) = Some x
    else forall k x, fs !! k = Some x -> (x, d + 8 * Z.of_nat k) ∈ cells.

(** the memory of the reader: the blocks [dsts] are the copies of [seen]; the cells
    are the words to fill, each for a value of the graph: those of [P] are pending, the
    others hold a copy of their value; the words of [fixed] do not change *)
Record mem_inv (h : heap) (seen dsts : list Z) (P cells : list (Z * Z)) (fixed : mem) : Prop := {
  mi_nodup : NoDup cells.*2;
  mi_done : exists D, cells ≡ₚ P ++ D /\ forall x a, (x, a) ∈ D ->
    exists y, h_mem h !! a = Some y /\ value_copy (related seen dsts) x y;
  mi_cells : forall x a, (x, a) ∈ cells -> is_Some (h_mem h !! a) /\ fixed !! a = None;
  mi_fixed : fixed ⊆ h_mem h;
  mi_bound : forall a x, h_mem h !! a = Some x -> a < h_next h;
  mi_even : Is_long (h_next h) = false;
  mi_length : length dsts = length seen;
  mi_dsts : NoDup dsts /\ base <= h_next h /\ Forall (fun d => base < d < h_next h) dsts;
  mi_copied : forall k o d, seen !! k = Some o -> dsts !! k = Some d -> copied fixed cells o d }.

Lemma Is_long_add8 a n : Is_long (a + 8 * n) = Is_long a.
Proof. rewrite !Is_long_odd, Z.odd_add, Z.odd_mul. simpl. by destruct (Z.odd a). Qed.

Lemma copied_mono (fixed fixed' : mem) cells cells' o d :
  fixed ⊆ fixed' -> cells ⊆ cells' -> copied fixed cells o d -> copied fixed' cells' o d.
Proof.
  intros HF HC (He & tag & fs & Hb & Hh & Hfs). split; [done|]. exists tag, fs. split; [done|].
  split; [by eapply lookup_weaken|]. destruct (is_data_tag tag).
  - intros k x Hk. eapply lookup_weaken; [by apply Hfs|done].
  - intros k x Hk. by apply HC, Hfs.
Qed.

(** a value stored in the first pending cell *)
Lemma mem_inv_store h seen dsts P cells fixed x a y :
  mem_inv h seen dsts ((x, a) :: P) cells fixed -> value_copy (related seen dsts) x y ->
  exists m', store_word (h_mem h) a y = Ok m' /\ mem_inv (Heap m' (h_next h)) seen dsts P cells fixed.
Proof.
  intros [A (D & ED & HD) C F B E L (N1 & N0 & N2) K] Hy.
  assert (Ha : (x, a) ∈ cells) by (rewrite ED; by left).
  destruct (C x a Ha) as [[w Hw] Hf]. unfold store_word. rewrite Hw. eexists. split; [done|].
  assert (Hne : forall x' a', (x', a') ∈ D -> a' <> a).
  { intros x' a' H' ->. rewrite ED in A. cbn [app] in A. rewrite fmap_cons in A.
    apply NoDup_cons in A as [A _]. apply A. rewrite fmap_app. apply elem_of_app. right.
    apply list_elem_of_fmap. by exists (x', a). }
  split; cbn [h_mem h_next]; try done.
  - exists ((x, a) :: D). split; [rewrite ED; by apply Permutation_middle|].
    intros x' a' [[= -> ->]|H']%elem_of_cons.
    + exists y. by rewrite lookup_insert_eq.
    + destruct (HD x' a' H') as (y' & E' & V'). exists y'. by rewrite lookup_insert_ne by (intros <-; by eapply Hne).
  - intros x' a' H'. destruct (C x' a' H') as [S' ?]. split; [|done].
    destruct (decide (a = a')) as [->|?]; [by rewrite lookup_insert_eq|by rewrite lookup_insert_ne].
  - apply map_subseteq_spec. intros b z Hb. rewrite lookup_insert_ne.
    + by eapply lookup_weaken.
    + intros <-. by rewrite Hf in Hb.
  - intros b z. destruct (decide (a = b)) as [<-|?]; [intros _; by eapply B|].
    rewrite lookup_insert_ne by done. apply B.
Qed.

(** the parts of the invariant that an allocation keeps, for whatever is fixed in the
    new block and whatever cells it has *)
Lemma mem_inv_alloc h seen dsts P cells fixed o tag init fixed' new v h' :
  mem_inv h seen dsts P cells fixed -> alloc h tag 0 init = (v, h') -> init <> [] ->
  fixed ⊆ fixed' -> fixed' ⊆ h_mem h' ->
  (forall a, a < h_next h -> fixed' !! a = fixed !! a) ->
  NoDup new.*2 ->
  (forall x a, (x, a) ∈ new -> v <= a /\ is_Some (h_mem h' !! a) /\ fixed' !! a = None) ->
  copied fixed' (new ++ cells) o v ->
  mem_inv h' (seen ++ [o]) (dsts ++ [v]) (new ++ P) (new ++ cells) fixed'.
Proof.
  intros [A (D & ED & HD) C F B E L (N1 & N0 & N2) K] Ea Hi Hf1 Hf2 Hf3 Hn Hnew Hc.
  assert (Hv : v = h_next h + 8) by (by injection Ea).
  assert (Hx : h_mem h ⊆ h_mem h') by (pose proof (alloc_extends h tag init B) as X; by rewrite Ea in X).
  assert (Hlt : h_next h' = v + 8 * zlen init) by (by injection Ea as <- <-).
  assert (Hlen : 1 <= zlen init) by (destruct init; [done|rewrite zlen_cons; pose proof (zlen_nonneg init); lia]).
  assert (Hold : forall x a, (x, a) ∈ cells -> a < h_next h).
  { intros x a Ha. destruct (C x a Ha) as [[w Hw] _]. by eapply B. }
  split.
  - rewrite fmap_app. apply NoDup_app. split_and!; [done| |done].
    intros a (p & -> & Hp)%list_elem_of_fmap (q & Eq & Hq)%list_elem_of_fmap. destruct p as [x a], q as [x' a'].
    simpl in Eq. subst a'. apply Hold in Hq. destruct (Hnew x a Hp) as [? _]. lia.
  - exists D. split; [by rewrite ED, app_assoc|]. intros x a Ha.
    destruct (HD x a Ha) as (y & Ey & Vy). exists y. split; [by eapply lookup_weaken|].
    eapply value_copy_mono; [|exact Vy]. intros. by apply related_app.
  - intros x a [Ha|Ha]%elem_of_app; [by destruct (Hnew x a Ha)|].
    destruct (C x a Ha) as [[w Hw] Hfa]. split.
    + exists w. by eapply lookup_weaken.
    + rewrite Hf3; [done|by eapply Hold].
  - done.
  - intros a x Hax. pose proof (alloc_bounded h tag init a x B) as X. rewrite Ea in X. by apply X.
  - rewrite Hlt, Hv, Is_long_add8. change 8 with (8 * 1). by rewrite Is_long_add8.
  - rewrite !length_app. simpl. lia.
  - split.
    + apply NoDup_app. split_and!; [done| |by apply NoDup_singleton].
      intros d Hd ->%list_elem_of_singleton. rewrite Forall_forall in N2. apply N2 in Hd. lia.
    + split; [lia|]. apply Forall_app. split; [|constructor; [lia|done]].
      eapply Forall_impl; [exact N2|]. simpl. lia.
  - intros k o' d [H1|[Hk H1]]%lookup_app_Some [H2|[Hk2 H2]]%lookup_app_Some.
    + eapply copied_mono; [done| |by eapply K]. intros p Hp. apply elem_of_app. by right.
    + apply lookup_lt_Some in H1. lia.
    + apply lookup_lt_Some in H2. lia.
    + apply list_lookup_singleton_Some in H1 as [_ <-]. by apply list_lookup_singleton_Some in H2 as [_ <-].
Qed.

Lemma mem_inv_fixed_bound h seen dsts P cells fixed :
  mem_inv h seen dsts P cells fixed -> forall a x, fixed !! a = Some x -> a < h_next h.
Proof. intros I a x Hx. eapply lookup_weaken in Hx; [|by eapply mi_fixed]. by eapply mi_bound. Qed.

Lemma mem_inv_data h seen dsts P cells fixed o tag fs v h' :
  mem_inv h seen dsts P cells fixed -> plain_block m o tag fs -> is_data_tag tag = true ->
  alloc h tag 0 fs = (v, h') ->
  exists fixed', fixed ⊆ fixed' /\ mem_inv h' (seen ++ [o]) (dsts ++ [v]) P cells fixed'.
Proof.
  intros I Hb Ht Ea. pose proof (mem_inv_fixed_bound _ _ _ _ _ _ I) as FB.
  set (hdr := s64 (Make_header_with_reserved (zlen fs) tag 0)).
  exists (<[h_next h := hdr]> (store_words fixed v fs)).
  assert (Hv : v = h_next h + 8) by (by injection Ea).
  assert (Hh : h_mem h' = <[h_next h := hdr]> (store_words (h_mem h) v fs)) by (by injection Ea as <- <-).
  assert (Hold : forall a, a < h_next h -> <[h_next h := hdr]> (store_words fixed v fs) !! a = fixed !! a).
  { intros a Ha. rewrite lookup_insert_ne, store_words_below by lia. done. }
  assert (X : fixed ⊆ <[h_next h := hdr]> (store_words fixed v fs)).
  { apply map_subseteq_spec. intros b x Hx. rewrite Hold; [done|by eapply FB]. }
  split; [done|]. apply (mem_inv_alloc h seen dsts P cells fixed o tag fs _ [] v h'); try done.
  - apply (pb_fields _ _ _ _ Hb).
  - rewrite Hh. by apply insert_mono, store_words_mono, (mi_fixed _ _ _ _ _ _ I).
  - constructor.
  - by intros x a ?%elem_of_nil.
  - split; [subst v; change 8 with (8 * 1); rewrite Is_long_add8; by eapply mi_even|].
    exists tag, fs. split; [done|]. rewrite Ht. split.
    + replace (v - 8) with (h_next h) by lia. by rewrite lookup_insert_eq.
    + intros k x Hk. rewrite lookup_insert_ne by lia. by apply store_words_lookup.
Qed.

Lemma mem_inv_block h seen dsts P cells fixed o tag fs v h' :
  mem_inv h seen dsts P cells fixed -> plain_block m o tag fs -> is_data_tag tag = false ->
  alloc h tag 0 (replicate (length fs) 0) = (v, h') ->
  exists fixed', fixed ⊆ fixed' /\
    mem_inv h' (seen ++ [o]) (dsts ++ [v]) (pairs fs v ++ P) (pairs fs v ++ cells) fixed'.
Proof.
  intros I Hb Ht Ea. pose proof (mem_inv_fixed_bound _ _ _ _ _ _ I) as FB.
  assert (El : zlen (replicate (length fs) 0) = zlen fs) by (unfold zlen; by rewrite length_replicate).
  set (hdr := s64 (Make_header_with_reserved (zlen fs) tag 0)).
  exists (<[h_next h := hdr]> fixed).
  assert (Hv : v = h_next h + 8) by (by injection Ea).
  assert (Hh : h_mem h' = <[h_next h := hdr]> (store_words (h_mem h) v (replicate (length fs) 0))).
  { injection Ea as <- <-. cbn [h_mem]. by rewrite El. }
  assert (Hold : forall a, a <> h_next h -> <[h_next h := hdr]> fixed !! a = fixed !! a).
  { intros a Ha. by rewrite lookup_insert_ne. }
  split; [apply map_subseteq_spec; intros b x Hx; apply FB in Hx as ?; rewrite Hold; [done|lia]|].
  apply (mem_inv_alloc h seen dsts P cells fixed o tag (replicate (length fs) 0) _ (pairs fs v) v h');
    try done.
  - intros E. apply (f_equal length) in E. rewrite length_replicate in E.
    destruct (pb_fields _ _ _ _ Hb) as [Hne _]. by destruct fs.
  - apply map_subseteq_spec. intros b x Hx. apply FB in Hx as ?. rewrite Hold; [done|lia].
  - rewrite Hh. apply insert_mono. transitivity (h_mem h); [by eapply mi_fixed|].
    apply store_words_extends. intros b x Hx. apply (mi_bound _ _ _ _ _ _ I) in Hx. lia.
  - intros a Ha. rewrite Hold; [done|lia].
  - apply pairs_nodup.
  - intros x a (k & Hk & Ek)%pairs_inv. simpl in Hk, Ek. subst a. split_and!; [lia| |].
    + exists 0. rewrite Hh, lookup_insert_ne by lia. apply store_words_lookup.
      apply lookup_replicate_2. by eapply lookup_lt_Some.
    + rewrite Hold by lia. destruct (fixed !! _) as [y|] eqn:E; [|done]. apply FB in E. lia.
  - split; [subst v; change 8 with (8 * 1); rewrite Is_long_add8; by eapply mi_even|].
    exists tag, fs. split; [done|]. rewrite Ht. split.
    + replace (v - 8) with (h_next h) by lia. by rewrite lookup_insert_eq.
    + intros k x Hk. apply elem_of_app. left. by apply pairs_lookup.
Qed.

Lemma mem_inv_perm h seen dsts P P' cells fixed :
  P ≡ₚ P' -> mem_inv h seen dsts P cells fixed -> mem_inv h seen dsts P' cells fixed.
Proof.
  intros HP [A (D & ED & HD) C F B E L N K]. split; try done. exists D. by rewrite <- HP.
Qed.

(** the sizes read from the header, the cell of the result, and the memory that the
    reader leaves alone *)
Context (num : Z) (size : Z) (root : Z * Z) (frame : mem).
Context (Hnum : num <= max_blocks).

Record IInv (t : intern_state) (seen dsts : list Z) (P : list (Z * Z)) : Prop := {
  ii_table : intern_obj_table t = Some (dsts, num) \/
    (intern_obj_table t = None /\ num = 0 /\ dsts = []);
  ii_dest : intern_dest t = None \/ intern_dest t = Some (size - words m seen);
  ii_stack : intern_stack_size t <= 2 ^ 26;
  ii_mem : exists cells fixed, mem_inv (intern_heap t) seen dsts P cells fixed /\
    root ∈ cells /\ frame ⊆ fixed }.

Lemma IInv_length t seen dsts P : IInv t seen dsts P -> length dsts = length seen.
Proof. intros [_ _ _ (cells & fixed & I & _)]. by eapply mi_length. Qed.

Lemma alloc_recorded_ok t seen dsts P o tag fs init :
  IInv t seen dsts P -> plain_block m o tag fs -> zlen init = zlen fs ->
  zlen (seen ++ [o]) <= num -> words m (seen ++ [o]) <= size ->
  exists v t1, alloc_recorded t tag init = Ok (v, t1) /\
    alloc (intern_heap t) tag 0 init = (v, intern_heap t1) /\
    intern_obj_table t1 = Some (dsts ++ [v], num) /\
    (intern_dest t1 = None \/ intern_dest t1 = Some (size - words m (seen ++ [o]))) /\
    intern_stack_size t1 = intern_stack_size t /\ intern_src t1 = intern_src t.
Proof.
  intros I Hb Hi Hn Hw. pose proof (IInv_length _ _ _ _ I) as L.
  rewrite words_app in Hw |- *. cbn [words foldr] in Hw |- *.
  rewrite (plain_block_words _ _ _ _ Hb) in Hw |- *.
  rewrite zlen_app in Hn. change (zlen [o]) with 1 in Hn. pose proof (zlen_nonneg seen).
  unfold alloc_recorded, intern_alloc_obj. destruct (alloc (intern_heap t) tag 0 init) as [v h'] eqn:Ea.
  destruct (ii_table _ _ _ _ I) as [Et|(_ & ? & _)]; [|lia].
  assert (El : (zlen dsts <? num) = true) by (unfold zlen in *; lia).
  exists v. destruct (ii_dest _ _ _ _ I) as [Ed|Ed]; rewrite Ed.
  - cbn [rbind]. unfold intern_record. cbn [intern_obj_table]. rewrite Et, El. cbn [rbind].
    eexists. split_and!; try done. by left.
  - rewrite (proj2 (Z.ltb_ge _ _)) by lia. cbn [rbind]. unfold intern_record. cbn [intern_obj_table].
    rewrite Et, El. cbn [rbind]. eexists. split_and!; try done. right. cbn [intern_dest]. f_equal. lia.
Qed.

(** the stack of the reader with the fields [kids] of the new block [d] pending *)
Definition push_reads (I : list intern_item) (d : Z) (kids : list Z) : list intern_item :=
  match kids with [] => I | _ => InternItem OReadItems d (zlen kids) :: I end.

(** storing the value of the visit in its cell *)
Lemma IInv_store t seen dsts v a y P Q :
  IInv t seen dsts (Q ++ (v, a) :: P) -> value_copy (related seen dsts) v y ->
  exists m', store_word (h_mem (intern_heap t)) a y = Ok m' /\
    IInv (set_intern_mem t m') seen dsts (Q ++ P).
Proof.
  intros [A B C (cells & fixed & I & Hr & Hf)] Hy.
  eapply mem_inv_perm in I; [|symmetry; apply Permutation_middle].
  destruct (mem_inv_store _ _ _ _ _ _ _ _ _ I Hy) as (m' & E & I').
  exists m'. split; [done|]. split; try done. by exists cells, fixed.
Qed.

Lemma ReadItems_ok t seen dsts P I d kids :
  IInv t seen dsts P -> zlen I < max_blocks ->
  exists t', ReadItems t I d (zlen kids) = Ok (t', push_reads I d kids) /\ IInv t' seen dsts P /\
    intern_src t' = intern_src t.
Proof.
  intros Hi HI. unfold ReadItems, PushItem, intern_resize_stack, INTERN_STACK_MAX_SIZE.
  unfold max_blocks in HI. destruct kids as [|x xs]; [by exists t|].
  rewrite (proj2 (Z.ltb_lt _ _)) by (rewrite zlen_cons; pose proof (zlen_nonneg xs); lia).
  destruct (Z.leb_spec (intern_stack_size t) (zlen I + 1)); [|by exists t].
  rewrite (proj2 (Z.leb_gt _ _)) by lia. eexists. split; [done|].
  destruct Hi as [A B C D]. split; [|done]. split; try done. cbn. lia.
Qed.

(** what a turn of the loop of the reader does with the item of a visit *)
Definition read_turn (t : intern_state) (I : list intern_item) (seen' : list Z) (a : Z)
    (kids : list Z) (P : list (Z * Z)) (r : result intern_result) : Prop :=
  exists y t1 d m' dsts', r = Ok (Some y, t1, push_reads I d kids) /\
    store_word (h_mem (intern_heap t1)) a y = Ok m' /\
    IInv (set_intern_mem t1 m') seen' dsts' (pairs kids d ++ P) /\ intern_src t1 = intern_src t.

Lemma read_data_turn t seen dsts v a P tag fs I :
  IInv t seen dsts ((v, a) :: P) -> v ∉ seen -> plain_block m v tag fs -> is_data_tag tag = true ->
  zlen (seen ++ [v]) <= num -> words m (seen ++ [v]) <= size ->
  read_turn t I (seen ++ [v]) a [] P (interp_token Atom (TData tag fs) t I).
Proof.
  intros Hi Hv Hb Ht Hn Hw.
  destruct (alloc_recorded_ok t seen dsts _ v tag fs fs Hi Hb eq_refl Hn Hw)
    as (d & t1 & Ea & Eh & Et & Ed & Es & Esrc).
  destruct (ii_mem _ _ _ _ Hi) as (cells & fixed & Hm & Hr & Hf).
  destruct (mem_inv_data _ _ _ _ _ _ _ _ _ _ _ Hm Hb Ht Eh) as (fixed' & HF & Hm').
  assert (Hi1 : IInv t1 (seen ++ [v]) (dsts ++ [d]) ([] ++ (v, a) :: P)).
  { split; [by left|done|rewrite Es; apply Hi|]. exists cells, fixed'.
    split_and!; [done|done|by transitivity fixed]. }
  destruct (IInv_store t1 _ _ v a d P [] Hi1) as (m' & E & Hi2).
  { constructor; [apply Hb|]. exists (length seen). rewrite <- (IInv_length _ _ _ _ Hi) at 2.
    by rewrite !list_lookup_middle. }
  exists d, t1, d, m', (dsts ++ [d]). cbn [interp_token]. rewrite Ea. by split_and!.
Qed.

Lemma read_block_turn t seen dsts v a P tag fs I :
  IInv t seen dsts ((v, a) :: P) -> v ∉ seen -> plain_block m v tag fs -> is_scanned_tag tag = true ->
  zlen (seen ++ [v]) <= num -> words m (seen ++ [v]) <= size -> zlen I < max_blocks ->
  read_turn t I (seen ++ [v]) a fs P (interp_token Atom (TBlock tag (zlen fs)) t I).
Proof.
  intros Hi Hv Hb Ht Hn Hw HI. destruct (plain_block_facts _ _ _ _ Hb) as (_ & _ & _ & _ & _ & _ & _ & L & _).
  set (init := replicate (length fs) 0).
  assert (Hl : zlen init = zlen fs) by (unfold init, zlen; by rewrite length_replicate).
  destruct (alloc_recorded_ok t seen dsts _ v tag fs init Hi Hb Hl Hn Hw)
    as (d & t1 & Ea & Eh & Et & Ed & Es & Esrc).
  destruct (ii_mem _ _ _ _ Hi) as (cells & fixed & Hm & Hr & Hf).
  destruct (mem_inv_block _ _ _ _ _ _ _ _ _ _ _ Hm Hb (scanned_not_data _ Ht) Eh) as (fixed' & HF & Hm').
  assert (Hi1 : IInv t1 (seen ++ [v]) (dsts ++ [d]) (pairs fs d ++ (v, a) :: P)).
  { split; [by left|done|rewrite Es; apply Hi|]. exists (pairs fs d ++ cells), fixed'.
    split_and!; [done|apply elem_of_app; by right|by transitivity fixed]. }
  destruct (ReadItems_ok t1 _ _ _ I d fs Hi1 HI) as (t2 & E2 & Hi2 & Esrc2).
  destruct (IInv_store t2 _ _ v a d P (pairs fs d) Hi2) as (m' & E & Hi3).
  { constructor; [apply Hb|]. exists (length seen). rewrite <- (IInv_length _ _ _ _ Hi) at 2.
    by rewrite !list_lookup_middle. }
  exists d, t2, d, m', (dsts ++ [d]). cbn [interp_token]. unfold read_block.
  rewrite (proj2 (Z.eqb_neq (zlen fs) 0)) by lia.
  replace (Z.to_nat (zlen fs)) with (length fs) by (unfold zlen; lia). fold init. rewrite Ea. cbn [rbind].
  rewrite (proj2 (Z.eqb_neq tag Object_tag)) by (unfold is_scanned_tag, Lazy_tag, Object_tag in *; lia).
  rewrite E2. split_and!; [done|done|done|by rewrite Esrc2].
Qed.

Lemma intern_turn t seen dsts v a P tok seen' kids I :
  IInv t seen dsts ((v, a) :: P) -> visit m seen v tok seen' kids ->
  zlen seen' <= num -> words m seen' <= size -> zlen I < max_blocks ->
  read_turn t I seen' a kids P (interp_token Atom tok t I).
Proof.
  intros Hi Hv Hn Hw HI.
  assert (G : forall y, value_copy (related seen dsts) v y ->
    interp_token Atom tok t I = Ok (Some y, t, I) ->
    read_turn t I seen a [] P (interp_token Atom tok t I)).
  { intros y Hy E. destruct (IInv_store t _ _ v a y P [] Hi Hy) as (m' & Es & Hi').
    exists y, t, 0, m', dsts. by split_and!. }
  destruct Hv as [Hl Hl64|tag Ha|k Hl Hk|tag fs Hs Hb Ht|tag fs Hs Hb Ht].
  - apply (G v); [by constructor|]. cbn [interp_token]. by rewrite (proj2 (Val_long_Long_val v Hl Hl64)).
  - apply (G (Atom tag)); [by constructor|done].
  - pose proof (lookup_lt_Some _ _ _ Hk) as Lk. pose proof (IInv_length _ _ _ _ Hi) as L.
    destruct (lookup_lt_is_Some_2 dsts k) as [d Hd]; [lia|].
    apply (G d); [constructor; [done|by exists k]|]. cbn [interp_token]. unfold read_shared.
    destruct (ii_table _ _ _ _ Hi) as [->|(_ & ? & _)]; [|unfold zlen in *; lia].
    unfold zlen. rewrite L. replace (_ - _) with (Z.of_nat k) by lia.
    unfold max_blocks, zlen in *. rewrite u64_id by (unfold is_u64; lia).
    rewrite (proj2 (rd_Ok dsts (Z.of_nat k) d)); [done|]. rewrite Nat2Z.id. split; [lia|done].
  - by eapply read_data_turn.
  - by eapply read_block_turn.
Qed.
End Copy.

(** ** The two loops in lockstep *)

Section Lockstep.
Context {T : Type} `{PositionTable T}.
Context (m : mem) (custom_ops : Z -> custom_operations)
  (code_fragment : Z -> option (Z * option (list Z))).
Context (Atom : Z -> Z) (find_custom : list Z -> option custom_reader)
  (find_fragment : list Z -> option (Z * Z)) (function_placeholder : option Z)
  (fresh_oo_id : Z -> Z * Z).
Context (objs : list Z).
Context (Hgraph : graph m objs) (Hcount : zlen objs < max_blocks) (Hwords : words m objs < 2 ^ 61).

#[local] Abbreviation EInv := (EInv m objs).
#[local] Abbreviation good := (good_value m objs).
#[local] Abbreviation extern_loop := (extern_loop m custom_ops code_fragment).
#[local] Abbreviation intern_loop :=
  (intern_loop Atom find_custom find_fragment function_placeholder fresh_oo_id).
#[local] Abbreviation intern_step :=
  (intern_step Atom find_custom find_fragment function_placeholder fresh_oo_id).

(** the values pending on the stack of the writer: a sequence for each item *)
Definition pending (S : list extern_item) (W : list (list Z)) : Prop :=
  Forall2 (fun i xs => fields m (item_v i) 0 (length xs) = Ok xs /\ item_count i = zlen xs /\
    xs <> [] /\ Forall good xs) S W.

(** the stack of the reader for the same values, and their cells *)
Inductive reads : list (list Z) -> list intern_item -> list (Z * Z) -> Prop :=
  | reads_nil : reads [] [] []
  | reads_cons xs d W I P :
      reads W I P -> reads (xs :: W) (InternItem OReadItems d (zlen xs) :: I) (pairs xs d ++ P).

(** a sequence put on the stack if it is not empty *)
Definition add_pending (xs : list Z) (W : list (list Z)) : list (list Z) :=
  match xs with [] => W | _ => xs :: W end.

Definition count (W : list (list Z)) : Z := zlen (concat W).

Lemma count_add xs W : count (add_pending xs W) = zlen xs + count W.
Proof. unfold count, add_pending. destruct xs; [done|]. cbn [concat]. by rewrite zlen_app. Qed.

Lemma reads_add xs d W I P :
  reads W I P -> reads (add_pending xs W) (push_reads I d xs) (pairs xs d ++ P).
Proof. intros R. destruct xs; [done|]. by constructor. Qed.

Lemma reads_length W I P : reads W I P -> length I = length W.
Proof. induction 1; simpl; auto. Qed.

Lemma fields_shift a n : forall i, fields m a (i + 1) n = fields m (a + 8) i n.
Proof.
  induction n as [|n IH]; intros i; [done|]. cbn [fields]. rewrite IH. unfold Field.
  by replace (a + 8 * (i + 1)) with (a + 8 + 8 * i) by lia.
Qed.

Lemma fields_cons a x xs :
  fields m a 0 (length (x :: xs)) = Ok (x :: xs) ->
  load m a = Ok x /\ fields m (a + 8) 0 (length xs) = Ok xs.
Proof.
  cbn [fields length]. intros (y & Hy & (ys & Hys & [= -> ->])%rbind_Ok)%rbind_Ok.
  unfold Field in Hy. rewrite Z.mul_0_r, Z.add_0_r in Hy. split; [done|]. by rewrite <- fields_shift.
Qed.

Lemma pending_pop i S x xs W :
  pending (i :: S) ((x :: xs) :: W) -> exists S', pop_item m (i :: S) = Ok (x, S') /\ good x /\
    pending S' (add_pending xs W) /\ (length S' <= length (i :: S))%nat.
Proof.
  intros HP. apply Forall2_cons in HP as [(F & C & _ & G) HP].
  apply fields_cons in F as [Fx F]. apply Forall_cons in G as [Gx G].
  unfold pop_item. rewrite Fx. cbn [rbind]. eexists. split; [done|]. rewrite C, zlen_cons.
  replace (1 + zlen xs - 1) with (zlen xs) by lia. destruct xs as [|x' xs].
  - split_and!; [done|done|simpl; lia].
  - rewrite (proj2 (Z.eqb_neq _ 0)) by (rewrite zlen_cons; pose proof (zlen_nonneg xs); lia).
    split_and!; [done| |done]. by constructor.
Qed.

Lemma pending_push S W v tag x xs :
  pending S W -> plain_block m v tag (x :: xs) -> Forall good (x :: xs) ->
  pending (push_fields S v xs) (add_pending xs W).
Proof.
  intros HP (hd & B & _ & _ & Esz & _)%plain_block_facts [_ G]%Forall_cons.
  destruct B as [_ F]. rewrite Esz in F.
  replace (Z.to_nat (zlen (x :: xs))) with (length (x :: xs)) in F by (unfold zlen; lia).
  apply fields_cons in F as [_ F]. destruct xs as [|x' xs]; [done|]. by constructor.
Qed.

Lemma visit_kids seen v tok seen' kids :
  visit m seen v tok seen' kids -> v ∈ objs \/ kids = [] ->
  Forall good kids /\ words m seen + zlen kids <= words m seen' /\ zlen seen <= zlen seen' /\
  (kids = [] \/ (zlen seen' = zlen seen + 1 /\ exists tag, plain_block m v tag kids)).
Proof.
  intros V Hv. pose proof (zlen_nonneg seen).
  destruct V as [Hl Hl64|tag Ha|k Hl Hk|tag fs Hs Hb Ht|tag fs Hs Hb Ht].
  1-3: rewrite Z.add_0_r; split_and!; [constructor|done|done|by left].
  all: rewrite words_app, zlen_app; cbn [words foldr]; rewrite (plain_block_words _ _ _ _ Hb);
    change (zlen [v]) with 1; pose proof (zlen_nonneg fs).
  - change (zlen []) with 0. split_and!; [constructor|lia|lia|by left].
  - split_and!; [|lia|lia|right; split; [done|by exists tag]].
    destruct Hv as [Hv| ->]; [|constructor].
    destruct (graph_blocks _ _ Hgraph v Hv) as (tag' & fs' & Hb' & Hd).
    destruct (plain_block_fun _ _ _ _ _ _ Hb Hb') as [-> ->].
    destruct Hd as [Hd%data_tag_fields|[_ Hd]]; [|done].
    by rewrite (scanned_not_data _ Ht) in Hd.
Qed.

Lemma visit_in_objs seen v tok seen' kids :
  visit m seen v tok seen' kids -> good v -> v ∈ objs \/ kids = [].
Proof.
  intros V Hv. destruct V as [Hl Hl64|tag Ha|k Hl Hk|tag fs Hs Hb Ht|tag fs Hs Hb Ht]; try by right.
  destruct Hv as [[Hl _]|[[tag' (hd & _ & Hhd & _ & Hw & _)]|Hv]]; [| |by left].
  - by rewrite (pb_is_block _ _ _ _ Hb) in Hl.
  - destruct (plain_block_facts _ _ _ _ Hb) as (hd' & _ & E & _ & Esz & _ & _ & L & _).
    rewrite Hhd in E. injection E as <-. lia.
Qed.

Section Turn.
Context (base num size : Z) (root : Z * Z) (frame : mem) (Hnum : num <= max_blocks).
#[local] Abbreviation IInv := (IInv m Atom base num size root frame).

(** one turn of the loop of the reader on the bytes of the item *)
Lemma intern_loop_turn fuel t seen dsts v a xs P tok bs tail seen' kids I :
  IInv t seen dsts ((v, a) :: P) -> visit m seen v tok seen' kids ->
  encodes Atom find_custom find_fragment function_placeholder bs tok ->
  intern_src t = bs ++ tail -> zlen seen' <= num -> words m seen' <= size ->
  zlen (push_reads I (a + 8) xs) < max_blocks ->
  exists t1 d dsts',
    intern_loop (S fuel) t (InternItem OReadItems a (zlen (v :: xs)) :: I)
      = intern_loop fuel t1 (push_reads (push_reads I (a + 8) xs) d kids) /\
    IInv t1 seen' dsts' (pairs kids d ++ P) /\ intern_src t1 = tail.
Proof.
  intros Hi V He Hsrc Hn Hw HI.
  assert (Hi' : IInv (set_src t tail) seen dsts ((v, a) :: P)) by (destruct Hi; by split).
  destruct (intern_turn m Atom base num size root frame Hnum _ _ _ _ _ _ _ _ _ (push_reads I (a + 8) xs)
    Hi' V Hn Hw HI) as (y & t1 & d & m' & dsts' & E & Es & Hi1 & Esrc).
  exists (set_intern_mem t1 m'), d, dsts'. split_and!; [|done|done].
  assert (R : intern_step t (InternItem OReadItems a (zlen (v :: xs))) I
    = Ok (set_intern_mem t1 m', push_reads (push_reads I (a + 8) xs) d kids)).
  { unfold Intern.intern_step. cbn [op arg dest]. rewrite zlen_cons.
    replace (1 + zlen xs - 1) with (zlen xs) by lia.
    assert ((if zlen xs =? 0 then I else InternItem OReadItems (a + 8) (zlen xs) :: I)
      = push_reads I (a + 8) xs) as ->.
    { destruct xs as [|x xs]; [done|]. rewrite (proj2 (Z.eqb_neq _ 0)); [done|].
      rewrite zlen_cons. pose proof (zlen_nonneg xs). lia. }
    rewrite (He t _ a tail Hsrc), E. cbn [rbind]. by rewrite Es. }
  cbn [Intern.intern_loop]. by rewrite R.
Qed.
End Turn.

(** what the reader does with the bytes [bs] that the writer emits on the way from the
    blocks [seen] to [seen'], in at most [n] turns *)
Definition read_back (n : nat) (bs : list Z) (seen seen' : list Z) (v : Z) (xs : list Z)
    (W : list (list Z)) : Prop :=
  forall base num size root frame t dsts a P I tail fuel,
    num <= max_blocks -> zlen seen' <= num -> words m seen' <= size ->
    IInv m Atom base num size root frame t seen dsts (pairs (v :: xs) a ++ P) -> reads W I P ->
    intern_src t = bs ++ tail -> (n <= fuel)%nat ->
    exists t' dsts', intern_loop fuel t (InternItem OReadItems a (zlen (v :: xs)) :: I) = Ok t' /\
      IInv m Atom base num size root frame t' seen' dsts' [] /\ intern_src t' = tail.

(** a turn, then the rest *)
Lemma read_back_turn n tok bs bs' seen seen1 seen' v xs W kids v1 xs1 W1 :
  visit m seen v tok seen1 kids ->
  encodes Atom find_custom find_fragment function_placeholder bs tok ->
  zlen seen1 <= zlen seen' -> words m seen1 <= words m seen' ->
  Z.of_nat (length (add_pending xs W)) < max_blocks ->
  add_pending kids (add_pending xs W) = (v1 :: xs1) :: W1 ->
  read_back n bs' seen1 seen' v1 xs1 W1 ->
  read_back (S n) (bs ++ bs') seen seen' v xs W.
Proof.
  intros V He Hz Hw HW EW RB base num size root frame t dsts a P I tail fuel Hnum Hn Hs Hi HR Hsrc Hf.
  destruct fuel as [|fuel]; [lia|]. rewrite <- app_assoc in Hsrc.
  pose proof (reads_add xs (a + 8) W I P HR) as HR1.
  destruct (intern_loop_turn base num size root frame Hnum fuel t seen dsts v a xs
    (pairs xs (a + 8) ++ P) tok bs (bs' ++ tail) seen1 kids I)
    as (t1 & d & dsts1 & -> & Hi1 & Hsrc1); [done|done|done|done|lia|lia| |].
  { unfold zlen. by rewrite (reads_length _ _ _ HR1). }
  pose proof (reads_add kids d _ _ _ HR1) as HR2. rewrite EW in HR2. revert Hi1.
  remember (push_reads (push_reads I (a + 8) xs) d kids) as I2 eqn:EI.
  remember (pairs kids d ++ pairs xs (a + 8) ++ P) as P2 eqn:EP. clear EI EP. intros Hi1.
  inversion HR2; subst. eapply RB; try done; lia.
Qed.

Lemma read_back_last n tok bs seen seen' v :
  visit m seen v tok seen' [] ->
  encodes Atom find_custom find_fragment function_placeholder bs tok ->
  read_back (S n) bs seen seen' v [] [].
Proof.
  intros V He base num size root frame t dsts a P I tail fuel Hnum Hn Hs Hi HR Hsrc Hf.
  destruct fuel as [|fuel]; [lia|]. inversion HR; subst.
  destruct (intern_loop_turn base num size root frame Hnum fuel t seen dsts v a []
    [] tok bs tail seen' [] []) as (t1 & d & dsts1 & -> & Hi1 & Hsrc1); try done.
  exists t1, dsts1. split_and!; [by destruct fuel|done|done].
Qed.

Lemma lockstep n : forall s seen rest S v xs W,
  EInv s seen rest -> good v -> pending S (add_pending xs W) -> zlen S <= zlen seen ->
  count (add_pending xs W) + words m rest < Z.of_nat n ->
  exists s' seen' rest' bs,
    (forall fuel, (n <= fuel)%nat -> extern_loop fuel s S v = Ok s') /\ EInv s' seen' rest' /\
    contents (out s') = contents (out s) ++ bs /\
    zlen seen <= zlen seen' /\ words m seen <= words m seen' /\
    read_back n bs seen seen' v xs W.
Proof.
  induction n as [|n IH]; intros s seen rest S v xs W I Hv HP HS Hn.
  { pose proof (words_nonneg m rest). unfold count in Hn. pose proof (zlen_nonneg (concat (add_pending xs W))). lia. }
  destruct (extern_turn m custom_ops code_fragment Atom find_custom find_fragment
    function_placeholder objs Hgraph ltac:(lia) Hwords s seen rest S v I Hv HS)
    as (tok & seen1 & rest1 & kids & s1 & bs & V & I1 & C1 & He & E1).
  destruct (visit_kids _ _ _ _ _ V (visit_in_objs _ _ _ _ _ V Hv)) as (Gk & Hw & Hz & Hk).
  pose proof (EInv_words _ _ _ _ _ I) as Ew. pose proof (EInv_words _ _ _ _ _ I1) as Ew1.
  pose proof (EInv_count _ _ _ _ _ I) as Ec. pose proof (zlen_nonneg rest).
  pose proof (Forall2_length _ _ _ HP) as HL. unfold zlen in HS, Ec.
  assert (HW : Z.of_nat (length (add_pending xs W)) < max_blocks) by (unfold zlen in *; lia).
  assert (G : forall S2 v2 xs2 W2, good v2 -> pending S2 (add_pending xs2 W2) -> zlen S2 <= zlen seen1 ->
    count (add_pending xs2 W2) + words m rest1 < Z.of_nat n ->
    add_pending kids (add_pending xs W) = (v2 :: xs2) :: W2 ->
    (forall fuel, extern_loop (Datatypes.S fuel) s S v = extern_loop fuel s1 S2 v2) ->
    exists s' seen' rest' bs,
    (forall fuel, (Datatypes.S n <= fuel)%nat -> extern_loop fuel s S v = Ok s') /\ EInv s' seen' rest' /\
    contents (out s') = contents (out s) ++ bs /\
    zlen seen <= zlen seen' /\ words m seen <= words m seen' /\
    read_back (Datatypes.S n) bs seen seen' v xs W).
  { intros S2 v2 xs2 W2 Hv2 HP2 HS2 Hn2 EW EL.
    destruct (IH s1 seen1 rest1 S2 v2 xs2 W2 I1 Hv2 HP2 HS2 Hn2)
      as (s' & seen' & rest' & bs' & L & I' & C' & Hz' & Hw' & RB).
    exists s', seen', rest', (bs ++ bs'). pose proof (zlen_nonneg kids). split_and!; try done.
    - intros [|fuel] Hf; [lia|]. rewrite EL. apply L. lia.
    - by rewrite C', C1, app_assoc.
    - lia.
    - lia.
    - by apply (read_back_turn n tok bs bs' seen seen1 seen' v xs W kids v2 xs2 W2). }
  rewrite count_add in Hn. destruct kids as [|x kids].
  - rewrite <- count_add in Hn. destruct (add_pending xs W) as [|[|x ys] W1] eqn:EW.
    + assert (xs = [] /\ W = []) as [-> ->] by (by destruct xs).
      apply Forall2_nil_inv_r in HP as ->. exists s1, seen1, rest1, bs. split_and!; try done; [|change (zlen []) with 0 in Hw; lia|].
      * intros [|fuel] Hf; [lia|]. cbn [Extern.extern_loop]. by rewrite E1.
      * by eapply read_back_last.
    + apply Forall2_cons_inv_r in HP as (i & S1 & (_ & _ & ? & _) & _ & _). done.
    + destruct S as [|i S]; [by inversion HP|].
      destruct (pending_pop i S x ys W1 HP) as (S2 & EP & Gx & HP2 & L2).
      apply (G S2 x ys W1); [done|done|unfold zlen in *; lia| |done|].
      * rewrite count_add. unfold count in *. cbn [concat] in Hn. rewrite zlen_app, zlen_cons in Hn.
        change (zlen []) with 0 in Hw. lia.
      * intros fuel. cbn [Extern.extern_loop]. rewrite E1. cbn [rbind after]. by rewrite EP.
  - destruct Hk as [?|[Hz1 (tag & Hb)]]; [done|]. rewrite zlen_cons in Hw.
    pose proof Gk as [Gx _]%Forall_cons.
    apply (G (push_fields S v kids) x kids (add_pending xs W)); [done| | | |done|].
    + by eapply pending_push.
    + unfold push_fields. destruct kids; rewrite ?zlen_cons; unfold zlen in *; lia.
    + rewrite !count_add. lia.
    + intros fuel. cbn [Extern.extern_loop]. by rewrite E1.
Qed.
End Lockstep.
