(* ===== verification/Marshaling.v ===== *)
(** * Marshal.to_bytes and Marshal.from_bytes

    The entry points of the marshaler: the header of marshaled data is read back as it
    was written, [caml_marshal_data_size] gives the size of the data, and reading what
    [caml_output_value_to_bytes] writes gives a fresh copy of the value. *)

From S2P Require Import Prelude.
From S2P Require Import Mlvalues.
From S2P Require Import Str.
From S2P Require Import Memory.
From S2P Require Import Intext.
From S2P Require Import Postable.
From S2P Require Import Extern.
From S2P Require Import Intern.
From S2P Require Import Marshal.
From S2P Require Import Roundtrip.
#[local] Open Scope Z_scope.

(** ** The header *)

Lemma read32u_store n rest : is_u32 n -> read32u (store32 n ++ rest) = Ok (n, rest).
Proof. intros Hn. by rewrite (proj1 (read32_store n rest)), u32_id. Qed.

Lemma read64u_store n rest : is_u64 n -> read64u (store64 n ++ rest) = Ok (n, rest).
Proof. intros Hn. by rewrite read64_store, u64_id. Qed.

Lemma Ok_inj {A} (x y : A) : Ok x = Ok y -> x = y.
Proof. congruence. Qed.

Section Header.
Context {T : Type} (s : extern_state T).

#[local] Abbreviation res_len := (zlen (contents (out s))).

(** the fields of the header that [s] gives *)
Definition header_of_state (header : list Z) (hdr : marshal_header) : Prop :=
  zlen header = header_len hdr /\ (header_len hdr = 20 \/ header_len hdr = 32) /\
  data_len hdr = res_len /\ num_objects hdr = obj_counter s /\ whsize hdr = size_64 s /\
  compressed hdr = false.

Lemma value_header_parsed header :
  extern_value_header s = Ok header -> is_u64 res_len -> is_u64 (size_64 s) ->
  0 <= obj_counter s < 2 ^ 32 ->
  exists hdr, header_of_state header hdr /\
    forall rest name, caml_parse_header (header ++ rest) name = Ok (hdr, rest).
Proof.
  intros E Hl Hs Hc. unfold extern_value_header in E. rewrite extern_output_length_eq in E.
  unfold is_u64 in *. revert E. case_if B; [destruct (flag s COMPAT_32); [done|]|]; intros <-%Ok_inj.
  - exists (MarshalHeader Intext_magic_number_big 32 res_len res_len (obj_counter s) (size_64 s) false).
    split; [split_and!; try done; by right|]. intros rest name. rewrite <- !app_assoc.
    unfold caml_parse_header. rewrite read32u_store by done. cbn [rbind].
    change (Intext_magic_number_big =? Intext_magic_number_small) with false.
    rewrite Z.eqb_refl, read32u_store by done. cbn [rbind].
    do 3 (rewrite read64u_store by (unfold is_u64; lia); cbn [rbind]). done.
  - assert (L : res_len < 2 ^ 32 /\ size_64 s < 2 ^ 32) by lia.
    exists (MarshalHeader Intext_magic_number_small 20 res_len res_len (obj_counter s) (size_64 s) false).
    split; [split_and!; try done; by left|]. intros rest name. rewrite <- !app_assoc.
    unfold caml_parse_header. rewrite read32u_store by done. cbn [rbind]. rewrite Z.eqb_refl.
    do 2 (rewrite read32u_store by (unfold is_u32; lia); cbn [rbind]).
    rewrite (proj1 (read32_store (size_32 s) _)). cbn [rbind].
    by rewrite read32u_store by (unfold is_u32; lia).
Qed.

(** the size that the first bytes of the header give *)
Lemma value_header_size header rest :
  extern_value_header s = Ok header -> is_u64 res_len ->
  exists magic after, read32u (header ++ rest) = Ok (magic, after) /\
    ((magic = Intext_magic_number_small /\ zlen header = 20 /\
        exists r, read32u after = Ok (res_len, r)) \/
     (magic = Intext_magic_number_big /\ zlen header = 32 /\
        exists z r r', read32u after = Ok (z, r) /\ read64u r = Ok (res_len, r'))).
Proof.
  intros E Hl. unfold extern_value_header in E. rewrite extern_output_length_eq in E.
  unfold is_u64 in *. revert E. case_if B; [destruct (flag s COMPAT_32); [done|]|]; intros <-%Ok_inj;
    rewrite <- !app_assoc, read32u_store by done; (do 2 eexists; split; [done|]).
  - right. split_and!; [done..|]. rewrite read32u_store by done. do 3 eexists.
    split; [done|]. by apply read64u_store.
  - left. split_and!; [done..|]. eexists. apply read32u_store. unfold is_u32. lia.
Qed.
End Header.

(** The size announced by the header is right: for every value that
    [caml_output_value_to_bytes] marshals, with any flags, whatever surrounds the bytes
    in the buffer, [caml_marshal_data_size] at their offset gives the number of bytes
    after the first 16, the size of the header that [Marshal.header_size] gives, so that
    [Marshal.total_size] is the length of the marshaled data. *)
Theorem marshal_data_size `{PositionTable T} m custom_ops code_fragment fuel v flags bytes pre post :
  caml_output_value_to_bytes (T := T) m custom_ops code_fragment fuel v flags = Ok bytes ->
  zlen (pre ++ bytes ++ post) < 2 ^ 62 ->
  caml_marshal_data_size (pre ++ bytes ++ post) (Val_long (zlen pre)) =
    Ok (Val_long (zlen bytes - 16)) /\ 16 <= zlen bytes.
Proof.
  unfold caml_output_value_to_bytes, extern_value.
  intros ([header s] & (s' & _ & (hd & E & [= -> ->])%rbind_Ok)%rbind_Ok & <-%Ok_inj)%rbind_Ok L.
  rewrite !zlen_app in L. rewrite zlen_app. pose proof (zlen_nonneg pre). pose proof (zlen_nonneg post).
  pose proof (zlen_nonneg header). pose proof (zlen_nonneg (contents (out s))).
  destruct (value_header_size s header (contents (out s) ++ post) E) as (magic & after & E1 & Hm);
    [unfold is_u64; lia|].
  unfold caml_marshal_data_size. rewrite Long_val_long_id by (unfold is_s63; lia).
  unfold zlen at 1. rewrite Nat2Z.id, drop_app_length, <- app_assoc, E1. cbn [rbind].
  destruct Hm as [(-> & L1 & r & E2) | (-> & L1 & z & r & r' & E2 & E3)].
  - rewrite Z.eqb_refl, E2. cbn [rbind]. split; [|lia]. do 2 f_equal. lia.
  - change (Intext_magic_number_big =? Intext_magic_number_small) with false.
    rewrite Z.eqb_refl, E2. cbn [rbind]. rewrite E3. cbn [rbind]. split; [|lia]. do 2 f_equal. lia.
Qed.

(** the reader takes the bytes of a float array of [2 ^ 32] elements or more, written
    by a little-endian machine with the code CODE_DOUBLE_ARRAY64_LITTLE, for big-endian
    floats *)
Lemma readfloats_array64_swapped ds rest :
  readfloats (bytes_of_words ds ++ rest) (zlen ds) CODE_DOUBLE_ARRAY64_NATIVE =
    Ok (words_of_bytes (length ds) (reverse_elements 8 (length ds) (bytes_of_words ds)), rest).
Proof.
  unfold readfloats. rewrite <- zlen_bytes_of_words, readblock_app. cbn [rbind].
  unfold zlen. by rewrite Nat2Z.id.
Qed.

Example array64_one : readfloats (bytes_of_words [1]) 1 CODE_DOUBLE_ARRAY64_NATIVE = Ok ([2 ^ 56], []).
Proof. reflexivity. Qed.
Example array32_one : readfloats (bytes_of_words [1]) 1 CODE_DOUBLE_ARRAY32_NATIVE = Ok ([1], []).
Proof. reflexivity. Qed.

(** ** The copy *)

(** [y], in the memory [m'] of the reader, is a copy of [v]: a one-to-one relation
    between the blocks reachable from [v] and fresh blocks of [m'] (above [base]) of the
    same tag, size and contents *)
Definition is_copy (m : mem) (Atom : Z -> Z) (m' : mem) (base v y : Z) : Prop :=
  exists R : Z -> Z -> Prop, value_copy m Atom R v y /\
    (forall o d o' d', R o d -> R o' d' -> (o = o' <-> d = d')) /\
    forall o d, R o d -> Is_long d = false /\ base < d /\ exists tag fs fs',
      plain_block m o tag fs /\ block_at m' d (header_of tag 0 (zlen fs) 0) fs' /\
      if is_data_tag tag then fs' = fs else Forall2 (value_copy m Atom R) fs fs'.

Lemma related_one_to_one seen dsts :
  NoDup seen -> NoDup dsts ->
  forall o d o' d', related seen dsts o d -> related seen dsts o' d' -> (o = o' <-> d = d').
Proof.
  intros N1 N2 o d o' d' (k & A & B) (k' & A' & B'). split; intros <-.
  - assert (k = k') as -> by exact (NoDup_lookup _ _ _ _ N1 A A'). congruence.
  - assert (k = k') as -> by exact (NoDup_lookup _ _ _ _ N2 B B'). congruence.
Qed.

Lemma block_at_intro (m' : mem) d tag fs' :
  0 <= tag < 256 -> zlen fs' < 2 ^ 46 ->
  m' !! (d - 8) = Some (s64 (Make_header_with_reserved (zlen fs') tag 0)) ->
  (forall k x, fs' !! k = Some x -> m' !! (d + 8 * Z.of_nat k) = Some x) ->
  block_at m' d (header_of tag 0 (zlen fs') 0) fs'.
Proof.
  intros Ht Hl Hh Hf. pose proof (zlen_nonneg fs').
  destruct (header_of_fields tag 0 (zlen fs') 0) as (_ & _ & Hw & _); [lia..|].
  unfold block_at, Hd_val, rmap, load. rewrite Hh, Hw. cbn [of_option rbind]. split.
  - rewrite u64_s64, Make_header_of, u64_id; [done| |lia..]. apply header_of_u64; lia.
  - unfold zlen. rewrite Nat2Z.id. apply fields_Forall2. intros k x Hk. apply Field_Ok. by apply Hf.
Qed.

(** the words from [d] on, each related to a field *)
Lemma cells_filled (Q : Z -> Z -> Prop) (m' : mem) fs : forall d,
  (forall k x, fs !! k = Some x -> exists y, m' !! (d + 8 * Z.of_nat k) = Some y /\ Q x y) ->
  exists fs', Forall2 Q fs fs' /\
    forall k x, fs' !! k = Some x -> m' !! (d + 8 * Z.of_nat k) = Some x.
Proof.
  induction fs as [|x fs IH]; intros d Hfs; [exists []; by split|].
  destruct (Hfs 0%nat x eq_refl) as (y & E & V). rewrite Z.add_0_r in E.
  destruct (IH (d + 8)) as (fs' & H1 & H2).
  { intros k z Hk. replace (d + 8 + 8 * Z.of_nat k) with (d + 8 * Z.of_nat (S k)) by lia. by apply Hfs. }
  exists (y :: fs'). split; [by constructor|]. intros [|k] z; cbn [lookup list_lookup].
  - intros [= <-]. by rewrite Z.mul_0_r, Z.add_0_r.
  - intros Hk. replace (d + 8 * Z.of_nat (S k)) with (d + 8 + 8 * Z.of_nat k) by lia. by apply H2.
Qed.

(** the end of the reading: no cell is pending *)
Lemma mem_inv_copy m Atom base h seen dsts cells fixed v a :
  NoDup seen -> mem_inv m Atom base h seen dsts [] cells fixed -> (v, a) ∈ cells ->
  exists y, h_mem h !! a = Some y /\ is_copy m Atom (h_mem h) base v y.
Proof.
  intros Hs [A (D & ED & HD) C F B E L (N1 & _ & N2) K] Hv. cbn [app] in ED.
  assert (HC : forall x a, (x, a) ∈ cells -> exists y, h_mem h !! a = Some y /\
    value_copy m Atom (related seen dsts) x y) by (intros x a'; rewrite ED; apply HD).
  destruct (HC v a Hv) as (y & Ey & Vy). exists y. split; [done|]. exists (related seen dsts).
  split; [done|]. split; [by apply related_one_to_one|].
  intros o d (k & Ho & Hd). destruct (K k o d Ho Hd) as (He & tag & fs & Hb & Hh & Hfs).
  split; [done|]. split.
  { rewrite Forall_forall in N2. apply (N2 d). by eapply list_elem_of_lookup_2. }
  destruct (plain_block_facts _ _ _ _ Hb) as (hd & _ & _ & _ & _ & _ & _ & Lf & Lt).
  eapply lookup_weaken in Hh; [|exact F]. destruct (is_data_tag tag) eqn:Et.
  - exists tag, fs, fs. rewrite Et. split_and!; [done| |done].
    apply block_at_intro; [done|lia|done|]. intros j x Hj. eapply lookup_weaken; [by apply Hfs|done].
  - destruct (cells_filled (value_copy m Atom (related seen dsts)) (h_mem h) fs d) as (fs' & HF2 & HF3).
    { intros j x Hj. by apply HC, Hfs. }
    pose proof (Forall2_length _ _ _ HF2) as Lfs.
    exists tag, fs, fs'. rewrite Et. split_and!; [done| |done].
    assert (zlen fs' = zlen fs) as El by (unfold zlen; lia). rewrite <- El in Hh, Lf |- *.
    apply block_at_intro; [done|lia|done|done].
Qed.

(** ** The round trip *)

(** the memory of a reader: words below [h_next], where blocks are allocated *)
Definition heap_ok (h : heap) : Prop :=
  (forall a x, h_mem h !! a = Some x -> a < h_next h) /\ Is_long (h_next h) = false.

Section RoundTrip.
Context {T : Type} `{PositionTable T}.
Context (m : mem) (custom_ops : Z -> custom_operations)
  (code_fragment : Z -> option (Z * option (list Z))).
Context (Atom : Z -> Z) (find_custom : list Z -> option custom_reader)
  (find_fragment : list Z -> option (Z * Z)) (function_placeholder : option Z)
  (fresh_oo_id : Z -> Z * Z).

#[local] Abbreviation output_value := (caml_output_value_to_bytes (T := T) m custom_ops code_fragment).
#[local] Abbreviation input_value := (caml_input_val_from_bytes Atom find_custom find_fragment
  function_placeholder fresh_oo_id).
#[local] Abbreviation read_back := (read_back m Atom find_custom find_fragment
  function_placeholder fresh_oo_id).

Lemma flag_start flags f :
  Z.land (Z.lnot COMPRESSED) f = f -> Z.land flags f = 0 ->
  flag (extern_start (T := T) flags init_extern_output) f = false.
Proof.
  intros Hf H0. unfold flag, extern_start. cbn [extern_flags].
  by rewrite <- Z.land_assoc, Hf, H0.
Qed.

Lemma EInv_start objs flags :
  Z.land flags NO_SHARING = 0 -> Z.land flags COMPAT_32 = 0 ->
  EInv m objs (extern_start (T := T) flags init_extern_output) [] objs.
Proof.
  intros Hn Hc. split; try done.
  - split; [done|by apply flag_start|by apply flag_start|].
    unfold flag, extern_start. cbn [extern_flags]. by rewrite <- Z.land_assoc, Z.land_0_r.
  - exists ∅. split; [apply pt_init_rep|]. split; [done|]. intros o p. rewrite lookup_empty.
    split; [done|]. intros [_ E]. by rewrite lookup_nil in E.
Qed.

(** the reader at the start, with the sizes of the header *)
Lemma IInv_start objs (s : extern_state T) seen rest h obj oid v src w :
  graph m objs -> EInv m objs s seen rest -> heap_ok h -> h_mem h !! obj = Some w ->
  let t := intern_alloc_storage (intern_init src h oid) (size_64 s) (obj_counter s) in
  IInv m Atom (h_next h) (zlen seen) (words m seen) (v, obj) (delete obj (h_mem h)) t [] []
    [(v, obj)] /\ intern_src t = src /\ intern_stack_size t = INTERN_STACK_INIT_SIZE.
Proof.
  intros Hg I [Hb He] Hw. cbv zeta. rewrite (ei_size _ _ _ _ _ I), (ei_counter _ _ _ _ _ I).
  set (t := intern_alloc_storage _ _ _).
  assert (G : intern_heap t = h /\ intern_src t = src /\ intern_stack_size t = INTERN_STACK_INIT_SIZE)
    by (unfold t, intern_alloc_storage; by destruct (words m seen =? 0)).
  destruct G as (Gh & Gs & Gk). split_and!; [|done|done]. split.
  - unfold t, intern_alloc_storage. destruct (Z.eqb_spec (words m seen) 0) as [E|E].
    + right. split_and!; [done| |done]. destruct seen as [|o seen]; [done|].
      assert (Ho : o ∈ objs) by (rewrite (ei_split _ _ _ _ _ I); by left).
      destruct (graph_blocks _ _ Hg o Ho) as (tag & fs & Hp & _). cbn [words foldr] in E.
      rewrite (plain_block_words _ _ _ _ Hp) in E. pose proof (zlen_nonneg fs).
      pose proof (words_nonneg m seen) as Hs. unfold words in Hs. lia.
    + cbn [intern_obj_table]. destruct (Z.ltb_spec 0 (zlen seen)) as [L|L]; [by left|right].
      pose proof (zlen_nonneg seen). split_and!; [done|lia|done].
  - unfold t, intern_alloc_storage. cbn [words foldr]. rewrite Z.sub_0_r.
    destruct (words m seen =? 0); [by left|]. cbn [intern_dest].
    destruct ((_ <=? _) && _); [by right|by left].
  - rewrite Gk. done.
  - rewrite Gh. exists [(v, obj)], (delete obj (h_mem h)). split_and!; [|by left|done]. split.
    + apply NoDup_singleton.
    + exists []. split; [done|]. by intros x a ?%elem_of_nil.
    + intros x a [= -> ->]%list_elem_of_singleton. rewrite Hw, lookup_delete_eq. by split.
    + apply delete_subseteq.
    + done.
    + done.
    + done.
    + split_and!; [constructor|lia|constructor].
    + done.
Qed.

(** C1: Marshaling and unmarshaling are inverse, sharing and cycles included.  Take a
    graph of blocks whose values are integers, atoms and blocks of the graph, each block
    a string, a float, a float array below [2 ^ 32] elements, or a block of scanned
    fields (with a tag that has no treatment of its own), fewer than [2 ^ 25] blocks in
    all; and any position table that implements [PositionTable].  Then
    [caml_output_value_to_bytes], without the flags for no sharing and for 32-bit
    compatibility, succeeds on every value of the graph; and [caml_input_val_from_bytes]
    on these bytes, wherever they are in the buffer and whatever surrounds them,
    succeeds, reads exactly these bytes, changes no word of the memory but its local
    variable, and returns a copy of the value: fresh blocks in one-to-one correspondence
    with the blocks reachable from the value, of the same tags, sizes and contents.
    Both loops end within one turn for each word of the graph. *)
Theorem marshal_round_trip objs v flags fuel :
  graph m objs -> zlen objs < max_blocks -> words m objs < 2 ^ 61 -> good_value m objs v ->
  Z.land flags NO_SHARING = 0 -> Z.land flags COMPAT_32 = 0 -> words m objs < Z.of_nat fuel ->
  exists bytes, output_value fuel v flags = Ok bytes /\
    forall pre post h obj w oid fuel',
      zlen (pre ++ bytes ++ post) < 2 ^ 63 -> heap_ok h -> h_mem h !! obj = Some w ->
      words m objs < Z.of_nat fuel' ->
      exists y t, input_value fuel' (pre ++ bytes ++ post) (zlen pre) obj h oid = Ok (y, t) /\
        is_copy m Atom (h_mem (intern_heap t)) (h_next h) v y /\ intern_src t = post /\
        forall a x, a <> obj -> h_mem h !! a = Some x -> h_mem (intern_heap t) !! a = Some x.
Proof.
  intros Hg Hc Hw Hv Hn Hf Hfuel. set (n := S (Z.to_nat (words m objs))).
  destruct (lockstep m custom_ops code_fragment Atom find_custom find_fragment
    function_placeholder fresh_oo_id objs Hg Hc Hw n (extern_start flags init_extern_output)
    [] objs [] v [] []) as (s & seen & rest & bs & EL & I & EC & _ & _ & RB);
    [by apply EInv_start|done|apply Forall2_nil; constructor|done|unfold count, zlen, n; cbn [add_pending concat length]; lia|].
  pose proof (EInv_words _ _ _ _ _ I) as Ew. pose proof (EInv_count _ _ _ _ _ I) as Ec.
  pose proof (words_nonneg m rest). pose proof (words_nonneg m seen).
  pose proof (zlen_nonneg rest). pose proof (zlen_nonneg seen). unfold max_blocks in Hc.
  assert (EH : exists header, extern_value_header s = Ok header).
  { unfold extern_value_header. rewrite (wr_compat _ (ei_writable _ _ _ _ _ I)).
    destruct (_ || _); by eexists. }
  destruct EH as [header EH]. exists (header ++ bs). split.
  { unfold caml_output_value_to_bytes, extern_value. rewrite EL by (unfold n; lia). cbn [rbind].
    rewrite EH. cbn [rbind]. by rewrite EC. }
  intros pre post h obj w oid fuel' L Hh Ho Hfuel'. cbn in EC.
  rewrite !zlen_app in L. pose proof (zlen_nonneg pre). pose proof (zlen_nonneg post).
  pose proof (zlen_nonneg header). pose proof (zlen_nonneg bs).
  destruct (value_header_parsed s header EH) as (hdr & (Lh & Lh' & Ld & Ln & Lw & Lc) & EP);
    [rewrite EC; unfold is_u64; lia|rewrite (ei_size _ _ _ _ _ I); unfold is_u64; lia
    |rewrite (ei_counter _ _ _ _ _ I); lia|].
  rewrite EC in Ld. unfold caml_input_val_from_bytes.
  assert (drop (Z.to_nat (zlen pre)) (pre ++ (header ++ bs) ++ post) = header ++ bs ++ post) as ->
    by (unfold zlen; by rewrite Nat2Z.id, drop_app_length, app_assoc).
  rewrite EP. cbn [rbind].
  rewrite Ld, Ln, Lw. rewrite !zlen_app, u64_id by (unfold is_u64; lia).
  rewrite (proj2 (Z.ltb_ge _ _)) by lia.
  unfold intern_decompress_input. rewrite Lc. cbn [rbind].
  assert (Z.to_nat (header_len hdr) = length header) as -> by (unfold zlen in *; lia).
  rewrite drop_app_length.
  destruct (IInv_start objs s seen rest h obj oid v (bs ++ post) w Hg I Hh Ho) as (I0 & Hsrc & Hk).
  set (t := intern_alloc_storage _ _ _) in *. unfold intern_rec, ReadItems, PushItem.
  rewrite Hk. change (INTERN_STACK_INIT_SIZE <=? zlen [] + 1) with false. cbn [Z.ltb Z.compare rbind].
  destruct (RB (h_next h) (zlen seen) (words m seen) (v, obj) (delete obj (h_mem h)) t [] obj [] []
    post fuel') as (t' & dsts & EI & [_ _ _ (cells & fixed & MI & Hr & Hfr)] & Hsrc');
    [unfold max_blocks; lia|lia|lia|done|constructor|done|unfold n; lia|].
  change (zlen [v]) with 1 in EI. rewrite EI. cbn [rbind]. assert (Hs : NoDup seen) by
    (pose proof (EInv_nodup _ _ Hg _ _ _ I) as N; by apply NoDup_app in N as (N & _)).
  destruct (mem_inv_copy _ _ _ _ _ _ _ _ _ _ Hs MI Hr) as (y & Ey & Cy).
  exists y, t'. unfold load. rewrite Ey. split_and!; [done|done|done|].
  intros a x Ha Hx. eapply lookup_weaken; [|by eapply mi_fixed].
  eapply lookup_weaken; [|exact Hfr]. by rewrite lookup_delete_ne.
Qed.
End RoundTrip.

(** ** An example: a string shared by two fields of a block that contains itself *)

Definition demo_string : Z := s64 (le_word [97; 98; 99; 0; 0; 0; 0; 4]).
Definition demo_mem : mem :=
  store_words (store_words ∅ 8 [Make_header 4 0; 7; 64; 16; 64]) 56
    [Make_header 1 String_tag; demo_string].

(** the block at 16 is written as 0xC0 (tag 0, 4 fields), 0x43 (the integer 3), 0x23
    (a string of 3 bytes) and references to the first block and to the string *)
Example demo_bytes :
  caml_output_value_to_bytes demo_mem (fun _ => CustomOperations [] None None) (fun _ => None) 20 16 0
  = Ok ([0x84; 0x95; 0xA6; 0xBE; 0; 0; 0; 10; 0; 0; 0; 2; 0; 0; 0; 7; 0; 0; 0; 7]
        ++ [0xC0; 0x43; 0x23; 97; 98; 99; 4; 2; 4; 1]).
Proof. vm_compute. reflexivity. Qed.

#[local] Abbreviation demo_output := (caml_output_value_to_bytes demo_mem
  (fun _ => CustomOperations [] None None) (fun _ => None) 20 16 0).
#[local] Abbreviation demo_input fuel str ofs obj h oid := (caml_input_val_from_bytes
  (fun _ => 0) (fun _ => None) (fun _ => None) None (fun n => (n, n + 2)) fuel str ofs obj h oid).

Lemma demo_graph : graph demo_mem [16; 64].
Proof.
  split; [apply (bool_decide_unpack _); vm_compute; exact I|].
  assert (Hs : forall x, In x [7; 64; 16; 64; demo_string] -> is_s64 x).
  { unfold is_s64. intros x Hx. vm_compute in Hx. naive_solver lia. }
  assert (H64 : plain_block demo_mem 64 String_tag [demo_string]).
  { split; [|done|]; [exists (Make_header 1 String_tag); by vm_compute|].
    split; [done|]. constructor; [apply Hs; simpl; tauto|done]. }
  assert (H16 : plain_block demo_mem 16 0 [7; 64; 16; 64]).
  { split; [|done|]; [exists (Make_header 4 0); by vm_compute|].
    split; [done|]. repeat (constructor; [apply Hs; simpl; tauto|]). done. }
  intros o [->|[->|[]%elem_of_nil]%elem_of_cons]%elem_of_cons.
  - exists 0, [7; 64; 16; 64]. split; [done|]. right. split; [done|].
    constructor; [left; split; [done|apply Hs; simpl; tauto]|].
    repeat (constructor; [right; right; apply list_elem_of_In; simpl; tauto|]). constructor.
  - exists String_tag, [demo_string]. split; [done|]. left. left. split; [done|].
    exists [97; 98; 99]. split; [constructor; [apply Hs; simpl; tauto|constructor]|].
    split; [|by vm_compute]. apply (bool_decide_unpack _). vm_compute. exact I.
Qed.

Lemma marshal_round_trip_witness :
  exists bytes y t, demo_output = Ok bytes /\
    demo_input 20 ([1; 2] ++ bytes ++ [3]) 2 0 (Heap {[ 0 := 1 ]} 8) 0 = Ok (y, t) /\
    is_copy demo_mem (fun _ => 0) (h_mem (intern_heap t)) 8 16 y /\ intern_src t = [3].
Proof.
  destruct (marshal_round_trip demo_mem (fun _ => CustomOperations [] None None) (fun _ => None)
    (fun _ => 0) (fun _ => None) (fun _ => None) None (fun n => (n, n + 2)) [16; 64] 16 0 20)
    as (bytes & E & RB).
  - apply demo_graph.
  - reflexivity.
  - reflexivity.
  - right. right. by left.
  - reflexivity.
  - reflexivity.
  - reflexivity.
  - destruct (RB [1; 2] [3] (Heap {[ 0 := 1 ]} 8) 0 1 0 20%nat) as (y & t & E' & C & S & _).
    + rewrite demo_bytes in E. injection E as <-. reflexivity.
    + split; [|reflexivity]. intros a x. cbn [h_mem h_next].
      intros [<- <-]%lookup_singleton_Some. reflexivity.
    + reflexivity.
    + reflexivity.
    + exists bytes, y, t. split; [exact E|]. split; [exact E'|]. split; [exact C|exact S].
Defined.

Lemma marshal_data_size_witness :
  caml_marshal_data_size ([1; 2] ++ ([0x84; 0x95; 0xA6; 0xBE; 0; 0; 0; 10; 0; 0; 0; 2; 0; 0; 0; 7; 0; 0; 0; 7]
        ++ [0xC0; 0x43; 0x23; 97; 98; 99; 4; 2; 4; 1]) ++ [3]) (Val_long 2) = Ok (Val_long 14).
Proof.
  destruct (marshal_data_size demo_mem (fun _ => CustomOperations [] None None) (fun _ => None)
    20 16 0 _ [1; 2] [3] demo_bytes) as [E _]; [reflexivity|exact E].
Defined.
