(* ===== verification/Compare.v ===== *)
(** * Polymorphic comparison ([compare.c])

    [do_compare_val] compares two values depth first, with an explicit stack of the
    blocks whose remaining fields are still to be compared; the tests of the language
    ([caml_compare], [caml_equal], [caml_lessthan], ...) interpret its result.

    Doubles are their 64 bits, compared as IEEE 754 numbers.  Custom blocks compare with
    the functions of their operations, a parameter; so are the pending actions (signal
    handlers, finalisers) that the loop polls for, of which the model keeps whether they
    raise an exception.  Memory to grow the stack is available up to its limit (where it is
    not, the code raises [Out_of_memory], as it does at the limit). *)

From S2P Require Import Prelude.
From S2P Require Import Mlvalues.
From S2P Require Import Str.
From S2P Require Import Memory.
#[local] Open Scope Z_scope.

Definition COMPARE_STACK_INIT_SIZE : Z := 8.
Definition COMPARE_STACK_MIN_ALLOC_SIZE : Z := 32.
Definition COMPARE_STACK_MAX_SIZE : Z := 1024 * 1024.
Definition COMPARE_POLL_PERIOD : Z := 1024.

Definition LESS : Z := -1.
Definition EQUAL : Z := 0.
Definition GREATER : Z := 1.
Definition UNORDERED : Z := s64 (Z.shiftl 1 (8 * 8 - 1)).

Record compare_item := CompareItem { item_v1 : Z; item_v2 : Z; offset : Z; item_size : Z }.

(** ** Doubles *)

Definition is_nan (d : Z) : bool := 0x7FF0000000000000 <? d mod 2 ^ 63.
(** the doubles that are not NaN, in order; both zeros at 0 *)
Definition float_key (d : Z) : Z := if d <? 2 ^ 63 then d else - (d - 2 ^ 63).
(** d1 < d2 and d1 == d2 in C *)
Definition float_lt (d1 d2 : Z) : bool := negb (is_nan d1) && negb (is_nan d2) && (float_key d1 <? float_key d2).
Definition float_eq (d1 d2 : Z) : bool := negb (is_nan d1) && negb (is_nan d2) && (float_key d1 =? float_key d2).

(** a comparison decided, or equal so far *)
Definition compare_doubles (total : bool) (d1 d2 : Z) : option Z :=
  if float_lt d1 d2 then Some LESS
  else if float_lt d2 d1 then Some GREATER
  else if negb (float_eq d1 d2) then
    if negb total then Some UNORDERED
    else if float_eq d1 d1 then Some GREATER
    else if float_eq d2 d2 then Some LESS
    else None
  else None.

(** [strcmp] *)
Fixpoint strcmp (p q : list Z) : Z :=
  match p, q with
  | [], [] => 0
  | [], _ => -1
  | _, [] => 1
  | a :: p, b :: q => if a =? b then strcmp p q else if a <? b then -1 else 1
  end.

(** the operations of a custom block: the identifier, and the [compare] and
    [compare_ext] functions as numbers, 0 for NULL *)
Record custom_compare := CustomCompare { identifier : list Z; compare_fn : Z; compare_ext : Z }.

(** what comes after a turn of the loop *)
Inductive compare_next :=
  | Again (v1 v2 : Z) (limit : Z) (stack : list compare_item)
  | NextItem
  | Return (res : Z).

Section Compare.
Context (m : mem).
(** [Custom_ops_val], and the call of a comparison function: its result (an [int]) and
    whether it sets [Caml_state->compare_unordered] *)
Context (custom_ops : Z -> custom_compare) (call : Z -> Z -> Z -> Z * bool).
(** the exception raised by the actions pending at the n-th poll, if any *)
Context (pending_actions : Z -> option exn).

Definition compare_resize_stack (limit : Z) : result Z :=
  if limit =? COMPARE_STACK_INIT_SIZE then Ok COMPARE_STACK_MIN_ALLOC_SIZE
  else
    let newsize := 2 * limit in
    if COMPARE_STACK_MAX_SIZE <=? newsize then Raise Out_of_memory else Ok newsize.

(** the comparison of custom blocks with the function [f] *)
Definition call_compare (f v1 v2 : Z) (total : bool) : compare_next :=
  let (res, unordered) := call f v1 v2 in
  if unordered && negb total then Return UNORDERED
  else if negb (res =? 0) then Return res else NextItem.

(** a long [v1] and a block [v2], or the converse: [ext v] when [v] is custom *)
Definition compare_long_block (limit : Z) (stack : list compare_item) (v1 v2 : Z) (total : bool)
    : result compare_next :=
  let* t := Tag_val m v2 in
  if t =? Forward_tag then let* f := Forward_val m v2 in Ok (Again v1 f limit stack)
  else if t =? Custom_tag then
    let* ops := rmap custom_ops (Field m v2 0) in
    Ok (if compare_ext ops =? 0 then Return LESS else call_compare (compare_ext ops) v1 v2 total)
  else Ok (Return LESS).
Definition compare_block_long (limit : Z) (stack : list compare_item) (v1 v2 : Z) (total : bool)
    : result compare_next :=
  let* t := Tag_val m v1 in
  if t =? Forward_tag then let* f := Forward_val m v1 in Ok (Again f v2 limit stack)
  else if t =? Custom_tag then
    let* ops := rmap custom_ops (Field m v1 0) in
    Ok (if compare_ext ops =? 0 then Return GREATER else call_compare (compare_ext ops) v1 v2 total)
  else Ok (Return GREATER).

Definition compare_strings (v1 v2 : Z) : result compare_next :=
  if v1 =? v2 then Ok NextItem else
  let* s1 := block_bytes m v1 in
  let* s2 := block_bytes m v2 in
  let* len1 := caml_string_length s1 in
  let* len2 := caml_string_length s2 in
  let* res := memcmp (Z.to_nat (if len1 <=? len2 then len1 else len2)) s1 s2 in
  Ok (if res <? 0 then Return LESS
      else if 0 <? res then Return GREATER
      else if negb (len1 =? len2) then Return (s64 (len1 - len2)) else NextItem).

Definition compare_floats (v1 v2 : Z) (total : bool) : result compare_next :=
  let* d1 := Double_flat_field m v1 0 in
  let* d2 := Double_flat_field m v2 0 in
  Ok (match compare_doubles total d1 d2 with Some r => Return r | None => NextItem end).

(** elements [i], ..., [i + n - 1] *)
Fixpoint compare_float_arrays (n : nat) (v1 v2 i : Z) (total : bool) : result compare_next :=
  match n with
  | O => Ok NextItem
  | S n =>
      let* d1 := Double_flat_field m v1 i in
      let* d2 := Double_flat_field m v2 i in
      match compare_doubles total d1 d2 with
      | Some r => Ok (Return r)
      | None => compare_float_arrays n v1 v2 (i + 1) total
      end
  end.

Definition compare_customs (v1 v2 : Z) (total : bool) : result compare_next :=
  let* ops1 := rmap custom_ops (Field m v1 0) in
  let* ops2 := rmap custom_ops (Field m v2 0) in
  if negb (compare_fn ops1 =? compare_fn ops2)
  then Ok (Return (if strcmp (identifier ops1) (identifier ops2) <? 0 then LESS else GREATER))
  else if compare_fn ops1 =? 0 then Raise (Invalid_argument "compare: abstract value")
  else Ok (call_compare (compare_fn ops1) v1 v2 total).

Definition compare_fields (limit : Z) (stack : list compare_item) (v1 v2 : Z) : result compare_next :=
  let* sz1 := Wosize_val m v1 in
  let* sz2 := Wosize_val m v2 in
  if negb (sz1 =? sz2) then Ok (Return (s64 (sz1 - sz2)))
  else if sz1 =? 0 then Ok NextItem else
  let* (limit, stack) :=
    if 1 <? sz1 then
      let* limit := if limit <=? zlen stack then compare_resize_stack limit else Ok limit in
      Ok (limit, CompareItem v1 v2 (Val_long 1) (Val_long sz1) :: stack)
    else Ok (limit, stack) in
  let* x1 := Field m v1 0 in
  let* x2 := Field m v2 0 in
  Ok (Again x1 x2 limit stack).

(** two blocks *)
Definition compare_blocks (limit : Z) (stack : list compare_item) (v1 v2 : Z) (total : bool)
    : result compare_next :=
  let* t1 := Tag_val m v1 in
  let* t2 := Tag_val m v2 in
  if negb (t1 =? t2) && (t1 =? Forward_tag) then
    let* f := Forward_val m v1 in Ok (Again f v2 limit stack)
  else if negb (t1 =? t2) && (t2 =? Forward_tag) then
    let* f := Forward_val m v2 in Ok (Again v1 f limit stack)
  else
    let u1 := if negb (t1 =? t2) && (t1 =? Infix_tag) then Closure_tag else t1 in
    let u2 := if negb (t1 =? t2) && (t2 =? Infix_tag) then Closure_tag else t2 in
    if negb (u1 =? u2) then Ok (Return (u1 - u2)) else
    let* r1 := Reserved_val m v1 in
    let* r2 := Reserved_val m v2 in
    if Is_mixed_block_reserved r1 || Is_mixed_block_reserved r2
    then Raise (Invalid_argument "compare: mixed block value")
    else if u1 =? Forward_tag then
      let* f1 := Forward_val m v1 in
      let* f2 := Forward_val m v2 in
      Ok (Again f1 f2 limit stack)
    else if u1 =? String_tag then compare_strings v1 v2
    else if u1 =? Double_tag then compare_floats v1 v2 total
    else if u1 =? Double_array_tag then
      let* sz1 := Wosize_val m v1 in
      let* sz2 := Wosize_val m v2 in
      if negb (sz1 =? sz2) then Ok (Return (s64 (sz1 - sz2)))
      else compare_float_arrays (Z.to_nat sz1) v1 v2 0 total
    else if u1 =? Abstract_tag then Raise (Invalid_argument "compare: abstract value")
    else if (u1 =? Closure_tag) || (u1 =? Infix_tag)
    then Raise (Invalid_argument "compare: functional value")
    else if u1 =? Cont_tag then Raise (Invalid_argument "compare: continuation value")
    else if u1 =? Object_tag then
      let* oid1 := Oid_val m v1 in
      let* oid2 := Oid_val m v2 in
      Ok (if negb (oid1 =? oid2) then Return (oid1 - oid2) else NextItem)
    else if u1 =? Custom_tag then compare_customs v1 v2 total
    else compare_fields limit stack v1 v2.

(** the body of the inner loop, up to next_item *)
Definition compare_step (limit : Z) (stack : list compare_item) (v1 v2 : Z) (total : bool)
    : result compare_next :=
  if (v1 =? v2) && total then Ok NextItem
  else if Is_long v1 then
    if v1 =? v2 then Ok NextItem
    else if Is_long v2 then Ok (Return (Long_val v1 - Long_val v2))
    else compare_long_block limit stack v1 v2 total
  else if Is_long v2 then compare_block_long limit stack v1 v2 total
  else compare_blocks limit stack v1 v2 total.

(** next_item: *)
Definition compare_pop (i : compare_item) (stack : list compare_item)
    : result (Z * Z * list compare_item) :=
  let* v1 := Field m (item_v1 i) (Long_val (offset i)) in
  let* v2 := Field m (item_v2 i) (Long_val (offset i)) in
  let o := offset i + 2 in
  Ok (v1, v2, if o =? item_size i then stack
              else CompareItem (item_v1 i) (item_v2 i) o (item_size i) :: stack).

(** while (--poll_timer > 0), and the poll when it is over: the timer for the turn, and
    the number of polls so far *)
Definition poll (timer polls : Z) : result (Z * Z) :=
  if 0 <? timer - 1 then Ok (timer - 1, polls)
  else match pending_actions polls with
       | Some e => Raise e
       | None => Ok (COMPARE_POLL_PERIOD - 1, polls + 1)
       end.

Fixpoint do_compare_val (fuel : nat) (limit : Z) (stack : list compare_item) (v1 v2 : Z)
    (total : bool) (timer polls : Z) {struct fuel} : result Z :=
  match fuel with
  | O => NoFuel
  | S fuel =>
      let* (timer, polls) := poll timer polls in
      let* n := compare_step limit stack v1 v2 total in
      match n with
      | Return res => Ok res
      | Again v1 v2 limit stack => do_compare_val fuel limit stack v1 v2 total timer polls
      | NextItem =>
          match stack with
          | [] => Ok EQUAL
          | i :: stack =>
              let* (v1, v2, stack) := compare_pop i stack in
              do_compare_val fuel limit stack v1 v2 total timer polls
          end
      end
  end.

Definition compare_val (fuel : nat) (v1 v2 : Z) (total : bool) : result Z :=
  do_compare_val fuel COMPARE_STACK_INIT_SIZE [] v1 v2 total COMPARE_POLL_PERIOD 0.

Definition caml_compare (fuel : nat) (v1 v2 : Z) : result Z :=
  let* res := compare_val fuel v1 v2 true in
  Ok (if res <? 0 then Val_int LESS else if 0 <? res then Val_int GREATER else Val_int EQUAL).
Definition caml_equal (fuel : nat) (v1 v2 : Z) : result Z :=
  let* res := compare_val fuel v1 v2 false in Ok (Val_bool (res =? 0)).
Definition caml_notequal (fuel : nat) (v1 v2 : Z) : result Z :=
  let* res := compare_val fuel v1 v2 false in Ok (Val_bool (negb (res =? 0))).
Definition caml_lessthan (fuel : nat) (v1 v2 : Z) : result Z :=
  let* res := compare_val fuel v1 v2 false in Ok (Val_bool ((res <? 0) && negb (res =? UNORDERED))).
Definition caml_lessequal (fuel : nat) (v1 v2 : Z) : result Z :=
  let* res := compare_val fuel v1 v2 false in Ok (Val_bool ((res <=? 0) && negb (res =? UNORDERED))).
Definition caml_greaterthan (fuel : nat) (v1 v2 : Z) : result Z :=
  let* res := compare_val fuel v1 v2 false in Ok (Val_bool (0 <? res)).
Definition caml_greaterequal (fuel : nat) (v1 v2 : Z) : result Z :=
  let* res := compare_val fuel v1 v2 false in Ok (Val_bool (0 <=? res)).

End Compare.
