(* ===== verification/CompareSpec.v ===== *)
(** * The order that polymorphic comparison computes

    [compare_trees] compares the trees that values stand for; [compare_tree_total] says
    that it is a total preorder.  [rep v t n] says that the value [v] of the memory stands
    for the tree [t] (shared blocks are unfolded, forwarding blocks followed; [n] bounds
    the turns of the loop that visit it).  The loop of [compare.c] computes the order of
    the trees. *)

From S2P Require Import Prelude.
From S2P Require Import Mlvalues.
From S2P Require Import Str.
From S2P Require Import Memory.
From S2P Require Import Compare.
#[local] Open Scope Z_scope.

(** ** The order on trees *)

Inductive tree :=
  | Int (n : Z)
  | Block (tag : Z) (ts : list tree)
  | Object (oid : Z)
  | Str (s : list Z)
  | Float (d : Z)
  | Floats (ds : list Z).

(** a comparison; [None]: the values cannot be ordered *)
Definition order : Type := option comparison.

Definition seq (r k : order) : order := match r with Some Eq => k | _ => r end.

Definition compare_float (total : bool) (d1 d2 : Z) : order :=
  if is_nan d1 || is_nan d2 then
    if total then Some (if is_nan d1 then if is_nan d2 then Eq else Lt else Gt) else None
  else Some (float_key d1 ?= float_key d2).

Section Lists.
Context {A : Type} (c : A -> A -> order).

Fixpoint compare_lists (l1 l2 : list A) : order :=
  match l1, l2 with
  | x1 :: l1, x2 :: l2 => seq (c x1 x2) (compare_lists l1 l2)
  | _, _ => Some Eq
  end.

(** the lengths first *)
Definition compare_arrays (l1 l2 : list A) : order :=
  seq (Some (zlen l1 ?= zlen l2)) (compare_lists l1 l2).
End Lists.

Definition tag_of (t : tree) : Z :=
  match t with
  | Int _ => -1
  | Block tag _ => tag
  | Object _ => Object_tag
  | Str _ => String_tag
  | Float _ => Double_tag
  | Floats _ => Double_array_tag
  end.

Fixpoint compare_trees (total : bool) (t1 t2 : tree) : order :=
  match t1, t2 with
  | Int a, Int b => Some (a ?= b)
  | Block g1 ts1, Block g2 ts2 =>
      seq (Some (g1 ?= g2)) (compare_arrays (compare_trees total) ts1 ts2)
  | Object a, Object b => Some (a ?= b)
  | Str s1, Str s2 => Some (lex_compare s1 s2)
  | Float d1, Float d2 => compare_float total d1 d2
  | Floats ds1, Floats ds2 => compare_arrays (compare_float total) ds1 ds2
  | _, _ => Some (tag_of t1 ?= tag_of t2)
  end.

(** the tags of blocks compared field by field *)
Definition struct_tag (tag : Z) : bool := (0 <=? tag) && (tag <=? Lazy_tag) && negb (tag =? Cont_tag).

Fixpoint wf_tree (t : tree) : bool :=
  match t with Block tag ts => struct_tag tag && forallb wf_tree ts | _ => true end.

Section TreeInd.
Context (P : tree -> Prop).
Context (HInt : forall n, P (Int n)) (HBlock : forall tag ts, Forall P ts -> P (Block tag ts)).
Context (HObject : forall o, P (Object o)) (HStr : forall s, P (Str s)).
Context (HFloat : forall d, P (Float d)) (HFloats : forall ds, P (Floats ds)).

Fixpoint tree_nested_ind (t : tree) : P t :=
  match t with
  | Int n => HInt n
  | Block tag ts => HBlock tag ts
      ((fix go (ts : list tree) : Forall P ts :=
          match ts with
          | [] => Forall_nil_2 P
          | t :: ts => Forall_cons_2 P t ts (tree_nested_ind t) (go ts)
          end) ts)
  | Object o => HObject o
  | Str s => HStr s
  | Float d => HFloat d
  | Floats ds => HFloats ds
  end.
End TreeInd.

(** ** A total preorder *)

(** the comparison reads the two trees in step, as sequences of integers *)
Definition float_keys (d : Z) : list Z := if is_nan d then [0] else [1; float_key d].

Fixpoint keys (t : tree) : list Z :=
  match t with
  | Int n => [-1; n]
  | Block tag ts => tag :: zlen ts :: concat (map keys ts)
  | Object oid => [Object_tag; oid]
  | Str s => String_tag :: concat (map (fun b => [1; b]) s) ++ [0]
  | Float d => Double_tag :: float_keys d
  | Floats ds => Double_array_tag :: zlen ds :: concat (map float_keys ds)
  end.

Lemma seq_Eq r : seq r (Some Eq) = r.
Proof. by destruct r as [[]|]. Qed.

Lemma seq_assoc a b c : seq (seq a b) c = seq a (seq b c).
Proof. by destruct a as [[]|]. Qed.

(** [c] is the order of the sequences [f x], on the elements where [P] holds *)
Definition ordered_by {A} (P : A -> bool) (c : A -> A -> order) (f : A -> list Z) (x : A) : Prop :=
  forall y k1 k2, P y = true ->
    Some (lex_compare (f x ++ k1) (f y ++ k2)) = seq (c x y) (Some (lex_compare k1 k2)).

Lemma lex_compare_cons a b s1 s2 :
  Some (lex_compare (a :: s1) (b :: s2)) = seq (Some (a ?= b)) (Some (lex_compare s1 s2)).
Proof. simpl. by destruct (a ?= b). Qed.

Lemma ordered_by_float d : ordered_by (fun _ => true) (compare_float true) float_keys d.
Proof.
  intros d' k1 k2 _. unfold float_keys, compare_float.
  destruct (is_nan d), (is_nan d'); try done. simpl. by destruct (_ ?= _).
Qed.

Lemma ordered_by_arrays {A} P (c : A -> A -> order) f l1 :
  Forall (ordered_by P c f) l1 -> forall l2 k1 k2, forallb P l2 = true ->
  Some (lex_compare (zlen l1 :: concat (map f l1) ++ k1) (zlen l2 :: concat (map f l2) ++ k2)) =
    seq (compare_arrays c l1 l2) (Some (lex_compare k1 k2)).
Proof.
  intros H l2 k1 k2 HP. unfold compare_arrays. rewrite lex_compare_cons, seq_assoc.
  destruct (Z.compare_spec (zlen l1) (zlen l2)) as [E| |]; [|done..]. cbn [seq].
  revert l2 E HP. induction H as [|x l1 Hx _ IH]; intros [|y l2] E HP; rewrite ?zlen_cons in E;
    try (unfold zlen in E; simpl in E; lia); [done|].
  cbn [forallb] in HP. apply andb_true_iff in HP as [Hy HP].
  cbn [map concat compare_lists]. rewrite <- !app_assoc, (Hx y), seq_assoc, <- IH by (lia || done).
  done.
Qed.

Lemma lex_compare_strings s1 : forall s2 k1 k2,
  Some (lex_compare ((concat (map (fun b => [1; b]) s1) ++ [0]) ++ k1)
                    ((concat (map (fun b => [1; b]) s2) ++ [0]) ++ k2)) =
    seq (Some (lex_compare s1 s2)) (Some (lex_compare k1 k2)).
Proof.
  induction s1 as [|a s1 IH]; intros [|b s2] k1 k2; try done. specialize (IH s2 k1 k2).
  cbn [map concat app]. rewrite !lex_compare_cons, IH, Z.compare_refl.
  cbn [lex_compare seq]. by destruct (a ?= b).
Qed.

Lemma keys_head t k : exists s, keys t ++ k = tag_of t :: s.
Proof. destruct t; by eexists. Qed.

(** trees of different tags *)
Lemma lex_compare_tags t1 t2 k1 k2 :
  tag_of t1 <> tag_of t2 ->
  Some (lex_compare (keys t1 ++ k1) (keys t2 ++ k2)) =
    seq (Some (tag_of t1 ?= tag_of t2)) (Some (lex_compare k1 k2)).
Proof.
  intros N. destruct (keys_head t1 k1) as [s1 ->], (keys_head t2 k2) as [s2 ->].
  rewrite lex_compare_cons. destruct (Z.compare_spec (tag_of t1) (tag_of t2)); done.
Qed.

(** the tags of well-formed trees tell the constructors apart *)
Lemma block_tag_other tag ts t :
  wf_tree (Block tag ts) = true -> (forall g us, t <> Block g us) ->
  tag_of (Block tag ts) <> tag_of t.
Proof.
  cbn [wf_tree]. unfold struct_tag, Lazy_tag. intros H N.
  destruct t; cbn [tag_of]; unfold Object_tag, String_tag, Double_tag, Double_array_tag; try lia.
  by edestruct N.
Qed.

Lemma compare_trees_keys t : wf_tree t = true -> ordered_by wf_tree (compare_trees true) keys t.
Proof.
  induction t as [n|tag ts IH|o|s|d|ds] using tree_nested_ind; intros Ht t2 k1 k2 Ht2;
    (destruct t2 as [n2|tag2 ts2|o2|s2|d2|ds2]; try (apply lex_compare_tags; done);
     try (apply lex_compare_tags; by apply block_tag_other);
     try (apply lex_compare_tags, not_eq_sym; by apply block_tag_other)).
  - cbn [keys app compare_trees]. by rewrite !lex_compare_cons, Z.compare_refl.
  - cbn [keys compare_trees]. rewrite <- !app_comm_cons, lex_compare_cons, seq_assoc.
    cbn [wf_tree] in Ht, Ht2. apply andb_true_iff in Ht as [_ Ht], Ht2 as [_ Ht2].
    rewrite (ordered_by_arrays wf_tree (compare_trees true)); [done| |done].
    apply Forall_forall. intros x Hx. rewrite Forall_forall in IH. apply IH; [done|].
    rewrite forallb_forall in Ht. apply Ht. by apply list_elem_of_In.
  - cbn [keys app compare_trees]. by rewrite !lex_compare_cons, Z.compare_refl.
  - cbn [keys compare_trees]. rewrite <- !app_comm_cons, lex_compare_cons, Z.compare_refl.
    apply lex_compare_strings.
  - cbn [keys compare_trees]. rewrite <- !app_comm_cons, lex_compare_cons, Z.compare_refl.
    by apply ordered_by_float.
  - cbn [keys compare_trees]. rewrite <- !app_comm_cons, lex_compare_cons, Z.compare_refl.
    apply (ordered_by_arrays (fun _ => true)); [|by apply forallb_forall].
    apply Forall_forall. intros x _. apply ordered_by_float.
Qed.

Lemma compare_trees_total t1 t2 :
  wf_tree t1 = true -> wf_tree t2 = true ->
  compare_trees true t1 t2 = Some (lex_compare (keys t1) (keys t2)).
Proof.
  intros H1 H2. pose proof (compare_trees_keys t1 H1 t2 [] [] H2) as E.
  by rewrite !app_nil_r, seq_Eq in E.
Qed.

(** ** Values and trees *)

Section Rep.
Context (m : mem).

(** a block of [tag] and fields [fs], not mixed *)
Definition is_block (v tag : Z) (fs : list Z) : Prop :=
  Is_long v = false /\ exists hd, block_at m v hd fs /\ Tag_hd hd = tag /\ Reserved_hd hd = 0.

(** the contents of the blocks that are not structured *)
Definition data_rep (fs : list Z) (t : tree) : Prop :=
  match t with
  | Str s => string_block (bytes_of_words fs) s
  | Float d => u64 <$> fs = [d]
  | Floats ds => u64 <$> fs = ds
  | Object oid => exists x y rest, fs = x :: y :: rest /\ is_s64 y /\ oid = Long_val y
  | _ => False
  end.

Inductive rep : Z -> tree -> nat -> Prop :=
  | rep_int v : Is_long v = true -> is_s64 v -> rep v (Int (Long_val v)) 1
  | rep_forward v f t n : is_block v Forward_tag [f] -> rep f t n -> rep v t (S n)
  | rep_data v fs t : is_block v (tag_of t) fs -> data_rep fs t -> rep v t 1
  | rep_block v tag fs ts n :
      is_block v tag fs -> struct_tag tag = true -> reps fs ts n -> rep v (Block tag ts) (S n)
with reps : list Z -> list tree -> nat -> Prop :=
  | reps_nil : reps [] [] 0
  | reps_cons x xs t ts n1 n2 : rep x t n1 -> reps xs ts n2 -> reps (x :: xs) (t :: ts) (n1 + n2).

Scheme rep_reps_ind := Minimality for rep Sort Prop
  with reps_rep_ind := Minimality for reps Sort Prop.
Combined Scheme rep_mutual_ind from rep_reps_ind, reps_rep_ind.

Lemma reps_length xs ts n : reps xs ts n -> length xs = length ts.
Proof. induction 1; simpl; auto. Qed.

Lemma is_block_fun v tag fs tag' fs' :
  is_block v tag fs -> is_block v tag' fs' -> tag' = tag /\ fs' = fs.
Proof.
  intros (_ & hd & [H1 F1] & T1 & _) (_ & hd' & [H2 F2] & T2 & _).
  rewrite H1 in H2. injection H2 as <-. split; [congruence|]. rewrite F1 in F2. congruence.
Qed.

Lemma rep_is_int v t n : rep v t n -> Is_long v = true -> t = Int (Long_val v) /\ is_s64 v.
Proof. intros [] L; [done|..]; destruct H as [H _]; congruence. Qed.

Lemma tag_of_struct tag : struct_tag tag = true ->
  tag <> Forward_tag /\ tag <> Object_tag /\ tag <> String_tag /\ tag <> Double_tag /\
  tag <> Double_array_tag.
Proof.
  unfold struct_tag, Lazy_tag, Forward_tag, Object_tag, String_tag, Double_tag, Double_array_tag. lia.
Qed.

Lemma data_tag_of fs t : data_rep fs t ->
  tag_of t <> Forward_tag /\ struct_tag (tag_of t) = false.
Proof. destruct t; done. Qed.

Lemma data_rep_fun fs t t' : data_rep fs t -> data_rep fs t' -> tag_of t = tag_of t' -> t = t'.
Proof.
  destruct t, t'; simpl; try done.
  - intros (x & y & r & -> & _ & ->) (x' & y' & r' & [= -> -> ->] & _ & ->). done.
  - intros. f_equal. by eapply string_block_inj.
  - intros -> [= ->]. done.
  - by intros -> ->.
Qed.

(** a value stands for one tree *)
Lemma rep_fun :
  (forall v t n, rep v t n -> forall t' n', rep v t' n' -> t' = t) /\
  (forall xs ts n, reps xs ts n -> forall ts' n', reps xs ts' n' -> ts' = ts).
Proof.
  apply rep_mutual_ind.
  - intros v L H t' n' R. by destruct (rep_is_int _ _ _ R L) as [-> _].
  - intros v f t n B _ IH t' n' R. destruct R as [v L|v f' t' n' B'|v fs t' B' D|v tag fs ts n' B' S].
    + destruct B; congruence.
    + destruct (is_block_fun _ _ _ _ _ B B') as [_ [= ->]]. by eapply IH.
    + apply data_tag_of in D as [D _]. destruct (is_block_fun _ _ _ _ _ B B') as [E _]. congruence.
    + apply tag_of_struct in S as [S _]. destruct (is_block_fun _ _ _ _ _ B B') as [E _]. congruence.
  - intros v fs t B D t' n' R. destruct R as [v L|v f' t' n' B'|v fs' t' B' D'|v tag fs' ts n' B' S].
    + destruct B; congruence.
    + apply data_tag_of in D as [D _]. destruct (is_block_fun _ _ _ _ _ B B') as [E _]. congruence.
    + destruct (is_block_fun _ _ _ _ _ B B') as [E ->]. by eapply data_rep_fun.
    + apply data_tag_of in D as [_ D]. destruct (is_block_fun _ _ _ _ _ B B') as [E _]. congruence.
  - intros v tag fs ts n B S _ IH t' n' R. destruct R as [v L|v f' t' n' B'|v fs' t' B' D'|v tag' fs' ts' n' B' S'].
    + destruct B; congruence.
    + apply tag_of_struct in S as [S _]. destruct (is_block_fun _ _ _ _ _ B B') as [E _]. congruence.
    + apply data_tag_of in D' as [_ D']. destruct (is_block_fun _ _ _ _ _ B B') as [E _]. congruence.
    + destruct (is_block_fun _ _ _ _ _ B B') as [-> ->]. f_equal. by eapply IH.
  - intros ts' n' R. by inversion R.
  - intros x xs t ts n1 n2 _ IH1 _ IH2 ts' n' R. inversion R; subst. f_equal; [by eapply IH1|by eapply IH2].
Qed.

(** values stand for well-formed trees *)
Lemma rep_wf : (forall v t n, rep v t n -> wf_tree t = true) /\
  (forall xs ts n, reps xs ts n -> forallb wf_tree ts = true).
Proof.
  apply rep_mutual_ind; simpl; try done.
  - intros v fs t _ D. by destruct t.
  - intros v tag fs ts n _ -> _ ->. done.
  - intros x xs t ts n1 n2 _ -> _ ->. done.
Qed.

(** ** Turns that decide *)

(** the meaning of the result of [compare_val] *)
Definition outcome (r : Z) : order := if r =? UNORDERED then None else Some (r ?= 0).

Definition decided (n : compare_next) (c : order) : Prop :=
  match n with
  | Return r => outcome r = c /\ c <> Some Eq
  | NextItem => c = Some Eq
  | Again _ _ _ _ => False
  end.

Lemma outcome_diff a b : - 2 ^ 63 < a - b -> outcome (a - b) = Some (a ?= b).
Proof.
  intros H. unfold outcome. change UNORDERED with (- 2 ^ 63).
  destruct (Z.eqb_spec (a - b) (- 2 ^ 63)); [lia|]. by rewrite (Z.compare_sub a b).
Qed.

Lemma decided_diff a b :
  - 2 ^ 63 < a - b -> a <> b -> decided (Return (a - b)) (Some (a ?= b)).
Proof.
  intros H N. split; [by apply outcome_diff|]. intros [= E%Z.compare_eq_iff]. done.
Qed.

Lemma decided_lengths (a b : Z) k n :
  0 <= a < 2 ^ 62 -> 0 <= b < 2 ^ 62 -> (a = b -> decided n k) ->
  decided (if negb (a =? b) then Return (s64 (a - b)) else n) (seq (Some (a ?= b)) k).
Proof.
  intros Ha Hb H. destruct (Z.eqb_spec a b) as [->|N]; simpl negb; cbv iota.
  - rewrite Z.compare_refl. by apply H.
  - rewrite s64_id by (unfold is_s64; lia).
    assert (D : decided (Return (a - b)) (Some (a ?= b))) by (apply decided_diff; lia).
    revert D. destruct (Z.compare_spec a b); [lia|done..].
Qed.

Lemma compare_doubles_decided total d1 d2 :
  decided (match compare_doubles total d1 d2 with Some r => Return r | None => NextItem end)
    (compare_float total d1 d2).
Proof.
  unfold compare_doubles, float_lt, float_eq, compare_float.
  destruct (is_nan d1) eqn:N1, (is_nan d2) eqn:N2, total; simpl; rewrite ?Z.eqb_refl; try done;
    destruct (Z.ltb_spec (float_key d1) (float_key d2)), (Z.ltb_spec (float_key d2) (float_key d1)),
      (Z.eqb_spec (float_key d1) (float_key d2)), (Z.compare_spec (float_key d1) (float_key d2));
    simpl; try done; lia.
Qed.

Lemma decided_seq n c k : decided n c -> n <> NextItem -> decided n (seq c k).
Proof. destruct n as [| |r]; [done|done|]. intros [E N] _. destruct c as [[]|]; done. Qed.

Lemma float_arrays_decided total ds1 : forall ds2 v1 v2 i,
  length ds1 = length ds2 ->
  (forall k d, ds1 !! k = Some d -> Double_flat_field m v1 (i + Z.of_nat k) = Ok d) ->
  (forall k d, ds2 !! k = Some d -> Double_flat_field m v2 (i + Z.of_nat k) = Ok d) ->
  exists n, compare_float_arrays m (length ds1) v1 v2 i total = Ok n /\
    decided n (compare_lists (compare_float total) ds1 ds2).
Proof.
  induction ds1 as [|d1 ds1 IH]; intros [|d2 ds2] v1 v2 i L H1 H2; try done;
    cbn [length compare_float_arrays compare_lists].
  - by exists NextItem.
  - pose proof (H1 0%nat d1 eq_refl) as E1. pose proof (H2 0%nat d2 eq_refl) as E2.
    rewrite Z.add_0_r in E1, E2. rewrite E1, E2. cbn [rbind].
    pose proof (compare_doubles_decided total d1 d2) as D.
    destruct (compare_doubles total d1 d2) as [r|].
    + exists (Return r). split; [done|]. by apply decided_seq.
    + simpl in D. rewrite D. cbn [seq]. apply IH; [by injection L| |]; intros k d Hk;
        replace (i + 1 + Z.of_nat k) with (i + Z.of_nat (S k)) by lia; auto.
Qed.

Lemma is_block_facts v tag fs : is_block v tag fs ->
  Is_long v = false /\ Tag_val m v = Ok tag /\ Wosize_val m v = Ok (zlen fs) /\
  Reserved_val m v = Ok 0 /\ block_bytes m v = Ok (bytes_of_words fs) /\ zlen fs < 2 ^ 46 /\
  forall k x, fs !! k = Some x -> Field m v (Z.of_nat k) = Ok x.
Proof.
  intros (L & hd & B & T & R). pose proof (block_at_zlen B) as Z. split_and!.
  - done.
  - by rewrite (block_at_tag B), T.
  - by rewrite (block_at_wosize B), Z.
  - by rewrite (block_at_reserved B), R.
  - exact (block_at_bytes B).
  - rewrite <- Z, Allocated_wosize_hd_eq. apply Z.mod_pos_bound. lia.
  - intros k x. apply (block_at_field B).
Qed.

Lemma is_block_doubles v tag fs k d :
  is_block v tag fs -> (u64 <$> fs) !! k = Some d -> Double_flat_field m v (Z.of_nat k) = Ok d.
Proof.
  intros (_ & _ & _ & _ & _ & _ & F)%is_block_facts. rewrite list_lookup_fmap.
  destruct (fs !! k) as [x|] eqn:E; [|done]. intros [= <-].
  unfold Double_flat_field, rmap. by rewrite (F _ _ E).
Qed.

Lemma strings_decided v1 v2 fs1 fs2 s1 s2 :
  is_block v1 String_tag fs1 -> is_block v2 String_tag fs2 ->
  string_block (bytes_of_words fs1) s1 -> string_block (bytes_of_words fs2) s2 ->
  exists n, compare_strings m v1 v2 = Ok n /\ decided n (Some (lex_compare s1 s2)).
Proof.
  intros B1 B2 H1 H2. unfold compare_strings. destruct (Z.eqb_spec v1 v2) as [<-|_].
  { destruct (is_block_fun _ _ _ _ _ B1 B2) as [_ ->]. exists NextItem. split; [done|].
    rewrite (string_block_inj _ _ _ H1 H2). simpl. f_equal. by apply lex_compare_Eq. }
  assert (L1 : zlen s1 < 2 ^ 62 /\ zlen s2 < 2 ^ 62).
  { destruct (is_block_facts _ _ _ B1) as (_ & _ & _ & _ & _ & Z1 & _).
    destruct (is_block_facts _ _ _ B2) as (_ & _ & _ & _ & _ & Z2 & _).
    pose proof (string_block_zlen _ _ H1) as E1. pose proof (string_block_zlen _ _ H2) as E2.
    unfold zlen in E1 at 1. unfold zlen in E2 at 1. rewrite bytes_of_words_length in E1, E2.
    unfold zlen in *. zlia. }
  destruct (is_block_facts _ _ _ B1) as (_ & _ & _ & _ & -> & _).
  destruct (is_block_facts _ _ _ B2) as (_ & _ & _ & _ & -> & _). cbn [rbind].
  rewrite (caml_string_length_block _ _ H1), (caml_string_length_block _ _ H2). cbn [rbind].
  replace (Z.to_nat (if zlen s1 <=? zlen s2 then zlen s1 else zlen s2))
    with (length s1 `min` length s2)%nat by (unfold zlen; zcases).
  destruct H1 as [_ ->], H2 as [_ ->].
  rewrite memcmp_spec by (rewrite length_app; lia). cbn [rbind].
  rewrite !take_app_le by lia. rewrite (lex_compare_take s1 s2).
  eexists. split; [done|]. destruct (lex_compare _ _); try done. cbn [sign_of Z.ltb Z.compare].
  pose proof (zlen_nonneg s1). pose proof (zlen_nonneg s2).
  pose proof (decided_lengths (zlen s1) (zlen s2) (Some Eq) NextItem) as D.
  rewrite seq_Eq in D. apply D; [lia|lia|done].
Qed.

(** ** Pending fields *)

Fixpoint depth (t : tree) : nat :=
  match t with Block _ ts => S (foldr (fun t n => Nat.max (depth t) n) O ts) | _ => O end.

Lemma depth_fields tag ts : Forall (fun t => (depth t < depth (Block tag ts))%nat) ts.
Proof.
  cbn [depth]. induction ts as [|t ts IH]; cbn [foldr]; constructor; [lia|].
  eapply Forall_impl; [exact IH|]. simpl. lia.
Qed.

(** the stack: the fields [k], [k + 1], ... of two blocks of the same size.  [D] bounds
    the height of the stack *)
Inductive pend (D : nat) : list compare_item -> list (tree * tree) -> nat -> Prop :=
  | pend_nil : pend D [] [] 0
  | pend_cons v1 v2 k fs1 fs2 ts1 ts2 n1 n2 stack ps n :
      1 <= k -> k + zlen fs1 < 2 ^ 46 -> fs1 <> [] -> length fs1 = length fs2 ->
      (forall j x, fs1 !! j = Some x -> Field m v1 (k + Z.of_nat j) = Ok x) ->
      (forall j x, fs2 !! j = Some x -> Field m v2 (k + Z.of_nat j) = Ok x) ->
      reps fs1 ts1 n1 -> reps fs2 ts2 n2 ->
      Forall (fun t => (length stack + 1 + depth t <= D)%nat) ts1 -> pend D stack ps n ->
      pend D (CompareItem v1 v2 (Val_long k) (Val_long (k + zlen fs1)) :: stack)
        (zip ts1 ts2 ++ ps) (n1 + n2 + n).

Lemma Val_long_next k : 0 <= k < 2 ^ 61 -> Val_long k + 2 = Val_long (k + 1).
Proof. intros. rewrite !Val_long_s63 by (unfold is_s63; lia). lia. Qed.

Lemma pend_pop D i stack ps n :
  pend D (i :: stack) ps n -> exists x1 x2 stack' u1 u2 m1 m2 ps' n',
    compare_pop m i stack = Ok (x1, x2, stack') /\ rep x1 u1 m1 /\ rep x2 u2 m2 /\
    pend D stack' ps' n' /\ ps = (u1, u2) :: ps' /\ (n = m1 + m2 + n')%nat /\
    (length stack' + depth u1 <= D)%nat.
Proof.
  intros HP. inversion HP as [|v1 v2 k fs1 fs2 ts1 ts2 n1 n2 st ps0 n0 Hk Hs Hne Hl F1 F2 R1 R2 Hd HP']; subst.
  destruct R1 as [|x1 fs1 u1 ts1 a1 b1 Ra1 Rb1]; [done|].
  destruct R2 as [|x2 fs2 u2 ts2 a2 b2 Ra2 Rb2]; [done|].
  apply Forall_cons in Hd as [Hd1 Hd]. rewrite zlen_cons in Hs. pose proof (zlen_nonneg fs1).
  unfold compare_pop. cbn [item_v1 item_v2 offset item_size].
  rewrite Long_val_long_id by (unfold is_s63; lia).
  pose proof (F1 0%nat x1 eq_refl) as E1. pose proof (F2 0%nat x2 eq_refl) as E2.
  rewrite Z.add_0_r in E1, E2. rewrite E1, E2. cbn [rbind].
  rewrite Val_long_next by lia. rewrite zlen_cons, Val_long_eqb by (unfold is_s63; lia).
  destruct (Z.eqb_spec (k + 1) (k + (1 + zlen fs1))) as [E|E].
  - assert (fs1 = []) as -> by (destruct fs1; [done|rewrite zlen_cons in E; pose proof (zlen_nonneg fs1); lia]).
    destruct fs2; [|done]. inversion Rb1; inversion Rb2; subst.
    do 9 eexists. split_and!; [done|done|done|exact HP'|done|lia|lia].
  - do 9 eexists. split_and!; [done|done|done| |done| |cbn [length]; lia].
    + replace (k + (1 + zlen fs1)) with (k + 1 + zlen fs1) by lia.
      apply (pend_cons D v1 v2 (k + 1) fs1 fs2 ts1 ts2 b1 b2); try done; try lia.
      * intros ->. apply E. unfold zlen. simpl. lia.
      * by injection Hl.
      * intros j x Hj. replace (k + 1 + Z.of_nat j) with (k + Z.of_nat (S j)) by lia. by apply F1.
      * intros j x Hj. replace (k + 1 + Z.of_nat j) with (k + Z.of_nat (S j)) by lia. by apply F2.
    + lia.
Qed.

Fixpoint compare_pairs (total : bool) (ps : list (tree * tree)) : order :=
  match ps with
  | [] => Some Eq
  | (t1, t2) :: ps => seq (compare_trees total t1 t2) (compare_pairs total ps)
  end.

Lemma compare_pairs_zip total ts1 : forall ts2 ps, length ts1 = length ts2 ->
  compare_pairs total (zip ts1 ts2 ++ ps) =
    seq (compare_lists (compare_trees total) ts1 ts2) (compare_pairs total ps).
Proof.
  induction ts1 as [|t1 ts1 IH]; intros [|t2 ts2] ps L; try done. cbn [zip zip_with app compare_pairs compare_lists].
  rewrite IH by (by injection L). by rewrite seq_assoc.
Qed.

(** ** A turn of the loop *)

Context (custom_ops : Z -> custom_compare) (call : Z -> Z -> Z -> Z * bool)
  (pending_actions : Z -> option exn).
Context (D : nat) (HD : Z.of_nat D < 2 ^ 19).

(** a turn on values of the trees [t1], [t2], with [ps] pending and the measure [n] *)
Definition turn_ok (total : bool) (t1 t2 : tree) (ps : list (tree * tree)) (n : nat)
    (nx : compare_next) : Prop :=
  match nx with
  | Again x1 x2 limit stack => exists u1 u2 m1 m2 ps' n',
      rep x1 u1 m1 /\ rep x2 u2 m2 /\ pend D stack ps' n' /\ (m1 + m2 + n' < n)%nat /\
      (length stack + depth u1 <= D)%nat /\
      seq (compare_trees total u1 u2) (compare_pairs total ps') =
        seq (compare_trees total t1 t2) (compare_pairs total ps)
  | _ => decided nx (compare_trees total t1 t2)
  end.

Lemma decided_turn total t1 t2 ps n nx :
  decided nx (compare_trees total t1 t2) -> turn_ok total t1 t2 ps n nx.
Proof. by destruct nx. Qed.

Lemma rep_pos v t n : rep v t n -> (1 <= n)%nat.
Proof. destruct 1; lia. Qed.

Lemma compare_trees_tags total t1 t2 :
  tag_of t1 <> tag_of t2 -> compare_trees total t1 t2 = Some (tag_of t1 ?= tag_of t2).
Proof.
  intros N. destruct t1, t2; try done. simpl in N |- *.
  by destruct (Z.compare_spec tag tag0).
Qed.

Lemma zlen_0 {A} (l : list A) : zlen l <= 0 -> l = [].
Proof. unfold zlen. destruct l; simpl; [done|lia]. Qed.

Lemma resize_ok limit (stack : list compare_item) :
  zlen stack < 2 ^ 19 ->
  exists limit', (if limit <=? zlen stack then compare_resize_stack limit else Ok limit) = Ok limit'.
Proof.
  intros H. destruct (Z.leb_spec limit (zlen stack)); [|by eexists].
  unfold compare_resize_stack, COMPARE_STACK_MAX_SIZE.
  destruct (limit =? COMPARE_STACK_INIT_SIZE); [by eexists|].
  rewrite (proj2 (Z.leb_gt _ _)) by lia. by eexists.
Qed.

(** the first fields now, the others pending *)
Lemma split_fields total g u1 us1 u2 us2 ps :
  zlen us1 = zlen us2 ->
  seq (compare_trees total u1 u2) (compare_pairs total (zip us1 us2 ++ ps)) =
    seq (compare_trees total (Block g (u1 :: us1)) (Block g (u2 :: us2))) (compare_pairs total ps).
Proof.
  intros E. rewrite compare_pairs_zip by (unfold zlen in E; lia).
  cbn [compare_trees]. rewrite Z.compare_refl. unfold compare_arrays. cbn [seq].
  rewrite !zlen_cons, E, Z.compare_refl. cbn [seq compare_lists]. by rewrite seq_assoc.
Qed.

Lemma reps_zlen fs ts n : reps fs ts n -> zlen fs = zlen ts.
Proof. intros R. unfold zlen. by rewrite (reps_length _ _ _ R). Qed.

Lemma fields_turn total limit stack v1 v2 g fs1 fs2 ts1 ts2 n1 n2 ps n :
  is_block v1 g fs1 -> is_block v2 g fs2 -> reps fs1 ts1 n1 -> reps fs2 ts2 n2 ->
  pend D stack ps n -> (length stack + depth (Block g ts1) <= D)%nat ->
  exists nx, compare_fields m limit stack v1 v2 = Ok nx /\
    turn_ok total (Block g ts1) (Block g ts2) ps (S n1 + S n2 + n) nx.
Proof.
  intros B1 B2 R1 R2 HP Hd. pose proof (depth_fields g ts1) as Hdf.
  destruct (is_block_facts _ _ _ B1) as (_ & _ & W1 & _ & _ & Z1 & F1).
  destruct (is_block_facts _ _ _ B2) as (_ & _ & W2 & _ & _ & Z2 & F2).
  pose proof (reps_zlen _ _ _ R1) as T1. pose proof (reps_zlen _ _ _ R2) as T2.
  pose proof (zlen_nonneg fs1). pose proof (zlen_nonneg fs2).
  unfold compare_fields. rewrite W1, W2. cbn [rbind].
  destruct (Z.eqb_spec (zlen fs1) (zlen fs2)) as [E|N]; simpl negb; cbv iota.
  2:{ eexists. split; [done|]. apply decided_turn. cbn [compare_trees].
      rewrite Z.compare_refl. cbn [seq]. unfold compare_arrays. rewrite <- T1, <- T2.
      pose proof (decided_lengths (zlen fs1) (zlen fs2)
        (compare_lists (compare_trees total) ts1 ts2) NextItem) as DL.
      rewrite (proj2 (Z.eqb_neq _ _) N) in DL. apply DL; lia. }
  destruct (Z.eqb_spec (zlen fs1) 0) as [E0|N0].
  { rewrite (zlen_0 ts1), (zlen_0 ts2) by lia. exists NextItem. split; [done|].
    cbn [turn_ok decided compare_trees]. by rewrite Z.compare_refl. }
  destruct R1 as [|x1 fs1 u1 us1 a1 b1 Ra1 Rb1]; [done|].
  destruct R2 as [|x2 fs2 u2 us2 a2 b2 Ra2 Rb2]; [unfold zlen in E at 2; simpl in E; lia|].
  apply Forall_cons in Hdf as [Hd1 Hdf]. rewrite !zlen_cons in E. rewrite !zlen_cons in T1.
  rewrite !zlen_cons in T2. rewrite zlen_cons in N0, Z1. rewrite !zlen_cons.
  pose proof (F1 0%nat x1 eq_refl) as E1. pose proof (F2 0%nat x2 eq_refl) as E2.
  change (Z.of_nat 0) with 0 in E1, E2.
  destruct (Z.ltb_spec 1 (1 + zlen fs1)) as [L|L].
  - destruct (resize_ok limit stack) as [limit' ->]; [unfold zlen; cbn [depth] in Hd; lia|].
    cbn [rbind]. rewrite E1, E2. cbn [rbind]. eexists. split; [done|].
    exists u1, u2, a1, a2, (zip us1 us2 ++ ps), (b1 + b2 + n)%nat.
    split_and!; [done|done| |lia|cbn [length]; lia|apply split_fields; lia].
    apply (pend_cons D v1 v2 1 fs1 fs2 us1 us2 b1 b2); try done; try lia.
    + intros ->. unfold zlen in L. simpl in L. lia.
    + unfold zlen in E. lia.
    + intros j x Hj. replace (1 + Z.of_nat j) with (Z.of_nat (S j)) by lia. by apply F1.
    + intros j x Hj. replace (1 + Z.of_nat j) with (Z.of_nat (S j)) by lia. by apply F2.
    + eapply Forall_impl; [exact Hdf|]. intros t Ht. cbv beta in Ht. lia.
  - rewrite (zlen_0 us1), (zlen_0 us2) by lia. cbn [rbind]. rewrite E1, E2. cbn [rbind].
    eexists. split; [done|]. exists u1, u2, a1, a2, ps, n.
    split_and!; [done|done|done|lia|lia|by apply (split_fields total g u1 [] u2 [] ps)].
Qed.

(** the values that are neither integers nor forwarding blocks *)
Inductive direct : Z -> tree -> nat -> Prop :=
  | direct_data v fs t : is_block v (tag_of t) fs -> data_rep fs t -> direct v t 1
  | direct_block v tag fs ts n :
      is_block v tag fs -> struct_tag tag = true -> reps fs ts n -> direct v (Block tag ts) (S n).

Lemma direct_facts v t n : direct v t n ->
  Is_long v = false /\ Tag_val m v = Ok (tag_of t) /\ Reserved_val m v = Ok 0 /\
  (tag_of t <> Forward_tag /\ tag_of t <> Infix_tag /\ tag_of t <> Closure_tag /\
   tag_of t <> Abstract_tag /\ tag_of t <> Cont_tag /\ tag_of t <> Custom_tag) /\
  0 <= tag_of t < 256.
Proof.
  intros H. assert (T : 0 <= tag_of t < 256 /\ exists fs, is_block v (tag_of t) fs /\
    (struct_tag (tag_of t) = true \/ data_rep fs t)).
  { destruct H as [v fs t B R|v tag fs ts n B S R]; (split; [|by exists fs; eauto]);
      destruct B as (_ & hd & _ & <- & _); rewrite Tag_hd_eq; apply (Z.mod_pos_bound _ (2 ^ 8)); lia. }
  destruct T as [T (fs & B & S)]. destruct (is_block_facts _ _ _ B) as (L & Et & _ & Er & _).
  split_and!; try done; try apply T; intros E; destruct S as [S|S];
    try (unfold struct_tag in S; rewrite E in S; vm_compute in S; done);
    destruct t; simpl in E, S; done.
Qed.

Lemma eqb_ne a b : a <> b -> (a =? b) = false.
Proof. apply Z.eqb_neq. Qed.

(** two blocks of data of the same tag *)
Lemma compare_data_turn total limit stack v1 v2 t1 t2 fs1 fs2 :
  is_block v1 (tag_of t1) fs1 -> is_block v2 (tag_of t2) fs2 -> tag_of t1 = tag_of t2 ->
  data_rep fs1 t1 -> data_rep fs2 t2 ->
  exists nx, compare_blocks m custom_ops call limit stack v1 v2 total = Ok nx /\
    decided nx (compare_trees total t1 t2).
Proof.
  intros B1 B2 E R1 R2.
  destruct (is_block_facts _ _ _ B1) as (_ & T1 & W1 & S1 & _ & Z1 & F1).
  destruct (is_block_facts _ _ _ B2) as (_ & T2 & W2 & S2 & _ & Z2 & F2).
  unfold compare_blocks. rewrite T1, T2, <- E. cbn [rbind]. rewrite Z.eqb_refl. cbn [negb andb].
  rewrite Z.eqb_refl. cbn [negb]. rewrite S1, S2. cbn [rbind Is_mixed_block_reserved Z.ltb Z.compare orb].
  destruct t1 as [|? ?|o1|s1|d1|ds1]; try done; destruct t2 as [|? ?|o2|s2|d2|ds2]; try done;
    cbn [tag_of] in *.
  - destruct R1 as (x1 & y1 & r1 & -> & Y1 & ->), R2 as (x2 & y2 & r2 & -> & Y2 & ->).
    unfold Oid_val, rmap. pose proof (F1 1%nat y1 eq_refl) as G1. pose proof (F2 1%nat y2 eq_refl) as G2.
    change (Z.of_nat 1) with 1 in G1, G2. cbn [Z.eqb Pos.eqb Object_tag Forward_tag String_tag Double_tag
      Double_array_tag Abstract_tag Closure_tag Infix_tag Cont_tag orb].
    rewrite G1, G2. cbn [rbind]. eexists. split; [done|]. cbn [compare_trees].
    assert (L : forall y, is_s64 y -> - 2 ^ 62 <= Long_val y < 2 ^ 62)
      by (intros y Hy; rewrite Long_val_eq; unfold is_s64 in Hy; zlia).
    pose proof (L y1 Y1). pose proof (L y2 Y2).
    destruct (Z.eqb_spec (Long_val y1) (Long_val y2)) as [->|N]; simpl negb; cbv iota.
    + simpl. by rewrite Z.compare_refl.
    + apply decided_diff; [lia|done].
  - by apply (strings_decided v1 v2 fs1 fs2).
  - unfold compare_floats. cbn [data_rep] in R1, R2.
    assert (Double_flat_field m v1 0 = Ok d1) as G1
      by (apply (is_block_doubles v1 _ fs1 0 d1 B1); by rewrite R1).
    assert (Double_flat_field m v2 0 = Ok d2) as G2
      by (apply (is_block_doubles v2 _ fs2 0 d2 B2); by rewrite R2).
    cbn [Z.eqb Pos.eqb Forward_tag String_tag Double_tag]. rewrite G1, G2. cbn [rbind].
    eexists. split; [done|]. apply compare_doubles_decided.
  - cbn [Z.eqb Pos.eqb Forward_tag String_tag Double_tag Double_array_tag]. rewrite W1, W2. cbn [rbind].
    cbn [data_rep] in R1, R2. subst ds1 ds2. pose proof (zlen_nonneg fs1). pose proof (zlen_nonneg fs2).
    assert (El : forall fs : list Z, zlen (u64 <$> fs) = zlen fs) by (intros; unfold zlen; by rewrite length_fmap).
    cbn [compare_trees]. unfold compare_arrays. rewrite !El.
    destruct (Z.eqb_spec (zlen fs1) (zlen fs2)) as [E'|N]; simpl negb; cbv iota.
    + destruct (float_arrays_decided total (u64 <$> fs1) (u64 <$> fs2) v1 v2 0) as (n1 & E1 & D1);
        [rewrite !length_fmap; unfold zlen in E'; lia|intros k d Hk; by eapply is_block_doubles..|].
      exists n1. replace (Z.to_nat (zlen fs1)) with (length (u64 <$> fs1))
        by (rewrite length_fmap; unfold zlen; lia).
      split; [done|]. by rewrite E', Z.compare_refl.
    + eexists. split; [done|].
      pose proof (decided_lengths (zlen fs1) (zlen fs2)
        (compare_lists (compare_float total) (u64 <$> fs1) (u64 <$> fs2)) NextItem) as DL.
      rewrite (eqb_ne _ _ N) in DL. apply DL; lia.
Qed.

Lemma direct_turn total limit stack v1 v2 t1 t2 n1 n2 ps n :
  direct v1 t1 n1 -> direct v2 t2 n2 -> pend D stack ps n -> (length stack + depth t1 <= D)%nat ->
  exists nx, compare_blocks m custom_ops call limit stack v1 v2 total = Ok nx /\
    turn_ok total t1 t2 ps (n1 + n2 + n) nx.
Proof.
  intros H1 H2 HP Hd.
  destruct (direct_facts _ _ _ H1) as (_ & T1 & S1 & (N1 & N2 & N3 & N4 & N5 & N6) & L1).
  destruct (direct_facts _ _ _ H2) as (_ & T2 & S2 & (M1 & M2 & M3 & M4 & M5 & M6) & L2).
  destruct (decide (tag_of t1 = tag_of t2)) as [E|E].
  2:{ unfold compare_blocks. rewrite T1, T2. cbn [rbind].
      rewrite (eqb_ne _ _ E), (eqb_ne (tag_of t1) Forward_tag), (eqb_ne (tag_of t2) Forward_tag),
        (eqb_ne (tag_of t1) Infix_tag), (eqb_ne (tag_of t2) Infix_tag) by done.
      cbn [negb andb]. rewrite (eqb_ne _ _ E). cbn [negb]. eexists. split; [done|].
      apply decided_turn. rewrite compare_trees_tags by done. apply decided_diff; [lia|done]. }
  destruct H1 as [v1 fs1 t1 B1 R1|v1 g1 fs1 ts1 n1 B1 G1 R1];
    destruct H2 as [v2 fs2 t2 B2 R2|v2 g2 fs2 ts2 n2 B2 G2 R2].
  - destruct (compare_data_turn total limit stack v1 v2 t1 t2 fs1 fs2) as (nx & Enx & Dnx); try done.
    exists nx. split; [done|by apply decided_turn].
  - apply data_tag_of in R1 as [_ R1]. cbn [tag_of] in E. congruence.
  - apply data_tag_of in R2 as [_ R2]. cbn [tag_of] in E. congruence.
  - cbn [tag_of] in *. subst g2. apply tag_of_struct in G1 as (_ & Q1 & Q2 & Q3 & Q4).
    unfold compare_blocks. rewrite T1, T2. cbn [rbind]. rewrite Z.eqb_refl. cbn [negb andb].
    rewrite Z.eqb_refl, S1, S2. cbn [negb rbind Is_mixed_block_reserved Z.ltb Z.compare orb].
    rewrite !(eqb_ne g1) by done. cbn [orb]. by apply (fields_turn total limit stack v1 v2 g1 fs1 fs2).
Qed.

(** every value is an integer, a forwarding block, or direct *)
Lemma rep_cases v t n : rep v t n ->
  (Is_long v = true /\ is_s64 v /\ t = Int (Long_val v)) \/
  (exists f n', Is_long v = false /\ Tag_val m v = Ok Forward_tag /\ Reserved_val m v = Ok 0 /\
     Forward_val m v = Ok f /\ rep f t n' /\ n = S n') \/
  direct v t n.
Proof.
  destruct 1 as [v L S|v f t n B R|v fs t B R|v tag fs ts n B S R].
  - by left.
  - right. left. destruct (is_block_facts _ _ _ B) as (L & T & _ & R0 & _ & _ & F).
    exists f, n. split_and!; try done. apply (F 0%nat). done.
  - right. right. by eapply direct_data.
  - right. right. by eapply direct_block.
Qed.

Lemma again_turn total limit stack x1 x2 t1 t2 m1 m2 ps n k :
  rep x1 t1 m1 -> rep x2 t2 m2 -> pend D stack ps n -> (length stack + depth t1 <= D)%nat ->
  (m1 + m2 + n < k)%nat -> turn_ok total t1 t2 ps k (Again x1 x2 limit stack).
Proof. intros. by exists t1, t2, m1, m2, ps, n. Qed.

Lemma compare_trees_refl t : wf_tree t = true -> compare_trees true t t = Some Eq.
Proof. intros H. rewrite compare_trees_total by done. f_equal. by apply lex_compare_Eq. Qed.

Lemma blocks_turn total limit stack v1 v2 t1 t2 n1 n2 ps n :
  rep v1 t1 n1 -> rep v2 t2 n2 -> Is_long v1 = false -> Is_long v2 = false ->
  pend D stack ps n -> (length stack + depth t1 <= D)%nat ->
  exists nx, compare_blocks m custom_ops call limit stack v1 v2 total = Ok nx /\
    turn_ok total t1 t2 ps (n1 + n2 + n) nx.
Proof.
  intros R1 R2 L1 L2 HP Hd.
  destruct (rep_cases _ _ _ R1) as [(? & _)|[(f1 & n1' & _ & T1 & S1 & F1 & R1' & ->)|H1]]; [congruence| |];
    (destruct (rep_cases _ _ _ R2) as [(? & _)|[(f2 & n2' & _ & T2 & S2 & F2 & R2' & ->)|H2]]; [congruence| |]).
  - unfold compare_blocks. rewrite T1, T2. cbn [rbind]. rewrite Z.eqb_refl. cbn [negb andb].
    rewrite Z.eqb_refl, S1, S2. cbn [negb rbind Is_mixed_block_reserved Z.ltb Z.compare orb].
    rewrite F1, F2. cbn [rbind]. eexists. split; [done|].
    eapply again_turn; [exact R1'|exact R2'|exact HP|done|lia].
  - destruct (direct_facts _ _ _ H2) as (_ & T2 & S2 & (M1 & _) & _).
    unfold compare_blocks. rewrite T1, T2. cbn [rbind]. rewrite (eqb_ne Forward_tag) by done.
    cbn [negb andb Z.eqb Pos.eqb Forward_tag]. rewrite F1. cbn [rbind]. eexists. split; [done|].
    eapply again_turn; [exact R1'|exact R2|exact HP|done|lia].
  - destruct (direct_facts _ _ _ H1) as (_ & T1 & S1 & (M1 & _) & _).
    unfold compare_blocks. rewrite T1, T2. cbn [rbind]. rewrite !(eqb_ne (tag_of t1)) by done.
    rewrite Z.eqb_refl. cbn [negb andb]. rewrite F2. cbn [rbind]. eexists. split; [done|].
    eapply again_turn; [exact R1|exact R2'|exact HP|done|lia].
  - by apply direct_turn.
Qed.

Lemma long_block_turn total limit stack v1 v2 t1 t2 n1 n2 ps n :
  rep v1 t1 n1 -> rep v2 t2 n2 -> Is_long v1 = true -> Is_long v2 = false ->
  pend D stack ps n -> (length stack + depth t1 <= D)%nat ->
  exists nx, compare_long_block m custom_ops call limit stack v1 v2 total = Ok nx /\
    turn_ok total t1 t2 ps (n1 + n2 + n) nx.
Proof.
  intros R1 R2 L1 L2 HP Hd. destruct (rep_is_int _ _ _ R1 L1) as [-> _]. unfold compare_long_block.
  destruct (rep_cases _ _ _ R2) as [(? & _)|[(f2 & n2' & _ & -> & _ & F2 & R2' & ->)|H2]]; [congruence| |].
  - cbn [rbind]. rewrite Z.eqb_refl, F2. cbn [rbind]. eexists. split; [done|].
    eapply again_turn; [exact R1|exact R2'|exact HP|done|lia].
  - destruct (direct_facts _ _ _ H2) as (_ & -> & _ & (M1 & _ & _ & _ & _ & M6) & Ht). cbn [rbind].
    rewrite (eqb_ne (tag_of t2) Forward_tag), (eqb_ne (tag_of t2) Custom_tag) by done.
    eexists. split; [done|]. apply decided_turn.
    rewrite compare_trees_tags by (cbn [tag_of]; lia). cbn [tag_of].
    by rewrite (proj2 (Z.compare_lt_iff _ _)) by lia.
Qed.

Lemma block_long_turn total limit stack v1 v2 t1 t2 n1 n2 ps n :
  rep v1 t1 n1 -> rep v2 t2 n2 -> Is_long v1 = false -> Is_long v2 = true ->
  pend D stack ps n -> (length stack + depth t1 <= D)%nat ->
  exists nx, compare_block_long m custom_ops call limit stack v1 v2 total = Ok nx /\
    turn_ok total t1 t2 ps (n1 + n2 + n) nx.
Proof.
  intros R1 R2 L1 L2 HP Hd. destruct (rep_is_int _ _ _ R2 L2) as [-> _]. unfold compare_block_long.
  destruct (rep_cases _ _ _ R1) as [(? & _)|[(f1 & n1' & _ & -> & _ & F1 & R1' & ->)|H1]]; [congruence| |].
  - cbn [rbind]. rewrite Z.eqb_refl, F1. cbn [rbind]. eexists. split; [done|].
    eapply again_turn; [exact R1'|exact R2|exact HP|done|lia].
  - destruct (direct_facts _ _ _ H1) as (_ & -> & _ & (M1 & _ & _ & _ & _ & M6) & Ht). cbn [rbind].
    rewrite (eqb_ne (tag_of t1) Forward_tag), (eqb_ne (tag_of t1) Custom_tag) by done.
    eexists. split; [done|]. apply decided_turn.
    rewrite compare_trees_tags by (cbn [tag_of]; lia). cbn [tag_of].
    by rewrite (proj2 (Z.compare_gt_iff _ _)) by lia.
Qed.

Lemma step_turn total limit stack v1 v2 t1 t2 n1 n2 ps n :
  rep v1 t1 n1 -> rep v2 t2 n2 -> pend D stack ps n -> (length stack + depth t1 <= D)%nat ->
  exists nx, compare_step m custom_ops call limit stack v1 v2 total = Ok nx /\
    turn_ok total t1 t2 ps (n1 + n2 + n) nx.
Proof.
  intros R1 R2 HP Hd. unfold compare_step.
  destruct ((v1 =? v2) && total) eqn:E.
  { apply andb_true_iff in E as [<-%Z.eqb_eq ->]. pose proof (proj1 rep_fun _ _ _ R1 _ _ R2) as ->.
    exists NextItem. split; [done|]. apply compare_trees_refl. by eapply rep_wf. }
  destruct (Is_long v1) eqn:L1, (Is_long v2) eqn:L2.
  - destruct (rep_is_int _ _ _ R1 L1) as [-> I1], (rep_is_int _ _ _ R2 L2) as [-> I2].
    destruct (Z.eqb_spec v1 v2) as [<-|N]; (eexists; split; [done|]).
    + simpl. by rewrite Z.compare_refl.
    + assert (B : forall v, is_s64 v -> - 2 ^ 62 <= Long_val v < 2 ^ 62)
        by (intros v Hv; rewrite Long_val_eq; unfold is_s64 in Hv; zlia).
      pose proof (B v1 I1). pose proof (B v2 I2). apply decided_diff; [lia|].
      intros E'. apply N. rewrite <- (proj2 (Val_long_Long_val v1 L1 I1)), E'.
      by apply Val_long_Long_val.
  - destruct (Z.eqb_spec v1 v2) as [<-|_]; [congruence|]. by apply long_block_turn.
  - by apply block_long_turn.
  - by apply blocks_turn.
Qed.

(** ** The loop *)

Lemma poll_ok timer polls :
  (forall k, pending_actions k = None) -> exists t' p', poll pending_actions timer polls = Ok (t', p').
Proof. intros H. unfold poll. rewrite H. destruct (0 <? timer - 1); by do 2 eexists. Qed.

Lemma outcome_EQUAL : outcome EQUAL = Some Eq.
Proof. done. Qed.

Lemma do_compare_val_correct total fuel : forall limit stack v1 v2 t1 t2 n1 n2 ps n timer polls,
  (forall k, pending_actions k = None) ->
  rep v1 t1 n1 -> rep v2 t2 n2 -> pend D stack ps n -> (length stack + depth t1 <= D)%nat ->
  (n1 + n2 + n <= fuel)%nat ->
  exists r, do_compare_val m custom_ops call pending_actions fuel limit stack v1 v2 total timer polls = Ok r /\
    outcome r = seq (compare_trees total t1 t2) (compare_pairs total ps).
Proof.
  induction fuel as [|fuel IH]; intros limit stack v1 v2 t1 t2 n1 n2 ps n timer polls Hp R1 R2 HP Hd Hf;
    pose proof (rep_pos _ _ _ R1); [lia|].
  cbn [do_compare_val]. destruct (poll_ok timer polls Hp) as (t' & p' & ->). cbn [rbind].
  destruct (step_turn total limit stack v1 v2 t1 t2 n1 n2 ps n R1 R2 HP Hd) as (nx & -> & T). cbn [rbind].
  destruct nx as [x1 x2 limit' stack'| |r].
  - destruct T as (u1 & u2 & m1 & m2 & ps' & n' & R1' & R2' & HP' & Hn & Hd' & <-).
    apply (IH _ _ _ _ _ _ m1 m2 _ n'); try done. lia.
  - simpl in T. rewrite T. cbn [seq]. destruct stack as [|i stack].
    + inversion HP; subst. by exists EQUAL.
    + destruct (pend_pop _ _ _ _ _ HP) as (x1 & x2 & stack' & u1 & u2 & m1 & m2 & ps' & n' & -> & R1' & R2' & HP' & -> & -> & Hd').
      cbn [rbind compare_pairs]. apply (IH _ _ _ _ _ _ m1 m2 _ n'); try done. lia.
  - destruct T as [<- N]. exists r. split; [done|]. by destruct (outcome r) as [[]|].
Qed.
End Rep.

(** ** The comparisons of the language *)

Section Comparison.
Context (m : mem) (custom_ops : Z -> custom_compare) (call : Z -> Z -> Z -> Z * bool)
  (pending_actions : Z -> option exn).
Context (Hpending : forall k, pending_actions k = None).

#[local] Abbreviation compare := (caml_compare m custom_ops call pending_actions).

Lemma compare_val_correct total fuel v1 v2 t1 t2 n1 n2 :
  rep m v1 t1 n1 -> rep m v2 t2 n2 -> Z.of_nat (depth t1) < 2 ^ 19 -> (n1 + n2 <= fuel)%nat ->
  exists r, compare_val m custom_ops call pending_actions fuel v1 v2 total = Ok r /\
    outcome r = compare_trees total t1 t2.
Proof.
  intros R1 R2 Hd Hf.
  destruct (do_compare_val_correct m custom_ops call pending_actions (depth t1) Hd total fuel
    COMPARE_STACK_INIT_SIZE [] v1 v2 t1 t2 n1 n2 [] 0 COMPARE_POLL_PERIOD 0 Hpending R1 R2)
    as (r & E & O); [constructor|simpl; lia|lia|].
  exists r. split; [exact E|]. rewrite O. apply seq_Eq.
Qed.

Lemma caml_compare_correct fuel v1 v2 t1 t2 n1 n2 :
  rep m v1 t1 n1 -> rep m v2 t2 n2 -> Z.of_nat (depth t1) < 2 ^ 19 -> (n1 + n2 <= fuel)%nat ->
  compare fuel v1 v2 = Ok (Val_int (sign_of (lex_compare (keys t1) (keys t2)))).
Proof.
  intros R1 R2 Hd Hf. unfold caml_compare.
  destruct (compare_val_correct true fuel v1 v2 t1 t2 n1 n2 R1 R2 Hd Hf) as (r & -> & O). cbn [rbind].
  rewrite compare_trees_total in O by (by eapply rep_wf). unfold outcome in O.
  destruct (r =? UNORDERED); [done|]. injection O as O. rewrite <- O.
  destruct (Z.compare_spec r 0), (Z.ltb_spec r 0), (Z.ltb_spec 0 r); done || lia.
Qed.
End Comparison.

(** C15: Polymorphic comparison is the structural comparison of the trees that the values
    stand for: on integers, strings, floats, float arrays, objects and structured
    blocks, shared and forwarded as they may be, nested to a depth below [2 ^ 19], the
    loop with its explicit stack ends without overflow; [compare] gives the sign of the
    total comparison, and the six tests follow the comparison in which NaN is unordered
    ([<>] alone holds on unordered values), whatever the number of polls on the way. *)
Theorem polymorphic_comparison m custom_ops call pending_actions fuel v1 v2 t1 t2 n1 n2 :
  (forall k, pending_actions k = None) ->
  rep m v1 t1 n1 -> rep m v2 t2 n2 -> Z.of_nat (depth t1) < 2 ^ 19 -> (n1 + n2 <= fuel)%nat ->
  let test f := f m custom_ops call pending_actions fuel v1 v2 : result Z in
  let c := compare_trees false t1 t2 in
  (exists s, compare_trees true t1 t2 = Some s /\ test caml_compare = Ok (Val_int (sign_of s))) /\
  test caml_equal = Ok (Val_bool (bool_decide (c = Some Eq))) /\
  test caml_notequal = Ok (Val_bool (bool_decide (c <> Some Eq))) /\
  test caml_lessthan = Ok (Val_bool (bool_decide (c = Some Lt))) /\
  test caml_lessequal = Ok (Val_bool (bool_decide (c = Some Lt \/ c = Some Eq))) /\
  test caml_greaterthan = Ok (Val_bool (bool_decide (c = Some Gt))) /\
  test caml_greaterequal = Ok (Val_bool (bool_decide (c = Some Gt \/ c = Some Eq))).
Proof.
  intros Hp R1 R2 Hd Hf test c. split.
  { exists (lex_compare (keys t1) (keys t2)). split.
    - by apply compare_trees_total; eapply rep_wf.
    - by eapply caml_compare_correct. }
  destruct (compare_val_correct m custom_ops call pending_actions Hp false fuel v1 v2 t1 t2 n1 n2
    R1 R2 Hd Hf) as (r & E & O). fold c in O. unfold outcome in O. change UNORDERED with (- 2 ^ 63) in O.
  unfold test, caml_equal, caml_notequal, caml_lessthan, caml_lessequal, caml_greaterthan,
    caml_greaterequal. rewrite E. cbn [rbind]. change UNORDERED with (- 2 ^ 63).
  destruct (Z.eqb_spec r (- 2 ^ 63)) as [->|N]; rewrite <- O; [done|].
  destruct (Z.compare_spec r 0) as [->|L|L]; [done| |].
  - rewrite (eqb_ne r 0), (proj2 (Z.ltb_lt r 0)), (proj2 (Z.leb_le r 0)), (proj2 (Z.ltb_ge 0 r)),
      (proj2 (Z.leb_gt 0 r)) by lia. done.
  - rewrite (eqb_ne r 0), (proj2 (Z.ltb_ge r 0)), (proj2 (Z.leb_gt r 0)), (proj2 (Z.ltb_lt 0 r)),
      (proj2 (Z.leb_le 0 r)) by lia. done.
Qed.

(** C32: [compare] is a total preorder on the values it accepts: it is reflexive,
    swapping the arguments negates the result, and it is transitive, on NaN included
    (which is equal to itself and below every other float); two values that are equal
    for [compare] compare alike with every other value. *)
Theorem caml_compare_total_order m custom_ops call pending_actions fuel v1 v2 v3 t1 t2 t3 n1 n2 n3 :
  (forall k, pending_actions k = None) ->
  rep m v1 t1 n1 -> rep m v2 t2 n2 -> rep m v3 t3 n3 ->
  Z.of_nat (depth t1) < 2 ^ 19 -> Z.of_nat (depth t2) < 2 ^ 19 ->
  (2 * n1 + 2 * n2 + n3 <= fuel)%nat ->
  let compare := caml_compare m custom_ops call pending_actions fuel in
  exists s12 s23 s13,
    compare v1 v1 = Ok (Val_int 0) /\
    compare v1 v2 = Ok (Val_int (sign_of s12)) /\ compare v2 v1 = Ok (Val_int (- sign_of s12)) /\
    compare v2 v3 = Ok (Val_int (sign_of s23)) /\ compare v1 v3 = Ok (Val_int (sign_of s13)) /\
    (s12 <> Gt -> s23 <> Gt -> s13 <> Gt /\ (s13 = Eq <-> s12 = Eq /\ s23 = Eq)) /\
    (s12 = Eq -> s13 = s23).
Proof.
  intros Hp R1 R2 R3 D1 D2 Hf compare.
  assert (C : forall v t n v' t' n', rep m v t n -> rep m v' t' n' -> Z.of_nat (depth t) < 2 ^ 19 ->
    (n + n' <= fuel)%nat -> compare v v' = Ok (Val_int (sign_of (lex_compare (keys t) (keys t')))))
    by (intros; by eapply caml_compare_correct).
  exists (lex_compare (keys t1) (keys t2)), (lex_compare (keys t2) (keys t3)),
    (lex_compare (keys t1) (keys t3)). split_and!.
  - rewrite (C v1 t1 n1 v1 t1 n1) by (done || lia). by rewrite (proj2 (lex_compare_Eq _ _) eq_refl).
  - apply (C v1 t1 n1 v2 t2 n2); done || lia.
  - rewrite (C v2 t2 n2 v1 t1 n1) by (done || lia). rewrite (lex_compare_antisym (keys t1)).
    by destruct (lex_compare _ _).
  - apply (C v2 t2 n2 v3 t3 n3); done || lia.
  - apply (C v1 t1 n1 v3 t3 n3); done || lia.
  - intros N12 N23. pose proof (lex_compare_trans (keys t1) (keys t2) (keys t3)) as T.
    pose proof (lex_compare_Eq (keys t1) (keys t2)) as Q12. pose proof (lex_compare_Eq (keys t2) (keys t3)) as Q23.
    destruct (lex_compare (keys t1) (keys t2)) eqn:E12; [|destruct (lex_compare (keys t2) (keys t3)) eqn:E23|done].
    + rewrite (proj1 Q12 eq_refl). naive_solver.
    + rewrite <- (proj1 Q23 eq_refl), E12. naive_solver.
    + rewrite T by done. naive_solver.
    + done.
  - by intros ->%lex_compare_Eq.
Qed.

(** ** Examples: (1, "abc"), (1, "abd") and (1, nan) *)

Definition demo_mem : mem :=
  store_words (store_words (store_words ∅
    8 [Make_header 2 0; 3; 40; Make_header 1 String_tag; s64 (le_word [97; 98; 99; 0; 0; 0; 0; 4])])
    56 [Make_header 2 0; 3; 88; Make_header 1 String_tag; s64 (le_word [97; 98; 100; 0; 0; 0; 0; 4])])
    104 [Make_header 2 0; 3; 136; Make_header 1 Double_tag; 0x7FF8000000000000].

Definition demo_tree (t : tree) : tree := Block 0 [Int 1; t].

Lemma demo_rep v x t : is_block demo_mem v 0 [3; x] -> rep demo_mem x t 1 ->
  rep demo_mem v (demo_tree t) 3.
Proof.
  intros B R. apply (rep_block _ v 0 [3; x] [Int 1; t] 2); [done|done|].
  change 2%nat with (1 + (1 + 0))%nat. change (Int 1) with (Int (Long_val 3)).
  constructor; [constructor; [done|unfold is_s64; lia]|]. constructor; [done|constructor].
Qed.

Lemma demo_rep_abc : rep demo_mem 16 (demo_tree (Str [97; 98; 99])) 3.
Proof.
  apply (demo_rep 16 40); [split; [done|by exists (Make_header 2 0)]|].
  apply (rep_data _ 40 [s64 (le_word [97; 98; 99; 0; 0; 0; 0; 4])]).
  - split; [done|by exists (Make_header 1 String_tag)].
  - split; [|by vm_compute]. apply (bool_decide_unpack _). vm_compute. exact I.
Qed.

Lemma demo_rep_abd : rep demo_mem 64 (demo_tree (Str [97; 98; 100])) 3.
Proof.
  apply (demo_rep 64 88); [split; [done|by exists (Make_header 2 0)]|].
  apply (rep_data _ 88 [s64 (le_word [97; 98; 100; 0; 0; 0; 0; 4])]).
  - split; [done|by exists (Make_header 1 String_tag)].
  - split; [|by vm_compute]. apply (bool_decide_unpack _). vm_compute. exact I.
Qed.

Lemma demo_rep_nan : rep demo_mem 112 (demo_tree (Float 0x7FF8000000000000)) 3.
Proof.
  apply (demo_rep 112 136); [split; [done|by exists (Make_header 2 0)]|].
  apply (rep_data _ 136 [0x7FF8000000000000]); [split; [done|by exists (Make_header 1 Double_tag)]|done].
Qed.

Lemma polymorphic_comparison_witness :
  let test v1 v2 f := f demo_mem (fun _ => CustomCompare [] 0 0) (fun _ _ _ => (0, false))
    (fun _ => None) 6%nat v1 v2 : result Z in
  test 16 64 caml_compare = Ok (Val_int (-1)) /\ test 16 64 caml_lessthan = Ok Val_true /\
  test 112 112 caml_equal = Ok Val_false /\ test 112 112 caml_compare = Ok (Val_int 0).
Proof.
  destruct (polymorphic_comparison demo_mem (fun _ => CustomCompare [] 0 0) (fun _ _ _ => (0, false))
    (fun _ => None) 6 16 64 _ _ 3 3 (fun _ => eq_refl) demo_rep_abc demo_rep_abd)
    as ((s & E & C) & _ & _ & L & _); [reflexivity|lia|].
  destruct (polymorphic_comparison demo_mem (fun _ => CustomCompare [] 0 0) (fun _ _ _ => (0, false))
    (fun _ => None) 6 112 112 _ _ 3 3 (fun _ => eq_refl) demo_rep_nan demo_rep_nan)
    as ((s' & E' & C') & Q & _); [reflexivity|lia|].
  vm_compute in E, E'. injection E as <-. injection E' as <-.
  split; [exact C|]. split; [exact L|]. split; [exact Q|exact C'].
Defined.

Lemma caml_compare_total_order_witness :
  let compare := caml_compare demo_mem (fun _ => CustomCompare [] 0 0) (fun _ _ _ => (0, false))
    (fun _ => None) 15%nat in
  exists s, compare 16 64 = Ok (Val_int (sign_of s)) /\ compare 64 16 = Ok (Val_int (- sign_of s)).
Proof.
  destruct (caml_compare_total_order demo_mem (fun _ => CustomCompare [] 0 0) (fun _ _ _ => (0, false))
    (fun _ => None) 15 16 64 112 _ _ _ 3 3 3 (fun _ => eq_refl) demo_rep_abc demo_rep_abd demo_rep_nan)
    as (s12 & s23 & s13 & _ & E1 & E2 & _); [reflexivity|reflexivity|lia|].
  exists s12. split; [exact E1|exact E2].
Defined.
