(* ===== verification/Lexing.v ===== *)
(** * Table-driven lexers ([lexing.c], and the refill of [stdlib/lexing.ml])

    The automata that ocamllex generates, with the two engines: without and with a
    memory of positions.  When the engine is at the end of the buffer it returns to the
    caller with its state encoded as a negative number; the caller refills the buffer
    ([lex_refill]) and re-enters the engine in that state.

    [token] is the loop of the generated lexers.  [longest_match] is the automaton run on
    the whole input; the lexer computes it however the input is cut by the refills. *)

From S2P Require Import Prelude.
From S2P Require Import Mlvalues.
#[local] Open Scope Z_scope.

(** ** The engines *)

(** the fields that the engines use; integers and positions are values *)
Record lexer_buffer := LexerBuffer {
  lex_buffer : list Z;
  lex_buffer_len : Z;
  lex_abs_pos : Z;
  lex_start_pos : Z;
  lex_curr_pos : Z;
  lex_last_pos : Z;
  lex_last_action : Z;
  lex_eof_reached : Z;
  lex_mem : list Z }.

(** the tables are strings *)
Record lexing_table := LexingTable {
  lex_base : list Z;
  lex_backtrk : list Z;
  lex_default : list Z;
  lex_trans : list Z;
  lex_check : list Z;
  lex_base_code : list Z;
  lex_backtrk_code : list Z;
  lex_default_code : list Z;
  lex_trans_code : list Z;
  lex_check_code : list Z;
  lex_code : list Z }.

(** ((short * )(tbl))[n] *)
Definition Short (tbl : list Z) (n : Z) : result Z :=
  let* b0 := rd tbl (2 * n) in
  let* b1 := rd tbl (2 * n + 1) in
  Ok (s16 (b0 + 256 * b1)).

Definition set_curr_pos (lb : lexer_buffer) (p : Z) : lexer_buffer :=
  LexerBuffer (lex_buffer lb) (lex_buffer_len lb) (lex_abs_pos lb) (lex_start_pos lb) p
    (lex_last_pos lb) (lex_last_action lb) (lex_eof_reached lb) (lex_mem lb).
Definition set_last (lb : lexer_buffer) (pos action : Z) : lexer_buffer :=
  LexerBuffer (lex_buffer lb) (lex_buffer_len lb) (lex_abs_pos lb) (lex_start_pos lb)
    (lex_curr_pos lb) pos action (lex_eof_reached lb) (lex_mem lb).
Definition set_eof (lb : lexer_buffer) (b : Z) : lexer_buffer :=
  LexerBuffer (lex_buffer lb) (lex_buffer_len lb) (lex_abs_pos lb) (lex_start_pos lb)
    (lex_curr_pos lb) (lex_last_pos lb) (lex_last_action lb) b (lex_mem lb).
Definition set_mem (lb : lexer_buffer) (mem : list Z) : lexer_buffer :=
  LexerBuffer (lex_buffer lb) (lex_buffer_len lb) (lex_abs_pos lb) (lex_start_pos lb)
    (lex_curr_pos lb) (lex_last_pos lb) (lex_last_action lb) (lex_eof_reached lb) mem.

(** the end of a call: a value, or an exception (the buffer keeps its changes) *)
Inductive lex_outcome :=
  | Returned (v : Z)
  | Failed (e : exn).

(** one turn of the loop: the end of the call, or the next state *)
Inductive lex_next :=
  | Done (r : lex_outcome) (lb : lexer_buffer)
  | Next (state : Z) (lb : lexer_buffer).

(** First entry; the state *)
Definition lex_entry (start_state : Z) (lb : lexer_buffer) : Z * lexer_buffer :=
  let state := Int_val start_state in
  if 0 <=? state then
    (state, LexerBuffer (lex_buffer lb) (lex_buffer_len lb) (lex_abs_pos lb) (lex_curr_pos lb)
              (lex_curr_pos lb) (lex_curr_pos lb) (Val_int (-1)) (lex_eof_reached lb) (lex_mem lb))
  else (- state - 1, lb).

(** the next character, 256 at the end of the input; none when a refill is needed *)
Definition lex_char (lb : lexer_buffer) : result (option (Z * lexer_buffer)) :=
  if lex_buffer_len lb <=? lex_curr_pos lb then
    Ok (if lex_eof_reached lb =? Val_bool false then None else Some (256, lb))
  else
    let* c := rd (lex_buffer lb) (Long_val (lex_curr_pos lb)) in
    Ok (Some (c, set_curr_pos lb (lex_curr_pos lb + 2))).

(** the next state *)
Definition lex_transition (tbl : lexing_table) (state base c : Z) : result Z :=
  let* k := Short (lex_check tbl) (base + c) in
  if k =? state then Short (lex_trans tbl) (base + c) else Short (lex_default tbl) state.

(** no transition: back to the last backtrack point *)
Definition lex_backtrack (lb : lexer_buffer) : lex_next :=
  let lb := set_curr_pos lb (lex_last_pos lb) in
  if lex_last_action lb =? Val_int (-1) then Done (Failed (Failure "lexing: empty token")) lb
  else Done (Returned (lex_last_action lb)) lb.

Definition erase_eof (c : Z) (lb : lexer_buffer) : lexer_buffer :=
  if c =? 256 then set_eof lb (Val_bool false) else lb.

Definition lex_step (tbl : lexing_table) (state : Z) (lb : lexer_buffer) : result lex_next :=
  let* base := Short (lex_base tbl) state in
  if base <? 0 then Ok (Done (Returned (Val_int (- base - 1))) lb) else
  let* backtrk := Short (lex_backtrk tbl) state in
  let lb := if 0 <=? backtrk then set_last lb (lex_curr_pos lb) (Val_int backtrk) else lb in
  let* r := lex_char lb in
  match r with
  | None => Ok (Done (Returned (Val_int (- state - 1))) lb)
  | Some (c, lb) =>
      let* state := lex_transition tbl state base c in
      if state <? 0 then Ok (lex_backtrack lb) else Ok (Next state (erase_eof c lb))
  end.

Fixpoint lex_loop (step : Z -> lexer_buffer -> result lex_next) (fuel : nat) (state : Z)
    (lb : lexer_buffer) {struct fuel} : result (lex_outcome * lexer_buffer) :=
  match fuel with
  | O => NoFuel
  | S fuel =>
      let* n := step state lb in
      match n with
      | Done r lb => Ok (r, lb)
      | Next state lb => lex_loop step fuel state lb
      end
  end.

Definition caml_lex_engine (fuel : nat) (tbl : lexing_table) (start_state : Z) (lb : lexer_buffer)
    : result (lex_outcome * lexer_buffer) :=
  let (state, lb) := lex_entry start_state lb in
  lex_loop (lex_step tbl) fuel state lb.

(** ** The engine with a memory of positions *)

(** the moves at [pc] *)
Fixpoint run_mem (fuel : nat) (code : list Z) (pc : Z) (mem : list Z) (curr_pos : Z)
    {struct fuel} : result (list Z) :=
  match fuel with
  | O => NoFuel
  | S fuel =>
      let* dst := rd code pc in
      if dst =? 0xff then Ok mem else
      let* src := rd code (pc + 1) in
      let* x := if src =? 0xff then Ok curr_pos else rd mem src in
      let* mem := wr mem dst x in
      run_mem fuel code (pc + 2) mem curr_pos
  end.
Fixpoint run_tag (fuel : nat) (code : list Z) (pc : Z) (mem : list Z) {struct fuel}
    : result (list Z) :=
  match fuel with
  | O => NoFuel
  | S fuel =>
      let* dst := rd code pc in
      if dst =? 0xff then Ok mem else
      let* src := rd code (pc + 1) in
      let* x := if src =? 0xff then Ok (Val_int (-1)) else rd mem src in
      let* mem := wr mem dst x in
      run_tag fuel code (pc + 2) mem
  end.

(** enough fuel: each turn reads two bytes of the code *)
Definition code_fuel (tbl : lexing_table) : nat := S (length (lex_code tbl)).

Definition tag_at (tbl : lexing_table) (codes : list Z) (state : Z) (lb : lexer_buffer)
    : result lexer_buffer :=
  let* pc_off := Short codes state in
  let* mem := run_tag (code_fuel tbl) (lex_code tbl) pc_off (lex_mem lb) in
  Ok (set_mem lb mem).

(** the memory moves of a transition *)
Definition mem_moves (tbl : lexing_table) (pstate c : Z) (lb : lexer_buffer) : result lexer_buffer :=
  let* base_code := Short (lex_base_code tbl) pstate in
  let* k := Short (lex_check_code tbl) (base_code + c) in
  let* pc_off := if k =? pstate then Short (lex_trans_code tbl) (base_code + c)
                 else Short (lex_default_code tbl) pstate in
  if 0 <? pc_off then
    let* mem := run_mem (code_fuel tbl) (lex_code tbl) pc_off (lex_mem lb) (lex_curr_pos lb) in
    Ok (set_mem lb mem)
  else Ok lb.

Definition new_lex_step (tbl : lexing_table) (state : Z) (lb : lexer_buffer) : result lex_next :=
  let* base := Short (lex_base tbl) state in
  if base <? 0 then
    let* lb := tag_at tbl (lex_base_code tbl) state lb in
    Ok (Done (Returned (Val_int (- base - 1))) lb)
  else
  let* backtrk := Short (lex_backtrk tbl) state in
  let* lb :=
    if 0 <=? backtrk then
      let* lb := tag_at tbl (lex_backtrk_code tbl) state lb in
      Ok (set_last lb (lex_curr_pos lb) (Val_int backtrk))
    else Ok lb in
  let* r := lex_char lb in
  match r with
  | None => Ok (Done (Returned (Val_int (- state - 1))) lb)
  | Some (c, lb) =>
      let pstate := state in
      let* state := lex_transition tbl state base c in
      if state <? 0 then Ok (lex_backtrack lb) else
      let* lb := mem_moves tbl pstate c lb in
      Ok (Next state (erase_eof c lb))
  end.

Definition caml_new_lex_engine (fuel : nat) (tbl : lexing_table) (start_state : Z) (lb : lexer_buffer)
    : result (lex_outcome * lexer_buffer) :=
  let (state, lb) := lex_entry start_state lb in
  lex_loop (new_lex_step tbl) fuel state lb.

(** ** Refills *)

(** [Sys.max_string_length] *)
Definition max_string_length : Z := 2 ^ 57 - 9.

(** the valid data moved to the front of [buf], the [start] bytes before it dropped *)
Definition shift_buffer (lb : lexer_buffer) (buf : list Z) (start : Z) : lexer_buffer :=
  let move p := Val_long (Long_val p - start) in
  LexerBuffer buf (move (lex_buffer_len lb)) (Val_long (Long_val (lex_abs_pos lb) + start))
    (Val_long 0) (move (lex_curr_pos lb)) (move (lex_last_pos lb)) (lex_last_action lb)
    (lex_eof_reached lb) (map (fun v => if 0 <=? Long_val v then move v else v) (lex_mem lb)).

(** room for [n] bytes at the end of the data (the contents of [Bytes.create] are arbitrary:
    zeros here) *)
Definition make_room (n : Z) (lb : lexer_buffer) : result lexer_buffer :=
  let len := Long_val (lex_buffer_len lb) in
  let start := Long_val (lex_start_pos lb) in
  if zlen (lex_buffer lb) <? len + n then
    let valid := take (Z.to_nat (len - start)) (drop (Z.to_nat start) (lex_buffer lb)) in
    let* buf :=
      if len - start + n <=? zlen (lex_buffer lb) then memcpy (lex_buffer lb) 0 valid
      else
        let newlen := Z.min (2 * zlen (lex_buffer lb)) max_string_length in
        if newlen <? len - start + n then Raise (Failure "Lexing.lex_refill: cannot grow buffer")
        else memcpy (replicate (Z.to_nat newlen) 0) 0 valid in
    Ok (shift_buffer lb buf start)
  else Ok lb.

(** [lex_refill], when [read_fun] returns the bytes [chunk] *)
Definition lex_refill (chunk : list Z) (lb : lexer_buffer) : result lexer_buffer :=
  let n := zlen chunk in
  let lb := if 0 <? n then lb else set_eof lb (Val_bool true) in
  let* lb := make_room n lb in
  let* buf := memcpy (lex_buffer lb) (Long_val (lex_buffer_len lb)) chunk in
  Ok (LexerBuffer buf (Val_long (Long_val (lex_buffer_len lb) + n)) (lex_abs_pos lb) (lex_start_pos lb)
        (lex_curr_pos lb) (lex_last_pos lb) (lex_last_action lb) (lex_eof_reached lb) (lex_mem lb)).

(** the turns that an engine makes before it returns, at most *)
Definition lex_measure (lb : lexer_buffer) : nat :=
  (Z.to_nat (Long_val (lex_buffer_len lb) - Long_val (lex_curr_pos lb)) +
   if (lex_eof_reached lb =? Val_bool false)%Z then 1 else 2)%nat.

(** the loop of a generated lexer: the reads give the strings of [chunks], then none *)
Fixpoint token (fuel : nat) (tbl : lexing_table) (state : Z) (lb : lexer_buffer)
    (chunks : list (list Z)) {struct fuel} : result (lex_outcome * lexer_buffer * list (list Z)) :=
  match fuel with
  | O => NoFuel
  | S fuel =>
      let* (r, lb) := caml_lex_engine (S (lex_measure lb)) tbl state lb in
      match r with
      | Returned v =>
          if 0 <=? Int_val v then Ok (r, lb, chunks) else
          let* lb := lex_refill (default [] (head chunks)) lb in
          token fuel tbl v lb (tail chunks)
      | Failed _ => Ok (r, lb, chunks)
      end
  end.

(** ** The automaton on the whole input *)

(** what the token is: the action, and where it ends in the input *)
Inductive match_result :=
  | Matched (action len : Z)
  | NoMatch (len : Z).     (* "lexing: empty token"; [len]: the characters given back to *)

(** the automaton in [state] at position [i] of [input]; [last]: the last backtrack point,
    its action and its position.  After the end of the input come end-of-file characters *)
Fixpoint longest_match (fuel : nat) (tbl : lexing_table) (input : list Z) (state i : Z)
    (last : option (Z * Z)) {struct fuel} : result match_result :=
  match fuel with
  | O => NoFuel
  | S fuel =>
      let* base := Short (lex_base tbl) state in
      if base <? 0 then Ok (Matched (- base - 1) i) else
      let* backtrk := Short (lex_backtrk tbl) state in
      let last := if 0 <=? backtrk then Some (backtrk, i) else last in
      let (c, j) := match input !! Z.to_nat i with Some c => (c, i + 1) | None => (256, i) end in
      let* next := lex_transition tbl state base c in
      if next <? 0 then
        Ok (match last with Some (action, p) => Matched action p | None => NoMatch 0 end)
      else longest_match fuel tbl input next j last
  end.

(** ** Buffers *)

(** the positions [st] <= [lp] <= [cu] <= [len] of a buffer *)
Record positions (lb : lexer_buffer) (st lp cu len : Z) : Prop := {
  lo_start : lex_start_pos lb = Val_long st;
  lo_last : lex_last_pos lb = Val_long lp;
  lo_curr : lex_curr_pos lb = Val_long cu;
  lo_len : lex_buffer_len lb = Val_long len;
  lo_order : 0 <= st <= lp /\ lp <= cu <= len /\ len <= zlen (lex_buffer lb);
  lo_size : 512 <= zlen (lex_buffer lb) <= max_string_length }.

(** the reads to come, after which the end of the input is reached *)
Definition reads_ok (lb : lexer_buffer) (chunks : list (list Z)) : Prop :=
  (lex_eof_reached lb = Val_bool false \/ (lex_eof_reached lb = Val_bool true /\ chunks = [])) /\
  Forall (fun c => 0 < zlen c <= 512) chunks.

(** the bytes from [a] to [b] *)
Definition segment (l : list Z) (a b : Z) : list Z := take (Z.to_nat (b - a)) (drop (Z.to_nat a) l).

(** the input from the start of the token on *)
Definition input_from (lb : lexer_buffer) (chunks : list (list Z)) (p len : Z) : list Z :=
  segment (lex_buffer lb) p len ++ concat chunks.

Lemma segment_length l a b : 0 <= a <= b -> b <= zlen l -> zlen (segment l a b) = b - a.
Proof. intros. unfold segment, zlen in *. rewrite length_take, length_drop. lia. Qed.

Lemma segment_lookup l a b i :
  0 <= a -> 0 <= i < b - a -> segment l a b !! Z.to_nat i = l !! Z.to_nat (a + i).
Proof.
  intros. unfold segment. rewrite lookup_take_lt, lookup_drop by lia. f_equal. lia.
Qed.

Lemma segment_split l a b c :
  0 <= a <= b -> b <= c -> segment l a c = segment l a b ++ segment l b c.
Proof.
  intros. unfold segment. replace (drop (Z.to_nat b) l) with (drop (Z.to_nat (b - a)) (drop (Z.to_nat a) l))
    by (rewrite drop_drop; f_equal; lia).
  rewrite take_take_drop. f_equal. lia.
Qed.

(** the bytes [data] written at [p] *)
Lemma memcpy_segment (buf : list Z) p data :
  0 <= p -> p + zlen data <= zlen buf ->
  exists buf', memcpy buf p data = Ok buf' /\ zlen buf' = zlen buf /\
    forall a, 0 <= a <= p -> segment buf' a (p + zlen data) = segment buf a p ++ data.
Proof.
  intros Hp Hl. rewrite memcpy_Ok by done. eexists. split; [done|]. unfold zlen in *. split.
  - rewrite !length_app, length_take, length_drop. lia.
  - intros a Ha. unfold segment.
    rewrite drop_app_le, app_assoc by (rewrite length_take; lia).
    rewrite take_app_le by (rewrite length_app, length_drop, length_take; lia).
    rewrite take_ge by (rewrite length_app, length_drop, length_take; lia).
    f_equal. rewrite take_drop_commute. do 2 f_equal. lia.
Qed.

(** the valid data moved to the front of a buffer *)
Lemma memcpy_front (buf data : list Z) :
  zlen data <= zlen buf ->
  exists buf', memcpy buf 0 data = Ok buf' /\ zlen buf' = zlen buf /\ segment buf' 0 (zlen data) = data.
Proof.
  intros Hl. destruct (memcpy_segment buf 0 data) as (buf' & E & L & S); [lia|lia|].
  exists buf'. split_and!; [done|done|]. rewrite <- (Z.add_0_l (zlen data)), (S 0) by lia.
  unfold segment. by rewrite Z.sub_0_r.
Qed.

Lemma make_room_ok n lb st lp cu len :
  positions lb st lp cu len -> 0 <= n <= 512 -> len - st + n < 2 ^ 56 ->
  exists lb' s, make_room n lb = Ok lb' /\
    positions lb' (st - s) (lp - s) (cu - s) (len - s) /\ len - s + n <= zlen (lex_buffer lb') /\
    segment (lex_buffer lb') (st - s) (len - s) = segment (lex_buffer lb) st len /\
    lex_last_action lb' = lex_last_action lb /\ lex_eof_reached lb' = lex_eof_reached lb.
Proof.
  intros [A B C L (O1 & O2 & O3) Z] Hn Hi. unfold make_room, max_string_length in *.
  rewrite A, L, !Long_val_long_id by (unfold is_s63; lia).
  destruct (Z.ltb_spec (zlen (lex_buffer lb)) (len + n)) as [G|G].
  2:{ exists lb, 0. rewrite !Z.sub_0_r. split_and!; try done. }
  pose proof (segment_length (lex_buffer lb) st len) as Ls. fold (segment (lex_buffer lb) st len).
  assert (Shift : forall buf', zlen (segment (lex_buffer lb) st len) = len - st ->
    segment buf' 0 (len - st) = segment (lex_buffer lb) st len ->
    512 <= zlen buf' <= 2 ^ 57 - 9 -> len - st + n <= zlen buf' ->
    exists lb' s, Ok (shift_buffer lb buf' st) = Ok lb' /\
    positions lb' (st - s) (lp - s) (cu - s) (len - s) /\ len - s + n <= zlen (lex_buffer lb') /\
    segment (lex_buffer lb') (st - s) (len - s) = segment (lex_buffer lb) st len /\
    lex_last_action lb' = lex_last_action lb /\ lex_eof_reached lb' = lex_eof_reached lb).
  { intros buf' _ S' Z' R'. exists (shift_buffer lb buf' st), st. split; [done|].
    unfold shift_buffer. rewrite B, C, L, !Long_val_long_id by (unfold is_s63; lia).
    split_and!; try done; [|by rewrite Z.sub_diag]. split; cbn; rewrite ?Z.sub_diag; try done. lia. }
  destruct (Z.leb_spec (len - st + n) (zlen (lex_buffer lb))) as [R|R].
  - destruct (memcpy_front (lex_buffer lb) (segment (lex_buffer lb) st len)) as (buf' & -> & L' & S'); [lia|].
    cbn [rbind]. rewrite Ls in S' by lia. apply Shift; [lia|done|lia|lia].
  - set (newlen := Z.min (2 * zlen (lex_buffer lb)) (2 ^ 57 - 9)) in *.
    destruct (Z.ltb_spec newlen (len - st + n)) as [Q|Q]; [lia|].
    assert (Lr : zlen (replicate (Z.to_nat newlen) 0) = newlen)
      by (unfold zlen; rewrite length_replicate; lia).
    destruct (memcpy_front (replicate (Z.to_nat newlen) 0) (segment (lex_buffer lb) st len))
      as (buf' & -> & L' & S'); [lia|]. cbn [rbind]. rewrite Ls in S' by lia. apply Shift; [lia|done|lia|lia].
Qed.

(** the refill moves the positions by [s] and adds the chunk *)
Lemma lex_refill_ok lb chunks st lp cu len :
  positions lb st lp cu len -> reads_ok lb chunks -> zlen (input_from lb chunks st len) < 2 ^ 56 ->
  let chunk := default [] (head chunks) in
  exists lb' s, lex_refill chunk lb = Ok lb' /\
    positions lb' (st - s) (lp - s) (cu - s) (len - s + zlen chunk) /\ reads_ok lb' (tail chunks) /\
    input_from lb' (tail chunks) (st - s) (len - s + zlen chunk) = input_from lb chunks st len /\
    lex_last_action lb' = lex_last_action lb /\
    (zlen chunk <= 0 -> lex_eof_reached lb' = Val_bool true).
Proof.
  intros P [E H] Hi chunk. pose proof P as [_ _ _ _ (O1 & O2 & O3) Z].
  assert (Hn : 0 <= zlen chunk <= 512 /\ concat chunks = chunk ++ concat (tail chunks)).
  { unfold chunk. destruct H as [|c cs Hc _]; [by split|]. simpl. split; [lia|done]. }
  destruct Hn as [Hn Hcat]. unfold input_from in *.
  rewrite zlen_app, Hcat, zlen_app, segment_length in Hi by lia.
  pose proof (zlen_nonneg (concat (tail chunks))). unfold lex_refill.
  set (lb1 := if 0 <? zlen chunk then lb else set_eof lb (Val_bool true)).
  assert (P1 : positions lb1 st lp cu len /\ lex_buffer lb1 = lex_buffer lb /\
    lex_last_action lb1 = lex_last_action lb) by (unfold lb1; destruct (0 <? zlen chunk); by destruct P).
  assert (E1 : (lex_eof_reached lb1 = Val_bool false \/ (lex_eof_reached lb1 = Val_bool true /\ tail chunks = [])) /\
    (zlen chunk <= 0 -> lex_eof_reached lb1 = Val_bool true)).
  { unfold lb1. destruct (Z.ltb_spec 0 (zlen chunk)) as [G|G].
    - split; [|lia]. destruct E as [E|[E ->]]; [by left|]. right. by split.
    - split; [|done]. right. split; [done|]. unfold chunk in G. destruct H as [|c cs Hc _]; [done|].
      simpl in G. lia. }
  destruct P1 as (P1 & B1 & A1), E1 as [E1 E2].
  destruct (make_room_ok (zlen chunk) lb1 st lp cu len P1) as (lb2 & s & -> & P2 & R2 & S2 & A2 & F2); [lia|lia|].
  cbn [rbind]. pose proof P2 as [Q1 Q2 Q3 Q4 Q5 Q6]. unfold max_string_length in Q6.
  rewrite Q4, Long_val_long_id by (unfold is_s63; lia).
  destruct (memcpy_segment (lex_buffer lb2) (len - s) chunk) as (buf & -> & L3 & S3); [lia|lia|].
  cbn [rbind]. do 2 eexists. split; [done|]. split_and!; cbn.
  - split; cbn; try done; unfold max_string_length; lia.
  - split; [by rewrite F2|]. by destruct H.
  - by rewrite (S3 (st - s)), S2, B1, Hcat, app_assoc by lia.
  - by rewrite A2.
  - intros G. rewrite F2. by apply E2.
Qed.

(** ** The invariant of a scan *)

Lemma Short_range tbl n v : Short tbl n = Ok v -> - 2 ^ 15 <= v < 2 ^ 15.
Proof.
  unfold Short. destruct (rd tbl _); [|done..]. destruct (rd tbl _); [|done..].
  cbn [rbind]. intros [= <-]. solve_word.
Qed.

Lemma lex_transition_range tbl state base c v :
  lex_transition tbl state base c = Ok v -> - 2 ^ 15 <= v < 2 ^ 15.
Proof.
  unfold lex_transition. destruct (Short _ _); [|done..]. cbn [rbind].
  case_if E; apply Short_range.
Qed.

(** the backtrack point of the buffer, and the one of the automaton *)
Definition backtrack_point (lb : lexer_buffer) (st lp : Z) (last : option (Z * Z)) : Prop :=
  match last with
  | None => lex_last_action lb = Val_int (-1) /\ lp = st
  | Some (action, p) => lex_last_action lb = Val_int action /\ 0 <= action < 2 ^ 15 /\ p = lp - st
  end.

(** the engine in the middle of a token: the automaton at position [i] of [input] *)
Definition scanning (lb : lexer_buffer) (chunks : list (list Z)) (input : list Z) (i : Z)
    (last : option (Z * Z)) : Prop :=
  exists st lp len, positions lb st lp (st + i) len /\ reads_ok lb chunks /\
    input_from lb chunks st len = input /\ backtrack_point lb st lp last.

(** the token has been found *)
Definition recognised (res : match_result) (r : lex_outcome) (lb : lexer_buffer)
    (chunks : list (list Z)) (input : list Z) : Prop :=
  exists st lp cu len, positions lb st lp cu len /\ reads_ok lb chunks /\
    input_from lb chunks st len = input /\
    match res with
    | Matched action n => 0 <= action < 2 ^ 16 /\ r = Returned (Val_int action) /\ cu = st + n
    | NoMatch n => r = Failed (Failure "lexing: empty token") /\ cu = st + n
    end.

(** a character can be read *)
Definition lex_ready (lb : lexer_buffer) : Prop :=
  (lex_buffer_len lb <=? lex_curr_pos lb) = false \/ lex_eof_reached lb = Val_bool true.

Lemma lex_backtrack_ok lb chunks input i last :
  scanning lb chunks input i last -> 0 <= i ->
  exists r lb', lex_backtrack lb = Done r lb' /\
    recognised (match last with Some (action, p) => Matched action p | None => NoMatch 0 end)
      r lb' chunks input.
Proof.
  intros (st & lp & len & [A B C D E F] & R & I & K) Hi. unfold lex_backtrack. cbn.
  assert (G : forall r, exists r' lb', Done r (set_curr_pos lb (lex_last_pos lb)) = Done r' lb' /\ r' = r /\
    exists st lp cu len, (positions lb' st lp cu len /\ reads_ok lb' chunks /\
      input_from lb' chunks st len = input) /\ lex_last_action lb' = lex_last_action lb /\ cu = lp /\
      backtrack_point lb' st lp last).
  { intros r. do 2 eexists. split; [done|]. split; [done|]. exists st, lp, lp, len.
    split_and!; try done. split; cbn; try done. lia. }
  destruct last as [[action p]|]; cbn in K.
  - destruct K as (-> & Ha & ->). rewrite Val_long_eqb by solve_word.
    destruct (Z.eqb_spec action (-1)); [lia|].
    destruct (G (Returned (Val_int action))) as (r & lb' & -> & -> & st' & lp' & cu' & len' & (P & R' & I') & _ & -> & K).
    cbn in K. destruct K as (_ & _ & K). exists (Returned (Val_int action)), lb'. split; [done|].
    exists st', lp', lp', len'. split_and!; try done; lia.
  - destruct K as [-> ->]. rewrite Z.eqb_refl.
    destruct (G (Failed (Failure "lexing: empty token"))) as (r & lb' & -> & -> & st' & lp' & cu' & len' & (P & R' & I') & _ & -> & K).
    destruct K as [_ ->]. do 2 eexists. split; [done|]. exists st', st', st', len'. split_and!; try done. lia.
Qed.

Lemma scanning_bounds lb chunks input i st lp len :
  positions lb st lp (st + i) len -> input_from lb chunks st len = input -> zlen input < 2 ^ 56 ->
  0 <= i <= len - st /\ is_s63 (st + i) /\ is_s63 len /\ len - st <= zlen input.
Proof.
  intros [_ _ _ _ (O1 & O2 & O3) S] <- Hi. unfold input_from in Hi |- *.
  rewrite zlen_app, segment_length in Hi |- * by lia. pose proof (zlen_nonneg (concat chunks)).
  unfold max_string_length in S. solve_word.
Qed.

(** what [lex_char] gives, and the automaton's character *)
Lemma lex_char_ok lb chunks input i last :
  scanning lb chunks input i last -> is_bytes input -> zlen input < 2 ^ 56 ->
  (exists c lb' j, lex_char lb = Ok (Some (c, lb')) /\
     match input !! Z.to_nat i with Some c => (c, i + 1) | None => (256, i) end = (c, j) /\
     scanning (erase_eof c lb') chunks input j last /\ scanning lb' chunks input j last /\
     lex_measure lb = S (lex_measure (erase_eof c lb'))) \/
  (lex_char lb = Ok None /\ ~ lex_ready lb).
Proof.
  intros (st & lp & len & P & R & I & K) Hb Hi.
  destruct (scanning_bounds lb chunks input i st lp len P I Hi) as (Bi & S1 & S2 & Li).
  pose proof P as [A B C D (O1 & O2 & O3) E]. unfold lex_char, lex_ready. rewrite C, D.
  rewrite Z.leb_antisym, Val_long_lt, <- Z.leb_antisym by done.
  destruct (Z.leb_spec len (st + i)) as [G|G].
  - destruct R as [[F|[F Hc]] R'].
    + right. rewrite F, Z.eqb_refl. split; [done|]. intros [?|Q]; [done|]. by vm_compute in Q.
    + left. rewrite F. exists 256, lb, i. split; [done|].
      assert (N : input !! Z.to_nat i = None).
      { apply lookup_ge_None_2. rewrite <- I. unfold input_from. subst chunks. cbn.
        rewrite app_nil_r. pose proof (segment_length (lex_buffer lb) st len). unfold zlen in *. lia. }
      rewrite N. unfold erase_eof. change (256 =? 256) with true. cbn iota. split_and!; try done.
      * exists st, lp, len. split_and!; try done. split; [by left|done].
      * exists st, lp, len. split_and!; try done. split; [by right|done].
      * unfold lex_measure. cbn. rewrite F, Z.eqb_refl.
        change (Val_bool true =? Val_bool false) with false. cbn iota. lia.
  - left. rewrite Long_val_long_id by done. rewrite rd_zget by lia. cbn [rbind].
    assert (N : input !! Z.to_nat i = Some (zget (lex_buffer lb) (st + i))).
    { rewrite <- I. unfold input_from. apply lookup_app_l_Some. rewrite segment_lookup by lia.
      by apply rd_Ok, rd_zget; lia. }
    assert (U : is_u8 (zget (lex_buffer lb) (st + i)))
      by (unfold is_bytes in Hb; rewrite Forall_lookup in Hb; by eapply Hb).
    assert (Er : forall lb', erase_eof (zget (lex_buffer lb) (st + i)) lb' = lb').
    { intros lb'. unfold erase_eof. case_if Q; [unfold is_u8 in U; lia|done]. }
    rewrite N. do 3 eexists. split; [done|]. split; [done|].
    replace (Val_long (st + i) + 2) with (Val_long (st + (i + 1)))
      by (rewrite !Val_long_s63 by solve_word; lia).
    assert (scanning (set_curr_pos lb (Val_long (st + (i + 1)))) chunks input (i + 1) last).
    { exists st, lp, len. split_and!; try done. split; cbn; try done; lia. }
    rewrite Er. split_and!; try done.
    unfold lex_measure. cbn [set_curr_pos lex_buffer_len lex_curr_pos lex_eof_reached].
    rewrite C, D, !Long_val_long_id by solve_word. lia.
Qed.

Lemma scanning_backtrk lb chunks input i last backtrk :
  scanning lb chunks input i last -> backtrk < 2 ^ 15 ->
  let lb' := if 0 <=? backtrk then set_last lb (lex_curr_pos lb) (Val_int backtrk) else lb in
  scanning lb' chunks input i (if 0 <=? backtrk then Some (backtrk, i) else last) /\
  lex_measure lb' = lex_measure lb /\ (lex_ready lb' <-> lex_ready lb).
Proof.
  intros (st & lp & len & [A B C D E F] & R & I & K) Hb. cbn.
  destruct (Z.leb_spec 0 backtrk); [|split_and!; [by exists st, lp, len|done..]].
  split_and!; [|done..]. exists st, (st + i), len. split_and!; try done.
  - split; cbn; try done; lia.
  - cbn. split_and!; [done|lia|lia|lia].
Qed.

(** one turn of the engine follows one step of the automaton; without a character, it
    asks for a refill in the same state *)
Lemma lex_step_ok tbl k lb chunks input state i last res :
  scanning lb chunks input i last -> is_bytes input -> zlen input < 2 ^ 56 -> 0 <= i ->
  longest_match (S k) tbl input state i last = Ok res ->
  (exists r lb', lex_step tbl state lb = Ok (Done r lb') /\ recognised res r lb' chunks input) \/
  (exists state' lb' i' last', lex_step tbl state lb = Ok (Next state' lb') /\
     scanning lb' chunks input i' last' /\ 0 <= i' /\ 0 <= state' < 2 ^ 15 /\
     longest_match k tbl input state' i' last' = Ok res /\ lex_measure lb = S (lex_measure lb')) \/
  (exists lb' last', lex_step tbl state lb = Ok (Done (Returned (Val_int (- state - 1))) lb') /\
     scanning lb' chunks input i last' /\ ~ lex_ready lb /\
     longest_match (S k) tbl input state i last' = Ok res).
Proof.
  intros Sc Hb Hi Hpos L. pose proof L as L0. cbn [longest_match] in L0. unfold lex_step.
  destruct (Short (lex_base tbl) state) as [base| | |] eqn:Eb; try done. cbn [rbind] in L0 |- *.
  pose proof (Short_range _ _ _ Eb) as Rb.
  destruct (Z.ltb_spec base 0) as [Gb|Gb].
  { left. do 2 eexists. split; [done|]. injection L0 as <-.
    destruct Sc as (st & lp & len & P & R & I & K). exists st, lp, (st + i), len.
    split_and!; try done; lia. }
  destruct (Short (lex_backtrk tbl) state) as [backtrk| | |] eqn:Ek; try done. cbn [rbind] in L0 |- *.
  pose proof (Short_range _ _ _ Ek) as Rk.
  destruct (scanning_backtrk lb chunks input i last backtrk Sc) as (Sc' & Me & Re); [lia|].
  cbn zeta. revert Sc' Me Re L0.
  set (lb1 := if 0 <=? backtrk then _ else lb). set (last1 := if 0 <=? backtrk then _ else last).
  intros Sc' Me Re L0.
  destruct (lex_char_ok lb1 chunks input i last1 Sc' Hb Hi) as [(c & lb2 & j & -> & Ej & S2 & S2' & M2)|[-> N]].
  - rewrite Ej in L0. cbn [rbind] in L0 |- *.
    assert (Hj : 0 <= j) by (destruct (input !! Z.to_nat i); injection Ej; lia).
    destruct (lex_transition tbl state base c) as [next| | |] eqn:Et; try done. cbn [rbind] in L0 |- *.
    pose proof (lex_transition_range _ _ _ _ _ Et) as Rt.
    destruct (Z.ltb_spec next 0) as [Gn|Gn].
    + left. injection L0 as <-. destruct (lex_backtrack_ok lb2 chunks input j last1 S2' Hj) as (r & lb' & -> & Q).
      by exists r, lb'.
    + right. left. exists next, (erase_eof c lb2), j, last1. split_and!; try done; [lia|]. by rewrite <- Me.
  - right. right. exists lb1, last1. cbn [rbind]. split_and!; try done; [by rewrite <- Re|].
    rewrite <- L. cbn [longest_match]. rewrite Eb, Ek. cbn [rbind]. unfold last1.
    by destruct (base <? 0), (0 <=? backtrk).
Qed.

(** ** The loop of the generated lexer *)

(** what a generated lexer does with the rest of a call of the engine *)
Definition resume (fuel n : nat) (tbl : lexing_table) (state : Z) (lb : lexer_buffer)
    (chunks : list (list Z)) : result (lex_outcome * lexer_buffer * list (list Z)) :=
  let* (r, lb) := lex_loop (lex_step tbl) n state lb in
  match r with
  | Returned v =>
      if 0 <=? Int_val v then Ok (r, lb, chunks) else
      let* lb := lex_refill (default [] (head chunks)) lb in
      token fuel tbl v lb (tail chunks)
  | Failed _ => Ok (r, lb, chunks)
  end.

Lemma token_resume fuel tbl v lb chunks :
  Int_val v < 0 ->
  token (S fuel) tbl v lb chunks = resume fuel (S (lex_measure lb)) tbl (- Int_val v - 1) lb chunks.
Proof.
  intros H. cbn [token]. unfold caml_lex_engine, lex_entry, resume.
  by destruct (Z.leb_spec 0 (Int_val v)); [lia|].
Qed.

Lemma recognised_result res r lb chunks input :
  recognised res r lb chunks input ->
  match r with Returned v => 0 <= Int_val v | Failed _ => True end.
Proof.
  intros (st & lp & cu & len & _ & _ & _ & K). destruct res; destruct K as [Ha K].
  - destruct K as [-> _]. rewrite Int_val_int by solve_word. lia.
  - by rewrite Ha.
Qed.

(** a refill gives a character *)
Lemma refill_scanning lb chunks input i last :
  scanning lb chunks input i last -> zlen input < 2 ^ 56 ->
  exists lb', lex_refill (default [] (head chunks)) lb = Ok lb' /\
    scanning lb' (tail chunks) input i last /\ lex_ready lb'.
Proof.
  intros (st & lp & len & P & R & I & K) Hi.
  destruct (scanning_bounds lb chunks input i st lp len P I Hi) as (Bi & S1 & S2 & Li).
  destruct (lex_refill_ok lb chunks st lp (st + i) len P R) as (lb' & s & -> & P' & R' & I' & A' & E');
    [by rewrite I|].
  replace (st + i - s) with (st - s + i) in P' by lia. rewrite I in I'.
  exists lb'. split; [done|]. split.
  - exists (st - s), (lp - s), (len - s + zlen (default [] (head chunks))). split_and!; try done.
    unfold backtrack_point in *. rewrite A'. destruct last as [[action p]|].
    + destruct K as (-> & ? & ?). split_and!; [done|lia..].
    + destruct K as (-> & ->). split; [done|lia].
  - unfold lex_ready. destruct (Z.leb_spec (zlen (default [] (head chunks))) 0) as [G|G]; [right; by apply E'|].
    left. destruct (scanning_bounds lb' (tail chunks) input i _ _ _ P' I' Hi) as (Bi' & S1' & S2' & Li').
    destruct P' as [A B C D O Z]. rewrite C, D, Z.leb_antisym, Val_long_lt by done.
    destruct P as [_ _ _ _ (O1 & O2 & O3) _].
    destruct (Z.ltb_spec (st - s + i) (len - s + zlen (default [] (head chunks)))); [done|lia].
Qed.

(** the lexer in a state where the automaton finds [res] *)
Lemma resume_ok tbl input res k : forall F state lb chunks i last,
  (k <= F)%nat -> is_bytes input -> zlen input < 2 ^ 56 -> 0 <= i -> 0 <= state < 2 ^ 15 ->
  scanning lb chunks input i last -> longest_match k tbl input state i last = Ok res ->
  exists r lb' chunks', resume F (S (lex_measure lb)) tbl state lb chunks = Ok (r, lb', chunks') /\
    recognised res r lb' chunks' input.
Proof.
  induction k as [|k IH]; [done|]. intros F state lb chunks i last HF Hb Hi Hpos Hs Sc L.
  (* a turn that ends the token, or that goes on without a refill *)
  assert (Turn : forall F lb chunks last, (k <= F)%nat -> scanning lb chunks input i last ->
    longest_match (S k) tbl input state i last = Ok res ->
    (exists lb' last', lex_step tbl state lb = Ok (Done (Returned (Val_int (- state - 1))) lb') /\
       scanning lb' chunks input i last' /\ ~ lex_ready lb /\
       longest_match (S k) tbl input state i last' = Ok res) \/
    exists r lb' chunks', resume F (S (lex_measure lb)) tbl state lb chunks = Ok (r, lb', chunks') /\
      recognised res r lb' chunks' input).
  { clear F lb chunks last HF Sc L. intros F lb chunks last HF Sc L.
    destruct (lex_step_ok tbl k lb chunks input state i last res Sc Hb Hi Hpos L)
      as [(r & lb' & E & Q)|[(state' & lb' & i' & last' & E & Sc' & Hp & Hs' & L' & M)|Q]]; [..|by left].
    - right. unfold resume. cbn [lex_loop]. rewrite E. cbn [rbind].
      pose proof (recognised_result _ _ _ _ _ Q) as V. exists r, lb', chunks.
      split; [|done]. destruct r as [v|e]; [|done]. by destruct (Z.leb_spec 0 (Int_val v)); [|lia].
    - right. destruct (IH F state' lb' chunks i' last' HF Hb Hi Hp Hs' Sc' L') as (r & lb2 & chunks' & R & Q).
      exists r, lb2, chunks'. split; [|done]. rewrite <- R. unfold resume. cbn [lex_loop]. by rewrite E, M. }
  destruct F as [|F]; [lia|].
  destruct (Turn (S F) lb chunks last) as [(lb1 & last1 & E & Sc1 & _ & L1)|Q]; [lia|done|done| |exact Q].
  destruct (refill_scanning lb1 chunks input i last1 Sc1 Hi) as (lb2 & E2 & Sc2 & R2).
  assert (I : Int_val (Val_int (- state - 1)) = - state - 1) by (apply Int_val_int; solve_word).
  unfold resume. cbn [lex_loop]. rewrite E. cbn [rbind]. rewrite I.
  destruct (Z.leb_spec 0 (- state - 1)); [lia|]. rewrite E2. cbn [rbind].
  rewrite token_resume, I by lia. replace (- (- state - 1) - 1) with state by lia.
  destruct (Turn F lb2 (tail chunks) last1) as [(lb3 & last3 & _ & _ & N & _)|Q]; [lia|done|done|done|exact Q].
Qed.

Lemma segment_app_input lb chunks st cu len n :
  0 <= st -> st <= cu -> cu = st + n -> cu <= len -> len <= zlen (lex_buffer lb) ->
  segment (lex_buffer lb) st cu = take (Z.to_nat n) (input_from lb chunks st len) /\
  input_from lb chunks cu len = drop (Z.to_nat n) (input_from lb chunks st len).
Proof.
  intros. unfold input_from. rewrite (segment_split _ st cu len), <- app_assoc by lia.
  assert (E : length (segment (lex_buffer lb) st cu) = Z.to_nat n).
  { pose proof (segment_length (lex_buffer lb) st cu). unfold zlen in *. lia. }
  rewrite <- E. by rewrite take_app_length, drop_app_length.
Qed.

(** C20: A generated lexer finds the token that its automaton defines on the whole input,
    however the reads cut the input: when the automaton started in state [s0] on the
    unread input reaches the result [res] in [k] steps, the calls of the engine, with the
    refills in between, end and return its action; the lexeme between the start and the
    current positions is the matched prefix, and the buffer with the reads to come holds
    the rest of the input.  Without a match it fails with "lexing: empty token" and
    nothing of the input is consumed beyond what the automaton says. *)
Theorem token_longest_match tbl k fuel lb chunks s0 st lp cu len res :
  positions lb st lp cu len -> reads_ok lb chunks ->
  let input := input_from lb chunks cu len in
  is_bytes input -> zlen input < 2 ^ 56 -> 0 <= s0 < 2 ^ 15 ->
  longest_match k tbl input s0 0 None = Ok res -> (k < fuel)%nat ->
  exists r lb' chunks' st' lp' cu' len',
    token fuel tbl (Val_int s0) lb chunks = Ok (r, lb', chunks') /\
    positions lb' st' lp' cu' len' /\ reads_ok lb' chunks' /\
    match res with
    | Matched action n =>
        r = Returned (Val_int action) /\
        segment (lex_buffer lb') st' cu' = take (Z.to_nat n) input /\
        input_from lb' chunks' cu' len' = drop (Z.to_nat n) input
    | NoMatch n =>
        r = Failed (Failure "lexing: empty token") /\
        input_from lb' chunks' cu' len' = drop (Z.to_nat n) input
    end.
Proof.
  intros P R input Hb Hi Hs L Hk. destruct fuel as [|fuel]; [lia|].
  set (lb0 := LexerBuffer (lex_buffer lb) (lex_buffer_len lb) (lex_abs_pos lb) (lex_curr_pos lb)
    (lex_curr_pos lb) (lex_curr_pos lb) (Val_int (-1)) (lex_eof_reached lb) (lex_mem lb)).
  assert (Sc : scanning lb0 chunks input 0 None).
  { destruct P as [A B C D O Z]. exists cu, cu, len. split_and!; try done.
    split; cbn; try done; [by rewrite Z.add_0_r|lia]. }
  destruct (resume_ok tbl input res k fuel s0 lb0 chunks 0 None) as (r & lb' & chunks' & E & st' & lp' & cu' & len' & P' & R' & I' & K);
    [lia|done|done|lia|done..|].
  exists r, lb', chunks', st', lp', cu', len'. split_and!; [|done|done|].
  - rewrite <- E. unfold resume. cbn [token]. unfold caml_lex_engine, lex_entry.
    rewrite Int_val_int by solve_word. by destruct (Z.leb_spec 0 s0); [|lia].
  - destruct P' as [_ _ _ _ (O1 & O2 & O3) _].
    destruct res as [action n|n].
    + destruct K as (_ & -> & ->). split; [done|]. rewrite <- I'. apply segment_app_input; lia.
    + destruct K as (-> & ->). split; [done|]. rewrite <- I'. apply segment_app_input; lia.
Qed.

(** ** The engine with a memory does what the other one does *)

Lemma lex_char_mem lb mem r :
  lex_char lb = Ok r ->
  lex_char (set_mem lb mem) = Ok (match r with Some (c, lb) => Some (c, set_mem lb mem) | None => None end).
Proof.
  unfold lex_char. cbn. case_if E; [case_if F; by intros [= <-]|].
  by intros (c & -> & [= <-])%rbind_Ok.
Qed.

Lemma lex_backtrack_mem lb mem :
  lex_backtrack (set_mem lb mem) =
  match lex_backtrack lb with Done r lb => Done r (set_mem lb mem) | n => n end.
Proof. unfold lex_backtrack. cbn. by case_if E. Qed.

Lemma erase_eof_mem c lb mem : erase_eof c (set_mem lb mem) = set_mem (erase_eof c lb) mem.
Proof. unfold erase_eof. by case_if E. Qed.

Lemma tag_at_mem tbl codes state lb lb' :
  tag_at tbl codes state lb = Ok lb' -> exists mem, lb' = set_mem lb mem.
Proof. intros (pc & _ & (m & _ & [= <-])%rbind_Ok)%rbind_Ok. by exists m. Qed.

Lemma mem_moves_mem tbl pstate c lb lb' :
  mem_moves tbl pstate c lb = Ok lb' -> exists mem, lb' = set_mem lb mem.
Proof.
  intros (base & _ & (k & _ & (pc & _ & E)%rbind_Ok)%rbind_Ok)%rbind_Ok. revert E. case_if Q.
  - intros (m & _ & [= <-])%rbind_Ok. by exists m.
  - intros [= <-]. exists (lex_mem lb). by destruct lb.
Qed.

(** forget the memory: put [mem] instead *)
Definition forget_mem (mem : list Z) (n : lex_next) : lex_next :=
  match n with
  | Done r lb => Done r (set_mem lb mem)
  | Next state lb => Next state (set_mem lb mem)
  end.

Lemma new_lex_step_mem tbl state lb n mem :
  new_lex_step tbl state lb = Ok n ->
  lex_step tbl state (set_mem lb mem) = Ok (forget_mem mem n).
Proof.
  unfold new_lex_step, lex_step. intros E.
  destruct (Short (lex_base tbl) state) as [base| | |]; try done. cbn [rbind] in *.
  revert E. case_if Eb. { by intros (lb1 & (m & ->)%tag_at_mem & [= <-])%rbind_Ok. }
  destruct (Short (lex_backtrk tbl) state) as [backtrk| | |]; try done. cbn [rbind].
  intros (lb1 & E1 & E)%rbind_Ok.
  assert (A : (if 0 <=? backtrk then set_last (set_mem lb mem) (lex_curr_pos (set_mem lb mem)) (Val_int backtrk)
               else set_mem lb mem) = set_mem lb1 mem).
  { revert E1. case_if Ek; [|by intros [= <-]]. by intros (lb2 & (m & ->)%tag_at_mem & [= <-])%rbind_Ok. }
  rewrite A. clear A E1. apply rbind_Ok in E as (oc & ->%(lex_char_mem _ mem) & E). cbn [rbind].
  destruct oc as [[c lb2]|]; [|by injection E as <-].
  apply rbind_Ok in E as (next & -> & E). cbn [rbind]. revert E. case_if En.
  - intros [= <-]. rewrite lex_backtrack_mem. by destruct (lex_backtrack lb2) as [|] eqn:Eq;
      unfold lex_backtrack in Eq; [|revert Eq; case_if Q].
  - intros (lb3 & (m & ->)%mem_moves_mem & [= <-])%rbind_Ok. cbn. by rewrite !erase_eof_mem.
Qed.

Lemma new_lex_loop_mem tbl mem fuel : forall state lb r lb',
  lex_loop (new_lex_step tbl) fuel state lb = Ok (r, lb') ->
  lex_loop (lex_step tbl) fuel state (set_mem lb mem) = Ok (r, set_mem lb' mem).
Proof.
  induction fuel as [|fuel IH]; [done|]. cbn [lex_loop].
  intros state lb r lb' (n & ->%(new_lex_step_mem _ _ _ _ mem) & E)%rbind_Ok. cbn [rbind].
  destruct n; [by injection E as <- <-|by apply IH].
Qed.

(** C33: The engine for lexers with bound groups takes the same decisions as the plain one:
    whenever it ends, by a token, a failure or a refill request, the plain engine on the
    same tables and buffer ends with the same outcome and the same positions; they differ
    by the memory of positions only. *)
Theorem new_lex_engine_same fuel tbl start_state lb r lb' :
  caml_new_lex_engine fuel tbl start_state lb = Ok (r, lb') ->
  caml_lex_engine fuel tbl start_state lb = Ok (r, set_mem lb' (lex_mem lb)).
Proof.
  unfold caml_new_lex_engine, caml_lex_engine, lex_entry. destruct lb as [b l a s c lp la e m].
  case_if E; by intros Q%(new_lex_loop_mem _ m).
Qed.

(** ** A lexer: [a+] is token 0, [a+b] is token 5 *)

Definition shorts (l : list Z) : list Z := concat (map (fun v => [v mod 256; v / 256 mod 256]) l).

(** [n] times -1, but [v] at [p] for the pairs of [l] *)
Definition sparse (n : nat) (l : list (nat * Z)) : list Z :=
  shorts (foldr (fun '(p, v) t => <[p := v]> t) (replicate n (-1)) l).

Definition ab_tables : lexing_table := LexingTable
  (shorts [0; 1; -6]) (shorts [-1; 0; -1]) (shorts [-1; -1; -1])
  (sparse 258 [(97%nat, 1); (98%nat, 1); (99%nat, 2)]) (sparse 258 [(97%nat, 0); (98%nat, 1); (99%nat, 1)])
  (shorts [0; 1; 0]) (shorts [0; 4; 0]) (shorts [0; 0; 0])
  (sparse 258 [(97%nat, 1); (98%nat, 0)]) (sparse 258 [(97%nat, 0); (98%nat, 1)])
  [255; 0; 255; 255; 1; 0; 255].

Definition fresh_lexbuf : lexer_buffer :=
  LexerBuffer (replicate 512 0) (Val_int 0) (Val_int 0) (Val_int 0) (Val_int 0) (Val_int 0)
    (Val_int 0) (Val_bool false) [Val_int (-1)].

Example ab_tokens :
  (longest_match 9 ab_tables [97; 97; 98; 99] 0 0 None, longest_match 9 ab_tables [97; 97; 99] 0 0 None,
   longest_match 9 ab_tables [99] 0 0 None)
  = (Ok (Matched 5 3), Ok (Matched 0 2), Ok (NoMatch 0)).
Proof. by vm_compute. Qed.

Lemma token_longest_match_witness :
  exists r lb' chunks' st' lp' cu' len',
    token 10 ab_tables (Val_int 0) fresh_lexbuf [[97; 97]; [97]; [99; 98]] = Ok (r, lb', chunks') /\
    positions lb' st' lp' cu' len' /\ reads_ok lb' chunks' /\ r = Returned (Val_int 0) /\
    segment (lex_buffer lb') st' cu' = [97; 97; 97] /\ input_from lb' chunks' cu' len' = [99; 98].
Proof.
  destruct (token_longest_match ab_tables 9 10 fresh_lexbuf [[97; 97]; [97]; [99; 98]] 0 0 0 0 0 (Matched 0 3))
    as (r & lb' & chunks' & st' & lp' & cu' & len' & E & P & R & K1 & K2 & K3).
  - split; try reflexivity; unfold max_string_length; vm_compute; intuition congruence.
  - split; [left; reflexivity|]. repeat constructor; vm_compute; congruence.
  - repeat constructor; vm_compute; congruence.
  - vm_compute; reflexivity.
  - lia.
  - vm_compute; reflexivity.
  - lia.
  - exists r, lb', chunks', st', lp', cu', len'. split_and!; assumption.
Defined.

Definition after_a : lexer_buffer :=
  LexerBuffer ([97; 98] ++ replicate 510 0) (Val_int 2) (Val_int 0) (Val_int 0) (Val_int 0) (Val_int 0)
    (Val_int 0) (Val_bool true) [Val_int (-1); Val_int (-1)].

Lemma new_lex_engine_same_witness :
  exists lb', caml_new_lex_engine 9 ab_tables (Val_int 0) after_a = Ok (Returned (Val_int 5), lb') /\
    lex_mem lb' = [Val_int 1; Val_int 1] /\
    caml_lex_engine 9 ab_tables (Val_int 0) after_a = Ok (Returned (Val_int 5), set_mem lb' [Val_int (-1); Val_int (-1)]).
Proof.
  eexists. split; [vm_compute; reflexivity|]. split; [vm_compute; reflexivity|].
  apply (new_lex_engine_same 9 ab_tables (Val_int 0) after_a (Returned (Val_int 5))). vm_compute. reflexivity.
Defined.
