(* ===== verification/Skiplist.v ===== *)
(** * Skip lists ([skiplist.c])

    Dictionaries from words to words as skip lists: a cell is linked in the lists of the
    levels below its height, each level being a sublist of the one under it.  The cells are
    in a store indexed by their addresses; the level of a new cell comes from the
    congruential generator of the code.

    [represents] is the invariant: the chain of every level is the sorted list of the cells
    that are high enough.  The operations refine those of a finite map. *)

From stdpp Require Import gmap sorting.
From S2P Require Import Prelude.
#[local] Open Scope Z_scope.

Definition NUM_LEVELS : Z := 17.

Record skipcell := Skipcell { key : Z; data : Z; forwards : list Z }.

(** the head of a list, the cells in memory with the next address that the allocator gives,
    and the state of the generator; NULL is 0 *)
Record skiplist := Skiplist {
  forward : list Z;
  level : Z;
  cells : gmap Z skipcell;
  next_cell : Z;
  random_seed : Z }.

(** ** Random levels *)

Fixpoint count_level (fuel : nat) (r level : Z) : result Z :=
  match fuel with
  | O => NoFuel
  | S fuel =>
      if Z.land r 0xC0000000 =? 0xC0000000 then count_level fuel (u32 (Z.shiftl r 2)) (level + 1)
      else Ok level
  end.

(** the level, and the new seed *)
Definition random_level (seed : Z) : result (Z * Z) :=
  let r := u32 (u32 (seed * 69069) + 25173) in
  let* level := count_level 17 r 0 in
  Ok (level, r).

(** ** Forward arrays *)

(** the array that [e] points to: the head's or a cell's *)
Inductive cursor := Head | Cell (a : Z).

Definition cell (s : skiplist) (a : Z) : result skipcell := of_option (cells s !! a).

Definition with_forward (s : skiplist) (fwd : list Z) : skiplist :=
  Skiplist fwd (level s) (cells s) (next_cell s) (random_seed s).
Definition with_level (s : skiplist) (lv : Z) : skiplist :=
  Skiplist (forward s) lv (cells s) (next_cell s) (random_seed s).
Definition with_cells (s : skiplist) (m : gmap Z skipcell) : skiplist :=
  Skiplist (forward s) (level s) m (next_cell s) (random_seed s).

(** [e[i]] *)
Definition slot (s : skiplist) (e : cursor) (i : Z) : result Z :=
  match e with
  | Head => rd (forward s) i
  | Cell a => let* c := cell s a in rd (forwards c) i
  end.

(** [e[i] = v] *)
Definition set_slot (s : skiplist) (e : cursor) (i v : Z) : result skiplist :=
  match e with
  | Head => let* fwd := wr (forward s) i v in Ok (with_forward s fwd)
  | Cell a =>
      let* c := cell s a in
      let* fwd := wr (forwards c) i v in
      Ok (with_cells s (<[a := Skipcell (key c) (data c) fwd]> (cells s)))
  end.

(** the cells that a loop visits at one level, at most *)
Definition scan_fuel (s : skiplist) : nat := S (size (cells s)).

(** ** Operations *)

Definition caml_skiplist_init (s : skiplist) : skiplist :=
  with_level (with_forward s (replicate (Z.to_nat NUM_LEVELS) 0)) 0.

(** one level of the search: the data when the key is there, and the cursor *)
Fixpoint find_level (fuel : nat) (s : skiplist) (k i : Z) (e : cursor) {struct fuel}
    : result (option Z * cursor) :=
  match fuel with
  | O => NoFuel
  | S fuel =>
      let* f := slot s e i in
      if f =? 0 then Ok (None, e) else
      let* c := cell s f in
      if k <? key c then Ok (None, e) else
      if key c =? k then Ok (Some (data c), e) else
      find_level fuel s k i (Cell f)
  end.

(** the levels [n-1], ..., 0 *)
Fixpoint find_levels (n : nat) (s : skiplist) (k : Z) (e : cursor) : result (option Z) :=
  match n with
  | O => Ok None
  | S i =>
      let* (found, e) := find_level (scan_fuel s) s k (Z.of_nat i) e in
      match found with Some d => Ok (Some d) | None => find_levels i s k e end
  end.

(** none when the result is 0 *)
Definition caml_skiplist_find (s : skiplist) (k : Z) : result (option Z) :=
  find_levels (S (Z.to_nat (level s))) s k Head.

Fixpoint below_level (fuel : nat) (s : skiplist) (k i : Z) (e : cursor) (last : Z) {struct fuel}
    : result (cursor * Z) :=
  match fuel with
  | O => NoFuel
  | S fuel =>
      let* f := slot s e i in
      if f =? 0 then Ok (e, last) else
      let* c := cell s f in
      if k <? key c then Ok (e, last) else
      below_level fuel s k i (Cell f) f
  end.

Fixpoint below_levels (n : nat) (s : skiplist) (k : Z) (e : cursor) (last : Z) : result Z :=
  match n with
  | O => Ok last
  | S i =>
      let* (e, last) := below_level (scan_fuel s) s k (Z.of_nat i) e last in
      below_levels i s k e last
  end.

Definition caml_skiplist_find_below (s : skiplist) (k : Z) : result (option (Z * Z)) :=
  let* last := below_levels (S (Z.to_nat (level s))) s k Head 0 in
  if last =? 0 then Ok None else
  let* c := cell s last in
  Ok (Some (key c, data c)).

(** the loop that insertion and deletion share: one level *)
Fixpoint place_level (fuel : nat) (s : skiplist) (k i : Z) (e : cursor) {struct fuel} : result cursor :=
  match fuel with
  | O => NoFuel
  | S fuel =>
      let* f := slot s e i in
      if f =? 0 then Ok e else
      let* c := cell s f in
      if k <=? key c then Ok e else
      place_level fuel s k i (Cell f)
  end.

(** [update[i]] points to [e[i]]; the entries of the other levels are not initialized *)
Fixpoint find_places (n : nat) (s : skiplist) (k : Z) (e : cursor) (update : list (option cursor))
    : result (cursor * list (option cursor)) :=
  match n with
  | O => Ok (e, update)
  | S i =>
      let* e := place_level (scan_fuel s) s k (Z.of_nat i) e in
      let* update := wr update (Z.of_nat i) (Some e) in
      find_places i s k e update
  end.

Definition no_update : list (option cursor) := replicate (Z.to_nat NUM_LEVELS) None.

Definition update_at (update : list (option cursor)) (i : Z) : result cursor :=
  let* o := rd update i in of_option o.

(** the cell linked at level [i] *)
Definition link_level (update : list (option cursor)) (f i : Z) (s : skiplist) : result skiplist :=
  let* u := update_at update i in
  let* x := slot s u i in
  let* s := set_slot s (Cell f) i x in
  set_slot s u i f.

(** the entry was there, and the new list *)
Definition caml_skiplist_insert (s : skiplist) (k d : Z) : result (bool * skiplist) :=
  let* (e, update) := find_places (S (Z.to_nat (level s))) s k Head no_update in
  let* f := slot s e 0 in
  let* present := if f =? 0 then Ok None else
                  let* c := cell s f in
                  Ok (if key c =? k then Some c else None) in
  match present with
  | Some c => Ok (true, with_cells s (<[f := Skipcell (key c) d (forwards c)]> (cells s)))
  | None =>
      let* (new_level, seed) := random_level (random_seed s) in
      let* update :=
        for_loop (Z.to_nat (new_level - level s)) (level s + 1) (fun i update => wr update i (Some Head)) update in
      let f := next_cell s in
      let c := Skipcell k d (replicate (Z.to_nat (new_level + 1)) 0) in
      let s := Skiplist (forward s) (Z.max (level s) new_level) (<[f := c]> (cells s)) (f + 1) seed in
      let* s := for_loop (Z.to_nat (new_level + 1)) 0 (link_level update f) s in
      Ok (false, s)
  end.

(** the cell unlinked from level [i] *)
Definition unlink_level (update : list (option cursor)) (f i : Z) (s : skiplist) : result skiplist :=
  let* u := update_at update i in
  let* x := slot s u i in
  if x =? f then
    let* next := slot s (Cell f) i in
    set_slot s u i next
  else Ok s.

Fixpoint lower_level (fuel : nat) (s : skiplist) {struct fuel} : result skiplist :=
  match fuel with
  | O => NoFuel
  | S fuel =>
      if 0 <? level s then
        let* f := slot s Head (level s) in
        if f =? 0 then lower_level fuel (with_level s (level s - 1)) else Ok s
      else Ok s
  end.

Definition caml_skiplist_remove (s : skiplist) (k : Z) : result (bool * skiplist) :=
  let* (e, update) := find_places (S (Z.to_nat (level s))) s k Head no_update in
  let* f := slot s e 0 in
  if f =? 0 then Ok (false, s) else
  let* c := cell s f in
  if negb (key c =? k) then Ok (false, s) else
  let* s := for_loop (S (Z.to_nat (level s))) 0 (unlink_level update f) s in
  let s := with_cells s (delete f (cells s)) in
  let* s := lower_level (S (Z.to_nat (level s))) s in
  Ok (true, s).

(** the cells freed from [e] on *)
Fixpoint free_cells (fuel : nat) (s : skiplist) (e : Z) {struct fuel} : result skiplist :=
  match fuel with
  | O => NoFuel
  | S fuel =>
      if e =? 0 then Ok s else
      let* next := slot s (Cell e) 0 in
      free_cells fuel (with_cells s (delete e (cells s))) next
  end.

Definition caml_skiplist_empty (s : skiplist) : result skiplist :=
  let* e := slot s Head 0 in
  let* s := free_cells (scan_fuel s) s e in
  let* s := for_loop (S (Z.to_nat (level s))) 0 (fun i s => set_slot s Head i 0) s in
  Ok (with_level s 0).

(** FOREACH_SKIPLIST_ELEMENT; the state [a] is the one of the action *)
Fixpoint foreach {A} (fuel : nat) (action : skipcell -> A -> skiplist -> result (A * skiplist))
    (var : Z) (a : A) (s : skiplist) {struct fuel} : result (A * skiplist) :=
  match fuel with
  | O => NoFuel
  | S fuel =>
      if var =? 0 then Ok (a, s) else
      let* c := cell s var in
      let* next := rd (forwards c) 0 in
      let* (a, s) := action c a s in
      foreach fuel action next a s
  end.

Definition FOREACH_SKIPLIST_ELEMENT {A} (s : skiplist)
    (action : skipcell -> A -> skiplist -> result (A * skiplist)) (a : A) : result (A * skiplist) :=
  let* var := slot s Head 0 in
  foreach (scan_fuel s) action var a s.

(** ** The invariant *)

Record node := Node { addr : Z; nkey : Z; ndata : Z; height : Z }.

(** the cells linked at level [i] *)
Definition on_level (i : Z) (ns : list node) : list node := filter (fun n => i < height n) ns.

(** the list at level [i] from [e] on *)
Fixpoint chain (s : skiplist) (i : Z) (e : cursor) (l : list node) : Prop :=
  match l with
  | [] => slot s e i = Ok 0
  | n :: l => slot s e i = Ok (addr n) /\ chain s i (Cell (addr n)) l
  end.

(** the array that the last of [l] has, after [e] *)
Definition cursor_after (e : cursor) (l : list node) : cursor :=
  match last l with None => e | Some n => Cell (addr n) end.

Definition node_cell (s : skiplist) (n : node) : Prop :=
  exists fwd, cells s !! addr n = Some (Skipcell (nkey n) (ndata n) fwd) /\ zlen fwd = height n.

Definition node_ok (s : skiplist) (n : node) : Prop :=
  0 < addr n < next_cell s /\ 1 <= height n <= level s + 1 /\ node_cell s n.

(** the cells [ns] are those of the list, in the order of their keys *)
Record laid_out (s : skiplist) (ns : list node) : Prop := {
  lay_head : zlen (forward s) = NUM_LEVELS;
  lay_level : 0 <= level s < NUM_LEVELS;
  lay_nodes : Forall (node_ok s) ns;
  lay_all : forall a c, cells s !! a = Some c -> a ∈ addr <$> ns;
  lay_addr : NoDup (addr <$> ns);
  lay_sorted : StronglySorted (fun n n' => nkey n < nkey n') ns;
  lay_next : 0 < next_cell s }.

Definition well_linked (s : skiplist) (ns : list node) : Prop :=
  forall i, 0 <= i < NUM_LEVELS -> chain s i Head (on_level i ns).

(** the level is the highest one in use *)
Definition level_used (s : skiplist) (ns : list node) : Prop :=
  level s = 0 \/ on_level (level s) ns <> [].

(** the bindings *)
Definition contents (ns : list node) : gmap Z Z := list_to_map ((fun n => (nkey n, ndata n)) <$> ns).

Definition represents (s : skiplist) (m : gmap Z Z) : Prop :=
  exists ns, laid_out s ns /\ well_linked s ns /\ level_used s ns /\ contents ns = m.

(** ** Levels *)

Lemma on_level_app i a b : on_level i (a ++ b) = on_level i a ++ on_level i b.
Proof. apply filter_app. Qed.

Lemma on_level_cons i n l : on_level i (n :: l) = if decide (i < height n) then n :: on_level i l else on_level i l.
Proof. unfold on_level. by rewrite filter_cons. Qed.

Lemma elem_of_on_level i n l : n ∈ on_level i l <-> i < height n /\ n ∈ l.
Proof. unfold on_level. by rewrite list_elem_of_filter. Qed.

Lemma on_level_low i ns : Forall (fun n => i < height n) ns -> on_level i ns = ns.
Proof.
  induction 1 as [|n ns H _ IH]; [done|]. rewrite on_level_cons, IH. by rewrite decide_True.
Qed.

Lemma on_level_high i ns : Forall (fun n => height n <= i) ns -> on_level i ns = [].
Proof.
  induction 1 as [|n ns H _ IH]; [done|]. rewrite on_level_cons, IH. by rewrite decide_False by lia.
Qed.

Lemma on_level_0 s ns : Forall (node_ok s) ns -> on_level 0 ns = ns.
Proof. intros L. apply on_level_low. eapply Forall_impl; [apply L|]. intros n (_ & H & _). lia. Qed.

Lemma on_level_none s ns i : Forall (node_ok s) ns -> level s < i -> on_level i ns = [].
Proof.
  intros L Hi. apply on_level_high. eapply Forall_impl; [apply L|]. intros n (_ & H & _). lia.
Qed.

(** a cursor of a level is one of the level below *)
Lemma cursor_down i e a :
  exists p q, on_level i a = p ++ q /\ cursor_after e (on_level (i + 1) a) = cursor_after e p.
Proof.
  unfold cursor_after. destruct (last (on_level (i + 1) a)) as [n|] eqn:E.
  - apply last_Some_elem_of, elem_of_on_level in E as [Hn E].
    destruct (list_elem_of_split (on_level i a) n) as (p & q & ->); [apply elem_of_on_level; split; [lia|done]|].
    exists (p ++ [n]), q. by rewrite <- app_assoc, last_snoc.
  - by exists [], (on_level i a).
Qed.

Lemma cursor_after_app e p q : cursor_after e (p ++ q) = cursor_after (cursor_after e p) q.
Proof.
  unfold cursor_after. rewrite last_app. by destruct (last q).
Qed.

Lemma chain_app s i e p q :
  chain s i e (p ++ q) -> chain s i (cursor_after e p) q.
Proof.
  revert e. induction p as [|n p IH]; intros e H; [done|].
  destruct H as [_ H%IH]. by rewrite (cursor_after_app e [n] p : cursor_after e (n :: p) = _).
Qed.

(** where the array at the end of a chain points *)
Definition head_addr (l : list node) : Z := match l with [] => 0 | n :: _ => addr n end.

Lemma chain_slot s i e l : chain s i e l -> slot s e i = Ok (head_addr l).
Proof. destruct l; [done|]. by intros [? _]. Qed.

(** ** Searches *)

Lemma node_get s n :
  node_ok s n -> (addr n =? 0) = false /\
  exists fwd, cell s (addr n) = Ok (Skipcell (nkey n) (ndata n) fwd) /\ zlen fwd = height n.
Proof.
  intros (A & _ & fwd & E & L). split; [apply Z.eqb_neq; lia|].
  exists fwd. unfold cell. by rewrite E.
Qed.

Lemma place_level_ok s i k r : forall q fuel e,
  chain s i e (q ++ r) -> Forall (node_ok s) (q ++ r) ->
  Forall (fun n => nkey n < k) q -> Forall (fun n => k <= nkey n) r -> (length q < fuel)%nat ->
  place_level fuel s k i e = Ok (cursor_after e q).
Proof.
  induction q as [|n q IH]; intros [|fuel] e H N Hq Hr Hf; try (simpl in Hf; lia); cbn [place_level].
  - rewrite (chain_slot _ _ _ _ H). destruct r as [|n r]; [done|]. cbn [app head_addr rbind].
    apply Forall_inv in N. destruct (node_get _ _ N) as (-> & fwd & -> & _). cbn [rbind key].
    apply Forall_inv in Hr. by destruct (Z.leb_spec k (nkey n)); [|lia].
  - rewrite (chain_slot _ _ _ _ H). cbn [app head_addr rbind]. destruct H as [_ H].
    destruct (node_get _ _ (Forall_inv N)) as (-> & fwd & -> & _). cbn [rbind key].
    pose proof (Forall_inv Hq) as Hk. cbn beta in Hk. destruct (Z.leb_spec k (nkey n)); [lia|].
    rewrite (IH fuel) by (done || (simpl in Hf; lia) || by eapply Forall_inv_tail).
    by rewrite (cursor_after_app e [n] q : cursor_after e (n :: q) = _).
Qed.

Lemma below_level_ok s i k r : forall q fuel e lst,
  chain s i e (q ++ r) -> Forall (node_ok s) (q ++ r) ->
  Forall (fun n => nkey n <= k) q -> Forall (fun n => k < nkey n) r -> (length q < fuel)%nat ->
  below_level fuel s k i e lst =
  Ok (cursor_after e q, match last q with None => lst | Some n => addr n end).
Proof.
  induction q as [|n q IH]; intros [|fuel] e lst H N Hq Hr Hf; try (simpl in Hf; lia); cbn [below_level].
  - rewrite (chain_slot _ _ _ _ H). destruct r as [|n r]; [done|]. cbn [app head_addr rbind].
    apply Forall_inv in N. destruct (node_get _ _ N) as (-> & fwd & -> & _). cbn [rbind key].
    apply Forall_inv in Hr. by destruct (Z.ltb_spec k (nkey n)); [|lia].
  - rewrite (chain_slot _ _ _ _ H). cbn [app head_addr rbind]. destruct H as [_ H].
    destruct (node_get _ _ (Forall_inv N)) as (-> & fwd & -> & _). cbn [rbind key].
    pose proof (Forall_inv Hq) as Hk. cbn beta in Hk. destruct (Z.ltb_spec k (nkey n)); [lia|].
    rewrite (IH fuel) by (done || (simpl in Hf; lia) || by eapply Forall_inv_tail).
    rewrite (cursor_after_app e [n] q : cursor_after e (n :: q) = _).
    by rewrite last_cons; destruct (last q).
Qed.

Lemma find_level_ok s i k r : forall q fuel e,
  chain s i e (q ++ r) -> Forall (node_ok s) (q ++ r) ->
  Forall (fun n => nkey n < k) q -> Forall (fun n => k <= nkey n) r -> (length q < fuel)%nat ->
  exists e', find_level fuel s k i e =
    Ok (match r with n :: _ => if nkey n =? k then Some (ndata n) else None | [] => None end, e') /\
    e' = cursor_after e q.
Proof.
  induction q as [|n q IH]; intros [|fuel] e H N Hq Hr Hf; try (simpl in Hf; lia); cbn [find_level].
  - rewrite (chain_slot _ _ _ _ H). destruct r as [|n r]; [by exists e|]. cbn [app head_addr rbind].
    apply Forall_inv in N. destruct (node_get _ _ N) as (-> & fwd & -> & _). cbn [rbind key data].
    apply Forall_inv in Hr. exists e. split; [|done].
    destruct (Z.ltb_spec k (nkey n)), (Z.eqb_spec (nkey n) k); try done; lia.
  - rewrite (chain_slot _ _ _ _ H). cbn [app head_addr rbind]. destruct H as [_ H].
    destruct (node_get _ _ (Forall_inv N)) as (-> & fwd & -> & _). cbn [rbind key].
    pose proof (Forall_inv Hq) as Hk. cbn beta in Hk.
    destruct (Z.ltb_spec k (nkey n)), (Z.eqb_spec (nkey n) k); try lia.
    destruct (IH fuel (Cell (addr n))) as (e' & -> & ->);
      [done|by eapply Forall_inv_tail|by eapply Forall_inv_tail|done|simpl in Hf; lia|].
    eexists. split; [done|]. by rewrite (cursor_after_app e [n] q : cursor_after e (n :: q) = _).
Qed.

Lemma laid_size s ns : laid_out s ns -> (length ns <= size (cells s))%nat.
Proof.
  intros L. assert (E : list_to_set (addr <$> ns) ⊆ dom (cells s)).
  { intros a Ha%elem_of_list_to_set. apply list_elem_of_fmap in Ha as (n & -> & Hn).
    destruct (proj1 (Forall_forall _ _) (lay_nodes _ _ L) n Hn) as (_ & _ & fwd & E & _).
    by apply elem_of_dom_2 in E. }
  apply subseteq_size in E. by rewrite size_list_to_set, length_fmap, size_dom in E by apply L.
Qed.

Lemma length_on_level i l : (length (on_level i l) <= length l)%nat.
Proof. apply length_filter. Qed.

Lemma Forall_on_level {P : node -> Prop} i l : Forall P l -> Forall P (on_level i l).
Proof. rewrite !Forall_forall. intros H n [_ Hn]%elem_of_on_level. by apply H. Qed.

(** the chain of a level below the cursor of the level above *)
Lemma level_below s a b i :
  laid_out s (a ++ b) -> well_linked s (a ++ b) -> 0 <= i < NUM_LEVELS ->
  exists p q, on_level i a = p ++ q /\ cursor_after Head (on_level (i + 1) a) = cursor_after Head p /\
    chain s i (cursor_after Head p) (q ++ on_level i b) /\
    Forall (node_ok s) (q ++ on_level i b) /\ (length q < scan_fuel s)%nat.
Proof.
  intros L W Hi. destruct (cursor_down i Head a) as (p & q & E & C). exists p, q.
  pose proof (W i Hi) as H. rewrite on_level_app, E, <- app_assoc in H. split_and!; try done.
  - by apply chain_app in H.
  - pose proof (Forall_on_level i _ (lay_nodes _ _ L)) as N. rewrite on_level_app, E, <- app_assoc in N.
    by apply Forall_app in N as [_ N].
  - pose proof (laid_size _ _ L). pose proof (length_on_level i a). unfold scan_fuel.
    rewrite E in *. rewrite !length_app in *. lia.
Qed.

Lemma split_level a i p q : on_level i a = p ++ q ->
  cursor_after (cursor_after Head p) q = cursor_after Head (on_level i a).
Proof. intros ->. by rewrite cursor_after_app. Qed.

Section Search.
  Context (s : skiplist) (a b : list node) (k : Z).
  Hypothesis L : laid_out s (a ++ b).
  Hypothesis W : well_linked s (a ++ b).

Lemma keys_part (P : node -> Prop) i p q : Forall P a -> on_level i a = p ++ q -> Forall P q.
Proof. intros H E. apply (Forall_on_level i) in H. rewrite E in H. by apply Forall_app in H as [_ H]. Qed.

Lemma find_places_ok n update :
  Forall (fun n => nkey n < k) a -> Forall (fun n => k <= nkey n) b ->
  Z.of_nat n <= NUM_LEVELS -> zlen update = NUM_LEVELS ->
  exists update', find_places n s k (cursor_after Head (on_level (Z.of_nat n) a)) update =
    Ok (cursor_after Head (on_level 0 a), update') /\ zlen update' = NUM_LEVELS /\
    (forall i, (i < n)%nat -> update' !! i = Some (Some (cursor_after Head (on_level (Z.of_nat i) a)))) /\
    (forall i, (n <= i)%nat -> update' !! i = update !! i).
Proof.
  intros Ha Hb. revert update. induction n as [|n IH]; intros update Hn Hu.
  - exists update. split_and!; [done|done|lia|done].
  - cbn [find_places]. rewrite Nat2Z.inj_succ, <- Z.add_1_r in Hn |- *.
    destruct (level_below s a b (Z.of_nat n) L W) as (p & q & E & -> & C & N & F); [lia|].
    rewrite (place_level_ok s _ k (on_level (Z.of_nat n) b) q) by
      (done || exact (keys_part _ _ _ _ Ha E) || by apply Forall_on_level).
    cbn [rbind]. rewrite (split_level _ _ _ _ E).
    rewrite wr_in_range by lia. cbn [rbind].
    edestruct IH as (u2 & -> & L2 & U1 & U2); [lia|by rewrite zlen_insert|].
    rewrite Nat2Z.id in *. unfold zlen in Hu. exists u2. split_and!; [done|done|..].
    + intros i Hi. destruct (decide (i = n)) as [->|]; [|apply U1; lia].
      rewrite U2, list_lookup_insert_eq by lia. done.
    + intros i Hi. rewrite U2, list_lookup_insert_ne by lia. done.
Qed.
End Search.

(** the list cut at a key *)
Lemma sorted_split k ns :
  StronglySorted (fun n n' => nkey n < nkey n') ns ->
  exists a b, ns = a ++ b /\ Forall (fun n => nkey n < k) a /\ Forall (fun n => k <= nkey n) b.
Proof.
  induction 1 as [|n ns S (a & b & -> & Ha & Hb) H]; [by exists [], []|].
  destruct (Z_lt_le_dec (nkey n) k).
  - exists (n :: a), b. split_and!; [done|by constructor|done].
  - exists [], (n :: a ++ b). split_and!; [done|done|]. constructor; [done|].
    eapply Forall_impl; [exact H|]. cbn. lia.
Qed.

Lemma sorted_app_r {A} (R : A -> A -> Prop) a b : StronglySorted R (a ++ b) -> StronglySorted R b.
Proof. induction a; [done|]. intros H. apply IHa. by inversion H. Qed.

(** the data of [k] when [b] starts at it *)
Definition head_data (k : Z) (b : list node) : option Z :=
  match b with n :: _ => if nkey n =? k then Some (ndata n) else None | [] => None end.

Lemma head_data_on_level i k b :
  StronglySorted (fun n n' => nkey n < nkey n') b -> Forall (fun n => k <= nkey n) b ->
  head_data k (on_level i b) = None \/ head_data k (on_level i b) = head_data k b.
Proof.
  intros S H. destruct S as [|n b S Hn]; [by left|]. rewrite on_level_cons.
  case_decide; [by right|]. left. destruct (on_level i b) as [|m l] eqn:E; [done|]. cbn.
  assert (Hm : m ∈ b) by (apply (elem_of_on_level i); rewrite E; left).
  apply (proj1 (Forall_forall _ _) Hn) in Hm. apply Forall_inv in H.
  destruct (Z.eqb_spec (nkey m) k); [lia|done].
Qed.

Lemma contents_cons n ns : contents (n :: ns) = <[nkey n := ndata n]> (contents ns).
Proof. done. Qed.

Lemma contents_none ns k : Forall (fun n => nkey n <> k) ns -> contents ns !! k = None.
Proof.
  induction 1 as [|n ns H _ IH]; [done|]. by rewrite contents_cons, lookup_insert_ne.
Qed.

Lemma contents_skip a b k : Forall (fun n => nkey n <> k) a -> contents (a ++ b) !! k = contents b !! k.
Proof.
  induction 1 as [|n a H _ IH]; [done|]. cbn [app]. by rewrite contents_cons, lookup_insert_ne.
Qed.

Lemma contents_split k a b :
  StronglySorted (fun n n' => nkey n < nkey n') b ->
  Forall (fun n => nkey n < k) a -> Forall (fun n => k <= nkey n) b ->
  contents (a ++ b) !! k = head_data k b.
Proof.
  intros S Ha Hb. rewrite contents_skip by (eapply Forall_impl; [exact Ha|]; cbn; lia).
  destruct S as [|n b S Hn]; [done|]. rewrite contents_cons. cbn.
  destruct (Z.eqb_spec (nkey n) k) as [<-|]; [by rewrite lookup_insert_eq|].
  rewrite lookup_insert_ne by done. apply contents_none. apply Forall_inv in Hb.
  eapply Forall_impl; [exact Hn|]. cbn in *. lia.
Qed.

Lemma find_levels_ok s a b k n :
  laid_out s (a ++ b) -> well_linked s (a ++ b) ->
  Forall (fun n => nkey n < k) a -> Forall (fun n => k <= nkey n) b -> Z.of_nat n < NUM_LEVELS ->
  find_levels (S n) s k (cursor_after Head (on_level (Z.of_nat (S n)) a)) = Ok (head_data k b).
Proof.
  intros L W Ha Hb. pose proof (sorted_app_r _ _ _ (lay_sorted _ _ L)) as Sb.
  induction n as [|n IH]; intros Hn.
  all: cbn [find_levels]; match goal with |- context [on_level (Z.of_nat (S ?m)) _] =>
         replace (Z.of_nat (S m)) with (Z.of_nat m + 1) by lia end.
  all: destruct (level_below s a b _ L W (conj (Nat2Z.is_nonneg _) Hn)) as (p & q & E & -> & C & N & F).
  all: edestruct find_level_ok as (e' & -> & ->);
    [exact C|exact N|exact (keys_part _ _ _ _ _ Ha E)|by apply Forall_on_level, Hb|exact F|]; cbn [rbind].
  all: fold (head_data k (on_level (Z.of_nat 0) b)); try fold (head_data k (on_level (Z.of_nat (S n)) b)).
  - change (Z.of_nat 0) with 0. pose proof (lay_nodes _ _ L) as Nb. apply Forall_app in Nb as [_ Nb].
    rewrite (on_level_0 s) by done. by destruct (head_data k b).
  - rewrite (split_level _ _ _ _ E). destruct (head_data_on_level (Z.of_nat (S n)) k b Sb Hb) as [Eq|Eq]; rewrite Eq.
    + rewrite <- IH by lia. done.
    + destruct (head_data k b) eqn:Ed; [done|]. rewrite <- IH by lia. done.
Qed.

Definition cursor_addr (e : cursor) : Z := match e with Head => 0 | Cell a => a end.

Lemma below_levels_ok s a b k n :
  laid_out s (a ++ b) -> well_linked s (a ++ b) ->
  Forall (fun n => nkey n <= k) a -> Forall (fun n => k < nkey n) b -> Z.of_nat n <= NUM_LEVELS ->
  let e := cursor_after Head (on_level (Z.of_nat n) a) in
  below_levels n s k e (cursor_addr e) = Ok (cursor_addr (cursor_after Head (on_level 0 a))).
Proof.
  intros L W Ha Hb. induction n as [|n IH]; intros Hn; [done|]. cbn zeta.
  cbn [below_levels]. rewrite Nat2Z.inj_succ, <- Z.add_1_r.
  destruct (level_below s a b (Z.of_nat n) L W) as (p & q & E & -> & C & N & F); [lia|].
  rewrite (below_level_ok _ _ _ _ _ _ _ _ C N (keys_part _ _ _ _ _ Ha E) (Forall_on_level _ _ Hb) F).
  cbn [rbind]. rewrite <- IH by lia. cbn zeta. rewrite <- (split_level _ _ _ _ E).
  unfold cursor_after. by destruct (last q).
Qed.

(** ** Stores into the forward arrays *)

Definition shape (c : skipcell) : Z * Z * Z := (key c, data c, zlen (forwards c)).

(** the same cells, whatever they point to *)
Record same_shape (s s' : skiplist) : Prop := {
  same_level : level s' = level s;
  same_next : next_cell s' = next_cell s;
  same_seed : random_seed s' = random_seed s;
  same_head : zlen (forward s') = zlen (forward s);
  same_cells : forall a, shape <$> cells s' !! a = shape <$> cells s !! a }.

#[export] Instance same_shape_trans : Transitive same_shape.
Proof.
  intros s1 s2 s3 [A1 A2 A3 A4 A5] [B1 B2 B3 B4 B5]. split; congruence.
Qed.
#[export] Instance same_shape_refl : Reflexive same_shape.
Proof. by split. Qed.

Lemma rd_insert {A} (l : list A) i j v :
  0 <= i < zlen l -> 0 <= j -> rd (<[Z.to_nat i := v]> l) j = if decide (j = i) then Ok v else rd l j.
Proof.
  intros Hi Hj. unfold rd, zlen in *. destruct (Z.ltb_spec j 0); [lia|].
  case_decide as D; [subst; by rewrite list_lookup_insert_eq by lia|].
  by rewrite list_lookup_insert_ne by lia.
Qed.

(** a store changes one entry *)
Lemma set_slot_ok s e i v x :
  slot s e i = Ok x ->
  exists s', set_slot s e i v = Ok s' /\ same_shape s s' /\ slot s' e i = Ok v /\
    forall e' j, 0 <= j -> (e' <> e \/ j <> i) -> slot s' e' j = slot s e' j.
Proof.
  intros H. destruct e as [|a]; cbn [slot set_slot] in *.
  - pose proof (rd_range _ _ _ H) as R. rewrite wr_in_range by done. eexists. split; [done|].
    split_and!; [by split; cbn; rewrite ?zlen_insert|cbn; rewrite rd_insert, decide_True by (done || lia); done|].
    intros [|a'] j Hj D; [|done]. cbn. rewrite rd_insert by (done || lia).
    rewrite decide_False; [done|naive_solver].
  - unfold cell in *. destruct (cells s !! a) as [c|] eqn:Ec; [|done]. cbn [of_option rbind] in *.
    pose proof (rd_range _ _ _ H) as R. rewrite wr_in_range by done. eexists. split; [done|]. split_and!.
    + split; cbn; try done. intros b. destruct (decide (b = a)) as [->|].
      * rewrite lookup_insert_eq, Ec. cbn. unfold shape. cbn. by rewrite zlen_insert.
      * by rewrite lookup_insert_ne.
    + cbn. unfold cell. cbn. rewrite lookup_insert_eq. cbn. rewrite rd_insert, decide_True by (done || lia). done.
    + intros [|a'] j Hj D; [done|]. cbn. unfold cell. cbn. destruct (decide (a' = a)) as [->|].
      * rewrite lookup_insert_eq, Ec. cbn. rewrite rd_insert by (done || lia).
        rewrite decide_False; [done|naive_solver].
      * by rewrite lookup_insert_ne.
Qed.

Lemma node_ok_shape s s' n : same_shape s s' -> node_ok s n -> node_ok s' n.
Proof.
  intros [A B _ _ C] (H1 & H2 & fwd & E & H3). unfold node_ok. rewrite A, B.
  split; [done|split; [done|]].
  specialize (C (addr n)). rewrite E in C. destruct (cells s' !! addr n) as [c|] eqn:E'; [|done].
  injection C as K D F. cbn in *. exists (forwards c). split; [|by rewrite F].
  destruct c. unfold node_cell. cbn in *. by rewrite E', K, D.
Qed.

Lemma laid_out_shape s s' ns : same_shape s s' -> laid_out s ns -> laid_out s' ns.
Proof.
  intros S L. pose proof S as [A B _ C D]. destruct L. split; rewrite ?A, ?B, ?C; try done.
  - eapply Forall_impl; [done|]. intros n. by apply node_ok_shape.
  - intros a c E. specialize (D a). rewrite E in D. destruct (cells s !! a) as [c'|] eqn:E'; [|done].
    by eapply lay_all0.
Qed.

(** ** Chains cut and joined *)

Definition cursors (l : list node) : list cursor := (fun n => Cell (addr n)) <$> l.

(** a chain whose end, after the cells [p], is replaced *)
Lemma chain_splice s s' i p q q' : forall e,
  chain s i e (p ++ q) -> NoDup (e :: cursors p) ->
  (forall e', e' ∈ e :: cursors p -> e' <> cursor_after e p -> slot s' e' i = slot s e' i) ->
  chain s' i (cursor_after e p) q' -> chain s' i e (p ++ q').
Proof.
  induction p as [|n p IH]; intros e H ND F Q; [done|]. destruct H as [H0 H].
  rewrite (cursor_after_app e [n] p : cursor_after e (n :: p) = _) in F, Q. apply NoDup_cons in ND as [N ND].
  assert (M : cursor_after (cursor_after e [n]) p ∈ cursors (n :: p)).
  { unfold cursor_after, cursors. cbn. destruct (last p) as [m|] eqn:E; [|left].
    right. apply last_Some_elem_of in E. by apply (list_elem_of_fmap_2 (fun n => Cell (addr n))). }
  split.
  - rewrite F; [done|left|]. intros E. by rewrite <- E in M.
  - apply IH; [done|done| |done]. intros e' He. apply F. by right.
Qed.

Lemma NoDup_cursors l : NoDup (addr <$> l) -> NoDup (Head :: cursors l).
Proof.
  intros H. apply NoDup_cons. split.
  - intros (n & E & _)%list_elem_of_fmap. done.
  - change (NoDup (Cell ∘ addr <$> l)). rewrite list_fmap_compose. apply NoDup_fmap_2; [by intros ?? [=]|done].
Qed.

(** a chain that no store touches *)
Lemma chain_frame s s' i l : forall e,
  (forall e', e' ∈ e :: cursors l -> slot s' e' i = slot s e' i) -> chain s i e l -> chain s' i e l.
Proof.
  induction l as [|n l IH]; intros e F; cbn [chain]; rewrite (F e) by left; [done|].
  intros [H1 H2]. split; [done|]. apply IH; [|done]. intros e' He. apply F. by right.
Qed.

(** the same list from another array *)
Lemma chain_from s s' i e e' l :
  (forall e0, e0 ∈ cursors l -> slot s' e0 i = slot s e0 i) -> slot s' e' i = Ok (head_addr l) ->
  chain s i e l -> chain s' i e' l.
Proof.
  intros F H. destruct l as [|n l]; [done|]. intros [_ C]. split; [done|].
  apply (chain_frame s); [exact F|done].
Qed.

(** only level [i] changes *)
Definition other_levels (s s' : skiplist) (i : Z) : Prop :=
  forall e j, 0 <= j -> j <> i -> slot s' e j = slot s e j.

Lemma NoDup_on_level i l : NoDup (addr <$> l) -> NoDup (addr <$> on_level i l).
Proof.
  intros H. eapply sublist_NoDup; [exact H|]. apply fmap_sublist, sublist_filter.
Qed.

Lemma NoDup_app_l {A} (l k : list A) : NoDup (l ++ k) -> NoDup l.
Proof. by intros [? _]%NoDup_app. Qed.

Lemma on_level_cursors i a b :
  NoDup (addr <$> (a ++ b)) -> NoDup (Head :: cursors (on_level i a)).
Proof.
  rewrite fmap_app. intros H%NoDup_app_l. by apply NoDup_cursors, NoDup_on_level.
Qed.

Lemma cursor_after_elem e l : cursor_after e l ∈ e :: cursors l.
Proof.
  unfold cursor_after. destruct (last l) as [n|] eqn:E; [|left]. right.
  apply last_Some_elem_of in E. by apply (list_elem_of_fmap_2 (fun n => Cell (addr n))).
Qed.

Lemma elem_of_cursors e i l : e ∈ cursors (on_level i l) -> exists n, e = Cell (addr n) /\ n ∈ l.
Proof. intros (n & -> & [_ H]%elem_of_on_level)%list_elem_of_fmap. by exists n. Qed.

(** the arrays around the cell [n] are different ones *)
Lemma cursors_apart i a n b :
  NoDup (addr <$> (a ++ n :: b)) ->
  let u := cursor_after Head (on_level i a) in
  (forall e, e ∈ Head :: cursors (on_level i a) -> e <> Cell (addr n)) /\
  (forall e, e ∈ cursors (on_level i b) -> e <> Cell (addr n) /\ e <> u) /\ u <> Cell (addr n).
Proof.
  rewrite fmap_app, fmap_cons. intros (N1 & N2 & [N3 N4]%NoDup_cons)%NoDup_app u.
  assert (Na : forall e, e ∈ Head :: cursors (on_level i a) -> e <> Cell (addr n)).
  { intros e [->|(m & -> & Hm)%elem_of_cursors]%elem_of_cons; [done|]. intros [= E].
    eapply N2; [by apply list_elem_of_fmap_2|]. rewrite E. left. }
  split_and!; [done| |apply Na, cursor_after_elem].
  intros e (m & -> & Hm)%elem_of_cursors. split.
  - intros [= E]. apply N3. rewrite <- E. by apply list_elem_of_fmap_2.
  - intros E. pose proof (cursor_after_elem Head (on_level i a)) as Q. fold u in Q. rewrite <- E in Q.
    apply elem_of_cons in Q as [Q|(m' & [= Q] & Hm')%elem_of_cursors]; [done|].
    eapply N2; [by apply list_elem_of_fmap_2|]. right. rewrite <- Q. by apply list_elem_of_fmap_2.
Qed.

Lemma NoDup_without {A} (a b : list A) x : NoDup (a ++ x :: b) -> NoDup (a ++ b).
Proof.
  intros (N1 & N2 & [N3 N4]%NoDup_cons)%NoDup_app. apply NoDup_app. split_and!; [done| |done].
  intros y Hy Hb. eapply N2; [done|by right].
Qed.

Lemma link_level_ok s a b n i update :
  chain s i Head (on_level i (a ++ b)) -> NoDup (addr <$> (a ++ n :: b)) ->
  update_at update i = Ok (cursor_after Head (on_level i a)) ->
  node_cell s n -> 0 <= i < height n ->
  exists s', link_level update (addr n) i s = Ok s' /\ same_shape s s' /\ other_levels s s' i /\
    chain s' i Head (on_level i (a ++ n :: b)).
Proof.
  intros C ND U (fwd & En & Ln) Hi. unfold link_level. rewrite U. cbn [rbind].
  destruct (cursors_apart i a n b ND) as (Ja & Jb & Ju).
  set (u := cursor_after Head (on_level i a)) in *.
  rewrite on_level_app in C. pose proof (chain_app _ _ _ _ _ C) as Cu. fold u in Cu.
  rewrite (chain_slot _ _ _ _ Cu). cbn [rbind].
  destruct (rd_in_range fwd i) as (x & Ex); [lia|].
  destruct (set_slot_ok s (Cell (addr n)) i (head_addr (on_level i b)) x) as (s1 & -> & S1 & V1 & F1).
  { cbn [slot]. unfold cell. by rewrite En. }
  cbn [rbind]. destruct (set_slot_ok s1 u i (addr n) (head_addr (on_level i b))) as (s2 & -> & S2 & V2 & F2).
  { rewrite F1 by (lia || by left). apply (chain_slot _ _ _ _ Cu). }
  exists s2. split; [done|]. split; [by etrans|]. split.
  { intros e j Hj Hne. rewrite F2, F1 by (done || by right). done. }
  rewrite on_level_app, on_level_cons, decide_True by lia.
  rewrite fmap_app, fmap_cons in ND. apply NoDup_without in ND. rewrite <- fmap_app in ND.
  apply (chain_splice s s2 i _ (on_level i b)); [done|by eapply on_level_cursors|..].
  - intros e' He' Hne. rewrite F2, F1 by (lia || (left; exact Hne) || (left; by apply Ja)). done.
  - split; [done|]. apply (chain_from s s2 i u); [|rewrite F2 by (lia || (left; congruence)); done|done].
    intros e' [J1 J2]%Jb. rewrite F2, F1 by (lia || by left). done.
Qed.

Lemma unlink_level_ok s a b n i update :
  chain s i Head (on_level i (a ++ n :: b)) -> NoDup (addr <$> (a ++ n :: b)) ->
  Forall (fun m => addr m <> 0) (n :: b) ->
  update_at update i = Ok (cursor_after Head (on_level i a)) -> 0 <= i ->
  exists s', unlink_level update (addr n) i s = Ok s' /\ same_shape s s' /\ other_levels s s' i /\
    chain s' i Head (on_level i (a ++ b)).
Proof.
  intros C ND NZ U Hi. unfold unlink_level. rewrite U. cbn [rbind].
  destruct (cursors_apart i a n b ND) as (Ja & Jb & Ju).
  set (u := cursor_after Head (on_level i a)) in *.
  rewrite on_level_app in C. pose proof (chain_app _ _ _ _ _ C) as Cu. fold u in Cu.
  rewrite (chain_slot _ _ _ _ Cu). cbn [rbind]. rewrite on_level_app. rewrite on_level_cons in C, Cu |- *.
  case_decide as Hh; cbn [head_addr].
  - rewrite Z.eqb_refl. destruct Cu as [Cu0 Cn]. rewrite (chain_slot _ _ _ _ Cn). cbn [rbind].
    destruct (set_slot_ok s u i (head_addr (on_level i b)) (addr n) Cu0) as (s1 & -> & S1 & V1 & F1).
    exists s1. split_and!; [done|done|by intros e j Hj Hne; rewrite F1 by (done || by right)|].
    rewrite fmap_app, fmap_cons in ND. apply NoDup_without in ND. rewrite <- fmap_app in ND.
    apply (chain_splice s s1 i _ (n :: on_level i b)); [done|by eapply on_level_cursors|..].
    + intros e' He' Hne. by rewrite F1 by (done || (left; exact Hne)).
    + apply (chain_from s s1 i (Cell (addr n))); [|done|done].
      intros e' [J1 J2]%Jb. by rewrite F1 by (done || by left).
  - assert (E : (head_addr (on_level i b) =? addr n) = false).
    { apply Z.eqb_neq. destruct (on_level i b) as [|m l] eqn:E; cbn [head_addr].
      - apply Forall_inv in NZ. congruence.
      - intros Q. destruct (Jb (Cell (addr m))) as [J _]; [left|]. by rewrite Q in J. }
    rewrite E. by exists s.
Qed.

(** ** Levels drawn *)

Lemma top_bits r : is_u32 r -> (Z.land r 0xC0000000 =? 0xC0000000) = (3 * 2 ^ 30 <=? r).
Proof.
  intros Hr. assert (E : Z.land r 0xC0000000 = Z.land (Z.shiftr r 30) 3 * 2 ^ 30).
  { rewrite <- Z.shiftl_mul_pow2 by lia. change 0xC0000000 with (Z.shiftl 3 30).
    apply Z.bits_inj'. intros i Hi. rewrite Z.land_spec. destruct (Z.ltb_spec i 30).
    - by rewrite !Z.shiftl_spec_low, andb_false_r by lia.
    - rewrite !Z.shiftl_spec, Z.land_spec, Z.shiftr_spec by lia. by rewrite Z.sub_add. }
  assert (Q : 0 <= Z.shiftr r 30 < 4) by (rewrite Z.shiftr_div_pow2 by lia; unfold is_u32 in Hr; zlia).
  assert (Q3 : Z.land (Z.shiftr r 30) 3 = Z.shiftr r 30).
  { change 3 with (Z.ones 2). rewrite Z.land_ones by lia. by apply Z.mod_small. }
  rewrite E, Q3, Z.shiftr_div_pow2 by lia. unfold is_u32 in Hr.
  destruct (Z.eqb_spec (r / 2 ^ 30 * 2 ^ 30) 0xC0000000), (Z.leb_spec (3 * 2 ^ 30) r); try done; zlia.
Qed.

Lemma count_level_ok fuel : forall d lv,
  1 <= d <= 2 ^ 32 -> 2 ^ 32 < 4 ^ Z.of_nat fuel * d ->
  exists n, count_level fuel (u32 (2 ^ 32 - d)) lv = Ok (lv + n) /\ 0 <= n /\
    4 ^ n * d <= 2 ^ 32 < 4 ^ (n + 1) * d.
Proof.
  induction fuel as [|fuel IH]; intros d lv Hd Hf; [change (4 ^ Z.of_nat 0) with 1 in Hf; lia|].
  cbn [count_level]. rewrite (u32_id (2 ^ 32 - d)), top_bits by (unfold is_u32; lia).
  destruct (Z.leb_spec (3 * 2 ^ 30) (2 ^ 32 - d)) as [G|G].
  - rewrite Nat2Z.inj_succ, Z.pow_succ_r in Hf by lia.
    replace (u32 (Z.shiftl (2 ^ 32 - d) 2)) with (u32 (2 ^ 32 - 4 * d))
      by (rewrite Z.shiftl_mul_pow2 by lia; solve_word).
    destruct (IH (4 * d) (lv + 1)) as (n & -> & Hn & H1 & H2); [lia|lia|].
    exists (n + 1). rewrite !Z.pow_add_r in * by lia. split; [f_equal; lia|]. lia.
  - exists 0. rewrite Z.add_0_r. split; [done|]. change (4 ^ (0 + 1)) with 4. lia.
Qed.

Lemma random_level_ok seed :
  exists l, random_level seed = Ok (l, u32 (u32 (seed * 69069) + 25173)) /\ 0 <= l < NUM_LEVELS /\
    forall j, 0 <= j <= 16 -> (j <= l <-> 2 ^ 32 - 4 ^ (16 - j) <= u32 (u32 (seed * 69069) + 25173)).
Proof.
  unfold random_level. set (r := u32 (u32 (seed * 69069) + 25173)).
  assert (Hr : is_u32 r) by apply u32_range. unfold is_u32 in Hr.
  destruct (count_level_ok 17 (2 ^ 32 - r) 0) as (n & E & Hn & H1 & H2); [lia|lia|].
  replace (2 ^ 32 - (2 ^ 32 - r)) with r in E by lia. rewrite u32_id in E by done. rewrite E.
  cbn [rbind]. exists n. split; [done|]. change (2 ^ 32) with (4 ^ 16) in *.
  assert (U : n <= 16).
  { destruct (Z_le_gt_dec n 16); [done|]. pose proof (Z.pow_le_mono_r 4 17 n). nia. }
  split; [unfold NUM_LEVELS; lia|]. intros j Hj.
  assert (P : forall m, 0 <= m <= 16 -> 4 ^ 16 = 4 ^ m * 4 ^ (16 - m))
    by (intros m Hm; rewrite <- Z.pow_add_r by lia; f_equal; lia).
  pose proof (Z.pow_pos_nonneg 4 j). split; intros G.
  - pose proof (Z.pow_le_mono_r 4 j n). rewrite (P j) in H1 at 2 by lia. nia.
  - destruct (Z_le_gt_dec j n); [done|]. pose proof (Z.pow_le_mono_r 4 (n + 1) j).
    rewrite (P j) in H2 at 1 by lia. nia.
Qed.

(** ** Insertion *)

Lemma on_level_top s ns : Forall (node_ok s) ns -> on_level (Z.of_nat (S (Z.to_nat (level s)))) ns = [].
Proof. intros H. apply (on_level_none s); [done|lia]. Qed.

(** where the key [k] is, or would be *)
Lemma places_ok s a b k :
  laid_out s (a ++ b) -> well_linked s (a ++ b) ->
  Forall (fun n => nkey n < k) a -> Forall (fun n => k <= nkey n) b ->
  exists e update,
    find_places (S (Z.to_nat (level s))) s k Head no_update = Ok (e, update) /\
    slot s e 0 = Ok (head_addr b) /\ zlen update = NUM_LEVELS /\
    forall i, 0 <= i <= level s -> update_at update i = Ok (cursor_after Head (on_level i a)).
Proof.
  intros L W Ha Hb.
  pose proof (lay_level _ _ L). pose proof (lay_nodes _ _ L) as N. apply Forall_app in N as [Na Nb].
  destruct (find_places_ok s a b k L W (S (Z.to_nat (level s))) no_update Ha Hb) as (update & E & Z & U & _);
    [lia|done|]. rewrite (on_level_top s) in E by done.
  exists (cursor_after Head (on_level 0 a)), update. split_and!; try done.
  - pose proof (W 0 ltac:(unfold NUM_LEVELS; lia)) as C. rewrite on_level_app in C.
    rewrite <- (on_level_0 s b) by done. exact (chain_slot _ _ _ _ (chain_app _ _ _ _ _ C)).
  - intros i Hi. unfold update_at, rd. destruct (Z.ltb_spec i 0); [lia|].
    rewrite (U (Z.to_nat i)) by lia. cbn. do 3 f_equal. lia.
Qed.

Lemma contents_middle a n b :
  Forall (fun m => nkey m <> nkey n) a ->
  contents (a ++ n :: b) = <[nkey n := ndata n]> (contents (a ++ b)).
Proof.
  induction 1 as [|m a H _ IH]; [done|]. cbn [app]. rewrite !contents_cons, IH.
  by apply insert_insert_ne.
Qed.

Lemma sorted_middle a n b :
  StronglySorted (fun n n' => nkey n < nkey n') (a ++ b) ->
  Forall (fun m => nkey m < nkey n) a -> Forall (fun m => nkey n < nkey m) b ->
  StronglySorted (fun n n' => nkey n < nkey n') (a ++ n :: b).
Proof.
  intros S Ha Hb. induction Ha as [|m a Hm _ IH]; cbn [app] in *; [by constructor|].
  apply StronglySorted_inv in S as [S F]. constructor; [by apply IH|].
  apply Forall_app in F as [F1 F2]. apply Forall_app. split; [done|by constructor].
Qed.

Lemma sorted_without a n b :
  StronglySorted (fun n n' => nkey n < nkey n') (a ++ n :: b) ->
  StronglySorted (fun n n' => nkey n < nkey n') (a ++ b).
Proof.
  intros S. induction a as [|m a IH]; cbn [app] in *; [by apply StronglySorted_inv in S as [S _]|].
  apply StronglySorted_inv in S as [S F]. constructor; [by apply IH|].
  apply Forall_app in F as [F1 F2]. apply Forall_app. split; [done|by apply Forall_inv_tail in F2].
Qed.

Lemma sorted_around a n b :
  StronglySorted (fun n n' => nkey n < nkey n') (a ++ n :: b) ->
  Forall (fun m => nkey m < nkey n) a /\ Forall (fun m => nkey n < nkey m) b.
Proof.
  induction a as [|m a IH]; cbn [app]; intros [S F]%StronglySorted_inv; [by split|].
  destruct (IH S) as [Ha Hb]. split; [|done]. constructor; [|done].
  by apply Forall_app in F as [_ F%Forall_inv].
Qed.

Lemma Forall_ne a n : Forall (fun m => nkey m < nkey n) a -> Forall (fun m => nkey m <> nkey n) a.
Proof. intros H. eapply Forall_impl; [exact H|]. cbn. lia. Qed.

(** the levels and the chains see the addresses and the heights only *)
Lemma chain_addr s i a a' : forall e, addr <$> a = addr <$> a' -> chain s i e a -> chain s i e a'.
Proof.
  revert a'. induction a as [|n a IH]; intros [|n' a'] e; try done.
  intros [= E1 E2] [H1 H2]. rewrite E1 in *. split; [done|]. by apply IH.
Qed.

Lemma on_level_redo i a n n' b :
  addr n' = addr n -> height n' = height n ->
  addr <$> on_level i (a ++ n :: b) = addr <$> on_level i (a ++ n' :: b).
Proof.
  intros E1 E2. rewrite !on_level_app, !fmap_app, !on_level_cons, E2. f_equal.
  case_decide; [|done]. by rewrite !fmap_cons, E1.
Qed.

Lemma set_data_ok s a n b d :
  laid_out s (a ++ n :: b) -> well_linked s (a ++ n :: b) -> level_used s (a ++ n :: b) ->
  exists c, cell s (addr n) = Ok c /\ key c = nkey n /\
    represents (with_cells s (<[addr n := Skipcell (key c) d (forwards c)]> (cells s)))
      (<[nkey n := d]> (contents (a ++ n :: b))).
Proof.
  intros L W U. set (n' := Node (addr n) (nkey n) d (height n)).
  pose proof (lay_nodes _ _ L) as N. apply Forall_app in N as [Na [Nn Nb]%Forall_cons].
  pose proof Nn as (_ & _ & fwd & E & Ef). exists (Skipcell (nkey n) (ndata n) fwd).
  split; [by unfold cell; rewrite E|]. split; [done|]. cbn [key forwards].
  set (s' := with_cells s _).
  assert (Slot : forall e j, slot s' e j = slot s e j).
  { intros [|x] j; [done|]. cbn. unfold cell. cbn. destruct (decide (x = addr n)) as [->|].
    - by rewrite lookup_insert_eq, E.
    - by rewrite lookup_insert_ne. }
  pose proof (lay_addr _ _ L) as ND. rewrite fmap_app, fmap_cons in ND.
  destruct (sorted_around _ _ _ (lay_sorted _ _ L)) as [Sa Sb].
  assert (Keep : forall m, addr m <> addr n -> node_ok s m -> node_ok s' m).
  { intros m Hm (H1 & H2 & f & H3 & H4). split_and!; try done; [by apply H1|by apply H1|by apply H2|by apply H2|].
    exists f. split; [|done]. cbn. by rewrite lookup_insert_ne. }
  exists (a ++ n' :: b). split_and!.
  - destruct L. split; try done.
    + apply NoDup_app in ND as (N1 & N2 & [N3 N4]%NoDup_cons).
      apply Forall_app. split; [|constructor].
      * rewrite Forall_forall in Na |- *. intros m Hm. apply Keep, Na; [|done]. intros Q.
        eapply N2; [by apply list_elem_of_fmap_2|]. rewrite Q. left.
      * destruct Nn as (H1 & H2 & _). split; [done|]. split; [done|]. exists fwd. cbn. by rewrite lookup_insert_eq.
      * rewrite Forall_forall in Nb |- *. intros m Hm. apply Keep, Nb; [|done]. intros Q.
        apply N3. rewrite <- Q. by apply list_elem_of_fmap_2.
    + intros x c. cbn. destruct (decide (x = addr n)) as [->|].
      * intros _. rewrite fmap_app, fmap_cons. apply elem_of_app. right. left.
      * rewrite lookup_insert_ne by done. intros Q%lay_all0. by rewrite fmap_app, fmap_cons in Q |- *.
    + by rewrite fmap_app, fmap_cons in lay_addr0 |- *.
    + by apply sorted_middle; [eapply sorted_without| |].
  - intros i Hi. apply (chain_frame s); [by intros|]. eapply chain_addr; [|by apply W].
    by apply on_level_redo.
  - destruct U as [U|U]; [by left|]. right. cbn. intros Q. apply U.
    apply (fmap_nil_inv addr). rewrite (on_level_redo _ _ n n') by done. cbn. by rewrite Q.
  - rewrite !contents_middle by by apply Forall_ne. cbn. by rewrite insert_insert_eq.
Qed.

(** the new cell, not linked yet *)
Lemma laid_out_new s a b k d l seed :
  laid_out s (a ++ b) -> 0 <= l < NUM_LEVELS ->
  Forall (fun m => nkey m < k) a -> Forall (fun m => k < nkey m) b ->
  let f := next_cell s in
  let s1 := Skiplist (forward s) (Z.max (level s) l)
    (<[f := Skipcell k d (replicate (Z.to_nat (l + 1)) 0)]> (cells s)) (f + 1) seed in
  laid_out s1 (a ++ Node f k d (l + 1) :: b) /\
  (well_linked s (a ++ b) -> well_linked s1 (a ++ b)).
Proof.
  intros L Hl Ha Hb f s1. pose proof (lay_nodes _ _ L) as N.
  assert (Nf : Forall (fun m => addr m <> f) (a ++ b)).
  { eapply Forall_impl; [exact N|]. intros m (H & _). unfold f. lia. }
  assert (Nin : f ∉ addr <$> (a ++ b)).
  { intros (m & E & Hm)%list_elem_of_fmap. rewrite Forall_forall in Nf. by apply (Nf m). }
  split.
  - assert (N' : Forall (node_ok s1) (a ++ b)).
    { rewrite Forall_forall in N, Nf |- *. intros m Hm.
      destruct (N m Hm) as (H1 & H2 & fwd & H3 & H4). unfold node_ok. cbn.
      split; [lia|]. split; [lia|]. exists fwd. cbn. by rewrite lookup_insert_ne by (symmetry; by apply Nf). }
    apply Forall_app in N' as [Na Nb]. rewrite fmap_app in Nin. destruct L. split; cbn; try done.
    + unfold NUM_LEVELS in *. lia.
    + apply Forall_app. split; [done|]. constructor; [|done]. unfold node_ok. cbn.
      split; [unfold f; lia|]. split; [lia|]. exists (replicate (Z.to_nat (l + 1)) 0). cbn.
      rewrite lookup_insert_eq. split; [done|]. unfold zlen. rewrite length_replicate. lia.
    + intros x c. rewrite fmap_app, fmap_cons. destruct (decide (x = f)) as [->|].
      * intros _. apply elem_of_app. right. left.
      * rewrite lookup_insert_ne by done. intros Q%lay_all0. rewrite fmap_app in Q.
        apply elem_of_app in Q as [Q|Q]; apply elem_of_app; [by left|by right; right].
    + rewrite fmap_app, fmap_cons. apply not_elem_of_app in Nin as [Nin1 Nin2].
      rewrite fmap_app in lay_addr0. apply NoDup_app in lay_addr0 as (N1 & N2 & N3). apply NoDup_app.
      split_and!; [done| |by apply NoDup_cons]. intros x Hx [->|Q]%elem_of_cons; [done|]. by eapply N2.
    + by apply sorted_middle.
    + lia.
  - intros W i Hi. apply (chain_frame s); [|by apply W]. intros e He. destruct e as [|x]; [done|]. cbn.
    unfold cell. cbn. rewrite lookup_insert_ne; [done|]. intros <-.
    apply elem_of_cons in He as [|(m & [= E] & Hm)%elem_of_cursors]; [done|].
    apply Nin. rewrite E. by apply list_elem_of_fmap_2.
Qed.

(** the cell is linked level by level *)
Lemma link_levels_ok s a b n update :
  laid_out s (a ++ n :: b) -> well_linked s (a ++ b) ->
  (forall i, 0 <= i < height n -> update_at update i = Ok (cursor_after Head (on_level i a))) ->
  exists s', for_loop (Z.to_nat (height n)) 0 (link_level update (addr n)) s = Ok s' /\
    same_shape s s' /\ well_linked s' (a ++ n :: b).
Proof.
  intros L W U. pose proof (lay_nodes _ _ L) as N. apply Forall_app in N as [_ [Nn _]%Forall_cons].
  destruct (for_loop_inv (fun j s' => same_shape s s' /\
    (forall i, 0 <= i < j -> chain s' i Head (on_level i (a ++ n :: b))) /\
    (forall i, 0 <= j <= i -> i < NUM_LEVELS -> chain s' i Head (on_level i (a ++ b))))
    (Z.to_nat (height n)) 0 (link_level update (addr n)) s) as (s' & E & S & C1 & C2).
  - split_and!; [done|lia|]. intros i Hi Hi'. apply W. lia.
  - intros j t Hj (S & C1 & C2). pose proof (lay_level _ _ L). pose proof Nn as (_ & Hh & _).
    destruct (node_ok_shape _ _ _ S Nn) as (_ & _ & Nc).
    destruct (link_level_ok t a b n j update) as (t' & -> & S' & F & C);
      [apply C2; lia|apply L|apply U; lia|done|lia|].
    exists t'. split; [done|]. split; [by etrans|]. split.
    + intros i Hi. destruct (decide (i = j)) as [->|]; [done|].
      apply (chain_frame t); [intros e _; apply F; lia|apply C1; lia].
    + intros i Hi Hi'. apply (chain_frame t); [intros e _; apply F; lia|apply C2; lia].
  - exists s'. split; [done|]. split; [done|]. intros i Hi. pose proof Nn as (_ & Hh & _).
    destruct (Z_lt_le_dec i (height n)); [apply C1; lia|].
    rewrite on_level_app, on_level_cons, decide_False, <- on_level_app by lia. apply C2; lia.
Qed.

(** the levels above the one of the list start from its head *)
Lemma new_updates_ok s (a : list node) update l :
  0 <= level s -> zlen update = NUM_LEVELS -> l < NUM_LEVELS -> Forall (node_ok s) a ->
  (forall i, 0 <= i <= level s -> update_at update i = Ok (cursor_after Head (on_level i a))) ->
  exists update', for_loop (Z.to_nat (l - level s)) (level s + 1)
      (fun i update => wr update i (Some Head)) update = Ok update' /\
    forall i, 0 <= i <= l -> update_at update' i = Ok (cursor_after Head (on_level i a)).
Proof.
  intros Hs Z Hl Na U.
  destruct (for_loop_inv (fun j update => zlen update = NUM_LEVELS /\
    forall i, 0 <= i < j -> update_at update i = Ok (cursor_after Head (on_level i a)))
    (Z.to_nat (l - level s)) (level s + 1) (fun i update => wr update i (Some Head)) update) as (u & E & Zu & Q).
  - split; [done|]. intros i Hi. apply U. lia.
  - intros j u Hj [Zu Q]. rewrite wr_in_range by lia. eexists. split; [done|].
    split; [by rewrite zlen_insert|]. intros i Hi. unfold update_at. rewrite rd_insert by lia.
    case_decide as D; [|apply Q; lia]. by rewrite (on_level_none s) by (done || lia).
  - exists u. split; [done|]. intros i Hi. apply Q. lia.
Qed.

(** a key that is not in the list: the new cell *)
Lemma link_new_ok s a b k d l update seed :
  laid_out s (a ++ b) -> well_linked s (a ++ b) -> level_used s (a ++ b) -> 0 <= l < NUM_LEVELS ->
  Forall (fun m => nkey m < k) a -> Forall (fun m => k < nkey m) b -> zlen update = NUM_LEVELS ->
  (forall i, 0 <= i <= level s -> update_at update i = Ok (cursor_after Head (on_level i a))) ->
  let f := next_cell s in
  let s1 := Skiplist (forward s) (Z.max (level s) l)
    (<[f := Skipcell k d (replicate (Z.to_nat (l + 1)) 0)]> (cells s)) (f + 1) seed in
  exists u s', for_loop (Z.to_nat (l - level s)) (level s + 1)
      (fun i update => wr update i (Some Head)) update = Ok u /\
    for_loop (Z.to_nat (l + 1)) 0 (link_level u f) s1 = Ok s' /\
    represents s' (<[k := d]> (contents (a ++ b))).
Proof.
  intros L W U Hl Ha Hb Zu Ui f s1.
  pose proof (lay_nodes _ _ L) as N. apply Forall_app in N as [Na _]. pose proof (lay_level _ _ L).
  destruct (new_updates_ok s a update l) as (u & Eu & Uu); [lia|done|lia|done|done|].
  destruct (laid_out_new s a b k d l seed L Hl Ha Hb) as [L1 W1]. fold f s1 in L1, W1.
  destruct (link_levels_ok s1 a b (Node f k d (l + 1)) u L1 (W1 W)) as (s' & Es' & S & W');
    [intros i Hi; apply Uu; cbn in Hi; lia|].
  exists u, s'. split; [done|]. split; [done|].
  exists (a ++ Node f k d (l + 1) :: b). split_and!; [by eapply laid_out_shape|done| |].
  - right. rewrite (same_level _ _ S). cbn. rewrite on_level_app, on_level_cons.
    case_decide as D; [by destruct (on_level _ a)|]. cbn in D. rewrite Z.max_l, <- on_level_app by lia.
    destruct U as [U|U]; [|done]. lia.
  - rewrite contents_middle; [done|]. by apply Forall_ne.
Qed.

Lemma head_data_none k b :
  StronglySorted (fun n n' => nkey n < nkey n') b -> Forall (fun n => k <= nkey n) b ->
  head_data k b = None -> Forall (fun m => k < nkey m) b.
Proof.
  intros S H Hd. destruct S as [|n b S Hn]; [done|]. apply Forall_inv in H. cbn in Hd.
  destruct (Z.eqb_spec (nkey n) k); [done|]. constructor; [lia|].
  eapply Forall_impl; [exact Hn|]. cbn. lia.
Qed.

Lemma caml_skiplist_insert_ok s m k d :
  represents s m ->
  exists s', caml_skiplist_insert s k d = Ok (bool_decide (is_Some (m !! k)), s') /\
    represents s' (<[k := d]> m).
Proof.
  intros (ns & L & W & U & <-).
  destruct (sorted_split k ns (lay_sorted _ _ L)) as (a & b & -> & Ha & Hb).
  destruct (places_ok s a b k L W Ha Hb) as (e & update & E & Es & Zu & Ui).
  unfold caml_skiplist_insert. rewrite E. cbn [rbind]. rewrite Es. cbn [rbind].
  pose proof (sorted_app_r _ _ _ (lay_sorted _ _ L)) as Sb.
  pose proof (lay_nodes _ _ L) as Nb. apply Forall_app in Nb as [_ Nb].
  rewrite (contents_split k a b Sb Ha Hb).
  destruct (random_level_ok (random_seed s)) as (l & El & Hl & _).
  destruct (decide (head_data k b = None)) as [Hd|Hd].
  - destruct (link_new_ok s a b k d l update (u32 (u32 (random_seed s * 69069) + 25173)) L W U Hl Ha)
      as (u & s' & E1 & E2 & R); [by apply head_data_none|done|done|]. rewrite Hd.
    exists s'. split; [|done]. destruct b as [|n b]; cbn [head_addr rbind].
    2: destruct (node_get _ _ (Forall_inv Nb)) as (-> & fwd & -> & _); cbn [rbind key]; cbn in Hd;
      destruct (nkey n =? k); [done|]; cbn [rbind].
    all: rewrite El; cbn [rbind]; rewrite E1; cbn [rbind]; by rewrite E2.
  - destruct b as [|n b]; [done|]. cbn in Hd. cbn [head_addr head_data].
    destruct (Z.eqb_spec (nkey n) k) as [<-|]; [|done].
    destruct (set_data_ok s a n b d L W U) as (c & Ec & Ek & R).
    destruct (node_get _ _ (Forall_inv Nb)) as (-> & _). rewrite Ec. cbn [rbind]. rewrite Ek, Z.eqb_refl.
    rewrite bool_decide_true by done. eexists. split; [done|]. exact R.
Qed.

(** ** Deletion *)

Lemma unlink_levels_ok s a b n update :
  laid_out s (a ++ n :: b) -> well_linked s (a ++ n :: b) ->
  (forall i, 0 <= i <= level s -> update_at update i = Ok (cursor_after Head (on_level i a))) ->
  exists s', for_loop (S (Z.to_nat (level s))) 0 (unlink_level update (addr n)) s = Ok s' /\
    same_shape s s' /\ well_linked s' (a ++ b).
Proof.
  intros L W U. pose proof (lay_level _ _ L). pose proof (lay_nodes _ _ L) as N.
  apply Forall_app in N as [_ N]. pose proof (Forall_inv N) as (_ & Hh & _).
  assert (NZ : Forall (fun m => addr m <> 0) (n :: b)).
  { eapply Forall_impl; [exact N|]. intros m (Hm & _). lia. }
  destruct (for_loop_inv (fun j s' => same_shape s s' /\
    (forall i, 0 <= i < j -> i < NUM_LEVELS -> chain s' i Head (on_level i (a ++ b))) /\
    (forall i, 0 <= j <= i -> i < NUM_LEVELS -> chain s' i Head (on_level i (a ++ n :: b))))
    (S (Z.to_nat (level s))) 0 (unlink_level update (addr n)) s) as (s' & E & S & C1 & C2).
  - split_and!; [done|lia|]. intros i Hi Hi'. apply W. lia.
  - intros j t Hj (S & C1 & C2).
    destruct (unlink_level_ok t a b n j update) as (t' & -> & S' & F & C);
      [apply C2; lia|apply L|done|apply U; lia|lia|].
    exists t'. split; [done|]. split; [by etrans|]. split.
    + intros i Hi Hi'. destruct (decide (i = j)) as [->|]; [done|].
      apply (chain_frame t); [intros e _; apply F; lia|apply C1; lia].
    + intros i Hi Hi'. apply (chain_frame t); [intros e _; apply F; lia|apply C2; lia].
  - exists s'. split; [done|]. split; [done|]. intros i Hi.
    destruct (Z_le_gt_dec i (level s)); [apply C1; lia|].
    pose proof (C2 i ltac:(lia) ltac:(lia)) as C.
    by rewrite on_level_app, on_level_cons, decide_False, <- on_level_app in C by lia.
Qed.

(** the unlinked cell freed *)
Lemma free_cell_ok s a b n :
  laid_out s (a ++ n :: b) -> well_linked s (a ++ b) ->
  let s' := with_cells s (delete (addr n) (cells s)) in
  laid_out s' (a ++ b) /\ well_linked s' (a ++ b).
Proof.
  intros L W s'. pose proof (lay_addr _ _ L) as ND.
  assert (Nin : addr n ∉ addr <$> (a ++ b)).
  { rewrite fmap_app, fmap_cons in ND. rewrite fmap_app.
    apply NoDup_app in ND as (_ & N2 & [N3 _]%NoDup_cons).
    intros [Q|Q]%elem_of_app; [|done]. eapply N2; [exact Q|left]. }
  assert (Nm : forall m, m ∈ a ++ b -> addr n <> addr m).
  { intros m Hm E. apply Nin. rewrite E. by apply list_elem_of_fmap_2. }
  split.
  - pose proof (lay_nodes _ _ L) as N. apply Forall_app in N as [Na Nb%Forall_inv_tail].
    pose proof (conj Na Nb) as N. rewrite <- Forall_app in N. destruct L. split; cbn; try done.
    + rewrite Forall_forall in N |- *. intros m Hm. destruct (N m Hm) as (H1 & H2 & fwd & H3 & H4).
      split; [done|]. split; [done|]. exists fwd. cbn. by rewrite lookup_delete_ne by by apply Nm.
    + intros x c [Hx Q%lay_all0]%lookup_delete_Some. rewrite fmap_app, fmap_cons in Q. rewrite fmap_app.
      apply elem_of_app in Q as [Q|[->|Q]%elem_of_cons]; apply elem_of_app; [by left|done|by right].
    + rewrite fmap_app, fmap_cons in ND. rewrite fmap_app. by eapply NoDup_without.
    + by eapply sorted_without.
  - intros i Hi. apply (chain_frame s); [|by apply W]. intros e He. destruct e as [|x]; [done|]. cbn.
    unfold cell. cbn. rewrite lookup_delete_ne; [done|].
    apply elem_of_cons in He as [|(m & [= ->] & Hm)%elem_of_cursors]; [done|by apply Nm].
Qed.

Lemma slot_with_level s lv e i : slot (with_level s lv) e i = slot s e i.
Proof. by destruct e. Qed.

Lemma chain_with_level s lv i l : forall e, chain s i e l -> chain (with_level s lv) i e l.
Proof. intros e. apply chain_frame. intros e' _. apply slot_with_level. Qed.

Lemma lower_level_ok fuel : forall s ns,
  laid_out s ns -> well_linked s ns -> (Z.to_nat (level s) < fuel)%nat ->
  exists s', lower_level fuel s = Ok s' /\ laid_out s' ns /\ well_linked s' ns /\ level_used s' ns.
Proof.
  induction fuel as [|fuel IH]; intros s ns L W Hf; [lia|]. cbn [lower_level].
  pose proof (lay_level _ _ L) as Hl.
  destruct (Z.ltb_spec 0 (level s)) as [G|G].
  2:{ exists s. split_and!; [done..|]. left. lia. }
  rewrite (chain_slot _ _ _ _ (W (level s) Hl)). cbn [rbind].
  destruct (on_level (level s) ns) as [|n l] eqn:E; cbn [head_addr].
  - rewrite Z.eqb_refl. apply IH; [|intros i Hi; by apply chain_with_level, W|cbn; lia].
    destruct L. split; try done; cbn; [lia|]. rewrite Forall_forall in lay_nodes0 |- *.
    intros m Hm. destruct (lay_nodes0 m Hm) as (H1 & H2 & H3). split; [done|]. split; [|done]. cbn.
    destruct (Z_lt_le_dec (level s) (height m)); [|lia]. assert (Q : m ∈ on_level (level s) ns) by by apply elem_of_on_level.
    rewrite E in Q. by apply elem_of_nil in Q.
  - assert (Hn : n ∈ ns) by (apply (elem_of_on_level (level s)); rewrite E; left).
    pose proof (proj1 (Forall_forall _ _) (lay_nodes _ _ L) n Hn) as (Ha & _).
    destruct (Z.eqb_spec (addr n) 0); [lia|]. exists s. split_and!; try done. right. by rewrite E.
Qed.

Lemma contents_delete a n b :
  StronglySorted (fun n n' => nkey n < nkey n') (a ++ n :: b) ->
  contents (a ++ b) = delete (nkey n) (contents (a ++ n :: b)).
Proof.
  intros [Sa Sb]%sorted_around. rewrite contents_middle by by apply Forall_ne.
  rewrite delete_insert_id; [done|]. apply contents_none, Forall_app. split; [by apply Forall_ne|].
  eapply Forall_impl; [exact Sb|]. cbn. lia.
Qed.

Lemma remove_node_ok s a b n update :
  laid_out s (a ++ n :: b) -> well_linked s (a ++ n :: b) ->
  (forall i, 0 <= i <= level s -> update_at update i = Ok (cursor_after Head (on_level i a))) ->
  exists s1 s2, for_loop (S (Z.to_nat (level s))) 0 (unlink_level update (addr n)) s = Ok s1 /\
    (let s1 := with_cells s1 (delete (addr n) (cells s1)) in lower_level (S (Z.to_nat (level s1))) s1) = Ok s2 /\
    laid_out s2 (a ++ b) /\ well_linked s2 (a ++ b) /\ level_used s2 (a ++ b).
Proof.
  intros L W Ui. destruct (unlink_levels_ok s a b n update L W Ui) as (s1 & E1 & S1 & W1).
  destruct (free_cell_ok s1 a b n (laid_out_shape _ _ _ S1 L) W1) as [L2 W2].
  edestruct (lower_level_ok (S (Z.to_nat (level s1)))) as (s2 & E2 & R); [exact L2|exact W2|cbn; lia|].
  by exists s1, s2.
Qed.

Lemma Forall_le_head n b :
  Forall (fun m => nkey n < nkey m) b -> Forall (fun m => nkey n <= nkey m) (n :: b).
Proof. intros H. constructor; [lia|]. eapply Forall_impl; [exact H|]. cbn. lia. Qed.

Lemma caml_skiplist_remove_node s a b n :
  laid_out s (a ++ n :: b) -> well_linked s (a ++ n :: b) ->
  exists s', caml_skiplist_remove s (nkey n) = Ok (true, s') /\
    laid_out s' (a ++ b) /\ well_linked s' (a ++ b) /\ level_used s' (a ++ b).
Proof.
  intros L W. destruct (sorted_around _ _ _ (lay_sorted _ _ L)) as [Ha Hb%Forall_le_head].
  destruct (places_ok s a (n :: b) (nkey n) L W Ha Hb) as (e & update & E & Es & Zu & Ui).
  unfold caml_skiplist_remove. rewrite E. cbn [rbind]. rewrite Es. cbn [rbind head_addr].
  pose proof (lay_nodes _ _ L) as Nn. apply Forall_app in Nn as [_ Nn%Forall_inv].
  destruct (node_get _ _ Nn) as (-> & fwd & -> & _). cbn [rbind key]. rewrite Z.eqb_refl. cbn [negb].
  destruct (remove_node_ok s a b n update L W Ui) as (s1 & s2 & E1 & E2 & R).
  rewrite E1. cbn [rbind]. cbn zeta in E2. rewrite E2. cbn [rbind]. by exists s2.
Qed.

Lemma caml_skiplist_remove_ok s m k :
  represents s m ->
  exists s', caml_skiplist_remove s k = Ok (bool_decide (is_Some (m !! k)), s') /\
    represents s' (delete k m).
Proof.
  intros (ns & L & W & U & <-).
  destruct (sorted_split k ns (lay_sorted _ _ L)) as (a & b & -> & Ha & Hb).
  pose proof (contents_split k a b (sorted_app_r _ _ _ (lay_sorted _ _ L)) Ha Hb) as K. rewrite K.
  destruct (decide (head_data k b = None)) as [Q|Q].
  - rewrite Q. exists s. rewrite delete_id by by rewrite K. split; [|by exists (a ++ b)].
    destruct (places_ok s a b k L W Ha Hb) as (e & update & E & Es & _).
    unfold caml_skiplist_remove. rewrite E. cbn [rbind]. rewrite Es. cbn [rbind].
    pose proof (lay_nodes _ _ L) as Nb. apply Forall_app in Nb as [_ Nb].
    destruct b as [|n b]; cbn [head_addr]; [done|].
    destruct (node_get _ _ (Forall_inv Nb)) as (-> & fwd & -> & _). cbn [rbind key]. cbn in Q.
    by destruct (nkey n =? k).
  - destruct b as [|n b]; [done|]. cbn [head_data] in Q |- *.
    destruct (Z.eqb_spec (nkey n) k) as [<-|]; [|done].
    destruct (caml_skiplist_remove_node s a b n L W) as (s' & E & L' & W' & U').
    exists s'. rewrite bool_decide_true by done. split; [done|]. exists (a ++ b). split_and!; try done.
    apply contents_delete, L.
Qed.

(** ** The other operations *)

Lemma chain_from_head s a b :
  laid_out s (a ++ b) -> well_linked s (a ++ b) -> chain s 0 (cursor_after Head a) b.
Proof.
  intros L W. pose proof (W 0 ltac:(unfold NUM_LEVELS; lia)) as C.
  rewrite (on_level_0 s) in C by apply L. exact (chain_app _ _ _ _ _ C).
Qed.

Lemma caml_skiplist_find_ok s m k : represents s m -> caml_skiplist_find s k = Ok (m !! k).
Proof.
  intros (ns & L & W & U & <-).
  destruct (sorted_split k ns (lay_sorted _ _ L)) as (a & b & -> & Ha & Hb).
  rewrite (contents_split k a b (sorted_app_r _ _ _ (lay_sorted _ _ L)) Ha Hb).
  pose proof (lay_level _ _ L). pose proof (lay_nodes _ _ L) as N. apply Forall_app in N as [Na _].
  pose proof (find_levels_ok s a b k (Z.to_nat (level s)) L W Ha Hb ltac:(lia)) as E.
  by rewrite (on_level_top s) in E.
Qed.

(** the binding with the largest key up to [k] *)
Definition greatest_below (m : gmap Z Z) (k : Z) (r : option (Z * Z)) : Prop :=
  match r with
  | Some (k0, d) => m !! k0 = Some d /\ k0 <= k /\ forall k', is_Some (m !! k') -> k' <= k -> k' <= k0
  | None => forall k', is_Some (m !! k') -> k < k'
  end.

Lemma contents_key ns k : is_Some (contents ns !! k) -> exists n, n ∈ ns /\ nkey n = k.
Proof.
  intros H. induction ns as [|n ns IH]; [by destruct H|]. rewrite contents_cons in H.
  destruct (decide (nkey n = k)) as [<-|]; [exists n; split; [left|done]|].
  rewrite lookup_insert_ne in H by done. destruct (IH H) as (n' & Hn & E). exists n'. split; [by right|done].
Qed.

Lemma caml_skiplist_find_below_ok s m k :
  represents s m -> exists r, caml_skiplist_find_below s k = Ok r /\ greatest_below m k r.
Proof.
  intros (ns & L & W & U & <-).
  destruct (sorted_split (k + 1) ns (lay_sorted _ _ L)) as (a & b & -> & Ha & Hb).
  pose proof (lay_level _ _ L). pose proof (lay_nodes _ _ L) as N. apply Forall_app in N as [Na _].
  pose proof (below_levels_ok s a b k (S (Z.to_nat (level s))) L W) as E. cbn zeta in E.
  rewrite (on_level_top s), (on_level_0 s) in E by done. unfold caml_skiplist_find_below.
  change (cursor_addr (cursor_after Head [])) with 0 in E. change (cursor_after Head []) with Head in E.
  rewrite E; [|eapply Forall_impl; [exact Ha|]; cbn; lia|eapply Forall_impl; [exact Hb|]; cbn; lia|lia].
  cbn [rbind]. rewrite Forall_forall in Ha, Hb. unfold cursor_after.
  destruct (last a) as [n|] eqn:El; cbn [cursor_addr].
  - apply last_Some in El as (a' & ->). rewrite Forall_forall in Na.
    assert (Hn : n ∈ a' ++ [n]) by (apply elem_of_app; right; left).
    destruct (node_get _ _ (Na n Hn)) as (-> & fwd & -> & _). cbn [rbind key data].
    eexists. split; [done|]. rewrite <- app_assoc in L |- *. cbn [app] in L |- *.
    destruct (sorted_around _ _ _ (lay_sorted _ _ L)) as [Sa Sb]. cbn. split_and!.
    + rewrite contents_middle by by apply Forall_ne. by rewrite lookup_insert_eq.
    + specialize (Ha n Hn). lia.
    + intros k' (n' & Hn' & <-)%contents_key Hk. rewrite Forall_forall in Sa.
      apply elem_of_app in Hn' as [Hn'|[->|Hn']%elem_of_cons]; [specialize (Sa _ Hn'); lia|lia|].
      specialize (Hb n' Hn'). lia.
  - rewrite Z.eqb_refl. exists None. split; [done|]. apply last_None in El as ->.
    intros k' (n' & Hn' & <-)%contents_key. specialize (Hb n' Hn'). lia.
Qed.

Lemma caml_skiplist_init_ok s :
  cells s = ∅ -> 0 < next_cell s -> represents (caml_skiplist_init s) ∅.
Proof.
  intros Hc Hn. exists []. split_and!; [|..|by left|done].
  - split; try done; try constructor. cbn. rewrite Hc. intros a c. by rewrite lookup_empty.
  - intros i Hi. cbn. unfold NUM_LEVELS in Hi. unfold rd. destruct (Z.ltb_spec i 0); [lia|].
    rewrite lookup_replicate_2 by (unfold NUM_LEVELS; lia). done.
Qed.

Lemma free_cells_ok l : forall n fuel s,
  chain s 0 (Cell (addr n)) l -> Forall (fun n => addr n <> 0) (n :: l) -> NoDup (addr <$> n :: l) ->
  (S (length l) < fuel)%nat ->
  exists m, free_cells fuel s (addr n) = Ok (with_cells s m) /\
    forall x c, m !! x = Some c -> cells s !! x = Some c /\ x ∉ addr <$> n :: l.
Proof.
  induction l as [|n' l IH]; intros n [|fuel] s C NZ ND Hf; try lia; cbn [free_cells].
  all: apply Forall_cons in NZ as [Hn NZ]; destruct (Z.eqb_spec (addr n) 0); [done|].
  all: rewrite fmap_cons in ND; apply NoDup_cons in ND as [N ND].
  all: rewrite (chain_slot _ _ _ _ C); cbn [rbind head_addr].
  - destruct fuel as [|fuel]; [lia|]. cbn [free_cells]. rewrite Z.eqb_refl. eexists. split; [done|].
    intros x c [Hx Hc]%lookup_delete_Some. split; [done|]. apply not_elem_of_cons. by split; [|apply not_elem_of_nil].
  - set (s' := with_cells s _). destruct C as [_ C].
    destruct (IH n' fuel s') as (m & -> & Hm); [|done|done|cbn in Hf; lia|].
    + apply (chain_frame s); [|done]. intros e He. destruct e as [|x]; [done|]. cbn. unfold cell. cbn.
      rewrite lookup_delete_ne; [done|]. intros <-. apply N.
      apply elem_of_cons in He as [[= ->]|(m & [= ->] & Hm)%list_elem_of_fmap]; [left|].
      right. by apply list_elem_of_fmap_2.
    + exists m. split; [done|]. intros x c [Q Hx']%Hm.
      change (delete (addr n) (cells s) !! x = Some c) in Q. apply lookup_delete_Some in Q as [Hx Hc]. split; [done|].
      by apply not_elem_of_cons.
Qed.

Lemma clear_heads_ok s n :
  zlen (forward s) = NUM_LEVELS -> Z.of_nat n <= NUM_LEVELS ->
  exists fwd, for_loop n 0 (fun i s => set_slot s Head i 0) s = Ok (with_forward s fwd) /\
    zlen fwd = NUM_LEVELS /\
    forall i, 0 <= i < NUM_LEVELS -> rd fwd i = if decide (i < Z.of_nat n) then Ok 0 else rd (forward s) i.
Proof.
  intros Z Hn. destruct (for_loop_inv (fun j s' => exists fwd, s' = with_forward s fwd /\
    zlen fwd = NUM_LEVELS /\
    forall i, 0 <= i < NUM_LEVELS -> rd fwd i = if decide (i < j) then Ok 0 else rd (forward s) i)
    n 0 (fun i s => set_slot s Head i 0) s) as (s' & E & fwd & -> & Zf & F).
  - exists (forward s). split_and!; [by destruct s|done|]. intros i Hi. by rewrite decide_False by lia.
  - intros j s' Hj (fwd & -> & Zf & F). cbn. rewrite wr_in_range by lia. eexists. split; [done|].
    eexists. split; [done|]. split; [by rewrite zlen_insert|]. intros i Hi. rewrite rd_insert by lia.
    case_decide as D; [subst; by rewrite decide_True by lia|]. rewrite F by done.
    destruct (decide (i < j)); [by rewrite decide_True by lia|by rewrite decide_False by lia].
  - exists fwd. by split.
Qed.

Lemma caml_skiplist_empty_ok s m :
  represents s m -> exists s', caml_skiplist_empty s = Ok s' /\ represents s' ∅.
Proof.
  intros (ns & L & W & U & <-). unfold caml_skiplist_empty.
  pose proof (chain_from_head s [] ns L W) as C. change (cursor_after Head []) with Head in C.
  rewrite (chain_slot _ _ _ _ C). cbn [rbind]. pose proof (laid_size _ _ L) as Hs. pose proof (lay_level _ _ L).
  assert (exists m, free_cells (scan_fuel s) s (head_addr ns) = Ok (with_cells s m) /\ m = ∅) as (m & -> & ->).
  { destruct ns as [|n ns].
    - exists (cells s). cbn. split; [by destruct s|]. apply map_empty. intros x.
      destruct (cells s !! x) eqn:E; [|done]. by apply (lay_all _ _ L), elem_of_nil in E.
    - destruct C as [_ C]. destruct (free_cells_ok ns n (scan_fuel s) s C) as (m & E & Hm);
        [|apply L|cbn in Hs; unfold scan_fuel; lia|].
      + eapply Forall_impl; [apply L|]. intros n' (Ha & _). lia.
      + exists m. split; [done|]. apply map_empty. intros x. destruct (m !! x) eqn:Ex; [|done].
        apply Hm in Ex as [Ex Nx]. by apply (lay_all _ _ L) in Ex. }
  cbn [rbind]. destruct (clear_heads_ok (with_cells s ∅) (S (Z.to_nat (level s)))) as (fwd & E & Zf & F);
    [apply L|lia|]. cbn [level with_cells]. rewrite E. cbn [rbind]. eexists. split; [done|].
  exists []. split_and!; [split; cbn; try done; try constructor; apply L| |by left|done].
  intros i Hi. cbn. rewrite F by done. case_decide as D; [done|]. cbn.
  pose proof (W i Hi) as Ci. rewrite (on_level_none s) in Ci by (apply L || lia). exact Ci.
Qed.

(** ** Traversals *)

(** the action: remove the current element when [p] says so, and remember it *)
Definition sweep_action (p : Z -> Z -> bool) (c : skipcell) (acc : list (Z * Z)) (s : skiplist)
    : result (list (Z * Z) * skiplist) :=
  let acc := acc ++ [(key c, data c)] in
  if p (key c) (data c) then let* (_, s) := caml_skiplist_remove s (key c) in Ok (acc, s)
  else Ok (acc, s).

Definition sweep (p : Z -> Z -> bool) (s : skiplist) : result (list (Z * Z) * skiplist) :=
  FOREACH_SKIPLIST_ELEMENT s (sweep_action p) [].

Definition bindings (ns : list node) : list (Z * Z) := (fun n => (nkey n, ndata n)) <$> ns.

Definition kept (p : Z -> Z -> bool) (ns : list node) : list node :=
  filter (fun n => p (nkey n) (ndata n) = false) ns.

Lemma sweep_from_ok p b : forall a fuel s acc,
  laid_out s (a ++ b) -> well_linked s (a ++ b) -> level_used s (a ++ b) -> (length b < fuel)%nat ->
  exists s', foreach fuel (sweep_action p) (head_addr b) acc s = Ok (acc ++ bindings b, s') /\
    laid_out s' (a ++ kept p b) /\ well_linked s' (a ++ kept p b) /\ level_used s' (a ++ kept p b).
Proof.
  induction b as [|n b IH]; intros a [|fuel] s acc L W U Hf; try (cbn in Hf; lia); cbn [foreach head_addr].
  { exists s. cbn. by rewrite app_nil_r. }
  pose proof (lay_nodes _ _ L) as N. apply Forall_app in N as [_ N%Forall_inv].
  destruct (chain_from_head s a (n :: b) L W) as [_ C].
  pose proof (chain_slot _ _ _ _ C) as E. cbn [slot] in E.
  destruct (node_get _ _ N) as (-> & fwd & Ec & _). rewrite Ec in E |- *. cbn [rbind forwards] in E |- *.
  rewrite E. cbn [rbind]. unfold sweep_action. cbn [key data].
  unfold kept. rewrite filter_cons. fold (kept p b).
  replace (acc ++ bindings (n :: b)) with ((acc ++ [(nkey n, ndata n)]) ++ bindings b) by by rewrite <- app_assoc.
  destruct (p (nkey n) (ndata n)).
  - rewrite decide_False by done.
    destruct (caml_skiplist_remove_node s a b n L W) as (s1 & -> & L1 & W1 & U1). cbn [rbind].
    apply IH; try done. cbn in Hf. lia.
  - rewrite decide_True by done. cbn [rbind].
    change (a ++ n :: b) with (a ++ [n] ++ b) in L, W, U. rewrite app_assoc in L, W, U.
    destruct (IH (a ++ [n]) fuel s (acc ++ [(nkey n, ndata n)]) L W U) as (s' & E' & L' & W' & U');
      [cbn in Hf; lia|]. rewrite <- app_assoc in L', W', U'. by exists s'.
Qed.

Lemma contents_kept p ns :
  StronglySorted (fun n n' => nkey n < nkey n') ns ->
  contents (kept p ns) = filter (fun '(k, d) => p k d = false) (contents ns).
Proof.
  induction 1 as [|n ns S IH F].
  { change (contents []) with (∅ : gmap Z Z). by rewrite map_filter_empty. }
  unfold kept. rewrite filter_cons. fold (kept p ns). rewrite contents_cons, map_filter_insert.
  destruct (decide (p (nkey n) (ndata n) = false)); [by rewrite contents_cons, IH|].
  rewrite delete_id; [done|]. apply contents_none. eapply Forall_impl; [exact F|]. cbn. lia.
Qed.

Lemma bindings_perm ns :
  StronglySorted (fun n n' => nkey n < nkey n') ns -> bindings ns ≡ₚ map_to_list (contents ns).
Proof.
  intros S. unfold contents. fold (bindings ns). symmetry. apply map_to_list_to_map.
  unfold bindings. rewrite <- list_fmap_compose. induction S as [|n ns S IH F]; [constructor|].
  rewrite fmap_cons. apply NoDup_cons. split; [|done]. intros (m & E & Hm)%list_elem_of_fmap.
  rewrite Forall_forall in F. specialize (F m Hm). cbn in E. lia.
Qed.

Lemma bindings_sorted ns :
  StronglySorted (fun n n' => nkey n < nkey n') ns ->
  StronglySorted (fun x y => x.1 < y.1) (bindings ns).
Proof.
  induction 1 as [|n ns S IH F]; [constructor|]. constructor; [done|].
  apply Forall_fmap. eapply Forall_impl; [exact F|]. done.
Qed.

Lemma sweep_ok p s m :
  represents s m ->
  exists l s', sweep p s = Ok (l, s') /\ l ≡ₚ map_to_list m /\ StronglySorted (fun x y => x.1 < y.1) l /\
    represents s' (filter (fun '(k, d) => p k d = false) m).
Proof.
  intros (ns & L & W & U & <-). pose proof (lay_sorted _ _ L) as S. unfold sweep, FOREACH_SKIPLIST_ELEMENT.
  pose proof (chain_from_head s [] ns L W) as C. change (cursor_after Head []) with Head in C.
  rewrite (chain_slot _ _ _ _ C). cbn [rbind]. pose proof (laid_size _ _ L).
  destruct (sweep_from_ok p ns [] (scan_fuel s) s [] L W U) as (s' & E & L' & W' & U'); [unfold scan_fuel; lia|].
  exists (bindings ns), s'. split_and!; [done|by apply bindings_perm|by apply bindings_sorted|].
  exists (kept p ns). split_and!; try done. by apply contents_kept.
Qed.

(** ** The dictionary *)

Inductive operation :=
  | Find (k : Z)
  | Find_below (k : Z)
  | Insert (k d : Z)
  | Remove (k : Z)
  | Sweep (p : Z -> Z -> bool)
  | Empty.

Inductive reply :=
  | Data (d : option Z)
  | Binding (kd : option (Z * Z))
  | Present (b : bool)
  | Visited (l : list (Z * Z)).

(** one operation on the skip list *)
Definition skiplist_step (s : skiplist) (op : operation) : result (reply * skiplist) :=
  match op with
  | Find k => let* d := caml_skiplist_find s k in Ok (Data d, s)
  | Find_below k => let* r := caml_skiplist_find_below s k in Ok (Binding r, s)
  | Insert k d => let* (b, s) := caml_skiplist_insert s k d in Ok (Present b, s)
  | Remove k => let* (b, s) := caml_skiplist_remove s k in Ok (Present b, s)
  | Sweep p => let* (l, s) := sweep p s in Ok (Visited l, s)
  | Empty => let* s := caml_skiplist_empty s in Ok (Present true, s)
  end.

Fixpoint skiplist_run (s : skiplist) (ops : list operation) : result (list reply * skiplist) :=
  match ops with
  | [] => Ok ([], s)
  | op :: ops =>
      let* (r, s) := skiplist_step s op in
      let* (rs, s) := skiplist_run s ops in
      Ok (r :: rs, s)
  end.

(** one operation on the dictionary *)
Definition dictionary_step (m : gmap Z Z) (op : operation) (r : reply) (m' : gmap Z Z) : Prop :=
  match op, r with
  | Find k, Data d => d = m !! k /\ m' = m
  | Find_below k, Binding kd => greatest_below m k kd /\ m' = m
  | Insert k d, Present b => b = bool_decide (is_Some (m !! k)) /\ m' = <[k := d]> m
  | Remove k, Present b => b = bool_decide (is_Some (m !! k)) /\ m' = delete k m
  | Sweep p, Visited l =>
      l ≡ₚ map_to_list m /\ StronglySorted (fun x y => x.1 < y.1) l /\
      m' = filter (fun '(k, d) => p k d = false) m
  | Empty, Present _ => m' = ∅
  | _, _ => False
  end.

Inductive dictionary_run : gmap Z Z -> list operation -> list reply -> gmap Z Z -> Prop :=
  | dictionary_done m : dictionary_run m [] [] m
  | dictionary_next m op r m1 ops rs m2 :
      dictionary_step m op r m1 -> dictionary_run m1 ops rs m2 ->
      dictionary_run m (op :: ops) (r :: rs) m2.

Lemma skiplist_step_ok s m op :
  represents s m ->
  exists r s' m', skiplist_step s op = Ok (r, s') /\ dictionary_step m op r m' /\ represents s' m'.
Proof.
  intros R. destruct op as [k|k|k d|k|p|]; cbn [skiplist_step dictionary_step].
  - rewrite (caml_skiplist_find_ok s m k R). by exists (Data (m !! k)), s, m.
  - destruct (caml_skiplist_find_below_ok s m k R) as (r & -> & G). by exists (Binding r), s, m.
  - destruct (caml_skiplist_insert_ok s m k d R) as (s' & -> & R'). by eexists _, s', _.
  - destruct (caml_skiplist_remove_ok s m k R) as (s' & -> & R'). by eexists _, s', _.
  - destruct (sweep_ok p s m R) as (l & s' & -> & P & S & R'). by eexists (Visited l), s', _.
  - destruct (caml_skiplist_empty_ok s m R) as (s' & -> & R'). by eexists (Present true), s', _.
Qed.

(** C17: Skip lists implement dictionaries: on an initialized list, whatever levels are
    drawn, any sequence of searches, insertions, deletions, traversals (which may remove
    the current element) and resets runs to its end without reading outside a cell or a
    freed one, and gives the replies of the finite map: [find_below] the greatest key that
    is not above, the traversal every binding once, by increasing keys.  The invariant
    holds all along: the chain of each level is the sorted list of the cells that reach it. *)
Theorem skiplist_refines_dictionary s ops :
  cells s = ∅ -> 0 < next_cell s ->
  exists rs s' m, skiplist_run (caml_skiplist_init s) ops = Ok (rs, s') /\
    dictionary_run ∅ ops rs m /\ represents s' m.
Proof.
  intros Hc Hn. pose proof (caml_skiplist_init_ok s Hc Hn) as R.
  revert R. generalize (caml_skiplist_init s), (∅ : gmap Z Z). clear.
  induction ops as [|op ops IH]; intros s m R; cbn [skiplist_run].
  - exists [], s, m. split_and!; [done|constructor|done].
  - destruct (skiplist_step_ok s m op R) as (r & s1 & m1 & -> & D & R1). cbn [rbind].
    destruct (IH s1 m1 R1) as (rs & s2 & m2 & -> & Ds & R2). cbn [rbind].
    exists (r :: rs), s2, m2. split_and!; [done|by econstructor|done].
Qed.

(** The level of a new cell: the shifts of the word drawn end after at most 16 turns,
    so that the level is always an index of the forward arrays (the assertion of the code);
    a level of at least [j] is drawn exactly when the word is one of the last [4 ^ (16 - j)]
    of the [2 ^ 32] ones, that is with probability [1 / 4 ^ j]. *)
Theorem random_level_bounded seed :
  exists l, random_level seed = Ok (l, u32 (u32 (seed * 69069) + 25173)) /\ 0 <= l < NUM_LEVELS /\
    forall j, 0 <= j <= 16 ->
      (j <= l <-> 2 ^ 32 - 4 ^ (16 - j) <= u32 (u32 (seed * 69069) + 25173)).
Proof. apply random_level_ok. Qed.

(** ** An example *)

Definition no_list : skiplist := Skiplist [] 0 ∅ 1 0.

Definition demo_ops : list operation :=
  [Insert 5 50; Insert 3 30; Insert 9 90; Insert 3 31; Find 3; Find_below 8; Find_below 2; Remove 5;
   Remove 5; Sweep (fun _ d => d =? 31); Sweep (fun _ _ => false); Empty; Find 9].

Lemma skiplist_refines_dictionary_witness :
  exists s' m, dictionary_run ∅ demo_ops
    [Present false; Present false; Present false; Present true; Data (Some 31); Binding (Some (5, 50));
     Binding None; Present true; Present false; Visited [(3, 31); (9, 90)]; Visited [(9, 90)];
     Present true; Data None] m /\ represents s' m.
Proof.
  destruct (skiplist_refines_dictionary no_list demo_ops) as (rs & s' & m & E & D & R); [reflexivity|reflexivity|].
  exists s', m. split; [|exact R].
  assert (rs = match skiplist_run (caml_skiplist_init no_list) demo_ops with Ok (rs, _) => rs | _ => [] end) as ->
    by (rewrite E; reflexivity).
  exact D.
Defined.
