(* ===== verification/Parsing.v ===== *)
(** * Table-driven parsers ([parsing.c], and the driver of [stdlib/parsing.ml])

    The pushdown automaton of the parsers that ocamlyacc generates.  [caml_parse_engine]
    runs until it needs its caller: for a token, a larger stack, a semantic action, or to
    report an error.  Its labels are a type, and a jump is a step of [engine_step].
    [yyparse] is the driver, which obeys the commands.

    [lr_run] is the LR automaton with error recovery on a list of entries; the engine and
    its driver implement it, whatever the sizes of the stacks. *)

From S2P Require Import Prelude.
From S2P Require Import Mlvalues.
From S2P Require Import Memory.
From S2P Require Import Lexing.
#[local] Open Scope Z_scope.

Definition ERRCODE : Z := 256.

(** tables that are strings, arrays of integers, or an integer *)
Record parser_tables := ParserTables {
  transl_const : list Z;
  transl_block : list Z;
  lhs : list Z;
  len : list Z;
  defred : list Z;
  dgoto : list Z;
  sindex : list Z;
  rindex : list Z;
  gindex : list Z;
  tablesize : Z;
  table : list Z;
  check_ : list Z }.

Record parser_env := ParserEnv {
  s_stack : list Z;
  v_stack : list Z;
  symb_start_stack : list Z;
  symb_end_stack : list Z;
  stacksize : Z;
  stackbase : Z;
  curr_char : Z;
  lval : Z;
  symb_start : Z;
  symb_end : Z;
  asp : Z;
  rule_len : Z;
  rule_number : Z;
  sp : Z;
  state : Z;
  errflag : Z }.

Definition set_stacks (e : parser_env) (s v a b : list Z) : parser_env :=
  ParserEnv s v a b (stacksize e) (stackbase e) (curr_char e) (lval e) (symb_start e) (symb_end e)
    (asp e) (rule_len e) (rule_number e) (sp e) (state e) (errflag e).
Definition set_token (e : parser_env) (c v : Z) : parser_env :=
  ParserEnv (s_stack e) (v_stack e) (symb_start_stack e) (symb_end_stack e) (stacksize e) (stackbase e)
    c v (symb_start e) (symb_end e) (asp e) (rule_len e) (rule_number e) (sp e) (state e) (errflag e).
Definition set_symb (e : parser_env) (a b : Z) : parser_env :=
  ParserEnv (s_stack e) (v_stack e) (symb_start_stack e) (symb_end_stack e) (stacksize e) (stackbase e)
    (curr_char e) (lval e) a b (asp e) (rule_len e) (rule_number e) (sp e) (state e) (errflag e).
Definition set_rule (e : parser_env) (p n m : Z) : parser_env :=
  ParserEnv (s_stack e) (v_stack e) (symb_start_stack e) (symb_end_stack e) (stacksize e) (stackbase e)
    (curr_char e) (lval e) (symb_start e) (symb_end e) p m n (sp e) (state e) (errflag e).
Definition set_locals (e : parser_env) (p s f : Z) : parser_env :=
  ParserEnv (s_stack e) (v_stack e) (symb_start_stack e) (symb_end_stack e) (stacksize e) (stackbase e)
    (curr_char e) (lval e) (symb_start e) (symb_end e) (asp e) (rule_len e) (rule_number e) p s f.

(** input codes *)
Definition START : Z := 0.
Definition TOKEN_READ : Z := 1.
Definition STACKS_GROWN_1 : Z := 2.
Definition STACKS_GROWN_2 : Z := 3.
Definition SEMANTIC_ACTION_COMPUTED : Z := 4.
Definition ERROR_DETECTED : Z := 5.

(** output codes *)
Definition READ_TOKEN : Z := Val_int 0.
Definition RAISE_PARSE_ERROR : Z := Val_int 1.
Definition GROW_STACKS_1 : Z := Val_int 2.
Definition GROW_STACKS_2 : Z := Val_int 3.
Definition COMPUTE_SEMANTIC_ACTION : Z := Val_int 4.
Definition CALL_ERROR_FUNCTION : Z := Val_int 5.

(** ** The engine *)

(** the local variables, with the environment *)
Record locals := Locals {
  l_env : parser_env;
  l_state : Z;
  l_sp : Z;
  l_errflag : Z }.

Definition SAVE (l : locals) : parser_env :=
  set_locals (l_env l) (Val_int (l_sp l)) (Val_int (l_state l)) (Val_int (l_errflag l)).
Definition RESTORE (env : parser_env) : locals :=
  Locals env (Int_val (state env)) (u64 (Int_val (sp env))) (Int_val (errflag env)).

Definition with_env (l : locals) (env : parser_env) : locals :=
  Locals env (l_state l) (l_sp l) (l_errflag l).

(** the labels, with the variables that the jumps to them set *)
Inductive label :=
  | Loop
  | Testshift
  | Recover
  | Shift (n2 : Z)
  | Shift_recover (n2 : Z)
  | Push
  | Reduce (n : Z)
  | Semantic_action.

Inductive jump :=
  | Goto (lbl : label) (l : locals)
  | Return (out : Z) (env : parser_env).

(** the index in the tables, when the entry is there *)
Definition table_index (tables : parser_tables) (index : list Z) (i key : Z) : result (option Z) :=
  let* n1 := Short index i in
  let n2 := n1 + key in
  if negb (n1 =? 0) && (0 <=? n2) && (n2 <=? Int_val (tablesize tables)) then
    let* c := Short (check_ tables) n2 in
    Ok (if c =? key then Some n2 else None)
  else Ok None.

(** the loop of the recovery: the stack pointer and the index of the shift, none when
    no state is left *)
Fixpoint discard_states (fuel : nat) (tables : parser_tables) (env : parser_env) (sp : Z) {struct fuel}
    : result (option (Z * Z)) :=
  match fuel with
  | O => NoFuel
  | S fuel =>
      let* s := rd (s_stack env) sp in
      let state1 := Int_val s in
      let* o := table_index tables (sindex tables) state1 ERRCODE in
      match o with
      | Some n2 => Ok (Some (sp, n2))
      | None =>
          if sp <=? u64 (Int_val (stackbase env)) then Ok None
          else discard_states fuel tables env (u64 (sp - 1))
      end
  end.

(** the token [arg] read in the heap [m] *)
Definition read_token (tables : parser_tables) (m : mem) (env : parser_env) (arg : Z) : result parser_env :=
  if Is_long arg then
    let* c := rd (transl_const tables) (Int_val arg) in
    Ok (set_token env c (Val_long 0))
  else
    let* t := Tag_val m arg in
    let* c := rd (transl_block tables) t in
    let* v := Field m arg 0 in
    Ok (set_token env c v).

Definition engine_push (l : locals) : result locals :=
  let env := l_env l in
  let* s := wr (s_stack env) (l_sp l) (Val_int (l_state l)) in
  let* v := wr (v_stack env) (l_sp l) (lval env) in
  let* a := wr (symb_start_stack env) (l_sp l) (symb_start env) in
  let* b := wr (symb_end_stack env) (l_sp l) (symb_end env) in
  Ok (with_env l (set_stacks env s v a b)).

(** the result of the semantic action on the stacks *)
Definition action_computed (l : locals) (arg : Z) : result locals :=
  let env := l_env l in
  let* s := wr (s_stack env) (l_sp l) (Val_int (l_state l)) in
  let* v := wr (v_stack env) (l_sp l) arg in
  let asp := u64 (Int_val (asp env)) in
  let* e := rd (symb_end_stack env) asp in
  let* b := wr (symb_end_stack env) (l_sp l) e in
  let* a :=
    if asp <? l_sp l then
      let* e := rd b asp in
      wr (symb_start_stack env) (l_sp l) e
    else Ok (symb_start_stack env) in
  Ok (with_env l (set_stacks env s v a b)).

(** the state after the reduction by rule [n] *)
Definition goto_state (tables : parser_tables) (m state1 : Z) : result Z :=
  let* n1 := Short (gindex tables) m in
  let n2 := n1 + state1 in
  let* c := if negb (n1 =? 0) && (0 <=? n2) && (n2 <=? Int_val (tablesize tables)) then
              let* c := Short (check_ tables) n2 in Ok (c =? state1)
            else Ok false in
  if c then Short (table tables) n2 else Short (dgoto tables) m.

Definition engine_reduce (tables : parser_tables) (n : Z) (l : locals) : result jump :=
  let* m := Short (len tables) n in
  let env := set_rule (l_env l) (Val_int (l_sp l)) (Val_int n) (Val_int m) in
  let sp := u64 (l_sp l - m + 1) in
  let* m := Short (lhs tables) n in
  let* s := rd (s_stack env) (u64 (sp - 1)) in
  let* state := goto_state tables m (Int_val s) in
  let l := Locals env state sp (l_errflag l) in
  Ok (if sp <? u64 (Long_val (stacksize env)) then Goto Semantic_action l else Return GROW_STACKS_2 (SAVE l)).

Definition engine_recover (tables : parser_tables) (l : locals) : result jump :=
  let env := l_env l in
  if l_errflag l <? 3 then
    let* o := discard_states (S (length (s_stack env))) tables env (l_sp l) in
    Ok (match o with
        | Some (sp, n2) => Goto (Shift_recover n2) (Locals env (l_state l) sp 3)
        | None => Return RAISE_PARSE_ERROR env
        end)
  else
    Ok (if Int_val (curr_char env) =? 0 then Return RAISE_PARSE_ERROR env
        else Goto Loop (with_env l (set_token env (Val_int (-1)) (lval env)))).

(** from one label to the next, or to the end of the call *)
Definition engine_step (tables : parser_tables) (lbl : label) (l : locals) : result jump :=
  let env := l_env l in
  match lbl with
  | Loop =>
      let* n := Short (defred tables) (l_state l) in
      Ok (if negb (n =? 0) then Goto (Reduce n) l
          else if 0 <=? Int_val (curr_char env) then Goto Testshift l
          else Return READ_TOKEN (SAVE l))
  | Testshift =>
      let c := Int_val (curr_char env) in
      let* o := table_index tables (sindex tables) (l_state l) c in
      match o with
      | Some n2 => Ok (Goto (Shift n2) l)
      | None =>
          let* o := table_index tables (rindex tables) (l_state l) c in
          match o with
          | Some n2 => let* n := Short (table tables) n2 in Ok (Goto (Reduce n) l)
          | None => Ok (if 0 <? l_errflag l then Goto Recover l else Return CALL_ERROR_FUNCTION (SAVE l))
          end
      end
  | Recover => engine_recover tables l
  | Shift n2 =>
      Ok (Goto (Shift_recover n2)
            (Locals (set_token env (Val_int (-1)) (lval env)) (l_state l) (l_sp l)
               (if 0 <? l_errflag l then l_errflag l - 1 else l_errflag l)))
  | Shift_recover n2 =>
      let* s := Short (table tables) n2 in
      let sp := u64 (l_sp l + 1) in
      let l := Locals env s sp (l_errflag l) in
      Ok (if sp <? u64 (Long_val (stacksize env)) then Goto Push l else Return GROW_STACKS_1 (SAVE l))
  | Push => let* l := engine_push l in Ok (Goto Loop l)
  | Reduce n => engine_reduce tables n l
  | Semantic_action => Ok (Return COMPUTE_SEMANTIC_ACTION (SAVE l))
  end.

Fixpoint engine_run (fuel : nat) (tables : parser_tables) (lbl : label) (l : locals) {struct fuel}
    : result (Z * parser_env) :=
  match fuel with
  | O => NoFuel
  | S fuel =>
      let* j := engine_step tables lbl l in
      match j with
      | Goto lbl l => engine_run fuel tables lbl l
      | Return out env => Ok (out, env)
      end
  end.

(** where a call starts *)
Definition engine_entry (tables : parser_tables) (m : mem) (env : parser_env) (cmd arg : Z) : result jump :=
  let cmd := Int_val cmd in
  if cmd =? START then Ok (Goto Loop (Locals env 0 (u64 (Int_val (sp env))) 0))
  else if cmd =? TOKEN_READ then
    let l := RESTORE env in
    let* env := read_token tables m env arg in
    Ok (Goto Testshift (with_env l env))
  else if cmd =? ERROR_DETECTED then Ok (Goto Recover (RESTORE env))
  else if cmd =? STACKS_GROWN_1 then Ok (Goto Push (RESTORE env))
  else if cmd =? STACKS_GROWN_2 then Ok (Goto Semantic_action (RESTORE env))
  else if cmd =? SEMANTIC_ACTION_COMPUTED then
    let* l := action_computed (RESTORE env) arg in
    Ok (Goto Loop l)
  else Ok (Return RAISE_PARSE_ERROR env).

(** a call makes 13 jumps at most *)
Definition engine_fuel : nat := 13.

Definition caml_parse_engine (tables : parser_tables) (m : mem) (env : parser_env) (cmd arg : Z)
    : result (Z * parser_env) :=
  let* j := engine_entry tables m env cmd arg in
  match j with
  | Goto lbl l => engine_run engine_fuel tables lbl l
  | Return out env => Ok (out, env)
  end.

(** ** The driver *)

(** an entry of the stacks: the state (an OCaml integer), the attribute, the positions *)
Record entry := Entry { e_state : Z; e_val : Z; e_start : Z; e_end : Z }.

(** the entries of the stacks, from the bottom *)
Definition entries (env : parser_env) : list entry :=
  zip_with (fun sv ab => Entry sv.1 sv.2 ab.1 ab.2)
    (zip (s_stack env) (v_stack env)) (zip (symb_start_stack env) (symb_end_stack env)).

(** what the lexer returns: the token, in the heap that it leaves, and its positions *)
Record lexeme := Lexeme { tok_heap : mem; tok : Z; tok_start : Z; tok_end : Z }.

Inductive lexer_result := Read (t : lexeme) | Lexer_raised (x : Z).

(** what a semantic action does; [x] is its exception, [YYexit] for the end of the parse *)
Inductive action_result := Computed (v : Z) | Action_parse_error | Action_raised (x : Z).

(** the end of a parse is an exception *)
Inductive parse_end := Parse_error | Raised (x : Z).

(** The code of the parser that is in OCaml: the lexer with its state; the semantic
    actions, functions of the rule, of the number of symbols of its right-hand side and of
    the entries up to the last of them ([peek_val], [rhs_start]...); the error function,
    which returns or raises. *)
Section Driver.
  Context {L : Type}.
  Context (lexer : L -> lexer_result * L).
  Context (action : Z -> Z -> list entry -> action_result).
  Context (error_function : option Z).

(** the stacks are filled with zeros, units and dummy positions *)
Definition grow_stacks (dummy_pos : Z) (env : parser_env) : parser_env :=
  let oldsize := Long_val (stacksize env) in
  let grow x (l : list Z) := l ++ replicate (Z.to_nat oldsize) x in
  let env' := set_stacks env (grow (Val_int 0) (s_stack env)) (grow Val_unit (v_stack env))
                (grow dummy_pos (symb_start_stack env)) (grow dummy_pos (symb_end_stack env)) in
  ParserEnv (s_stack env') (v_stack env') (symb_start_stack env') (symb_end_stack env')
    (Val_long (oldsize * 2)) (stackbase env) (curr_char env) (lval env) (symb_start env) (symb_end env)
    (asp env) (rule_len env) (rule_number env) (sp env) (state env) (errflag env).

(** the semantic action of the rule to reduce by *)
Definition call_action (env : parser_env) : action_result :=
  action (Int_val (rule_number env)) (Int_val (rule_len env))
    (take (Z.to_nat (Int_val (asp env) + 1)) (entries env)).

(** the command [out] of the engine; [continue] calls it again *)
Definition obey (continue : mem -> parser_env -> L -> Z -> Z -> result (parse_end * parser_env * L))
    (dummy_pos : Z) (m : mem) (lex : L) (out : Z) (env : parser_env) : result (parse_end * parser_env * L) :=
  if out =? READ_TOKEN then
    match lexer lex with
    | (Read t, lex) =>
        continue (tok_heap t) (set_symb env (tok_start t) (tok_end t)) lex TOKEN_READ (tok t)
    | (Lexer_raised x, lex) => Ok (Raised x, env, lex)
    end
  else if out =? RAISE_PARSE_ERROR then Ok (Parse_error, env, lex)
  else if out =? COMPUTE_SEMANTIC_ACTION then
    match call_action env with
    | Computed v => continue m env lex SEMANTIC_ACTION_COMPUTED v
    | Action_parse_error => continue m env lex ERROR_DETECTED Val_unit
    | Action_raised x => Ok (Raised x, env, lex)
    end
  else if out =? GROW_STACKS_1 then continue m (grow_stacks dummy_pos env) lex STACKS_GROWN_1 Val_unit
  else if out =? GROW_STACKS_2 then continue m (grow_stacks dummy_pos env) lex STACKS_GROWN_2 Val_unit
  else
    match error_function with
    | None => continue m env lex ERROR_DETECTED Val_unit
    | Some x => Ok (Raised x, env, lex)
    end.

(** the loop of the driver *)
Fixpoint yyparse_loop (fuel : nat) (tables : parser_tables) (dummy_pos : Z) (m : mem) (env : parser_env)
    (lex : L) (cmd arg : Z) {struct fuel} : result (parse_end * parser_env * L) :=
  match fuel with
  | O => NoFuel
  | S fuel =>
      let* (out, env) := caml_parse_engine tables m env (Val_int cmd) arg in
      obey (yyparse_loop fuel tables dummy_pos) dummy_pos m lex out env
  end.

(** [yyparse]: the registers are saved, and restored at the end *)
Definition yyparse (fuel : nat) (tables : parser_tables) (dummy_pos : Z) (m : mem) (env : parser_env)
    (start curr_p : Z) (lex : L) : result (parse_end * parser_env * L) :=
  let env0 :=
    ParserEnv (s_stack env) (v_stack env) (symb_start_stack env) (symb_end_stack env) (stacksize env)
      (Val_long (Long_val (sp env) + 1)) start (lval env) (symb_start env) curr_p
      (asp env) (rule_len env) (rule_number env) (sp env) (state env) (errflag env) in
  let* (x, env', lex) := yyparse_loop fuel tables dummy_pos m env0 lex START Val_unit in
  let env' :=
    ParserEnv (s_stack env') (v_stack env') (symb_start_stack env') (symb_end_stack env') (stacksize env')
      (stackbase env) (curr_char env) (lval env) (symb_start env') (symb_end env')
      (asp env) (rule_len env') (rule_number env') (sp env) (state env) (errflag env) in
  Ok (x, env', lex).

(** ** The automaton on a list *)

Record lr_config := LR {
  lr_stack : list entry;   (* from the bottom *)
  lr_state : Z;            (* the current state *)
  lr_look : Z;             (* the code of the token, -1 when it has to be read *)
  lr_lval : Z;             (* its attribute and positions *)
  lr_start : Z;
  lr_end : Z;
  lr_err : Z }.            (* the shifts to make before errors are reported again *)

Inductive lr_next := Lr_goes (c : lr_config) (lex : L) | Lr_ends (x : parse_end) (lex : L).

(** the state to shift to *)
Definition lr_shift (tables : parser_tables) (state c : Z) : result (option Z) :=
  let* o := table_index tables (sindex tables) state c in
  match o with Some n2 => let* s := Short (table tables) n2 in Ok (Some s) | None => Ok None end.

Definition lr_push (c : lr_config) (s look err : Z) : lr_config :=
  LR (lr_stack c ++ [Entry (Val_int s) (lr_lval c) (lr_start c) (lr_end c)]) s look (lr_lval c)
    (lr_start c) (lr_end c) err.

(** the entries discarded until a state shifts the error token, down to [base] ones *)
Fixpoint lr_discard (tables : parser_tables) (base : nat) (rstack : list entry) : result (option (list entry * Z)) :=
  match rstack with
  | [] => Undef
  | e :: below =>
      let* o := lr_shift tables (Int_val (e_state e)) ERRCODE in
      match o with
      | Some s => Ok (Some (rstack, s))
      | None => if (length below <=? base)%nat then Ok None else lr_discard tables base below
      end
  end.

Definition lr_recover (tables : parser_tables) (base : nat) (c : lr_config) (lex : L) : result lr_next :=
  if lr_err c <? 3 then
    let* o := lr_discard tables base (reverse (lr_stack c)) in
    Ok (match o with
        | Some (rstack, s) =>
            let c := LR (reverse rstack) (lr_state c) (lr_look c) (lr_lval c) (lr_start c) (lr_end c) 3 in
            Lr_goes (lr_push c s (lr_look c) 3) lex
        | None => Lr_ends Parse_error lex
        end)
  else if lr_look c =? 0 then Ok (Lr_ends Parse_error lex)
  else Ok (Lr_goes (LR (lr_stack c) (lr_state c) (-1) (lr_lval c) (lr_start c) (lr_end c) (lr_err c)) lex).

(** the entry of the left-hand side, after the [m] entries of the right-hand side *)
Definition lr_result (rhs : list entry) (top : entry) (s v : Z) : entry :=
  Entry (Val_int s) v (match rhs with e :: _ => e_start e | [] => e_end top end) (e_end top).

(** the reduction by rule [n]; the recovery after an empty rule whose action fails looks at
    an entry above the stack, and is not described here *)
Definition lr_reduce (tables : parser_tables) (base : nat) (n : Z) (c : lr_config) (lex : L) : result lr_next :=
  let* m := Short (len tables) n in
  let* lh := Short (lhs tables) n in
  if m <? 0 then Undef else
  let k := (length (lr_stack c) - Z.to_nat m)%nat in
  match reverse (take k (lr_stack c)), reverse (lr_stack c) with
  | below :: _, top :: _ =>
      let* s := goto_state tables lh (Int_val (e_state below)) in
      match action n m (lr_stack c) with
      | Computed v =>
          let stack := take k (lr_stack c) ++ [lr_result (drop k (lr_stack c)) top s v] in
          Ok (Lr_goes (LR stack s (lr_look c) (lr_lval c) (lr_start c) (lr_end c) (lr_err c)) lex)
      | Action_parse_error =>
          if m =? 0 then Undef else
          lr_recover tables base
            (LR (take (S k) (lr_stack c)) s (lr_look c) (lr_lval c) (lr_start c) (lr_end c) (lr_err c)) lex
      | Action_raised x => Ok (Lr_ends (Raised x) lex)
      end
  | _, _ => Undef
  end.

(** the code and the attribute of a token *)
Definition token_code (tables : parser_tables) (t : lexeme) : result (Z * Z) :=
  if Is_long (tok t) then
    let* c := rd (transl_const tables) (Int_val (tok t)) in
    Ok (Int_val c, Val_long 0)
  else
    let* g := Tag_val (tok_heap t) (tok t) in
    let* c := rd (transl_block tables) g in
    let* v := Field (tok_heap t) (tok t) 0 in
    Ok (Int_val c, v).

(** with a token: shift, reduce, or recover from the error *)
Definition lr_act (tables : parser_tables) (base : nat) (c : lr_config) (lex : L) : result lr_next :=
  let* o := lr_shift tables (lr_state c) (lr_look c) in
  match o with
  | Some s => Ok (Lr_goes (lr_push c s (-1) (if 0 <? lr_err c then lr_err c - 1 else lr_err c)) lex)
  | None =>
      let* o := table_index tables (rindex tables) (lr_state c) (lr_look c) in
      match o with
      | Some n2 => let* n := Short (table tables) n2 in lr_reduce tables base n c lex
      | None =>
          if 0 <? lr_err c then lr_recover tables base c lex else
          match error_function with
          | None => lr_recover tables base c lex
          | Some x => Ok (Lr_ends (Raised x) lex)
          end
      end
  end.

Definition lr_step (tables : parser_tables) (base : nat) (c : lr_config) (lex : L) : result lr_next :=
  let* n := Short (defred tables) (lr_state c) in
  if negb (n =? 0) then lr_reduce tables base n c lex
  else if 0 <=? lr_look c then lr_act tables base c lex
  else
    match lexer lex with
    | (Read t, lex) =>
        let* (k, v) := token_code tables t in
        lr_act tables base (LR (lr_stack c) (lr_state c) k v (tok_start t) (tok_end t) (lr_err c)) lex
    | (Lexer_raised x, lex) => Ok (Lr_ends (Raised x) lex)
    end.

Fixpoint lr_run (fuel : nat) (tables : parser_tables) (base : nat) (c : lr_config) (lex : L)
    {struct fuel} : result (parse_end * L) :=
  match fuel with
  | O => NoFuel
  | S fuel =>
      let* r := lr_step tables base c lex in
      match r with
      | Lr_goes c lex => lr_run fuel tables base c lex
      | Lr_ends x lex => Ok (x, lex)
      end
  end.

(** ** The stacks and the list *)

(** the arrays hold [stk], with room for more *)
Record stacks_ok (env : parser_env) (stk : list entry) (base : nat) : Prop := {
  st_size : exists size, length (s_stack env) = size /\ length (v_stack env) = size /\
    length (symb_start_stack env) = size /\ length (symb_end_stack env) = size /\
    stacksize env = Val_long (Z.of_nat size) /\ Z.of_nat size < 2 ^ 40 /\ (length stk <= size)%nat;
  st_base : stackbase env = Val_int (Z.of_nat base) /\ Z.of_nat base < 2 ^ 30;
  st_entries : take (length stk) (entries env) = stk;
  st_depth : (0 < length stk)%nat /\ Z.of_nat (length stk) < 2 ^ 30 }.

(** the locals when the stack pointer is [p] and the current state [s], and the configuration *)
Record at_config (base : nat) (l : locals) (c : lr_config) (p s : Z) : Prop := {
  at_stacks : stacks_ok (l_env l) (lr_stack c) base;
  at_sp : l_sp l = p;
  at_state : l_state l = s /\ - 2 ^ 15 <= s < 2 ^ 15;
  at_err : l_errflag l = lr_err c /\ 0 <= lr_err c <= 3;
  at_look : Int_val (curr_char (l_env l)) = lr_look c;
  at_lval : lval (l_env l) = lr_lval c /\ symb_start (l_env l) = lr_start c /\ symb_end (l_env l) = lr_end c }.

(** the locals at the label [Loop] *)
Definition simulates (base : nat) (l : locals) (c : lr_config) : Prop :=
  at_config base l c (zlen (lr_stack c) - 1) (lr_state c).

Lemma length_entries env n :
  length (s_stack env) = n -> length (v_stack env) = n -> length (symb_start_stack env) = n ->
  length (symb_end_stack env) = n -> length (entries env) = n.
Proof.
  intros A B C D. unfold entries. rewrite !length_zip_with. lia.
Qed.

Lemma entries_lookup env i e :
  entries env !! i = Some e ->
  s_stack env !! i = Some (e_state e) /\ v_stack env !! i = Some (e_val e) /\
  symb_start_stack env !! i = Some (e_start e) /\ symb_end_stack env !! i = Some (e_end e).
Proof.
  unfold entries. intros ([s v] & [a b] & -> & H1 & H2)%lookup_zip_with_Some.
  apply lookup_zip_with_Some in H1 as (? & ? & [= <- <-] & ? & ?).
  apply lookup_zip_with_Some in H2 as (? & ? & [= <- <-] & ? & ?). done.
Qed.

Lemma entries_insert env i e :
  entries (set_stacks env (<[i := e_state e]> (s_stack env)) (<[i := e_val e]> (v_stack env))
    (<[i := e_start e]> (symb_start_stack env)) (<[i := e_end e]> (symb_end_stack env))) =
  <[i := e]> (entries env).
Proof.
  unfold entries. cbn. rewrite <- !insert_zip_with. f_equal. by destruct e.
Qed.

Lemma stacks_lookup env stk base i e :
  stacks_ok env stk base -> stk !! i = Some e -> entries env !! i = Some e.
Proof.
  intros S H. pose proof (lookup_lt_Some _ _ _ H). rewrite <- (st_entries _ _ _ S) in H.
  by rewrite lookup_take_lt in H by done.
Qed.

Lemma rd_lookup {A} (l : list A) (i : nat) x : l !! i = Some x -> rd l (Z.of_nat i) = Ok x.
Proof. intros H. apply rd_Ok. rewrite Nat2Z.id. split; [lia|done]. Qed.

(** an entry of the list read in the arrays *)
Lemma stacks_rd env stk base i e :
  stacks_ok env stk base -> stk !! i = Some e ->
  rd (s_stack env) (Z.of_nat i) = Ok (e_state e) /\ rd (symb_start_stack env) (Z.of_nat i) = Ok (e_start e) /\
  rd (symb_end_stack env) (Z.of_nat i) = Ok (e_end e).
Proof.
  intros S H. apply (stacks_lookup _ _ _ _ _ S) in H. apply entries_lookup in H as (A & _ & B & C).
  split_and!; by apply rd_lookup.
Qed.

(** the same arrays in another environment *)
Lemma stacks_same env env' stk base :
  s_stack env' = s_stack env -> v_stack env' = v_stack env ->
  symb_start_stack env' = symb_start_stack env -> symb_end_stack env' = symb_end_stack env ->
  stacksize env' = stacksize env -> stackbase env' = stackbase env ->
  stacks_ok env stk base -> stacks_ok env' stk base.
Proof.
  intros A B C D E F [S1 S2 S3 S4]. split; rewrite ?A, ?B, ?C, ?D, ?E, ?F; try done.
  unfold entries in *. by rewrite A, B, C, D.
Qed.

(** the list cut *)
Lemma stacks_take env stk base n :
  stacks_ok env stk base -> (0 < n <= length stk)%nat -> stacks_ok env (take n stk) base.
Proof.
  intros [(size & S1 & S2 & S3 & S4 & S5 & S6 & S7) S8 S9 [S10 S11]] Hn. split.
  - exists size. rewrite length_take. split_and!; try done. lia.
  - done.
  - rewrite length_take, Nat.min_l by lia. trans (take n (take (length stk) (entries env))); [|by rewrite S9].
    rewrite take_take. f_equal. lia.
  - rewrite length_take. lia.
Qed.

(** the entry [e] written above the list *)
Lemma stacks_push env stk base e size :
  stacks_ok env stk base -> length (s_stack env) = size -> (length stk < size)%nat ->
  Z.of_nat (length stk) + 1 < 2 ^ 30 ->
  let i := length stk in
  stacks_ok (set_stacks env (<[i := e_state e]> (s_stack env)) (<[i := e_val e]> (v_stack env))
    (<[i := e_start e]> (symb_start_stack env)) (<[i := e_end e]> (symb_end_stack env))) (stk ++ [e]) base.
Proof.
  intros [(n & S1 & S2 & S3 & S4 & S5 & S6 & S7) S8 S9 [S10 S11]] Es Hl Hd i.
  assert (n = size) as -> by congruence.
  split; cbn [s_stack v_stack symb_start_stack symb_end_stack stacksize stackbase set_stacks].
  - exists size. rewrite !length_insert, length_app. cbn. split_and!; try done. lia.
  - done.
  - rewrite entries_insert, length_app. cbn [length]. rewrite Nat.add_1_r.
    rewrite (take_S_r _ _ e).
    + rewrite take_insert_ge by (unfold i; lia). by rewrite S9.
    + rewrite list_lookup_insert_eq; [done|]. rewrite (length_entries _ size) by done. done.
  - rewrite length_app. cbn. lia.
Qed.

(** ** Engine and driver *)

Context (tables : parser_tables) (dummy_pos : Z).

(** the rest of a call, and what the driver does after it *)
Definition drive (F k : nat) (m : mem) (lex : L) (lbl : label) (l : locals) : result (parse_end * parser_env * L) :=
  let* (out, env) := engine_run k tables lbl l in
  obey (yyparse_loop F tables dummy_pos) dummy_pos m lex out env.

Lemma drive_goto F k m lex lbl l lbl' l' :
  engine_step tables lbl l = Ok (Goto lbl' l') -> drive F (S k) m lex lbl l = drive F k m lex lbl' l'.
Proof. intros H. unfold drive. cbn [engine_run]. by rewrite H. Qed.

Lemma drive_return F k m lex lbl l out env :
  engine_step tables lbl l = Ok (Return out env) ->
  drive F (S k) m lex lbl l = obey (yyparse_loop F tables dummy_pos) dummy_pos m lex out env.
Proof. intros H. unfold drive. cbn [engine_run]. by rewrite H. Qed.

(** a call that starts at a label *)
Lemma loop_goto F m env lex cmd arg lbl l :
  engine_entry tables m env (Val_int cmd) arg = Ok (Goto lbl l) ->
  yyparse_loop (S F) tables dummy_pos m env lex cmd arg = drive F 13 m lex lbl l.
Proof. intros H. cbn [yyparse_loop]. unfold caml_parse_engine. by rewrite H. Qed.

(** the entries of the calls *)
Lemma entry_cmd m env cmd arg :
  0 <= cmd <= 5 ->
  engine_entry tables m env (Val_int cmd) arg =
  if cmd =? START then Ok (Goto Loop (Locals env 0 (u64 (Int_val (sp env))) 0))
  else if cmd =? TOKEN_READ then
    let* env' := read_token tables m env arg in Ok (Goto Testshift (with_env (RESTORE env) env'))
  else if cmd =? ERROR_DETECTED then Ok (Goto Recover (RESTORE env))
  else if cmd =? STACKS_GROWN_1 then Ok (Goto Push (RESTORE env))
  else if cmd =? STACKS_GROWN_2 then Ok (Goto Semantic_action (RESTORE env))
  else if cmd =? SEMANTIC_ACTION_COMPUTED then
    let* l := action_computed (RESTORE env) arg in Ok (Goto Loop l)
  else Ok (Return RAISE_PARSE_ERROR env).
Proof. intros H. unfold engine_entry. by rewrite Int_val_int by solve_word. Qed.

Lemma loop_error F m env lex :
  yyparse_loop (S F) tables dummy_pos m env lex ERROR_DETECTED Val_unit = drive F 13 m lex Recover (RESTORE env).
Proof. apply loop_goto. by rewrite entry_cmd. Qed.
Lemma loop_grown_1 F m env lex :
  yyparse_loop (S F) tables dummy_pos m env lex STACKS_GROWN_1 Val_unit = drive F 13 m lex Push (RESTORE env).
Proof. apply loop_goto. by rewrite entry_cmd. Qed.
Lemma loop_grown_2 F m env lex :
  yyparse_loop (S F) tables dummy_pos m env lex STACKS_GROWN_2 Val_unit =
  drive F 13 m lex Semantic_action (RESTORE env).
Proof. apply loop_goto. by rewrite entry_cmd. Qed.
Lemma loop_computed F m env lex v l :
  action_computed (RESTORE env) v = Ok l ->
  yyparse_loop (S F) tables dummy_pos m env lex SEMANTIC_ACTION_COMPUTED v = drive F 13 m lex Loop l.
Proof. intros H. apply loop_goto. rewrite entry_cmd by done. cbn. by rewrite H. Qed.
Lemma loop_read F m env lex arg env' :
  read_token tables m env arg = Ok env' ->
  yyparse_loop (S F) tables dummy_pos m env lex TOKEN_READ arg =
  drive F 13 m lex Testshift (with_env (RESTORE env) env').
Proof. intros H. apply loop_goto. rewrite entry_cmd by done. cbn. by rewrite H. Qed.

(** the commands obeyed *)
Lemma output_codes :
  READ_TOKEN = 1 /\ RAISE_PARSE_ERROR = 3 /\ GROW_STACKS_1 = 5 /\ GROW_STACKS_2 = 7 /\
  COMPUTE_SEMANTIC_ACTION = 9 /\ CALL_ERROR_FUNCTION = 11.
Proof. by vm_compute. Qed.

Lemma obey_cases continue m lex env :
  obey continue dummy_pos m lex READ_TOKEN env =
    match lexer lex with
    | (Read t, lex) => continue (tok_heap t) (set_symb env (tok_start t) (tok_end t)) lex TOKEN_READ (tok t)
    | (Lexer_raised x, lex) => Ok (Raised x, env, lex)
    end /\
  obey continue dummy_pos m lex RAISE_PARSE_ERROR env = Ok (Parse_error, env, lex) /\
  obey continue dummy_pos m lex COMPUTE_SEMANTIC_ACTION env =
    match call_action env with
    | Computed v => continue m env lex SEMANTIC_ACTION_COMPUTED v
    | Action_parse_error => continue m env lex ERROR_DETECTED Val_unit
    | Action_raised x => Ok (Raised x, env, lex)
    end /\
  obey continue dummy_pos m lex GROW_STACKS_1 env = continue m (grow_stacks dummy_pos env) lex STACKS_GROWN_1 Val_unit /\
  obey continue dummy_pos m lex GROW_STACKS_2 env = continue m (grow_stacks dummy_pos env) lex STACKS_GROWN_2 Val_unit /\
  obey continue dummy_pos m lex CALL_ERROR_FUNCTION env =
    match error_function with
    | None => continue m env lex ERROR_DETECTED Val_unit
    | Some x => Ok (Raised x, env, lex)
    end.
Proof. unfold obey. by destruct output_codes as (-> & -> & -> & -> & -> & ->). Qed.

(** what the locals become when the engine is left and entered again *)
Lemma RESTORE_SAVE l :
  0 <= l_sp l < 2 ^ 31 -> is_s32 (l_state l) -> is_s32 (l_errflag l) ->
  RESTORE (SAVE l) = Locals (SAVE l) (l_state l) (l_sp l) (l_errflag l).
Proof.
  intros Hp Hs He. unfold RESTORE. cbn. rewrite !Int_val_int by (done || solve_word).
  by rewrite u64_id by solve_word.
Qed.

Lemma stacks_SAVE l stk base : stacks_ok (l_env l) stk base -> stacks_ok (SAVE l) stk base.
Proof. by apply stacks_same. Qed.

Lemma grow_entries env n :
  length (s_stack env) = n -> length (v_stack env) = n -> length (symb_start_stack env) = n ->
  length (symb_end_stack env) = n ->
  exists junk, entries (grow_stacks dummy_pos env) = entries env ++ junk.
Proof.
  intros A B C D. unfold entries, grow_stacks. cbn. eexists.
  rewrite !zip_with_app by (rewrite ?length_zip_with; lia). done.
Qed.

(** after the growth there is room for one more entry *)
Lemma stacks_grow env stk base size :
  stacks_ok env stk base -> length (s_stack env) = size -> (size <= length stk)%nat ->
  stacks_ok (grow_stacks dummy_pos env) stk base /\
  length (s_stack (grow_stacks dummy_pos env)) = (2 * size)%nat.
Proof.
  intros [(n & S1 & S2 & S3 & S4 & S5 & S6 & S7) S8 S9 [S10 S11]] Es Hl.
  assert (n = size) as -> by congruence.
  assert (Lv : Long_val (stacksize env) = Z.of_nat size) by (rewrite S5; apply Long_val_long_id; solve_word).
  assert (Lg : forall x (l : list Z), length l = size -> length (l ++ replicate (Z.to_nat (Z.of_nat size)) x) = (2 * size)%nat)
    by (intros x l E; rewrite length_app, length_replicate; lia).
  destruct (grow_entries env size) as (junk & E); try done.
  split; [split|cbn; rewrite ?Lv; by apply Lg].
  - exists (2 * size)%nat. cbn. rewrite Lv. split_and!; [by apply Lg..| |lia|lia]. f_equal. lia.
  - done.
  - rewrite E, take_app_le; [done|]. by rewrite (length_entries _ size).
  - done.
Qed.

(** ** The steps *)

(** the jumps that a call may still need at the label [Loop] *)
Definition rank (look err : Z) : nat := if look <? 0 then 3 else if err <? 3 then 13 else 8.

(** from [r], which is reached with [F] calls and [k] jumps left, the engine is back to its
    loop after [g] calls at most, and has made a jump or a call at least; or there were less
    than [g] calls left *)
Definition steps_to (base : nat) (F k g : nat) (r : result (parse_end * parser_env * L)) (next : lr_next) : Prop :=
  (r = NoFuel /\ (F < g)%nat) \/
  match next with
  | Lr_goes c lex =>
      exists F' k' m l, r = drive F' k' m lex Loop l /\ (F <= F' + g)%nat /\ (14 * F' + k' < 14 * F + k)%nat /\ simulates base l c /\
        (rank (lr_look c) (lr_err c) <= k')%nat
  | Lr_ends x lex => exists env, r = Ok (x, env, lex)
  end.

Lemma steps_more base F F' k k' g g' r next :
  steps_to base F k g r next -> (F' + g <= F + g')%nat -> (14 * F + k <= 14 * F' + k')%nat -> steps_to base F' k' g' r next.
Proof.
  intros [[-> H]|H] Hg Hm; [left; split; [done|lia]|right]. destruct next as [c lex|x lex]; [|done].
  destruct H as (F1 & k1 & m & l & E & H & H' & R). exists F1, k1, m, l. split; [done|]. split; [lia|]. split; [lia|done].
Qed.

Lemma rank_ge look err : (3 <= rank look err)%nat.
Proof. unfold rank. destruct (look <? 0), (err <? 3); lia. Qed.

Lemma rank_le look err : (rank look err <= 13)%nat.
Proof. unfold rank. destruct (look <? 0), (err <? 3); lia. Qed.

(** leaving the engine and entering it again changes nothing *)
Lemma at_RESTORE base l c p s :
  at_config base l c p s -> 0 <= p < 2 ^ 31 ->
  RESTORE (SAVE l) = Locals (SAVE l) s p (lr_err c) /\ at_config base (RESTORE (SAVE l)) c p s.
Proof.
  intros [A B [C C'] [D D'] E F] Hp.
  assert (R : RESTORE (SAVE l) = Locals (SAVE l) (l_state l) (l_sp l) (l_errflag l))
    by (apply RESTORE_SAVE; subst; solve_word).
  rewrite R, B, C, D. split; [done|]. split; try done. by apply stacks_SAVE.
Qed.

Lemma push_ok base l c s :
  at_config base l c (zlen (lr_stack c)) s -> (length (lr_stack c) < length (s_stack (l_env l)))%nat ->
  zlen (lr_stack c) + 1 < 2 ^ 30 ->
  exists l', engine_step tables Push l = Ok (Goto Loop l') /\
    simulates base l' (lr_push c s (lr_look c) (lr_err c)).
Proof.
  intros [A B [C C'] [D D'] E [F1 [F2 F3]]] Hl Hd. pose proof A as [(size & S1 & S2 & S3 & S4 & _) _ _ _].
  cbn [engine_step]. unfold engine_push. unfold zlen in *.
  rewrite B, !wr_in_range by (unfold zlen; lia). cbn [rbind]. eexists. split; [done|].
  rewrite Nat2Z.id, C, F1, F2, F3.
  pose proof (stacks_push (l_env l) (lr_stack c) base
    (Entry (Val_int s) (lr_lval c) (lr_start c) (lr_end c)) size A S1) as P.
  cbn [e_state e_val e_start e_end] in P.
  split; cbn; try done; [apply P; lia|]. unfold zlen. rewrite length_app. cbn. lia.
Qed.

Lemma stacksize_room base env stk p :
  stacks_ok env stk base -> 0 <= p < 2 ^ 31 ->
  (u64 p <? u64 (Long_val (stacksize env))) = (p <? zlen (s_stack env)).
Proof.
  intros [(size & S1 & S2 & S3 & S4 & S5 & S6 & S7) _ _ _] Hp.
  rewrite S5, Long_val_long_id, !u64_id by solve_word. unfold zlen. by rewrite S1.
Qed.

Lemma RESTORE_grow env :
  RESTORE (grow_stacks dummy_pos env) = with_env (RESTORE env) (grow_stacks dummy_pos env).
Proof.
  unfold RESTORE, with_env. cbn [l_state l_sp l_errflag].
  change (state (grow_stacks dummy_pos env)) with (state env).
  change (sp (grow_stacks dummy_pos env)) with (sp env).
  by change (errflag (grow_stacks dummy_pos env)) with (errflag env).
Qed.

(** the stacks grown between two calls *)
Lemma at_grow base l c p s :
  at_config base l c p s -> 0 <= p < 2 ^ 31 -> (length (s_stack (l_env l)) <= length (lr_stack c))%nat ->
  let l' := RESTORE (grow_stacks dummy_pos (SAVE l)) in
  at_config base l' c p s /\ (length (lr_stack c) < length (s_stack (l_env l')))%nat.
Proof.
  intros A Hp Hl l'. destruct (at_RESTORE base l c p s A Hp) as [R A'].
  pose proof (RESTORE_grow (SAVE l) : l' = _) as R'.
  clearbody l'. subst l'. rewrite R in *. pose proof A' as [S B C D E F].
  pose proof S as [(size & S1 & _ & _ & _ & _ & _ & S7) _ _ [S10 _]]. cbn [l_env] in *.
  destruct (stacks_grow (SAVE l) (lr_stack c) base size S S1) as [G1 G2]; [cbn in Hl, S1; lia|].
  split; [by split|]. cbn [l_env with_env]. rewrite G2. lia.
Qed.

Lemma shift_recover_ok base F k m lex l c p n2 s :
  at_config base l c (zlen (lr_stack c) - 1) p -> zlen (lr_stack c) + 1 < 2 ^ 30 ->
  Short (table tables) n2 = Ok s ->
  (rank (lr_look c) (lr_err c) <= k)%nat -> (rank (lr_look c) (lr_err c) <= 12)%nat ->
  steps_to base F (S (S k)) 1 (drive F (S (S k)) m lex (Shift_recover n2) l)
    (Lr_goes (lr_push c s (lr_look c) (lr_err c)) lex).
Proof.
  intros A Hd Es Hk Hk'. pose proof A as [S0 B C D E G]. pose proof (Short_range _ _ _ Es) as Rs.
  pose proof (st_depth _ _ _ S0) as [D1 D2]. unfold zlen in *.
  assert (A1 : at_config base (Locals (l_env l) s (zlen (lr_stack c)) (l_errflag l)) c (zlen (lr_stack c)) s) by by split.
  assert (St : engine_step tables (Shift_recover n2) l =
    Ok (let l := Locals (l_env l) s (zlen (lr_stack c)) (l_errflag l) in
        if zlen (lr_stack c) <? zlen (s_stack (l_env l)) then Goto Push l else Return GROW_STACKS_1 (SAVE l))).
  { cbn [engine_step]. rewrite Es. cbn [rbind]. rewrite B.
    replace (Z.of_nat (length (lr_stack c)) - 1 + 1) with (zlen (lr_stack c)) by (unfold zlen; lia).
    rewrite (u64_id (zlen (lr_stack c))) by (unfold zlen; solve_word).
    rewrite <- (stacksize_room base _ _ _ S0) by (unfold zlen; lia).
    by rewrite (u64_id (zlen (lr_stack c))) by (unfold zlen; solve_word). }
  cbn zeta in St. cbn [l_env] in St. destruct (Z.ltb_spec (zlen (lr_stack c)) (zlen (s_stack (l_env l)))) as [R|R].
  - rewrite (drive_goto _ _ _ _ _ _ _ _ St). unfold zlen in R.
    destruct (push_ok base _ c s A1) as (l' & E' & Sim); [cbn; lia|unfold zlen; lia|].
    rewrite (drive_goto _ _ _ _ _ _ _ _ E'). right. exists F, k, m, l'. split_and!; [done|lia|lia|done|done].
  - rewrite (drive_return _ _ _ _ _ _ _ _ St). unfold zlen in *.
    destruct (at_grow base _ c _ s A1) as [A2 L2]; [lia|cbn; lia|].
    destruct (obey_cases (yyparse_loop F tables dummy_pos) m lex
      (SAVE (Locals (l_env l) s (Z.of_nat (length (lr_stack c))) (l_errflag l)))) as (_ & _ & _ & -> & _).
    destruct F as [|F]; [by left; split; [|lia]|]. rewrite loop_grown_1.
    destruct (push_ok base _ c s A2) as (l' & E' & Sim); [done|unfold zlen; lia|].
    rewrite (drive_goto _ _ _ _ _ _ _ _ E'). right. exists F, 12%nat, m, l'. split_and!; [done|lia|lia|done|done].
Qed.

(** the token is dropped, after a shift or in a recovery *)
Lemma at_no_token base l c p s err :
  at_config base l c p s -> 0 <= err <= 3 ->
  at_config base (Locals (set_token (l_env l) (Val_int (-1)) (lval (l_env l))) (l_state l) (l_sp l) err)
    (LR (lr_stack c) (lr_state c) (-1) (lr_lval c) (lr_start c) (lr_end c) err) p s.
Proof. intros [A B C D E F] He. split; cbn; try done. by eapply stacks_same, A. Qed.

(** the recovery finds the same entry *)
Lemma discard_ok base env rstack : forall fuel o,
  stacks_ok env (reverse rstack) base -> (length rstack < fuel)%nat ->
  lr_discard tables base rstack = Ok o ->
  match o with
  | Some (rstack', s) => exists n2,
      discard_states fuel tables env (zlen rstack - 1) = Ok (Some (zlen rstack' - 1, n2)) /\
      Short (table tables) n2 = Ok s /\ stacks_ok env (reverse rstack') base /\
      (length rstack' <= length rstack)%nat
  | None => discard_states fuel tables env (zlen rstack - 1) = Ok None
  end.
Proof.
  induction rstack as [|e below IH]; intros fuel o St Hf E; [done|].
  destruct fuel as [|fuel]; [cbn in Hf; lia|]. cbn [lr_discard discard_states] in E |- *.
  pose proof (st_depth _ _ _ St) as [D1 D2]. destruct (st_base _ _ _ St) as [B1 B2].
  rewrite reverse_cons in St. rewrite reverse_cons, length_app, length_reverse in D1, D2. cbn in D1, D2.
  assert (Lk : (reverse below ++ [e]) !! length below = Some e).
  { rewrite lookup_app_r by (rewrite length_reverse; lia). by rewrite length_reverse, Nat.sub_diag. }
  destruct (stacks_rd _ _ _ _ _ St Lk) as (R & _).
  replace (zlen (e :: below) - 1) with (Z.of_nat (length below)) by (unfold zlen; cbn; lia).
  rewrite R. cbn [rbind]. unfold lr_shift in E.
  destruct (table_index tables (sindex tables) (Int_val (e_state e)) ERRCODE) as [o'| | |]; try done.
  cbn [rbind] in E |- *. destruct o' as [n2|].
  - destruct (Short (table tables) n2) as [s| | |] eqn:Es; try done. injection E as <-.
    exists n2. rewrite reverse_cons. split_and!; [|done|done|done]. do 3 f_equal. unfold zlen. cbn. lia.
  - rewrite B1, Int_val_int, u64_id by solve_word.
    destruct (Nat.leb_spec (length below) base) as [G|G]; destruct (Z.leb_spec (Z.of_nat (length below)) (Z.of_nat base)); try lia.
    + by injection E as <-.
    + rewrite u64_id by solve_word.
      assert (St' : stacks_ok env (reverse below) base).
      { apply (stacks_take _ _ _ (length below)) in St; [|rewrite length_app, length_reverse; lia].
        by rewrite take_app_length' in St by by rewrite length_reverse. }
      specialize (IH fuel o St' ltac:(cbn in Hf; lia) E). fold (zlen below). destruct o as [[rstack' s]|]; [|done].
      destruct IH as (n2 & H1 & H2 & H3 & H4). exists n2. split_and!; try done. cbn. lia.
Qed.

Lemma recover_ok base F k m lex l c s next :
  at_config base l c (zlen (lr_stack c) - 1) s -> zlen (lr_stack c) + 1 < 2 ^ 30 ->
  lr_state c = s -> lr_recover tables base c lex = Ok next ->
  (11 <= k)%nat \/ 3 <= lr_err c /\ (4 <= k)%nat ->
  steps_to base F k 1 (drive F k m lex Recover l) next.
Proof.
  intros A Hd Es E Hk. pose proof A as [S0 B [C C'] [D D'] Lk G]. destruct k as [|k]; [lia|].
  unfold lr_recover in E. destruct (Z.ltb_spec (lr_err c) 3) as [G3|G3].
  - pose proof (st_size _ _ _ S0) as (size & S1 & _ & _ & _ & _ & _ & S7).
    destruct (lr_discard tables base (reverse (lr_stack c))) as [o| | |] eqn:Ed; try done. cbn [rbind] in E.
    assert (Dk := discard_ok base (l_env l) (reverse (lr_stack c)) (S (length (s_stack (l_env l)))) o).
    rewrite reverse_involutive, length_reverse in Dk. specialize (Dk S0 ltac:(lia) Ed).
    assert (Zr : zlen (reverse (lr_stack c)) = zlen (lr_stack c)) by (unfold zlen; by rewrite length_reverse).
    rewrite Zr in Dk.
    assert (St : engine_step tables Recover l = engine_recover tables l) by done.
    unfold engine_recover in St. rewrite D, B in St. destruct (Z.ltb_spec (lr_err c) 3); [|lia].
    destruct o as [[rstack s']|]; injection E as <-.
    + destruct Dk as (n2 & H1 & H2 & H3 & H4). rewrite H1 in St. cbn [rbind] in St.
      rewrite (drive_goto _ _ _ _ _ _ _ _ St).
      assert (Zs : zlen (reverse rstack) = zlen rstack) by (unfold zlen; by rewrite length_reverse).
      destruct k as [|[|k]]; [lia..|].
      eapply steps_more; [apply (shift_recover_ok base F k m lex _ (LR (reverse rstack) s (lr_look c) (lr_lval c) (lr_start c) (lr_end c) 3) s n2 s')|lia|lia].
      * rewrite <- Zs. subst s. by split.
      * cbn [lr_stack]. rewrite Zs. unfold zlen in *. lia.
      * done.
      * cbn. unfold rank. destruct (lr_look c <? 0); cbn; lia.
      * cbn. unfold rank. destruct (lr_look c <? 0); cbn; lia.
    + rewrite Dk in St. cbn [rbind] in St. rewrite (drive_return _ _ _ _ _ _ _ _ St). right. by exists (l_env l).
  - assert (St : engine_step tables Recover l = engine_recover tables l) by done.
    unfold engine_recover in St. rewrite D, Lk in St. destruct (Z.ltb_spec (lr_err c) 3); [lia|].
    destruct (Z.eqb_spec (lr_look c) 0) as [Z0|Z0]; injection E as <-.
    + rewrite (drive_return _ _ _ _ _ _ _ _ St). right. by exists (l_env l).
    + rewrite (drive_goto _ _ _ _ _ _ _ _ St). right. do 4 eexists. split; [done|]. split; [lia|]. split; [lia|]. split; [|cbn; lia].
      subst s. unfold with_env. rewrite D. by apply (at_no_token base l c (zlen (lr_stack c) - 1)).
Qed.

(** the result of the action on the stacks and on the list *)
Lemma computed_ok base l c k s v top rest :
  at_config base l c (Z.of_nat k) s -> (0 < k <= length (lr_stack c))%nat ->
  (k < length (s_stack (l_env l)))%nat -> Z.of_nat k + 1 < 2 ^ 30 ->
  Int_val (asp (l_env l)) = zlen (lr_stack c) - 1 -> reverse (lr_stack c) = top :: rest ->
  exists l', action_computed l v = Ok l' /\
    simulates base l' (LR (take k (lr_stack c) ++ [lr_result (drop k (lr_stack c)) top s v]) s
      (lr_look c) (lr_lval c) (lr_start c) (lr_end c) (lr_err c)).
Proof.
  intros [S0 B [C C'] [D D'] Lk G] Hk Hs Hd Ea Rv. set (stk := lr_stack c) in *.
  pose proof (st_size _ _ _ S0) as (size & S1 & S2 & S3 & S4 & _ & _ & S7).
  pose proof (st_depth _ _ _ S0) as [D1 D2]. unfold zlen in Ea.
  assert (Ht : stk !! (length stk - 1)%nat = Some top).
  { rewrite <- (reverse_involutive stk), Rv, reverse_cons, lookup_app_r;
      rewrite length_app, length_reverse; cbn; [|lia].
    replace (length rest + 1 - 1 - length rest)%nat with O by lia. done. }
  pose proof (stacks_rd _ _ _ _ _ S0 Ht) as (_ & _ & Re).
  unfold action_computed. rewrite B, Ea, u64_id, !wr_in_range by (unfold zlen; solve_word). cbn [rbind].
  replace (Z.of_nat (length stk) - 1) with (Z.of_nat (length stk - 1)) by lia. rewrite Re. cbn [rbind].
  rewrite wr_in_range by (unfold zlen; lia). cbn [rbind]. rewrite Nat2Z.id.
  set (res := lr_result (drop k stk) top s v).
  assert (Ha : (if Z.of_nat (length stk - 1) <? Z.of_nat k then
      let* e := rd (<[k:=e_end top]> (symb_end_stack (l_env l))) (Z.of_nat (length stk - 1)) in
      wr (symb_start_stack (l_env l)) (Z.of_nat k) e
    else Ok (symb_start_stack (l_env l))) = Ok (<[k := e_start res]> (symb_start_stack (l_env l)))).
  { unfold res, lr_result. destruct (Z.ltb_spec (Z.of_nat (length stk - 1)) (Z.of_nat k)) as [Q|Q].
    - rewrite drop_ge by lia. apply rd_Ok in Re as [_ Re]. rewrite Nat2Z.id in Re.
      rewrite (rd_lookup _ _ (e_end top)) by by rewrite list_lookup_insert_ne by lia. cbn [rbind].
      by rewrite wr_in_range, Nat2Z.id by (unfold zlen; lia).
    - destruct (lookup_lt_is_Some_2 stk k) as [e He]; [lia|]. rewrite (drop_S _ _ _ He). cbn [e_start].
      apply (stacks_lookup _ _ _ _ _ S0), entries_lookup in He as (_ & _ & He & _).
      by rewrite list_insert_id. }
  rewrite Ha. cbn [rbind]. eexists. split; [done|].
  assert (Lt : length (take k stk) = k) by (rewrite length_take; lia).
  pose proof (stacks_push (l_env l) (take k stk) base res size (stacks_take _ _ _ k S0 Hk) S1) as P.
  rewrite Lt in P. specialize (P ltac:(lia) ltac:(lia)). cbn zeta in P. rewrite C.
  split; cbn; try done. unfold zlen. rewrite length_app, Lt. cbn. lia.
Qed.

(** the registers of the reduction *)
Definition reducing (env : parser_env) (n m p : Z) : Prop :=
  Int_val (rule_number env) = n /\ Int_val (rule_len env) = m /\ Int_val (asp env) = p.

(** the action called, and what follows *)
Lemma semantic_ok base F k0 mm lex l c n m k s top rest next :
  at_config base l c (Z.of_nat k) s -> reducing (l_env l) n m (zlen (lr_stack c) - 1) ->
  (0 < k <= length (lr_stack c))%nat -> k = (length (lr_stack c) - Z.to_nat m)%nat -> 0 <= m ->
  (k < length (s_stack (l_env l)))%nat -> zlen (lr_stack c) + 1 < 2 ^ 30 ->
  reverse (lr_stack c) = top :: rest ->
  match action n m (lr_stack c) with
  | Computed v =>
      Ok (Lr_goes (LR (take k (lr_stack c) ++ [lr_result (drop k (lr_stack c)) top s v]) s (lr_look c)
            (lr_lval c) (lr_start c) (lr_end c) (lr_err c)) lex)
  | Action_parse_error =>
      if m =? 0 then Undef else
      lr_recover tables base
        (LR (take (S k) (lr_stack c)) s (lr_look c) (lr_lval c) (lr_start c) (lr_end c) (lr_err c)) lex
  | Action_raised x => Ok (Lr_ends (Raised x) lex)
  end = Ok next ->
  steps_to base F (S k0) 2 (drive F (S k0) mm lex Semantic_action l) next.
Proof.
  intros A (Rn & Rm & Rp) Hk Ek Hm Hs Hd Rv E. unfold zlen in *.
  pose proof (at_stacks _ _ _ _ _ A) as S0. pose proof (st_depth _ _ _ S0) as [D1 D2].
  rewrite (drive_return F k0 mm lex Semantic_action l COMPUTE_SEMANTIC_ACTION (SAVE l)) by done.
  destruct (at_RESTORE base l c _ _ A) as [R A']; [lia|].
  assert (Ca : call_action (SAVE l) = action n m (lr_stack c)).
  { unfold call_action. change (entries (SAVE l)) with (entries (l_env l)).
    change (rule_number (SAVE l)) with (rule_number (l_env l)).
    change (rule_len (SAVE l)) with (rule_len (l_env l)). change (asp (SAVE l)) with (asp (l_env l)).
    rewrite Rn, Rm, Rp. replace (Z.to_nat (Z.of_nat (length (lr_stack c)) - 1 + 1)) with (length (lr_stack c)) by lia.
    by rewrite (st_entries _ _ _ S0). }
  destruct (obey_cases (yyparse_loop F tables dummy_pos) mm lex (SAVE l)) as (_ & _ & -> & _).
  rewrite Ca.
  destruct (action n m (lr_stack c)) as [v| |x].
  - injection E as <-.
    destruct (computed_ok base (RESTORE (SAVE l)) c k s v top rest A') as (l' & E' & Sim);
      [lia|by rewrite R|lia|rewrite R; exact Rp|done|].
    destruct F as [|F]; [by left; split; [|lia]|]. rewrite (loop_computed _ _ _ _ _ _ E'). right. do 4 eexists. split; [done|]. split; [lia|]. split; [lia|]. split; [done|apply rank_le].
  - destruct (Z.eqb_spec m 0); [done|].
    destruct F as [|F]; [by left; split; [|lia]|]. rewrite loop_error.
    set (c' := LR (take (S k) (lr_stack c)) s (lr_look c) (lr_lval c) (lr_start c) (lr_end c) (lr_err c)) in *.
    assert (Lc : length (lr_stack c') = S k) by (cbn; rewrite length_take; lia).
    eapply steps_more; [apply (recover_ok base F _ mm lex _ c' s next); try done; try lia|lia|lia].
    + unfold zlen. rewrite Lc. destruct A' as [B1 B2 B3 B4 B5 B6]. split; try done.
      * apply stacks_take; [done|]. lia.
      * rewrite B2. lia.
    + unfold zlen. rewrite Lc. lia.
  - injection E as <-. right. by exists (SAVE l).
Qed.

Lemma goto_state_range m state1 s : goto_state tables m state1 = Ok s -> - 2 ^ 15 <= s < 2 ^ 15.
Proof.
  intros (n1 & _ & (b & _ & H)%rbind_Ok)%rbind_Ok. destruct b; by eapply Short_range.
Qed.

(** the entry below the right-hand side *)
Lemma lookup_below (stk r1 : list entry) k below :
  reverse (take k stk) = below :: r1 -> (k <= length stk)%nat -> stk !! (k - 1)%nat = Some below /\ (0 < k)%nat.
Proof.
  intros E Hk. assert (Q : take k stk = reverse r1 ++ [below])
    by (rewrite <- reverse_cons, <- E; by rewrite reverse_involutive).
  assert (Ql : length (take k stk) = S (length r1)) by (rewrite Q, length_app, length_reverse; cbn; lia).
  rewrite length_take in Ql. split; [|lia].
  rewrite <- (lookup_take_lt _ k) by lia. rewrite Q, lookup_app_r; rewrite length_reverse; [|lia].
  by replace (k - 1 - length r1)%nat with O by lia.
Qed.

(** the engine's part of a reduction *)
Lemma engine_reduce_ok base l c n m lh k below s :
  simulates base l c -> zlen (lr_stack c) + 1 < 2 ^ 30 -> - 2 ^ 15 <= n < 2 ^ 15 ->
  Short (len tables) n = Ok m -> Short (lhs tables) n = Ok lh -> 0 <= m ->
  k = (length (lr_stack c) - Z.to_nat m)%nat -> (0 < k)%nat -> lr_stack c !! (k - 1)%nat = Some below ->
  goto_state tables lh (Int_val (e_state below)) = Ok s ->
  exists l1, at_config base l1 c (Z.of_nat k) s /\ reducing (l_env l1) n m (zlen (lr_stack c) - 1) /\
    engine_step tables (Reduce n) l =
      Ok (if (k <? length (s_stack (l_env l1)))%nat then Goto Semantic_action l1 else Return GROW_STACKS_2 (SAVE l1)).
Proof.
  intros A Hd Hn Em El Hm Ek Hk Lb Eg. pose proof A as [S0 B [C C'] [D D'] Lk G].
  pose proof (st_depth _ _ _ S0) as [D1 D2]. pose proof (Short_range _ _ _ Em) as Rm.
  unfold zlen in *. destruct (stacks_rd _ _ _ _ _ S0 Lb) as (Rb & _).
  set (l1 := Locals (set_rule (l_env l) (Val_int (l_sp l)) (Val_int n) (Val_int m)) s (Z.of_nat k) (l_errflag l)).
  exists l1. split; [|split].
  - split; try done; [by eapply stacks_same, S0|]. split; [done|]. by apply goto_state_range in Eg.
  - unfold reducing. cbn. rewrite B, !Int_val_int by solve_word. done.
  - cbn [engine_step]. unfold engine_reduce. rewrite Em, El. cbn [rbind]. rewrite B.
    replace (u64 (Z.of_nat (length (lr_stack c)) - 1 - m + 1)) with (Z.of_nat k) by (rewrite u64_id; [lia|solve_word]).
    replace (u64 (Z.of_nat k - 1)) with (Z.of_nat (k - 1)) by (rewrite u64_id; [lia|solve_word]).
    change (s_stack (set_rule (l_env l) _ _ _)) with (s_stack (l_env l)). rewrite Rb. cbn [rbind].
    rewrite Eg. cbn [rbind]. rewrite <- B. fold l1.
    change (stacksize (set_rule (l_env l) _ _ _)) with (stacksize (l_env l)).
    change (s_stack (l_env l1)) with (s_stack (l_env l)).
    rewrite <- (u64_id (Z.of_nat k)) by solve_word. rewrite (stacksize_room base _ _ _ S0) by lia. unfold zlen.
    by destruct (Z.ltb_spec (Z.of_nat k) (Z.of_nat (length (s_stack (l_env l))))),
      (Nat.ltb_spec k (length (s_stack (l_env l)))); try lia.
Qed.

Lemma reduce_ok base F k0 mm lex l c n next :
  simulates base l c -> zlen (lr_stack c) + 1 < 2 ^ 30 -> - 2 ^ 15 <= n < 2 ^ 15 ->
  lr_reduce tables base n c lex = Ok next -> (2 <= k0)%nat ->
  steps_to base F k0 3 (drive F k0 mm lex (Reduce n) l) next.
Proof.
  intros A Hd Hn E Hk0. destruct k0 as [|[|k0]]; try lia. unfold lr_reduce in E.
  pose proof (st_depth _ _ _ (at_stacks _ _ _ _ _ A)) as [D1 D2].
  destruct (Short (len tables) n) as [m| | |] eqn:Em; try done. cbn [rbind] in E.
  destruct (Short (lhs tables) n) as [lh| | |] eqn:El; try done. cbn [rbind] in E.
  destruct (Z.ltb_spec m 0) as [Hm|Hm]; [done|].
  set (k := (length (lr_stack c) - Z.to_nat m)%nat) in *.
  destruct (reverse (take k (lr_stack c))) as [|below r1] eqn:Eb; [done|].
  destruct (reverse (lr_stack c)) as [|top rest] eqn:Et; [done|].
  destruct (goto_state tables lh (Int_val (e_state below))) as [s| | |] eqn:Eg; try done. cbn [rbind] in E.
  destruct (lookup_below _ _ _ _ Eb) as [Lb Hk]; [lia|].
  destruct (engine_reduce_ok base l c n m lh k below s A Hd Hn Em El Hm eq_refl Hk Lb Eg) as (l1 & A1 & R1 & St).
  destruct (Nat.ltb_spec k (length (s_stack (l_env l1)))) as [Q|Q].
  - rewrite (drive_goto _ _ _ _ _ _ _ _ St). eapply steps_more.
    + eapply (semantic_ok base F k0 mm lex l1 c n m k s); try done. lia.
    + lia.
    + lia.
  - rewrite (drive_return _ _ _ _ _ _ _ _ St).
    destruct (obey_cases (yyparse_loop F tables dummy_pos) mm lex (SAVE l1)) as (_ & _ & _ & _ & -> & _).
    destruct F as [|F]; [by left; split; [|lia]|]. rewrite loop_grown_2. unfold zlen in Hd.
    destruct (at_grow base l1 c _ s A1) as [A2 L2]; [lia|lia|].
    eapply steps_more.
    + eapply (semantic_ok base F 12 mm lex _ c n m k s); try done; lia.
    + lia.
    + lia.
Qed.

Lemma act_ok base F k m lex l c next :
  simulates base l c -> zlen (lr_stack c) + 1 < 2 ^ 30 -> lr_act tables base c lex = Ok next ->
  (12 <= k)%nat \/ 3 <= lr_err c /\ (7 <= k)%nat ->
  steps_to base F k 3 (drive F k m lex Testshift l) next.
Proof.
  intros A Hd E Hk. pose proof A as [S0 B [C C'] [D D'] Lk G]. destruct k as [|k]; [lia|].
  assert (Hp : 0 <= zlen (lr_stack c) - 1 < 2 ^ 31).
  { pose proof (st_depth _ _ _ S0) as [D1 D2]. unfold zlen. lia. }
  unfold lr_act, lr_shift in E. pose proof (eq_refl (engine_step tables Testshift l)) as St.
  unfold engine_step at 2 in St. rewrite Lk, C in St.
  destruct (table_index tables (sindex tables) (lr_state c) (lr_look c)) as [[n2|]| | |]; try done; cbn [rbind] in E, St.
  - destruct (Short (table tables) n2) as [s| | |] eqn:Es; try done. injection E as <-.
    rewrite (drive_goto _ _ _ _ _ _ _ _ St). destruct k as [|[|[|k]]]; [lia..|].
    erewrite drive_goto by reflexivity. rewrite D.
    set (err := if 0 <? lr_err c then lr_err c - 1 else lr_err c).
    assert (He : 0 <= err <= 3) by (unfold err; destruct (Z.ltb_spec 0 (lr_err c)); lia).
    pose proof (at_no_token base l c _ _ err A He) as A1.
    eapply steps_more; [eapply (shift_recover_ok base F k m lex _ _ _ n2 s A1); [done|done|..]|lia|lia].
    + change (rank _ _) with 3%nat. lia.
    + change (rank _ _) with 3%nat. lia.
  - destruct (table_index tables (rindex tables) (lr_state c) (lr_look c)) as [[n2|]| | |]; try done; cbn [rbind] in E, St.
    + destruct (Short (table tables) n2) as [n| | |] eqn:Es; try done. cbn [rbind] in E, St.
      rewrite (drive_goto _ _ _ _ _ _ _ _ St).
      eapply steps_more; [apply (reduce_ok base F k m lex l c n next A Hd (Short_range _ _ _ Es) E)|..]; lia.
    + rewrite D in St. destruct (Z.ltb_spec 0 (lr_err c)).
      * rewrite (drive_goto _ _ _ _ _ _ _ _ St).
        eapply steps_more; [eapply (recover_ok base F k m lex l c _ next A); try done; lia|lia|lia].
      * rewrite (drive_return _ _ _ _ _ _ _ _ St).
        destruct (obey_cases (yyparse_loop F tables dummy_pos) m lex (SAVE l)) as (_ & _ & _ & _ & _ & ->).
        destruct error_function as [x|]; [injection E as <-; right; by exists (SAVE l)|].
        destruct F as [|F]; [by left; split; [|lia]|]. rewrite loop_error. destruct (at_RESTORE base l c _ _ A Hp) as [_ A'].
        eapply steps_more; [eapply (recover_ok base F 13 m lex _ c _ next A'); try done; lia|lia|lia].
Qed.

Lemma RESTORE_symb env a b :
  RESTORE (set_symb env a b) = with_env (RESTORE env) (set_symb env a b).
Proof.
  unfold RESTORE, with_env. cbn [l_state l_sp l_errflag].
  change (state (set_symb env a b)) with (state env). change (sp (set_symb env a b)) with (sp env).
  by change (errflag (set_symb env a b)) with (errflag env).
Qed.

(** the token read *)
Lemma read_token_ok base l c t k v :
  simulates base l c -> token_code tables t = Ok (k, v) ->
  exists env', read_token tables (tok_heap t) (set_symb (SAVE l) (tok_start t) (tok_end t)) (tok t) = Ok env' /\
    simulates base (with_env (RESTORE (set_symb (SAVE l) (tok_start t) (tok_end t))) env')
      (LR (lr_stack c) (lr_state c) k v (tok_start t) (tok_end t) (lr_err c)).
Proof.
  intros A E. assert (Hp : 0 <= zlen (lr_stack c) - 1 < 2 ^ 31).
  { pose proof (st_depth _ _ _ (at_stacks _ _ _ _ _ A)) as [D1 D2]. unfold zlen. lia. }
  destruct (at_RESTORE base l c _ _ A Hp) as [R A'].
  assert (G : forall cc, Int_val cc = k -> simulates base
    (with_env (RESTORE (set_symb (SAVE l) (tok_start t) (tok_end t)))
       (set_token (set_symb (SAVE l) (tok_start t) (tok_end t)) cc v))
    (LR (lr_stack c) (lr_state c) k v (tok_start t) (tok_end t) (lr_err c))).
  { intros cc Hc. rewrite RESTORE_symb, R in *. destruct A' as [A1 A2 A3 A4 A5 A6].
    split; try done. by eapply stacks_same, A1. }
  clear R A'. revert G. generalize (RESTORE (set_symb (SAVE l) (tok_start t) (tok_end t))). intros l' G.
  unfold token_code, read_token in *. destruct (Is_long (tok t)).
  - apply rbind_Ok in E as (cc & -> & E). injection E as Ek <-. cbn [rbind]. eexists. split; [done|by apply G].
  - apply rbind_Ok in E as (tg & -> & E). cbn [rbind]. apply rbind_Ok in E as (cc & -> & E). cbn [rbind].
    apply rbind_Ok in E as (v' & -> & E). injection E as Ek <-. cbn [rbind]. eexists. split; [done|by apply G].
Qed.

Lemma step_ok base F k m lex l c next :
  simulates base l c -> zlen (lr_stack c) + 1 < 2 ^ 30 -> lr_step tables base c lex = Ok next ->
  (rank (lr_look c) (lr_err c) <= k)%nat ->
  steps_to base F k 4 (drive F k m lex Loop l) next.
Proof.
  intros A Hd E Hk. pose proof A as [S0 B [C C'] [D D'] Lk G].
  pose proof (rank_ge (lr_look c) (lr_err c)) as Hr. destruct k as [|k]; [lia|].
  unfold lr_step in E. pose proof (eq_refl (engine_step tables Loop l)) as St.
  unfold engine_step at 2 in St. rewrite Lk, C in St.
  destruct (Short (defred tables) (lr_state c)) as [n| | |] eqn:En; try done. cbn [rbind] in E, St.
  destruct (Z.eqb_spec n 0) as [->|Hn]; cbn [negb] in E, St.
  - destruct (Z.leb_spec 0 (lr_look c)) as [Hl|Hl].
    + rewrite (drive_goto _ _ _ _ _ _ _ _ St).
      eapply steps_more; [eapply (act_ok base F k m lex l c next A Hd E)|lia|lia].
      unfold rank in Hk. destruct (Z.ltb_spec (lr_look c) 0); [lia|]. destruct (Z.ltb_spec (lr_err c) 3); lia.
    + rewrite (drive_return _ _ _ _ _ _ _ _ St).
      destruct (obey_cases (yyparse_loop F tables dummy_pos) m lex (SAVE l)) as (-> & _).
      destruct (lexer lex) as [[t|x] lex']; [|injection E as <-; right; by exists (SAVE l)].
      destruct (token_code tables t) as [[kc v]| | |] eqn:Et; try done. cbn [rbind] in E.
      destruct (read_token_ok base l c t kc v A Et) as (env' & Er & A').
      destruct F as [|F]; [by left; split; [|lia]|]. rewrite (loop_read _ _ _ _ _ _ Er).
      eapply steps_more; [eapply (act_ok base F 13 (tok_heap t) lex' _ _ next A'); [done|done|lia]|lia|lia].
  - rewrite (drive_goto _ _ _ _ _ _ _ _ St).
    eapply steps_more; [eapply (reduce_ok base F k m lex l c n next A Hd (Short_range _ _ _ En) E)|..]; lia.
Qed.

(** ** Runs *)

Lemma discard_shorter base rstack : forall r s,
  lr_discard tables base rstack = Ok (Some (r, s)) -> (length r <= length rstack)%nat.
Proof.
  induction rstack as [|e below IH]; intros r s; [done|]. cbn [lr_discard].
  intros ([s'|] & _ & E)%rbind_Ok; [by injection E as <- <-|].
  revert E. case_if Q; [done|]. intros H%IH. cbn. lia.
Qed.

(** the entries after a step *)
Definition entries_after (next : lr_next) : nat :=
  match next with Lr_goes c _ => length (lr_stack c) | Lr_ends _ _ => 0 end.

Lemma recover_grows base c lex next :
  lr_recover tables base c lex = Ok next -> (entries_after next <= S (length (lr_stack c)))%nat.
Proof.
  unfold lr_recover. case_if Q.
  - intros ([[r s]|] & E & [= <-])%rbind_Ok; cbn; [|lia]. apply discard_shorter in E.
    rewrite length_reverse in E. rewrite length_app, length_reverse. cbn. lia.
  - case_if R; intros [= <-]; cbn; lia.
Qed.

Lemma reduce_grows base n c lex next :
  lr_reduce tables base n c lex = Ok next -> (entries_after next <= S (length (lr_stack c)))%nat.
Proof.
  unfold lr_reduce. intros (m & _ & (lh & _ & E)%rbind_Ok)%rbind_Ok. revert E. case_if Q; [done|].
  destruct (reverse (take _ _)); [done|]. destruct (reverse (lr_stack c)); [done|].
  intros (s & _ & E)%rbind_Ok. revert E. destruct (action n m (lr_stack c)); [|case_if R; [done|]|]; [| |].
  - intros [= <-]. cbn. rewrite length_app, length_take. cbn. lia.
  - intros E%recover_grows. cbn [lr_stack] in E. rewrite length_take in E. lia.
  - intros [= <-]. cbn. lia.
Qed.

Lemma act_grows base c lex next :
  lr_act tables base c lex = Ok next -> (entries_after next <= S (length (lr_stack c)))%nat.
Proof.
  unfold lr_act. intros ([s|] & _ & E)%rbind_Ok.
  - injection E as <-. cbn. rewrite length_app. cbn. lia.
  - apply rbind_Ok in E as ([n2|] & _ & E); [apply rbind_Ok in E as (n & _ & E); by apply reduce_grows in E|].
    revert E. case_if Q; [apply recover_grows|]. destruct error_function; [by intros [= <-]; cbn; lia|apply recover_grows].
Qed.

Lemma step_grows base c lex next :
  lr_step tables base c lex = Ok next -> (entries_after next <= S (length (lr_stack c)))%nat.
Proof.
  unfold lr_step. intros (n & _ & E)%rbind_Ok. revert E. case_if Q; [apply reduce_grows|].
  case_if R; [apply act_grows|]. destruct (lexer lex) as [[t|x] lex']; [|intros [= <-]; cbn; lia].
  intros ([k v] & _ & E)%rbind_Ok. by apply act_grows in E.
Qed.

Lemma run_ok base n : forall F k m lex l c x lex',
  simulates base l c -> zlen (lr_stack c) + Z.of_nat n < 2 ^ 30 -> lr_run n tables base c lex = Ok (x, lex') ->
  (rank (lr_look c) (lr_err c) <= k)%nat -> (4 * n <= F)%nat ->
  exists env, drive F k m lex Loop l = Ok (x, env, lex').
Proof.
  induction n as [|n IH]; intros F k m lex l c x lex' A Hd E Hk HF; [done|]. cbn [lr_run] in E.
  apply rbind_Ok in E as (next & Es & E). pose proof (step_grows _ _ _ _ Es) as Hg.
  destruct (step_ok base F k m lex l c next A ltac:(lia) Es Hk) as [[_ ?]|St]; [lia|].
  destruct next as [c1 lex1|x1 lex1]; [|injection E as <- <-; exact St].
  destruct St as (F' & k' & m' & l' & -> & HF' & _ & A' & Hk'). cbn in Hg.
  apply (IH F' k' m' lex1 l' c1); [done|unfold zlen in *; lia|done|done|lia].
Qed.

Lemma parse_engine_ok m env start curr_p lex p base0 n x lex' :
  let stk := take (S p) (entries env) in
  stacks_ok env stk base0 -> sp env = Val_int (Z.of_nat p) -> length stk = S p ->
  lr_run n tables (S p) (LR stk 0 (Int_val start) (lval env) (symb_start env) curr_p 0) lex = Ok (x, lex') ->
  Z.of_nat p + Z.of_nat n + 1 < 2 ^ 30 ->
  exists env', yyparse (4 * n + 1) tables dummy_pos m env start curr_p lex = Ok (x, env', lex') /\
    sp env' = sp env /\ stackbase env' = stackbase env /\ state env' = state env /\
    errflag env' = errflag env /\ asp env' = asp env /\ lval env' = lval env /\ curr_char env' = curr_char env.
Proof.
  intros stk S0 Hsp Hl E Hd. unfold yyparse. cbn zeta.
  set (env0 := ParserEnv _ _ _ _ _ _ _ _ _ _ _ _ _ _ _ _). rewrite Nat.add_1_r.
  rewrite (loop_goto _ _ _ _ _ _ Loop (Locals env0 0 (Z.of_nat p) 0)).
  2:{ rewrite entry_cmd by done. change (START =? START) with true. cbn iota.
      change (sp env0) with (sp env). by rewrite Hsp, Int_val_int, u64_id by solve_word. }
  edestruct (run_ok (S p) n (4 * n) 13 m lex (Locals env0 0 (Z.of_nat p) 0)) as (env' & ->);
    [|  |exact E|apply rank_le|lia|].
  - split; try done; [|cbn; unfold zlen; lia].
    destruct S0 as [S1 [_ S2] S3 S4]. split; try done. cbn [env0 stackbase l_env].
    rewrite Hsp. change Val_int with Val_long. rewrite Long_val_long_id by solve_word.
    split; [f_equal|]; lia.
  - cbn. unfold zlen. lia.
  - cbn [rbind]. eexists. split; [done|done].
Qed.

(** the lexer returns a value that is not a token *)
Definition unreadable (c : lr_config) (lex : L) : Prop := Short (defred tables) (lr_state c) = Ok 0 /\ lr_look c < 0 /\
  exists t lex', lexer lex = (Read t, lex') /\ forall kv, token_code tables t <> Ok kv.

Lemma unreadable_stops base l c F k m lex out : simulates base l c -> unreadable c lex -> drive F k m lex Loop l <> Ok out.
Proof.
  intros A (En & Hl & t & lex' & El & Ht) E. pose proof A as [S0 B [C C'] [D D'] Lk G]. destruct k as [|k]; [done|].
  pose proof (eq_refl (engine_step tables Loop l)) as St. unfold engine_step at 2 in St. rewrite Lk, C, En in St. cbn [rbind] in St.
  change (negb (0 =? 0)) with false in St. cbn iota in St. destruct (Z.leb_spec 0 (lr_look c)); [lia|]. rewrite (drive_return _ _ _ _ _ _ _ _ St) in E.
  destruct (obey_cases (yyparse_loop F tables dummy_pos) m lex (SAVE l)) as (Eo & _). rewrite Eo, El in E. destruct F as [|F]; [done|]. cbn [yyparse_loop] in E.
  unfold caml_parse_engine in E. rewrite entry_cmd in E by done. change (TOKEN_READ =? START) with false in E. change (TOKEN_READ =? TOKEN_READ) with true in E. cbn iota in E.
  apply rbind_Ok in E as (? & E & _). apply rbind_Ok in E as (? & E & _). apply rbind_Ok in E as (env' & E & _). unfold read_token, token_code in *.
  destruct (Is_long (tok t)).
  - apply rbind_Ok in E as (cc & Ec & _). apply (Ht (Int_val cc, Val_long 0)). by rewrite Ec.
  - apply rbind_Ok in E as (tg & Et & E). apply rbind_Ok in E as (cc & Ec & E). apply rbind_Ok in E as (v & Ev & _).
    apply (Ht (Int_val cc, v)). by rewrite Et; cbn [rbind]; rewrite Ec; cbn [rbind]; rewrite Ev.
Qed.

(** the automaton makes a step in each configuration of [Inv], unless the token is not one *)
Definition live (base : nat) (Inv : lr_config -> L -> Prop) : Prop := forall c lex, Inv c lex -> unreadable c lex \/
  exists next, lr_step tables base c lex = Ok next /\ match next with Lr_goes c' lex' => Inv c' lex' | Lr_ends _ _ => True end.

(** what the engine answers, the automaton answers *)
Lemma run_back base Inv : live base Inv -> forall n F k m lex l c x env lex', (14 * F + k < n)%nat ->
  simulates base l c -> zlen (lr_stack c) + Z.of_nat n < 2 ^ 30 -> Inv c lex -> (rank (lr_look c) (lr_err c) <= k)%nat ->
  drive F k m lex Loop l = Ok (x, env, lex') -> exists i, (i <= n)%nat /\ lr_run i tables base c lex = Ok (x, lex').
Proof.
  intros Hlive. induction n as [|n IH]; intros F k m lex l c x env lex' Hn A Hd Hi Hk E; [lia|].
  destruct (Hlive c lex Hi) as [Hu|(next & Es & Hi')]; [by apply (unreadable_stops base l c F k m lex) in E|].
  pose proof (step_grows _ _ _ _ Es) as Hg. destruct (step_ok base F k m lex l c next A ltac:(lia) Es Hk) as [[E' _]|St]; [by rewrite E in E'|].
  destruct next as [c1 lex1|x1 lex1].
  - destruct St as (F' & k' & m' & l' & E' & _ & Hm & A' & Hk'). rewrite E' in E. cbn in Hg.
    destruct (IH F' k' m' lex1 l' c1 x env lex') as (i & Hin & Ei); [lia|done|unfold zlen in *; lia|done|done|done|].
    exists (S i). split; [lia|]. cbn [lr_run]. by rewrite Es.
  - destruct St as (env' & E'). rewrite E in E'. injection E' as -> _ ->. exists 1%nat. split; [lia|]. cbn [lr_run]. by rewrite Es.
Qed.

Lemma parse_engine_back Inv m env start curr_p lex p base0 n x env' lex' :
  let stk := take (S p) (entries env) in
  stacks_ok env stk base0 -> sp env = Val_int (Z.of_nat p) -> length stk = S p -> live (S p) Inv ->
  Inv (LR stk 0 (Int_val start) (lval env) (symb_start env) curr_p 0) lex -> Z.of_nat p + 14 * Z.of_nat n + 15 < 2 ^ 30 ->
  yyparse n tables dummy_pos m env start curr_p lex = Ok (x, env', lex') ->
  exists i, lr_run i tables (S p) (LR stk 0 (Int_val start) (lval env) (symb_start env) curr_p 0) lex = Ok (x, lex').
Proof.
  intros stk S0 Hsp Hl Hlive Hi Hd E. unfold yyparse in E. cbn zeta in E. revert E. set (env0 := ParserEnv _ _ _ _ _ _ _ _ _ _ _ _ _ _ _ _). intros E.
  apply rbind_Ok in E as ([[x1 env1] lex1] & E & [= -> _ ->]). destruct n as [|n]; [done|].
  rewrite (loop_goto _ _ _ _ _ _ Loop (Locals env0 0 (Z.of_nat p) 0)) in E.
  2:{ rewrite entry_cmd by done. change (START =? START) with true. cbn iota.
      change (sp env0) with (sp env). by rewrite Hsp, Int_val_int, u64_id by solve_word. }
  destruct (run_back (S p) Inv Hlive (14 * n + 14) n 13 m lex (Locals env0 0 (Z.of_nat p) 0)
    (LR stk 0 (Int_val start) (lval env) (symb_start env) curr_p 0) x env1 lex') as (i & _ & Ei);
    [lia| |cbn [lr_stack]; unfold zlen; lia|done|apply rank_le|done|by exists i].
  split; try done; [|cbn; unfold zlen; lia]. destruct S0 as [S1 [_ S2] S3 S4]. split; try done. cbn [env0 stackbase l_env].
  rewrite Hsp. change Val_int with Val_long. rewrite Long_val_long_id by solve_word. split; [f_equal|]; lia.
Qed.

(** C19: [yyparse] with the engine implements the LR automaton on an unbounded list: for
    stacks of any size (they hold at least the entry under the parse), when the automaton
    ends after [n] steps, by the exception of a semantic action (which carries the result),
    by one of the lexer or of the error function, or by a syntax error from which no state
    recovers, [4 n + 1] calls of the engine end the same way, with the same tokens read;
    and the registers that a parse changes are those of its caller again.  The reductions,
    the default reductions and gotos, the positions of the attributes, the shifts of the
    error token and the tokens discarded are those of the list, whenever the stacks grow. *)
Theorem parse_engine_refines_lr m env start curr_p lex p base0 n x lex' :
  let stk := take (S p) (entries env) in
  stacks_ok env stk base0 -> sp env = Val_int (Z.of_nat p) -> length stk = S p ->
  lr_run n tables (S p) (LR stk 0 (Int_val start) (lval env) (symb_start env) curr_p 0) lex = Ok (x, lex') ->
  Z.of_nat p + Z.of_nat n + 1 < 2 ^ 30 ->
  exists env', yyparse (4 * n + 1) tables dummy_pos m env start curr_p lex = Ok (x, env', lex') /\
    sp env' = sp env /\ stackbase env' = stackbase env /\ state env' = state env /\
    errflag env' = errflag env /\ asp env' = asp env /\ lval env' = lval env /\ curr_char env' = curr_char env.
Proof. exact (parse_engine_ok m env start curr_p lex p base0 n x lex'). Qed.

End Driver.

(** ** A parser: [entry: START e], [e: A], and the tokens 0 for the end and 2 for A *)

Definition demo_parser : parser_tables := ParserTables
  [Val_int 0; Val_int 2] [] (shorts [0; 0; 1]) (shorts [0; 2; 1]) (shorts [0; 0; 2; 1]) (shorts [0; 3])
  (shorts [1; 1; 0; 0]) (shorts [0; 0; 0; 0]) (shorts [0; 0]) (Val_int 4)
  (shorts [0; 0; 1; 2; 0]) (shorts [-1; -1; 1; 2; -1]).

Definition demo_lexer (ts : list lexeme) : lexer_result * list lexeme :=
  match ts with t :: ts => (Read t, ts) | [] => (Read (Lexeme ∅ (Val_int 0) 0 0), []) end.

(** the attribute of [e] is where it starts; the parse returns it *)
Definition demo_action (rule m : Z) (stk : list entry) : action_result :=
  match last stk with
  | Some e => if rule =? 1 then Action_raised (e_val e) else Computed (e_start e)
  | None => Action_parse_error
  end.

(** stacks with one entry *)
Definition demo_env : parser_env :=
  ParserEnv [Val_int 0] [Val_unit] [0] [0] (Val_long 1) (Val_int 0) (Val_int 0) Val_unit 0 0
    (Val_int 0) (Val_int 0) (Val_int 0) (Val_int 0) (Val_int 0) (Val_int 0).

Definition token_a : lexeme := Lexeme ∅ (Val_int 1) 41 43.

Lemma parse_engine_refines_lr_witness :
  exists env', yyparse demo_lexer demo_action None 41 demo_parser 0 ∅ demo_env (Val_int 1) 0 [token_a]
    = Ok (Raised 41, env', []) /\ sp env' = Val_int 0 /\ length (s_stack env') = 4%nat.
Proof.
  destruct (parse_engine_refines_lr demo_lexer demo_action None demo_parser 0 ∅ demo_env (Val_int 1) 0 [token_a]
    0 0 10 (Raised 41) []) as (env' & E & S & _).
  - split.
    + exists 1%nat. split_and!; (reflexivity || (vm_compute; congruence) || (vm_compute; lia)).
    + split; [reflexivity|vm_compute; reflexivity].
    + reflexivity.
    + split; [vm_compute; lia|vm_compute; reflexivity].
  - reflexivity.
  - reflexivity.
  - vm_compute. reflexivity.
  - vm_compute. reflexivity.
  - change (4 * 10 + 1)%nat with 41%nat in E. exists env'. split; [exact E|]. split; [exact S|].
    assert (Q : (match yyparse demo_lexer demo_action None 41 demo_parser 0 ∅ demo_env (Val_int 1) 0 [token_a] with
      Ok (_, e, _) => length (s_stack e) | _ => 0%nat end) = 4%nat) by (vm_compute; reflexivity).
    rewrite E in Q. exact Q.
Defined.

(** ** Errors raised by the action of an empty rule *)

(** the state 0 reduces by the empty rule 1; only the state 2 shifts the error token *)
Definition empty_rule_parser : parser_tables := ParserTables
  [] [] (shorts [0; 0]) (shorts [0; 0]) (shorts [1; 0; 0]) (shorts [1]) (shorts [0; 0; -250])
  (shorts [0; 0; 0]) (shorts [0]) (Val_int 6) (shorts [0; 0; 0; 0; 0; 0; 1]) (shorts [-1; -1; -1; -1; -1; -1; 256]).

(** the parse starts with the state [stale] left above the stack by an earlier one *)
Definition stale_env (stale : Z) : parser_env :=
  ParserEnv [Val_int 0; Val_int stale; Val_int 0] [Val_unit; Val_unit; Val_unit] [0; 0; 0] [0; 0; 0]
    (Val_long 3) (Val_int 0) (Val_int (-1)) Val_unit 0 0
    (Val_int 0) (Val_int 0) (Val_int 0) (Val_int 0) (Val_int 0) (Val_int 0).

(** the commands of the engine when the action raises [Parse_error] *)
Definition failing_action (env : parser_env) : result (Z * Z) :=
  let* (out1, env) := caml_parse_engine empty_rule_parser ∅ env (Val_int START) Val_unit in
  let* (out2, env) := caml_parse_engine empty_rule_parser ∅ env (Val_int ERROR_DETECTED) Val_unit in
  Ok (out1, out2).

(** The recovery reads the entry of the left-hand side, which the reduction has not written:
    whether the parse goes on or fails depends on what an earlier one has left there. *)
Example stale_recovery :
  failing_action (stale_env 2) = Ok (COMPUTE_SEMANTIC_ACTION, READ_TOKEN) /\
  failing_action (stale_env 0) = Ok (COMPUTE_SEMANTIC_ACTION, RAISE_PARSE_ERROR).
Proof. by vm_compute. Qed.
