(* ===== verification/Output.v ===== *)
(** * The tables of the generated parser ([ocaml/yacc/output.c])

    The tables are written in the OCaml program as string literals, two bytes for each short,
    every byte as an escape of three decimal digits.  [unescape] is what the OCaml compiler
    (parsing/lexer.mll) reads in such a literal.  A function of output.c is here the text of its literals;
    what surrounds them and the count of the lines are left out. *)

From S2P Require Import Prelude.
From S2P Require Import Mlvalues.
From S2P Require Import Grammar.
From S2P Require Import Lr0.
From S2P Require Import Lalr.
From S2P Require Import Gotos.
From S2P Require Import Lookaheads.
From S2P Require Import Mkpar.
From S2P Require Import Packing.
From S2P Require Import Vectors.
From S2P Require Import Lexing.
From S2P Require Import Parsing.
#[local] Open Scope Z_scope.

(** ** The text *)

Definition output_char (n : Z) : list Z :=
  let n := Z.land n 255 in [92; 48 + n / 100; 48 + (n / 10) mod 10; 48 + n mod 10].

Definition output_short (n : Z) : list Z := output_char n ++ output_char (Z.shiftr n 8).

(** the shorts after the first one: eight on a line, a backslash at its end *)
Fixpoint output_line (j : Z) (l : list Z) : list Z :=
  match l with
  | [] => []
  | n :: l => if 8 <=? j then [92; 10] ++ output_short n ++ output_line 1 l
              else output_short n ++ output_line (j + 1) l
  end.

Definition output_shorts (first : Z) (rest : list Z) : list Z := output_short first ++ output_line 8 rest.

(** the values of [f] from [i] on *)
Fixpoint collect (n : nat) (i : Z) (f : Z -> result Z) : result (list Z) :=
  match n with
  | O => Ok []
  | S n => let* x := f i in let* l := collect n (i + 1) f in Ok (x :: l)
  end.

(** [yylhs] and [yylen] *)
Definition output_rule_data (g : grammar) (symbol_value : list Z) : result (list Z * list Z) :=
  let k := Z.to_nat (nrules g - 3) in
  let* s := rd symbol_value (start_symbol g) in
  let* l := collect k 3 (fun i => let* A := rd (rlhs (tab g)) i in rd symbol_value A) in
  let* m := collect k 3 (fun i => let* a := rd (rrhs (tab g)) (i + 1) in let* b := rd (rrhs (tab g)) i in Ok (a - b - 1)) in
  Ok (output_shorts s l, output_shorts 2 m).

Definition output_yydefred (nstates : Z) (defred : list Z) : result (list Z) :=
  let value i := let* d := rd defred i in Ok (if d =? 0 then 0 else d - 2) in
  let* first := value 0 in
  let* l := collect (Z.to_nat (nstates - 1)) 1 value in
  Ok (output_shorts first l).

(** [yydgoto], written by [goto_actions] *)
Definition output_dgoto (dgoto : list Z) : result (list Z) :=
  let* first := rd dgoto 0 in
  Ok (output_shorts first (drop 1 dgoto)).

(** the elements of [a] from [first] on, before [last] *)
Definition output_slice (a : list Z) (first last : Z) : result (list Z) :=
  let* x := rd a first in
  let* l := collect (Z.to_nat (last - (first + 1))) (first + 1) (rd a) in
  Ok (output_shorts x l).

(** [yysindex], [yyrindex] and [yygindex] *)
Definition output_base (nstates nvectors : Z) (base : list Z) : result (list Z * list Z * list Z) :=
  let* s := output_slice base 0 nstates in
  let* r := output_slice base nstates (2 * nstates) in
  let* g := output_slice base (2 * nstates) (nvectors - 1) in
  Ok (s, r, g).

Definition output_table (p : packing) : result (list Z) := output_slice (Packing.table p) 0 (high p + 1).
Definition output_check (p : packing) : result (list Z) := output_slice (Packing.check_ p) 0 (high p + 1).

(** the codes of the true tokens, of those without argument and of those with one *)
Fixpoint output_transl (n : nat) (i : Z) (symbol_value : list Z) (symbol_true_token symbol_tag : list bool) (tagged : bool) : result (list Z) :=
  match n with
  | O => Ok [0]
  | S n =>
      let* t := rd symbol_true_token i in
      let* l := output_transl n (i + 1) symbol_value symbol_true_token symbol_tag tagged in
      if t then
        let* tag := rd symbol_tag i in
        let* v := rd symbol_value i in
        Ok (if Bool.eqb tag tagged then v :: l else l)
      else Ok l
  end.

(** ** The program *)

Definition is_digit (c : Z) : bool := (48 <=? c) && (c <=? 57).

(** the characters of a string literal of OCaml: the blanks after an escaped end of line are
    skipped; the escapes that the tables do not have are left out *)
Fixpoint unescape (after_newline : bool) (l : list Z) : option (list Z) :=
  match l with
  | [] => Some []
  | c :: l =>
      if after_newline && ((c =? 32) || (c =? 9)) then unescape true l
      else if c =? 92 then
        match l with
        | d1 :: l =>
            if d1 =? 10 then unescape true l else
            match l with
            | d2 :: d3 :: l =>
                let code := 100 * (d1 - 48) + 10 * (d2 - 48) + (d3 - 48) in
                if is_digit d1 && is_digit d2 && is_digit d3 && (code <=? 255) then cons code <$> unescape false l else None
            | _ => None
            end
        | [] => None
        end
      else cons c <$> unescape false l
  end.

(** the record [yytables] *)
Definition generated_tables (g : grammar) (symbol_value : list Z) (symbol_true_token symbol_tag : list bool) (info : parser_info)
    (gs : gotos) : result parser_tables :=
  let nstates := zlen (parser info) in
  let* (p, dgoto) := output_actions g symbol_value info gs in
  let* tc := output_transl (Z.to_nat (ntokens g)) 0 symbol_value symbol_true_token symbol_tag false in
  let* tb := output_transl (Z.to_nat (ntokens g)) 0 symbol_value symbol_true_token symbol_tag true in
  let* (lhs, len) := output_rule_data g symbol_value in
  let* defred := output_yydefred nstates (Mkpar.defred info) in
  let* dgoto := output_dgoto dgoto in
  let* (sindex, rindex, gindex) := output_base nstates (2 * nstates + nvars g) (base p) in
  let* table := output_table p in
  let* chk := output_check p in
  let string l := of_option (unescape false l) in
  let* lhs := string lhs in
  let* len := string len in
  let* defred := string defred in
  let* dgoto := string dgoto in
  let* sindex := string sindex in
  let* rindex := string rindex in
  let* gindex := string gindex in
  let* table := string table in
  let* chk := string chk in
  Ok (ParserTables (map Val_int tc) (map Val_int tb) lhs len defred dgoto sindex rindex gindex (Val_int (high p)) table chk).

(** ** What the compiler reads *)

Definition short_bytes (n : Z) : list Z := [Z.land n 255; Z.land (Z.shiftr n 8) 255].
Definition bytes_of (l : list Z) : list Z := concat (map short_bytes l).

Lemma land_255 n : Z.land n 255 = n mod 256.
Proof. change 255 with (Z.ones 8). by rewrite Z.land_ones by lia. Qed.

Lemma unescape_char b n rest : unescape b (output_char n ++ rest) = cons (Z.land n 255) <$> unescape false rest.
Proof.
  unfold output_char. assert (Hr : 0 <= Z.land n 255 < 256) by (rewrite land_255; zlia). set (x := Z.land n 255) in *.
  cbn [app unescape]. change ((92 =? 32) || (92 =? 9)) with false. rewrite andb_false_r. change (92 =? 92) with true. cbn iota. destruct (Z.eqb_spec (48 + x / 100) 10); [zlia|].
  replace (100 * (48 + x / 100 - 48) + 10 * (48 + (x / 10) mod 10 - 48) + (48 + x mod 10 - 48)) with x by zlia. cbv zeta.
  assert (D : is_digit (48 + x / 100) && is_digit (48 + (x / 10) mod 10) && is_digit (48 + x mod 10) && (x <=? 255) = true).
  { unfold is_digit. rewrite !andb_true_iff, !Z.leb_le. split_and!; zlia. }
  by rewrite D.
Qed.

Lemma unescape_short b n rest : unescape b (output_short n ++ rest) = app (short_bytes n) <$> unescape false rest.
Proof. unfold output_short. rewrite <- app_assoc, !unescape_char. by destruct (unescape false rest). Qed.

Lemma unescape_line l : forall b j, unescape b (output_line j l) = Some (bytes_of l).
Proof.
  induction l as [|n l IH]; intros b j; cbn [output_line]; [done|]. unfold bytes_of in *. cbn [map concat].
  destruct (8 <=? j).
  - cbn [app unescape]. change ((92 =? 32) || (92 =? 9)) with false. rewrite andb_false_r. change (92 =? 92) with true. change (10 =? 10) with true. cbn iota. by rewrite unescape_short, IH.
  - by rewrite unescape_short, IH.
Qed.

Lemma unescape_shorts x l : unescape false (output_shorts x l) = Some (bytes_of (x :: l)).
Proof. unfold output_shorts. rewrite unescape_short, unescape_line. done. Qed.

Lemma Short_bytes l i x : rd l i = Ok x -> - 2 ^ 15 <= x < 2 ^ 15 -> Short (bytes_of l) i = Ok x.
Proof.
  intros [Hi E]%rd_Ok Hx. unfold Short. assert (B : forall k, (k < 2)%nat -> rd (bytes_of l) (2 * i + Z.of_nat k) = of_option (short_bytes x !! k)).
  { intros k Hk. assert (E1 : bytes_of l !! Z.to_nat (2 * i + Z.of_nat k) = short_bytes x !! k).
    { replace (Z.to_nat (2 * i + Z.of_nat k)) with (2 * Z.to_nat i + k)%nat by lia. clear Hi. revert E. generalize (Z.to_nat i). clear i.
      induction l as [|y l IH]; intros [|i] E; cbn in E; try done.
      - injection E as ->. change (bytes_of (x :: l)) with (short_bytes x ++ bytes_of l). rewrite lookup_app_l by (cbn; lia). done.
      - change (bytes_of (y :: l)) with (short_bytes y ++ bytes_of l). rewrite lookup_app_r by (cbn; lia). cbn [length short_bytes].
        replace (2 * S i + k - 2)%nat with (2 * i + k)%nat by lia. by apply IH. }
    destruct k as [|[|k]]; [| |lia]; cbn in E1 |- *; apply rd_Ok; (split; [lia|done]). }
  pose proof (B 0%nat ltac:(lia)) as B0. pose proof (B 1%nat ltac:(lia)) as B1. change (2 * i + Z.of_nat 0) with (2 * i + 0) in B0. rewrite Z.add_0_r in B0.
  change (Z.of_nat 1) with 1 in B1. rewrite B0, B1. cbn. f_equal. rewrite Z.shiftr_div_pow2 by lia. rewrite !land_255. unfold s16. zlia.
Qed.

Lemma collect_ok f h n : forall i, (forall k, i <= k < i + Z.of_nat n -> f k = Ok (h k)) -> collect n i f = Ok (map h (seqZ i (Z.of_nat n))).
Proof.
  induction n as [|n IH]; intros i Hf; cbn [collect]; [done|]. rewrite Hf by lia. cbn [rbind]. rewrite IH by (intros k Hk; apply Hf; lia). cbn [rbind].
  rewrite Nat2Z.inj_succ, (seqZ_cons i) by lia. cbn [map]. unfold Z.succ. do 4 f_equal; lia.
Qed.

Lemma slice_ok a first last : 0 <= first < last -> last <= zlen a ->
  output_slice a first last = Ok (output_shorts (zget a first) (map (zget a) (seqZ (first + 1) (last - (first + 1))))).
Proof.
  intros H1 H2. unfold output_slice. rewrite rd_zget by lia. cbn [rbind]. rewrite (collect_ok _ (zget a)) by (intros k Hk; apply rd_zget; lia). cbn [rbind].
  by rewrite Z2Nat.id by lia.
Qed.

Lemma slice_text a first last : 0 <= first < last -> last <= zlen a ->
  exists t, output_slice a first last = Ok t /\ unescape false t = Some (bytes_of (map (zget a) (seqZ first (last - first)))).
Proof.
  intros H1 H2. eexists. split; [by apply slice_ok|]. rewrite unescape_shorts. do 2 f_equal. rewrite (seqZ_cons first) by lia. cbn [map]. unfold Z.succ, Z.pred. do 4 f_equal; lia.
Qed.

Lemma Short_map f a n i : 0 <= i < n -> - 2 ^ 15 <= f (a + i) < 2 ^ 15 -> Short (bytes_of (map f (seqZ a n))) i = Ok (f (a + i)).
Proof.
  intros Hi Hf. apply Short_bytes; [|done]. apply rd_map. exists (a + i). split; [|done]. apply rd_Ok. split; [lia|].
  rewrite lookup_seqZ. split; [lia|]. lia.
Qed.

Lemma Short_exists l i : 0 <= i < zlen l -> exists x, Short (bytes_of l) i = Ok x.
Proof.
  intros Hi. assert (Z : zlen (bytes_of l) = 2 * zlen l).
  { clear Hi. induction l as [|x l IH]; [done|]. change (bytes_of (x :: l)) with (short_bytes x ++ bytes_of l). rewrite zlen_app, zlen_cons, IH. unfold zlen. cbn. lia. }
  unfold Short. destruct (rd_in_range (bytes_of l) (2 * i)) as [b0 ->]; [lia|]. destruct (rd_in_range (bytes_of l) (2 * i + 1)) as [b1 ->]; [lia|]. by eexists.
Qed.

(** the numbers of the tokens that are true, with an argument or not *)
Definition true_tokens (true_token tag : list bool) (tagged : bool) (i n : Z) : list Z :=
  filter (fun t => rd true_token t = Ok true /\ rd tag t = Ok tagged) (seqZ i n).

Lemma output_transl_ok sv tt tag tagged n : forall i, 0 <= i -> i + Z.of_nat n <= zlen sv -> i + Z.of_nat n <= zlen tt -> i + Z.of_nat n <= zlen tag ->
  output_transl n i sv tt tag tagged = Ok (map (zget sv) (true_tokens tt tag tagged i (Z.of_nat n)) ++ [0]).
Proof.
  induction n as [|n IH]; intros i Hi H1 H2 H3; cbn [output_transl]; [done|]. destruct (rd_in_range tt i) as [t Et]; [lia|]. destruct (rd_in_range tag i) as [g Eg]; [lia|].
  rewrite Et. cbn [rbind]. rewrite IH by lia. cbn [rbind]. unfold true_tokens. rewrite Nat2Z.inj_succ, (seqZ_cons i) by lia. rewrite filter_cons.
  replace (Z.pred (Z.succ (Z.of_nat n))) with (Z.of_nat n) by lia. unfold Z.succ. destruct t; [|by rewrite decide_False by (rewrite Et; intros [? _]; congruence)].
  rewrite Eg. cbn [rbind]. rewrite rd_zget by lia. cbn [rbind]. destruct (Bool.eqb g tagged) eqn:E.
  - apply eqb_prop in E as ->. by rewrite decide_True by done.
  - rewrite decide_False; [done|]. intros [_ [= ->]]. by rewrite eqb_reflx in E.
Qed.

Section Generated.
Context (g : grammar) (ps : list production) (L : lays_out g ps).
Context (cores : list core) (ss : list shifts) (rs : list reductions) (Au : lr0_automaton g ps cores ss rs).
Context (pr : precedences) (info : parser_info) (Pf : parser_for g ps pr cores info).
Context (sv : list Z) (Sv : values_ok g sv) (Ap : rows_apart info sv).
Context (gs : gotos) (G : gotos_ok g cores ss gs).
Context (true_token tag : list bool) (Htt : zlen true_token = nsyms g) (Htag : zlen tag = nsyms g).

#[local] Abbreviation n := (zlen cores).
#[local] Abbreviation nvec := (2 * n + nvars g).

(** the fields of [yytables] *)
Record tables_shape (p : packing) (dg : list Z) (tables : parser_tables) : Prop := {
  ts_const : transl_const tables = map Val_int (map (zget sv) (true_tokens true_token tag false 0 (ntokens g)) ++ [0]);
  ts_block : transl_block tables = map Val_int (map (zget sv) (true_tokens true_token tag true 0 (ntokens g)) ++ [0]);
  ts_lhs : lhs tables = bytes_of (zget sv (start_symbol g) :: map (fun i => zget sv (zget (rlhs (tab g)) i)) (seqZ 3 (nrules g - 3)));
  ts_len : len tables = bytes_of (2 :: map (fun i => zget (rrhs (tab g)) (i + 1) - zget (rrhs (tab g)) i - 1) (seqZ 3 (nrules g - 3)));
  ts_defred : Parsing.defred tables = bytes_of (map (fun i => if zget (Mkpar.defred info) i =? 0 then 0 else zget (Mkpar.defred info) i - 2) (seqZ 0 n));
  ts_dgoto : Parsing.dgoto tables = bytes_of dg;
  ts_sindex : sindex tables = bytes_of (map (zget (base p)) (seqZ 0 n));
  ts_rindex : rindex tables = bytes_of (map (zget (base p)) (seqZ n n));
  ts_gindex : gindex tables = bytes_of (map (zget (base p)) (seqZ (2 * n) (nvars g - 1)));
  ts_size : tablesize tables = Val_int (high p);
  ts_table : Parsing.table tables = bytes_of (map (zget (Packing.table p)) (seqZ 0 (high p + 1)));
  ts_check : Parsing.check_ tables = bytes_of (map (zget (Packing.check_ p)) (seqZ 0 (high p + 1))) }.

Lemma rule_data_ok : 3 <= nrules g -> exists t1 t2, output_rule_data g sv = Ok (t1, t2) /\
  unescape false t1 = Some (bytes_of (zget sv (start_symbol g) :: map (fun i => zget sv (zget (rlhs (tab g)) i)) (seqZ 3 (nrules g - 3)))) /\
  unescape false t2 = Some (bytes_of (2 :: map (fun i => zget (rrhs (tab g)) (i + 1) - zget (rrhs (tab g)) i - 1) (seqZ 3 (nrules g - 3)))).
Proof.
  intros Hr. unfold output_rule_data. pose proof (Grammar.lo_start _ _ L). destruct (sv_zlen _ _ Sv) as [Zs _]. rewrite rd_zget by lia. cbn [rbind].
  assert (Zl : zlen (rlhs (tab g)) = nrules g) by (rewrite (lo_rlhs _ _ L), !zlen_cons, zlen_map, (Grammar.lo_nrules _ _ L); lia).
  assert (Zr : zlen (rrhs (tab g)) = nrules g + 1) by (rewrite (lo_rrhs _ _ L), !zlen_cons, (Grammar.lo_nrules _ _ L); unfold zlen; rewrite starts_length; lia).
  rewrite (collect_ok _ (fun i => zget sv (zget (rlhs (tab g)) i))).
  2: { intros k Hk. destruct (rule_range g ps L k) as [[A w] Hp]; [lia|]. pose proof (rule_lhs g ps L k _ Hp) as E. destruct (rule_symbols g ps L k _ Hp) as [HA _].
       rewrite rd_zget in E |- * by lia. injection E as E. cbn [rbind]. cbn in E, HA. apply rd_zget. lia. }
  cbn [rbind]. rewrite (collect_ok _ (fun i => zget (rrhs (tab g)) (i + 1) - zget (rrhs (tab g)) i - 1)) by (intros k Hk; rewrite !rd_zget by lia; done).
  cbn [rbind]. eexists _, _. split; [done|]. rewrite !unescape_shorts, Z2Nat.id by lia. done.
Qed.

Lemma defred_range q : 0 <= q < n -> exists row d, rd (parser info) q = Ok row /\ rd (Mkpar.defred info) q = Ok d /\ d = zget (Mkpar.defred info) q /\ 0 <= d < nrules g.
Proof.
  intros Hq. destruct (rd_in_range (parser info) q) as [row Er]; [by rewrite (pf_states _ _ _ _ _ Pf)|].
  destruct (pf_default _ _ _ _ _ Pf q row Er) as (d & Ed & Hd & _). exists row, d. split; [done|]. split; [done|]. split; [|done].
  apply rd_range in Ed as Hr. rewrite rd_zget in Ed by done. by injection Ed.
Qed.

Lemma defred_text : 0 < n -> exists t, output_yydefred n (Mkpar.defred info) = Ok t /\
  unescape false t = Some (bytes_of (map (fun i => if zget (Mkpar.defred info) i =? 0 then 0 else zget (Mkpar.defred info) i - 2) (seqZ 0 n))).
Proof.
  intros Hn. unfold output_yydefred. assert (R : forall i, 0 <= i < n -> rd (Mkpar.defred info) i = Ok (zget (Mkpar.defred info) i)).
  { intros i Hi. destruct (defred_range i Hi) as (_ & d & _ & E & <- & _). exact E. }
  cbv zeta. rewrite R by lia. cbn [rbind].
  rewrite (collect_ok _ (fun i => if zget (Mkpar.defred info) i =? 0 then 0 else zget (Mkpar.defred info) i - 2)) by (intros k Hk; by rewrite R by lia).
  cbn [rbind]. eexists. split; [done|]. rewrite unescape_shorts, Z2Nat.id by lia. do 2 f_equal. rewrite (seqZ_cons 0) by lia. cbn [map]. unfold Z.succ, Z.pred. do 3 f_equal; lia.
Qed.

Lemma generated_ok : nvec <= MAXSHORT + 1 -> 1 < nvars g -> 3 <= nrules g ->
  (exists p dg tables, generated_tables g sv true_token tag info gs = Ok tables /\ packed_for g ps cores info sv p dg /\ tables_shape p dg tables) \/
  (generated_tables g sv true_token tag info gs = Raise (Failure "maximum table size exceeded") /\ table_too_short g cores info sv gs).
Proof.
  intros Hm Hv Hr. unfold generated_tables. cbv zeta. destruct (output_actions_ok g ps L cores ss rs Au pr info Pf sv Sv Ap gs G Hm) as [(p & dg & -> & Hp)|[-> Hf]]; [left|by right].
  cbn [rbind]. destruct (po_sizes _ _ _ _ _ _ _ Hp) as (Zb & Zc & Hh & _ & Zd). pose proof (Grammar.lo_start _ _ L) as Hst. destruct (sv_zlen _ _ Sv) as [Zs _].
  assert (Hn : 0 < n) by (pose proof (la_start _ _ _ _ _ Au) as H; apply rd_range in H; rewrite zlen_kernels in H; lia).
  rewrite !output_transl_ok by (unfold ntokens; lia). cbn [rbind]. destruct (rule_data_ok Hr) as (t1 & t2 & -> & U1 & U2). cbn [rbind].
  rewrite (pf_states _ _ _ _ _ Pf). destruct (defred_text Hn) as (t3 & -> & U3). cbn [rbind].
  destruct dg as [|d0 dg]; [rewrite zlen_nil in Zd; lia|]. unfold output_dgoto. change (rd (d0 :: dg) 0) with (@Ok Z d0). change (drop 1 (d0 :: dg)) with dg. cbn [rbind].
  pose proof (unescape_shorts d0 dg) as U4. unfold output_base, output_table, output_check.
  destruct (slice_text (base p) 0 n) as (t5 & -> & U5); [lia|lia|]. cbn [rbind]. destruct (slice_text (base p) n (2 * n)) as (t6 & -> & U6); [lia|lia|]. cbn [rbind].
  destruct (slice_text (base p) (2 * n) (nvec - 1)) as (t7 & -> & U7); [lia|lia|]. cbn [rbind].
  destruct (slice_text (Packing.table p) 0 (high p + 1)) as (t8 & -> & U8); [lia|lia|]. cbn [rbind].
  destruct (slice_text (Packing.check_ p) 0 (high p + 1)) as (t9 & -> & U9); [lia|lia|]. cbn [rbind].
  rewrite U1, U2, U3, U4, U5, U6, U7, U8, U9. cbn [of_option rbind]. exists p, (d0 :: dg). eexists. split; [done|]. split; [done|].
  rewrite Z2Nat.id by (unfold ntokens; lia). rewrite !Z.sub_0_r. replace (2 * n - n) with n by lia. replace (nvec - 1 - 2 * n) with (nvars g - 1) by lia. by constructor.
Qed.

Context (p : packing) (dg : list Z) (Hp : packed_for g ps cores info sv p dg) (tables : parser_tables) (Ts : tables_shape p dg tables).

(** the tables have an entry there *)
Definition present (v x : Z) : Prop := zget (base p) v <> 0 /\ 0 <= zget (base p) v + x <= high p /\ zget (Packing.check_ p) (zget (base p) v + x) = x.

#[local] Instance present_dec v x : Decision (present v x).
Proof. unfold present. apply _. Defined.

Lemma check_at i : 0 <= i <= high p -> Short (Parsing.check_ tables) i = Ok (zget (Packing.check_ p) i).
Proof.
  intros Hi. destruct (po_sizes _ _ _ _ _ _ _ Hp) as (_ & _ & Hh & _ & _). pose proof (po_check _ _ _ _ _ _ _ Hp i ltac:(lia)) as Hc.
  rewrite (ts_check _ _ _ Ts), (Short_map _ 0); [by rewrite Z.add_0_l|lia|rewrite Z.add_0_l; unfold MAXSHORT in *; lia].
Qed.

Lemma table_at i : 0 <= i <= high p -> - 2 ^ 15 <= zget (Packing.table p) i < 2 ^ 15 -> Short (Parsing.table tables) i = Ok (zget (Packing.table p) i).
Proof. intros Hi Hr. rewrite (ts_table _ _ _ Ts), (Short_map _ 0); [by rewrite Z.add_0_l|lia|by rewrite Z.add_0_l]. Qed.

Lemma high_size : Int_val (tablesize tables) = high p.
Proof.
  rewrite (ts_size _ _ _ Ts). destruct (po_sizes _ _ _ _ _ _ _ Hp) as (_ & _ & Hh & Ht & _). apply Int_val_int. unfold is_s32, MAXTABLE in *. lia.
Qed.

Lemma table_index_ok idx i v x : Short idx i = Ok (zget (base p) v) ->
  table_index tables idx i x = Ok (if decide (present v x) then Some (zget (base p) v + x) else None).
Proof.
  intros Ei. unfold table_index, present. rewrite Ei. cbn [rbind]. rewrite high_size.
  destruct (Z.eqb_spec (zget (base p) v) 0); cbn [negb andb]; [by rewrite decide_False by tauto|].
  destruct (Z.leb_spec 0 (zget (base p) v + x)); cbn [andb]; [|by rewrite decide_False by lia].
  destruct (Z.leb_spec (zget (base p) v + x) (high p)); cbn [andb]; [|by rewrite decide_False by lia].
  rewrite check_at by lia. cbn [rbind]. destruct (Z.eqb_spec (zget (Packing.check_ p) (zget (base p) v + x)) x); [by rewrite decide_True by (split_and!; (done || lia))|by rewrite decide_False by tauto].
Qed.

(** the value that the index gives *)
Definition lookup_with (idx : list Z) (i x : Z) : result (option Z) :=
  let* o := table_index tables idx i x in
  match o with Some n2 => let* s := Short (Parsing.table tables) n2 in Ok (Some s) | None => Ok None end.

Lemma lookup_with_ok idx i v x (E : Z -> Prop) : Short idx i = Ok (zget (base p) v) -> (forall y, slot p v x y <-> E y) -> (forall y, E y -> - 2 ^ 15 <= y < 2 ^ 15) ->
  exists o, lookup_with idx i x = Ok o /\ forall y, o = Some y <-> E y.
Proof.
  intros Ei Hs He. unfold lookup_with. rewrite (table_index_ok idx i v x Ei). cbn [rbind]. destruct (decide (present v x)) as [Hpr|Hn].
  - destruct Hpr as (P1 & P2 & P3). assert (Hy : E (zget (Packing.table p) (zget (base p) v + x))) by (by apply Hs).
    rewrite table_at by (lia || by apply He). cbn [rbind]. eexists. split; [done|]. intros y. rewrite <- Hs. unfold slot. split; [intros [= <-]; split; [done|]; split; [done|]; by split|]. by intros (_ & _ & _ & ->).
  - exists None. split; [done|]. intros y. split; [done|]. intros Hy. apply Hs in Hy as (P1 & P2 & P3 & _). exfalso. apply Hn. by split.
Qed.

Lemma base_at v : 0 <= v < nvec -> - 2 ^ 15 <= zget (base p) v < 2 ^ 15.
Proof. intros Hv. pose proof (po_base _ _ _ _ _ _ _ Hp v Hv). unfold MAXSHORT in *. lia. Qed.

(** the rule of the start symbol is never complete: no state comes after the end of the input *)
Lemma complete_rule q r : augmented g ps -> Mkpar.complete g ps cores q r -> 3 <= r.
Proof.
  intros Ag (X & K & w & EK & Hr & Hc). pose proof (rule_bounds g ps L r w Hr) as Hb. destruct (decide (r = 2)) as [->|]; [exfalso|lia].
  pose proof (ag_goal _ _ Ag) as Hr2. pose proof (Grammar.lo_start _ _ L) as Hst0. set (goal := start_symbol g + 1) in *. assert (Hg : 1 <= goal) by lia. destruct Hr as [_ Er], Hr2 as [_ Er2]. rewrite Er in Er2. injection Er2 as ->. cbn [snd] in *.
  assert (R2 : rule ps 2 (start_symbol g, [goal; 0])) by (split; [lia|exact Er]). change (zlen [goal; 0]) with 2 in *.
  assert (E1 : rd (ritem (tab g)) (first_item ps 2 + 1) = Ok 0) by (rewrite (rule_symbol g ps L 2 _ 1 R2) by (cbn [snd]; change (zlen [goal; 0]) with 2; lia); done).
  assert (First : forall r' w', rule ps r' w' -> first_item ps 2 + 2 <> first_item ps r').
  { intros r' w' Hr' E. pose proof (first_item_before g ps L r' w' Hr') as H. rewrite <- E in H. replace (first_item ps 2 + 2 - 1) with (first_item ps 2 + 1) in H by lia.
    unfold sym in H. apply rd_range in E1 as Hrg. rewrite rd_zget in E1 by done. injection E1 as E1. lia. }
  remember (first_item ps 2 + 2) as j eqn:Ej. destruct Hc as [j Hi|j r' w' _ Hr' _]; [|by apply (First r' w')].
  assert (HK : canonical g ps K) by (apply (la_canonical _ _ _ _ _ Au), elem_of_kernels; by exists q, X).
  destruct HK as [|K0 Y K' _ HY (_ & _ & Hg')].
  - apply (elem_of_start_kernel g ps L) in Hi as (r' & w' & Hr' & _ & ->). by apply (First r' w').
  - apply Hg' in Hi as (i & _ & Ei & ->). replace i with (first_item ps 2 + 1) in Ei by lia. rewrite Ei in E1. injection E1 as ->. lia.
Qed.

(** what the tables say of each state: the default reduction, the shifts and the reductions
    on the value of a token, the gotos; and of each rule *)
Record tables_for : Prop := {
  tf_default : forall q d, 0 <= q < n -> rd (Mkpar.defred info) q = Ok d -> Short (Parsing.defred tables) q = Ok (if d =? 0 then 0 else d - 2);
  tf_shift : forall q row x, rd (parser info) q = Ok row -> 0 <= x -> exists o, lr_shift tables q x = Ok o /\ forall s, o = Some s <-> shift_entry sv row x s;
  tf_reduce : forall q row d x, rd (parser info) q = Ok row -> rd (Mkpar.defred info) q = Ok d -> 0 <= x ->
    exists o, lookup_with (rindex tables) q x = Ok o /\ forall r, o = Some r <-> reduce_entry sv row d x r;
  tf_goto : forall q A s, trans g ps cores q A s -> start_symbol g < A -> goto_state tables (zget sv A) q = Ok s;
  tf_goto_any : forall A q, start_symbol g < A < nsyms g -> exists s, goto_state tables (zget sv A) q = Ok s;
  tf_rule : forall r A w, rule ps r (A, w) -> 3 <= r -> Short (lhs tables) (r - 2) = Ok (zget sv A) /\ Short (len tables) (r - 2) = Ok (zlen w);
  tf_codes : forall c, c ∈ transl_const tables \/ c ∈ transl_block tables -> exists t, 0 <= t < ntokens g /\ c = Val_int (zget sv t) }.

Lemma rule_at r A w : rule ps r (A, w) -> 3 <= r -> Short (lhs tables) (r - 2) = Ok (zget sv A) /\ Short (len tables) (r - 2) = Ok (zlen w).
Proof.
  intros Hr H3. pose proof (rule_bounds g ps L r _ Hr) as Hb. pose proof (nrules_le g ps L). pose proof (lo_short _ _ L) as Hs. destruct (rule_symbols g ps L r _ Hr) as [HA _]. cbn in HA, Hb.
  pose proof (rule_lhs g ps L r _ Hr) as El. pose proof (rule_start g ps L r _ Hr) as Es. cbn in El. apply rd_range in El as Rl. apply rd_range in Es as Rs. rewrite rd_zget in El, Es by done. injection El as El. injection Es as Es.
  assert (Hv : - 2 ^ 15 <= zget sv A < 2 ^ 15).
  { pose proof (Grammar.lo_start _ _ L). destruct (sv_zlen _ _ Sv) as [_ Hm]. destruct (decide (A = start_symbol g)) as [->|]; [|replace A with (start_symbol g + (A - start_symbol g)) by lia; rewrite (sv_var _ _ Sv) by (unfold nvars, ntokens; lia); unfold MAXSHORT in *; lia].
    rewrite (sv_start _ _ Sv). lia. }
  assert (Hl : zget (rrhs (tab g)) (r + 1) - zget (rrhs (tab g)) r - 1 = zlen w).
  { rewrite Es. pose proof (rule_lookup _ _ _ Hr) as Hlt. destruct Hr as [Hr2 Er]. assert (E1 : rd (rrhs (tab g)) (r + 1) = Ok (first_item ps r + zlen w + 1)).
    { rewrite (lo_rrhs _ _ L), !rd_cons by lia. apply rd_Ok. split; [lia|]. replace (Z.to_nat (r + 1 - 1 - 1)) with (S (Z.to_nat (r - 2))) by lia.
      rewrite starts_from_lookup by lia. rewrite (offset_next _ _ _ Er). unfold first_item. f_equal. cbn [snd]. lia. }
    apply rd_range in E1 as R1. rewrite rd_zget in E1 by done. injection E1 as ->. lia. }
  assert (E : forall x l y, rd l (r - 3) = Ok y -> - 2 ^ 15 <= y < 2 ^ 15 -> Short (bytes_of (x :: l)) (r - 2) = Ok y).
  { intros x l y Ey Hy. apply Short_bytes; [|done]. rewrite rd_cons by lia. by replace (r - 2 - 1) with (r - 3) by lia. }
  assert (Q : forall f : Z -> Z, rd (map f (seqZ 3 (nrules g - 3))) (r - 3) = Ok (f r)).
  { intros f. apply rd_map. exists r. split; [|done]. apply rd_Ok. split; [lia|]. rewrite lookup_seqZ. lia. }
  rewrite (ts_lhs _ _ _ Ts), (ts_len _ _ _ Ts). split; apply E; [rewrite Q; by rewrite El|done|rewrite Q; by rewrite Hl|]. pose proof (zlen_nonneg w). unfold MAXSHORT in *. lia.
Qed.

Lemma shift_at q row x : rd (parser info) q = Ok row -> 0 <= x -> exists o, lr_shift tables q x = Ok o /\ forall s, o = Some s <-> shift_entry sv row x s.
Proof.
  intros Er Hx. apply rd_range in Er as Hq. rewrite (pf_states _ _ _ _ _ Pf) in Hq. pose proof nvars_positive g ps L.
  destruct (row_facts g ps L cores ss rs Au pr info Pf q row Er) as [_ Ha].
  apply (lookup_with_ok (sindex tables) q q x (shift_entry sv row x)).
  - rewrite (ts_sindex _ _ _ Ts), (Short_map _ 0); [by rewrite Z.add_0_l|lia|rewrite Z.add_0_l; apply base_at; lia].
  - intros y. by apply (po_shift _ _ _ _ _ _ _ Hp).
  - intros y (a & Hin & Aa & _ & _ & <-). destruct (Ha a Hin Aa) as (_ & _ & ?). unfold MAXSHORT in *. lia.
Qed.

Lemma reduce_at q row d x : rd (parser info) q = Ok row -> rd (Mkpar.defred info) q = Ok d -> 0 <= x ->
  exists o, lookup_with (rindex tables) q x = Ok o /\ forall r, o = Some r <-> reduce_entry sv row d x r.
Proof.
  intros Er Ed Hx. apply rd_range in Er as Hq. rewrite (pf_states _ _ _ _ _ Pf) in Hq. pose proof nvars_positive g ps L.
  destruct (row_facts g ps L cores ss rs Au pr info Pf q row Er) as [_ Ha].
  apply (lookup_with_ok (rindex tables) q (n + q) x (reduce_entry sv row d x)).
  - rewrite (ts_rindex _ _ _ Ts), (Short_map _ n); [done|lia|apply base_at; lia].
  - intros y. by apply (po_reduce _ _ _ _ _ _ _ Hp).
  - intros y (a & Hin & Aa & _ & _ & _ & <-). destruct (Ha a Hin Aa) as (_ & _ & ?). unfold MAXSHORT in *. lia.
Qed.

Lemma goto_at_state q A s : trans g ps cores q A s -> start_symbol g < A -> goto_state tables (zget sv A) q = Ok s.
Proof.
  intros Ht HA. destruct (trans_known _ _ L _ _ _ _ Ht) as (_ & Hs & HA2). destruct (trans_states _ _ _ _ _ _ Ht) as [Hq _]. unfold Gotos.state in Hq, Hs.
  pose proof (n_nonneg g ps cores ss rs Au) as Hn. set (v := A - start_symbol g). assert (Hv : 0 < v < nvars g) by (unfold v, nvars, ntokens; lia).
  replace A with (start_symbol g + v) in Ht |- * by (unfold v; lia). rewrite (sv_var _ _ Sv) by done.
  destruct (po_goto _ _ _ _ _ _ _ Hp v Hv) as (d & Ed & Hd & Hslot). specialize (Hslot q).
  unfold goto_state. rewrite (ts_gindex _ _ _ Ts), (Short_map _ (2 * n)) by (lia || apply base_at; lia). cbn [rbind].
  rewrite high_size. set (b := zget (base p) (2 * n + (v - 1))) in *.
  assert (Ec : (if negb (b =? 0) && (0 <=? b + q) && (b + q <=? high p) then let* c := Short (Parsing.check_ tables) (b + q) in Ok (c =? q) else Ok false) =
    Ok (bool_decide (present (2 * n + (v - 1)) q))).
  { unfold present. fold b. destruct (Z.eqb_spec b 0); cbn [negb andb]; [by rewrite bool_decide_eq_false_2 by tauto|].
    destruct (Z.leb_spec 0 (b + q)); cbn [andb]; [|by rewrite bool_decide_eq_false_2 by lia].
    destruct (Z.leb_spec (b + q) (high p)); cbn [andb]; [|by rewrite bool_decide_eq_false_2 by lia]. rewrite check_at by lia. cbn [rbind]. f_equal.
    destruct (Z.eqb_spec (zget (Packing.check_ p) (b + q)) q); [by rewrite bool_decide_eq_true_2 by (split_and!; (done || lia))|by rewrite bool_decide_eq_false_2 by tauto]. }
  rewrite Ec. cbn [rbind]. case_bool_decide as Hpr.
  - assert (Hy : goto_entry g ps cores (start_symbol g + v) d q (zget (Packing.table p) (b + q))).
    { apply Hslot; [lia|]. destruct Hpr as (? & ? & ?). split; [done|]. split; [done|]. split; [done|done]. }
    destruct Hy as [Hy _]. pose proof (trans_fun g ps cores ss rs Au _ _ _ _ Hy Ht) as E. destruct Hpr as (_ & Hr & _). fold b in Hr.
    rewrite table_at; [by rewrite E|done|]. rewrite E. unfold MAXSHORT in *. lia.
  - assert (E : s = d).
    { destruct (decide (s = d)) as [|Nd]; [done|]. exfalso. apply Hpr. destruct (proj2 (Hslot s ltac:(lia)) (conj Ht Nd)) as (H1 & H2 & H3 & _). split; [done|]. by split. }
    rewrite (ts_dgoto _ _ _ Ts). rewrite E. apply Short_bytes; [done|]. unfold MAXSHORT in *. lia.
Qed.

(** the goto from any number is in the tables *)
Lemma goto_at_any A q : start_symbol g < A < nsyms g -> exists s, goto_state tables (zget sv A) q = Ok s.
Proof.
  intros HA. set (v := A - start_symbol g). assert (Hv : 0 < v < nvars g) by (unfold v, nvars, ntokens; lia). pose proof (n_nonneg g ps cores ss rs Au) as Hn.
  replace A with (start_symbol g + v) by (unfold v; lia). rewrite (sv_var _ _ Sv) by done. destruct (po_sizes _ _ _ _ _ _ _ Hp) as (_ & _ & Hh & _ & Zd).
  unfold goto_state. rewrite (ts_gindex _ _ _ Ts), (Short_map _ (2 * n)) by (lia || apply base_at; lia). cbn [rbind]. rewrite high_size.
  set (b := zget (base p) (2 * n + (v - 1))) in *. assert (D : exists s, Short (Parsing.dgoto tables) (v - 1) = Ok s) by (rewrite (ts_dgoto _ _ _ Ts); apply Short_exists; lia).
  destruct (Z.eqb_spec b 0); cbn [negb andb rbind]; [done|]. destruct (Z.leb_spec 0 (b + q)); cbn [andb rbind]; [|done].
  destruct (Z.leb_spec (b + q) (high p)); cbn [andb rbind]; [|done]. rewrite check_at by lia. cbn [rbind]. destruct (_ =? q); [|done].
  rewrite (ts_table _ _ _ Ts). apply Short_exists. rewrite zlen_map. unfold zlen. rewrite length_seqZ. lia.
Qed.

Lemma tables_for_ok : tables_for.
Proof.
  constructor; [|exact shift_at|exact reduce_at|exact goto_at_state|exact goto_at_any|exact rule_at|].
  - intros q d Hq Ed. destruct (defred_range q Hq) as (row & d' & Er & Ed' & Ez & Hd). rewrite Ed in Ed'. injection Ed' as <-.
    rewrite (ts_defred _ _ _ Ts), (Short_map _ 0) by (lia || rewrite Z.add_0_l, <- Ez; pose proof (nrules_le g ps L); unfold MAXSHORT in *; destruct (d =? 0); lia).
    by rewrite Z.add_0_l, <- Ez.
  - destruct (sv_special _ _ Sv) as (Hk & E0 & _).
    assert (C : forall l c, (forall t, t ∈ l -> 0 <= t < ntokens g) -> c ∈ map Val_int (map (zget sv) l ++ [0]) -> exists t, 0 <= t < ntokens g /\ c = Val_int (zget sv t)).
    { intros l c Hl (x & -> & [(t & -> & Ht)%list_elem_of_fmap| ->%list_elem_of_singleton]%elem_of_app)%list_elem_of_fmap; [exists t; split; [by apply Hl|done]|].
      exists 0. rewrite E0. split; [lia|done]. }
    assert (F : forall b t, t ∈ true_tokens true_token tag b 0 (ntokens g) -> 0 <= t < ntokens g) by (intros b t [_ Ht%elem_of_seqZ]%list_elem_of_filter; lia).
    intros c [Hc|Hc]; [rewrite (ts_const _ _ _ Ts) in Hc|rewrite (ts_block _ _ _ Ts) in Hc]; eapply C; try exact Hc; apply F.
Qed.

End Generated.
