(* ===== verification/Generated.v ===== *)
(** * The parsers that ocamlyacc generates

    The tables of [Output.v] under the LR automaton that the engine of [Parsing.v]
    implements.  A state of the stack is reached by the symbols below it, a rule is reduced
    where the symbols on the top are its right-hand side, so that the attribute of each
    symbol on the stack comes from the tokens that the symbol derives: what a parser
    returns, it returns for a sentence of the grammar. *)

From S2P Require Import Prelude.
From S2P Require Import Mlvalues.
From S2P Require Import Memory.
From S2P Require Import Grammar.
From S2P Require Import Closure.
From S2P Require Import Lr0.
From S2P Require Import Lalr.
From S2P Require Import Gotos.
From S2P Require Import Lookaheads.
From S2P Require Import Mkpar.
From S2P Require Import Vectors.
From S2P Require Import Lexing.
From S2P Require Import Parsing.
From S2P Require Import Output.
From Stdlib Require Import Sorting.Sorted.
From stdpp Require Import relations sorting.
#[local] Open Scope Z_scope.

(** what make_goal of reader.c and pack_grammar make: the start symbol has one rule, the goal
    is in this rule only, and the rules of the goal are an entry token and an entry point *)
Record entry_rules (g : grammar) (ps : list production) (goal : Z) : Prop := {
  er_rule : rule ps 2 (start_symbol g, [goal; 0]) /\ start_symbol g < goal;
  er_start : forall r w, rule ps r (start_symbol g, w) -> r = 2;
  er_goal : forall r A w, rule ps r (A, w) -> goal ∈ w -> r = 2;
  er_entry : forall r w, rule ps r (goal, w) -> exists c S, w = [c; S] /\ 1 < c < ntokens g }.

Section Stack.
Context (g : grammar) (ps : list production) (L : lays_out g ps) (Ag : augmented g ps) (Hmod : nvars g mod 32 <> 0).
Context (cores : list core) (ss : list shifts) (rs : list reductions) (Au : lr0_automaton g ps cores ss rs).
Context (goal : Z) (Er : entry_rules g ps goal).

#[local] Abbreviation trans := (trans g ps cores).
#[local] Abbreviation item_in := (item_in g ps cores).
#[local] Abbreviation walk := (walk g ps cores).

Lemma rule_fun r p p' : rule ps r p -> rule ps r p' -> p = p'.
Proof. intros [_ E] [_ E']. congruence. Qed.

Lemma first_item_inj r r' p p' : rule ps r p -> rule ps r' p' -> first_item ps r = first_item ps r' -> r = r'.
Proof.
  intros H H' E. pose proof (zlen_nonneg p.2). pose proof (zlen_nonneg p'.2). destruct (Z.lt_trichotomy r r') as [Hl|[Hl|Hl]]; [|done|].
  - pose proof (first_item_lt ps r r' p p' H H' Hl). lia.
  - pose proof (first_item_lt ps r' r p' p H' H Hl). lia.
Qed.

(** the items inside a rule are not the first item of another one *)
Lemma first_item_apart r A w k r' p' : rule ps r (A, w) -> 0 < k <= zlen w -> rule ps r' p' -> first_item ps r + k <> first_item ps r'.
Proof.
  intros Hr Hk Hr' E. pose proof (first_item_before g ps L r' p' Hr') as H. pose proof (rule_bounds g ps L r _ Hr) as Hb. cbn in Hb.
  destruct (rule_symbols g ps L r _ Hr) as [_ Hs]. cbn in Hs. destruct (rd_in_range w (k - 1)) as [X EX]; [lia|].
  pose proof (rule_symbol g ps L r (A, w) (k - 1) Hr ltac:(cbn; lia)) as ES. cbn in ES. rewrite EX, (rd_sym g ps L) in ES by lia. injection ES as ES.
  replace (first_item ps r' - 1) with (first_item ps r + (k - 1)) in H by lia. rewrite ES in H.
  apply rd_Ok in EX as [_ EX]. pose proof (Forall_lookup_1 _ _ _ _ Hs EX) as HX. cbn in HX. lia.
Qed.

(** a symbol of an item is one of a rule *)
Lemma item_of_rule i X : 1 <= i < nitems g -> rd (ritem (tab g)) i = Ok X -> 0 <= X ->
  exists r A w t, rule ps r (A, w) /\ i = first_item ps r + t /\ 0 <= t < zlen w /\ rd w t = Ok X.
Proof.
  intros Hi EX HX. destruct (item_rule g ps L i Hi) as (r & [A w] & t & Hr & Ht & ->). cbn in Ht. destruct (decide (t = zlen w)) as [->|].
  - pose proof (rule_end g ps L r _ Hr) as E. cbn in E. rewrite E in EX. injection EX as <-. destruct Hr. lia.
  - exists r, A, w, t. split; [done|]. split; [done|]. split; [lia|]. rewrite <- EX. symmetry. apply (rule_symbol g ps L r (A, w) t Hr). cbn. lia.
Qed.

Lemma item_bounds q i : item_in q i -> 1 <= i < nitems g.
Proof. intros (Y & K & E & Hi). by apply (closure_range g ps L K i (proj2 (state_items g ps L cores ss rs Au q Y K E))). Qed.

(** an item of a state comes from the states before, or starts a rule *)
Lemma item_before p X q i : trans p X q -> item_in q i -> item_in p (i - 1) /\ rd (ritem (tab g)) (i - 1) = Ok X \/ exists r w, rule ps r w /\ i = first_item ps r.
Proof.
  intros (HX & Y & Kp & Kq & Ep & Eq & _ & _ & Hg) (Y' & K & E & Hi). rewrite Eq in E. injection E as <- <-. destruct Hi as [i Hi|i r w _ Hr _]; [left|right; by exists r, w].
  apply Hg in Hi as (j & Hj & Ej & ->). replace (j + 1 - 1) with j by lia. split; [|done]. by exists Y, Kp.
Qed.

(** an item at the start of a rule is predicted by another one *)
Lemma item_predicted s r A w : rule ps r (A, w) -> item_in s (first_item ps r) ->
  (exists i, item_in s i /\ rd (ritem (tab g)) i = Ok A) \/ s = 0 /\ A = start_symbol g.
Proof.
  intros Hr (Y & K & E & Hi). remember (first_item ps r) as j eqn:Ej. destruct Hi as [j Hj|j r' w' Hj Hr' Es].
  - right. assert (HK : canonical g ps K) by (apply (la_canonical _ _ _ _ _ Au), elem_of_kernels; by exists s, Y). destruct HK as [|K0 X K' _ HX (_ & _ & Hg)].
    + split; [exact (kernel_state g ps cores ss rs Au s 0 Y 0 _ E (la_start _ _ _ _ _ Au))|].
      apply (elem_of_start_kernel g ps L) in Hj as (r' & w' & Hr' & <- & E'). assert (r = r') as <- by (apply (first_item_inj r r' (A, w) w'); [done|done|congruence]).
      by pose proof (rule_fun r _ _ Hr Hr') as <-.
    + exfalso. destruct (proj1 (Hg j) Hj) as (i & Hi & EX & Ei). pose proof (first_item_before g ps L r _ Hr) as H. rewrite <- Ej, Ei in H. replace (i + 1 - 1) with i in H by lia.
      unfold sym in H. apply rd_range in EX as R. rewrite rd_zget in EX by done. injection EX as EX. lia.
  - left. exists j. split; [by exists Y, K|]. assert (r = r') as <- by (by apply (first_item_inj r r' (A, w) w')). pose proof (rule_fun r _ _ Hr Hr') as <-. exact Es.
Qed.

(** ** The stack spells viable prefixes *)

(** the symbols before the point of an item are those of the top of the stack *)
Lemma spelled r A w2 : forall w1, rule ps r (A, w1 ++ w2) -> forall Xs l q, walk 0 Xs l q -> item_in q (first_item ps r + zlen w1) ->
  exists Ys l1 l2 s, Xs = Ys ++ w1 /\ l = l1 ++ l2 /\ walk 0 Ys l1 s /\ walk s w1 l2 q /\ item_in s (first_item ps r).
Proof.
  intros w1. revert w2. induction w1 as [|X w1 IH] using rev_ind; intros w2 Hr Xs l q Hw Hi.
  - exists Xs, l, [], q. rewrite zlen_nil, Z.add_0_r in Hi. rewrite !app_nil_r. by split_and!.
  - rewrite zlen_snoc in Hi. pose proof (zlen_nonneg w1). pose proof (zlen_nonneg w2).
    assert (Apart : forall r' p', rule ps r' p' -> first_item ps r + (zlen w1 + 1) <> first_item ps r').
    { intros r' p' Hr'. apply (first_item_apart r A _ _ r' p' Hr); [|done]. rewrite zlen_app, zlen_snoc. lia. }
    destruct Xs as [|Y Xs _] using rev_ind.
    + exfalso. destruct l; [|done]. cbn in Hw. subst q. destruct Hi as (Y & K & E & Hi). rewrite (la_start _ _ _ _ _ Au) in E. injection E as <- <-.
      remember (first_item ps r + (zlen w1 + 1)) as j eqn:Ej. destruct Hi as [j Hj|j r' w' _ Hr' _]; [|by apply (Apart r' w')].
      apply (elem_of_start_kernel g ps L) in Hj as (r' & w' & Hr' & _ & ->). by apply (Apart r' w').
    + apply walk_app in Hw as (l1 & l2 & s & -> & Hw & Hl). destruct l2 as [|q' [|]]; try done; [|by destruct Hl]. destruct Hl as [Ht Hq]. cbn in Hq. subst q'.
      destruct (item_before _ _ _ _ Ht Hi) as [[Hs EX]|(r' & w' & Hr' & E)]; [|by apply (Apart r' w') in E].
      replace (first_item ps r + (zlen w1 + 1) - 1) with (first_item ps r + zlen w1) in Hs, EX by lia.
      rewrite <- app_assoc in Hr. pose proof (rule_symbol g ps L r _ (zlen w1) Hr ltac:(cbn [snd]; rewrite !zlen_app, zlen_cons; change (zlen (@nil Z)) with 0; lia)) as EX'.
      cbn [snd app] in EX'. rewrite EX, rd_mid in EX'. injection EX' as ->.
      destruct (IH ([X] ++ w2) Hr Xs l1 s Hw Hs) as (Ys & l3 & l4 & s' & -> & -> & H1 & H2 & H3).
      exists Ys, l3, (l4 ++ [q]), s'. rewrite !app_assoc. split; [done|]. split; [done|]. split; [done|]. split; [|done].
      apply walk_app. exists l4, [q], s. by split_and!.
Qed.

(** ** The first state *)

Lemma no_start i s : item_in s i -> rd (ritem (tab g)) i <> Ok (start_symbol g).
Proof.
  intros Hi E. pose proof (Grammar.lo_start _ _ L) as Hst. destruct (item_of_rule i _ (item_bounds _ _ Hi) E ltac:(lia)) as (r & A & w & t & Hr & _ & _ & Et).
  apply (ag_start _ _ Ag r A w Hr). apply rd_Ok in Et as [_ Et]. by apply list_elem_of_lookup_2 in Et.
Qed.

(** the rules of the goal are in the first state only *)
Lemma goal_first s r w : rule ps r (goal, w) -> item_in s (first_item ps r) -> s = 0.
Proof.
  intros Hr Hi. destruct (er_rule _ _ _ Er) as [R2 Hg]. pose proof (Grammar.lo_start _ _ L) as Hst.
  destruct (item_predicted s r goal w Hr Hi) as [(i & Hs & Ei)|[-> E]]; [|done].
  destruct (item_of_rule i _ (item_bounds _ _ Hs) Ei ltac:(lia)) as (r' & A & w' & t & Hr' & -> & Ht & Et).
  assert (r' = 2) as ->. { apply (er_goal _ _ _ Er r' A w' Hr'). apply rd_Ok in Et as [_ Et]. by apply list_elem_of_lookup_2 in Et. }
  pose proof (rule_fun 2 _ _ R2 Hr') as Ep. injection Ep as <- <-. change (zlen [goal; 0]) with 2 in Ht.
  assert (t = 0 \/ t = 1) as [-> | ->] by lia; [|cbn in Et; injection Et as Et; lia]. rewrite Z.add_0_r in Hs.
  destruct (item_predicted s 2 _ _ R2 Hs) as [(i & Hs' & Ei')|[-> _]]; [|done]. by apply no_start in Hs'.
Qed.

(** the items of the first state start the rules of the start symbol and of the goal *)
Lemma items_first i : item_in 0 i -> exists r A w, rule ps r (A, w) /\ i = first_item ps r /\ (A = start_symbol g \/ A = goal).
Proof.
  intros (Y & K & E & Hi). rewrite (la_start _ _ _ _ _ Au) in E. injection E as <- <-. pose proof (Grammar.lo_start _ _ L) as Hst. destruct (er_rule _ _ _ Er) as [R2 Hg].
  induction Hi as [i Hi|i r [A w] Hi (r' & B & w' & Hr' & -> & HB) Hr Ei].
  - apply (elem_of_start_kernel g ps L) in Hi as (r & [A w] & Hr & E & ->). exists r, A, w. split; [done|]. split; [done|]. by left.
  - exists r, A, w. split; [done|]. split; [done|]. cbn in Ei.
    assert (Hw : exists X w'', w' = X :: w'' /\ (X = goal \/ X < start_symbol g)).
    { destruct HB as [->| ->].
      - assert (r' = 2) as -> by (by apply (er_start _ _ _ Er r' w')). pose proof (rule_fun 2 _ _ R2 Hr') as Ep. injection Ep as <-. exists goal, [0]. split; [done|by left].
      - destruct (er_entry _ _ _ Er r' w' Hr') as (c & S & -> & Hc). exists c, [S]. split; [done|]. right. unfold ntokens in Hc. lia. }
    destruct Hw as (X & w'' & -> & HX). pose proof (rule_symbol g ps L r' _ 0 Hr') as EX. cbn [snd] in EX. rewrite Z.add_0_r, Ei in EX.
    rewrite zlen_cons in EX. pose proof (zlen_nonneg w''). specialize (EX ltac:(lia)). change (rd (X :: w'') 0) with (@Ok Z X) in EX. injection EX as ->.
    destruct HX as [->|HX]; [by right|]. destruct (rule_symbols g ps L r _ Hr) as [HA _]. cbn in HA. lia.
Qed.

Lemma first_shift r c S : rule ps r (goal, [c; S]) -> exists s, trans 0 c s.
Proof.
  intros Hr. destruct (er_rule _ _ _ Er) as [R2 Hg]. destruct (er_entry _ _ _ Er r _ Hr) as (c' & S' & [= <- <-] & Hc).
  assert (H2 : item_in 0 (first_item ps 2)).
  { exists 0, (start_kernel g ps). split; [apply (la_start _ _ _ _ _ Au)|]. apply in_nucleus. apply list_elem_of_fmap. exists 2. split; [done|].
    apply (elem_of_rules_for g ps L); [lia|]. by eexists. }
  assert (E2 : rd (ritem (tab g)) (first_item ps 2) = Ok goal).
  { rewrite <- (Z.add_0_r (first_item ps 2)). by rewrite (rule_symbol g ps L 2 _ 0 R2) by (cbn [snd]; change (zlen [goal; 0]) with 2; lia). }
  assert (Hi : item_in 0 (first_item ps r)).
  { destruct H2 as (Y & K & E & H2). exists Y, K. split; [done|]. by eapply (in_predicted g ps K _ r (goal, [c; S])). }
  destruct (item_step g ps L cores ss rs Au Hmod 0 _ c Hi) as (s & Ht & _); [|lia|by exists s].
  rewrite <- (Z.add_0_r (first_item ps r)). by rewrite (rule_symbol g ps L r _ 0 Hr) by (cbn [snd]; change (zlen [c; S]) with 2; lia).
Qed.

Context (pr : precedences) (info : parser_info) (Pf : parser_for g ps pr cores info).

Lemma nothing_complete r : ~ Mkpar.complete g ps cores 0 r.
Proof.
  intros (X & K & [A w] & E & Hr & Hc). cbn in Hc. destruct (items_first (first_item ps r + zlen w)) as (r' & B & w' & Hr' & Ei & HB); [by exists X, K|].
  destruct (decide (w = [])) as [->|Hw]; cycle 1.
  - apply (first_item_apart r A w (zlen w) r' _ Hr) in Hr'; [done|]. destruct w; [done|]. rewrite zlen_cons. pose proof (zlen_nonneg w). lia.
  - change (zlen (@nil Z)) with 0 in Ei. rewrite Z.add_0_r in Ei. assert (r = r') as <- by (by apply (first_item_inj r r' _ _ Hr Hr')).
    pose proof (rule_fun r _ _ Hr Hr') as Ep. injection Ep as <- <-. destruct HB as [->| ->].
    + assert (r = 2) as -> by (by apply (er_start _ _ _ Er r [])). by pose proof (rule_fun 2 _ _ (proj1 (er_rule _ _ _ Er)) Hr).
    + by destruct (er_entry _ _ _ Er r _ Hr) as (c & S & ? & _).
Qed.

Lemma sorted_same l a : StronglySorted key_lt l -> a ∈ l -> (forall b, b ∈ l -> b = a) -> l = [a].
Proof.
  intros Hs Ha Hb. assert (Irr : ~ key_lt a a) by (unfold key_lt; lia). destruct Hs as [|b l Hs Hl]; [by apply elem_of_nil in Ha|].
  rewrite (Hb b) by (by left). destruct l as [|b' l]; [done|]. exfalso. apply Irr. apply Forall_cons in Hl as [Hl _].
  rewrite (Hb b), (Hb b') in Hl by (by left || (right; by left)). done.
Qed.

(** no conflict on the token of an entry *)
Lemma first_row r c S row : rule ps r (goal, [c; S]) -> rd (parser info) 0 = Ok row -> exists a, a ∈ row /\ active a = true /\ is_shift a = true /\ a_symbol a = c.
Proof.
  intros Hr Erow. destruct (first_shift r c S Hr) as (s & Ht). destruct (er_entry _ _ _ Er r _ Hr) as (c' & S' & [= <- <-] & Hc).
  destruct (pf_row _ _ _ _ _ Pf 0) as (l & row' & sr & rr & [Hl Hcand] & E' & _ & _ & Hleft & _); [destruct Ht as (_ & Y & Kp & Kq & E & _); apply rd_range in E; by rewrite zlen_kernels in E|].
  rewrite Erow in E'. injection E' as <-. set (a := shift_action pr c s).
  assert (Ea : on_symbol c l = [a]).
  { apply sorted_same.
    - unfold on_symbol. destruct Hl as [Hs _]. clear - Hs. induction Hs as [|b l Hs IH Hb]; [constructor|]. rewrite filter_cons. destruct (decide _); [|done]. constructor; [done|].
      rewrite Forall_forall in *. intros x [_ Hx]%list_elem_of_filter. by apply Hb.
    - apply list_elem_of_filter. split; [done|]. apply Hcand. left. exists c, s. split; [unfold ntokens in Hc; lia|done].
    - intros b [Hb Hin]%list_elem_of_filter. apply Hcand in Hin as [(t & s' & _ & Ht' & ->)|(r' & t & Hcm & _)]; [|by apply nothing_complete in Hcm].
      cbn in Hb. subst t. by rewrite (trans_fun g ps cores ss rs Au _ _ _ _ Ht' Ht). }
  specialize (Hleft c). rewrite Ea in Hleft. assert (Ec : chosen ((0 =? final_state info) && (c =? 0)) [a] = Some a) by (unfold chosen; destruct (_ || _); done).
  rewrite Ec in Hleft. cbn [option_list] in Hleft. assert (Hin : a ∈ left_on c row) by (rewrite Hleft; by left).
  apply list_elem_of_filter in Hin as [[Sa _] Hin]. exists a. split; [done|]. split; [by apply Z.eqb_eq|done].
Qed.

Lemma first_default r c S : rule ps r (goal, [c; S]) -> rd (Mkpar.defred info) 0 = Ok 0.
Proof.
  intros Hr. destruct (rd_in_range (parser info) 0) as [row Erow].
  { rewrite (pf_states _ _ _ _ _ Pf). pose proof (la_start _ _ _ _ _ Au) as H. apply rd_range in H. by rewrite zlen_kernels in H. }
  destruct (pf_default _ _ _ _ _ Pf 0 row Erow) as (d & Ed & Hd & Hdr & _). destruct (decide (0 < d)) as [Hp|]; [|by replace d with 0 in Ed by lia].
  destruct (first_row r c S row Hr Erow) as (a & Ha & Aa & Sa & _). destruct (Hdr Hp) as [Hall _]. destruct (Hall a Ha Aa). congruence.
Qed.

(** the symbol of a transition is in a rule *)
Lemma trans_symbol p X q : trans p X q -> exists r A w, rule ps r (A, w) /\ X ∈ w.
Proof.
  intros (HX & Y & Kp & Kq & Ep & _ & _ & Hne & Hg). destruct Kq as [|j Kq]; [done|]. destruct (proj1 (Hg j) ltac:(by left)) as (i & Hi & EX & _).
  destruct (item_of_rule i X) as (r & A & w & t & Hr & _ & _ & Et); [apply (item_bounds p); by exists Y, Kp|done|lia|].
  exists r, A, w. split; [done|]. apply rd_Ok in Et as [_ Et]. by apply list_elem_of_lookup_2 in Et.
Qed.

(** the goto of a rule that is complete on the top of the stack *)
Lemma goto_exists s r A w : rule ps r (A, w) -> item_in s (first_item ps r) -> A <> start_symbol g -> exists q, trans s A q.
Proof.
  intros Hr Hi HA. destruct (item_predicted s r A w Hr Hi) as [(i & Hs & Ei)|[_ ?]]; [|done].
  destruct (rule_symbols g ps L r _ Hr) as [HA' _]. cbn in HA'. pose proof (Grammar.lo_start _ _ L).
  destruct (item_step g ps L cores ss rs Au Hmod s i A Hs Ei) as (q & Ht & _); [lia|by exists q].
Qed.

(** ** The runs *)

Context (sv : list Z) (Sv : values_ok g sv) (tables : parser_tables) (Tf : tables_for g ps cores info sv tables).
Context (Herr : forall r A w, rule ps r (A, w) -> 1 ∉ w).
Context {LX : Type} (lexer : LX -> lexer_result * LX) (action : Z -> Z -> list entry -> action_result) (error_function : option Z).
Context (means : Z -> list lexeme -> Z -> Prop).

Inductive reads (lex : LX) : list lexeme -> LX -> Prop :=
  | reads_none : reads lex [] lex
  | reads_token ts lex1 t lex2 : reads lex ts lex1 -> lexer lex1 = (Read t, lex2) -> reads lex (ts ++ [t]) lex2.

(** the attributes: those of the tokens, then those that the actions compute; the actions of
    the goal return from the parser, and those of the empty rules do not raise a syntax error,
    after which the recovery looks above the stack *)
Record attributes : Prop := {
  at_token : forall X t v, 0 <= X < ntokens g -> token_code tables t = Ok (zget sv X, v) -> means X [t] v;
  at_rule : forall r A w tss below es v, rule ps r (A, w) -> 3 <= r -> Forall3 means w tss (map e_val es) ->
    action (r - 2) (zlen w) (below ++ es) = Computed v -> means A (concat tss) v;
  at_goal : forall r w stk v, rule ps r (goal, w) -> action (r - 2) (zlen w) stk <> Computed v;
  at_empty : forall r A stk, rule ps r (A, []) -> action (r - 2) 0 stk <> Action_parse_error }.

Context (At : attributes) (bot : list entry) (Hbot : bot <> []) (c : Z) (lex0 : LX).

Definition state_of (e : entry) : Z := Int_val (e_state e).

(** the lookahead *)
Definition look_ok (cf : lr_config) (pend : list lexeme) : Prop := (lr_look cf = -1 /\ pend = []) \/
  exists lx, 0 <= lr_look cf /\ (forall t, 0 <= t < ntokens g -> lr_look cf = zget sv t -> means t [lx] (lr_lval cf)) /\ pend = [lx].

(** after the token of the entry *)
Definition consistent (cf : lr_config) (lex : LX) : Prop := lr_err cf = 0 /\ exists es Xs tss pend,
  lr_stack cf = bot ++ es /\ walk 0 (c :: Xs) (map state_of es) (lr_state cf) /\ Forall3 means (c :: Xs) ([] :: tss) (map e_val es) /\
  look_ok cf pend /\ reads lex0 (concat tss ++ pend) lex.

(** why the exception [x] is raised, when [lex] is left to read: by the lexer, instead of the
    next token; by the error function; or by the action of a rule, whose attributes come from
    the tokens that its symbols derive, the last ones read but the lookahead, if there is one;
    for a rule of the goal they are all the tokens read *)
Inductive explained (x : Z) (lex : LX) : Prop :=
  | by_lexer ts lex1 : reads lex0 ts lex1 -> lexer lex1 = (Lexer_raised x, lex) -> explained x lex
  | by_error_function ts : error_function = Some x -> reads lex0 ts lex -> explained x lex
  | by_action r A w tss below es before pend : rule ps r (A, w) -> 3 <= r -> Forall3 means w tss (map e_val es) ->
      action (r - 2) (zlen w) (below ++ es) = Action_raised x -> reads lex0 (before ++ concat tss ++ pend) lex -> (length pend <= 1)%nat ->
      (A = goal -> before = [] /\ exists S ts, w = [c; S] /\ tss = [[]; ts]) -> explained x lex.

Definition good (next : @lr_next LX) : Prop :=
  match next with
  | Lr_goes cf lex => consistent cf lex
  | Lr_ends (Raised x) lex => explained x lex
  | Lr_ends Parse_error _ => True
  end.

Lemma walk_states p w l q : walk p w l q -> Forall (fun s => 0 < s < zlen cores) l.
Proof.
  revert p l. induction w as [|X w IH]; intros p [|s l] H; try done. destruct H as [Ht H]. constructor; [|by eapply IH].
  exact (target_positive g ps cores ss rs Au _ _ _ Ht).
Qed.

Lemma walk_end p w l s q : walk p w (l ++ [s]) q -> s = q.
Proof.
  revert p w. induction l as [|s' l IH]; intros p [|X w] H; try done.
  - destruct H as [_ H]. by destruct w.
  - destruct H as [_ H]. by eapply IH.
Qed.

(** no state shifts the error token *)
Lemma no_error q : 0 < q < zlen cores -> lr_shift tables q ERRCODE = Ok None.
Proof.
  intros Hq. destruct (rd_in_range (parser info) q) as [row Erow]; [rewrite (pf_states _ _ _ _ _ Pf); lia|].
  destruct (sv_special _ _ Sv) as (Hn & _ & E1). destruct (tf_shift _ _ _ _ _ _ Tf q row 256 Erow) as (o & E & Ho); [lia|].
  unfold ERRCODE. rewrite E. destruct o as [s|]; [exfalso|done]. destruct (proj1 (Ho s) eq_refl) as (a & Ha & Aa & Sa & E' & _).
  destruct (row_facts g ps L cores ss rs Au pr info Pf q row Erow) as [_ Hf]. destruct (Hf a Ha Aa) as [[(t & s' & _ & Ht & ->)|(r & t & _ & _ & _ & ->)] [Hts _]]; [|done].
  cbn in E', Hts. apply (sv_error _ _ Sv) in E' as ->; [|done]. destruct (trans_symbol _ _ _ Ht) as (r & A & w & Hr & Hin). by apply (Herr r A w Hr).
Qed.

Lemma no_discard es : es <> [] -> Forall (fun e => 0 < state_of e < zlen cores) es ->
  lr_discard tables (length bot) (reverse (bot ++ es)) = Ok None.
Proof.
  intros Hne Hs. rewrite reverse_app. rewrite <- (reverse_involutive es) in Hne, Hs. apply Forall_reverse in Hs. rewrite reverse_involutive in Hs. revert Hne Hs.
  generalize (reverse es) as rs'. induction rs' as [|e rs' IH]; [done|]. intros _ Hs. apply Forall_cons in Hs as [He Hs]. cbn [app lr_discard].
  unfold state_of in He. rewrite no_error by done. cbn [rbind]. rewrite length_app, length_reverse. destruct rs' as [|e' rs']; [by rewrite Nat.leb_refl|].
  destruct (Nat.leb_spec (length (e' :: rs') + length bot) (length bot)); [cbn in *; lia|]. apply IH; [|done]. intros E. by apply (f_equal reverse) in E; rewrite reverse_involutive in E.
Qed.

Lemma recover_fails cf lex es : lr_err cf = 0 -> lr_stack cf = bot ++ es -> es <> [] -> Forall (fun e => 0 < state_of e < zlen cores) es ->
  exists next, lr_recover tables (length bot) cf lex = Ok next /\ good next.
Proof.
  intros He Hs Hne Hst. unfold lr_recover. rewrite He. change (0 <? 3) with true. cbn iota. rewrite Hs, no_discard by done. cbn. by eexists.
Qed.

Lemma entry_states Ys (es : list entry) p q : walk p Ys (map state_of es) q -> Forall (fun e => 0 < state_of e < zlen cores) es.
Proof. intros H%walk_states. by apply Forall_map in H. Qed.

Lemma state_word q : 0 <= q < zlen cores -> Int_val (Val_int q) = q.
Proof. intros Hq. apply Int_val_int. pose proof (la_count _ _ _ _ _ Au). unfold is_s32, MAXSHORT in *. lia. Qed.

(** the end of a parse by an action *)
Lemma raised_explained x lex r A w t1 t2 tss Ys Xs es2 below pend s l1 : rule ps r (A, w) -> 3 <= r -> item_in s (first_item ps r) -> walk 0 Ys l1 s ->
  c :: Xs = Ys ++ w -> [] :: tss = t1 ++ t2 -> length t1 = length Ys -> Forall3 means w t2 (map e_val es2) -> reads lex0 (concat tss ++ pend) lex -> (length pend <= 1)%nat ->
  action (r - 2) (zlen w) (below ++ es2) = Action_raised x -> explained x lex.
Proof.
  intros Hr H3 Hs W1 EX Et Hl M2 Hreads Hp E. eapply (by_action x lex r A w t2 below es2 (concat t1) pend Hr H3 M2 E); [|done|].
  - rewrite app_assoc, <- concat_app, <- Et. exact Hreads.
  - intros ->. rewrite (goal_first s r w Hr Hs) in W1. assert (Ys = []) as ->.
    { destruct Ys as [|Y Ys _] using rev_ind; [done|]. apply walk_app in W1 as (l & l' & s' & _ & _ & W). destruct l' as [|s'' [|]]; try done; [|by destruct W].
      destruct W as [Ht E0]. cbn in E0. subst s''. pose proof (target_positive g ps cores ss rs Au _ _ _ Ht). lia. }
    destruct t1; [|done]. cbn [app] in EX, Et. subst w t2. split; [done|]. destruct (er_entry _ _ _ Er r _ Hr) as (c' & S & [= <- ->] & _). exists S.
    destruct tss as [|ts [|ts' tss]]; [by apply Forall3_length_lm in M2|by exists ts|by apply Forall3_length_lm in M2].
Qed.

(** the stack after a reduction *)
Lemma reduced_consistent cf lex r A w t1 t2 tss Ys Xs es1 es2 pend s q top v : rule ps r (A, w) -> 3 <= r -> Ys <> [] -> trans s A q -> walk 0 Ys (map state_of es1) s ->
  c :: Xs = Ys ++ w -> [] :: tss = t1 ++ t2 -> Forall3 means Ys t1 (map e_val es1) -> means A (concat t2) v -> reads lex0 (concat tss ++ pend) lex ->
  lr_err cf = 0 -> look_ok cf pend ->
  consistent (LR ((bot ++ es1) ++ [lr_result es2 top q v]) q (lr_look cf) (lr_lval cf) (lr_start cf) (lr_end cf) (lr_err cf)) lex.
Proof.
  intros Hr H3 HY Ht W1 EX Et M1 Hv Hreads He Hlook. destruct (trans_states _ _ _ _ _ _ Ht) as [_ Hq]. unfold Gotos.state in Hq.
  split; [done|]. destruct Ys as [|c' Ys]; [done|]. cbn [app] in EX. injection EX as <- EX.
  destruct t1 as [|ts t1]; [by apply Forall3_length_lm in M1|]. cbn [app] in Et. injection Et as <- Et.
  exists (es1 ++ [lr_result es2 top q v]), (Ys ++ [A]), (t1 ++ [concat t2]), pend. cbn [lr_stack lr_state]. split; [by rewrite app_assoc|]. rewrite !map_app. split; [|split; [|split]].
  - rewrite app_comm_cons. apply walk_app. exists (map state_of es1), [q], s. split; [cbn; unfold state_of; cbn; by rewrite state_word|]. by split_and!.
  - change (c :: Ys ++ [A]) with ((c :: Ys) ++ [A]). change ([] :: t1 ++ [concat t2]) with (([] :: t1) ++ [concat t2]). apply Forall3_app; [done|]. by repeat constructor.
  - exact Hlook.
  - rewrite concat_app. cbn [concat]. rewrite app_nil_r, <- concat_app, <- Et. exact Hreads.
Qed.

(** a rule complete on the stack *)
Lemma reduce_good cf lex r A w : consistent cf lex -> rule ps r (A, w) -> 3 <= r -> Mkpar.complete g ps cores (lr_state cf) r ->
  exists next, lr_reduce action tables (length bot) (r - 2) cf lex = Ok next /\ good next.
Proof.
  intros (He & es & Xs & tss & pend & Hs & Hw & Hm & Hlook & Hreads) Hr H3 (Y & K & p & EK & Hr' & Hc).
  pose proof (rule_fun r _ _ Hr Hr') as <-. cbn [snd] in Hc. assert (Hi : item_in (lr_state cf) (first_item ps r + zlen w)) by (by exists Y, K).
  destruct (spelled r A [] w) with (Xs := c :: Xs) (l := map state_of es) (q := lr_state cf) as (Ys & l1 & l2 & s & EX & El & W1 & W2 & Hs1); [by rewrite app_nil_r|done|done|].
  rewrite EX in Hm. apply Forall3_app_inv_l in Hm as (t1 & t2 & v1 & v2 & Et & Ev & M1 & M2).
  destruct (fmap_app_inv _ _ _ _ Ev) as (es1 & es2 & -> & -> & ->). change (fmap e_val) with (map e_val) in M1, M2. rewrite map_app in El. apply app_inj_1 in El as [<- <-].
  2: { rewrite !length_map. apply Forall3_length_lr in M1. rewrite length_map in M1. apply walk_length in W1. unfold zlen in W1. rewrite <- M1. lia. }
  assert (Lw : length es2 = length w) by (apply Forall3_length_lr in M2; rewrite length_map in M2; lia).
  destruct (tf_rule _ _ _ _ _ _ Tf r A w Hr H3) as [Elhs Elen]. unfold lr_reduce. rewrite Elen, Elhs. cbn [rbind].
  destruct (Z.ltb_spec (zlen w) 0) as [?|_]; [pose proof (zlen_nonneg w); lia|].
  rewrite Hs. replace (length (bot ++ es1 ++ es2) - Z.to_nat (zlen w))%nat with (length (bot ++ es1)) by (rewrite !length_app; unfold zlen; lia).
  rewrite app_assoc, take_app_length, drop_app_length. cbv zeta.
  assert (Hp : (length pend <= 1)%nat) by (destruct Hlook as [[_ ->]|(lx & _ & _ & ->)]; cbn; lia).
  assert (Hl1 : length t1 = length Ys) by (symmetry; exact (Forall3_length_lm _ _ _ _ M1)).
  assert (HA : A <> start_symbol g) by (intros ->; pose proof (er_start _ _ _ Er r w Hr); lia).
  destruct (reverse (bot ++ es1)) as [|below rest] eqn:Eb; [apply (f_equal length) in Eb; rewrite length_reverse, length_app in Eb; destruct bot; cbn in Eb; done|].
  destruct (reverse ((bot ++ es1) ++ es2)) as [|top rest2] eqn:Et2; [apply (f_equal length) in Et2; rewrite length_reverse, !length_app in Et2; destruct bot; cbn in Et2; done|].
  destruct (rule_symbols g ps L r _ Hr) as [HAr _]. cbn [fst] in HAr. destruct (tf_goto_any _ _ _ _ _ _ Tf A (Int_val (e_state below))) as [s' Eg]; [lia|]. rewrite Eg. cbn [rbind]. destruct (action (r - 2) (zlen w) ((bot ++ es1) ++ es2)) as [v| |x] eqn:Ea.
  - eexists. split; [done|]. cbn [good]. assert (HY : Ys <> []).
    { intros ->. destruct (map state_of es1) eqn:E1; [|done]. cbn in W1. subst s. destruct (items_first _ Hs1) as (r' & A' & w' & Hr1 & Ei & HA').
      assert (r = r') as <- by (by apply (first_item_inj r r' _ _ Hr Hr1)). pose proof (rule_fun r _ _ Hr Hr1) as Ep. injection Ep as <- <-. destruct HA' as [->| ->]; [done|].
      by apply (at_goal At r w _ v Hr) in Ea. }
    destruct (goto_exists s r A w Hr Hs1 HA) as (q & Ht). assert (Eq : s' = q).
    { destruct es1 as [|e es1 _] using rev_ind; [apply walk_length in W1; destruct Ys; [done|]; rewrite zlen_cons in W1; change (zlen (map state_of [])) with 0 in W1; pose proof (zlen_nonneg Ys); lia|].
      rewrite app_assoc, reverse_snoc in Eb. injection Eb as <- _. rewrite map_app in W1. apply walk_end in W1. fold (state_of e) in Eg. rewrite W1 in Eg.
      destruct (rule_symbols g ps L r _ Hr) as [HA2 _]. cbn in HA2. rewrite (tf_goto _ _ _ _ _ _ Tf s A q Ht) in Eg by lia. by injection Eg as <-. }
    subst s'. apply (reduced_consistent cf lex r A w t1 t2 tss Ys Xs es1 es2 pend s q top v); try done. by apply (at_rule At r A w t2 (bot ++ es1) es2 v).
  - destruct (Z.eqb_spec (zlen w) 0) as [Zw|Nw].
    { destruct w; [|rewrite zlen_cons in Zw; pose proof (zlen_nonneg w); lia]. change (zlen (@nil Z)) with 0 in Ea. by apply (at_empty At r A _ Hr) in Ea. }
    destruct es2 as [|e es2]; [destruct w; [done|cbn in Lw; lia]|].
    apply (recover_fails _ _ (es1 ++ [e])); [done| |by destruct es1|].
    + cbn [lr_stack]. rewrite (cons_middle e (bot ++ es1) es2), app_assoc, app_assoc. rewrite take_app_le by (rewrite !length_app; cbn; lia).
      rewrite take_ge by (rewrite !length_app; cbn; lia). done.
    + assert (H : Forall (fun e => 0 < state_of e < zlen cores) (es1 ++ e :: es2)) by (by apply entry_states in Hw). apply Forall_app in H as [H1 [H2 _]%Forall_cons]. apply Forall_app. by split; [|constructor].
  - eexists. split; [done|]. cbn [good]. by apply (raised_explained x lex r A w t1 t2 tss Ys Xs es2 (bot ++ es1) pend s (map state_of es1)).
Qed.

Lemma consistent_state cf lex : consistent cf lex -> 0 < lr_state cf < zlen cores.
Proof.
  intros (_ & es & Xs & tss & pend & _ & Hw & _). assert (Hs := walk_states _ _ _ _ Hw). destruct (map state_of es) as [|s l _] eqn:E using rev_ind; [done|].
  apply walk_end in Hw as <-. apply Forall_app in Hs as [_ [? _]%Forall_cons]. done.
Qed.

Lemma active_reduction q row a : rd (parser info) q = Ok row -> a ∈ row -> active a = true -> is_shift a = false ->
  exists A w, rule ps (a_number a) (A, w) /\ 3 <= a_number a /\ Mkpar.complete g ps cores q (a_number a).
Proof.
  intros Erow Ha Aa Sa. destruct (row_facts g ps L cores ss rs Au pr info Pf q row Erow) as [_ Hf]. destruct (Hf a Ha Aa) as [[(t & s' & _ & _ & ->)|(r & t & Hc & _ & _ & ->)] _]; [done|].
  cbn. pose proof (complete_rule g ps L cores ss rs Au q r Ag Hc). pose proof Hc as (X & K & [A w] & _ & Hr & _). by exists A, w.
Qed.

Lemma act_good cf lex : consistent cf lex -> 0 <= lr_look cf ->
  exists next, lr_act action error_function tables (length bot) cf lex = Ok next /\ good next.
Proof.
  intros Hc Hl0. pose proof (consistent_state _ _ Hc) as Hq. pose proof Hc as (He & es & Xs & tss & pend & Hs & Hw & Hm & Hlook & Hreads).
  assert (Hn : es <> []) by (intros ->; by destruct Hw). assert (Hst := entry_states _ _ _ _ Hw).
  destruct (rd_in_range (parser info) (lr_state cf)) as [row Erow]; [rewrite (pf_states _ _ _ _ _ Pf); lia|].
  destruct (pf_default _ _ _ _ _ Pf _ row Erow) as (d & Ed & _). unfold lr_act.
  destruct (tf_shift _ _ _ _ _ _ Tf _ row _ Erow Hl0) as (o & Eo & Ho). rewrite Eo. cbn [rbind]. destruct o as [s|].
  - eexists. split; [done|]. rewrite He. change (0 <? 0) with false. cbn iota. destruct (proj1 (Ho s) eq_refl) as (a & Ha & Aa & Sa & Ecode & <-).
    destruct (row_facts g ps L cores ss rs Au pr info Pf _ row Erow) as [_ Hf]. destruct (Hf a Ha Aa) as [[(t & s & _ & Htr & ->)|(r & t & _ & _ & _ & ->)] [Ht _]]; [|done]. cbn in *.
    destruct (trans_states _ _ _ _ _ _ Htr) as [_ Hs2]. unfold Gotos.state in Hs2.
    destruct Hlook as [[El' _]|(lx & _ & Hmt & ->)]; [lia|]. specialize (Hmt t Ht (eq_sym Ecode)). split; [done|].
    exists (es ++ [Entry (Val_int s) (lr_lval cf) (lr_start cf) (lr_end cf)]), (Xs ++ [t]), (tss ++ [[lx]]), []. cbn [lr_push lr_stack lr_state lr_look].
    split; [by rewrite Hs, app_assoc|]. rewrite !map_app. split; [|split; [|split]].
    + rewrite app_comm_cons. apply walk_app. exists (map state_of es), [s], (lr_state cf). split; [cbn; unfold state_of; cbn; by rewrite state_word|]. by split_and!.
    + rewrite !app_comm_cons. apply Forall3_app; [done|]. by repeat constructor.
    + by left.
    + rewrite concat_app. cbn [concat]. by rewrite !app_nil_r.
  - destruct (tf_reduce _ _ _ _ _ _ Tf _ row d _ Erow Ed Hl0) as (o & Eo2 & Ho2). unfold lookup_with in Eo2.
    destruct (table_index tables (rindex tables) (lr_state cf) (lr_look cf)) as [[n2|]| | |]; cbn [rbind] in Eo2 |- *; try done.
    + destruct (Short (Parsing.table tables) n2) as [n| | |]; cbn [rbind] in Eo2 |- *; try done. injection Eo2 as <-.
      destruct (proj1 (Ho2 n) eq_refl) as (a & Ha & Aa & Sa & _ & _ & <-). destruct (active_reduction _ row a Erow Ha Aa Sa) as (A & w & Hr & H3 & Hcm).
      by apply (reduce_good cf lex (a_number a) A w).
    + rewrite He. change (0 <? 0) with false. cbn iota. destruct error_function as [x|] eqn:Ef; [eexists; split; [done|]; by eapply by_error_function|].
      by apply (recover_fails cf lex es).
Qed.

Lemma code_of_token t k v : token_code tables t = Ok (k, v) -> exists X, 0 <= X < ntokens g /\ k = zget sv X.
Proof.
  assert (C : forall c, c ∈ transl_const tables \/ c ∈ transl_block tables -> exists X, 0 <= X < ntokens g /\ Int_val c = zget sv X).
  { intros c' Hc'. destruct (tf_codes _ _ _ _ _ _ Tf c' Hc') as (X & HX & ->). exists X. split; [done|]. apply Int_val_int. pose proof (sv_token _ _ Sv X HX). unfold is_s32, MAXSHORT in *. lia. }
  unfold token_code. destruct (Is_long (tok t)).
  - intros (c' & [_ Ec]%rd_Ok & [= <- _])%rbind_Ok. apply C. left. by apply list_elem_of_lookup_2 in Ec.
  - intros (tg & _ & (c' & [_ Ec]%rd_Ok & (v' & _ & [= <- _])%rbind_Ok)%rbind_Ok)%rbind_Ok. apply C. right. by apply list_elem_of_lookup_2 in Ec.
Qed.

Lemma step_good cf lex : consistent cf lex -> unreadable lexer tables cf lex \/
  exists next, lr_step lexer action error_function tables (length bot) cf lex = Ok next /\ good next.
Proof.
  intros Hc. pose proof (consistent_state _ _ Hc) as Hq. unfold lr_step.
  destruct (rd_in_range (parser info) (lr_state cf)) as [row Erow]; [rewrite (pf_states _ _ _ _ _ Pf); lia|].
  destruct (pf_default _ _ _ _ _ Pf _ row Erow) as (d & Ed & Hd & Hdr & _). pose proof (tf_default _ _ _ _ _ _ Tf (lr_state cf) d ltac:(lia) Ed) as Edef.
  rewrite Edef. cbn [rbind]. destruct (decide (d = 0)) as [->|Nd]; [rewrite Z.eqb_refl in *|rewrite (proj2 (Z.eqb_neq d 0) Nd) in *].
  - change (negb (0 =? 0)) with false. cbn iota. pose proof Hc as (He & es & Xs & tss & pend & Hs & Hw & Hm & Hlook & Hreads).
    destruct Hlook as [[El ->]|(lx & Hl0 & _)]; [|right; destruct (Z.leb_spec 0 (lr_look cf)); [|lia]; by apply (act_good cf lex)].
    rewrite El. change (0 <=? -1) with false. cbn iota. rewrite app_nil_r in Hreads.
    destruct (lexer lex) as [[t|x] lex'] eqn:Elx; [|right; eexists; split; [done|]; by eapply by_lexer].
    destruct (token_code tables t) as [[k v]|e| |] eqn:Et; cbn [rbind];
      [right|left; split; [done|]; split; [lia|]; exists t, lex'; split; [done|]; intros kv; by rewrite Et..].
    destruct (code_of_token t k v Et) as (X & HX & ->). pose proof (sv_token _ _ Sv X HX).
    apply (act_good _ lex'); [|cbn; lia]. split; [done|]. exists es, Xs, tss, [t]. cbn [lr_stack lr_state]. split; [done|]. split; [done|]. split; [done|]. split.
    + right. exists t. split; [cbn; lia|]. split; [|done]. cbn. intros X' HX' EX'. apply (at_token At); [done|]. by rewrite <- EX'.
    + by eapply reads_token.
  - right. destruct Hdr as [Hall (a & Ha & Aa & _)]; [lia|]. destruct (Hall a Ha Aa) as [Sa <-]. destruct (active_reduction _ row a Erow Ha Aa Sa) as (A & w & Hr & H3 & Hcm).
    destruct (Z.eqb_spec (a_number a - 2) 0); [lia|]. cbn [negb]. by apply (reduce_good cf lex (a_number a) A w).
Qed.

Lemma first_good r S v st en : rule ps r (goal, [c; S]) -> means c [] v -> exists next,
  lr_step lexer action error_function tables (length bot) (LR bot 0 (zget sv c) v st en 0) lex0 = Ok next /\ good next.
Proof.
  intros Hr Hv. destruct (er_entry _ _ _ Er r _ Hr) as (c' & S' & [= <- <-] & Hc). unfold lr_step. cbn [lr_state lr_look].
  pose proof (la_start _ _ _ _ _ Au) as H0. apply rd_range in H0. rewrite zlen_kernels in H0.
  destruct (rd_in_range (parser info) 0) as [row Erow]; [by rewrite (pf_states _ _ _ _ _ Pf)|].
  rewrite (tf_default _ _ _ _ _ _ Tf 0 0 H0 (first_default r c S Hr)). cbn [rbind]. change (negb ((if 0 =? 0 then 0 else 0 - 2) =? 0)) with false. cbn iota.
  pose proof (sv_token _ _ Sv c ltac:(lia)) as Hcv. destruct (Z.leb_spec 0 (zget sv c)) as [_|]; [|lia]. unfold lr_act. cbn [lr_state lr_look].
  destruct (tf_shift _ _ _ _ _ _ Tf 0 row (zget sv c) Erow) as (o & Eo & Ho); [lia|]. rewrite Eo. cbn [rbind].
  destruct (first_row r c S row Hr Erow) as (a & Ha & Aa & Sa & Ea). assert (Es : o = Some (a_number a)) by (apply Ho; exists a; by rewrite Ea). subst o.
  eexists. split; [done|]. destruct (row_facts g ps L cores ss rs Au pr info Pf 0 row Erow) as [_ Hf]. destruct (Hf a Ha Aa) as [[(t & s & _ & Ht & ->)|(r' & t & _ & _ & _ & ->)] _]; [|done].
  cbn in Ea |- *. subst t. destruct (trans_states _ _ _ _ _ _ Ht) as [_ Hs2]. unfold Gotos.state in Hs2. split; [done|].
  exists [Entry (Val_int s) v st en], [], [], []. split; [done|]. split; [|split; [|split]].
  - cbn. unfold state_of. cbn. rewrite state_word by done. by split.
  - by repeat constructor.
  - by left.
  - constructor.
Qed.

(** the configurations of a parse: the first one, and those after the token of the entry *)
Definition parsing (first : lr_config) (cf : lr_config) (lex : LX) : Prop := (cf = first /\ lex = lex0) \/ consistent cf lex.

Lemma parsing_live r S v st en : rule ps r (goal, [c; S]) -> means c [] v ->
  live lexer action error_function tables (length bot) (parsing (LR bot 0 (zget sv c) v st en 0)).
Proof.
  intros Hr Hv cf lex [[-> ->]|Hc].
  - right. destruct (first_good r S v st en Hr Hv) as (next & E & Hn). exists next. split; [done|]. destruct next; [by right|done].
  - destruct (step_good cf lex Hc) as [?|(next & E & Hn)]; [by left|right]. exists next. split; [done|]. destruct next; [by right|done].
Qed.

Lemma run_good n : forall cf lex x lex', consistent cf lex -> lr_run lexer action error_function n tables (length bot) cf lex = Ok (Raised x, lex') -> explained x lex'.
Proof.
  induction n as [|n IH]; intros cf lex x lex' Hc E; [done|]. cbn [lr_run] in E. apply rbind_Ok in E as (next & Es & E).
  destruct (step_good cf lex Hc) as [(En & Hl & t & lex2 & Elx & Ht)|(next' & Es' & Hn)].
  - exfalso. unfold lr_step in Es. rewrite En in Es. cbn [rbind] in Es. change (negb (0 =? 0)) with false in Es. cbn iota in Es.
    destruct (Z.leb_spec 0 (lr_look cf)); [lia|]. rewrite Elx in Es. apply rbind_Ok in Es as (kv & Ek & _). by apply (Ht kv).
  - rewrite Es in Es'. injection Es' as <-. destruct next as [cf' lex1|e lex1]; [by apply (IH cf' lex1)|]. by injection E as -> ->.
Qed.

Lemma parse_explained n r S v st en x lex' : rule ps r (goal, [c; S]) -> means c [] v ->
  lr_run lexer action error_function n tables (length bot) (LR bot 0 (zget sv c) v st en 0) lex0 = Ok (Raised x, lex') -> explained x lex'.
Proof.
  intros Hr Hv E. destruct n as [|n]; [done|]. cbn [lr_run] in E. apply rbind_Ok in E as (next & Es & E).
  destruct (first_good r S v st en Hr Hv) as (next' & Es' & Hn). rewrite Es in Es'. injection Es' as <-.
  destruct next as [cf' lex1|e lex1]; [by apply (run_good n cf' lex1)|]. by injection E as -> ->.
Qed.

End Stack.
