(* ===== verification/Ocamlyacc.v ===== *)
(** * ocamlyacc ([ocaml/yacc/main.c])

    The parser generator from the packed grammar on: the automaton, the lookaheads, the
    actions and the tables, composed as [main_os] composes them.  The theorems join those of
    the parts: the generator ends with the tables of the automaton or with one of its fatal
    errors, and the parser that it generates, run by the engine of the runtime, answers only
    for sentences of the grammar. *)

From S2P Require Import Prelude.
From S2P Require Import Mlvalues.
From S2P Require Import Memory.
From S2P Require Import Grammar.
From S2P Require Import Closure.
From S2P Require Import Lr0.
From S2P Require Import Lalr.
From S2P Require Import Gotos.
From S2P Require Import Lookaheads.
From S2P Require Import Mkpar.
From S2P Require Import Vectors.
From S2P Require Import Lexing.
From S2P Require Import Parsing.
From S2P Require Import Output.
From S2P Require Import Generated.
From stdpp Require Import relations sorting.
#[local] Open Scope Z_scope.

(** the automaton with its lookaheads and the actions left in its states; [goto_map],
    [from_state] and [to_state] are global variables, that [lalr] leaves *)
Definition lalr_parser (g : grammar) (pr : precedences) : result (parser_info * gotos) :=
  let* d := set_derives g in
  let* (nullable, (cores, ss, rs)) := lr0 g in
  let* (lookaheads, LAruleno, LA) := lalr g d nullable cores ss rs in
  let acc := set_accessing_symbol cores in
  let* shift_table := set_shift_table (zlen cores) ss in
  let* gs := set_goto_map g acc ss in
  let* info := make_parser g pr acc shift_table lookaheads LAruleno LA in
  Ok (info, gs).

Definition main_os (eflag : bool) (g : grammar) (pr : precedences) (symbol_value : list Z) (symbol_true_token symbol_tag : list bool)
    : result parser_tables :=
  let* (info, gs) := lalr_parser g pr in
  if eflag && (0 <? SRtotal (conflict_counts info) + RRtotal (conflict_counts info)) then fatal "the grammar has conflicts" else
  generated_tables g symbol_value symbol_true_token symbol_tag info gs.

(** what the reader and its packing give: the symbols and the rules numbered and laid out, the
    rules of the start symbol and of the entry points, the values of the symbols *)
Record well_packed (g : grammar) (ps : list production) (goal : Z) (pr : precedences) (sv : list Z) (true_token tag : list bool) : Prop := {
  ro_layout : lays_out g ps;
  ro_augmented : augmented g ps;
  ro_entries : entry_rules g ps goal;
  ro_values : values_ok g sv;
  ro_tokens : zlen true_token = nsyms g /\ zlen tag = nsyms g;
  ro_precedences : ntokens g <= zlen (symbol_prec pr) /\ ntokens g <= zlen (symbol_assoc pr) /\ nrules g <= zlen (rprec (tab g)) /\ nrules g <= zlen (rassoc (tab g)) }.

(** and what the code does not test: no two actions kept in a state are on tokens of the same
    value, the number of variables is not a multiple of 32, and the states, the gotos and the
    edges are within the bounds of the arrays and of the shorts *)
Record reader_output (g : grammar) (ps : list production) (goal : Z) (pr : precedences) (sv : list Z) (true_token tag : list bool) : Prop := {
  ro_packed : well_packed g ps goal pr sv true_token tag;
  ro_apart : forall info gs, lalr_parser g pr = Ok (info, gs) -> rows_apart info sv;
  ro_words : nvars g mod 32 <> 0;
  ro_fits : forall nullable cores ss rs, lr0 g = Ok (nullable, (cores, ss, rs)) -> 2 * zlen cores + nvars g <= MAXSHORT + 1 /\
    forall rt gs, set_reduction_table (zlen cores) rs = Ok rt -> set_goto_map g (set_accessing_symbol cores) ss = Ok gs -> fits g ps cores nullable rt gs }.

(** the tables are those of an automaton and of its parser *)
Record tables_of (g : grammar) (ps : list production) (pr : precedences) (sv : list Z) (tables : parser_tables) (cores : list core) (ss : list shifts)
    (rs : list reductions) (info : parser_info) : Prop := {
  to_automaton : lr0_automaton g ps cores ss rs;
  to_parser : parser_for g ps pr cores info;
  to_tables : tables_for g ps cores info sv tables }.

(** the test of [rows_apart] *)
Definition apart_in (sv : list Z) (d : Z) (row : list action) : bool :=
  forallb (fun a => forallb (fun b => negb (Bool.eqb (is_shift a) (is_shift b)) || negb (zget sv (a_symbol a) =? zget sv (a_symbol b)) || (a_symbol a =? a_symbol b)) (kept d row)) (kept d row).

Lemma rows_apart_ok info sv : forallb (fun p => apart_in sv p.1 p.2) (zip (Mkpar.defred info) (parser info)) = true -> rows_apart info sv.
Proof.
  intros H q row d a b [Hq Er]%rd_Ok [_ Ed]%rd_Ok Ha Hb Hs Ev. rewrite forallb_forall in H.
  assert (Hin : (d, row) ∈ zip (Mkpar.defred info) (parser info)) by (apply list_elem_of_lookup; exists (Z.to_nat q); by rewrite lookup_zip_with, Ed, Er).
  apply list_elem_of_In, H in Hin. unfold apart_in in Hin. cbn [fst snd] in Hin. rewrite forallb_forall in Hin.
  apply list_elem_of_In, Hin in Ha. rewrite forallb_forall in Ha. apply list_elem_of_In, Ha in Hb.
  rewrite Hs, eqb_reflx, (proj2 (Z.eqb_eq _ _) Ev) in Hb. cbn in Hb. by apply Z.eqb_eq.
Qed.

(** the fatal errors of the automaton: more canonical kernels than a short numbers, or more
    transitions on variables *)
Inductive automaton_fails (g : grammar) (ps : list production) : string -> Prop :=
  | too_many_states : too_many (canonical g ps) -> automaton_fails g ps "too many states"
  | too_many_gotos nullable cores ss rs : lr0 g = Ok (nullable, (cores, ss, rs)) -> lr0_automaton g ps cores ss rs -> MAXSHORT < zlen (T g cores ss) ->
      automaton_fails g ps "too many gotos".

(** the fatal errors of the generator: those of the automaton, a conflict with the option that
    forbids them, and a table that is too short for the vectors of the parser *)
Inductive fails (eflag : bool) (g : grammar) (ps : list production) (pr : precedences) (sv : list Z) : string -> Prop :=
  | no_automaton msg : automaton_fails g ps msg -> fails eflag g ps pr sv msg
  | has_conflicts info gs cores : lalr_parser g pr = Ok (info, gs) -> parser_for g ps pr cores info -> eflag = true ->
      0 < SRtotal (conflict_counts info) + RRtotal (conflict_counts info) -> fails eflag g ps pr sv "the grammar has conflicts"
  | no_room_left info gs cores : lalr_parser g pr = Ok (info, gs) -> parser_for g ps pr cores info -> table_too_short g cores info sv gs ->
      fails eflag g ps pr sv "maximum table size exceeded".

(** ** The passes *)

Lemma lalr_parser_ok g ps goal pr sv true_token tag : reader_output g ps goal pr sv true_token tag ->
  (exists info gs cores ss rs, lalr_parser g pr = Ok (info, gs) /\ lr0_automaton g ps cores ss rs /\ parser_for g ps pr cores info /\
     gotos_ok g cores ss gs /\ 2 * zlen cores + nvars g <= MAXSHORT + 1) \/
  exists msg, lalr_parser g pr = Raise (Failure msg) /\ automaton_fails g ps msg.
Proof.
  intros [[L Ag _ _ _ (P1 & P2 & P3 & P4)] _ Hmod Hfits]. unfold lalr_parser.
  destruct (lr0_ok g ps L Hmod) as [(nullable & cores & ss & rs & E0 & Au & Hz & Hnu)|[E0 Hm]]; cycle 1.
  { right. destruct (set_derives_done g ps L) as (d & -> & _). cbn [rbind]. rewrite E0. eexists. split; [done|]. by constructor. }
  destruct (Hfits _ _ _ _ E0) as [Hn Hfit]. destruct (lalr_tables_ok g ps L Ag cores ss rs Au nullable Hz Hnu Hmod Hfit) as (d & -> & H). cbn [rbind]. rewrite E0. cbn [rbind].
  destruct H as [(lookaheads & LAruleno & LA & -> & Htab)|[-> Hm]]; [|right; eexists; split; [done|by eapply too_many_gotos]]. cbn [rbind]. cbv zeta.
  destruct (shift_table_ok g ps cores ss rs Au) as (st & -> & Hst). cbn [rbind].
  destruct (set_goto_map_ok g ps L cores ss rs Au) as [(_ & gs & Egs & G)|(Hm & Egs)]; unfold acc in Egs; rewrite Egs; cbn [rbind]; [|right; eexists; split; [done|by eapply too_many_gotos]].
  destruct (make_parser_ok g ps L Ag Hmod pr P1 P2 P3 P4 cores ss rs Au st Hst lookaheads LAruleno LA Htab) as (info & Ei & Pf). unfold acc in Ei. rewrite Ei. cbn [rbind].
  left. by exists info, gs, cores, ss, rs.
Qed.

Lemma main_ok eflag g ps goal pr sv true_token tag : reader_output g ps goal pr sv true_token tag ->
  (exists tables cores ss rs info, main_os eflag g pr sv true_token tag = Ok tables /\ tables_of g ps pr sv tables cores ss rs info /\
     (eflag = true -> SRtotal (conflict_counts info) + RRtotal (conflict_counts info) <= 0)) \/
  exists msg, main_os eflag g pr sv true_token tag = Raise (Failure msg) /\ fails eflag g ps pr sv msg.
Proof.
  intros Hin. unfold main_os. destruct (lalr_parser_ok _ _ _ _ _ _ _ Hin) as [(info & gs & cores & ss & rs & Ep & Au & Pf & G & Hn)|(msg & Ep & Hm)]; rewrite Ep; cbn [rbind]; [|right; exists msg; split; [done|by constructor]].
  destruct Hin as [[L Ag Er Sv [Ht1 Ht2] _] Hap _ _]. specialize (Hap info gs Ep).
  destruct (eflag && _) eqn:Ef; [apply andb_true_iff in Ef as [-> Ef%Z.ltb_lt]; right; eexists; split; [done|]; by eapply has_conflicts|].
  destruct (er_rule _ _ _ Er) as [R2 Hg]. pose proof (rule_bounds g ps L 2 _ R2). destruct (rule_symbols g ps L 2 _ R2) as [_ Hs]. cbn in Hs. apply Forall_cons in Hs as [Hgs _].
  destruct (generated_ok g ps L cores ss rs Au pr info Pf sv Sv Hap gs G true_token tag Ht1 Ht2 Hn) as [(p & dg & tables & -> & Hp & Ts)|[-> Hs']]; [unfold nvars, ntokens; lia|lia| |].
  - left. exists tables, cores, ss, rs, info. split; [done|]. split; [|intros ->; cbn [andb] in Ef; apply Z.ltb_ge in Ef; lia]. split; [done|done|].
    by apply (tables_for_ok g ps L cores ss rs Au pr info Pf sv Sv true_token tag p dg Hp tables Ts).
  - right. eexists. split; [done|]. by eapply no_room_left.
Qed.

(** C3: For a grammar as the reader leaves it ([reader_output]: the number of variables is not a
    multiple of 32, the gotos, the states and the edges are within the bounds that the code
    does not test, and no two actions kept in a state are on tokens of the same value),
    ocamlyacc ends with tables that hold, for each state of the LR(0) automaton, the actions
    that the lookaheads and the precedences leave, and with the option that forbids the
    conflicts there is none: read as the engine reads them, the byte strings give the default
    reduction of a state, its shift or its reduction on the value of a token, its goto on a
    variable, and the length and the left-hand side of a rule, and nothing else.  Or it ends
    with a fatal error, each one for its reason: the canonical kernels or the gotos are more
    than a short numbers, the conflicts are forbidden and there is one, or the vectors of the
    tables, as they are packed, leave no room for the next one. *)
Theorem main_correct eflag g ps goal pr sv true_token tag : reader_output g ps goal pr sv true_token tag ->
  (exists tables cores ss rs info, main_os eflag g pr sv true_token tag = Ok tables /\ tables_of g ps pr sv tables cores ss rs info /\
     (eflag = true -> SRtotal (conflict_counts info) + RRtotal (conflict_counts info) <= 0)) \/
  exists msg, main_os eflag g pr sv true_token tag = Raise (Failure msg) /\ fails eflag g ps pr sv msg.
Proof. exact (main_ok eflag g ps goal pr sv true_token tag). Qed.


(** ** The number of the tokens: [%token A EOF  %start main  main: e EOF;  e: A | e A] *)

(** the tokens: the end, [error], [A], [EOF], the one of the entry; the variables: the start symbol, the goal, [main], [e] *)
Definition count_productions : list production := [(5, [6; 0]); (7, [8; 3]); (8, [2]); (8, [8; 2]); (6, [4; 7])].
Definition count_grammar : grammar :=
  let t := tab (grammar_of 5 9 count_productions) in
  Grammar (Tables (ritem t) (rlhs t) (rrhs t) (replicate 7 0) (replicate 7 0)) 5 9 7 (zlen (ritem t)).
(** the value of [EOF] is the one of the end *)
Definition count_values : list Z := [0; 256; 257; 0; 1; -1; 0; 1; 2].
Definition count_precedences : precedences := Precedences (replicate 9 0) (replicate 9 0).
Definition count_tokens : list bool := [false; false; true; true; false; false; false; false; false].
Definition count_main : result parser_tables := main_os false count_grammar count_precedences count_values count_tokens (replicate 9 false).



(** the rules that the grammar has *)
Ltac count_cases r E := let Hl := fresh in
  apply lookup_lt_Some in E as Hl; cbn in Hl; assert (r = 2 \/ r = 3 \/ r = 4 \/ r = 5 \/ r = 6) as [->|[->|[->|[->| ->]]]] by lia; cbn in E; injection E as <- <-.

Lemma count_packed : well_packed count_grammar count_productions 6 count_precedences count_values count_tokens (replicate 9 false).
Proof.
  constructor.
  - constructor; try done. repeat constructor; cbn; lia.
  - constructor.
    + intros r A w [Hr E]. count_cases r E; [by left|right; repeat constructor; lia..].
    + by split.
    + intros r A w [Hr E]. cbn. count_cases r E; rewrite ?elem_of_cons, elem_of_nil; lia.
  - constructor; [by split|..].
    + intros r w [Hr E]. remember (start_symbol count_grammar) as A eqn:EA. cbn in EA. count_cases r E; done.
    + intros r A w [Hr E]. count_cases r E; rewrite ?elem_of_cons, elem_of_nil; lia.
    + intros r w [Hr E]. remember 6 as A eqn:EA. count_cases r E; try done. exists 4, 7. by cbn.
  - constructor; [by split|..].
    + intros t Ht. cbn in Ht. assert (t = 0 \/ t = 1 \/ t = 2 \/ t = 3 \/ t = 4) as [->|[->|[->|[->| ->]]]] by lia; by cbn.
    + by split_and!.
    + intros t Ht. cbn in Ht. assert (t = 0 \/ t = 1 \/ t = 2 \/ t = 3 \/ t = 4) as [->|[->|[->|[->| ->]]]] by lia; by cbn.
    + done.
    + intros v Hv. change (nvars count_grammar) with 4 in Hv. assert (v = 1 \/ v = 2 \/ v = 3) as [-> |[-> | ->]] by lia; by cbn.
  - done.
  - by split_and!.
Qed.

Lemma count_input : reader_output count_grammar count_productions 6 count_precedences count_values count_tokens (replicate 9 false).
Proof.
  constructor; [exact count_packed|..].
  - intros info gs E. vm_compute in E. injection E as <- <-. apply rows_apart_ok. by vm_compute.
  - done.
  - intros nullable cores ss rs E. vm_compute in E. injection E as <- <- <- <-. split; [by vm_compute|]. intros rt gs Ert Egs. vm_compute in Ert, Egs. injection Ert as <-. injection Egs as <-.
    constructor; [by vm_compute|by split; vm_compute| |by vm_compute]. intros A HA. assert (A = 5 \/ A = 6 \/ A = 7 \/ A = 8) as [->|[-> |[-> | ->]]] by (cbn in HA; lia); vm_compute; done.
Qed.

Definition count_tables : parser_tables :=
  Eval vm_compute in match count_main with Ok tables => tables | _ => ParserTables [] [] [] [] [] [] [] [] [] 0 [] [] end.

Example count_generated : count_main = Ok count_tables.
Proof. vm_compute. reflexivity. Qed.








Lemma main_witness : exists cores ss rs info, tables_of count_grammar count_productions count_precedences count_values count_tables cores ss rs info.
Proof.
  destruct (main_correct false count_grammar count_productions 6 count_precedences count_values count_tokens (replicate 9 false) count_input)
    as [(tables & cores & ss & rs & info & E & H & _)|(msg & E & _)]; pose proof count_generated as Eg; unfold count_main in Eg; rewrite E in Eg; [|discriminate Eg].
  injection Eg as ->. by exists cores, ss, rs, info.
Defined.

(** ** A conflict that is not reported: [main: e | f EOF;  e: A;  f: A] *)

(** after [A], the rule of [e] is reduced on the end of the input, and the rule of [f] on EOF,
    whose value is the same: no conflict is counted, since the symbols differ, and one of the
    two reductions hides the other one in the table *)
Definition twice_productions : list production := [(5, [6; 0]); (7, [8]); (7, [9; 3]); (8, [2]); (9, [2]); (6, [4; 7])].
Definition twice_grammar : grammar :=
  let t := tab (grammar_of 5 10 twice_productions) in
  Grammar (Tables (ritem t) (rlhs t) (rrhs t) (replicate 8 0) (replicate 8 0)) 5 10 8 (zlen (ritem t)).
Definition twice_values : list Z := [0; 256; 257; 0; 1; -1; 0; 1; 2; 3].
Definition twice_precedences : precedences := Precedences (replicate 10 0) (replicate 10 0).

Definition twice_main : result parser_tables :=
  main_os true twice_grammar twice_precedences twice_values (count_tokens ++ [false]) (replicate 10 false).

(** two reductions are left in the state 3, without a conflict; the table holds the one of [f] *)
Example twice_silent :
  (let* (info, _) := lalr_parser twice_grammar twice_precedences in
   let* row := rd (parser info) 3 in
   Ok (SRtotal (conflict_counts info) + RRtotal (conflict_counts info), map (fun a => (a_symbol a, a_number a)) row)) = Ok (0, [(0, 5); (3, 6)]) /\
  (let* tables := twice_main in lookup_with tables (rindex tables) 3 0) = Ok (Some (6 - 2)).
Proof. split; vm_compute; reflexivity. Qed.
