(* ===== verification/Reader.v ===== *)
(** * The end of the reader of ocamlyacc ([ocaml/yacc], symtab.c, end of reader.c)

    The table of the symbols, and what follows the reading of the rules: the goal and a rule
    for each entry point ([make_goal]), the test that the symbols are defined
    ([check_symbols]), the numbers and the values of the symbols ([pack_symbols]) and the
    rules packed ([Grammar.pack_grammar]).

    A pointer to a symbol is its place in the list from [first_symbol], to which symbols are
    only added; [link] is the order of the chains of the table.  The elements of an array
    that the code has not written are [junk] or [z].  The text written to the files and the
    pool of the names are left out. *)

From S2P Require Import Prelude.
From S2P Require Import Grammar.
From S2P Require Import Lr0.
From S2P Require Import Mkpar.
#[local] Open Scope Z_scope.

(** ** The table of the symbols *)

Inductive symbol_class := UNKNOWN | TERM | NONTERM.

#[export] Instance symbol_class_eq_dec : EqDecision symbol_class.
Proof. solve_decision. Defined.

Record symbol := Symbol {
  s_name : list Z;
  s_tag : option (list Z);
  s_value : Z;
  s_index : Z;
  s_prec : Z;
  s_class : symbol_class;
  s_assoc : Z;
  s_entry : Z;
  s_true_token : bool }.

Definition set_class (c : symbol_class) (b : symbol) : symbol :=
  Symbol (s_name b) (s_tag b) (s_value b) (s_index b) (s_prec b) c (s_assoc b) (s_entry b) (s_true_token b).
Definition set_value (x : Z) (b : symbol) : symbol :=
  Symbol (s_name b) (s_tag b) (s16 x) (s_index b) (s_prec b) (s_class b) (s_assoc b) (s_entry b) (s_true_token b).
Definition set_index (x : Z) (b : symbol) : symbol :=
  Symbol (s_name b) (s_tag b) (s_value b) (s16 x) (s_prec b) (s_class b) (s_assoc b) (s_entry b) (s_true_token b).

Definition is_term (b : symbol) : bool := bool_decide (s_class b = TERM).

(** [p->field = ...] *)
Definition update (syms : list symbol) (p : Z) (f : symbol -> symbol) : result (list symbol) :=
  let* b := rd syms p in wr syms p (f b).

Definition TABLE_SIZE : Z := 4096.
Definition MAX_ENTRY_POINT : Z := 255.

(** a char, which is signed *)
Definition s8 (c : Z) : Z := (c + 128) mod 256 - 128.

Fixpoint hash_from (k : Z) (s : list Z) : Z :=
  match s with
  | [] => k
  | c :: s => hash_from (Z.land (31 * k + s8 c) (TABLE_SIZE - 1)) s
  end.

(** assert(name && *name) *)
Definition hash (name : list Z) : result Z :=
  match name with [] => Undef | c :: s => Ok (hash_from (s8 c) s) end.

Definition make_bucket (name : list Z) : symbol := Symbol name None UNDEFINED 0 0 UNKNOWN TOKEN 0 false.

(** the symbols from [first_symbol], and the chains of [symbol_table] *)
Record symbols := Symbols { all : list symbol; chains : list (list Z) }.

(** while (bp) ... *)
Fixpoint find_name (syms : list symbol) (name : list Z) (chain : list Z) : result (option Z) :=
  match chain with
  | [] => Ok None
  | p :: chain =>
      let* b := rd syms p in
      if decide (s_name b = name) then Ok (Some p) else find_name syms name chain
  end.

Definition lookup (st : symbols) (name : list Z) : result (symbols * Z) :=
  let* h := hash name in
  let* chain := rd (chains st) h in
  let* o := find_name (all st) name chain in
  match o with
  | Some p => Ok (st, p)
  | None =>
      let p := zlen (all st) in
      let* cs := wr (chains st) h (chain ++ [p]) in
      Ok (Symbols (all st ++ [make_bucket name]) cs, p)
  end.

Definition error_name : list Z := [101; 114; 114; 111; 114].

Definition create_symbol_table : result symbols :=
  let bp := set_class TERM (set_index 1 (make_bucket error_name)) in
  let* h := hash error_name in
  let* cs := wr (replicate (Z.to_nat TABLE_SIZE) []) h [0] in
  Ok (Symbols [bp] cs).

(** ** The rules of the entry points *)

(** [maxitems] and [maxrules] are the lengths of the arrays *)
Record reader := Reader {
  table : symbols;
  pitem : list (option Z);
  plhs : list (option Z);
  rprecs : list Z;
  rassocs : list Z;
  items : Z;
  nb_rules : Z;
  last_was_action : bool }.

Section Arrays.
Context (junk : option Z) (z : Z).

Definition expand_items (l : list (option Z)) : list (option Z) := l ++ replicate 300 junk.
Definition expand_rules {A} (x : A) (l : list A) : list A := l ++ replicate 100 x.

Definition start_rule (st : reader) (bp : Z) : result reader :=
  let* b := rd (all (table st)) bp in
  if is_term b then fatal "a token appears on the lhs of a production" else
  let* syms := update (all (table st)) bp (set_class NONTERM) in
  let grow := zlen (plhs st) <=? nb_rules st in
  let* lhs := wr (if grow then expand_rules junk (plhs st) else plhs st) (nb_rules st) (Some bp) in
  let* precs := wr (if grow then expand_rules z (rprecs st) else rprecs st) (nb_rules st) UNDEFINED in
  let* assocs := wr (if grow then expand_rules z (rassocs st) else rassocs st) (nb_rules st) TOKEN in
  Ok (Reader (Symbols syms (chains (table st))) (pitem st) lhs precs assocs (items st) (nb_rules st) (last_was_action st)).

Definition end_rule (st : reader) : result reader :=
  if negb (last_was_action st) then fatal "no action specified for this production" else
  let* its := wr (if zlen (pitem st) <=? items st then expand_items (pitem st) else pitem st) (items st) None in
  Ok (Reader (table st) its (plhs st) (rprecs st) (rassocs st) (items st + 1) (nb_rules st + 1) false).

Definition goal_name : list Z := [37; 101; 110; 116; 114; 121; 37].

(** static char name[7] = "'\\xxx'" *)
Definition entry_name (e : Z) : list Z :=
  [39; 92; 48 + Z.land (Z.shiftr e 6) 7; 48 + Z.land (Z.shiftr e 3) 7; 48 + Z.land e 7; 39].

Definition caml_ident_start : list Z :=
  [0; 0; 0; 0; 0; 0; 0; 0; 254; 255; 255; 135; 254; 255; 255; 7; 0; 0; 0; 0; 0; 0; 0; 0; 255; 255; 127; 255; 255; 255; 127; 255].
Definition caml_ident_body : list Z :=
  [0; 0; 0; 0; 128; 0; 255; 3; 254; 255; 255; 135; 254; 255; 255; 7; 0; 0; 0; 0; 0; 0; 0; 0; 255; 255; 127; 255; 255; 255; 127; 255].

Definition In_bitmap (bm : list Z) (c : Z) : bool := Z.testbit (zget bm (Z.shiftr c 3)) (Z.land c 7).

Fixpoint skip_while (P : Z -> bool) (s : list Z) : list Z :=
  match s with
  | c :: s' => if P c then skip_while P s' else s
  | [] => []
  end.

Definition is_space (c : Z) : bool := (c =? 32) || (c =? 9) || (c =? 13) || (c =? 10).

(** the text ends where the string does: its last byte is 0 *)
Fixpoint polymorphic_from (fuel : nat) (s : list Z) : result bool :=
  match fuel, s with
  | O, _ => NoFuel
  | S _, [] => Ok false
  | S fuel, c :: s =>
      if (c =? 39) || (c =? 35) then Ok true else
      let bracket := c =? 91 in
      let s := if bracket then skip_while is_space s else s in
      let c := if bracket then match s with c :: _ => c | [] => 0 end else c in
      if bracket && ((c =? 60) || (c =? 62)) then Ok true else
      polymorphic_from fuel (if In_bitmap caml_ident_start c then skip_while (In_bitmap caml_ident_body) s else s)
  end.

Definition is_polymorphic (s : list Z) : result bool := polymorphic_from (S (length s)) s.
(** the rule of the entry point [bp]: goal: the token of the entry, [bp] *)
Definition add_entry (goal bp : Z) (st : reader) : result reader :=
  let* st := start_rule st goal in
  let its := if zlen (pitem st) <? items st + 2 then expand_items (pitem st) else pitem st in
  let* b := rd (all (table st)) bp in
  let* (syms, bc) := lookup (table st) (entry_name (s_entry b)) in
  let* l := update (all syms) bc (set_class TERM) in
  let* l := update l bc (set_value (s_entry b)) in
  let* its := wr its (items st) (Some bc) in
  let* its := wr its (items st + 1) (Some bp) in
  let* b := rd l bp in
  match s_tag b with
  | None => fatal "no type has been declared for the start symbol"
  | Some tag =>
      let* poly := is_polymorphic tag in
      if poly then fatal "the start symbol has a polymorphic type" else
      end_rule (Reader (Symbols l (chains syms)) its (plhs st) (rprecs st) (rassocs st) (items st + 2) (nb_rules st) true)
  end.

(** for (bp = first_symbol; bp != 0; bp = bp->next): the list grows with the tokens of the entries *)
Fixpoint add_entries (fuel : nat) (goal bp : Z) (st : reader) {struct fuel} : result reader :=
  match fuel with
  | O => NoFuel
  | S fuel =>
      if bp <? zlen (all (table st)) then
        let* b := rd (all (table st)) bp in
        let* st := if s_entry b =? 0 then Ok st else add_entry goal bp st in
        add_entries fuel goal (bp + 1) st
      else Ok st
  end.

Definition make_goal (st : reader) : result (reader * Z) :=
  let* (syms, goal) := lookup (table st) goal_name in
  let st := Reader syms (pitem st) (plhs st) (rprecs st) (rassocs st) (items st) (nb_rules st) (last_was_action st) in
  let* st := add_entries (2 * length (all syms) + 1) goal 0 st in
  Ok (st, goal).

(** ** The numbers and the values of the symbols *)

(** undefined_symbol ends the program *)
Definition check_symbols (syms : list symbol) (goal : Z) : result unit :=
  let* g := rd syms goal in
  if decide (s_class g = UNKNOWN) then fatal "the start symbol is undefined" else
  if existsb (fun b => bool_decide (s_class b = UNKNOWN)) syms then fatal "a symbol is undefined" else Ok tt.

Definition count_symbols (syms : list symbol) : Z * Z :=
  fold_left (fun '(nsyms, ntokens) b => (nsyms + 1, if is_term b then ntokens + 1 else ntokens)) syms (2, 1).

(** the tokens, then the variables, in [v] *)
Definition place_symbol (syms : list symbol) (p : Z) (st : list (option Z) * Z * Z) : result (list (option Z) * Z * Z) :=
  let '(v, i, j) := st in
  let* b := rd syms p in
  if is_term b then let* v := wr v i (Some p) in Ok (v, i + 1, j)
  else let* v := wr v j (Some p) in Ok (v, i, j + 1).

Definition place_symbols (syms : list symbol) (nsyms ntokens : Z) : result (list (option Z)) :=
  let* v := wr (replicate (Z.to_nat nsyms) junk) 0 None in
  let* v := wr v ntokens None in
  let* (v, i, j) := for_loop (length syms) 0 (place_symbol syms) (v, 1, ntokens + 1) in
  if (i =? ntokens) && (j =? nsyms) then Ok v else Undef.

(** [v[i]], a pointer that is followed *)
Definition nth_symbol (v : list (option Z)) (i : Z) : result Z := let* o := rd v i in of_option o.

Definition number_symbols (v : list (option Z)) (goal nsyms ntokens : Z) (syms : list symbol) : result (list symbol) :=
  let* syms := for_loop (Z.to_nat (ntokens - 1)) 1 (fun i syms => let* p := nth_symbol v i in update syms p (set_index i)) syms in
  let* syms := update syms goal (set_index (ntokens + 1)) in
  let* (syms, _) := for_loop (Z.to_nat (nsyms - ntokens - 1)) (ntokens + 1)
    (fun i '(syms, k) =>
       let* o := rd v i in
       if decide (o = Some goal) then Ok (syms, k) else
       let* p := of_option o in
       let* syms := update syms p (set_index k) in
       Ok (syms, k + 1)) (syms, ntokens + 2) in
  let* syms := update syms goal (set_value 0) in
  let* (syms, _) := for_loop (Z.to_nat (nsyms - ntokens - 1)) (ntokens + 1)
    (fun i '(syms, k) =>
       let* o := rd v i in
       if decide (o = Some goal) then Ok (syms, k) else
       let* p := of_option o in
       let* syms := update syms p (set_value k) in
       Ok (syms, k + 1)) (syms, 1) in
  Ok syms.

(** the values above 256 that are given to tokens, sorted at the start of [symbol_value] *)
Definition given_values (v : list (option Z)) (ntokens : Z) (syms : list symbol) (sv : list Z) : result (list Z * Z) :=
  for_loop (Z.to_nat (ntokens - 1)) 1
    (fun i '(sv, k) =>
       let* p := nth_symbol v i in
       let* b := rd syms p in
       if 256 <? s_value b then let* sv := sift (Z.to_nat k) (s_value b) sv in Ok (sv, k + 1) else Ok (sv, k)) (sv, 0).

(** while (++j < k && n == symbol_value[j]) continue *)
Fixpoint skip_same (fuel : nat) (sv : list Z) (k j n : Z) {struct fuel} : result Z :=
  match fuel with
  | O => NoFuel
  | S fuel =>
      let j := j + 1 in
      if j <? k then let* x := rd sv j in if n =? x then skip_same fuel sv k j n else Ok j
      else Ok j
  end.

(** while (j < k && n == symbol_value[j]) ... *)
Fixpoint skip_given (fuel : nat) (sv : list Z) (k j n : Z) {struct fuel} : result (Z * Z) :=
  match fuel with
  | O => NoFuel
  | S fuel =>
      if j <? k then
        let* x := rd sv j in
        if n =? x then let* j := skip_same (S (Z.to_nat k)) sv k j n in skip_given fuel sv k j (n + 1)
        else Ok (j, n)
      else Ok (j, n)
  end.

Definition value_tokens (v : list (option Z)) (ntokens : Z) (sv : list Z) (k : Z) (syms : list symbol) : result (list symbol) :=
  let* p := nth_symbol v 1 in
  let* b := rd syms p in
  let* syms := if s_value b =? UNDEFINED then update syms p (set_value 256) else Ok syms in
  let* (syms, _, _) := for_loop (Z.to_nat (ntokens - 2)) 2
    (fun i '(syms, j, n) =>
       let* p := nth_symbol v i in
       let* b := rd syms p in
       if s_value b =? UNDEFINED then
         let* (j, n) := skip_given (S (Z.to_nat k)) sv k j n in
         let* syms := update syms p (set_value n) in
         Ok (syms, j, n + 1)
       else Ok (syms, j, n)) (syms, 0, 257) in
  Ok syms.

(** the arrays indexed by the numbers of the symbols *)
Record symbol_arrays := SymbolArrays {
  symbol_name : list (list Z);
  symbol_value : list Z;
  symbol_prec_ : list Z;
  symbol_assoc_ : list Z;
  symbol_tag : list (option (list Z));
  symbol_true_token : list bool }.

(** [a[k]] and, for the tag and the mark of the tokens, [a[i]] *)
Definition put_symbol (k i : Z) (b : symbol) (a : symbol_arrays) : result symbol_arrays :=
  let* n := wr (symbol_name a) k (s_name b) in
  let* x := wr (symbol_value a) k (s_value b) in
  let* p := wr (symbol_prec_ a) k (s_prec b) in
  let* s := wr (symbol_assoc_ a) k (s_assoc b) in
  let* t := wr (symbol_tag a) i (s_tag b) in
  let* u := wr (symbol_true_token a) i (s_true_token b) in
  Ok (SymbolArrays n x p s t u).

Definition accept_name : list Z := [36; 97; 99; 99; 101; 112; 116].
Definition end_name : list Z := [36; 101; 110; 100].

(** the symbol 0 and the start symbol *)
Definition end_symbol : symbol := Symbol end_name (Some []) 0 0 0 TERM TOKEN 0 false.
Definition accept_symbol : symbol := Symbol accept_name (Some []) (-1) 0 0 NONTERM TOKEN 0 false.

Definition fill_symbols (v : list (option Z)) (nsyms ntokens : Z) (syms : list symbol) (a : symbol_arrays) : result symbol_arrays :=
  let* a := put_symbol 0 0 end_symbol a in
  let* a := for_loop (Z.to_nat (ntokens - 1)) 1
    (fun i a => let* p := nth_symbol v i in let* b := rd syms p in put_symbol i i b a) a in
  let* a := put_symbol ntokens ntokens accept_symbol a in
  for_loop (Z.to_nat (nsyms - ntokens - 1)) (ntokens + 1)
    (fun i a => let* p := nth_symbol v i in let* b := rd syms p in put_symbol (s_index b) i b a) a.

Definition pack_symbols (goal : Z) (syms : list symbol) : result (list symbol * Z * Z * symbol_arrays) :=
  let (nsyms, ntokens) := count_symbols syms in
  let n := Z.to_nat nsyms in
  let* v := place_symbols syms nsyms ntokens in
  let* syms := number_symbols v goal nsyms ntokens syms in
  let* (sv, k) := given_values v ntokens syms (replicate n z) in
  let* syms := value_tokens v ntokens sv k syms in
  let* a := fill_symbols v nsyms ntokens syms
    (SymbolArrays (replicate n []) sv (replicate n z) (replicate n z) (replicate n None) (replicate n false)) in
  Ok (syms, nsyms, ntokens, a).

(** ** The end of the reader *)

(** what packing the rules reads of a symbol *)
Definition bucket_of (b : symbol) : bucket := Bucket (s_index b) (s_prec b) (is_term b) (s_assoc b).

Definition follow (syms : list symbol) (o : option Z) : option bucket :=
  match o with Some p => bucket_of <$> syms !! Z.to_nat p | None => None end.

Definition finish_reading (st : reader) : result (grammar * precedences * symbol_arrays) :=
  let* (st, goal) := make_goal st in
  let* _ := check_symbols (all (table st)) goal in
  let* (syms, nsyms, ntokens, a) := pack_symbols goal (all (table st)) in
  let* g := rd syms goal in
  let* t := pack_grammar z (bucket_of g) ntokens (items st) (nb_rules st)
    (map (follow syms) (pitem st)) (map (follow syms) (plhs st)) (rprecs st) (rassocs st) in
  Ok (Grammar t ntokens nsyms (nb_rules st) (items st), Precedences (symbol_prec_ a) (symbol_assoc_ a), a).

End Arrays.

(** ** What reading the rules leaves *)

(** the rules read, as pointers: a left-hand side and a right-hand side *)
Abbreviation pointed_rule := (prod Z (list Z)).

Definition rules_items (rs : list pointed_rule) : list (option Z) := replicate 4 None ++ concat (map (fun r => map Some r.2 ++ [None]) rs).
Definition rules_lhs (rs : list pointed_rule) : list (option Z) := replicate 3 None ++ map (fun r => Some r.1) rs.

(** ** An example: [%token A EOF  %start main  main: e EOF;  e: A | e A] *)

(** the symbols that the declarations make, in order: [error], [A], [EOF], [main], [e] *)
Definition example_symbols : result symbols :=
  let* st := create_symbol_table in
  let* (st, A) := lookup st [65] in
  let* (st, EOF) := lookup st [69; 79; 70] in
  let* (st, main) := lookup st [109; 97; 105; 110] in
  let* (st, e) := lookup st [101] in
  let* l := update (all st) A (fun b => Symbol (s_name b) (s_tag b) (s_value b) 0 0 TERM TOKEN 0 true) in
  let* l := update l EOF (fun b => Symbol (s_name b) (s_tag b) 0 0 0 TERM TOKEN 0 true) in
  let* l := update l main (fun b => Symbol (s_name b) (Some [105; 110; 116]) (s_value b) 0 0 NONTERM TOKEN 1 false) in
  let* l := update l e (set_class NONTERM) in
  Ok (Symbols l (chains st)).

Definition example_rules : list pointed_rule := [(3, [4; 2]); (4, [1]); (4, [4; 1])].

Definition example_read : reader :=
  let pad {A} (x : A) n l := l ++ replicate (n - length l) x in
  Reader (match example_symbols with Ok st => st | _ => Symbols [] [] end) (pad None 300%nat (rules_items example_rules)) (pad None 100%nat (rules_lhs example_rules))
    (pad 7 100%nat [0; 0; 0; UNDEFINED; UNDEFINED; UNDEFINED]) (pad 7 100%nat [0; 0; 0; TOKEN; TOKEN; TOKEN]) (zlen (rules_items example_rules)) (zlen (rules_lhs example_rules)) false.

(** the numbers are those of the example of [Ocamlyacc.v] *)
Example example_finished :
  (let* (g, _, a) := finish_reading None 7 example_read in
   Ok (rlhs (tab g), ritem (tab g), ntokens g, nsyms g, symbol_value a)) =
  Ok ([0; 0; 5; 7; 8; 8; 6], [-1; 6; 0; -2; 8; 3; -3; 2; -4; 8; 2; -5; 4; 7; -6], 5, 9, [0; 256; 257; 0; 1; -1; 0; 1; 2]).
Proof. vm_compute. reflexivity. Qed.
