(* ===== verification/ReaderSpec.v ===== *)
(** * The symbols and the rules that the reader gives to ocamlyacc

    What the rules read become: the goal and the rules of the entry points are added, the
    symbols get numbers and values, and the packed grammar is the one that the generator
    takes ([Ocamlyacc.reader_output]). *)

From Stdlib Require Import Sorting.Sorted.
From stdpp Require Import sorting.
From S2P Require Import Prelude.
From S2P Require Import Grammar.
From S2P Require Import Lr0.
From S2P Require Import Lalr.
From S2P Require Import Gotos.
From S2P Require Import Lookaheads.
From S2P Require Import Mkpar.
From S2P Require Import Vectors.
From S2P Require Import Generated.
From S2P Require Import Ocamlyacc.
From S2P Require Import Reader.
#[local] Open Scope Z_scope.

(** ** The table of the symbols *)

(** names of characters of ASCII *)
Definition plain (name : list Z) : Prop := name <> [] /\ Forall (fun c => 0 <= c < 128) name.

Lemma hash_from_range s : forall k, 0 <= k < TABLE_SIZE -> 0 <= hash_from k s < TABLE_SIZE.
Proof.
  induction s as [|c s IH]; intros k Hk; cbn [hash_from]; [done|]. apply IH.
  change (TABLE_SIZE - 1) with (Z.ones 12). rewrite Z.land_ones by lia. change TABLE_SIZE with (2 ^ 12). apply Z.mod_pos_bound. lia.
Qed.

Lemma hash_ok name : plain name -> exists h, hash name = Ok h /\ 0 <= h < TABLE_SIZE.
Proof.
  intros [Hn Hc]. destruct name as [|c s]; [done|]. apply Forall_cons in Hc as [Hc _]. eexists. split; [done|]. apply hash_from_range.
  unfold s8, TABLE_SIZE. rewrite Z.mod_small by lia. lia.
Qed.

Record table_ok (st : symbols) : Prop := {
  to_size : zlen (chains st) = TABLE_SIZE;
  to_names : forall p b, rd (all st) p = Ok b -> plain (s_name b);
  to_chain : forall p b h, rd (all st) p = Ok b -> hash (s_name b) = Ok h -> exists chain, rd (chains st) h = Ok chain /\ p ∈ chain;
  to_valid : forall h chain p, rd (chains st) h = Ok chain -> p ∈ chain -> 0 <= p < zlen (all st) }.

Lemma find_name_new l name chain : (forall p, p ∈ chain -> 0 <= p < zlen l) -> (forall p b, rd l p = Ok b -> s_name b <> name) ->
  find_name l name chain = Ok None.
Proof.
  intros Hv Hn. induction chain as [|p chain IH]; cbn [find_name]; [done|]. destruct (rd_in_range l p) as [b E]; [apply Hv; by left|].
  rewrite E. cbn [rbind]. rewrite decide_False by (by apply (Hn p)). apply IH. intros q Hq. apply Hv. by right.
Qed.

Lemma find_name_found l name p b chain : (forall p, p ∈ chain -> 0 <= p < zlen l) -> p ∈ chain -> rd l p = Ok b -> s_name b = name ->
  exists q c, find_name l name chain = Ok (Some q) /\ rd l q = Ok c /\ s_name c = name.
Proof.
  intros Hv Hp E En. induction chain as [|q chain IH]; [by apply elem_of_nil in Hp|]. cbn [find_name]. destruct (rd_in_range l q) as [c Ec]; [apply Hv; by left|].
  rewrite Ec. cbn [rbind]. destruct (decide (s_name c = name)) as [|Ne]; [by exists q, c|].
  apply IH; [intros x Hx; apply Hv; by right|]. apply elem_of_cons in Hp as [->|]; [congruence|done].
Qed.

(** a name of the table is found *)
Lemma lookup_found st name p b : table_ok st -> rd (all st) p = Ok b -> s_name b = name ->
  exists q c, lookup st name = Ok (st, q) /\ rd (all st) q = Ok c /\ s_name c = name.
Proof.
  intros T E <-. destruct (hash_ok _ (to_names _ T p b E)) as (h & Eh & Hh). destruct (to_chain _ T p b h E Eh) as (chain & Ec & Hp).
  destruct (find_name_found (all st) (s_name b) p b chain) as (q & c & Ef & Eq & En); [intros x; by apply (to_valid _ T h)|done|done|done|].
  exists q, c. unfold lookup. rewrite Eh. cbn [rbind]. rewrite Ec. cbn [rbind]. by rewrite Ef.
Qed.

(** another name is added *)
Lemma lookup_new st name : table_ok st -> plain name -> (forall p b, rd (all st) p = Ok b -> s_name b <> name) ->
  exists cs, lookup st name = Ok (Symbols (all st ++ [make_bucket name]) cs, zlen (all st)) /\
    table_ok (Symbols (all st ++ [make_bucket name]) cs).
Proof.
  intros T Hn Hnew. destruct (hash_ok name Hn) as (h & Eh & Hh). unfold lookup. rewrite Eh. cbn [rbind].
  destruct (rd_in_range (chains st) h) as [chain Ec]; [by rewrite (to_size _ T)|]. rewrite Ec. cbn [rbind].
  rewrite find_name_new by (done || intros p; by apply (to_valid _ T h)). cbn [rbind]. rewrite wr_in_range by (by rewrite (to_size _ T)). cbn [rbind].
  eexists. split; [done|]. pose proof (to_size _ T) as Zc. pose proof (zlen_nonneg (all st)). constructor; cbn [all chains].
  - by rewrite zlen_insert.
  - intros p b E. destruct (decide (p < zlen (all st))); [rewrite rd_app_l in E by done; by apply (to_names _ T p)|].
    apply rd_range in E as R. rewrite zlen_snoc in R. assert (p = zlen (all st)) as -> by lia. rewrite rd_mid in E. by injection E as <-.
  - intros p b h' E Eh'. destruct (decide (p < zlen (all st))) as [|Hp].
    + rewrite rd_app_l in E by done. destruct (to_chain _ T p b h' E Eh') as (chain' & Ec' & Hin). apply rd_range in Ec' as R. destruct (decide (h = h')) as [->|].
      * rewrite rd_insert_eq by lia. eexists. split; [done|]. rewrite Ec in Ec'. injection Ec' as <-. apply elem_of_app. by left.
      * rewrite rd_insert_ne by lia. by exists chain'.
    + apply rd_range in E as R. rewrite zlen_snoc in R. assert (p = zlen (all st)) as -> by lia. rewrite rd_mid in E. injection E as <-.
      cbn in Eh'. rewrite Eh in Eh'. injection Eh' as <-. rewrite rd_insert_eq by lia. eexists. split; [done|]. apply elem_of_app. right. by left.
  - intros h' chain' p E Hp. rewrite zlen_snoc. destruct (decide (h = h')) as [->|].
    + rewrite rd_insert_eq in E by lia. injection E as <-. apply elem_of_app in Hp as [Hp| ->%list_elem_of_singleton]; [|lia]. pose proof (to_valid _ T h' chain p Ec Hp). lia.
    + apply rd_range in E as R. rewrite zlen_insert in R. rewrite rd_insert_ne in E by lia. pose proof (to_valid _ T h' chain' p E Hp). lia.
Qed.

Lemma rd_names l l' p b : map s_name l = map s_name l' -> rd l p = Ok b -> exists b', rd l' p = Ok b' /\ s_name b' = s_name b.
Proof.
  intros En E. assert (H : rd (map s_name l) p = Ok (s_name b)) by (apply rd_map; by exists b).
  rewrite En in H. apply rd_map in H as (b' & E' & Eb). by exists b'.
Qed.

Lemma table_ok_names l l' cs : map s_name l = map s_name l' -> table_ok (Symbols l' cs) -> table_ok (Symbols l cs).
Proof.
  intros En [H1 H2 H3 H4]. constructor; cbn [all chains] in *; [done| | |].
  - intros p b E. destruct (rd_names l l' p b En E) as (b' & E' & <-). by apply (H2 p).
  - intros p b h E Eh. destruct (rd_names l l' p b En E) as (b' & E' & Eb). rewrite <- Eb in Eh. by apply (H3 p b').
  - intros h chain p E Hp. apply (f_equal zlen) in En. rewrite !zlen_map in En. rewrite En. by apply (H4 h chain).
Qed.

Lemma update_ok l p b f : rd l p = Ok b -> update l p f = Ok (<[Z.to_nat p := f b]> l).
Proof. intros E. unfold update. rewrite E. cbn [rbind]. apply rd_range in E. by rewrite wr_in_range. Qed.

Lemma update_last l b f : update (l ++ [b]) (zlen l) f = Ok (l ++ [f b]).
Proof. unfold update. rewrite rd_mid. cbn [rbind]. apply wr_mid. Qed.

(** ** The types of the entry points *)

Lemma skip_while_length P s : (length (skip_while P s) <= length s)%nat.
Proof. induction s as [|c s IH]; cbn; [lia|]. destruct (P c); cbn; lia. Qed.

Lemma polymorphic_ends fuel : forall s, (length s < fuel)%nat -> exists b, polymorphic_from fuel s = Ok b.
Proof.
  induction fuel as [|fuel IH]; intros [|c s] Hf; cbn [length] in Hf; try lia; cbn [polymorphic_from]; [by eexists|].
  destruct (_ || _); [by eexists|]. destruct (c =? 91); cbv zeta; cbn [andb].
  - pose proof (skip_while_length is_space s). set (s' := skip_while is_space s) in *. destruct (_ || _); [by eexists|]. apply IH.
    pose proof (skip_while_length (In_bitmap caml_ident_body) s'). destruct (In_bitmap _ _); lia.
  - apply IH. pose proof (skip_while_length (In_bitmap caml_ident_body) s). destruct (In_bitmap _ _); lia.
Qed.

(** the letters of the identifiers of OCaml, in ISO Latin 1, and their other characters *)
Definition letter (c : Z) : Prop := 65 <= c <= 90 \/ 97 <= c <= 122 \/ c = 95 \/ (192 <= c <= 255 /\ c <> 215 /\ c <> 247).
Definition ident_char (c : Z) : Prop := letter c \/ 48 <= c <= 57 \/ c = 39.
Definition blank (c : Z) : Prop := c = 32 \/ c = 9 \/ c = 13 \/ c = 10.

#[local] Instance letter_dec c : Decision (letter c).
Proof. unfold letter. apply _. Defined.
#[local] Instance ident_char_dec c : Decision (ident_char c).
Proof. unfold ident_char. apply _. Defined.
#[local] Instance blank_dec c : Decision (blank c).
Proof. unfold blank. apply _. Defined.

(** the lexemes of a text: the identifiers, as long as they can be, and single characters *)
Inductive lexemes : list Z -> list (list Z) -> Prop :=
  | lexemes_end : lexemes [] []
  | lexemes_ident c w s ls : letter c -> Forall ident_char w -> (forall d, head s = Some d -> ~ ident_char d) -> lexemes s ls -> lexemes (c :: w ++ s) ((c :: w) :: ls)
  | lexemes_char c s ls : ~ letter c -> lexemes s ls -> lexemes (c :: s) ([c] :: ls).

(** a bracket, blanks, and then < or >: the type of an open polymorphic variant *)
Definition open_variant (ls : list (list Z)) : Prop := exists pre bs c post,
  ls = pre ++ [91] :: map (fun b => [b]) bs ++ [c] :: post /\ Forall blank bs /\ (c = 60 \/ c = 62).

(** a type that has variables: a quote that is not in an identifier, a #, or an open variant *)
Definition polymorphic (s : list Z) : Prop := exists ls, lexemes s ls /\ ([39] ∈ ls \/ [35] ∈ ls \/ open_variant ls).

Lemma lexemes_cons c s ls : lexemes (c :: s) ls -> ~ letter c -> exists ls', ls = [c] :: ls' /\ lexemes s ls'.
Proof. intros H Hc. inversion H; subst; [done|]. by eexists. Qed.

Lemma lexemes_word c w s ls : lexemes (c :: w ++ s) ls -> letter c -> Forall ident_char w -> (forall d, head s = Some d -> ~ ident_char d) ->
  exists ls', ls = (c :: w) :: ls' /\ lexemes s ls'.
Proof.
  intros H Hc Hw Hs. remember (c :: w ++ s) as t eqn:E. destruct H as [|c' w' s' ls' Hc' Hw' Hs' Hl|c' s' ls' Hc' Hl]; [done| |injection E as -> _; done].
  injection E as -> E. assert (w' = w /\ s' = s) as [-> ->]; [|by eexists]. clear Hl. revert w' Hw' E. induction w as [|x w IH]; intros [|x' w'] Hw' E; cbn [app] in E.
  - done.
  - subst s. apply Forall_cons in Hw' as [Hx _]. by destruct (Hs x' eq_refl).
  - subst s'. apply Forall_cons in Hw as [Hx _]. by destruct (Hs' x eq_refl).
  - injection E as -> E. apply Forall_cons in Hw as [_ Hw], Hw' as [_ Hw']. by destruct (IH Hw w' Hw' E) as [-> ->].
Qed.

(** what a lexeme adds *)
Lemma variant_cons l ls : open_variant (l :: ls) <-> open_variant ls \/ l = [91] /\ exists bs c post, ls = map (fun b => [b]) bs ++ [c] :: post /\ Forall blank bs /\ (c = 60 \/ c = 62).
Proof.
  split.
  - intros ([|l' pre] & bs & c & post & E & Hb & Hc); injection E as -> ->; [right; split; [done|]; by exists bs, c, post|left; by exists pre, bs, c, post].
  - intros [(pre & bs & c & post & -> & H)|[-> (bs & c & post & -> & H)]]; [by exists (l :: pre), bs, c, post|by exists [], bs, c, post].
Qed.

(** the bitmaps of the code *)
Lemma bitmap_ok bm (P : Z -> Prop) `{!forall c, Decision (P c)} : zlen bm = 32 -> zget bm 0 = 0 -> (forall c, P c -> 0 <= c < 256) ->
  forallb (fun c => Bool.eqb (bool_decide (P c)) (In_bitmap bm c)) (seqZ 0 256) = true -> forall c, In_bitmap bm c = true <-> P c.
Proof.
  intros Hz Hz0 Hr Hall c. rewrite forallb_forall in Hall. destruct (decide (0 <= c < 256)) as [Hc|Hc].
  - specialize (Hall c ltac:(apply list_elem_of_In, elem_of_seqZ; lia)). apply eqb_prop in Hall. rewrite <- Hall. apply bool_decide_eq_true.
  - split; [|intros HP; by apply Hr in HP]. unfold In_bitmap. intros E. exfalso. assert (E0 : zget bm (Z.shiftr c 3) = 0); [|by rewrite E0, Z.testbit_0_l in E].
    rewrite Z.shiftr_div_pow2 by lia. change (2 ^ 3) with 8. destruct (decide (c < 0)).
    + unfold zget in *. by replace (Z.to_nat (c / 8)) with (Z.to_nat 0) by zlia.
    + unfold zget. apply nth_overflow. unfold zlen in Hz. zlia.
Qed.

Lemma start_ok c : In_bitmap caml_ident_start c = true <-> letter c.
Proof. apply (bitmap_ok caml_ident_start letter); [done|done|unfold letter; lia|by vm_compute]. Qed.

Lemma body_ok c : In_bitmap caml_ident_body c = true <-> ident_char c.
Proof. apply (bitmap_ok caml_ident_body ident_char); [done|done|unfold ident_char, letter; lia|by vm_compute]. Qed.

Lemma space_ok c : is_space c = true <-> blank c.
Proof. unfold is_space, blank. rewrite !orb_true_iff, !Z.eqb_eq. tauto. Qed.

(** the rest of an identifier *)
Lemma skip_word s : exists w, s = w ++ skip_while (In_bitmap caml_ident_body) s /\ Forall ident_char w /\
  forall d, head (skip_while (In_bitmap caml_ident_body) s) = Some d -> ~ ident_char d.
Proof.
  induction s as [|c s (w & E & Hw & Hd)]; [by exists []|]. cbn [skip_while]. destruct (In_bitmap caml_ident_body c) eqn:B.
  - exists (c :: w). split; [by rewrite E at 1|]. split; [|done]. constructor; [by apply body_ok|done].
  - exists []. split; [done|]. split; [done|]. intros d [= <-] Hc%body_ok. congruence.
Qed.

Lemma lexemes_exist s : exists ls, lexemes s ls.
Proof.
  remember (length s) as n eqn:En. assert (Hn : (length s <= n)%nat) by lia. clear En. revert s Hn. induction n as [|n IH]; intros [|c s] Hn; cbn [length] in Hn; try lia; try (exists []; constructor).
  destruct (decide (letter c)) as [Hc|Hc].
  - destruct (skip_word s) as (w & E & Hw & Hd). destruct (IH (skip_while (In_bitmap caml_ident_body) s)) as [ls Hl]; [pose proof (skip_while_length (In_bitmap caml_ident_body) s); lia|].
    exists ((c :: w) :: ls). rewrite E at 1. by constructor.
  - destruct (IH s) as [ls Hl]; [lia|]. exists ([c] :: ls). by constructor.
Qed.

Lemma polymorphic_char c s : ~ letter c -> c <> 91 -> polymorphic (c :: s) <-> c = 39 \/ c = 35 \/ polymorphic s.
Proof.
  intros Hc Hb. split.
  - intros (ls & Hl & H). destruct (lexemes_cons _ _ _ Hl Hc) as (ls' & -> & Hl'). rewrite !elem_of_cons, variant_cons in H.
    destruct H as [[[= <-]|H]|[[[= <-]|H]|[H|[[= ->] _]]]]; [by left| |by right; left| | |done]; right; right; exists ls'; tauto.
  - intros H. assert (E : exists ls, lexemes s ls /\ (c = 39 \/ c = 35 \/ [39] ∈ ls \/ [35] ∈ ls \/ open_variant ls)).
    { destruct (lexemes_exist s) as [ls Hl]. destruct H as [H|[H|(ls' & Hl' & H)]]; [exists ls; tauto..|exists ls'; tauto]. }
    destruct E as (ls & Hl & H'). exists ([c] :: ls). split; [by constructor|]. rewrite !elem_of_cons, variant_cons. destruct H' as [->|[->|H']]; tauto.
Qed.

Lemma polymorphic_word c s : letter c -> polymorphic (c :: s) <-> polymorphic (skip_while (In_bitmap caml_ident_body) s).
Proof.
  intros Hc. destruct (skip_word s) as (w & E & Hw & Hd). set (r := skip_while _ s) in *. rewrite E. assert (Hn : forall l, [39] ∈ (c :: w) :: l \/ [35] ∈ (c :: w) :: l \/ open_variant ((c :: w) :: l) <->
    [39] ∈ l \/ [35] ∈ l \/ open_variant l).
  { intros l. rewrite !elem_of_cons, variant_cons. unfold letter in Hc. split; [|tauto]. intros [[[= E1 _]|?]|[[[= E1 _]|?]|[?|[[= E1 _] _]]]]; (tauto || lia). }
  split.
  - intros (ls & Hl & H). destruct (lexemes_word c w r ls Hl Hc Hw Hd) as (ls' & -> & Hl'). exists ls'. split; [done|]. by apply Hn.
  - intros (ls & Hl & H). exists ((c :: w) :: ls). split; [by constructor|]. by apply Hn.
Qed.

(** after a bracket *)
Lemma angle_ok s : forall ls, lexemes s ls -> (exists bs c post, ls = map (fun b => [b]) bs ++ [c] :: post /\ Forall blank bs /\ (c = 60 \/ c = 62)) <->
  exists c, head (skip_while is_space s) = Some c /\ (c = 60 \/ c = 62).
Proof.
  induction s as [|c s IH]; intros ls Hl.
  - inversion Hl; subst. split; [intros ([|b bs] & c & post & [=] & _)|by intros (c & [=] & _)].
  - cbn [skip_while]. destruct (decide (blank c)) as [Hb|Hb].
    + rewrite (proj2 (space_ok c) Hb). assert (Hc : ~ letter c) by (unfold blank, letter in *; lia). destruct (lexemes_cons _ _ _ Hl Hc) as (ls' & -> & Hl'). rewrite <- (IH ls' Hl'). split.
      * intros ([|b bs] & x & post & E & Hbs & Hx); injection E as E1 E2; [unfold blank in Hb; lia|]. apply Forall_cons in Hbs as [_ Hbs]. by exists bs, x, post.
      * intros (bs & x & post & -> & Hbs & Hx). exists (c :: bs), x, post. split; [done|]. split; [by constructor|done].
    + assert (is_space c = false) as -> by (apply not_true_iff_false; by rewrite space_ok). cbn [head]. split.
      * intros (bs & x & post & E & Hbs & Hx). exists c. split; [done|]. inversion Hl; subst; destruct bs as [|b bs]; try discriminate; cbn in *;
          repeat match goal with H : _ :: _ = _ :: _ |- _ => injection H as ? ?; subst end; try done; apply Forall_cons in Hbs as [? _]; done.
      * intros (x & [= <-] & Hx). assert (Hc : ~ letter c) by (unfold letter; lia). destruct (lexemes_cons _ _ _ Hl Hc) as (ls' & -> & _). exists [], c, ls'. by split_and!.
Qed.

Lemma polymorphic_blanks s : polymorphic (skip_while is_space s) <-> polymorphic s.
Proof.
  induction s as [|c s IH]; [done|]. cbn [skip_while]. destruct (is_space c) eqn:B; [|done]. apply space_ok in B. rewrite IH, polymorphic_char by (unfold blank, letter in *; lia).
  unfold blank in B. split; [tauto|]. intros [?|[?|?]]; (lia || done).
Qed.

Lemma polymorphic_bracket s : polymorphic (91 :: s) <-> (exists c, head (skip_while is_space s) = Some c /\ (c = 60 \/ c = 62)) \/ polymorphic s.
Proof.
  assert (Hc : ~ letter 91) by (unfold letter; lia). split.
  - intros (ls & Hl & H). destruct (lexemes_cons _ _ _ Hl Hc) as (ls' & -> & Hl'). rewrite !elem_of_cons, variant_cons, (angle_ok s ls' Hl') in H.
    destruct H as [[[=]|H]|[[[=]|H]|[H|[_ H]]]]; [right; exists ls'; tauto..|by left].
  - intros H. assert (E : exists ls, lexemes s ls /\ ((exists c, head (skip_while is_space s) = Some c /\ (c = 60 \/ c = 62)) \/ [39] ∈ ls \/ [35] ∈ ls \/ open_variant ls)).
    { destruct (lexemes_exist s) as [ls Hl]. destruct H as [H|(ls' & Hl' & H)]; [exists ls; tauto|exists ls'; tauto]. }
    destruct E as (ls & Hl & H'). exists ([91] :: ls). split; [by constructor|]. rewrite !elem_of_cons, variant_cons, (angle_ok s ls Hl). tauto.
Qed.

(** the scan of the code finds the variables *)
Lemma polymorphic_from_ok fuel : forall s b, polymorphic_from fuel s = Ok b -> b = true <-> polymorphic s.
Proof.
  induction fuel as [|fuel IH]; intros [|c s] b E; cbn [polymorphic_from] in E; try done.
  - injection E as <-. split; [done|]. intros (ls & Hl & H). inversion Hl; subst. rewrite !elem_of_nil in H. destruct H as [?|[?|([|] & bs & c & post & [=] & _)]]; done.
  - destruct (Z.eqb_spec c 39) as [->|N1]; cbn [orb] in E.
    { injection E as <-. split; [intros _|done]. apply polymorphic_char; [unfold letter; lia|lia|by left]. }
    destruct (Z.eqb_spec c 35) as [->|N2].
    { injection E as <-. split; [intros _|done]. apply polymorphic_char; [unfold letter; lia|lia|by right; left]. }
    destruct (Z.eqb_spec c 91) as [->|N3]; cbn [andb] in E.
    + rewrite polymorphic_bracket, <- polymorphic_blanks. destruct (skip_while is_space s) as [|c s'] eqn:Es.
      { cbn [head]. change ((0 =? 60) || (0 =? 62)) with false in E. cbn iota in E. change (In_bitmap caml_ident_start 0) with false in E. cbn iota in E. rewrite (IH _ _ E).
        split; [by right|]. by intros [(c & [=] & _)|?]. }
      cbn [head]. destruct ((c =? 60) || (c =? 62)) eqn:B.
      { injection E as <-. split; [intros _; left|done]. exists c. split; [done|]. apply orb_true_iff in B as [?%Z.eqb_eq|?%Z.eqb_eq]; tauto. }
      assert (Hno : ~ exists d, Some c = Some d /\ (d = 60 \/ d = 62)).
      { intros (d & [= <-] & Hd). apply orb_false_iff in B as [?%Z.eqb_neq ?%Z.eqb_neq]. lia. }
      destruct (In_bitmap caml_ident_start c) eqn:Bs.
      * rewrite (IH _ _ E). apply start_ok in Bs. cbn [skip_while]. rewrite (proj2 (body_ok c) (or_introl Bs)). rewrite <- polymorphic_word by done. tauto.
      * rewrite (IH _ _ E). tauto.
    + destruct (In_bitmap caml_ident_start c) eqn:Bs; rewrite (IH _ _ E).
      * apply start_ok in Bs. by rewrite polymorphic_word.
      * assert (Hc : ~ letter c) by (rewrite <- start_ok; congruence). rewrite polymorphic_char by done. split; [tauto|]. intros [?|[?|?]]; (lia || done).
Qed.

(** the entry point has a type, without variables *)
Definition entry_typed (b : symbol) : Prop := exists tag, s_tag b = Some tag /\ ~ polymorphic tag.

Definition entry_typed_b (b : symbol) : bool :=
  match s_tag b with
  | Some tag => match is_polymorphic tag with Ok poly => negb poly | _ => false end
  | None => false
  end.

Lemma entry_typed_ok b : entry_typed_b b = true <-> entry_typed b.
Proof.
  unfold entry_typed_b, entry_typed. destruct (s_tag b) as [tag|]; [|split; [done|by intros (t & [=] & _)]].
  destruct (polymorphic_ends (S (length tag)) tag) as [poly E]; [lia|]. unfold is_polymorphic. rewrite E. pose proof (polymorphic_from_ok _ _ _ E) as H. split.
  - intros Hb. exists tag. split; [done|]. rewrite <- H. by destruct poly.
  - intros (t & [= <-] & Hp). rewrite <- H in Hp. by destruct poly.
Qed.

(** ** Arrays that grow *)

(** the first [n] elements of [a] are those of [l] *)
Definition prefix {A} (l : list A) (n : Z) (a : list A) : Prop := n = zlen l /\ exists rest, a = l ++ rest.

Lemma prefix_grow {A} (l : list A) n a more : prefix l n a -> prefix l n (a ++ more).
Proof. intros [-> (rest & ->)]. split; [done|]. exists (rest ++ more). by rewrite app_assoc. Qed.

Lemma prefix_push {A} (l : list A) n a x : prefix l n a -> n < zlen a -> exists a', wr a n x = Ok a' /\ prefix (l ++ [x]) (n + 1) a' /\ zlen a' = zlen a.
Proof.
  intros [-> (rest & ->)] Hn. destruct rest as [|y rest]; [rewrite app_nil_r in Hn; lia|]. rewrite wr_mid. eexists. split; [done|].
  rewrite !zlen_app, !zlen_cons. split; [|done]. split; [by rewrite zlen_snoc|]. exists rest. by rewrite <- app_assoc.
Qed.

Lemma rules_items_snoc rs r : rules_items (rs ++ [r]) = rules_items rs ++ map Some r.2 ++ [None].
Proof. unfold rules_items. rewrite map_app, concat_app. cbn [map concat]. by rewrite app_nil_r, app_assoc. Qed.

Lemma rules_lhs_snoc rs r : rules_lhs (rs ++ [r]) = rules_lhs rs ++ [Some r.1].
Proof. unfold rules_lhs. by rewrite map_app, app_assoc. Qed.

(** ** The rules of the entry points *)

Definition symbol_at (syms : list symbol) (p : Z) : symbol := default (make_bucket []) (syms !! Z.to_nat p).

Lemma rd_symbol_at syms p : 0 <= p < zlen syms -> rd syms p = Ok (symbol_at syms p).
Proof. intros Hp. destruct (rd_in_range syms p Hp) as [b E]. rewrite E. apply rd_Ok in E as [_ E]. unfold symbol_at. by rewrite E. Qed.

Lemma symbol_at_rd syms p b : rd syms p = Ok b -> symbol_at syms p = b.
Proof. intros [_ E]%rd_Ok. unfold symbol_at. by rewrite E. Qed.

(** the entry points, in order, the token of one of them, and the rules of the goal *)
Definition entries (syms : list symbol) : list Z := filter (fun p => s_entry (symbol_at syms p) <> 0) (seqZ 0 (zlen syms)).
Definition entry_token (b : symbol) : symbol := set_value (s_entry b) (set_class TERM (make_bucket (entry_name (s_entry b)))).
Definition entry_rules_of (syms : list symbol) (l : list Z) : list pointed_rule :=
  imap (fun k p => (zlen syms, [zlen syms + 1 + Z.of_nat k; p])) l.

(** the symbols when the rules of the entry points [l] are made *)
Definition goal_symbol (l : list Z) : symbol := set_class (match l with [] => UNKNOWN | _ => NONTERM end) (make_bucket goal_name).
Definition with_goal (syms : list symbol) (l : list Z) : list symbol := syms ++ goal_symbol l :: map (fun p => entry_token (symbol_at syms p)) l.

(** the names that the text of a grammar can give *)
Definition readable (name : list Z) : Prop := plain name /\ head name <> Some 37 /\ head name <> Some 39.

(** what reading the text leaves: the first symbol is [error], without a value; the values
    given to the other tokens are shorts, and not the one of [error]; the entry points have
    numbers of their own; the arrays hold the rules, whose elements are symbols, and whose
    left-hand sides are variables; the shorts are large enough *)
Record reads_grammar (st : reader) (rs : list pointed_rule) : Prop := {
  rg_table : table_ok (table st);
  rg_names : forall p b, rd (all (table st)) p = Ok b -> readable (s_name b);
  rg_entry : forall p b, rd (all (table st)) p = Ok b -> 0 <= s_entry b <= MAX_ENTRY_POINT;
  rg_entries : forall p q b c, rd (all (table st)) p = Ok b -> rd (all (table st)) q = Ok c -> s_entry b = s_entry c -> s_entry b <> 0 -> p = q;
  rg_items : prefix (rules_items rs) (items st) (pitem st);
  rg_lhs : prefix (rules_lhs rs) (nb_rules st) (plhs st);
  rg_arrays : zlen (rprecs st) = zlen (plhs st) /\ zlen (rassocs st) = zlen (plhs st);
  rg_error : exists b, rd (all (table st)) 0 = Ok b /\ is_term b = true /\ s_value b = UNDEFINED;
  rg_values : forall p b, 0 < p -> rd (all (table st)) p = Ok b -> is_term b = true -> s_value b = UNDEFINED \/ (0 <= s_value b <= MAXSHORT /\ s_value b <> 256);
  rg_rules : Forall (fun r : pointed_rule => (exists b, rd (all (table st)) r.1 = Ok b /\ s_class b = NONTERM) /\ Forall (fun p => 0 <= p < zlen (all (table st))) r.2) rs;
  rg_symbols : 2 * (zlen (all (table st)) + zlen (entries (all (table st)))) + 262 <= MAXSHORT;
  rg_shorts : zlen (rules_items rs) + 3 * zlen (entries (all (table st))) <= MAXSHORT }.

(** the fatal errors of the end of the reader *)
Definition reading_errors : list string := ["no type has been declared for the start symbol"; "the start symbol has a polymorphic type";
  "the start symbol is undefined"; "a symbol is undefined"]%string.

Definition fails {A} (r : result A) : Prop := exists msg, r = Raise (Failure msg) /\ msg ∈ reading_errors.

Lemma entry_name_inj e e' : 0 <= e <= 255 -> 0 <= e' <= 255 -> entry_name e = entry_name e' -> e = e'.
Proof.
  intros He He' E. unfold entry_name in E. injection E as E1 E2 E3. change 7 with (Z.ones 3) in *. rewrite !Z.land_ones in * by lia.
  rewrite !Z.shiftr_div_pow2 in * by lia. change (2 ^ 6) with 64 in *. change (2 ^ 3) with 8 in *. Z.to_euclidean_division_equations. lia.
Qed.

Lemma entry_name_plain e : plain (entry_name e).
Proof.
  split; [done|]. unfold entry_name. assert (H : forall x, 0 <= Z.land x 7 < 8) by (intros x; change 7 with (Z.ones 3); rewrite Z.land_ones by lia; apply Z.mod_pos_bound; lia).
  pose proof (H (Z.shiftr e 6)). pose proof (H (Z.shiftr e 3)). pose proof (H e). repeat constructor; lia.
Qed.

Section Goal.
Context (junk : option Z) (z : Z) (st0 : reader) (rs : list pointed_rule) (R : reads_grammar st0 rs).

#[local] Abbreviation syms0 := (all (table st0)).
#[local] Abbreviation n0 := (zlen syms0).

(** the rules of the entry points [l] are made *)
Record goal_state (l : list Z) (st : reader) : Prop := {
  gs_all : all (table st) = with_goal syms0 l;
  gs_table : table_ok (table st);
  gs_items : prefix (rules_items (rs ++ entry_rules_of syms0 l)) (items st) (pitem st);
  gs_lhs : prefix (rules_lhs (rs ++ entry_rules_of syms0 l)) (nb_rules st) (plhs st);
  gs_arrays : zlen (rprecs st) = zlen (plhs st) /\ zlen (rassocs st) = zlen (plhs st);
  gs_given : forall i, 0 <= i < zlen (rules_lhs rs) -> zget (rprecs st) i = zget (rprecs st0) i /\ zget (rassocs st) i = zget (rassocs st0) i }.

Lemma with_goal_zlen l : zlen (with_goal syms0 l) = n0 + 1 + zlen l.
Proof. unfold with_goal. rewrite zlen_app, zlen_cons, zlen_map. lia. Qed.

Lemma with_goal_read l p : 0 <= p < n0 -> rd (with_goal syms0 l) p = Ok (symbol_at syms0 p).
Proof. intros Hp. unfold with_goal. rewrite rd_app_l by lia. by apply rd_symbol_at. Qed.

Lemma with_goal_new l p b : rd (with_goal syms0 l) p = Ok b -> n0 <= p -> b = goal_symbol l \/ exists q, q ∈ l /\ b = entry_token (symbol_at syms0 q).
Proof.
  intros E Hp. unfold with_goal in E. rewrite rd_app_r in E by lia. destruct (decide (p = n0)) as [->|].
  - rewrite Z.sub_diag in E. injection E as <-. by left.
  - rewrite rd_cons in E by lia. apply rd_map in E as (q & Eq & ->). right. exists q. split; [|done]. apply rd_Ok in Eq as [_ Eq]. by apply list_elem_of_lookup_2 in Eq.
Qed.

Lemma readable_head p b e : rd syms0 p = Ok b -> s_name b <> goal_name /\ s_name b <> entry_name e.
Proof. intros E. destruct (rg_names _ _ R p b E) as (_ & H1 & H2). split; intros Eb; rewrite Eb in *; done. Qed.

Lemma entry_rules_snoc l p : entry_rules_of syms0 (l ++ [p]) = entry_rules_of syms0 l ++ [(n0, [n0 + 1 + zlen l; p])].
Proof. unfold entry_rules_of. rewrite imap_app. cbn. by rewrite Nat.add_0_r. Qed.

(** [start_rule] of the goal *)
Lemma start_rule_ok l st : goal_state l st -> exists st', start_rule junk z st n0 = Ok st' /\
  all (table st') = syms0 ++ set_class NONTERM (make_bucket goal_name) :: map (fun p => entry_token (symbol_at syms0 p)) l /\
  table_ok (table st') /\ pitem st' = pitem st /\ items st' = items st /\ nb_rules st' = nb_rules st /\
  prefix (rules_lhs (rs ++ entry_rules_of syms0 l) ++ [Some n0]) (nb_rules st + 1) (plhs st') /\
  zlen (rprecs st') = zlen (plhs st') /\ zlen (rassocs st') = zlen (plhs st') /\
  forall i, 0 <= i < zlen (rules_lhs rs) -> zget (rprecs st') i = zget (rprecs st) i /\ zget (rassocs st') i = zget (rassocs st) i.
Proof.
  intros [Ga Gt Gi Gl [Gp Gs] _]. unfold start_rule. rewrite Ga. unfold with_goal. rewrite rd_mid. cbn [rbind].
  assert (Hnt : is_term (goal_symbol l) = false) by (by destruct l). rewrite Hnt. unfold update. rewrite rd_mid. cbn [rbind]. rewrite wr_mid. cbn [rbind]. cbv zeta.
  set (grow := zlen (plhs st) <=? nb_rules st). pose proof Gl as [En (rest & El)].
  assert (Hle : nb_rules st <= zlen (plhs st)) by (rewrite El, zlen_app; pose proof (zlen_nonneg rest); lia). pose proof (zlen_nonneg (rules_lhs (rs ++ entry_rules_of syms0 l))).
  assert (Hg : forall A (x : A) a, zlen a = zlen (plhs st) -> nb_rules st < zlen (if grow then expand_rules x a else a) /\
    zlen (if grow then expand_rules x a else a) = zlen (if grow then expand_rules junk (plhs st) else plhs st)).
  { intros A x a Ea. unfold grow, expand_rules. destruct (Z.leb_spec (zlen (plhs st)) (nb_rules st)); rewrite ?zlen_app, ?zlen_replicate; lia. }
  assert (Hp : prefix (rules_lhs (rs ++ entry_rules_of syms0 l)) (nb_rules st) (if grow then expand_rules junk (plhs st) else plhs st)) by (destruct grow; [by apply prefix_grow|done]).
  destruct (prefix_push _ _ _ (Some n0) Hp) as (lhs & -> & Hl & Zl); [by apply Hg|]. cbn [rbind].
  destruct (Hg Z z (rprecs st) Gp) as [H1 H2], (Hg Z z (rassocs st) Gs) as [H3 H4]. rewrite !wr_in_range by lia. cbn [rbind].
  eexists. split; [done|]. cbn [table pitem items nb_rules plhs rprecs rassocs all]. split; [by destruct l|].
  assert (Hi : forall a i x, 0 <= i < zlen (rules_lhs rs) -> nb_rules st < zlen (if grow then expand_rules z a else a) -> zlen a = zlen (plhs st) -> zget (<[Z.to_nat (nb_rules st) := x]> (if grow then expand_rules z a else a)) i = zget a i).
  { intros a i x Hi Hz Ea. assert (zlen (rules_lhs rs) <= nb_rules st).
    { rewrite En. unfold rules_lhs. rewrite !zlen_app, !zlen_map, zlen_app. pose proof (zlen_nonneg (entry_rules_of syms0 l)). lia. }
    rewrite zget_insert by lia. destruct (Z.eqb_spec (nb_rules st) i); [lia|]. unfold grow, expand_rules, zget. destruct (_ <=? _); [|done].
    rewrite app_nth1; [done|]. unfold zlen in *. lia. }
  split.
  { apply (table_ok_names _ (all (table st))); [|by destruct (table st)]. rewrite Ga. unfold with_goal. rewrite !map_app. cbn [map]. by destruct l. }
  split; [done|]. split; [done|]. split; [done|]. split; [exact Hl|]. rewrite !zlen_insert. split; [lia|]. split; [lia|]. intros i Hi'. split; apply Hi; done || lia.
Qed.

Lemma goal_of_entries l : l <> [] -> goal_symbol l = set_class NONTERM (make_bucket goal_name).
Proof. by destruct l. Qed.

(** the two symbols of the rule and its end *)
Lemma push_rule l n a x y : prefix l n a -> exists a1 a2, wr (if zlen a <? n + 2 then expand_items junk a else a) n (Some x) = Ok a1 /\
  wr a1 (n + 1) (Some y) = Ok a2 /\ exists a3, wr (if zlen a2 <=? n + 2 then expand_items junk a2 else a2) (n + 2) None = Ok a3 /\
  prefix (l ++ [Some x; Some y; None]) (n + 3) a3.
Proof.
  intros H. pose proof H as [En (rest & Er)]. assert (Hle : n <= zlen a) by (rewrite Er, zlen_app; pose proof (zlen_nonneg rest); lia).
  assert (H0 : prefix l n (if zlen a <? n + 2 then expand_items junk a else a)) by (destruct (_ <? _); [by apply prefix_grow|done]).
  assert (Z0 : n + 2 <= zlen (if zlen a <? n + 2 then expand_items junk a else a)) by (unfold expand_items; destruct (Z.ltb_spec (zlen a) (n + 2)); rewrite ?zlen_app, ?zlen_replicate; lia).
  destruct (prefix_push _ _ _ (Some x) H0) as (a1 & E1 & H1 & Z1); [lia|]. destruct (prefix_push _ _ _ (Some y) H1) as (a2 & E2 & H2 & Z2); [lia|].
  exists a1, a2. split; [done|]. split; [done|]. replace (n + 1 + 1) with (n + 2) in H2 by lia.
  assert (H3 : prefix ((l ++ [Some x]) ++ [Some y]) (n + 2) (if zlen a2 <=? n + 2 then expand_items junk a2 else a2)) by (destruct (_ <=? _); [by apply prefix_grow|done]).
  destruct (prefix_push _ _ _ None H3) as (a3 & E3 & H4 & _).
  { unfold expand_items. destruct (Z.leb_spec (zlen a2) (n + 2)); rewrite ?zlen_app, ?zlen_replicate; lia. }
  exists a3. split; [done|]. rewrite <- !app_assoc in H4. by replace (n + 2 + 1) with (n + 3) in H4 by lia.
Qed.

Lemma add_entry_ok l p st : goal_state l st -> 0 <= p < n0 -> s_entry (symbol_at syms0 p) <> 0 -> (forall q, q ∈ l -> 0 <= q < n0 /\ q <> p) ->
  if entry_typed_b (symbol_at syms0 p) then exists st', add_entry junk z n0 p st = Ok st' /\ goal_state (l ++ [p]) st'
  else fails (add_entry junk z n0 p st).
Proof.
  intros Gs Hp He Hl. destruct (start_rule_ok l st Gs) as (st1 & E1 & Ea & Et & Ep & Ei & Er & Hlhs & Z1 & Z2 & Hz). unfold add_entry. rewrite E1. cbn [rbind].
  set (b := symbol_at syms0 p) in *. pose proof (rd_symbol_at syms0 p Hp) as Eb. fold b in Eb.
  assert (Erd : rd (all (table st1)) p = Ok b) by (rewrite Ea, rd_app_l by lia; done). rewrite Erd. cbn [rbind].
  assert (New : forall q c, rd (all (table st1)) q = Ok c -> s_name c <> entry_name (s_entry b)).
  { intros q c Ec. rewrite Ea in Ec. destruct (decide (q < n0)) as [Hq|Hq].
    - rewrite rd_app_l in Ec by lia. by apply (readable_head q).
    - rewrite rd_app_r in Ec by lia. destruct (decide (q = n0)) as [->|]; [rewrite Z.sub_diag in Ec; by injection Ec as <-|].
      apply rd_range in Ec as Rq. rewrite rd_cons in Ec by lia. apply rd_map in Ec as (q' & [_ Eq]%rd_Ok & ->). apply list_elem_of_lookup_2 in Eq. destruct (Hl q' Eq) as [Hq' Ne].
      pose proof (rd_symbol_at syms0 q' Hq') as Eq'. cbn. intros E. apply Ne. pose proof (rg_entry _ _ R _ _ Eb). pose proof (rg_entry _ _ R _ _ Eq'). unfold MAX_ENTRY_POINT in *.
      apply entry_name_inj in E; [|lia|lia]. by apply (rg_entries _ _ R q' p _ b Eq' Eb E); rewrite E. }
  destruct (lookup_new (table st1) _ Et (entry_name_plain _) New) as (cs & El & Tc). rewrite El. cbn [rbind all chains]. rewrite !update_last. cbn [rbind]. rewrite update_last. cbn [rbind].
  destruct (push_rule _ _ _ (zlen (all (table st1))) p (gs_items _ _ Gs)) as (a1 & a2 & W1 & W2 & a3 & W3 & Hi). rewrite Ep, Ei, W1. cbn [rbind]. rewrite W2. cbn [rbind].
  rewrite rd_app_l by (apply rd_range in Erd; lia). rewrite Erd. cbn [rbind]. unfold entry_typed_b. destruct (s_tag b) as [tag|]; cycle 1.
  { eexists. split; [done|]. by left. }
  destruct (polymorphic_ends (S (length tag)) tag) as [poly Epoly]; [lia|]. unfold is_polymorphic. rewrite Epoly. cbn [rbind]. destruct poly; cbn [negb].
  { eexists. split; [done|]. right. by left. }
  unfold end_rule. cbn [last_was_action negb pitem items]. rewrite W3. cbn [rbind]. eexists. split; [done|].
  assert (Ez : zlen (all (table st1)) = n0 + 1 + zlen l) by (rewrite Ea, zlen_app, zlen_cons, zlen_map; lia).
  constructor; cbn [table all chains pitem items plhs nb_rules rprecs rassocs].
  - rewrite Ea. unfold with_goal. rewrite goal_of_entries by (by destruct l). rewrite map_app. cbn [map]. by rewrite <- app_assoc.
  - apply (table_ok_names _ (all (table st1) ++ [make_bucket (entry_name (s_entry b))])); [|done]. by rewrite !map_app.
  - rewrite entry_rules_snoc, app_assoc, rules_items_snoc. cbn [snd map app]. rewrite <- Ez. by replace (items st + 2 + 1) with (items st + 3) by lia.
  - rewrite entry_rules_snoc, app_assoc, rules_lhs_snoc, Er. exact Hlhs.
  - by split.
  - intros i Hi'. destruct (Hz i Hi') as [-> ->]. by apply (gs_given _ _ Gs).
Qed.

Lemma entries_until p : 0 <= p < n0 -> filter (fun q => s_entry (symbol_at syms0 q) <> 0) (seqZ 0 (p + 1)) =
  filter (fun q => s_entry (symbol_at syms0 q) <> 0) (seqZ 0 p) ++ (if decide (s_entry (symbol_at syms0 p) <> 0) then [p] else []).
Proof. intros Hp. rewrite seqZ_app by lia. rewrite filter_app. by f_equal. Qed.

(** the tokens of the entries are not entry points *)
Lemma no_more_entries l st : goal_state l st -> forall fuel bp, n0 <= bp -> (Z.to_nat (zlen (all (table st)) - bp) < fuel)%nat -> add_entries junk z fuel n0 bp st = Ok st.
Proof.
  intros Gs. induction fuel as [|fuel IH]; intros bp Hbp Hf; [lia|]. cbn [add_entries]. destruct (Z.ltb_spec bp (zlen (all (table st)))) as [Hlt|]; [|done].
  pose proof (zlen_nonneg syms0). destruct (rd_in_range (all (table st)) bp) as [b E]; [lia|]. rewrite E. cbn [rbind]. rewrite (gs_all _ _ Gs) in E.
  assert (Hb : s_entry b = 0) by (apply with_goal_new in E as [->|(q & _ & ->)]; [by destruct l|done|done]). rewrite Hb. cbn. apply IH; lia.
Qed.

Lemma add_entries_ok fuel : forall bp st, 0 <= bp <= n0 -> goal_state (filter (fun q => s_entry (symbol_at syms0 q) <> 0) (seqZ 0 bp)) st ->
  (Z.to_nat (n0 - bp) + length syms0 + 1 < fuel)%nat ->
  if forallb (fun p => entry_typed_b (symbol_at syms0 p)) (filter (fun q => s_entry (symbol_at syms0 q) <> 0) (seqZ bp (n0 - bp))) then
    exists st', add_entries junk z fuel n0 bp st = Ok st' /\ goal_state (entries syms0) st'
  else fails (add_entries junk z fuel n0 bp st).
Proof.
  induction fuel as [|fuel IH]; intros bp st Hbp Gs Hf; [lia|]. pose proof (with_goal_zlen (filter (fun q => s_entry (symbol_at syms0 q) <> 0) (seqZ 0 bp))) as Zw.
  pose proof (zlen_nonneg (filter (fun q => s_entry (symbol_at syms0 q) <> 0) (seqZ 0 bp))) as Z0. destruct (decide (bp = n0)) as [->|Hne].
  - rewrite Z.sub_diag. cbn [seqZ forallb]. rewrite (no_more_entries _ st Gs); [by exists st|lia|]. rewrite (gs_all _ _ Gs), Zw.
    pose proof (length_filter (fun q => s_entry (symbol_at syms0 q) <> 0) (seqZ 0 n0)) as H. rewrite length_seqZ in H. unfold zlen in *. lia.
  - cbn [add_entries]. rewrite (gs_all _ _ Gs), Zw. destruct (Z.ltb_spec bp (n0 + 1 + zlen (filter (fun q => s_entry (symbol_at syms0 q) <> 0) (seqZ 0 bp)))); [|lia].
    rewrite with_goal_read by lia. cbn [rbind]. replace (n0 - bp) with (1 + (n0 - (bp + 1))) by lia. rewrite seqZ_app by lia. rewrite filter_app, forallb_app.
    replace (bp + 1 + (n0 - (bp + 1))) with n0 by lia. change (seqZ bp 1) with [bp]. rewrite filter_cons, filter_nil.
    specialize (IH (bp + 1)). rewrite entries_until in IH by lia. destruct (Z.eqb_spec (s_entry (symbol_at syms0 bp)) 0) as [E0|N0].
    + rewrite decide_False in IH |- * by tauto. cbn [forallb andb rbind]. rewrite app_nil_r in IH. apply IH; [lia|done|lia].
    + rewrite decide_True in IH |- * by done. cbn [forallb]. rewrite andb_true_r.
      pose proof (add_entry_ok _ bp st Gs ltac:(lia) N0) as H'. destruct (entry_typed_b (symbol_at syms0 bp)); cbn [andb].
      * destruct H' as (st' & -> & Gs'); [intros q [_ Hq%elem_of_seqZ]%list_elem_of_filter; lia|]. cbn [rbind]. apply IH; [lia|done|lia].
      * destruct H' as (msg & -> & Hm); [intros q [_ Hq%elem_of_seqZ]%list_elem_of_filter; lia|]. by exists msg.
Qed.

(** [make_goal]: a rule for each entry point, after the rules read *)
Lemma make_goal_ok : if forallb (fun p => entry_typed_b (symbol_at syms0 p)) (entries syms0) then
    exists st', make_goal junk z st0 = Ok (st', n0) /\ goal_state (entries syms0) st'
  else fails (make_goal junk z st0).
Proof.
  unfold make_goal. destruct (lookup_new (table st0) goal_name (rg_table _ _ R)) as (cs & -> & T).
  { split; [done|]. by repeat constructor. }
  { intros p b E. by apply (readable_head p b 0 E). }
  cbn [rbind all]. cbv zeta. pose proof (add_entries_ok (2 * length (syms0 ++ [make_bucket goal_name]) + 1) 0
    (Reader (Symbols (syms0 ++ [make_bucket goal_name]) cs) (pitem st0) (plhs st0) (rprecs st0) (rassocs st0) (items st0) (nb_rules st0) (last_was_action st0))) as H.
  rewrite Z.sub_0_r in H. fold (entries syms0) in H. pose proof (zlen_nonneg syms0).
  destruct (forallb _ _).
  - destruct H as (st' & -> & Gs); [lia| |rewrite length_app; unfold zlen; cbn; lia|]; [|by exists st'].
    constructor; cbn [table all pitem items plhs nb_rules rprecs rassocs]; rewrite ?app_nil_r; [done|done|apply (rg_items _ _ R)|apply (rg_lhs _ _ R)|apply (rg_arrays _ _ R)|done].
  - destruct H as (msg & -> & Hm); [lia| |rewrite length_app; unfold zlen; cbn; lia|]; [|by exists msg].
    constructor; cbn [table all pitem items plhs nb_rules rprecs rassocs]; rewrite ?app_nil_r; [done|done|apply (rg_items _ _ R)|apply (rg_lhs _ _ R)|apply (rg_arrays _ _ R)|done].
Qed.

End Goal.

(** ** The place of an element *)

Fixpoint pos (p : Z) (l : list Z) : Z := match l with [] => 0 | q :: l => if p =? q then 0 else 1 + pos p l end.

Lemma pos_ok p l : p ∈ l -> 0 <= pos p l /\ rd l (pos p l) = Ok p.
Proof.
  induction l as [|q l IH]; intros Hp; [by apply elem_of_nil in Hp|]. cbn [pos]. destruct (Z.eqb_spec p q) as [->|Ne]; [done|].
  destruct IH as [H1 H2]; [by apply elem_of_cons in Hp as [->|]|]. split; [lia|]. rewrite rd_cons by lia. by replace (1 + pos p l - 1) with (pos p l) by lia.
Qed.

Lemma pos_rd l i p : NoDup l -> rd l i = Ok p -> pos p l = i.
Proof.
  intros Hn E. apply rd_Ok in E as [Hi E]. destruct (pos_ok p l) as [H1 [_ H2]%rd_Ok]; [by apply list_elem_of_lookup_2 in E|].
  pose proof (NoDup_lookup _ _ _ _ Hn E H2). lia.
Qed.

Lemma pos_app p a b : p ∉ a -> pos p (a ++ p :: b) = zlen a.
Proof.
  induction a as [|q a IH]; intros Hp; cbn [app pos]; [by rewrite Z.eqb_refl|]. rewrite not_elem_of_cons in Hp. destruct Hp as [Ne Hp].
  rewrite (proj2 (Z.eqb_neq p q) Ne), IH, zlen_cons by done. done.
Qed.

Lemma pos_range p l : p ∈ l -> 0 <= pos p l < zlen l.
Proof. intros H. destruct (pos_ok p l H) as [_ E]. by apply rd_range in E. Qed.

Lemma pos_inj p q l : p ∈ l -> q ∈ l -> pos p l = pos q l -> p = q.
Proof. intros Hp Hq E. destruct (pos_ok p l Hp) as [_ E1], (pos_ok q l Hq) as [_ E2]. rewrite E in E1. congruence. Qed.

(** ** Symbols changed one by one *)

(** the symbols are those that [F] gives *)
Definition are (F : Z -> symbol) (n : Z) (l : list symbol) : Prop := zlen l = n /\ forall p, 0 <= p < n -> rd l p = Ok (F p).

Lemma are_ext F G n l : (forall p, 0 <= p < n -> F p = G p) -> are F n l -> are G n l.
Proof. intros H [Hz Hl]. split; [done|]. intros p Hp. rewrite <- H by done. by apply Hl. Qed.

Lemma are_update F n l p f : are F n l -> 0 <= p < n -> exists l', update l p f = Ok l' /\ are (fun q => if decide (q = p) then f (F q) else F q) n l'.
Proof.
  intros [Hz Hl] Hp. rewrite (update_ok l p (F p)) by (by apply Hl). eexists. split; [done|]. split; [by rewrite zlen_insert|]. intros q Hq. destruct (decide (q = p)) as [->|].
  - by rewrite rd_insert_eq by lia.
  - rewrite rd_insert_ne by lia. by apply Hl.
Qed.

(** ** The numbers and the values of the symbols *)

Definition tokens_of (syms : list symbol) : list Z := filter (fun p => is_term (symbol_at syms p) = true) (seqZ 0 (zlen syms)).
Definition variables_of (syms : list symbol) : list Z := filter (fun p => is_term (symbol_at syms p) = false) (seqZ 0 (zlen syms)).

(** the variables in the order of their numbers *)
Definition goal_first (syms : list symbol) (goal : Z) : list Z := goal :: filter (fun p => p <> goal) (variables_of syms).

Definition number_of (syms : list symbol) (goal p : Z) : Z :=
  if is_term (symbol_at syms p) then 1 + pos p (tokens_of syms) else zlen (tokens_of syms) + 2 + pos p (goal_first syms goal).

Section Symbols.
Context (junk : option Z) (z : Z) (syms : list symbol) (goal : Z).
Context (Hgoal : 0 <= goal < zlen syms) (Hvar : is_term (symbol_at syms goal) = false).
Context (Herror : is_term (symbol_at syms 0) = true) (Hundef : s_value (symbol_at syms 0) = UNDEFINED).
Context (Hvalues : forall p, 0 < p < zlen syms -> is_term (symbol_at syms p) = true ->
  s_value (symbol_at syms p) = UNDEFINED \/ (0 <= s_value (symbol_at syms p) <= MAXSHORT /\ s_value (symbol_at syms p) <> 256)).
Context (Hsize : 2 * zlen syms + 260 <= MAXSHORT).

#[local] Abbreviation n := (zlen syms).
#[local] Abbreviation at_ := (symbol_at syms).
#[local] Abbreviation terms := (tokens_of syms).
#[local] Abbreviation vars := (variables_of syms).
#[local] Abbreviation order := (goal_first syms goal).
#[local] Abbreviation number := (number_of syms goal).
#[local] Abbreviation ntok := (1 + zlen terms).

Lemma elem_of_terms p : p ∈ terms <-> 0 <= p < n /\ is_term (at_ p) = true.
Proof. unfold tokens_of. rewrite list_elem_of_filter, elem_of_seqZ. split; intros [? ?]; split; (done || lia). Qed.

Lemma elem_of_vars p : p ∈ vars <-> 0 <= p < n /\ is_term (at_ p) = false.
Proof. unfold variables_of. rewrite list_elem_of_filter, elem_of_seqZ. split; intros [? ?]; split; (done || lia). Qed.

Lemma NoDup_terms : NoDup terms. Proof. apply NoDup_filter, NoDup_seqZ. Qed.
Lemma NoDup_vars : NoDup vars. Proof. apply NoDup_filter, NoDup_seqZ. Qed.

Lemma goal_in_vars : goal ∈ vars.
Proof. by apply elem_of_vars. Qed.

Lemma NoDup_order : NoDup order.
Proof. constructor; [by intros [? _]%list_elem_of_filter|]. apply NoDup_filter, NoDup_vars. Qed.

Lemma elem_of_order p : p ∈ order <-> p ∈ vars.
Proof.
  unfold goal_first. rewrite elem_of_cons, list_elem_of_filter. split; [|destruct (decide (p = goal)); tauto].
  intros [->|[_ H]]; [exact goal_in_vars|done].
Qed.

Lemma split_count : zlen terms + zlen vars = n.
Proof.
  assert (H : forall l, zlen (filter (fun p => is_term (at_ p) = true) l) + zlen (filter (fun p => is_term (at_ p) = false) l) = zlen l).
  { induction l as [|p l IH]; [done|]. rewrite !filter_cons, zlen_cons. destruct (is_term (at_ p)); [rewrite decide_True, decide_False by done|rewrite decide_False, decide_True by done]; rewrite zlen_cons; lia. }
  unfold tokens_of, variables_of. rewrite H. pose proof (zlen_nonneg syms). unfold zlen at 1. rewrite length_seqZ. lia.
Qed.

Lemma order_zlen : zlen order = zlen vars.
Proof.
  unfold zlen. f_equal. apply Permutation_length, NoDup_Permutation; [exact NoDup_order|exact NoDup_vars|exact elem_of_order].
Qed.

Lemma number_token p : p ∈ terms -> 1 <= number p < ntok /\ number p = 1 + pos p terms.
Proof. intros Hp. pose proof (pos_range p _ Hp). apply elem_of_terms in Hp as [_ E]. unfold number_of. rewrite E. lia. Qed.

Lemma number_variable p : p ∈ vars -> ntok < number p < n + 2 /\ number p = ntok + 1 + pos p order.
Proof.
  intros Hp. pose proof (pos_range p order (proj2 (elem_of_order p) Hp)). rewrite order_zlen in *. pose proof split_count.
  apply elem_of_vars in Hp as [_ E]. unfold number_of. rewrite E. lia.
Qed.

Lemma token_or_variable p : 0 <= p < n -> p ∈ terms \/ p ∈ vars.
Proof. intros Hp. rewrite elem_of_terms, elem_of_vars. destruct (is_term (at_ p)); [by left|by right]. Qed.

Lemma number_inj p q : 0 <= p < n -> 0 <= q < n -> number p = number q -> p = q.
Proof.
  intros Hp Hq E. destruct (token_or_variable p Hp) as [H1|H1], (token_or_variable q Hq) as [H2|H2].
  - destruct (number_token p H1), (number_token q H2). apply (pos_inj p q terms); [done|done|lia].
  - destruct (number_token p H1), (number_variable q H2). lia.
  - destruct (number_variable p H1), (number_token q H2). lia.
  - destruct (number_variable p H1), (number_variable q H2). apply (pos_inj p q order); [by apply elem_of_order..|lia].
Qed.

Lemma number_goal : number goal = ntok + 1.
Proof. destruct (number_variable goal goal_in_vars) as [_ ->]. unfold goal_first. cbn [pos]. rewrite Z.eqb_refl. lia. Qed.

Lemma first_term : rd terms 0 = Ok 0.
Proof.
  unfold tokens_of. replace n with (1 + (n - 1)) by lia. rewrite seqZ_app by lia. change (seqZ 0 1) with [0]. rewrite filter_app, filter_cons, decide_True by done. done.
Qed.

Lemma number_error : number 0 = 1.
Proof.
  pose proof first_term as E. pose proof (pos_rd _ _ _ NoDup_terms E) as Hp. apply rd_Ok in E as [_ E]. apply list_elem_of_lookup_2 in E.
  destruct (number_token 0 E) as [_ ->]. lia.
Qed.

(** ** The array of the symbols *)

Lemma symbols_counted : count_symbols syms = (n + 2, ntok).
Proof.
  assert (H : forall l a b, fold_left (fun '(nsyms, ntokens) c => (nsyms + 1, if is_term c then ntokens + 1 else ntokens)) l (a, b) = (a + zlen l, b + zlen (filter (fun c => is_term c = true) l))).
  { induction l as [|c l IH]; intros a b; cbn [fold_left]; [f_equal; change (zlen (@nil symbol)) with 0; rewrite ?filter_nil; change (zlen (@nil symbol)) with 0; lia|].
    rewrite IH, filter_cons, zlen_cons. destruct (is_term c); [rewrite decide_True, zlen_cons by done|rewrite decide_False by done]; f_equal; lia. }
  unfold count_symbols. rewrite H. f_equal; [lia|]. f_equal.
  assert (E : syms = map at_ (seqZ 0 n)).
  { apply list_eq. intros i. change (map at_ (seqZ 0 n)) with (at_ <$> seqZ 0 n). rewrite list_lookup_fmap. destruct (decide (i < length syms)%nat) as [Hi|Hi].
    - rewrite (proj2 (lookup_seqZ 0 n i (Z.of_nat i)) ltac:(unfold zlen; lia)). cbn. unfold symbol_at. rewrite Nat2Z.id. by destruct (lookup_lt_is_Some_2 syms i Hi) as [b ->].
    - rewrite lookup_ge_None_2 by lia. rewrite lookup_ge_None_2 by (rewrite length_seqZ; unfold zlen; lia). done. }
  assert (M : forall l, zlen (filter (fun c => is_term c = true) (map at_ l)) = zlen (filter (fun p => is_term (at_ p) = true) l)).
  { induction l as [|p l IH]; [done|]. cbn [map]. rewrite !filter_cons. destruct (is_term (at_ p)) eqn:Et; [rewrite !decide_True by done; rewrite !zlen_cons, IH; done|].
    rewrite !decide_False by done. exact IH. }
  rewrite E at 1. apply M.
Qed.

Definition sorted_symbols : list (option Z) := None :: map Some terms ++ None :: map Some vars.

Lemma filter_seq_next (P : Z -> Prop) `{forall x, Decision (P x)} i : 0 <= i -> filter P (seqZ 0 (i + 1)) = filter P (seqZ 0 i) ++ (if decide (P i) then [i] else []).
Proof. intros Hi. rewrite seqZ_app by lia. rewrite filter_app. by f_equal. Qed.

Lemma filter_seq_split (P : Z -> Prop) `{forall x, Decision (P x)} i : 0 <= i <= n -> filter P (seqZ 0 n) = filter P (seqZ 0 i) ++ filter P (seqZ i (n - i)).
Proof. intros Hi. replace n with (i + (n - i)) at 1 by lia. rewrite seqZ_app by lia. by rewrite filter_app, Z.add_0_l. Qed.

Lemma place_symbols_ok : place_symbols junk syms (n + 2) ntok = Ok sorted_symbols.
Proof.
  pose proof split_count as Hs. pose proof (zlen_nonneg terms). pose proof (zlen_nonneg vars).
  unfold place_symbols. rewrite wr_in_range by (rewrite zlen_replicate; lia). cbn [rbind]. rewrite wr_in_range by (rewrite zlen_insert, zlen_replicate; lia). cbn [rbind].
  set (T := fun i => filter (fun p => is_term (at_ p) = true) (seqZ 0 i)). set (V := fun i => filter (fun p => is_term (at_ p) = false) (seqZ 0 i)).
  match goal with |- context [for_loop _ _ _ (?v0, _, _)] =>
    destruct (for_loop_inv (fun i '(v, a, b) => a = 1 + zlen (T i) /\ b = ntok + 1 + zlen (V i) /\
        exists J1 J2, v = None :: (map Some (T i) ++ J1) ++ None :: map Some (V i) ++ J2 /\ zlen (T i) + zlen J1 = zlen terms /\ zlen (V i) + zlen J2 = zlen vars)
      (length syms) 0 (place_symbol syms) (v0, 1, ntok + 1)) as ([[v a] b] & -> & -> & -> & J1 & J2 & -> & Z1 & Z2) end.
  - change (T 0) with (@nil Z). change (V 0) with (@nil Z). rewrite !zlen_nil. split; [done|]. split; [lia|]. exists (replicate (length terms) junk), (replicate (length vars) junk). split; [|split; rewrite zlen_replicate; unfold zlen; cbn [length]; lia].
    replace (Z.to_nat (n + 2)) with (S (length terms + S (length vars))) by (unfold zlen in *; lia). cbn [replicate]. rewrite replicate_add. cbn [replicate].
    change (Z.to_nat 0) with O. replace (Z.to_nat ntok) with (length (None :: replicate (length terms) junk) + 0)%nat by (cbn [length]; rewrite length_replicate; unfold zlen; lia).
    change (<[0%nat:=None]> (junk :: replicate (length terms) junk ++ junk :: replicate (length vars) junk)) with ((None :: replicate (length terms) junk) ++ junk :: replicate (length vars) junk).
    by rewrite insert_app_r.
  - intros i [[v a] b] Hi (-> & -> & J1 & J2 & -> & Z1 & Z2). assert (Hr : 0 <= i < n) by (unfold zlen; lia). unfold place_symbol.
    rewrite rd_symbol_at by done. cbn [rbind]. unfold T, V. rewrite !filter_seq_next by lia. fold (T i) (V i).
    pose proof (filter_seq_split (fun p => is_term (at_ p) = true) (i + 1) ltac:(lia)) as ET. rewrite filter_seq_next in ET by lia. fold terms (T i) in ET.
    pose proof (filter_seq_split (fun p => is_term (at_ p) = false) (i + 1) ltac:(lia)) as EV. rewrite filter_seq_next in EV by lia. fold vars (V i) in EV.
    destruct (is_term (at_ i)) eqn:Et; [rewrite decide_True, decide_False in * by done|rewrite decide_False, decide_True in * by done]; rewrite ?app_nil_r in *.
    + destruct J1 as [|x J1].
      { exfalso. rewrite ET in Z1. rewrite !zlen_app in Z1. change (zlen [i]) with 1 in Z1. change (zlen (@nil (option Z))) with 0 in Z1. pose proof (zlen_nonneg (filter (fun p => is_term (at_ p) = true) (seqZ (i + 1) (n - (i + 1))))). lia. }
      pose proof (wr_mid (None :: map Some (T i)) (J1 ++ None :: map Some (V i) ++ J2) x (Some i)) as W. rewrite zlen_cons, zlen_map in W. cbn [app] in W. rewrite <- app_assoc. cbn [app].
      rewrite W. cbn [rbind]. eexists. split; [done|]. rewrite zlen_snoc. split; [lia|]. split; [done|]. exists J1, J2. rewrite map_app, <- !app_assoc. rewrite zlen_cons in Z1. split; [done|]. lia.
    + destruct J2 as [|x J2].
      { exfalso. rewrite EV in Z2. rewrite !zlen_app in Z2. change (zlen [i]) with 1 in Z2. change (zlen (@nil (option Z))) with 0 in Z2. pose proof (zlen_nonneg (filter (fun p => is_term (at_ p) = false) (seqZ (i + 1) (n - (i + 1))))). lia. }
      pose proof (wr_mid (None :: (map Some (T i) ++ J1) ++ None :: map Some (V i)) J2 x (Some i)) as W. rewrite zlen_cons, !zlen_app, zlen_cons, !zlen_map in W.
      cbn [app] in W. rewrite <- !app_assoc in W. cbn [app] in W. rewrite <- app_assoc. replace (1 + (zlen (T i) + zlen J1 + (1 + zlen (V i)))) with (ntok + 1 + zlen (V i)) in W by lia.
      rewrite W. cbn [rbind]. eexists. split; [done|]. rewrite zlen_snoc. split; [done|]. split; [lia|]. exists J1, J2. rewrite map_app, <- !app_assoc. rewrite zlen_cons in Z2. split; [done|]. lia.
  - cbn [rbind]. replace (0 + Z.of_nat (length syms)) with n in * by (unfold zlen; lia). fold terms vars in *. unfold T, V in *. change (filter (fun p => is_term (at_ p) = true) (seqZ 0 n)) with terms in *.
    change (filter (fun p => is_term (at_ p) = false) (seqZ 0 n)) with vars in *. rewrite Z.eqb_refl. replace (ntok + 1 + zlen vars) with (n + 2) by lia. rewrite Z.eqb_refl. cbn [andb].
    destruct J1; [|rewrite zlen_cons in Z1; pose proof (zlen_nonneg J1); lia]. destruct J2; [|rewrite zlen_cons in Z2; pose proof (zlen_nonneg J2); lia]. by rewrite !app_nil_r.
Qed.

Lemma sorted_token i p : rd terms (i - 1) = Ok p -> rd sorted_symbols i = Ok (Some p).
Proof.
  intros E. apply rd_range in E as Hr. unfold sorted_symbols. rewrite rd_cons by lia. apply rd_grown, rd_map. by exists p.
Qed.

Lemma sorted_variable i p : rd vars (i - (ntok + 1)) = Ok p -> rd sorted_symbols i = Ok (Some p).
Proof.
  intros E. apply rd_range in E as Hr. pose proof (zlen_nonneg terms). unfold sorted_symbols. rewrite rd_cons by lia. rewrite rd_app_r by (rewrite zlen_map; lia).
  rewrite zlen_map, rd_cons by lia. replace (i - 1 - zlen terms - 1) with (i - (ntok + 1)) by lia. apply rd_map. by exists p.
Qed.

Lemma nth_token i p : rd terms (i - 1) = Ok p -> nth_symbol sorted_symbols i = Ok p.
Proof. intros E. unfold nth_symbol. by rewrite (sorted_token i p E). Qed.

Lemma nth_variable i p : rd vars (i - (ntok + 1)) = Ok p -> nth_symbol sorted_symbols i = Ok p.
Proof. intros E. unfold nth_symbol. by rewrite (sorted_variable i p E). Qed.

Lemma rd_terms i p : rd terms i = Ok p -> p ∈ terms /\ 0 <= p < n /\ is_term (at_ p) = true /\ pos p terms = i.
Proof.
  intros E. pose proof (pos_rd _ _ _ NoDup_terms E). apply rd_Ok in E as [_ E]. apply list_elem_of_lookup_2 in E. split; [done|]. apply elem_of_terms in E as [? ?]. done.
Qed.

Lemma rd_vars i p : rd vars i = Ok p -> p ∈ vars /\ 0 <= p < n /\ is_term (at_ p) = false /\ pos p vars = i.
Proof.
  intros E. pose proof (pos_rd _ _ _ NoDup_vars E). apply rd_Ok in E as [_ E]. apply list_elem_of_lookup_2 in E. split; [done|]. apply elem_of_vars in E as [? ?]. done.
Qed.

(** the place of a variable among the variables after the goal *)
Lemma pos_order i p : rd vars i = Ok p -> p <> goal -> pos p order = 1 + zlen (filter (fun q => q <> goal) (take (Z.to_nat i) vars)).
Proof.
  intros E Ne. unfold goal_first. cbn [pos]. rewrite (proj2 (Z.eqb_neq p goal) Ne). f_equal. apply rd_Ok in E as [Hi E].
  pose proof NoDup_vars as Hn. rewrite <- (take_drop_middle _ _ _ E) in Hn |- * at 1. rewrite filter_app, filter_cons, decide_True by done. apply pos_app. apply NoDup_app in Hn as (_ & Hn & _). intros [_ Hin]%list_elem_of_filter. apply (Hn p Hin). by left.
Qed.

Lemma take_next {A} (l : list A) i x : rd l i = Ok x -> take (Z.to_nat (i + 1)) l = take (Z.to_nat i) l ++ [x].
Proof. intros [Hi E]%rd_Ok. replace (Z.to_nat (i + 1)) with (S (Z.to_nat i)) by lia. by apply take_S_r. Qed.

Lemma take_pos p i : p ∈ vars -> p ∈ take (Z.to_nat i) vars <-> pos p vars < i.
Proof.
  intros Hp. destruct (pos_ok p vars Hp) as [H0 E]. split.
  - intros (k & Ek)%list_elem_of_lookup. pose proof (lookup_lt_Some _ _ _ Ek) as Hk. rewrite length_take in Hk. rewrite lookup_take_lt in Ek by lia.
    rewrite (pos_rd vars (Z.of_nat k) p NoDup_vars) by (apply rd_Ok; rewrite Nat2Z.id; split; [lia|done]). lia.
  - intros Hi. apply rd_Ok in E as [_ E]. apply list_elem_of_lookup. exists (Z.to_nat (pos p vars)). by rewrite lookup_take_lt by lia.
Qed.

(** the loop on the tokens that sets their numbers *)
Lemma number_tokens_ok l : are at_ n l -> exists l',
  for_loop (Z.to_nat (ntok - 1)) 1 (fun i syms => let* p := nth_symbol sorted_symbols i in update syms p (set_index i)) l = Ok l' /\
  are (fun p => if is_term (at_ p) then set_index (number p) (at_ p) else at_ p) n l'.
Proof.
  intros Hl. destruct (for_loop_inv (fun i l => are (fun p => if is_term (at_ p) && (pos p terms + 1 <? i) then set_index (number p) (at_ p) else at_ p) n l)
    (Z.to_nat (ntok - 1)) 1 (fun i syms => let* p := nth_symbol sorted_symbols i in update syms p (set_index i)) l) as (l' & E & H).
  - revert Hl. apply are_ext. intros p Hp. destruct (is_term (at_ p)) eqn:Et; [|done]. pose proof (pos_range p terms) as Hr. rewrite elem_of_terms in Hr.
    destruct (Z.ltb_spec (pos p terms + 1) 1); [|done]. specialize (Hr (conj Hp Et)). lia.
  - intros i l1 Hi H1. pose proof (zlen_nonneg terms). destruct (rd_in_range terms (i - 1)) as [p Ep]; [lia|]. rewrite (nth_token i p Ep). cbn [rbind].
    destruct (rd_terms _ _ Ep) as (Hin & Hp & Et & Epos). destruct (are_update _ _ _ p (set_index i) H1 Hp) as (l2 & E2 & H2). exists l2. split; [done|].
    revert H2. apply are_ext. intros q Hq. destruct (decide (q = p)) as [->|Ne].
    + rewrite Et, Epos. destruct (Z.ltb_spec (i - 1 + 1) i); [lia|]. destruct (Z.ltb_spec (i - 1 + 1) (i + 1)); [|lia]. cbn [andb].
      destruct (number_token p Hin) as [_ ->]. rewrite Epos. by replace (1 + (i - 1)) with i by lia.
    + destruct (is_term (at_ q)) eqn:Eq; cbn [andb]; [|done]. assert (Hq' : q ∈ terms) by (by apply elem_of_terms).
      destruct (Z.ltb_spec (pos q terms + 1) i), (Z.ltb_spec (pos q terms + 1) (i + 1)); try done; [lia|]. exfalso. apply Ne, (pos_inj q p terms); [done|done|lia].
  - exists l'. split; [done|]. revert H. apply are_ext. intros p Hp. destruct (is_term (at_ p)) eqn:Et; [|done]. cbn [andb].
    assert (Hin : p ∈ terms) by (by apply elem_of_terms). pose proof (pos_range p terms Hin). destruct (Z.ltb_spec (pos p terms + 1) (1 + Z.of_nat (Z.to_nat (ntok - 1)))); [done|lia].
Qed.

(** the loops on the variables, but the goal *)
Lemma number_variables_ok (f : Z -> symbol -> symbol) k0 F l : are F n l -> exists l' k',
  for_loop (Z.to_nat (n + 2 - ntok - 1)) (ntok + 1)
    (fun i '(syms, k) =>
       let* o := rd sorted_symbols i in
       if decide (o = Some goal) then Ok (syms, k) else
       let* p := of_option o in
       let* syms := update syms p (f k) in
       Ok (syms, k + 1)) (l, k0 + 1) = Ok (l', k') /\
  are (fun p => if is_term (at_ p) then F p else if decide (p = goal) then F p else f (k0 + pos p order) (F p)) n l'.
Proof.
  intros Hl. pose proof split_count as Hs. pose proof (zlen_nonneg vars). set (before := fun i => take (Z.to_nat (i - (ntok + 1))) vars).
  match goal with |- context [for_loop _ _ ?body _] =>
    destruct (for_loop_inv (fun i '(l, k) => k = k0 + 1 + zlen (filter (fun q => q <> goal) (before i)) /\
      are (fun p => if is_term (at_ p) then F p else if decide (p = goal) then F p else if pos p vars <? i - (ntok + 1) then f (k0 + pos p order) (F p) else F p) n l)
    (Z.to_nat (n + 2 - ntok - 1)) (ntok + 1) body (l, k0 + 1)) as ([l' k'] & E & _ & H') end.
  - assert (before (ntok + 1) = []) as -> by (unfold before; by rewrite Z.sub_diag). rewrite Z.sub_diag, filter_nil, zlen_nil. split; [lia|]. revert Hl. apply are_ext. intros p Hp.
    destruct (is_term (at_ p)) eqn:Et; [done|]. destruct (decide (p = goal)) as [|Ng]; [done|]. assert (Hin : p ∈ vars) by (by apply elem_of_vars).
    pose proof (pos_range p vars Hin). destruct (Z.ltb_spec (pos p vars) 0); [lia|done].
  - intros i [l1 k] Hi [-> H1]. destruct (rd_in_range vars (i - (ntok + 1))) as [p Ep]; [lia|]. rewrite (sorted_variable i p Ep). cbn [rbind of_option].
    destruct (rd_vars _ _ Ep) as (Hin & Hp & Et & Epos). assert (Eb : before (i + 1) = before i ++ [p]).
    { unfold before. replace (i + 1 - (ntok + 1)) with (i - (ntok + 1) + 1) by lia. by apply take_next. }
    rewrite Eb, filter_app, zlen_app, filter_cons, filter_nil.
    assert (Same : forall q, 0 <= q < n -> is_term (at_ q) = false -> q <> p -> (pos q vars <? i + 1 - (ntok + 1)) = (pos q vars <? i - (ntok + 1))).
    { intros q Hq Eq Ne. assert (Hq' : q ∈ vars) by (by apply elem_of_vars).
      destruct (Z.ltb_spec (pos q vars) (i + 1 - (ntok + 1))), (Z.ltb_spec (pos q vars) (i - (ntok + 1))); try done; [|lia]. exfalso. apply Ne, (pos_inj q p vars); [done|done|lia]. }
    destruct (decide (Some p = Some goal)) as [[= ->]|Ne].
    + eexists. split; [done|]. rewrite decide_False by tauto. rewrite zlen_nil. split; [lia|]. revert H1. apply are_ext. intros q Hq. destruct (is_term (at_ q)) eqn:Eq; [done|].
      destruct (decide (q = goal)) as [|Ng]; [done|]. by rewrite Same.
    + rewrite decide_True by congruence. destruct (are_update _ _ _ p (f (k0 + 1 + zlen (filter (fun q => q <> goal) (before i)))) H1 Hp) as (l2 & E2 & H2). rewrite E2. cbn [rbind].
      eexists. split; [done|]. change (zlen [p]) with 1. split; [lia|]. revert H2. apply are_ext. intros q Hq. destruct (decide (q = p)) as [->|Nq].
      * rewrite Et, !(decide_False (P := p = goal)) by congruence. rewrite !Epos. destruct (Z.ltb_spec (i - (ntok + 1)) (i - (ntok + 1))); [lia|].
        destruct (Z.ltb_spec (i - (ntok + 1)) (i + 1 - (ntok + 1))); [|lia]. f_equal. rewrite (pos_order _ p Ep) by congruence. unfold before. lia.
      * destruct (is_term (at_ q)) eqn:Eq; [done|]. destruct (decide (q = goal)) as [|Ng]; [done|]. by rewrite Same.
  - exists l', k'. split; [done|]. revert H'. apply are_ext. intros p Hp. destruct (is_term (at_ p)) eqn:Et; [done|]. destruct (decide (p = goal)) as [|Ng]; [done|].
    assert (Hin : p ∈ vars) by (by apply elem_of_vars). pose proof (pos_range p vars Hin). destruct (Z.ltb_spec (pos p vars) (ntok + 1 + Z.of_nat (Z.to_nat (n + 2 - ntok - 1)) - (ntok + 1))); [done|lia].
Qed.

(** a symbol with its number, and, for a variable, its value *)
Definition numbered_symbol (p : Z) : symbol :=
  if is_term (at_ p) then set_index (number p) (at_ p) else set_value (pos p order) (set_index (number p) (at_ p)).

Lemma number_symbols_ok : exists l', number_symbols sorted_symbols goal (n + 2) ntok syms = Ok l' /\ are numbered_symbol n l'.
Proof.
  unfold number_symbols. destruct (number_tokens_ok syms) as (l1 & -> & H1); [by split; [|apply rd_symbol_at]|]. cbn [rbind].
  destruct (are_update _ _ _ goal (set_index (ntok + 1)) H1 Hgoal) as (l2 & -> & H2). cbn [rbind].
  replace (ntok + 2) with ((ntok + 1) + 1) by lia. destruct (number_variables_ok set_index (ntok + 1) _ l2 H2) as (l3 & k3 & -> & H3). cbn [rbind].
  destruct (are_update _ _ _ goal (set_value 0) H3 Hgoal) as (l4 & -> & H4). cbn [rbind].
  destruct (number_variables_ok set_value 0 _ l4 H4) as (l5 & k5 & E5 & H5). change (0 + 1) with 1 in E5. rewrite E5. cbn [rbind].
  exists l5. split; [done|]. revert H5. apply are_ext. intros p Hp. unfold numbered_symbol.
  destruct (is_term (at_ p)) eqn:Et.
  - assert (Ng : p <> goal) by (intros ->; congruence). by rewrite !decide_False by done.
  - assert (Hin : p ∈ vars) by (by apply elem_of_vars). destruct (number_variable p Hin) as [_ En]. rewrite En. destruct (decide (p = goal)) as [->|Ng]; [|done].
    unfold goal_first. cbn [pos]. rewrite Z.eqb_refl. by replace (ntok + 1 + 0) with (ntok + 1) by lia.
Qed.

(** ** The values of the tokens *)

(** the values above 256 that are given to the tokens [ps] *)
Definition given (ps : list Z) : list Z := filter (fun x => 256 < x) (map (fun p => s_value (at_ p)) ps).

Lemma given_values_ok l sv : are numbered_symbol n l -> zlen sv = n + 2 -> exists D rest,
  given_values sorted_symbols ntok l sv = Ok (D ++ rest, zlen D) /\ zlen (D ++ rest) = n + 2 /\ StronglySorted Z.le D /\ D ≡ₚ given terms.
Proof.
  intros [_ Hl] Hz. pose proof split_count. pose proof (zlen_nonneg vars). unfold given_values.
  match goal with |- context [for_loop _ _ ?body _] =>
    destruct (for_loop_inv (fun i '(sv, k) => exists D rest, sv = D ++ rest /\ k = zlen D /\ zlen sv = n + 2 /\ StronglySorted Z.le D /\ D ≡ₚ given (take (Z.to_nat (i - 1)) terms))
    (Z.to_nat (ntok - 1)) 1 body (sv, 0)) as ([sv' k'] & -> & D & rest & -> & -> & Hz' & Hs & Hp) end.
  - exists [], sv. split; [done|]. split; [done|]. split; [done|]. split; [constructor|done].
  - intros i [sv1 k1] Hi (D & rest & -> & -> & Hz1 & Hs & Hp). destruct (rd_in_range terms (i - 1)) as [p Ep]; [lia|]. rewrite (nth_token i p Ep). cbn [rbind].
    destruct (rd_terms _ _ Ep) as (_ & Hpr & Et & _). rewrite (Hl p Hpr). cbn [rbind]. unfold numbered_symbol. rewrite Et. cbn [s_value set_index].
    assert (Eg : given (take (Z.to_nat (i + 1 - 1)) terms) = given (take (Z.to_nat (i - 1)) terms) ++ (if decide (256 < s_value (at_ p)) then [s_value (at_ p)] else [])).
    { replace (i + 1 - 1) with (i - 1 + 1) by lia. rewrite (take_next _ _ _ Ep). unfold given. rewrite map_app, filter_app. cbn [map]. by rewrite filter_cons, filter_nil. }
    rewrite Eg. destruct (Z.ltb_spec 256 (s_value (at_ p))) as [Hv|Hv]; [rewrite decide_True by done|rewrite decide_False, app_nil_r by lia; eexists; split; [done|]; by exists D, rest].
    destruct rest as [|c rest].
    { exfalso. rewrite app_nil_r in Hz1. apply Permutation_length in Hp. unfold given in Hp. pose proof (length_filter (fun x => 256 < x) (map (fun p => s_value (at_ p)) (take (Z.to_nat (i - 1)) terms))) as Q.
      rewrite length_map, length_take in Q. unfold zlen in *. lia. }
    destruct (sift_ok (s_value (at_ p)) D c rest Hs) as (D' & E' & Hp' & Hs'). replace (Z.to_nat (zlen D)) with (length D) by (unfold zlen; lia). rewrite E'. cbn [rbind].
    eexists. split; [done|]. exists D', rest. split; [done|]. assert (Ez : zlen D' = zlen D + 1) by (apply Permutation_length in Hp'; unfold zlen; cbn in Hp'; lia).
    split; [lia|]. rewrite zlen_app, Ez. rewrite zlen_app, zlen_cons in Hz1. split; [lia|]. split; [done|]. rewrite Hp', Hp. by rewrite Permutation_app_comm.
  - exists D, rest. split; [done|]. split; [done|]. split; [done|]. rewrite take_ge in Hp by (unfold zlen in *; lia). exact Hp.
Qed.

Section Given.
Context (D rest : list Z) (HD : StronglySorted Z.le D).

Lemma given_le i j : 0 <= i <= j -> j < zlen D -> zget D i <= zget D j.
Proof.
  intros Hi Hj. destruct (decide (i = j)) as [->|]; [lia|]. unfold zlen in Hj. destruct (lookup_lt_is_Some_2 D (Z.to_nat i)) as [x Ex]; [lia|].
  destruct (lookup_lt_is_Some_2 D (Z.to_nat j)) as [y Ey]; [lia|]. unfold zget. rewrite (nth_lookup_Some _ _ _ _ Ex), (nth_lookup_Some _ _ _ _ Ey).
  apply (sorted_lookup Z.le D _ _ _ _ HD Ex Ey). lia.
Qed.

Lemma rd_given j : 0 <= j < zlen D -> rd (D ++ rest) j = Ok (zget D j).
Proof. intros Hj. rewrite rd_app_l by lia. by apply rd_zget. Qed.

Lemma skip_same_ok fuel : forall j x, 0 <= j < zlen D -> zget D j = x -> (Z.to_nat (zlen D - j) <= fuel)%nat -> exists j', skip_same fuel (D ++ rest) (zlen D) j x = Ok j' /\
  j < j' <= zlen D /\ (forall m, j <= m < j' -> zget D m = x) /\ (j' < zlen D -> zget D j' <> x).
Proof.
  induction fuel as [|fuel IH]; intros j x Hj Ex Hf; [lia|]. cbn [skip_same]. cbv zeta. destruct (Z.ltb_spec (j + 1) (zlen D)) as [Hlt|Hge].
  - rewrite rd_given by lia. cbn [rbind]. destruct (Z.eqb_spec x (zget D (j + 1))) as [E|Ne].
    + destruct (IH (j + 1) x) as (j' & -> & H1 & H2 & H3); [lia|done|lia|]. exists j'. split; [done|]. split; [lia|]. split; [|done]. intros m Hm. destruct (decide (m = j)) as [->|]; [done|]. apply H2. lia.
    + exists (j + 1). split; [done|]. split; [lia|]. split; [|congruence]. intros m Hm. by replace m with j by lia.
  - exists (j + 1). split; [done|]. split; [lia|]. split; [|lia]. intros m Hm. by replace m with j by lia.
Qed.

(** [x] is the least value from [x0] that is not given *)
Lemma skip_given_ok fuel : forall j x, 0 <= j <= zlen D -> (forall m, 0 <= m < j -> zget D m < x) -> (forall m, j <= m < zlen D -> x <= zget D m) -> (Z.to_nat (zlen D - j) < fuel)%nat ->
  exists j' x', skip_given fuel (D ++ rest) (zlen D) j x = Ok (j', x') /\ j <= j' <= zlen D /\ x <= x' <= x + (j' - j) /\
  (forall m, 0 <= m < j' -> zget D m < x') /\ (forall m, j' <= m < zlen D -> x' < zget D m).
Proof.
  induction fuel as [|fuel IH]; intros j x Hj Hlo Hhi Hf; [lia|]. cbn [skip_given]. destruct (Z.ltb_spec j (zlen D)) as [Hlt|Hge].
  - rewrite rd_given by lia. cbn [rbind]. destruct (Z.eqb_spec x (zget D j)) as [E|Ne].
    + destruct (skip_same_ok (S (Z.to_nat (zlen D))) j x) as (j1 & -> & H1 & H2 & H3); [lia|done|lia|]. cbn [rbind].
      destruct (IH j1 (x + 1)) as (j' & x' & -> & K1 & K2 & K3 & K4); [lia| | |lia|].
      * intros m Hm. destruct (decide (m < j)); [pose proof (Hlo m ltac:(lia)); lia|]. rewrite H2 by lia. lia.
      * intros m Hm. pose proof (H3 ltac:(lia)). pose proof (Hhi j1 ltac:(lia)). pose proof (given_le j1 m ltac:(lia) ltac:(lia)). lia.
      * exists j', x'. split; [done|]. split; [lia|]. split; [lia|]. by split.
    + exists j, x. split; [done|]. split; [lia|]. split; [lia|]. split; [done|]. intros m Hm. pose proof (Hhi j ltac:(lia)). pose proof (given_le j m ltac:(lia) ltac:(lia)). lia.
  - exists j, x. split; [done|]. split; [lia|]. split; [lia|]. split; [done|]. intros m Hm. lia.
Qed.

Lemma not_given j x : (forall m, 0 <= m < j -> zget D m < x) -> (forall m, j <= m < zlen D -> x < zget D m) -> x ∉ D.
Proof.
  intros Hlo Hhi (i & E)%list_elem_of_lookup. pose proof (lookup_lt_Some _ _ _ E). assert (Ex : zget D (Z.of_nat i) = x) by (unfold zget; rewrite Nat2Z.id; by apply nth_lookup_Some).
  destruct (decide (Z.of_nat i < j)); [pose proof (Hlo (Z.of_nat i) ltac:(lia)); lia|]. pose proof (Hhi (Z.of_nat i) ltac:(unfold zlen; lia)). lia.
Qed.

End Given.

Definition undefined (p : Z) : bool := is_term (at_ p) && (s_value (at_ p) =? UNDEFINED).

(** the values chosen for the tokens of [ps] that have none are new *)
Record chosen (D : list Z) (v : Z -> Z) (bound : Z) (ps : Z -> Prop) : Prop := {
  ch_range : forall p, ps p -> p ∈ terms -> undefined p = true -> p <> 0 -> 257 <= v p < bound /\ v p ∉ D;
  ch_inj : forall p q, ps p -> ps q -> p ∈ terms -> q ∈ terms -> undefined p = true -> undefined q = true -> p <> 0 -> q <> 0 -> v p = v q -> p = q;
  ch_error : v 0 = 256 }.

Definition valued_symbol (v : Z -> Z) (p : Z) : symbol := if undefined p then set_value (v p) (numbered_symbol p) else numbered_symbol p.

Lemma undefined_numbered p : p ∈ terms -> (s_value (numbered_symbol p) =? UNDEFINED) = undefined p.
Proof. intros [_ Et]%elem_of_terms. unfold undefined, numbered_symbol. by rewrite Et. Qed.

Lemma undefined_term p : 0 <= p < n -> undefined p = true -> p ∈ terms.
Proof. intros Hp Eu. apply elem_of_terms. split; [done|]. unfold undefined in Eu. by apply andb_true_iff in Eu as [? _]. Qed.

Section Values.
Context (D rest : list Z) (HD : StronglySorted Z.le D) (HP : D ≡ₚ given terms).

Lemma given_zlen : zlen D <= zlen terms.
Proof.
  pose proof (Permutation_length HP) as H. unfold given in H. pose proof (length_filter (fun x => 256 < x) (map (fun p => s_value (at_ p)) terms)) as Q.
  rewrite length_map in Q. unfold zlen. lia.
Qed.

Lemma given_above m : 0 <= m < zlen D -> 257 <= zget D m.
Proof.
  intros Hm. unfold zlen in Hm. destruct (lookup_lt_is_Some_2 D (Z.to_nat m)) as [y Ey]; [lia|]. unfold zget. rewrite (nth_lookup_Some _ _ _ _ Ey).
  apply list_elem_of_lookup_2 in Ey. rewrite HP in Ey. apply list_elem_of_filter in Ey as [? _]. lia.
Qed.

(** the tokens before the place [i] have their values: [x] is the next one to try, and the
    first [j] values that are given are below it *)
Record valued_to (i : Z) (l : list symbol) (j x : Z) (v : Z -> Z) : Prop := {
  vt_j : 0 <= j <= zlen D;
  vt_x : 257 <= x <= 257 + j + (i - 2);
  vt_below : forall m, 0 <= m < j -> zget D m < x;
  vt_above : forall m, j <= m < zlen D -> x <= zget D m;
  vt_are : are (fun p => if undefined p && (pos p terms + 1 <? i) then set_value (v p) (numbered_symbol p) else numbered_symbol p) n l;
  vt_chosen : chosen D v x (fun p => pos p terms + 1 < i) }.

Lemma pos_before i p q : rd terms (i - 1) = Ok p -> q ∈ terms -> q <> p -> (pos q terms + 1 <? i + 1) = (pos q terms + 1 <? i).
Proof.
  intros Ep Hq Nq. destruct (rd_terms _ _ Ep) as (Hin & _ & _ & Epos).
  destruct (Z.ltb_spec (pos q terms + 1) (i + 1)), (Z.ltb_spec (pos q terms + 1) i); try done; [|lia]. exfalso. apply Nq, (pos_inj q p terms); [done|done|lia].
Qed.

(** the token at the place [i] is given the value [y] *)
Lemma choose_value i l j x v p l' y j' : valued_to i l j x v -> rd terms (i - 1) = Ok p -> p <> 0 -> undefined p = true ->
  are (fun q => if decide (q = p) then set_value y (if undefined q && (pos q terms + 1 <? i) then set_value (v q) (numbered_symbol q) else numbered_symbol q)
                else if undefined q && (pos q terms + 1 <? i) then set_value (v q) (numbered_symbol q) else numbered_symbol q) n l' ->
  j <= j' <= zlen D -> x <= y <= x + (j' - j) -> (forall m, 0 <= m < j' -> zget D m < y) -> (forall m, j' <= m < zlen D -> y < zget D m) ->
  valued_to (i + 1) l' j' (y + 1) (fun q => if decide (q = p) then y else v q).
Proof.
  intros [Hj Hx _ _ _ [C1 C2 C3]] Ep Np Eu Hl' Hj' Hy K1 K2. destruct (rd_terms _ _ Ep) as (Hin & Hpr & _ & Epos). pose proof (not_given D j' y K1 K2) as Hfresh.
  assert (Before : forall q, pos q terms + 1 < i + 1 -> q ∈ terms -> q <> p -> pos q terms + 1 < i).
  { intros q Hd Hq Nq. pose proof (pos_before i p q Ep Hq Nq) as S. destruct (Z.ltb_spec (pos q terms + 1) (i + 1)), (Z.ltb_spec (pos q terms + 1) i); (done || lia). }
  constructor; [lia|lia|intros m Hm; pose proof (K1 m Hm); lia|intros m Hm; pose proof (K2 m Hm); lia| |constructor].
  - revert Hl'. apply are_ext. intros q Hq. destruct (decide (q = p)) as [->|Nq].
    + rewrite Eu, Epos. destruct (Z.ltb_spec (i - 1 + 1) i); [lia|]. destruct (Z.ltb_spec (i - 1 + 1) (i + 1)); [done|lia].
    + destruct (undefined q) eqn:Eq; [|done]. by rewrite (pos_before i p q Ep (undefined_term q Hq Eq) Nq).
  - intros q Hd Hq Eq Nq. destruct (decide (q = p)) as [->|Ne]; [split; [lia|done]|]. destruct (C1 q (Before q Hd Hq Ne) Hq Eq Nq). split; [lia|done].
  - intros q r Hdq Hdr Hq Hr Eq Er Nq Nr. destruct (decide (q = p)) as [->|Neq], (decide (r = p)) as [->|Ner]; [done| | |].
    + intros Ev. destruct (C1 r (Before r Hdr Hr Ner) Hr Er Nr). lia.
    + intros Ev. destruct (C1 q (Before q Hdq Hq Neq) Hq Eq Nq). lia.
    + apply C2; (done || by apply Before).
  - by rewrite decide_False by congruence.
Qed.

Lemma keep_value i l j x v p : valued_to i l j x v -> rd terms (i - 1) = Ok p -> undefined p = false -> valued_to (i + 1) l j x v.
Proof.
  intros [Hj Hx Hlo Hhi Hl [C1 C2 C3]] Ep Eu.
  assert (Before : forall q, pos q terms + 1 < i + 1 -> q ∈ terms -> undefined q = true -> pos q terms + 1 < i).
  { intros q Hd Hq Eq. assert (Nq : q <> p) by congruence. pose proof (pos_before i p q Ep Hq Nq) as S.
    destruct (Z.ltb_spec (pos q terms + 1) (i + 1)), (Z.ltb_spec (pos q terms + 1) i); (done || lia). }
  constructor; [done|lia|done|done| |constructor; [|intros q r ? ? ? ? ? ?; apply C2; (done || by apply Before)|done]].
  - revert Hl. apply are_ext. intros q Hq. destruct (undefined q) eqn:Eq; [|done]. cbn [andb]. by rewrite (pos_before i p q Ep (undefined_term q Hq Eq)) by congruence.
  - intros q Hd Hq Eq Nq. apply C1; [by apply Before|done..].
Qed.

Lemma first_values l : are numbered_symbol n l -> exists l1, update l 0 (set_value 256) = Ok l1 /\ valued_to 2 l1 0 257 (fun _ => 256).
Proof.
  intros Hl. destruct (rd_terms _ _ first_term) as (Hin0 & Hr0 & Et0 & Ep0). assert (U0 : undefined 0 = true) by (unfold undefined; by rewrite Et0, Hundef).
  destruct (are_update _ _ _ 0 (set_value 256) Hl Hr0) as (l1 & E & H1). exists l1. split; [done|]. pose proof (zlen_nonneg D).
  assert (Only : forall p, pos p terms + 1 < 2 -> p ∈ terms -> p = 0) by (intros p Hp Hin; pose proof (pos_range p terms Hin); apply (pos_inj p 0 terms); (done || lia)).
  constructor; [lia|lia|lia|exact given_above| |constructor].
  - revert H1. apply are_ext. intros p Hpr. destruct (decide (p = 0)) as [->|Np]; [by rewrite U0, Ep0|]. destruct (undefined p) eqn:Eu; cbn [andb]; [|done].
    destruct (Z.ltb_spec (pos p terms + 1) 2) as [Hlt|]; [|done]. exfalso. apply Np, Only; [done|by apply undefined_term].
  - intros p Hp Hin _ Np. exfalso. by apply Np, Only.
  - intros p q Hp _ Hin _ _ _ Np. exfalso. by apply Np, Only.
  - done.
Qed.

Lemma value_tokens_ok l : are numbered_symbol n l -> exists l' v,
  value_tokens sorted_symbols ntok (D ++ rest) (zlen D) l = Ok l' /\ are (valued_symbol v) n l' /\ chosen D v (MAXSHORT + 1) (fun _ => True).
Proof.
  intros Hl. pose proof split_count. pose proof (zlen_nonneg vars). pose proof given_zlen. unfold value_tokens. rewrite (nth_token 1 0 first_term). cbn [rbind].
  destruct (rd_terms _ _ first_term) as (Hin0 & Hr0 & Et0 & Ep0). rewrite (proj2 Hl 0 Hr0). cbn [rbind]. rewrite undefined_numbered by done.
  assert (U0 : undefined 0 = true) by (unfold undefined; by rewrite Et0, Hundef). rewrite U0. destruct (first_values l Hl) as (l1 & -> & Hv1). cbn [rbind].
  match goal with |- context [for_loop _ _ ?body _] =>
    destruct (for_loop_inv (fun i '(l, j, x) => exists v, valued_to i l j x v) (Z.to_nat (ntok - 2)) 2 body (l1, 0, 257)) as ([[l' j] x] & -> & v & Hv) end.
  - by exists (fun _ => 256).
  - intros i [[l2 j] x] Hi (v & Hv). destruct (rd_in_range terms (i - 1)) as [p Ep]; [lia|]. rewrite (nth_token i p Ep). cbn [rbind].
    destruct (rd_terms _ _ Ep) as (Hin & Hpr & Et & Epos). pose proof (vt_are _ _ _ _ _ Hv) as Ha. rewrite (proj2 Ha p Hpr). cbn [rbind].
    rewrite Epos. destruct (Z.ltb_spec (i - 1 + 1) i); [lia|]. rewrite andb_false_r, undefined_numbered by done. destruct (undefined p) eqn:Eu; cycle 1.
    { eexists. split; [done|]. exists v. by apply (keep_value i l2 j x v p). }
    destruct (skip_given_ok D rest HD (S (Z.to_nat (zlen D))) j x (vt_j _ _ _ _ _ Hv) (vt_below _ _ _ _ _ Hv) (vt_above _ _ _ _ _ Hv)) as (j' & x' & -> & K1 & K2 & K3 & K4); [pose proof (vt_j _ _ _ _ _ Hv); lia|].
    cbn [rbind]. destruct (are_update _ _ _ p (set_value x') Ha Hpr) as (l3 & -> & H3). cbn [rbind]. eexists. split; [done|]. eexists.
    apply (choose_value i l2 j x v p l3 x' j' Hv Ep); [intros ->; lia|done|done|done|done|done|done].
  - exists l', v. cbn [rbind]. split; [done|]. destruct Hv as [Hj Hx _ _ Hl' [C1 C2 C3]].
    assert (Hend : forall p, p ∈ terms -> pos p terms + 1 < 2 + Z.of_nat (Z.to_nat (ntok - 2))).
    { intros p Hin. pose proof (pos_range p terms Hin). pose proof (pos_range 0 terms Hin0). lia. }
    split; [|constructor; [intros p _ Hin Eu Np|intros p q _ _ Hinp Hinq; apply C2; (done || by apply Hend)|done]].
    + revert Hl'. apply are_ext. intros p Hpr. unfold valued_symbol. destruct (undefined p) eqn:Eu; [|done]. cbn [andb]. pose proof (Hend p (undefined_term p Hpr Eu)).
      destruct (Z.ltb_spec (pos p terms + 1) (2 + Z.of_nat (Z.to_nat (ntok - 2)))); [done|lia].
    + destruct (C1 p (Hend p Hin) Hin Eu Np) as [? ?]. split; [lia|done].
Qed.

End Values.

(** ** The arrays *)

Definition sized (N : Z) (a : symbol_arrays) : Prop := zlen (symbol_name a) = N /\ zlen (symbol_value a) = N /\ zlen (symbol_prec_ a) = N /\
  zlen (symbol_assoc_ a) = N /\ zlen (symbol_tag a) = N /\ zlen (symbol_true_token a) = N.

Record columns (a : symbol_arrays) (k : Z) (b : symbol) : Prop := {
  co_name : rd (symbol_name a) k = Ok (s_name b);
  co_value : rd (symbol_value a) k = Ok (s_value b);
  co_prec : rd (symbol_prec_ a) k = Ok (s_prec b);
  co_assoc : rd (symbol_assoc_ a) k = Ok (s_assoc b) }.

Record marks (a : symbol_arrays) (i : Z) (b : symbol) : Prop := {
  ma_tag : rd (symbol_tag a) i = Ok (s_tag b);
  ma_true : rd (symbol_true_token a) i = Ok (s_true_token b) }.

Lemma put_symbol_ok N a k i b : sized N a -> 0 <= k < N -> 0 <= i < N -> exists a', put_symbol k i b a = Ok a' /\ sized N a' /\ columns a' k b /\ marks a' i b /\
  (forall m c, m <> k -> columns a m c -> columns a' m c) /\ (forall m c, m <> i -> marks a m c -> marks a' m c).
Proof.
  intros (Z1 & Z2 & Z3 & Z4 & Z5 & Z6) Hk Hi. unfold put_symbol. rewrite !wr_in_range by lia. cbn [rbind]. eexists. split; [done|].
  split; [unfold sized; cbn; rewrite !zlen_insert; tauto|]. split; [constructor; cbn; rewrite rd_insert_eq; (done || lia)|]. split; [constructor; cbn; rewrite rd_insert_eq; (done || lia)|]. split.
  - intros m c Nm [E1 E2 E3 E4]. apply rd_range in E1 as Hm. constructor; cbn; rewrite rd_insert_ne; (done || lia).
  - intros m c Nm [E1 E2]. apply rd_range in E1 as Hm. constructor; cbn; rewrite rd_insert_ne; (done || lia).
Qed.

Section Fill.
Context (v : Z -> Z) (l : list symbol) (Hl : are (valued_symbol v) n l).

Lemma valued_index p : 0 <= p < n -> s_index (valued_symbol v p) = number p.
Proof.
  intros Hp. assert (E : s_index (valued_symbol v p) = s16 (number p)) by (unfold valued_symbol, numbered_symbol; by destruct (undefined p), (is_term (at_ p))).
  rewrite E. apply s16_short. pose proof split_count. pose proof (zlen_nonneg terms). pose proof (zlen_nonneg vars).
  destruct (token_or_variable p Hp) as [H'|H']; [destruct (number_token p H')|destruct (number_variable p H')]; lia.
Qed.

(** the tokens before the place [i] are in the arrays, or all the tokens and the variables before it *)
Definition filled (T V : Z) (a : symbol_arrays) : Prop := sized (n + 2) a /\ columns a 0 end_symbol /\ marks a 0 end_symbol /\
  (forall p, p ∈ terms -> number p < T -> columns a (number p) (valued_symbol v p) /\ marks a (number p) (valued_symbol v p)) /\
  (forall p, p ∈ vars -> pos p vars < V -> columns a (number p) (valued_symbol v p)).

Lemma fill_tokens_ok a : filled 1 0 a -> exists a', for_loop (Z.to_nat (ntok - 1)) 1
  (fun i a => let* p := nth_symbol sorted_symbols i in let* b := rd l p in put_symbol i i b a) a = Ok a' /\ filled ntok 0 a'.
Proof.
  intros Ha. pose proof split_count. pose proof (zlen_nonneg vars). pose proof (zlen_nonneg terms).
  match goal with |- context [for_loop _ _ ?body _] => destruct (for_loop_inv (fun i a => filled i 0 a) (Z.to_nat (ntok - 1)) 1 body a) as (a' & E & H') end; [done| |].
  - intros i a1 Hi (S1 & C0 & M0 & HT & HV). destruct (rd_in_range terms (i - 1)) as [p Ep]; [lia|]. rewrite (nth_token i p Ep). cbn [rbind].
    destruct (rd_terms _ _ Ep) as (Hin & Hpr & _ & Epos). rewrite (proj2 Hl p Hpr). cbn [rbind]. assert (En : number p = i) by (destruct (number_token p Hin); lia).
    destruct (put_symbol_ok (n + 2) a1 i i (valued_symbol v p) S1) as (a2 & -> & S2 & C2 & M2 & Fc & Fm); [lia|lia|]. exists a2. split; [done|].
    split; [done|]. split; [apply Fc; [lia|done]|]. split; [apply Fm; [lia|done]|]. split.
    + intros q Hq Hlt. destruct (decide (number q = i)) as [Eq|Nq].
      * assert (q = p) as -> by (apply number_inj; [by apply elem_of_terms|done|lia]). by rewrite En.
      * destruct (HT q Hq); [lia|]. split; [by apply Fc|by apply Fm].
    + intros q Hq Hlt. pose proof (pos_range q vars Hq). lia.
  - exists a'. split; [done|]. by replace (1 + Z.of_nat (Z.to_nat (ntok - 1))) with ntok in H' by lia.
Qed.

Lemma fill_variables_ok a : filled ntok 0 a -> columns a ntok accept_symbol -> exists a', for_loop (Z.to_nat (n + 2 - ntok - 1)) (ntok + 1)
  (fun i a => let* p := nth_symbol sorted_symbols i in let* b := rd l p in put_symbol (s_index b) i b a) a = Ok a' /\ filled ntok (zlen vars) a' /\ columns a' ntok accept_symbol.
Proof.
  intros Ha Hacc. pose proof split_count. pose proof (zlen_nonneg vars). pose proof (zlen_nonneg terms).
  match goal with |- context [for_loop _ _ ?body _] => destruct (for_loop_inv (fun i a => filled ntok (i - (ntok + 1)) a /\ columns a ntok accept_symbol) (Z.to_nat (n + 2 - ntok - 1)) (ntok + 1) body a) as (a' & E & H') end.
  - by rewrite Z.sub_diag.
  - intros i a1 Hi [(S1 & C0 & M0 & HT & HV) CA]. destruct (rd_in_range vars (i - (ntok + 1))) as [p Ep]; [lia|]. rewrite (nth_variable i p Ep). cbn [rbind].
    destruct (rd_vars _ _ Ep) as (Hin & Hpr & _ & Epos). rewrite (proj2 Hl p Hpr). cbn [rbind]. rewrite valued_index by done. destruct (number_variable p Hin) as [Hn _].
    destruct (put_symbol_ok (n + 2) a1 (number p) i (valued_symbol v p) S1) as (a2 & -> & S2 & C2 & _ & Fc & Fm); [lia|lia|]. exists a2. split; [done|]. split; [|apply Fc; [lia|done]].
    split; [done|]. split; [apply Fc; [lia|done]|]. split; [apply Fm; [lia|done]|]. split.
    + intros q Hq Hlt. destruct (HT q Hq Hlt). split; [apply Fc; [lia|done]|apply Fm; [lia|done]].
    + intros q Hq Hlt. destruct (decide (q = p)) as [->|Nq]; [done|]. apply Fc.
      * intros Eq. apply Nq, number_inj; [by apply elem_of_vars|done|done].
      * apply HV; [done|]. destruct (decide (pos q vars = pos p vars)) as [Eq|]; [|lia]. exfalso. by apply Nq, (pos_inj q p vars).
  - exists a'. split; [done|]. by replace (ntok + 1 + Z.of_nat (Z.to_nat (n + 2 - ntok - 1)) - (ntok + 1)) with (zlen vars) in H' by lia.
Qed.

Lemma fill_symbols_ok a : sized (n + 2) a -> exists a', fill_symbols sorted_symbols (n + 2) ntok l a = Ok a' /\ filled ntok (zlen vars) a' /\ columns a' ntok accept_symbol.
Proof.
  intros Hs. pose proof split_count. pose proof (zlen_nonneg vars). pose proof (zlen_nonneg terms). unfold fill_symbols.
  destruct (put_symbol_ok (n + 2) a 0 0 end_symbol Hs) as (a1 & -> & S1 & C1 & M1 & _); [lia|lia|]. cbn [rbind].
  destruct (fill_tokens_ok a1) as (a2 & -> & S2 & C2 & M2 & HT & HV).
  { split; [done|]. split; [done|]. split; [done|]. split; intros p Hp Hlt; [destruct (number_token p Hp)|pose proof (pos_range p vars Hp)]; lia. }
  cbn [rbind]. destruct (put_symbol_ok (n + 2) a2 ntok ntok accept_symbol S2) as (a3 & -> & S3 & C3 & _ & Fc & Fm); [lia|lia|]. cbn [rbind]. apply fill_variables_ok; [|done].
  split; [done|]. split; [apply Fc; [lia|done]|]. split; [apply Fm; [lia|done]|]. split.
  - intros p Hp Hlt. destruct (HT p Hp Hlt). split; [apply Fc; [lia|done]|apply Fm; [lia|done]].
  - intros p Hp Hlt. pose proof (pos_range p vars Hp). lia.
Qed.

End Fill.

Lemma pack_symbols_ok : exists l a v, pack_symbols junk z goal syms = Ok (l, n + 2, ntok, a) /\ are (valued_symbol v) n l /\
  filled v ntok (zlen vars) a /\ columns a ntok accept_symbol /\ exists D, D ≡ₚ given terms /\ chosen D v (MAXSHORT + 1) (fun _ => True).
Proof.
  pose proof (zlen_nonneg syms). unfold pack_symbols. rewrite symbols_counted, place_symbols_ok. cbn [rbind]. destruct number_symbols_ok as (l1 & -> & H1). cbn [rbind].
  destruct (given_values_ok l1 (replicate (Z.to_nat (n + 2)) z) H1) as (D & rest & -> & Zsv & HD & HP); [rewrite zlen_replicate; lia|]. cbn [rbind].
  destruct (value_tokens_ok D rest HD HP l1 H1) as (l2 & v & -> & H2 & Hc). cbn [rbind].
  destruct (fill_symbols_ok v l2 H2 (SymbolArrays (replicate (Z.to_nat (n + 2)) []) (D ++ rest) (replicate (Z.to_nat (n + 2)) z) (replicate (Z.to_nat (n + 2)) z)
    (replicate (Z.to_nat (n + 2)) None) (replicate (Z.to_nat (n + 2)) false))) as (a & -> & Hf & Ha).
  { unfold sized. cbn. rewrite !zlen_replicate. split_and!; (lia || done). }
  cbn [rbind]. exists l2, a, v. split; [done|]. split; [done|]. split; [done|]. split; [done|]. by exists D.
Qed.

(** ** What the numbers and the values are *)

Lemma valued_term v p : p ∈ terms -> chosen (given terms) v (MAXSHORT + 1) (fun _ => True) ->
  s_value (valued_symbol v p) = (if undefined p then v p else s_value (at_ p)).
Proof.
  intros Hin [C1 _ C3]. assert (Et : is_term (at_ p) = true) by (by apply elem_of_terms in Hin as [_ ?]). unfold valued_symbol, numbered_symbol. rewrite Et.
  destruct (undefined p) eqn:Eu; [|done]. cbn. apply s16_short. destruct (decide (p = 0)) as [->|Np]; [rewrite C3; unfold MAXSHORT; lia|]. destruct (C1 p I Hin Eu Np). lia.
Qed.

Lemma valued_variable v p : p ∈ vars -> s_value (valued_symbol v p) = pos p order.
Proof.
  intros Hin. assert (Et : is_term (at_ p) = false) by (by apply elem_of_vars in Hin as [_ ?]). unfold valued_symbol, undefined, numbered_symbol. rewrite Et. cbn [andb s_value set_value set_index]. apply s16_short.
  pose proof (pos_range p order (proj2 (elem_of_order p) Hin)). rewrite order_zlen in *. pose proof split_count. pose proof (zlen_nonneg terms). lia.
Qed.

Lemma numbered_token t : 1 <= t < ntok -> exists p, p ∈ terms /\ number p = t.
Proof.
  intros Ht. destruct (rd_in_range terms (t - 1)) as [p Ep]; [lia|]. destruct (rd_terms _ _ Ep) as (Hin & _ & _ & Epos). exists p. split; [done|]. destruct (number_token p Hin). lia.
Qed.

Lemma numbered_variable u : 0 < u < n + 2 - ntok -> exists p, p ∈ vars /\ number p = ntok + u /\ pos p order = u - 1.
Proof.
  intros Hu. pose proof split_count. destruct (rd_in_range order (u - 1)) as [p Ep]; [rewrite order_zlen; lia|]. pose proof (pos_rd _ _ _ NoDup_order Ep) as Epos.
  apply rd_Ok in Ep as [_ Ep]. apply list_elem_of_lookup_2 in Ep. rewrite elem_of_order in Ep. exists p. split; [done|]. destruct (number_variable p Ep). split; lia.
Qed.

Lemma rd_value sv i x : rd sv i = Ok x -> zget sv i = x.
Proof. intros E. pose proof (rd_range _ _ _ E) as Hr. rewrite rd_zget in E by done. by injection E. Qed.

Section Result.
Context (g : grammar) (Gs : start_symbol g = ntok) (Gn : nsyms g = n + 2).
Context (v : Z -> Z) (a : symbol_arrays) (Hf : filled v ntok (zlen vars) a) (Ha : columns a ntok accept_symbol).
Context (Hc : chosen (given terms) v (MAXSHORT + 1) (fun _ => True)).

Lemma columns_of p : 0 <= p < n -> columns a (number p) (valued_symbol v p).
Proof.
  intros Hp. destruct Hf as (_ & _ & _ & HT & HV). destruct (token_or_variable p Hp) as [H|H].
  - apply HT; [done|]. by apply number_token.
  - apply HV; [done|]. by apply pos_range.
Qed.

Lemma token_value p : p ∈ terms -> zget (symbol_value a) (number p) = if undefined p then v p else s_value (at_ p).
Proof. intros Hin. rewrite <- (valued_term v p Hin Hc). apply rd_value, columns_of. by apply elem_of_terms in Hin as [? _]. Qed.

Lemma token_value_range p : p ∈ terms -> 0 <= zget (symbol_value a) (number p) <= MAXSHORT /\ (zget (symbol_value a) (number p) = 256 -> p = 0).
Proof.
  intros Hin. rewrite token_value by done. destruct Hc as [C1 _ C3]. apply elem_of_terms in Hin as H. destruct H as [Hp Et]. destruct (decide (p = 0)) as [->|Np].
  - unfold undefined. rewrite Et, Hundef, C3. split; [unfold MAXSHORT; cbn; lia|done].
  - destruct (undefined p) eqn:Eu; [destruct (C1 p I Hin Eu Np); split; lia|]. destruct (Hvalues p ltac:(lia) Et) as [E|[? ?]]; [|split; [lia|done]].
    unfold undefined in Eu. rewrite Et, E in Eu. done.
Qed.

Lemma values_packed : values_ok g (symbol_value a).
Proof.
  pose proof split_count. pose proof (zlen_nonneg terms). pose proof (zlen_nonneg vars). destruct Hf as ((_ & Z2 & _) & [_ E0 _ _] & _ & _ & _). destruct Ha as [_ EA _ _].
  assert (Hone : 1 <= zlen terms) by (pose proof (rd_range _ _ _ first_term); lia). destruct (rd_terms _ _ first_term) as (Hin0 & _).
  constructor; rewrite ?Gs, ?Gn; unfold nvars, ntokens; rewrite ?Gs, ?Gn.
  - lia.
  - intros t Ht. destruct (decide (t = 0)) as [->|]; [rewrite (rd_value _ _ _ E0); cbn; unfold MAXSHORT; lia|].
    destruct (numbered_token t) as (p & Hin & <-); [lia|]. by apply token_value_range.
  - split; [lia|]. split; [by rewrite (rd_value _ _ _ E0)|]. rewrite <- number_error, token_value by done. destruct Hc as [_ _ C3]. unfold undefined. by rewrite Herror, Hundef.
  - intros t Ht E. destruct (decide (t = 0)) as [->|]; [rewrite (rd_value _ _ _ E0) in E; done|]. destruct (numbered_token t) as (p & Hin & <-); [lia|].
    destruct (token_value_range p Hin) as [_ H256]. rewrite (H256 E). exact number_error.
  - by rewrite (rd_value _ _ _ EA).
  - intros u Hu. destruct (numbered_variable u Hu) as (p & Hin & En & Ep). rewrite <- En, <- Ep, <- (valued_variable v p Hin).
    apply rd_value, columns_of. by apply elem_of_vars in Hin as [? _].
Qed.

(** a token without a value gets one of its own *)
Lemma token_value_new p q : p ∈ terms -> q ∈ terms -> p <> q -> undefined p = true -> zget (symbol_value a) (number p) <> zget (symbol_value a) (number q).
Proof.
  intros Hp Hq Ne Eu. rewrite !token_value by done. rewrite Eu. destruct Hc as [C1 C2 C3]. destruct (undefined q) eqn:Eq.
  - destruct (decide (p = 0)) as [->|Np], (decide (q = 0)) as [->|Nq]; [done| | |].
    + rewrite C3. destruct (C1 q I Hq Eq Nq). lia.
    + rewrite C3. destruct (C1 p I Hp Eu Np). lia.
    + intros E. apply Ne. by apply C2.
  - apply elem_of_terms in Hq as Hq'. destruct Hq' as [Hr Et]. assert (Nq : q <> 0) by (intros ->; unfold undefined in Eq; by rewrite Et, Hundef in Eq).
    destruct (Hvalues q ltac:(lia) Et) as [E|[? ?]]; [unfold undefined in Eq; by rewrite Et, E in Eq|]. destruct (decide (p = 0)) as [->|Np]; [rewrite C3; lia|].
    destruct (C1 p I Hp Eu Np) as [Hv Hd]. intros E. apply Hd, list_elem_of_filter. split; [lia|]. rewrite E. apply list_elem_of_fmap. by exists q.
Qed.

End Result.

Lemma chosen_perm D D' v b P : D ≡ₚ D' -> chosen D v b P -> chosen D' v b P.
Proof. intros Hp [C1 C2 C3]. constructor; [|done|done]. intros p H1 H2 H3 H4. destruct (C1 p H1 H2 H3 H4) as [? Hd]. split; [done|]. by rewrite <- Hp. Qed.

End Symbols.

(** ** The result of the reader *)

(** each symbol has a number of its own, [error] has 1, the goal is the first variable after the
    start symbol; the arrays hold what the symbols hold; a token keeps the value that it is
    given, and a token that has none gets one that no other token has *)
Record numbered (syms : list symbol) (goal : Z) (g : grammar) (a : symbol_arrays) (number : Z -> Z) : Prop := {
  nb_symbols : nsyms g = zlen syms + 2;
  nb_range : forall p b, rd syms p = Ok b -> if is_term b then 0 < number p < ntokens g else ntokens g < number p < nsyms g;
  nb_inj : forall p q, 0 <= p < zlen syms -> 0 <= q < zlen syms -> number p = number q -> p = q;
  nb_special : number 0 = 1 /\ number goal = start_symbol g + 1;
  nb_arrays : forall p b, rd syms p = Ok b -> rd (symbol_name a) (number p) = Ok (s_name b) /\ rd (symbol_prec_ a) (number p) = Ok (s_prec b) /\
    rd (symbol_assoc_ a) (number p) = Ok (s_assoc b);
  nb_tokens : forall p b, rd syms p = Ok b -> is_term b = true -> rd (symbol_tag a) (number p) = Ok (s_tag b) /\ rd (symbol_true_token a) (number p) = Ok (s_true_token b);
  nb_given : forall p b, rd syms p = Ok b -> is_term b = true -> s_value b <> UNDEFINED -> rd (symbol_value a) (number p) = Ok (s_value b);
  nb_new : forall p q b c, rd syms p = Ok b -> rd syms q = Ok c -> is_term b = true -> is_term c = true -> s_value b = UNDEFINED -> p <> q ->
    rd (symbol_value a) (number p) <> rd (symbol_value a) (number q) }.

(** there are entry points, they have types without variables, and each symbol is defined *)
Definition acceptable (syms : list symbol) : Prop :=
  entries syms <> [] /\ (forall p, p ∈ entries syms -> entry_typed (symbol_at syms p)) /\ forall b, b ∈ syms -> s_class b <> UNKNOWN.

Definition acceptable_b (syms : list symbol) : bool :=
  forallb (fun p => entry_typed_b (symbol_at syms p)) (entries syms) && (0 <? zlen (entries syms)) && forallb (fun b => negb (bool_decide (s_class b = UNKNOWN))) syms.

Lemma acceptable_ok syms : acceptable_b syms = true <-> acceptable syms.
Proof.
  unfold acceptable_b, acceptable. rewrite !andb_true_iff, !forallb_forall, Z.ltb_lt. setoid_rewrite <- list_elem_of_In. setoid_rewrite entry_typed_ok.
  setoid_rewrite negb_true_iff. setoid_rewrite bool_decide_eq_false. assert (H : 0 < zlen (entries syms) <-> entries syms <> []).
  { destruct (entries syms) as [|p l]; [by split|]. rewrite zlen_cons. pose proof (zlen_nonneg l). split; [done|lia]. }
  rewrite H. tauto.
Qed.

(** the rules of the packed grammar: the one of the start symbol, those read, those of the goal *)
Definition rules_read (g : grammar) (goal : Z) (number : Z -> Z) (rules : list pointed_rule) : list production :=
  (start_symbol g, [number goal; 0]) :: map (fun r => (number r.1, map number r.2)) rules.

Section Finish.
Context (junk : option Z) (z : Z) (st : reader) (rs : list pointed_rule) (R : reads_grammar st rs).

#[local] Abbreviation syms0 := (all (table st)).
#[local] Abbreviation n0 := (zlen syms0).
#[local] Abbreviation es := (entries syms0).
#[local] Abbreviation syms := (with_goal syms0 es).
#[local] Abbreviation rules := (rs ++ entry_rules_of syms0 es).
#[local] Abbreviation number := (number_of syms n0).

Lemma at_read p : 0 <= p < n0 -> symbol_at syms p = symbol_at syms0 p.
Proof. intros Hp. apply symbol_at_rd. by apply with_goal_read. Qed.

Lemma at_goal_symbol : symbol_at syms n0 = goal_symbol es.
Proof. apply symbol_at_rd. unfold with_goal. apply rd_mid. Qed.

Lemma elem_of_entries p : p ∈ es <-> 0 <= p < n0 /\ s_entry (symbol_at syms0 p) <> 0.
Proof. unfold entries. rewrite list_elem_of_filter, elem_of_seqZ. split; intros [? ?]; split; (done || lia). Qed.

Lemma at_entry k p : rd es k = Ok p -> symbol_at syms (n0 + 1 + k) = entry_token (symbol_at syms0 p).
Proof.
  intros E. pose proof (rd_range _ _ _ E) as Hk. apply symbol_at_rd. unfold with_goal. rewrite rd_app_r by lia. rewrite rd_cons by lia.
  replace (n0 + 1 + k - n0 - 1) with k by lia. apply rd_map. by exists p.
Qed.

Lemma zlen_syms : zlen syms = n0 + 1 + zlen es.
Proof. apply with_goal_zlen. Qed.

Lemma error_read : 0 < n0 /\ is_term (symbol_at syms0 0) = true /\ s_value (symbol_at syms0 0) = UNDEFINED.
Proof. destruct (rg_error _ _ R) as (b & E & Et & Eu). apply rd_range in E as Hr. apply symbol_at_rd in E. rewrite E. split; [lia|done]. Qed.

(** the symbols before their values are chosen *)
Lemma packable : let n := zlen syms in 0 <= n0 < n /\ is_term (symbol_at syms n0) = false /\ is_term (symbol_at syms 0) = true /\ s_value (symbol_at syms 0) = UNDEFINED /\
  (forall p, 0 < p < n -> is_term (symbol_at syms p) = true -> s_value (symbol_at syms p) = UNDEFINED \/ (0 <= s_value (symbol_at syms p) <= MAXSHORT /\ s_value (symbol_at syms p) <> 256)) /\
  2 * n + 260 <= MAXSHORT.
Proof.
  cbv zeta. rewrite zlen_syms. destruct error_read as (H0 & Et & Eu). pose proof (zlen_nonneg es). pose proof (rg_symbols _ _ R). rewrite at_goal_symbol, at_read by lia.
  split; [lia|]. split; [by destruct es|]. split; [done|]. split; [done|]. split; [|lia]. intros p Hp. destruct (Z.lt_trichotomy p n0) as [Hl|[->|Hl]].
  - rewrite at_read by lia. apply (rg_values _ _ R p); [lia|]. apply rd_symbol_at. lia.
  - rewrite at_goal_symbol. by destruct es.
  - intros _. right. destruct (rd_in_range es (p - (n0 + 1))) as [q Eq]; [lia|]. replace p with (n0 + 1 + (p - (n0 + 1))) by lia. rewrite (at_entry _ q Eq).
    apply rd_Ok in Eq as [_ Eq]. apply list_elem_of_lookup_2, elem_of_entries in Eq as [Hq _]. pose proof (rg_entry _ _ R q _ (rd_symbol_at syms0 q Hq)). unfold MAX_ENTRY_POINT in *.
    cbn [entry_token set_value s_value]. rewrite s16_short; unfold MAXSHORT; lia.
Qed.

(** the elements of the rules are symbols; the left-hand sides are variables, and the goal is
    only a left-hand side *)
Lemma rules_symbols : Forall (fun r : pointed_rule => (0 <= r.1 < zlen syms /\ is_term (symbol_at syms r.1) = false) /\ Forall (fun p => 0 <= p < zlen syms /\ p <> n0) r.2) rules.
Proof.
  rewrite zlen_syms. pose proof (zlen_nonneg es) as He. apply Forall_app. split.
  - eapply Forall_impl; [exact (rg_rules _ _ R)|]. intros r [(b & E & Ec) Hr]. pose proof (rd_range _ _ _ E). split.
    + split; [lia|]. rewrite at_read by lia. rewrite (symbol_at_rd _ _ _ E). unfold is_term. by rewrite Ec.
    + eapply Forall_impl; [exact Hr|]. intros p Hp. cbn in Hp. lia.
  - apply Forall_forall. intros r (k & E)%list_elem_of_lookup. unfold entry_rules_of in E. rewrite list_lookup_imap in E. destruct (es !! k) as [p|] eqn:Ek; [|done].
    cbn in E. injection E as <-. cbn [fst snd]. pose proof (lookup_lt_Some _ _ _ Ek) as Hk. apply list_elem_of_lookup_2, elem_of_entries in Ek as [Hp _]. pose proof (zlen_nonneg syms0).
    split; [rewrite at_goal_symbol; split; [lia|by destruct es]|]. unfold zlen in *. repeat constructor; lia.
Qed.

Lemma entry_rule_at r : r ∈ entry_rules_of syms0 es -> exists k p, rd es k = Ok p /\ r = (n0, [n0 + 1 + k; p]).
Proof.
  intros (k & E)%list_elem_of_lookup. unfold entry_rules_of in E. rewrite list_lookup_imap in E. destruct (es !! k) as [p|] eqn:Ek; [|done]. cbn in E. injection E as <-.
  exists (Z.of_nat k), p. split; [apply rd_Ok; rewrite Nat2Z.id; split; [lia|done]|done].
Qed.

(** the rules of the packed grammar, by their numbers *)
Lemma rule_read g r A w : rule (rules_read g n0 number rules) r (A, w) ->
  (r = 2 /\ A = start_symbol g /\ w = [number n0; 0]) \/ exists x, x ∈ rules /\ A = number x.1 /\ w = map number x.2.
Proof.
  intros [Hr E]. unfold rules_read in E. destruct (Z.to_nat (r - 2)) as [|k] eqn:Ek; [left; cbn in E; injection E as <- <-; split; [lia|done]|right].
  cbn in E. change (map (fun r => (number r.1, map number r.2)) rules) with ((fun r => (number r.1, map number r.2)) <$> rules) in E.
  apply list_lookup_fmap_Some in E as (x & [= -> ->] & Ex). exists x. split; [by apply list_elem_of_lookup_2 in Ex|done].
Qed.

Section Packed.
Context (g : grammar) (Gs : start_symbol g = 1 + zlen (tokens_of syms)) (Gn : nsyms g = zlen syms + 2).

Lemma number_bounds p : 0 <= p < zlen syms -> if is_term (symbol_at syms p) then 0 < number p < start_symbol g else start_symbol g < number p < nsyms g.
Proof.
  intros Hp. destruct packable as (Hg & Hv & _). rewrite Gs, Gn. destruct (is_term (symbol_at syms p)) eqn:Et.
  - destruct (number_token syms n0 p) as [? _]; [by apply elem_of_terms|lia].
  - destruct (number_variable syms n0 Hg Hv p) as [? _]; [by apply elem_of_vars|lia].
Qed.

Lemma number_apart p : 0 <= p < zlen syms -> 0 < number p < nsyms g /\ number p <> start_symbol g.
Proof.
  intros Hp. pose proof (number_bounds p Hp) as Hb. pose proof (zlen_nonneg (tokens_of syms)). destruct (is_term _); [|lia].
  destruct packable as (Hg & Hv & _). pose proof (split_count syms n0 Hg). pose proof (zlen_nonneg (variables_of syms)). lia.
Qed.

Lemma goal_number : number n0 = start_symbol g + 1.
Proof. destruct packable as (Hg & Hv & _). rewrite Gs. rewrite (number_goal syms n0 Hg Hv). lia. Qed.

Lemma packed_augmented : augmented g (rules_read g n0 number rules).
Proof.
  pose proof rules_symbols as Hr. rewrite Forall_forall in Hr. constructor.
  - intros r A w [(_ & -> & _)|(x & Hx & -> & ->)]%rule_read; [by left|right]. destruct (Hr x Hx) as [_ Hw]. apply Forall_map. eapply Forall_impl; [exact Hw|].
    intros p [Hp _]. destruct (number_apart p Hp). lia.
  - split; [lia|]. unfold rules_read. by rewrite goal_number, Gs.
  - intros r A w [(_ & _ & ->)|(x & Hx & _ & ->)]%rule_read.
    + rewrite goal_number, Gs, !elem_of_cons, elem_of_nil. pose proof (zlen_nonneg (tokens_of syms)). lia.
    + intros (p & E & Hp)%list_elem_of_fmap. destruct (Hr x Hx) as [_ Hw]. rewrite Forall_forall in Hw. destruct (Hw p Hp) as [Hp' _]. by destruct (number_apart p Hp').
Qed.

Lemma packed_entries : entry_rules g (rules_read g n0 number rules) (number n0).
Proof.
  pose proof rules_symbols as Hr. rewrite Forall_forall in Hr. destruct packable as (Hg & Hv & Herr & _). constructor.
  - split; [|rewrite goal_number; lia]. split; [lia|]. done.
  - intros r w [(-> & _)|(x & Hx & E & _)]%rule_read; [done|]. destruct (Hr x Hx) as [[Hp _] _]. destruct (number_apart _ Hp). congruence.
  - intros r A w [(-> & _)|(x & Hx & _ & ->)]%rule_read Hin; [done|]. apply list_elem_of_fmap in Hin as (p & E & Hp). destruct (Hr x Hx) as [_ Hw]. rewrite Forall_forall in Hw.
    destruct (Hw p Hp) as [Hp' Np]. exfalso. apply Np. by apply (number_inj syms n0 Hg Hv).
  - intros r w [(_ & E & _)|(x & Hx & E & ->)]%rule_read; [rewrite goal_number in E; lia|]. destruct (Hr x Hx) as [[Hp _] _].
    apply (number_inj syms n0 Hg Hv) in E; [|done|done]. apply elem_of_app in Hx as [Hx|Hx].
    { pose proof (rg_rules _ _ R) as H. rewrite Forall_forall in H. destruct (H x Hx) as [(b & Eb & _) _]. apply rd_range in Eb. lia. }
    destruct (entry_rule_at x Hx) as (k & p & Ek & ->). cbn [snd map]. eexists _, _. split; [done|]. pose proof (rd_range _ _ _ Ek) as Hk.
    assert (Hq : 0 <= n0 + 1 + k < zlen syms) by (rewrite zlen_syms; lia). pose proof (number_bounds _ Hq) as Hb. rewrite (at_entry k p Ek) in Hb.
    change (is_term (entry_token (symbol_at syms0 p))) with true in Hb. cbn iota in Hb.
    assert (Ne : number (n0 + 1 + k) <> number 0) by (intros E'; apply (number_inj syms n0 Hg Hv) in E'; lia). pose proof (number_error syms n0 Hg Herr) as E1. unfold ntokens. lia.
Qed.

End Packed.

(** the arrays of the rules, as the packing reads them *)
Lemma follow_ok F l p : are F (zlen syms) l -> 0 <= p < zlen syms -> follow l (Some p) = Some (bucket_of (F p)).
Proof. intros [_ Hl] Hp. pose proof (Hl p Hp) as [_ E]%rd_Ok. unfold follow. by rewrite E. Qed.

Lemma follow_map F l ps : are F (zlen syms) l -> Forall (fun p => 0 <= p < zlen syms) ps -> map (follow l) (map Some ps) = map Some (map (fun p => bucket_of (F p)) ps).
Proof. intros Hl Hp. rewrite !map_map. apply map_ext_in. intros p Hin%list_elem_of_In. rewrite Forall_forall in Hp. by apply follow_ok; [|apply Hp]. Qed.

Definition packed_rule (F : Z -> symbol) (r : pointed_rule) : bucket * list bucket := (bucket_of (F r.1), map (fun p => bucket_of (F p)) r.2).

Lemma follow_items F l : are F (zlen syms) l -> map (follow l) (rules_items rules) = read_rules_items (map (packed_rule F) rules).
Proof.
  intros Hl. pose proof rules_symbols as Hr. unfold rules_items, read_rules_items. rewrite map_app. f_equal. revert Hr. generalize rules as xs. induction xs as [|r xs IH]; [done|].
  intros [[_ Hw] Hr]%Forall_cons. cbn [map concat]. rewrite !map_app, IH by done. cbn [map]. f_equal. f_equal. apply follow_map; [done|]. eapply Forall_impl; [exact Hw|]. by intros p [? _].
Qed.

Lemma follow_lhs F l : are F (zlen syms) l -> map (follow l) (rules_lhs rules) = read_rules_lhs (map (packed_rule F) rules).
Proof.
  intros Hl. pose proof rules_symbols as Hr. unfold rules_lhs, read_rules_lhs. rewrite map_app. f_equal. rewrite !map_map. apply map_ext_in. intros r Hin%list_elem_of_In.
  rewrite Forall_forall in Hr. destruct (Hr r Hin) as [[? _] _]. by rewrite (follow_ok F).
Qed.

Lemma packed_productions F g : (forall p, 0 <= p < zlen syms -> s_index (F p) = number p) ->
  productions_of (bucket_of (F n0)) (start_symbol g) (map (packed_rule F) rules) = rules_read g n0 number rules.
Proof.
  intros Hi. destruct packable as (Hg & _). unfold productions_of, rules_read. cbn [index bucket_of]. rewrite Hi by done. f_equal. rewrite map_map. apply map_ext_in.
  intros r Hin%list_elem_of_In. pose proof rules_symbols as Hr. rewrite Forall_forall in Hr. destruct (Hr r Hin) as [[Hp _] Hw]. unfold packed_rule. cbn [fst snd index bucket_of].
  rewrite Hi by done. f_equal. rewrite map_map. apply map_ext_in. intros p Hip%list_elem_of_In. rewrite Forall_forall in Hw. destruct (Hw p Hip). cbn. by apply Hi.
Qed.

Lemma rules_zlen : zlen (rules_items rules) = zlen (rules_items rs) + 3 * zlen es /\ zlen (rules_lhs rules) <= zlen (rules_items rules).
Proof.
  assert (H1 : forall xs ys, zlen (rules_items (xs ++ ys)) = zlen (rules_items xs) + sumZ (map (fun r : pointed_rule => zlen r.2 + 1) ys)).
  { intros xs ys. revert xs. induction ys as [|r ys IH]; intros xs; [rewrite app_nil_r; cbn; lia|]. rewrite (app_assoc xs [r] ys : xs ++ r :: ys = (xs ++ [r]) ++ ys), IH, rules_items_snoc.
    rewrite !zlen_app, zlen_map. cbn [map sumZ]. change (zlen [None]) with 1. lia. }
  split.
  - rewrite H1. f_equal. unfold entry_rules_of. generalize es as l. intros l. change (imap (fun k p => (n0, [n0 + 1 + Z.of_nat k; p])) l) with (imap (fun k p => (n0, [n0 + 1 + Z.of_nat (0 + k); p])) l).
    generalize 0%nat as k0. induction l as [|p l IH]; intros k0; [done|]. cbn [imap map sumZ snd]. rewrite (zlen_cons p l), Z.mul_add_distr_l. change (zlen [n0 + 1 + Z.of_nat (k0 + 0); p]) with 2.
    rewrite <- (IH (S k0)). f_equal. f_equal. f_equal. apply imap_ext. intros i x _. cbn. do 4 f_equal. lia.
  - unfold rules_items, rules_lhs. rewrite !zlen_app, !zlen_replicate, zlen_map. assert (H : forall xs : list pointed_rule, zlen xs <= zlen (concat (map (fun r => map Some r.2 ++ [None]) xs))); [|pose proof (H rules); lia].
    induction xs as [|r xs IH]; [done|]. cbn [map concat]. rewrite zlen_cons, !zlen_app, zlen_map. change (zlen [None]) with 1. pose proof (zlen_nonneg r.2). lia.
Qed.

Section Numbered.
Context (g : grammar) (Gs : start_symbol g = 1 + zlen (tokens_of syms)) (Gn : nsyms g = zlen syms + 2).
Context (v : Z -> Z) (a : symbol_arrays) (Hf : filled syms n0 v (1 + zlen (tokens_of syms)) (zlen (variables_of syms)) a).
Context (Hc : chosen syms (given syms (tokens_of syms)) v (MAXSHORT + 1) (fun _ => True)).

Lemma packed_numbered : numbered syms n0 g a number.
Proof.
  destruct packable as (Hg & Hv & Herr & Hun & Hvals & Hsz).
  assert (Eb : forall p b, rd syms p = Ok b -> 0 <= p < zlen syms /\ symbol_at syms p = b) by (intros p b E; split; [by apply rd_range in E|by apply symbol_at_rd]).
  assert (Tok : forall p, 0 <= p < zlen syms -> is_term (symbol_at syms p) = true -> p ∈ tokens_of syms) by (intros p Hp Et; by apply elem_of_terms).
  assert (Val : forall p, p ∈ tokens_of syms -> rd (symbol_value a) (number p) = Ok (zget (symbol_value a) (number p))).
  { intros p Hp%elem_of_terms. destruct Hp as [Hp _]. apply rd_zget. destruct Hf as ((_ & -> & _) & _). pose proof (number_apart g Gs Gn p Hp). lia. }
  constructor.
  - done.
  - intros p b [Hp <-]%Eb. exact (number_bounds g Gs Gn p Hp).
  - exact (number_inj syms n0 Hg Hv).
  - split; [exact (number_error syms n0 Hg Herr)|exact (goal_number g Gs)].
  - intros p b [Hp <-]%Eb. destruct (columns_of syms n0 v a Hf p Hp) as [E1 _ E3 E4]. rewrite E1, E3, E4. unfold valued_symbol, numbered_symbol. destruct (undefined syms p), (is_term (symbol_at syms p)); by split_and!.
  - intros p b [Hp <-]%Eb Et. destruct Hf as (_ & _ & _ & HT & _). destruct (number_token syms n0 p (Tok p Hp Et)) as [[_ Hlt] _].
    destruct (HT p (Tok p Hp Et) Hlt) as [_ [E1 E2]]. rewrite E1, E2.
    unfold valued_symbol, numbered_symbol. destruct (undefined syms p), (is_term (symbol_at syms p)); by split_and!.
  - intros p b [Hp <-]%Eb Et Hd. rewrite Val by (by apply Tok). rewrite (token_value syms n0 v a Hf Hc) by (by apply Tok). unfold undefined. by rewrite Et, (proj2 (Z.eqb_neq _ _) Hd).
  - intros p q b c [Hp <-]%Eb [Hq <-]%Eb Etp Etq Hd Ne. rewrite !Val by (by apply Tok). intros [= E].
    eapply (token_value_new syms n0 Hun Hvals v a Hf Hc p q); [by apply Tok|by apply Tok|done| |done]. unfold undefined. by rewrite Etp, Hd.
Qed.

End Numbered.

(** the packing of the rules *)
Lemma pack_rules_ok st' F l nt : goal_state st rs es st' -> are F (zlen syms) l -> (forall p, 0 <= p < zlen syms -> s_index (F p) = number p) -> nt = 1 + zlen (tokens_of syms) ->
  exists t, pack_grammar z (bucket_of (F n0)) nt (items st') (nb_rules st') (map (follow l) (pitem st')) (map (follow l) (plhs st')) (rprecs st') (rassocs st') = Ok t /\
    let g := Grammar t nt (zlen syms + 2) (nb_rules st') (items st') in
    lays_out g (rules_read g n0 number rules) /\ zlen (rprec t) = nb_rules st' /\ zlen (rassoc t) = nb_rules st'.
Proof.
  intros [_ _ [Ei (r1 & Ep)] [En (r2 & El)] [Z1 Z2] _] Hl Hi ->. rewrite Ep, El, !map_app, (follow_items F), (follow_lhs F) by done.
  assert (Hle : nb_rules st' <= zlen (plhs st')) by (rewrite El, zlen_app; pose proof (zlen_nonneg r2); lia). pose proof rules_zlen as [Hz1 Hz2]. pose proof (rg_shorts _ _ R) as Hsh.
  set (g0 := Grammar (Tables [] [] [] [] []) (1 + zlen (tokens_of syms)) (zlen syms + 2) (nb_rules st') (items st')).
  pose proof (packed_productions F g0 Hi) as EP. change (start_symbol g0) with (1 + zlen (tokens_of syms)) in EP. pose proof (zlen_nonneg (tokens_of syms)) as Ht.
  destruct packable as (Hg & Hv & _). pose proof (split_count syms n0 Hg) as Hsp. pose proof (zlen_nonneg (variables_of syms)) as Hvz.
  destruct (pack_grammar_correct z (bucket_of (F n0)) (1 + zlen (tokens_of syms)) (items st') (nb_rules st') (map (packed_rule F) rules) (rprecs st') (rassocs st')) with (nsyms := zlen syms + 2)
    as (t & Et & HL & [HZ1 HZ2] & _).
  - rewrite <- (follow_items F l Hl), zlen_map. exact Ei.
  - rewrite <- (follow_lhs F l Hl), zlen_map. exact En.
  - lia.
  - lia.
  - lia.
  - lia.
  - rewrite EP. constructor.
    + cbn [fst snd start_symbol g0]. rewrite (goal_number g0 eq_refl). cbn [start_symbol g0]. pose proof (goal_in_vars syms n0 Hg Hv) as Hin. destruct (number_variable syms n0 Hg Hv n0 Hin) as [Hb _].
      rewrite (number_goal syms n0 Hg Hv) in Hb. split; [lia|]. constructor; [lia|]. constructor; [lia|constructor].
    + apply Forall_map. eapply Forall_impl; [exact rules_symbols|]. intros r [[Hp Etr] Hw]. cbn [fst snd]. pose proof (number_bounds g0 eq_refl eq_refl _ Hp) as Hb. rewrite Etr in Hb.
      cbn [start_symbol nsyms g0] in Hb. split; [lia|]. apply Forall_map. eapply Forall_impl; [exact Hw|]. intros p [Hpp _]. destruct (number_apart g0 eq_refl eq_refl p Hpp) as [Hb2 _]. cbn [nsyms g0] in Hb2. cbn. lia.
  - exists t. split; [by apply pack_grammar_grown|]. cbv zeta. rewrite EP in HL. split; [exact HL|done].
Qed.

(** [check_symbols] *)
Lemma check_symbols_ok : forallb (fun p => entry_typed_b (symbol_at syms0 p)) es = true ->
  if acceptable_b syms0 then check_symbols syms n0 = Ok tt else fails (check_symbols syms n0).
Proof.
  intros Ht. unfold acceptable_b. rewrite Ht. cbn [andb]. unfold check_symbols.
  assert (Eg : rd syms n0 = Ok (goal_symbol es)) by (unfold with_goal; apply rd_mid). rewrite Eg. cbn [rbind].
  destruct es as [|p l] eqn:Ee; [rewrite decide_True by done; cbn [andb]; change (0 <? zlen (@nil Z)) with false; cbn; eexists; split; [done|]; right; right; by left|].
  rewrite decide_False by done. destruct (Z.ltb_spec 0 (zlen (p :: l))) as [_|H]; [|rewrite zlen_cons in H; pose proof (zlen_nonneg l); lia]. cbn [andb].
  assert (E : existsb (fun b => bool_decide (s_class b = UNKNOWN)) (with_goal syms0 (p :: l)) = negb (forallb (fun b => negb (bool_decide (s_class b = UNKNOWN))) syms0)).
  { unfold with_goal. rewrite existsb_app. cbn [existsb]. change (bool_decide (s_class (goal_symbol (p :: l)) = UNKNOWN)) with false.
    assert (H : existsb (fun b => bool_decide (s_class b = UNKNOWN)) (map (fun q => entry_token (symbol_at syms0 q)) (p :: l)) = false) by (generalize (p :: l) as q; induction q as [|q qs IH]; [done|exact IH]).
    rewrite H, !orb_false_r. generalize syms0 as bs. induction bs as [|b bs IH]; [done|]. cbn. rewrite IH. by destruct (bool_decide _). }
  rewrite E. destruct (forallb (fun b => negb (bool_decide (s_class b = UNKNOWN))) syms0); cbn [negb]; [done|]. eexists. split; [done|]. right. right. right. by left.
Qed.

Lemma finish_ok : if acceptable_b syms0 then
    exists g pr a, finish_reading junk z st = Ok (g, pr, a) /\ numbered syms n0 g a number /\
      forall tag, zlen tag = nsyms g -> well_packed g (rules_read g n0 number rules) (number n0) pr (symbol_value a) (symbol_true_token a) tag
  else fails (finish_reading junk z st).
Proof.
  unfold finish_reading. pose proof (make_goal_ok junk z st rs R) as Hm. destruct (forallb (fun p => entry_typed_b (symbol_at syms0 p)) es) eqn:Ht; cycle 1.
  { unfold acceptable_b. rewrite Ht. cbn [andb]. destruct Hm as (msg & -> & Hin). by exists msg. }
  destruct Hm as (st' & -> & Gst). cbn [rbind]. rewrite (gs_all _ _ _ _ Gst). pose proof (check_symbols_ok Ht) as Hck. destruct (acceptable_b syms0); [|destruct Hck as (msg & -> & Hin); by exists msg].
  rewrite Hck. cbn [rbind]. destruct packable as (Hg & Hv & Herr & Hun & Hvals & Hsz).
  destruct (pack_symbols_ok junk z syms n0 Hg Hv Herr Hun Hsz) as (l & a & v & -> & Hl & Hf & Ha & D & HD & Hc). cbn [rbind]. apply (chosen_perm _ _ _ _ _ _ HD) in Hc.
  rewrite (proj2 Hl n0 Hg). cbn [rbind]. destruct (pack_rules_ok st' (valued_symbol syms n0 v) l (1 + zlen (tokens_of syms)) Gst Hl) as (t & -> & HL & HZ1 & HZ2); [|done|].
  { intros p Hp. by apply valued_index. }
  cbn [rbind]. eexists _, _, a. split; [done|]. set (g := Grammar t _ _ _ _) in *. split; [exact (packed_numbered g eq_refl eq_refl v a Hf Hc)|].
  intros tag Htag. destruct Hf as ((Z1 & Z2 & Z3 & Z4 & Z5 & Z6) & Hf'). constructor; [exact HL|exact (packed_augmented g eq_refl eq_refl)|exact (packed_entries g eq_refl eq_refl)| | |].
  - apply (values_packed syms n0 Hg Hv Herr Hun Hvals Hsz g eq_refl eq_refl v a); [|done|done]. by repeat (split; [done|]).
  - done.
  - cbn [symbol_prec symbol_assoc tab g nrules]. unfold ntokens. cbn [start_symbol g]. pose proof (split_count syms n0 Hg). pose proof (zlen_nonneg (variables_of syms)). lia.
Qed.

End Finish.

(** C4: After the rules are read ([reads_grammar]: a table of symbols whose entry points have
    numbers of their own, the arrays of the rules, and numbers of symbols and of items that
    fit in shorts), the reader ends with a fatal error exactly when there is no entry point,
    or one without a type, or with a type that has variables (outside its identifiers, a
    quote, a #, or a bracket followed by < or >), or a symbol that is not defined.  If not, it
    ends with a packed grammar that has the rule of the start symbol, and, for each rule read
    and for each entry point, the rule spelled with the numbers of the symbols, each symbol
    having its own; a token keeps the value that it is given, and one that has none gets a
    value that no other token has. *)
Theorem finish_reading_correct junk z st rs : reads_grammar st rs ->
  let syms := with_goal (all (table st)) (entries (all (table st))) in
  let goal := zlen (all (table st)) in
  let rules := rs ++ entry_rules_of (all (table st)) (entries (all (table st))) in
  let number := number_of syms goal in
  (acceptable (all (table st)) ->
    exists g pr a, finish_reading junk z st = Ok (g, pr, a) /\ numbered syms goal g a number /\
      forall tag, zlen tag = nsyms g -> well_packed g (rules_read g goal number rules) (number goal) pr (symbol_value a) (symbol_true_token a) tag) /\
  (~ acceptable (all (table st)) -> fails (finish_reading junk z st)).
Proof.
  intros R syms goal rules number. rewrite <- acceptable_ok. pose proof (finish_ok junk z st rs R) as H. destruct (acceptable_b (all (table st))); split; done.
Qed.

(** ** The example *)

Definition example_table : symbols := table example_read.

Lemma example_all : all example_table = [
  Symbol error_name None UNDEFINED 1 0 TERM TOKEN 0 false; Symbol [65] None UNDEFINED 0 0 TERM TOKEN 0 true;
  Symbol [69; 79; 70] None 0 0 0 TERM TOKEN 0 true; Symbol [109; 97; 105; 110] (Some [105; 110; 116]) UNDEFINED 0 0 NONTERM TOKEN 1 false;
  Symbol [101] None UNDEFINED 0 0 NONTERM TOKEN 0 false].
Proof. vm_compute. reflexivity. Qed.

Ltac example_cases E := let H := fresh in
  match type of E with rd (all example_table) ?p = Ok ?b => pose proof (rd_range _ _ _ E) as H; rewrite example_all in E, H;
    assert (p = 0 \/ p = 1 \/ p = 2 \/ p = 3 \/ p = 4) as [->|[->|[->|[->| ->]]]] by (unfold zlen in H; cbn [length] in H; lia); clear H; vm_compute in E; injection E as <- end.

Lemma example_table_ok : table_ok example_table.
Proof.
  constructor.
  - vm_compute. reflexivity.
  - intros p b E. example_cases E; (split; [done|]); repeat constructor; cbn; lia.
  - intros p b h E Eh. assert (H : forallb (fun p => match rd (all example_table) p with Ok b => match hash (s_name b) with
        Ok h => match rd (chains example_table) h with Ok c => bool_decide (c = [p]) | _ => false end | _ => false end | _ => false end) [0; 1; 2; 3; 4] = true) by (vm_compute; reflexivity).
    rewrite forallb_forall in H. specialize (H p). rewrite E, Eh in H. destruct (rd (chains example_table) h) as [c| | |]; try (exfalso; assert (In p [0; 1; 2; 3; 4]) as Hp by (example_cases E; cbn; tauto); by apply H in Hp).
    exists c. split; [done|]. assert (In p [0; 1; 2; 3; 4]) as Hp by (example_cases E; cbn; tauto). apply H, bool_decide_eq_true in Hp. rewrite Hp. by left.
  - intros h c p E Hp. assert (H : forallb (forallb (fun p => (0 <=? p) && (p <? 5))) (chains example_table) = true) by (vm_compute; reflexivity).
    rewrite forallb_forall in H. apply rd_Ok in E as [_ E]. apply list_elem_of_lookup_2, list_elem_of_In, H in E. rewrite forallb_forall in E. apply list_elem_of_In, E in Hp.
    rewrite example_all. change (zlen _) with 5. apply andb_true_iff in Hp as [?%Z.leb_le ?%Z.ltb_lt]. lia.
Qed.

Lemma example_reads : reads_grammar example_read example_rules.
Proof.
  constructor; change (table example_read) with example_table.
  - exact example_table_ok.
  - intros p b E. example_cases E; (split; [split; [done|]; repeat constructor; cbn; lia|done]).
  - intros p b E. example_cases E; cbn; unfold MAX_ENTRY_POINT; lia.
  - intros p q b c E E'. example_cases E; example_cases E'; cbn; done || lia.
  - split; [reflexivity|]. by exists (replicate 288 None).
  - split; [reflexivity|]. by exists (replicate 94 None).
  - by vm_compute.
  - rewrite example_all. by eexists.
  - intros p b Hp E. example_cases E; cbn; (lia || done || (intros; by left) || (intros _; right; unfold MAXSHORT; lia)).
  - rewrite example_all. repeat constructor; cbn [fst snd]; try (eexists; split; reflexivity); vm_compute; done.
  - by vm_compute.
  - by vm_compute.
Qed.

(** the rules read, and the one of the entry point *)
Definition example_packed : list production := [(5, [6; 0]); (7, [8; 3]); (8, [2]); (8, [8; 2]); (6, [4; 7])].

Lemma finish_reading_witness : exists g pr a, finish_reading None 7 example_read = Ok (g, pr, a) /\
  symbol_value a = [0; 256; 257; 0; 1; -1; 0; 1; 2] /\
  well_packed g example_packed 6 pr (symbol_value a) (symbol_true_token a) (replicate 9 false).
Proof.
  destruct (finish_reading_correct None 7 example_read example_rules example_reads) as [H _]. cbv zeta in H.
  assert (Eacc : acceptable (all (table example_read))) by (apply acceptable_ok; vm_compute; reflexivity). destruct (H Eacc) as (g & pr & a & E & _ & H').
  exists g, pr, a. split; [exact E|]. vm_compute in E. injection E as <- <- <-. split; [reflexivity|]. apply H'. reflexivity.
Defined.
