(* ===== verification/Regexp.v ===== *)
(** * Regular expressions ([otherlibs/str/strstubs.c])

    The interpreter of the compiled regular expressions of the library Str: an automaton
    with groups and progress registers, which backtracks with a stack of program points
    and of the assignments to undo; then searching, and the expansion of replacement
    texts.

    [search_tree] is the backtracking search without the stack: the variables are passed
    down, and nothing has to be undone.  The interpreter finds the match that it finds. *)

From S2P Require Import Prelude.
From S2P Require Import Mlvalues.
From S2P Require Import Str.
#[local] Open Scope Z_scope.

(** a compiled expression: arrays of values, strings as blocks, values *)
Record regexp := Regexp {
  Prog : list Z;
  Cpool : list (list Z);
  Normtable : list Z;
  Numgroups : Z;
  Numregisters : Z;
  Startchars : Z }.

Definition Opcode (x : Z) : Z := Z.land x 0xFF.
Definition Arg (x : Z) : Z := Z.shiftr (u64 x) 8.
Definition SignedArg (x : Z) : Z := Z.shiftr x 8.

Inductive opcode :=
  | CHAR | CHARNORM | STRING | STRINGNORM | CHARCLASS | BOL | EOL | WORDBOUNDARY | BEGGROUP | ENDGROUP
  | REFGROUP | ACCEPT | SIMPLEOPT | SIMPLESTAR | SIMPLEPLUS | GOTO | PUSHBACK | SETMARK | CHECKPROGRESS.

(** the numbers of the enumeration *)
Definition opcodes : list opcode :=
  [CHAR; CHARNORM; STRING; STRINGNORM; CHARCLASS; BOL; EOL; WORDBOUNDARY; BEGGROUP; ENDGROUP;
   REFGROUP; ACCEPT; SIMPLEOPT; SIMPLESTAR; SIMPLEPLUS; GOTO; PUSHBACK; SETMARK; CHECKPROGRESS].

Definition NUM_REGISTERS : Z := 64.
Definition BACKTRACK_STACK_BLOCK_SIZE : Z := 200.

(** pointers into the text are positions; NULL is [None] *)
Definition re_group : Type := option Z * option Z.

(** a variable that an assignment is undone in *)
Inductive location := Group_start (n : Z) | Group_end (n : Z) | Register (n : Z).

(** the low bit of the first word tells the two cases apart *)
Inductive backtrack_point :=
  | Pos (pc txt : Z)
  | Undo (loc : location) (val : option Z).

(** the points of the current block, the last pushed first, and the blocks before it *)
Record backtrack_stack := Stack { point : list backtrack_point; previous : list (list backtrack_point) }.

Record variables := Variables { groups : list re_group; re_register : list (option Z) }.

Definition In_bitset (s : list Z) (i : Z) : result bool :=
  let* b := rd s (Z.shiftr i 3) in
  Ok (Z.testbit b (Z.land i 7)).

Definition re_word_letters : list Z :=
  [0x00; 0x00; 0x00; 0x00; 0x00; 0x00; 0xFF; 0x03; 0xFE; 0xFF; 0xFF; 0x87; 0xFE; 0xFF; 0xFF; 0x07;
   0x00; 0x00; 0x00; 0x00; 0x00; 0x00; 0x00; 0x00; 0xFF; 0xFF; 0x7F; 0xFF; 0xFF; 0xFF; 0x7F; 0xFF].

Definition Is_word_letter (c : Z) : result bool := In_bitset re_word_letters c.

(** ** Variables *)

Definition load_location (v : variables) (loc : location) : result (option Z) :=
  match loc with
  | Group_start n => rmap fst (rd (groups v) n)
  | Group_end n => rmap snd (rd (groups v) n)
  | Register n => rd (re_register v) n
  end.

Definition store_location (v : variables) (loc : location) (x : option Z) : result variables :=
  match loc with
  | Group_start n =>
      let* g := rd (groups v) n in
      let* gs := wr (groups v) n (x, g.2) in
      Ok (Variables gs (re_register v))
  | Group_end n =>
      let* g := rd (groups v) n in
      let* gs := wr (groups v) n (g.1, x) in
      Ok (Variables gs (re_register v))
  | Register n =>
      let* rs := wr (re_register v) n x in
      Ok (Variables (groups v) rs)
  end.

(** the positions of the groups, -1 for a group that is not matched *)
Definition re_alloc_groups (re : regexp) (gs : list re_group) : list Z :=
  concat (map (fun g =>
    match g with
    | (Some s, Some e) => [Val_long s; Val_long e]
    | _ => [Val_int (-1); Val_int (-1)]
    end) (take (Z.to_nat (Int_val (Numgroups re))) gs)).

(** ** One instruction *)

(** where the instruction jumps *)
Inductive move :=
  | Continue (pc txt : Z) (v : variables)
  | Push (back : backtrack_point) (pc txt : Z) (v : variables)
  | Prefix_match (txt : Z) (v : variables)
  | Backtrack (v : variables)
  | Accept (txt : Z) (v : variables).

Section Match.
  Context (re : regexp) (str : list Z) (endtxt : Z).

(** the result of matching characters at [txt] *)
Inductive chars := Matched (txt : Z) | End_of_text (txt : Z) | Mismatch.

(** one character: [ok] of the character read *)
Definition match_char (ok : Z -> result bool) (txt : Z) : result chars :=
  if txt =? endtxt then Ok (End_of_text txt) else
  let* c := rd str txt in
  let* b := ok c in
  Ok (if b then Matched (txt + 1) else Mismatch).

(** the characters of the C string [s] *)
Fixpoint match_string (norm : Z -> result Z) (s : list Z) (txt : Z) : result chars :=
  match s with
  | [] => Undef
  | c :: s =>
      if c =? 0 then Ok (Matched txt) else
      let* r := match_char (fun x => let* x := norm x in Ok (x =? c)) txt in
      match r with Matched txt => match_string norm s txt | r => Ok r end
  end.

(** the [n] characters from [s] on, in the text itself *)
Fixpoint match_group (n : nat) (s txt : Z) : result chars :=
  match n with
  | O => Ok (Matched txt)
  | S n =>
      let* c := rd str s in
      let* r := match_char (fun x => Ok (x =? c)) txt in
      match r with Matched txt => match_group n (s + 1) txt | r => Ok r end
  end.

(** while (txt < endtxt && In_bitset(set, *txt, c)) txt++ *)
Fixpoint skip_class (fuel : nat) (set : list Z) (txt : Z) {struct fuel} : result Z :=
  match fuel with
  | O => Ok txt
  | S fuel =>
      if txt <? endtxt then
        let* c := rd str txt in
        let* b := In_bitset set c in
        if b then skip_class fuel set (txt + 1) else Ok txt
      else Ok txt
  end.

Definition word_boundary (txt : Z) : result chars :=
  if txt =? 0 then
    if txt =? endtxt then Ok (End_of_text txt) else
    let* c := rd str txt in
    let* b := Is_word_letter c in
    Ok (if b then Matched txt else Mismatch)
  else
    let* c0 := rd str (txt - 1) in
    let* b0 := Is_word_letter c0 in
    if txt =? endtxt then Ok (if b0 then Matched txt else Mismatch) else
    let* c := rd str txt in
    let* b := Is_word_letter c in
    Ok (if Bool.eqb b0 b then Mismatch else Matched txt).

(** an assignment that is undone when the matching backtracks *)
Definition assign (loc : location) (pc txt : Z) (v : variables) : result move :=
  let* old := load_location v loc in
  let* v := store_location v loc (Some txt) in
  Ok (Push (Undo loc old) pc txt v).

Definition moved (r : chars) (pc : Z) (v : variables) : move :=
  match r with
  | Matched txt => Continue pc txt v
  | End_of_text txt => Prefix_match txt v
  | Mismatch => Backtrack v
  end.

(** the body of the switch; [pc] is after the instruction *)
Definition execute (instr pc txt : Z) (v : variables) : result move :=
  let* op := rd opcodes (Opcode instr) in
  let after (r : result chars) := let* r := r in Ok (moved r pc v) in
  match op with
  | CHAR => after (match_char (fun c => Ok (c =? Arg instr)) txt)
  | CHARNORM => after (match_char (fun c => let* c := rd (Normtable re) c in Ok (c =? Arg instr)) txt)
  | STRING => let* s := rd (Cpool re) (Arg instr) in after (match_string (fun c => Ok c) s txt)
  | STRINGNORM => let* s := rd (Cpool re) (Arg instr) in after (match_string (rd (Normtable re)) s txt)
  | CHARCLASS => let* s := rd (Cpool re) (Arg instr) in after (match_char (In_bitset s) txt)
  | BOL =>
      if 0 <? txt then
        let* c := rd str (txt - 1) in Ok (if c =? 10 then Continue pc txt v else Backtrack v)
      else Ok (Continue pc txt v)
  | EOL =>
      if txt <? endtxt then
        let* c := rd str txt in Ok (if c =? 10 then Continue pc txt v else Backtrack v)
      else Ok (Continue pc txt v)
  | WORDBOUNDARY => after (word_boundary txt)
  | BEGGROUP => assign (Group_start (s32 (Arg instr))) pc txt v
  | ENDGROUP => assign (Group_end (s32 (Arg instr))) pc txt v
  | REFGROUP =>
      let* g := rd (groups v) (s32 (Arg instr)) in
      match g with
      | (Some s, Some e) => after (match_group (Z.to_nat (e - s)) s txt)
      | _ => Ok (Backtrack v)
      end
  | ACCEPT => Ok (Accept txt v)
  | SIMPLEOPT =>
      let* s := rd (Cpool re) (Arg instr) in
      let* t := skip_class 1 s txt in Ok (Continue pc t v)
  | SIMPLESTAR =>
      let* s := rd (Cpool re) (Arg instr) in
      let* t := skip_class (Z.to_nat (endtxt - txt)) s txt in Ok (Continue pc t v)
  | SIMPLEPLUS =>
      let* s := rd (Cpool re) (Arg instr) in
      let* r := match_char (In_bitset s) txt in
      match r with
      | Matched t => let* t := skip_class (Z.to_nat (endtxt - t)) s t in Ok (Continue pc t v)
      | r => Ok (moved r pc v)
      end
  | GOTO => Ok (Continue (pc + SignedArg instr) txt v)
  | PUSHBACK => Ok (Push (Pos (pc + SignedArg instr) txt) pc txt v)
  | SETMARK => assign (Register (s32 (Arg instr))) pc txt v
  | CHECKPROGRESS =>
      let* r := rd (re_register v) (s32 (Arg instr)) in
      Ok (if bool_decide (r = Some txt) then Backtrack v else Continue pc txt v)
  end.

Definition re_step (pc txt : Z) (v : variables) : result move :=
  let* i := rd (Prog re) pc in
  execute (Long_val i) (pc + 1) txt v.

(** ** The interpreter *)

(** a new block when the current one is full *)
Definition push (back : backtrack_point) (s : backtrack_stack) : backtrack_stack :=
  if zlen (point s) =? BACKTRACK_STACK_BLOCK_SIZE then Stack [back] (point s :: previous s)
  else Stack (back :: point s) (previous s).

(** the last point, and the stack without it *)
Definition pop (s : backtrack_stack) : result (option (backtrack_point * backtrack_stack)) :=
  match point s with
  | back :: rest => Ok (Some (back, Stack rest (previous s)))
  | [] =>
      match previous s with
      | [] => Ok None
      | (back :: rest) :: prev => Ok (Some (back, Stack rest prev))
      | [] :: _ => Undef
      end
  end.

(** the assignments undone up to a program point; none when the stack is empty *)
Fixpoint backtrack (fuel : nat) (s : backtrack_stack) (v : variables) {struct fuel}
    : result (option (Z * Z * backtrack_stack * variables)) :=
  match fuel with
  | O => NoFuel
  | S fuel =>
      let* o := pop s in
      match o with
      | None => Ok None
      | Some (Pos pc txt, s) => Ok (Some (pc, txt, s, v))
      | Some (Undo loc val, s) =>
          let* v := store_location v loc val in
          backtrack fuel s v
      end
  end.

(** the points in the blocks *)
Definition stack_size (s : backtrack_stack) : nat := length (point s) + length (concat (previous s)).

Fixpoint match_loop (fuel : nat) (accept_partial_match : bool) (pc txt : Z) (s : backtrack_stack)
    (v : variables) {struct fuel} : result (option (Z * variables)) :=
  match fuel with
  | O => NoFuel
  | S fuel =>
      let* m := re_step pc txt v in
      let again v :=
        let* o := backtrack (S (stack_size s)) s v in
        match o with
        | None => Ok None
        | Some (pc, txt, s, v) => match_loop fuel accept_partial_match pc txt s v
        end in
      match m with
      | Continue pc txt v => match_loop fuel accept_partial_match pc txt s v
      | Push back pc txt v => match_loop fuel accept_partial_match pc txt (push back s) v
      | Prefix_match txt v => if accept_partial_match then Ok (Some (txt, v)) else again v
      | Backtrack v => again v
      | Accept txt v => Ok (Some (txt, v))
      end
  end.

(** the variables at the start: the end of the group 0 and the registers that the
    expression does not use are not initialized, and not read *)
Definition start_variables (txt : Z) : result variables :=
  let ngroups := Int_val (Numgroups re) in
  let nregisters := Int_val (Numregisters re) in
  if NUM_REGISTERS <? nregisters then Undef else
  let* gs := wr (replicate (Z.to_nat ngroups) (None, None)) 0 (Some txt, None) in
  Ok (Variables gs (replicate (Z.to_nat nregisters) None)).

(** the positions of the groups, none for 0 *)
Definition re_match (fuel : nat) (txt : Z) (accept_partial_match : bool) : result (option (list Z)) :=
  let* v := start_variables txt in
  let* o := match_loop fuel accept_partial_match 0 txt (Stack [] []) v in
  match o with
  | None => Ok None
  | Some (txt, v) =>
      let* v := store_location v (Group_end 0) (Some txt) in
      Ok (Some (re_alloc_groups re (groups v)))
  end.

(** ** Searching without a stack *)

Fixpoint search_tree (fuel : nat) (accept_partial_match : bool) (pc txt : Z) (v : variables) {struct fuel}
    : result (option (Z * variables)) :=
  match fuel with
  | O => NoFuel
  | S fuel =>
      let* m := re_step pc txt v in
      match m with
      | Continue pc txt v => search_tree fuel accept_partial_match pc txt v
      | Push (Undo _ _) pc txt v => search_tree fuel accept_partial_match pc txt v
      | Push (Pos pc' txt') pc txt v =>
          let* r := search_tree fuel accept_partial_match pc txt v in
          match r with
          | Some x => Ok (Some x)
          | None => search_tree fuel accept_partial_match pc' txt' v
          end
      | Prefix_match txt v => Ok (if accept_partial_match then Some (txt, v) else None)
      | Backtrack _ => Ok None
      | Accept txt v => Ok (Some (txt, v))
      end
  end.

Definition search_match (fuel : nat) (txt : Z) (accept_partial_match : bool) : result (option (list Z)) :=
  let* v := start_variables txt in
  let* o := search_tree fuel accept_partial_match 0 txt v in
  match o with
  | None => Ok None
  | Some (txt, v) =>
      let* v := store_location v (Group_end 0) (Some txt) in
      Ok (Some (re_alloc_groups re (groups v)))
  end.

(** ** The stack as a list *)

Definition points (s : backtrack_stack) : list backtrack_point := point s ++ concat (previous s).

Definition blocks_ok (s : backtrack_stack) : Prop := Forall (fun b => b <> []) (previous s).

Lemma push_points back s : blocks_ok s -> points (push back s) = back :: points s /\ blocks_ok (push back s).
Proof.
  intros H. unfold push. case_if E; [|by split]. split; [done|]. constructor; [|done].
  apply Z.eqb_eq in E. by destruct (point s).
Qed.

Lemma pop_points s : blocks_ok s ->
  match points s with
  | [] => pop s = Ok None
  | back :: l => exists s', pop s = Ok (Some (back, s')) /\ points s' = l /\ blocks_ok s'
  end.
Proof.
  destruct s as [[|back l] prev]; unfold points, blocks_ok, pop; cbn; intros H.
  - destruct H as [|[|back l] prev Hb H]; [done|done|]. cbn. by eexists.
  - by eexists.
Qed.

(** the list unwound up to a program point *)
Fixpoint unwind (l : list backtrack_point) (v : variables)
    : result (option (Z * Z * list backtrack_point * variables)) :=
  match l with
  | [] => Ok None
  | Pos pc txt :: l => Ok (Some (pc, txt, l, v))
  | Undo loc val :: l => let* v := store_location v loc val in unwind l v
  end.

Lemma backtrack_unwind fuel : forall s v, blocks_ok s -> (stack_size s < fuel)%nat ->
  match unwind (points s) v with
  | Ok (Some (pc, txt, l, v')) =>
      exists s', backtrack fuel s v = Ok (Some (pc, txt, s', v')) /\ points s' = l /\ blocks_ok s'
  | Ok None => backtrack fuel s v = Ok None
  | Raise e => backtrack fuel s v = Raise e
  | Undef => backtrack fuel s v = Undef
  | NoFuel => backtrack fuel s v = NoFuel
  end.
Proof.
  induction fuel as [|fuel IH]; intros s v B Hf; [lia|]. cbn [backtrack].
  pose proof (pop_points s B) as P. assert (Sz : stack_size s = length (points s))
    by (unfold stack_size, points; by rewrite length_app).
  destruct (points s) as [|[pc txt|loc val] l]; cbn [unwind].
  - by rewrite P.
  - destruct P as (s' & -> & E & B'). by exists s'.
  - destruct P as (s' & -> & E & B'). cbn [rbind].
    destruct (store_location v loc val) as [v'| | |]; cbn [rbind]; try done. rewrite <- E.
    apply IH; [done|]. assert (stack_size s' = length l) by (rewrite <- E; unfold stack_size, points; by rewrite length_app).
    cbn in Sz. lia.
Qed.

(** the interpreter on the list *)
Fixpoint list_loop (fuel : nat) (partial : bool) (pc txt : Z) (l : list backtrack_point) (v : variables)
    {struct fuel} : result (option (Z * variables)) :=
  match fuel with
  | O => NoFuel
  | S fuel =>
      let* m := re_step pc txt v in
      let again v :=
        let* o := unwind l v in
        match o with
        | None => Ok None
        | Some (pc, txt, l, v) => list_loop fuel partial pc txt l v
        end in
      match m with
      | Continue pc txt v => list_loop fuel partial pc txt l v
      | Push back pc txt v => list_loop fuel partial pc txt (back :: l) v
      | Prefix_match txt v => if partial then Ok (Some (txt, v)) else again v
      | Backtrack v => again v
      | Accept txt v => Ok (Some (txt, v))
      end
  end.

Lemma match_loop_list fuel partial : forall pc txt s v, blocks_ok s ->
  match_loop fuel partial pc txt s v = list_loop fuel partial pc txt (points s) v.
Proof.
  induction fuel as [|fuel IH]; intros pc txt s v B; [done|]. cbn [match_loop list_loop].
  destruct (re_step pc txt v) as [m| | |]; try done. cbn [rbind].
  assert (Again : forall v,
    (let* o := backtrack (S (stack_size s)) s v in
     match o with None => Ok None | Some (pc, txt, s, v) => match_loop fuel partial pc txt s v end) =
    (let* o := unwind (points s) v in
     match o with None => Ok None | Some (pc, txt, l, v) => list_loop fuel partial pc txt l v end)).
  { intros v0. pose proof (backtrack_unwind (S (stack_size s)) s v0 B ltac:(lia)) as U.
    destruct (unwind (points s) v0) as [[[[[pc' txt'] l] v']|]| | |]; cbn [rbind].
    - destruct U as (s' & -> & <- & B'). cbn [rbind]. by apply IH.
    - by rewrite U.
    - by rewrite U.
    - by rewrite U.
    - by rewrite U. }
  destruct m as [pc' txt' v'|back pc' txt' v'|txt' v'|v'|txt' v']; cbn zeta; rewrite ?Again; try done.
  - by apply IH.
  - destruct (push_points back s B) as [<- B']. by apply IH.
Qed.

(** ** Assignments and their undoing *)

Lemma wr_back {A} (l l' : list A) n x y : rd l n = Ok x -> wr l n y = Ok l' -> wr l' n x = Ok l.
Proof.
  intros [Hn Hx]%rd_Ok [Hn' ->]%wr_Ok. apply wr_Ok. split; [by rewrite zlen_insert|].
  rewrite list_insert_insert_eq. by rewrite list_insert_id.
Qed.

Lemma store_back v v' loc old x :
  load_location v loc = Ok old -> store_location v loc x = Ok v' -> store_location v' loc old = Ok v.
Proof.
  unfold load_location, store_location, re_group in *. destruct v as [gs rs], loc as [n|n|n]; cbn [groups re_register]; unfold re_group in *.
  - intros ([a b] & Eg & [= <-])%rbind_Ok (g' & Eg' & (gs' & W & [= <-])%rbind_Ok)%rbind_Ok. cbn.
    rewrite Eg in Eg'. injection Eg' as <-. pose proof (wr_back _ _ _ _ _ Eg W) as B.
    assert (R : rd gs' n = Ok (x, b)).
    { apply wr_Ok in W as [Hn ->]. apply rd_Ok. split; [lia|]. unfold zlen in Hn. by rewrite list_lookup_insert_eq by lia. }
    rewrite R. cbn [rbind fst snd]. by rewrite B.
  - intros ([a b] & Eg & [= <-])%rbind_Ok (g' & Eg' & (gs' & W & [= <-])%rbind_Ok)%rbind_Ok. cbn.
    rewrite Eg in Eg'. injection Eg' as <-. pose proof (wr_back _ _ _ _ _ Eg W) as B.
    assert (R : rd gs' n = Ok (a, x)).
    { apply wr_Ok in W as [Hn ->]. apply rd_Ok. split; [lia|]. unfold zlen in Hn. by rewrite list_lookup_insert_eq by lia. }
    rewrite R. cbn [rbind fst snd]. by rewrite B.
  - intros Eg (rs' & W & [= <-])%rbind_Ok. cbn. by rewrite (wr_back _ _ _ _ _ Eg W).
Qed.

(** the variables after an instruction: an assignment can be undone, and the other
    instructions keep them *)
Definition restores (v : variables) (m : move) : Prop :=
  match m with
  | Push (Undo loc old) _ _ v' => store_location v' loc old = Ok v
  | Continue _ _ v' | Push (Pos _ _) _ _ v' | Prefix_match _ v' | Backtrack v' | Accept _ v' => v' = v
  end.

Lemma assign_restores loc pc txt v m : assign loc pc txt v = Ok m -> restores v m.
Proof.
  intros (old & Eo & (v' & Es & [= <-])%rbind_Ok)%rbind_Ok. cbn. by eapply store_back.
Qed.

Lemma after_restores (r : result chars) pc v m :
  (let* r := r in Ok (moved r pc v)) = Ok m -> restores v m.
Proof. intros (c & _ & [= <-])%rbind_Ok. by destruct c. Qed.

Lemma execute_restores instr pc txt v m : execute instr pc txt v = Ok m -> restores v m.
Proof.
  unfold execute. intros (op & _ & E)%rbind_Ok. destruct op; cbn zeta in E.
  all: try by apply after_restores in E.
  all: try by apply assign_restores in E.
  all: try by injection E as <-.
  all: try by (apply rbind_Ok in E as (c & _ & E); apply after_restores in E).
  - revert E. case_if Q; [|by intros [= <-]]. intros (c & _ & E)%rbind_Ok. revert E. case_if R; by intros [= <-].
  - revert E. case_if Q; [|by intros [= <-]]. intros (c & _ & E)%rbind_Ok. revert E. case_if R; by intros [= <-].
  - apply rbind_Ok in E as ([[gs|] [ge|]] & _ & E); [by apply after_restores in E|by injection E as <-..].
  - by apply rbind_Ok in E as (c & _ & (t & _ & [= <-])%rbind_Ok).
  - by apply rbind_Ok in E as (c & _ & (t & _ & [= <-])%rbind_Ok).
  - apply rbind_Ok in E as (c & _ & (r & _ & E)%rbind_Ok). destruct r; [|by injection E as <-..].
    by apply rbind_Ok in E as (t' & _ & [= <-]).
  - apply rbind_Ok in E as (c & _ & E). case_bool_decide; by injection E as <-.
Qed.

Lemma step_restores pc txt v m : re_step pc txt v = Ok m -> restores v m.
Proof. intros (i & _ & E)%rbind_Ok. by apply execute_restores in E. Qed.

(** ** The interpreter and the search *)

(** the interpreter when it goes back to the points of [l] *)
Definition fail_to (fuel : nat) (partial : bool) (l : list backtrack_point) (v : variables)
    : result (option (Z * variables)) :=
  let* o := unwind l v in
  match o with
  | None => Ok None
  | Some (pc, txt, l, v) => list_loop fuel partial pc txt l v
  end.

Lemma search_runs partial fuel : forall pc txt v r,
  search_tree fuel partial pc txt v = Ok r ->
  exists n, forall F l, list_loop (n + F) partial pc txt l v =
    match r with Some x => Ok (Some x) | None => fail_to F partial l v end.
Proof.
  induction fuel as [|fuel IH]; intros pc txt v r E; [done|]. cbn [search_tree] in E.
  apply rbind_Ok in E as (m & Em & E). pose proof (step_restores _ _ _ _ Em) as R.
  destruct m as [pc1 txt1 v1|[pc2 txt2|loc old] pc1 txt1 v1|txt1 v1|v1|txt1 v1]; cbn in R.
  - subst v1. destruct (IH _ _ _ _ E) as (n & Hn). exists (S n). intros F l. cbn [list_loop Nat.add]. rewrite Em.
    cbn [rbind]. apply Hn.
  - subst v1. apply rbind_Ok in E as (r1 & E1 & E). destruct (IH _ _ _ _ E1) as (n1 & Hn1).
    destruct r1 as [x|].
    + injection E as <-. exists (S n1). intros F l. cbn [list_loop Nat.add]. rewrite Em. cbn [rbind]. apply Hn1.
    + destruct (IH _ _ _ _ E) as (n2 & Hn2). exists (S (n1 + n2)). intros F l. cbn [list_loop Nat.add].
      rewrite Em. cbn [rbind]. rewrite <- Nat.add_assoc, Hn1. unfold fail_to. cbn [unwind rbind]. apply Hn2.
  - destruct (IH _ _ _ _ E) as (n & Hn). exists (S n). intros F l. cbn [list_loop Nat.add]. rewrite Em.
    cbn [rbind]. rewrite Hn. destruct r; [done|]. unfold fail_to. cbn [unwind]. by rewrite R.
  - injection E as <-. subst v1. exists 1%nat. intros F l. cbn [list_loop Nat.add]. rewrite Em. cbn [rbind].
    by destruct partial.
  - injection E as <-. subst v1. exists 1%nat. intros F l. cbn [list_loop Nat.add]. by rewrite Em.
  - injection E as <-. exists 1%nat. intros F l. cbn [list_loop Nat.add]. by rewrite Em.
Qed.

Lemma search_mono partial f1 : forall f2 pc txt v r,
  search_tree f1 partial pc txt v = Ok r -> (f1 <= f2)%nat -> search_tree f2 partial pc txt v = Ok r.
Proof.
  induction f1 as [|f1 IH]; intros [|f2] pc txt v r E Hf; try done; try lia. cbn [search_tree] in *.
  apply rbind_Ok in E as (m & -> & E). cbn [rbind].
  destruct m as [pc1 txt1 v1|[pc2 txt2|loc old] pc1 txt1 v1|txt1 v1|v1|txt1 v1]; try done;
    try (apply IH; [done|lia]).
  apply rbind_Ok in E as (r1 & E1 & E). rewrite (IH _ _ _ _ _ E1) by lia. cbn [rbind].
  destruct r1; [done|]. apply IH; [done|lia].
Qed.

(** the search ends when the interpreter does *)
Lemma search_ends partial F : forall pc txt l v o,
  list_loop F partial pc txt l v = Ok o ->
  exists fuel r, search_tree fuel partial pc txt v = Ok r /\
    match r with Some x => o = Some x | None => exists F', (F' < F)%nat /\ fail_to F' partial l v = Ok o end.
Proof.
  induction F as [F IH] using lt_wf_ind. intros pc txt l v o E. destruct F as [|F]; [done|].
  cbn [list_loop] in E. apply rbind_Ok in E as (m & Em & E). pose proof (step_restores _ _ _ _ Em) as R.
  destruct m as [pc1 txt1 v1|[pc2 txt2|loc old] pc1 txt1 v1|txt1 v1|v1|txt1 v1]; cbn in R.
  - destruct (IH F ltac:(lia) _ _ _ _ _ E) as (fuel & r & Er & Hr). exists (S fuel), r. split.
    + cbn [search_tree]. by rewrite Em.
    + destruct r; [done|]. destruct Hr as (F' & HF & E'). exists F'. split; [lia|]. by subst v1.
  - subst v1. destruct (IH F ltac:(lia) _ _ _ _ _ E) as (f1 & r1 & Er1 & Hr1). destruct r1 as [x|].
    + exists (S f1), (Some x). split; [|exact Hr1]. cbn [search_tree]. rewrite Em. cbn [rbind]. by rewrite Er1.
    + destruct Hr1 as (F1 & HF1 & E1). unfold fail_to in E1. cbn [unwind rbind] in E1.
      destruct (IH F1 ltac:(lia) _ _ _ _ _ E1) as (f2 & r2 & Er2 & Hr2).
      exists (S (f1 + f2)), r2. split.
      * cbn [search_tree]. rewrite Em. cbn [rbind]. rewrite (search_mono _ _ _ _ _ _ _ Er1) by lia. cbn [rbind].
        apply (search_mono _ _ _ _ _ _ _ Er2). lia.
      * destruct r2; [done|]. destruct Hr2 as (F' & HF & E'). exists F'. split; [lia|done].
  - destruct (IH F ltac:(lia) _ _ _ _ _ E) as (fuel & r & Er & Hr). exists (S fuel), r. split.
    + cbn [search_tree]. by rewrite Em.
    + destruct r; [done|]. destruct Hr as (F' & HF & E'). exists F'. split; [lia|]. unfold fail_to in *. cbn [unwind] in E'. by rewrite R in E'.
  - exists 1%nat. cbn [search_tree]. rewrite Em. cbn [rbind]. eexists. split; [done|]. subst v1.
    destruct partial; [by injection E|]. exists F. split; [lia|done].
  - exists 1%nat. cbn [search_tree]. rewrite Em. cbn [rbind]. eexists. split; [done|]. subst v1.
    exists F. split; [lia|done].
  - exists 1%nat, (Some (txt1, v1)). cbn [search_tree]. rewrite Em. split; [done|]. by injection E.
Qed.

(** C21: The interpreter of regular expressions is the backtracking search: the match found
    with the stack of program points and of assignments to undo, in blocks that are pushed
    and freed, is the one of the search that passes the variables down and never undoes
    anything, positions of the groups included; and one ends exactly when the other does. *)
Theorem re_match_backtracking txt partial :
  (forall fuel r, search_match fuel txt partial = Ok r ->
     exists n, forall F, (n <= F)%nat -> re_match F txt partial = Ok r) /\
  (forall F r, re_match F txt partial = Ok r -> exists fuel, search_match fuel txt partial = Ok r).
Proof.
  split.
  - intros fuel r (v & Ev & (o & Eo & E)%rbind_Ok)%rbind_Ok.
    destruct (search_runs _ _ _ _ _ _ Eo) as (n & Hn). exists n. intros F HF.
    unfold re_match. rewrite Ev. cbn [rbind]. rewrite match_loop_list by constructor.
    replace F with (n + (F - n))%nat by lia. rewrite Hn. by destruct o.
  - intros F r (v & Ev & (o & Eo & E)%rbind_Ok)%rbind_Ok. rewrite match_loop_list in Eo by constructor.
    destruct (search_ends _ _ _ _ _ _ _ Eo) as (fuel & r' & Er & Hr). exists fuel.
    unfold search_match. rewrite Ev. cbn [rbind]. rewrite Er. cbn [rbind]. destruct r' as [x|].
    + by subst o.
    + destruct Hr as (F' & _ & E'). cbn in E'. by injection E' as <-.
Qed.

End Match.

(** ** Matching and searching in a string *)

(** the position in the string [str], a block *)
Definition text_position (str : list Z) (pos : Z) (who : string) : result (Z * Z) :=
  let txt := Long_val pos in
  let* endtxt := caml_string_length str in
  if (txt <? 0) || (endtxt <? txt) then Raise (Invalid_argument who) else Ok (txt, endtxt).

(** Atom(0) for 0 *)
Definition groups_or_empty (res : option (list Z)) : list Z := default [] res.

Definition re_string_match (fuel : nat) (re : regexp) (str : list Z) (pos : Z) : result (list Z) :=
  let* (txt, endtxt) := text_position str pos "Str.string_match" in
  let* res := re_match re str endtxt fuel txt false in
  Ok (groups_or_empty res).

Definition re_partial_match (fuel : nat) (re : regexp) (str : list Z) (pos : Z) : result (list Z) :=
  let* (txt, endtxt) := text_position str pos "Str.string_partial_match" in
  let* res := re_match re str endtxt fuel txt true in
  Ok (groups_or_empty res).

(** while (txt < endtxt && startchars[*txt] == 0) txt++ *)
Fixpoint skip_forward (n : nat) (startchars str : list Z) (endtxt txt : Z) : result Z :=
  match n with
  | O => Ok txt
  | S n =>
      if txt <? endtxt then
        let* c := rd str txt in
        let* b := rd startchars c in
        if b =? 0 then skip_forward n startchars str endtxt (txt + 1) else Ok txt
      else Ok txt
  end.

(** while (txt > starttxt && startchars[*txt] == 0) txt-- *)
Fixpoint skip_backward (n : nat) (startchars str : list Z) (txt : Z) : result Z :=
  match n with
  | O => Ok txt
  | S n =>
      if 0 <? txt then
        let* c := rd str txt in
        let* b := rd startchars c in
        if b =? 0 then skip_backward n startchars str (txt - 1) else Ok txt
      else Ok txt
  end.

(** the do-while loop of a search: the position of a try, and the next one *)
Fixpoint search_loop (n : nat) (try_at : Z -> result (option (list Z))) (skip : Z -> result Z) (next : Z)
    (inside : Z -> bool) (txt : Z) : result (list Z) :=
  match n with
  | O => NoFuel
  | S n =>
      let* txt := skip txt in
      let* res := try_at txt in
      match res with
      | Some gs => Ok gs
      | None => if inside (txt + next) then search_loop n try_at skip next inside (txt + next) else Ok []
      end
  end.

(** the set of the characters that a match starts with, if the expression has one *)
Definition start_set (re : regexp) : result (option (list Z)) :=
  if Int_val (Startchars re) =? -1 then Ok None
  else let* s := rd (Cpool re) (Int_val (Startchars re)) in Ok (Some s).

Definition re_search_forward (fuel : nat) (re : regexp) (str : list Z) (startpos : Z) : result (list Z) :=
  let* (txt, endtxt) := text_position str startpos "Str.search_forward" in
  let* set := start_set re in
  let skip txt := match set with
                  | None => Ok txt
                  | Some s => skip_forward (Z.to_nat (endtxt - txt)) s str endtxt txt
                  end in
  search_loop (S (Z.to_nat (endtxt - txt))) (fun txt => re_match re str endtxt fuel txt false) skip 1
    (fun txt => txt <=? endtxt) txt.

Definition re_search_backward (fuel : nat) (re : regexp) (str : list Z) (startpos : Z) : result (list Z) :=
  let* (txt, endtxt) := text_position str startpos "Str.search_backward" in
  let* set := start_set re in
  let skip txt := match set with
                  | None => Ok txt
                  | Some s => skip_backward (Z.to_nat txt) s str txt
                  end in
  search_loop (S (Z.to_nat txt)) (fun txt => re_match re str endtxt fuel txt false) skip (-1)
    (fun txt => 0 <=? txt) txt.

(** ** Replacement texts *)

(** the two words of a group in the array of positions; [c] is a digit *)
Definition group_bounds (gs : list Z) (c : Z) : result (Z * Z) :=
  let* s := rd gs (c * 2) in
  let* e := rd gs (c * 2 + 1) in
  Ok (u64 (Long_val s), u64 (Long_val e)).

Definition is_digit (c : Z) : bool := (48 <=? c) && (c <=? 57).

(** the first pass, on the characters that remain: the length of the result *)
Fixpoint replacement_length (p : list Z) (gs : list Z) (len : Z) : result Z :=
  match p with
  | [] => Ok len
  | c :: p =>
      if negb (c =? 92) then replacement_length p gs (u64 (len + 1)) else
      match p with
      | [] => Raise (Failure "Str.replace: illegal backslash sequence")
      | c :: p =>
          if c =? 92 then replacement_length p gs (u64 (len + 1))
          else if is_digit c then
            if zlen gs <=? (c - 48) * 2 then Raise (Failure "Str.replace: reference to unmatched group") else
            let* (s, e) := group_bounds gs (c - 48) in
            if s =? u64 (-1) then Raise (Failure "Str.replace: reference to unmatched group")
            else replacement_length p gs (u64 (len + u64 (e - s)))
          else replacement_length p gs (u64 (len + 2))
      end
  end.

(** the second pass: the characters written in the block [res] from [q] on *)
Fixpoint replacement_copy (p : list Z) (gs orig res : list Z) (q : Z) : result (list Z) :=
  match p with
  | [] => Ok res
  | c :: p =>
      if negb (c =? 92) then
        let* res := wr res q c in replacement_copy p gs orig res (q + 1)
      else
      match p with
      | [] => Undef
      | c :: p =>
          if c =? 92 then
            let* res := wr res q 92 in replacement_copy p gs orig res (q + 1)
          else if is_digit c then
            let* (s, e) := group_bounds gs (c - 48) in
            let len := u64 (e - s) in
            let* bs := slice orig s len in
            let* res := memcpy res q bs in
            replacement_copy p gs orig res (q + len)
          else
            let* res := wr res q 92 in
            let* res := wr res (q + 1) c in
            replacement_copy p gs orig res (q + 2)
      end
  end.

(** [fresh] is what the memory of the result holds *)
Definition re_replacement_text (fresh repl gs orig : list Z) : result (list Z) :=
  let* n := caml_string_length repl in
  let p := take (Z.to_nat n) repl in
  let* len := replacement_length p gs 0 in
  let* res := caml_alloc_string fresh len in
  replacement_copy p gs orig res 0.

(** ** The first match of a search *)

(** the first match of [o] at the positions [ps], in their order *)
Definition first_match (o : Z -> option (list Z)) (ps : list Z) : list Z :=
  groups_or_empty (head (omap o ps)).

(** the positions that [skip] passes have no match *)
Definition skips (o : Z -> option (list Z)) (skip : Z -> result Z) (ps : list Z) : Prop :=
  match ps with
  | [] => True
  | p :: _ => exists before q after,
      ps = before ++ q :: after /\ skip p = Ok q /\ Forall (fun x => o x = None) before
  end.

Lemma first_match_skip o before ps :
  Forall (fun x => o x = None) before -> first_match o (before ++ ps) = first_match o ps.
Proof.
  intros H. unfold first_match. rewrite omap_app.
  assert (omap o before = []) as ->; [|done].
  induction H as [|p l Ep _ IH]; [done|]. cbn. by rewrite Ep.
Qed.

(** [ps] lists the positions from [p] on, [d] apart, up to the end of the text *)
Fixpoint progression (d : Z) (inside : Z -> bool) (p : Z) (ps : list Z) : Prop :=
  match ps with
  | [] => inside p = false
  | q :: ps => q = p /\ inside p = true /\ progression d inside (p + d) ps
  end.

Lemma progression_app d inside before : forall p q ps,
  progression d inside p (before ++ q :: ps) -> progression d inside q (q :: ps).
Proof.
  induction before as [|b before IH]; intros p q ps.
  - by intros [-> H].
  - intros (-> & _ & H). by eapply IH.
Qed.

Lemma search_loop_first o try_at skip d inside n : forall p ps,
  (length ps <= n)%nat -> ps <> [] -> progression d inside p ps ->
  (forall x, x ∈ ps -> try_at x = Ok (o x)) ->
  (forall l1 l2, ps = l1 ++ l2 -> skips o skip l2) ->
  search_loop n try_at skip d inside p = Ok (first_match o ps).
Proof.
  induction n as [|n IH]; intros p ps Hn Hne Hp Ht Hs; [by destruct ps; simpl in Hn; [|lia]|].
  destruct ps as [|p0 ps0] eqn:E; [done|]. rewrite <- E in *.
  assert (p0 = p) as -> by (subst ps; by destruct Hp).
  pose proof (Hs [] ps eq_refl) as Sk. rewrite E in Sk at 1. destruct Sk as (before & q & after & Eps & Eq & Hb).
  rewrite <- E in Eps. cbn [search_loop]. rewrite Eq. cbn [rbind].
  rewrite Ht by (rewrite Eps, elem_of_app, elem_of_cons; tauto). cbn [rbind]. rewrite Eps, first_match_skip by done.
  rewrite Eps in Hp. apply progression_app in Hp. destruct Hp as (_ & _ & Hp).
  assert (Hl : (length after <= n)%nat) by (rewrite Eps, length_app in Hn; simpl in Hn; lia).
  unfold first_match. cbn [omap list_omap]. destruct (o q) as [gs|] eqn:Eo; [done|].
  fold (first_match o after). destruct after as [|a rest] eqn:Ea; [by rewrite Hp|].
  pose proof Hp as (_ & Hi & _). rewrite Hi. rewrite <- Ea in *. apply IH; [lia|by subst after|done| |].
  - intros x Hx. apply Ht. rewrite Eps, elem_of_app, elem_of_cons. tauto.
  - intros l1 l2 E2. apply (Hs (before ++ q :: l1)). by rewrite Eps, E2, <- app_assoc.
Qed.

(** a set of start characters passes over no match *)
Definition start_set_sound (set : option (list Z)) (str : list Z) (endtxt : Z) (o : Z -> option (list Z)) : Prop :=
  match set with
  | None => True
  | Some s => forall p, 0 <= p <= endtxt -> exists c b, rd str p = Ok c /\ rd s c = Ok b /\ (b = 0 -> o p = None)
  end.

Lemma skips_here o skip p l : skip p = Ok p -> skips o skip (p :: l).
Proof. intros E. by exists [], p, l. Qed.

Lemma skips_next o skip p l skip' q :
  o p = None -> skip p = skip' q -> skips o skip' (q :: l) -> skips o skip (p :: q :: l).
Proof.
  intros Eo E (before & x & after & El & Ex & H). exists (p :: before), x, after. rewrite El, E.
  split_and!; [done|done|by constructor].
Qed.

Lemma skip_forward_skips s str endtxt o n : start_set_sound (Some s) str endtxt o ->
  forall p l, 0 <= p -> (Z.to_nat (endtxt - p) <= n)%nat -> progression 1 (fun x => x <=? endtxt) p (p :: l) ->
  skips o (skip_forward n s str endtxt) (p :: l).
Proof.
  intros Hs. induction n as [|n IH]; intros p l Hp Hn (_ & Hi & Hl); [by apply skips_here|].
  destruct (Z.ltb_spec p endtxt) as [Hlt|Hge].
  2:{ apply skips_here. cbn. destruct (Z.ltb_spec p endtxt); [lia|done]. }
  destruct (Hs p) as (c & b & Ec & Eb & Ho); [lia|].
  assert (E : skip_forward (S n) s str endtxt p = if b =? 0 then skip_forward n s str endtxt (p + 1) else Ok p).
  { cbn. destruct (Z.ltb_spec p endtxt); [|lia]. rewrite Ec. cbn [rbind]. by rewrite Eb. }
  destruct (Z.eqb_spec b 0) as [->|]; [|by apply skips_here].
  destruct l as [|q l]; [cbn in Hl; destruct (Z.leb_spec (p + 1) endtxt); [done|lia]|].
  pose proof Hl as (-> & _). eapply skips_next; [by apply Ho|exact E|]. apply IH; [lia..|done].
Qed.

Lemma skip_backward_skips s str endtxt o n : start_set_sound (Some s) str endtxt o ->
  forall p l, p <= endtxt -> (Z.to_nat p <= n)%nat -> progression (-1) (fun x => 0 <=? x) p (p :: l) ->
  skips o (skip_backward n s str) (p :: l).
Proof.
  intros Hs. induction n as [|n IH]; intros p l Hp Hn (_ & Hi & Hl); [by apply skips_here|].
  destruct (Z.ltb_spec 0 p) as [Hlt|Hge].
  2:{ apply skips_here. cbn. destruct (Z.ltb_spec 0 p); [lia|done]. }
  destruct (Hs p) as (c & b & Ec & Eb & Ho); [lia|].
  assert (E : skip_backward (S n) s str p = if b =? 0 then skip_backward n s str (p + -1) else Ok p).
  { cbn. destruct (Z.ltb_spec 0 p); [|lia]. rewrite Ec. cbn [rbind]. by rewrite Eb. }
  destruct (Z.eqb_spec b 0) as [->|]; [|by apply skips_here].
  destruct l as [|q l]; [cbn in Hl; destruct (Z.leb_spec 0 (p + -1)); [done|lia]|].
  pose proof Hl as (-> & _). eapply skips_next; [by apply Ho|exact E|]. apply IH; [lia..|done].
Qed.

(** the positions from [p] up, and down *)
Fixpoint ascending (n : nat) (p : Z) : list Z :=
  match n with O => [] | S n => p :: ascending n (p + 1) end.

Fixpoint descending (n : nat) (p : Z) : list Z :=
  match n with O => [] | S n => p :: descending n (p + -1) end.

Lemma ascending_ok n : forall p e, Z.of_nat n = e - p + 1 ->
  progression 1 (fun x => x <=? e) p (ascending n p) /\ length (ascending n p) = n /\
  forall x, x ∈ ascending n p -> p <= x <= e.
Proof.
  induction n as [|n IH]; intros p e Hn.
  - cbn. split_and!; [destruct (Z.leb_spec p e); [lia|done]|done|]. by intros x ?%elem_of_nil.
  - destruct (IH (p + 1) e) as (P & L & X); [lia|]. cbn. split_and!; [done|..|done|by rewrite L|].
    + destruct (Z.leb_spec p e); [done|lia].
    + intros x [->|Hx]%elem_of_cons; [lia|]. apply X in Hx. lia.
Qed.

Lemma descending_ok n : forall p, Z.of_nat n = p + 1 ->
  progression (-1) (fun x => 0 <=? x) p (descending n p) /\ length (descending n p) = n /\
  forall x, x ∈ descending n p -> 0 <= x <= p.
Proof.
  induction n as [|n IH]; intros p Hn.
  - cbn. split_and!; [destruct (Z.leb_spec 0 p); [lia|done]|done|]. by intros x ?%elem_of_nil.
  - destruct (IH (p + -1)) as (P & L & X); [lia|]. cbn. split_and!; [done|..|done|by rewrite L|].
    + destruct (Z.leb_spec 0 p); [done|lia].
    + intros x [->|Hx]%elem_of_cons; [lia|]. apply X in Hx. lia.
Qed.

Lemma text_position_block blk s pos who : string_block blk s ->
  text_position blk pos who =
    if (Long_val pos <? 0) || (zlen s <? Long_val pos) then Raise (Invalid_argument who)
    else Ok (Long_val pos, zlen s).
Proof. intros H. unfold text_position. by rewrite (caml_string_length_block _ _ H). Qed.

(** C34: Searching forward, and backward, gives the groups of the first match at the
    positions from the start up to the end of the text, and down to its beginning, the end
    of the text being a position, and no group when there is no match; the set of start
    characters, when the expression has one, skips positions but changes no result; a
    start outside the text raises [Invalid_argument]. *)
Theorem re_search_first fuel re blk s pos set o :
  string_block blk s ->
  start_set re = Ok set -> start_set_sound set blk (zlen s) o ->
  (forall p, 0 <= p <= zlen s -> re_match re blk (zlen s) fuel p false = Ok (o p)) ->
  let p := Long_val pos in
  if (p <? 0) || (zlen s <? p) then
    re_search_forward fuel re blk pos = Raise (Invalid_argument "Str.search_forward") /\
    re_search_backward fuel re blk pos = Raise (Invalid_argument "Str.search_backward")
  else
    re_search_forward fuel re blk pos = Ok (first_match o (ascending (Z.to_nat (zlen s - p + 1)) p)) /\
    re_search_backward fuel re blk pos = Ok (first_match o (descending (Z.to_nat (p + 1)) p)).
Proof.
  intros Hb Hset Hs Hm p. unfold re_search_forward, re_search_backward.
  rewrite !(text_position_block _ _ _ _ Hb), Hset. fold p.
  destruct (Z.ltb_spec p 0); [done|]. destruct (Z.ltb_spec (zlen s) p); [done|]. cbn [orb rbind].
  split.
  - destruct (ascending_ok (Z.to_nat (zlen s - p + 1)) p (zlen s)) as (P & L & X); [lia|].
    apply search_loop_first; [lia|by intros E; rewrite E in L; simpl in L; lia|done| |].
    + intros x Hx%X. apply Hm. lia.
    + intros l1 [|q l2] E; [done|]. pose proof P as P'. rewrite E in P'. apply progression_app in P'.
      destruct (X q) as [X1 X2]; [rewrite E, elem_of_app, elem_of_cons; tauto|].
      destruct set as [set|]; [|by apply skips_here].
      apply (skip_forward_skips _ _ _ _ (Z.to_nat (zlen s - q)) Hs); [lia..|done].
  - destruct (descending_ok (Z.to_nat (p + 1)) p) as (P & L & X); [lia|].
    apply search_loop_first; [lia|by intros E; rewrite E in L; simpl in L; lia|done| |].
    + intros x Hx%X. apply Hm. lia.
    + intros l1 [|q l2] E; [done|]. pose proof P as P'. rewrite E in P'. apply progression_app in P'.
      destruct (X q) as [X1 X2]; [rewrite E, elem_of_app, elem_of_cons; tauto|].
      destruct set as [set|]; [|by apply skips_here].
      apply (skip_backward_skips _ _ _ _ (Z.to_nat q) Hs); [lia..|done].
Qed.

(** ** An example: a\(b\|c\) *)

Definition instruction (op arg : Z) : Z := Val_long (op + arg * 256).

Definition start_a : list Z := <[97%nat := 1]> (replicate 256 0).

Definition re_abc : regexp :=
  Regexp [instruction 0 97; instruction 8 1; instruction 16 2; instruction 0 98; instruction 15 1; instruction 0 99;
          instruction 9 1; instruction 11 0]
    [start_a] [] (Val_long 2) (Val_long 0) (Val_long 0).

(** zacb, a block *)
Definition text_zacb : list Z := [122; 97; 99; 98; 0; 0; 0; 3].

Example match_at_1 : re_string_match 20 re_abc text_zacb (Val_long 1) = Ok (map Val_long [1; 3; 2; 3]).
Proof. reflexivity. Qed.

Lemma re_search_first_witness :
  string_block text_zacb [122; 97; 99; 98] /\
  re_search_forward 20 re_abc text_zacb (Val_long 0) = Ok (map Val_long [1; 3; 2; 3]) /\
  re_search_backward 20 re_abc text_zacb (Val_long 4) = Ok (map Val_long [1; 3; 2; 3]).
Proof.
  set (o p := if p =? 1 then Some (map Val_long [1; 3; 2; 3]) else None).
  assert (B : string_block text_zacb [122; 97; 99; 98]).
  { split; [|reflexivity]. repeat constructor; unfold is_u8; lia. }
  assert (C : forall p, 0 <= p <= 4 -> p = 0 \/ p = 1 \/ p = 2 \/ p = 3 \/ p = 4) by lia.
  assert (H : start_set_sound (Some start_a) text_zacb 4 o).
  { intros p [-> | [-> | [-> | [-> | ->]]]]%C; by eexists _, _. }
  assert (M : forall p, 0 <= p <= 4 -> re_match re_abc text_zacb 4 20 p false = Ok (o p)).
  { intros p [-> | [-> | [-> | [-> | ->]]]]%C; vm_compute; reflexivity. }
  split; [exact B|]. split.
  - exact (proj1 (re_search_first 20 re_abc text_zacb _ (Val_long 0) (Some start_a) o B eq_refl H M)).
  - exact (proj2 (re_search_first 20 re_abc text_zacb _ (Val_long 4) (Some start_a) o B eq_refl H M)).
Defined.

(** ** The expansion of a replacement text *)

(** the array of the positions of groups, as [re_alloc_groups] makes it *)
Definition encode_groups (ms : list (option (Z * Z))) : list Z :=
  concat (map (fun m => match m with
                        | Some (s, e) => [Val_long s; Val_long e]
                        | None => [Val_int (-1); Val_int (-1)]
                        end) ms).

(** the text of a group *)
Definition group_text (ms : list (option (Z * Z))) (orig : list Z) (n : Z) : option (list Z) :=
  match ms !! Z.to_nat n with
  | Some (Some (s, e)) => Some (take (Z.to_nat (e - s)) (drop (Z.to_nat s) orig))
  | _ => None
  end.

(** what a replacement text stands for *)
Fixpoint expand (p : list Z) (ms : list (option (Z * Z))) (orig : list Z) : result (list Z) :=
  match p with
  | [] => Ok []
  | c :: p =>
      if negb (c =? 92) then rmap (app [c]) (expand p ms orig) else
      match p with
      | [] => Raise (Failure "Str.replace: illegal backslash sequence")
      | c :: p =>
          if c =? 92 then rmap (app [92]) (expand p ms orig)
          else if is_digit c then
            match group_text ms orig (c - 48) with
            | None => Raise (Failure "Str.replace: reference to unmatched group")
            | Some t => rmap (app t) (expand p ms orig)
            end
          else rmap (app [92; c]) (expand p ms orig)
      end
  end.

(** the texts that replacements are made of *)
Lemma replacement_ind (P : list Z -> Prop) :
  P [] -> P [92] ->
  (forall c p, c <> 92 -> P p -> P (c :: p)) ->
  (forall c p, P p -> P (92 :: c :: p)) ->
  forall p, P p.
Proof.
  intros H0 H1 H2 H3 p. enough (P p /\ forall c, P (c :: p)) as [? _] by done.
  induction p as [|c p [IH1 IH2]].
  - split; [done|]. intros c. destruct (Z.eq_dec c 92) as [E|]; [by rewrite E|by apply H2].
  - split; [done|]. intros d. destruct (Z.eq_dec d 92) as [E|]; [rewrite E; by apply H3|by apply H2].
Qed.

(** the groups lie in the text *)
Definition groups_in (ms : list (option (Z * Z))) (len : Z) : Prop :=
  Forall (fun m => match m with Some (s, e) => 0 <= s <= e /\ e <= len | None => True end) ms.

Lemma encode_groups_spec ms : forall n,
  zlen (encode_groups ms) = 2 * zlen ms /\
  match ms !! n with
  | None => True
  | Some m =>
      let (s, e) := match m with Some (s, e) => (Val_long s, Val_long e) | None => (Val_int (-1), Val_int (-1)) end in
      rd (encode_groups ms) (Z.of_nat n * 2) = Ok s /\ rd (encode_groups ms) (Z.of_nat n * 2 + 1) = Ok e
  end.
Proof.
  assert (R : forall {A} (a b : A) l i, 0 <= i -> rd (a :: b :: l) (i + 2) = rd l i).
  { intros A a b l i Hi. unfold rd. destruct (Z.ltb_spec (i + 2) 0), (Z.ltb_spec i 0); try lia.
    by replace (Z.to_nat (i + 2)) with (S (S (Z.to_nat i))) by lia. }
  induction ms as [|m ms IH]; intros n; [by destruct n|].
  assert (E : exists a b, encode_groups (m :: ms) = a :: b :: encode_groups ms /\
    (a, b) = match m with Some (s, e) => (Val_long s, Val_long e) | None => (Val_int (-1), Val_int (-1)) end).
  { destruct m as [[s e]|]; by eexists _, _. }
  destruct E as (a & b & -> & Em). rewrite !zlen_cons. split; [destruct (IH 0%nat); lia|].
  destruct n as [|n]; cbn [lookup list_lookup].
  - by rewrite <- Em.
  - destruct (IH n) as [_ H]. replace (Z.of_nat (S n) * 2) with (Z.of_nat n * 2 + 2) by lia.
    replace (Z.of_nat n * 2 + 2 + 1) with (Z.of_nat n * 2 + 1 + 2) by lia. by rewrite !R by lia.
Qed.

Lemma group_bounds_spec ms orig len n : groups_in ms len -> len < 2 ^ 60 -> 0 <= n ->
  match group_text ms orig n with
  | Some t => exists s e, (zlen (encode_groups ms) <=? n * 2) = false /\
      group_bounds (encode_groups ms) n = Ok (s, e) /\ s <> u64 (-1) /\ u64 (e - s) = e - s /\ 0 <= s <= e /\ e <= len /\
      t = take (Z.to_nat (e - s)) (drop (Z.to_nat s) orig)
  | None => (zlen (encode_groups ms) <=? n * 2) = true \/ exists e, group_bounds (encode_groups ms) n = Ok (u64 (-1), e)
  end.
Proof.
  intros Hm Hl Hn. destruct (encode_groups_spec ms (Z.to_nat n)) as [L H]. unfold group_text.
  rewrite Z2Nat.id in H by lia. destruct (ms !! Z.to_nat n) as [[[s e]|]|] eqn:E.
  - assert (B : 0 <= s <= e /\ e <= len) by exact (Forall_lookup_1 _ _ _ _ Hm E). destruct H as [E1 E2].
    exists s, e. apply rd_range in E1 as R. unfold group_bounds. rewrite E1. cbn [rbind]. rewrite E2. cbn [rbind].
    rewrite !Long_val_long_id, !u64_id by (unfold is_s63, is_u64; lia). split_and!; try lia; try done.
    + intros ->. assert (u64 (-1) = 2 ^ 64 - 1) by reflexivity. lia.
    + apply u64_id. unfold is_u64. lia.
  - destruct H as [E1 E2]. right. unfold group_bounds. rewrite E1. cbn [rbind]. rewrite E2. by eexists.
  - left. apply lookup_ge_None in E. unfold zlen in L at 2. apply Z.leb_le. lia.
Qed.

(** the first pass, in the terms of the specification *)
Lemma replacement_length_expand ms orig p : groups_in ms (zlen orig) -> zlen orig < 2 ^ 60 -> forall len,
  is_u64 len ->
  replacement_length p (encode_groups ms) len = rmap (fun t => u64 (len + zlen t)) (expand p ms orig).
Proof.
  intros Hm Ho. induction p as [| |c p Hc IH|c p IH] using replacement_ind; intros len Hl.
  - cbn. by rewrite Z.add_0_r, u64_id.
  - done.
  - cbn [replacement_length expand]. destruct (Z.eqb_spec c 92); [done|]. cbn [negb].
    rewrite IH by apply u64_range. destruct (expand p ms orig); cbn; try done. f_equal. rewrite zlen_cons. solve_word.
  - cbn [replacement_length expand]. cbn [Z.eqb Pos.eqb negb]. destruct (Z.eqb_spec c 92) as [->|].
    { rewrite IH by apply u64_range. destruct (expand p ms orig); cbn; try done. f_equal. rewrite zlen_cons. solve_word. }
    destruct (is_digit c) eqn:D.
    2:{ rewrite IH by apply u64_range. destruct (expand p ms orig); cbn; try done. f_equal. rewrite !zlen_cons. solve_word. }
    unfold is_digit in D. pose proof (group_bounds_spec ms orig _ (c - 48) Hm Ho ltac:(lia)) as G.
    destruct (group_text ms orig (c - 48)) as [t|].
    + destruct G as (s & e & -> & -> & Hs & He & ? & ? & Et). cbn [rbind].
      destruct (Z.eqb_spec s (u64 (-1))); [done|]. rewrite IH by apply u64_range.
      destruct (expand p ms orig) as [r| | |]; cbn; try done. f_equal. rewrite zlen_app.
      assert (zlen t = e - s) by (rewrite Et; unfold zlen in *; rewrite length_take, length_drop; lia).
      rewrite He. solve_word.
    + destruct G as [->|(e & ->)]; [done|]. case_if Q; [done|]. cbn [rbind]. by rewrite Z.eqb_refl.
Qed.

Lemma patch_app s i a b : 0 <= i -> i + zlen a + zlen b <= zlen s ->
  patch (patch s i a) (i + zlen a) b = patch s i (a ++ b).
Proof.
  intros Hi H. unfold patch, zlen in *.
  assert (L : length (take (Z.to_nat i) s ++ a) = Z.to_nat (i + Z.of_nat (length a))) by (rewrite length_app, length_take; lia).
  rewrite (app_assoc _ a), <- L. rewrite take_app_length, drop_app_add.
  rewrite <- !app_assoc, drop_drop, !length_app. do 4 f_equal. lia.
Qed.

Lemma patch_zlen s i bs : 0 <= i -> i + zlen bs <= zlen s -> zlen (patch s i bs) = zlen s.
Proof. intros. unfold zlen. by rewrite patch_length. Qed.

(** [k] writes the bytes [t] from [q] on, in a string of [n] bytes *)
Definition writes (k : list Z -> result (list Z)) (q : Z) (t : list Z) (n : Z) : Prop :=
  forall res s, string_block res s -> zlen s = n -> exists r, k res = Ok r /\ string_block r (patch s q t).

Lemma writes_nil q n : writes Ok q [] n.
Proof. intros res s H _. exists res. by rewrite patch_nil. Qed.

Lemma writes_char k q c t n : is_u8 c -> 0 <= q -> q + zlen (c :: t) <= n -> writes k (q + 1) t n ->
  writes (fun res => let* res := wr res q c in k res) q (c :: t) n.
Proof.
  intros Hc Hq Hl K res s Hr Hs. rewrite zlen_cons in Hl. pose proof (zlen_nonneg t).
  destruct (string_block_wr _ _ q c Hr) as (r1 & E1 & H1); [lia|done|]. rewrite E1. cbn [rbind].
  destruct (K r1 _ H1) as (r2 & E2 & H2); [by rewrite zlen_insert|]. exists r2. split; [done|].
  by rewrite patch_cons in H2 by lia.
Qed.

Lemma writes_bytes k q bs t n : is_bytes bs -> 0 <= q -> q + zlen (bs ++ t) <= n -> writes k (q + zlen bs) t n ->
  writes (fun res => let* res := memcpy res q bs in k res) q (bs ++ t) n.
Proof.
  intros Hc Hq Hl K res s Hr Hs. rewrite zlen_app in Hl. pose proof (zlen_nonneg t).
  destruct (memcpy_block _ _ q bs Hr) as (r1 & E1 & H1); [done|lia..|]. rewrite E1. cbn [rbind].
  destruct (K r1 _ H1) as (r2 & E2 & H2); [by rewrite patch_zlen by lia|]. exists r2. split; [done|].
  by rewrite patch_app in H2 by lia.
Qed.

Lemma writes_ext k k' q t n : (forall res, k res = k' res) -> writes k' q t n -> writes k q t n.
Proof. intros E K res s Hr Hs. rewrite E. by apply K. Qed.

(** the second pass *)
Lemma replacement_copy_expand ms orig oblk n p :
  groups_in ms (zlen orig) -> zlen orig < 2 ^ 60 -> string_block oblk orig -> is_bytes p ->
  forall t q, expand p ms orig = Ok t -> 0 <= q -> q + zlen t <= n ->
  writes (fun res => replacement_copy p (encode_groups ms) oblk res q) q t n.
Proof.
  intros Hm Ho Hob.
  induction p as [| |c p Hc IH|c p IH] using replacement_ind; intros Hp t q E Hq Hl.
  - injection E as <-. apply writes_nil.
  - done.
  - apply Forall_cons in Hp as [Hc8 Hp]. cbn [replacement_copy expand] in *. destruct (Z.eqb_spec c 92); [done|].
    cbn [negb] in *. destruct (expand p ms orig) as [t'| | |]; try done. injection E as <-.
    apply writes_char; [done..|]. apply IH; [done..|lia|cbn [app] in Hl; rewrite zlen_cons in Hl; lia].
  - apply Forall_cons in Hp as [H92 [Hc8 Hp]%Forall_cons]. cbn [replacement_copy expand] in *.
    cbn [Z.eqb Pos.eqb negb] in *. destruct (Z.eqb_spec c 92) as [->|].
    { destruct (expand p ms orig) as [t'| | |]; try done. injection E as <-. apply writes_char; [done..|].
      apply IH; [done..|lia|cbn [app] in Hl; rewrite zlen_cons in Hl; lia]. }
    destruct (is_digit c) eqn:D.
    2:{ destruct (expand p ms orig) as [t'| | |]; try done. injection E as <-. cbn [app] in *.
        pose proof Hl as Hl'. rewrite !zlen_cons in Hl'.
        apply writes_char; [done..|]. apply writes_char; [done|lia|rewrite zlen_cons; lia|].
        replace (q + 1 + 1) with (q + 2) by lia. apply IH; [done..|lia|lia]. }
    unfold is_digit in D. pose proof (group_bounds_spec ms orig _ (c - 48) Hm Ho ltac:(lia)) as G.
    destruct (group_text ms orig (c - 48)) as [t1|]; [|done].
    destruct G as (s & e & _ & Eb & _ & He & Hs & Hle & Et).
    destruct (expand p ms orig) as [t'| | |]; try done. injection E as <-. cbn [app] in *.
    eapply writes_ext.
    { intros res. rewrite Eb. cbn [rbind]. rewrite He, (slice_block _ _ _ _ Hob), <- Et by lia. reflexivity. }
    cbn [rbind].
    assert (L : zlen t1 = e - s) by (rewrite Et; unfold zlen in *; rewrite length_take, length_drop; lia).
    apply writes_bytes; [|done..|].
    + rewrite Et. apply Forall_take, Forall_drop. apply Hob.
    + rewrite L. pose proof (zlen_nonneg t1). apply IH; [done..|lia|rewrite zlen_app in Hl; lia].
Qed.

(** C35: The replacement text is the expansion of the template: a backslash and a digit
    stand for the text of the group, two backslashes for one, and the others are copied;
    it fails on a backslash at the end and on a group that is not matched or does not
    exist.  The length computed by the first pass is the one that the second pass fills,
    within the block. *)
Theorem re_replacement_text_correct fresh rblk repl ms oblk orig :
  string_block rblk repl -> string_block oblk orig -> zlen orig < 2 ^ 60 -> groups_in ms (zlen orig) ->
  is_bytes fresh -> zlen fresh < 2 ^ 60 ->
  match expand repl ms orig with
  | Ok t => zlen t + 8 <= zlen fresh ->
      exists blk, re_replacement_text fresh rblk (encode_groups ms) oblk = Ok blk /\ string_block blk t
  | e => re_replacement_text fresh rblk (encode_groups ms) oblk = e
  end.
Proof.
  intros Hr Hob Ho Hm Hf Hfl. unfold re_replacement_text.
  rewrite (caml_string_length_block _ _ Hr). cbn [rbind].
  assert (take (Z.to_nat (zlen repl)) rblk = repl) as ->.
  { destruct Hr as [_ ->]. unfold zlen. by rewrite Nat2Z.id, take_app_length. }
  rewrite (replacement_length_expand ms orig) by (unfold is_u64; lia || done).
  destruct (expand repl ms orig) as [t| | |] eqn:E; try done. intros Hl. cbn [rmap rbind].
  pose proof (zlen_nonneg t). rewrite Z.add_0_l, u64_id by (unfold is_u64; lia).
  destruct (caml_alloc_string_layout fresh (zlen t)) as (data & Hd & Hb & ->); [lia..|]. cbn [rbind].
  destruct (replacement_copy_expand ms orig oblk (zlen t) repl Hm Ho Hob (proj1 Hr) t 0 E) with
    (res := data ++ padding (length data)) (s := data) as (blk & Eb & H1); [lia..|by split; [apply Hb|]|done|].
  exists blk. split; [done|].
  assert (patch data 0 t = t) as <-; [|done].
  unfold patch. cbn [Z.to_nat Nat.add take]. rewrite drop_ge, app_nil_r; [done|unfold zlen in *; lia].
Qed.

(** the groups of a match of a\(b\|c\) in zacb, replaced by <\1\\> *)
Definition template : list Z := [60; 92; 49; 92; 92; 62; 0; 1].

Example replacement_1 :
  re_replacement_text (replicate 32 7) template (map Val_long [1; 3; 2; 3]) text_zacb = Ok [60; 99; 92; 62; 0; 0; 0; 3].
Proof. reflexivity. Qed.

Lemma re_replacement_text_witness :
  exists blk, re_replacement_text (replicate 32 7) template (encode_groups [Some (1, 3); Some (2, 3)]) text_zacb = Ok blk /\
    string_block blk [60; 99; 92; 62].
Proof.
  assert (R : string_block template [60; 92; 49; 92; 92; 62]).
  { split; [|reflexivity]. repeat constructor; unfold is_u8; lia. }
  assert (B : string_block text_zacb [122; 97; 99; 98]).
  { split; [|reflexivity]. repeat constructor; unfold is_u8; lia. }
  assert (G : groups_in [Some (1, 3); Some (2, 3)] 4) by (repeat constructor; lia).
  assert (F : is_bytes (replicate 32 7)) by (apply Forall_replicate; unfold is_u8; lia).
  exact (re_replacement_text_correct (replicate 32 7) template _ [Some (1, 3); Some (2, 3)] text_zacb _ R B
    ltac:(reflexivity) G F ltac:(reflexivity) ltac:(discriminate)).
Defined.
