(* ===== verification/Prng.v ===== *)
(** * The LXM pseudo-random number generator ([ocaml/runtime/prng.c]) *)

From S2P Require Import Prelude.
#[local] Open Scope Z_scope.

Definition M : Z := 0xd1342543de82ef95.

Record LXM_state := LXM { lxm_a : Z; lxm_s : Z; lxm_x0 : Z; lxm_x1 : Z }.

Definition rotl (x k : Z) : Z := Z.lor (u64 (Z.shiftl x k)) (Z.shiftr x (64 - k)).

(** [caml_lxm_next_unboxed]: the number drawn and the new state *)
Definition caml_lxm_next_unboxed (st : LXM_state) : Z * LXM_state :=
  let z := u64 (lxm_s st + lxm_x0 st) in
  let z := u64 (Z.lxor z (Z.shiftr z 32) * 0xdaba0b6eb09322e3) in
  let z := u64 (Z.lxor z (Z.shiftr z 32) * 0xdaba0b6eb09322e3) in
  let z := Z.lxor z (Z.shiftr z 32) in
  let s := u64 (u64 (lxm_s st * M) + lxm_a st) in
  let q0 := lxm_x0 st in
  let q1 := lxm_x1 st in
  let q1 := Z.lxor q1 q0 in
  let q0 := rotl q0 24 in
  let q0 := Z.lxor (Z.lxor q0 q1) (u64 (Z.shiftl q1 16)) in
  let q1 := rotl q1 37 in
  (z, LXM (lxm_a st) s q0 q1).

Definition caml_lxm_next (st : LXM_state) : Z * LXM_state :=
  let (z, st) := caml_lxm_next_unboxed st in (s64 z, st).

(** ** The state never repeats before the whole cycle: the transition is invertible *)

Definition is_state (st : LXM_state) : Prop :=
  is_u64 (lxm_a st) /\ is_u64 (lxm_s st) /\ is_u64 (lxm_x0 st) /\ is_u64 (lxm_x1 st).

Definition rotr (x k : Z) : Z := rotl x (64 - k).

(** the inverse of [M] modulo [2^64] *)
Definition M_inv : Z := 0x572b5ee77a54e3bd.

(** the previous state *)
Definition lxm_prev (st : LXM_state) : LXM_state :=
  let q1 := rotr (lxm_x1 st) 37 in
  let q0 := rotr (Z.lxor (Z.lxor (lxm_x0 st) q1) (u64 (Z.shiftl q1 16))) 24 in
  LXM (lxm_a st) (u64 (u64 (lxm_s st - lxm_a st) * M_inv)) q0 (Z.lxor q1 q0).

Lemma is_u64_bits x : is_u64 x -> forall i, 64 <= i -> Z.testbit x i = false.
Proof. intros Hx i Hi. by apply (testbit_high x 64). Qed.

Lemma u64_lor x y : is_u64 x -> is_u64 y -> is_u64 (Z.lor x y).
Proof.
  intros Hx Hy. apply bits_range; [lia| |].
  - apply Z.lor_nonneg. unfold is_u64 in *. lia.
  - intros i Hi. by rewrite Z.lor_spec, !is_u64_bits.
Qed.

Lemma u64_lxor x y : is_u64 x -> is_u64 y -> is_u64 (Z.lxor x y).
Proof.
  intros Hx Hy. apply bits_range; [lia| |].
  - apply Z.lxor_nonneg. unfold is_u64 in *. lia.
  - intros i Hi. by rewrite Z.lxor_spec, !is_u64_bits.
Qed.

Lemma u64_shiftr x k : is_u64 x -> 0 <= k -> is_u64 (Z.shiftr x k).
Proof.
  intros Hx Hk. rewrite Z.shiftr_div_pow2 by done. unfold is_u64 in *.
  assert (0 < 2 ^ k) by (apply Z.pow_pos_nonneg; lia).
  split; [apply Z.div_pos; lia|]. apply Z.le_lt_trans with x; [|lia].
  apply Z.div_le_upper_bound; nia.
Qed.
#[export] Hint Resolve u64_lor u64_lxor u64_shiftr : word.

Lemma rotl_range x k : is_u64 x -> 0 <= k <= 64 -> is_u64 (rotl x k).
Proof. intros. unfold rotl. apply u64_lor; [auto with word|]. apply u64_shiftr; [done|lia]. Qed.

Lemma rotr_rotl x k : is_u64 x -> 0 < k < 64 -> rotr (rotl x k) k = x.
Proof.
  intros Hx Hk. unfold rotr, rotl, u64. pose proof (is_u64_bits x Hx) as H.
  replace (64 - (64 - k)) with k by lia.
  apply Z.bits_inj'. intros i Hi.
  rewrite !Z.lor_spec, testbit_mod_pow2', testbit_shiftl', testbit_shiftr', !Z.lor_spec,
    !testbit_mod_pow2', !testbit_shiftl', !testbit_shiftr' by lia.
  replace (i - (64 - k) - k) with (i - 64) by lia.
  replace (i - (64 - k) + (64 - k)) with i by lia.
  replace (i + k - k) with i by lia. replace (i + k + (64 - k)) with (i + 64) by lia.
  rewrite (H (i + 64)) by lia.
  zcases; rewrite ?H by lia; rewrite ?(testbit_neg x (i - 64)) by lia; btauto.
Qed.

Lemma M_inv_correct x : is_u64 x -> u64 (u64 (x * M) * M_inv) = x.
Proof.
  intros Hx. unfold u64. rewrite Zmult_mod_idemp_l, <- Z.mul_assoc.
  rewrite <- Zmult_mod_idemp_r. change ((M * M_inv) mod 2 ^ 64) with 1.
  rewrite Z.mul_1_r. apply Z.mod_small. exact Hx.
Qed.

Lemma lxor_cancel x y z : Z.lxor (Z.lxor (Z.lxor (Z.lxor x y) z) y) z = x.
Proof. zbits. Qed.

Lemma lxor_cancel_r x y : Z.lxor (Z.lxor x y) y = x.
Proof. by rewrite Z.lxor_assoc, Z.lxor_nilpotent, Z.lxor_0_r. Qed.

Lemma lxm_prev_next st z st' :
  is_state st -> caml_lxm_next_unboxed st = (z, st') -> lxm_prev st' = st.
Proof.
  intros (Ha & Hs & H0 & H1) E. unfold caml_lxm_next_unboxed in E. injection E as _ <-.
  unfold lxm_prev. cbn [lxm_a lxm_s lxm_x0 lxm_x1].
  rewrite rotr_rotl by (auto with word || lia).
  rewrite lxor_cancel, rotr_rotl by (auto with word || lia).
  rewrite lxor_cancel_r. destruct st as [a s x0 x1]. cbn [lxm_a lxm_s lxm_x0 lxm_x1] in *.
  f_equal. rewrite <- (M_inv_correct s Hs) at 2. do 2 f_equal.
  unfold u64. rewrite Zminus_mod_idemp_l.
  replace ((s * M) mod 2 ^ 64 + a - a) with ((s * M) mod 2 ^ 64) by lia.
  by rewrite Z.mod_mod.
Qed.

(** Drawing a number keeps the state a vector of 64-bit words, and can be
    undone: [lxm_prev] gives the previous state back, so two states never merge;
    in particular the XBG subgenerator, never zero at the start, stays nonzero. *)
Theorem lxm_next_invertible st :
  is_state st ->
  let (z, st') := caml_lxm_next_unboxed st in
  is_u64 z /\ is_state st' /\ lxm_prev st' = st /\
  (~ (lxm_x0 st = 0 /\ lxm_x1 st = 0) -> ~ (lxm_x0 st' = 0 /\ lxm_x1 st' = 0)) /\
  (caml_lxm_next st = (s64 z, st')).
Proof.
  intros Hst. pose proof (lxm_prev_next st) as P. unfold caml_lxm_next.
  destruct (caml_lxm_next_unboxed st) as [z st'] eqn:E. specialize (P z st' Hst eq_refl).
  pose proof Hst as (Ha & Hs & H0 & H1).
  assert (R : is_u64 z /\ is_state st').
  { unfold caml_lxm_next_unboxed in E. injection E as <- <-. unfold is_state.
    cbn [lxm_a lxm_s lxm_x0 lxm_x1]. split_and!;
    repeat (apply u64_lxor || apply u64_shiftr || apply rotl_range); auto with word; lia. }
  split_and!; try tauto.
  intros N [Z0 Z1]. apply N. rewrite <- P. unfold lxm_prev.
  rewrite Z0, Z1. cbn. done.
Qed.

Lemma lxm_next_witness :
  let (z, st') := caml_lxm_next_unboxed (LXM 1 2 3 4) in lxm_prev st' = LXM 1 2 3 4.
Proof.
  apply (lxm_next_invertible (LXM 1 2 3 4)).
  unfold is_state, is_u64. simpl. lia.
Defined.
